(* ===== verification/_CoqProject ===== *)
-Q . S2P
Prelude.v
GoStrings.v
GoNumbers.v
GoPath.v
SshOptions.v
ControlPath.v
Regex.v
Exec.v
Models.v
NetIP.v
Analyzer.v
Policy.v
Config.v
OpenSSH.v
SchemaV2.v
Edits.v
Repository.v
Target.v
Credentials.v
CredentialSafety.v
CredentialRepository.v
Approval.v
Guardrail.v
Patch.v
Plan.v
Ports.v
Inventory.v
Transfer.v
Tasks.v
ConcMap.v
Tunnel.v
Terminal.v
Sessions.v
Wire.v
Mux.v
MuxServer.v
Vault.v
Cache.v
Sftp.v
StepErrors.v
Playbook.v
Runner.v
Engine.v
