(* ===== verification/Prelude.v ===== *)
(** * xops-cli: a verification development of its core

    xops-cli (Go) runs commands, scripts, file transfers and playbooks on remote hosts
    over SSH, serves them to language models over MCP behind a guardrail, and keeps
    credentials in an offline vault.  This library models the parts of it that decide
    something: what a command line becomes, what may run, what state survives.
    Each file holds one part, its data, its operations written as the Go functions are
    written, and the theorems about it; paths below are relative to the repository's [src/].

    ** How the code is modelled

    A function that returns a value and an error is a function into [result]; a string is
    its bytes; an integer is a [Z], with the wrap-around of its width where the code can
    reach it; a map is a [gmap], and where Go leaves the order of a range open, the order
    is an argument.  State under a lock is a record and each locked region is one
    step, so goroutines are interleavings of steps; [reachable] is the closure.
    What the source does not contain (networks, files, clocks, randomness, the digest and
    cipher primitives, the YAML, template, SSH and SFTP libraries) is an argument of the
    definitions or a type class, never an assumption about the result.  Loops that are not
    structural have fuel bounded by the length of what they consume, and a lemma that it is
    enough.

    ** The files

    - Shared: [Prelude] (results, invariants, tallies, automation); [GoStrings], [GoNumbers],
      [GoPath], [Regex], [NetIP] (the parts of Go's standard library the code relies on);
      [Wire] (big-endian encodings and the classes [Message] and [Canonical]).
    - Commands on a host: [Exec] (core/ssh command_plan.go, execution_config.go, shebang.go,
      working_dir.go, windows_adapter.go), [Plan] (core/ssh/plan.go: jump chains,
      connection keys, the cache of plan generations).
    - Options and shared connections: [SshOptions] (core/ssh ssh_options.go), [ControlPath]
      (control_config.go), [Mux] (mux_protocol.go) and [MuxServer] (mux_server.go: the life of a
      master, its goroutines as interleaved program counters).
    - The configuration: [Models] (pkg/models, the records), [Config] (pkg/config types.go, provider.go:
      indexes and views), [OpenSSH] (openssh.go, openssh_import.go), [SchemaV2] (schema_v2.go,
      validate.go), [Edits] (the mutations of repository.go and its neighbours), [Repository]
      (transactions over a file that may be lost, publication), [Target] (target.go and
      pending_connection.go: from what a user types to a node, and its creation).
    - Credentials: [Credentials] (pkg/credential service.go, journal.go, asset_delete.go as programs over
      failing stores), [CredentialSafety] (a program logic for them, and what never gets lost),
      [CredentialRepository] (the repository behind the service: the class [ConfigUpdater] is
      stated by the first, used by the second and discharged by the third), [Cache] (cache.go),
      [Vault] (internal/credentialfile/format, the binary formats of the vault).
    - The guardrail of MCP tool calls: [Analyzer] and [Policy] (core/mcp/guardrail analyzer.go,
      policy.go, core/mcp/policy), [Approval] (approval.go, approval_roundtrip.go), and
      [Guardrail] (guardrail.go, authorization.go), which composes them in the order of
      the code over a trace of audit records and handler runs.
    - The inventory of the MCP server: [Ports] (core/mcp/ports: snapshots, bindings, permits;
      it uses [Plan] and [Policy]) and [Inventory] (core/mcp/state: admission of
      operations against published snapshots, dependency closure, publication).
    - Tools of the MCP server: [Patch] (core/mcp/patch), [Transfer] and [Tasks]
      (core/mcp/transfer: records, and the manager with its journal), [Tunnel]
      (core/mcp/tunnel), [Terminal] and [Sessions] (core/mcp/session: output and completion of
      commands; slots and lifetimes of sessions).
    - [Sftp]: core/sftp transfer.go and replace_local.go, transfers of single files over two file systems
      whose every call may fail.
    - [ConcMap]: core/concurrent, the sharded map the inventory is kept in.
    - Playbooks: [StepErrors] (error trees and their classification), [Playbook] (loading,
      validation, targets), [Runner] (one step on one host, with retries and ensure steps;
      it plans commands with [Exec]), [Engine] (the run over all hosts).

    ** What the theorems show

    - Safety of commands: a plan's payload is read by the outer shell as exactly the
      words intended ([Exec]); the guardrail runs a handler only behind an allowing decision
      and an audit record ([Guardrail]), an approval is used once ([Approval]); the analyser's
      verdict is characterised exactly, and so is the policy's, by paths compared component by
      component, the threshold that applies, and the limit of batches ([Policy]).
    - The connection that is made is the one that was asked for: an explicit user and port
      hold whatever is saved, a preview is what is then created, a creation overwrites
      nothing ([Target]); no option that decides whom to trust comes from an OpenSSH file ([OpenSSH]).
    - Nothing is lost: through failures, kills, power losses and concurrent edits every reference
      the configuration holds has its secret and every secret is tracked ([CredentialSafety]),
      with the repository as it is ([CredentialRepository]); a commit changes nothing or publishes
      what it wrote ([Repository]); a mutation leaves the other nodes alone ([Edits]); a transfer leaves
      the new file or the old one at its destination ([Sftp]).
    - Invariants of the managers over every interleaving: no live permit depends on a deleted
      node ([Inventory]), a retired plan is never used again ([Plan]), each call moves a transfer by
      at most one lawful transition, one task owns a destination
      and an uncertain transfer stays uncertain over a restart ([Tasks]), slots are
      bounded and never leak to another generation ([Sessions]), tunnels follow their life cycle
      ([Tunnel]), a master cuts nobody off and is not left behind, under the
      conditions its theorems name ([MuxServer]), a cached secret is what the store holds ([Cache]),
      reports of a playbook run are faithful and a cancelled run begins nothing ([Engine]).
    - Refinement: the transfer manager and the tunnel manager against life cycles, the
      patch engine against edits, the sharded map against one map, the linked cache against a list,
      the manifest verifier against the list of entries.
    - Round trips and authenticity: packets and messages ([Mux]), every vault format and
      what opening an item, a key or a transaction proves ([Vault]), schema v2 ([SchemaV2]), patch
      blocks, the frames of an ensure check ([Runner]).
    - Termination and progress: workers of tunnels end, a publication completes, a run
      of a playbook is finite and never stuck, drains and shutdowns of a master complete.
    - Divergences between the code and its intent are theorems too: the order dependence
      of node overrides, overlapping search blocks, sessions lost to a closed reader, the
      overflow of the number of retries, the missing duration of an aborted host, a one-time
      password that reaches the nodes which shared an identity, a connection redirected by a renamed
      identity, a resumed upload that is written in the wrong place, and three runs of a master: a stop without an answer, a handoff taken back
      after a stop, and a session released twice.

    ** What is not modelled

    Command-line parsing, prompts and screens (cmd, pkg/tui, pkg/i18n), which print and
    ask; dialling, authentication and the relays around the SSH and SFTP libraries
    (core/ssh connector.go, the trees of core/sftp, pkg/adapter), whose behaviour is that of
    libraries and networks; files, locks and processes (internal/credentialfile below
    its formats, internal/credentialhelper, internal/kdfhelper, internal/terminal); reading and
    writing the YAML of the configuration and its migrations (pkg/config store.go, migration.go), where
    [Repository] has the disk and its failures but takes the text as a value. Within
    modelled files: JSON and YAML encodings, texts of error messages and measured
    durations. *)
From stdpp Require Export base list strings gmap relations.
From Stdlib Require Export ZArith Lia Bool Ascii.
From Stdlib Require String.

(** * Results: Go functions that return a value and an error *)

(** A Go function [func f(...) (A, error)] becomes a function into
    [result E A]: [Ok a] is [(a, nil)], [Err e] is [(zero, e)]. *)
Inductive result (E A : Type) : Type :=
  | Ok (a : A)
  | Err (e : E).
Arguments Ok {E A} a.
Arguments Err {E A} e.

Definition result_bind {E A B} (f : A -> result E B) (m : result E A) : result E B :=
  match m with Ok a => f a | Err e => Err e end.

#[export] Instance result_mbind E : MBind (result E) := fun _ _ => result_bind.
#[export] Instance result_mret E : MRet (result E) := fun _ => Ok.

Definition is_ok {E A} (m : result E A) : bool :=
  match m with Ok _ => true | Err _ => false end.

(** [if b { return e }] at the start of a Go function. *)
Definition reject_if {E} (b : bool) (e : E) : result E unit :=
  if b then Err e else Ok tt.

Declare Scope xops_scope.
Delimit Scope xops_scope with xops.
Notation "'reject' b 'with' e ;; k" := (result_bind (fun _ : unit => k) (reject_if b e))
  (at level 100, b at level 99, e at level 99, k at level 200, right associativity) : xops_scope.
Notation "'try' x := m ;; k" := (result_bind (fun x => k) m)
  (at level 100, x pattern, m at level 99, k at level 200, right associativity) : xops_scope.
Open Scope xops_scope.

(** * Booleans of the code as decidable propositions *)
Definition bool_of (P : Prop) `{Decision P} : bool := bool_decide P.

(** Go's [slices.Contains]. *)
Definition slice_contains {A} `{EqDecision A} (l : list A) (x : A) : bool :=
  existsb (fun y => bool_decide (y = x)) l.

(** * Step relations and invariants *)
Definition reachable {S} (init : S -> Prop) (step : S -> S -> Prop) (s : S) : Prop :=
  exists s0, init s0 /\ rtc step s0 s.

(** * Shared lemmas *)
Lemma Ok_inj {E A} (a b : A) : @Ok E A a = Ok b -> a = b.
Proof. congruence. Qed.

Lemma Err_inj {E A} (a b : E) : @Err E A a = Err b -> a = b.
Proof. congruence. Qed.

Section ResultLemmas.
Context {E A B : Type}.
Implicit Types (m : result E A) (f : A -> result E B).

Lemma result_bind_ok m f b :
  result_bind f m = Ok b <-> exists a, m = Ok a /\ f a = Ok b.
Proof. destruct m; simpl; split; [eauto | | done |]; intros (x & Hx & Hf); congruence. Qed.

Lemma result_bind_err m f e :
  result_bind f m = Err e <-> m = Err e \/ exists a, m = Ok a /\ f a = Err e.
Proof. destruct m; simpl; split; [eauto | | eauto |]; naive_solver. Qed.

Lemma reject_if_ok (b : bool) (e : E) u : reject_if b e = Ok u <-> b = false.
Proof. destruct b, u; simpl; split; congruence || done. Qed.

Lemma reject_if_err (b : bool) (e e' : E) : reject_if b e = Err e' <-> b = true /\ e = e'.
Proof. destruct b; simpl; naive_solver. Qed.

Lemma bind_reject_ok (b : bool) (e : E) (k : unit -> result E B) r :
  result_bind k (reject_if b e) = Ok r <-> b = false /\ k tt = Ok r.
Proof. destruct b; simpl; naive_solver. Qed.

Lemma bind_reject_err (b : bool) (e e' : E) (k : unit -> result E B) :
  result_bind k (reject_if b e) = Err e' <-> (b = true /\ e = e') \/ (b = false /\ k tt = Err e').
Proof. destruct b; simpl; naive_solver. Qed.
End ResultLemmas.

Lemma slice_contains_spec {A} `{EqDecision A} (l : list A) (x : A) :
  slice_contains l x = true <-> x ∈ l.
Proof.
  unfold slice_contains. rewrite existsb_exists. setoid_rewrite bool_decide_eq_true.
  setoid_rewrite <- list_elem_of_In. naive_solver.
Qed.

(** An invariant of the initial states that every step preserves holds in
    every reachable state. *)
Lemma reachable_invariant {S} (init : S -> Prop) (step : S -> S -> Prop) (I : S -> Prop) :
  (forall s, init s -> I s) ->
  (forall s s', I s -> step s s' -> I s') ->
  forall s, reachable init step s -> I s.
Proof.
  intros Hinit Hstep s (s0 & H0 & Hrtc). apply Hinit in H0.
  induction Hrtc; eauto.
Qed.

Lemma reachable_step {S} (init : S -> Prop) (step : S -> S -> Prop) s s' :
  reachable init step s -> step s s' -> reachable init step s'.
Proof. intros (s0 & H0 & Hr) Hs. exists s0. split; [done|]. by eapply rtc_r. Qed.

(** * Counting the entries of a map *)
Definition tally {K A} `{Countable K} (f : A -> Z) (m : gmap K A) : Z := map_fold (fun _ a n => (f a + n)%Z) 0%Z m.

Section Tally.
Context {K A : Type} `{Countable K}.
Implicit Types (f : A -> Z) (m : gmap K A).
#[local] Open Scope Z_scope.

Lemma tally_new f m k a : m !! k = None -> tally f (<[k := a]> m) = f a + tally f m.
Proof. intros Hk. unfold tally. apply (map_fold_insert_L (fun (_ : K) a n => f a + n)); [intros; lia|done]. Qed.

Lemma tally_delete f m k a : m !! k = Some a -> tally f (delete k m) = tally f m - f a.
Proof.
  intros Hk. assert (delete k m !! k = None) as Hd by apply lookup_delete_eq.
  pose proof (tally_new f (delete k m) k a Hd) as E. rewrite insert_delete_eq, (insert_id m k a Hk) in E. lia.
Qed.

Lemma tally_update f m k a b : m !! k = Some a -> tally f (<[k := b]> m) = tally f m - f a + f b.
Proof.
  intros Hk. rewrite <- (insert_delete_eq m k b), tally_new, (tally_delete _ _ _ _ Hk) by apply lookup_delete_eq. lia.
Qed.

Lemma tally_nonneg f m : (forall a, 0 <= f a) -> 0 <= tally f m.
Proof.
  intros Hf. induction m as [|k a m Hk IH] using map_ind; [done|]. rewrite tally_new by done. specialize (Hf a). lia.
Qed.

(** An entry counts for no more than all of them. *)
Lemma tally_entry f m k a : (forall a, 0 <= f a) -> m !! k = Some a -> f a <= tally f m.
Proof. intros Hf Hk. pose proof (tally_delete f m k a Hk) as E. pose proof (tally_nonneg f (delete k m) Hf). lia. Qed.

(** And two different entries for no more than all. *)
Lemma tally_entries f m k a k' b : (forall a, 0 <= f a) -> m !! k = Some a -> m !! k' = Some b -> k <> k' -> f a + f b <= tally f m.
Proof.
  intros Hf Hk Hk' Hne. pose proof (tally_delete f m k a Hk) as E.
  assert (delete k m !! k' = Some b) as Hd by by rewrite lookup_delete_ne.
  pose proof (tally_entry f _ _ _ Hf Hd). lia.
Qed.

Lemma tally_witness f m : (forall a, 0 <= f a) -> 0 < tally f m -> exists k a, m !! k = Some a /\ 0 < f a.
Proof.
  intros Hf Hp. destruct (decide (map_Forall (fun _ a => f a = 0) m)) as [Ha|Hn].
  - exfalso. assert (tally f m = 0) as E; [|lia]. clear Hp. revert Ha.
    induction m as [|k a m Hk IH] using map_ind; [done|]. intros Ha. apply map_Forall_insert in Ha as [H0 Ha]; [|done].
    rewrite tally_new, H0, IH by done. done.
  - apply map_not_Forall in Hn as (k & a & Hk & Hne); [|apply _]. exists k, a. split; [done|]. specialize (Hf a). lia.
Qed.
End Tally.

(** * Automation *)
Create HintDb xops.
#[export] Hint Resolve reachable_step : xops.
#[export] Hint Rewrite @result_bind_ok @result_bind_err @reject_if_ok @reject_if_err
  @bind_reject_ok @bind_reject_err : result.

(** [result_inv] turns a hypothesis on a chain of binds into its steps. *)
Ltac result_inv_step :=
  match goal with
  | H : result_bind _ (reject_if _ _) = Ok _ |- _ =>
      apply bind_reject_ok in H; destruct H as [? H]
  | H : result_bind _ _ = Ok _ |- _ =>
      apply result_bind_ok in H; destruct H as (? & ? & H)
  | H : reject_if _ _ = Ok _ |- _ => apply reject_if_ok in H
  | H : Ok _ = Ok _ |- _ => apply Ok_inj in H; try subst
  | H : Err _ = Err _ |- _ => apply Err_inj in H; try subst
  | H : Ok _ = Err _ |- _ => discriminate H
  | H : Err _ = Ok _ |- _ => discriminate H
  end.
Ltac result_inv := repeat result_inv_step.

(** [bool_facts] rewrites boolean tests of the code into propositions. *)
Ltac bool_facts :=
  repeat match goal with
  | H : andb _ _ = true |- _ => apply andb_true_iff in H; destruct H
  | H : orb _ _ = false |- _ => apply orb_false_iff in H; destruct H
  | H : negb _ = true |- _ => apply negb_true_iff in H
  | H : negb _ = false |- _ => apply negb_false_iff in H
  | H : bool_decide _ = true |- _ => apply bool_decide_eq_true in H
  | H : bool_decide _ = false |- _ => apply bool_decide_eq_false in H
  | H : (_ <=? _)%Z = true |- _ => apply Z.leb_le in H
  | H : (_ <=? _)%Z = false |- _ => apply Z.leb_gt in H
  | H : (_ <? _)%Z = true |- _ => apply Z.ltb_lt in H
  | H : (_ <? _)%Z = false |- _ => apply Z.ltb_ge in H
  | H : (_ =? _)%Z = true |- _ => apply Z.eqb_eq in H
  | H : (_ =? _)%Z = false |- _ => apply Z.eqb_neq in H
  end.
