(* ===== verification/GoStrings.v ===== *)
(** Go byte strings: the functions of the packages [strings], [unicode/utf8]
    and [unicode] that the modelled code calls, on [string] as a sequence of
    bytes.  Functions that take a cut set or separator are only used by the
    program with ASCII arguments, so they work byte by byte; the functions that
    look at runes ([TrimSpace], [DecodeRune]) decode UTF-8. *)
From S2P Require Export Prelude.

(** * Bytes *)
Definition byte_code (c : ascii) : N := Ascii.N_of_ascii c.
Definition byte_in (lo hi : N) (c : ascii) : bool :=
  (lo <=? byte_code c)%N && (byte_code c <=? hi)%N.
Definition is_digit : ascii -> bool := byte_in 48 57.
Definition is_upper : ascii -> bool := byte_in 65 90.
Definition is_lower : ascii -> bool := byte_in 97 122.
Definition is_alpha (c : ascii) : bool := is_upper c || is_lower c.
Definition dquote : ascii := Ascii.ascii_of_N 34.
Definition nul : ascii := Ascii.ascii_of_N 0.
Definition tab : ascii := Ascii.ascii_of_N 9.
Definition newline : ascii := Ascii.ascii_of_N 10.
Definition creturn : ascii := Ascii.ascii_of_N 13.
Definition str1 (c : ascii) : string := String c EmptyString.

(** [len(s)], [s == t] and membership of a case list. *)
Definition len (s : string) : Z := Z.of_nat (String.length s).
Definition str_eq (s t : string) : bool := bool_decide (s = t).
Definition one_of (s : string) (l : list string) : bool := slice_contains l s.

(** * Searching *)
Fixpoint strip_prefix (p s : string) : option string :=
  match p, s with
  | EmptyString, _ => Some s
  | String a p', String b s' => if Ascii.eqb a b then strip_prefix p' s' else None
  | String _ _, EmptyString => None
  end.

(** [strings.HasPrefix(s, p)] *)
Definition has_prefix (s p : string) : bool :=
  match strip_prefix p s with Some _ => true | None => false end.

(** [strings.Contains(s, sub)] *)
Fixpoint contains (s sub : string) : bool :=
  has_prefix s sub ||
  match s with EmptyString => false | String _ s' => contains s' sub end.

Fixpoint exists_byte (f : ascii -> bool) (s : string) : bool :=
  match s with EmptyString => false | String c s' => f c || exists_byte f s' end.

Definition all_bytes (f : ascii -> bool) (s : string) : bool :=
  negb (exists_byte (fun c => negb (f c)) s).

Definition byte_member (c : ascii) (set : string) : bool := exists_byte (Ascii.eqb c) set.

(** [strings.ContainsAny(s, chars)] for ASCII [chars]. *)
Definition contains_any (s chars : string) : bool :=
  exists_byte (fun c => byte_member c chars) s.

Fixpoint string_rev_app (s acc : string) : string :=
  match s with EmptyString => acc | String c s' => string_rev_app s' (String c acc) end.
Definition string_rev (s : string) : string := string_rev_app s EmptyString.

(** [strings.HasSuffix(s, p)] *)
Definition has_suffix (s p : string) : bool := has_prefix (string_rev s) (string_rev p).

(** [s[n:]] for [n <= len(s)]. *)
Fixpoint drop_bytes (n : nat) (s : string) : string :=
  match n, s with
  | O, _ => s
  | S n', String _ s' => drop_bytes n' s'
  | S _, EmptyString => EmptyString
  end.

Fixpoint take_bytes (n : nat) (s : string) : string :=
  match n, s with
  | S n', String c s' => String c (take_bytes n' s')
  | _, _ => EmptyString
  end.

(** Non-overlapping occurrences of a non-empty [sub]; [skip] bytes belong to
    the occurrence found last. *)
Fixpoint count_from (skip : nat) (s sub : string) : nat :=
  match s with
  | EmptyString => 0
  | String _ s' =>
      match skip with
      | S k => count_from k s' sub
      | O => if has_prefix s sub then S (count_from (String.length sub - 1) s' sub)
             else count_from 0 s' sub
      end
  end.

(** [strings.ReplaceAll(s, old, new)] for a non-empty [old]. *)
Fixpoint replace_from (skip : nat) (s old new : string) : string :=
  match s with
  | EmptyString => EmptyString
  | String c s' =>
      match skip with
      | S k => replace_from k s' old new
      | O => if has_prefix s old then new +:+ replace_from (String.length old - 1) s' old new
             else String c (replace_from 0 s' old new)
      end
  end.
Definition replace_all (s old new : string) : string := replace_from 0 s old new.

(** [strings.Replace(s, old, new, 1)] *)
Fixpoint replace_first (s old new : string) : string :=
  match strip_prefix old s with
  | Some rest => new +:+ rest
  | None => match s with
            | EmptyString => EmptyString
            | String c s' => String c (replace_first s' old new)
            end
  end.

(** * Splitting and joining *)
Fixpoint split_by (sep : ascii -> bool) (s : string) : list string :=
  match s with
  | EmptyString => [EmptyString]
  | String c s' =>
      if sep c then EmptyString :: split_by sep s'
      else match split_by sep s' with
           | [] => [str1 c]
           | h :: t => String c h :: t
           end
  end.

(** [strings.Split(s, sep)] for a one-byte separator. *)
Definition split_on (sep : ascii) (s : string) : list string := split_by (Ascii.eqb sep) s.

(** [strings.FieldsFunc(s, sep)] *)
Definition fields_func (sep : ascii -> bool) (s : string) : list string :=
  filter (fun f => f <> EmptyString) (split_by sep s).

(** [strings.Join(l, sep)] *)
Fixpoint join (sep : string) (l : list string) : string :=
  match l with
  | [] => EmptyString
  | [x] => x
  | x :: l' => x +:+ sep +:+ join sep l'
  end.

(** * Trimming a cut set *)
Fixpoint trim_left (cut : ascii -> bool) (s : string) : string :=
  match s with
  | EmptyString => EmptyString
  | String c s' => if cut c then trim_left cut s' else s
  end.

Fixpoint trim_right (cut : ascii -> bool) (s : string) : string :=
  match s with
  | EmptyString => EmptyString
  | String c s' => if all_bytes cut s then EmptyString else String c (trim_right cut s')
  end.

(** * Case *)
Definition lower_byte (c : ascii) : ascii :=
  if is_upper c then Ascii.ascii_of_N (byte_code c + 32) else c.
Definition upper_byte (c : ascii) : ascii :=
  if is_lower c then Ascii.ascii_of_N (byte_code c - 32) else c.

(** [strings.ToLower].  Letters outside ASCII are left alone except the two
    whose lower case is an ASCII letter, U+0130 (i) and U+212A (k): the callers
    only compare the result with ASCII text, which cannot see the others. *)
Fixpoint to_lower (s : string) : string :=
  match s with
  | EmptyString => EmptyString
  | String c s' =>
      match strip_prefix (String (Ascii.ascii_of_N 196) (str1 (Ascii.ascii_of_N 176))) s,
            strip_prefix (String (Ascii.ascii_of_N 226) (String (Ascii.ascii_of_N 132)
                            (str1 (Ascii.ascii_of_N 170)))) s with
      | Some _, _ => String "i"%char
          match s' with String _ r => to_lower r | EmptyString => EmptyString end
      | None, Some _ => String "k"%char
          match s' with
          | String _ (String _ r) => to_lower r
          | _ => EmptyString
          end
      | None, None => String (lower_byte c) (to_lower s')
      end
  end.

(** * UTF-8 *)

(** [utf8.DecodeRuneInString]: the rune at the start of the string and its
    width; an invalid encoding is U+FFFD of width 1, the empty string U+FFFD of
    width 0. *)
Definition rune_error : N := 65533.
Definition cont (c : ascii) : bool := byte_in 128 191 c.
Definition low6 (c : ascii) : N := N.land (byte_code c) 63.

Definition second_ok (lead next : ascii) : bool :=
  let l := byte_code lead in
  if (l =? 224)%N then byte_in 160 191 next
  else if (l =? 237)%N then byte_in 128 159 next
  else if (l =? 240)%N then byte_in 144 191 next
  else if (l =? 244)%N then byte_in 128 143 next
  else cont next.

Definition decode_rune (s : string) : N * nat :=
  match s with
  | EmptyString => (rune_error, 0)
  | String a r =>
      if byte_in 0 127 a then (byte_code a, 1)
      else match r with
      | EmptyString => (rune_error, 1)
      | String b r2 =>
          if byte_in 194 223 a then
            if cont b then ((N.land (byte_code a) 31 * 64 + low6 b)%N, 2) else (rune_error, 1)
          else match r2 with
          | EmptyString => (rune_error, 1)
          | String c r3 =>
              if byte_in 224 239 a then
                if second_ok a b && cont c
                then ((N.land (byte_code a) 15 * 4096 + low6 b * 64 + low6 c)%N, 3)
                else (rune_error, 1)
              else match r3 with
              | EmptyString => (rune_error, 1)
              | String d _ =>
                  if byte_in 240 244 a && second_ok a b && cont c && cont d
                  then ((N.land (byte_code a) 7 * 262144 + low6 b * 4096 + low6 c * 64 + low6 d)%N, 4)
                  else (rune_error, 1)
              end
          end
      end
  end.

(** [unicode.IsSpace] *)
Definition rune_is_space (r : N) : bool :=
  ((9 <=? r) && (r <=? 13))%N || (r =? 32)%N || (r =? 133)%N || (r =? 160)%N ||
  (r =? 5760)%N || ((8192 <=? r) && (r <=? 8202))%N || (r =? 8232)%N || (r =? 8233)%N ||
  (r =? 8239)%N || (r =? 8287)%N || (r =? 12288)%N.

(** Width of the white-space rune at the start of [s], 0 if there is none. *)
Definition space_width (s : string) : nat :=
  let '(r, w) := decode_rune s in
  match s with
  | EmptyString => 0
  | _ => if rune_is_space r then w else 0
  end.

(** [strings.TrimLeftFunc(s, unicode.IsSpace)] *)
Fixpoint trim_space_left (skip : nat) (s : string) : string :=
  match s with
  | EmptyString => EmptyString
  | String _ s' =>
      match skip with
      | S k => trim_space_left k s'
      | O => match space_width s with O => s | S w => trim_space_left w s' end
      end
  end.

(** The whole string decodes into white-space runes. *)
Fixpoint all_space (skip : nat) (s : string) : bool :=
  match s with
  | EmptyString => match skip with O => true | S _ => false end
  | String _ s' =>
      match skip with
      | S k => all_space k s'
      | O => match space_width s with O => false | S w => all_space w s' end
      end
  end.

(** [strings.TrimRightFunc(s, unicode.IsSpace)]: cut the longest suffix that is
    a run of white-space runes. *)
Fixpoint trim_space_right (s : string) : string :=
  match s with
  | EmptyString => EmptyString
  | String c s' => if all_space 0 s then EmptyString else String c (trim_space_right s')
  end.

(** [strings.TrimSpace] *)
Definition trim_space (s : string) : string := trim_space_right (trim_space_left 0 s).

(** [utf8.RuneCountInString] *)
Fixpoint rune_count_from (skip : nat) (s : string) : nat :=
  match s with
  | EmptyString => 0
  | String _ s' =>
      match skip with
      | S k => rune_count_from k s'
      | O => S (rune_count_from (snd (decode_rune s) - 1) s')
      end
  end.

(** [strings.Count(s, sub)] *)
Definition count (s sub : string) : nat :=
  match sub with
  | EmptyString => S (rune_count_from 0 s)
  | _ => count_from 0 s sub
  end.

(** * Lemmas *)
#[global] Arguments String.append !_ _ / : simpl nomatch.
#[global] Arguments decode_rune : simpl never.

Lemma app_nil_r_str (s : string) : s +:+ "" = s.
Proof. induction s as [|c s IH]; simpl; [done | by f_equal]. Qed.

Lemma app_assoc_str (s t u : string) : s +:+ (t +:+ u) = (s +:+ t) +:+ u.
Proof. induction s as [|c s IH]; simpl; [done | by f_equal]. Qed.

Lemma length_app_str (s t : string) :
  String.length (s +:+ t) = String.length s + String.length t.
Proof. induction s as [|c s IH]; simpl; [done | by rewrite IH]. Qed.

Lemma app_inj_l (s t u : string) : s +:+ t = s +:+ u -> t = u.
Proof. induction s as [|c s IH]; simpl; [done | intros H; injection H; auto]. Qed.

Lemma strip_prefix_spec (p s t : string) : strip_prefix p s = Some t <-> s = p +:+ t.
Proof.
  revert s. induction p as [|a p IH]; intros s; simpl; [naive_solver|].
  destruct s as [|b s]; [naive_solver|]. destruct (Ascii.eqb_spec a b) as [->|Hne].
  - rewrite IH. split; [by intros -> | intros H; by injection H].
  - split; [done | intros H; congruence].
Qed.

Lemma has_prefix_spec (s p : string) : has_prefix s p = true <-> exists t, s = p +:+ t.
Proof.
  unfold has_prefix. destruct (strip_prefix p s) as [t|] eqn:E.
  - apply strip_prefix_spec in E. naive_solver.
  - split; [done|]. intros (t & Ht). apply strip_prefix_spec in Ht. congruence.
Qed.

Lemma has_prefix_app (p t : string) : has_prefix (p +:+ t) p = true.
Proof. apply has_prefix_spec. by exists t. Qed.

Lemma contains_spec (s sub : string) :
  contains s sub = true <-> exists a b, s = a +:+ sub +:+ b.
Proof.
  induction s as [|c s IH]; cbn [contains]; rewrite orb_true_iff, has_prefix_spec.
  - split.
    + intros [(t & Ht)|H]; [exists ""; eauto | done].
    + intros (a & b & H). left. destruct a; [eauto | done].
  - rewrite IH. split.
    + intros [(t & Ht)|(a & b & ->)]; [by exists "", t | by exists (String c a), b].
    + intros ([|x a] & b & H); [left; eauto | right]. injection H as -> H. eauto.
Qed.

Lemma exists_byte_app f (s t : string) :
  exists_byte f (s +:+ t) = exists_byte f s || exists_byte f t.
Proof. induction s as [|c s IH]; simpl; [done|]. by rewrite IH, orb_assoc. Qed.

Lemma exists_byte_spec f (s : string) :
  exists_byte f s = true <-> exists a c b, s = a +:+ String c b /\ f c = true.
Proof.
  induction s as [|c s IH]; simpl.
  - split; [done | intros ([|??] & ? & ? & [=] & _)].
  - rewrite orb_true_iff, IH. split.
    + intros [H|(a & x & b & -> & H)]; [exists "", c, s; done | exists (String c a), x, b; done].
    + intros ([|y a] & x & b & [= -> H] & Hf); [by left | right; eauto].
Qed.

Lemma split_by_ne sep (s : string) : split_by sep s <> [].
Proof. destruct s as [|c s]; simpl; [done|]. destruct (sep c); [done|]. by destruct (split_by sep s). Qed.

Lemma all_bytes_cons f c s : all_bytes f (String c s) = f c && all_bytes f s.
Proof. unfold all_bytes. simpl. by rewrite negb_orb, negb_involutive. Qed.

Lemma join_split (sep : ascii) (s : string) : join (str1 sep) (split_on sep s) = s.
Proof.
  unfold split_on. induction s as [|c s IH]; [done|]. cbn [split_by].
  destruct (split_by (Ascii.eqb sep) s) as [|h t] eqn:E; [by apply split_by_ne in E|].
  destruct (Ascii.eqb_spec sep c) as [->|Hne].
  - change (str1 c +:+ join (str1 c) (h :: t) = String c s). by rewrite IH.
  - destruct t; simpl in *; by rewrite IH.
Qed.

Lemma split_by_clean sep (s : string) :
  Forall (fun f => exists_byte sep f = false) (split_by sep s).
Proof.
  induction s as [|c s IH]; cbn [split_by]; [repeat constructor|].
  destruct (sep c) eqn:E; [by constructor|].
  destruct (split_by sep s) as [|h t]; simpl.
  - repeat constructor. simpl. by rewrite E.
  - apply Forall_cons in IH as [Hh Ht]. constructor; [simpl; by rewrite E | done].
Qed.

Lemma split_on_app c (x t : string) : split_on c (x +:+ String c t) = split_on c x ++ split_on c t.
Proof.
  unfold split_on. induction x as [|d x IH].
  - cbn [String.append split_by]. by rewrite Ascii.eqb_refl.
  - cbn [String.append split_by]. rewrite IH. destruct (Ascii.eqb c d); [done|].
    destruct (split_by (Ascii.eqb c) x) as [|h l] eqn:E; [by apply split_by_ne in E | done].
Qed.

(** ** Counting and replacing occurrences *)
Lemma count_skip k s sub : count_from k s sub = count_from 0 (drop_bytes k s) sub.
Proof.
  revert s. induction k as [|k IH]; intros s; [done|]. destruct s as [|c s]; [done|].
  cbn [count_from drop_bytes]. apply IH.
Qed.

Lemma replace_skip k s old new : replace_from k s old new = replace_from 0 (drop_bytes k s) old new.
Proof.
  revert s. induction k as [|k IH]; intros s; [done|]. destruct s as [|c s]; [done|].
  cbn [replace_from drop_bytes]. apply IH.
Qed.

Lemma drop_bytes_app a b : drop_bytes (String.length a) (a +:+ b) = b.
Proof. induction a as [|c a IH]; [done|]. apply IH. Qed.

Lemma count_zero s sub : sub <> "" -> count_from 0 s sub = 0 <-> contains s sub = false.
Proof.
  intros Hne. assert (He : has_prefix "" sub = false) by (destruct sub; done).
  induction s as [|c s IH]; [cbn [count_from contains]; by rewrite He|].
  cbn [count_from contains]. destruct (has_prefix (String c s) sub); [done|]. exact IH.
Qed.

(** The first occurrence of [sub] in [s]. *)
Definition first_at (s sub pre post : string) : Prop :=
  s = pre +:+ sub +:+ post /\
  forall pre' post', s = pre' +:+ sub +:+ post' -> String.length pre <= String.length pre'.

(** One non-overlapping occurrence: it is the first one and none starts behind it. *)
Lemma count_one s sub new :
  sub <> "" -> count_from 0 s sub = 1 ->
  exists pre post, first_at s sub pre post /\ contains post sub = false /\
    replace_first s sub new = pre +:+ new +:+ post.
Proof.
  intros Hne. induction s as [|c s IH]; [done|]. cbn [count_from replace_first].
  unfold has_prefix. destruct (strip_prefix sub (String c s)) as [post|] eqn:E.
  - intros H. injection H as H. apply strip_prefix_spec in E. exists "", post.
    split; [split; [done|intros; simpl; lia]|]. split; [|done]. apply count_zero; [done|].
    destruct sub as [|d sub]; [done|]. injection E as -> ->. simpl in H.
    rewrite Nat.sub_0_r, count_skip, drop_bytes_app in H. exact H.
  - intros H. destruct (IH H) as (pre & post & [Hs Hmin] & Hc & Hr). exists (String c pre), post.
    split; [split|split; [done|by rewrite Hr]].
    + by rewrite Hs.
    + intros [|d pre'] post' Heq.
      * assert (Hx : strip_prefix sub (String c s) = Some post') by (by apply strip_prefix_spec). congruence.
      * injection Heq as _ Heq. simpl. apply Hmin in Heq. lia.
Qed.

Lemma replace_all_absent s old new : contains s old = false -> replace_all s old new = s.
Proof.
  unfold replace_all. induction s as [|c s IH]; [done|]. cbn [contains replace_from]. intros H.
  apply orb_false_iff in H as [-> H]. by rewrite IH.
Qed.

Lemma one_of_spec s l : one_of s l = true <-> s ∈ l.
Proof. apply slice_contains_spec. Qed.

Lemma str_eq_spec a b : str_eq a b = true <-> a = b.
Proof. unfold str_eq. by rewrite bool_decide_eq_true. Qed.

Lemma str_eq_false a b : str_eq a b = false <-> a <> b.
Proof. unfold str_eq. by rewrite bool_decide_eq_false. Qed.

Lemma str_eq_refl s : str_eq s s = true.
Proof. by apply str_eq_spec. Qed.

Lemma one_of_false s l : one_of s l = false <-> s ∉ l.
Proof. rewrite <- one_of_spec. by destruct (one_of s l). Qed.

(** ** TrimSpace is idempotent *)

(** A complete white-space rune is decoded the same whatever follows it. *)
Lemma decode_space_app s u r w :
  decode_rune s = (r, w) -> rune_is_space r = true -> decode_rune (s +:+ u) = (r, w).
Proof.
  assert (He : rune_is_space rune_error = false) by done.
  unfold decode_rune. destruct s as [|a s]; [intros [= <- <-]; by rewrite He|]. cbn [String.append].
  destruct (byte_in 0 127 a); [done|].
  destruct s as [|b s]; [intros [= <- <-]; by rewrite He|]. cbn [String.append].
  destruct (byte_in 194 223 a); [done|].
  destruct s as [|c s]; [intros [= <- <-]; by rewrite He|]. cbn [String.append].
  destruct (byte_in 224 239 a); [done|].
  destruct s as [|d s]; [intros [= <- <-]; by rewrite He|]. done.
Qed.

Lemma space_width_app s u w : space_width s = S w -> space_width (s +:+ u) = S w.
Proof.
  unfold space_width. destruct (decode_rune s) as [r n] eqn:E. destruct s as [|c s]; [done|].
  destruct (rune_is_space r) eqn:Es; [|done]. intros ->.
  rewrite (decode_space_app _ u _ _ E Es). simpl. by rewrite Es.
Qed.

Lemma all_space_app s : forall k u,
  all_space k s = true -> all_space 0 u = true -> all_space k (s +:+ u) = true.
Proof.
  induction s as [|c s IH]; intros k u Hs Hu.
  - destruct k; [done|]. by simpl in Hs.
  - destruct k as [|k]; simpl in Hs |- *; [|by apply IH].
    destruct (space_width (String c s)) as [|w] eqn:E; [done|].
    apply (space_width_app _ u) in E. simpl in E. rewrite E. by apply IH.
Qed.

Lemma trim_space_right_spec s :
  exists u, s = trim_space_right s +:+ u /\ all_space 0 u = true.
Proof.
  induction s as [|c s (u & Hs & Hu)]; [by exists ""|]. cbn [trim_space_right].
  destruct (all_space 0 (String c s)) eqn:E; [by exists (String c s)|].
  exists u. split; [|done]. cbn [String.append]. by rewrite <- Hs.
Qed.

Lemma trim_space_right_idem s : trim_space_right (trim_space_right s) = trim_space_right s.
Proof.
  induction s as [|c s IH]; [done|]. cbn [trim_space_right].
  destruct (all_space 0 (String c s)) eqn:E; [done|]. cbn [trim_space_right].
  destruct (all_space 0 (String c (trim_space_right s))) eqn:E2; [|by rewrite IH].
  exfalso. destruct (trim_space_right_spec s) as (u & Hs & Hu).
  pose proof (all_space_app _ _ u E2 Hu) as H. cbn [String.append] in H. rewrite <- Hs in H. congruence.
Qed.

Lemma trim_space_left_head s : forall k t, trim_space_left k s = t -> space_width t = 0.
Proof.
  induction s as [|c s IH]; intros k t; simpl; [by intros <-|].
  destruct k; [|apply IH]. destruct (space_width (String c s)) eqn:E; [by intros <- | apply IH].
Qed.

Lemma trim_space_left_fixed s : space_width s = 0 -> trim_space_left 0 s = s.
Proof. destruct s as [|c s]; [done|]. simpl. by intros ->. Qed.

Lemma trim_space_idem s : trim_space (trim_space s) = trim_space s.
Proof.
  unfold trim_space. rewrite (trim_space_left_fixed (trim_space_right _)); [apply trim_space_right_idem|].
  destruct (space_width (trim_space_right (trim_space_left 0 s))) as [|w] eqn:E; [done|].
  destruct (trim_space_right_spec (trim_space_left 0 s)) as (u & Hs & _).
  apply (space_width_app _ u) in E. rewrite <- Hs in E.
  by rewrite (trim_space_left_head s 0 _ eq_refl) in E.
Qed.

(** [str_facts] also turns string comparisons into propositions. *)
Ltac str_facts :=
  repeat match goal with
  | H : str_eq _ _ = true |- _ => apply str_eq_spec in H
  | H : str_eq _ _ = false |- _ => apply str_eq_false in H
  | H : one_of _ _ = true |- _ => apply one_of_spec in H
  | H : one_of _ _ = false |- _ => apply one_of_false in H
  | _ => progress bool_facts
  end.

#[export] Hint Rewrite app_nil_r_str length_app_str : strings.
#[export] Hint Resolve has_prefix_app : xops.
