(* ===== verification/GoNumbers.v ===== *)
(** Decimal integers of Go's strconv package, and [strings.EqualFold] with an
    ASCII text: the number syntax the option, target and configuration parsers
    share. *)
From stdpp Require Import pretty.
From S2P Require Export GoStrings.
#[local] Open Scope Z_scope.

Definition min_int64 : Z := - 2^63.
Definition max_int64 : Z := 2^63 - 1.
(** Two's complement wrap-around of Go's [int64] arithmetic. *)
Definition wrap_int64 (z : Z) : Z := (z + 2^63) mod 2^64 - 2^63.

Definition digit_of (c : ascii) : Z := Z.of_N (byte_code c) - 48.
Fixpoint decimal (s : string) (acc : Z) : Z :=
  match s with EmptyString => acc | String c r => decimal r (acc * 10 + digit_of c) end.

(** [strconv.ParseUint(s, 10, 64)] bounded by [max]; a value out of range is an error. *)
Definition parse_digits (max : Z) (s : string) : option Z :=
  if str_eq s "" || negb (all_bytes is_digit s) then None
  else let v := decimal s 0 in if v <=? max then Some v else None.

(** [strconv.ParseInt(s, 10, 64)], which is also [strconv.Atoi]. *)
Definition parse_int64 (s : string) : option Z :=
  match s with
  | EmptyString => None
  | String c r =>
      if Ascii.eqb c "+" then parse_digits max_int64 r
      else if Ascii.eqb c "-" then Z.opp <$> parse_digits (- min_int64) r
      else parse_digits max_int64 s
  end.

(** [strconv.Itoa] *)
Definition itoa (z : Z) : string := pretty z.

(** [strings.EqualFold(s, t)] for an ASCII [t]: besides the other case, simple
    folding only adds U+017F to s and U+212A to k. *)
Fixpoint equal_fold (s t : string) : bool :=
  match t with
  | EmptyString => str_eq s ""
  | String d t' =>
      match s with
      | EmptyString => false
      | String c s' =>
          if Ascii.eqb (lower_byte c) (lower_byte d) then equal_fold s' t'
          else match s' with
          | String c2 s2 =>
              if (Ascii.eqb (lower_byte d) "s" && (byte_code c =? 197)%N && (byte_code c2 =? 191)%N)%bool
              then equal_fold s2 t'
              else match s2 with
              | String c3 s3 =>
                  if (Ascii.eqb (lower_byte d) "k" && (byte_code c =? 226)%N && (byte_code c2 =? 132)%N
                      && (byte_code c3 =? 170)%N)%bool
                  then equal_fold s3 t' else false
              | EmptyString => false
              end
          | EmptyString => false
          end
      end
  end.

(** [strings.SplitN(s, sep, 2)]: the text before the first separator, and the rest. *)
Fixpoint cut_byte (sep : ascii) (s : string) : option (string * string) :=
  match s with
  | EmptyString => None
  | String c r =>
      if Ascii.eqb c sep then Some (EmptyString, r)
      else match cut_byte sep r with Some (a, b) => Some (String c a, b) | None => None end
  end.

(** * Lemmas *)
Lemma digit_of_bounds c : is_digit c = true -> 0 <= digit_of c <= 9.
Proof.
  unfold is_digit, byte_in, digit_of. intros H. apply andb_true_iff in H as [H1 H2].
  apply N.leb_le in H1, H2. lia.
Qed.

Lemma all_bytes_split f c s : all_bytes f (String c s) = true <-> f c = true /\ all_bytes f s = true.
Proof. rewrite all_bytes_cons. apply andb_true_iff. Qed.

Lemma decimal_lower s : forall acc, 0 <= acc -> all_bytes is_digit s = true -> acc <= decimal s acc.
Proof.
  induction s as [|c s IH]; intros acc Ha Hd; [simpl; lia|].
  apply all_bytes_split in Hd as [Hc Hs]. apply digit_of_bounds in Hc. simpl.
  etrans; [|apply IH; [lia|done]]. lia.
Qed.

Lemma decimal_app s t acc : decimal (s +:+ t) acc = decimal t (decimal s acc).
Proof. revert acc. induction s as [|c s IH]; intros acc; [done|]. apply IH. Qed.

Lemma pretty_char_digit d : (d < 10)%N ->
  is_digit (pretty_N_char d) = true /\ digit_of (pretty_N_char d) = Z.of_N d.
Proof.
  intros H. assert (d = 0 \/ d = 1 \/ d = 2 \/ d = 3 \/ d = 4 \/ d = 5 \/ d = 6 \/ d = 7 \/ d = 8 \/ d = 9)%N as Hd by lia.
  destruct_or!; subst; vm_compute; done.
Qed.

Lemma pretty_go_decimal n : forall s,
  (all_bytes is_digit s = true -> all_bytes is_digit (pretty_N_go n s) = true) /\
  decimal (pretty_N_go n s) 0 = decimal s (Z.of_N n).
Proof.
  induction (N.lt_wf_0 n) as [n _ IH]. intros s.
  destruct (decide (n = 0)%N) as [->|Hn]; [by rewrite pretty_N_go_0|].
  rewrite pretty_N_go_step by lia.
  destruct (pretty_char_digit (n mod 10)) as [Hd Hv]; [apply N.mod_lt; lia|].
  destruct (IH (n / 10)%N (N.div_lt n 10 ltac:(lia) ltac:(lia)) (String (pretty_N_char (n mod 10)) s)) as [IH1 IH2].
  split.
  - intros Hs. apply IH1. by apply all_bytes_split.
  - rewrite IH2. simpl. f_equal. rewrite Hv.
    rewrite <- (N2Z.inj_mul _ 10), <- N2Z.inj_add. f_equal.
    pose proof (N.div_mod n 10 ltac:(lia)). lia.
Qed.

Lemma itoa_nat n : 0 <= n -> itoa n <> "" /\ all_bytes is_digit (itoa n) = true /\ decimal (itoa n) 0 = n.
Proof.
  intros Hn. unfold itoa. destruct n as [|p|p]; [vm_compute; done| |lia].
  change (pretty (Z.pos p)) with (pretty (N.pos p)). unfold pretty, pretty_N.
  rewrite decide_False by done.
  destruct (pretty_go_decimal (N.pos p) "") as [H1 H2].
  assert (decimal (pretty_N_go (N.pos p) "") 0 = Z.pos p) as Hv by (rewrite H2; done).
  split; [|split; [by apply H1|done]].
  intros E. rewrite E in Hv. simpl in Hv. lia.
Qed.

Lemma parse_digits_itoa max n : 0 <= n <= max -> parse_digits max (itoa n) = Some n.
Proof.
  intros [H0 Hm]. destruct (itoa_nat n H0) as (Hne & Hd & Hv). unfold parse_digits.
  apply str_eq_false in Hne. rewrite Hne, Hd. simpl. rewrite Hv.
  by destruct (Z.leb_spec n max); [|lia].
Qed.

Lemma parse_digits_some max s v : parse_digits max s = Some v ->
  s <> "" /\ all_bytes is_digit s = true /\ v = decimal s 0 /\ 0 <= v <= max.
Proof.
  unfold parse_digits. destruct (str_eq s "" || negb (all_bytes is_digit s)) eqn:E; [done|].
  apply orb_false_iff in E as [E1 E2]. apply str_eq_false in E1. apply negb_false_iff in E2.
  destruct (Z.leb_spec (decimal s 0) max); [|done]. intros [= <-].
  split_and!; try done. by apply (decimal_lower s 0).
Qed.

Lemma parse_int64_digits s : s <> "" -> all_bytes is_digit s = true -> parse_int64 s = parse_digits max_int64 s.
Proof.
  destruct s as [|c s]; [done|]. intros _ H. apply all_bytes_split in H as [Hc _]. unfold parse_int64.
  destruct (Ascii.eqb_spec c "+") as [->|_]; [by vm_compute in Hc|].
  by destruct (Ascii.eqb_spec c "-") as [->|_]; [vm_compute in Hc|].
Qed.

Lemma parse_int64_itoa n : 0 <= n <= max_int64 -> parse_int64 (itoa n) = Some n.
Proof.
  intros H. destruct (itoa_nat n ltac:(lia)) as (Hne & Hd & _).
  rewrite parse_int64_digits by done. by apply parse_digits_itoa.
Qed.

Lemma parse_int64_bounds s n : parse_int64 s = Some n -> min_int64 <= n <= max_int64.
Proof.
  unfold parse_int64, min_int64, max_int64. intros H. destruct s as [|c r]; [done|].
  destruct (Ascii.eqb c "+"); [apply parse_digits_some in H; lia|].
  destruct (Ascii.eqb c "-"); [|apply parse_digits_some in H; lia].
  destruct (parse_digits _ r) as [m|] eqn:Hm; [|done]. apply parse_digits_some in Hm.
  simpl in H. injection H as <-. lia.
Qed.

Lemma wrap_int64_shift z k : wrap_int64 (z + k * 2^64) = wrap_int64 z.
Proof. unfold wrap_int64. f_equal. rewrite <- (Z_mod_plus_full (z + 2^63) k (2^64)). f_equal. lia. Qed.

Lemma wrap_int64_eq z : exists k, wrap_int64 z = z + k * 2^64.
Proof.
  exists (- ((z + 2^63) / 2^64)). unfold wrap_int64. rewrite Z.mod_eq by lia. lia.
Qed.

Lemma wrap_int64_add a b : wrap_int64 (wrap_int64 a + wrap_int64 b) = wrap_int64 (a + b).
Proof.
  destruct (wrap_int64_eq a) as (k & ->), (wrap_int64_eq b) as (l & ->).
  replace (a + k * 2^64 + (b + l * 2^64)) with (a + b + (k + l) * 2^64) by lia. apply wrap_int64_shift.
Qed.

Lemma wrap_int64_small z : min_int64 <= z <= max_int64 -> wrap_int64 z = z.
Proof. unfold wrap_int64, min_int64, max_int64. intros H. rewrite Z.mod_small by lia. lia. Qed.

Lemma cut_byte_spec sep s a b : cut_byte sep s = Some (a, b) -> s = a +:+ String sep b /\ exists_byte (Ascii.eqb sep) a = false.
Proof.
  revert a b. induction s as [|c s IH]; intros a b; [done|]. simpl.
  destruct (Ascii.eqb_spec c sep) as [->|Hc]; [by intros [= <- <-]|].
  destruct (cut_byte sep s) as [[x y]|]; [|done]. intros [= <- <-].
  destruct (IH x y eq_refl) as [-> Hx]. split; [done|]. simpl. rewrite Hx.
  by destruct (Ascii.eqb_spec sep c); [subst|].
Qed.

Lemma cut_byte_app sep a b : exists_byte (Ascii.eqb sep) a = false -> cut_byte sep (a +:+ String sep b) = Some (a, b).
Proof.
  induction a as [|c a IH]; simpl; intros H; [by rewrite Ascii.eqb_refl|].
  apply orb_false_iff in H as [Hc Ha]. rewrite Ascii.eqb_sym, Hc. by rewrite IH.
Qed.

(** ** Lower case and white space *)
Lemma cont_lower c : cont c = true -> lower_byte c = c.
Proof.
  unfold cont, lower_byte, is_upper, byte_in. intros H. apply andb_true_iff in H as [H _]. apply N.leb_le in H.
  replace (byte_code c <=? 90)%N with false; [by rewrite andb_false_r|]. symmetry. apply N.leb_gt. lia.
Qed.

Lemma lower_not_cont c : cont c = false -> cont (lower_byte c) = false.
Proof. destruct c as [[] [] [] [] [] [] [] []]; vm_compute; done. Qed.

(** Lower case keeps continuation bytes and makes none. *)
Lemma to_lower_cont c r : cont c = true -> to_lower (String c r) = String c (to_lower r).
Proof.
  intros Hc. cbn [to_lower strip_prefix].
  destruct (Ascii.eqb_spec (Ascii.ascii_of_N 196) c) as [<-|_]; [by vm_compute in Hc|].
  destruct (Ascii.eqb_spec (Ascii.ascii_of_N 226) c) as [<-|_]; [by vm_compute in Hc|].
  by rewrite cont_lower.
Qed.

Lemma to_lower_not_cont c r : cont c = false -> exists d t, to_lower (String c r) = String d t /\ cont d = false.
Proof. intros Hc. cbn [to_lower]. repeat case_match; eexists _, _; split; try done. by apply lower_not_cont. Qed.

Lemma to_lower_ascii c r : byte_in 0 127 c = true -> to_lower (String c r) = String (lower_byte c) (to_lower r).
Proof.
  intros Hc. cbn [to_lower strip_prefix].
  destruct (Ascii.eqb_spec (Ascii.ascii_of_N 196) c) as [<-|_]; [by vm_compute in Hc|].
  by destruct (Ascii.eqb_spec (Ascii.ascii_of_N 226) c) as [<-|_]; [vm_compute in Hc|].
Qed.

Lemma high_lower c : byte_in 0 127 c = false -> lower_byte c = c.
Proof. destruct c as [[] [] [] [] [] [] [] []]; vm_compute; done. Qed.

Lemma ascii_lower_space c : rune_is_space (byte_code (lower_byte c)) = rune_is_space (byte_code c) /\
  byte_in 0 127 (lower_byte c) = byte_in 0 127 c.
Proof. destruct c as [[] [] [] [] [] [] [] []]; vm_compute; done. Qed.

Fixpoint conts (k : nat) (s : string) : bool :=
  match k, s with
  | O, _ => true
  | S k, String c r => cont c && conts k r
  | S _, EmptyString => false
  end.

Lemma second_byte_cont a b : second_ok a b = true -> cont b = true.
Proof.
  unfold second_ok, cont, byte_in. intros H. repeat case_match;
  apply andb_true_iff in H as [Hlo Hhi]; apply N.leb_le in Hlo, Hhi;
  apply andb_true_iff; split; apply N.leb_le; lia.
Qed.

(** Texts that agree on their continuation bytes. *)
Inductive same_conts : string -> string -> Prop :=
  | same_none r r' : conts 1 r = false -> conts 1 r' = false -> same_conts r r'
  | same_cont b r r' : cont b = true -> same_conts r r' -> same_conts (String b r) (String b r').

Lemma same_conts_lower r : same_conts r (to_lower r).
Proof.
  induction r as [|b r IH]; [by apply same_none|]. destruct (cont b) eqn:Hb.
  - rewrite to_lower_cont by done. by apply same_cont.
  - destruct (to_lower_not_cont b r Hb) as (d & t & -> & Hd). apply same_none; simpl; [by rewrite Hb | by rewrite Hd].
Qed.

(** The width of a rune that is not ASCII depends on continuation bytes only. *)
Ltac no_cont := match goal with
  | H : conts 1 (String ?b _) = false |- _ => cbn [conts] in H; rewrite andb_true_r in H
  end.
Ltac second_no := match goal with
  | H : cont ?b = false |- context [second_ok ?a ?b] =>
      let E := fresh in destruct (second_ok a b) eqn:E; [apply second_byte_cont in E; congruence|]
  end.

Lemma decode_no_cont c r : byte_in 0 127 c = false -> conts 1 r = false -> decode_rune (String c r) = (rune_error, 1%nat).
Proof.
  intros Hc Hr. unfold decode_rune. rewrite Hc. destruct r as [|b r2]; [done|]. no_cont. rewrite Hr.
  second_no. rewrite !andb_false_r. by repeat case_match.
Qed.

Lemma decode_no_cont2 c b r : byte_in 0 127 c = false -> byte_in 194 223 c = false -> conts 1 r = false ->
  decode_rune (String c (String b r)) = (rune_error, 1%nat).
Proof.
  intros Hc Hc2 Hr. unfold decode_rune. rewrite Hc, Hc2. destruct r as [|d r3]; [done|]. no_cont. rewrite Hr.
  rewrite !andb_false_r. by repeat case_match.
Qed.

Lemma decode_no_cont3 c b d r : byte_in 0 127 c = false -> byte_in 194 223 c = false -> byte_in 224 239 c = false ->
  conts 1 r = false -> decode_rune (String c (String b (String d r))) = (rune_error, 1%nat).
Proof.
  intros Hc Hc2 Hc3 Hr. unfold decode_rune. rewrite Hc, Hc2, Hc3. destruct r as [|e r4]; [done|]. no_cont. rewrite Hr.
  by rewrite !andb_false_r.
Qed.

Lemma decode_same c r r' : byte_in 0 127 c = false -> same_conts r r' -> decode_rune (String c r) = decode_rune (String c r').
Proof.
  intros Hc [r1 r1' H1 H1' | b r1 r1' Hb H1]; [by rewrite !decode_no_cont|].
  destruct (byte_in 194 223 c) eqn:Hc2; [unfold decode_rune; by rewrite Hc, Hc2|].
  destruct H1 as [r2 r2' H2 H2' | d r2 r2' Hd H2]; [by rewrite !decode_no_cont2|].
  destruct (byte_in 224 239 c) eqn:Hc3; [unfold decode_rune; by rewrite Hc, Hc2, Hc3|].
  destruct H2 as [r3 r3' H3 H3' | e r3 r3' He H3]; [by rewrite !decode_no_cont3|].
  unfold decode_rune. by rewrite Hc, Hc2, Hc3.
Qed.

(** A white-space rune is ASCII, or a lead byte with continuation bytes. *)
Lemma space_width_conts c r w : space_width (String c r) = S w -> conts w r = true.
Proof.
  assert (rune_is_space rune_error = false) as He by done. intros H. unfold space_width in H.
  destruct (decode_rune (String c r)) as [v n] eqn:E. destruct (rune_is_space v) eqn:Hv; [|done]. subst n.
  destruct (byte_in 0 127 c) eqn:Hc; [unfold decode_rune in E; rewrite Hc in E; by injection E as _ <-|].
  destruct (conts 1 r) eqn:H1; [|rewrite decode_no_cont in E by done; injection E as <- <-; congruence].
  destruct r as [|b r]; [done|]. cbn [conts] in H1; rewrite andb_true_r in H1.
  destruct (byte_in 194 223 c) eqn:Hc2.
  { unfold decode_rune in E. rewrite Hc, Hc2, H1 in E. injection E as _ <-. simpl. by rewrite H1. }
  destruct (conts 1 r) eqn:H2; [|rewrite decode_no_cont2 in E by done; injection E as <- <-; congruence].
  destruct r as [|d r]; [done|]. cbn [conts] in H2; rewrite andb_true_r in H2.
  destruct (byte_in 224 239 c) eqn:Hc3.
  { unfold decode_rune in E. rewrite Hc, Hc2, Hc3 in E. destruct (second_ok c b && cont d); [|injection E as <- <-; congruence].
    injection E as _ <-. simpl. by rewrite H1, H2. }
  destruct (conts 1 r) eqn:H3; [|rewrite decode_no_cont3 in E by done; injection E as <- <-; congruence].
  destruct r as [|e r]; [done|]. cbn [conts] in H3; rewrite andb_true_r in H3.
  unfold decode_rune in E. rewrite Hc, Hc2, Hc3 in E. destruct (_ && cont e); [|injection E as <- <-; congruence].
  injection E as _ <-. simpl. by rewrite H1, H2, H3.
Qed.

Lemma to_lower_shape c r :
  to_lower (String c r) = String (lower_byte c) (to_lower r) \/
  exists m t d, r = m +:+ t /\ to_lower (String c r) = String d (to_lower t) /\
    space_width (String c r) = 0%nat /\ (d = "i"%char \/ d = "k"%char).
Proof.
  cbn [to_lower].
  destruct (strip_prefix (String (Ascii.ascii_of_N 196) (str1 (Ascii.ascii_of_N 176))) (String c r)) as [t|] eqn:H.
  { apply strip_prefix_spec in H. injection H as -> ->. right.
    exists (str1 (Ascii.ascii_of_N 176)), t, "i"%char. split; [done|]. split; [done|]. split; [reflexivity|by left]. }
  destruct (strip_prefix (String (Ascii.ascii_of_N 226) (String (Ascii.ascii_of_N 132) (str1 (Ascii.ascii_of_N 170)))) (String c r))
    as [t|] eqn:H2; [|by left].
  apply strip_prefix_spec in H2. injection H2 as -> ->. right.
  exists (String (Ascii.ascii_of_N 132) (str1 (Ascii.ascii_of_N 170))), t, "k"%char.
  split; [done|]. split; [done|]. split; [reflexivity|by right].
Qed.

Lemma space_width_lower s : space_width (to_lower s) = space_width s.
Proof.
  destruct s as [|c r]; [done|]. destruct (to_lower_shape c r) as [-> | (m & t & d & _ & -> & -> & [-> | ->])]; [|done..].
  destruct (ascii_lower_space c) as [Hs Ha]. destruct (byte_in 0 127 c) eqn:Hc.
  - unfold space_width, decode_rune. by rewrite Ha, Hc, Hs.
  - rewrite high_lower by done. unfold space_width.
    by rewrite (decode_same c r (to_lower r) Hc (same_conts_lower r)).
Qed.

Lemma all_space_lower s : forall k, conts k s = true -> all_space k (to_lower s) = all_space k s.
Proof.
  induction s as [|c r IH]; intros k Hk; [done|]. destruct k as [|k].
  - pose proof (space_width_lower (String c r)) as E. pose proof (space_width_conts c r) as Hconts.
    destruct (to_lower_shape c r) as [Es | (m & t & d & _ & Es & Hw & Hd)]; rewrite Es in *; cbn [all_space].
    + rewrite E. destruct (space_width (String c r)) as [|w]; [done|]. by apply IH, Hconts.
    + rewrite E, Hw. done.
  - simpl in Hk. apply andb_true_iff in Hk as [Hc Hk]. rewrite to_lower_cont by done. simpl. by apply IH.
Qed.

Lemma trim_right_tail m t : trim_space_right (m +:+ t) = m +:+ t -> trim_space_right t = t.
Proof.
  induction m as [|c m IH]; [done|]. cbn [String.append trim_space_right].
  destruct (all_space 0 (String c (m +:+ t))); [done|]. intros [= H]. by apply IH.
Qed.

Lemma trim_right_lower s : trim_space_right s = s -> trim_space_right (to_lower s) = to_lower s.
Proof.
  remember (String.length s) as n eqn:Hn. revert s Hn.
  induction (lt_wf n) as [n _ IH]. intros s -> H. destruct s as [|c r]; [done|].
  assert (all_space 0 (to_lower (String c r)) = false) as Hall.
  { rewrite all_space_lower by done. cbn [trim_space_right] in H. by destruct (all_space 0 (String c r)). }
  destruct (to_lower_shape c r) as [Es | (m & t & d & -> & Es & _ & _)]; rewrite Es in *; cbn [trim_space_right]; rewrite Hall; f_equal.
  - apply (IH (String.length r)); [simpl; lia|done|]. by apply (trim_right_tail (str1 c)).
  - apply (IH (String.length t)); [simpl; rewrite length_app_str; lia|done|]. by apply (trim_right_tail (String c m)).
Qed.

(** Lower case of a trimmed text is trimmed. *)
Lemma trim_space_lower s : trim_space (to_lower (trim_space s)) = to_lower (trim_space s).
Proof.
  unfold trim_space at 1. rewrite trim_space_left_fixed.
  - apply trim_right_lower. unfold trim_space. apply trim_space_right_idem.
  - rewrite space_width_lower. unfold trim_space.
    destruct (space_width (trim_space_right (trim_space_left 0 s))) as [|w] eqn:E; [done|].
    destruct (trim_space_right_spec (trim_space_left 0 s)) as (u & Hs & _).
    apply (space_width_app _ u) in E. rewrite <- Hs in E. by rewrite (trim_space_left_head s 0 _ eq_refl) in E.
Qed.

Lemma lower_byte_idem c : lower_byte (lower_byte c) = lower_byte c.
Proof. destruct c as [[] [] [] [] [] [] [] []]; vm_compute; done. Qed.

Lemma lower_byte_high c n : (128 <= n)%N -> (n < 256)%N -> lower_byte c = Ascii.ascii_of_N n -> c = Ascii.ascii_of_N n.
Proof.
  intros Hn Hn2 H. rewrite <- H. symmetry. apply high_lower.
  destruct (byte_in 0 127 c) eqn:Hc; [|done]. destruct (ascii_lower_space c) as [_ Ha]. rewrite H, Hc in Ha.
  unfold byte_in, byte_code in Ha. rewrite Ascii.N_ascii_embedding in Ha by done.
  apply andb_true_iff in Ha as [_ Ha]. apply N.leb_le in Ha. lia.
Qed.

Lemma to_lower_starts b t r : cont b = true -> to_lower r = String b t -> exists r', r = String b r' /\ t = to_lower r'.
Proof.
  intros Hb H. pose proof (same_conts_lower r) as S. rewrite H in S.
  inversion S as [? ? _ Hn | ? r1 ? _ ? E]; subst; [simpl in Hn; by rewrite Hb in Hn|].
  rewrite to_lower_cont in H by done. injection H as <-. eauto.
Qed.

Lemma to_lower_idem s : to_lower (to_lower s) = to_lower s.
Proof.
  remember (String.length s) as n eqn:Hn. revert s Hn.
  induction (lt_wf n) as [n _ IH]. intros s ->. destruct s as [|c r]; [done|].
  destruct (to_lower_shape c r) as [E | (m & t & d & -> & E & _ & Hd)]; rewrite E.
  - assert (to_lower (String (lower_byte c) (to_lower r)) = String (lower_byte (lower_byte c)) (to_lower (to_lower r))) as ->;
      [|rewrite lower_byte_idem; f_equal; apply (IH (String.length r)); [simpl; lia|done]].
    cbn [to_lower].
    destruct (strip_prefix (String (Ascii.ascii_of_N 196) (str1 (Ascii.ascii_of_N 176))) (String (lower_byte c) (to_lower r)))
      as [u|] eqn:H; [exfalso |
      destruct (strip_prefix (String (Ascii.ascii_of_N 226) (String (Ascii.ascii_of_N 132) (str1 (Ascii.ascii_of_N 170))))
        (String (lower_byte c) (to_lower r))) as [u|] eqn:H2; [exfalso|done]].
    + apply strip_prefix_spec in H. injection H as Hc Hr. apply (lower_byte_high c 196) in Hc; [|done..].
      apply to_lower_starts in Hr as (r' & -> & ->); [|done]. subst c. cbn in E. discriminate E.
    + apply strip_prefix_spec in H2. injection H2 as Hc Hr. apply (lower_byte_high c 226) in Hc; [|done..].
      apply to_lower_starts in Hr as (r' & -> & Hr); [|done]. symmetry in Hr.
      apply to_lower_starts in Hr as (r'' & -> & ->); [|done]. subst c. cbn in E. discriminate E.
  - assert (to_lower (String d (to_lower t)) = String (lower_byte d) (to_lower (to_lower t))) as ->
      by (apply to_lower_ascii; by destruct Hd as [-> | ->]).
    f_equal; [by destruct Hd as [-> | ->]|]. apply (IH (String.length t)); [simpl; rewrite length_app_str; lia|done].
Qed.

(** A text of visible ASCII characters has no white space around it. *)
Definition is_graph : ascii -> bool := byte_in 33 126.
Lemma graph_no_space c r : is_graph c = true -> space_width (String c r) = 0%nat.
Proof. destruct c as [[] [] [] [] [] [] [] []]; intros H; first [discriminate H | reflexivity]. Qed.

Lemma graph_trim_space s : all_bytes is_graph s = true -> trim_space s = s.
Proof.
  intros H. unfold trim_space. rewrite trim_space_left_fixed.
  - induction s as [|c s IH]; [done|]. apply all_bytes_split in H as [Hc Hs]. cbn [trim_space_right all_space].
    rewrite graph_no_space by done. by rewrite IH.
  - destruct s as [|c s]; [done|]. apply all_bytes_split in H as [Hc _]. by apply graph_no_space.
Qed.

Lemma all_bytes_impl (f g : ascii -> bool) s : (forall c, f c = true -> g c = true) -> all_bytes f s = true -> all_bytes g s = true.
Proof.
  intros Hfg. induction s as [|c s IH]; [done|]. rewrite !all_bytes_split. intros [Hc Hs]. eauto.
Qed.

Lemma all_bytes_app f s t : all_bytes f (s +:+ t) = all_bytes f s && all_bytes f t.
Proof. induction s as [|c s IH]; [done|]. cbn [String.append]. rewrite !all_bytes_cons, IH. by rewrite andb_assoc. Qed.

Lemma digits_trim_space s : all_bytes is_digit s = true -> trim_space s = s.
Proof.
  intros H. apply graph_trim_space. revert H. apply all_bytes_impl. intros c.
  unfold is_digit, is_graph, byte_in. rewrite !andb_true_iff, !N.leb_le. lia.
Qed.

Lemma all_bytes_join f sep l : all_bytes f sep = true -> Forall (fun s => all_bytes f s = true) l -> all_bytes f (join sep l) = true.
Proof.
  intros Hsep. induction 1 as [|s l Hs Hl IH]; [done|]. destruct l as [|t l]; [done|].
  change (join sep (s :: t :: l)) with (s +:+ sep +:+ join sep (t :: l)). by rewrite !all_bytes_app, Hs, Hsep.
Qed.

(** Splitting what was joined. *)
Lemma split_by_none sep s : exists_byte sep s = false -> split_by sep s = [s].
Proof.
  induction s as [|c s IH]; [done|]. simpl. intros H. apply orb_false_iff in H as [Hc Hs].
  by rewrite Hc, IH.
Qed.

Lemma split_join sep l : l <> [] -> Forall (fun s => exists_byte (Ascii.eqb sep) s = false) l -> split_on sep (join (str1 sep) l) = l.
Proof.
  intros Hne Hl. induction Hl as [|s l Hs Hl IH]; [done|]. destruct l as [|t l]; [by apply split_by_none|].
  change (join (str1 sep) (s :: t :: l)) with (s +:+ String sep (join (str1 sep) (t :: l))).
  rewrite split_on_app, IH by done. unfold split_on. by rewrite split_by_none.
Qed.

(** A blank text holds no visible ASCII character. *)
Lemma all_space_no_graph g s : is_graph g = true -> forall k, conts k s = true -> all_space k s = true -> exists_byte (Ascii.eqb g) s = false.
Proof.
  intros Hg. induction s as [|c s IH]; intros k Hk Hs; [done|]. cbn [exists_byte].
  destruct (Ascii.eqb_spec g c) as [<-|Hc]; simpl.
  - exfalso. destruct k as [|k]; simpl in Hs, Hk.
    + by rewrite graph_no_space in Hs.
    + apply andb_true_iff in Hk as [Hk _]. revert Hg Hk. clear. destruct g as [[] [] [] [] [] [] [] []]; vm_compute; congruence.
  - destruct k as [|k]; simpl in Hs, Hk; [|apply andb_true_iff in Hk as [_ Hk]; by eapply IH].
    destruct (space_width (String c s)) as [|w] eqn:E; [done|]. apply (IH w); [by eapply space_width_conts|done].
Qed.

Lemma trim_left_blank s : forall k, conts k s = true -> trim_space_left k s = "" -> all_space k s = true.
Proof.
  induction s as [|c s IH]; intros k Hk H; [by destruct k|]. destruct k as [|k]; cbn [trim_space_left all_space] in *.
  - destruct (space_width (String c s)) as [|w] eqn:E; [done|]. apply IH; [by eapply space_width_conts|done].
  - simpl in Hk. apply andb_true_iff in Hk as [_ Hk]. by apply IH.
Qed.

Lemma blank_no_graph g s : is_graph g = true -> exists_byte (Ascii.eqb g) s = true -> trim_space s <> "".
Proof.
  intros Hg Hs E. unfold trim_space in E. destruct (trim_space_left 0 s) as [|c r] eqn:Hl.
  - apply trim_left_blank in Hl; [|done]. rewrite (all_space_no_graph g s Hg 0) in Hs by done. done.
  - pose proof (trim_space_left_head s 0 _ Hl) as Hw. cbn [trim_space_right all_space] in E. by rewrite Hw in E.
Qed.
