(* ===== verification/GoPath.v ===== *)
(** Go's [path] package on slash-separated paths and [path/filepath.Match]
    (Unix rules): [Clean], [IsAbs], [Dir], [Join] and the glob matcher with its
    syntax errors. *)
From S2P Require Export GoStrings.

Definition slash : ascii := "/"%char.

(** * path.Clean *)

(** One path component against the stack of components kept so far (innermost
    first): empty and [.] components vanish, [..] removes the component before
    it when there is one. *)
Definition clean_step (rooted : bool) (stack : list string) (comp : string) : list string :=
  if bool_decide (comp = "") || bool_decide (comp = ".") then stack
  else if bool_decide (comp = "..") then
    match stack with
    | top :: rest => if bool_decide (top = "..") then comp :: stack else rest
    | [] => if rooted then [] else [comp]
    end
  else comp :: stack.

Definition clean_components (rooted : bool) (comps : list string) : list string :=
  rev (fold_left (clean_step rooted) comps []).

(** [path.IsAbs] *)
Definition path_is_abs (p : string) : bool := has_prefix p "/".

(** The components of [path.Clean(p)]. *)
Definition path_components (p : string) : list string :=
  clean_components (path_is_abs p) (split_on slash p).

(** Print a cleaned component list. *)
Definition path_print (rooted : bool) (comps : list string) : string :=
  if rooted then "/" +:+ join "/" comps
  else match comps with [] => "." | _ => join "/" comps end.

(** [path.Clean] *)
Definition path_clean (p : string) : string :=
  path_print (path_is_abs p) (path_components p).

(** The text up to and including the last slash ([path.Split]). *)
Fixpoint path_dir_part (p : string) : string :=
  match p with
  | EmptyString => EmptyString
  | String c p' => if exists_byte (Ascii.eqb slash) p then String c (path_dir_part p') else EmptyString
  end.

(** [path.Dir] *)
Definition path_dir (p : string) : string := path_clean (path_dir_part p).

(** [path.Join] of two elements. *)
Definition path_join (a b : string) : string :=
  match a, b with
  | EmptyString, EmptyString => EmptyString
  | EmptyString, _ => path_clean b
  | _, EmptyString => path_clean a
  | _, _ => path_clean (a +:+ "/" +:+ b)
  end.

(** * filepath.Match *)
Inductive glob_error := ErrBadPattern | OutOfFuel.

#[export] Instance glob_error_eq_dec : EqDecision glob_error.
Proof. solve_decision. Defined.

Definition backslash : ascii := "\"%char.

Fixpoint strip_stars (s : string) : bool * string :=
  match s with
  | String c r => if Ascii.eqb c "*" then (true, snd (strip_stars r)) else (false, s)
  | EmptyString => (false, EmptyString)
  end.

(** The literal part of a chunk, up to a star outside a class. *)
Fixpoint scan_body (inrange : bool) (s : string) : string * string :=
  match s with
  | EmptyString => (EmptyString, EmptyString)
  | String c r =>
      if Ascii.eqb c backslash then
        match r with
        | String d r' => let '(a, b) := scan_body inrange r' in (String c (String d a), b)
        | EmptyString => (s, EmptyString)
        end
      else if Ascii.eqb c "*" && negb inrange then (EmptyString, s)
      else
        let inrange' := if Ascii.eqb c "[" then true
                        else if Ascii.eqb c "]" then false else inrange in
        let '(a, b) := scan_body inrange' r in (String c a, b)
  end.

(** [scanChunk]: star, chunk, rest of the pattern. *)
Definition scan_chunk (pattern : string) : bool * string * string :=
  let '(star, body) := strip_stars pattern in
  let '(chunk, rest) := scan_body false body in
  (star, chunk, rest).

(** [getEsc]: a possibly escaped character of a class and the text after it. *)
Definition get_esc (chunk : string) : result glob_error (N * string) :=
  match chunk with
  | EmptyString => Err ErrBadPattern
  | String c r =>
      if Ascii.eqb c "-" || Ascii.eqb c "]" then Err ErrBadPattern
      else
        let body := if Ascii.eqb c backslash then r else chunk in
        match body with
        | EmptyString => Err ErrBadPattern
        | String _ _ =>
            let '(rn, n) := decode_rune body in
            let rest := drop_bytes n body in
            if (rn =? rune_error)%N && (n =? 1) then Err ErrBadPattern
            else match rest with
                 | EmptyString => Err ErrBadPattern
                 | String _ _ => Ok (rn, rest)
                 end
        end
  end.

(** The text after [c] when the string starts with it. *)
Definition after_byte (c : ascii) (s : string) : option string := strip_prefix (str1 c) s.

(** The ranges of a class after [\[] and [^]; returns whether [r] is in one. *)
Fixpoint class_ranges (fuel : nat) (chunk : string) (r : N) (matched : bool) (nrange : nat)
    : result glob_error (bool * string) :=
  match fuel with
  | O => Err OutOfFuel
  | S f =>
      match after_byte "]" chunk, nrange with
      | Some rest, S _ => Ok (matched, rest)
      | _, _ =>
          try (lo, after) := get_esc chunk;;
          match after_byte "-" after with
          | Some after' =>
              try (hi, rest) := get_esc after';;
              class_ranges f rest r (matched || ((lo <=? r) && (r <=? hi))%N) (S nrange)
          | None => class_ranges f after r (matched || ((lo <=? r) && (r <=? lo))%N) (S nrange)
          end
      end
  end.

Definition strip_caret (chunk : string) : bool * string :=
  match chunk with
  | String c r => if Ascii.eqb c "^" then (true, r) else (false, chunk)
  | EmptyString => (false, EmptyString)
  end.

(** [matchChunk]: [failed] records that the match has failed, after which the
    chunk is only checked for being well formed. *)
Fixpoint match_chunk (fuel : nat) (chunk s : string) (failed0 : bool)
    : result glob_error (option string) :=
  match fuel with
  | O => Err OutOfFuel
  | S f =>
      match chunk with
      | EmptyString => Ok (if failed0 then None else Some s)
      | String c rest =>
          let failed := failed0 || bool_decide (s = EmptyString) in
          if Ascii.eqb c "[" then
            let '(r, n) := if failed then (0%N, 0) else decode_rune s in
            let '(negated, body) := strip_caret rest in
            try (matched, after) := class_ranges f body r false 0;;
            match_chunk f after (drop_bytes n s) (failed || Bool.eqb matched negated)
          else if Ascii.eqb c "?" then
            match_chunk f rest (if failed then s else drop_bytes (snd (decode_rune s)) s)
              (failed || match s with String d _ => Ascii.eqb d slash | EmptyString => true end)
          else
            let lit := if Ascii.eqb c backslash then rest else chunk in
            match lit with
            | EmptyString => Err ErrBadPattern
            | String d rest' =>
                match_chunk f rest' (if failed then s else drop_bytes 1 s)
                  (failed || match s with String e _ => negb (Ascii.eqb d e) | EmptyString => true end)
            end
      end
  end.

Definition match_chunk_top (chunk s : string) : result glob_error (option string) :=
  match_chunk (S (String.length chunk)) chunk s false.

(** Try the chunk after each prefix without a separator. *)
Fixpoint star_search (chunk : string) (last : bool) (name : string)
    : result glob_error (option string) :=
  match name with
  | EmptyString => Ok None
  | String c rest =>
      if Ascii.eqb c slash then Ok None
      else
        try found := match_chunk_top chunk rest;;
        match found with
        | Some t => if last && negb (bool_decide (t = EmptyString))
                    then star_search chunk last rest else Ok (Some t)
        | None => star_search chunk last rest
        end
  end.

(** The remaining chunks are well formed. *)
Fixpoint check_rest (fuel : nat) (pattern : string) : result glob_error unit :=
  match fuel, pattern with
  | _, EmptyString => Ok tt
  | O, _ => Err OutOfFuel
  | S f, _ =>
      let '(_, chunk, rest) := scan_chunk pattern in
      try _ := match_chunk_top chunk EmptyString;; check_rest f rest
  end.

Fixpoint match_loop (fuel : nat) (pattern name : string) : result glob_error bool :=
  match fuel, pattern with
  | _, EmptyString => Ok (bool_decide (name = EmptyString))
  | O, _ => Err OutOfFuel
  | S f, _ =>
      let '(star, chunk, rest) := scan_chunk pattern in
      if star && bool_decide (chunk = EmptyString) then Ok (negb (contains name "/"))
      else
        try here := match_chunk_top chunk name;;
        let last := bool_decide (rest = EmptyString) in
        let stop_early := try _ := check_rest (S (String.length rest)) rest;; Ok false in
        let search :=
          if star then
            try found := star_search chunk last name;;
            match found with Some t => match_loop f rest t | None => stop_early end
          else stop_early in
        match here with
        | Some t => if bool_decide (t = EmptyString) || negb last then match_loop f rest t else search
        | None => search
        end
  end.

(** [filepath.Match(pattern, name)] *)
Definition filepath_match (pattern name : string) : result glob_error bool :=
  match_loop (S (String.length pattern)) pattern name.

(** * Lemmas: splitting and cleaning *)
Definition proper_component (c : string) : Prop :=
  c <> "" /\ c <> "." /\ c <> ".." /\ exists_byte (Ascii.eqb slash) c = false.

Lemma split_join_clean (l : list string) :
  l <> [] -> Forall (fun c => exists_byte (Ascii.eqb slash) c = false) l ->
  split_on slash (join "/" l) = l.
Proof.
  assert (Hone : forall c t, exists_byte (Ascii.eqb slash) c = false ->
    split_on slash (c +:+ t) = match split_on slash t with h :: r => (c +:+ h) :: r | [] => [c] end).
  { unfold split_on. intros c t. induction c as [|x c IH]; simpl.
    - intros _. destruct (split_by (Ascii.eqb slash) t) eqn:E; [by apply split_by_ne in E | done].
    - intros H. apply orb_false_iff in H as [Hx Hc]. rewrite Hx, (IH Hc).
      by destruct (split_by (Ascii.eqb slash) t). }
  induction l as [|c l IH]; [done|]. intros _ Hl. apply Forall_cons in Hl as [Hc Hl].
  destruct l as [|d l]; cbn [join].
  - rewrite <- (app_nil_r_str c) at 1. rewrite Hone by done. simpl. by rewrite app_nil_r_str.
  - rewrite Hone by done.
    assert (E : forall u, split_on slash ("/" +:+ u) = "" :: split_on slash u) by done.
    rewrite E. cbv beta iota. rewrite app_nil_r_str. f_equal. apply IH; done.
Qed.

Lemma path_components_proper (p : string) :
  path_is_abs p = true -> Forall proper_component (path_components p).
Proof.
  intros Habs. unfold path_components, clean_components. rewrite Habs.
  apply Forall_rev.
  assert (Hfold : forall l st, Forall (fun f => exists_byte (Ascii.eqb slash) f = false) l ->
    Forall proper_component st -> Forall proper_component (fold_left (clean_step true) l st)).
  { induction l as [|c l IH]; simpl; [done|]. intros st [Hc Hl]%Forall_cons Hst.
    apply IH; [done|]. unfold clean_step.
    repeat case_bool_decide; simpl; try done; [|by constructor].
    destruct st as [|top rest]; [done|]. apply Forall_cons in Hst as [Htop Hrest].
    case_bool_decide; [|done]. by destruct Htop as (_ & _ & ? & _). }
  apply Hfold; [apply split_by_clean | constructor].
Qed.

Lemma clean_components_id (rooted : bool) (l : list string) :
  Forall proper_component l -> clean_components rooted l = l.
Proof.
  intros Hl. unfold clean_components.
  assert (Hfold : forall st, fold_left (clean_step rooted) l st = rev l ++ st).
  { induction Hl as [|c l (H1 & H2 & H3 & _) Hl IH]; intros st; [done|]. simpl.
    rewrite IH. unfold clean_step. rewrite !bool_decide_eq_false_2 by done. simpl.
    by rewrite <- app_assoc. }
  rewrite Hfold, app_nil_r. apply rev_involutive.
Qed.

Lemma split_rooted (l : list string) :
  Forall proper_component l ->
  split_on slash ("/" +:+ join "/" l) = "" :: match l with [] => [""] | _ => l end.
Proof.
  intros Hl. change (split_on slash ("/" +:+ join "/" l)) with ("" :: split_on slash (join "/" l)).
  f_equal. destruct l as [|c l]; [done|]. apply split_join_clean; [done|].
  eapply Forall_impl; [exact Hl|]. by intros x (_ & _ & _ & ?).
Qed.

(** The components of a printed rooted path are the components printed. *)
Lemma path_components_print (l : list string) :
  Forall proper_component l -> path_components (path_print true l) = l.
Proof.
  intros Hl. unfold path_components, path_print.
  change (path_is_abs ("/" +:+ join "/" l)) with true. rewrite split_rooted by done.
  transitivity (clean_components true l); [|by apply clean_components_id].
  destruct l as [|c l]; done.
Qed.

Lemma path_clean_abs (p : string) : path_is_abs p = true -> path_is_abs (path_clean p) = true.
Proof. intros H. unfold path_clean, path_print. by rewrite H. Qed.

(** [path.Clean] is idempotent on rooted paths, and keeps their components. *)
Lemma path_clean_components (p : string) :
  path_is_abs p = true -> path_components (path_clean p) = path_components p.
Proof.
  intros H. unfold path_clean. rewrite H. by apply path_components_print, path_components_proper.
Qed.

Lemma path_clean_idem (p : string) :
  path_is_abs p = true -> path_clean (path_clean p) = path_clean p.
Proof.
  intros H. unfold path_clean at 1. rewrite (path_clean_abs p H), (path_clean_components p H).
  unfold path_clean. by rewrite H.
Qed.

(** A path that [Clean] leaves alone is printed from its components. *)
Lemma path_clean_fixed (p : string) :
  path_is_abs p = true -> path_clean p = p ->
  p = "/" +:+ join "/" (path_components p) /\ Forall proper_component (path_components p).
Proof.
  intros H Hfix. split; [|by apply path_components_proper].
  rewrite <- Hfix at 1. unfold path_clean. by rewrite H.
Qed.

(** * Lemmas: the glob matcher is total and its errors are syntactic *)
Lemma length_drop_bytes n (s : string) : String.length (drop_bytes n s) = String.length s - n.
Proof. revert s. induction n as [|n IH]; intros [|c s]; simpl; auto. Qed.

Lemma decode_rune_width c (s : string) : 1 <= snd (decode_rune (String c s)).
Proof. unfold decode_rune. repeat case_match; simpl; lia. Qed.

Lemma get_esc_shrinks chunk r rest :
  get_esc chunk = Ok (r, rest) -> String.length rest < String.length chunk.
Proof.
  unfold get_esc. destruct chunk as [|c chunk]; [done|].
  destruct (Ascii.eqb c "-" || Ascii.eqb c "]"); [done|].
  set (body := if Ascii.eqb c backslash then chunk else String c chunk).
  assert (Hb : String.length body <= String.length (String c chunk))
    by (subst body; destruct (Ascii.eqb c backslash); simpl; lia).
  clearbody body. destruct body as [|x body]; [done|].
  pose proof (decode_rune_width x body) as Hw. pose proof (length_drop_bytes) as Hd.
  destruct (decode_rune (String x body)) as [rn n]. simpl in Hw.
  destruct (_ && _); [done|]. destruct (drop_bytes n (String x body)) as [|y t] eqn:E; [done|].
  intros [= _ <-]. specialize (Hd n (String x body)). rewrite E in Hd. simpl in *. lia.
Qed.

Lemma get_esc_fuel chunk : get_esc chunk <> Err OutOfFuel.
Proof. unfold get_esc. repeat case_match; done. Qed.

(** Up to the running match flag, a class is read the same for every rune. *)
Definition same_class (a b : result glob_error (bool * string)) : Prop :=
  match a, b with
  | Ok (_, s), Ok (_, t) => s = t
  | Err e, Err e' => e = e'
  | _, _ => False
  end.

Lemma class_ranges_same f chunk r r' m m' n :
  same_class (class_ranges f chunk r m n) (class_ranges f chunk r' m' n).
Proof.
  revert chunk m m' n. induction f as [|f IH]; intros chunk m m' n; [done|].
  cbn [class_ranges].
  repeat (case_match; simpl; try done; try apply IH);
    unfold result_bind; repeat (case_match; simplify_eq; simpl; try done; try apply IH).
Qed.

Lemma after_byte_shrinks c s t : after_byte c s = Some t -> String.length t < String.length s.
Proof. intros H. apply strip_prefix_spec in H as ->. simpl. lia. Qed.

Lemma class_ranges_spec f chunk r m n :
  String.length chunk < f ->
  class_ranges f chunk r m n <> Err OutOfFuel /\
  forall m' rest, class_ranges f chunk r m n = Ok (m', rest) ->
    String.length rest < String.length chunk.
Proof.
  revert chunk m n. induction f as [|f IH]; intros chunk m n Hf; [lia|].
  assert (Hstep : forall c b, String.length c < String.length chunk ->
    class_ranges f c r b (S n) <> Err OutOfFuel /\
    forall m' rest, class_ranges f c r b (S n) = Ok (m', rest) ->
      String.length rest < String.length chunk).
  { intros c b Hc. destruct (IH c b (S n)) as [H1 H2]; [lia|]. split; [done|].
    intros m' rest H. apply H2 in H. lia. }
  cbn [class_ranges]. destruct (after_byte "]" chunk) as [rest|] eqn:Eb, n as [|n].
  2: { split; [done|]. intros m' t [= _ <-]. by eapply after_byte_shrinks. }
  all: destruct (get_esc chunk) as [[lo after]|e] eqn:E; simpl;
    [| split; [intros [= ->]; by apply get_esc_fuel in E | done]];
    apply get_esc_shrinks in E;
    destruct (after_byte "-" after) as [after'|] eqn:Ed; [|by apply Hstep];
    apply after_byte_shrinks in Ed;
    destruct (get_esc after') as [[hi t]|e] eqn:E2; simpl;
    [| split; [intros [= ->]; by apply get_esc_fuel in E2 | done]];
    apply get_esc_shrinks in E2; apply Hstep; lia.
Qed.

(** The error of a result, if it is one. *)
Definition err_of {E A} (m : result E A) : option E :=
  match m with Ok _ => None | Err e => Some e end.

Lemma err_of_bind {E A B} (m : result E A) (f : A -> result E B) :
  err_of (result_bind f m) = match m with Ok a => err_of (f a) | Err e => Some e end.
Proof. by destruct m. Qed.

Lemma match_chunk_err f chunk s s' b b' :
  err_of (match_chunk f chunk s b) = err_of (match_chunk f chunk s' b').
Proof.
  revert chunk s s' b b'. induction f as [|f IH]; intros chunk s s' b b'; [done|].
  cbn [match_chunk]. destruct chunk as [|c rest]; [done|].
  destruct (Ascii.eqb c "[").
  - destruct (if b || bool_decide (s = "") then (0%N, 0) else decode_rune s) as [r n].
    destruct (if b' || bool_decide (s' = "") then (0%N, 0) else decode_rune s') as [r' n'].
    destruct (strip_caret rest) as [neg body]. rewrite !err_of_bind.
    pose proof (class_ranges_same f body r r' false false 0) as H.
    destruct (class_ranges f body r false 0) as [[m t]|e],
             (class_ranges f body r' false 0) as [[m' t']|e']; simpl in H; subst; done || apply IH.
  - destruct (Ascii.eqb c "?"); [apply IH|].
    destruct (if Ascii.eqb c backslash then rest else String c rest); [done | apply IH].
Qed.

Lemma length_strip_caret s : String.length (snd (strip_caret s)) <= String.length s.
Proof. destruct s as [|c s]; simpl; [lia|]. destruct (Ascii.eqb c "^"); simpl; lia. Qed.

Lemma match_chunk_total f chunk s b :
  String.length chunk < f -> match_chunk f chunk s b <> Err OutOfFuel.
Proof.
  revert chunk s b. induction f as [|f IH]; intros chunk s b Hf; [lia|].
  cbn [match_chunk]. destruct chunk as [|c rest]; [done|]. simpl in Hf.
  destruct (Ascii.eqb c "[").
  - destruct (if b || bool_decide (s = "") then (0%N, 0) else decode_rune s) as [r n].
    pose proof (length_strip_caret rest) as Hc.
    destruct (strip_caret rest) as [neg body]. simpl in Hc.
    destruct (class_ranges_spec f body r false 0) as [H1 H2]; [lia|].
    destruct (class_ranges f body r false 0) as [[m t]|e]; simpl; [|congruence].
    apply IH. specialize (H2 _ _ eq_refl). lia.
  - destruct (Ascii.eqb c "?"); [apply IH; lia|].
    destruct (if Ascii.eqb c backslash then rest else String c rest) as [|d t] eqn:E; [done|].
    apply IH. destruct (Ascii.eqb c backslash); simplify_eq; simpl in *; lia.
Qed.

(** Whether a chunk is malformed does not depend on the text it is tried on. *)
Definition chunk_err (chunk : string) : option glob_error := err_of (match_chunk_top chunk EmptyString).

Lemma match_chunk_top_err chunk s : err_of (match_chunk_top chunk s) = chunk_err chunk.
Proof. apply match_chunk_err. Qed.

Lemma chunk_err_total chunk : chunk_err chunk <> Some OutOfFuel.
Proof.
  unfold chunk_err, match_chunk_top.
  destruct (match_chunk _ _ _ _) as [|e] eqn:E; simpl; [done|]. intros [= ->].
  by apply match_chunk_total in E; [|lia].
Qed.

Lemma length_strip_stars s : String.length (snd (strip_stars s)) <= String.length s.
Proof. induction s as [|c s IH]; simpl; [lia|]. destruct (Ascii.eqb c "*"); simpl; lia. Qed.

Lemma strip_stars_progress s :
  fst (strip_stars s) = true -> String.length (snd (strip_stars s)) < String.length s.
Proof.
  destruct s as [|c s]; simpl; [done|]. pose proof (length_strip_stars s).
  destruct (Ascii.eqb c "*"); simpl; [lia | done].
Qed.

Lemma length_scan_body b s : String.length (snd (scan_body b s)) <= String.length s.
Proof.
  remember (String.length s) as n eqn:Hn. assert (Hle : String.length s <= n) by lia. clear Hn.
  revert b s Hle. induction n as [|n IH]; intros b s Hle; destruct s as [|c r]; simpl in *; try lia.
  destruct (Ascii.eqb c backslash).
  - destruct r as [|d r]; simpl; [lia|]. specialize (IH b r). simpl in Hle.
    destruct (scan_body b r) as [u v]; simpl in *. lia.
  - destruct (Ascii.eqb c "*" && negb b); simpl; [done|].
    specialize (IH (if Ascii.eqb c "[" then true else if Ascii.eqb c "]" then false else b) r).
    destruct (scan_body _ r) as [u v]; simpl in *. lia.
Qed.

Lemma scan_body_progress c r :
  Ascii.eqb c "*" = false -> String.length (snd (scan_body false (String c r))) <= String.length r.
Proof.
  intros Hc. cbn [scan_body]. destruct (Ascii.eqb c backslash).
  - destruct r as [|d r]; simpl; [lia|]. pose proof (length_scan_body false r).
    destruct (scan_body false r); simpl in *; lia.
  - rewrite Hc. simpl.
    set (b := if Ascii.eqb c "[" then _ else _). pose proof (length_scan_body b r).
    destruct (scan_body b r); simpl in *; lia.
Qed.

Lemma scan_chunk_shrinks pattern star chunk rest :
  pattern <> "" -> scan_chunk pattern = (star, chunk, rest) ->
  String.length rest < String.length pattern.
Proof.
  intros Hne. unfold scan_chunk.
  pose proof (length_strip_stars pattern) as Hl. pose proof (strip_stars_progress pattern) as Hp.
  destruct (strip_stars pattern) as [st body] eqn:E. simpl in *.
  pose proof (length_scan_body false body) as Hb.
  destruct (scan_body false body) as [u v] eqn:E2. intros [= -> -> ->]. simpl in Hb.
  destruct star; [specialize (Hp eq_refl); lia|].
  destruct pattern as [|c r]; [done|]. simpl in E.
  destruct (Ascii.eqb c "*") eqn:Ec; [done|]. injection E as <-.
  pose proof (scan_body_progress c r Ec) as H. rewrite E2 in H. simpl in *. lia.
Qed.

Lemma star_search_err chunk last name :
  err_of (star_search chunk last name) =
    match name with
    | EmptyString => None
    | String c _ => if Ascii.eqb c slash then None else chunk_err chunk
    end.
Proof.
  induction name as [|c name IH]; [done|]. cbn [star_search].
  destruct (Ascii.eqb c slash); [done|]. rewrite err_of_bind.
  pose proof (match_chunk_top_err chunk name) as H.
  destruct (match_chunk_top chunk name) as [[t|]|e]; simpl in H; [| |done].
  - destruct (last && _); [|done]. rewrite IH. destruct name; [done|]. by case_match.
  - rewrite IH. destruct name; [done|]. by case_match.
Qed.

(** The syntax error of a pattern, found without matching anything. *)
Definition pattern_err (fuel : nat) (pattern : string) : option glob_error :=
  err_of (check_rest fuel pattern).

Lemma pattern_err_fuel f f' p :
  String.length p < f -> String.length p < f' -> pattern_err f p = pattern_err f' p.
Proof.
  unfold pattern_err. revert f' p. induction f as [|f IH]; intros f' p Hf Hf'; [lia|].
  destruct f' as [|f']; [lia|]. destruct p as [|c p]; [done|]. cbn [check_rest].
  destruct (scan_chunk (String c p)) as [[star chunk] rest] eqn:E.
  apply scan_chunk_shrinks in E; [|done]. rewrite !err_of_bind.
  destruct (match_chunk_top chunk ""); [|done]. apply IH; lia.
Qed.

Lemma pattern_err_total f p : String.length p < f -> pattern_err f p <> Some OutOfFuel.
Proof.
  unfold pattern_err. revert p. induction f as [|f IH]; intros p Hf; [lia|].
  destruct p as [|c p]; [done|]. cbn [check_rest].
  destruct (scan_chunk (String c p)) as [[star chunk] rest] eqn:E.
  apply scan_chunk_shrinks in E; [|done]. rewrite err_of_bind.
  pose proof (chunk_err_total chunk) as Hc. unfold chunk_err in Hc.
  destruct (match_chunk_top chunk "") as [o|e]; [apply IH; lia | done].
Qed.

Lemma strip_stars_head s c r : snd (strip_stars s) = String c r -> Ascii.eqb c "*" = false.
Proof.
  induction s as [|d s IH]; simpl; [done|]. destruct (Ascii.eqb d "*") eqn:E; [done|].
  simpl. by intros [= -> _].
Qed.

(** Only a trailing star has an empty chunk. *)
Lemma scan_chunk_empty p star rest : scan_chunk p = (star, "", rest) -> rest = "".
Proof.
  unfold scan_chunk. pose proof (strip_stars_head p) as Hh.
  destruct (strip_stars p) as [st body]. simpl in Hh.
  destruct body as [|x r]; simpl; [congruence|]. specialize (Hh x r eq_refl).
  destruct (Ascii.eqb x backslash); [destruct r; [done|]; by destruct (scan_body false r)|].
  rewrite Hh. simpl. by destruct (scan_body _ r).
Qed.

Lemma pattern_err_step f c p star chunk rest :
  scan_chunk (String c p) = (star, chunk, rest) ->
  pattern_err (S f) (String c p) =
    match chunk_err chunk with Some e => Some e | None => pattern_err f rest end.
Proof.
  intros E. unfold pattern_err, chunk_err. cbn [check_rest]. rewrite E, err_of_bind.
  by destruct (match_chunk_top chunk "").
Qed.

Lemma match_loop_err f p name :
  String.length p < f -> err_of (match_loop f p name) = pattern_err f p.
Proof.
  revert p name. induction f as [|f IH]; intros p name Hf; [lia|].
  destruct p as [|c p]; [done|]. cbn [match_loop].
  destruct (scan_chunk (String c p)) as [[star chunk] rest] eqn:E.
  rewrite (pattern_err_step f _ _ _ _ _ E).
  assert (Hlt : String.length rest < f) by (apply scan_chunk_shrinks in E; [lia | done]).
  set (give := try _ := check_rest (S (String.length rest)) rest;; Ok false).
  assert (Hgive : err_of give = pattern_err f rest).
  { subst give. rewrite err_of_bind, (pattern_err_fuel f (S (String.length rest))) by lia.
    unfold pattern_err. by destruct (check_rest _ rest). }
  clearbody give.
  pose proof (match_chunk_top_err chunk name) as Hc.
  assert (Hsearch : chunk_err chunk = None -> err_of (if star
      then try found := star_search chunk (bool_decide (rest = "")) name;;
           match found with Some t => match_loop f rest t | None => give end
      else give) = pattern_err f rest).
  { intros Hok. destruct star; [|done]. rewrite err_of_bind.
    pose proof (star_search_err chunk (bool_decide (rest = "")) name) as Hs.
    destruct (star_search _ _ _) as [[t|]|e]; [by apply IH | done |].
    rewrite Hok in Hs. simpl in Hs. repeat case_match; done. }
  destruct (star && bool_decide (chunk = "")) eqn:Es.
  { apply andb_true_iff in Es as [-> Hch]. apply bool_decide_eq_true in Hch as ->.
    apply scan_chunk_empty in E as ->. by destruct f. }
  rewrite (err_of_bind (match_chunk_top chunk name)).
  destruct (match_chunk_top chunk name) as [here|e]; simpl in Hc; rewrite <- Hc; [|done].
  specialize (Hsearch (eq_sym Hc)).
  destruct here as [t|]; [|done]. destruct (_ || _); [by apply IH | done].
Qed.

(** The matcher always returns: it never runs out of fuel. *)
Lemma filepath_match_total p name : filepath_match p name <> Err OutOfFuel.
Proof.
  intros H. pose proof (match_loop_err (S (String.length p)) p name ltac:(lia)) as He.
  unfold filepath_match in H. rewrite H in He. symmetry in He.
  by apply pattern_err_total in He; [|lia].
Qed.

(** Whether [filepath.Match] reports a bad pattern does not depend on the name. *)
Lemma filepath_match_err p name name' :
  err_of (filepath_match p name) = err_of (filepath_match p name').
Proof. unfold filepath_match. by rewrite !match_loop_err by lia. Qed.

(** * Lemmas: prefixes of printed paths are prefixes of components *)
Lemma join_app (a b : list string) :
  a <> [] -> b <> [] -> join "/" (a ++ b) = join "/" a +:+ "/" +:+ join "/" b.
Proof.
  intros Ha Hb. induction a as [|x a IH]; [done|]. destruct a as [|y a].
  - destruct b; done.
  - change (join "/" ((x :: y :: a) ++ b)) with (x +:+ "/" +:+ join "/" ((y :: a) ++ b)).
    change (join "/" (x :: y :: a)) with (x +:+ "/" +:+ join "/" (y :: a)).
    rewrite IH by done. by rewrite <- !app_assoc_str.
Qed.

Lemma path_print_inj (a b : list string) :
  Forall proper_component a -> Forall proper_component b ->
  path_print true a = path_print true b -> a = b.
Proof.
  intros Ha Hb H. by rewrite <- (path_components_print a), <- (path_components_print b), H.
Qed.

Lemma path_print_under (a b : list string) :
  Forall proper_component a -> Forall proper_component b -> a <> [] ->
  has_prefix (path_print true b) (path_print true a +:+ "/") = true <-> exists c, c <> [] /\ b = a ++ c.
Proof.
  intros Ha Hb Hne. rewrite has_prefix_spec. unfold path_print. split.
  - intros (t & Ht). rewrite <- !app_assoc_str in Ht.
    assert (Hs : split_on slash ("/" +:+ join "/" b) = split_on slash ("/" +:+ join "/" a) ++ split_on slash t).
    { rewrite Ht. change ("/" +:+ join "/" a +:+ "/" +:+ t) with (("/" +:+ join "/" a) +:+ String slash t).
      apply split_on_app. }
    rewrite !split_rooted in Hs by done. injection Hs as Hs.
    destruct a as [|x a]; [done|]. destruct b as [|y b].
    + destruct a; [|done]. simpl in Hs. injection Hs as <- Hs. apply Forall_cons in Ha as [(Hx & _) _]. done.
    + exists (split_on slash t). split; [apply split_by_ne | exact Hs].
  - intros (c & Hc & ->). exists (join "/" c). rewrite join_app by done. by rewrite <- !app_assoc_str.
Qed.

(** ** Relative paths *)
Definition relative_component (c : string) : Prop := c <> "" /\ c <> "." /\ exists_byte (Ascii.eqb slash) c = false.
Lemma path_components_relative (p : string) : path_is_abs p = false -> Forall relative_component (path_components p).
Proof.
  intros Habs. unfold path_components, clean_components. rewrite Habs. apply Forall_rev.
  assert (Hfold : forall l st, Forall (fun f => exists_byte (Ascii.eqb slash) f = false) l ->
    Forall relative_component st -> Forall relative_component (fold_left (clean_step false) l st)).
  { induction l as [|c l IH]; simpl; [done|]. intros st [Hc Hl]%Forall_cons Hst. apply IH; [done|]. unfold clean_step.
    repeat case_bool_decide; simpl; subst; try done; [|by constructor].
    assert (relative_component "..") by done.
    destruct st as [|top rest]; [by repeat constructor|]. case_bool_decide; [by constructor|by apply Forall_cons in Hst as [_ ?]]. }
  apply Hfold; [apply split_by_clean | constructor].
Qed.
Lemma split_relative (l : list string) : l <> [] -> Forall relative_component l -> split_on slash (join "/" l) = l.
Proof. intros Hne Hl. apply split_join_clean; [done|]. eapply Forall_impl; [exact Hl|]. by intros x (_ & _ & ?). Qed.
Lemma path_print_relative_split (l : list string) : Forall relative_component l -> split_on slash (path_print false l) = match l with [] => ["."] | _ => l end.
Proof. intros Hl. destruct l as [|c l]; [done|]. by apply (split_relative (c :: l)). Qed.
Lemma path_print_relative_inj (a b : list string) : Forall relative_component a -> Forall relative_component b -> path_print false a = path_print false b -> a = b.
Proof.
  intros Ha Hb H. apply (f_equal (split_on slash)) in H. rewrite !path_print_relative_split in H by done.
  destruct a as [|x a], b as [|y b]; try done; injection H as H1 H2; subst; try done; first [by apply Forall_cons in Ha as [(_ & ? & _) _]|by apply Forall_cons in Hb as [(_ & ? & _) _]].
Qed.
Lemma path_print_relative_under (a b : list string) : Forall relative_component a -> Forall relative_component b ->
  has_prefix (path_print false b) (path_print false a +:+ "/") = true <-> a <> [] /\ exists c, c <> [] /\ b = a ++ c.
Proof.
  intros Ha Hb. rewrite has_prefix_spec. split.
  - intros (t & Ht). rewrite <- app_assoc_str in Ht. apply (f_equal (split_on slash)) in Ht.
    change (path_print false a +:+ "/" +:+ t) with (path_print false a +:+ String slash t) in Ht.
    rewrite split_on_app, !path_print_relative_split in Ht by done. pose proof (split_by_ne (Ascii.eqb slash) t) as Hne. fold (split_on slash t) in Hne.
    destruct a as [|x a].
    + destruct b as [|y b]; [by injection Ht; destruct (split_on slash t)|]. injection Ht as Hy Ht. subst y. by apply Forall_cons in Hb as [(_ & ? & _) _].
    + split; [done|]. exists (split_on slash t). split; [done|].
      destruct b as [|y b]; [|exact Ht]. injection Ht as <- Ht. by destruct a, (split_on slash t).
  - intros (Hne & c & Hc & ->). exists (join "/" c). destruct a as [|x a]; [done|].
    change (path_print false ((x :: a) ++ c)) with (join "/" ((x :: a) ++ c)). rewrite join_app by done. by rewrite <- !app_assoc_str.
Qed.
(** A relative path does not start with a slash. *)
Lemma path_print_relative_abs (l : list string) : Forall relative_component l -> path_is_abs (path_print false l) = false.
Proof.
  intros Hl. destruct l as [|c l]; [done|]. apply Forall_cons in Hl as [(Hne & _ & Hs) _]. unfold path_is_abs.
  destruct c as [|x c]; [done|]. cbn [exists_byte] in Hs. apply orb_false_iff in Hs as [Hx _].
  assert (forall r, has_prefix (String x r) "/" = false) as Hp.
  { intros r. destruct (has_prefix (String x r) "/") eqn:E; [|done]. apply has_prefix_spec in E as (t & Et). injection Et as -> _. by vm_compute in Hx. }
  by destruct l as [|d l]; apply Hp.
Qed.
