(* ===== verification/SshOptions.v ===== *)
(** OpenSSH client options: core/ssh/ssh_options.go and the durations and modes of
    core/ssh/control_config.go.

    The theorems show that every accepted value is in normal form, that options
    built through the interface stay well formed and validate up to the two rules
    that relate several options, that layers are merged key by key with the first
    layer winning, that a disabled control path disables multiplexing, that the
    written form is read back, and what a duration denotes, its overflow included. *)
From S2P Require Export GoNumbers.
#[local] Open Scope Z_scope.

(** * Durations, modes and persistence (control_config.go) *)

Definition second : Z := 1000000000.
Definition unit_of (c : ascii) : option Z :=
  match lower_byte c with
  | "s"%char => Some second
  | "m"%char => Some (60 * second)
  | "h"%char => Some (3600 * second)
  | "d"%char => Some (86400 * second)
  | "w"%char => Some (604800 * second)
  | _ => None
  end.

(** The loop of [parseOpenSSHDuration]; [digits] are those read since the last unit. *)
Fixpoint duration_loop (s digits : string) (total : Z) : option Z :=
  match s with
  | EmptyString =>
      if str_eq digits "" then Some total
      else match parse_int64 digits with
           | Some num => Some (wrap_int64 (total + wrap_int64 (num * second)))
           | None => None
           end
  | String c r =>
      if is_digit c then duration_loop r (digits +:+ str1 c) total
      else if str_eq digits "" then None
      else match parse_int64 digits, unit_of c with
           | Some num, Some unit => duration_loop r "" (wrap_int64 (total + wrap_int64 (num * unit)))
           | _, _ => None
           end
  end.

(** Nanoseconds; [None] is an error. *)
Definition parseOpenSSHDuration (s : string) : option Z :=
  if str_eq s "" then None
  else match parse_int64 s with
       | Some val => if val <=? 0 then None else Some (wrap_int64 (val * second))
       | None => match duration_loop s "" 0 with
                 | Some total => if total <=? 0 then None else Some total
                 | None => None
                 end
       end.

Definition ControlMasterNo : string := "no".
Definition ControlMasterYes : string := "yes".
Definition ControlMasterAsk : string := "ask".
Definition ControlMasterAuto : string := "auto".
Definition ControlMasterAutoAsk : string := "autoask".

Definition ParseControlMasterMode (val : string) : option string :=
  let v := to_lower (trim_space val) in
  if one_of v ["no"; "false"; ""] then Some ControlMasterNo
  else if one_of v ["yes"; "true"] then Some ControlMasterYes
  else if str_eq v "ask" then Some ControlMasterAsk
  else if str_eq v "auto" then Some ControlMasterAuto
  else if str_eq v "autoask" then Some ControlMasterAutoAsk
  else None.

(** Enabled, indefinite and timeout. *)
Definition ParseControlPersist (val : string) : option (bool * bool * Z) :=
  let trimmed := to_lower (trim_space val) in
  if one_of trimmed [""; "no"; "false"] then Some (false, false, 0)
  else if one_of trimmed ["yes"; "true"; "0"] then Some (true, true, 0)
  else match parseOpenSSHDuration trimmed with Some d => Some (true, false, d) | None => None end.

(** ** [ValidateControlPathSyntax] *)
Definition env_start (c : ascii) : bool := is_alpha c || Ascii.eqb c "_".
Definition env_byte (c : ascii) : bool := is_alpha c || is_digit c || Ascii.eqb c "_".
Definition isValidEnvIdentifier (s : string) : bool :=
  match s with EmptyString => false | String c r => env_start c && all_bytes env_byte r end.

(** The scan for environment variables: [None] while outside, [Some name] behind
    an opening brace. *)
Fixpoint env_scan (s : string) (name : option string) : bool :=
  match s with
  | EmptyString => match name with None => true | Some _ => false end
  | String c r =>
      match name with
      | Some n => if Ascii.eqb c "}" then isValidEnvIdentifier n && env_scan r None
                  else env_scan r (Some (n +:+ str1 c))
      | None => match r with
                | String d r2 => if Ascii.eqb c "$" && Ascii.eqb d "{" then env_scan r2 (Some EmptyString)
                                 else env_scan r None
                | EmptyString => true
                end
      end
  end.

Definition percent_tokens : string := "%hprnulLidjC".
Fixpoint percent_scan (s : string) : bool :=
  match s with
  | EmptyString => true
  | String c r =>
      if Ascii.eqb c "%" then
        match r with
        | EmptyString => false
        | String t r2 => byte_member t percent_tokens && percent_scan r2
        end
      else percent_scan r
  end.

Definition ValidateControlPathSyntax (rawPath : string) : bool :=
  one_of rawPath [""; "none"] || (env_scan rawPath None && percent_scan rawPath).

(** * The registry *)

Inductive option_error :=
  | UnknownOption (key : string)
  | UnsupportedValue (name raw : string)
  | ValueEmpty (name : string)
  | InvalidMethod (p : string)
  | EmptyAlgorithmList
  | EmptyAlgorithmName
  | UnsupportedAlgorithm (algo : string)
  | ResolvedListEmpty
  | PersistWithoutMaster (persist : string)
  | PathNoneWithMaster (master : string)
  | MasterWithoutPath (master : string)
  | PersistWithoutPath
  | NotAMapping
  | DuplicateOption (key other : string)
  | NullValue (key : string)
  | ListNotAccepted (key : string)
  | ElementNotScalar (key : string)
  | UnexpectedKind (key : string).

Inductive OptionClass := ClassMux | ClassTransport | ClassAuth | ClassTrust.
#[export] Instance OptionClass_eq_dec : EqDecision OptionClass.
Proof. solve_decision. Defined.

(** The algorithm tables of golang.org/x/crypto/ssh. *)
Inductive algorithm_kind := HostKeys | Ciphers | MACs | KeyExchanges.
Class Algorithms := {
  SupportedAlgorithms : algorithm_kind -> list string;
  InsecureAlgorithms : algorithm_kind -> list string
}.

Record OptionSpec := mkSpec {
  CanonicalKey : string;
  OpenSSHName : string;
  Class_ : OptionClass;
  Aliases : list string;
  AllowList : bool;
  Normalize : string -> result option_error string
}.

Definition of_option {A} (o : option A) (e : option_error) : result option_error A :=
  match o with Some a => Ok a | None => Err e end.

Definition normalizeControlMaster (raw : string) : result option_error string :=
  let trimmed := trim_space raw in
  reject str_eq trimmed "" with UnsupportedValue "ControlMaster" raw ;;
  of_option (ParseControlMasterMode trimmed) (UnsupportedValue "ControlMaster" trimmed).

Definition normalizeControlPath (raw : string) : result option_error string :=
  let trimmed := trim_space raw in
  reject str_eq trimmed "" with ValueEmpty "ControlPath" ;;
  if equal_fold trimmed "none" then Ok "none"
  else reject negb (ValidateControlPathSyntax trimmed) with UnsupportedValue "ControlPath" raw ;;
       Ok trimmed.

Definition normalizeControlPersist (raw : string) : result option_error string :=
  let trimmed := to_lower (trim_space raw) in
  reject str_eq trimmed "" with ValueEmpty "ControlPersist" ;;
  match ParseControlPersist trimmed with
  | Some _ => Ok trimmed
  | None => Err (UnsupportedValue "ControlPersist" raw)
  end.

Definition normalizeOptionalDurationOption (name raw : string) : result option_error string :=
  let trimmed := to_lower (trim_space raw) in
  if one_of trimmed ["none"; "0"; "0s"] then Ok "0"
  else match parseOpenSSHDuration trimmed with
       | Some _ => Ok (trim_space raw)
       | None => Err (UnsupportedValue name raw)
       end.

Definition normalizeCountMax (raw : string) : result option_error string :=
  match parse_int64 (trim_space raw) with
  | Some val => if val <? 0 then Err (UnsupportedValue "ServerAliveCountMax" raw) else Ok (itoa val)
  | None => Err (UnsupportedValue "ServerAliveCountMax" raw)
  end.

Definition normalizeYesNoOption (name raw : string) : result option_error string :=
  let v := to_lower (trim_space raw) in
  if one_of v ["yes"; "true"] then Ok "yes"
  else if one_of v ["no"; "false"] then Ok "no"
  else Err (UnsupportedValue name raw).

Definition ParseStrictHostKeyChecking (raw : string) : result option_error string :=
  let v := to_lower (trim_space raw) in
  if one_of v ["yes"; "true"] then Ok "yes"
  else if one_of v ["no"; "off"; "false"] then Ok "no"
  else if str_eq v "ask" then Ok "ask"
  else if str_eq v "accept-new" then Ok "accept-new"
  else Err (UnsupportedValue "StrictHostKeyChecking" raw).

Definition normalizeKnownHosts (raw : string) : result option_error string :=
  let trimmed := trim_space raw in
  reject str_eq trimmed "" with ValueEmpty "UserKnownHostsFile" ;; Ok trimmed.

Definition auth_methods : list string :=
  ["publickey"; "keyboard-interactive"; "password"; "gssapi-with-mic"; "hostbased"].

Definition is_nil {A} (l : list A) : bool := match l with [] => true | _ => false end.

(** [if !slices.Contains(l, x) { l = append(l, x) }] *)
Definition append_new (l : list string) (x : string) : list string :=
  if one_of x l then l else l ++ [x].

Fixpoint normalize_methods (parts normalized : list string) : result option_error (list string) :=
  match parts with
  | [] => Ok normalized
  | p :: rest =>
      let token := to_lower (trim_space p) in
      if one_of token auth_methods then normalize_methods rest (append_new normalized token)
      else Err (InvalidMethod p)
  end.

Definition normalizePreferredAuthentications (raw : string) : result option_error string :=
  let trimmed := trim_space raw in
  reject str_eq trimmed "" with ValueEmpty "PreferredAuthentications" ;;
  try normalized := normalize_methods (split_on "," trimmed) [] ;;
  reject is_nil normalized with ValueEmpty "PreferredAuthentications" ;;
  Ok (join "," normalized).

(** ** Algorithm lists *)
Definition allSupportedAlgorithms (secure insecure : list string) : list string :=
  foldl append_new secure insecure.

Inductive modifier := NoModifier | Append | Remove | Prepend.
(** The modifier in front of a list and the trimmed list. *)
Definition split_modifier (trimmed : string) : modifier * string :=
  match trimmed with
  | String c r =>
      if Ascii.eqb c "+" then (Append, trim_space r)
      else if Ascii.eqb c "-" then (Remove, trim_space r)
      else if Ascii.eqb c "^" then (Prepend, trim_space r)
      else (NoModifier, trimmed)
  | EmptyString => (NoModifier, trimmed)
  end.

Fixpoint algorithm_items (parts items : list string) : result option_error (list string) :=
  match parts with
  | [] => Ok items
  | part :: rest =>
      let algo := trim_space part in
      reject str_eq algo "" with EmptyAlgorithmName ;;
      algorithm_items rest (append_new items algo)
  end.

Definition ResolveAlgorithmList (spec : string) (defaults : list string) : result option_error (list string) :=
  let trimmed := trim_space spec in
  if str_eq trimmed "" then Ok defaults
  else let '(m, body) := split_modifier trimmed in
  reject str_eq body "" with EmptyAlgorithmList ;;
  try items := algorithm_items (split_on "," body) [] ;;
  let res := match m with
             | NoModifier => items
             | Append => foldl append_new defaults items
             | Prepend => foldl append_new items defaults
             | Remove => filter (fun algo => one_of algo items = false) defaults
             end in
  reject is_nil res with ResolvedListEmpty ;; Ok res.

Fixpoint check_algorithms (m : modifier) (supported parts : list string) : result option_error unit :=
  match parts with
  | [] => Ok tt
  | part :: rest =>
      let algo := trim_space part in
      reject str_eq algo "" with EmptyAlgorithmName ;;
      reject negb (match m with Remove => true | _ => one_of algo supported end) with UnsupportedAlgorithm algo ;;
      check_algorithms m supported rest
  end.

Definition normalizeAlgorithmSpec (name raw : string) (defaults supported : list string) : result option_error string :=
  let trimmed := trim_space raw in
  reject str_eq trimmed "" with ValueEmpty name ;;
  let '(m, checkSpec) := split_modifier trimmed in
  reject str_eq checkSpec "" with EmptyAlgorithmList ;;
  try _ := check_algorithms m supported (split_on "," checkSpec) ;;
  try _ := ResolveAlgorithmList trimmed defaults ;;
  Ok trimmed.

Definition OptionControlMaster : string := "control_master".
Definition OptionControlPath : string := "control_path".
Definition OptionControlPersist : string := "control_persist".
Definition OptionPreferredAuthentications : string := "preferred_authentications".
Definition OptionHostKeyAlgorithms : string := "host_key_algorithms".
Definition OptionCiphers : string := "ciphers".
Definition OptionMACs : string := "macs".
Definition OptionKexAlgorithms : string := "kex_algorithms".

Section Registry.
Context `{Alg : Algorithms}.

Definition all_of (k : algorithm_kind) : list string :=
  allSupportedAlgorithms (SupportedAlgorithms k) (InsecureAlgorithms k).
Definition algorithm_option (name : string) (k : algorithm_kind) (raw : string) : result option_error string :=
  normalizeAlgorithmSpec name raw (SupportedAlgorithms k) (all_of k).

Definition optionRegistry : list OptionSpec := [
  mkSpec OptionControlMaster "ControlMaster" ClassMux [] false normalizeControlMaster;
  mkSpec OptionControlPath "ControlPath" ClassMux [] false normalizeControlPath;
  mkSpec OptionControlPersist "ControlPersist" ClassMux [] false normalizeControlPersist;
  mkSpec "connect_timeout" "ConnectTimeout" ClassTransport [] false (normalizeOptionalDurationOption "ConnectTimeout");
  mkSpec "server_alive_interval" "ServerAliveInterval" ClassTransport [] false
    (normalizeOptionalDurationOption "ServerAliveInterval");
  mkSpec "server_alive_count_max" "ServerAliveCountMax" ClassTransport [] false normalizeCountMax;
  mkSpec "tcp_keep_alive" "TCPKeepAlive" ClassTransport [] false (normalizeYesNoOption "TCPKeepAlive");
  mkSpec "strict_host_key_checking" "StrictHostKeyChecking" ClassTrust [] false ParseStrictHostKeyChecking;
  mkSpec "user_known_hosts_file" "UserKnownHostsFile" ClassTrust [] false normalizeKnownHosts;
  mkSpec "pubkey_authentication" "PubkeyAuthentication" ClassAuth [] false (normalizeYesNoOption "PubkeyAuthentication");
  mkSpec "password_authentication" "PasswordAuthentication" ClassAuth [] false
    (normalizeYesNoOption "PasswordAuthentication");
  mkSpec "kbd_interactive_authentication" "KbdInteractiveAuthentication" ClassAuth
    ["ChallengeResponseAuthentication"; "challenge_response_authentication"] false
    (normalizeYesNoOption "KbdInteractiveAuthentication");
  mkSpec "identities_only" "IdentitiesOnly" ClassAuth [] false (normalizeYesNoOption "IdentitiesOnly");
  mkSpec OptionPreferredAuthentications "PreferredAuthentications" ClassAuth [] true normalizePreferredAuthentications;
  mkSpec "batch_mode" "BatchMode" ClassAuth [] false (normalizeYesNoOption "BatchMode");
  mkSpec OptionHostKeyAlgorithms "HostKeyAlgorithms" ClassTransport [] true (algorithm_option "HostKeyAlgorithms" HostKeys);
  mkSpec OptionCiphers "Ciphers" ClassTransport [] true (algorithm_option "Ciphers" Ciphers);
  mkSpec OptionMACs "MACs" ClassTransport [] true (algorithm_option "MACs" MACs);
  mkSpec OptionKexAlgorithms "KexAlgorithms" ClassTransport [] true (algorithm_option "KexAlgorithms" KeyExchanges)
].

(** [buildOptionLookupMap]: the names of an option, in the order they are stored. *)
Definition spec_names (spec : OptionSpec) : list string :=
  to_lower (CanonicalKey spec) :: to_lower (OpenSSHName spec) :: map to_lower (Aliases spec).
Definition add_spec (m : gmap string OptionSpec) (spec : OptionSpec) : gmap string OptionSpec :=
  foldl (fun m name => <[name := spec]> m) m (spec_names spec).
Definition buildOptionLookupMap : gmap string OptionSpec := foldl add_spec ∅ optionRegistry.

Definition LookupOptionSpec (key : string) : option OptionSpec :=
  let trimmed := to_lower (trim_space key) in
  if str_eq trimmed "" then None else buildOptionLookupMap !! trimmed.

(** ** [FilterSupportedListValue] *)
Definition filter_supported (canonicalKey : string) : option (list string) :=
  if str_eq canonicalKey OptionPreferredAuthentications then Some ["publickey"; "keyboard-interactive"; "password"]
  else if str_eq canonicalKey OptionHostKeyAlgorithms then Some (all_of HostKeys)
  else if str_eq canonicalKey OptionCiphers then Some (all_of Ciphers)
  else if str_eq canonicalKey OptionMACs then Some (all_of MACs)
  else if str_eq canonicalKey OptionKexAlgorithms then Some (all_of KeyExchanges)
  else None.

Definition modifier_text (m : modifier) : string :=
  match m with NoModifier => "" | Append => "+" | Remove => "-" | Prepend => "^" end.

Definition keep_token (auth : bool) (m : modifier) (supported : list string) (part : string) : option string :=
  let tok := if auth then to_lower (trim_space part) else trim_space part in
  if str_eq tok "" then None
  else if match m with Remove => true | _ => one_of tok supported end then Some tok else None.

Definition FilterSupportedListValue (canonicalKey raw : string) : string :=
  let trimmed := trim_space raw in
  if str_eq trimmed "" then ""
  else match filter_supported canonicalKey with
  | None => raw
  | Some supported =>
      let auth := str_eq canonicalKey OptionPreferredAuthentications in
      let '(m, body) := if auth then (NoModifier, trimmed) else split_modifier trimmed in
      let kept := omap (keep_token auth m supported) (split_on "," body) in
      if is_nil kept then "" else modifier_text m +:+ join "," kept
  end.

(** * Options *)

(** The map of an [Options] may be nil, which reads as empty. *)
Record Options := mkOptions { oValues : option (gmap string string); ImplicitTier4 : bool }.

Definition vals (o : Options) : gmap string string := default ∅ (oValues o).
Definition options_empty (o : Options) : bool := bool_decide (vals o = ∅).
(** [IsEmpty] of a pointer. *)
Definition IsEmpty (o : option Options) : bool := match o with None => true | Some o => options_empty o end.

Definition options_clone (o : Options) : Options :=
  mkOptions (if options_empty o then None else Some (vals o)) (ImplicitTier4 o).

Definition options_Equal (o other : option Options) : bool :=
  if IsEmpty o && IsEmpty other then true
  else match o, other with
  | Some a, Some b =>
      if options_empty a || options_empty b then false
      else if negb (bool_decide (size (vals a) = size (vals b))) then false
      else bool_decide (map_Forall (fun k v => default "" (vals b !! k) = v) (vals a))
  | _, _ => false
  end.

(** The key under which [Get], [Has] and [Delete] look. *)
Definition resolve_key (key : string) : string :=
  match LookupOptionSpec key with Some spec => CanonicalKey spec | None => key end.

Definition Delete (o : Options) (key : string) : Options :=
  if options_empty o then o
  else let m := delete (resolve_key key) (vals o) in
       mkOptions (if bool_decide (m = ∅) then None else Some m) (ImplicitTier4 o).

Definition setRaw (o : Options) (canonicalKey val : string) : Options :=
  if str_eq val "" then Delete o canonicalKey
  else mkOptions (Some (<[canonicalKey := val]> (vals o))) (ImplicitTier4 o).

Definition SetOption (o : Options) (key rawValue : string) : result option_error Options :=
  match LookupOptionSpec key with
  | None => Err (UnknownOption key)
  | Some spec =>
      if str_eq (trim_space rawValue) "" then Ok (Delete o (CanonicalKey spec))
      else try normalized := Normalize spec rawValue ;;
           Ok (setRaw o (CanonicalKey spec) normalized)
  end.

Definition Get (o : option Options) (key : string) : string :=
  match o with None => "" | Some o => default "" (vals o !! resolve_key key) end.
Definition Has (o : option Options) (key : string) : bool :=
  match o with None => false | Some o => bool_decide (is_Some (vals o !! resolve_key key)) end.

Definition ControlMaster (o : option Options) : string := Get o OptionControlMaster.
Definition ControlPath (o : option Options) : string := Get o OptionControlPath.
Definition ControlPersist (o : option Options) : string := Get o OptionControlPersist.

Definition boolOption (o : option Options) (key : string) : bool * bool :=
  let v := to_lower (Get o key) in
  if one_of v ["yes"; "true"] then (true, true)
  else if one_of v ["no"; "false"] then (false, true)
  else (false, false).
Definition IdentitiesOnly (o : option Options) : bool :=
  let '(v, ok) := boolOption o "identities_only" in ok && v.
Definition BatchMode (o : option Options) : bool :=
  let '(v, ok) := boolOption o "batch_mode" in ok && v.
Definition TCPKeepAlive (o : option Options) : bool * bool := boolOption o "tcp_keep_alive".

(** [ConnectTimeout] and [ServerAliveInterval]. *)
Definition duration_option (key : string) (o : option Options) : Z :=
  let val := Get o key in
  if one_of val [""; "0"] || equal_fold val "none" then 0
  else default 0 (parseOpenSSHDuration (to_lower val)).
Definition ConnectTimeout : option Options -> Z := duration_option "connect_timeout".
Definition ServerAliveInterval : option Options -> Z := duration_option "server_alive_interval".
Definition ServerAliveCountMax (o : option Options) : Z :=
  let val := Get o "server_alive_count_max" in
  if str_eq val "" then 3
  else match parse_int64 val with Some n => if n <? 0 then 3 else n | None => 3 end.
Definition PreferredAuthentications (o : option Options) : list string :=
  let val := Get o OptionPreferredAuthentications in
  if str_eq val "" then [] else split_on "," val.

Record ControlConfig := mkControl { Master : string; Path : string; Persist : string; cImplicit : bool }.

Definition OptionsFromControl (ctrl : option ControlConfig) : option Options :=
  match ctrl with
  | None => None
  | Some c =>
      if str_eq (Master c) "" && str_eq (Path c) "" && str_eq (Persist c) "" then None
      else let o := mkOptions None (cImplicit c) in
           let o := if str_eq (Master c) "" then o else setRaw o OptionControlMaster (Master c) in
           let o := if str_eq (Path c) "" then o else setRaw o OptionControlPath (Path c) in
           Some (if str_eq (Persist c) "" then o else setRaw o OptionControlPersist (Persist c))
  end.

Definition options_ControlConfig (o : option Options) : option ControlConfig :=
  match o with
  | None => None
  | Some opts =>
      if options_empty opts then None
      else if str_eq (ControlMaster o) "" && str_eq (ControlPath o) "" && str_eq (ControlPersist o) "" then None
      else Some (mkControl (ControlMaster o) (ControlPath o) (ControlPersist o) (ImplicitTier4 opts))
  end.

(** ** Classes and validation.  Go ranges over the map in an arbitrary order; the
    model takes the order of [map_to_list]. *)
Definition in_classes (allowed : list OptionClass) (key : string) : bool :=
  match LookupOptionSpec key with
  | Some spec => slice_contains allowed (Class_ spec)
  | None => false
  end.

Definition FilterByClasses (o : option Options) (allowed : list OptionClass) : option Options :=
  match o with
  | None => None
  | Some opts =>
      if options_empty opts || is_nil allowed then None
      else let res := foldl (fun res '(k, v) => if in_classes allowed k then setRaw res k v else res)
                        (mkOptions None (ImplicitTier4 opts)) (map_to_list (vals opts)) in
           if options_empty res then None else Some res
  end.

Definition StripClasses (o : Options) (classes : list OptionClass) : Options :=
  if options_empty o || is_nil classes then o
  else mkOptions (Some (filter (fun kv => in_classes classes kv.1 = false) (vals o))) (ImplicitTier4 o).

Fixpoint validate_values (kvs : list (string * string)) : result option_error unit :=
  match kvs with
  | [] => Ok tt
  | (k, v) :: rest =>
      match LookupOptionSpec k with
      | None => Err (UnknownOption k)
      | Some spec => try _ := Normalize spec v ;; validate_values rest
      end
  end.

Definition isActiveControlMaster (mode : string) : bool :=
  one_of mode [ControlMasterYes; ControlMasterAsk; ControlMasterAuto; ControlMasterAutoAsk].
Definition persists (persist : string) : bool :=
  negb (str_eq persist "") && negb (equal_fold persist "no") && negb (equal_fold persist "false").
Definition normMaster (o : option Options) : string := to_lower (trim_space (ControlMaster o)).

Definition Validate (o : option Options) : result option_error unit :=
  match o with
  | None => Ok tt
  | Some opts =>
      if options_empty opts then Ok tt
      else try _ := validate_values (map_to_list (vals opts)) ;;
           reject str_eq (normMaster o) ControlMasterNo && persists (ControlPersist o)
             with PersistWithoutMaster (ControlPersist o) ;;
           reject str_eq (ControlPath o) "none" && isActiveControlMaster (normMaster o)
             with PathNoneWithMaster (ControlMaster o) ;;
           Ok tt
  end.

Definition ValidateEffective (o : option Options) : result option_error unit :=
  if IsEmpty o then Ok tt
  else try _ := Validate o ;;
       reject isActiveControlMaster (normMaster o) && one_of (ControlPath o) [""; "none"]
         with MasterWithoutPath (ControlMaster o) ;;
       reject persists (ControlPersist o) && str_eq (ControlPath o) "" with PersistWithoutPath ;;
       Ok tt.

(** ** Layers *)
Definition merge_layer (res : Options) (layer : Options) : Options :=
  foldl (fun res '(k, v) => if bool_decide (is_Some (vals res !! k)) then res else setRaw res k v)
    res (map_to_list (vals layer)).

Definition layer_persist (layer : option Options) : bool :=
  match layer with
  | Some l => negb (options_empty l) && negb (ImplicitTier4 l) && negb (str_eq (ControlPersist layer) "")
  | None => false
  end.
Definition layer_implicit (layer : option Options) : bool :=
  match layer with Some l => negb (options_empty l) && ImplicitTier4 l | None => false end.

Definition MergeOptionLayers (layers : list (option Options)) : option Options :=
  let res := foldl (fun res layer => match layer with
                                     | Some l => if options_empty l then res else merge_layer res l
                                     | None => res
                                     end) (mkOptions None false) layers in
  if options_empty res then None
  else Some (mkOptions (oValues res) (negb (existsb layer_persist layers) && existsb layer_implicit layers)).

Definition finalizeEffectiveOptions (opts : option Options) : option Options :=
  match opts with
  | None => None
  | Some o =>
      if options_empty o then None
      else if str_eq (ControlPath opts) "none"
           then Some (Delete (setRaw o OptionControlMaster ControlMasterNo) OptionControlPersist)
           else Some o
  end.

Definition EffectiveOptions (layers : list (option Options)) : option Options :=
  finalizeEffectiveOptions (MergeOptionLayers layers).
Definition ResolveOptions (child parent : option Options) : option Options := EffectiveOptions [child; parent].

(** ** The written form: nodes of gopkg.in/yaml.v3 *)
Inductive yaml_node :=
  | YScalar (tag value : string)
  | YSequence (tag : string) (content : list yaml_node)
  | YMapping (tag : string) (content : list (yaml_node * yaml_node))
  | YOther (tag : string).
Definition node_tag (n : yaml_node) : string :=
  match n with YScalar t _ | YSequence t _ | YMapping t _ | YOther t => t end.
Definition node_value (n : yaml_node) : string := match n with YScalar _ v => v | _ => "" end.

Definition marshal_entry (o : Options) (spec : OptionSpec) : option (yaml_node * yaml_node) :=
  match vals o !! CanonicalKey spec with
  | None => None
  | Some val => if str_eq val "" then None
                else Some (YScalar "!!str" (CanonicalKey spec), YScalar "!!str" val)
  end.
Definition MarshalYAML (o : Options) : yaml_node := YMapping "!!map" (omap (marshal_entry o) optionRegistry).

Fixpoint scalar_items (spec : OptionSpec) (content : list yaml_node) : result option_error (list string) :=
  match content with
  | [] => Ok []
  | elem :: rest =>
      match elem with
      | YScalar tag value =>
          reject str_eq tag "!!null" with ElementNotScalar (OpenSSHName spec) ;;
          try items := scalar_items spec rest ;; Ok (value :: items)
      | _ => Err (ElementNotScalar (OpenSSHName spec))
      end
  end.
Definition extractYAMLOptionValue (spec : OptionSpec) (valNode : yaml_node) : result option_error string :=
  reject str_eq (node_tag valNode) "!!null" with NullValue (OpenSSHName spec) ;;
  match valNode with
  | YScalar _ value => Ok value
  | YSequence _ content =>
      reject negb (AllowList spec) with ListNotAccepted (OpenSSHName spec) ;;
      try items := scalar_items spec content ;; Ok (join "," items)
  | _ => Err (UnexpectedKind (OpenSSHName spec))
  end.

Fixpoint unmarshal_entries (content : list (yaml_node * yaml_node)) (seen : gmap string string) (parsed : Options)
  : result option_error Options :=
  match content with
  | [] => Ok parsed
  | (keyNode, valNode) :: rest =>
      let rawKey := node_value keyNode in
      match LookupOptionSpec rawKey with
      | None => Err (UnknownOption rawKey)
      | Some spec =>
          match seen !! CanonicalKey spec with
          | Some prevKey => Err (DuplicateOption rawKey prevKey)
          | None =>
              try rawVal := extractYAMLOptionValue spec valNode ;;
              try normVal := Normalize spec rawVal ;;
              unmarshal_entries rest (<[CanonicalKey spec := rawKey]> seen) (setRaw parsed (CanonicalKey spec) normVal)
          end
      end
  end.

(** [UnmarshalYAML] into [o]: a null node leaves it as it was. *)
Definition UnmarshalYAML (o : Options) (value : yaml_node) : result option_error Options :=
  if str_eq (node_tag value) "!!null" then Ok o
  else match value with
  | YMapping _ content =>
      try parsed := unmarshal_entries content ∅ (mkOptions None false) ;;
      try _ := Validate (Some parsed) ;;
      Ok parsed
  | _ => Err NotAMapping
  end.

(** * Lemmas: normal forms *)

(** Every value a normalisation accepts is a fixed point of it, and not blank. *)
Definition settles (f : string -> result option_error string) : Prop :=
  forall raw v, f raw = Ok v -> trim_space v <> "" /\ f v = Ok v.

Lemma settles_const f : (forall raw v, f raw = Ok v -> exists l, v ∈ l /\ Forall (fun c => trim_space c <> "" /\ f c = Ok c) l) -> settles f.
Proof. intros Hf raw v Hv. apply Hf in Hv as (l & Hin & Hl). rewrite Forall_forall in Hl. by apply Hl. Qed.

Ltac const_cases := repeat constructor; vm_compute; congruence.

Lemma master_settles : settles normalizeControlMaster.
Proof.
  apply settles_const. intros raw v. unfold normalizeControlMaster, ParseControlMasterMode. intros Hv.
  exists [ControlMasterNo; ControlMasterYes; ControlMasterAsk; ControlMasterAuto; ControlMasterAutoAsk].
  split; [|const_cases]. apply bind_reject_ok in Hv as [_ Hv].
  repeat case_match; simplify_eq/=; set_solver.
Qed.

Lemma path_settles : settles normalizeControlPath.
Proof.
  intros raw v. unfold normalizeControlPath. intros Hv. apply bind_reject_ok in Hv as [He Hv].
  destruct (equal_fold (trim_space raw) "none") eqn:Hn; [injection Hv as <-; vm_compute; split; congruence|].
  apply bind_reject_ok in Hv as [Hs [= <-]]. rewrite trim_space_idem.
  split; [by apply str_eq_false|]. by rewrite He, Hn, Hs.
Qed.

Lemma persist_settles : settles normalizeControlPersist.
Proof.
  intros raw v. unfold normalizeControlPersist. intros Hv. apply bind_reject_ok in Hv as [He Hv].
  destruct (ParseControlPersist _) eqn:Hp; [|done]. injection Hv as <-.
  rewrite trim_space_lower, to_lower_idem, He, Hp. split; [by apply str_eq_false|done].
Qed.

Lemma duration_settles name : settles (normalizeOptionalDurationOption name).
Proof.
  intros raw v. unfold normalizeOptionalDurationOption. intros Hv.
  destruct (one_of _ ["none"; "0"; "0s"]) eqn:Hn; [injection Hv as <-; vm_compute; split; congruence|].
  destruct (parseOpenSSHDuration _) eqn:Hp; [|done]. injection Hv as <-. rewrite trim_space_idem, Hn, Hp.
  split; [|done]. intros E. rewrite E in Hp. done.
Qed.

Lemma count_settles : settles normalizeCountMax.
Proof.
  intros raw v. unfold normalizeCountMax. destruct (parse_int64 (trim_space raw)) as [n|] eqn:Hp; [|done].
  destruct (Z.ltb_spec n 0) as [|Hn]; [done|]. intros [= <-].
  apply parse_int64_bounds in Hp.
  destruct (itoa_nat n Hn) as (Hne & Hd & _).
  rewrite (digits_trim_space _ Hd). split; [done|]. rewrite parse_int64_itoa by lia.
  by destruct (Z.ltb_spec n 0); [lia|].
Qed.

Lemma yes_no_settles name : settles (normalizeYesNoOption name).
Proof.
  apply settles_const. intros raw v. unfold normalizeYesNoOption. intros Hv. exists ["yes"; "no"].
  split; [|const_cases]. repeat case_match; simplify_eq/=; set_solver.
Qed.

Lemma strict_settles : settles ParseStrictHostKeyChecking.
Proof.
  apply settles_const. intros raw v. unfold ParseStrictHostKeyChecking. intros Hv. exists ["yes"; "no"; "ask"; "accept-new"].
  split; [|const_cases]. repeat case_match; simplify_eq/=; set_solver.
Qed.

Lemma known_hosts_settles : settles normalizeKnownHosts.
Proof.
  intros raw v. unfold normalizeKnownHosts. intros Hv. apply bind_reject_ok in Hv as [He [= <-]].
  rewrite trim_space_idem, He. split; [by apply str_eq_false|done].
Qed.

Lemma algorithm_settles name defaults supported : settles (fun raw => normalizeAlgorithmSpec name raw defaults supported).
Proof.
  intros raw v. unfold normalizeAlgorithmSpec. intros Hv. apply bind_reject_ok in Hv as [He Hv].
  destruct (split_modifier (trim_space raw)) as [m body] eqn:Em. apply bind_reject_ok in Hv as [Hb Hv].
  apply result_bind_ok in Hv as ([] & Hc & Hv). apply result_bind_ok in Hv as (res & Hr & [= <-]).
  rewrite trim_space_idem, He, Em, Hb, Hc, Hr. split; [by apply str_eq_false|done].
Qed.

Lemma methods_plain : Forall (fun m => all_bytes is_graph m = true /\ exists_byte (Ascii.eqb ",") m = false /\
  to_lower (trim_space m) = m /\ one_of m auth_methods = true) auth_methods.
Proof. repeat constructor. Qed.

Lemma normalize_methods_spec parts : forall normalized l, normalize_methods parts normalized = Ok l ->
  NoDup normalized -> Forall (fun m => m ∈ auth_methods) normalized ->
  NoDup l /\ Forall (fun m => m ∈ auth_methods) l.
Proof.
  induction parts as [|p parts IH]; intros normalized l; cbn [normalize_methods]; [by intros [= ->]|].
  destruct (one_of _ auth_methods) eqn:Hm; [|done]. apply one_of_spec in Hm. intros Hl Hn Ha.
  apply IH in Hl; [done|..]; unfold append_new; destruct (one_of _ normalized) eqn:Hin; try done.
  - apply one_of_false in Hin. apply NoDup_app. split; [done|]. split; [|apply NoDup_singleton]. set_solver.
  - apply Forall_app. split; [done|]. by constructor.
Qed.

Lemma normalize_methods_self parts : forall normalized, NoDup (normalized ++ parts) ->
  Forall (fun m => m ∈ auth_methods) parts -> normalize_methods parts normalized = Ok (normalized ++ parts).
Proof.
  pose proof methods_plain as Hp. rewrite Forall_forall in Hp.
  induction parts as [|p parts IH]; intros normalized Hd Ha; cbn [normalize_methods]; [by rewrite app_nil_r|].
  apply Forall_cons in Ha as [Hm Ha]. destruct (Hp p Hm) as (_ & _ & -> & ->). unfold append_new.
  assert (one_of p normalized = false) as -> by (apply one_of_false; apply NoDup_app in Hd; set_solver).
  rewrite IH by (try done; by rewrite <- app_assoc). by rewrite <- app_assoc.
Qed.

Lemma methods_settle : settles normalizePreferredAuthentications.
Proof.
  intros raw v. unfold normalizePreferredAuthentications. intros Hv. apply bind_reject_ok in Hv as [_ Hv].
  apply result_bind_ok in Hv as (l & Hl & Hv). apply bind_reject_ok in Hv as [Hn [= <-]].
  apply normalize_methods_spec in Hl as [Hd Ha]; [|by constructor..].
  assert (Forall (fun m => all_bytes is_graph m = true /\ exists_byte (Ascii.eqb ",") m = false) l) as Hp.
  { eapply Forall_impl; [exact Ha|]. intros m Hm. pose proof methods_plain as Hp. rewrite Forall_forall in Hp.
    destruct (Hp m Hm) as (? & ? & _). done. }
  apply Forall_and in Hp as [Hg Hc].
  rewrite graph_trim_space by (by apply all_bytes_join).
  destruct l as [|m l]; [done|].
  assert (str_eq (join "," (m :: l)) "" = false) as Hs.
  { apply str_eq_false. apply Forall_cons in Ha as [Hm _]. destruct l; simpl; [set_solver|]. destruct m; [set_solver|done]. }
  split; [by apply str_eq_false|]. rewrite Hs. cbn [result_bind reject_if].
  change (join "," (m :: l)) with (join (str1 ",") (m :: l)).
  rewrite (split_join "," (m :: l)) by done. rewrite normalize_methods_self by done. done.
Qed.

(** * Lemmas: the registry *)
Lemma add_spec_lookup m spec name spec' :
  add_spec m spec !! name = Some spec' -> spec' = spec \/ m !! name = Some spec'.
Proof.
  unfold add_spec. generalize (spec_names spec). intros names. revert m.
  induction names as [|n names IH]; intros m; simpl; [by right|]. intros E. apply IH in E as [->|E]; [by left|].
  apply lookup_insert_Some in E as [[_ <-]|[_ E]]; [by left|by right].
Qed.

Lemma lookup_in key spec : LookupOptionSpec key = Some spec -> spec ∈ optionRegistry.
Proof.
  unfold LookupOptionSpec. destruct (str_eq _ ""); [done|]. generalize (to_lower (trim_space key)). intros name.
  unfold buildOptionLookupMap. generalize optionRegistry. intros specs.
  assert (forall m, foldl add_spec m specs !! name = Some spec -> spec ∈ specs \/ m !! name = Some spec) as E.
  { induction specs as [|s specs IH]; intros m E; simpl in *; [by right|].
    apply IH in E as [E|E]; [left; by right|]. apply add_spec_lookup in E as [->|E]; [left; by left|by right]. }
  intros Hl. apply E in Hl as [?|Hl]; [done|]. by rewrite lookup_empty in Hl.
Qed.

Lemma registry_canonical : Forall (fun spec => LookupOptionSpec (CanonicalKey spec) = Some spec) optionRegistry.
Proof. unfold optionRegistry. repeat (constructor; [reflexivity|]). constructor. Qed.

Lemma registry_settles : Forall (fun spec => settles (Normalize spec)) optionRegistry.
Proof.
  unfold optionRegistry. repeat (apply Forall_cons; split; [cbn [Normalize];
  first [apply master_settles | apply path_settles | apply persist_settles | apply duration_settles | apply count_settles
        | apply yes_no_settles | apply strict_settles | apply known_hosts_settles | apply methods_settle
        | apply algorithm_settles]|]). apply Forall_nil. done.
Qed.

Lemma in_registry spec : spec ∈ optionRegistry ->
  LookupOptionSpec (CanonicalKey spec) = Some spec /\ settles (Normalize spec).
Proof.
  intros Hin. pose proof registry_canonical as Hc. pose proof registry_settles as Hs.
  rewrite Forall_forall in Hc, Hs. auto.
Qed.

Lemma resolve_canonical key spec : LookupOptionSpec key = Some spec -> resolve_key (CanonicalKey spec) = CanonicalKey spec.
Proof. intros H. unfold resolve_key. by rewrite (proj1 (in_registry _ (lookup_in _ _ H))). Qed.

Lemma resolve_of key spec : LookupOptionSpec key = Some spec -> resolve_key key = CanonicalKey spec.
Proof. unfold resolve_key. by intros ->. Qed.

(** * Lemmas: options *)
Lemma vals_none o : vals (mkOptions None o) = ∅.
Proof. done. Qed.

Lemma vals_Delete o key : vals (Delete o key) = delete (resolve_key key) (vals o).
Proof.
  unfold Delete, options_empty. case_bool_decide as H; [by rewrite H, delete_empty|].
  case_bool_decide as H2; simpl; [by rewrite H2|done].
Qed.

Lemma vals_setRaw o key v : v <> "" -> vals (setRaw o key v) = <[key := v]> (vals o).
Proof. intros H. unfold setRaw. by rewrite (proj2 (str_eq_false v "") H). Qed.

(** Registered keys, and values in normal form. *)
Definition normal_entry (k v : string) : Prop :=
  exists spec, LookupOptionSpec k = Some spec /\ CanonicalKey spec = k /\ v <> "" /\ Normalize spec v = Ok v.
Definition well_formed (o : Options) : Prop := map_Forall normal_entry (vals o).

Lemma settled_entry key spec raw v : LookupOptionSpec key = Some spec -> Normalize spec raw = Ok v ->
  normal_entry (CanonicalKey spec) v.
Proof.
  intros Hk Hv. apply lookup_in, in_registry in Hk as [Hk Hs]. destruct (Hs raw v Hv) as [Hb Hn].
  exists spec. split_and!; try done. by intros ->.
Qed.

Lemma entry_resolve k v : normal_entry k v -> resolve_key k = k.
Proof. intros (spec & Hk & Hc & _). by rewrite (resolve_of _ _ Hk). Qed.

Lemma well_formed_none b : well_formed (mkOptions None b).
Proof. apply map_Forall_empty. Qed.

Lemma well_formed_Delete o key : well_formed o -> well_formed (Delete o key).
Proof. unfold well_formed. rewrite vals_Delete. apply map_Forall_delete. Qed.

Lemma well_formed_setRaw o k v : normal_entry k v -> well_formed o -> well_formed (setRaw o k v).
Proof.
  intros He Ho. unfold well_formed. rewrite vals_setRaw by (by destruct He as (? & _ & _ & ? & _)).
  by apply map_Forall_insert_2.
Qed.

Lemma validate_values_ok kvs : validate_values kvs = Ok tt <->
  Forall (fun kv => exists spec v, LookupOptionSpec kv.1 = Some spec /\ Normalize spec kv.2 = Ok v) kvs.
Proof.
  induction kvs as [|[k v] kvs IH]; cbn [validate_values]; [done|]. rewrite Forall_cons, <- IH. simpl.
  destruct (LookupOptionSpec k) as [spec|]; [|split; [done|intros [(? & ? & ? & _) _]; done]].
  split.
  - intros H. apply result_bind_ok in H as (w & Hw & H). eauto.
  - intros [(spec' & w & E & Hw) Hr]. injection E as <-. by rewrite Hw.
Qed.

Lemma well_formed_values o : well_formed o -> validate_values (map_to_list (vals o)) = Ok tt.
Proof.
  intros Ho. apply validate_values_ok. apply map_Forall_to_list in Ho. eapply Forall_impl; [exact Ho|].
  intros [k v] (spec & Hk & _ & _ & Hv). simpl in *. eauto.
Qed.

(** ** Merging is a left-biased union of the layers. *)
Lemma merge_fold kvs : forall res, Forall (fun kv => kv.2 <> "") kvs -> NoDup kvs.*1 ->
  vals (foldl (fun res '(k, v) => if bool_decide (is_Some (vals res !! k)) then res else setRaw res k v) res kvs) =
  vals res ∪ list_to_map kvs.
Proof.
  induction kvs as [|[k v] kvs IH]; intros res Hv Hk; simpl; [by rewrite map_union_empty|].
  apply Forall_cons in Hv as [Hv0 Hv]. apply NoDup_cons in Hk as [Hk0 Hk]. simpl in *.
  rewrite IH by done. case_bool_decide as Hs.
  - destruct Hs as [w Hw]. symmetry. apply map_eq. intros i. rewrite !lookup_union, lookup_insert.
    case_decide as Hi; [subst i; rewrite Hw|done]. by destruct (list_to_map kvs !! k).
  - rewrite vals_setRaw by done. apply eq_None_not_Some in Hs.
    apply map_eq. intros i. rewrite !lookup_union, !lookup_insert. case_decide as Hi; [subst i|done]. rewrite Hs.
    assert ((list_to_map kvs : gmap string string) !! k = None) as -> by (by apply not_elem_of_list_to_map_1). done.
Qed.

Lemma well_formed_values_ne o : well_formed o -> Forall (fun kv => kv.2 <> "") (map_to_list (vals o)).
Proof.
  intros Ho. apply map_Forall_to_list in Ho. eapply Forall_impl; [exact Ho|]. by intros [k v] (? & _ & _ & ? & _).
Qed.

Lemma vals_merge_layer res layer : well_formed layer -> vals (merge_layer res layer) = vals res ∪ vals layer.
Proof.
  intros Hl. unfold merge_layer. rewrite merge_fold, list_to_map_to_list; [done|by apply well_formed_values_ne|].
  apply NoDup_fst_map_to_list.
Qed.

Definition layer_vals (l : option Options) : gmap string string := match l with Some o => vals o | None => ∅ end.
Definition layers_ok (layers : list (option Options)) : Prop := Forall (fun l => match l with Some o => well_formed o | None => True end) layers.

Lemma options_empty_spec o : options_empty o = true <-> vals o = ∅.
Proof. unfold options_empty. apply bool_decide_eq_true. Qed.

Lemma fold_layers layers : forall res, layers_ok layers ->
  vals (foldl (fun res layer => match layer with
                                | Some l => if options_empty l then res else merge_layer res l
                                | None => res
                                end) res layers) = vals res ∪ ⋃ (map layer_vals layers).
Proof.
  induction layers as [|l layers IH]; intros res Hl; simpl; [by rewrite map_union_empty|].
  apply Forall_cons in Hl as [Hl0 Hl]. rewrite IH by done. destruct l as [l|]; simpl; [|by rewrite map_empty_union].
  destruct (options_empty l) eqn:He; [apply options_empty_spec in He; rewrite He; by rewrite map_empty_union|].
  by rewrite vals_merge_layer, <- map_union_assoc by done.
Qed.

Lemma vals_merged layers : layers_ok layers -> layer_vals (MergeOptionLayers layers) = ⋃ (map layer_vals layers).
Proof.
  intros Hl. unfold MergeOptionLayers. pose proof (fold_layers layers (mkOptions None false) Hl) as E.
  rewrite vals_none, map_empty_union in E. rewrite <- E.
  destruct (options_empty _) eqn:He; simpl; [by apply options_empty_spec in He|done].
Qed.

(** What the first layer with a value says. *)
Fixpoint first_set (l : list string) : string :=
  match l with [] => "" | x :: r => if str_eq x "" then first_set r else x end.

Lemma get_layer o key : Get o key = default "" (layer_vals o !! resolve_key key).
Proof. by destruct o. Qed.

Lemma union_first layers key : layers_ok layers ->
  default "" (⋃ (map layer_vals layers) !! key) = first_set (map (fun l => default "" (layer_vals l !! key)) layers).
Proof.
  induction 1 as [|l layers Hl Hls IH]; simpl; [done|]. rewrite lookup_union.
  destruct (layer_vals l !! key) as [v|] eqn:E; simpl.
  - assert (v <> "") as Hv.
    { destruct l as [l|]; [|done]. by destruct (Hl key v E) as (? & _ & _ & ? & _). }
    rewrite (proj2 (str_eq_false v "") Hv). by destruct (⋃ _ !! key).
  - rewrite <- IH. by destruct (⋃ _ !! key).
Qed.

Lemma merged_well_formed layers o : layers_ok layers -> MergeOptionLayers layers = Some o -> well_formed o /\ vals o <> ∅.
Proof.
  intros Hl Hm. pose proof (vals_merged layers Hl) as E. rewrite Hm in E. simpl in E. split.
  - unfold well_formed. rewrite E. clear -Hl. induction Hl as [|l layers Hl Hls IH]; simpl; [apply map_Forall_empty|].
    apply map_Forall_union_2; [|done]. destruct l; [done|apply map_Forall_empty].
  - unfold MergeOptionLayers in Hm. destruct (options_empty _) eqn:He; [done|]. injection Hm as <-.
    unfold options_empty in He. by apply bool_decide_eq_false in He.
Qed.

(** ** Validation of well-formed options *)
Lemma master_key : resolve_key OptionControlMaster = OptionControlMaster.
Proof. reflexivity. Qed.
Lemma path_key : resolve_key OptionControlPath = OptionControlPath.
Proof. reflexivity. Qed.
Lemma persist_key : resolve_key OptionControlPersist = OptionControlPersist.
Proof. reflexivity. Qed.
Lemma master_spec : LookupOptionSpec OptionControlMaster =
  Some (mkSpec OptionControlMaster "ControlMaster" ClassMux [] false normalizeControlMaster).
Proof. reflexivity. Qed.

(** A stored mode is the normalised mode. *)
Lemma stored_master o : well_formed o -> normMaster (Some o) = ControlMaster (Some o).
Proof.
  intros Ho. unfold normMaster, ControlMaster, Get. rewrite master_key.
  destruct (vals o !! OptionControlMaster) as [v|] eqn:E; simpl; [|done].
  destruct (Ho _ _ E) as (spec & Hk & _ & _ & Hv). rewrite master_spec in Hk. injection Hk as <-.
  cbn [Normalize] in Hv. unfold normalizeControlMaster, ParseControlMasterMode in Hv.
  apply bind_reject_ok in Hv as [_ Hv]. repeat case_match; simpl in Hv; simplify_eq; done.
Qed.

Lemma validate_well_formed o : well_formed o -> Validate (Some o) =
  if str_eq (ControlMaster (Some o)) "no" && persists (ControlPersist (Some o))
  then Err (PersistWithoutMaster (ControlPersist (Some o)))
  else if str_eq (ControlPath (Some o)) "none" && isActiveControlMaster (ControlMaster (Some o))
  then Err (PathNoneWithMaster (ControlMaster (Some o)))
  else Ok tt.
Proof.
  intros Ho. unfold Validate. destruct (options_empty o) eqn:He.
  - apply options_empty_spec in He. unfold ControlMaster, ControlPersist, ControlPath, Get. by rewrite He, !lookup_empty.
  - rewrite well_formed_values by done. cbn [result_bind]. rewrite stored_master by done.
    unfold ControlMasterNo. destruct (str_eq (ControlMaster (Some o)) "no" && _); [done|].
    cbn [result_bind reject_if]. by destruct (str_eq (ControlPath (Some o)) "none" && _).
Qed.

Lemma get_vals a b key : vals a = vals b -> Get (Some a) key = Get (Some b) key.
Proof. unfold Get. by intros ->. Qed.

Lemma validate_vals a b : well_formed a -> vals a = vals b -> Validate (Some a) = Validate (Some b).
Proof.
  intros Ha Hv. assert (well_formed b) as Hb by (unfold well_formed; by rewrite <- Hv).
  rewrite !validate_well_formed by done. unfold ControlMaster, ControlPersist, ControlPath. by rewrite !(get_vals a b _ Hv).
Qed.

(** * Theorems *)

(** Setting an option: what is stored is in normal form, can be read back under
    every name of the option, and no other option changes. *)
Theorem set_option_exact o key raw : well_formed o ->
  match SetOption o key raw with
  | Ok o' => well_formed o' /\ ImplicitTier4 o' = ImplicitTier4 o /\
      (exists spec, LookupOptionSpec key = Some spec /\
        (forall name, resolve_key name <> CanonicalKey spec -> Get (Some o') name = Get (Some o) name) /\
        (forall name, LookupOptionSpec name = Some spec ->
           if str_eq (trim_space raw) "" then Has (Some o') name = false
           else exists v, Normalize spec raw = Ok v /\ Get (Some o') name = v /\ Normalize spec v = Ok v /\
                SetOption o' name v = Ok o'))
  | Err e => LookupOptionSpec key = None /\ e = UnknownOption key \/
             exists spec, LookupOptionSpec key = Some spec /\ trim_space raw <> "" /\ Normalize spec raw = Err e
  end.
Proof.
  intros Ho. unfold SetOption. destruct (LookupOptionSpec key) as [spec|] eqn:Hk; [|by left].
  pose proof (resolve_canonical _ _ Hk) as Hc.
  destruct (str_eq (trim_space raw) "") eqn:Hb.
  - split; [by apply well_formed_Delete|]. split; [unfold Delete; by destruct (options_empty o)|].
    exists spec. split; [done|]. split.
    + intros name Hn. unfold Get. by rewrite vals_Delete, Hc, lookup_delete_ne by done.
    + intros name Hn. unfold Has. rewrite vals_Delete, Hc, (resolve_of _ _ Hn), lookup_delete_eq.
      by rewrite bool_decide_eq_false_2 by (by intros [? ?]).
  - destruct (Normalize spec raw) as [v|e] eqn:Hv; cbn [result_bind];
      [|right; exists spec; split; [done|]; split; [by apply str_eq_false|done]].
    pose proof (settled_entry _ _ _ _ Hk Hv) as He.
    assert (v <> "") as Hne by (by destruct He as (? & _ & _ & ? & _)).
    destruct (in_registry _ (lookup_in _ _ Hk)) as [_ Hs]. destruct (Hs _ _ Hv) as [Hblank Hfix].
    split; [by apply well_formed_setRaw|]. split; [unfold setRaw; by rewrite (proj2 (str_eq_false v "") Hne)|].
    exists spec. split; [done|]. split.
    + intros name Hn. unfold Get. by rewrite vals_setRaw, lookup_insert_ne by done.
    + intros name Hn. exists v. split; [done|]. split; [|split; [done|]].
      * unfold Get. by rewrite vals_setRaw, (resolve_of _ _ Hn), lookup_insert_eq by done.
      * rewrite Hn, (proj2 (str_eq_false _ _) Hblank), Hfix. cbn [result_bind]. f_equal.
        unfold setRaw. rewrite !(proj2 (str_eq_false v "") Hne). cbn. f_equal. f_equal. apply insert_insert_eq.
Qed.

(** Options whose values are in normal form are valid unless the master is off
    while the connection should persist, or on while there is no socket. *)
Theorem well_formed_validate o : well_formed o -> Validate (Some o) =
  if str_eq (ControlMaster (Some o)) "no" && persists (ControlPersist (Some o))
  then Err (PersistWithoutMaster (ControlPersist (Some o)))
  else if str_eq (ControlPath (Some o)) "none" && isActiveControlMaster (ControlMaster (Some o))
  then Err (PathNoneWithMaster (ControlMaster (Some o)))
  else Ok tt.
Proof. apply validate_well_formed. Qed.

(** The effective value of every option is that of the first layer that sets it;
    a control path of "none" then disables the master and its persistence, and the
    result is valid. *)
Theorem layers_first_wins layers : layers_ok layers ->
  let merged := MergeOptionLayers layers in
  let effective := EffectiveOptions layers in
  (forall key, Get merged key = first_set (map (fun l => Get l key) layers)) /\
  layers_ok [merged; effective] /\
  (ControlPath merged <> "none" -> effective = merged) /\
  (ControlPath merged = "none" ->
     ControlMaster effective = "no" /\ ControlPersist effective = "" /\ ValidateEffective effective = Ok tt /\
     forall key, resolve_key key <> OptionControlMaster -> resolve_key key <> OptionControlPersist ->
       Get effective key = Get merged key).
Proof.
  intros Hl merged effective.
  assert (forall key, Get merged key = first_set (map (fun l => Get l key) layers)) as Hget.
  { intros key. rewrite get_layer. unfold merged. rewrite vals_merged by done. rewrite union_first by done.
    f_equal. apply map_ext. intros l. by rewrite get_layer. }
  split; [done|]. unfold effective, EffectiveOptions. fold merged.
  destruct merged as [o|] eqn:Hm; [|split; [by repeat constructor|done]].
  destruct (merged_well_formed layers o Hl Hm) as [Ho Hne]. unfold finalizeEffectiveOptions.
  assert (options_empty o = false) as -> by (unfold options_empty; by apply bool_decide_eq_false_2).
  destruct (str_eq (ControlPath (Some o)) "none") eqn:Hp; str_facts; cycle 1.
  { split; [by repeat constructor|]. done. }
  set (e := Delete (setRaw o OptionControlMaster ControlMasterNo) OptionControlPersist).
  assert (normal_entry OptionControlMaster ControlMasterNo) as Hno.
  { eexists. split; [apply master_spec|]. split; [done|]. split; [done|]. reflexivity. }
  assert (well_formed e) as He by (by apply well_formed_Delete, well_formed_setRaw).
  assert (vals e = delete OptionControlPersist (<[OptionControlMaster := ControlMasterNo]> (vals o))) as Hv.
  { unfold e. rewrite vals_Delete, persist_key, vals_setRaw by done. done. }
  assert (ControlMaster (Some e) = "no") as H1.
  { unfold ControlMaster, Get. by rewrite Hv, master_key, lookup_delete_ne, lookup_insert_eq by done. }
  assert (ControlPersist (Some e) = "") as H2.
  { unfold ControlPersist, Get. by rewrite Hv, persist_key, lookup_delete_eq. }
  split; [by repeat constructor|]. split; [done|]. intros _. split; [done|]. split; [done|].
  split; [|intros key Hk1 Hk2; unfold Get; by rewrite Hv, lookup_delete_ne, lookup_insert_ne by done].
  unfold ValidateEffective. destruct (IsEmpty _); [done|]. rewrite validate_well_formed by done.
  rewrite stored_master, H1, H2 by done.
  assert (isActiveControlMaster "no" = false) as -> by reflexivity. assert (persists "" = false) as -> by reflexivity.
  rewrite !andb_false_r. reflexivity.
Qed.

(** ** The written form *)
Definition no_empty_map (o : Options) : Prop := oValues o <> Some ∅.

Lemma setRaw_no_empty o k v : v <> "" -> no_empty_map (setRaw o k v).
Proof.
  intros Hv. unfold no_empty_map, setRaw. rewrite (proj2 (str_eq_false v "") Hv). simpl.
  intros [= E]. by apply insert_non_empty in E.
Qed.

Lemma options_canonical a : no_empty_map a -> ImplicitTier4 a = false ->
  a = mkOptions (if options_empty a then None else Some (vals a)) false.
Proof.
  destruct a as [[m|] i]; unfold no_empty_map, options_empty, vals; cbn [oValues ImplicitTier4 default]; intros Hm ->; [|done].
  rewrite bool_decide_eq_false_2; [done|]. cbn. intros ->. done.
Qed.

Lemma unmarshal_marshalled o (Ho : well_formed o) specs : forall seen parsed,
  (forall spec, spec ∈ specs -> spec ∈ optionRegistry) -> NoDup (map CanonicalKey specs) ->
  Forall (fun spec => seen !! CanonicalKey spec = None /\ vals parsed !! CanonicalKey spec = None) specs ->
  no_empty_map parsed -> ImplicitTier4 parsed = false ->
  exists res, unmarshal_entries (omap (marshal_entry o) specs) seen parsed = Ok res /\
    no_empty_map res /\ ImplicitTier4 res = false /\
    forall k, vals res !! k = if one_of k (map CanonicalKey specs) then vals o !! k else vals parsed !! k.
Proof.
  induction specs as [|spec specs IH]; intros seen parsed Hin Hnd Hnone Hm Hi.
  { exists parsed. split_and!; done. }
  apply NoDup_cons in Hnd as [Hk Hnd]. apply Forall_cons in Hnone as [[Hseen Hpar] Hnone].
  destruct (in_registry spec (Hin spec (list_elem_of_here _ _))) as [Hlk _].
  assert (forall s, s ∈ specs -> s ∈ optionRegistry) as Hin' by (intros s Hs; apply Hin; by right).
  assert (forall s, s ∈ specs -> CanonicalKey s <> CanonicalKey spec) as Hother.
  { intros s Hs E. apply Hk. rewrite <- E. by apply list_elem_of_fmap_2. }
  assert (forall k, one_of k (CanonicalKey spec :: map CanonicalKey specs) =
    bool_decide (k = CanonicalKey spec) || one_of k (map CanonicalKey specs)) as Hone.
  { intros k. unfold one_of, slice_contains. simpl. f_equal. by apply bool_decide_ext. }
  simpl omap. unfold marshal_entry at 1. destruct (vals o !! CanonicalKey spec) as [v|] eqn:Ev.
  - destruct (Ho _ _ Ev) as (spec' & Hk' & _ & Hne & Hv). rewrite Hlk in Hk'. injection Hk' as <-.
    rewrite (proj2 (str_eq_false v "") Hne). cbn [unmarshal_entries node_value]. rewrite Hlk, Hseen.
    change (extractYAMLOptionValue spec (YScalar "!!str" v)) with (@Ok option_error string v). cbn [result_bind].
    rewrite Hv. cbn [result_bind].
    destruct (IH (<[CanonicalKey spec := CanonicalKey spec]> seen) (setRaw parsed (CanonicalKey spec) v)) as (res & Hres & H1 & H2 & H3).
    + done.
    + done.
    + apply Forall_forall. intros s Hs. rewrite Forall_forall in Hnone. destruct (Hnone s Hs) as [Hs1 Hs2].
      rewrite vals_setRaw, !lookup_insert_ne by (try done; apply not_eq_sym, Hother; done). done.
    + by apply setRaw_no_empty.
    + unfold setRaw. by rewrite (proj2 (str_eq_false v "") Hne).
    + exists res. split; [done|]. split; [done|]. split; [done|]. intros k. rewrite H3, Hone, vals_setRaw by done.
      case_bool_decide as E; simpl; [subst k|by rewrite lookup_insert_ne].
      rewrite lookup_insert_eq, Ev. by destruct (one_of _ _).
  - destruct (IH seen parsed) as (res & Hres & H1 & H2 & H3); try done.
    exists res. split; [done|]. split; [done|]. split; [done|]. intros k. rewrite H3, Hone.
    case_bool_decide as E; simpl; [subst k|done]. rewrite Ev, Hpar. by destruct (one_of _ _).
Qed.

Lemma registry_keys : NoDup (map CanonicalKey optionRegistry).
Proof. apply (bool_decide_unpack (NoDup (map CanonicalKey optionRegistry))). vm_compute. exact I. Qed.

Lemma normal_key k v : normal_entry k v -> k ∈ map CanonicalKey optionRegistry.
Proof. intros (spec & Hk & <- & _). apply list_elem_of_fmap_2. by eapply lookup_in. Qed.

(** Options written to YAML are read back, whatever the receiver held; only the
    mark of an implicit layer, which is not written, is lost. *)
Theorem options_yaml_roundtrip o old : well_formed o -> Validate (Some o) = Ok tt ->
  UnmarshalYAML old (MarshalYAML o) = Ok (mkOptions (if options_empty o then None else Some (vals o)) false).
Proof.
  intros Ho Hv. unfold UnmarshalYAML, MarshalYAML. change (str_eq (node_tag _) "!!null") with false. cbv iota.
  destruct (unmarshal_marshalled o Ho optionRegistry ∅ (mkOptions None false)) as (res & -> & H1 & H2 & H3).
  - done.
  - apply registry_keys.
  - apply Forall_forall. intros s _. split; apply lookup_empty.
  - done.
  - done.
  - assert (vals res = vals o) as E.
    { apply map_eq. intros k. rewrite H3. destruct (one_of k _) eqn:Hk; [done|]. rewrite vals_none, lookup_empty.
      destruct (vals o !! k) as [v|] eqn:Ev; [|done]. apply one_of_false in Hk. exfalso. by eapply Hk, normal_key, Ho. }
    cbn [result_bind]. rewrite (validate_vals res o), Hv by (try done; unfold well_formed; by rewrite E).
    cbn [result_bind]. f_equal. rewrite (options_canonical res H1 H2). unfold options_empty. by rewrite E.
Qed.

End Registry.

(** ** Durations *)

(** A sequence of numbers with their units, and a last number without one. *)
Fixpoint duration_text (parts : list (Z * ascii)) (tail : option Z) : string :=
  match parts with
  | [] => match tail with Some n => itoa n | None => "" end
  | (n, u) :: rest => itoa n +:+ String u (duration_text rest tail)
  end.
Definition duration_value (parts : list (Z * ascii)) (tail : option Z) : Z :=
  foldr (fun '(n, u) acc => n * default 0 (unit_of u) + acc) (default 0 tail * second) parts.
Definition part_ok (p : Z * ascii) : Prop := 0 <= p.1 <= max_int64 /\ is_Some (unit_of p.2) /\ is_digit p.2 = false.
Definition tail_ok (tail : option Z) : Prop := match tail with Some n => 0 <= n <= max_int64 | None => True end.

Lemma duration_loop_digits d rest : all_bytes is_digit d = true -> forall acc total,
  duration_loop (d +:+ rest) acc total = duration_loop rest (acc +:+ d) total.
Proof.
  induction d as [|c d IH]; intros Hd acc total; [by rewrite app_nil_r_str|].
  apply all_bytes_split in Hd as [Hc Hd]. cbn [String.append duration_loop]. rewrite Hc, IH by done.
  by rewrite <- app_assoc_str.
Qed.

Lemma duration_loop_text parts tail : Forall part_ok parts -> tail_ok tail -> forall total,
  duration_loop (duration_text parts tail) "" (wrap_int64 total) = Some (wrap_int64 (total + duration_value parts tail)).
Proof.
  intros Hp Ht. induction Hp as [|[n u] parts (Hn & [unit Hu] & Hd) Hp IH]; intros total; simpl in *.
  - destruct tail as [n|]; [|by rewrite Z.add_0_r]. simpl in Ht. destruct (itoa_nat n ltac:(lia)) as (Hne & Hdig & _).
    rewrite <- (app_nil_r_str (itoa n)), duration_loop_digits by done. cbn [String.append duration_loop].
    rewrite (proj2 (str_eq_false _ _) Hne), parse_int64_itoa by lia. by rewrite wrap_int64_add.
  - destruct (itoa_nat n ltac:(lia)) as (Hne & Hdig & _). rewrite duration_loop_digits by done.
    cbn [String.append duration_loop]. rewrite Hd, (proj2 (str_eq_false _ _) Hne), parse_int64_itoa, Hu by lia.
    simpl default. rewrite wrap_int64_add, IH. do 2 f_equal. lia.
Qed.

Lemma text_not_int parts tail p : part_ok p -> parse_int64 (duration_text (p :: parts) tail) = None.
Proof.
  destruct p as [n u]. intros (Hn & _ & Hd). simpl in *. destruct (itoa_nat n ltac:(lia)) as (Hne & Hdig & _).
  assert (all_bytes is_digit (itoa n +:+ String u (duration_text parts tail)) = false) as Hall.
  { rewrite all_bytes_app, all_bytes_cons, Hd. by rewrite andb_false_r. }
  destruct (itoa n) as [|c r]; [done|]. apply all_bytes_split in Hdig as [Hc _]. cbn [String.append] in *. unfold parse_int64.
  destruct (Ascii.eqb_spec c "+") as [->|_]; [by vm_compute in Hc|].
  destruct (Ascii.eqb_spec c "-") as [->|_]; [by vm_compute in Hc|].
  unfold parse_digits. rewrite Hall. by rewrite orb_true_r.
Qed.

(** A duration with units denotes the sum of its parts in two's complement and is
    rejected unless that is positive; a bare number of seconds is only rejected
    when the number itself is not positive. *)
Theorem duration_exact n parts tail p : 0 <= n <= max_int64 -> Forall part_ok (p :: parts) -> tail_ok tail ->
  parseOpenSSHDuration (itoa n) = (if n <=? 0 then None else Some (wrap_int64 (n * second))) /\
  parseOpenSSHDuration (duration_text (p :: parts) tail) =
    (let total := wrap_int64 (duration_value (p :: parts) tail) in if total <=? 0 then None else Some total) /\
  (0 < duration_value (p :: parts) tail <= max_int64 ->
     parseOpenSSHDuration (duration_text (p :: parts) tail) = Some (duration_value (p :: parts) tail)).
Proof.
  intros Hn Hp Ht. destruct (itoa_nat n ltac:(lia)) as (Hne & _ & _).
  assert (parseOpenSSHDuration (duration_text (p :: parts) tail) =
    (let total := wrap_int64 (duration_value (p :: parts) tail) in if total <=? 0 then None else Some total)) as E.
  { unfold parseOpenSSHDuration. rewrite text_not_int by (by apply Forall_cons in Hp as [? _]).
    pose proof (duration_loop_text (p :: parts) tail Hp Ht 0) as E. change (wrap_int64 0) with 0 in E. rewrite E, Z.add_0_l.
    destruct (str_eq _ "") eqn:Hs; [|done]. apply str_eq_spec in Hs. destruct p as [m u]. simpl in Hs.
    apply Forall_cons in Hp as [(Hm & _) _]. simpl in Hm. destruct (itoa_nat m ltac:(lia)) as (Hme & _). by destruct (itoa m). }
  split; [|split; [done|]].
  - unfold parseOpenSSHDuration. by rewrite (proj2 (str_eq_false _ _) Hne), parse_int64_itoa by lia.
  - intros Hv. rewrite E. cbv zeta. rewrite wrap_int64_small by (unfold min_int64 in *; lia).
    by destruct (Z.leb_spec (duration_value (p :: parts) tail) 0); [lia|].
Qed.

(** A bare number of seconds that does not fit in 64 bits is accepted: it denotes
    a negative duration, or a short one. *)
Theorem duration_overflow :
  parseOpenSSHDuration "9223372037" = Some (-9223372036709551616) /\
  parseOpenSSHDuration "18446744074" = Some 290448384 /\
  ParseControlPersist "9223372037" = Some (true, false, -9223372036709551616).
Proof. vm_compute. done. Qed.

(** ** Algorithm lists *)
Lemma append_new_in l x y : y ∈ append_new l x <-> y ∈ l \/ y = x.
Proof.
  unfold append_new. destruct (one_of x l) eqn:E; [apply one_of_spec in E|]; set_solver.
Qed.

Lemma append_all_in xs : forall l y, y ∈ foldl append_new l xs <-> y ∈ l \/ y ∈ xs.
Proof. induction xs as [|x xs IH]; intros l y; simpl; [set_solver|]. rewrite IH, append_new_in. set_solver. Qed.

Lemma append_all_prefix xs : forall l, exists r, foldl append_new l xs = l ++ r.
Proof.
  induction xs as [|x xs IH]; intros l; simpl; [exists []; by rewrite app_nil_r|].
  destruct (IH (append_new l x)) as [r ->]. unfold append_new. destruct (one_of x l); [by exists r|].
  exists (x :: r). by rewrite <- app_assoc.
Qed.

Lemma append_all_nodup xs : forall l, NoDup l -> NoDup (foldl append_new l xs).
Proof.
  induction xs as [|x xs IH]; intros l Hl; simpl; [done|]. apply IH. unfold append_new.
  destruct (one_of x l) eqn:E; [done|]. apply one_of_false in E. apply NoDup_app. split; [done|].
  split; [set_solver|apply NoDup_singleton].
Qed.

Lemma algorithm_items_spec parts : forall items res, algorithm_items parts items = Ok res ->
  res = foldl append_new items (map trim_space parts).
Proof.
  induction parts as [|p parts IH]; intros items res; cbn [algorithm_items]; [by intros [= ->]|].
  intros H. apply bind_reject_ok in H as [_ H]. by apply IH in H.
Qed.

(** The names of a list, behind its modifier. *)
Definition listed (spec : string) : list string := map trim_space (split_on "," (split_modifier (trim_space spec)).2).

Lemma resolve_cases spec defaults res : trim_space spec <> "" -> ResolveAlgorithmList spec defaults = Ok res ->
  res <> [] /\ res = match (split_modifier (trim_space spec)).1 with
                     | NoModifier => foldl append_new [] (listed spec)
                     | Append => foldl append_new defaults (foldl append_new [] (listed spec))
                     | Prepend => foldl append_new (foldl append_new [] (listed spec)) defaults
                     | Remove => filter (fun a => one_of a (foldl append_new [] (listed spec)) = false) defaults
                     end.
Proof.
  intros Hs. unfold ResolveAlgorithmList, listed. rewrite (proj2 (str_eq_false _ _) Hs).
  destruct (split_modifier (trim_space spec)) as [m body]. intros H. apply bind_reject_ok in H as [_ H].
  apply result_bind_ok in H as (items & Hi & H). apply algorithm_items_spec in Hi as ->.
  apply bind_reject_ok in H as [Hn [= <-]]. simpl. split; [|done].
  intros E. by rewrite E in Hn.
Qed.

Lemma check_algorithms_ok m supported parts : check_algorithms m supported parts = Ok tt -> m <> Remove ->
  forall a, a ∈ map trim_space parts -> a ∈ supported.
Proof.
  induction parts as [|p parts IH]; cbn [check_algorithms]; [set_solver|]. intros H Hm a Ha.
  apply bind_reject_ok in H as [_ H]. apply bind_reject_ok in H as [Hp H]. apply negb_false_iff in Hp.
  simpl in Ha. apply elem_of_cons in Ha as [->|Ha]; [|by apply IH]. destruct m; try done; by apply one_of_spec in Hp.
Qed.

(** An accepted list of algorithms resolves to a non-empty list of supported ones:
    the listed ones, or the defaults with the listed ones appended, put in front
    or taken away, the order of the defaults kept. *)
Theorem algorithms_exact `{Alg : Algorithms} name k raw v : algorithm_option name k raw = Ok v ->
  exists res, ResolveAlgorithmList v (SupportedAlgorithms k) = Ok res /\ res <> [] /\
    (forall a, a ∈ res -> a ∈ SupportedAlgorithms k \/ a ∈ InsecureAlgorithms k) /\
    match (split_modifier v).1 with
    | NoModifier => NoDup res /\ forall a, a ∈ res <-> a ∈ listed v
    | Append => (exists more, res = SupportedAlgorithms k ++ more) /\
                forall a, a ∈ res <-> a ∈ SupportedAlgorithms k \/ a ∈ listed v
    | Prepend => (exists more, res = foldl append_new [] (listed v) ++ more) /\
                 forall a, a ∈ res <-> a ∈ listed v \/ a ∈ SupportedAlgorithms k
    | Remove => res = filter (fun a => a ∉ listed v) (SupportedAlgorithms k)
    end.
Proof.
  intros H. destruct (algorithm_settles name (SupportedAlgorithms k) (all_of k) _ _ H) as [Hv _].
  unfold algorithm_option, normalizeAlgorithmSpec in H. apply bind_reject_ok in H as [He H].
  destruct (split_modifier (trim_space raw)) as [m body] eqn:Em. apply bind_reject_ok in H as [_ H].
  apply result_bind_ok in H as ([] & Hc & H). apply result_bind_ok in H as (res & Hr & [= <-]).
  pose proof (fun Hm => check_algorithms_ok _ _ _ Hc Hm) as Hsup.
  assert (listed (trim_space raw) = map trim_space (split_on "," body)) as Hlist.
  { unfold listed. by rewrite trim_space_idem, Em. }
  destruct (resolve_cases _ _ _ Hv Hr) as [Hne Hres]. rewrite trim_space_idem, Em in Hres. simpl in Hres.
  exists res. split; [done|]. split; [done|]. rewrite Em. simpl. rewrite <- Hlist in Hsup. clear Hr Hc Em.
  setoid_rewrite append_all_in in Hsup. split.
  - intros a Ha. destruct m; subst res; rewrite ?append_all_in in Ha.
    + destruct Ha as [?|Ha]; [set_solver|]. by apply Hsup.
    + destruct Ha as [?|[?|Ha]]; [by left|set_solver|by apply Hsup].
    + apply list_elem_of_filter in Ha as [_ Ha]. by left.
    + destruct Ha as [[?|Ha]|?]; [set_solver|by apply Hsup|by left].
  - destruct m; subst res.
    + split; [apply append_all_nodup, NoDup_nil_2|]. intros a. rewrite append_all_in. set_solver.
    + split; [apply append_all_prefix|]. intros a. rewrite !append_all_in. set_solver.
    + apply list_filter_iff. intros a. rewrite one_of_false, append_all_in. set_solver.
    + split; [apply append_all_prefix|]. intros a. rewrite !append_all_in. set_solver.
Qed.

(** * Witnesses *)
Definition sample_algorithms : Algorithms := {|
  SupportedAlgorithms := fun k => match k with HostKeys => ["ssh-ed25519"; "rsa-sha2-256"] | _ => ["aes128-ctr"; "aes256-ctr"] end;
  InsecureAlgorithms := fun k => match k with HostKeys => ["ssh-rsa"] | _ => ["3des-cbc"] end
|}.
Definition sample_options : Options :=
  mkOptions (Some (<[OptionControlMaster := "auto"]> (<[OptionControlPath := "~/.ssh/%C"]> ∅))) false.

Lemma sample_well_formed : @well_formed sample_algorithms sample_options.
Proof.
  unfold well_formed. change (vals sample_options) with (<[OptionControlMaster := "auto"]> (<[OptionControlPath := "~/.ssh/%C"]> (∅ : gmap string string))).
  apply map_Forall_insert_2; [|apply map_Forall_insert_2; [|apply map_Forall_empty]].
  - eexists. split; [reflexivity|]. split; [reflexivity|]. split; [done|reflexivity].
  - eexists. split; [reflexivity|]. split; [reflexivity|]. split; [done|reflexivity].
Qed.

Lemma set_option_exact_witness :
  match @SetOption sample_algorithms sample_options "ConnectTimeout" " 5m " with
  | Ok o' => @Get sample_algorithms (Some o') "connect_timeout" = "5m"
  | Err _ => False
  end.
Proof.
  pose proof (@set_option_exact sample_algorithms sample_options "ConnectTimeout" " 5m " sample_well_formed) as H.
  assert (match @SetOption sample_algorithms sample_options "ConnectTimeout" " 5m " with
          | Ok o' => @Get sample_algorithms (Some o') "connect_timeout" | Err _ => "" end = "5m") as G by (vm_compute; reflexivity).
  destruct (@SetOption sample_algorithms sample_options "ConnectTimeout" " 5m ") as [o'|e]; [exact G|discriminate G].
Defined.

Lemma layers_first_wins_witness :
  let off := mkOptions (Some {[OptionControlPath := "none"]}) false in
  @ControlMaster sample_algorithms (@EffectiveOptions sample_algorithms [Some off; Some sample_options]) = "no".
Proof.
  assert (@layers_ok sample_algorithms [Some (mkOptions (Some {[OptionControlPath := "none"]}) false); Some sample_options]) as Hl.
  { apply Forall_cons. split; [|apply Forall_cons; split; [apply sample_well_formed|apply Forall_nil; done]].
    apply map_Forall_insert_2; [|apply map_Forall_empty].
    eexists. split; [reflexivity|]. split; [reflexivity|]. split; [done|reflexivity]. }
  pose proof (proj2 (proj2 (proj2 (@layers_first_wins sample_algorithms _ Hl)))) as H.
  apply H. reflexivity.
Defined.

Lemma options_yaml_roundtrip_witness :
  @UnmarshalYAML sample_algorithms (mkOptions None true) (@MarshalYAML sample_algorithms sample_options) = Ok sample_options.
Proof.
  pose proof (@options_yaml_roundtrip sample_algorithms sample_options (mkOptions None true) sample_well_formed eq_refl) as H.
  exact H.
Defined.

Lemma algorithms_exact_witness :
  exists res, ResolveAlgorithmList "-rsa-sha2-256" (@SupportedAlgorithms sample_algorithms HostKeys) = Ok res /\ res = ["ssh-ed25519"].
Proof.
  destruct (@algorithms_exact sample_algorithms "HostKeyAlgorithms" HostKeys " -rsa-sha2-256" "-rsa-sha2-256" eq_refl)
    as (res & Hres & _). exists res. split; [exact Hres|]. vm_compute in Hres. by injection Hres as <-.
Defined.

Lemma duration_exact_witness : parseOpenSSHDuration "1h30m" = Some (5400 * second).
Proof.
  assert (Forall part_ok [(1, "h"%char); (30, "m"%char)]) as Hp.
  { unfold part_ok. apply Forall_cons; split; [|apply Forall_cons; split; [|by apply Forall_nil]]; cbn [fst snd];
      (split; [unfold max_int64; lia|]; split; [eexists; reflexivity|reflexivity]). }
  exact (proj2 (proj2 (duration_exact 0 [(30, "m"%char)] None (1, "h"%char) ltac:(unfold max_int64; lia) Hp I))
    ltac:(vm_compute; split; congruence)).
Defined.
