(* ===== verification/ControlPath.v ===== *)
(** Control sockets of shared connections: core/ssh/control_config.go.

    The expansion of a control path, the limits of a socket path, the layers of
    control settings, and the identity by which a client checks that the master
    behind a socket is connected to the destination it wants.  The theorems show
    when a path expands and that validated paths do, and which targets a master is
    accepted for.  The model is for Unix systems, where [~\] is not special. *)
From S2P Require Export GoPath SshOptions.
#[local] Open Scope Z_scope.

(** * Layers of control settings *)

Definition IsEnabled (c : option ControlConfig) : bool :=
  match c with None => false | Some c => negb (str_eq (Path c) "") && negb (str_eq (Path c) "none") end.

Definition disabled (res : ControlConfig) : ControlConfig :=
  mkControl ControlMasterNo (Path res) "" (cImplicit res).
Definition override (child parent : string) : string := if str_eq child "" then parent else child.

Definition ResolveControl (child parent : option ControlConfig) : option ControlConfig :=
  match child, parent with
  | None, _ => parent
  | Some c, None => Some (if str_eq (Path c) "none" then disabled c else c)
  | Some c, Some p =>
      let res := mkControl (override (Master c) (Master p)) (override (Path c) (Path p)) (override (Persist c) (Persist p)) false in
      Some (if str_eq (Path c) "none" then disabled res else res)
  end.

(** Layers from the highest to the lowest priority. *)
Definition EffectiveControl (layers : list (option ControlConfig)) : option ControlConfig :=
  foldr ResolveControl None layers.

(** * Targets *)

Record TargetContext := mkTarget {
  tHost : string; tPort : Z; tUser : string; tOriginalHost : string; tJumpHost : string
}.
Definition port_or_22 (port : Z) : Z := if port <=? 0 then 22 else port.
Definition normal_name (s : string) : string := to_lower (trim_space s).

Definition CanonicalTargetIdentity (t : TargetContext) : string :=
  let host := normal_name (tHost t) in
  if str_eq host "" then ""
  else "host=" +:+ host +:+ ";port=" +:+ itoa (port_or_22 (tPort t)) +:+ ";user=" +:+ trim_space (tUser t)
       +:+ ";jump=" +:+ normal_name (tJumpHost t).

(** What [MatchesMasterTarget] collects: host, port, user and jump host. *)
Record Master_ := mkMaster { mHost : string; mPort : Z; mUser : string; mJump : string }.
Definition master_part (m : Master_) (part : string) : Master_ :=
  match cut_byte "=" part with
  | None => m
  | Some (k, v) =>
      if str_eq k "host" then mkMaster (normal_name v) (mPort m) (mUser m) (mJump m)
      else if str_eq k "port" then
        match parse_int64 (trim_space v) with
        | Some p => if p >? 0 then mkMaster (mHost m) p (mUser m) (mJump m) else m
        | None => m
        end
      else if str_eq k "user" then mkMaster (mHost m) (mPort m) (trim_space v) (mJump m)
      else if str_eq k "jump" then mkMaster (mHost m) (mPort m) (mUser m) (normal_name v)
      else m
  end.
Definition parse_master (identity : string) : Master_ :=
  foldl master_part (mkMaster "" 22 "" "") (split_on ";" identity).

Definition MatchesMasterTarget (t : TargetContext) (masterIdentity : string) : bool :=
  if str_eq (trim_space masterIdentity) "" || str_eq (trim_space (tHost t)) "" then true
  else let m := parse_master masterIdentity in
  if str_eq (mHost m) "" then true
  else if negb (str_eq (normal_name (tHost t)) (mHost m)) || negb (port_or_22 (tPort t) =? mPort m)
       || negb (str_eq (normal_name (tJumpHost t)) (mJump m)) then false
  else let user := trim_space (tUser t) in
       negb (negb (str_eq user "") && negb (str_eq (mUser m) "") && negb (str_eq user (mUser m))).

(** * Expansion *)

Record Environment := mkEnv {
  HomeDir : string; LocalUser : string; LocalHost : string; LocalUID : string;
  LookupEnv : string -> option string
}.

(** A match of [envVarRegex] at the start of the text: the name and the rest. *)
Fixpoint span_env (s : string) : string * string :=
  match s with
  | String c r => if env_byte c then let '(n, rest) := span_env r in (String c n, rest) else (EmptyString, s)
  | EmptyString => (EmptyString, EmptyString)
  end.
Definition env_match (s : string) : option (string * string) :=
  match strip_prefix "${" s with
  | None => None
  | Some r =>
      let '(name, rest) := span_env r in
      if isValidEnvIdentifier name
      then match rest with
           | String c after => if Ascii.eqb c "}" then Some (name, after) else None
           | EmptyString => None
           end
      else None
  end.

Inductive path_error :=
  | NoEnvValue (name : string) | NoHome | TrailingPercent | UnknownToken (c : ascii) | PathEmpty | PathTooLong.

Definition env_value (env : Environment) (name : string) : option string :=
  match LookupEnv env name with Some v => if str_eq v "" then None else Some v | None => None end.

(** [ReplaceAllStringFunc]; [skip] bytes belong to the last match. *)
Fixpoint expand_env (env : Environment) (skip : nat) (s : string) : result path_error string :=
  match s with
  | EmptyString => Ok EmptyString
  | String c r =>
      match skip with
      | S k => expand_env env k r
      | O => match env_match s with
             | Some (name, _) =>
                 match env_value env name with
                 | None => Err (NoEnvValue name)
                 | Some v => try rest := expand_env env (String.length name + 2) r ;; Ok (v +:+ rest)
                 end
             | None => try rest := expand_env env 0 r ;; Ok (String c rest)
             end
      end
  end.
Definition expandEnvironmentVariables (raw : string) (env : Environment) : result path_error string :=
  if contains raw "${" then expand_env env 0 raw else Ok raw.

Definition expandTilde (path homeDir : string) : result path_error string :=
  if str_eq path "~" then reject str_eq homeDir "" with NoHome ;; Ok homeDir
  else match strip_prefix "~/" path with
  | Some rest => reject str_eq homeDir "" with NoHome ;; Ok (path_join homeDir rest)
  | None => Ok path
  end.

(** The text in front of the first [c]. *)
Definition before_byte (c : ascii) (s : string) : string := match cut_byte c s with Some (a, _) => a | None => s end.

Section Expand.
Context (sha1_hex : string -> string).

(** [ComputeConnectionHash]: SHA-1 over the concatenation. *)
Definition ComputeConnectionHash (localHost host portStr user jumpHost : string) : string :=
  sha1_hex (localHost +:+ host +:+ portStr +:+ user +:+ jumpHost).

Definition token_value (env : Environment) (t : TargetContext) (c : ascii) : option string :=
  let portStr := if tPort t >? 0 then itoa (tPort t) else "22" in
  let origHost := if str_eq (tOriginalHost t) "" then tHost t else tOriginalHost t in
  let remoteUser := if str_eq (tUser t) "" then LocalUser env else tUser t in
  match c with
  | "%"%char => Some "%"
  | "h"%char => Some (tHost t)
  | "p"%char => Some portStr
  | "r"%char => Some remoteUser
  | "n"%char => Some origHost
  | "u"%char => Some (LocalUser env)
  | "l"%char => Some (LocalHost env)
  | "L"%char => Some (before_byte "." (LocalHost env))
  | "i"%char => Some (LocalUID env)
  | "d"%char => Some (HomeDir env)
  | "j"%char => Some (tJumpHost t)
  | "C"%char => Some (ComputeConnectionHash (LocalHost env) (tHost t) portStr remoteUser (tJumpHost t))
  | _ => None
  end.

Fixpoint expandPercentTokens (raw : string) (env : Environment) (t : TargetContext) : result path_error string :=
  match raw with
  | EmptyString => Ok EmptyString
  | String c r =>
      if Ascii.eqb c "%" then
        match r with
        | EmptyString => Err TrailingPercent
        | String k r2 =>
            match token_value env t k with
            | None => Err (UnknownToken k)
            | Some v => try rest := expandPercentTokens r2 env t ;; Ok (v +:+ rest)
            end
        end
      else try rest := expandPercentTokens r env t ;; Ok (String c rest)
  end.

Definition ExpandControlPath (rawPath : string) (env : Environment) (t : TargetContext) : result path_error string :=
  if one_of rawPath [""; "none"] then Ok rawPath
  else try expanded := expandEnvironmentVariables rawPath env ;;
       try expanded := expandTilde expanded (HomeDir env) ;;
       expandPercentTokens expanded env t.
End Expand.

Definition ValidateControlPath (maxLen : Z) (expandedPath : string) : result path_error unit :=
  reject str_eq expandedPath "" with PathEmpty ;;
  if str_eq expandedPath "none" then Ok tt
  else reject maxLen <=? len expandedPath with PathTooLong ;; Ok tt.

(** * Lemmas: percent tokens *)
Definition percent_free (s : string) : Prop := exists_byte (Ascii.eqb "%") s = false.

Lemma percent_step c r : percent_scan (String c r) =
  if Ascii.eqb c "%" then match r with String t r2 => byte_member t percent_tokens && percent_scan r2 | EmptyString => false end
  else percent_scan r.
Proof. done. Qed.

(** Induction over a text, one character or one token at a time. *)
Lemma token_ind (P : string -> Prop) :
  P "" -> (forall c r, P r -> (forall k r2, r = String k r2 -> P r2) -> P (String c r)) -> forall s, P s.
Proof.
  intros H0 Hs s. remember (String.length s) as n eqn:Hn. revert s Hn.
  induction (lt_wf n) as [n _ IH]. intros s ->. destruct s as [|c r]; [done|].
  apply Hs; [eapply IH; [|done]; simpl; lia|]. intros k r2 ->. eapply IH; [|done]. simpl. lia.
Qed.

Lemma percent_app_slash a b : percent_scan (a +:+ String "/" b) = percent_scan a && percent_scan b.
Proof.
  induction a as [|c r IH IH2] using token_ind; [done|]. cbn [String.append]. rewrite !percent_step.
  destruct (Ascii.eqb c "%"); [|done]. destruct r as [|k r2]; [done|]. cbn [String.append].
  by rewrite (IH2 k r2 eq_refl), andb_assoc.
Qed.

Lemma percent_join l : l <> [] -> percent_scan (join "/" l) = forallb percent_scan l.
Proof.
  induction l as [|a l IH]; [done|]. intros _. destruct l as [|b l]; [simpl; by rewrite andb_true_r|].
  change (join "/" (a :: b :: l)) with (a +:+ String "/" (join "/" (b :: l))). by rewrite percent_app_slash, IH.
Qed.

Lemma percent_split s : percent_scan s = forallb percent_scan (split_on slash s).
Proof.
  rewrite <- (percent_join (split_on slash s)) by apply split_by_ne.
  f_equal. symmetry. apply (join_split slash s).
Qed.

Lemma percent_free_app v s : percent_free v -> percent_scan (v +:+ s) = percent_scan s.
Proof.
  unfold percent_free. induction v as [|c v IH]; [done|]. cbn [exists_byte]. intros H.
  apply orb_false_iff in H as [Hc Hv]. cbn [String.append]. rewrite percent_step, Ascii.eqb_sym, Hc. by apply IH.
Qed.

Lemma percent_free_scan v : percent_free v -> percent_scan v = true.
Proof. intros H. rewrite <- (app_nil_r_str v). by rewrite percent_free_app. Qed.

Lemma clean_step_scan rooted stack comp : Forall (fun s => percent_scan s = true) stack -> percent_scan comp = true ->
  Forall (fun s => percent_scan s = true) (clean_step rooted stack comp).
Proof.
  intros Hs Hc. unfold clean_step. repeat case_match; try done; try (by constructor); try (by apply Forall_cons in Hs as [_ ?]).
Qed.

Lemma percent_clean p : percent_scan p = true -> percent_scan (path_clean p) = true.
Proof.
  rewrite percent_split. intros H. unfold path_clean, path_components, clean_components.
  assert (Forall (fun s => percent_scan s = true) (split_on slash p)) as Hf.
  { apply Forall_forall. intros x Hx. eapply forallb_forall in H; [done|]. by apply list_elem_of_In. }
  assert (Forall (fun s => percent_scan s = true) (rev (fold_left (clean_step (path_is_abs p)) (split_on slash p) []))) as Hr.
  { apply Forall_rev. assert (Forall (fun s => percent_scan s = true) (@nil string)) as Hn by constructor. revert Hn.
    generalize (@nil string). clear H. induction Hf as [|x l Hx Hl IH]; intros st Hst; [done|]. simpl. apply IH. by apply clean_step_scan. }
  revert Hr. generalize (rev (fold_left (clean_step (path_is_abs p)) (split_on slash p) [])). intros l Hl.
  unfold path_print.
  assert (percent_scan (join "/" l) = true) as Hj.
  { destruct l as [|a l]; [done|]. rewrite percent_join by done. apply forallb_forall. intros x Hx.
    rewrite Forall_forall in Hl. by apply Hl, list_elem_of_In. }
  destruct (path_is_abs p); [by change (percent_scan (String "/" (join "/" l)) = true)|]. by destruct l.
Qed.

(** * Lemmas: environment variables *)

(** The variables a path names. *)
Fixpoint env_names (skip : nat) (s : string) : list string :=
  match s with
  | EmptyString => []
  | String _ r =>
      match skip with
      | S k => env_names k r
      | O => match env_match s with
             | Some (name, _) => name :: env_names (String.length name + 2) r
             | None => env_names 0 r
             end
      end
  end.

Lemma span_env_spec s n rest : span_env s = (n, rest) -> s = n +:+ rest /\ all_bytes env_byte n = true.
Proof.
  revert n rest. induction s as [|c s IH]; intros n rest; simpl; [by intros [= <- <-]|].
  destruct (env_byte c) eqn:Hc; [|by intros [= <- <-]]. destruct (span_env s) as [m r]. intros [= <- <-].
  destruct (IH m r eq_refl) as [-> Hm]. split; [done|]. by rewrite all_bytes_cons, Hc.
Qed.

Lemma env_match_spec s n after : env_match s = Some (n, after) ->
  s = String "$" (String "{" (n +:+ String "}" after)) /\ all_bytes env_byte n = true.
Proof.
  unfold env_match. destruct (strip_prefix "${" s) as [r|] eqn:Hp; [|done]. apply strip_prefix_spec in Hp as ->.
  destruct (span_env r) as [m rest] eqn:Hs. apply span_env_spec in Hs as [-> Hm].
  destruct (isValidEnvIdentifier m); [|done]. destruct rest as [|c rest]; [done|].
  destruct (Ascii.eqb_spec c "}") as [->|]; [|done]. by intros [= <- <-].
Qed.

Lemma expand_env_skip env k s : expand_env env k s = expand_env env 0 (drop_bytes k s).
Proof. revert k. induction s as [|c s IH]; intros k; [by destruct k|]. destruct k as [|k]; [done|]. apply IH. Qed.
Lemma env_names_skip k s : env_names k s = env_names 0 (drop_bytes k s).
Proof. revert k. induction s as [|c s IH]; intros k; [by destruct k|]. destruct k as [|k]; [done|]. apply IH. Qed.

Lemma drop_match n after : drop_bytes (String.length n + 2) (String "{" (n +:+ String "}" after)) = after.
Proof.
  replace (String.length n + 2)%nat with (String.length ("{" +:+ n +:+ "}")) by (rewrite !length_app_str; simpl; lia).
  change (String "{" (n +:+ String "}" after)) with ("{" +:+ (n +:+ ("}" +:+ after))).
  rewrite (app_assoc_str n "}" after), (app_assoc_str "{" (n +:+ "}") after). apply drop_bytes_app.
Qed.

Lemma env_byte_percent n : all_bytes env_byte n = true -> percent_free n.
Proof.
  unfold percent_free. induction n as [|c n IH]; [done|]. intros H. apply all_bytes_split in H as [Hc Hn].
  cbn [exists_byte]. rewrite IH by done. destruct (Ascii.eqb_spec "%" c) as [<-|]; [by vm_compute in Hc|done].
Qed.

(** Replacing variables by values without percent signs keeps the tokens. *)
Lemma expand_env_scan env s : percent_scan s = true ->
  (forall n v, n ∈ env_names 0 s -> env_value env n = Some v -> percent_free v) ->
  match expand_env env 0 s with
  | Ok s' => percent_scan s' = true
  | Err e => exists n, e = NoEnvValue n /\ n ∈ env_names 0 s /\ env_value env n = None
  end.
Proof.
  remember (String.length s) as len eqn:Hlen. revert s Hlen. induction (lt_wf len) as [len _ IH].
  intros s -> Hs Hv. destruct s as [|c r]; [done|]. cbn [expand_env env_names] in *.
  destruct (env_match (String c r)) as [[n after]|] eqn:Hm.
  - apply env_match_spec in Hm as [[= -> ->] Hn]. rewrite env_names_skip, drop_match in Hv |- *. rewrite expand_env_skip, drop_match.
    destruct (env_value env n) as [v|] eqn:Hval; [|exists n; split_and!; [done|by left|done]].
    assert (percent_scan after = true) as Hafter.
    { rewrite percent_step in Hs. change (Ascii.eqb "$" "%") with false in Hs. cbv iota in Hs.
      rewrite percent_step in Hs.
      change (Ascii.eqb "{" "%") with false in Hs. cbv iota in Hs. rewrite percent_free_app in Hs by (by apply env_byte_percent).
      exact Hs. }
    specialize (IH (String.length after)).
    assert (String.length after < String.length (String "$" (String "{" (n +:+ String "}" after))))%nat as Hlt.
    { simpl. rewrite length_app_str. simpl. lia. }
    specialize (IH Hlt after eq_refl Hafter). destruct (expand_env env 0 after) as [s'|e]; simpl.
    + rewrite percent_free_app; [apply IH; intros; eapply Hv; [by right|done]|]. eapply Hv; [by left|done].
    + destruct IH as (m & -> & Hin & Hnone); [intros; eapply Hv; [by right|done]|]. exists m. split_and!; [done|by right|done].
  - rewrite percent_step in Hs. destruct (Ascii.eqb_spec c "%") as [->|Hc].
    + destruct r as [|k r2]; [done|]. apply andb_true_iff in Hs as [Hk Hs]. cbn [expand_env env_names] in *.
      assert (env_match (String k r2) = None) as Hnone.
      { destruct (env_match (String k r2)) as [[n a]|] eqn:E; [|done]. apply env_match_spec in E as [[= -> _] _]. by vm_compute in Hk. }
      rewrite Hnone in *. specialize (IH (String.length r2) ltac:(simpl; lia) r2 eq_refl Hs Hv).
      destruct (expand_env env 0 r2) as [s'|e]; simpl; [|done].
      change (percent_scan (String "%" (String k s')) = true). rewrite percent_step. by rewrite Hk.
    + specialize (IH (String.length r) ltac:(simpl; lia) r eq_refl Hs Hv).
      destruct (expand_env env 0 r) as [s'|e]; cbn [result_bind]; [|done]. rewrite percent_step.
      by destruct (Ascii.eqb_spec c "%").
Qed.

Lemma percent_expands sha1 s env t : percent_scan s = true -> exists p, expandPercentTokens sha1 s env t = Ok p.
Proof.
  induction s as [|c r IH IH2] using token_ind; [by eexists|]. rewrite percent_step. cbn [expandPercentTokens].
  destruct (Ascii.eqb c "%").
  - destruct r as [|k r2]; [done|]. intros H. apply andb_true_iff in H as [Hk H].
    destruct (IH2 k r2 eq_refl H) as [p ->].
    assert (exists v, token_value sha1 env t k = Some v) as [v ->]; [|by eexists].
    unfold byte_member, percent_tokens in Hk. cbn [exists_byte] in Hk.
    repeat (apply orb_true_iff in Hk as [Hk|Hk]; [apply Ascii.eqb_eq in Hk as ->; eexists; reflexivity|]). done.
  - intros H. destruct (IH H) as [p ->]. by eexists.
Qed.

(** * Theorems *)

(** A path whose syntax was accepted expands unless a variable it names has no
    value or a leading tilde meets an unset home directory, provided values and
    home directory hold no percent sign. *)
Theorem control_path_expands sha1 raw env t : ValidateControlPathSyntax raw = true ->
  (forall n v, n ∈ env_names 0 raw -> env_value env n = Some v -> percent_free v) -> percent_free (HomeDir env) ->
  match ExpandControlPath sha1 raw env t with
  | Ok _ => True
  | Err (NoEnvValue n) => n ∈ env_names 0 raw /\ env_value env n = None
  | Err NoHome => HomeDir env = ""
  | Err _ => False
  end.
Proof.
  unfold ValidateControlPathSyntax, ExpandControlPath. intros H Hv Hh.
  destruct (one_of raw [""; "none"]); [done|]. apply andb_true_iff in H as [_ Hs].
  assert (match expandEnvironmentVariables raw env with
          | Ok s' => percent_scan s' = true
          | Err e => exists n, e = NoEnvValue n /\ n ∈ env_names 0 raw /\ env_value env n = None
          end) as He.
  { unfold expandEnvironmentVariables. destruct (contains raw "${"); [|done]. by apply expand_env_scan. }
  destruct (expandEnvironmentVariables raw env) as [s'|e]; cbn [result_bind]; [|by destruct He as (n & -> & ? & ?)].
  assert (match expandTilde s' (HomeDir env) with Ok p => percent_scan p = true | Err e => e = NoHome /\ HomeDir env = "" end) as Ht.
  { unfold expandTilde. destruct (str_eq s' "~") eqn:Hs'.
    { destruct (str_eq (HomeDir env) "") eqn:Hhome; cbn [result_bind reject_if]; [by apply str_eq_spec in Hhome|].
      by apply percent_free_scan. }
    destruct (strip_prefix "~/" s') as [rest|] eqn:Hp; [|done]. apply strip_prefix_spec in Hp as ->.
    destruct (str_eq (HomeDir env) "") eqn:Hhome; cbn [result_bind reject_if]; [by apply str_eq_spec in Hhome|].
    change (percent_scan rest = true) in He. apply str_eq_false in Hhome.
    unfold path_join. destruct (HomeDir env) as [|h hs]; [done|]. destruct rest as [|c rest]; apply percent_clean.
    - by apply percent_free_scan.
    - rewrite percent_free_app by done. exact He. }
  destruct (expandTilde s' (HomeDir env)) as [p|e]; cbn [result_bind]; [|by destruct Ht as [-> ?]].
  by destruct (percent_expands sha1 p env t Ht) as [q ->].
Qed.

(** ** Targets *)
Definition no_separator (s : string) : Prop := exists_byte (Ascii.eqb ";") s = false.

Lemma normal_name_idem s : normal_name (normal_name s) = normal_name s.
Proof. unfold normal_name. by rewrite trim_space_lower, to_lower_idem. Qed.

Lemma trim_graph_head c r : is_graph c = true -> trim_space (String c r) <> "".
Proof.
  intros Hc. unfold trim_space. rewrite trim_space_left_fixed by (by apply graph_no_space).
  cbn [trim_space_right all_space]. by rewrite graph_no_space.
Qed.

Lemma digits_no_separator d : all_bytes is_digit d = true -> no_separator d.
Proof.
  unfold no_separator. induction d as [|c d IH]; [done|]. intros H. apply all_bytes_split in H as [Hc Hd].
  cbn [exists_byte]. rewrite IH by done. destruct (Ascii.eqb_spec ";" c) as [<-|]; [by vm_compute in Hc|done].
Qed.

Lemma master_host m v : master_part m ("host=" +:+ v) = mkMaster (normal_name v) (mPort m) (mUser m) (mJump m).
Proof. unfold master_part. change ("host=" +:+ v) with ("host" +:+ String "=" v). by rewrite cut_byte_app. Qed.
Lemma master_port m v : master_part m ("port=" +:+ v) =
  match parse_int64 (trim_space v) with
  | Some p => if p >? 0 then mkMaster (mHost m) p (mUser m) (mJump m) else m
  | None => m
  end.
Proof. unfold master_part. change ("port=" +:+ v) with ("port" +:+ String "=" v). by rewrite cut_byte_app. Qed.
Lemma master_user m v : master_part m ("user=" +:+ v) = mkMaster (mHost m) (mPort m) (trim_space v) (mJump m).
Proof. unfold master_part. change ("user=" +:+ v) with ("user" +:+ String "=" v). by rewrite cut_byte_app. Qed.
Lemma master_jump m v : master_part m ("jump=" +:+ v) = mkMaster (mHost m) (mPort m) (mUser m) (normal_name v).
Proof. unfold master_part. change ("jump=" +:+ v) with ("jump" +:+ String "=" v). by rewrite cut_byte_app. Qed.

Lemma parse_canonical m : normal_name (tHost m) <> "" -> tPort m <= max_int64 ->
  no_separator (normal_name (tHost m)) -> no_separator (trim_space (tUser m)) -> no_separator (normal_name (tJumpHost m)) ->
  parse_master (CanonicalTargetIdentity m) =
    mkMaster (normal_name (tHost m)) (port_or_22 (tPort m)) (trim_space (tUser m)) (normal_name (tJumpHost m)).
Proof.
  intros Hh Hp Hs1 Hs2 Hs3. unfold parse_master, CanonicalTargetIdentity. rewrite (proj2 (str_eq_false _ _) Hh).
  assert (0 < port_or_22 (tPort m) <= max_int64) as Hport.
  { unfold port_or_22. destruct (Z.leb_spec (tPort m) 0); unfold max_int64 in *; lia. }
  destruct (itoa_nat (port_or_22 (tPort m)) ltac:(lia)) as (_ & Hd & _).
  set (h := normal_name (tHost m)). set (u := trim_space (tUser m)). set (j := normal_name (tJumpHost m)).
  change ("host=" +:+ h +:+ ";port=" +:+ itoa (port_or_22 (tPort m)) +:+ ";user=" +:+ u +:+ ";jump=" +:+ j)
    with (("host=" +:+ h) +:+ String ";" (("port=" +:+ itoa (port_or_22 (tPort m))) +:+ String ";" (("user=" +:+ u) +:+ String ";" ("jump=" +:+ j)))).
  rewrite !split_on_app. unfold split_on. 
  rewrite !split_by_none by first [exact Hs1 | exact Hs2 | exact Hs3 | exact (digits_no_separator _ Hd)].
  cbn [app foldl]. rewrite master_host, master_port, master_user, master_jump. cbn [mHost mPort mUser mJump].
  rewrite digits_trim_space, parse_int64_itoa by (done || lia).
  rewrite (proj2 (Z.gtb_lt _ _)) by lia. cbn [mHost mPort mUser mJump].
  unfold h, u, j. by rewrite !normal_name_idem, trim_space_idem.
Qed.

(** A master announces the destination it serves; a client accepts it exactly when
    host, port and jump host are the same and no different user is asked for. *)
Theorem target_identity_exact t m : normal_name (tHost m) <> "" -> trim_space (tHost t) <> "" -> tPort m <= max_int64 ->
  no_separator (normal_name (tHost m)) -> no_separator (trim_space (tUser m)) -> no_separator (normal_name (tJumpHost m)) ->
  MatchesMasterTarget t (CanonicalTargetIdentity m) = true <->
    normal_name (tHost t) = normal_name (tHost m) /\ port_or_22 (tPort t) = port_or_22 (tPort m) /\
    normal_name (tJumpHost t) = normal_name (tJumpHost m) /\
    (trim_space (tUser t) = trim_space (tUser m) \/ trim_space (tUser t) = "" \/ trim_space (tUser m) = "").
Proof.
  intros Hh Ht Hp Hs1 Hs2 Hs3. unfold MatchesMasterTarget. rewrite parse_canonical by done.
  cbn [mHost mPort mUser mJump]. rewrite (proj2 (str_eq_false _ _) Ht), (proj2 (str_eq_false _ _) Hh), orb_false_r.
  assert (str_eq (trim_space (CanonicalTargetIdentity m)) "" = false) as ->.
  { apply str_eq_false. unfold CanonicalTargetIdentity. rewrite (proj2 (str_eq_false _ _) Hh). by apply trim_graph_head. }
  destruct (str_eq (normal_name (tHost t)) _) eqn:E1; destruct (Z.eqb_spec (port_or_22 (tPort t)) (port_or_22 (tPort m)));
  destruct (str_eq (normal_name (tJumpHost t)) _) eqn:E3; str_facts; cbn [negb orb]; try (split; [done|tauto]).
  destruct (str_eq (trim_space (tUser t)) "") eqn:E4, (str_eq (trim_space (tUser m)) "") eqn:E5,
    (str_eq (trim_space (tUser t)) (trim_space (tUser m))) eqn:E6; str_facts; cbn [negb andb]; split; tauto || done.
Qed.

Lemma target_identity_exact_witness :
  MatchesMasterTarget (mkTarget "Example.org" 0 "" "" "") (CanonicalTargetIdentity (mkTarget "example.org" 22 "bob" "" "")) = true /\
  normal_name "Example.org" = normal_name "example.org".
Proof.
  assert (MatchesMasterTarget (mkTarget "Example.org" 0 "" "" "") (CanonicalTargetIdentity (mkTarget "example.org" 22 "bob" "" "")) = true)
    as H by reflexivity.
  split; [exact H|].
  refine (proj1 (proj1 (target_identity_exact (mkTarget "Example.org" 0 "" "" "") (mkTarget "example.org" 22 "bob" "" "") _ _ _ _ _ _) H));
  vm_compute; done.
Defined.

(** A user name with a separator makes a master pass for another destination. *)
Theorem target_identity_confused :
  let master := mkTarget "example.org" 22 "bob;host=other.org" "" "" in
  MatchesMasterTarget (mkTarget "other.org" 22 "bob" "" "") (CanonicalTargetIdentity master) = true /\
  MatchesMasterTarget master (CanonicalTargetIdentity master) = false.
Proof. vm_compute. done. Qed.

Lemma control_path_expands_witness :
  ExpandControlPath (fun s => s) "~/.ssh/${APP}-%h:%p" (mkEnv "/home/u" "u" "host" "1000" (fun _ => Some "x"))
    (mkTarget "example.org" 0 "" "" "") = Ok "/home/u/.ssh/x-example.org:22".
Proof.
  pose proof (control_path_expands (fun s => s) "~/.ssh/${APP}-%h:%p" (mkEnv "/home/u" "u" "host" "1000" (fun _ => Some "x"))
    (mkTarget "example.org" 0 "" "" "") eq_refl) as H.
  destruct (ExpandControlPath _ _ _ _) as [p|e] eqn:E.
  - vm_compute in E. injection E as <-. reflexivity.
  - exfalso. vm_compute in E. discriminate E.
Defined.
