(* ===== verification/Regex.v ===== *)
(** The fragment of Go's [regexp] package that the command analyser uses:
    unanchored [MatchString] over byte classes, alternation, repetition, the
    ASCII word boundary [\b] and the end of text [$].  A declarative semantics
    ([rmatch]) and an executable matcher that is proved equivalent to it. *)
From S2P Require Export GoStrings.

Inductive regex : Type :=
  | REps
  | RClass (negated : bool) (ranges : list (N * N))
  | RSeq (a b : regex)
  | RAlt (a b : regex)
  | RStar (a : regex)
  | RWordB
  | REnd.

(** * Notation of the patterns *)
Definition RPlus (r : regex) : regex := RSeq r (RStar r).
Definition ROpt (r : regex) : regex := RAlt r REps.
Definition RByte (c : ascii) : regex := RClass false [(byte_code c, byte_code c)].
Fixpoint RLit (s : string) : regex :=
  match s with
  | EmptyString => REps
  | String c EmptyString => RByte c
  | String c s' => RSeq (RByte c) (RLit s')
  end.
Fixpoint RCat (l : list regex) : regex :=
  match l with [] => REps | [r] => r | r :: l' => RSeq r (RCat l') end.
Fixpoint ROneOf (l : list regex) : regex :=
  match l with [] => RClass false [] | [r] => r | r :: l' => RAlt r (ROneOf l') end.

Definition space_ranges : list (N * N) := [(9, 10); (12, 13); (32, 32)]%N.
Definition word_ranges : list (N * N) := [(48, 57); (65, 90); (95, 95); (97, 122)]%N.
(** [\s], [\w], [[^\s]] and [.] *)
Definition RSpace : regex := RClass false space_ranges.
Definition RWord : regex := RClass false word_ranges.
Definition RNonSpace : regex := RClass true space_ranges.
Definition RDot : regex := RClass true [(10, 10)%N].

(** * Semantics *)
Definition in_ranges (l : list (N * N)) (c : ascii) : bool :=
  existsb (fun '(lo, hi) => byte_in lo hi c) l.
Definition class_has (negated : bool) (l : list (N * N)) (c : ascii) : bool :=
  xorb negated (in_ranges l c).
Definition is_word_at (s : string) (i : nat) : bool :=
  match String.get i s with Some c => in_ranges word_ranges c | None => false end.
(** Position [i] lies between a word byte and a non-word byte. *)
Definition word_boundary (s : string) (i : nat) : bool :=
  xorb (match i with O => false | S k => is_word_at s k end) (is_word_at s i).

(** [rmatch s r i j]: [r] matches the bytes [s[i:j]] in their context. *)
Inductive rmatch (s : string) : regex -> nat -> nat -> Prop :=
  | rm_eps i : rmatch s REps i i
  | rm_class neg l i c :
      String.get i s = Some c -> class_has neg l c = true -> rmatch s (RClass neg l) i (S i)
  | rm_seq a b i j k : rmatch s a i j -> rmatch s b j k -> rmatch s (RSeq a b) i k
  | rm_alt_l a b i j : rmatch s a i j -> rmatch s (RAlt a b) i j
  | rm_alt_r a b i j : rmatch s b i j -> rmatch s (RAlt a b) i j
  | rm_star_nil a i : rmatch s (RStar a) i i
  | rm_star_cons a i j k : rmatch s a i j -> rmatch s (RStar a) j k -> rmatch s (RStar a) i k
  | rm_wordb i : word_boundary s i = true -> rmatch s RWordB i i
  | rm_end i : i = String.length s -> rmatch s REnd i i.

(** * The matcher *)

(** Positions reachable in at most [fuel] rounds of [step]. *)
Fixpoint star_ends (step : nat -> list nat) (fuel : nat) (front : list nat) : list nat :=
  match fuel with
  | O => front
  | S f => star_ends step f (remove_dups (front ++ flat_map step front))
  end.

(** All ends of matches of [r] that start at [i]. *)
Fixpoint ends (s : string) (r : regex) (i : nat) : list nat :=
  match r with
  | REps => [i]
  | RClass neg l =>
      match String.get i s with
      | Some c => if class_has neg l c then [S i] else []
      | None => []
      end
  | RSeq a b => flat_map (ends s b) (ends s a i)
  | RAlt a b => ends s a i ++ ends s b i
  | RStar a => star_ends (ends s a) (S (String.length s)) [i]
  | RWordB => if word_boundary s i then [i] else []
  | REnd => if i =? String.length s then [i] else []
  end.

(** [Regexp.MatchString] *)
Definition match_string (r : regex) (s : string) : bool :=
  existsb (fun i => match ends s r i with [] => false | _ => true end)
    (seq 0 (S (String.length s))).

(** * The matcher computes the semantics *)
Lemma get_lt i s c : String.get i s = Some c -> i < String.length s.
Proof.
  revert i. induction s as [|d s IH]; intros [|i]; simpl; try done; [lia|].
  intros H. apply IH in H. lia.
Qed.

Lemma rmatch_bounds s r i j : rmatch s r i j -> i <= j /\ (i = j \/ j <= String.length s).
Proof. induction 1; try lia. apply get_lt in H. lia. Qed.

Lemma elem_of_flat_map {A B} (f : A -> list B) l y :
  y ∈ flat_map f l <-> exists x, x ∈ l /\ y ∈ f x.
Proof.
  rewrite list_elem_of_In, in_flat_map. split; intros (x & H1 & H2); exists x;
    rewrite ?list_elem_of_In in *; done.
Qed.

Lemma star_ends_spec step f front j :
  j ∈ star_ends step f front <-> exists i, i ∈ front /\ bsteps (fun x y => y ∈ step x) f i j.
Proof.
  revert front. induction f as [|f IH]; intros front; simpl.
  - split; [intros H; exists j; split; [done | constructor] |].
    intros (i & Hi & Hs). by inversion Hs; subst.
  - rewrite IH. setoid_rewrite elem_of_remove_dups. setoid_rewrite elem_of_app.
    setoid_rewrite elem_of_flat_map. split.
    + intros (i & [Hi|(x & Hx & Hi)] & Hs); [exists i | exists x]; split; try done.
      * by apply bsteps_S.
      * by eapply bsteps_l.
    + intros (i & Hi & Hs). inversion Hs as [|? ? y ? Hy Hr]; subst.
      * exists j. split; [by left | constructor].
      * exists y. split; [right; eauto | done].
Qed.

(** Empty rounds can be dropped, so as many rounds as positions suffice. *)
Lemma star_rounds (R : nat -> nat -> Prop) n i j :
  (forall x y, R x y -> x <= y /\ (x = y \/ y <= n)) ->
  rtc R i j -> bsteps R (S n - i) i j.
Proof.
  intros HR. induction 1 as [x|x y z Hxy Hyz IH]; [constructor|].
  apply HR in Hxy as Hb. destruct Hb as [Hle [->|Hn]]; [done|].
  destruct (decide (x = y)) as [->|Hne]; [done|].
  eapply bsteps_weaken; [|by eapply bsteps_l]. lia.
Qed.

Lemma rmatch_star_rtc s a i j : rmatch s (RStar a) i j <-> rtc (rmatch s a) i j.
Proof.
  split.
  - intros H. remember (RStar a) as r eqn:E. induction H; simplify_eq; [done|].
    eapply rtc_l; eauto.
  - induction 1; [constructor | eapply rm_star_cons; eauto].
Qed.

Lemma ends_spec s r i j : j ∈ ends s r i <-> rmatch s r i j.
Proof.
  revert i j. induction r as [| neg l | a IHa b IHb | a IHa b IHb | a IHa | |]; intros i j; simpl.
  - rewrite list_elem_of_singleton. split; [intros ->; constructor | by inversion 1].
  - split.
    + destruct (String.get i s) as [c|] eqn:E; [|by rewrite elem_of_nil].
      destruct (class_has neg l c) eqn:Ec; [|by rewrite elem_of_nil].
      rewrite list_elem_of_singleton. intros ->. by econstructor.
    + inversion 1 as [|? ? ? c Hg Hc| | | | | | |]; subst. rewrite Hg, Hc. by left.
  - rewrite elem_of_flat_map. setoid_rewrite IHa. setoid_rewrite IHb.
    split; [intros (x & H1 & H2); by econstructor | inversion 1; subst; eauto].
  - rewrite elem_of_app, IHa, IHb.
    split; [intros [H|H]; by constructor | inversion 1; subst; eauto].
  - change (j ∈ star_ends (ends s a) (S (String.length s)) [i] <-> rmatch s (RStar a) i j).
    rewrite star_ends_spec, rmatch_star_rtc. setoid_rewrite list_elem_of_singleton. split.
    + intros (x & -> & Hs). apply rtc_bsteps_2 in Hs. clear -Hs IHa.
      induction Hs; [done|]. eapply rtc_l; [by apply IHa | done].
    + intros Hs. exists i. split; [done|].
      eapply bsteps_weaken; [|apply (star_rounds _ (String.length s))].
      * lia.
      * intros x y H. apply IHa in H. by apply rmatch_bounds in H.
      * clear -Hs IHa. induction Hs; [done|]. eapply rtc_l; [by apply IHa | done].
  - destruct (word_boundary s i) eqn:E.
    + rewrite list_elem_of_singleton. split; [intros ->; by constructor | by inversion 1].
    + split; [by rewrite elem_of_nil | inversion 1; subst; congruence].
  - destruct (Nat.eqb_spec i (String.length s)) as [->|Hne].
    + rewrite list_elem_of_singleton. split; [intros ->; by constructor | by inversion 1].
    + split; [by rewrite elem_of_nil | inversion 1; subst; done].
Qed.

(** Some occurrence of [r] in [s]. *)
Definition occurs (r : regex) (s : string) : Prop :=
  exists i j, i <= String.length s /\ rmatch s r i j.

Lemma match_string_spec r s : match_string r s = true <-> occurs r s.
Proof.
  unfold match_string, occurs. rewrite existsb_exists. setoid_rewrite in_seq. split.
  - intros (i & Hi & H). destruct (ends s r i) as [|j l] eqn:E; [done|].
    exists i, j. split; [lia|]. apply ends_spec. rewrite E. by left.
  - intros (i & j & Hi & H). exists i. split; [lia|].
    apply ends_spec in H. destruct (ends s r i); [by apply elem_of_nil in H | done].
Qed.

#[export] Hint Constructors rmatch : regex.
