(* ===== verification/Exec.v ===== *)
(** Command planning of core/ssh: execution configurations and their
    inheritance (execution_config.go), shell quoting and exec payloads
    (command_plan.go, privilege_exchange.go, windows_adapter.go), shebang
    resolution (shebang.go) and working directories (working_dir.go).

    The theorems show that a quoted command is read back by the outer shell as
    exactly one word with the original bytes, that plans respect their bounds,
    and how configurations inherit from each other. *)
From S2P Require Export GoStrings.
#[local] Open Scope Z_scope.

(** * Constants (command_plan.go, windows_adapter.go) *)
Definition InterpreterServer := "server".
Definition InterpreterBash := "bash".
Definition InterpreterSh := "sh".
Definition InterpreterFish := "fish".
Definition InterpreterZsh := "zsh".
Definition InterpreterCsh := "csh".
Definition InterpreterTcsh := "tcsh".
Definition InterpreterPowerShell := "powershell".
Definition InterpreterPwsh := "pwsh".
Definition InterpreterCmd := "cmd".

Definition LaunchUnknown := "unknown".
Definition LaunchPOSIX := "posix".
Definition LaunchFish := "fish".
Definition LaunchCsh := "csh".
Definition LaunchPowerShell := "powershell".
Definition LaunchCmd := "cmd".

Definition LoginInherit := "inherit".
Definition LoginEnabled := "enabled".
Definition LoginDisabled := "disabled".

Definition MaxCommandBytes : Z := 65536.
Definition MaxCommandInputBytes : Z := 16777216.
Definition DefaultCommandOutput : Z := 5242880.
Definition MaxCommandOutput : Z := 67108864.
(** Five minutes in nanoseconds. *)
Definition DefaultCommandTimeout : Z := 300000000000.
Definition MaxCmdPayloadBytes : Z := 8191.
Definition MaxPowerShellPayloadBytes : Z := 32767.

(** The interpreters that the Unix adapters accept. *)
Definition unix_interpreters : list string :=
  [InterpreterBash; InterpreterSh; InterpreterZsh; InterpreterFish; InterpreterCsh; InterpreterTcsh].

(** * Errors *)
Inductive exec_error :=
  | ECommandBounds
  | EStdinTooLarge
  | ELimitsInvalid
  | EUnsupportedDialect (d : string)
  | EUnsupportedLogin (l : string)
  | EInheritedLoginRequired (interp : string)
  | EUnsupportedInterpreter (i : string)
  | EDialectRequired (interp : string)
  | ELoginShellUnsupported (interp : string)
  | EPayloadTooLarge (limit : Z)
  | EScriptNul
  | ECmdIllegalByte
  | ECmdUnbalancedQuotes
  | ECmdExpansion
  | EWorkingDirByte
  | EWorkingDirServer
  | EScriptBOM
  | EScriptServer
  | EUnsupportedShebang (line : string)
  | ENoScriptInterpreter
  (** wrapped with [ErrExecutionValidation] *)
  | EValidation (e : exec_error).

(** * Configurations (execution_config.go) *)
Record ExecutionConfig := mkExec {
  Interpreter : string;
  LaunchDialect : string;
  Login : option bool
}.
#[export] Instance ExecutionConfig_eq_dec : EqDecision ExecutionConfig.
Proof. solve_decision. Defined.

(** A [*ExecutionConfig] is an [option]; [Clone] copies the pointed-to values,
    so on values it is the identity. *)
Definition exec_clone (e : option ExecutionConfig) : option ExecutionConfig :=
  match e with
  | None => None
  | Some c => Some (mkExec (Interpreter c) (LaunchDialect c) (Login c))
  end.

Definition login_mode (e : option ExecutionConfig) : string :=
  match e with
  | None => LoginInherit
  | Some c => match Login c with
              | None => LoginInherit
              | Some true => LoginEnabled
              | Some false => LoginDisabled
              end
  end.

Definition EffectiveInterpreter (e : option ExecutionConfig) : string :=
  match e with
  | None => InterpreterServer
  | Some c => if str_eq (Interpreter c) "" then InterpreterServer else Interpreter c
  end.

Record CommandOptions := mkOptions {
  oInterpreter : string;
  oDialect : string;
  oLogin : string;
  oStdin : string;
  oTimeout : Z;
  oOutputLimit : Z
}.

Definition command_options (e : option ExecutionConfig) : CommandOptions :=
  match e with
  | None => mkOptions InterpreterServer LaunchUnknown LoginInherit "" 0 0
  | Some c =>
      let interp := EffectiveInterpreter e in
      let dialect := if str_eq interp InterpreterServer && str_eq (LaunchDialect c) ""
                     then LaunchUnknown else LaunchDialect c in
      mkOptions interp dialect (login_mode e) "" 0 0
  end.

Definition validateValues (e : ExecutionConfig) : result exec_error unit :=
  reject negb (one_of (Interpreter e)
      ["" ; InterpreterServer; InterpreterBash; InterpreterSh; InterpreterZsh; InterpreterFish;
       InterpreterCsh; InterpreterTcsh; InterpreterPowerShell; InterpreterPwsh; InterpreterCmd])
    with EValidation (EUnsupportedInterpreter (Interpreter e));;
  reject negb (one_of (LaunchDialect e)
      ["" ; LaunchPOSIX; LaunchFish; LaunchCsh; LaunchPowerShell; LaunchCmd; LaunchUnknown])
    with EValidation (EUnsupportedDialect (LaunchDialect e));;
  Ok tt.

Definition validateDialectCompatibility (e : ExecutionConfig) : result exec_error unit :=
  let fail := EValidation (EDialectRequired (Interpreter e)) in
  let d := LaunchDialect e in
  if one_of (Interpreter e) unix_interpreters then
    reject_if (negb (one_of d ["" ; LaunchPOSIX; LaunchFish; LaunchCsh])) fail
  else if str_eq (Interpreter e) InterpreterPowerShell then
    reject_if (negb (one_of d ["" ; LaunchCmd; LaunchPowerShell])) fail
  else if str_eq (Interpreter e) InterpreterPwsh then
    reject_if (negb (one_of d ["" ; LaunchCmd; LaunchPowerShell; LaunchPOSIX; LaunchFish; LaunchCsh])) fail
  else if str_eq (Interpreter e) InterpreterCmd then
    reject_if (negb (one_of d ["" ; LaunchCmd])) fail
  else Ok tt.

Definition validateLoginCompatibility (e : ExecutionConfig) : result exec_error unit :=
  if one_of (Interpreter e) [InterpreterServer; InterpreterPowerShell; InterpreterPwsh; InterpreterCmd] then
    reject_if (bool_decide (Login e <> None)) (EValidation (EInheritedLoginRequired (Interpreter e)))
  else if one_of (Interpreter e) [InterpreterSh; InterpreterCsh; InterpreterTcsh] then
    reject_if (bool_decide (Login e = Some true)) (EValidation (ELoginShellUnsupported (Interpreter e)))
  else Ok tt.

Definition validate (e : option ExecutionConfig) : result exec_error unit :=
  match e with
  | None => Ok tt
  | Some c =>
      try _ := validateValues c;;
      try _ := validateDialectCompatibility c;;
      validateLoginCompatibility c
  end.

(** The merge of two present layers, before the result is validated. *)
Definition merge_execution (child parent : ExecutionConfig) : ExecutionConfig :=
  let dialect := if str_eq (LaunchDialect child) "" then LaunchDialect parent else LaunchDialect child in
  let inherit_login := match Login child with Some v => Some v | None => Login parent end in
  if negb (str_eq (Interpreter child) "") then
    if str_eq (Interpreter child) InterpreterServer ||
       (negb (str_eq (Interpreter parent) "") &&
        negb (str_eq (EffectiveInterpreter (Some child)) (EffectiveInterpreter (Some parent))))
    then mkExec (Interpreter child) dialect (Login child)
    else mkExec (Interpreter child) dialect inherit_login
  else mkExec (Interpreter parent) dialect inherit_login.

Definition ResolveExecution (child parent : option ExecutionConfig)
    : result exec_error (option ExecutionConfig) :=
  match child, parent with
  | None, None => Ok None
  | None, Some _ => try _ := validate parent;; Ok (exec_clone parent)
  | Some _, None => try _ := validate child;; Ok (exec_clone child)
  | Some c, Some p =>
      try _ := validate child;;
      try _ := validate parent;;
      let res := Some (merge_execution c p) in
      try _ := validate res;; Ok res
  end.

(** Layers from highest to lowest priority; the loop runs from the lowest. *)
Fixpoint resolve_layers (layers : list (option ExecutionConfig))
    : result exec_error (option ExecutionConfig) :=
  match layers with
  | [] => Ok None
  | layer :: lower => try effective := resolve_layers lower;; ResolveExecution layer effective
  end.

Definition EffectiveExecution (layers : list (option ExecutionConfig))
    : result exec_error (option ExecutionConfig) :=
  try effective := resolve_layers layers;;
  reject match effective with
         | Some c => str_eq (EffectiveInterpreter effective) InterpreterServer && bool_decide (Login c <> None)
         | None => false
         end with EValidation (EInheritedLoginRequired InterpreterServer);;
  Ok effective.

(** * Quoting (command_plan.go, privilege_exchange.go) *)
Definition squote : ascii := "'"%char.
Definition bslash : ascii := "\"%char.

(** [shellQuote] *)
Definition shellQuote (value : string) : string :=
  "'" +:+ replace_all value "'" "'\''" +:+ "'".

(** [strings.NewReplacer(`\`, `\\`, "'", `\'`)] *)
Fixpoint fish_escape (value : string) : string :=
  match value with
  | EmptyString => EmptyString
  | String c rest =>
      if Ascii.eqb c bslash || Ascii.eqb c squote
      then String bslash (String c (fish_escape rest)) else String c (fish_escape rest)
  end.
Definition fishQuote (value : string) : string := "'" +:+ fish_escape value +:+ "'".

Fixpoint csh_escape (value : string) : string :=
  match value with
  | EmptyString => EmptyString
  | String c rest =>
      (if Ascii.eqb c squote then "'\''"
       else if Ascii.eqb c "!" then "\!"
       else if Ascii.eqb c newline then String bslash (str1 newline)
       else str1 c) +:+ csh_escape rest
  end.
Definition cshQuote (value : string) : string := "'" +:+ csh_escape value +:+ "'".

Definition quoteForDialect (dialect s : string) : string :=
  if str_eq dialect LaunchFish then fishQuote s
  else if str_eq dialect LaunchCsh then cshQuote s
  else shellQuote s.

(** * Windows payloads (windows_adapter.go) *)

(** UTF-16 code units of a rune ([utf16.Encode]). *)
Definition utf16_units (r : N) : list N :=
  if (r <? 65536)%N then
    if ((55296 <=? r) && (r <? 57344))%N then [rune_error] else [r]
  else [55296 + (r - 65536) / 1024; 56320 + (r - 65536) mod 1024]%N.

(** [[]rune(s)], [utf16.Encode] and the little-endian bytes. *)
Fixpoint utf16le (skip : nat) (s : string) : list N :=
  match s with
  | EmptyString => []
  | String _ s' =>
      match skip with
      | S k => utf16le k s'
      | O => let '(r, w) := decode_rune s in
             flat_map (fun u => [N.land u 255; N.shiftr u 8]%N) (utf16_units r) ++ utf16le (w - 1) s'
      end
  end.

Definition base64_char (n : N) : ascii :=
  Ascii.ascii_of_N
    (if (n <? 26)%N then n + 65 else if (n <? 52)%N then n + 71
     else if (n <? 62)%N then n - 4 else if (n =? 62)%N then 43 else 47)%N.

(** [base64.StdEncoding.EncodeToString] *)
Fixpoint base64 (l : list N) : string :=
  match l with
  | [] => EmptyString
  | [a] => String (base64_char (N.shiftr a 2)) (String (base64_char (N.land a 3 * 16)%N) "==")
  | [a; b] => String (base64_char (N.shiftr a 2))
      (String (base64_char (N.land a 3 * 16 + N.shiftr b 4)%N)
        (String (base64_char (N.land b 15 * 4)%N) "="))
  | a :: b :: c :: rest => String (base64_char (N.shiftr a 2))
      (String (base64_char (N.land a 3 * 16 + N.shiftr b 4)%N)
        (String (base64_char (N.land b 15 * 4 + N.shiftr c 6)%N)
          (String (base64_char (N.land c 63)) (base64 rest))))
  end.

Definition encodePowerShellCommand (command : string) : string := base64 (utf16le 0 command).

Definition wrapPowerShellCommand (command : string) : string :=
  "$ProgressPreference = 'SilentlyContinue'; $ErrorActionPreference = 'Stop'" +:+ str1 newline +:+
  command +:+ str1 newline +:+
  "if ($LASTEXITCODE -ne $null -and $LASTEXITCODE -ne 0) { exit $LASTEXITCODE }".

Definition ps_flags : string :=
  " -NoProfile -NonInteractive -ExecutionPolicy Bypass -EncodedCommand ".

Definition powershell_limit (dialect : string) : Z :=
  if str_eq dialect LaunchCmd then MaxCmdPayloadBytes else MaxPowerShellPayloadBytes.

Definition powershellCommandPayload (command dialect : string) : result exec_error string :=
  reject negb (one_of dialect [LaunchCmd; LaunchPowerShell])
    with EDialectRequired InterpreterPowerShell;;
  let encoded := encodePowerShellCommand (wrapPowerShellCommand command) in
  let payload :=
    if str_eq dialect LaunchCmd then "powershell.exe" +:+ ps_flags +:+ encoded
    else "& powershell.exe" +:+ ps_flags +:+ encoded +:+ "; exit $LASTEXITCODE" in
  reject powershell_limit dialect <? len payload with EPayloadTooLarge (powershell_limit dialect);;
  Ok payload.

Definition pwshCommandPayload (command dialect : string) : result exec_error string :=
  reject negb (one_of dialect [LaunchCmd; LaunchPowerShell; LaunchPOSIX; LaunchFish; LaunchCsh])
    with EDialectRequired InterpreterPwsh;;
  let encoded := encodePowerShellCommand (wrapPowerShellCommand command) in
  let payload :=
    if str_eq dialect LaunchCmd then "pwsh.exe" +:+ ps_flags +:+ encoded
    else if str_eq dialect LaunchPowerShell
         then "& pwsh" +:+ ps_flags +:+ encoded +:+ "; exit $LASTEXITCODE"
    else "pwsh" +:+ ps_flags +:+ encoded in
  reject powershell_limit dialect <? len payload with EPayloadTooLarge (powershell_limit dialect);;
  Ok payload.

(** U+FFFD, written by [WriteRune] for a byte that is not valid UTF-8. *)
Definition replacement : string :=
  String (Ascii.ascii_of_N 239) (String (Ascii.ascii_of_N 191) (str1 (Ascii.ascii_of_N 189))).

Definition cmd_metachar (c : ascii) : bool := byte_member c "&|<>()^".

(** The rune loop of [escapeCmdCommand]; [skip] bytes of a rune are copied. *)
Fixpoint escape_cmd_loop (skip : nat) (inOuterQuote : bool) (s : string) : string :=
  match s with
  | EmptyString => EmptyString
  | String c s' =>
      match skip with
      | S k => String c (escape_cmd_loop k inOuterQuote s')
      | O =>
          let '(r, w) := decode_rune s in
          if Ascii.eqb c dquote then String c (escape_cmd_loop 0 (negb inOuterQuote) s')
          else if (r =? rune_error)%N && (w =? 1)%nat
               then replacement +:+ escape_cmd_loop 0 inOuterQuote s'
          else if negb inOuterQuote && cmd_metachar c
               then String "^"%char (String c (escape_cmd_loop 0 inOuterQuote s'))
          else String c (escape_cmd_loop (w - 1) inOuterQuote s')
      end
  end.

Definition escapeCmdCommand (command : string) : result exec_error string :=
  reject contains_any command (String creturn (String newline (str1 nul)))
    with EValidation ECmdIllegalByte;;
  reject negb (Nat.even (count command (str1 dquote))) with EValidation ECmdUnbalancedQuotes;;
  reject contains_any command "%!" with EValidation ECmdExpansion;;
  Ok (escape_cmd_loop 0 true command).

Definition cmdCommandPayload (command dialect : string) : result exec_error string :=
  reject negb (str_eq dialect LaunchCmd) with EDialectRequired InterpreterCmd;;
  try escaped := escapeCmdCommand command;;
  let payload := "cmd.exe /d /s /c " +:+ str1 dquote +:+ escaped +:+ str1 dquote in
  reject MaxCmdPayloadBytes <? len payload with EPayloadTooLarge MaxCmdPayloadBytes;;
  Ok payload.

(** * Command plans (command_plan.go) *)
Record CommandPlan := mkPlan {
  pCommand : string;
  pPayload : string;
  pInterpreter : string;
  pDialect : string;
  pLogin : string;
  pInput : string;
  pTimeout : Z;
  pOutputLimit : Z;
  pDigest : string
}.

Definition set_payload (p : CommandPlan) (payload : string) : CommandPlan :=
  mkPlan (pCommand p) payload (pInterpreter p) (pDialect p) (pLogin p) (pInput p)
    (pTimeout p) (pOutputLimit p) (pDigest p).
Definition set_login (p : CommandPlan) (login : string) : CommandPlan :=
  mkPlan (pCommand p) (pPayload p) (pInterpreter p) (pDialect p) login (pInput p)
    (pTimeout p) (pOutputLimit p) (pDigest p).

(** [(p *CommandPlan) defaults] *)
Definition defaults (p : CommandPlan) : CommandPlan :=
  mkPlan (pCommand p) (pPayload p)
    (if str_eq (pInterpreter p) "" then InterpreterServer else pInterpreter p)
    (if str_eq (pDialect p) "" then LaunchUnknown else pDialect p)
    (if str_eq (pLogin p) "" then LoginInherit else pLogin p)
    (pInput p)
    (if pTimeout p =? 0 then DefaultCommandTimeout else pTimeout p)
    (if pOutputLimit p =? 0 then DefaultCommandOutput else pOutputLimit p)
    (pDigest p).

Definition unixCommandPayload (interpreter command : string) (login : bool) (dialect : string) : string :=
  interpreter +:+ (if login then " -l" else "") +:+ " -c " +:+ quoteForDialect dialect command.

Definition buildUnixPayload (p : CommandPlan) : result exec_error CommandPlan :=
  reject negb (one_of (pDialect p) [LaunchPOSIX; LaunchFish; LaunchCsh])
    with EDialectRequired (pInterpreter p);;
  reject one_of (pInterpreter p) [InterpreterSh; InterpreterCsh; InterpreterTcsh] &&
         str_eq (pLogin p) LoginEnabled
    with ELoginShellUnsupported (pInterpreter p);;
  let p' := if str_eq (pLogin p) LoginInherit then set_login p LoginDisabled else p in
  Ok (set_payload p' (unixCommandPayload (pInterpreter p') (pCommand p')
        (str_eq (pLogin p') LoginEnabled) (pDialect p'))).

(** One Windows adapter of [buildPayload]: inherited login, then its payload. *)
Definition windows_payload (p : CommandPlan) (build : string -> string -> result exec_error string)
    : result exec_error CommandPlan :=
  reject negb (str_eq (pLogin p) LoginInherit) with EInheritedLoginRequired (pInterpreter p);;
  try payload := build (pCommand p) (pDialect p);;
  Ok (set_payload p payload).

(** [(p *CommandPlan) buildPayload] *)
Definition buildPayload (p : CommandPlan) : result exec_error CommandPlan :=
  reject negb (one_of (pDialect p)
      [LaunchUnknown; LaunchPOSIX; LaunchFish; LaunchCsh; LaunchPowerShell; LaunchCmd])
    with EUnsupportedDialect (pDialect p);;
  reject negb (one_of (pLogin p) [LoginInherit; LoginEnabled; LoginDisabled])
    with EUnsupportedLogin (pLogin p);;
  if str_eq (pInterpreter p) InterpreterServer then
    reject negb (str_eq (pLogin p) LoginInherit) with EInheritedLoginRequired InterpreterServer;;
    Ok (set_payload p (pCommand p))
  else if one_of (pInterpreter p) unix_interpreters then buildUnixPayload p
  else if str_eq (pInterpreter p) InterpreterPowerShell then windows_payload p powershellCommandPayload
  else if str_eq (pInterpreter p) InterpreterPwsh then windows_payload p pwshCommandPayload
  else if str_eq (pInterpreter p) InterpreterCmd then windows_payload p cmdCommandPayload
  else Err (EUnsupportedInterpreter (pInterpreter p)).

Section Plan.
(** SHA-256 of the JSON form of the plan, as text; the code relies on nothing
    but that it is a function of the plan. *)
Variable plan_digest : CommandPlan -> string.

Definition PlanCommand (command : string) (options : CommandOptions) : result exec_error CommandPlan :=
  reject str_eq command "" || (MaxCommandBytes <? len command) || contains_any command (str1 nul)
    with ECommandBounds;;
  reject MaxCommandInputBytes <? len (oStdin options) with EStdinTooLarge;;
  reject (oTimeout options <? 0) || (oOutputLimit options <? 0) ||
         (MaxCommandOutput <? oOutputLimit options) with ELimitsInvalid;;
  let p := defaults (mkPlan command "" (oInterpreter options) (oDialect options) (oLogin options)
                       (oStdin options) (oTimeout options) (oOutputLimit options) "") in
  try p' := buildPayload p;;
  reject MaxCommandBytes <? len (pPayload p') with EPayloadTooLarge MaxCommandBytes;;
  Ok (mkPlan (pCommand p') (pPayload p') (pInterpreter p') (pDialect p') (pLogin p') (pInput p')
        (pTimeout p') (pOutputLimit p') (plan_digest p')).

(** * Script payloads *)
Definition validateScriptArgs (args : list string) : result exec_error unit :=
  reject_if (existsb (fun a => contains_any a (str1 nul)) args) (EValidation EScriptNul).

(** The [-l] variants of [bashScriptPayload], [zshScriptPayload], [fishScriptPayload]. *)
Definition script_stdin_payload (interp : string) (login : bool) : result exec_error string :=
  if one_of interp ["" ; InterpreterBash] then Ok (if login then "bash -l -s" else "bash -s")
  else if str_eq interp InterpreterSh then Ok "sh -s"
  else if str_eq interp InterpreterZsh then Ok (if login then "zsh -l -s" else "zsh -s")
  else if str_eq interp InterpreterFish then Ok (if login then "fish -l" else "fish")
  else if str_eq interp InterpreterCsh then Ok "csh -s"
  else if str_eq interp InterpreterTcsh then Ok "tcsh -s"
  else Err (EValidation (EUnsupportedInterpreter interp)).

Definition script_args_payload (interp : string) (login : bool) (dialect : string) (args : list string)
    : result exec_error string :=
  let argStr := join " " (map (quoteForDialect dialect) args) in
  if one_of interp ["" ; InterpreterBash] then
    Ok ((if login then "bash -l -s -- " else "bash -s -- ") +:+ argStr)
  else if str_eq interp InterpreterSh then Ok ("sh -s -- " +:+ argStr)
  else if str_eq interp InterpreterZsh then
    Ok ((if login then "zsh -l -s -- " else "zsh -s -- ") +:+ argStr)
  else if str_eq interp InterpreterFish then
    Ok (unixCommandPayload InterpreterFish ("source - " +:+ join " " (map fishQuote args)) login dialect)
  else if str_eq interp InterpreterCsh then Ok ("csh -s -b " +:+ argStr)
  else if str_eq interp InterpreterTcsh then Ok ("tcsh -s -b " +:+ argStr)
  else Err (EValidation (EUnsupportedInterpreter interp)).

Definition formatScriptPayload (interp : string) (login : bool) (dialect : string) (args : list string)
    : result exec_error string :=
  try _ := validateScriptArgs args;;
  try payload := match args with
                 | [] => script_stdin_payload interp login
                 | _ => script_args_payload interp login dialect args
                 end;;
  reject MaxCommandBytes <? len payload with EValidation (EPayloadTooLarge MaxCommandBytes);;
  Ok payload.

(** * Shebangs (shebang.go) *)
Record ShebangInfo := mkShebang {
  HasShebang : bool;
  HasBOM : bool;
  Supported : bool;
  sInterpreter : string;
  sDialect : string;
  RawLine : string
}.

Definition bom : string :=
  String (Ascii.ascii_of_N 239) (String (Ascii.ascii_of_N 187) (str1 (Ascii.ascii_of_N 191))).

Definition shebang_bodies (name : string) : list string :=
  [name; "/bin/" +:+ name; "/usr/bin/" +:+ name; "/bin/env " +:+ name; "/usr/bin/env " +:+ name].

(** Interpreter and dialect of an allowed shebang body. *)
Definition shebang_lookup (body : string) : option (string * string) :=
  if one_of body (shebang_bodies "sh") then Some (InterpreterSh, LaunchPOSIX)
  else if one_of body (shebang_bodies "bash") then Some (InterpreterBash, LaunchPOSIX)
  else if one_of body (shebang_bodies "zsh") then Some (InterpreterZsh, LaunchPOSIX)
  else if one_of body (shebang_bodies "fish") then Some (InterpreterFish, LaunchFish)
  else if one_of body (shebang_bodies "csh") then Some (InterpreterCsh, LaunchCsh)
  else if one_of body (shebang_bodies "tcsh") then Some (InterpreterTcsh, LaunchCsh)
  else None.

Fixpoint first_line (data : string) : string :=
  match data with
  | EmptyString => EmptyString
  | String c r => if Ascii.eqb c newline then EmptyString else String c (first_line r)
  end.

Definition ParseShebang (data : string) : ShebangInfo :=
  if str_eq data "" then mkShebang false false false "" "" ""
  else
    let hasBOM := has_prefix data bom in
    let trimmed := trim_right (fun c => byte_member c (String creturn (String " "%char (str1 tab))))
                     (first_line data) in
    if negb (has_prefix trimmed "#!") then mkShebang false hasBOM false "" "" ""
    else
      match shebang_lookup (trim_space (drop_bytes 2 trimmed)) with
      | Some (i, d) => mkShebang true hasBOM true i d trimmed
      | None => mkShebang true hasBOM false "" "" trimmed
      end.

Definition resolveExplicitScriptInterpreter (explicit : option ExecutionConfig) : result exec_error string :=
  match explicit with
  | None => Ok ""
  | Some c =>
      if str_eq (Interpreter c) "" then Ok ""
      else reject str_eq (Interpreter c) InterpreterServer with EValidation EScriptServer;;
           Ok (Interpreter c)
  end.

Definition script_candidate (cfg : option ExecutionConfig) : option string :=
  match cfg with
  | Some c => if negb (str_eq (Interpreter c) "") && negb (str_eq (Interpreter c) InterpreterServer)
              then Some (Interpreter c) else None
  | None => None
  end.

Definition resolveFallbackScriptInterpreter (node global : option ExecutionConfig) : string :=
  match script_candidate node with
  | Some i => i
  | None => match script_candidate global with Some i => i | None => "" end
  end.

Definition stripServerInterpreter (cfg : option ExecutionConfig) : option ExecutionConfig :=
  match cfg with
  | None => None
  | Some c => Some (if str_eq (Interpreter c) InterpreterServer
                    then mkExec "" (LaunchDialect c) (Login c) else c)
  end.

Definition determineScriptInterpreter (step settings node global : option ExecutionConfig)
    (scriptBytes : string) : result exec_error string :=
  reject has_prefix scriptBytes bom with EValidation EScriptBOM;;
  try stepInterp := resolveExplicitScriptInterpreter step;;
  try setInterp := resolveExplicitScriptInterpreter settings;;
  let shebang := ParseShebang scriptBytes in
  reject HasShebang shebang && negb (Supported shebang) && str_eq stepInterp "" && str_eq setInterp ""
    with EValidation (EUnsupportedShebang (RawLine shebang));;
  if negb (str_eq stepInterp "") then Ok stepInterp
  else if negb (str_eq setInterp "") then Ok setInterp
  else if HasShebang shebang then Ok (sInterpreter shebang)
  else
    let fallback := resolveFallbackScriptInterpreter node global in
    if negb (str_eq fallback "") then Ok fallback else Err (EValidation ENoScriptInterpreter).

Definition validateResolvedScriptExecution (res : option ExecutionConfig)
    : result exec_error (option ExecutionConfig) :=
  try _ := validate res;;
  match res with
  | None => Err (EValidation (EUnsupportedInterpreter ""))
  | Some c =>
      reject negb (one_of (Interpreter c) unix_interpreters)
        with EValidation (EUnsupportedInterpreter (Interpreter c));;
      match PlanCommand ":" (command_options res) with
      | Err e => Err (EValidation e)
      | Ok plan => Ok (Some (mkExec (Interpreter c) (LaunchDialect c) (Some (str_eq (pLogin plan) LoginEnabled))))
      end
  end.

Definition ResolveScriptExecution (step settings node global : option ExecutionConfig)
    (scriptBytes : string) : result exec_error (option ExecutionConfig) :=
  try target := determineScriptInterpreter step settings node global scriptBytes;;
  let stepCopy := match step with
                  | Some c => mkExec target (LaunchDialect c) (Login c)
                  | None => mkExec target "" None
                  end in
  try res := EffectiveExecution
    [Some stepCopy; exec_clone settings; stripServerInterpreter node; stripServerInterpreter global];;
  validateResolvedScriptExecution res.
End Plan.

(** * Working directories (working_dir.go) *)
Definition NormalizeWindowsSFTPWorkingDir (cwd : string) : string :=
  match cwd with
  | String a (String b (String c rest)) =>
      if Ascii.eqb a "/" && Ascii.eqb c ":" && is_alpha b then
        match rest with
        | EmptyString => drop_bytes 1 cwd +:+ "/"
        | String d _ => if Ascii.eqb d "/" then drop_bytes 1 cwd else cwd
        end
      else cwd
  | _ => cwd
  end.

Definition ps_quote (s : string) : string := replace_all s "'" "''".

Definition nl_str : string := str1 newline.

Definition FormatWorkingDirCommand (cwd command : string) (execution : option ExecutionConfig)
    : result exec_error string :=
  if str_eq cwd "" then Ok command
  else
    reject contains_any cwd (String creturn (String newline (str1 nul))) with EValidation EWorkingDirByte;;
    let interp := EffectiveInterpreter execution in
    let dialect := match execution with Some c => LaunchDialect c | None => "" end in
    if str_eq interp InterpreterServer then Err (EValidation EWorkingDirServer)
    else if one_of interp [InterpreterBash; InterpreterSh; InterpreterZsh] then
      Ok ("cd -- '" +:+ replace_all cwd "'" "'\''" +:+ "' && {" +:+ nl_str +:+ command +:+ nl_str +:+ "}")
    else if str_eq interp InterpreterFish then
      Ok ("cd -- " +:+ fishQuote cwd +:+ "; and begin" +:+ nl_str +:+ command +:+ nl_str +:+ "end")
    else if one_of interp [InterpreterCsh; InterpreterTcsh] then
      Ok ("cd -- " +:+ cshQuote cwd +:+ " || exit $status" +:+ nl_str +:+ command)
    else if str_eq interp InterpreterCmd then
      let cwd := NormalizeWindowsSFTPWorkingDir cwd in
      reject contains_any cwd (String "%" (String "!" (String "^" (String creturn
               (String newline (String dquote (str1 nul))))))) with EValidation EWorkingDirByte;;
      Ok ("cd /d " +:+ str1 dquote +:+ cwd +:+ str1 dquote +:+ " || exit /b & " +:+ command)
    else if one_of interp [InterpreterPowerShell; InterpreterPwsh] then
      let cwd := if str_eq interp InterpreterPowerShell || str_eq dialect LaunchCmd
                 then NormalizeWindowsSFTPWorkingDir cwd else cwd in
      let native := NormalizeWindowsSFTPWorkingDir cwd in
      if str_eq interp InterpreterPwsh && negb (str_eq native cwd) then
        Ok ("Set-Location -LiteralPath $(if ($IsWindows) { '" +:+ ps_quote native +:+ "' } else { '" +:+
            ps_quote cwd +:+ "' }) -ErrorAction Stop; " +:+ command)
      else Ok ("Set-Location -LiteralPath '" +:+ ps_quote cwd +:+ "' -ErrorAction Stop; " +:+ command)
    else Err (EValidation (EUnsupportedInterpreter interp)).

(** * A reference reader of quoted shell words *)

(** What a quoted region means to the outer shell: POSIX shells take every byte
    up to the closing quote; fish undoes [\\] and [\']; csh and tcsh undo [\!]
    and backslash-newline, and would expand a bare [!] or reject a bare newline. *)
Inductive quote_rule := PosixRule | FishRule | CshRule.

Definition rule_of (dialect : string) : quote_rule :=
  if str_eq dialect LaunchFish then FishRule
  else if str_eq dialect LaunchCsh then CshRule else PosixRule.

Definition plain_byte (c : ascii) : bool := is_alpha c || is_digit c || byte_member c "-_./".

Definition quoted_escape (q : quote_rule) (c e : ascii) : bool :=
  Ascii.eqb c bslash &&
  match q with
  | PosixRule => false
  | FishRule => Ascii.eqb e bslash || Ascii.eqb e squote
  | CshRule => Ascii.eqb e "!" || Ascii.eqb e newline
  end.

Definition quoted_forbidden (q : quote_rule) (c : ascii) : bool :=
  match q with CshRule => Ascii.eqb c "!" || Ascii.eqb c newline | _ => false end.

Definition add_byte (cur : option string) (c : ascii) : option string :=
  Some (default "" cur +:+ str1 c).

(** The words of a command line of plain and quoted text; [None] when the line
    contains anything the shell would interpret. *)
Fixpoint shell_words (q : quote_rule) (s : string) (inq : bool) (cur : option string)
    : option (list string) :=
  match s with
  | EmptyString => if inq then None else Some (match cur with Some w => [w] | None => [] end)
  | String c r =>
      if inq then
        if Ascii.eqb c squote then shell_words q r false cur
        else match r with
             | String e r' =>
                 if quoted_escape q c e then shell_words q r' true (add_byte cur e)
                 else if quoted_forbidden q c then None
                 else shell_words q r true (add_byte cur c)
             | EmptyString => None
             end
      else if Ascii.eqb c squote then shell_words q r true (Some (default "" cur))
      else if Ascii.eqb c " " then
        match shell_words q r false None with
        | Some ws => Some (match cur with Some w => w :: ws | None => ws end)
        | None => None
        end
      else if Ascii.eqb c bslash then
        match r with
        | String e r' => if Ascii.eqb e newline then None else shell_words q r' false (add_byte cur e)
        | EmptyString => None
        end
      else if plain_byte c then shell_words q r false (add_byte cur c)
      else None
  end.

Definition read_words (dialect payload : string) : option (list string) :=
  shell_words (rule_of dialect) payload false None.

(** What the outer cmd.exe passes on: quotes toggle, [^] escapes outside quotes,
    a bare metacharacter outside quotes is an operator. *)
Fixpoint cmd_outer (inq : bool) (s : string) : option string :=
  match s with
  | EmptyString => Some EmptyString
  | String c r =>
      if Ascii.eqb c dquote then option_map (String c) (cmd_outer (negb inq) r)
      else if inq then option_map (String c) (cmd_outer inq r)
      else if Ascii.eqb c "^" then
        match r with
        | String e r' => option_map (String e) (cmd_outer inq r')
        | EmptyString => None
        end
      else if cmd_metachar c then None
      else option_map (String c) (cmd_outer inq r)
  end.

(** * Lemmas: quoting *)
Lemma replace_all_quote c v new :
  replace_all (String c v) "'" new =
    (if Ascii.eqb c squote then new else str1 c) +:+ replace_all v "'" new.
Proof.
  unfold replace_all, squote. cbn [replace_from]. unfold has_prefix. cbn [strip_prefix].
  rewrite (Ascii.eqb_sym c). by destruct (Ascii.eqb "'" c).
Qed.

Lemma add_byte_app cur c v :
  Some (default "" (add_byte cur c) +:+ v) = Some (default "" cur +:+ String c v).
Proof. unfold add_byte. simpl. by rewrite <- app_assoc_str. Qed.

(** Escaped text followed by the closing quote reads back as the value. *)
Lemma posix_escape_read v cur rest :
  shell_words PosixRule (replace_all v "'" "'\''" +:+ "'" +:+ rest) true (Some cur) =
  shell_words PosixRule rest false (Some (cur +:+ v)).
Proof.
  revert cur. induction v as [|c v IH]; intros cur; [by rewrite app_nil_r_str|].
  rewrite replace_all_quote. destruct (Ascii.eqb_spec c squote) as [->|Hne].
  - change (shell_words PosixRule (replace_all v "'" "'\''" +:+ "'" +:+ rest) true
      (Some (cur +:+ str1 squote)) = shell_words PosixRule rest false (Some (cur +:+ String squote v))).
    rewrite IH. by rewrite <- app_assoc_str.
  - assert (Hread : forall t, t <> "" -> shell_words PosixRule (String c t) true (Some cur) =
        shell_words PosixRule t true (Some (cur +:+ str1 c))).
    { intros [|e t] Ht; [done|]. cbn [shell_words]. apply Ascii.eqb_neq in Hne. rewrite Hne.
      unfold quoted_escape. by rewrite andb_false_r. }
    rewrite <- app_assoc_str. change (str1 c +:+ ?t) with (String c t).
    rewrite Hread, IH by (by destruct (replace_all v _ _)). by rewrite <- app_assoc_str.
Qed.

Lemma quoted_step q c t cur :
  Ascii.eqb c squote = false -> quoted_forbidden q c = false -> t <> "" ->
  (forall e t', t = String e t' -> quoted_escape q c e = false) ->
  shell_words q (String c t) true cur = shell_words q t true (add_byte cur c).
Proof.
  intros Hc Hf Ht He. destruct t as [|e t]; [done|]. cbn [shell_words].
  by rewrite Hc, (He e t eq_refl), Hf.
Qed.

Lemma app_quote_ne v rest : v +:+ "'" +:+ rest <> "".
Proof. by destruct v. Qed.

Lemma fish_escape_read v cur rest :
  shell_words FishRule (fish_escape v +:+ "'" +:+ rest) true (Some cur) =
  shell_words FishRule rest false (Some (cur +:+ v)).
Proof.
  revert cur. induction v as [|c v IH]; intros cur; [by rewrite app_nil_r_str|].
  cbn [fish_escape]. destruct (Ascii.eqb c bslash || Ascii.eqb c squote) eqn:E.
  - transitivity (shell_words FishRule (fish_escape v +:+ "'" +:+ rest) true (add_byte (Some cur) c)).
    + simpl. unfold quoted_escape. simpl. by rewrite E.
    + unfold add_byte. rewrite IH. by rewrite <- app_assoc_str.
  - apply orb_false_iff in E as [Eb Es].
    change (String c (fish_escape v) +:+ "'" +:+ rest) with (String c (fish_escape v +:+ "'" +:+ rest)).
    rewrite quoted_step; [| done | done | apply app_quote_ne |].
    + unfold add_byte. rewrite IH. by rewrite <- app_assoc_str.
    + intros e t _. unfold quoted_escape. by rewrite Eb.
Qed.

Lemma csh_escape_head v rest e t :
  csh_escape v +:+ "'" +:+ rest = String e t -> Ascii.eqb e "!" || Ascii.eqb e newline = false.
Proof.
  destruct v as [|c v]; simpl; [by intros [= <- _]|].
  destruct (Ascii.eqb c squote); [by intros [= <- _]|].
  destruct (Ascii.eqb c "!") eqn:E1; [by intros [= <- _]|].
  destruct (Ascii.eqb c newline) eqn:E2; [by intros [= <- _]|].
  intros [= <- _]. by rewrite E1, E2.
Qed.

Lemma csh_escape_read v cur rest :
  shell_words CshRule (csh_escape v +:+ "'" +:+ rest) true (Some cur) =
  shell_words CshRule rest false (Some (cur +:+ v)).
Proof.
  revert cur. induction v as [|c v IH]; intros cur; [by rewrite app_nil_r_str|].
  assert (Hcur : forall t, Some (cur +:+ str1 c) = Some t -> (cur +:+ str1 c) +:+ v = cur +:+ String c v)
    by (intros; by rewrite <- app_assoc_str).
  cbn [csh_escape]. rewrite <- app_assoc_str.
  destruct (Ascii.eqb_spec c squote) as [->|Hs].
  { transitivity (shell_words CshRule (csh_escape v +:+ "'" +:+ rest) true (Some (cur +:+ str1 squote)));
      [done|]. by rewrite IH, <- app_assoc_str. }
  destruct (Ascii.eqb_spec c "!") as [->|He].
  { transitivity (shell_words CshRule (csh_escape v +:+ "'" +:+ rest) true (Some (cur +:+ "!")));
      [done|]. by rewrite IH, <- app_assoc_str. }
  destruct (Ascii.eqb_spec c newline) as [->|Hn].
  { transitivity (shell_words CshRule (csh_escape v +:+ "'" +:+ rest) true (Some (cur +:+ str1 newline)));
      [done|]. by rewrite IH, <- app_assoc_str. }
  change (str1 c +:+ ?t) with (String c t).
  apply Ascii.eqb_neq in Hs, He, Hn.
  rewrite quoted_step; [| done | simpl; by rewrite He, Hn | apply app_quote_ne |].
  - unfold add_byte. by rewrite IH, <- app_assoc_str.
  - intros e t Ht. unfold quoted_escape. apply csh_escape_head in Ht. rewrite Ht.
    by rewrite andb_false_r.
Qed.

(** A quoted value, wherever it stands in a word, is read back as itself. *)
Lemma quote_read dialect v cur rest :
  shell_words (rule_of dialect) (quoteForDialect dialect v +:+ rest) false cur =
  shell_words (rule_of dialect) rest false (Some (default "" cur +:+ v)).
Proof.
  unfold rule_of, quoteForDialect.
  destruct (str_eq dialect LaunchFish); [|destruct (str_eq dialect LaunchCsh)].
  - unfold fishQuote. rewrite <- !app_assoc_str. apply (fish_escape_read v (default "" cur) rest).
  - unfold cshQuote. rewrite <- !app_assoc_str. apply (csh_escape_read v (default "" cur) rest).
  - unfold shellQuote. rewrite <- !app_assoc_str. apply (posix_escape_read v (default "" cur) rest).
Qed.

Lemma plain_read q w cur rest :
  w <> "" -> all_bytes plain_byte w = true ->
  shell_words q (w +:+ rest) false cur = shell_words q rest false (Some (default "" cur +:+ w)).
Proof.
  revert cur. induction w as [|c w IH]; intros cur; [done|]. intros _ Hw.
  rewrite all_bytes_cons in Hw.
  apply andb_true_iff in Hw as [Hc Hw].
  assert (Hstep : shell_words q (String c w +:+ rest) false cur =
                  shell_words q (w +:+ rest) false (add_byte cur c)).
  { cbn [shell_words String.append]. rewrite Hc.
    assert (Hne : forall d, plain_byte d = false -> Ascii.eqb c d = false).
    { intros d Hd. apply Ascii.eqb_neq. intros ->. congruence. }
    by rewrite !Hne. }
  rewrite Hstep. destruct w as [|d w]; [done|].
  rewrite IH by done. unfold add_byte. simpl. by rewrite <- app_assoc_str.
Qed.

Lemma space_read q rest w :
  shell_words q (" " +:+ rest) false (Some w) = option_map (cons w) (shell_words q rest false None).
Proof. simpl. by destruct (shell_words q rest false None). Qed.

(** A plain word before a space. *)
Lemma plain_word_read q w rest :
  w <> "" -> all_bytes plain_byte w = true ->
  shell_words q (w +:+ " " +:+ rest) false None = option_map (cons w) (shell_words q rest false None).
Proof. intros Hne Hp. rewrite plain_read by done. apply space_read. Qed.

Lemma join_quoted_read dialect (args : list string) :
  args <> [] -> read_words dialect (join " " (map (quoteForDialect dialect) args)) = Some args.
Proof.
  unfold read_words. induction args as [|a args IH]; [done|]. intros _.
  destruct args as [|b args].
  - simpl. rewrite <- (app_nil_r_str (quoteForDialect dialect a)), quote_read. done.
  - change (join " " (map (quoteForDialect dialect) (a :: b :: args))) with
      (quoteForDialect dialect a +:+ " " +:+ join " " (map (quoteForDialect dialect) (b :: args))).
    rewrite quote_read, space_read, IH by done. done.
Qed.

Lemma unix_plain i : one_of i unix_interpreters = true -> i <> "" /\ all_bytes plain_byte i = true.
Proof. intros H. apply one_of_spec in H. unfold unix_interpreters in H. set_unfold in H.
  destruct_or!; subst; done. Qed.

Lemma unixCommandPayload_words interp command login dialect :
  one_of interp unix_interpreters = true ->
  read_words dialect (unixCommandPayload interp command login dialect) =
    Some (interp :: (if login then ["-l"] else []) ++ ["-c"; command]).
Proof.
  intros Hi. destruct (unix_plain _ Hi) as [Hne Hp]. unfold read_words, unixCommandPayload.
  assert (Hc : shell_words (rule_of dialect) ("-c " +:+ quoteForDialect dialect command) false None =
               Some ["-c"; command]).
  { change ("-c " +:+ ?t) with ("-c" +:+ " " +:+ t). rewrite plain_word_read by done.
    rewrite <- (app_nil_r_str (quoteForDialect dialect command)), quote_read. done. }
  destruct login.
  - change (interp +:+ " -l" +:+ " -c " +:+ quoteForDialect dialect command) with
      (interp +:+ " " +:+ "-l" +:+ " " +:+ "-c " +:+ quoteForDialect dialect command).
    rewrite !plain_word_read by done. by rewrite Hc.
  - change (interp +:+ "" +:+ " -c " +:+ quoteForDialect dialect command) with
      (interp +:+ " " +:+ "-c " +:+ quoteForDialect dialect command).
    rewrite plain_word_read by done. by rewrite Hc.
Qed.

(** * Lemmas: cmd.exe *)

(** Every byte that is not part of a valid encoding becomes U+FFFD. *)
Fixpoint to_valid (skip : nat) (s : string) : string :=
  match s with
  | EmptyString => EmptyString
  | String c s' =>
      match skip with
      | S k => String c (to_valid k s')
      | O => let '(r, w) := decode_rune s in
             if (r =? rune_error)%N && (w =? 1)%nat then replacement +:+ to_valid 0 s'
             else String c (to_valid (w - 1) s')
      end
  end.

Fixpoint odd_quotes (s : string) : bool :=
  match s with
  | EmptyString => false
  | String c s' => xorb (Ascii.eqb c dquote) (odd_quotes s')
  end.

Lemma second_ok_cont a b : second_ok a b = true -> cont b = true.
Proof.
  unfold second_ok, cont, byte_in. repeat case_match; intros; bool_facts;
    rewrite ?andb_true_iff, ?N.leb_le in *; lia.
Qed.

Lemma decode_rune_tail c s r w :
  decode_rune (String c s) = (r, w) ->
  (r = rune_error /\ w = 1%nat) \/ all_bytes cont (take_bytes (w - 1) s) = true.
Proof.
  unfold decode_rune. intros H. repeat case_match; simplify_eq; auto; right; bool_facts;
    unfold all_bytes; simpl;
    repeat match goal with
    | H : second_ok _ _ = true |- _ => apply second_ok_cont in H; rewrite H
    | H : cont _ = true |- _ => rewrite H
    end; done.
Qed.

Lemma decode_rune_ascii c s : byte_in 0 127 c = true -> decode_rune (String c s) = (byte_code c, 1%nat).
Proof. unfold decode_rune. by intros ->. Qed.

Lemma byte_member_in c set : byte_member c set = true -> exists a b, set = a +:+ String c b.
Proof.
  intros H. apply exists_byte_spec in H as (a & x & b & -> & Hx). apply Ascii.eqb_eq in Hx as ->. eauto.
Qed.

Lemma cont_not_special c :
  cont c = true -> Ascii.eqb c dquote = false /\ Ascii.eqb c "^" = false /\ cmd_metachar c = false.
Proof. destruct c as [[] [] [] [] [] [] [] []]; vm_compute; auto. Qed.

Lemma metachar_ascii c : cmd_metachar c = true -> byte_in 0 127 c = true /\ Ascii.eqb c dquote = false.
Proof. destruct c as [[] [] [] [] [] [] [] []]; vm_compute; auto. Qed.

Lemma caret_metachar c : cmd_metachar c = false -> Ascii.eqb c "^" = false.
Proof. destruct c as [[] [] [] [] [] [] [] []]; vm_compute; auto. Qed.

Lemma cmd_outer_copy inq c s :
  Ascii.eqb c dquote = false -> (inq = false -> cmd_metachar c = false) ->
  cmd_outer inq (String c s) = option_map (String c) (cmd_outer inq s).
Proof.
  intros Hq Hm. cbn [cmd_outer]. rewrite Hq. destruct inq; [done|].
  specialize (Hm eq_refl). by rewrite (caret_metachar _ Hm), Hm.
Qed.

Lemma cmd_outer_prefix inq p s :
  all_bytes (fun c => negb (Ascii.eqb c dquote) && negb (cmd_metachar c)) p = true ->
  cmd_outer inq (p +:+ s) = option_map (String.append p) (cmd_outer inq s).
Proof.
  induction p as [|c p IH]; [simpl; by destruct (cmd_outer inq s)|]. intros Hp.
  rewrite all_bytes_cons in Hp. apply andb_true_iff in Hp as [Hc Hp].
  apply andb_true_iff in Hc as [Hq Hm]. apply negb_true_iff in Hq, Hm.
  change (String c p +:+ s) with (String c (p +:+ s)).
  rewrite cmd_outer_copy by done. rewrite IH by done. by destruct (cmd_outer inq s).
Qed.

Lemma option_map_app p q (o : option string) :
  option_map (String.append p) (option_map (String.append q) o) = option_map (String.append (p +:+ q)) o.
Proof. destruct o; simpl; [by rewrite app_assoc_str | done]. Qed.

Lemma cmd_outer_replacement inq s :
  cmd_outer inq (replacement +:+ s) = option_map (String.append replacement) (cmd_outer inq s).
Proof.
  unfold replacement, str1. cbn [String.append].
  rewrite !cmd_outer_copy by (vm_compute; auto). by destruct (cmd_outer inq s).
Qed.

(** Escaping is undone by the outer shell, byte for byte. *)
Lemma escape_cmd_read skip inq s rest :
  all_bytes cont (take_bytes skip s) = true ->
  cmd_outer inq (escape_cmd_loop skip inq s +:+ rest) =
  option_map (String.append (to_valid skip s)) (cmd_outer (xorb inq (odd_quotes s)) rest).
Proof.
  revert skip inq. induction s as [|c s IH]; intros skip inq Hs.
  { simpl. rewrite xorb_false_r. by destruct (cmd_outer inq rest). }
  assert (Hcons : forall k b o, option_map (String c) (option_map (String.append (to_valid k s)) o) =
      option_map (String.append (String c (to_valid k s))) (o : option string))
    by (intros ? ? []; done). specialize (Hcons).
  destruct skip as [|k].
  - cbn [escape_cmd_loop to_valid odd_quotes].
    destruct (decode_rune (String c s)) as [r w] eqn:Ed.
    destruct (Ascii.eqb_spec c dquote) as [->|Hq].
    { rewrite decode_rune_ascii in Ed by done. injection Ed as <- <-.
      change (String dquote (escape_cmd_loop 0 (negb inq) s) +:+ rest)
        with (String dquote (escape_cmd_loop 0 (negb inq) s +:+ rest)).
      cbn [cmd_outer]. rewrite IH by done. simpl.
      replace (xorb (negb inq) (odd_quotes s)) with (xorb inq (negb (odd_quotes s)))
        by (by destruct inq, (odd_quotes s)).
      by destruct (cmd_outer _ rest). }
    apply Ascii.eqb_neq in Hq as Hq'. rewrite xorb_false_l.
    destruct ((r =? rune_error)%N && (w =? 1)%nat) eqn:Ee.
    { rewrite <- app_assoc_str, cmd_outer_replacement, IH by done. by rewrite option_map_app. }
    destruct (negb inq && cmd_metachar c) eqn:Em.
    { apply andb_true_iff in Em as [Hi Hm]. apply negb_true_iff in Hi as ->.
      destruct (metachar_ascii _ Hm) as [Ha _]. rewrite decode_rune_ascii in Ed by done.
      injection Ed as <- <-.
      transitivity (option_map (String c) (cmd_outer false (escape_cmd_loop 0 false s +:+ rest))); [done|].
      rewrite IH by done. by destruct (cmd_outer _ rest). }
    assert (Ht : all_bytes cont (take_bytes (w - 1) s) = true).
    { destruct (decode_rune_tail _ _ _ _ Ed) as [[-> ->]|H]; [done | exact H]. }
    change (String c (escape_cmd_loop (w - 1) inq s) +:+ rest)
      with (String c (escape_cmd_loop (w - 1) inq s +:+ rest)).
    rewrite cmd_outer_copy; [| done | intros ->; by rewrite andb_true_l in Em].
    rewrite IH by done. by destruct (cmd_outer _ rest).
  - cbn [take_bytes] in Hs.
    rewrite all_bytes_cons in Hs. apply andb_true_iff in Hs as [Hc Hs].
    destruct (cont_not_special _ Hc) as (Hq & Hcar & Hm).
    cbn [escape_cmd_loop to_valid odd_quotes]. rewrite Hq, xorb_false_l.
    change (String c (escape_cmd_loop k inq s) +:+ rest) with (String c (escape_cmd_loop k inq s +:+ rest)).
    rewrite cmd_outer_copy by done. rewrite IH by done. by destruct (cmd_outer _ rest).
Qed.

Lemma even_quotes s : Nat.even (count s (str1 dquote)) = negb (odd_quotes s).
Proof.
  change (count s (str1 dquote)) with (count_from 0 s (str1 dquote)).
  induction s as [|c s IH]; [done|]. cbn [count_from odd_quotes]. unfold has_prefix.
  cbn [strip_prefix str1]. rewrite (Ascii.eqb_sym dquote c).
  destruct (Ascii.eqb c dquote); cbv iota.
  - change (String.length (str1 dquote) - 1)%nat with 0%nat.
    rewrite Nat.even_succ. unfold Nat.odd. cbn [str1] in IH. by rewrite IH.
  - rewrite xorb_false_l. exact IH.
Qed.

(** * Lemmas: plans *)
Lemma defaults_fields p :
  pInterpreter (defaults p) <> "" /\ pDialect (defaults p) <> "" /\ pLogin (defaults p) <> "" /\
  pTimeout (defaults p) <> 0 /\ pOutputLimit (defaults p) <> 0.
Proof.
  unfold defaults, str_eq; simpl. repeat case_match; bool_facts; repeat split; try done; lia.
Qed.

(** The fields that building the payload leaves alone. *)
Definition same_inputs (p q : CommandPlan) : Prop :=
  pCommand q = pCommand p /\ pInterpreter q = pInterpreter p /\ pDialect q = pDialect p /\
  pInput q = pInput p /\ pTimeout q = pTimeout p /\ pOutputLimit q = pOutputLimit p.

Lemma windows_payload_ok p build q :
  windows_payload p build = Ok q ->
  same_inputs p q /\ pLogin q = LoginInherit /\ build (pCommand p) (pDialect p) = Ok (pPayload q).
Proof.
  unfold windows_payload. intros H. result_inv. bool_facts. unfold str_eq in *. bool_facts.
  unfold set_payload, same_inputs; simpl. naive_solver.
Qed.

Lemma exec_clone_id e : exec_clone e = e.
Proof. by destruct e as [[]|]. Qed.

Lemma buildUnixPayload_ok p q :
  buildUnixPayload p = Ok q ->
  same_inputs p q /\ pLogin q <> LoginInherit /\
  one_of (pDialect p) [LaunchPOSIX; LaunchFish; LaunchCsh] = true /\
  pPayload q = unixCommandPayload (pInterpreter p) (pCommand p) (str_eq (pLogin q) LoginEnabled) (pDialect p).
Proof.
  unfold buildUnixPayload. intros H. result_inv. bool_facts. unfold same_inputs.
  destruct (str_eq (pLogin p) LoginInherit) eqn:E; simpl; repeat split; try done.
  intros Hl. rewrite Hl in E. done.
Qed.

Lemma buildPayload_ok p q :
  buildPayload p = Ok q ->
  same_inputs p q /\
  one_of (pLogin p) [LoginInherit; LoginEnabled; LoginDisabled] = true /\
  (pInterpreter p = InterpreterServer /\ pPayload q = pCommand p /\ pLogin q = LoginInherit \/
   one_of (pInterpreter p) unix_interpreters = true /\ buildUnixPayload p = Ok q \/
   pInterpreter p = InterpreterPowerShell /\ windows_payload p powershellCommandPayload = Ok q \/
   pInterpreter p = InterpreterPwsh /\ windows_payload p pwshCommandPayload = Ok q \/
   pInterpreter p = InterpreterCmd /\ windows_payload p cmdCommandPayload = Ok q).
Proof.
  unfold buildPayload. intros H. result_inv. bool_facts.
  destruct (str_eq (pInterpreter p) InterpreterServer) eqn:E0.
  { apply str_eq_spec in E0. result_inv. bool_facts. unfold same_inputs. simpl.
    match goal with H : str_eq (pLogin p) _ = true |- _ => apply str_eq_spec in H; rewrite H end.
    repeat split; auto 10. }
  destruct (one_of (pInterpreter p) unix_interpreters) eqn:E1.
  { destruct (buildUnixPayload_ok _ _ H) as (? & _). auto 10. }
  destruct (str_eq (pInterpreter p) InterpreterPowerShell) eqn:E2;
    [|destruct (str_eq (pInterpreter p) InterpreterPwsh) eqn:E3;
      [|destruct (str_eq (pInterpreter p) InterpreterCmd) eqn:E4; [|done]]];
    repeat match goal with H : str_eq _ _ = true |- _ => apply str_eq_spec in H end;
    destruct (windows_payload_ok _ _ _ H) as (? & ? & ?); auto 10.
Qed.

Section PlanLemmas.
Variable plan_digest : CommandPlan -> string.

Lemma PlanCommand_ok command options p :
  PlanCommand plan_digest command options = Ok p ->
  exists p0 p1, p0 = defaults (mkPlan command "" (oInterpreter options) (oDialect options)
      (oLogin options) (oStdin options) (oTimeout options) (oOutputLimit options) "") /\
    buildPayload p0 = Ok p1 /\ len (pPayload p1) <= MaxCommandBytes /\
    p = mkPlan (pCommand p1) (pPayload p1) (pInterpreter p1) (pDialect p1) (pLogin p1) (pInput p1)
          (pTimeout p1) (pOutputLimit p1) (plan_digest p1).
Proof.
  unfold PlanCommand. intros H. result_inv. eexists _, _. split; [done|]. split; [eassumption|].
  bool_facts. split; [lia | done].
Qed.

(** a plan for a Unix interpreter can be built only for a quoting dialect,
    and the outer shell of that dialect reads its payload as exactly the
    interpreter, an optional [-l], [-c] and the original command bytes: no
    command text can escape its quotes. *)
Theorem PlanCommand_payload_words command options p :
  PlanCommand plan_digest command options = Ok p ->
  one_of (pInterpreter p) unix_interpreters = true ->
  one_of (pDialect p) [LaunchPOSIX; LaunchFish; LaunchCsh] = true /\
  read_words (pDialect p) (pPayload p) =
    Some (pInterpreter p :: (if str_eq (pLogin p) LoginEnabled then ["-l"] else []) ++ ["-c"; command]).
Proof.
  intros H Hi. apply PlanCommand_ok in H as (p0 & p1 & Hp0 & Hb & _ & ->). simpl in *.
  apply buildPayload_ok in Hb as ((Hc & Hint & Hd & _) & _ & Hcase). rewrite Hint in Hi.
  assert (Hu : buildUnixPayload p0 = Ok p1).
  { destruct_or! Hcase; destruct Hcase as [He ?]; try done; rewrite He in Hi; done. }
  apply buildUnixPayload_ok in Hu as (_ & _ & Hdial & ->).
  rewrite Hint, Hd. split; [done|].
  rewrite unixCommandPayload_words by done. by subst p0.
Qed.

(** every accepted plan is within its bounds: the command is 1 to 64 KiB
    without NUL, the payload at most 64 KiB, the timeout positive, the output
    limit positive and at most 64 MiB, and the server interpreter sends the
    command bytes unchanged with inherited login. *)
Theorem PlanCommand_bounds command options p :
  PlanCommand plan_digest command options = Ok p ->
  1 <= len (pCommand p) <= MaxCommandBytes /\ contains_any (pCommand p) (str1 nul) = false /\
  len (pPayload p) <= MaxCommandBytes /\ len (pInput p) <= MaxCommandInputBytes /\
  0 < pTimeout p /\ 0 < pOutputLimit p <= MaxCommandOutput /\
  (pInterpreter p = InterpreterServer -> pPayload p = command /\ pLogin p = LoginInherit).
Proof.
  intros H. pose proof H as Hraw. unfold PlanCommand in Hraw. result_inv. bool_facts.
  apply PlanCommand_ok in H as (p0 & p1 & Hp0 & Hb & Hlen & ->). simpl in *.
  apply buildPayload_ok in Hb as ((Hc & Hint & Hd & Hin & Ht & Ho) & _ & Hcase).
  pose proof (defaults_fields (mkPlan command "" (oInterpreter options) (oDialect options)
    (oLogin options) (oStdin options) (oTimeout options) (oOutputLimit options) "")) as Hdef.
  rewrite <- Hp0 in Hdef. rewrite Hc, Hin, Ht, Ho, Hint.
  assert (Hcmd : pCommand p0 = command /\ pInput p0 = oStdin options) by (by subst p0).
  destruct Hcmd as [-> ->].
  assert (Hpos : 1 <= len command).
  { destruct command; [done|]. unfold len. simpl. lia. }
  assert (Hlims : 0 < pTimeout p0 /\ 0 < pOutputLimit p0 <= MaxCommandOutput).
  { destruct Hdef as (_ & _ & _ & Hdt & Hdo). subst p0. unfold defaults in *. simpl in *.
    unfold MaxCommandOutput, DefaultCommandOutput, DefaultCommandTimeout in *.
    repeat case_match; bool_facts; lia. }
  repeat split; try lia; try done.
  - destruct_or! Hcase; destruct Hcase as [He Hr]; [subst p0; by destruct Hr as [-> _]|..];
      congruence || (match goal with H : pInterpreter p0 = _ |- _ => rewrite H in He end; done).
  - destruct_or! Hcase; destruct Hcase as [He Hr]; [by destruct Hr|..];
      congruence || (match goal with H : pInterpreter p0 = _ |- _ => rewrite H in He end; done).
Qed.
End PlanLemmas.

Definition witness_digest (p : CommandPlan) : string := pPayload p.

Lemma PlanCommand_payload_words_witness :
  exists p, PlanCommand witness_digest "echo 'a b' \!" (mkOptions InterpreterTcsh LaunchCsh "" "" 0 0) = Ok p /\
  one_of (pDialect p) [LaunchPOSIX; LaunchFish; LaunchCsh] = true /\
  read_words (pDialect p) (pPayload p) =
    Some (pInterpreter p :: (if str_eq (pLogin p) LoginEnabled then ["-l"] else []) ++ ["-c"; "echo 'a b' \!"]).
Proof.
  eexists. split; [vm_compute; reflexivity|].
  apply (PlanCommand_payload_words witness_digest "echo 'a b' \!"
    (mkOptions InterpreterTcsh LaunchCsh "" "" 0 0)); vm_compute; reflexivity.
Defined.

Lemma PlanCommand_bounds_witness :
  exists p, PlanCommand witness_digest "uptime" (mkOptions "" "" "" "" 0 0) = Ok p /\
  0 < pTimeout p /\ pPayload p = "uptime".
Proof.
  eexists. split; [vm_compute; reflexivity|].
  destruct (PlanCommand_bounds witness_digest "uptime" (mkOptions "" "" "" "" 0 0) _ eq_refl)
    as (_ & _ & _ & _ & Ht & _ & Hs).
  split; [exact Ht | apply Hs; vm_compute; reflexivity].
Defined.

(** * Theorems: cmd.exe and PowerShell payloads *)

(** the cmd.exe adapter accepts only balanced quotes and no line break, NUL,
    [%] or [!], and the outer cmd.exe hands the inner one the command itself,
    up to the replacement of bytes that are not valid UTF-8 by U+FFFD. *)
Theorem cmdCommandPayload_outer command dialect payload :
  cmdCommandPayload command dialect = Ok payload ->
  dialect = LaunchCmd /\ len payload <= MaxCmdPayloadBytes /\
  contains_any command (String creturn (String newline (str1 nul))) = false /\
  contains_any command "%!" = false /\
  cmd_outer false payload =
    Some ("cmd.exe /d /s /c " +:+ str1 dquote +:+ to_valid 0 command +:+ str1 dquote).
Proof.
  unfold cmdCommandPayload, escapeCmdCommand. intros H. result_inv. bool_facts.
  match goal with H : str_eq _ _ = true |- _ => apply str_eq_spec in H end.
  match goal with H : Nat.even _ = true |- _ => rewrite even_quotes in H; apply negb_true_iff in H end.
  repeat split; try done.
  rewrite cmd_outer_prefix by (vm_compute; reflexivity).
  assert (Hq : forall x, cmd_outer false (str1 dquote +:+ x) =
    option_map (String.append (str1 dquote)) (cmd_outer true x))
    by (intros x; simpl; by destruct (cmd_outer true x)).
  rewrite Hq, escape_cmd_read by done.
  match goal with H : odd_quotes _ = false |- _ => rewrite H end.
  replace (cmd_outer (xorb true false) (str1 dquote)) with (Some (str1 dquote)) by done.
  done.
Qed.

Lemma cmdCommandPayload_outer_witness :
  exists payload, cmdCommandPayload "echo a&b" LaunchCmd = Ok payload /\
  cmd_outer false payload = Some ("cmd.exe /d /s /c " +:+ str1 dquote +:+ "echo a&b" +:+ str1 dquote).
Proof.
  eexists. split; [vm_compute; reflexivity|].
  apply (cmdCommandPayload_outer "echo a&b" LaunchCmd). vm_compute. reflexivity.
Defined.

Definition base64_byte (c : ascii) : bool := is_alpha c || is_digit c || byte_member c "+/=".

Lemma base64_char_ok n : (n < 64)%N -> base64_byte (base64_char n) = true.
Proof.
  intros H. assert (Hall : forallb (fun k => base64_byte (base64_char (N.of_nat k))) (seq 0 64) = true)
    by (vm_compute; reflexivity).
  rewrite forallb_forall in Hall. specialize (Hall (N.to_nat n)).
  rewrite N2Nat.id in Hall. apply Hall, in_seq. lia.
Qed.

Definition is_byte (n : N) : Prop := (n < 256)%N.

Lemma land_lt a m k : (m = N.ones k)%N -> (N.land a m < 2 ^ k)%N.
Proof. intros ->. rewrite N.land_ones. apply N.mod_lt. apply N.pow_nonzero. lia. Qed.

Lemma shiftr_lt a k m : (a < 2 ^ (k + m))%N -> (N.shiftr a k < 2 ^ m)%N.
Proof.
  intros H. rewrite N.shiftr_div_pow2. apply N.Div0.div_lt_upper_bound.
  by rewrite <- N.pow_add_r.
Qed.

Lemma base64_alphabet l : Forall is_byte l -> all_bytes base64_byte (base64 l) = true.
Proof.
  remember (length l) as n eqn:Hn. assert (Hle : (length l <= n)%nat) by lia. clear Hn.
  revert l Hle. induction n as [|n IH]; intros l Hle Hl.
  { destruct l; [done | simpl in Hle; lia]. }
  assert (Hq : forall a, is_byte a -> (N.shiftr a 2 < 64)%N) by (intros a Ha; by apply (shiftr_lt a 2 6)).
  assert (H4 : forall a, is_byte a -> (N.shiftr a 4 < 16)%N) by (intros a Ha; by apply (shiftr_lt a 4 4)).
  assert (H6 : forall a, is_byte a -> (N.shiftr a 6 < 4)%N) by (intros a Ha; by apply (shiftr_lt a 6 2)).
  assert (L3 : forall a, (N.land a 3 < 4)%N) by (intros; by apply (land_lt a 3 2)).
  assert (L15 : forall a, (N.land a 15 < 16)%N) by (intros; by apply (land_lt a 15 4)).
  assert (L63 : forall a, (N.land a 63 < 64)%N) by (intros; by apply (land_lt a 63 6)).
  destruct l as [|a [|b [|c l]]]; [done | | |]; decompose_Forall_hyps; simpl base64;
    rewrite !all_bytes_cons, !base64_char_ok;
    repeat match goal with
    | H : is_byte ?x |- _ => pose proof (Hq _ H); pose proof (H4 _ H); pose proof (H6 _ H);
        pose proof (L3 x); pose proof (L15 x); pose proof (L63 x); clear H
    end; try lia; try done.
  simpl. apply IH; [simpl in Hle; lia | done].
Qed.

Lemma utf16le_bytes skip s : Forall is_byte (utf16le skip s).
Proof.
  revert skip. induction s as [|c s IH]; intros skip; simpl; [constructor|].
  destruct skip; [|apply IH]. destruct (decode_rune (String c s)) as [r w] eqn:Ed.
  apply Forall_app. split; [|apply IH].
  assert (Hr : (r < 1114112 + 1048576)%N).
  { unfold decode_rune in Ed. repeat case_match; simplify_eq; unfold rune_error, low6 in *; bool_facts;
      repeat match goal with
      | |- context [N.land ?x 7] => pose proof (land_lt x 7 3 eq_refl); generalize dependent (N.land x 7)
      | |- context [N.land ?x 15] => pose proof (land_lt x 15 4 eq_refl); generalize dependent (N.land x 15)
      | |- context [N.land ?x 31] => pose proof (land_lt x 31 5 eq_refl); generalize dependent (N.land x 31)
      | |- context [N.land ?x 63] => pose proof (land_lt x 63 6 eq_refl); generalize dependent (N.land x 63)
      | H : byte_in 0 127 c = true |- _ => unfold byte_in in H; apply andb_true_iff in H as [_ H]; apply N.leb_le in H
      end; intros; simpl in *; lia. }
  assert (Hu : Forall (fun u => u < 65536)%N (utf16_units r)).
  { unfold utf16_units. destruct (r <? 65536)%N eqn:E1; [apply N.ltb_lt in E1|apply N.ltb_ge in E1].
    - destruct (_ && _); repeat constructor; unfold rune_error; lia.
    - assert ((r - 65536) / 1024 < 2048)%N by (apply N.Div0.div_lt_upper_bound; lia).
      pose proof (N.mod_lt (r - 65536) 1024 ltac:(lia)). repeat constructor; lia. }
  induction Hu as [|u l Hu Hl IHu]; simpl; [constructor|]. repeat constructor; [| |apply IHu].
  - by apply (land_lt u 255 8).
  - by apply (shiftr_lt u 8 8).
Qed.

(** The host and the exit suffix that a PowerShell payload may have. *)
Definition ps_hosts : list (string * string) :=
  [("powershell.exe", ""); ("& powershell.exe", "; exit $LASTEXITCODE");
   ("pwsh.exe", ""); ("& pwsh", "; exit $LASTEXITCODE"); ("pwsh", "")].

Definition ps_shape (pre arg post : string) : string := pre +:+ ps_flags +:+ arg +:+ post.

Lemma ps_shape_nil pre arg : pre +:+ ps_flags +:+ arg = ps_shape pre arg "".
Proof. unfold ps_shape. by rewrite app_nil_r_str. Qed.

Lemma ps_hosts_in i p : ps_hosts !! i = Some p -> p ∈ ps_hosts.
Proof. apply list_elem_of_lookup_2. Qed.

Lemma powershell_shape command dialect payload :
  powershellCommandPayload command dialect = Ok payload ->
  exists host, host ∈ ps_hosts /\ len payload <= powershell_limit dialect /\
    payload = ps_shape host.1 (encodePowerShellCommand (wrapPowerShellCommand command)) host.2.
Proof.
  unfold powershellCommandPayload. generalize (encodePowerShellCommand (wrapPowerShellCommand command)).
  intros a H. result_inv. bool_facts. destruct (str_eq dialect LaunchCmd).
  - exists ("powershell.exe", ""). split; [by apply (ps_hosts_in 0)|]. split; [assumption|].
    apply ps_shape_nil.
  - exists ("& powershell.exe", "; exit $LASTEXITCODE"). split; [by apply (ps_hosts_in 1)|].
    split; [assumption|reflexivity].
Qed.

Lemma pwsh_shape command dialect payload :
  pwshCommandPayload command dialect = Ok payload ->
  exists host, host ∈ ps_hosts /\ len payload <= powershell_limit dialect /\
    payload = ps_shape host.1 (encodePowerShellCommand (wrapPowerShellCommand command)) host.2.
Proof.
  unfold pwshCommandPayload. generalize (encodePowerShellCommand (wrapPowerShellCommand command)).
  intros a H. result_inv. bool_facts.
  destruct (str_eq dialect LaunchCmd); [|destruct (str_eq dialect LaunchPowerShell)].
  - exists ("pwsh.exe", ""). split; [by apply (ps_hosts_in 2)|]. split; [assumption|]. apply ps_shape_nil.
  - exists ("& pwsh", "; exit $LASTEXITCODE"). split; [by apply (ps_hosts_in 3)|].
    split; [assumption|reflexivity].
  - exists ("pwsh", ""). split; [by apply (ps_hosts_in 4)|]. split; [assumption|]. apply ps_shape_nil.
Qed.

(** the argument of [-EncodedCommand] is plain base64 for every command, so
    a PowerShell payload never exposes a command byte to the outer shell. *)
Theorem powershell_payload_encoded command dialect payload :
  powershellCommandPayload command dialect = Ok payload \/ pwshCommandPayload command dialect = Ok payload ->
  exists host arg, host ∈ ps_hosts /\ payload = ps_shape host.1 arg host.2 /\
    all_bytes base64_byte arg = true /\ len payload <= powershell_limit dialect.
Proof.
  intros H. assert (Hs : exists host, host ∈ ps_hosts /\ len payload <= powershell_limit dialect /\
    payload = ps_shape host.1 (encodePowerShellCommand (wrapPowerShellCommand command)) host.2)
    by (destruct H; [by apply powershell_shape | by apply pwsh_shape]).
  destruct Hs as (host & Hin & Hlen & Heq). exists host, (encodePowerShellCommand (wrapPowerShellCommand command)).
  repeat split; try assumption. apply base64_alphabet, utf16le_bytes.
Qed.

Lemma powershell_payload_encoded_witness :
  exists payload, powershellCommandPayload "dir" LaunchPowerShell = Ok payload /\
  exists host arg, host ∈ ps_hosts /\ payload = ps_shape host.1 arg host.2 /\
    all_bytes base64_byte arg = true /\ len payload <= powershell_limit LaunchPowerShell.
Proof.
  eexists. split; [vm_compute; reflexivity|].
  apply (powershell_payload_encoded "dir"). left. vm_compute. reflexivity.
Defined.

(** * Theorems: inheritance of execution configurations *)

Fixpoint first_nonempty (l : list string) : string :=
  match l with
  | [] => ""
  | s :: l' => if str_eq s "" then first_nonempty l' else s
  end.

(** The configurations that are present, from highest to lowest priority. *)
Definition present (layers : list (option ExecutionConfig)) : list ExecutionConfig := omap id layers.

(** The login mode [v] of [above ++ l :: below] is the one of layer [l]. *)
Definition login_from (interp : string) (v : bool) (ls : list ExecutionConfig) : Prop :=
  exists above l below, ls = above ++ l :: below /\ Login l = Some v /\
    Forall (fun a => Login a = None /\ Interpreter a ∈ [""; interp]) above /\
    first_nonempty (map Interpreter (l :: below)) ∈ [""; interp].

Lemma unit_ok (m : result exec_error unit) u : m = Ok u -> m = Ok tt.
Proof. by destruct u. Qed.

Lemma ResolveExecution_ok child parent r :
  ResolveExecution child parent = Ok r ->
  validate r = Ok tt /\
  r = match child, parent with
      | None, _ => parent
      | _, None => child
      | Some c, Some p => Some (merge_execution c p)
      end.
Proof.
  assert (Hc : forall e, exec_clone e = e) by (by intros [[]|]).
  unfold ResolveExecution. rewrite !Hc.
  destruct child as [c|], parent as [p|]; intros H; result_inv; eauto using unit_ok.
Qed.

Lemma merge_dialect c p ls :
  LaunchDialect p = first_nonempty ls ->
  LaunchDialect (merge_execution c p) = first_nonempty (LaunchDialect c :: ls).
Proof. intros Hp. unfold merge_execution. simpl. rewrite <- Hp. repeat case_match; done. Qed.

Lemma merge_interpreter c p ls :
  Interpreter p = first_nonempty ls ->
  Interpreter (merge_execution c p) = first_nonempty (Interpreter c :: ls).
Proof.
  intros Hp. unfold merge_execution. simpl. rewrite <- Hp.
  destruct (str_eq (Interpreter c) ""); simpl; repeat case_match; done.
Qed.

(** A merged login mode is the child's own, or the parent's under an unchanged
    interpreter. *)
Lemma merge_login c p v :
  Login (merge_execution c p) = Some v ->
  Login c = Some v \/
  Login c = None /\ Login p = Some v /\
  (Interpreter c = "" \/ Interpreter p = "" \/ Interpreter c = Interpreter p).
Proof.
  unfold merge_execution. destruct (str_eq (Interpreter c) "") eqn:Ec; simpl.
  { apply str_eq_spec in Ec. destruct (Login c) eqn:El; simpl; rewrite ?El; auto. }
  apply str_eq_false in Ec.
  destruct (str_eq (Interpreter c) InterpreterServer || _) eqn:Es; simpl; [by left|].
  intros H. destruct (Login c) eqn:El; [by left|]. right. repeat split; try done.
  apply orb_false_iff in Es as [_ Es]. right. apply andb_false_iff in Es as [Es|Es].
  - left. apply negb_false_iff in Es. by apply str_eq_spec.
  - apply negb_false_iff, str_eq_spec in Es. unfold EffectiveInterpreter in Es.
    destruct (str_eq (Interpreter c) "") eqn:E; [by apply str_eq_spec in E|].
    destruct (str_eq (Interpreter p) "") eqn:E'; [left; by apply str_eq_spec|by right].
Qed.

Lemma first_nonempty_cons s ls i :
  first_nonempty (s :: ls) = i -> s ∈ [""; i] /\ (s = "" -> first_nonempty ls = i).
Proof.
  simpl. destruct (str_eq s "") eqn:E.
  - apply str_eq_spec in E as ->. intros ->. split; [left|done].
  - apply str_eq_false in E. intros ->. split; [right; left|done].
Qed.

Lemma login_from_weaken i j v ls :
  login_from i v ls -> (i = "" \/ i = j) -> login_from j v ls.
Proof.
  intros (above & l & below & -> & Hl & Ha & Hf) Hij.
  assert (Hmono : forall x, x ∈ [""; i] -> x ∈ [""; j]).
  { intros x Hx. set_unfold. destruct Hij as [->| ->]; naive_solver. }
  exists above, l, below. repeat split; try done; [|by apply Hmono].
  eapply Forall_impl; [exact Ha|]. intros a [? Hin]. split; [done|by apply Hmono].
Qed.

Lemma resolve_layers_ok layers r :
  resolve_layers layers = Ok r ->
  match r with
  | None => present layers = []
  | Some c =>
      Interpreter c = first_nonempty (map Interpreter (present layers)) /\
      LaunchDialect c = first_nonempty (map LaunchDialect (present layers)) /\
      validate (Some c) = Ok tt /\
      forall v, Login c = Some v -> login_from (Interpreter c) v (present layers)
  end.
Proof.
  revert r. induction layers as [|layer layers IH]; intros r; simpl.
  { by intros [= <-]. }
  intros H. apply result_bind_ok in H as (low & Hlow & H). apply IH in Hlow.
  apply ResolveExecution_ok in H as [Hv Hr]. unfold present in *. simpl.
  destruct layer as [c|], low as [p|]; subst r; simpl in *; try done.
  - destruct Hlow as (Hi & Hd & _ & Hl).
    pose proof (merge_interpreter c p _ Hi) as Hmi. pose proof (merge_dialect c p _ Hd) as Hmd.
    split; [exact Hmi|]. split; [exact Hmd|]. split; [exact Hv|]. intros v Hlog.
    destruct (first_nonempty_cons _ _ _ (eq_sym Hmi)) as [Hcin Hempty].
    destruct (merge_login _ _ _ Hlog) as [Hc | (Hc & Hp & Hsame)].
    + exists [], c, (omap id layers). split_and!; try done; try by constructor. rewrite Hmi. right. left.
    + assert (Hpm : Interpreter p = "" \/ Interpreter p = Interpreter (merge_execution c p)).
      { rewrite Hmi. simpl. destruct (str_eq (Interpreter c) "") eqn:E; [right; done|].
        apply str_eq_false in E. destruct_or!; auto; done. }
      destruct (login_from_weaken _ _ _ _ (Hl v Hp) Hpm) as (above & l & below & Heq & Hll & Ha & Hf).
      exists (c :: above), l, below. split_and!; try done; [by rewrite Heq|by constructor].
  - assert (Hone : forall s, s = first_nonempty [s]).
    { intros s. simpl. destruct (str_eq s "") eqn:E; [by apply str_eq_spec|done]. }
    rewrite Hlow. split; [apply Hone|]. split; [apply Hone|]. split; [done|].
    intros v Hl. exists [], c, []. split_and!; try done; try by constructor.
    simpl map. rewrite <- Hone. right. left.
Qed.

(** configuration layers resolve by priority: the effective interpreter and
    dialect are the first non-empty ones, the result passes validation, a login
    mode comes from the highest layer that sets one and never crosses a change
    of interpreter, and the server interpreter never has one. *)
Theorem EffectiveExecution_priority layers c :
  EffectiveExecution layers = Ok (Some c) ->
  Interpreter c = first_nonempty (map Interpreter (present layers)) /\
  LaunchDialect c = first_nonempty (map LaunchDialect (present layers)) /\
  validate (Some c) = Ok tt /\
  (forall v, Login c = Some v ->
     login_from (Interpreter c) v (present layers) /\
     EffectiveInterpreter (Some c) <> InterpreterServer).
Proof.
  unfold EffectiveExecution. intros H. apply result_bind_ok in H as (r & Hr & H).
  apply bind_reject_ok in H as [Hs H]. apply Ok_inj in H. subst r.
  apply resolve_layers_ok in Hr as (Hi & Hd & Hv & Hl). repeat split; try done; [by apply Hl|].
  intros He. apply str_eq_spec in He. rewrite He in Hs. simpl in Hs.
  apply bool_decide_eq_false in Hs. apply Hs. congruence.
Qed.

Lemma EffectiveExecution_priority_witness :
  EffectiveExecution [Some (mkExec "" LaunchFish None); None; Some (mkExec InterpreterZsh "" (Some true));
                      Some (mkExec InterpreterBash LaunchPOSIX None)]
    = Ok (Some (mkExec InterpreterZsh LaunchFish (Some true))) /\
  login_from InterpreterZsh true
    [mkExec "" LaunchFish None; mkExec InterpreterZsh "" (Some true); mkExec InterpreterBash LaunchPOSIX None].
Proof.
  split; [vm_compute; reflexivity|].
  refine (proj1 (proj2 (proj2 (proj2 (EffectiveExecution_priority
    [Some (mkExec "" LaunchFish None); None; Some (mkExec InterpreterZsh "" (Some true));
     Some (mkExec InterpreterBash LaunchPOSIX None)]
    (mkExec InterpreterZsh LaunchFish (Some true)) _))) true _)); vm_compute; reflexivity.
Defined.

(** * Theorems: script execution *)

(** The interpreter choice in order of precedence. *)
Definition script_sources (step settings node global : option ExecutionConfig) (data : string)
    : list string :=
  let own c := match c with Some e => Interpreter e | None => "" end in
  [own step; own settings; sInterpreter (ParseShebang data);
   default "" (script_candidate node); default "" (script_candidate global)].

Lemma resolve_explicit_ok e i :
  resolveExplicitScriptInterpreter e = Ok i ->
  i = (match e with Some c => Interpreter c | None => "" end) /\ i <> InterpreterServer.
Proof.
  unfold resolveExplicitScriptInterpreter. destruct e as [c|].
  - destruct (str_eq (Interpreter c) "") eqn:E; intros H; result_inv.
    + apply str_eq_spec in E. by rewrite E.
    + split; [done|]. by apply str_eq_false.
  - intros H. by result_inv.
Qed.

Lemma shebang_interpreter data :
  HasShebang (ParseShebang data) = false -> sInterpreter (ParseShebang data) = "".
Proof.
  unfold ParseShebang. destruct (str_eq data ""); [done|].
  destruct (negb _); [done|]. destruct (shebang_lookup _) as [[]|]; done.
Qed.

Lemma shebang_lookup_some body i d :
  shebang_lookup body = Some (i, d) ->
  i ∈ unix_interpreters /\ d ∈ [LaunchPOSIX; LaunchFish; LaunchCsh].
Proof.
  unfold shebang_lookup, unix_interpreters. intros H.
  repeat match type of H with context [if ?b then _ else _] => destruct b end;
    inversion H; subst; set_unfold; split; tauto.
Qed.

Lemma shebang_supported data :
  HasShebang (ParseShebang data) = true ->
  Supported (ParseShebang data) = true /\ sInterpreter (ParseShebang data) ∈ unix_interpreters \/
  Supported (ParseShebang data) = false /\ sInterpreter (ParseShebang data) = "".
Proof.
  unfold ParseShebang. destruct (str_eq data ""); [done|].
  destruct (negb _); [done|]. destruct (shebang_lookup _) as [[]|] eqn:E; [|by right].
  apply shebang_lookup_some in E as [? _]. intros _. by left.
Qed.

Lemma first_nonempty_default s ls : s <> "" -> first_nonempty (s :: ls) = s.
Proof. intros H. simpl. apply str_eq_false in H. by rewrite H. Qed.

Lemma fallback_spec node global :
  resolveFallbackScriptInterpreter node global =
  first_nonempty [default "" (script_candidate node); default "" (script_candidate global)].
Proof.
  unfold resolveFallbackScriptInterpreter, script_candidate.
  destruct node as [[n ? ?]|], global as [[g ? ?]|]; simpl; repeat case_match; simplify_eq; try done;
    bool_facts; unfold str_eq in *; bool_facts; naive_solver.
Qed.

Lemma determineScriptInterpreter_ok step settings node global data i :
  determineScriptInterpreter step settings node global data = Ok i ->
  i <> "" /\ has_prefix data bom = false /\
  i = first_nonempty (script_sources step settings node global data).
Proof.
  unfold determineScriptInterpreter, script_sources. intros H. result_inv.
  match goal with H : resolveExplicitScriptInterpreter step = Ok ?x |- _ => rename x into s1 end.
  match goal with H : resolveExplicitScriptInterpreter settings = Ok ?x |- _ => rename x into s2 end.
  repeat match goal with H : resolveExplicitScriptInterpreter _ = Ok _ |- _ =>
    apply resolve_explicit_ok in H as [<- ?] end.
  rewrite fallback_spec in H.
  destruct (str_eq s1 "") eqn:E1; simpl in H; [apply str_eq_spec in E1|apply str_eq_false in E1].
  2:{ result_inv. split_and!; try done. by rewrite first_nonempty_default. }
  destruct (str_eq s2 "") eqn:E2; simpl in H; [apply str_eq_spec in E2|apply str_eq_false in E2].
  2:{ result_inv. split_and!; try done. simpl. by apply str_eq_false in E2 as ->. }
  subst s1 s2.
  cbn [first_nonempty]. replace (str_eq "" "") with true by done.
  destruct (HasShebang (ParseShebang data)) eqn:Es.
  - result_inv. destruct (shebang_supported _ Es) as [[Hs Hin]|[Hs _]].
    + assert (sInterpreter (ParseShebang data) <> "") as Hne by
        (intros He; rewrite He in Hin; unfold unix_interpreters in Hin; set_unfold; by destruct_or!).
      split_and!; try done. by apply str_eq_false in Hne as ->.
    + match goal with H : _ && _ = false |- _ => rewrite Hs in H; done end.
  - rewrite (shebang_interpreter _ Es). replace (str_eq "" "") with true by done.
    cbn [first_nonempty] in H. destruct (negb _) eqn:En in H; [|done].
    apply negb_true_iff in En. result_inv. split_and!; try done. by apply str_eq_false.
Qed.

Section ScriptTheorems.
Variable plan_digest : CommandPlan -> string.

(** a resolved script execution names a Unix interpreter chosen by precedence
    (step, settings, shebang, node, global), a quoting dialect, and an explicit
    login mode; login shells are only bash, zsh and fish. A script with a UTF-8
    BOM is refused. *)
Theorem ResolveScriptExecution_ok step settings node global data r :
  ResolveScriptExecution plan_digest step settings node global data = Ok r ->
  has_prefix data bom = false /\
  exists c, r = Some c /\
    Interpreter c = first_nonempty (script_sources step settings node global data) /\
    one_of (Interpreter c) unix_interpreters = true /\
    one_of (LaunchDialect c) [LaunchPOSIX; LaunchFish; LaunchCsh] = true /\
    Login c <> None /\
    (Login c = Some true -> Interpreter c ∈ [InterpreterBash; InterpreterZsh; InterpreterFish]).
Proof.
  unfold ResolveScriptExecution. intros H.
  apply result_bind_ok in H as (target & Ht & H). apply result_bind_ok in H as (res & Hres & H).
  apply determineScriptInterpreter_ok in Ht as (Hne & Hbom & Htarget). split; [done|].
  unfold validateResolvedScriptExecution in H. apply result_bind_ok in H as (u & Hv & H).
  destruct res as [c|]; [|done]. apply bind_reject_ok in H as [Hi H]. apply negb_false_iff in Hi.
  apply EffectiveExecution_priority in Hres as (Hint & _).
  destruct (PlanCommand plan_digest ":" (command_options (Some c))) as [plan|] eqn:Ep; [|done].
  apply Ok_inj in H. subst r. eexists. split; [done|].
  cbn [Interpreter LaunchDialect Login].
  assert (HIc : Interpreter c = target).
  { rewrite Hint. unfold present. destruct step as [s|]; simpl; by apply str_eq_false in Hne as ->. }
  assert (Hns : str_eq (Interpreter c) "" = false /\ str_eq (Interpreter c) InterpreterServer = false).
  { apply one_of_spec in Hi. unfold unix_interpreters in Hi. set_unfold.
    destruct_or!; rewrite Hi; done. }
  destruct Hns as [Hn1 Hn2].
  apply PlanCommand_ok in Ep as (p0 & p1 & Hp0 & Hb & _ & Hplan).
  assert (Hopts : oInterpreter (command_options (Some c)) = Interpreter c /\
                  oDialect (command_options (Some c)) = LaunchDialect c).
  { unfold command_options, EffectiveInterpreter. rewrite Hn1. simpl. by rewrite Hn2. }
  destruct Hopts as [Ho1 Ho2].
  assert (Hp0i : pInterpreter p0 = Interpreter c).
  { rewrite Hp0. unfold defaults. cbn [pInterpreter]. by rewrite Ho1, Hn1. }
  assert (Hp0d : pDialect p0 = if str_eq (LaunchDialect c) "" then LaunchUnknown else LaunchDialect c).
  { rewrite Hp0. unfold defaults. cbn [pDialect]. by rewrite Ho2. }
  apply buildPayload_ok in Hb as (_ & _ & Hcase).
  assert (Hu : buildUnixPayload p0 = Ok p1).
  { rewrite Hp0i in Hcase. destruct_or! Hcase; destruct Hcase as [He ?]; try done;
      rewrite He in Hi; done. }
  unfold buildUnixPayload in Hu. apply bind_reject_ok in Hu as [Hd Hu].
  apply bind_reject_ok in Hu as [Hlog Hu]. apply Ok_inj in Hu.
  apply negb_false_iff in Hd. rewrite Hp0d in Hd. rewrite Hp0i in Hlog.
  split; [congruence|]. split; [done|]. split; [|split; [done|]].
  - destruct (str_eq (LaunchDialect c) "") eqn:E; [done|exact Hd].
  - intros [= Hl]. apply str_eq_spec in Hl. rewrite Hplan, <- Hu in Hl. cbn [pLogin set_payload] in Hl.
    destruct (str_eq (pLogin p0) LoginInherit) eqn:Ei.
    { cbn [pLogin set_login] in Hl. discriminate Hl. }
    rewrite Hl in Hlog. replace (str_eq LoginEnabled LoginEnabled) with true in Hlog by done.
    rewrite andb_true_r in Hlog. apply one_of_spec in Hi. unfold unix_interpreters in Hi. set_unfold in Hi.
    destruct_or! Hi; rewrite Hi in *; try discriminate Hlog; set_unfold; auto.
Qed.
End ScriptTheorems.

Definition witness_script : string := "#!/usr/bin/env zsh" +:+ nl_str +:+ "echo hi".

Lemma ResolveScriptExecution_ok_witness :
  let r := Some (mkExec InterpreterZsh LaunchPOSIX (Some false)) in
  ResolveScriptExecution witness_digest None None (Some (mkExec InterpreterBash "" None))
    (Some (mkExec "" LaunchPOSIX None)) witness_script = Ok r /\
  exists c, r = Some c /\ Login c <> None /\ has_prefix witness_script bom = false.
Proof.
  intros r.
  assert (H : ResolveScriptExecution witness_digest None None (Some (mkExec InterpreterBash "" None))
    (Some (mkExec "" LaunchPOSIX None)) witness_script = Ok r) by (vm_compute; reflexivity).
  split; [exact H|].
  destruct (ResolveScriptExecution_ok _ _ _ _ _ _ _ H) as (Hb & c & Hc & _ & _ & _ & Hl & _).
  exists c. repeat split; assumption.
Defined.

(** * Theorems: script arguments *)

(** The words that precede the arguments in a script payload. *)
Definition script_prefix (interp : string) (login : bool) : list string :=
  if one_of interp ["" ; InterpreterBash] then "bash" :: (if login then ["-l"] else []) ++ ["-s"; "--"]
  else if str_eq interp InterpreterSh then ["sh"; "-s"; "--"]
  else if str_eq interp InterpreterZsh then "zsh" :: (if login then ["-l"] else []) ++ ["-s"; "--"]
  else if str_eq interp InterpreterCsh then ["csh"; "-s"; "-b"]
  else ["tcsh"; "-s"; "-b"].

(** Plain words followed by quoted arguments. *)
Lemma prefix_read dialect (ws args : list string) :
  Forall (fun w => w <> "" /\ all_bytes plain_byte w = true) ws -> args <> [] ->
  read_words dialect (foldr (fun w acc => w +:+ " " +:+ acc)
                        (join " " (map (quoteForDialect dialect) args)) ws) = Some (ws ++ args).
Proof.
  intros Hws Hargs. induction Hws as [|w ws [Hne Hp] Hws IH]; [by apply join_quoted_read|].
  unfold read_words in *. cbn [foldr]. rewrite plain_word_read by done. by rewrite IH.
Qed.

(** One adapter: its literal prefix is the printed list of its words. *)
Lemma script_adapter_read dialect lit ws args :
  (forall x, lit +:+ x = foldr (fun w acc => w +:+ " " +:+ acc) x ws) ->
  Forall (fun w => w <> "" /\ all_bytes plain_byte w = true) ws -> args <> [] ->
  read_words dialect (lit +:+ join " " (map (quoteForDialect dialect) args)) = Some (ws ++ args).
Proof. intros Hlit Hws Hargs. rewrite Hlit. by apply prefix_read. Qed.

Ltac script_adapter := apply script_adapter_read; [intros; reflexivity | repeat constructor; done | done].

Lemma script_args_read interp login dialect args payload :
  args <> [] -> interp <> InterpreterFish ->
  script_args_payload interp login dialect args = Ok payload ->
  read_words dialect payload = Some (script_prefix interp login ++ args).
Proof.
  intros Hne Hnf. unfold script_args_payload, script_prefix. intros H.
  destruct (one_of interp ["" ; InterpreterBash]).
  { apply Ok_inj in H; subst payload. destruct login; script_adapter. }
  destruct (str_eq interp InterpreterSh); [apply Ok_inj in H; subst payload; script_adapter|].
  destruct (str_eq interp InterpreterZsh).
  { apply Ok_inj in H; subst payload. destruct login; script_adapter. }
  apply str_eq_false in Hnf. rewrite Hnf in H.
  destruct (str_eq interp InterpreterCsh); [apply Ok_inj in H; subst payload; script_adapter|].
  destruct (str_eq interp InterpreterTcsh); [apply Ok_inj in H; subst payload; script_adapter|done].
Qed.

Lemma fish_quoteForDialect s : fishQuote s = quoteForDialect LaunchFish s.
Proof. done. Qed.

(** script arguments cannot leave their quotes: a payload with arguments is
    read by the outer shell as the interpreter's fixed words followed by exactly
    the given arguments (for fish, one [-c] command that fish itself reads as
    [source -] and the arguments), it is at most 64 KiB and no argument holds a
    NUL. *)
Theorem formatScriptPayload_words interp login dialect args payload :
  formatScriptPayload interp login dialect args = Ok payload -> args <> [] ->
  len payload <= MaxCommandBytes /\ Forall (fun a => contains_any a (str1 nul) = false) args /\
  if str_eq interp InterpreterFish
  then exists inner, read_words dialect payload =
         Some ("fish" :: (if login then ["-l"] else []) ++ ["-c"; inner]) /\
       read_words LaunchFish inner = Some ("source" :: "-" :: args)
  else read_words dialect payload = Some (script_prefix interp login ++ args).
Proof.
  unfold formatScriptPayload, validateScriptArgs. intros H Hne. result_inv. bool_facts.
  split; [lia|]. split.
  { apply Forall_forall. intros a Ha. destruct (contains_any a (str1 nul)) eqn:E; [|done].
    match goal with H : existsb _ args = false |- _ => rename H into Hx end.
    apply not_true_iff_false in Hx. contradict Hx. apply existsb_exists. exists a.
    by rewrite <- list_elem_of_In. }
  match goal with H : (match args with [] => _ | _ => _ end) = Ok _ |- _ => rename H into Hp end.
  destruct args as [|a0 args0]; [done|]. remember (a0 :: args0) as args eqn:Hargs.
  destruct (str_eq interp InterpreterFish) eqn:Ef.
  - apply str_eq_spec in Ef. subst interp. cbn [script_args_payload] in Hp. unfold script_args_payload in Hp.
    change (Ok (unixCommandPayload InterpreterFish ("source - " +:+ join " " (map fishQuote args))
       login dialect) = @Ok exec_error string payload) in Hp. apply Ok_inj in Hp. subst payload.
    exists ("source - " +:+ join " " (map fishQuote args)). split.
    + by apply unixCommandPayload_words.
    + change (map fishQuote args) with (map (quoteForDialect LaunchFish) args).
      apply (script_adapter_read LaunchFish "source - " ["source"; "-"]); [done | repeat constructor; done | done].
  - apply str_eq_false in Ef. by apply script_args_read.
Qed.

Lemma formatScriptPayload_words_witness :
  exists payload, formatScriptPayload InterpreterFish true LaunchPOSIX ["it's"; "$(id)"] = Ok payload /\
  exists inner, read_words LaunchPOSIX payload = Some ["fish"; "-l"; "-c"; inner] /\
    read_words LaunchFish inner = Some ["source"; "-"; "it's"; "$(id)"].
Proof.
  eexists. split; [vm_compute; reflexivity|].
  apply (formatScriptPayload_words InterpreterFish true LaunchPOSIX ["it's"; "$(id)"]);
    [vm_compute; reflexivity | discriminate].
Defined.

(** * Theorems: working directories *)

(** The dialect that reads a working-directory command of a Unix interpreter,
    and the glue between the directory and the command. *)
Definition workdir_dialect (interp : string) : string :=
  if str_eq interp InterpreterFish then LaunchFish
  else if one_of interp [InterpreterCsh; InterpreterTcsh] then LaunchCsh else LaunchPOSIX.

Definition workdir_tail (interp command : string) : string :=
  if str_eq interp InterpreterFish then "; and begin" +:+ nl_str +:+ command +:+ nl_str +:+ "end"
  else if one_of interp [InterpreterCsh; InterpreterTcsh] then " || exit $status" +:+ nl_str +:+ command
  else " && {" +:+ nl_str +:+ command +:+ nl_str +:+ "}".

Lemma shellQuote_app v rest : "'" +:+ replace_all v "'" "'\''" +:+ "'" +:+ rest = shellQuote v +:+ rest.
Proof. unfold shellQuote. by rewrite <- !app_assoc_str. Qed.

Lemma cd_read dialect cwd :
  read_words dialect ("cd -- " +:+ quoteForDialect dialect cwd) = Some ["cd"; "--"; cwd].
Proof.
  apply (script_adapter_read dialect "cd -- " ["cd"; "--"] [cwd]); [done | repeat constructor; done | done].
Qed.

(** under a Unix interpreter, a working directory becomes a [cd --] with
    exactly one word, the directory's own bytes, followed by the fixed glue of
    the interpreter and the unchanged command; directories with CR, LF or NUL
    and the server interpreter are refused. *)
Theorem FormatWorkingDirCommand_words cwd command execution out :
  FormatWorkingDirCommand cwd command execution = Ok out -> cwd <> "" ->
  contains_any cwd (String creturn (String newline (str1 nul))) = false /\
  EffectiveInterpreter execution <> InterpreterServer /\
  (one_of (EffectiveInterpreter execution) unix_interpreters = true ->
   let d := workdir_dialect (EffectiveInterpreter execution) in
   exists cd, out = cd +:+ workdir_tail (EffectiveInterpreter execution) command /\
     read_words d cd = Some ["cd"; "--"; cwd]).
Proof.
  unfold FormatWorkingDirCommand. intros H Hne. apply str_eq_false in Hne. rewrite Hne in H.
  apply bind_reject_ok in H as [Hb H]. split; [done|]. cbv zeta in H.
  generalize dependent (match execution with Some c => LaunchDialect c | None => "" end). intros dl H.
  generalize dependent (EffectiveInterpreter execution). intros i H.
  destruct (str_eq i InterpreterServer) eqn:Es; [done|]. split; [by apply str_eq_false|].
  intros Hi. apply one_of_spec in Hi. unfold unix_interpreters in Hi. set_unfold in Hi.
  exists ("cd -- " +:+ quoteForDialect (workdir_dialect i) cwd). split; [|apply cd_read].
  destruct_or! Hi; subst i; cbn [one_of str_eq] in H; apply Ok_inj in H; subst out;
    unfold workdir_dialect, workdir_tail, quoteForDialect;
    repeat match goal with |- context [str_eq ?a ?b] =>
      first [replace (str_eq a b) with true by done | replace (str_eq a b) with false by done] end;
    repeat match goal with |- context [one_of ?a ?b] =>
      first [replace (one_of a b) with true by done | replace (one_of a b) with false by done] end;
    try (rewrite <- app_assoc_str; reflexivity).
  all: rewrite <- app_assoc_str; exact (f_equal (String.append "cd -- ") (shellQuote_app cwd _)).
Qed.

Lemma FormatWorkingDirCommand_words_witness :
  exists out, FormatWorkingDirCommand "/srv/it's" "ls" (Some (mkExec InterpreterBash "" None)) = Ok out /\
  exists cd, out = cd +:+ workdir_tail InterpreterBash "ls" /\
    read_words LaunchPOSIX cd = Some ["cd"; "--"; "/srv/it's"].
Proof.
  eexists. split; [vm_compute; reflexivity|].
  apply (FormatWorkingDirCommand_words "/srv/it's" "ls" (Some (mkExec InterpreterBash "" None)));
    [vm_compute; reflexivity | discriminate | vm_compute; reflexivity].
Defined.
