(* ===== verification/Models.v ===== *)
(** The records of the configuration: pkg/models/types.go and the credential
    references of pkg/credential/ref.go.

    A Go slice is an [option (list A)], [None] being nil: copies keep or change the
    difference, and [reflect.DeepEqual] sees it.  A pointer to a record is an
    [option].  The theorems show what structural equality means, that copies are
    equal to their originals and stable, and the text form of a reference. *)
From S2P Require Export GoNumbers.
From S2P Require Exec SshOptions.
#[local] Open Scope Z_scope.

Definition slice (A : Type) : Type := option (list A).
Definition elems {A} (s : slice A) : list A := default [] s.
(** [slices.Equal] *)
Definition slices_Equal {A} `{EqDecision A} (a b : slice A) : bool := bool_decide (elems a = elems b).
(** [reflect.DeepEqual] of values without pointers shared. *)
Definition DeepEqual {A} `{EqDecision A} (a b : A) : bool := bool_decide (a = b).

(** * Credential references *)

Definition KindLoginPassword : string := "login_password".
Definition KindPassphrase : string := "passphrase".
Definition KindPrivilegePassword : string := "privilege_password".
Definition KindTOTPSecret : string := "totp_secret".
Definition KindChallengeAnswer : string := "challenge_answer".

Inductive ref_error := InvalidKind (k : string) | InvalidFormat (s : string) | HalfEmpty | BlankField (field : string) | BadCharacters (field : string).

Definition kind_Validate (k : string) : result ref_error unit :=
  if one_of k [KindLoginPassword; KindPassphrase; KindPrivilegePassword; KindTOTPSecret; KindChallengeAnswer]
  then Ok tt else Err (InvalidKind k).

Record Ref := mkRef { StoreID : string; ItemID : string }.
#[export] Instance Ref_eq_dec : EqDecision Ref.
Proof. solve_decision. Defined.
#[export] Program Instance Ref_countable : Countable Ref :=
  inj_countable' (fun r => (StoreID r, ItemID r)) (fun p => mkRef p.1 p.2) _.
Next Obligation. by intros []. Qed.

Definition ref_IsEmpty (r : Ref) : bool := str_eq (StoreID r) "" && str_eq (ItemID r) "".
Definition ref_IsComplete (r : Ref) : bool := negb (str_eq (StoreID r) "") && negb (str_eq (ItemID r) "").

(** Characters a part of a reference may not hold: a slash, a backslash, white space, NUL. *)
Definition ref_forbidden : string :=
  String "/" (String "\" (String " " (String tab (String creturn (String newline (str1 nul)))))).
Definition validateRefIdentifier (field val : string) : result ref_error unit :=
  reject str_eq (trim_space val) "" with BlankField field ;;
  reject contains_any val ref_forbidden with BadCharacters field ;;
  Ok tt.
Definition ref_Validate (r : Ref) : result ref_error unit :=
  if ref_IsEmpty r then Ok tt
  else reject xorb (str_eq (StoreID r) "") (str_eq (ItemID r) "") with HalfEmpty ;;
       try _ := validateRefIdentifier "storeID" (StoreID r) ;;
       validateRefIdentifier "itemID" (ItemID r).
Definition ref_String (r : Ref) : string :=
  if ref_IsEmpty r then "" else StoreID r +:+ "/" +:+ ItemID r.
Definition ParseRef (s : string) : result ref_error Ref :=
  if str_eq (trim_space s) "" then Ok (mkRef "" "")
  else match cut_byte "/" s with
       | None => Err (InvalidFormat s)
       | Some (storeID, itemID) =>
           let r := mkRef storeID itemID in
           try _ := ref_Validate r ;; Ok r
       end.

(** A reference held by pointer, and the tests for an absent or empty one. *)
Definition no_ref (r : option Ref) : bool := match r with None => true | Some r => ref_IsEmpty r end.

(** * Identities, hosts and nodes *)

Record OTPConfig := mkOTP {
  TOTPSecretRef : option Ref; oCommand : string; oArgs : slice string; oTimeout : Z; oPromptPattern : string
}.
#[export] Instance OTPConfig_eq_dec : EqDecision OTPConfig.
Proof. solve_decision. Defined.

Record ChallengeRule := mkRule {
  rName : string; rPromptPattern : string; rInstructionPattern : string; rSource : string;
  SecretRef : option Ref; rCommand : string; rArgs : slice string; rTimeout : Z
}.
#[export] Instance ChallengeRule_eq_dec : EqDecision ChallengeRule.
Proof. solve_decision. Defined.

Record KeyboardInteractiveConfig := mkKI { Rules : slice ChallengeRule }.
#[export] Instance KI_eq_dec : EqDecision KeyboardInteractiveConfig.
Proof. solve_decision. Defined.

Record Identity := mkIdentity {
  User : string; KeyPath : string; KeyFingerprint : string; Passphrase : string; Password : string; AuthType : string;
  LoginPasswordRef : option Ref; PassphraseRef : option Ref;
  OTP : option OTPConfig; KeyboardInteractive : option KeyboardInteractiveConfig
}.
#[export] Instance Identity_eq_dec : EqDecision Identity.
Proof. solve_decision. Defined.

Record Host := mkHost { hAlias : slice string; Address : string; Port : Z }.
#[export] Instance Host_eq_dec : EqDecision Host.
Proof. solve_decision. Defined.

#[export] Existing Instance Exec.ExecutionConfig_eq_dec.
#[export] Instance Options_eq_dec : EqDecision SshOptions.Options.
Proof.
  intros [v i] [w j]. destruct (decide (v = w)) as [->|Hv], (decide (i = j)) as [->|Hi];
  [by left|right; congruence..].
Defined.

Record Node := mkNode {
  nAlias : slice string; nTags : slice string; HostRef : string; IdentityRef : string; ProxyJump : string;
  SudoMode : string; SuPwd : string; PrivilegePasswordRef : option Ref; PasswordPromptPattern : string;
  nExecution : option Exec.ExecutionConfig; nSSHOptions : option SshOptions.Options; OpenSSHAlias : string
}.
#[export] Instance Node_eq_dec : EqDecision Node.
Proof. solve_decision. Defined.

(** ** Updates of single fields *)
Definition set_otp (i : Identity) (o : option OTPConfig) : Identity :=
  mkIdentity (User i) (KeyPath i) (KeyFingerprint i) (Passphrase i) (Password i) (AuthType i)
    (LoginPasswordRef i) (PassphraseRef i) o (KeyboardInteractive i).
Definition set_ki (i : Identity) (k : option KeyboardInteractiveConfig) : Identity :=
  mkIdentity (User i) (KeyPath i) (KeyFingerprint i) (Passphrase i) (Password i) (AuthType i)
    (LoginPasswordRef i) (PassphraseRef i) (OTP i) k.
Definition set_refs (i : Identity) (login pass : option Ref) : Identity :=
  mkIdentity (User i) (KeyPath i) (KeyFingerprint i) (Passphrase i) (Password i) (AuthType i)
    login pass (OTP i) (KeyboardInteractive i).
Definition set_plain (i : Identity) (keyPath passphrase password authType : string) : Identity :=
  mkIdentity (User i) keyPath (KeyFingerprint i) passphrase password authType
    (LoginPasswordRef i) (PassphraseRef i) (OTP i) (KeyboardInteractive i).
Definition set_fingerprint (i : Identity) (f : string) : Identity :=
  mkIdentity (User i) (KeyPath i) f (Passphrase i) (Password i) (AuthType i)
    (LoginPasswordRef i) (PassphraseRef i) (OTP i) (KeyboardInteractive i).
Definition set_node_refs (n : Node) (h i : string) : Node :=
  mkNode (nAlias n) (nTags n) h i (ProxyJump n) (SudoMode n) (SuPwd n) (PrivilegePasswordRef n)
    (PasswordPromptPattern n) (nExecution n) (nSSHOptions n) (OpenSSHAlias n).
Definition set_tags (n : Node) (t : slice string) : Node :=
  mkNode (nAlias n) t (HostRef n) (IdentityRef n) (ProxyJump n) (SudoMode n) (SuPwd n) (PrivilegePasswordRef n)
    (PasswordPromptPattern n) (nExecution n) (nSSHOptions n) (OpenSSHAlias n).
Definition set_jump (n : Node) (j : string) : Node :=
  mkNode (nAlias n) (nTags n) (HostRef n) (IdentityRef n) j (SudoMode n) (SuPwd n) (PrivilegePasswordRef n)
    (PasswordPromptPattern n) (nExecution n) (nSSHOptions n) (OpenSSHAlias n).
Definition set_sudo (n : Node) (mode suPwd : string) (r : option Ref) : Node :=
  mkNode (nAlias n) (nTags n) (HostRef n) (IdentityRef n) (ProxyJump n) mode suPwd r
    (PasswordPromptPattern n) (nExecution n) (nSSHOptions n) (OpenSSHAlias n).
Definition set_execution (n : Node) (e : option Exec.ExecutionConfig) : Node :=
  mkNode (nAlias n) (nTags n) (HostRef n) (IdentityRef n) (ProxyJump n) (SudoMode n) (SuPwd n) (PrivilegePasswordRef n)
    (PasswordPromptPattern n) e (nSSHOptions n) (OpenSSHAlias n).
Definition set_alias_mark (n : Node) (a : string) : Node :=
  mkNode (nAlias n) (nTags n) (HostRef n) (IdentityRef n) (ProxyJump n) (SudoMode n) (SuPwd n) (PrivilegePasswordRef n)
    (PasswordPromptPattern n) (nExecution n) (nSSHOptions n) a.

(** ** Copies.  On values a copy is the original, except that the rules of a
    keyboard-interactive configuration become a slice that is not nil, and that an
    empty option map becomes nil. *)
Definition otp_Clone (o : option OTPConfig) : option OTPConfig := o.
Definition rule_Clone (r : ChallengeRule) : ChallengeRule := r.
Definition ki_Clone (k : option KeyboardInteractiveConfig) : option KeyboardInteractiveConfig :=
  match k with None => None | Some k => Some (mkKI (Some (map rule_Clone (elems (Rules k))))) end.
Definition identity_Clone (i : Identity) : Identity := set_ki (set_otp i (otp_Clone (OTP i))) (ki_Clone (KeyboardInteractive i)).
Definition cloneNode (n : Node) : Node :=
  mkNode (nAlias n) (nTags n) (HostRef n) (IdentityRef n) (ProxyJump n) (SudoMode n) (SuPwd n) (PrivilegePasswordRef n)
    (PasswordPromptPattern n) (Exec.exec_clone (nExecution n)) (SshOptions.options_clone <$> nSSHOptions n) (OpenSSHAlias n).
Definition cloneHost (h : Host) : Host := h.

(** ** Structural equality *)
Definition otp_Equal (c other : option OTPConfig) : bool :=
  match c, other with
  | None, None => true
  | Some a, Some b =>
      str_eq (oCommand a) (oCommand b) && (oTimeout a =? oTimeout b) && str_eq (oPromptPattern a) (oPromptPattern b)
      && slices_Equal (oArgs a) (oArgs b) && DeepEqual (TOTPSecretRef a) (TOTPSecretRef b)
  | _, _ => false
  end.
Definition rule_Equal (a b : ChallengeRule) : bool :=
  str_eq (rName a) (rName b) && str_eq (rPromptPattern a) (rPromptPattern b)
  && str_eq (rInstructionPattern a) (rInstructionPattern b) && str_eq (rSource a) (rSource b)
  && str_eq (rCommand a) (rCommand b) && (rTimeout a =? rTimeout b) && slices_Equal (rArgs a) (rArgs b)
  && DeepEqual (SecretRef a) (SecretRef b).
Fixpoint rules_Equal (a b : list ChallengeRule) : bool :=
  match a, b with
  | [], [] => true
  | x :: a, y :: b => rule_Equal x y && rules_Equal a b
  | _, _ => false
  end.
Definition ki_Equal (k other : option KeyboardInteractiveConfig) : bool :=
  match k, other with
  | None, None => true
  | Some a, Some b => rules_Equal (elems (Rules a)) (elems (Rules b))
  | _, _ => false
  end.
Definition identity_Equal (a b : Identity) : bool :=
  str_eq (User a) (User b) && str_eq (KeyPath a) (KeyPath b) && str_eq (KeyFingerprint a) (KeyFingerprint b)
  && str_eq (Passphrase a) (Passphrase b) && str_eq (Password a) (Password b) && str_eq (AuthType a) (AuthType b)
  && DeepEqual (LoginPasswordRef a) (LoginPasswordRef b) && DeepEqual (PassphraseRef a) (PassphraseRef b)
  && otp_Equal (OTP a) (OTP b) && ki_Equal (KeyboardInteractive a) (KeyboardInteractive b).

(** * Lemmas *)

(** What structural equality compares: slices by their elements. *)
Definition plain_otp (o : OTPConfig) : OTPConfig :=
  mkOTP (TOTPSecretRef o) (oCommand o) (Some (elems (oArgs o))) (oTimeout o) (oPromptPattern o).
Definition plain_rule (r : ChallengeRule) : ChallengeRule :=
  mkRule (rName r) (rPromptPattern r) (rInstructionPattern r) (rSource r) (SecretRef r) (rCommand r)
    (Some (elems (rArgs r))) (rTimeout r).
Definition plain_identity (i : Identity) : Identity :=
  set_ki (set_otp i (plain_otp <$> OTP i)) ((fun k => mkKI (Some (map plain_rule (elems (Rules k))))) <$> KeyboardInteractive i).

Lemma slices_Equal_spec {A} `{EqDecision A} (a b : slice A) : slices_Equal a b = true <-> elems a = elems b.
Proof. apply bool_decide_eq_true. Qed.
Lemma DeepEqual_spec {A} `{EqDecision A} (a b : A) : DeepEqual a b = true <-> a = b.
Proof. apply bool_decide_eq_true. Qed.

Lemma otp_Equal_spec a b : otp_Equal a b = true <-> plain_otp <$> a = plain_otp <$> b.
Proof.
  destruct a as [a|], b as [b|]; simpl; try done.
  rewrite !andb_true_iff, !str_eq_spec, Z.eqb_eq, slices_Equal_spec, DeepEqual_spec.
  destruct a, b; unfold plain_otp; simpl. split; [intros ((((-> & ->) & ->) & ->) & ->); done|]. intros [=]. tauto.
Qed.

Lemma rule_Equal_spec a b : rule_Equal a b = true <-> plain_rule a = plain_rule b.
Proof.
  unfold rule_Equal. rewrite !andb_true_iff, !str_eq_spec, Z.eqb_eq, slices_Equal_spec, DeepEqual_spec.
  destruct a, b; unfold plain_rule; simpl. split; [intros (((((((-> & ->) & ->) & ->) & ->) & ->) & ->) & ->); done|].
  intros [=]. tauto.
Qed.

Lemma rules_Equal_spec a b : rules_Equal a b = true <-> map plain_rule a = map plain_rule b.
Proof.
  revert b. induction a as [|x a IH]; intros [|y b]; simpl; try done.
  rewrite andb_true_iff, rule_Equal_spec, IH. split; [by intros [-> ->]|]. apply (inj2 cons).
Qed.

Lemma ki_Equal_spec a b : ki_Equal a b = true <->
  (fun k => mkKI (Some (map plain_rule (elems (Rules k))))) <$> a = (fun k => mkKI (Some (map plain_rule (elems (Rules k))))) <$> b.
Proof.
  destruct a as [a|], b as [b|]; simpl; try done. rewrite rules_Equal_spec. split; [by intros ->|]. by intros [=].
Qed.

Lemma ki_Clone_idem k : ki_Clone (ki_Clone k) = ki_Clone k.
Proof. destruct k as [k|]; [|done]. simpl. unfold rule_Clone. by rewrite !map_id. Qed.

Lemma identity_Clone_idem i : identity_Clone (identity_Clone i) = identity_Clone i.
Proof. unfold identity_Clone. simpl. by rewrite ki_Clone_idem. Qed.

Lemma options_clone_idem o : SshOptions.options_clone (SshOptions.options_clone o) = SshOptions.options_clone o.
Proof.
  unfold SshOptions.options_clone, SshOptions.options_empty, SshOptions.vals.
  destruct o as [[m|] i]; simpl; [|by rewrite !bool_decide_eq_true_2].
  destruct (decide (m = ∅)) as [->|Hm]; [by rewrite !bool_decide_eq_true_2|].
  repeat (rewrite (bool_decide_eq_false_2 (m = ∅)) by done; cbn). done.
Qed.

Lemma cloneNode_idem n : cloneNode (cloneNode n) = cloneNode n.
Proof.
  unfold cloneNode. simpl. f_equal.
  - by destruct (nExecution n).
  - destruct (nSSHOptions n) as [o|]; simpl; [by rewrite options_clone_idem|done].
Qed.

(** * Theorems *)

(** Structural equality of identities is equality up to nil and empty slices; a
    copy is structurally equal to its original, and copying twice changes nothing. *)
Theorem identity_Equal_exact a b :
  (identity_Equal a b = true <-> plain_identity a = plain_identity b) /\
  identity_Equal (identity_Clone a) a = true /\ identity_Clone (identity_Clone a) = identity_Clone a.
Proof.
  assert (forall x y, identity_Equal x y = true <-> plain_identity x = plain_identity y) as E.
  { intros x y. unfold identity_Equal. rewrite !andb_true_iff, !str_eq_spec, !DeepEqual_spec, otp_Equal_spec, ki_Equal_spec.
    destruct x, y; unfold plain_identity, set_ki, set_otp; simpl. split.
    - intros (((((((((-> & ->) & ->) & ->) & ->) & ->) & ->) & ->) & ->) & ->). done.
    - intros [=]. tauto. }
  split; [apply E|]. split; [|apply identity_Clone_idem]. apply E. unfold plain_identity, identity_Clone. simpl.
  destruct (KeyboardInteractive a) as [k|]; [|done]. simpl. unfold rule_Clone. by rewrite map_id.
Qed.

Lemma contains_any_app a b chars : contains_any (a +:+ b) chars = contains_any a chars || contains_any b chars.
Proof. unfold contains_any. apply exists_byte_app. Qed.

Lemma identifier_no_slash field v : validateRefIdentifier field v = Ok tt -> exists_byte (Ascii.eqb "/") v = false.
Proof.
  unfold validateRefIdentifier. intros H. apply bind_reject_ok in H as [_ H]. apply bind_reject_ok in H as [H _].
  unfold contains_any in H. induction v as [|c v IH]; [done|]. cbn [exists_byte] in *.
  apply orb_false_iff in H as [Hc Hv]. rewrite IH by done. destruct (Ascii.eqb_spec "/" c) as [<-|]; [by vm_compute in Hc|done].
Qed.

(** The text of a valid reference is read back, and a text that is read is blank, a
    lone slash, which also denotes the empty reference, or the text of the valid
    reference it denotes. *)
Theorem ref_roundtrip r s :
  (ref_Validate r = Ok tt -> ParseRef (ref_String r) = Ok r) /\
  (ParseRef s = Ok r -> ref_Validate r = Ok tt /\ (trim_space s = "" \/ s = "/" \/ s = ref_String r)).
Proof.
  split.
  - intros Hv. unfold ParseRef, ref_String. destruct (ref_IsEmpty r) eqn:He.
    { destruct r as [a b]. apply andb_true_iff in He as [Ha Hb]. simpl in *. str_facts. by subst. }
    assert (exists_byte (Ascii.eqb "/") (StoreID r) = false) as Hs.
    { unfold ref_Validate in Hv. rewrite He in Hv. apply bind_reject_ok in Hv as [_ Hv].
      apply result_bind_ok in Hv as ([] & Hv & _). by eapply identifier_no_slash. }
    assert (str_eq (trim_space (StoreID r +:+ "/" +:+ ItemID r)) "" = false) as ->.
    { apply str_eq_false, (blank_no_graph "/"); [done|]. rewrite exists_byte_app. by rewrite orb_true_r. }
    change (StoreID r +:+ "/" +:+ ItemID r) with (StoreID r +:+ String "/" (ItemID r)). rewrite cut_byte_app by done.
    destruct r as [a b]. simpl StoreID in *. simpl ItemID in *. by rewrite Hv.
  - unfold ParseRef. destruct (str_eq (trim_space s) "") eqn:Hb.
    + intros [= <-]. split; [done|]. left. by apply str_eq_spec.
    + destruct (cut_byte "/" s) as [[a b]|] eqn:Hc; [|done]. intros H. apply result_bind_ok in H as ([] & Hv & [= <-]).
      split; [done|]. right. apply cut_byte_spec in Hc as [-> _]. unfold ref_String.
      destruct (ref_IsEmpty (mkRef a b)) eqn:He; [|by right]. left.
      apply andb_true_iff in He as [Ha Hb2]. simpl in *. str_facts. by subst.
Qed.
