(* ===== verification/NetIP.v ===== *)
(** Go's [net/netip] as the tunnel classification uses it: [ParseAddr] with its
    dotted IPv4, hexadecimal IPv6, [::] and zone forms, [Unmap] and
    [IsLoopback].  Addresses are their bytes, most significant first. *)
From S2P Require Export GoStrings.

(** [netip.Addr]: an IPv4 address, or an IPv6 address with its zone. *)
Inductive Addr :=
  | Addr4 (bytes : list N)
  | Addr16 (bytes : list N) (zone : string).

(** [parseIPv4Fields]: one loop over the bytes; [prev_dot] says the byte before
    was a dot (or there was none), [done] are the finished fields. *)
Fixpoint parse_ipv4_fields (s : string) (val : N) (digLen : nat) (prev_dot : bool) (fields : list N)
    : option (list N) :=
  match s with
  | EmptyString => if length fields <? 3 then None else Some (fields ++ [val])
  | String c r =>
      if is_digit c then
        if (digLen =? 1) && (val =? 0)%N then None
        else
          let val' := (val * 10 + (byte_code c - 48))%N in
          if (255 <? val')%N then None else parse_ipv4_fields r val' (S digLen) false fields
      else if Ascii.eqb c "." then
        if prev_dot || bool_decide (r = EmptyString) then None
        else if length fields =? 3 then None
        else parse_ipv4_fields r 0 0 true (fields ++ [val])
      else None
  end.
Definition parseIPv4Fields (s : string) : option (list N) := parse_ipv4_fields s 0 0 true [].

Definition hex_value (c : ascii) : option N :=
  if is_digit c then Some (byte_code c - 48)%N
  else if byte_in 97 102 c then Some (byte_code c - 87)%N
  else if byte_in 65 70 c then Some (byte_code c - 55)%N
  else None.

(** A hexadecimal group: its value, its digits and the rest. *)
Fixpoint hex_group (s : string) (off : nat) (acc : N) : option (N * nat * string) :=
  match s with
  | String c r =>
      match hex_value c with
      | Some d => if 3 <? off then None else hex_group r (S off) (acc * 16 + d)
      | None => Some (acc, off, s)
      end
  | EmptyString => Some (acc, off, s)
  end.

(** The loop of [parseIPv6]: the bytes read so far, the position of the ellipsis
    and the rest of the text; eight rounds fill the address. *)
Fixpoint ipv6_groups (rounds : nat) (s : string) (ip : list N) (ellipsis : option nat)
    : option (list N * option nat * string) :=
  match rounds with
  | O => Some (ip, ellipsis, s)
  | S rounds' =>
      match hex_group s 0 0 with
      | None => None
      | Some (_, O, _) => None
      | Some (acc, _, rest) =>
          let ip' := ip ++ [N.shiftr acc 8; N.land acc 255] in
          match rest with
          | EmptyString => Some (ip', ellipsis, EmptyString)
          | String c r =>
              if Ascii.eqb c "." then
                if bool_decide (ellipsis = None) && negb (length ip =? 12) then None
                else if 16 <? length ip + 4 then None
                else match parseIPv4Fields s with
                     | Some v4 => Some (ip ++ v4, ellipsis, EmptyString)
                     | None => None
                     end
              else if negb (Ascii.eqb c ":") then None
              else match r with
                   | EmptyString => None
                   | String d r' =>
                       if Ascii.eqb d ":" then
                         match ellipsis with
                         | Some _ => None
                         | None =>
                             match r' with
                             | EmptyString => Some (ip', Some (length ip'), EmptyString)
                             | _ => ipv6_groups rounds' r' ip' (Some (length ip'))
                             end
                         end
                       else ipv6_groups rounds' r ip' ellipsis
                   end
          end
      end
  end.

(** The text before the first [%] and the zone after it. *)
Fixpoint split_zone (s : string) : string * option string :=
  match s with
  | EmptyString => (EmptyString, None)
  | String c r =>
      if Ascii.eqb c "%" then (EmptyString, Some r)
      else let '(a, z) := split_zone r in (String c a, z)
  end.

Definition parseIPv6 (inp : string) : option Addr :=
  let '(s0, zone) := split_zone inp in
  if bool_decide (zone = Some EmptyString) then None
  else
    let zone := default EmptyString zone in
    let '(s, ellipsis) := match strip_prefix "::" s0 with
                          | Some r => (r, Some 0)
                          | None => (s0, None)
                          end in
    if bool_decide (s = EmptyString) && bool_decide (ellipsis = Some 0)
    then Some (Addr16 (repeat 0%N 16) zone)
    else match ipv6_groups 8 s [] ellipsis with
         | None => None
         | Some (_, _, String _ _) => None
         | Some (ip, ellipsis, EmptyString) =>
             if length ip <? 16 then
               match ellipsis with
               | None => None
               | Some e => Some (Addr16 (take e ip ++ repeat 0%N (16 - length ip) ++ drop e ip) zone)
               end
             else if bool_decide (ellipsis <> None) then None
             else Some (Addr16 ip zone)
         end.

(** The first of [.], [:] and [%] decides the form. *)
Fixpoint addr_form (s : string) : option ascii :=
  match s with
  | EmptyString => None
  | String c r => if byte_member c ".:%" then Some c else addr_form r
  end.

(** [netip.ParseAddr] *)
Definition ParseAddr (s : string) : option Addr :=
  match addr_form s with
  | None => None
  | Some c =>
      if Ascii.eqb c "." then option_map Addr4 (parseIPv4Fields s)
      else if Ascii.eqb c ":" then parseIPv6 s
      else None
  end.

Definition mapped_prefix : list N := repeat 0%N 10 ++ [255%N; 255%N].

(** [Addr.Unmap] *)
Definition Unmap (a : Addr) : Addr :=
  match a with
  | Addr16 b _ => if bool_decide (take 12 b = mapped_prefix) then Addr4 (drop 12 b) else a
  | Addr4 _ => a
  end.

(** [Addr.IsLoopback] *)
Definition IsLoopback (a : Addr) : bool :=
  match Unmap a with
  | Addr4 b => match b with h :: _ => (h =? 127)%N | [] => false end
  | Addr16 b _ => bool_decide (b = repeat 0%N 15 ++ [1%N])
  end.

(** * Lemmas *)
Lemma Unmap_idem a : Unmap (Unmap a) = Unmap a.
Proof.
  destruct a as [b|b z]; [done|]. unfold Unmap. destruct (bool_decide (take 12 b = mapped_prefix)) eqn:E.
  - done.
  - by rewrite E.
Qed.

Lemma Unmap_loopback a : IsLoopback (Unmap a) = IsLoopback a.
Proof. unfold IsLoopback. by rewrite Unmap_idem. Qed.

(** A byte of an address. *)
Definition octet (n : N) : Prop := (n < 256)%N.

Lemma parse_ipv4_octets s : forall val n dot fields l,
  parse_ipv4_fields s val n dot fields = Some l -> octet val -> length fields <= 3 ->
  Forall octet fields -> length l = 4 /\ Forall octet l.
Proof.
  induction s as [|c s IH]; intros val n dot fields l; simpl.
  - destruct (Nat.ltb_spec (length fields) 3); [done|]. intros [= <-] Hv Hle Hf.
    rewrite length_app. simpl. split; [lia|]. apply Forall_app. by rewrite Forall_singleton.
  - destruct (is_digit c).
    + destruct (_ && _); [done|]. destruct (N.ltb_spec 255 (val * 10 + (byte_code c - 48))); [done|].
      intros H' Hv Hle Hf. apply (IH _ _ _ _ _ H'); try done. unfold octet. lia.
    + destruct (Ascii.eqb c "."); [|done]. destruct (_ || _); [done|].
      destruct (Nat.eqb_spec (length fields) 3); [done|]. intros H' Hv Hle Hf.
      apply (IH _ _ _ _ _ H'); [done | |].
      * rewrite length_app. simpl. lia.
      * apply Forall_app. by rewrite Forall_singleton.
Qed.

Lemma parseIPv4Fields_octets s l : parseIPv4Fields s = Some l -> length l = 4 /\ Forall octet l.
Proof. intros H. apply (parse_ipv4_octets _ _ _ _ _ _ H); simpl; try done; lia. Qed.

Lemma hex_group_bound s : forall off acc v n rest,
  hex_group s off acc = Some (v, n, rest) -> off <= 4 -> (acc < 16 ^ N.of_nat off)%N ->
  n <= 4 /\ (v < 16 ^ N.of_nat n)%N.
Proof.
  induction s as [|c s IH]; intros off acc v n rest; simpl; [by intros [= <- <- <-]|].
  destruct (hex_value c) as [d|] eqn:Ed; [|by intros [= <- <- <-]].
  destruct (Nat.ltb_spec 3 off); [done|]. intros H' Ho Ha. apply IH in H'; [done|lia|].
  assert (d < 16)%N.
  { unfold hex_value, is_digit, byte_in in Ed. repeat case_match; simplify_eq; bool_facts;
      repeat match goal with H : (_ <=? _)%N = true |- _ => apply N.leb_le in H end; lia. }
  replace (N.of_nat (S off)) with (N.succ (N.of_nat off)) by lia. rewrite N.pow_succ_r by lia. lia.
Qed.

Lemma ipv6_groups_octets rounds : forall s ip e ip' e' rest,
  ipv6_groups rounds s ip e = Some (ip', e', rest) ->
  Forall octet ip -> length ip + 2 * rounds <= 16 ->
  Forall octet ip' /\ length ip' <= 16 /\ length ip <= length ip' /\
  (forall k, e' = Some k -> e = Some k \/ k <= length ip').
Proof.
  induction rounds as [|rounds IH]; intros s ip e ip' e' rest; cbn [ipv6_groups].
  { intros [= <- <- <-] Hi Hl. repeat split; [done|lia|lia|auto]. }
  destruct (hex_group s 0 0) as [[[v [|n]] r]|] eqn:Eg; [done| |done].
  assert (Hv : (v < 65536)%N).
  { apply hex_group_bound in Eg as [Hn Hv]; [|lia|done].
    eapply N.lt_le_trans; [exact Hv|]. change 65536%N with (16 ^ 4)%N. apply N.pow_le_mono_r; lia. }
  assert (Hoct : forall ip0, Forall octet ip0 -> Forall octet (ip0 ++ [N.shiftr v 8; N.land v 255])).
  { intros ip0 H0. apply Forall_app. split; [done|]. unfold octet. repeat constructor.
    - rewrite N.shiftr_div_pow2. apply N.Div0.div_lt_upper_bound. lia.
    - change 255%N with (N.ones 8). rewrite N.land_ones. apply N.mod_lt. done. }
  set (ip1 := ip ++ [N.shiftr v 8; N.land v 255]) in *.
  assert (Hl1 : length ip1 = length ip + 2) by (subst ip1; rewrite length_app; done).
  intros H Hi Hl. specialize (Hoct _ Hi).
  assert (Hrec : forall s' e0, ipv6_groups rounds s' ip1 e0 = Some (ip', e', rest) ->
    Forall octet ip' /\ length ip' <= 16 /\ length ip1 <= length ip' /\
    (forall k, e' = Some k -> e0 = Some k \/ k <= length ip')).
  { intros s' e0 H0. apply (IH _ _ _ _ _ _ H0); [done|lia]. }
  destruct r as [|c r].
  { injection H as <- <- <-. fold ip1. repeat split; [done|lia|lia|auto]. }
  destruct (Ascii.eqb c ".").
  { destruct (_ && _); [done|]. destruct (Nat.ltb_spec 16 (length ip + 4)); [done|].
    destruct (parseIPv4Fields s) as [v4|] eqn:E4; [|done]. injection H as <- <- <-.
    apply parseIPv4Fields_octets in E4 as [H4 Ho4].
    rewrite length_app, H4. repeat split; [by apply Forall_app|lia|lia|auto]. }
  destruct (negb _); [done|]. destruct r as [|d r]; [done|].
  destruct (Ascii.eqb d ":").
  - destruct e; [done|]. destruct r as [|x r].
    + injection H as <- <- <-. repeat split; [done|lia|lia|]. intros k [= <-]. right. lia.
    + destruct (Hrec _ _ H) as (? & ? & ? & He). repeat split; [done|lia|lia|].
      intros k Hk. destruct (He k Hk) as [[= <-]|]; right; lia.
  - destruct (Hrec _ _ H) as (? & ? & ? & He). repeat split; [done|lia|lia|done].
Qed.

(** A parsed address has 4 or 16 octets. *)
Lemma ParseAddr_octets s a :
  ParseAddr s = Some a ->
  match a with
  | Addr4 b => length b = 4 /\ Forall octet b
  | Addr16 b _ => length b = 16 /\ Forall octet b
  end.
Proof.
  unfold ParseAddr. destruct (addr_form s) as [c|]; [|done]. destruct (Ascii.eqb c ".").
  { destruct (parseIPv4Fields s) as [b|] eqn:E; simpl; [|done]. intros [= <-].
    by apply parseIPv4Fields_octets in E. }
  destruct (Ascii.eqb c ":"); [|done]. unfold parseIPv6.
  destruct (split_zone s) as [s0 z]. case_bool_decide; [done|].
  assert (Hrep : forall n, Forall octet (repeat 0%N n)) by (intros n; induction n; simpl; constructor; done).
  destruct (match strip_prefix "::" s0 with Some r => _ | None => _ end) as [t e] eqn:Ee.
  destruct (_ && _); [intros [= <-]; split; [done | apply (Hrep 16)]|].
  destruct (ipv6_groups 8 t [] e) as [[[ip e'] [|]]|] eqn:Eg; try done.
  apply ipv6_groups_octets in Eg as (Ho & Hle & _ & He); [|constructor|simpl; lia].
  destruct (Nat.ltb_spec (length ip) 16).
  - destruct e' as [k|]; [|done]. intros [= <-]. split.
    + rewrite !length_app, length_take, repeat_length, length_drop. lia.
    + apply Forall_app; split; [by apply Forall_take|].
      apply Forall_app; split; [apply Hrep | by apply Forall_drop].
  - case_bool_decide; [done|]. intros [= <-]. split; [lia|done].
Qed.

Example ParseAddr_forms :
  map (fun s => option_map (fun a => IsLoopback (Unmap a)) (ParseAddr s))
    ["127.0.0.1"; "::1"; "::ffff:127.0.0.9"; "fe80::1%eth0"; "10.0.0.1"; "0:0:0:0:0:0:0:1"]
  = [Some true; Some true; Some true; Some false; Some false; Some true] /\
  map ParseAddr ["localhost"; "127.0.0"; "01.2.3.4"; "1:::2"; "::1%"; "256.0.0.1"; "1:2:3:4:5:6:7:8:9"]
  = repeat None 7.
Proof. split; vm_compute; reflexivity. Qed.
