(* ===== verification/Analyzer.v ===== *)
(** Risk analysis of MCP tool calls, core/mcp/guardrail/analyzer.go and risk.go:
    the blocked and dangerous command patterns, the read-only allow-list, path
    risk and the classification of every tool.

    The theorems characterise each verdict exactly: what is blocked, what is
    Safe, and that the risk of a set of paths is the maximum of their risks. *)
From S2P Require Export Regex GoPath NetIP.
From S2P Require Import Exec.

(** * Risk levels (risk.go) *)
Inductive RiskLevel := Safe | Moderate | Dangerous.
#[export] Instance RiskLevel_eq_dec : EqDecision RiskLevel.
Proof. solve_decision. Defined.

(** The constants' values, [iota] from 0; Go compares the levels by them. *)
Definition risk_code (r : RiskLevel) : nat :=
  match r with Safe => 0 | Moderate => 1 | Dangerous => 2 end.
Definition risk_lt (a b : RiskLevel) : bool := risk_code a <? risk_code b.
Definition risk_ge (a b : RiskLevel) : bool := risk_code b <=? risk_code a.

(** [RiskLevel.String] *)
Definition risk_string (r : RiskLevel) : string :=
  match r with Safe => "safe" | Moderate => "moderate" | Dangerous => "dangerous" end.

Definition ParseRiskLevel (s : string) : RiskLevel :=
  if str_eq s "safe" then Safe
  else if str_eq s "moderate" then Moderate
  else if str_eq s "dangerous" then Dangerous
  else Dangerous.

(** * Command patterns (analyzer.go) *)

(** [-\S*\s+] and [-\S+\s+], the options between a command and its operand. *)
Definition opt_any : regex := RStar (RCat [RLit "-"; RStar RNonSpace; RPlus RSpace]).
Definition opt_some : regex := RStar (RCat [RLit "-"; RPlus RNonSpace; RPlus RSpace]).

Definition blockedPatterns : list regex :=
  [RCat [RLit "rm"; RPlus RSpace; opt_any; RLit "/";
         RAlt (RClass false (space_ranges ++ [(59, 59); (124, 124); (38, 38)]%N)) REnd];
   RCat [RLit "mkfs"; ROpt (RCat [RLit "."; RPlus RWord]); RPlus RSpace];
   RCat [RLit "dd"; RPlus RSpace; RStar RDot; RLit "if=/dev/"];
   RCat [RLit "dd"; RPlus RSpace; RStar RDot; RLit "of=/dev/"];
   RCat [RLit ">"; RStar RSpace; RLit "/dev/sd"];
   RCat [RLit ":()"; RStar RSpace; RLit "{"; RStar RSpace; RLit ":|:"; RStar RSpace; RLit "&";
         RStar RSpace; RLit "}"; RStar RSpace; RLit ";"; RStar RSpace; RLit ":"];
   RCat [RLit "chmod"; RPlus RSpace; opt_some; RLit "777"; RPlus RSpace; RLit "/"; RAlt REnd RSpace];
   RCat [RLit "echo"; RPlus RSpace; RStar RDot; RLit ">"; RStar RSpace; RLit "/proc/"]].

Definition dangerousPatterns : list regex :=
  [RCat [RLit "rm"; RPlus RSpace; opt_any; ROpt (RLit "-"); RLit "r"];
   RCat [RWordB; ROneOf [RLit "shutdown"; RLit "reboot"; RLit "halt"; RLit "poweroff";
                         RCat [RLit "init"; RPlus RSpace; RClass false [(48, 48); (54, 54)]%N]]; RWordB];
   RCat [RWordB; RLit "systemctl"; RPlus RSpace;
         ROneOf [RLit "stop"; RLit "disable"; RLit "mask"]; RWordB];
   RCat [RWordB; RLit "kill"; RPlus RSpace; RLit "-9"; RWordB];
   RCat [RWordB; RLit "killall"; RWordB];
   RCat [RWordB; RLit "iptables"; RPlus RSpace; RLit "-F"; RWordB];
   RCat [RWordB; RLit "nft"; RPlus RSpace; RLit "flush"; RWordB];
   RCat [RWordB; RLit "ufw"; RPlus RSpace; RLit "disable"; RWordB];
   RCat [RLit ">"; RStar RSpace; RLit "/etc/"];
   RCat [RWordB; RLit "chown"; RPlus RSpace; opt_some; RLit "root"; RWordB];
   RCat [RWordB; RLit "curl"; RWordB; RStar RDot; RLit "|"; RStar RSpace; ROpt (RLit "ba"); RLit "sh"];
   RCat [RWordB; RLit "wget"; RWordB; RStar RDot; RLit "|"; RStar RSpace; ROpt (RLit "ba"); RLit "sh"]].

Definition readOnlyCommands : list string :=
  ["ls"; "cat"; "head"; "tail"; "whoami"; "uname"; "id"; "df"; "free"; "uptime"; "ps"; "cal";
   "echo"; "pwd"; "which"; "type"; "wc"; "stat"; "grep"; "netstat"].

(** The loops over the compiled patterns. *)
Definition any_pattern (pats : list regex) (s : string) : bool :=
  existsb (fun pat => match_string pat s) pats.

Definition IsBlocked (cmd : string) : bool := any_pattern blockedPatterns (trim_space cmd).

Definition chaining_chars : string :=
  "$`()<" +:+ String newline (String creturn "&").
Definition chaining_separators : list string := ["&&"; "||"; "|"; ";"; ">>"; ">"].

Definition containsChaining (cmd : string) : bool :=
  if contains_any cmd chaining_chars then true
  else existsb (fun sep => contains cmd sep) chaining_separators.

Definition isSystemctlStatusQuery (arguments : list string) : bool :=
  match arguments with
  | [] => false
  | sub :: rest =>
      if negb (str_eq sub "status") then false
      else negb (existsb (fun a => has_prefix a "-" &&
                   negb (one_of a ["--no-pager"; "--full"; "-l"; "--plain"])) rest)
  end.

Definition hostname_options : list string :=
  ["-f"; "--fqdn"; "-s"; "--short"; "-d"; "--domain"; "-i"; "--ip-address"; "-I"; "--all-ip-addresses"].

(** The [switch words[0]] of [isReadOnlyInvocation]. *)
Definition read_only_words (words : list string) : bool :=
  match words with
  | [] => false
  | w :: args =>
      if str_eq w "hostname" then
        match args with [] => true | [a] => one_of a hostname_options | _ => false end
      else if str_eq w "date" then
        match args with [] => true | [a] => has_prefix a "+" | _ => false end
      else if str_eq w "ip" then
        match args with
        | [a] => str_eq a "addr" || str_eq a "route"
        | [a; b] => str_eq b "show" && (str_eq a "addr" || str_eq a "route")
        | _ => false
        end
      else if str_eq w "systemctl" then isSystemctlStatusQuery args
      else one_of w readOnlyCommands
  end.

Definition shell_quoting_chars : string := "\'" +:+ String dquote "=*?[]{}!~#".
Definition is_blank (c : ascii) : bool := Ascii.eqb c " " || Ascii.eqb c tab.

Definition isReadOnlyInvocation (command : string) : bool :=
  if contains_any command shell_quoting_chars then false
  else read_only_words (fields_func is_blank command).

Definition AnalyzeCommandWithDialect (cmd dialect : string) : RiskLevel :=
  if str_eq cmd "" then Safe
  else
    let normalized := trim_space cmd in
    if IsBlocked normalized then Dangerous
    else if any_pattern dangerousPatterns normalized then Dangerous
    else if containsChaining normalized then Moderate
    else if negb (str_eq dialect "") && negb (str_eq dialect "posix") then Moderate
    else if isReadOnlyInvocation cmd then Safe
    else Moderate.

Definition AnalyzeCommand (cmd : string) : RiskLevel := AnalyzeCommandWithDialect cmd "posix".

(** * Paths *)
Definition sensitivePaths : list string :=
  ["/etc"; "/boot"; "/usr"; "/sbin"; "/var/lib"; "/root"; "/proc"; "/sys"].
Definition sensitiveWindowsPaths : list string :=
  ["/windows/system32/config"; "/windows/repair"].

(** [rest] is empty or starts with a separator. *)
Definition drive_tail (rest : string) : bool :=
  match rest with EmptyString => true | String c _ => Ascii.eqb c "/" || Ascii.eqb c "\" end.

Definition parseDrivePath (p : string) : option (string * string) :=
  match p with
  | String a (String b rest) =>
      if is_alpha a && Ascii.eqb b ":" && drive_tail rest then Some (str1 (upper_byte a), rest)
      else match rest with
           | String c rest' =>
               if Ascii.eqb a "/" && is_alpha b && Ascii.eqb c ":" && drive_tail rest'
               then Some (str1 (upper_byte b), rest') else None
           | EmptyString => None
           end
  | _ => None
  end.

(** [p == s || strings.HasPrefix(p, s+"/")] *)
Definition at_or_under (s p : string) : bool := str_eq p s || has_prefix p (s +:+ "/").
Definition trim_slashes (s : string) : string := trim_right (Ascii.eqb slash) s.

Definition analyzeDrivePath (rest : string) : RiskLevel :=
  let cleanRest := path_clean ("/" +:+ replace_all rest "\" "/") in
  if str_eq cleanRest "/" then Dangerous
  else if existsb (fun s => at_or_under s cleanRest) sensitivePaths then Moderate
  else if existsb (fun s => at_or_under s (trim_slashes (to_lower cleanRest))) sensitiveWindowsPaths
       then Moderate
  else Safe.

Definition analyzePosixPath (p : string) : RiskLevel :=
  let cleaned := path_clean p in
  if str_eq cleaned "" || str_eq cleaned "/" || str_eq cleaned "." then Dangerous
  else if existsb (fun s => at_or_under s cleaned) sensitivePaths then Moderate
  else
    let lower := to_lower (replace_all p "\" "/") in
    let cleanLower := trim_slashes (path_clean ("/" +:+ lower)) in
    if str_eq cleanLower "" then Dangerous
    else if existsb (fun s => at_or_under s cleanLower) sensitiveWindowsPaths then Moderate
    else Safe.

Definition analyzeSinglePath (p : string) : RiskLevel :=
  if str_eq p "" then Dangerous
  else match parseDrivePath p with
       | Some (_, rest) => analyzeDrivePath rest
       | None => analyzePosixPath p
       end.

(** The loop of [AnalyzePaths] with its early return. *)
Fixpoint analyze_paths_from (level : RiskLevel) (paths : list string) : RiskLevel :=
  match paths with
  | [] => level
  | p :: rest =>
      let pathRisk := analyzeSinglePath p in
      let level' := if risk_lt level pathRisk then pathRisk else level in
      if bool_decide (level' = Dangerous) then Dangerous else analyze_paths_from level' rest
  end.
Definition AnalyzePaths (paths : list string) : RiskLevel := analyze_paths_from Safe paths.

(** * Tools (risk.go) *)
Record RiskInput := mkInput {
  ToolName : string;
  Action : string;
  NodeID : string;
  NodeIDs : list string;
  Command : string;
  Text : string;
  Paths : list string;
  Sudo : bool;
  Details : string;
  TunnelMode : string;
  ListenHost : string;
  Execution : option ExecutionConfig;
  Dialect : string;
  PlanDigest : string
}.

(** The dialect of a terminal command: the input's, else the one of its
    execution configuration. *)
Definition terminal_dialect (input : RiskInput) : string :=
  match Execution input with
  | Some _ =>
      if str_eq (Dialect input) "" then
        let d := oDialect (command_options (Execution input)) in
        if str_eq d "" then LaunchUnknown else d
      else Dialect input
  | None => Dialect input
  end.

Definition classifyTerminal (input : RiskInput) : RiskLevel :=
  if str_eq (Command input) "" && str_eq (Action input) "poll" then Safe
  else
    let isPersistentRun := negb (str_eq (Action input) "") && negb (str_eq (Action input) "once") &&
                           negb (str_eq (Action input) "poll") in
    let base :=
      if negb (str_eq (Command input) "")
      then AnalyzeCommandWithDialect (Command input) (terminal_dialect input)
      else if isPersistentRun then Moderate else Dangerous in
    if (Sudo input || isPersistentRun) && risk_lt base Moderate then Moderate else base.

Definition classifyFile (action : string) : RiskLevel :=
  if one_of action ["read"; "stat"] then Safe
  else if one_of action ["write"; "patch"] then Moderate
  else Dangerous.

Definition classifyGUI (input : RiskInput) : RiskLevel :=
  if one_of (Action input) ["shot"; "move"] then Safe
  else if one_of (Action input) ["click"; "double_click"; "right_click"; "scroll"; "drag"] then Moderate
  else Dangerous.

Definition classifyTransfer (action : string) : RiskLevel :=
  if one_of action ["pull"; "prepare_pull"; "status"; "cancel"] then Safe
  else if one_of action ["push"; "prepare_push"] then Moderate
  else Dangerous.

Definition classifyTunnel (input : RiskInput) : RiskLevel :=
  if one_of (Action input) ["list"; "status"] then Safe
  else if str_eq (Action input) "stop" then Moderate
  else if str_eq (Action input) "create" then
    if str_eq (TunnelMode input) "local" then
      match ParseAddr (ListenHost input) with
      | Some addr => if IsLoopback (Unmap addr) then Moderate else Dangerous
      | None => Dangerous
      end
    else Dangerous
  else Dangerous.

Definition classifyBase (input : RiskInput) : RiskLevel :=
  let tool := ToolName input in
  if str_eq tool "nodes" then Safe
  else if str_eq tool "terminal" then classifyTerminal input
  else if str_eq tool "file" then classifyFile (Action input)
  else if str_eq tool "gui" then classifyGUI input
  else if str_eq tool "transfer" then classifyTransfer (Action input)
  else if str_eq tool "tunnel" then classifyTunnel input
  else Dangerous.

Definition Classify (input : RiskInput) : RiskLevel :=
  let base := classifyBase input in
  let pathRisk := AnalyzePaths (Paths input) in
  if risk_lt base pathRisk then pathRisk else base.

(** * Lemmas *)
Lemma any_pattern_spec pats s : any_pattern pats s = true <-> exists pat, pat ∈ pats /\ occurs pat s.
Proof.
  unfold any_pattern. rewrite existsb_exists. setoid_rewrite match_string_spec.
  by setoid_rewrite <- list_elem_of_In.
Qed.

Lemma IsBlocked_trim cmd : IsBlocked (trim_space cmd) = IsBlocked cmd.
Proof. unfold IsBlocked. by rewrite trim_space_idem. Qed.

Lemma risk_lt_spec a b : risk_lt a b = true <-> risk_code a < risk_code b.
Proof. apply Nat.ltb_lt. Qed.

Lemma risk_ge_spec a b : risk_ge a b = true <-> risk_code b <= risk_code a.
Proof. apply Nat.leb_le. Qed.

Definition risk_max (a b : RiskLevel) : RiskLevel := if risk_lt a b then b else a.

Lemma risk_max_code a b : risk_code (risk_max a b) = risk_code a `max` risk_code b.
Proof. by destruct a, b. Qed.

Lemma risk_code_inj a b : risk_code a = risk_code b -> a = b.
Proof. by destruct a, b. Qed.

Lemma risk_max_assoc a b c : risk_max a (risk_max b c) = risk_max (risk_max a b) c.
Proof. by destruct a, b, c. Qed.

Lemma risk_max_dangerous a : risk_max Dangerous a = Dangerous.
Proof. by destruct a. Qed.

Lemma risk_max_safe a b : risk_max a b = Safe <-> a = Safe /\ b = Safe.
Proof. destruct a, b; cbv; naive_solver. Qed.

#[export] Hint Rewrite risk_max_code : risk.

(** * Theorems: commands *)

Lemma AnalyzeCommand_dangerous_iff_core cmd dialect :
  AnalyzeCommandWithDialect cmd dialect = Dangerous <->
  cmd <> "" /\ exists pat, pat ∈ blockedPatterns ++ dangerousPatterns /\ occurs pat (trim_space cmd).
Proof.
  unfold AnalyzeCommandWithDialect. rewrite IsBlocked_trim. setoid_rewrite elem_of_app.
  assert (Hp : (exists pat, (pat ∈ blockedPatterns \/ pat ∈ dangerousPatterns) /\ occurs pat (trim_space cmd)) <->
    IsBlocked cmd = true \/ any_pattern dangerousPatterns (trim_space cmd) = true).
  { unfold IsBlocked. rewrite !any_pattern_spec. naive_solver. }
  rewrite Hp. destruct (str_eq cmd "") eqn:E; str_facts; [naive_solver|].
  destruct (IsBlocked cmd); [naive_solver|].
  destruct (any_pattern dangerousPatterns (trim_space cmd)); [naive_solver|].
  split; [|naive_solver].
  destruct (containsChaining _); [done|]. destruct (_ && _); [done|].
  by destruct (isReadOnlyInvocation _).
Qed.

(** a command is Dangerous exactly when one of the blocked or dangerous
    patterns occurs in it after trimming, whatever the dialect; every blocked
    command is therefore Dangerous. *)
Theorem AnalyzeCommand_dangerous_iff cmd dialect :
  AnalyzeCommandWithDialect cmd dialect = Dangerous <->
  cmd <> "" /\ exists pat, pat ∈ blockedPatterns ++ dangerousPatterns /\ occurs pat (trim_space cmd).
Proof. apply AnalyzeCommand_dangerous_iff_core. Qed.

(** The allow-listed argument vectors. *)
Inductive read_only : list string -> Prop :=
  | ro_command w args : w ∈ readOnlyCommands -> read_only (w :: args)
  | ro_hostname : read_only ["hostname"]
  | ro_hostname_opt a : a ∈ hostname_options -> read_only ["hostname"; a]
  | ro_date : read_only ["date"]
  | ro_date_format f : read_only ["date"; "+" +:+ f]
  | ro_ip a : a ∈ ["addr"; "route"] -> read_only ["ip"; a]
  | ro_ip_show a : a ∈ ["addr"; "route"] -> read_only ["ip"; a; "show"]
  | ro_systemctl args :
      Forall (fun a => has_prefix a "-" = true -> a ∈ ["--no-pager"; "--full"; "-l"; "--plain"]) args ->
      read_only ("systemctl" :: "status" :: args).

Lemma two_words (a b x y : string) : (str_eq x a || str_eq x b = true) <-> x ∈ [a; b].
Proof. rewrite orb_true_iff, !str_eq_spec. set_solver. Qed.

Lemma forallb_negb_existsb {A} (f : A -> bool) l :
  negb (existsb f l) = true <-> Forall (fun a => f a = false) l.
Proof.
  rewrite negb_true_iff, <- not_true_iff_false, existsb_exists, Forall_forall. split.
  - intros H x Hx. apply not_true_iff_false. intros Hf. apply H. exists x.
    by rewrite <- list_elem_of_In.
  - intros H (x & Hx & Hf). rewrite <- list_elem_of_In in Hx. by rewrite H in Hf.
Qed.

Lemma systemctl_spec args :
  isSystemctlStatusQuery args = true <-> exists rest, args = "status" :: rest /\
    Forall (fun a => has_prefix a "-" = true -> a ∈ ["--no-pager"; "--full"; "-l"; "--plain"]) rest.
Proof.
  destruct args as [|sub rest]; simpl; [naive_solver|].
  destruct (str_eq sub "status") eqn:E; simpl; str_facts; [|naive_solver].
  subst sub. rewrite forallb_negb_existsb.
  assert (Hf : forall a, has_prefix a "-" && negb (one_of a ["--no-pager"; "--full"; "-l"; "--plain"]) = false <->
    (has_prefix a "-" = true -> a ∈ ["--no-pager"; "--full"; "-l"; "--plain"])).
  { intros a. rewrite andb_false_iff, negb_false_iff, one_of_spec. destruct (has_prefix a "-"); naive_solver. }
  setoid_rewrite Hf. naive_solver.
Qed.

(** The multi-purpose commands are not on the plain list. *)
Ltac ro_contra :=
  match goal with H : _ ∈ readOnlyCommands |- _ => exfalso; revert H; apply one_of_false; reflexivity end.
Ltac ro_inv := let H := fresh in intros H; inversion H; subst; try ro_contra; clear H; eauto.

Lemma read_only_words_spec words : read_only_words words = true <-> read_only words.
Proof.
  destruct words as [|w args]; [split; [done|inversion 1]|]. cbn [read_only_words].
  destruct (str_eq w "hostname") eqn:E1; str_facts; [subst w|].
  { destruct args as [|a [|b args]]; [split; [intros; apply ro_hostname|done] | | split; [done|ro_inv]].
    cbv beta iota. rewrite one_of_spec. split; [apply ro_hostname_opt|ro_inv]. }
  destruct (str_eq w "date") eqn:E2; str_facts; [subst w|].
  { destruct args as [|a [|b args]]; [split; [intros; apply ro_date|done] | | split; [done|ro_inv]].
    cbv beta iota. rewrite has_prefix_spec. split; [intros (t & ->); apply ro_date_format|ro_inv]. }
  destruct (str_eq w "ip") eqn:E3; str_facts; [subst w|].
  { destruct args as [|a [|b [|d args]]]; [split; [done|ro_inv] | | | split; [done|ro_inv]].
    - cbv beta iota. rewrite (two_words _ _ _ a). split; [apply ro_ip|ro_inv].
    - cbv beta iota. rewrite andb_true_iff, str_eq_spec, (two_words _ _ _ a). split; [intros [-> ?]; by apply ro_ip_show|ro_inv]. }
  destruct (str_eq w "systemctl") eqn:E4; str_facts; [subst w|].
  { rewrite systemctl_spec. split; [intros (rest & -> & ?); by apply ro_systemctl|ro_inv]. }
  rewrite one_of_spec. split; [apply ro_command|]. intros H. inversion H; subst; done.
Qed.

(** C6: the exact meaning of a Safe verdict for a non-empty command: no blocked
    or dangerous pattern, no expansion, redirection, pipe, separator or
    background operator, a POSIX (or unspecified) dialect, no quoting, globbing
    or assignment character, and blank-separated words on the read-only list. *)
Theorem AnalyzeCommand_safe_iff cmd dialect :
  cmd <> "" ->
  AnalyzeCommandWithDialect cmd dialect = Safe <->
  (forall pat, pat ∈ blockedPatterns ++ dangerousPatterns -> ~ occurs pat (trim_space cmd)) /\
  contains_any (trim_space cmd) chaining_chars = false /\
  Forall (fun sep => contains (trim_space cmd) sep = false) chaining_separators /\
  dialect ∈ ["" ; "posix"] /\
  contains_any cmd shell_quoting_chars = false /\
  read_only (fields_func is_blank cmd).
Proof.
  intros Hne.
  assert (Hnd : (forall pat, pat ∈ blockedPatterns ++ dangerousPatterns -> ~ occurs pat (trim_space cmd)) <->
    AnalyzeCommandWithDialect cmd dialect <> Dangerous).
  { rewrite AnalyzeCommand_dangerous_iff_core. naive_solver. }
  rewrite Hnd. rewrite <- read_only_words_spec.
  assert (Hd : dialect ∈ ["" ; "posix"] <-> negb (str_eq dialect "") && negb (str_eq dialect "posix") = false).
  { rewrite <- (two_words _ _ _ dialect), <- negb_orb, negb_false_iff. done. }
  rewrite Hd, <- forallb_negb_existsb, negb_true_iff.
  unfold AnalyzeCommandWithDialect, containsChaining, isReadOnlyInvocation.
  rewrite (proj2 (str_eq_false _ _) Hne).
  destruct (IsBlocked _); [naive_solver|]. destruct (any_pattern _ _); [naive_solver|].
  destruct (contains_any (trim_space cmd) chaining_chars); [naive_solver|].
  destruct (existsb _ _); [naive_solver|]. destruct (negb _ && _); [naive_solver|].
  destruct (contains_any cmd _); [naive_solver|]. destruct (read_only_words _); naive_solver.
Qed.

Lemma AnalyzeCommand_safe_iff_witness :
  "systemctl status nginx" <> "" /\ contains_any "systemctl status nginx" shell_quoting_chars = false.
Proof.
  split; [discriminate|].
  apply (AnalyzeCommand_safe_iff "systemctl status nginx" "posix"); [discriminate|vm_compute; reflexivity].
Defined.

(** * Theorems: paths *)

Lemma analyze_paths_from_max paths : forall level,
  analyze_paths_from level paths = foldr (fun p acc => risk_max (analyzeSinglePath p) acc) level paths.
Proof.
  assert (Hcomm : forall a b, risk_max a b = risk_max b a) by (by intros [] []).
  assert (Hpull : forall ps l, foldr (fun p acc => risk_max (analyzeSinglePath p) acc) l ps =
                               risk_max l (foldr (fun p acc => risk_max (analyzeSinglePath p) acc) Safe ps)).
  { induction ps as [|p ps IH]; intros l; simpl; [by destruct l|].
    rewrite IH. destruct (analyzeSinglePath p), l, (foldr _ Safe ps); done. }
  induction paths as [|p paths IH]; intros level; [done|]. cbn [analyze_paths_from foldr].
  change (if risk_lt level (analyzeSinglePath p) then analyzeSinglePath p else level)
    with (risk_max level (analyzeSinglePath p)).
  case_bool_decide as Hd.
  - rewrite (Hpull paths level). rewrite risk_max_assoc, (Hcomm _ level), Hd. by rewrite risk_max_dangerous.
  - rewrite IH, (Hpull paths (risk_max _ _)), (Hpull paths level), risk_max_assoc. f_equal. apply Hcomm.
Qed.

(** the risk of a set of paths is the maximum of the risks of its members,
    whatever their order (the early return loses nothing); so one dangerous path
    makes the whole call Dangerous, and the empty path is dangerous. *)
Theorem AnalyzePaths_max paths :
  AnalyzePaths paths = foldr (fun p acc => risk_max (analyzeSinglePath p) acc) Safe paths /\
  (forall p, p ∈ paths -> risk_code (analyzeSinglePath p) <= risk_code (AnalyzePaths paths)) /\
  (forall qs, Permutation paths qs -> AnalyzePaths qs = AnalyzePaths paths) /\
  ("" ∈ paths -> AnalyzePaths paths = Dangerous).
Proof.
  assert (Hfold : forall ps, AnalyzePaths ps = foldr (fun p acc => risk_max (analyzeSinglePath p) acc) Safe ps)
    by (intros; apply analyze_paths_from_max).
  assert (Hle : forall p ps, p ∈ ps -> risk_code (analyzeSinglePath p) <= risk_code (AnalyzePaths ps)).
  { intros p ps Hin. rewrite Hfold. induction Hin as [p ps|p q ps _ IH]; simpl; rewrite risk_max_code; lia. }
  repeat split; [apply Hfold|eauto| |].
  - intros qs Hp. rewrite !Hfold. symmetry. induction Hp as [|p l l' _ IH|p q l|]; simpl.
    + done.
    + by rewrite IH.
    + rewrite !risk_max_assoc. f_equal. by destruct (analyzeSinglePath p), (analyzeSinglePath q).
    + congruence.
  - intros Hin. apply Hle in Hin. change (analyzeSinglePath "") with Dangerous in Hin.
    destruct (AnalyzePaths paths); simpl in Hin; [lia|lia|done].
Qed.

(** * Theorems: classification *)

(** The calls that run without side effect, tool by tool. *)
Definition safe_call (input : RiskInput) : Prop :=
  let a := Action input in
  ToolName input = "nodes" \/
  ToolName input = "terminal" /\
    (Command input = "" /\ a = "poll" \/
     Command input <> "" /\ Sudo input = false /\ a ∈ ["" ; "once"; "poll"] /\
     AnalyzeCommandWithDialect (Command input) (terminal_dialect input) = Safe) \/
  ToolName input = "file" /\ a ∈ ["read"; "stat"] \/
  ToolName input = "gui" /\ a ∈ ["shot"; "move"] \/
  ToolName input = "transfer" /\ a ∈ ["pull"; "prepare_pull"; "status"; "cancel"] \/
  ToolName input = "tunnel" /\ a ∈ ["list"; "status"].

Lemma three_levels (a b : list string) x :
  (if one_of x a then Safe else if one_of x b then Moderate else Dangerous) = Safe <-> x ∈ a.
Proof. rewrite <- one_of_spec. destruct (one_of x a), (one_of x b); done. Qed.

Lemma classifyTunnel_safe input : classifyTunnel input = Safe <-> Action input ∈ ["list"; "status"].
Proof.
  unfold classifyTunnel. rewrite <- one_of_spec. destruct (one_of _ _); [done|].
  split; [|done]. destruct (str_eq _ _); [done|]. destruct (str_eq _ _); [|done].
  destruct (str_eq _ _); [|done]. destruct (ParseAddr _); [|done]. by destruct (IsLoopback _).
Qed.

Lemma classifyTerminal_safe input :
  classifyTerminal input = Safe <->
  Command input = "" /\ Action input = "poll" \/
  Command input <> "" /\ Sudo input = false /\ Action input ∈ ["" ; "once"; "poll"] /\
  AnalyzeCommandWithDialect (Command input) (terminal_dialect input) = Safe.
Proof.
  unfold classifyTerminal.
  assert (Hrun : Action input ∈ ["" ; "once"; "poll"] <->
    negb (str_eq (Action input) "") && negb (str_eq (Action input) "once") &&
    negb (str_eq (Action input) "poll") = false).
  { rewrite <- one_of_spec. unfold one_of, slice_contains, str_eq. simpl.
    rewrite !(bool_decide_ext ("" = _) _ (conj (@eq_sym _ _ _) (@eq_sym _ _ _))),
      !(bool_decide_ext ("once" = _) _ (conj (@eq_sym _ _ _) (@eq_sym _ _ _))),
      !(bool_decide_ext ("poll" = _) _ (conj (@eq_sym _ _ _) (@eq_sym _ _ _))).
    by destruct (bool_decide _), (bool_decide _), (bool_decide _). }
  rewrite Hrun. set (run := _ && _ && _). clearbody run. clear Hrun.
  destruct (str_eq (Command input) "") eqn:Ec, (str_eq (Action input) "poll") eqn:Ea; str_facts; simpl;
    destruct run, (Sudo input), (AnalyzeCommandWithDialect _ _); simpl; naive_solver.
Qed.

Lemma classifyBase_safe input : classifyBase input = Safe <-> safe_call input.
Proof.
  unfold classifyBase, safe_call.
  destruct (str_eq (ToolName input) "nodes") eqn:E1; str_facts; [naive_solver|].
  destruct (str_eq (ToolName input) "terminal") eqn:E2; str_facts.
  { rewrite classifyTerminal_safe, E2. naive_solver. }
  destruct (str_eq (ToolName input) "file") eqn:E3; str_facts.
  { unfold classifyFile. rewrite three_levels, E3. naive_solver. }
  destruct (str_eq (ToolName input) "gui") eqn:E4; str_facts.
  { unfold classifyGUI. rewrite three_levels, E4. naive_solver. }
  destruct (str_eq (ToolName input) "transfer") eqn:E5; str_facts.
  { unfold classifyTransfer. rewrite three_levels, E5. naive_solver. }
  destruct (str_eq (ToolName input) "tunnel") eqn:E6; str_facts.
  { rewrite classifyTunnel_safe, E6. naive_solver. }
  naive_solver.
Qed.

(** a tool call is Safe exactly when it is one of the listed read-only
    actions and every path it names is Safe; any other tool, action, keystroke
    or sudo call needs at least Moderate. *)
Theorem Classify_safe_iff input :
  Classify input = Safe <->
  safe_call input /\ Forall (fun p => analyzeSinglePath p = Safe) (Paths input).
Proof.
  rewrite <- classifyBase_safe. unfold Classify.
  change (if risk_lt (classifyBase input) (AnalyzePaths (Paths input)) then AnalyzePaths (Paths input)
          else classifyBase input) with (risk_max (classifyBase input) (AnalyzePaths (Paths input))).
  assert (Hp : AnalyzePaths (Paths input) = Safe <-> Forall (fun p => analyzeSinglePath p = Safe) (Paths input)).
  { unfold AnalyzePaths. rewrite analyze_paths_from_max. induction (Paths input) as [|p ps IH]; [done|].
    rewrite Forall_cons, <- IH. apply risk_max_safe. }
  rewrite <- Hp. apply risk_max_safe.
Qed.

(** The loopback addresses: 127.0.0.0/8, ::1 and the mapped 127.0.0.0/8. *)
Definition loopback (a : Addr) : Prop :=
  (exists b c d, a = Addr4 [127%N; b; c; d]) \/
  (exists z, a = Addr16 (repeat 0%N 15 ++ [1%N]) z) \/
  (exists b c d z, a = Addr16 (mapped_prefix ++ [127%N; b; c; d]) z).

Lemma IsLoopback_spec s a : ParseAddr s = Some a -> IsLoopback (Unmap a) = true <-> loopback a.
Proof.
  intros Hp%ParseAddr_octets. rewrite Unmap_loopback. unfold IsLoopback, loopback. destruct a as [b|b z]; simpl.
  - destruct Hp as [Hl _]. destruct b as [|x [|y [|u [|v [|]]]]]; try done.
    rewrite N.eqb_eq. split; [intros ->; eauto 10|]. naive_solver.
  - destruct Hp as [Hl _]. case_bool_decide as Ht.
    + assert (Hb : b = mapped_prefix ++ drop 12 b) by (rewrite <- Ht; symmetry; apply take_drop).
      assert (Hlen : length (drop 12 b) = 4) by (rewrite length_drop; lia).
      remember (drop 12 b) as t eqn:Hdt. clear Hdt Ht Hl. subst b. split.
      * intros H. right. right. destruct t as [|x [|y [|u [|v [|]]]]]; try done.
        apply N.eqb_eq in H. subst. by exists y, u, v, z.
      * intros [(?&?&?&?)|[(?&[= ])|(x&y&u&?&[= -> _])]]; done.
    + rewrite bool_decide_eq_true. split; [intros ->; eauto|].
      intros [(?&?&?&?)|[(?&[= -> _])|(?&?&?&?&[= -> _])]]; done.
Qed.

(** creating a tunnel is Moderate only for a local forward that listens on a
    loopback IP literal; host names, wildcards, other addresses and the remote
    and dynamic modes are Dangerous. *)
Theorem classifyTunnel_create input :
  Action input = "create" ->
  (classifyTunnel input = Moderate /\ TunnelMode input = "local" /\
   exists a, ParseAddr (ListenHost input) = Some a /\ loopback a) \/
  (classifyTunnel input = Dangerous /\
   ~ (TunnelMode input = "local" /\ exists a, ParseAddr (ListenHost input) = Some a /\ loopback a)).
Proof.
  intros Ha. unfold classifyTunnel. rewrite Ha. simpl.
  destruct (str_eq (TunnelMode input) "local") eqn:Em; str_facts; [|right; naive_solver].
  destruct (ParseAddr (ListenHost input)) as [a|] eqn:Ep; [|right; naive_solver].
  pose proof (IsLoopback_spec _ _ Ep) as Hs.
  destruct (IsLoopback (Unmap a)); [left|right]; naive_solver.
Qed.

Definition tunnel_input (mode host : string) : RiskInput :=
  mkInput "tunnel" "create" "" [] "" "" [] false "" mode host None "" "".

Lemma classifyTunnel_create_witness :
  Action (tunnel_input "local" "::ffff:127.0.0.1") = "create" /\
  classifyTunnel (tunnel_input "local" "::ffff:127.0.0.1") = Moderate.
Proof.
  split; [reflexivity|].
  destruct (classifyTunnel_create (tunnel_input "local" "::ffff:127.0.0.1") eq_refl) as [(H & _)|(H & _)];
    [exact H | vm_compute in H; discriminate H].
Defined.
