(* ===== verification/Policy.v ===== *)
(** The guardrail's policy engine: core/mcp/policy/config.go and
    core/mcp/guardrail/policy.go.

    The theorems give the exact condition of every decision, show that the
    decision grows with the risk, that a validated configuration never meets a
    pattern error, that protected prefixes are prefixes of path components, and
    that overlapping node overrides make the decision depend on the orders in
    which Go happens to range over the map. *)
From S2P Require Export Analyzer.
From S2P Require Import Exec.

(** * Configuration *)

(** [NodeOverrides] is a Go map: a list of its entries, which every [range] visits in an order of its own. *)
Record Config := mkConfig {
  Enabled : bool;
  AuditLog : string;
  ApprovalThreshold : string;
  BlockedPatterns : list string;
  ProtectedPaths : list string;
  NodeOverrides : list (string * string);
  NoElicitFallback : string
}.

Definition FallbackDeny : string := "deny".
Definition FallbackAllow : string := "allow".
Definition FallbackDowngrade : string := "downgrade".

Definition DefaultGuardrailConfig : Config :=
  mkConfig true "" "dangerous" [] ["/etc"; "/boot"; "/usr"; "/sbin"; "/root"] [] FallbackDowngrade.

(** The first pattern that [filepath.Match] rejects. *)
Fixpoint check_patterns (patterns : list string) : result (string * glob_error) unit :=
  match patterns with
  | [] => Ok tt
  | p :: rest => match filepath_match p "" with
                 | Err e => Err (p, e)
                 | Ok _ => check_patterns rest
                 end
  end.

Definition ValidateConfig (cfg : option Config) : result (string * glob_error) unit :=
  match cfg with
  | None => Ok tt
  | Some c =>
      try _ := check_patterns (BlockedPatterns c);;
      check_patterns (map fst (NodeOverrides c))
  end.

(** * Decisions *)
Inductive Decision := Allow | NeedApproval | Deny.
#[export] Instance Decision_eq_dec : EqDecision Decision.
Proof. solve_decision. Defined.

Definition decision_code (d : Decision) : nat :=
  match d with Allow => 0 | NeedApproval => 1 | Deny => 2 end.
Definition decision_string (d : Decision) : string :=
  match d with Allow => "allow" | NeedApproval => "need_approval" | Deny => "deny" end.

(** [NewPolicy] *)
Definition NewPolicy (cfg : option Config) : Config := default DefaultGuardrailConfig cfg.

(** The pattern matches or cannot be matched: fail closed. *)
Definition match_or_err (pattern candidate : string) : bool :=
  match filepath_match pattern candidate with Err _ => true | Ok b => b end.

(** The loop over the overrides of [thresholdForNode]. *)
Fixpoint override_threshold (overrides : list (string * string)) (nodeID : string) : option RiskLevel :=
  match overrides with
  | [] => None
  | (pattern, threshold) :: rest =>
      match filepath_match pattern nodeID with
      | Err _ => Some Safe
      | Ok true => Some (ParseRiskLevel threshold)
      | Ok false => override_threshold rest nodeID
      end
  end.

(** An order in which a range visits the entries of a map, and those of the ranges of one evaluation. *)
Definition Order : Type := list (string * string) -> list (string * string).
Definition order_ok (order : Order) : Prop := forall l, Permutation (order l) l.
Definition Ranges : Type := nat -> Order.
Definition ranges_ok (ranges : Ranges) : Prop := forall k, order_ok (ranges k).

Definition thresholdForNode (order : Order) (cfg : Config) (nodeID : string) : RiskLevel :=
  if str_eq nodeID "" then ParseRiskLevel (ApprovalThreshold cfg)
  else match override_threshold (order (NodeOverrides cfg)) nodeID with
       | Some t => t
       | None => ParseRiskLevel (ApprovalThreshold cfg)
       end.

Definition normalizeRemotePath (value : string) : string := path_clean (replace_all value "\" "/").

Definition matchesUnder (target prefix : string) : bool :=
  let target := normalizeRemotePath target in
  let prefix := normalizeRemotePath prefix in
  if str_eq target prefix then true
  else if str_eq prefix "/" then has_prefix target "/"
  else has_prefix target (prefix +:+ "/").

Definition isPathProtected (cfg : Config) (paths : list string) : bool :=
  existsb (fun target => existsb (fun protected => matchesUnder target protected)
                           (sensitivePaths ++ ProtectedPaths cfg)) paths.

(** The hard and the configured blocks. *)
Definition denied (cfg : Config) (input : RiskInput) : bool :=
  if str_eq (ToolName input) "terminal" && IsBlocked (Command input) then true
  else if negb (str_eq (Text input) "") && IsBlocked (Text input) then true
  else
    let candidates := Command input :: (if str_eq (Text input) "" then [] else [Text input]) in
    existsb (fun pattern => existsb (match_or_err pattern) candidates) (BlockedPatterns cfg).

(** The risk after the protected paths have been looked at. *)
Definition effective_risk (cfg : Config) (risk : RiskLevel) (input : RiskInput) : RiskLevel :=
  if isPathProtected cfg (Paths input) && risk_lt risk Dangerous then Moderate else risk.

(** The risk reaches the threshold of a node of a batch; the [k]-th range is the next. *)
Fixpoint batch_reached (ranges : Ranges) (k : nat) (cfg : Config) (risk : RiskLevel) (nodeIDs : list string) : bool :=
  match nodeIDs with
  | [] => false
  | nodeID :: rest => risk_ge risk (thresholdForNode (ranges k) cfg nodeID) || batch_reached ranges (S k) cfg risk rest
  end.
Definition Evaluate (ranges : Ranges) (cfg : Config) (risk : RiskLevel) (input : RiskInput) : Decision :=
  if negb (Enabled cfg) then Allow
  else if denied cfg input then Deny
  else
    let risk := effective_risk cfg risk input in
    if risk_ge risk (thresholdForNode (ranges 0) cfg (NodeID input)) then NeedApproval
    else if batch_reached ranges 1 cfg risk (NodeIDs input) then NeedApproval
    else Allow.

(** * Lemmas *)
Lemma existsb_elem {A} (f : A -> bool) l : existsb f l = true <-> exists x, x ∈ l /\ f x = true.
Proof. rewrite existsb_exists. by setoid_rewrite <- list_elem_of_In. Qed.

Lemma effective_risk_mono cfg r1 r2 input :
  risk_code r1 <= risk_code r2 ->
  risk_code (effective_risk cfg r1 input) <= risk_code (effective_risk cfg r2 input).
Proof. unfold effective_risk. destruct (isPathProtected _ _), r1, r2; simpl; lia. Qed.

Lemma effective_risk_ge cfg r input : risk_code r <= risk_code (effective_risk cfg r input).
Proof. unfold effective_risk. destruct (isPathProtected _ _), r; simpl; lia. Qed.

Lemma denied_spec cfg input :
  denied cfg input = true <->
  (ToolName input = "terminal" /\ IsBlocked (Command input) = true) \/
  (Text input <> "" /\ IsBlocked (Text input) = true) \/
  (exists pattern candidate, pattern ∈ BlockedPatterns cfg /\
     (candidate = Command input \/ candidate = Text input /\ Text input <> "") /\
     (filepath_match pattern candidate = Ok true \/ exists e, filepath_match pattern candidate = Err e)).
Proof.
  unfold denied.
  assert (Hm : forall p c, match_or_err p c = true <->
    (filepath_match p c = Ok true \/ exists e, filepath_match p c = Err e)).
  { intros p c. unfold match_or_err. destruct (filepath_match p c) as [[]|e]; naive_solver. }
  assert (Hc : forall c, c ∈ Command input :: (if str_eq (Text input) "" then [] else [Text input]) <->
    (c = Command input \/ c = Text input /\ Text input <> "")).
  { intros c. destruct (str_eq (Text input) "") eqn:E; str_facts; set_solver. }
  cbv zeta. match goal with |- (if ?a then true else if ?b then true else ?d) = true <-> _ =>
    transitivity (a || b || d = true); [by destruct a, b|] end.
  rewrite !orb_true_iff, !andb_true_iff, negb_true_iff, str_eq_spec, str_eq_false, existsb_elem, Logic.or_assoc.
  apply or_iff_compat_l, or_iff_compat_l. setoid_rewrite existsb_elem. setoid_rewrite Hm. setoid_rewrite Hc.
  split; [intros (p & ? & c & ? & ?); by exists p, c | intros (p & c & ? & ? & ?); eauto].
Qed.

(** ** What the decisions are about *)

(** A path under a prefix, by the components that cleaning leaves: both are absolute or both are
    relative, and nothing but itself is under the relative path [.]. *)
Definition slashed (p : string) : string := replace_all p "\" "/".
Definition under (target prefix : string) : Prop :=
  path_is_abs (slashed target) = path_is_abs (slashed prefix) /\
  path_components (slashed prefix) `prefix_of` path_components (slashed target) /\
  (path_is_abs (slashed prefix) = false -> path_components (slashed prefix) = [] -> path_components (slashed target) = []).

(** [matchesUnder] on paths that were cleaned. *)
Definition under_text (target prefix : string) : bool :=
  if str_eq target prefix then true else if str_eq prefix "/" then has_prefix target "/" else has_prefix target (prefix +:+ "/").
Lemma under_absolute (a b : list string) : Forall proper_component a -> Forall proper_component b ->
  under_text (path_print true b) (path_print true a) = true <-> a `prefix_of` b.
Proof.
  intros Ha Hb. unfold under_text. destruct (str_eq (path_print true b) (path_print true a)) eqn:E; str_facts.
  { apply path_print_inj in E; [subst|done|done]. done. }
  destruct (str_eq (path_print true a) "/") eqn:E2; str_facts.
  - assert (a = []) as ->.
    { apply (path_print_inj a []); [done|constructor|]. by rewrite E2. }
    split; [intros _; apply prefix_nil | done].
  - assert (a <> []) by (intros ->; done). rewrite path_print_under by done. split.
    + intros (c & _ & ->). by eexists.
    + intros [c ->]. exists c. split; [|done]. intros ->. by rewrite app_nil_r in E.
Qed.
Lemma under_relative (a b : list string) : Forall relative_component a -> Forall relative_component b ->
  under_text (path_print false b) (path_print false a) = true <-> a `prefix_of` b /\ (a = [] -> b = []).
Proof.
  intros Ha Hb. unfold under_text. destruct (str_eq (path_print false b) (path_print false a)) eqn:E; str_facts.
  { apply path_print_relative_inj in E; [subst|done|done]. done. }
  destruct (str_eq (path_print false a) "/") eqn:E2; str_facts.
  { pose proof (path_print_relative_abs a Ha) as Hx. by rewrite E2 in Hx. }
  rewrite path_print_relative_under by done. split.
  - intros (Hne & c & _ & ->). split; [by eexists|done].
  - intros [[c ->] Hn]. split; [intros ->; by rewrite Hn in E|]. exists c. split; [|done]. intros ->. by rewrite app_nil_r in E.
Qed.
(** What is under a path, as a text, is absolute exactly when the path is. *)
Lemma under_text_abs target prefix : prefix <> "" -> under_text target prefix = true -> path_is_abs target = path_is_abs prefix.
Proof.
  intros Hne. unfold under_text, path_is_abs. destruct (str_eq target prefix) eqn:E1; str_facts; [by subst|].
  destruct (str_eq prefix "/") eqn:E2; str_facts; [by subst|]. rewrite has_prefix_spec. intros [t ->].
  destruct prefix as [|x p]; [done|]. apply eq_iff_eq_true. rewrite !has_prefix_spec.
  split; intros [r Hr]; injection Hr as -> _; by eexists.
Qed.
Lemma print_not_empty rooted l : (rooted = false -> Forall relative_component l) -> path_print rooted l <> "".
Proof.
  destruct rooted; [done|]. intros Hl E. apply (f_equal (split_on slash)) in E. rewrite path_print_relative_split in E by auto.
  destruct l as [|x l]; [done|]. injection E as -> ->. specialize (Hl eq_refl). by apply Forall_cons in Hl as [[? _] _].
Qed.
Lemma matchesUnder_under target prefix : matchesUnder target prefix = true <-> under target prefix.
Proof.
  change (matchesUnder target prefix) with (under_text (normalizeRemotePath target) (normalizeRemotePath prefix)).
  unfold normalizeRemotePath, path_clean, under. fold (slashed target) (slashed prefix).
  pose proof (path_components_proper (slashed target)) as Pt. pose proof (path_components_proper (slashed prefix)) as Pp.
  pose proof (path_components_relative (slashed target)) as Rt. pose proof (path_components_relative (slashed prefix)) as Rp.
  revert Pt Pp Rt Rp. generalize (path_components (slashed target)) as b, (path_components (slashed prefix)) as a.
  assert (Habs : forall r l, (r = false -> Forall relative_component l) -> path_is_abs (path_print r l) = r).
  { intros [] l Hl; [done|]. by apply path_print_relative_abs, Hl. }
  destruct (path_is_abs (slashed target)), (path_is_abs (slashed prefix)); intros b a Pt Pp Rt Rp.
  - rewrite under_absolute by auto. naive_solver.
  - split; [intros H; apply under_text_abs in H; [by rewrite !Habs in H|by apply print_not_empty]|by intros [? _]].
  - split; [intros H; apply under_text_abs in H; [by rewrite !Habs in H|by apply print_not_empty]|by intros [? _]].
  - rewrite under_relative by auto. naive_solver.
Qed.

(** The paths of a call touch a protected one. *)
Definition protects (cfg : Config) (input : RiskInput) : Prop :=
  exists target protected, target ∈ Paths input /\ protected ∈ sensitivePaths ++ ProtectedPaths cfg /\ under target protected.
Lemma isPathProtected_spec cfg input : isPathProtected cfg (Paths input) = true <-> protects cfg input.
Proof. unfold isPathProtected, protects. rewrite existsb_elem. setoid_rewrite existsb_elem. setoid_rewrite matchesUnder_under. naive_solver. Qed.
(** The risk of a call is below a threshold, and so is that of a change if it touches a protected path. *)
Definition stays_below (cfg : Config) (risk : RiskLevel) (input : RiskInput) (t : RiskLevel) : Prop :=
  risk_code risk < risk_code t /\ (protects cfg input -> risk_code Moderate < risk_code t).
Lemma effective_risk_below cfg risk input t : risk_code (effective_risk cfg risk input) < risk_code t <-> stays_below cfg risk input t.
Proof.
  unfold effective_risk, stays_below. rewrite <- isPathProtected_spec. destruct (isPathProtected cfg (Paths input)), risk; simpl; try naive_solver; split; try lia;
    try (intros [? H]; specialize (H eq_refl); lia); intros; split; intros; lia.
Qed.

(** A hard or a configured block. *)
Definition blocks (cfg : Config) (input : RiskInput) : Prop :=
  (ToolName input = "terminal" /\ IsBlocked (Command input) = true) \/
  (Text input <> "" /\ IsBlocked (Text input) = true) \/
  (exists pattern candidate, pattern ∈ BlockedPatterns cfg /\
     (candidate = Command input \/ candidate = Text input /\ Text input <> "") /\
     (filepath_match pattern candidate = Ok true \/ exists e, filepath_match pattern candidate = Err e)).

(** The thresholds a node can have: that of an override that matches it, the lowest one if a
    pattern is malformed, and the global one if no pattern matches or there is no node. *)
Definition has_threshold (cfg : Config) (nodeID : string) (t : RiskLevel) : Prop :=
  if decide (nodeID = "") then t = ParseRiskLevel (ApprovalThreshold cfg)
  else
    (exists o, o ∈ NodeOverrides cfg /\ filepath_match o.1 nodeID = Ok true /\ t = ParseRiskLevel o.2) \/
    (exists o e, o ∈ NodeOverrides cfg /\ filepath_match o.1 nodeID = Err e /\ t = Safe) \/
    ((forall o, o ∈ NodeOverrides cfg -> filepath_match o.1 nodeID = Ok false) /\ t = ParseRiskLevel (ApprovalThreshold cfg)).
Lemma override_threshold_spec overrides n : match override_threshold overrides n with
  | Some t => (exists o, o ∈ overrides /\ filepath_match o.1 n = Ok true /\ t = ParseRiskLevel o.2) \/ (exists o e, o ∈ overrides /\ filepath_match o.1 n = Err e /\ t = Safe)
  | None => forall o, o ∈ overrides -> filepath_match o.1 n = Ok false
  end.
Proof.
  induction overrides as [|[p th] os IH]; cbn [override_threshold]; [set_solver|]. destruct (filepath_match p n) as [[]|e] eqn:E; cbn iota beta.
  - left. exists (p, th). split; [left|done].
  - destruct (override_threshold os n) as [t|].
    + destruct IH as [(o & ? & ?)|(o & e & ? & ?)]; [left; exists o|right; exists o, e]; (split; [by right|done]).
    + intros o [->|Ho]%elem_of_cons; [done|by apply IH].
  - right. exists (p, th), e. split; [left|done].
Qed.
Lemma threshold_is_one order cfg n : order_ok order -> has_threshold cfg n (thresholdForNode order cfg n).
Proof.
  intros Ho. unfold has_threshold, thresholdForNode. destruct (str_eq n "") eqn:E; str_facts; [by rewrite decide_True|]. rewrite decide_False by done.
  pose proof (override_threshold_spec (order (NodeOverrides cfg)) n) as H.
  assert (Hin : forall o, o ∈ order (NodeOverrides cfg) <-> o ∈ NodeOverrides cfg) by (intros o; by rewrite (Ho (NodeOverrides cfg))).
  destruct (override_threshold _ n); setoid_rewrite Hin in H; naive_solver.
Qed.
(** The order that puts an entry first. *)
Definition first_order (o : string * string) : Order := fun l => match list_find (eq o) l with Some (i, _) => o :: delete i l | None => l end.
Lemma first_order_ok o : order_ok (first_order o).
Proof.
  intros l. unfold first_order. destruct (list_find (eq o) l) as [[i x]|] eqn:E; [|done].
  apply list_find_Some in E as (Hi & <- & _). symmetry. by apply delete_Permutation.
Qed.
Lemma first_order_first o l : o ∈ l -> exists l', first_order o l = o :: l'.
Proof.
  intros Ho. unfold first_order. destruct (list_find (eq o) l) as [[i x]|] eqn:E; [by eexists|].
  apply list_find_None in E. exfalso. revert E Ho. rewrite Forall_forall. intros E Ho. by apply (E o Ho).
Qed.
Lemma listed_ok : order_ok (fun l => l).
Proof. by intros l. Qed.
Lemma threshold_reached cfg n t : has_threshold cfg n t -> exists order, order_ok order /\ thresholdForNode order cfg n = t.
Proof.
  unfold has_threshold, thresholdForNode. destruct (decide (n = "")) as [->|Hn]; [intros ->; exists (fun l => l); split; [apply listed_ok|done]|].
  apply str_eq_false in Hn. setoid_rewrite Hn. intros [(o & Ho & Hm & ->)|[(o & e & Ho & Hm & ->)|[Hno ->]]].
  1, 2: exists (first_order o); (split; [apply first_order_ok|]); destruct (first_order_first o _ Ho) as [l' ->]; destruct o as [p th]; cbn [fst snd override_threshold] in *; by rewrite Hm.
  exists (fun l => l). split; [apply listed_ok|]. pose proof (override_threshold_spec (NodeOverrides cfg) n) as H.
  destruct (override_threshold _ n); [|done]. destruct H as [(o & Ho & Hm & _)|(o & e & Ho & Hm & _)]; rewrite Hno in Hm by done; done.
Qed.

(** The nodes of a call, each with the range that gives its threshold. *)
Lemma reached_none ranges cfg r l : forall k, batch_reached ranges k cfg r l = false <-> forall i n, l !! i = Some n -> risk_code r < risk_code (thresholdForNode (ranges (k + i)) cfg n).
Proof.
  induction l as [|m l IH]; intros k; cbn [batch_reached]; [split; [by intros _ []|done]|].
  rewrite orb_false_iff, IH. unfold risk_ge. rewrite Nat.leb_gt. split.
  - intros [H1 H2] [|i] n; [intros [= <-]; by rewrite Nat.add_0_r|]. intros Hi. rewrite <- Nat.add_succ_comm. by apply H2.
  - intros H. split; [by rewrite <- (Nat.add_0_r k); apply (H 0%nat)|]. intros i n Hi. rewrite Nat.add_succ_comm. by apply (H (S i)).
Qed.
Lemma Evaluate_enabled ranges cfg risk input : Enabled cfg = true -> Evaluate ranges cfg risk input =
  if denied cfg input then Deny else if batch_reached ranges 0 cfg (effective_risk cfg risk input) (NodeID input :: NodeIDs input) then NeedApproval else Allow.
Proof. intros He. unfold Evaluate. rewrite He. cbn [negb batch_reached]. destruct (denied cfg input); [done|]. cbv zeta. by destruct (risk_ge (effective_risk cfg risk input) (thresholdForNode (ranges 0) cfg (NodeID input))). Qed.
Lemma orders_for (P : string -> Order -> Prop) (l : list string) : (forall n, n ∈ l -> exists order, order_ok order /\ P n order) ->
  exists ranges, ranges_ok ranges /\ forall i n, l !! i = Some n -> P n (ranges i).
Proof.
  induction l as [|m l IH]; intros H; [exists (fun _ x => x); split; [by intros k x|by intros []]|].
  destruct IH as (ranges & Hr & HP); [intros n Hn; apply H; by right|]. destruct (H m) as (order & Ho & Hm); [left|].
  exists (fun k => match k with O => order | S k => ranges k end). split; [by intros []|]. intros [|i] n; [by intros [= <-]|apply HP].
Qed.

(** * Theorems: decisions *)

(** C10: The decisions of an enabled policy, exactly. A call is denied if and only if its terminal command or
    typed text is hard-blocked or a configured pattern matches it (or is malformed), whatever the
    risk, the thresholds and the orders in which Go ranges over the overrides. It is allowed in every order
    if and only if it is not blocked and its risk, and that of a change if it touches a protected path, is
    below every threshold its node and each node of the batch can have; it is allowed in some order if and only if each of
    these nodes has one threshold above it. *)
Theorem Evaluate_spec cfg risk input :
  Enabled cfg = true ->
  (forall ranges, ranges_ok ranges -> Evaluate ranges cfg risk input = Deny <-> blocks cfg input) /\
  ((forall ranges, ranges_ok ranges -> Evaluate ranges cfg risk input = Allow) <->
   ~ blocks cfg input /\ forall n t, n ∈ NodeID input :: NodeIDs input -> has_threshold cfg n t -> stays_below cfg risk input t) /\
  ((exists ranges, ranges_ok ranges /\ Evaluate ranges cfg risk input = Allow) <->
   ~ blocks cfg input /\ forall n, n ∈ NodeID input :: NodeIDs input -> exists t, has_threshold cfg n t /\ stays_below cfg risk input t).
Proof.
  intros He. setoid_rewrite <- effective_risk_below. setoid_rewrite (Evaluate_enabled _ cfg risk input He).
  assert (Hd : denied cfg input = true <-> blocks cfg input) by apply denied_spec. setoid_rewrite <- Hd. clear Hd. set (r := effective_risk cfg risk input). set (nodes := NodeID input :: NodeIDs input).
  assert (Hsome : exists ranges, ranges_ok ranges) by (exists (fun _ x => x); by intros k x). destruct Hsome as [some Hsome].
  assert (Hallow : forall ranges, (if batch_reached ranges 0 cfg r nodes then NeedApproval else Allow) = Allow <-> forall i n, nodes !! i = Some n -> risk_code r < risk_code (thresholdForNode (ranges i) cfg n)).
  { intros ranges. rewrite <- (reached_none ranges cfg r nodes 0). by destruct (batch_reached _ _ _ _ _). }
  destruct (denied cfg input).
  { split_and!; [done| |]; (split; [|by intros [? _]]); [intros H; by specialize (H some Hsome)|by intros (? & _ & ?)]. }
  setoid_rewrite Hallow. split_and!.
  - intros ranges _. by destruct (batch_reached _ _ _ _ _).
  - split.
    + intros H. split; [done|]. intros n t Hn Ht. apply threshold_reached in Ht as (order & Ho & <-).
      apply list_elem_of_lookup in Hn as [i Hi]. apply (H (fun _ => order) (fun _ => Ho) i n Hi).
    + intros [_ H] ranges Hr i n Hi. apply (H n); [by eapply list_elem_of_lookup_2|by apply threshold_is_one].
  - split.
    + intros (ranges & Hr & H). split; [done|]. intros n Hn. apply list_elem_of_lookup in Hn as [i Hi].
      exists (thresholdForNode (ranges i) cfg n). split; [by apply threshold_is_one|by apply H].
    + intros [_ H]. apply (orders_for (fun n order => risk_code r < risk_code (thresholdForNode order cfg n))).
      intros n Hn. destruct (H n Hn) as (t & Ht & Hb). apply threshold_reached in Ht as (order & Ho & <-). by exists order.
Qed.

Definition sample_config : Config :=
  mkConfig true "" "moderate" ["*secret*"] [] [("prod-*", "safe")] "".
Definition sample_input (command node : string) : RiskInput :=
  mkInput "terminal" "" node [] command "" [] false "" "" "" None "posix" "".
Definition as_listed : Ranges := fun _ l => l.
Lemma as_listed_ok : ranges_ok as_listed.
Proof. by intros k l. Qed.

(** A command that a pattern blocks, and one that is allowed in every order. *)
Lemma Evaluate_spec_witness :
  Enabled sample_config = true /\
  Evaluate as_listed sample_config Safe (sample_input "cat secret.txt" "dev") = Deny /\
  (forall t, has_threshold sample_config "dev" t -> risk_code Safe < risk_code t).
Proof.
  split; [reflexivity|]. split.
  - destruct (Evaluate_spec sample_config Safe (sample_input "cat secret.txt" "dev") eq_refl) as [H _].
    apply (H as_listed as_listed_ok). right. right. exists "*secret*", "cat secret.txt".
    split; [left|]. split; [left; reflexivity | left; vm_compute; reflexivity].
  - intros t Ht. destruct (Evaluate_spec sample_config Safe (sample_input "ls" "dev") eq_refl) as (_ & [H _] & _).
    destruct H as [_ H]; [|exact (proj1 (H "dev" t (list_elem_of_here _ _) Ht))].
    intros ranges Hr. specialize (Hr 0%nat [("prod-*", "safe")]). apply Permutation_sym, Permutation_length_1_inv in Hr.
    unfold Evaluate. cbn [NodeID sample_input]. unfold thresholdForNode. cbn [NodeOverrides sample_config]. rewrite Hr. vm_compute. reflexivity.
Defined.

(** decisions are monotone: a higher risk never leads to a more permissive
    decision for the same call, if Go ranges over the overrides in the same orders. *)
Theorem Evaluate_monotone ranges cfg r1 r2 input :
  risk_code r1 <= risk_code r2 ->
  decision_code (Evaluate ranges cfg r1 input) <= decision_code (Evaluate ranges cfg r2 input).
Proof.
  intros Hr. apply (effective_risk_mono cfg _ _ input) in Hr. destruct (Enabled cfg) eqn:He; [|unfold Evaluate; by rewrite He].
  rewrite !Evaluate_enabled by done. destruct (denied cfg input); [done|]. destruct (batch_reached _ _ _ (effective_risk cfg r2 input) _) eqn:E2.
  - by destruct (batch_reached ranges 0 cfg (effective_risk cfg r1 input) _); simpl; lia.
  - assert (batch_reached ranges 0 cfg (effective_risk cfg r1 input) (NodeID input :: NodeIDs input) = false) as ->; [|done].
    rewrite reached_none in *. intros i n Hi. specialize (E2 i n Hi). lia.
Qed.

Lemma Evaluate_monotone_witness :
  risk_code Safe <= risk_code Dangerous /\
  decision_code (Evaluate as_listed sample_config Safe (sample_input "ls" "dev")) <=
  decision_code (Evaluate as_listed sample_config Dangerous (sample_input "ls" "dev")).
Proof. split; [simpl; lia|]. apply Evaluate_monotone. simpl. lia. Defined.

(** * Theorems: configuration *)

Lemma check_patterns_ok patterns :
  check_patterns patterns = Ok tt <-> forall p, p ∈ patterns -> exists b, filepath_match p "" = Ok b.
Proof.
  induction patterns as [|p ps IH]; simpl; [set_solver|].
  destruct (filepath_match p "") as [b|e] eqn:E.
  - rewrite IH. split; [|set_solver]. intros H q Hq. apply elem_of_cons in Hq as [->|Hq]; eauto.
  - split; [done|]. intros H. destruct (H p) as [b Hb]; [set_solver|congruence].
Qed.

(** A pattern without error on the empty name has none on any name. *)
Lemma valid_pattern p b name : filepath_match p "" = Ok b -> exists b', filepath_match p name = Ok b'.
Proof.
  intros H. destruct (filepath_match p name) as [b'|e] eqn:E; [eauto|].
  assert (Herr : err_of (filepath_match p name) = err_of (filepath_match p ""))
    by apply filepath_match_err.
  rewrite E, H in Herr. done.
Qed.

Lemma check_patterns_err patterns p e :
  check_patterns patterns = Err (p, e) -> p ∈ patterns /\ filepath_match p "" = Err e.
Proof.
  induction patterns as [|q ps IH]; [done|]. simpl. destruct (filepath_match q "") eqn:E.
  - intros H. destruct (IH H). split; [by right|done].
  - intros H. apply Err_inj in H. injection H as -> ->. split; [by left|done].
Qed.

Definition matches (node : string) (o : string * string) : bool :=
  match filepath_match o.1 node with Ok b => b | Err _ => false end.

Lemma override_threshold_valid overrides node :
  (forall p, p ∈ map fst overrides -> exists b, filepath_match p "" = Ok b) ->
  override_threshold overrides node =
  option_map (fun o => ParseRiskLevel o.2) (head (List.filter (matches node) overrides)).
Proof.
  induction overrides as [|[p t] os IH]; intros H; [done|]. cbn [override_threshold List.filter].
  destruct (H p) as [b Hb]; [by left|]. destruct (valid_pattern _ _ node Hb) as [b' Hb'].
  unfold matches at 1. cbn [fst]. rewrite Hb'. destruct b'; [done|].
  apply IH. intros q Hq. apply H. by right.
Qed.

(** a configuration that [ValidateConfig] accepts never meets a pattern
    error when it is evaluated: every block pattern decides every candidate, and
    a node's threshold is that of the first matching override in the order of
    the range, else the global one; a rejected configuration names one of its own
    patterns, malformed for every text. *)
Theorem ValidateConfig_sound cfg :
  (ValidateConfig (Some cfg) = Ok tt ->
   (forall p name, p ∈ BlockedPatterns cfg -> exists b, filepath_match p name = Ok b) /\
   (forall order node, order_ok order -> node <> "" -> thresholdForNode order cfg node =
      match head (List.filter (matches node) (order (NodeOverrides cfg))) with
      | Some o => ParseRiskLevel o.2
      | None => ParseRiskLevel (ApprovalThreshold cfg)
      end)) /\
  (forall p e, ValidateConfig (Some cfg) = Err (p, e) ->
   (p ∈ BlockedPatterns cfg \/ p ∈ map fst (NodeOverrides cfg)) /\
   forall name, filepath_match p name = Err e).
Proof.
  split.
  - simpl. intros H. apply result_bind_ok in H as ([] & Hb & Ho). 
    rewrite check_patterns_ok in Hb, Ho. split.
    + intros p name Hp. destruct (Hb p Hp) as [b Hok]. by eapply valid_pattern.
    + intros order node Hor Hn. unfold thresholdForNode. apply str_eq_false in Hn. rewrite Hn.
      rewrite override_threshold_valid; [by destruct (head _)|]. intros p Hin. apply Ho. by rewrite <- (Hor (NodeOverrides cfg)).
  - intros p e H. assert (Hp : (p ∈ BlockedPatterns cfg \/ p ∈ map fst (NodeOverrides cfg)) /\
      filepath_match p "" = Err e).
    { simpl in H. apply result_bind_err in H as [H|([] & _ & H)]; apply check_patterns_err in H; naive_solver. }
    destruct Hp as [Hin He]. split; [done|]. intros name.
    pose proof (filepath_match_err p name "") as Hx. rewrite He in Hx.
    destruct (filepath_match p name); simpl in Hx; congruence.
Qed.

Lemma ValidateConfig_sound_witness :
  ValidateConfig (Some sample_config) = Ok tt /\ thresholdForNode (as_listed 0) sample_config "prod-7" = Safe.
Proof.
  split; [vm_compute; reflexivity|].
  destruct (ValidateConfig_sound sample_config) as [H _].
  destruct H as [_ H]; [vm_compute; reflexivity|].
  rewrite H; [vm_compute; reflexivity | apply as_listed_ok | discriminate].
Defined.

Definition with_overrides (cfg : Config) (overrides : list (string * string)) : Config :=
  mkConfig (Enabled cfg) (AuditLog cfg) (ApprovalThreshold cfg) (BlockedPatterns cfg)
    (ProtectedPaths cfg) overrides (NoElicitFallback cfg).

(** where all overrides that match a node agree, the threshold does not
    depend on the order of the range. *)
Theorem thresholdForNode_stable cfg order order' node :
  ValidateConfig (Some cfg) = Ok tt -> order_ok order -> order_ok order' ->
  (forall o1 o2, o1 ∈ NodeOverrides cfg -> o2 ∈ NodeOverrides cfg ->
     matches node o1 = true -> matches node o2 = true -> ParseRiskLevel o1.2 = ParseRiskLevel o2.2) ->
  thresholdForNode order cfg node = thresholdForNode order' cfg node.
Proof.
  intros Hv Ho Ho' Hagree. simpl in Hv. apply result_bind_ok in Hv as ([] & _ & Hc). rewrite check_patterns_ok in Hc.
  pose proof (threshold_is_one order cfg node Ho) as H. pose proof (threshold_is_one order' cfg node Ho') as H'. unfold has_threshold in H, H'.
  destruct (decide (node = "")); [congruence|].
  assert (Hno : forall o e, o ∈ NodeOverrides cfg -> filepath_match o.1 node <> Err e).
  { intros o e Hin. destruct (Hc o.1) as [b Hb]; [apply list_elem_of_fmap; by exists o|]. destruct (valid_pattern _ _ node Hb) as [b' Hb']. congruence. }
  assert (Hm : forall o, filepath_match o.1 node = Ok true -> matches node o = true) by (intros o Hx; unfold matches; by rewrite Hx).
  destruct H as [(o & Hi & Hx & ->)|[(o & e & Hi & Hx & _)|[Hn ->]]], H' as [(o' & Hi' & Hx' & ->)|[(o' & e' & Hi' & Hx' & _)|[Hn' ->]]];
    try done; try (by apply Hno in Hx); try (by apply Hno in Hx'); [by apply Hagree; auto|by rewrite Hn' in Hx|by rewrite Hn in Hx'].
Qed.

Lemma thresholdForNode_stable_witness :
  let cfg := with_overrides sample_config [("prod-*", "safe"); ("dev-*", "dangerous")] in
  thresholdForNode (@rev _) cfg "prod-1" = thresholdForNode (as_listed 0) cfg "prod-1".
Proof.
  intros cfg. apply thresholdForNode_stable; [vm_compute; reflexivity | intros l; apply Permutation_sym, Permutation_rev | apply as_listed_ok |].
  intros o1 o2 H1 H2 M1 M2. apply list_elem_of_In in H1. apply list_elem_of_In in H2.
  destruct H1 as [<-|[<-|[]]], H2 as [<-|[<-|[]]]; try reflexivity; vm_compute in M1, M2; congruence.
Defined.

(** the decision for a node that several overrides match depends on the
    order of the range: one valid configuration both allows a call and asks for approval. *)
Theorem thresholdForNode_order_dependent :
  exists cfg ranges ranges' input,
    ValidateConfig (Some cfg) = Ok tt /\ ranges_ok ranges /\ ranges_ok ranges' /\
    Evaluate ranges cfg (Classify input) input = Allow /\
    Evaluate ranges' cfg (Classify input) input = NeedApproval.
Proof.
  exists (with_overrides sample_config [("*", "dangerous"); ("prod-*", "safe")]), as_listed, (fun _ => @rev _), (sample_input "touch x" "prod-1").
  split; [vm_compute; reflexivity|]. split; [exact as_listed_ok|]. split; [intros k l; apply Permutation_sym, Permutation_rev|]. split; vm_compute; reflexivity.
Qed.

(** * Theorems: protected paths *)

(** a target is under a prefix exactly when the cleaned
    components of the prefix are an initial segment of those of the target (with
    [\] read as [/]), both absolute or both relative: [/etcetera] is not under [/etc], and [..] cannot climb
    out. *)
Theorem matchesUnder_components target prefix : matchesUnder target prefix = true <-> under target prefix.
Proof. apply matchesUnder_under. Qed.
