(* ===== verification/Config.v ===== *)
(** The configuration, its indexes and the read-only view of it:
    pkg/config types.go, provider.go, mcp.go, credential_defaults.go and the
    encrypted-file defaults of encrypted_config.go.

    A configuration holds identities, hosts and nodes in sharded maps; the code visits
    them in the order of their [Keys], which is an argument here ([KeyOrder]).  The
    theorems show that the indexes built over the nodes do not depend on that
    order, which selectors and aliases they hold exactly, when building them is refused,
    and what a selector resolves to. *)
From stdpp Require Import sorting.
From S2P Require Export Models.
From S2P Require Policy.
#[local] Open Scope Z_scope.

(** * Data *)

Definition StoreTypeSystem : string := "system".
Definition StoreTypePass : string := "pass".
Definition StoreTypeHelper : string := "helper".
Definition StoreTypeNone : string := "none".
Definition StoreTypeEncryptedFile : string := "encrypted-file".

Definition second : Z := 1000000000.
Definition minute : Z := 60 * second.

Record StoreConfig := mkStore {
  sPath : string; sUnlock : string; sKeyFile : string;
  sUnlockIdleTTL : Z; sPromptTimeout : Z; sUnlockTimeout : Z;
  sType : string; sTimeout : Z; sCacheTTL : Z; sPrefix : string; sCommand : string; sArgs : slice string;
  sNonInteractive : bool; sReadOnly : bool
}.
#[export] Instance StoreConfig_eq_dec : EqDecision StoreConfig.
Proof. solve_decision. Defined.

Record CredentialConfig := mkCredential { DefaultStore : string; RememberPrompted : string; Stores : gmap string StoreConfig }.

Record MCPConfig := mkMCP {
  Transport : string; Listen : string; PublicURL : string; TokenFile : string; TokenEnv : string; StateDir : string;
  AllowedHosts : slice string; AllowedOrigins : slice string;
  HeaderTimeout : string; BodyTimeout : string; StreamIdle : string; ToolTimeout : string; SessionTimeout : string;
  ShutdownTimeout : string; StartWindow : string; Retention : string; TotalTimeout : string; CommitTimeout : string;
  MaxSessions : option Z; MaxRequests : option Z; MaxFileBytes : option Z; MaxActive : option Z;
  MaxPerTarget : option Z; MaxReady : option Z; MaxRecords : option Z
}.

Record Configuration := mkConfiguration {
  SchemaVersion : Z;
  Credential : option CredentialConfig;
  Identities : gmap string Identity;
  Hosts : gmap string Host;
  Nodes : gmap string Node;
  Guardrail : option Policy.Config;
  MCP : option MCPConfig;
  cPasswordPromptPattern : string;
  cExecution : option Exec.ExecutionConfig;
  cSSHOptions : option SshOptions.Options
}.

(** ** Updates of the three maps *)
Definition set_nodes (f : gmap string Node -> gmap string Node) (c : Configuration) : Configuration :=
  mkConfiguration (SchemaVersion c) (Credential c) (Identities c) (Hosts c) (f (Nodes c)) (Guardrail c) (MCP c)
    (cPasswordPromptPattern c) (cExecution c) (cSSHOptions c).
Definition set_hosts (f : gmap string Host -> gmap string Host) (c : Configuration) : Configuration :=
  mkConfiguration (SchemaVersion c) (Credential c) (Identities c) (f (Hosts c)) (Nodes c) (Guardrail c) (MCP c)
    (cPasswordPromptPattern c) (cExecution c) (cSSHOptions c).
Definition set_identities (f : gmap string Identity -> gmap string Identity) (c : Configuration) : Configuration :=
  mkConfiguration (SchemaVersion c) (Credential c) (f (Identities c)) (Hosts c) (Nodes c) (Guardrail c) (MCP c)
    (cPasswordPromptPattern c) (cExecution c) (cSSHOptions c).

(** ** Copies and defaults *)
Definition credential_Clone (c : option CredentialConfig) : option CredentialConfig := c.
Definition mcp_Clone (c : option MCPConfig) : option MCPConfig := c.
Definition cloneGuardrail (c : option Policy.Config) : option Policy.Config := c.

Definition FileStoreDefaults (s : StoreConfig) : StoreConfig :=
  if negb (str_eq (sType s) StoreTypeEncryptedFile) then s
  else
    let dflt (v d : Z) := if v =? 0 then d else v in
    mkStore (sPath s) (sUnlock s) (sKeyFile s)
      (dflt (sUnlockIdleTTL s) (5 * minute)) (dflt (sPromptTimeout s) (2 * minute)) (dflt (sUnlockTimeout s) (30 * second))
      (sType s) (dflt (sTimeout s) (10 * second)) (sCacheTTL s) (sPrefix s) (sCommand s) (sArgs s) (sNonInteractive s) (sReadOnly s).

Definition DefaultCredentialConfig : CredentialConfig :=
  mkCredential "file" "always"
    {[ "file" := FileStoreDefaults (mkStore "credentials" "key-file" "credentials.key" 0 0 0 StoreTypeEncryptedFile 0 0 "" "" None false false) ]}.

Definition cloneConfiguration (cfg : option Configuration) : Configuration :=
  match cfg with
  | None => mkConfiguration 2 (Some DefaultCredentialConfig) ∅ ∅ ∅ None None "" None None
  | Some c =>
      mkConfiguration (SchemaVersion c) (credential_Clone (Credential c)) (identity_Clone <$> Identities c)
        (cloneHost <$> Hosts c) (cloneNode <$> Nodes c) (cloneGuardrail (Guardrail c)) (mcp_Clone (MCP c))
        (cPasswordPromptPattern c) (Exec.exec_clone (cExecution c)) (SshOptions.options_clone <$> cSSHOptions c)
  end.

Definition CanRememberCredentials (c : option Configuration) : bool :=
  match c with
  | None => false
  | Some c =>
      match Credential c with
      | None => false
      | Some cred =>
          if str_eq (DefaultStore cred) "" then false
          else match Stores cred !! DefaultStore cred with
               | Some store => negb (str_eq (sType store) StoreTypeNone) && negb (sReadOnly store)
               | None => false
               end
      end
  end.

(** * Order of iteration and the environment *)

(** [Keys] of a sharded map lists its keys in an order of its own. *)
Class KeyOrder := {
  keys_of : forall {A : Type}, gmap string A -> list string;
  keys_nodup : forall {A} (m : gmap string A), NoDup (keys_of m);
  keys_elem : forall {A} (m : gmap string A) k, k ∈ keys_of m <-> is_Some (m !! k)
}.
#[export] Program Instance map_order : KeyOrder := {| keys_of := fun A m => (map_to_list m).*1 |}.
Next Obligation. intros A m. apply NoDup_fst_map_to_list. Qed.
Next Obligation.
  intros A m k. rewrite list_elem_of_fmap. split.
  - intros ((i & x) & -> & Hx). apply elem_of_map_to_list in Hx. by exists x.
  - intros [x Hx]. exists (k, x). by rewrite elem_of_map_to_list.
Qed.

(** [user.Current], when it succeeds. *)
Class CurrentUser := current_user : option string.

Definition normalizedHostPort (port : Z) : Z := if port =? 0 then 22 else port.
Definition normalizedIdentityUser `{CurrentUser} (raw : string) : string :=
  let u := trim_space raw in
  if str_eq u "" then default "" current_user else u.

Definition local_address (address : string) : bool :=
  one_of (to_lower (trim_space address)) ["127.0.0.1"; "localhost"; "::1"].
Definition isLocalNode (cfg : Configuration) (node : Node) : bool :=
  match Hosts cfg !! HostRef node with None => false | Some host => local_address (Address host) end.

(** * Removal of entries no node refers to *)
Definition refers_to (cfg : Configuration) (ref : Node -> string) (r : string) (keys : list string) : bool :=
  existsb (fun id => match Nodes cfg !! id with None => false | Some other => str_eq (ref other) r end) keys.
Definition removeUnusedRefs `{KeyOrder} (hostRef identityRef : string) (cfg : Configuration) : Configuration :=
  let hostUsed := refers_to cfg HostRef hostRef (keys_of (Nodes cfg)) in
  let identityUsed := refers_to cfg IdentityRef identityRef (keys_of (Nodes cfg)) in
  let cfg := if negb hostUsed && negb (str_eq hostRef "") then set_hosts (delete hostRef) cfg else cfg in
  if negb identityUsed && negb (str_eq identityRef "") then set_identities (delete identityRef) cfg else cfg.
Definition removeNodeAndUnusedRefs `{KeyOrder} (nodeID : string) (cfg : Configuration) : Configuration :=
  match Nodes cfg !! nodeID with
  | None => cfg
  | Some node => removeUnusedRefs (HostRef node) (IdentityRef node) (set_nodes (delete nodeID) cfg)
  end.

(** * Indexes *)
Definition Index : Type := gmap string (list string) * gmap string string.
(** An alias that belongs to a node already. *)
Record alias_conflict := AliasConflict { conflict_alias : string; conflict_owner : string }.

Definition addLookup (lookup : gmap string (list string)) (key nodeID : string) : gmap string (list string) :=
  if str_eq key "" || slice_contains (default [] (lookup !! key)) nodeID then lookup
  else <[key := default [] (lookup !! key) ++ [nodeID]]> lookup.

Definition addAlias (rejectConflict : bool) (nodeID : string) (ix : Index) (alias : string) : result alias_conflict Index :=
  let '(lookup, aliases) := ix in
  if str_eq alias "" then Ok ix
  else match aliases !! alias with
       | Some existing =>
           if str_eq existing nodeID then Ok (addLookup lookup alias nodeID, aliases)
           else if rejectConflict then Err (AliasConflict alias existing)
           else Ok (addLookup lookup alias nodeID, <[alias := ""]> aliases)
       | None => Ok (addLookup lookup alias nodeID, <[alias := nodeID]> aliases)
       end.

Fixpoint add_aliases (rejectConflict : bool) (nodeID : string) (ix : Index) (l : list string) : result alias_conflict Index :=
  match l with
  | [] => Ok ix
  | alias :: l => try ix := addAlias rejectConflict nodeID ix alias ;; add_aliases rejectConflict nodeID ix l
  end.

(** The selectors [user@name] and [user@name:port] of a list of names. *)
Fixpoint add_connections (user port nodeID : string) (lookup : gmap string (list string)) (names : list string) : gmap string (list string) :=
  match names with
  | [] => lookup
  | name :: names =>
      if str_eq name "" then add_connections user port nodeID lookup names
      else
        let lookup := addLookup lookup (user +:+ "@" +:+ name) nodeID in
        let lookup := addLookup lookup (user +:+ "@" +:+ name +:+ ":" +:+ port) nodeID in
        add_connections user port nodeID lookup names
  end.

Definition index_node `{CurrentUser} (cfg : Configuration) (rejectConflict : bool) (ix : Index) (nodeID : string) : result alias_conflict Index :=
  match Nodes cfg !! nodeID with
  | None => Ok ix
  | Some node =>
      try ix := add_aliases rejectConflict nodeID ix (elems (nAlias node)) ;;
      match Hosts cfg !! HostRef node, Identities cfg !! IdentityRef node with
      | Some host, Some identity =>
          let ix := (addLookup (fst ix) (Address host) nodeID, snd ix) in
          try ix := add_aliases rejectConflict nodeID ix (elems (hAlias host)) ;;
          let user := normalizedIdentityUser (User identity) in
          if str_eq user "" then Ok ix
          else
            let port := itoa (normalizedHostPort (Port host)) in
            let lookup := add_connections user port nodeID (fst ix) (elems (hAlias host) ++ [Address host]) in
            let lookup := add_connections user port nodeID lookup (elems (nAlias node)) in
            Ok (lookup, snd ix)
      | _, _ => Ok ix
      end
  end.

Fixpoint index_nodes `{CurrentUser} (cfg : Configuration) (rejectConflict : bool) (ix : Index) (keys : list string) : result alias_conflict Index :=
  match keys with
  | [] => Ok ix
  | nodeID :: keys => try ix := index_node cfg rejectConflict ix nodeID ;; index_nodes cfg rejectConflict ix keys
  end.

(** [sort.Strings] *)
Definition sort_strings (l : list string) : list string := merge_sort String.le l.

Definition buildIndexes `{CurrentUser} `{KeyOrder} (cfg : Configuration) (rejectConflict : bool) : result alias_conflict Index :=
  try ix := index_nodes cfg rejectConflict (∅, ∅) (keys_of (Nodes cfg)) ;;
  Ok (sort_strings <$> fst ix, snd ix).

(** * The provider *)
Inductive config_error :=
  NodeNotFound (id : string) | HostNotFound (ref node : string) | IdentityNotFound (ref node : string)
  | AmbiguousNode (selector : string) (candidates : list string) | VirtualNode (spec : string)
  (* the resolution of a target *)
  | EmptySelector | NoCurrentUser | AmbiguousHost (hostPort : string) | AmbiguousJump (hostPort : string)
  | JumpNotFound (hop : string) | JumpInvalid (hop : string) | AliasExists (alias node : string).

Definition OpenSSHNodePrefix : string := "openssh:".
(** [OpenSSHParser.Find] *)
Definition openssh_Find (alias : string) : option string :=
  if str_eq alias "" then None
  else if contains alias "@" || contains alias ":" then None
  else Some (OpenSSHNodePrefix +:+ alias).

(** A parsed [ssh_config], when there is one, gives virtual nodes. *)
Record OpenSSHParser := mkParser {
  parser_loaded : bool;
  GetVirtualNode : string -> result config_error (Node * Host * Identity);
  HasHost : string -> bool
}.

Record Provider := mkProvider {
  p_cfg : Configuration; p_lookup : gmap string (list string); p_aliases : gmap string string;
  p_openSSH : OpenSSHParser; p_marks : gmap string string
}.

Definition newProvider `{CurrentUser} `{KeyOrder} (cfg : option Configuration) (parser : OpenSSHParser) : Provider :=
  let cloned := cloneConfiguration cfg in
  let '(lookup, aliases) := match buildIndexes cloned false with Ok ix => ix | Err _ => (∅, ∅) end in
  mkProvider cloned lookup aliases parser ∅.
Definition Frozen `{CurrentUser} `{KeyOrder} (p : Provider) : Provider :=
  let frozen := newProvider (Some (p_cfg p)) (p_openSSH p) in
  mkProvider (p_cfg frozen) (p_lookup frozen) (p_aliases frozen) (p_openSSH frozen) (p_marks p).
Definition SetNodeOpenSSHAlias (p : Provider) (nodeID alias : string) : Provider :=
  if str_eq nodeID "" || str_eq alias "" then p
  else mkProvider (p_cfg p) (p_lookup p) (p_aliases p) (p_openSSH p) (<[nodeID := alias]> (p_marks p)).
Definition NodeOpenSSHAlias (p : Provider) (nodeID : string) : string :=
  if str_eq nodeID "" then "" else default "" (p_marks p !! nodeID).
Definition provider_Snapshot (p : Provider) : Configuration := cloneConfiguration (Some (p_cfg p)).

Definition ResolveSelector (p : Provider) (input : string) : result config_error string :=
  match Nodes (p_cfg p) !! input with
  | Some _ => Ok input
  | None =>
      match default [] (p_lookup p !! input) with
      | [candidate] => Ok candidate
      | [] => if parser_loaded (p_openSSH p)
              then match openssh_Find input with Some nodeID => Ok nodeID | None => Ok "" end
              else Ok ""
      | candidates => Err (AmbiguousNode input candidates)
      end
  end.
Definition Find (p : Provider) (input : string) : string :=
  match ResolveSelector p input with Ok nodeID => nodeID | Err _ => "" end.
Definition FindAlias (p : Provider) (alias : string) : string :=
  if str_eq alias "" then "" else default "" (p_aliases p !! alias).

(** The copy handed out, which carries the alias recorded in this session. *)
Definition marked (p : Provider) (nodeID : string) (node : Node) : Node :=
  let cloned := cloneNode node in
  if str_eq (OpenSSHAlias cloned) "" then set_alias_mark cloned (default "" (p_marks p !! nodeID)) else cloned.

Definition Resolve (p : Provider) (nodeID : string) : result config_error (Node * Host * Identity) :=
  match Nodes (p_cfg p) !! nodeID with
  | Some node =>
      match Hosts (p_cfg p) !! HostRef node with
      | None => Err (HostNotFound (HostRef node) nodeID)
      | Some host =>
          match Identities (p_cfg p) !! IdentityRef node with
          | None => Err (IdentityNotFound (IdentityRef node) nodeID)
          | Some identity => Ok (marked p nodeID node, cloneHost host, identity_Clone identity)
          end
      end
  | None =>
      match strip_prefix OpenSSHNodePrefix nodeID with
      | Some spec => GetVirtualNode (p_openSSH p) spec
      | None => Err (NodeNotFound nodeID)
      end
  end.
Definition GetNode (p : Provider) (nodeID : string) : option Node := marked p nodeID <$> Nodes (p_cfg p) !! nodeID.
Definition GetHost (p : Provider) (nodeID : string) : option Host :=
  node ← Nodes (p_cfg p) !! nodeID; cloneHost <$> Hosts (p_cfg p) !! HostRef node.
Definition GetIdentity (p : Provider) (nodeID : string) : option Identity :=
  node ← Nodes (p_cfg p) !! nodeID; identity_Clone <$> Identities (p_cfg p) !! IdentityRef node.

(** The loop of [ListNodes] and [GetNodesByTag]. *)
Fixpoint collect (cfg : Configuration) (keep : Node -> bool) (acc : gmap string Node) (keys : list string) : gmap string Node :=
  match keys with
  | [] => acc
  | nodeID :: keys =>
      match Nodes cfg !! nodeID with
      | None => collect cfg keep acc keys
      | Some node => if isLocalNode cfg node || negb (keep node) then collect cfg keep acc keys
                     else collect cfg keep (<[nodeID := cloneNode node]> acc) keys
      end
  end.
Definition ListNodes `{KeyOrder} (p : Provider) : gmap string Node :=
  collect (p_cfg p) (fun _ => true) ∅ (keys_of (Nodes (p_cfg p))).
Definition GetNodesByTag `{KeyOrder} (p : Provider) (tag : string) : gmap string Node :=
  collect (p_cfg p) (fun node => slice_contains (elems (nTags node)) tag) ∅ (keys_of (Nodes (p_cfg p))).
Definition ListIdentities (p : Provider) : gmap string Identity := identity_Clone <$> Identities (p_cfg p).

(** * What the indexes should hold *)

(** The aliases and the selectors of a node: its own names and those of its host. *)
Definition node_aliases (cfg : Configuration) (node : Node) : list string :=
  elems (nAlias node) ++
  match Hosts cfg !! HostRef node, Identities cfg !! IdentityRef node with
  | Some host, Some _ => elems (hAlias host)
  | _, _ => []
  end.
(** [user@name] and [user@name:port], for the names that are not blank. *)
Definition connection_names (user port : string) (names : list string) : list string :=
  name ← filter (fun name => name <> "") names;
  [user +:+ "@" +:+ name; user +:+ "@" +:+ name +:+ ":" +:+ port].
Definition selectors `{CurrentUser} (cfg : Configuration) (node : Node) : list string :=
  node_aliases cfg node ++
  match Hosts cfg !! HostRef node, Identities cfg !! IdentityRef node with
  | Some host, Some identity =>
      let user := normalizedIdentityUser (User identity) in
      Address host ::
      (if str_eq user "" then []
       else connection_names user (itoa (normalizedHostPort (Port host)))
              (elems (hAlias host) ++ [Address host] ++ elems (nAlias node)))
  | _, _ => []
  end.

Definition owns (cfg : Configuration) (alias nodeID : string) : Prop :=
  alias <> "" /\ exists node, Nodes cfg !! nodeID = Some node /\ alias ∈ node_aliases cfg node.
Definition selects `{CurrentUser} (cfg : Configuration) (key nodeID : string) : Prop :=
  key <> "" /\ exists node, Nodes cfg !! nodeID = Some node /\ key ∈ selectors cfg node.

(** * The index while it is built *)

(** [S] and [A] are the pairs of a selector, or an alias, and a node seen so far. *)
Record index_inv (strict : bool) (S A : string -> string -> Prop) (ix : Index) : Prop := {
  ii_lookup : forall k n, n ∈ default [] (fst ix !! k) <-> S k n;
  ii_list : forall k l, fst ix !! k = Some l -> NoDup l /\ l <> [];
  ii_alias : forall a, match snd ix !! a with
    | None => forall n, ~ A a n
    | Some x => (A a x /\ forall n, A a n -> n = x) \/
                (strict = false /\ x = "" /\ exists n m, A a n /\ A a m /\ n <> m) end
}.

Lemma index_inv_ext strict (S S' A A' : string -> string -> Prop) ix :
  (forall k n, S k n <-> S' k n) -> (forall a n, A a n <-> A' a n) ->
  index_inv strict S A ix -> index_inv strict S' A' ix.
Proof.
  intros HS HA [HL Hl Ha]. split; [|done|].
  - intros k n. by rewrite HL.
  - intros a. specialize (Ha a). destruct (snd ix !! a) as [x|].
    + destruct Ha as [[Hx Hu]|(Hr & Hx & n & m & Hn & Hm & Hne)].
      * left. split; [by apply HA|]. intros n Hn. apply Hu. by apply HA.
      * right. split; [done|]. split; [done|]. exists n, m. by rewrite <- !HA.
    + intros n Hn. apply (Ha n). by apply HA.
Qed.

Lemma addLookup_elem lookup key n k m :
  m ∈ default [] (addLookup lookup key n !! k) <-> m ∈ default [] (lookup !! k) \/ (key <> "" /\ k = key /\ m = n).
Proof.
  unfold addLookup. destruct (str_eq key "") eqn:Hk; simpl; [str_facts; naive_solver|]. str_facts.
  destruct (slice_contains _ n) eqn:Hc; simpl.
  - apply slice_contains_spec in Hc. naive_solver.
  - destruct (decide (k = key)) as [->|Hne].
    + rewrite lookup_insert_eq. simpl. rewrite elem_of_app, elem_of_cons. set_solver.
    + rewrite lookup_insert_ne by done. naive_solver.
Qed.

Lemma addLookup_list lookup key n k l :
  (forall k l, lookup !! k = Some l -> NoDup l /\ l <> []) -> addLookup lookup key n !! k = Some l -> NoDup l /\ l <> [].
Proof.
  intros Hl. unfold addLookup. destruct (str_eq key "" || slice_contains _ n) eqn:Hc; [by apply Hl|].
  apply orb_false_iff in Hc as [_ Hc]. destruct (decide (k = key)) as [->|Hne].
  - rewrite lookup_insert_eq. intros [= <-]. split; [|by intros []%app_nil]. apply NoDup_app.
    assert (n ∉ default [] (lookup !! key)) as Hn.
    { intros Hn. apply slice_contains_spec in Hn. congruence. }
    split; [destruct (lookup !! key) eqn:He; simpl; [by apply Hl in He as []|constructor]|].
    split; [|apply NoDup_singleton]. intros x Hx ->%list_elem_of_singleton. done.
  - rewrite lookup_insert_ne by done. apply Hl.
Qed.

Lemma addLookup_inv strict (S A : string -> string -> Prop) lookup aliases key n :
  index_inv strict S A (lookup, aliases) ->
  index_inv strict (fun k m => S k m \/ (key <> "" /\ k = key /\ m = n)) A (addLookup lookup key n, aliases).
Proof.
  intros [HL Hl Ha]. split; simpl in *; [|intros k l; by apply addLookup_list|done].
  intros k m. by rewrite addLookup_elem, HL.
Qed.

(** One alias: it is added, or it belongs to another node and conflicts are refused. *)
Lemma addAlias_inv strict (S A : string -> string -> Prop) ix alias n :
  index_inv strict S A ix -> (strict = false -> n <> "") ->
  match addAlias strict n ix alias with
  | Ok ix' => index_inv strict (fun k m => S k m \/ (alias <> "" /\ k = alias /\ m = n))
                        (fun a m => A a m \/ (alias <> "" /\ a = alias /\ m = n)) ix'
  | Err e => strict = true /\ conflict_alias e = alias /\ conflict_owner e <> n /\ A alias (conflict_owner e) /\ alias <> ""
  end.
Proof.
  intros Hi Hn. destruct ix as [lookup aliases]. unfold addAlias.
  destruct (str_eq alias "") eqn:Hb.
  { str_facts. eapply index_inv_ext; [..|exact Hi]; naive_solver. }
  str_facts. pose proof (addLookup_inv _ _ _ _ _ alias n Hi) as [HL Hl _]. pose proof (ii_alias _ _ _ _ Hi alias) as Ha. simpl in Ha.
  destruct (aliases !! alias) as [x|] eqn:Hx.
  - destruct (str_eq x n) eqn:Hxn; [|destruct strict]; str_facts; subst.
    + split; [done|done|]. intros a. simpl. destruct (decide (a = alias)) as [->|Hne].
      * rewrite Hx. destruct Ha as [[Hxa Hu]|(Hr & -> & _)]; [|naive_solver]. left. naive_solver.
      * pose proof (ii_alias _ _ _ _ Hi a) as Ha'. simpl in Ha'. destruct (aliases !! a); [|naive_solver].
        destruct Ha' as [[? ?]|(? & ? & n1 & n2 & ? & ? & ?)]; [left; naive_solver|right; eauto 10].
    + simpl. destruct Ha as [[Hxa Hu]|[? _]]; [|done]. done.
    + split; [done|done|]. intros a. simpl. destruct (decide (a = alias)) as [->|Hne].
      * rewrite lookup_insert_eq. right. split; [done|]. split; [done|].
        destruct Ha as [[Hxa Hu]|(_ & -> & n1 & n2 & ? & ? & ?)]; [exists x, n|exists n1, n2]; naive_solver.
      * rewrite lookup_insert_ne by done. pose proof (ii_alias _ _ _ _ Hi a) as Ha'. simpl in Ha'.
        destruct (aliases !! a); [|naive_solver].
        destruct Ha' as [[? ?]|(? & ? & n1 & n2 & ? & ? & ?)]; [left; naive_solver|right; eauto 10].
  - split; [done|done|]. intros a. simpl. destruct (decide (a = alias)) as [->|Hne].
    + rewrite lookup_insert_eq. left. split; [naive_solver|]. intros m [Hm|(_ & _ & ->)]; [|done]. by apply Ha in Hm.
    + rewrite lookup_insert_ne by done. pose proof (ii_alias _ _ _ _ Hi a) as Ha'. simpl in Ha'.
      destruct (aliases !! a); [|naive_solver].
      destruct Ha' as [[? ?]|(? & ? & n1 & n2 & ? & ? & ?)]; [left; naive_solver|right; eauto 10].
Qed.

Lemma add_aliases_inv strict n l : forall (S A : string -> string -> Prop) ix,
  index_inv strict S A ix -> (strict = false -> n <> "") ->
  match add_aliases strict n ix l with
  | Ok ix' => index_inv strict (fun k m => S k m \/ (k <> "" /\ k ∈ l /\ m = n))
                        (fun a m => A a m \/ (a <> "" /\ a ∈ l /\ m = n)) ix'
  | Err e => strict = true /\ conflict_alias e ∈ l /\ conflict_alias e <> "" /\ conflict_owner e <> n /\
             A (conflict_alias e) (conflict_owner e)
  end.
Proof.
  induction l as [|x l IH]; intros S A ix Hi Hn; cbn [add_aliases].
  - eapply index_inv_ext; [..|exact Hi]; set_solver.
  - pose proof (addAlias_inv strict S A ix x n Hi Hn) as Hx. destruct (addAlias strict n ix x) as [ix'|e]; cbn [result_bind].
    + specialize (IH _ _ _ Hx Hn). destruct (add_aliases strict n ix' l) as [ix2|e].
      * eapply index_inv_ext; [..|exact IH]; intros k m; rewrite elem_of_cons; naive_solver.
      * destruct IH as (? & ? & ? & ? & [?|(? & ? & ?)]); [|done]. rewrite elem_of_cons. naive_solver.
    + destruct Hx as (? & <- & ? & ? & ?). rewrite elem_of_cons. naive_solver.
Qed.

Lemma connection_names_elem user port names k :
  k ∈ connection_names user port names <->
  exists name, name ∈ names /\ name <> "" /\ (k = user +:+ "@" +:+ name \/ k = user +:+ "@" +:+ name +:+ ":" +:+ port).
Proof.
  unfold connection_names. rewrite list_elem_of_bind. setoid_rewrite list_elem_of_filter.
  setoid_rewrite elem_of_cons. setoid_rewrite list_elem_of_singleton. naive_solver.
Qed.

Lemma app_nonempty a b c : a +:+ String c b <> "".
Proof. by destruct a. Qed.

Lemma add_connections_inv strict user port n names : forall (S A : string -> string -> Prop) lookup aliases,
  index_inv strict S A (lookup, aliases) ->
  index_inv strict (fun k m => S k m \/ (k ∈ connection_names user port names /\ m = n)) A
    (add_connections user port n lookup names, aliases).
Proof.
  induction names as [|x names IH]; intros S A lookup aliases Hi; cbn [add_connections].
  - eapply index_inv_ext; [| |exact Hi]; [|done]. intros k m. rewrite connection_names_elem. set_solver.
  - destruct (str_eq x "") eqn:Hx; str_facts.
    + eapply index_inv_ext; [| |by apply IH]; [|done]. intros k m. rewrite !connection_names_elem. set_solver.
    + eapply index_inv_ext; [| |by apply IH; do 2 apply addLookup_inv]; [|done].
      intros k m. cbn beta. rewrite !connection_names_elem.
      pose proof (app_nonempty user x "@") as H1. pose proof (app_nonempty user (x +:+ ":" +:+ port) "@") as H2.
      setoid_rewrite elem_of_cons. split.
      * intros [[[Hs|(_ & -> & ->)]|(_ & -> & ->)]|[(y & ? & ? & ?) ->]]; [by left|right; split; [|done]..]; eauto 6.
      * intros [Hs|[(y & [->|Hy] & Hne & [->| ->]) ->]]; [by do 3 left|left; left; right; done|left; right; done|right; eauto 6..].
Qed.

Lemma elem_of_connection_blank user port names : "" ∉ connection_names user port names.
Proof. rewrite connection_names_elem. intros (name & _ & _ & [H|H]); symmetry in H; by apply app_nonempty in H. Qed.

Lemma ex_some {B} (x : B) (P : B -> Prop) : (exists y, Some x = Some y /\ P y) <-> P x.
Proof. naive_solver. Qed.

Section Indexing.
Context `{CurrentUser}.
Implicit Types (cfg : Configuration) (S A : string -> string -> Prop).

Lemma index_node_inv cfg strict S A ix n :
  index_inv strict S A ix -> (strict = false -> n <> "") ->
  match index_node cfg strict ix n with
  | Ok ix' => index_inv strict (fun k m => S k m \/ (m = n /\ selects cfg k n)) (fun a m => A a m \/ (m = n /\ owns cfg a n)) ix'
  | Err e => strict = true /\ owns cfg (conflict_alias e) n /\ conflict_owner e <> n /\ A (conflict_alias e) (conflict_owner e)
  end.
Proof.
  intros Hi Hn. unfold index_node, selects, owns. destruct (Nodes cfg !! n) as [node|] eqn:Hnode.
  2:{ eapply index_inv_ext; [..|exact Hi]; naive_solver. }
  pose proof (add_aliases_inv strict n (elems (nAlias node)) _ _ _ Hi Hn) as H1.
  unfold selectors, node_aliases. destruct (add_aliases strict n ix (elems (nAlias node))) as [ix1|e]; cbn [result_bind].
  2:{ destruct H1 as (? & ? & ? & ? & ?). split; [done|]. split; [|done]. split; [done|]. exists node.
      split; [done|]. rewrite elem_of_app. by left. }
  destruct (Hosts cfg !! HostRef node) as [host|] eqn:Hh.
  2:{ eapply index_inv_ext; [..|exact H1]; intros k m; cbn beta; rewrite ex_some, ?Hh, ?Hid, ?app_nil_r; tauto. }
  destruct (Identities cfg !! IdentityRef node) as [identity|] eqn:Hid.
  2:{ eapply index_inv_ext; [..|exact H1]; intros k m; cbn beta; rewrite ex_some, ?Hh, ?Hid, ?app_nil_r; tauto. }
  assert (ix1 = (fst ix1, snd ix1)) as Hp by (by destruct ix1). rewrite Hp in H1.
  apply (addLookup_inv _ _ _ _ _ (Address host) n) in H1.
  pose proof (add_aliases_inv strict n (elems (hAlias host)) _ _ _ H1 Hn) as H2.
  destruct (add_aliases strict n _ (elems (hAlias host))) as [ix2|e]; cbn [result_bind].
  2:{ destruct H2 as (? & ? & ? & ? & [?|(? & ? & ?)]); [|done]. split; [done|]. split; [|done]. split; [done|]. exists node.
      split; [done|]. rewrite Hh, Hid, elem_of_app. by right. }
  destruct (str_eq (normalizedIdentityUser (User identity)) "") eqn:Hu.
  - eapply index_inv_ext; [..|exact H2]; intros k m; cbn beta; rewrite ex_some, Hh, Hid.
    + rewrite Hu, !elem_of_app, list_elem_of_singleton. destruct (decide (k = Address host)) as [->|]; tauto.
    + rewrite elem_of_app. tauto.
  - assert (ix2 = (fst ix2, snd ix2)) as Hp2 by (by destruct ix2). rewrite Hp2 in H2.
    set (user := normalizedIdentityUser _) in *. set (port := itoa _).
    apply (add_connections_inv _ user port n (elems (hAlias host) ++ [Address host])) in H2.
    apply (add_connections_inv _ user port n (elems (nAlias node))) in H2.
    pose proof (elem_of_connection_blank user port) as Hb.
    eapply index_inv_ext; [..|exact H2]; intros k m; cbn beta; rewrite ex_some, Hh, Hid; [|rewrite elem_of_app; tauto].
    assert (k ∈ connection_names user port (elems (hAlias host) ++ [Address host] ++ elems (nAlias node)) <->
            k ∈ connection_names user port (elems (hAlias host) ++ [Address host]) \/ k ∈ connection_names user port (elems (nAlias node))) as E.
    { rewrite !connection_names_elem. setoid_rewrite elem_of_app. setoid_rewrite elem_of_app. naive_solver. }
    fold user. rewrite Hu. fold port. rewrite !elem_of_app, elem_of_cons, E.
    assert (forall names, k ∈ connection_names user port names -> k <> "") as Hk by (intros names Hk ->; by apply Hb in Hk).
    pose proof (Hk (elems (hAlias host) ++ [Address host])). pose proof (Hk (elems (nAlias node))).
    assert (k = Address host -> (Address host <> "" <-> k <> "")) by (by intros ->). tauto.
Qed.
End Indexing.

Section Building.
Context `{CurrentUser}.
Implicit Types (cfg : Configuration) (S A : string -> string -> Prop).

Lemma index_nodes_inv cfg strict ks : forall S A ix,
  index_inv strict S A ix -> (strict = false -> "" ∉ ks) ->
  match index_nodes cfg strict ix ks with
  | Ok ix' => index_inv strict (fun k m => S k m \/ (m ∈ ks /\ selects cfg k m)) (fun a m => A a m \/ (m ∈ ks /\ owns cfg a m)) ix'
  | Err e => strict = true /\ exists n, owns cfg (conflict_alias e) n /\ conflict_owner e <> n /\
             (A (conflict_alias e) (conflict_owner e) \/ owns cfg (conflict_alias e) (conflict_owner e))
  end.
Proof.
  induction ks as [|n ks IH]; intros S A ix Hi Hs; cbn [index_nodes].
  - eapply index_inv_ext; [..|exact Hi]; set_solver.
  - assert (strict = false -> n <> "") as Hn by (intros E ->; specialize (Hs E); set_solver).
    pose proof (index_node_inv cfg strict S A ix n Hi Hn) as H1.
    destruct (index_node cfg strict ix n) as [ix'|e]; cbn [result_bind].
    + assert (strict = false -> "" ∉ ks) as Hs' by set_solver.
      specialize (IH _ _ _ H1 Hs'). destruct (index_nodes cfg strict ix' ks) as [ix2|e].
      * eapply index_inv_ext; [..|exact IH]; intros k m; cbn beta; rewrite elem_of_cons; naive_solver.
      * destruct IH as (? & m & ? & ? & [[?|[? ?]]|?]); (split; [done|]); exists m; naive_solver.
    + destruct H1 as (? & ? & ? & ?). eauto 6.
Qed.

Lemma sort_strings_elem x l : x ∈ sort_strings l <-> x ∈ l.
Proof. unfold sort_strings. by rewrite merge_sort_Permutation. Qed.

(** What the code builds, when it does, and why it does not otherwise. *)
Lemma buildIndexes_inv `{KeyOrder} cfg strict :
  (strict = false -> Nodes cfg !! "" = None) ->
  match buildIndexes cfg strict with
  | Ok ix => index_inv strict (selects cfg) (owns cfg) ix /\ forall k l, fst ix !! k = Some l -> StronglySorted String.le l
  | Err e => strict = true /\ exists n m, n <> m /\ owns cfg (conflict_alias e) n /\ owns cfg (conflict_alias e) m
  end.
Proof.
  intros Hs. unfold buildIndexes. pose proof (index_nodes_inv cfg strict (keys_of (Nodes cfg)) (fun _ _ => False) (fun _ _ => False) (∅, ∅)) as Hi.
  destruct (index_nodes cfg strict (∅, ∅) _) as [[lookup aliases]|e]; cbn [result_bind].
  - destruct Hi as [HL Hl Ha]; [split; intros *; simpl; rewrite lookup_empty; set_solver| |].
    { intros E Hk. apply keys_elem in Hk as [node Hk]. rewrite Hs in Hk by done. done. }
    cbn [fst snd] in *. split.
    + split; cbn [fst snd].
      * intros k n. rewrite lookup_fmap. transitivity (n ∈ default [] (lookup !! k)).
        { destruct (lookup !! k); simpl; [apply sort_strings_elem|done]. }
        rewrite HL, keys_elem. unfold selects. naive_solver.
      * intros k l. rewrite lookup_fmap. destruct (lookup !! k) as [l0|] eqn:E; [|done]. intros [= <-].
        apply Hl in E as [E1 E2]. unfold sort_strings. split; [by rewrite merge_sort_Permutation|].
        intros E3. apply E2. apply Permutation_nil. rewrite <- E3. by rewrite merge_sort_Permutation.
      * intros a. specialize (Ha a). destruct (aliases !! a) as [x|].
        -- setoid_rewrite keys_elem in Ha. unfold owns in *. destruct Ha as [?|(? & ? & n & m & ? & ? & ?)]; [left; naive_solver|].
           right. split; [done|]. split; [done|]. exists n, m. naive_solver.
        -- setoid_rewrite keys_elem in Ha. unfold owns in *. naive_solver.
    + intros k l. rewrite lookup_fmap. destruct (lookup !! k); [|done]. intros [= <-].
      apply StronglySorted_merge_sort; apply _.
  - destruct Hi as (? & n & Hn & Hne & [?|?]); [split; intros *; simpl; rewrite lookup_empty; set_solver| |done|].
    { intros E Hk. apply keys_elem in Hk as [node Hk]. rewrite Hs in Hk by done. done. }
    split; [done|]. by exists (conflict_owner e), n.
Qed.

(** An index is determined by the pairs it holds. *)
Lemma index_unique s1 s2 S A ix1 ix2 :
  index_inv s1 S A ix1 -> index_inv s2 S A ix2 ->
  (forall k l, fst ix1 !! k = Some l -> StronglySorted String.le l) ->
  (forall k l, fst ix2 !! k = Some l -> StronglySorted String.le l) -> ix1 = ix2.
Proof.
  intros [L1 l1 A1] [L2 l2 A2] S1 S2. destruct ix1 as [x1 a1], ix2 as [x2 a2]. simpl in *. f_equal; apply map_eq.
  - intros k. assert (forall n, n ∈ default [] (x1 !! k) <-> n ∈ default [] (x2 !! k)) as E by (intros n; by rewrite L1, L2).
    destruct (x1 !! k) as [l|] eqn:E1, (x2 !! k) as [l'|] eqn:E2; simpl in E; [|exfalso..|done].
    + f_equal. apply StronglySorted_unique with String.le; [apply _|eauto..|].
      apply NoDup_Permutation; [by eapply l1|by eapply l2|done].
    + destruct (l1 _ _ E1) as [_ Hl]. destruct l as [|n l]; [done|]. specialize (E n). set_solver.
    + destruct (l2 _ _ E2) as [_ Hl]. destruct l' as [|n l']; [done|]. specialize (E n). set_solver.
  - intros a. specialize (A1 a). specialize (A2 a).
    destruct (a1 !! a) as [x|], (a2 !! a) as [y|]; [|exfalso..|done].
    + f_equal. destruct A1 as [[? Hx]|(_ & -> & n & m & ? & ? & ?)], A2 as [[? Hy]|(_ & -> & n' & m' & ? & ? & ?)];
        [by apply Hy|..|done]; exfalso; [assert (n' = m') by (by rewrite (Hx n'), (Hx m'))|assert (n = m) by (by rewrite (Hy n), (Hy m))]; done.
    + destruct A1 as [[? _]|(_ & _ & n & _ & ? & _)]; by eapply A2.
    + destruct A2 as [[? _]|(_ & _ & n & _ & ? & _)]; by eapply A1.
Qed.
End Building.

(** * Theorems *)

(** C29: The lists of the index under a selector are, sorted and without duplicates, the
    nodes the selector names; an alias maps to the node that alone owns it.  Indexes
    that refuse shared aliases are built exactly when no alias has two owners, and
    then agree with those that do not refuse; neither depends on the order in which the
    nodes are visited. *)
Theorem indexes_exact `{CurrentUser} (O1 O2 : KeyOrder) cfg (Hid : Nodes cfg !! "" = None) :
  exists lookup aliases,
    @buildIndexes _ O1 cfg false = Ok (lookup, aliases) /\ @buildIndexes _ O2 cfg false = Ok (lookup, aliases) /\
    (forall k n, n ∈ default [] (lookup !! k) <-> selects cfg k n) /\
    (forall k l, lookup !! k = Some l -> NoDup l /\ l <> [] /\ StronglySorted String.le l) /\
    (forall a n, n <> "" -> aliases !! a = Some n <-> owns cfg a n /\ forall m, owns cfg a m -> m = n) /\
    ((forall a n m, owns cfg a n -> owns cfg a m -> n = m) ->
       @buildIndexes _ O1 cfg true = Ok (lookup, aliases) /\ @buildIndexes _ O2 cfg true = Ok (lookup, aliases)) /\
    (forall a n m, owns cfg a n -> owns cfg a m -> n <> m ->
       exists e1 e2, @buildIndexes _ O1 cfg true = Err e1 /\ @buildIndexes _ O2 cfg true = Err e2).
Proof.
  pose proof (@buildIndexes_inv _ O1 cfg false (fun _ => Hid)) as B1. pose proof (@buildIndexes_inv _ O2 cfg false (fun _ => Hid)) as B2.
  destruct (@buildIndexes _ O1 cfg false) as [[lookup aliases]|]; [|by destruct B1]. destruct B1 as [I1 S1].
  destruct (@buildIndexes _ O2 cfg false) as [ix2|]; [|by destruct B2]. destruct B2 as [I2 S2].
  rewrite <- (index_unique _ _ _ _ _ _ I1 I2 S1 S2). exists lookup, aliases.
  split; [done|]. split; [done|]. split; [apply (ii_lookup _ _ _ _ I1)|]. split; [|split; [|split]].
  - intros k l Hk. specialize (S1 k l Hk). by destruct (ii_list _ _ _ _ I1 k l Hk).
  - intros a n Hn. pose proof (ii_alias _ _ _ _ I1 a) as Ha. simpl in Ha. split.
    + intros E. rewrite E in Ha. destruct Ha as [[??]|(_ & -> & _)]; done.
    + intros [Ho Hu]. destruct (aliases !! a) as [x|]; [|by apply Ha in Ho].
      destruct Ha as [[Hx _]|(_ & _ & m & m' & ? & ? & Hne)]; [by rewrite (Hu x)|]. by rewrite (Hu m), (Hu m') in Hne.
  - intros Hu. assert (forall O, exists ix, @buildIndexes _ O cfg true = Ok ix /\ ix = (lookup, aliases)) as E.
    { intros O. pose proof (@buildIndexes_inv _ O cfg true ltac:(done)) as B. destruct (@buildIndexes _ O cfg true) as [ix|e].
      - destruct B as [I S]. exists ix. split; [done|]. by eapply index_unique.
      - destruct B as (_ & n & m & Hne & Ho & Ho'). by rewrite (Hu _ _ _ Ho Ho') in Hne. }
    destruct (E O1) as (? & -> & ->), (E O2) as (? & -> & ->). done.
  - intros a n m Hn Hm Hne. assert (forall O, exists e, @buildIndexes _ O cfg true = Err e) as E.
    { intros O. pose proof (@buildIndexes_inv _ O cfg true ltac:(done)) as B. destruct (@buildIndexes _ O cfg true) as [ix|e]; [|eauto].
      destruct B as [I _]. pose proof (ii_alias _ _ _ _ I a) as Ha. destruct (snd ix !! a); [|by apply Ha in Hn].
      destruct Ha as [[_ Hu]|[? _]]; [|done]. by rewrite (Hu n), (Hu m) in Hne. }
    destruct (E O1) as [e1 ->], (E O2) as [e2 ->]. by exists e1, e2.
Qed.

(** Copies keep what selects a node. *)
Lemma clone_selects `{CurrentUser} cfg k n : selects (cloneConfiguration (Some cfg)) k n <-> selects cfg k n.
Proof.
  unfold selects. simpl. rewrite lookup_fmap. destruct (Nodes cfg !! n) as [node|] eqn:Hn; simpl; [|naive_solver].
  rewrite !ex_some. unfold selectors, node_aliases. simpl. rewrite !lookup_fmap.
  destruct (Hosts cfg !! HostRef node); simpl; [|done]. by destruct (Identities cfg !! IdentityRef node).
Qed.

Lemma clone_owns cfg a n : owns (cloneConfiguration (Some cfg)) a n <-> owns cfg a n.
Proof.
  unfold owns. simpl. rewrite lookup_fmap. destruct (Nodes cfg !! n) as [node|] eqn:Hn; simpl; [|naive_solver].
  rewrite !ex_some. unfold node_aliases. simpl. rewrite !lookup_fmap.
  destruct (Hosts cfg !! HostRef node); simpl; [|done]. by destruct (Identities cfg !! IdentityRef node).
Qed.

(** The provider's indexes are those of its configuration. *)
Record provider_ok `{CurrentUser} (p : Provider) : Prop := {
  po_index : index_inv false (selects (p_cfg p)) (owns (p_cfg p)) (p_lookup p, p_aliases p);
  po_sorted : forall k l, p_lookup p !! k = Some l -> StronglySorted String.le l
}.
Lemma newProvider_ok `{CurrentUser} `{KeyOrder} cfg parser :
  Nodes cfg !! "" = None -> provider_ok (newProvider (Some cfg) parser) /\ p_cfg (newProvider (Some cfg) parser) = cloneConfiguration (Some cfg).
Proof.
  intros Hid. assert (Nodes (cloneConfiguration (Some cfg)) !! "" = None) as Hc by (simpl; by rewrite lookup_fmap, Hid).
  pose proof (buildIndexes_inv (cloneConfiguration (Some cfg)) false (fun _ => Hc)) as B. unfold newProvider.
  destruct (buildIndexes _ false) as [[lookup aliases]|]; [|by destruct B]. destruct B as [I S]. split; [by split|done].
Qed.

Lemma newProvider_parser `{CurrentUser} `{KeyOrder} cfg parser : p_openSSH (newProvider cfg parser) = parser.
Proof. unfold newProvider. by destruct (buildIndexes _ false) as [[]|]. Qed.

(** A selector resolves to a node of that name; otherwise to the only node it names; it
    is ambiguous, with all candidates in order, when it names several; a selector
    that names none denotes a host of OpenSSH when a parsed configuration is there and it
    is a plain name.  An alias is found exactly when one node owns it. *)
Theorem selector_exact `{CurrentUser} `{KeyOrder} cfg parser input (Hid : Nodes cfg !! "" = None) :
  let p := newProvider (Some cfg) parser in
  (is_Some (Nodes cfg !! input) -> ResolveSelector p input = Ok input) /\
  (Nodes cfg !! input = None ->
     (forall n, selects cfg input n -> (forall m, selects cfg input m -> m = n) -> ResolveSelector p input = Ok n) /\
     (forall n m, selects cfg input n -> selects cfg input m -> n <> m ->
        exists l, ResolveSelector p input = Err (AmbiguousNode input l) /\ StronglySorted String.le l /\ NoDup l /\
          forall x, x ∈ l <-> selects cfg input x) /\
     ((forall n, ~ selects cfg input n) ->
        ResolveSelector p input = Ok (if parser_loaded parser then default "" (openssh_Find input) else ""))) /\
  (forall n, n <> "" -> FindAlias p input = n <-> owns cfg input n /\ forall m, owns cfg input m -> m = n).
Proof.
  intros p. destruct (newProvider_ok cfg parser Hid) as [[HI Hs] Hc]. fold p in HI, Hs, Hc. rewrite Hc in HI.
  apply (index_inv_ext _ _ (selects cfg) _ (owns cfg)) in HI as [HL Hl Ha]; [|apply clone_selects|apply clone_owns]. cbn [fst snd] in *.
  pose proof (newProvider_parser (Some cfg) parser : p_openSSH p = parser) as Hp.
  assert (forall n, n ∈ default [] (p_lookup p !! input) <-> selects cfg input n) as E.
  { intros n. by rewrite HL. }
  assert (Nodes (p_cfg p) !! input = cloneNode <$> Nodes cfg !! input) as En by (rewrite Hc; simpl; by rewrite lookup_fmap).
  split; [|split].
  - intros [node Hn]. unfold ResolveSelector. by rewrite En, Hn.
  - intros Hn. unfold ResolveSelector. rewrite En, Hn, Hp. simpl. specialize (Hl input). specialize (Hs input).
    destruct (p_lookup p !! input) as [l|] eqn:El; simpl in E |- *.
    + destruct (Hl _ eq_refl) as [Hnd Hne]. specialize (Hs _ eq_refl). destruct l as [|x [|y l]]; [done|split; [|split]|split; [|split]].
      * intros n Hsel Hu. f_equal. apply Hu, E. set_solver.
      * intros n m Hsn Hsm Hnm. apply E in Hsn, Hsm. apply list_elem_of_singleton in Hsn, Hsm. congruence.
      * intros Hno. exfalso. apply (Hno x), E. set_solver.
      * intros n Hsel Hu. exfalso. apply NoDup_cons in Hnd as [Hnd _]. apply Hnd.
        assert (x = n) as -> by (apply Hu, E; set_solver). assert (y = n) as -> by (apply Hu, E; set_solver). set_solver.
      * intros n m _ _ _. by exists (x :: y :: l).
      * intros Hno. exfalso. apply (Hno x), E. set_solver.
    + assert (forall n, ~ selects cfg input n) as Hno by (intros n Hsel; by apply E, elem_of_nil in Hsel).
      split; [|split]; [intros n Hsel|intros n m Hsel|]; [by apply Hno in Hsel..|].
      intros _. destruct (parser_loaded parser); [|done]. by destruct (openssh_Find input).
  - intros n Hn. unfold FindAlias. specialize (Ha input).
    destruct (str_eq input "") eqn:Hb; str_facts.
    { split; [congruence|]. intros [[Ho _] _]. done. }
    destruct (p_aliases p !! input) as [x|]; simpl.
    + destruct Ha as [[Hx Hu]|(_ & -> & m & m' & ? & ? & ?)]; [naive_solver|]. split; [by intros <-|].
      intros [_ Hu]. assert (m = m') by (by rewrite (Hu m), (Hu m')). done.
    + split; [by intros <-|]. intros [Ho _]. by apply Ha in Ho.
Qed.

(** ** Lists of nodes *)
Lemma collect_spec cfg keep ks : forall acc n,
  collect cfg keep acc ks !! n =
  match Nodes cfg !! n with
  | Some node => if bool_decide (n ∈ ks) && negb (isLocalNode cfg node) && keep node then Some (cloneNode node) else acc !! n
  | None => acc !! n
  end.
Proof.
  induction ks as [|k ks IH]; intros acc n; cbn [collect].
  - rewrite bool_decide_eq_false_2 by set_solver. simpl. by destruct (Nodes cfg !! n).
  - destruct (decide (n = k)) as [->|Hne].
    + destruct (Nodes cfg !! k) as [node|] eqn:Hk; [|by rewrite IH, Hk].
      rewrite (bool_decide_eq_true_2 (k ∈ k :: ks)) by set_solver. simpl.
      destruct (isLocalNode cfg node) eqn:Hloc, (keep node) eqn:Hkeep; simpl; rewrite IH, Hk, ?Hloc, ?Hkeep, ?andb_false_r; try done.
      simpl. rewrite lookup_insert_eq. by destruct (bool_decide (k ∈ ks)).
    + assert (bool_decide (n ∈ k :: ks) = bool_decide (n ∈ ks)) as -> by (apply bool_decide_ext; set_solver).
      destruct (Nodes cfg !! k) as [node|]; [|by rewrite IH].
      destruct (isLocalNode cfg node || negb (keep node)); rewrite IH; [done|]. by rewrite lookup_insert_ne.
Qed.

(** The nodes listed, and those with a tag, are the ones that are not this machine. *)
Theorem lists_exact `{KeyOrder} p tag n :
  (ListNodes p !! n = node ← Nodes (p_cfg p) !! n; if isLocalNode (p_cfg p) node then None else Some (cloneNode node)) /\
  (GetNodesByTag p tag !! n = node ← Nodes (p_cfg p) !! n;
     if isLocalNode (p_cfg p) node || negb (slice_contains (elems (nTags node)) tag) then None else Some (cloneNode node)).
Proof.
  unfold ListNodes, GetNodesByTag. rewrite !collect_spec. destruct (Nodes (p_cfg p) !! n) as [node|] eqn:Hn; [|done]. simpl.
  rewrite bool_decide_eq_true_2 by (by apply keys_elem; exists node). simpl. rewrite lookup_empty.
  destruct (isLocalNode (p_cfg p) node), (slice_contains _ tag); done.
Qed.

(** * Witnesses *)
Definition sample_host : Host := mkHost None "10.0.0.1" 22.
Definition sample_identity : Identity := mkIdentity "root" "" "" "" "" "password" (Some (mkRef "file" "a1")) None None None.
Definition sample_node (alias : string) : Node := mkNode (Some [alias]) None "h1" "i1" "" "none" "" None "" None None "".
(** Two nodes on one host with one identity. *)
Definition sample_config : Configuration :=
  mkConfiguration 2 (Some DefaultCredentialConfig) {["i1" := sample_identity]} {["h1" := sample_host]}
    (<["web" := sample_node "w"]> {["db" := sample_node "d"]}) None None "" None None.
Definition no_openssh : OpenSSHParser := mkParser false (fun spec => Err (VirtualNode spec)) (fun _ => false).

Lemma indexes_exact_witness :
  let U : CurrentUser := Some "ops" in
  Nodes sample_config !! "" = None /\
  exists lookup aliases, buildIndexes sample_config false = Ok (lookup, aliases) /\
    lookup !! "root@10.0.0.1" = Some ["db"; "web"] /\ aliases !! "w" = Some "web".
Proof.
  intros U. split; [reflexivity|].
  destruct (indexes_exact map_order map_order sample_config eq_refl) as (lookup & aliases & E & _).
  exists lookup, aliases. split; [exact E|].
  assert (match buildIndexes sample_config false with Ok ix => fst ix !! "root@10.0.0.1" = Some ["db"; "web"] /\ snd ix !! "w" = Some "web" | Err _ => False end) as C
    by (vm_compute; split; reflexivity).
  rewrite E in C. exact C.
Defined.

Lemma selector_exact_witness :
  let U : CurrentUser := Some "ops" in
  let p := newProvider (Some sample_config) no_openssh in
  ResolveSelector p "w" = Ok "web" /\ ResolveSelector p "10.0.0.1:22" = Ok "" /\
  ResolveSelector p "root@10.0.0.1:22" = Err (AmbiguousNode "root@10.0.0.1:22" ["db"; "web"]) /\
  ResolveSelector p "web" = Ok "web".
Proof.
  intros U p. split; [vm_compute; reflexivity|]. split; [vm_compute; reflexivity|]. split; [vm_compute; reflexivity|].
  destruct (selector_exact sample_config no_openssh "web" eq_refl) as [E _]. apply E. exists (sample_node "w"). vm_compute. reflexivity.
Defined.
