(* ===== verification/OpenSSH.v ===== *)
(** The OpenSSH configuration of the user: pkg/config openssh.go and openssh_import.go.

    The parsed file is a value of the library github.com/kevinburke/ssh_config: its blocks
    with their patterns, keys and the matching of a host against them, and its lookup of a
    key for a host.  From it come the virtual nodes that stand for hosts nobody saved, the
    options of a host, and the entries an import offers.  The theorems show what a host
    specification parses to, and that no option that decides whom to trust
    ever comes out of this file. *)
From S2P Require Export Config.
From S2P Require Import GoPath GoNumbers.
#[local] Open Scope Z_scope.

(** * Text *)

(** [strings.TrimPrefix] and [strings.TrimSuffix]. *)
Definition trim_prefix (s p : string) : string := match strip_prefix p s with Some t => t | None => s end.
Definition trim_suffix (s p : string) : string := match strip_prefix (string_rev p) (string_rev s) with Some t => string_rev t | None => s end.
(** An address without blanks around it and without brackets. *)
Definition clean_address (s : string) : string := trim_prefix (trim_suffix (trim_space s) "]") "[".
(** The text before and after the last separator. *)
Fixpoint cut_last (sep : ascii) (s : string) : option (string * string) :=
  match s with
  | EmptyString => None
  | String c r =>
      match cut_last sep r with
      | Some (a, b) => Some (String c a, b)
      | None => if Ascii.eqb c sep then Some (EmptyString, r) else None
      end
  end.

(** * Host specifications *)
Inductive spec_error := NoHost | BadUserOrHost | BadBrackets | BadSuffix (suffix : string) | BadHostPort (spec : string) | BadPort (text : string).
Record HostSpec := mkSpecHost { spec_host : string; spec_user : string; spec_port : Z }.

(** [strconv.ParseUint(s, 10, 16)], and not zero. *)
Definition parse_port (s : string) : option Z := p ← parse_digits 65535 s; if p =? 0 then None else Some p.

(** The host of a specification without its user, and the text of its port if it has one. *)
Definition split_port (spec : string) : result spec_error (string * option string) :=
  match strip_prefix "[" spec with
  | Some rest =>
      match cut_byte "]" rest with
      | None => Err BadBrackets
      | Some (host, suffix) =>
          if str_eq suffix "" then Ok (host, None)
          else match strip_prefix ":" suffix with
               | Some port => Ok (host, Some port)
               | None => Err (BadSuffix suffix)
               end
      end
  | None =>
      if Nat.eqb (count spec ":") 1 then
        (* net.SplitHostPort, with one colon *)
        match cut_byte ":" spec with
        | Some (host, port) => reject contains spec "[" || contains spec "]" with BadHostPort spec ;; Ok (host, Some port)
        | None => Err (BadHostPort spec)
        end
      else Ok (spec, None)
  end.
Definition parseOpenSSHHostSpec (spec : string) : result spec_error HostSpec :=
  let spec := trim_space spec in
  reject str_eq spec "" with NoHost ;;
  try us := match cut_last "@" spec with
            | None => Ok ("", spec)
            | Some (u, h) => let u := trim_space u in let h := trim_space h in
                             reject str_eq u "" || str_eq h "" with BadUserOrHost ;; Ok (u, h)
            end ;;
  try hp := split_port (snd us) ;;
  let host := trim_space (fst hp) in
  reject str_eq host "" with NoHost ;;
  match snd hp with
  | None => Ok (mkSpecHost host (fst us) 0)
  | Some text => match parse_port text with Some port => Ok (mkSpecHost host (fst us) port) | None => Err (BadPort text) end
  end.

Definition FormatHostPort (address : string) (port : Z) : string :=
  let cleaned := clean_address address in
  if contains cleaned ":" then "[" +:+ cleaned +:+ "]:" +:+ itoa port else cleaned +:+ ":" +:+ itoa port.
Definition FormatNodeID (user address : string) (port : Z) : string := user +:+ "@" +:+ FormatHostPort address port.

(** * The parsed file *)

(** A block [Host patterns...]: its patterns, which hosts it matches, and its keys. *)
Record HostBlock := mkBlock { Patterns : list string; Matches : string -> bool; KVs : list (string * string) }.
(** [ssh_config.Config]; [Get] fails on a value that is not valid for its key. *)
Record SSHConfig := mkSSHConfig { Blocks : list HostBlock; ssh_Get : string -> string -> option string }.

(** [os.UserHomeDir], when it succeeds. *)
Class UserHome := user_home : option string.

Inductive openssh_error :=
  | BadSpec (e : spec_error) | KeyFailed (key host : string) | NoUser | PortInvalid (port host : string) | NoHome | OptionInvalid (name host : string) (e : SshOptions.option_error).

Definition of_opt {E A} (o : option A) (e : E) : result E A := match o with Some a => Ok a | None => Err e end.

Definition isConcreteSSHHost (pattern : string) : bool :=
  negb (str_eq pattern "") && negb (has_prefix pattern "!") && negb (contains_any pattern "*?").
(** The host a selector names in the file. *)
Definition lookup_alias (alias : string) : string :=
  let clean := trim_prefix alias OpenSSHNodePrefix in
  match parseOpenSSHHostSpec clean with Ok s => spec_host s | Err _ => clean end.
Definition ssh_HasHost (cfg : option SSHConfig) (alias : string) : bool :=
  match cfg with
  | None => false
  | Some cfg => if str_eq alias "" then false
                else existsb (fun b => existsb isConcreteSSHHost (Patterns b) && Matches b (lookup_alias alias)) (Blocks cfg)
  end.

Definition getVal (cfg : option SSHConfig) (alias key defaultVal : string) : result openssh_error string :=
  match cfg with
  | None => Ok defaultVal
  | Some cfg => match ssh_Get cfg alias key with
                | None => Err (KeyFailed key alias)
                | Some val => Ok (if str_eq val "" then defaultVal else val)
                end
  end.
Definition expandHomeDir `{UserHome} (path : string) : result openssh_error string :=
  match strip_prefix "~" path with
  | Some rest => match user_home with Some home => Ok (path_join home rest) | None => Err NoHome end
  | None => Ok path
  end.
Definition parseOpenSSHProxyJump (raw : string) : string :=
  if str_eq raw "" || equal_fold (trim_space raw) "none" then ""
  else join "," (omap (fun rawHop => let hop := trim_space rawHop in
                         if str_eq hop "" || equal_fold hop "none" then None else Some (OpenSSHNodePrefix +:+ hop)) (split_on "," raw)).

Section Options.
Context `{Alg : SshOptions.Algorithms}.
Import SshOptions.

(** The first value of a block for one of several names, that is not blank. *)
Fixpoint first_kv (keys : list string) (kvs : list (string * string)) : option string :=
  match kvs with
  | [] => None
  | (k, v) :: kvs =>
      let v := trim_space v in
      if one_of (to_lower (trim_space k)) keys && negb (str_eq v "") then Some v else first_kv keys kvs
  end.
Fixpoint first_block (keys : list string) (host : string) (blocks : list HostBlock) : string :=
  match blocks with
  | [] => ""
  | b :: blocks =>
      if negb (Matches b host) then first_block keys host blocks
      else match first_kv keys (KVs b) with Some v => v | None => first_block keys host blocks end
  end.
Definition firstMatchingOpenSSHOption (cfg : SSHConfig) (host : string) (spec : OptionSpec) : result openssh_error string :=
  match Aliases spec with
  | [] => match ssh_Get cfg host (OpenSSHName spec) with
          | None => Err (KeyFailed (OpenSSHName spec) host)
          | Some val => Ok (trim_space val)
          end
  | aliases => Ok (first_block (to_lower (OpenSSHName spec) :: map to_lower aliases) host (Blocks cfg))
  end.
(** One option of a host; only a wrong [ControlMaster] or [ControlPersist] is an error. *)
Definition take_option (cfg : SSHConfig) (host : string) (opts : Options) (spec : OptionSpec) : result openssh_error Options :=
  if bool_decide (Class_ spec = ClassTrust) then Ok opts
  else
    try val := firstMatchingOpenSSHOption cfg host spec ;;
    if str_eq val "" then Ok opts
    else
      let val := if AllowList spec then FilterSupportedListValue (CanonicalKey spec) val else val in
      if AllowList spec && str_eq val "" then Ok opts
      else match SetOption opts (CanonicalKey spec) val with
           | Ok opts => Ok opts
           | Err e => if one_of (CanonicalKey spec) [OptionControlMaster; OptionControlPersist]
                      then Err (OptionInvalid (OpenSSHName spec) host e) else Ok opts
           end.
Fixpoint take_options (cfg : SSHConfig) (host : string) (opts : Options) (specs : list OptionSpec) : result openssh_error Options :=
  match specs with
  | [] => Ok opts
  | spec :: specs => try opts := take_option cfg host opts spec ;; take_options cfg host opts specs
  end.
Definition parseOpenSSHOptions (cfg : option SSHConfig) (host : string) : result openssh_error (option Options) :=
  match cfg with
  | None => Ok None
  | Some cfg =>
      if str_eq host "" then Ok None
      else try opts := take_options cfg host (SshOptions.mkOptions None false) optionRegistry ;;
           Ok (if options_empty opts then None else Some opts)
  end.

Definition GetSSHOptions (cfg : option SSHConfig) (alias : string) : result openssh_error (option Options) :=
  match cfg with
  | None => Ok None
  | Some _ => if str_eq alias "" then Ok None else parseOpenSSHOptions cfg (lookup_alias alias)
  end.
Definition GetControlConfig (cfg : option SSHConfig) (alias : string) : result openssh_error (option ControlConfig) :=
  try opts := GetSSHOptions cfg alias ;;
  Ok (match opts with None => None | Some o => options_ControlConfig (Some o) end).
End Options.

(** * Virtual nodes *)
Section VirtualNodes.
Context `{Alg : SshOptions.Algorithms} `{Usr : CurrentUser} `{Home : UserHome}.

Definition ssh_GetVirtualNode (cfg : option SSHConfig) (alias : string) : result openssh_error (Node * Host * Identity) :=
  match parseOpenSSHHostSpec alias with
  | Err e => Err (BadSpec e)
  | Ok s =>
      let lookupAlias := spec_host s in
      try hostName := getVal cfg lookupAlias "HostName" lookupAlias ;;
      try userVal := getVal cfg lookupAlias "User" "" ;;
      try user := (if str_eq userVal "" then of_opt current_user NoUser else Ok userVal) ;;
      try portStr := getVal cfg lookupAlias "Port" "22" ;;
      try port := of_opt (parse_port (trim_space portStr)) (PortInvalid (trim_space portStr) lookupAlias) ;;
      let user := if str_eq (spec_user s) "" then user else spec_user s in
      let port := if spec_port s =? 0 then port else spec_port s in
      try identityFile := getVal cfg lookupAlias "IdentityFile" "" ;;
      try identityFile := expandHomeDir identityFile ;;
      try proxyJump := getVal cfg lookupAlias "ProxyJump" "" ;;
      try sshOpts := parseOpenSSHOptions cfg lookupAlias ;;
      Ok (mkNode (Some [alias]) (Some ["openssh"]) (hostName +:+ ":" +:+ itoa port) (user +:+ "@" +:+ hostName) (parseOpenSSHProxyJump proxyJump)
            "auto" "" None "" None sshOpts "",
          mkHost None hostName port,
          mkIdentity user identityFile "" "" "" "auto" None None None None)
  end.

(** The parser as the provider sees it. *)
Definition parser_of (cfg : option SSHConfig) : OpenSSHParser :=
  mkParser (bool_decide (is_Some cfg))
    (fun spec => match ssh_GetVirtualNode cfg spec with Ok v => Ok v | Err _ => Err (VirtualNode spec) end)
    (ssh_HasHost cfg).
End VirtualNodes.

(** * Import *)
Section Importing.
Context `{Alg : SshOptions.Algorithms} `{Home : UserHome}.
Import SshOptions.

Record OpenSSHHost := mkOpenSSHHost { oh_Name : string; oh_Host : Host; oh_Identity : Identity; oh_Node : Node }.

(** Only options of the multiplexing and transport classes are saved with a node, and only when they are valid there. *)
Definition normalizeImportedSSHOptions (opts : option Options) : option Options :=
  match (if IsEmpty opts then None else FilterByClasses opts [ClassMux; ClassTransport]) with
  | None => None
  | Some cloned =>
      if options_empty cloned then None
      else
        let pathVal := ControlPath (Some cloned) in
        let masterMode := ControlMaster (Some cloned) in
        let persistVal := ControlPersist (Some cloned) in
        let cloned :=
          if str_eq pathVal "" then Delete (Delete cloned OptionControlMaster) OptionControlPersist
          else
            let cloned :=
              if str_eq masterMode ControlMasterNo && negb (str_eq persistVal "") then
                match ParseControlPersist persistVal with
                | Some (enabled, _, _) => if enabled then Delete cloned OptionControlPersist else cloned
                | None => Delete cloned OptionControlPersist
                end
              else cloned in
            if str_eq pathVal "none" then
              Delete (match SetOption cloned OptionControlMaster ControlMasterNo with Ok o => o | Err _ => cloned end) OptionControlPersist
            else cloned in
        if options_empty cloned then None else Some cloned
  end.

Definition openSSHValue (cfg : SSHConfig) (host key fallback : string) : result openssh_error string :=
  match ssh_Get cfg host key with
  | None => Err (KeyFailed key host)
  | Some value => let value := trim_space value in Ok (if str_eq value "" then fallback else value)
  end.
Definition openSSHHostFromConfig (cfg : SSHConfig) (name defaultUser : string) : result openssh_error OpenSSHHost :=
  try address := openSSHValue cfg name "HostName" name ;;
  try user := openSSHValue cfg name "User" defaultUser ;;
  try portValue := openSSHValue cfg name "Port" "22" ;;
  try port := of_opt (parse_port (trim_space portValue)) (PortInvalid portValue name) ;;
  try keyPath := openSSHValue cfg name "IdentityFile" "" ;;
  try proxyJump := openSSHValue cfg name "ProxyJump" "" ;;
  let proxyJump := if equal_fold proxyJump "none" then "" else proxyJump in
  try expandedKeyPath := expandHomeDir keyPath ;;
  try sshOpts := parseOpenSSHOptions (Some cfg) name ;;
  Ok (mkOpenSSHHost name (mkHost None address port) (mkIdentity user expandedKeyPath "" "" "" "auto" None None None None)
        (mkNode (Some [name]) (Some ["openssh"]) "" "" proxyJump "auto" "" None "" None (normalizeImportedSSHOptions sshOpts) "")).

(** The patterns of all blocks, each concrete one once. *)
Fixpoint import_hosts (cfg : SSHConfig) (defaultUser : string) (seen : list string) (patterns : list string) : result openssh_error (list OpenSSHHost) :=
  match patterns with
  | [] => Ok []
  | name :: patterns =>
      if negb (isConcreteSSHHost name) || slice_contains seen name then import_hosts cfg defaultUser seen patterns
      else
        try host := openSSHHostFromConfig cfg name defaultUser ;;
        try hosts := import_hosts cfg defaultUser (name :: seen) patterns ;;
        Ok (host :: hosts)
  end.
Definition ParseOpenSSHHosts (cfg : SSHConfig) (defaultUser : string) : result openssh_error (list OpenSSHHost) :=
  import_hosts cfg defaultUser [] (concat (map Patterns (Blocks cfg))).
End Importing.

(** * Lemmas: specifications *)
Definition has_byte (c : ascii) (s : string) : bool := exists_byte (Ascii.eqb c) s.

Lemma rev_app_byte f s : forall acc, exists_byte f (string_rev_app s acc) = exists_byte f s || exists_byte f acc.
Proof. induction s as [|c s IH]; intros acc; cbn [string_rev_app exists_byte]; [done|]. rewrite IH. cbn [exists_byte]. by destruct (f c), (exists_byte f s). Qed.
Lemma rev_byte f s : exists_byte f (string_rev s) = exists_byte f s.
Proof. unfold string_rev. rewrite rev_app_byte. apply orb_false_r. Qed.
Lemma strip_absent c s : has_byte c s = false -> strip_prefix (str1 c) s = None.
Proof.
  intros H. destruct (strip_prefix (str1 c) s) as [t|] eqn:E; [|done]. apply strip_prefix_spec in E as ->. unfold has_byte in H. simpl in H.
  by rewrite Ascii.eqb_refl in H.
Qed.
Lemma contains_byte c s : contains s (str1 c) = has_byte c s.
Proof.
  apply eq_true_iff_eq. rewrite contains_spec. unfold has_byte. rewrite exists_byte_spec. split.
  - intros (a & b & ->). exists a, c, b. split; [done|]. apply Ascii.eqb_refl.
  - intros (a & d & b & -> & ->%Ascii.eqb_eq). by exists a, b.
Qed.
Lemma clean_plain a : trim_space a = a -> has_byte "[" a = false -> has_byte "]" a = false -> clean_address a = a.
Proof.
  intros Ht H1 H2. unfold clean_address, trim_suffix. rewrite Ht. change (string_rev "]") with (str1 "]").
  rewrite strip_absent by (unfold has_byte; by rewrite rev_byte). unfold trim_prefix. change "["%string with (str1 "["). by rewrite strip_absent.
Qed.

Lemma cut_last_absent c s : has_byte c s = false -> cut_last c s = None.
Proof.
  induction s as [|d s IH]; [done|]. unfold has_byte in *. cbn [exists_byte cut_last]. intros [Hd Hs]%orb_false_iff. rewrite IH by done.
  by rewrite Ascii.eqb_sym, Hd.
Qed.
Lemma cut_last_app c a b : has_byte c b = false -> cut_last c (a +:+ String c b) = Some (a, b).
Proof.
  intros Hb. induction a as [|d a IH].
  - change ("" +:+ String c b) with (String c b). cbn [cut_last]. by rewrite (cut_last_absent _ _ Hb), Ascii.eqb_refl.
  - change (String d a +:+ String c b) with (String d (a +:+ String c b)). cbn [cut_last]. by rewrite IH.
Qed.
Lemma count_single c a b : has_byte c a = false -> has_byte c b = false -> count (a +:+ String c b) (str1 c) = 1%nat.
Proof.
  intros Ha Hb. change (count_from 0 (a +:+ String c b) (str1 c) = 1%nat). induction a as [|d a IH].
  - change ("" +:+ String c b) with (String c b). cbn [count_from]. unfold has_prefix, str1. cbn [strip_prefix]. rewrite Ascii.eqb_refl. f_equal.
    change (String.length (String c "") - 1)%nat with 0%nat. apply count_zero; [done|]. exact (eq_trans (contains_byte c b) Hb).
  - unfold has_byte in Ha. cbn [exists_byte] in Ha. apply orb_false_iff in Ha as [Hd Ha].
    change (String d a +:+ String c b) with (String d (a +:+ String c b)). cbn [count_from].
    unfold has_prefix, str1. cbn [strip_prefix]. rewrite Hd. by apply IH.
Qed.

(** A user and an address that can be written in a specification. *)
Definition plain_user (u : string) : Prop := u <> "" /\ all_bytes is_graph u = true.
Definition plain_address (a : string) : Prop :=
  a <> "" /\ all_bytes is_graph a = true /\ has_byte "@" a = false /\ has_byte "[" a = false /\ has_byte "]" a = false.

Lemma graph_app a b : all_bytes is_graph a = true -> all_bytes is_graph b = true -> all_bytes is_graph (a +:+ b) = true.
Proof. intros Ha Hb. by rewrite all_bytes_app, Ha, Hb. Qed.
Lemma digits_graph n : 0 <= n -> all_bytes is_graph (itoa n) = true.
Proof.
  intros Hn. destruct (itoa_nat n Hn) as (_ & H & _). revert H. apply all_bytes_impl. intros c.
  unfold is_digit, is_graph, byte_in. rewrite !andb_true_iff, !N.leb_le. lia.
Qed.
Lemma digits_without c n : 0 <= n -> is_digit c = false -> has_byte c (itoa n) = false.
Proof.
  intros Hn Hc. destruct (itoa_nat n Hn) as (_ & H & _). unfold has_byte. destruct (exists_byte _ _) eqn:E; [|done].
  apply exists_byte_spec in E as (a & d & b & E & ->%Ascii.eqb_eq). rewrite E, all_bytes_app, all_bytes_cons in H.
  by rewrite Hc, andb_false_r in H.
Qed.
Lemma parse_port_itoa p : 1 <= p <= 65535 -> parse_port (itoa p) = Some p.
Proof. intros Hp. unfold parse_port. rewrite parse_digits_itoa by lia. cbn. by rewrite (proj2 (Z.eqb_neq p 0)) by lia. Qed.

(** The part of a specification after the user. *)
Lemma host_port_graph a p : plain_address a -> 0 <= p -> all_bytes is_graph (FormatHostPort a p) = true.
Proof.
  intros (_ & Ha & _ & H1 & H2) Hp. unfold FormatHostPort. rewrite clean_plain by (try done; by apply graph_trim_space).
  destruct (contains a ":"); repeat apply graph_app; try done; by apply digits_graph.
Qed.
Lemma host_port_no_at a p : plain_address a -> 0 <= p -> has_byte "@" (FormatHostPort a p) = false.
Proof.
  intros (_ & Ha & Hat & H1 & H2) Hp. unfold FormatHostPort. rewrite clean_plain by (try done; by apply graph_trim_space).
  assert (has_byte "@" (itoa p) = false) as Hd by (by apply digits_without). unfold has_byte in *.
  destruct (contains a ":"); rewrite !exists_byte_app, Hat, Hd; done.
Qed.
Lemma split_host_port a p : plain_address a -> 0 <= p -> split_port (FormatHostPort a p) = Ok (a, Some (itoa p)).
Proof.
  intros (Hne & Ha & _ & H1 & H2) Hp. unfold FormatHostPort. rewrite clean_plain by (try done; by apply graph_trim_space).
  change (contains a ":") with (contains a (str1 ":")). rewrite contains_byte. unfold split_port. destruct (has_byte ":" a) eqn:Hc.
  - change ("[" +:+ a +:+ "]:" +:+ itoa p) with (String "[" (a +:+ String "]" (String ":" (itoa p)))). assert (forall x, strip_prefix "[" (String "[" x) = Some x) as -> by done.
    by rewrite cut_byte_app.
  - change (a +:+ ":" +:+ itoa p) with (a +:+ String ":" (itoa p)). destruct a as [|c a]; [done|].
    change (String c a +:+ String ":" (itoa p)) with (String c (a +:+ String ":" (itoa p))).
    cbn [strip_prefix]. unfold has_byte in H1. cbn [exists_byte] in H1. apply orb_false_iff in H1 as [Hb H1]. rewrite Hb.
    change (String c (a +:+ String ":" (itoa p))) with (String c a +:+ String ":" (itoa p)).
    rewrite (count_single ":" (String c a)) by (try done; by apply digits_without). cbn [Nat.eqb].
    rewrite cut_byte_app by done. rewrite (contains_byte "["), (contains_byte "]"). unfold has_byte.
    rewrite !exists_byte_app. cbn [exists_byte]. fold (has_byte "[" (itoa p)) (has_byte "]" (itoa p)).
    rewrite !(digits_without _ p Hp) by done. unfold has_byte in H2. cbn [exists_byte] in H2. rewrite Hb, H1, H2. done.
Qed.

(** A node identifier is read back as the user, address and port it was made of, IPv6
    addresses included; so is an address with a port. *)
Theorem node_id_roundtrip u a p (Hu : plain_user u) (Ha : plain_address a) (Hp : 1 <= p <= 65535) :
  parseOpenSSHHostSpec (FormatNodeID u a p) = Ok (mkSpecHost a u p) /\
  parseOpenSSHHostSpec (FormatHostPort a p) = Ok (mkSpecHost a "" p).
Proof.
  destruct Hu as [Hu0 Hu]. pose proof (host_port_graph a p Ha ltac:(lia)) as Hg. pose proof (host_port_no_at a p Ha ltac:(lia)) as Hat.
  pose proof (split_host_port a p Ha ltac:(lia)) as Hs. pose proof (parse_port_itoa p Hp) as Hpp.
  assert (FormatHostPort a p <> "") as Hne by (intros E; rewrite E in Hs; vm_compute in Hs; destruct Ha; congruence).
  destruct Ha as (Ha0 & Hag & _). pose proof (graph_trim_space a Hag) as Hta. unfold FormatNodeID, parseOpenSSHHostSpec. split.
  - change (u +:+ "@" +:+ FormatHostPort a p) with (u +:+ String "@" (FormatHostPort a p)).
    rewrite (graph_trim_space (u +:+ _)) by (rewrite all_bytes_app, all_bytes_cons, Hu, Hg; done).
    assert (str_eq (u +:+ String "@" (FormatHostPort a p)) "" = false) as -> by (apply str_eq_false; by destruct u).
    cbn [reject_if result_bind]. rewrite cut_last_app by done. rewrite !(graph_trim_space _) by done.
    rewrite (proj2 (str_eq_false u "")), (proj2 (str_eq_false (FormatHostPort a p) "")) by done. cbn [orb reject_if result_bind snd fst]. rewrite Hs. cbn [result_bind fst snd].
    rewrite Hta, (proj2 (str_eq_false a "")) by done. cbn [reject_if result_bind]. by rewrite Hpp.
  - rewrite graph_trim_space by done. rewrite (proj2 (str_eq_false (FormatHostPort a p) "")) by done. cbn [reject_if result_bind].
    rewrite cut_last_absent by done. cbn [result_bind snd fst]. rewrite Hs. cbn [result_bind fst snd].
    rewrite Hta, (proj2 (str_eq_false a "")) by done. cbn [reject_if result_bind]. by rewrite Hpp.
Qed.

(** * Lemmas: options *)
Section OptionLemmas.
Context `{Alg : SshOptions.Algorithms}.
Import SshOptions.

(** Options in normal form, all of classes that satisfy [P]. *)
Definition of_class (P : OptionClass -> Prop) (o : Options) : Prop :=
  map_Forall (fun k v => exists spec, LookupOptionSpec k = Some spec /\ CanonicalKey spec = k /\ v <> "" /\ Normalize spec v = Ok v /\ P (Class_ spec)) (vals o).

Lemma of_class_formed P o : of_class P o -> well_formed o.
Proof. intros H. eapply map_Forall_impl; [exact H|]. intros k v (spec & ? & ? & ? & ? & _). by exists spec. Qed.
Lemma of_class_none P b : of_class P (SshOptions.mkOptions None b).
Proof. apply map_Forall_empty. Qed.
Lemma of_class_Delete P o key : of_class P o -> of_class P (Delete o key).
Proof. unfold of_class. rewrite vals_Delete. apply map_Forall_delete. Qed.
Lemma of_class_Set P o key raw o' : (forall spec, LookupOptionSpec key = Some spec -> P (Class_ spec)) ->
  of_class P o -> SetOption o key raw = Ok o' -> of_class P o'.
Proof.
  intros HP Ho. unfold SetOption. destruct (LookupOptionSpec key) as [spec|] eqn:Hk; [|done].
  destruct (str_eq (trim_space raw) ""); [intros [= <-]; by apply of_class_Delete|]. intros H. apply result_bind_ok in H as (v & Hv & [= <-]).
  destruct (settled_entry _ _ _ _ Hk Hv) as (spec' & Hl & Hc & Hne & Hn). unfold of_class. rewrite vals_setRaw by done. apply map_Forall_insert_2; [|done].
  exists spec'. split_and!; try done. pose proof (proj1 (in_registry _ (lookup_in _ _ Hk))) as E. rewrite E in Hl. injection Hl as <-. by apply HP.
Qed.

Lemma take_option_class cfg host opts spec opts' : spec ∈ optionRegistry -> of_class (fun c => c <> ClassTrust) opts ->
  take_option cfg host opts spec = Ok opts' -> of_class (fun c => c <> ClassTrust) opts'.
Proof.
  intros Hin Ho. unfold take_option. case_bool_decide as Hc; [by intros [= <-]|]. intros H. apply result_bind_ok in H as (val & _ & H).
  destruct (str_eq val ""); [by injection H as <-|]. destruct (AllowList spec && _); [by injection H as <-|].
  destruct (SetOption _ _ _) as [o|e] eqn:E; [|by destruct (one_of _ _); [done|injection H as <-]]. injection H as <-.
  apply (of_class_Set _ opts _ _ _) with (2 := Ho) in E; [done|]. intros spec'. rewrite (proj1 (in_registry _ Hin)). by intros [= <-].
Qed.
Lemma take_options_class cfg host specs : forall opts opts', (forall spec, spec ∈ specs -> spec ∈ optionRegistry) ->
  of_class (fun c => c <> ClassTrust) opts -> take_options cfg host opts specs = Ok opts' -> of_class (fun c => c <> ClassTrust) opts'.
Proof.
  induction specs as [|spec specs IH]; intros opts opts' Hin Ho H; cbn [take_options] in H; [by injection H as <-|].
  apply result_bind_ok in H as (o & Ht & H). apply (IH o opts'); [intros; apply Hin; by right| |done].
  eapply take_option_class; [apply Hin; by left|exact Ho|exact Ht].
Qed.
Lemma parsed_options cfg host o : parseOpenSSHOptions cfg host = Ok (Some o) -> of_class (fun c => c <> ClassTrust) o /\ options_empty o = false.
Proof.
  unfold parseOpenSSHOptions. destruct cfg as [cfg|]; [|done]. destruct (str_eq host ""); [done|]. intros H.
  apply result_bind_ok in H as (opts & Ht & H). destruct (options_empty opts) eqn:E; [done|]. injection H as <-. split; [|done].
  eapply take_options_class; [by intros|apply of_class_none|exact Ht].
Qed.

Lemma filtered_class o allowed o' : well_formed o -> FilterByClasses (Some o) allowed = Some o' -> of_class (fun c => c ∈ allowed) o'.
Proof.
  intros Ho. unfold FilterByClasses. destruct (_ || _); [done|]. apply map_Forall_to_list in Ho.
  assert (forall kvs res, Forall (uncurry normal_entry) kvs -> of_class (fun c => c ∈ allowed) res ->
    of_class (fun c => c ∈ allowed) (foldl (fun res '(k, v) => if in_classes allowed k then setRaw res k v else res) res kvs)) as E.
  { induction kvs as [|[k v] kvs IH]; intros res Hk Hr; simpl; [done|]. apply Forall_cons in Hk as [Hk0 Hk]. apply IH; [done|].
    destruct (in_classes allowed k) eqn:Hc; [|done]. destruct Hk0 as (spec & Hl & Hck & Hv & Hn). unfold of_class. rewrite vals_setRaw by done.
    apply map_Forall_insert_2; [|done]. exists spec. split_and!; try done. unfold in_classes in Hc. rewrite Hl in Hc.
    unfold slice_contains in Hc. apply existsb_exists in Hc as (c & Hc & ->%bool_decide_eq_true). by apply list_elem_of_In. }
  specialize (E _ (SshOptions.mkOptions None (ImplicitTier4 o)) Ho (of_class_none _ _)). destruct (options_empty _); [done|]. by intros [= <-].
Qed.

(** What an import saves with a node. *)
Definition imported_classes : list OptionClass := [ClassMux; ClassTransport].

Lemma persist_spec : LookupOptionSpec OptionControlPersist =
  Some (mkSpec OptionControlPersist "ControlPersist" ClassMux [] false normalizeControlPersist).
Proof. reflexivity. Qed.
Lemma stored_persist_off o : well_formed o -> ParseControlPersist (ControlPersist (Some o)) = None \/
  (exists i d, ParseControlPersist (ControlPersist (Some o)) = Some (true, i, d)) \/ persists (ControlPersist (Some o)) = false.
Proof.
  intros Ho. unfold ControlPersist, Get. rewrite persist_key. destruct (vals o !! OptionControlPersist) as [v|] eqn:E; [|by right; right]. simpl.
  destruct (Ho _ _ E) as (spec & Hl & _ & Hne & Hn). rewrite persist_spec in Hl. injection Hl as <-. cbn [Normalize] in Hn. rename Hn into Hp. unfold normalizeControlPersist in Hp. apply bind_reject_ok in Hp as [_ Hp]. destruct (ParseControlPersist (to_lower _)) as [[[e i] d]|] eqn:Ep; [|done].
  injection Hp as Hv. rewrite Hv in Ep. destruct e; [right; left; by exists i, d|]. right. right.
  unfold ParseControlPersist in Ep. destruct (one_of (to_lower (trim_space v)) [""; "no"; "false"]) eqn:Eo.
  - rewrite Hv in Eo. apply one_of_spec in Eo. rewrite !elem_of_cons in Eo. destruct Eo as [->|[->|[->|?%elem_of_nil]]]; done.
  - destruct (one_of _ ["yes"; "true"; "0"]); [done|]. by destruct (parseOpenSSHDuration _).
Qed.
End OptionLemmas.

Section ImportTheorems.
Context `{Alg : SshOptions.Algorithms}.
Import SshOptions.

Lemma get_Delete_same o key : Get (Some (Delete o key)) key = "".
Proof. unfold Get. by rewrite vals_Delete, lookup_delete_eq. Qed.
Lemma get_Delete_other o key key' : resolve_key key <> resolve_key key' -> Get (Some (Delete o key)) key' = Get (Some o) key'.
Proof. intros H. unfold Get. by rewrite vals_Delete, lookup_delete_ne. Qed.

(** C39: The options an import takes from an OpenSSH configuration are in normal form, none of them decides
    whom to trust, and those it saves with a node are of the multiplexing and transport classes and valid
    there, whatever the file combines. *)
Theorem imported_options_valid cfg host o (H : parseOpenSSHOptions cfg host = Ok (Some o)) :
  of_class (fun c => c <> ClassTrust) o /\
  forall o', normalizeImportedSSHOptions (Some o) = Some o' ->
    of_class (fun c => c ∈ imported_classes) o' /\ options_empty o' = false /\ Validate (Some o') = Ok tt.
Proof.
  apply parsed_options in H as [Ho He]. split; [done|]. intros o'. unfold normalizeImportedSSHOptions.
  assert (IsEmpty (Some o) = false) as -> by exact He. destruct (FilterByClasses (Some o) _) as [c|] eqn:Ef; [|done].
  apply filtered_class in Ef; [|by eapply of_class_formed]. destruct (options_empty c); [done|].
  set (r := if str_eq (ControlPath (Some c)) "" then _ else _). destruct (options_empty r) eqn:Er; [done|]. intros [= <-].
  assert (of_class (fun c => c ∈ imported_classes) r /\
    (ControlMaster (Some r) = "" \/ persists (ControlPersist (Some r)) = false \/ ControlMaster (Some r) <> "no") /\
    (ControlPath (Some r) <> "none" \/ ControlMaster (Some r) = "no")) as (Hr & Hp & Hn); cycle 1.
  { split; [done|]. split; [done|]. clearbody r. rewrite validate_well_formed by (by eapply of_class_formed).
    destruct (str_eq (ControlMaster (Some r)) "no") eqn:E1; str_facts.
    - assert (persists (ControlPersist (Some r)) = false) as -> by (destruct Hp as [Hp|[Hp|Hp]]; [by rewrite Hp in E1|exact Hp|by destruct (Hp E1)]). rewrite E1.
      assert (isActiveControlMaster "no" = false) as -> by reflexivity. by rewrite !andb_false_r.
    - cbn [andb]. destruct (str_eq (ControlPath (Some r)) "none") eqn:E2; str_facts; [|done]. by destruct Hn. }
  subst r. destruct (str_eq (ControlPath (Some c)) "") eqn:Ep; str_facts.
  { split; [by do 2 apply of_class_Delete|]. split; [left|left].
    - unfold ControlMaster. rewrite get_Delete_other by (by rewrite persist_key, master_key). apply get_Delete_same.
    - unfold ControlPath in *. rewrite !get_Delete_other by (by rewrite ?persist_key, ?master_key, path_key). by rewrite Ep. }
  set (c' := if str_eq (ControlMaster (Some c)) ControlMasterNo && _ then _ else c).
  assert (of_class (fun c => c ∈ imported_classes) c' /\ ControlPath (Some c') = ControlPath (Some c) /\
    (persists (ControlPersist (Some c')) = false \/ ControlMaster (Some c') <> "no")) as (Hc' & Hpath & Hpers).
  { subst c'. assert (ControlPath (Some (Delete c OptionControlPersist)) = ControlPath (Some c)) as Hd.
    { unfold ControlPath. by rewrite get_Delete_other by (by rewrite persist_key, path_key). }
    assert (persists (ControlPersist (Some (Delete c OptionControlPersist))) = false) as Hd2 by (unfold ControlPersist; by rewrite get_Delete_same).
    destruct (str_eq (ControlMaster (Some c)) ControlMasterNo) eqn:Em; str_facts; [|split; [done|]; split; [done|]; by right].
    destruct (str_eq (ControlPersist (Some c)) "") eqn:E0; str_facts; cbn [andb negb].
    { split; [done|]. split; [done|]. left. by rewrite E0. }
    destruct (stored_persist_off c (of_class_formed _ _ Ef)) as [E|[(i & d & E)|E]].
    - rewrite E. split; [by apply of_class_Delete|]. by split; [|left].
    - rewrite E. split; [by apply of_class_Delete|]. by split; [|left].
    - destruct (ParseControlPersist _) as [[[[] i] d]|]; (split; [first [exact Ef|by apply of_class_Delete]|]); (split; [first [done|exact Hd]|]); left; first [exact E|exact Hd2]. }
  rewrite <- Hpath. destruct (str_eq (ControlPath (Some c')) "none") eqn:E; str_facts.
  - destruct (SetOption c' OptionControlMaster ControlMasterNo) as [m|] eqn:Em; [|done].
    split.
    { apply of_class_Delete. eapply of_class_Set; [|exact Hc'|exact Em]. intros spec. rewrite master_spec. intros [= <-]. by left. }
    assert (ControlMaster (Some (Delete m OptionControlPersist)) = "no") as Hno.
    { unfold ControlMaster. rewrite get_Delete_other by (by rewrite persist_key, master_key). assert (SetOption c' OptionControlMaster ControlMasterNo = Ok (setRaw c' OptionControlMaster "no")) as E2
        by (unfold SetOption; rewrite master_spec; reflexivity).
      rewrite E2 in Em. injection Em as <-. unfold Get. rewrite master_key, vals_setRaw by done. by rewrite lookup_insert_eq. }
    split; [right; left|by right]. unfold ControlPersist. by rewrite get_Delete_same.
  - split; [done|]. split; [|by left]. destruct Hpers; [by right; left|by right; right].
Qed.
End ImportTheorems.

(** * Witnesses *)
Lemma node_id_roundtrip_witness : parseOpenSSHHostSpec "root@[fe80::1]:2222" = Ok (mkSpecHost "fe80::1" "root" 2222).
Proof. apply (node_id_roundtrip "root" "fe80::1" 2222); [split; [done|reflexivity]|split_and!; try done; reflexivity|lia]. Defined.

Definition sample_ssh_config : SSHConfig :=
  mkSSHConfig [mkBlock ["db"] (fun h => str_eq h "db") []]
    (fun _ key => Some (if str_eq key "ControlMaster" then "no" else if str_eq key "ControlPersist" then "10m"
                        else if str_eq key "ControlPath" then "~/.ssh/%C" else "")).
Lemma imported_options_valid_witness :
  exists o o', @parseOpenSSHOptions SshOptions.sample_algorithms (Some sample_ssh_config) "db" = Ok (Some o) /\
    @normalizeImportedSSHOptions SshOptions.sample_algorithms (Some o) = Some o' /\
    @SshOptions.ControlMaster SshOptions.sample_algorithms (Some o') = "no" /\ @SshOptions.Validate SshOptions.sample_algorithms (Some o') = Ok tt.
Proof.
  eexists. eexists. assert (@parseOpenSSHOptions SshOptions.sample_algorithms (Some sample_ssh_config) "db" = Ok (Some _)) as H by (vm_compute; reflexivity).
  split; [exact H|]. split; [vm_compute; reflexivity|]. split; [vm_compute; reflexivity|].
  eapply (proj2 (@imported_options_valid SshOptions.sample_algorithms (Some sample_ssh_config) "db" _ H)). vm_compute. reflexivity.
Defined.
