(* ===== verification/SchemaV2.v ===== *)
(** Schema v2 of the configuration: pkg/config schema_v2.go, the encrypted-file checks of
    encrypted_config.go, schema_version.go and validate.go.

    A configuration is validated and translated to the form that is written, which has no
    field for a secret, and back.  The theorems show that the two translations are
    inverse up to what a copy normalises, that validation accepts a set of entries in
    every order of iteration, and that every credential reference of a valid
    configuration is complete and names a store that is configured.  Compilation of
    regular expressions is a parameter, of which only the success matters.  The YAML text of
    the written form, with the defaults its encoder fills in, is outside the model. *)
From S2P Require Export Config.
#[local] Open Scope Z_scope.

(** * Data *)
Record IdentityV2 := mkIdentityV2 {
  v2User : string; v2KeyPath : string; v2KeyFingerprint : string;
  v2LoginPasswordRef : option Ref; v2PassphraseRef : option Ref; v2AuthType : string;
  v2OTP : option OTPConfig; v2KeyboardInteractive : option KeyboardInteractiveConfig
}.
Record NodeV2 := mkNodeV2 {
  v2Alias : slice string; v2Tags : slice string; v2HostRef : string; v2IdentityRef : string; v2ProxyJump : string;
  v2SudoMode : string; v2PrivilegePasswordRef : option Ref; v2PasswordPromptPattern : string;
  v2Execution : option Exec.ExecutionConfig; v2SSHOptions : option SshOptions.Options
}.
Record ConfigurationV2 := mkV2 {
  v2SchemaVersion : Z; v2Credential : CredentialConfig;
  v2Identities : gmap string IdentityV2; v2Hosts : gmap string Host; v2Nodes : gmap string NodeV2;
  v2Guardrail : option Policy.Config; v2MCP : option MCPConfig; v2Pattern : string;
  v2GlobalExecution : option Exec.ExecutionConfig; v2GlobalOptions : option SshOptions.Options
}.

(** What is refused, and about which entry. *)
Inductive schema_error :=
  | UnsupportedVersion (version : Z) | LegacyConfiguration
  | Invalid (subject reason : string)
  | InvalidRef (subject field : string) (e : ref_error) | RefTooLong (subject field : string)
  | StoreNotConfigured (subject field store : string)
  | InvalidExecution (subject : string) (e : Exec.exec_error) | InvalidOptions (subject : string) (e : SshOptions.option_error).

(** [regexp.Compile] succeeds. *)
Class RegexpCompile := regexp_compiles : string -> bool.

(** * Versions *)
Definition DetectSchemaVersion (explicit : option Z) : result schema_error Z :=
  match explicit with
  | None => Ok 1
  | Some v => if (v =? 1) || (v =? 2) then Ok v else Err (UnsupportedVersion v)
  end.
Definition ValidateRuntimeSchema (version : Z) : result schema_error unit :=
  if version =? 2 then Ok tt else if version =? 1 then Err LegacyConfiguration else Err (UnsupportedVersion version).

(** * Stores *)
Definition MaxIDBytes : Z := 1024.
(** The characters a command may not hold: [;|&`$] and a new line. *)
Definition shell_forbidden : string := ";|&`$" +:+ str1 newline.

Definition fileStoreHasHelper (s : StoreConfig) : bool :=
  negb (str_eq (sCommand s) "") || negb (Nat.eqb (List.length (elems (sArgs s))) 0) || negb (str_eq (sPrefix s) "").
Definition validateFileStore (id : string) (s : StoreConfig) : result schema_error unit :=
  if negb (str_eq (sType s) StoreTypeEncryptedFile) then
    reject negb (str_eq (sPath s) "") || negb (str_eq (sUnlock s) "") || negb (str_eq (sKeyFile s) "")
      || negb (sUnlockIdleTTL s =? 0) || negb (sPromptTimeout s =? 0) || negb (sUnlockTimeout s =? 0)
      with Invalid id "offline fields require encrypted-file" ;;
    Ok tt
  else
    let s := FileStoreDefaults s in
    reject str_eq (sPath s) "" || (negb (str_eq (sUnlock s) "prompt") && negb (str_eq (sUnlock s) "key-file"))
      || negb (Bool.eqb (str_eq (sUnlock s) "key-file") (negb (str_eq (sKeyFile s) "")))
      with Invalid id "encrypted-file requires path and matching unlock/key_file" ;;
    reject fileStoreHasHelper s with Invalid id "encrypted-file rejects helper settings" ;;
    reject (sUnlockIdleTTL s <=? 0) || (30 * minute <? sUnlockIdleTTL s) || (sPromptTimeout s <=? 0)
      || (sUnlockTimeout s <=? 0) || (sTimeout s <=? 0) || (sCacheTTL s <? 0)
      with Invalid id "invalid encrypted-file duration" ;;
    Ok tt.
Definition validateFileStoreIdentity (id : string) (s : StoreConfig) : result schema_error unit :=
  reject str_eq (sType s) StoreTypeEncryptedFile && (MaxIDBytes <? len id) with Invalid id "encrypted-file StoreID exceeds limit" ;;
  validateFileStore id s.

Definition validateStoreConfig (storeID : string) (s : StoreConfig) : result schema_error unit :=
  reject str_eq (trim_space storeID) "" with Invalid storeID "storeID cannot be empty" ;;
  reject contains_any storeID ref_forbidden with Invalid storeID "storeID contains invalid characters" ;;
  reject negb (one_of (sType s) [StoreTypeSystem; StoreTypePass; StoreTypeHelper; StoreTypeNone; StoreTypeEncryptedFile])
    with Invalid storeID "invalid type" ;;
  try _ := validateFileStoreIdentity storeID s ;;
  try _ := (if str_eq (sType s) StoreTypeHelper then
              reject str_eq (trim_space (sCommand s)) "" with Invalid storeID "helper store requires non-empty command" ;;
              reject contains_any (sCommand s) shell_forbidden with Invalid storeID "command contains forbidden shell characters" ;;
              Ok tt
            else Ok tt) ;;
  reject sTimeout s <? 0 with Invalid storeID "timeout cannot be negative" ;;
  reject sCacheTTL s <? 0 with Invalid storeID "cache_ttl cannot be negative" ;;
  Ok tt.

(** A range over a map that returns the first error. *)
Fixpoint check_keys {A E} (f : string -> A -> result E unit) (m : gmap string A) (keys : list string) : result E unit :=
  match keys with
  | [] => Ok tt
  | k :: keys => match m !! k with
                 | Some x => try _ := f k x ;; check_keys f m keys
                 | None => check_keys f m keys
                 end
  end.
Definition check_entries `{KeyOrder} {A E} (f : string -> A -> result E unit) (m : gmap string A) : result E unit :=
  check_keys f m (keys_of m).

Definition validateCredentialConfig `{KeyOrder} (cred : CredentialConfig) : result schema_error unit :=
  reject negb (str_eq (DefaultStore cred) "") && negb (bool_decide (is_Some (Stores cred !! DefaultStore cred)))
    with StoreNotConfigured "credential" "default_store" (DefaultStore cred) ;;
  reject negb (one_of (RememberPrompted cred) [""; "ask"; "always"; "never"]) with Invalid "credential" "invalid remember_prompted value" ;;
  check_entries validateStoreConfig (Stores cred).

(** * References *)
Definition stored_type (stores : gmap string StoreConfig) (id : string) : string :=
  match stores !! id with Some s => sType s | None => "" end.
Definition validateConfiguredRef (subject field : string) (ref : Ref) (stores : gmap string StoreConfig) : result schema_error unit :=
  match ref_Validate ref with
  | Err e => Err (InvalidRef subject field e)
  | Ok _ =>
      reject str_eq (stored_type stores (StoreID ref)) StoreTypeEncryptedFile
        && ((MaxIDBytes <? len (StoreID ref)) || (MaxIDBytes <? len (ItemID ref)))
        with RefTooLong subject field ;;
      Ok tt
  end.
Definition configured (stores : gmap string StoreConfig) (ref : Ref) : bool := bool_decide (is_Some (stores !! StoreID ref)).
(** A reference that may be absent or empty. *)
Definition validateOptionalRef (subject field : string) (ref : option Ref) (stores : gmap string StoreConfig) : result schema_error unit :=
  match ref with
  | None => Ok tt
  | Some r =>
      try _ := validateConfiguredRef subject field r stores ;;
      reject negb (ref_IsEmpty r) && negb (configured stores r) with StoreNotConfigured subject field (StoreID r) ;;
      Ok tt
  end.

Definition fingerprint_forbidden : string :=
  String " " (String tab (String creturn (String newline (str1 nul)))).
Definition has_ref (r : option Ref) : bool := negb (no_ref r).

Section Validation.
Context `{Alg : SshOptions.Algorithms} `{Ord : KeyOrder} `{Rx : RegexpCompile}.

Definition validateOTPConfig (idName : string) (otp : OTPConfig) (stores : gmap string StoreConfig) : result schema_error unit :=
  let hasRef := has_ref (TOTPSecretRef otp) in
  let hasCmd := negb (str_eq (trim_space (oCommand otp)) "") in
  reject hasRef && hasCmd with Invalid idName "otp cannot specify both totp_secret_ref and command" ;;
  reject negb hasRef && negb hasCmd with Invalid idName "otp must specify either totp_secret_ref or command" ;;
  try _ := (match TOTPSecretRef otp with
            | Some r =>
                if hasRef then
                  try _ := validateConfiguredRef idName "totp_secret_ref" r stores ;;
                  reject negb (configured stores r) with StoreNotConfigured idName "totp_secret_ref" (StoreID r) ;; Ok tt
                else Ok tt
            | None => Ok tt
            end) ;;
  reject hasCmd && contains_any (oCommand otp) shell_forbidden with Invalid idName "otp command contains forbidden shell characters" ;;
  reject negb (str_eq (trim_space (oPromptPattern otp)) "") && negb (regexp_compiles (oPromptPattern otp)) with Invalid idName "otp prompt_pattern" ;;
  reject oTimeout otp <? 0 with Invalid idName "otp timeout cannot be negative" ;;
  Ok tt.

Definition validateNoSecretRefOrCommand (idName : string) (rule : ChallengeRule) : result schema_error unit :=
  reject has_ref (SecretRef rule) with Invalid idName "cannot specify secret_ref" ;;
  reject negb (str_eq (trim_space (rCommand rule)) "") with Invalid idName "cannot specify command" ;;
  Ok tt.

Definition ChallengeSourceOTP : string := "otp".
Definition ChallengeSourceLoginPassword : string := "login_password".
Definition ChallengeSourceSecret : string := "secret".
Definition ChallengeSourceCommand : string := "command".

Definition validateChallengeRuleSource (idName : string) (rule : ChallengeRule) (stores : gmap string StoreConfig) : result schema_error unit :=
  if one_of (rSource rule) [ChallengeSourceOTP; ChallengeSourceLoginPassword] then validateNoSecretRefOrCommand idName rule
  else if str_eq (rSource rule) ChallengeSourceSecret then
    reject str_eq (trim_space (rName rule)) "" with Invalid idName "source secret must specify non-empty name" ;;
    match SecretRef rule with
    | None => Err (Invalid idName "source secret must specify secret_ref")
    | Some r =>
        reject ref_IsEmpty r with Invalid idName "source secret must specify secret_ref" ;;
        reject negb (str_eq (trim_space (rCommand rule)) "") with Invalid idName "source secret cannot specify command" ;;
        try _ := validateConfiguredRef idName "secret_ref" r stores ;;
        reject negb (configured stores r) with StoreNotConfigured idName "secret_ref" (StoreID r) ;;
        Ok tt
    end
  else if str_eq (rSource rule) ChallengeSourceCommand then
    reject has_ref (SecretRef rule) with Invalid idName "source command cannot specify secret_ref" ;;
    reject str_eq (trim_space (rCommand rule)) "" with Invalid idName "source command must specify non-empty command" ;;
    reject contains_any (rCommand rule) shell_forbidden with Invalid idName "command contains forbidden shell characters" ;;
    Ok tt
  else Err (Invalid idName "unknown source").

Fixpoint validate_rules (idName : string) (stores : gmap string StoreConfig) (seenNames : list string) (rules : list ChallengeRule) : result schema_error unit :=
  match rules with
  | [] => Ok tt
  | rule :: rules =>
      reject negb (str_eq (rName rule) "") && slice_contains seenNames (rName rule) with Invalid idName "duplicate rule name" ;;
      let seenNames := if str_eq (rName rule) "" then seenNames else rName rule :: seenNames in
      reject str_eq (trim_space (rPromptPattern rule)) "" with Invalid idName "prompt_pattern cannot be empty" ;;
      reject negb (regexp_compiles (rPromptPattern rule)) with Invalid idName "prompt_pattern" ;;
      reject negb (str_eq (trim_space (rInstructionPattern rule)) "") && negb (regexp_compiles (rInstructionPattern rule))
        with Invalid idName "instruction_pattern" ;;
      reject rTimeout rule <? 0 with Invalid idName "timeout cannot be negative" ;;
      try _ := validateChallengeRuleSource idName rule stores ;;
      validate_rules idName stores seenNames rules
  end.
Definition validateKeyboardInteractiveConfig (idName : string) (ki : KeyboardInteractiveConfig) (stores : gmap string StoreConfig) : result schema_error unit :=
  validate_rules idName stores [] (elems (Rules ki)).

Definition validateIdentityRefs (stores : gmap string StoreConfig) (idName : string) (id : IdentityV2) : result schema_error unit :=
  try _ := validateOptionalRef idName "login_password_ref" (v2LoginPasswordRef id) stores ;;
  try _ := validateOptionalRef idName "passphrase_ref" (v2PassphraseRef id) stores ;;
  try _ := (if has_ref (v2PassphraseRef id) then
              reject str_eq (trim_space (v2KeyFingerprint id)) "" with Invalid idName "passphrase_ref must specify key_fingerprint" ;;
              reject contains_any (v2KeyFingerprint id) fingerprint_forbidden with Invalid idName "invalid key_fingerprint" ;;
              Ok tt
            else Ok tt) ;;
  try _ := (match v2OTP id with Some otp => validateOTPConfig idName otp stores | None => Ok tt end) ;;
  match v2KeyboardInteractive id with Some ki => validateKeyboardInteractiveConfig idName ki stores | None => Ok tt end.

Definition execution_valid (subject : string) (e : result Exec.exec_error (option Exec.ExecutionConfig)) : result schema_error unit :=
  match e with Ok _ => Ok tt | Err e => Err (InvalidExecution subject e) end.
Definition validate_execution (subject : string) (e : option Exec.ExecutionConfig) : result schema_error unit :=
  match Exec.validate e with Ok _ => Ok tt | Err e => Err (InvalidExecution subject e) end.
Definition ValidateSSHOptions (subject : string) (o : option SshOptions.Options) : result schema_error unit :=
  match SshOptions.Validate o with Ok _ => Ok tt | Err e => Err (InvalidOptions subject e) end.
Definition ValidateEffectiveSSHOptions (subject : string) (o : option SshOptions.Options) : result schema_error unit :=
  match SshOptions.ValidateEffective o with Ok _ => Ok tt | Err e => Err (InvalidOptions subject e) end.

Definition validateNodeRefs (cfg : ConfigurationV2) (nodeName : string) (node : NodeV2) : result schema_error unit :=
  reject negb (str_eq (v2HostRef node) "") && negb (bool_decide (is_Some (v2Hosts cfg !! v2HostRef node)))
    with Invalid nodeName "references non-existent host" ;;
  reject negb (str_eq (v2IdentityRef node) "") && negb (bool_decide (is_Some (v2Identities cfg !! v2IdentityRef node)))
    with Invalid nodeName "references non-existent identity" ;;
  try _ := validateOptionalRef nodeName "privilege_password_ref" (v2PrivilegePasswordRef node) (Stores (v2Credential cfg)) ;;
  try _ := validate_execution nodeName (v2Execution node) ;;
  try _ := execution_valid nodeName (Exec.ResolveExecution (v2Execution node) (v2GlobalExecution cfg)) ;;
  try _ := ValidateSSHOptions nodeName (v2SSHOptions node) ;;
  ValidateEffectiveSSHOptions nodeName (SshOptions.ResolveOptions (v2SSHOptions node) (v2GlobalOptions cfg)).

Definition ValidateV2 (cfg : ConfigurationV2) : result schema_error unit :=
  reject negb (v2SchemaVersion cfg =? 2) with UnsupportedVersion (v2SchemaVersion cfg) ;;
  try _ := validate_execution "global" (v2GlobalExecution cfg) ;;
  try _ := ValidateSSHOptions "global" (v2GlobalOptions cfg) ;;
  try _ := validateCredentialConfig (v2Credential cfg) ;;
  try _ := check_entries (validateIdentityRefs (Stores (v2Credential cfg))) (v2Identities cfg) ;;
  check_entries (validateNodeRefs cfg) (v2Nodes cfg).

(** * Translations *)
Definition identity_toV2 (id : Identity) : IdentityV2 :=
  mkIdentityV2 (User id) (KeyPath id) (KeyFingerprint id) (LoginPasswordRef id) (PassphraseRef id) (AuthType id)
    (otp_Clone (OTP id)) (ki_Clone (KeyboardInteractive id)).
Definition node_toV2 (n : Node) : NodeV2 :=
  mkNodeV2 (nAlias n) (nTags n) (HostRef n) (IdentityRef n) (ProxyJump n) (SudoMode n) (PrivilegePasswordRef n)
    (PasswordPromptPattern n) (Exec.exec_clone (nExecution n)) (SshOptions.options_clone <$> nSSHOptions n).
Definition identity_fromV2 (id : IdentityV2) : Identity :=
  mkIdentity (v2User id) (v2KeyPath id) (v2KeyFingerprint id) "" "" (v2AuthType id) (v2LoginPasswordRef id) (v2PassphraseRef id)
    (otp_Clone (v2OTP id)) (ki_Clone (v2KeyboardInteractive id)).
Definition node_fromV2 (n : NodeV2) : Node :=
  mkNode (v2Alias n) (v2Tags n) (v2HostRef n) (v2IdentityRef n) (v2ProxyJump n) (v2SudoMode n) "" (v2PrivilegePasswordRef n)
    (v2PasswordPromptPattern n) (Exec.exec_clone (v2Execution n)) (SshOptions.options_clone <$> v2SSHOptions n) "".

Definition reject_identity_plaintext (key : string) (id : Identity) : result schema_error unit :=
  reject negb (str_eq (Password id) "") || negb (str_eq (Passphrase id) "") with Invalid key "contains plaintext secret" ;; Ok tt.
Definition reject_node_plaintext (key : string) (n : Node) : result schema_error unit :=
  reject negb (str_eq (SuPwd n) "") with Invalid key "contains plaintext su_pwd" ;; Ok tt.

Definition ToV2 (c : Configuration) : result schema_error ConfigurationV2 :=
  try _ := check_entries reject_identity_plaintext (Identities c) ;;
  try _ := check_entries reject_node_plaintext (Nodes c) ;;
  let v2 :=
    mkV2 2 (match credential_Clone (Credential c) with Some cred => cred | None => mkCredential "" "" ∅ end)
      (identity_toV2 <$> Identities c) (cloneHost <$> Hosts c) (node_toV2 <$> Nodes c)
      (cloneGuardrail (Guardrail c)) (mcp_Clone (MCP c)) (cPasswordPromptPattern c)
      (Exec.exec_clone (cExecution c)) (SshOptions.options_clone <$> cSSHOptions c) in
  try _ := ValidateV2 v2 ;; Ok v2.

Definition FromV2 (v2 : ConfigurationV2) : result schema_error Configuration :=
  try _ := ValidateV2 v2 ;;
  Ok (mkConfiguration 2 (credential_Clone (Some (v2Credential v2))) (identity_fromV2 <$> v2Identities v2) (cloneHost <$> v2Hosts v2)
        (node_fromV2 <$> v2Nodes v2) (cloneGuardrail (v2Guardrail v2)) (mcp_Clone (v2MCP v2)) (v2Pattern v2)
        (Exec.exec_clone (v2GlobalExecution v2)) (SshOptions.options_clone <$> v2GlobalOptions v2)).
End Validation.

(** * Secrets in a document

    A decoded YAML document: the strict check looks for forbidden keys before the
    document becomes a configuration. *)
Inductive ynode :=
  | YScalar (s : string)
  | YOther
  | YSeq (l : list ynode)
  | YMap (m : list (string * ynode)).

Definition field (m : list (string * ynode)) (k : string) : option ynode :=
  snd <$> List.find (fun kv => str_eq (fst kv) k) m.
Definition has_field (m : list (string * ynode)) (k : string) : bool :=
  match field m k with Some _ => true | None => false end.
Definition as_map (n : option ynode) : option (list (string * ynode)) :=
  match n with Some (YMap m) => Some m | _ => None end.

Definition identity_secrets : list string := ["password"; "passphrase"; "totp_secret"; "otp_secret"; "answer"; "secret"].
Definition otp_secrets : list string := ["totp_secret"; "otp_secret"; "secret"; "answer"; "password"; "passphrase"].
Definition rule_secrets : list string := ["answer"; "secret"; "totp_secret"; "otp_secret"; "password"; "passphrase"].

Fixpoint forbid (subject : string) (names : list string) (m : list (string * ynode)) : result schema_error unit :=
  match names with
  | [] => Ok tt
  | f :: names => reject has_field m f with Invalid subject f ;; forbid subject names m
  end.
Fixpoint checkRulesPlaintext (idName : string) (rules : list ynode) : result schema_error unit :=
  match rules with
  | [] => Ok tt
  | YMap m :: rules => try _ := forbid idName rule_secrets m ;; checkRulesPlaintext idName rules
  | _ :: rules => checkRulesPlaintext idName rules
  end.
Definition checkIdentityPlaintext (idName : string) (fields : list (string * ynode)) : result schema_error unit :=
  try _ := forbid idName identity_secrets fields ;;
  try _ := (match as_map (field fields "otp") with Some otp => forbid idName otp_secrets otp | None => Ok tt end) ;;
  match as_map (field fields "keyboard_interactive") with
  | Some ki => match field ki "rules" with Some (YSeq rules) => checkRulesPlaintext idName rules | _ => Ok tt end
  | None => Ok tt
  end.
Fixpoint check_identities (entries : list (string * ynode)) : result schema_error unit :=
  match entries with
  | [] => Ok tt
  | (name, YMap fields) :: entries => try _ := checkIdentityPlaintext name fields ;; check_identities entries
  | _ :: entries => check_identities entries
  end.
Fixpoint check_nodes (entries : list (string * ynode)) : result schema_error unit :=
  match entries with
  | [] => Ok tt
  | (name, YMap fields) :: entries => reject has_field fields "su_pwd" with Invalid name "su_pwd" ;; check_nodes entries
  | _ :: entries => check_nodes entries
  end.
Definition checkForbiddenPlaintextFields (doc : list (string * ynode)) : result schema_error unit :=
  try _ := (match as_map (field doc "identities") with Some ids => check_identities ids | None => Ok tt end) ;;
  match as_map (field doc "nodes") with Some nodes => check_nodes nodes | None => Ok tt end.

(** * Lemmas *)
Lemma check_keys_ok {A E} (f : string -> A -> result E unit) m keys :
  check_keys f m keys = Ok tt <-> forall k x, k ∈ keys -> m !! k = Some x -> f k x = Ok tt.
Proof.
  induction keys as [|k keys IH]; cbn [check_keys]; [set_solver|].
  destruct (m !! k) as [x|] eqn:Hk.
  - rewrite result_bind_ok. split.
    + intros ([] & Hx & Hr) k' x' [->|Hin]%elem_of_cons Hk'; [congruence|]. by eapply IH.
    + intros Hall. exists tt. split; [apply Hall; set_solver|]. apply IH. intros k' x' Hin. apply Hall. set_solver.
  - rewrite IH. split; [|set_solver]. intros Hall k' x' [->|Hin]%elem_of_cons Hk'; [congruence|]. by eapply Hall.
Qed.

(** A check of all entries accepts them or not in every order. *)
Lemma check_entries_ok `{KeyOrder} {A E} (f : string -> A -> result E unit) m :
  check_entries f m = Ok tt <-> map_Forall (fun k x => f k x = Ok tt) m.
Proof.
  unfold check_entries. rewrite check_keys_ok. split.
  - intros Hall k x Hk. apply Hall; [|done]. apply keys_elem. by exists x.
  - intros Hall k x _ Hk. by apply Hall.
Qed.

Lemma unit_result {E} (m : result E unit) u : m = Ok u <-> m = Ok tt.
Proof. by destruct u. Qed.

Lemma bind_unit_ok {E B} (m : result E unit) (k : unit -> result E B) b :
  result_bind k m = Ok b <-> m = Ok tt /\ k tt = Ok b.
Proof. rewrite result_bind_ok. split; [intros ([] & ? & ?); done|intros [? ?]; by exists tt]. Qed.
#[local] Hint Rewrite @bind_unit_ok @bind_reject_ok : result.

(** ** References *)
Definition ref_fits (stores : gmap string StoreConfig) (r : Ref) : Prop :=
  ref_Validate r = Ok tt /\ ref_IsComplete r = true /\
  exists s, stores !! StoreID r = Some s /\
    (sType s = StoreTypeEncryptedFile -> len (StoreID r) <= MaxIDBytes /\ len (ItemID r) <= MaxIDBytes).

Lemma valid_nonempty_complete r : ref_Validate r = Ok tt -> ref_IsEmpty r = false -> ref_IsComplete r = true.
Proof.
  unfold ref_Validate, ref_IsComplete. intros H He. rewrite He in H. apply bind_reject_ok in H as [Hx _].
  unfold ref_IsEmpty in He. by destruct (str_eq (StoreID r) ""), (str_eq (ItemID r) "").
Qed.

Lemma configured_ref_fits subject field r stores :
  validateConfiguredRef subject field r stores = Ok tt -> ref_IsEmpty r = false -> configured stores r = true -> ref_fits stores r.
Proof.
  unfold validateConfiguredRef, configured. destruct (ref_Validate r) as [[]|e] eqn:Hv; [|done]. intros H He Hc.
  apply bind_reject_ok in H as [Hl _]. bool_facts. destruct Hc as [s Hs].
  split; [done|]. split; [by apply valid_nonempty_complete|]. exists s. split; [done|]. intros Ht.
  unfold stored_type in Hl. rewrite Hs, Ht, str_eq_refl in Hl. simpl in Hl. bool_facts. done.
Qed.

Lemma optional_ref_fits subject field r stores :
  validateOptionalRef subject field r stores = Ok tt -> forall ref, r = Some ref -> ref_IsEmpty ref = false -> ref_fits stores ref.
Proof.
  intros H ref -> He. unfold validateOptionalRef in H. rewrite He in H. apply bind_unit_ok in H as [Hv H].
  apply bind_reject_ok in H as [Hc _]. simpl in Hc. bool_facts. by eapply configured_ref_fits.
Qed.

(** ** Identities and nodes *)
Definition option_refs (r : option Ref) : list Ref := match r with Some r => [r] | None => [] end.
Definition rule_refs (ki : option KeyboardInteractiveConfig) : list Ref :=
  match ki with Some ki => rule ← elems (Rules ki); option_refs (SecretRef rule) | None => [] end.
Definition otp_refs (otp : option OTPConfig) : list Ref := match otp with Some otp => option_refs (TOTPSecretRef otp) | None => [] end.
Definition identity_v2_refs (id : IdentityV2) : list Ref :=
  option_refs (v2LoginPasswordRef id) ++ option_refs (v2PassphraseRef id) ++ otp_refs (v2OTP id) ++ rule_refs (v2KeyboardInteractive id).
(** A reference that an identity or a node of the configuration holds. *)
Definition v2_mentions (cfg : ConfigurationV2) (r : Ref) : Prop :=
  ref_IsEmpty r = false /\
  ((exists i id, v2Identities cfg !! i = Some id /\ r ∈ identity_v2_refs id) \/
   (exists n node, v2Nodes cfg !! n = Some node /\ v2PrivilegePasswordRef node = Some r)).

Lemma option_refs_elem r o : r ∈ option_refs o <-> o = Some r.
Proof. destruct o; simpl; [rewrite list_elem_of_singleton|]; [naive_solver|set_solver]. Qed.

Section Validated.
Context `{Alg : SshOptions.Algorithms} `{Ord : KeyOrder} `{Rx : RegexpCompile}.
Implicit Types (stores : gmap string StoreConfig) (name : string).

Lemma otp_valid name otp stores : validateOTPConfig name otp stores = Ok tt ->
  xorb (has_ref (TOTPSecretRef otp)) (negb (str_eq (trim_space (oCommand otp)) "")) = true /\
  forall r, TOTPSecretRef otp = Some r -> ref_IsEmpty r = false -> ref_fits stores r.
Proof.
  unfold validateOTPConfig. intros H. apply bind_reject_ok in H as [H1 H]. apply bind_reject_ok in H as [H2 H].
  apply bind_unit_ok in H as [H3 _]. split.
  - by destruct (has_ref _), (str_eq _ _).
  - intros r Hr He. rewrite Hr in H3. unfold has_ref, no_ref in H3. rewrite He in H3. simpl in H3.
    apply bind_unit_ok in H3 as [Hv H3]. apply bind_reject_ok in H3 as [Hc _]. bool_facts. by eapply configured_ref_fits.
Qed.

Lemma rule_source_valid name rule stores r : validateChallengeRuleSource name rule stores = Ok tt ->
  SecretRef rule = Some r -> ref_IsEmpty r = false -> rSource rule = ChallengeSourceSecret /\ ref_fits stores r.
Proof.
  intros H Hr He. assert (has_ref (SecretRef rule) = true) as Hh by (rewrite Hr; simpl; unfold has_ref, no_ref; by rewrite He).
  unfold validateChallengeRuleSource, validateNoSecretRefOrCommand in H. rewrite Hh in H.
  destruct (one_of _ _); [by apply bind_reject_ok in H as [? _]|].
  destruct (str_eq (rSource rule) ChallengeSourceSecret) eqn:Hs.
  - apply bind_reject_ok in H as [_ H]. rewrite Hr in H. apply bind_reject_ok in H as [_ H]. apply bind_reject_ok in H as [_ H].
    apply bind_unit_ok in H as [Hv H]. apply bind_reject_ok in H as [Hc _]. bool_facts. str_facts.
    split; [done|]. by eapply configured_ref_fits.
  - destruct (str_eq _ ChallengeSourceCommand); [by apply bind_reject_ok in H as [? _]|done].
Qed.

Lemma rules_valid name stores rules : forall seen, validate_rules name stores seen rules = Ok tt ->
  NoDup (filter (fun n => n <> "") (map rName rules)) /\
  (forall rule, rule ∈ rules -> rName rule <> "" -> rName rule ∉ seen) /\
  forall rule r, rule ∈ rules -> SecretRef rule = Some r -> ref_IsEmpty r = false -> rSource rule = ChallengeSourceSecret /\ ref_fits stores r.
Proof.
  induction rules as [|x rules IH]; intros seen H; cbn [validate_rules] in H.
  { split; [constructor|]. split; intros rule; set_solver. }
  apply bind_reject_ok in H as [Hd H]. apply bind_reject_ok in H as [_ H]. apply bind_reject_ok in H as [_ H].
  apply bind_reject_ok in H as [_ H]. apply bind_reject_ok in H as [_ H]. apply bind_unit_ok in H as [Hx H].
  apply IH in H as (Hn & Hs & Hr). split; [|split].
  - cbn [map]. rewrite filter_cons. destruct (str_eq (rName x) "") eqn:Hb; str_facts.
    + rewrite decide_False by (intros ?; done). done.
    + rewrite decide_True by done. constructor; [|done]. rewrite list_elem_of_filter. intros [_ Hin].
      apply list_elem_of_fmap in Hin as (y & Hxy & Hy). apply (Hs y Hy); [congruence|]. rewrite Hxy. set_solver.
  - intros rule [->|Hin]%elem_of_cons Hne Hseen.
    + apply andb_false_iff in Hd as [Hd|Hd]; [bool_facts; str_facts; done|]. apply slice_contains_spec in Hseen. congruence.
    + apply (Hs rule Hin Hne). destruct (str_eq (rName x) ""); set_solver.
  - intros rule r [->|Hin]%elem_of_cons; [by eapply rule_source_valid|by apply Hr].
Qed.

(** What a validated identity promises. *)
Definition identity_sound stores (id : IdentityV2) : Prop :=
  (forall r, r ∈ identity_v2_refs id -> ref_IsEmpty r = false -> ref_fits stores r) /\
  (has_ref (v2PassphraseRef id) = true -> trim_space (v2KeyFingerprint id) <> "") /\
  (forall otp, v2OTP id = Some otp -> xorb (has_ref (TOTPSecretRef otp)) (negb (str_eq (trim_space (oCommand otp)) "")) = true) /\
  (forall ki, v2KeyboardInteractive id = Some ki -> NoDup (filter (fun n => n <> "") (map rName (elems (Rules ki)))) /\
     forall rule r, rule ∈ elems (Rules ki) -> SecretRef rule = Some r -> ref_IsEmpty r = false -> rSource rule = ChallengeSourceSecret).

Lemma identity_valid stores name id : validateIdentityRefs stores name id = Ok tt -> identity_sound stores id.
Proof.
  unfold validateIdentityRefs. intros H. apply bind_unit_ok in H as [H1 H]. apply bind_unit_ok in H as [H2 H].
  apply bind_unit_ok in H as [H3 H]. apply bind_unit_ok in H as [H4 H5]. split; [|split; [|split]].
  - intros r. unfold identity_v2_refs. rewrite !elem_of_app, !option_refs_elem. intros [Hr|[Hr|[Hr|Hr]]] He.
    + exact (optional_ref_fits _ _ _ _ H1 r Hr He).
    + exact (optional_ref_fits _ _ _ _ H2 r Hr He).
    + destruct (v2OTP id) as [otp|]; simpl in Hr; [|set_solver]. apply option_refs_elem in Hr.
      apply otp_valid in H4 as [_ H4]. by apply H4.
    + destruct (v2KeyboardInteractive id) as [ki|]; simpl in Hr; [|set_solver].
      apply list_elem_of_bind in Hr as (rule & Hr & Hin). apply option_refs_elem in Hr.
      apply rules_valid in H5 as (_ & _ & H5). by eapply H5.
  - intros Hh. rewrite Hh in H3. apply bind_reject_ok in H3 as [H3 _]. by str_facts.
  - intros otp Ho. rewrite Ho in H4. by apply otp_valid in H4 as [H4 _].
  - intros ki Hk. rewrite Hk in H5. apply rules_valid in H5 as (Hn & _ & H5). split; [done|]. intros rule r Hin Hr He. by eapply H5.
Qed.

Definition node_sound (cfg : ConfigurationV2) (node : NodeV2) : Prop :=
  (v2HostRef node <> "" -> is_Some (v2Hosts cfg !! v2HostRef node)) /\
  (v2IdentityRef node <> "" -> is_Some (v2Identities cfg !! v2IdentityRef node)) /\
  (forall r, v2PrivilegePasswordRef node = Some r -> ref_IsEmpty r = false -> ref_fits (Stores (v2Credential cfg)) r) /\
  (exists e, Exec.ResolveExecution (v2Execution node) (v2GlobalExecution cfg) = Ok e /\ Exec.validate e = Ok tt) /\
  SshOptions.ValidateEffective (SshOptions.ResolveOptions (v2SSHOptions node) (v2GlobalOptions cfg)) = Ok tt.

Lemma node_valid cfg name node : validateNodeRefs cfg name node = Ok tt -> node_sound cfg node.
Proof.
  unfold validateNodeRefs. intros H. apply bind_reject_ok in H as [H1 H]. apply bind_reject_ok in H as [H2 H].
  apply bind_unit_ok in H as [H3 H]. apply bind_unit_ok in H as [_ H]. apply bind_unit_ok in H as [H4 H].
  apply bind_unit_ok in H as [_ H5]. split; [|split; [|split; [|split]]].
  - intros Hne. apply str_eq_false in Hne. rewrite Hne in H1. simpl in H1. by bool_facts.
  - intros Hne. apply str_eq_false in Hne. rewrite Hne in H2. simpl in H2. by bool_facts.
  - exact (optional_ref_fits _ _ _ _ H3).
  - unfold execution_valid in H4. destruct (Exec.ResolveExecution _ _) as [e|] eqn:E; [|done]. exists e. split; [done|].
    by apply Exec.ResolveExecution_ok in E as [? _].
  - unfold ValidateEffectiveSSHOptions in H5. destruct (SshOptions.ValidateEffective _) as [[]|]; [done|done].
Qed.

Lemma ValidateV2_ok cfg : ValidateV2 cfg = Ok tt <->
  v2SchemaVersion cfg = 2 /\ validate_execution "global" (v2GlobalExecution cfg) = Ok tt /\
  ValidateSSHOptions "global" (v2GlobalOptions cfg) = Ok tt /\ validateCredentialConfig (v2Credential cfg) = Ok tt /\
  map_Forall (fun name id => validateIdentityRefs (Stores (v2Credential cfg)) name id = Ok tt) (v2Identities cfg) /\
  map_Forall (fun name node => validateNodeRefs cfg name node = Ok tt) (v2Nodes cfg).
Proof.
  unfold ValidateV2. rewrite bind_reject_ok, !bind_unit_ok, !check_entries_ok, negb_false_iff, Z.eqb_eq. done.
Qed.

Lemma credential_ok cred : validateCredentialConfig cred = Ok tt <->
  (DefaultStore cred = "" \/ is_Some (Stores cred !! DefaultStore cred)) /\
  RememberPrompted cred ∈ [""; "ask"; "always"; "never"] /\
  map_Forall (fun name store => validateStoreConfig name store = Ok tt) (Stores cred).
Proof.
  unfold validateCredentialConfig. rewrite !bind_reject_ok, check_entries_ok, negb_false_iff, one_of_spec.
  rewrite andb_false_iff, !negb_false_iff, str_eq_spec, bool_decide_eq_true. tauto.
Qed.
End Validated.

(** * Theorems *)

(** Whether a configuration is valid does not depend on the order in which its entries
    are checked.  In a valid one every reference to a credential is complete, fits the
    store it names, and that store is configured; a passphrase has a fingerprint, a
    one-time password has exactly one source, rules with names have different names and
    hold references only for secrets; nodes name hosts and identities that exist, and what
    applies to them after inheritance is valid. *)
Theorem v2_sound `{SshOptions.Algorithms} `{RegexpCompile} (O1 O2 : KeyOrder) cfg :
  (ValidateV2 (Ord := O1) cfg = Ok tt <-> ValidateV2 (Ord := O2) cfg = Ok tt) /\
  (ValidateV2 (Ord := O1) cfg = Ok tt ->
     (forall r, v2_mentions cfg r -> ref_fits (Stores (v2Credential cfg)) r) /\
     (forall i id, v2Identities cfg !! i = Some id -> identity_sound (Stores (v2Credential cfg)) id) /\
     (forall n node, v2Nodes cfg !! n = Some node -> node_sound cfg node) /\
     (DefaultStore (v2Credential cfg) <> "" -> is_Some (Stores (v2Credential cfg) !! DefaultStore (v2Credential cfg)))).
Proof.
  split; [by rewrite !ValidateV2_ok, !credential_ok|].
  rewrite ValidateV2_ok, credential_ok. intros (_ & _ & _ & (Hd & _) & Hi & Hn).
  assert (forall i id, v2Identities cfg !! i = Some id -> identity_sound (Stores (v2Credential cfg)) id) as Hi'.
  { intros i id Hid. apply (identity_valid _ i). by apply (Hi i). }
  assert (forall n node, v2Nodes cfg !! n = Some node -> node_sound cfg node) as Hn'.
  { intros n node Hnode. apply (node_valid _ n). by apply (Hn n). }
  split; [|split; [done|split; [done|]]].
  - intros r [He [(i & id & Hid & Hr)|(n & node & Hnode & Hr)]].
    + destruct (Hi' i id Hid) as [Hf _]. by apply Hf.
    + destruct (Hn' n node Hnode) as (_ & _ & Hf & _). by apply Hf.
  - intros Hne. by destruct Hd.
Qed.

(** What a configuration becomes when it is written and read back: secrets are gone, and so are
    the aliases of this session; rules and options have the form of a copy. *)
Definition persisted (c : Configuration) : Configuration :=
  mkConfiguration 2 (Some (default (mkCredential "" "" ∅) (Credential c))) (identity_Clone <$> Identities c) (Hosts c)
    ((fun n => set_alias_mark (cloneNode n) "") <$> Nodes c) (Guardrail c) (MCP c) (cPasswordPromptPattern c)
    (cExecution c) (SshOptions.options_clone <$> cSSHOptions c).

Lemma exec_clone_value e : Exec.exec_clone e = e.
Proof. by destruct e as [[]|]. Qed.
Lemma option_clone_idem (o : option SshOptions.Options) : SshOptions.options_clone <$> (SshOptions.options_clone <$> o) = SshOptions.options_clone <$> o.
Proof. destruct o; simpl; [by rewrite options_clone_idem|done]. Qed.

Lemma identity_v2_roundtrip i : Password i = "" -> Passphrase i = "" -> identity_fromV2 (identity_toV2 i) = identity_Clone i.
Proof.
  destruct i. simpl. intros -> ->. unfold identity_fromV2, identity_Clone, identity_toV2, set_ki, set_otp. simpl.
  by rewrite ki_Clone_idem.
Qed.
Lemma node_v2_roundtrip n : SuPwd n = "" -> node_fromV2 (node_toV2 n) = set_alias_mark (cloneNode n) "".
Proof.
  destruct n. simpl. intros ->. unfold node_fromV2, node_toV2, cloneNode, set_alias_mark. simpl.
  by rewrite !exec_clone_value, option_clone_idem.
Qed.
Lemma identity_toV2_clone i : identity_toV2 (identity_Clone i) = identity_toV2 i.
Proof. unfold identity_toV2, identity_Clone. simpl. by rewrite ki_Clone_idem. Qed.
Lemma node_toV2_clone n : node_toV2 (set_alias_mark (cloneNode n) "") = node_toV2 n.
Proof. unfold node_toV2. simpl. by rewrite !exec_clone_value, option_clone_idem. Qed.

Definition no_plaintext (c : Configuration) : Prop :=
  map_Forall (fun _ id => Password id = "" /\ Passphrase id = "") (Identities c) /\ map_Forall (fun _ n => SuPwd n = "") (Nodes c).

Definition v2_of (c : Configuration) : ConfigurationV2 :=
  mkV2 2 (default (mkCredential "" "" ∅) (Credential c)) (identity_toV2 <$> Identities c) (Hosts c) (node_toV2 <$> Nodes c)
    (Guardrail c) (MCP c) (cPasswordPromptPattern c) (cExecution c) (SshOptions.options_clone <$> cSSHOptions c).

Lemma identities_plaintext (m : gmap string Identity) : map_Forall (fun k i => reject_identity_plaintext k i = Ok tt) m <->
  map_Forall (fun _ i => Password i = "" /\ Passphrase i = "") m.
Proof.
  assert (forall k i, reject_identity_plaintext k i = Ok tt <-> Password i = "" /\ Passphrase i = "") as E.
  { intros k i. unfold reject_identity_plaintext. rewrite bind_reject_ok, orb_false_iff, !negb_false_iff, !str_eq_spec. tauto. }
  split; intros Hm k i Hk; by apply (E k), (Hm k).
Qed.
Lemma nodes_plaintext (m : gmap string Node) : map_Forall (fun k n => reject_node_plaintext k n = Ok tt) m <-> map_Forall (fun _ n => SuPwd n = "") m.
Proof.
  assert (forall k n, reject_node_plaintext k n = Ok tt <-> SuPwd n = "") as E.
  { intros k n. unfold reject_node_plaintext. rewrite bind_reject_ok, negb_false_iff, str_eq_spec. tauto. }
  split; intros Hm k n Hk; by apply (E k), (Hm k).
Qed.

Lemma ToV2_ok `{SshOptions.Algorithms} `{KeyOrder} `{RegexpCompile} c v2 :
  ToV2 c = Ok v2 <-> no_plaintext c /\ ValidateV2 (v2_of c) = Ok tt /\ v2 = v2_of c.
Proof.
  unfold ToV2, no_plaintext. rewrite !bind_unit_ok, !check_entries_ok, identities_plaintext, nodes_plaintext.
  assert (cloneHost <$> Hosts c = Hosts c) as -> by (unfold cloneHost; apply map_fmap_id).
  rewrite exec_clone_value. unfold v2_of, cloneGuardrail, mcp_Clone, credential_Clone.
  assert (match Credential c with Some cred => cred | None => mkCredential "" "" ∅ end = default (mkCredential "" "" ∅) (Credential c)) as ->
    by (by destruct (Credential c)).
  split.
  - by intros (Hi & Hn & Hv & [= <-]).
  - by intros ([Hi Hn] & Hv & ->).
Qed.

Lemma v2_reads_back `{SshOptions.Algorithms} `{KeyOrder} `{RegexpCompile} c v2 (Hv : ToV2 c = Ok v2) :
  no_plaintext c /\ FromV2 v2 = Ok (persisted c) /\ ToV2 (persisted c) = Ok v2 /\ no_plaintext (persisted c).
Proof.
  apply ToV2_ok in Hv as ([Hi Hn] & Hv & ->). split; [done|].
  assert (no_plaintext (persisted c)) as Hp.
  { split; intros k x; simpl; rewrite lookup_fmap; intros (y & Hy & ->)%fmap_Some.
    - destruct (Hi k y Hy). by destruct y.
    - specialize (Hn k y Hy). by destruct y. }
  split; [|split; [|done]].
  - unfold FromV2. rewrite Hv. simpl. unfold v2_of, persisted, credential_Clone. f_equal. simpl.
    rewrite exec_clone_value, option_clone_idem. f_equal.
    + apply map_eq. intros k. rewrite !lookup_fmap. destruct (Identities c !! k) eqn:E; simpl; [|done].
      f_equal. destruct (Hi k _ E). by apply identity_v2_roundtrip.
    + unfold cloneHost. apply map_fmap_id.
    + apply map_eq. intros k. rewrite !lookup_fmap. destruct (Nodes c !! k) eqn:E; simpl; [|done].
      f_equal. by apply node_v2_roundtrip, (Hn k).
  - apply ToV2_ok. assert (v2_of (persisted c) = v2_of c) as E.
    { unfold v2_of, persisted. simpl. rewrite option_clone_idem. f_equal; apply map_eq; intros k; rewrite !lookup_fmap.
      - destruct (Identities c !! k); simpl; [by rewrite identity_toV2_clone|done].
      - destruct (Nodes c !! k); simpl; [by rewrite node_toV2_clone|done]. }
    by rewrite E.
Qed.

(** C33: A configuration is translated exactly when it holds no plaintext secret and what it
    becomes is valid.  Read back it is the same up to what copies normalise, and
    translating that gives the same document. *)
Theorem v2_roundtrip `{SshOptions.Algorithms} `{KeyOrder} `{RegexpCompile} c v2 (Hv : ToV2 c = Ok v2) :
  no_plaintext c /\ FromV2 v2 = Ok (persisted c) /\ ToV2 (persisted c) = Ok v2 /\ no_plaintext (persisted c).
Proof. by apply v2_reads_back. Qed.

Lemma forbid_ok subject names m : forbid subject names m = Ok tt <-> Forall (fun f => has_field m f = false) names.
Proof.
  induction names as [|f names IH]; cbn [forbid]; [split; auto|]. rewrite bind_reject_ok, IH. by rewrite Forall_cons.
Qed.

(** A document passes exactly when no identity, one-time password or rule of it has a key that
    could hold a secret, and no node has a password. *)
Definition rule_clean (rule : ynode) : Prop :=
  match rule with YMap m => Forall (fun f => has_field m f = false) rule_secrets | _ => True end.
Definition identity_clean (m : list (string * ynode)) : Prop :=
  Forall (fun f => has_field m f = false) identity_secrets /\
  (forall otp, field m "otp" = Some (YMap otp) -> Forall (fun f => has_field otp f = false) otp_secrets) /\
  (forall ki rules, field m "keyboard_interactive" = Some (YMap ki) -> field ki "rules" = Some (YSeq rules) -> Forall rule_clean rules).

Lemma rules_plaintext_ok idName rules : checkRulesPlaintext idName rules = Ok tt <-> Forall rule_clean rules.
Proof.
  induction rules as [|r rules IH]; [split; auto|]. rewrite Forall_cons. destruct r; cbn [checkRulesPlaintext rule_clean]; rewrite ?bind_unit_ok, ?forbid_ok, IH; tauto.
Qed.

Lemma identity_plaintext_ok name m : checkIdentityPlaintext name m = Ok tt <-> identity_clean m.
Proof.
  unfold checkIdentityPlaintext, identity_clean. rewrite !bind_unit_ok, forbid_ok. apply and_iff_compat_l.
  assert (forall names f, match as_map f with Some otp => forbid name names otp | None => Ok tt end = Ok tt <->
            forall otp, f = Some (YMap otp) -> Forall (fun f => has_field otp f = false) names) as E.
  { intros names f. destruct f as [[]|]; simpl; rewrite ?forbid_ok; split; naive_solver. }
  rewrite E. apply and_iff_compat_l. destruct (field m "keyboard_interactive") as [[]|]; simpl; [split; naive_solver..| |split; naive_solver].
  destruct (field m0 "rules") as [[]|] eqn:Hr; [split; naive_solver..| | |]; [|split; naive_solver..].
  rewrite rules_plaintext_ok. split; [|naive_solver]. intros Hc ki rules [= <-] Hk. rewrite Hr in Hk. by injection Hk as <-.
Qed.

Theorem plaintext_refused doc : checkForbiddenPlaintextFields doc = Ok tt <->
  (forall ids name m, field doc "identities" = Some (YMap ids) -> (name, YMap m) ∈ ids -> identity_clean m) /\
  (forall nodes name m, field doc "nodes" = Some (YMap nodes) -> (name, YMap m) ∈ nodes -> has_field m "su_pwd" = false).
Proof.
  assert (forall entries, check_identities entries = Ok tt <-> forall name m, (name, YMap m) ∈ entries -> identity_clean m) as Ei.
  { induction entries as [|[name n] entries IH]; [split; [set_solver|done]|]. setoid_rewrite elem_of_cons.
    destruct n; cbn [check_identities]; rewrite ?bind_unit_ok, ?identity_plaintext_ok, IH; split; naive_solver. }
  assert (forall entries, check_nodes entries = Ok tt <-> forall name m, (name, YMap m) ∈ entries -> has_field m "su_pwd" = false) as En.
  { induction entries as [|[name n] entries IH]; [split; [set_solver|done]|]. setoid_rewrite elem_of_cons.
    destruct n; cbn [check_nodes]; rewrite ?bind_reject_ok, ?IH; split; naive_solver. }
  unfold checkForbiddenPlaintextFields. rewrite bind_unit_ok.
  destruct (field doc "identities") as [[]|], (field doc "nodes") as [[]|]; simpl; rewrite ?Ei, ?En; split; naive_solver.
Qed.

(** * Witnesses *)
#[local] Instance sample_regexp : RegexpCompile := fun _ => true.
#[local] Existing Instance SshOptions.sample_algorithms.

Lemma v2_sound_witness :
  ref_fits (Stores (v2Credential (v2_of sample_config))) (mkRef "file" "a1").
Proof.
  assert (ValidateV2 (v2_of sample_config) = Ok tt) as Hv by (vm_compute; reflexivity).
  destruct (v2_sound map_order map_order (v2_of sample_config)) as [_ Hs]. destruct (Hs Hv) as [Hr _]. apply Hr.
  split; [reflexivity|]. left. exists "i1", (identity_toV2 sample_identity).
  split; [vm_compute; reflexivity|]. vm_compute. constructor.
Defined.

Lemma v2_roundtrip_witness :
  exists v2, ToV2 sample_config = Ok v2 /\ FromV2 v2 = Ok (persisted sample_config).
Proof.
  exists (v2_of sample_config).
  assert (ToV2 sample_config = Ok (v2_of sample_config)) as E.
  { apply ToV2_ok. split; [|split; [vm_compute; reflexivity|reflexivity]].
    split; (apply map_Forall_to_list; vm_compute; repeat constructor). }
  split; [exact E|]. apply (v2_roundtrip sample_config (v2_of sample_config) E).
Defined.
