(* ===== verification/Edits.v ===== *)
(** Mutations of a configuration: what the transactions of pkg/config repository.go,
    repository_execution.go, credential_edit.go and credential_create.go do to the
    snapshot they are given.

    A mutation is a function from a configuration to a new one or an error, in which case
    the snapshot is dropped.  Versions are digests of documents, a class parameter.
    Identities point to the record of a one-time password and of
    keyboard-interactive rules, and copying an identity shares what it points to: the
    credential updates below therefore say what the other holder of those
    pointers sees.  The theorems show that a mutation leaves the bundles (node, host,
    identity) of all other nodes alone, with the exception of that sharing. *)
From stdpp Require pretty.
From S2P Require Export SchemaV2.
#[local] Open Scope Z_scope.

(** * Versions *)

(** The documents whose digests are versions; the alias of a session is not written. *)
Inductive document :=
  | DocIdentity (identity : Identity)
  | DocBundle (node : Node) (host : option Host) (identity : option Identity)
  | DocAuth (identityRef authType password keyPath passphrase fingerprint : string) (login pass : option Ref)
      (otp : option OTPConfig) (ki : option KeyboardInteractiveConfig)
  | DocSudo (mode suPwd : string) (ref : option Ref).

Definition version_size : nat := 32.
(** The SHA-256 digest of the YAML of a document, which can fail. *)
Class Versions := {
  digest : document -> option string;
  digest_size : forall d v, digest d = Some v -> String.length v = version_size
}.

(** * Errors *)
Inductive edit_error :=
  | EmptyID (what : string) | Conflict (what id : string) | NotFound (e : config_error) | VersionFailed (id : string)
  | BadVersion (length : nat) | StillReferenced (identity node : string) | RuleRequired | RuleNotFound (rule : string)
  | BadKind (kind : string) | BadRef (e : ref_error) | BadExecution (e : Exec.exec_error) | TargetMissing
  | AliasTaken (e : alias_conflict) | Unresolved (e : config_error).

Definition get_version (id : string) (d : document) `{Versions} : result edit_error string :=
  match digest d with Some v => Ok v | None => Err (VersionFailed id) end.

Section Versioned.
Context `{Ver : Versions}.

Definition identityEntityVersion (cfg : Configuration) (identityID : string) : result edit_error string :=
  match Identities cfg !! identityID with
  | None => Err (NotFound (IdentityNotFound identityID ""))
  | Some identity => get_version identityID (DocIdentity identity)
  end.
Definition nodeAuthVersion (cfg : Configuration) (nodeID : string) : result edit_error string :=
  match Nodes cfg !! nodeID with
  | None => Err (NotFound (NodeNotFound nodeID))
  | Some node =>
      match Identities cfg !! IdentityRef node with
      | None => Err (NotFound (IdentityNotFound (IdentityRef node) nodeID))
      | Some i => get_version nodeID (DocAuth (IdentityRef node) (AuthType i) (Password i) (KeyPath i) (Passphrase i) (KeyFingerprint i)
                    (LoginPasswordRef i) (PassphraseRef i) (OTP i) (KeyboardInteractive i))
      end
  end.
Definition nodeSudoVersion (cfg : Configuration) (nodeID : string) : result edit_error string :=
  match Nodes cfg !! nodeID with
  | None => Err (NotFound (NodeNotFound nodeID))
  | Some node => get_version nodeID (DocSudo (SudoMode node) (SuPwd node) (PrivilegePasswordRef node))
  end.
Definition nodeEntityVersion (cfg : Configuration) (nodeID : string) : result edit_error string :=
  match Nodes cfg !! nodeID with
  | None => Err (NotFound (NodeNotFound nodeID))
  | Some node => get_version nodeID (DocBundle (set_alias_mark node "") (Hosts cfg !! HostRef node) (Identities cfg !! IdentityRef node))
  end.
Definition versionFromString (value : string) : result edit_error string :=
  reject negb (Nat.eqb (String.length value) version_size) with BadVersion (String.length value) ;; Ok value.

(** [err != nil || current != expected] *)
Definition version_is (current : result edit_error string) (expected : string) : bool :=
  match current with Ok v => str_eq v expected | Err _ => false end.

Record IdentityVersionRef := mkIdentityRef { ir_ID : string; ir_Version : string }.
Record NodeVersionRef := mkNodeRef { nr_ID : string; nr_Version : string }.

Definition ensureIdentityRef (cfg : Configuration) (ref : IdentityVersionRef) : result edit_error unit :=
  reject str_eq (ir_ID ref) "" with EmptyID "identity reference" ;;
  reject negb (version_is (identityEntityVersion cfg (ir_ID ref)) (ir_Version ref)) with Conflict "identity" (ir_ID ref) ;;
  Ok tt.
Fixpoint ensure_refs (cfg : Configuration) (seen : gmap string string) (refs : list NodeVersionRef) : result edit_error unit :=
  match refs with
  | [] => Ok tt
  | ref :: refs =>
      reject str_eq (nr_ID ref) "" with EmptyID "node reference" ;;
      match seen !! nr_ID ref with
      | Some existing =>
          reject negb (str_eq existing (nr_Version ref)) with Conflict "node reference" (nr_ID ref) ;;
          ensure_refs cfg seen refs
      | None =>
          reject negb (version_is (nodeEntityVersion cfg (nr_ID ref)) (nr_Version ref)) with Conflict "node" (nr_ID ref) ;;
          ensure_refs cfg (<[nr_ID ref := nr_Version ref]> seen) refs
      end
  end.
Definition ensureNodeRefs (cfg : Configuration) (refs : list NodeVersionRef) : result edit_error unit := ensure_refs cfg ∅ refs.
End Versioned.

(** * References of nodes *)
Definition countNodeReferences `{KeyOrder} (cfg : Configuration) (predicate : Node -> bool) : Z :=
  Z.of_nat (List.length (List.filter (fun id => match Nodes cfg !! id with Some node => predicate node | None => false end) (keys_of (Nodes cfg)))).

(** The first name from [base:suffix] on that is not in use; [fuel] names are tried. *)
Fixpoint free_suffix (inUse : string -> bool) (base : string) (suffix : Z) (fuel : nat) : string :=
  let candidate := base +:+ ":" +:+ itoa suffix in
  match fuel with
  | O => candidate
  | S fuel => if inUse candidate then free_suffix inUse base (suffix + 1) fuel else candidate
  end.
Definition privateReference {A} (used : gmap string A) (nodeID kind : string) : string :=
  let inUse name := bool_decide (is_Some (used !! name)) in
  let base := "node:" +:+ nodeID +:+ ":" +:+ kind in
  if negb (inUse base) then base else free_suffix inUse base 2 (size used).
Definition privateHostReference (cfg : Configuration) (nodeID : string) : string := privateReference (Hosts cfg) nodeID "host".
Definition privateIdentityReference (cfg : Configuration) (nodeID : string) : string := privateReference (Identities cfg) nodeID "identity".

Section Mutations.
Context `{Ver : Versions} `{Ord : KeyOrder}.

(** * Identities *)
Definition create_identity (identityID : string) (identity : Identity) (cfg : Configuration) : result edit_error Configuration :=
  reject bool_decide (is_Some (Identities cfg !! identityID)) with Conflict "identity" identityID ;;
  Ok (set_identities (insert identityID identity) cfg).
Definition replace_identity (ref : IdentityVersionRef) (identity : Identity) (cfg : Configuration) : result edit_error Configuration :=
  try _ := ensureIdentityRef cfg ref ;;
  Ok (set_identities (insert (ir_ID ref) identity) cfg).

(** The first node that refers to an identity. *)
Definition referrer (cfg : Configuration) (identityID : string) : option string :=
  List.find (fun id => match Nodes cfg !! id with Some node => str_eq (IdentityRef node) identityID | None => false end)
    (keys_of (Nodes cfg)).
Definition delete_identity (ref : IdentityVersionRef) (cfg : Configuration) : result edit_error Configuration :=
  try _ := ensureIdentityRef cfg ref ;;
  match referrer cfg (ir_ID ref) with
  | Some nodeID => Err (StillReferenced (ir_ID ref) nodeID)
  | None => Ok (set_identities (delete (ir_ID ref)) cfg)
  end.

(** * Nodes *)

(** An entry that is absent is added, one that is there must be equal. *)
Definition reuse_host (nodeID ref : string) (host : Host) (cfg : Configuration) : result edit_error Configuration :=
  match Hosts cfg !! ref with
  | Some existing => reject negb (DeepEqual existing host) with Conflict "host" nodeID ;; Ok cfg
  | None => Ok (set_hosts (insert ref (cloneHost host)) cfg)
  end.
Definition reuse_identity (nodeID ref : string) (identity : Identity) (cfg : Configuration) : result edit_error Configuration :=
  match Identities cfg !! ref with
  | Some existing => reject negb (DeepEqual existing identity) with Conflict "identity" nodeID ;; Ok cfg
  | None => Ok (set_identities (insert ref identity) cfg)
  end.
Definition create_node (nodeID : string) (node : Node) (host : Host) (identity : Identity) (cfg : Configuration) : result edit_error Configuration :=
  reject bool_decide (is_Some (Nodes cfg !! nodeID)) with Conflict "node" nodeID ;;
  try cfg := reuse_host nodeID (HostRef node) host cfg ;;
  try cfg := reuse_identity nodeID (IdentityRef node) identity cfg ;;
  Ok (set_nodes (insert nodeID (cloneNode node)) cfg).

(** References from other nodes to a host or an identity that is about to change. *)
Definition other_references (cfg : Configuration) (ref : Node -> string) (oldNode : Node) (r : string) : Z :=
  let n := countNodeReferences cfg (fun candidate => str_eq (ref candidate) r) in
  if str_eq (ref oldNode) r then n - 1 else n.
Definition host_target (cfg : Configuration) (oldNode : Node) (nodeID : string) (node : Node) (host : Host) : string :=
  match Hosts cfg !! HostRef node with
  | Some existing =>
      if negb (DeepEqual existing host) && (0 <? other_references cfg HostRef oldNode (HostRef node))
      then privateHostReference cfg nodeID else HostRef node
  | None => HostRef node
  end.
Definition identity_target (cfg : Configuration) (oldNode : Node) (nodeID : string) (node : Node) (identity : Identity) : string :=
  match Identities cfg !! IdentityRef node with
  | Some existing =>
      if negb (DeepEqual existing identity) && (0 <? other_references cfg IdentityRef oldNode (IdentityRef node))
      then privateIdentityReference cfg nodeID else IdentityRef node
  | None => IdentityRef node
  end.
Definition put_bundle (nodeID : string) (node : Node) (host : Host) (identity : Identity) (cfg : Configuration) : Configuration :=
  set_nodes (insert nodeID (cloneNode node))
    (set_identities (insert (IdentityRef node) identity) (set_hosts (insert (HostRef node) (cloneHost host)) cfg)).
Definition replaceNodeAtRef (ref : NodeVersionRef) (nodeID : string) (node : Node) (host : Host) (identity : Identity) (cfg : Configuration)
    : result edit_error Configuration :=
  let oldNodeID := nr_ID ref in
  if str_eq oldNodeID "" then Ok (put_bundle nodeID node host identity cfg)
  else
    try _ := ensureNodeRefs cfg [ref] ;;
    match Nodes cfg !! oldNodeID with
    | None => Err (NotFound (NodeNotFound oldNodeID))
    | Some oldNode =>
        let node := set_node_refs node (host_target cfg oldNode nodeID node host) (IdentityRef node) in
        let node := set_node_refs node (HostRef node) (identity_target cfg oldNode nodeID node identity) in
        reject negb (str_eq oldNodeID nodeID) && bool_decide (is_Some (Nodes cfg !! nodeID)) with Conflict "rename" nodeID ;;
        let cfg := put_bundle nodeID node host identity cfg in
        Ok (if negb (str_eq oldNodeID nodeID) then removeNodeAndUnusedRefs oldNodeID cfg
            else removeUnusedRefs (HostRef oldNode) (IdentityRef oldNode) cfg)
    end.
(** [ReplaceNodeAtRefWithAuthVersionContext] also returns the version it produced. *)
Definition replace_node (ref : NodeVersionRef) (nodeID : string) (node : Node) (host : Host) (identity : Identity) (cfg : Configuration)
    : result edit_error (Configuration * string) :=
  try cfg := replaceNodeAtRef ref nodeID node host identity cfg ;;
  try version := nodeAuthVersion cfg nodeID ;;
  Ok (cfg, version).

Definition delete_node (ref : NodeVersionRef) (cfg : Configuration) : result edit_error Configuration :=
  try _ := ensureNodeRefs cfg [ref] ;;
  Ok (removeNodeAndUnusedRefs (nr_ID ref) cfg).
(** Every node is removed once, in the order of the references. *)
Fixpoint remove_nodes (seen : list string) (refs : list NodeVersionRef) (cfg : Configuration) : Configuration :=
  match refs with
  | [] => cfg
  | ref :: refs =>
      if slice_contains seen (nr_ID ref) then remove_nodes seen refs cfg
      else remove_nodes (nr_ID ref :: seen) refs (removeNodeAndUnusedRefs (nr_ID ref) cfg)
  end.
Definition delete_nodes (refs : list NodeVersionRef) (cfg : Configuration) : result edit_error Configuration :=
  try _ := ensureNodeRefs cfg refs ;;
  Ok (remove_nodes [] refs cfg).

(** ** Tags *)
Fixpoint ordered_tags (seen : list string) (tags : list string) : list string :=
  match tags with
  | [] => []
  | tag :: tags =>
      if str_eq tag "" || slice_contains seen tag then ordered_tags seen tags
      else tag :: ordered_tags (tag :: seen) tags
  end.
Fixpoint check_nodes_exist (cfg : Configuration) (seen : list string) (nodeIDs : list string) : result edit_error (list string) :=
  match nodeIDs with
  | [] => Ok seen
  | nodeID :: nodeIDs =>
      reject str_eq nodeID "" with EmptyID "node" ;;
      if slice_contains seen nodeID then check_nodes_exist cfg seen nodeIDs
      else
        reject negb (bool_decide (is_Some (Nodes cfg !! nodeID))) with NotFound (NodeNotFound nodeID) ;;
        check_nodes_exist cfg (nodeID :: seen) nodeIDs
  end.
(** The new tags of a node, when they change. *)
Definition retag (add : bool) (tags : list string) (current : list string) : option (list string) :=
  if add then
    match List.filter (fun tag => negb (slice_contains current tag)) tags with
    | [] => None
    | added => Some (current ++ added)
    end
  else if existsb (fun tag => slice_contains tags tag) current
       then Some (List.filter (fun tag => negb (slice_contains tags tag)) current)
       else None.
Fixpoint retag_nodes (add : bool) (tags : list string) (cfg : Configuration) (count : Z) (nodeIDs : list string) : Configuration * Z :=
  match nodeIDs with
  | [] => (cfg, count)
  | nodeID :: nodeIDs =>
      match Nodes cfg !! nodeID with
      | None => retag_nodes add tags cfg count nodeIDs
      | Some node =>
          match retag add tags (elems (nTags node)) with
          | None => retag_nodes add tags cfg count nodeIDs
          | Some new => retag_nodes add tags (set_nodes (insert nodeID (set_tags node (Some new))) cfg) (count + 1) nodeIDs
          end
      end
  end.
Definition update_tags (nodeIDs tags : list string) (add : bool) (cfg : Configuration) : result edit_error (Configuration * Z) :=
  match ordered_tags [] tags with
  | [] => Ok (cfg, 0)
  | orderedTags =>
      try seen := check_nodes_exist cfg [] nodeIDs ;;
      Ok (retag_nodes add orderedTags cfg 0 seen)
  end.

(** ** Discoveries of a connection *)
Definition update_auth (nodeID authVersion password keyPath passphrase : string) (cfg : Configuration) : result edit_error (Configuration * string) :=
  try expected := versionFromString authVersion ;;
  reject negb (version_is (nodeAuthVersion cfg nodeID) expected) with Conflict "authentication" nodeID ;;
  match Nodes cfg !! nodeID with
  | None => Err (NotFound (NodeNotFound nodeID))
  | Some node =>
      match Identities cfg !! IdentityRef node with
      | None => Err (NotFound (IdentityNotFound (IdentityRef node) nodeID))
      | Some identity =>
          let byPassword := negb (str_eq password "") && negb (str_eq (Password identity) password) in
          let identity := if byPassword then set_plain identity (KeyPath identity) (Passphrase identity) password "password" else identity in
          let byKey := negb (str_eq passphrase "") && (negb (str_eq (Passphrase identity) passphrase) || negb (str_eq (KeyPath identity) keyPath)) in
          let identity := if byKey then set_plain identity keyPath passphrase (Password identity) "key" else identity in
          if negb (byPassword || byKey) then Ok (cfg, authVersion)
          else
            let shared := 1 <? countNodeReferences cfg (fun candidate => str_eq (IdentityRef candidate) (IdentityRef node)) in
            let node' := if shared then set_node_refs node (HostRef node) (privateIdentityReference cfg nodeID) else node in
            let cfg := if shared then set_nodes (insert nodeID node') cfg else cfg in
            let cfg := set_identities (insert (IdentityRef node') identity) cfg in
            try version := nodeAuthVersion cfg nodeID ;; Ok (cfg, version)
      end
  end.
Definition update_sudo (nodeID sudoVersion mode suPwd : string) (cfg : Configuration) : result edit_error (Configuration * string) :=
  try expected := versionFromString sudoVersion ;;
  reject negb (version_is (nodeSudoVersion cfg nodeID) expected) with Conflict "sudo" nodeID ;;
  match Nodes cfg !! nodeID with
  | None => Err (NotFound (NodeNotFound nodeID))
  | Some node =>
      let newMode := negb (str_eq mode "") && negb (str_eq (SudoMode node) mode) in
      let newPwd := negb (str_eq suPwd "") && negb (str_eq (SuPwd node) suPwd) in
      if negb (newMode || newPwd) then Ok (cfg, sudoVersion)
      else
        let node := set_sudo node (if newMode then mode else SudoMode node) (if newPwd then suPwd else SuPwd node) (PrivilegePasswordRef node) in
        let cfg := set_nodes (insert nodeID node) cfg in
        try version := nodeSudoVersion cfg nodeID ;; Ok (cfg, version)
  end.
Definition update_execution (ref : NodeVersionRef) (execution : option Exec.ExecutionConfig) (cfg : Configuration) : result edit_error Configuration :=
  match Exec.validate execution with
  | Err e => Err (BadExecution e)
  | Ok _ =>
      try _ := ensureNodeRefs cfg [ref] ;;
      match Nodes cfg !! nr_ID ref with
      | Some node => Ok (set_nodes (insert (nr_ID ref) (set_execution node (Exec.exec_clone execution))) cfg)
      | None => Err (NotFound (NodeNotFound (nr_ID ref)))
      end
  end.
End Mutations.

(** * Credential references *)

(** pkg/credential service.go: what a credential is written for. *)
Record Target := mkTarget {
  tNodeID : string; tIdentityID : string; tKind : string; tRuleName : string; tKeyPath : string; tKeyFingerprint : string;
  tAuthType : string; tClearKeyPath : bool; tClearLegacyLoginPassword : bool; tClearLegacyPassphrase : bool
}.
Inductive target_error := TargetUnspecified | TargetKind (e : ref_error) | TargetRule.
Definition target_Validate (t : Target) : result target_error unit :=
  reject str_eq (tNodeID t) "" && str_eq (tIdentityID t) "" with TargetUnspecified ;;
  match kind_Validate (tKind t) with
  | Err e => Err (TargetKind e)
  | Ok _ => reject str_eq (tKind t) KindChallengeAnswer && str_eq (trim_space (tRuleName t)) "" with TargetRule ;; Ok tt
  end.
Definition TargetIdentifier (t : Target) : string :=
  let base := if str_eq (tNodeID t) "" then tIdentityID t else tNodeID t in
  if str_eq (tRuleName t) "" then base else base +:+ "#" +:+ tRuleName t.

(** The records the pointers of an identity lead to. *)
Definition pointees : Type := option OTPConfig * option KeyboardInteractiveConfig.
Definition pointees_of (i : Identity) : pointees := (OTP i, KeyboardInteractive i).
(** What another holder of the same pointers sees. *)
Definition set_pointees (i : Identity) (p : pointees) : Identity := set_ki (set_otp i (fst p)) (snd p).

Definition set_totp_ref (o : OTPConfig) (r : option Ref) : OTPConfig :=
  mkOTP r (oCommand o) (oArgs o) (oTimeout o) (oPromptPattern o).
Definition set_auth_type (i : Identity) (t : string) : Identity := set_plain i (KeyPath i) (Passphrase i) (Password i) t.

(** The identity afterwards, and what its pointers as they were lead to. *)
Definition applyIdentityTOTPSecretRef (identity : Identity) (newRef : option Ref) : Identity * pointees :=
  if no_ref newRef then
    match OTP identity with
    | Some o =>
        let o := set_totp_ref o None in
        (set_otp identity (if str_eq (trim_space (oCommand o)) "" then None else Some o), (Some o, KeyboardInteractive identity))
    | None => (identity, pointees_of identity)
    end
  else
    let '(o, shared) :=
      match OTP identity with
      | None => (mkOTP newRef "" None 0 "", None)
      | Some o => let o := mkOTP newRef "" None (oTimeout o) (oPromptPattern o) in (o, Some o)
      end in
    let identity' := set_otp identity (Some o) in
    (if str_eq (AuthType identity) "" then set_auth_type identity' "otp" else identity', (shared, KeyboardInteractive identity)).

Definition set_rule_ref (r : ChallengeRule) (ref : option Ref) : ChallengeRule :=
  mkRule (rName r) (rPromptPattern r) (rInstructionPattern r) (rSource r) ref (rCommand r) (rArgs r) (rTimeout r).
(** The rules without the one of that name, or with another reference in it. *)
Fixpoint change_rule (ruleName : string) (newRef : option Ref) (rules : list ChallengeRule) : option (list ChallengeRule) :=
  match rules with
  | [] => None
  | rule :: rules =>
      if str_eq (rName rule) ruleName then
        Some (if no_ref newRef then rules else set_rule_ref rule newRef :: rules)
      else cons rule <$> change_rule ruleName newRef rules
  end.
Definition applyIdentityChallengeAnswerRef (identity : Identity) (newRef : option Ref) (ruleName : string) : result edit_error (Identity * pointees) :=
  reject str_eq ruleName "" with RuleRequired ;;
  match KeyboardInteractive identity with
  | None => Err (RuleNotFound ruleName)
  | Some ki =>
      match change_rule ruleName newRef (elems (Rules ki)) with
      | None => Err (RuleNotFound ruleName)
      | Some rules =>
          let ki := mkKI (Some rules) in
          let local := if no_ref newRef && Nat.eqb (List.length rules) 0 then None else Some ki in
          Ok (set_ki identity local, (OTP identity, Some ki))
      end
  end.

(** A password or key reference decides the kind of authentication, unless that asks questions. *)
Definition interactive_auth (t : string) : bool := one_of t ["keyboard-interactive"; "otp"].
Definition applyIdentityCredentialRefKind (identity : Identity) (kind : string) (newRef : option Ref) (ruleName : string)
    : result edit_error (Identity * pointees) :=
  let typed (i : Identity) (t : string) :=
    if negb (no_ref newRef) && negb (interactive_auth (AuthType i)) then set_auth_type i t else i in
  if str_eq kind KindLoginPassword then
    let i := set_refs identity newRef (PassphraseRef identity) in
    let i := set_plain i (KeyPath i) (Passphrase i) "" (AuthType i) in
    Ok (typed i "password", pointees_of identity)
  else if str_eq kind KindPassphrase then
    let i := set_refs identity (LoginPasswordRef identity) newRef in
    let i := set_plain i (KeyPath i) "" (Password i) (AuthType i) in
    Ok (typed i "key", pointees_of identity)
  else if str_eq kind KindTOTPSecret then Ok (applyIdentityTOTPSecretRef identity newRef)
  else if str_eq kind KindChallengeAnswer then applyIdentityChallengeAnswerRef identity newRef ruleName
  else Ok (identity, pointees_of identity).

Definition applyIdentityAuthModifications (i : Identity) (t : Target) : Identity :=
  set_plain i
    (if tClearKeyPath t then "" else if str_eq (tKeyPath t) "" then KeyPath i else tKeyPath t)
    (if tClearLegacyPassphrase t then "" else Passphrase i)
    (if tClearLegacyLoginPassword t then "" else Password i)
    (if str_eq (tAuthType t) "" then AuthType i else tAuthType t).
Definition set_target_fingerprint (i : Identity) (t : Target) : Identity :=
  if str_eq (tKeyFingerprint t) "" then i else set_fingerprint i (tKeyFingerprint t).
Definition applyIdentityCredentialMetadata (i : Identity) (t : Target) : Identity :=
  applyIdentityAuthModifications (set_target_fingerprint i t) t.
(** [applyTargetRefToIdentity] of credential_edit.go, on a copy of its own. *)
Definition applyTargetRefToIdentity (identity : Identity) (t : Target) (newRef : option Ref) : result edit_error Identity :=
  if str_eq (tKind t) KindLoginPassword then
    let i := set_refs identity newRef (PassphraseRef identity) in Ok (set_plain i (KeyPath i) (Passphrase i) "" (AuthType i))
  else if str_eq (tKind t) KindPassphrase then
    let i := set_refs identity (LoginPasswordRef identity) newRef in Ok (set_plain i (KeyPath i) "" (Password i) (AuthType i))
  else if str_eq (tKind t) KindTOTPSecret then Ok (fst (applyIdentityTOTPSecretRef identity newRef))
  else if str_eq (tKind t) KindChallengeAnswer then try r := applyIdentityChallengeAnswerRef identity newRef (tRuleName t) ;; Ok (fst r)
  else Ok identity.

Section CredentialUpdates.
Context `{Ver : Versions} `{Ord : KeyOrder}.

(** A version that is given must be the current one. *)
Definition check_expected (what id expectedVersion current : string) : result edit_error unit :=
  if str_eq expectedVersion "" then Ok tt
  else try expected := versionFromString expectedVersion ;; reject negb (str_eq current expected) with Conflict what id ;; Ok tt.

Definition updateNodeAuthCredentialRef (t : Target) (expectedVersion : string) (newRef : option Ref) (cfg : Configuration)
    : result edit_error (Configuration * string) :=
  let nodeID := tNodeID t in
  match Nodes cfg !! nodeID with
  | None => Err (NotFound (NodeNotFound nodeID))
  | Some node =>
      try current := nodeAuthVersion cfg nodeID ;;
      try _ := check_expected "authentication" nodeID expectedVersion current ;;
      match Identities cfg !! IdentityRef node with
      | None => Err (NotFound (IdentityNotFound (IdentityRef node) nodeID))
      | Some identity =>
          let shared := 1 <? countNodeReferences cfg (fun candidate => str_eq (IdentityRef candidate) (IdentityRef node)) in
          let node' := if shared then set_node_refs node (HostRef node) (privateIdentityReference cfg nodeID) else node in
          let cfg := if shared then set_nodes (insert nodeID node') cfg else cfg in
          try changed := applyIdentityCredentialRefKind identity (tKind t) newRef (tRuleName t) ;;
          let cfg := set_identities (insert (IdentityRef node) (set_pointees identity (snd changed))) cfg in
          let cfg := set_identities (insert (IdentityRef node') (applyIdentityAuthModifications (fst changed) t)) cfg in
          try version := nodeAuthVersion cfg nodeID ;; Ok (cfg, version)
      end
  end.
Definition updateNodeAuthCredentialTarget (t : Target) (expectedVersion : string) (newRef : option Ref) (cfg : Configuration)
    : result edit_error (Configuration * string) :=
  try updated := updateNodeAuthCredentialRef t expectedVersion newRef cfg ;;
  if str_eq (tKeyFingerprint t) "" then Ok updated
  else
    let cfg := fst updated in
    match Nodes cfg !! tNodeID t with
    | None => Err (NotFound (NodeNotFound (tNodeID t)))
    | Some node =>
        match Identities cfg !! IdentityRef node with
        | None => Err (NotFound (IdentityNotFound (IdentityRef node) (tNodeID t)))
        | Some identity =>
            let cfg := set_identities (insert (IdentityRef node) (set_fingerprint identity (tKeyFingerprint t))) cfg in
            try version := nodeAuthVersion cfg (tNodeID t) ;; Ok (cfg, version)
        end
    end.
Definition updateNodeSudoCredentialRef (nodeID expectedVersion : string) (newRef : option Ref) (cfg : Configuration)
    : result edit_error (Configuration * string) :=
  match Nodes cfg !! nodeID with
  | None => Err (NotFound (NodeNotFound nodeID))
  | Some node =>
      try current := nodeSudoVersion cfg nodeID ;;
      try _ := check_expected "sudo" nodeID expectedVersion current ;;
      let cfg := set_nodes (insert nodeID (set_sudo node (SudoMode node) "" newRef)) cfg in
      try version := nodeSudoVersion cfg nodeID ;; Ok (cfg, version)
  end.
Definition check_ref (newRef : option Ref) : result edit_error unit :=
  match newRef with
  | None => Ok tt
  | Some r => match ref_Validate r with Ok _ => Ok tt | Err e => Err (BadRef e) end
  end.
(** [updateNodeCredentialTargetAtVersion], its checks and its mutation. *)
Definition update_node_credential (t : Target) (expectedVersion : string) (newRef : option Ref) (cfg : Configuration)
    : result edit_error (Configuration * string) :=
  match kind_Validate (tKind t) with
  | Err e => Err (BadRef e)
  | Ok _ =>
      try _ := check_ref newRef ;;
      if one_of (tKind t) [KindLoginPassword; KindPassphrase; KindTOTPSecret; KindChallengeAnswer]
      then updateNodeAuthCredentialTarget t expectedVersion newRef cfg
      else updateNodeSudoCredentialRef (tNodeID t) expectedVersion newRef cfg
  end.
Definition update_identity_credential (t : Target) (expectedVersion : string) (newRef : option Ref) (cfg : Configuration)
    : result edit_error (Configuration * string) :=
  let identityID := tIdentityID t in
  match kind_Validate (tKind t) with
  | Err e => Err (BadRef e)
  | Ok _ =>
      reject negb (one_of (tKind t) [KindLoginPassword; KindPassphrase; KindTOTPSecret; KindChallengeAnswer]) with BadKind (tKind t) ;;
      try _ := check_ref newRef ;;
      match Identities cfg !! identityID with
      | None => Err (NotFound (IdentityNotFound identityID ""))
      | Some identity =>
          try current := identityEntityVersion cfg identityID ;;
          try _ := check_expected "identity" identityID expectedVersion current ;;
          try changed := applyIdentityCredentialRefKind identity (tKind t) newRef (tRuleName t) ;;
          let cfg := set_identities (insert identityID (applyIdentityCredentialMetadata (fst changed) t)) cfg in
          try version := identityEntityVersion cfg identityID ;; Ok (cfg, version)
      end
  end.

(** [ApplyCredentialRefAtVersion] of the updater of a repository. *)
Definition apply_credential (t : Target) (expectedVersion : string) (newRef : option Ref) (cfg : Configuration)
    : result edit_error (Configuration * string) :=
  if negb (str_eq (tNodeID t) "") then update_node_credential t expectedVersion newRef cfg
  else if negb (str_eq (tIdentityID t) "") then update_identity_credential t expectedVersion newRef cfg
  else Err TargetMissing.

(** The updaters of credential_edit.go and credential_create.go bind the reference to
    an edit of the inventory. *)
Definition edit_node_credential (nodeRef : NodeVersionRef) (nodeID : string) (node : Node) (host : Host) (identity : Identity)
    (t : Target) (expectedVersion : string) (newRef : option Ref) (cfg : Configuration) : result edit_error (Configuration * string) :=
  reject negb (one_of (tKind t) [KindLoginPassword; KindPassphrase; KindTOTPSecret; KindChallengeAnswer]) with BadKind (tKind t) ;;
  try _ := check_ref newRef ;;
  reject negb (negb (str_eq nodeID "") && str_eq (tNodeID t) nodeID && str_eq (tIdentityID t) "" && str_eq expectedVersion (nr_Version nodeRef))
    with Conflict "credential target" nodeID ;;
  try identity := applyTargetRefToIdentity identity t newRef ;;
  let identity := applyIdentityCredentialMetadata identity t in
  try cfg := replaceNodeAtRef nodeRef nodeID node host identity cfg ;;
  try version := nodeAuthVersion cfg nodeID ;; Ok (cfg, version).
Definition edit_identity_credential (identityRef : IdentityVersionRef) (identity : Identity)
    (t : Target) (expectedVersion : string) (newRef : option Ref) (cfg : Configuration) : result edit_error (Configuration * string) :=
  reject negb (one_of (tKind t) [KindLoginPassword; KindPassphrase; KindTOTPSecret; KindChallengeAnswer]) with BadKind (tKind t) ;;
  try _ := check_ref newRef ;;
  reject negb (negb (str_eq (ir_ID identityRef) "") && str_eq (tIdentityID t) (ir_ID identityRef) && str_eq (tNodeID t) ""
               && str_eq expectedVersion (ir_Version identityRef)) with Conflict "credential target" (ir_ID identityRef) ;;
  try identity := applyTargetRefToIdentity identity t newRef ;;
  let identity := applyIdentityCredentialMetadata identity t in
  try cfg := replace_identity identityRef identity cfg ;;
  try version := identityEntityVersion cfg (ir_ID identityRef) ;; Ok (cfg, version).
Definition create_node_credential (nodeID : string) (node : Node) (host : Host) (identity : Identity)
    (t : Target) (expectedVersion : string) (newRef : option Ref) (cfg : Configuration) : result edit_error Configuration :=
  reject str_eq nodeID "" || negb (str_eq (tNodeID t) nodeID) || negb (str_eq (tIdentityID t) "") || negb (str_eq expectedVersion "")
    with Conflict "credential target" nodeID ;;
  reject (negb (str_eq (tKind t) KindLoginPassword) && negb (str_eq (tKind t) KindPassphrase)) || no_ref newRef with BadKind (tKind t) ;;
  try _ := check_ref newRef ;;
  let identity :=
    if str_eq (tKind t) KindLoginPassword
    then set_refs (set_plain identity (KeyPath identity) (Passphrase identity) "" (AuthType identity)) newRef (PassphraseRef identity)
    else set_refs (set_plain identity (KeyPath identity) "" (Password identity) (AuthType identity)) (LoginPasswordRef identity) newRef in
  create_node nodeID node host (applyIdentityCredentialMetadata identity t) cfg.

(** * Confirmation of a prepared connection *)
Definition equalPersistedNode (a b : Node) : bool := DeepEqual (set_alias_mark a "") (set_alias_mark b "").
Definition confirm_node (nodeID : string) (node : Node) (host : Host) (identity : Identity) (cfg : Configuration) : result edit_error Configuration :=
  reject match Nodes cfg !! nodeID with Some existing => negb (equalPersistedNode existing node) | None => false end
    with Conflict "connected node" nodeID ;;
  reject match Hosts cfg !! HostRef node with Some existing => negb (DeepEqual existing host) | None => false end
    with Conflict "connected host" nodeID ;;
  reject match Identities cfg !! IdentityRef node with Some existing => negb (DeepEqual existing identity) | None => false end
    with Conflict "connected identity" nodeID ;;
  Ok (set_identities (insert (IdentityRef node) identity) (set_hosts (insert (HostRef node) host) (set_nodes (insert nodeID node) cfg))).
End CredentialUpdates.

(** * Fresh references *)
Definition candidate (base : string) (n : nat) : string := base +:+ ":" +:+ itoa (2 + Z.of_nat n).

Lemma candidate_inj base : Inj (=) (=) (candidate base).
Proof.
  intros n m H. unfold candidate in H. apply app_inj_l in H. apply (app_inj_l ":") in H. unfold itoa in H.
  apply (inj pretty.pretty) in H. lia.
Qed.

(** Either a name that is not in use is found, or all names that were tried are in use. *)
Lemma free_suffix_spec inUse base fuel : forall n,
  inUse (free_suffix inUse base (2 + Z.of_nat n) fuel) = false \/
  forall k, (n <= k <= n + fuel)%nat -> inUse (candidate base k) = true.
Proof.
  induction fuel as [|fuel IH]; intros n; cbn [free_suffix].
  - fold (candidate base n). destruct (inUse (candidate base n)) eqn:E; [|by left]. right. intros k Hk.
    assert (k = n) as -> by lia. done.
  - fold (candidate base n). destruct (inUse (candidate base n)) eqn:E; [|by left].
    replace (2 + Z.of_nat n + 1) with (2 + Z.of_nat (Datatypes.S n)) by lia. destruct (IH (Datatypes.S n)) as [H|H]; [by left|].
    right. intros k Hk. destruct (decide (k = n)) as [->|Hne]; [done|]. apply H. lia.
Qed.

(** The loop of [privateReference] ends, on a name that is not in use. *)
Lemma privateReference_fresh {A} (used : gmap string A) nodeID kind : used !! privateReference used nodeID kind = None.
Proof.
  unfold privateReference. set (inUse := fun name => bool_decide (is_Some (used !! name))). set (base := "node:" +:+ _).
  assert (forall name, inUse name = false -> used !! name = None) as Hf.
  { intros name Hn. unfold inUse in Hn. apply bool_decide_eq_false in Hn. by apply eq_None_not_Some. }
  change (bool_decide (is_Some (used !! base))) with (inUse base). destruct (inUse base) eqn:Hb; cbn [negb]; [|by apply Hf].
  destruct (free_suffix_spec inUse base (size used) 0) as [H|H]; [by apply Hf|]. exfalso.
  assert (list_to_set (candidate base <$> seq 0 (Datatypes.S (size used))) ⊆ dom used) as Hsub.
  { intros x Hx. apply elem_of_list_to_set, list_elem_of_fmap in Hx as (k & -> & Hk%elem_of_seq).
    specialize (H k ltac:(lia)). unfold inUse in H. apply bool_decide_eq_true in H. by apply elem_of_dom. }
  apply subseteq_size in Hsub. rewrite size_list_to_set, size_dom in Hsub.
  - rewrite length_fmap, length_seq in Hsub. lia.
  - apply NoDup_fmap; [apply candidate_inj|apply NoDup_seq].
Qed.

(** * Bundles *)
Definition bundle (cfg : Configuration) (n : string) : option (Node * option Host * option Identity) :=
  (fun node => (node, Hosts cfg !! HostRef node, Identities cfg !! IdentityRef node)) <$> Nodes cfg !! n.
(** Every node has a host and an identity. *)
Definition complete (cfg : Configuration) : Prop :=
  map_Forall (fun _ node => is_Some (Hosts cfg !! HostRef node) /\ is_Some (Identities cfg !! IdentityRef node)) (Nodes cfg).
(** The bundles of the nodes outside [T] are the same. *)
Definition others (T : list string) (cfg cfg' : Configuration) : Prop := forall m, m ∉ T -> bundle cfg' m = bundle cfg m.

Lemma others_refl T cfg : others T cfg cfg.
Proof. by intros m _. Qed.
Lemma others_trans T a b c : others T a b -> others T b c -> others T a c.
Proof. intros H1 H2 m Hm. by rewrite H2, H1. Qed.
Lemma others_weaken T T' a b : T ⊆ T' -> others T a b -> others T' a b.
Proof. intros Hs H m Hm. apply H. set_solver. Qed.

Lemma triple_eq {A B C} (x : A) (a a' : B) (b b' : C) : a = a' -> b = b' -> Some (x, a, b) = Some (x, a', b').
Proof. by intros -> ->. Qed.
Lemma others_node T n x cfg : n ∈ T -> others T cfg (set_nodes (insert n x) cfg).
Proof. intros Hn m Hm. unfold bundle. simpl. rewrite lookup_insert_ne by set_solver. done. Qed.
Lemma others_delete T n cfg : n ∈ T -> others T cfg (set_nodes (delete n) cfg).
Proof. intros Hn m Hm. unfold bundle. simpl. rewrite lookup_delete_ne by set_solver. done. Qed.
Lemma others_host T r h cfg :
  (forall m node, m ∉ T -> Nodes cfg !! m = Some node -> HostRef node = r -> Hosts cfg !! r = Some h) ->
  others T cfg (set_hosts (insert r h) cfg).
Proof.
  intros H m Hm. unfold bundle. simpl. destruct (Nodes cfg !! m) as [node|] eqn:Hn; simpl; [|done]. apply triple_eq; [|done].
  destruct (decide (HostRef node = r)) as [<-|Hne]; [|by rewrite lookup_insert_ne]. rewrite lookup_insert_eq. symmetry. by eapply H.
Qed.
Lemma others_identity T r i cfg :
  (forall m node, m ∉ T -> Nodes cfg !! m = Some node -> IdentityRef node = r -> Identities cfg !! r = Some i) ->
  others T cfg (set_identities (insert r i) cfg).
Proof.
  intros H m Hm. unfold bundle. simpl. destruct (Nodes cfg !! m) as [node|] eqn:Hn; simpl; [|done]. apply triple_eq; [done|].
  destruct (decide (IdentityRef node = r)) as [<-|Hne]; [|by rewrite lookup_insert_ne]. rewrite lookup_insert_eq. symmetry. by eapply H.
Qed.

Section Unused.
Context `{Ord : KeyOrder}.

Lemma refers_to_spec cfg (ref : Node -> string) r :
  refers_to cfg ref r (keys_of (Nodes cfg)) = true <-> exists n node, Nodes cfg !! n = Some node /\ ref node = r.
Proof.
  unfold refers_to. rewrite existsb_exists. setoid_rewrite <- list_elem_of_In. split.
  - intros (n & _ & H). destruct (Nodes cfg !! n) as [node|] eqn:E; [|done]. str_facts. eauto.
  - intros (n & node & Hn & <-). exists n. rewrite Hn, keys_elem, str_eq_refl. eauto.
Qed.

Lemma others_unused h i cfg : others [] cfg (removeUnusedRefs h i cfg).
Proof.
  unfold removeUnusedRefs. set (hu := refers_to cfg HostRef h _). set (iu := refers_to cfg IdentityRef i _).
  apply others_trans with (if negb hu && negb (str_eq h "") then set_hosts (delete h) cfg else cfg).
  - destruct (negb hu && negb (str_eq h "")) eqn:E; [|apply others_refl]. bool_facts. intros m _. unfold bundle. simpl.
    destruct (Nodes cfg !! m) as [node|] eqn:Hn; simpl; [|done]. apply triple_eq; [|done]. apply lookup_delete_ne. intros ->.
    assert (hu = true) by (apply refers_to_spec; eauto). congruence.
  - assert (forall c, Nodes c = Nodes cfg -> others [] c (if negb iu && negb (str_eq i "") then set_identities (delete i) c else c)) as Hi.
    { intros c Hc. destruct (negb iu && negb (str_eq i "")) eqn:E; [|apply others_refl]. bool_facts. intros m _. unfold bundle. simpl.
      rewrite Hc. destruct (Nodes cfg !! m) as [node|] eqn:Hn; simpl; [|done]. apply triple_eq; [done|]. apply lookup_delete_ne. intros ->.
      assert (iu = true) by (apply refers_to_spec; eauto). congruence. }
    apply Hi. by destruct (negb hu && negb (str_eq h "")).
Qed.

Lemma others_remove T n cfg : n ∈ T -> others T cfg (removeNodeAndUnusedRefs n cfg).
Proof.
  intros Hn. unfold removeNodeAndUnusedRefs. destruct (Nodes cfg !! n) as [node|]; [|apply others_refl].
  eapply others_trans; [by apply others_delete|]. eapply others_weaken; [|apply others_unused]. set_solver.
Qed.

(** Nodes other than [n] that satisfy a predicate are counted. *)
Lemma count_two cfg (p : Node -> bool) n m x y : n <> m ->
  Nodes cfg !! n = Some x -> Nodes cfg !! m = Some y -> p x = true -> p y = true -> 2 <= countNodeReferences cfg p.
Proof.
  intros Hne Hn Hm Hx Hy. unfold countNodeReferences. set (f := fun id => _).
  assert (NoDup [n; m]) as Hnd by (repeat constructor; set_solver).
  assert ([n; m] ⊆ List.filter f (keys_of (Nodes cfg))) as Hsub.
  { assert (n ∈ List.filter f (keys_of (Nodes cfg)) /\ m ∈ List.filter f (keys_of (Nodes cfg))) as [H1 H2].
    { rewrite !list_elem_of_In, !filter_In, <- !list_elem_of_In, !keys_elem. unfold f. rewrite Hn, Hm. eauto 6. }
    set_solver. }
  pose proof (NoDup_submseteq _ _ Hnd Hsub) as Hs. apply submseteq_length in Hs. simpl in Hs. lia.
Qed.
Lemma references_one cfg (p : Node -> bool) n x : Nodes cfg !! n = Some x -> p x = true -> 1 <= countNodeReferences cfg p.
Proof.
  intros Hn Hx. unfold countNodeReferences. set (f := fun id => _).
  assert (n ∈ List.filter f (keys_of (Nodes cfg))) as H.
  { rewrite list_elem_of_In, filter_In, <- list_elem_of_In, keys_elem. unfold f. rewrite Hn. eauto. }
  destruct (List.filter f (keys_of (Nodes cfg))); [set_solver|]. simpl. lia.
Qed.

(** No other node refers to [r]. *)
Lemma other_references_none cfg (ref : Node -> string) old oldNode r :
  Nodes cfg !! old = Some oldNode -> other_references cfg ref oldNode r <= 0 ->
  forall m node, m <> old -> Nodes cfg !! m = Some node -> ref node <> r.
Proof.
  intros Ho Hz m node Hne Hm Hr. unfold other_references in Hz.
  pose proof (references_one cfg (fun c => str_eq (ref c) r) m node Hm ltac:(by apply str_eq_spec)) as H1.
  destruct (str_eq (ref oldNode) r) eqn:E; [|lia].
  pose proof (count_two cfg (fun c => str_eq (ref c) r) m old node oldNode Hne Hm Ho ltac:(by apply str_eq_spec) E). lia.
Qed.
End Unused.

Section Others.
Context `{Ver : Versions} `{Ord : KeyOrder}.

Lemma others_put T nodeID node host identity cfg : nodeID ∈ T ->
  (forall m x, m ∉ T -> Nodes cfg !! m = Some x -> HostRef x = HostRef node -> Hosts cfg !! HostRef node = Some host) ->
  (forall m x, m ∉ T -> Nodes cfg !! m = Some x -> IdentityRef x = IdentityRef node -> Identities cfg !! IdentityRef node = Some identity) ->
  others T cfg (put_bundle nodeID node host identity cfg).
Proof.
  intros Hn Hh Hi. unfold put_bundle. eapply others_trans; [by apply others_host|].
  eapply others_trans; [by apply others_identity|]. by apply others_node.
Qed.

Lemma put_bundle_own nodeID node host identity cfg :
  bundle (put_bundle nodeID node host identity cfg) nodeID = Some (cloneNode node, Some host, Some identity).
Proof. unfold bundle, put_bundle. simpl. rewrite lookup_insert_eq. simpl. by rewrite !lookup_insert_eq. Qed.

(** A host that is written where other nodes look is the host that is there. *)
Lemma host_target_safe cfg old oldNode nodeID node host : complete cfg -> Nodes cfg !! old = Some oldNode ->
  forall m x, m <> old -> Nodes cfg !! m = Some x -> HostRef x = host_target cfg oldNode nodeID node host ->
  Hosts cfg !! host_target cfg oldNode nodeID node host = Some host.
Proof.
  intros Hc Ho m x Hne Hm. unfold host_target. destruct (Hosts cfg !! HostRef node) as [existing|] eqn:Hh.
  2:{ intros Hr. destruct (Hc m x Hm) as [[h Hx] _]. rewrite Hr, Hh in Hx. done. }
  destruct (DeepEqual existing host) eqn:He; simpl.
  { intros _. apply DeepEqual_spec in He as ->. done. }
  destruct (0 <? _) eqn:Hz; intros Hr.
  - destruct (Hc m x Hm) as [[h Hx] _]. rewrite Hr in Hx. unfold privateHostReference in Hx. by rewrite privateReference_fresh in Hx.
  - bool_facts. by apply (other_references_none cfg HostRef old oldNode (HostRef node) Ho Hz m x Hne Hm) in Hr.
Qed.
Lemma identity_target_safe cfg old oldNode nodeID node identity : complete cfg -> Nodes cfg !! old = Some oldNode ->
  forall m x, m <> old -> Nodes cfg !! m = Some x -> IdentityRef x = identity_target cfg oldNode nodeID node identity ->
  Identities cfg !! identity_target cfg oldNode nodeID node identity = Some identity.
Proof.
  intros Hc Ho m x Hne Hm. unfold identity_target. destruct (Identities cfg !! IdentityRef node) as [existing|] eqn:Hh.
  2:{ intros Hr. destruct (Hc m x Hm) as [_ [h Hx]]. rewrite Hr, Hh in Hx. done. }
  destruct (DeepEqual existing identity) eqn:He; simpl.
  { intros _. apply DeepEqual_spec in He as ->. done. }
  destruct (0 <? _) eqn:Hz; intros Hr.
  - destruct (Hc m x Hm) as [_ [h Hx]]. rewrite Hr in Hx. unfold privateIdentityReference in Hx. by rewrite privateReference_fresh in Hx.
  - bool_facts. by apply (other_references_none cfg IdentityRef old oldNode (IdentityRef node) Ho Hz m x Hne Hm) in Hr.
Qed.

Lemma others_replace ref nodeID node host identity cfg cfg' : complete cfg -> nr_ID ref <> "" ->
  replaceNodeAtRef ref nodeID node host identity cfg = Ok cfg' -> others [nr_ID ref; nodeID] cfg cfg'.
Proof.
  intros Hc Hne. unfold replaceNodeAtRef. apply str_eq_false in Hne. rewrite Hne. intros H.
  apply bind_unit_ok in H as [_ H]. destruct (Nodes cfg !! nr_ID ref) as [oldNode|] eqn:Ho; [|done].
  apply bind_reject_ok in H as [_ H]. apply Ok_inj in H. subst cfg'.
  set (node' := set_node_refs _ _ _).
  assert (others [nr_ID ref; nodeID] cfg (put_bundle nodeID node' host identity cfg)) as Hp.
  { apply others_put; [set_solver|..]; intros m x Hm Hx Hr.
    - apply (host_target_safe cfg (nr_ID ref) oldNode nodeID node host Hc Ho m x); [set_solver|done|done].
    - change (IdentityRef node') with (identity_target cfg oldNode nodeID (set_node_refs node (host_target cfg oldNode nodeID node host) (IdentityRef node)) identity) in *.
      by apply (identity_target_safe cfg (nr_ID ref) oldNode nodeID _ identity Hc Ho m x); [set_solver|..]. }
  eapply others_trans; [exact Hp|]. destruct (negb _); [apply others_remove; set_solver|].
  eapply others_weaken; [|apply others_unused]. set_solver.
Qed.

(** The node that was replaced has what the caller gave. *)
Lemma replaced_bundle ref nodeID node host identity cfg cfg' : nr_ID ref <> "" ->
  replaceNodeAtRef ref nodeID node host identity cfg = Ok cfg' ->
  exists h i, bundle cfg' nodeID = Some (cloneNode (set_node_refs node h i), Some host, Some identity).
Proof.
  intros Hne. unfold replaceNodeAtRef. apply str_eq_false in Hne. rewrite Hne. intros H.
  apply bind_unit_ok in H as [_ H]. destruct (Nodes cfg !! nr_ID ref) as [oldNode|] eqn:Ho; [|done].
  apply bind_reject_ok in H as [Hex H]. apply Ok_inj in H. subst cfg'.
  set (node' := set_node_refs _ _ _).
  assert (bundle (put_bundle nodeID node' host identity cfg) nodeID = Some (cloneNode node', Some host, Some identity)) as Hp.
  { apply put_bundle_own. }
  exists (HostRef node'), (IdentityRef node'). change (set_node_refs node (HostRef node') (IdentityRef node')) with node'. rewrite <- Hp.
  destruct (negb (str_eq (nr_ID ref) nodeID)) eqn:E.
  - apply (others_remove [nr_ID ref]); [set_solver|]. bool_facts. str_facts. set_solver.
  - apply (others_unused (HostRef oldNode) (IdentityRef oldNode)). set_solver.
Qed.

Lemma others_create nodeID node host identity cfg cfg' : complete cfg ->
  create_node nodeID node host identity cfg = Ok cfg' -> others [nodeID] cfg cfg' /\ bundle cfg nodeID = None /\
  bundle cfg' nodeID = Some (cloneNode node, Some host, Some identity).
Proof.
  intros Hc. unfold create_node. intros H. apply bind_reject_ok in H as [Hn H].
  apply result_bind_ok in H as (c1 & H1 & H). apply result_bind_ok in H as (c2 & H2 & H). apply Ok_inj in H. subst cfg'.
  bool_facts. apply eq_None_not_Some in Hn.
  assert (others [nodeID] cfg c1 /\ Nodes c1 = Nodes cfg /\ Identities c1 = Identities cfg /\ Hosts c1 !! HostRef node = Some host) as (O1 & N1 & I1 & E1).
  { unfold reuse_host in H1. destruct (Hosts cfg !! HostRef node) as [existing|] eqn:Hh.
    - apply bind_reject_ok in H1 as [He H1]. apply Ok_inj in H1. subst c1. bool_facts. apply DeepEqual_spec in He as ->.
      split; [apply others_refl|]. done.
    - apply Ok_inj in H1. subst c1. split; [|split; [done|split; [done|apply lookup_insert_eq]]].
      apply others_host. intros m x _ Hx Hr. destruct (Hc m x Hx) as [[h E] _]. rewrite Hr, Hh in E. done. }
  assert (others [nodeID] c1 c2 /\ Nodes c2 = Nodes cfg /\ Hosts c2 = Hosts c1 /\ Identities c2 !! IdentityRef node = Some identity) as (O2 & N2 & H2' & E2).
  { unfold reuse_identity in H2. destruct (Identities c1 !! IdentityRef node) as [existing|] eqn:Hh.
    - apply bind_reject_ok in H2 as [He H2]. apply Ok_inj in H2. subst c2. bool_facts. apply DeepEqual_spec in He as ->.
      split; [apply others_refl|]. done.
    - apply Ok_inj in H2. subst c2. split; [|split; [done|split; [done|apply lookup_insert_eq]]].
      apply others_identity. intros m x _ Hx Hr. rewrite N1 in Hx. destruct (Hc m x Hx) as [_ [h E]].
      rewrite Hr, <- I1, Hh in E. done. }
  split; [|split].
  - eapply others_trans; [exact O1|]. eapply others_trans; [exact O2|]. apply others_node. set_solver.
  - unfold bundle. by rewrite Hn.
  - unfold bundle. simpl. rewrite lookup_insert_eq. simpl. by rewrite H2', E1, E2.
Qed.

Lemma others_delete_nodes refs : forall seen cfg, others (map nr_ID refs) cfg (remove_nodes seen refs cfg).
Proof.
  induction refs as [|ref refs IH]; intros seen cfg; cbn [remove_nodes map]; [apply others_refl|].
  destruct (slice_contains _ _); [eapply others_weaken; [|apply IH]; set_solver|].
  eapply others_trans; [apply (others_remove _ (nr_ID ref)); set_solver|]. eapply others_weaken; [|apply IH]. set_solver.
Qed.

Lemma others_retag add tags ids : forall cfg count, others ids cfg (fst (retag_nodes add tags cfg count ids)).
Proof.
  induction ids as [|id ids IH]; intros cfg count; cbn [retag_nodes]; [apply others_refl|].
  assert (forall c n, others (id :: ids) c (fst (retag_nodes add tags c n ids))) as IH'.
  { intros c n. eapply others_weaken; [|apply IH]. set_solver. }
  destruct (Nodes cfg !! id) as [node|]; [|apply IH']. destruct (retag add tags _); [|apply IH'].
  eapply others_trans; [apply (others_node _ id); set_solver|]. apply IH'.
Qed.

Lemma exists_subset cfg ids : forall seen seen', check_nodes_exist cfg seen ids = Ok seen' -> forall x, x ∈ seen' -> x ∈ seen \/ x ∈ ids.
Proof.
  induction ids as [|id ids IH]; intros seen seen'; cbn [check_nodes_exist].
  - intros [= <-]. set_solver.
  - intros H. apply bind_reject_ok in H as [_ H]. destruct (slice_contains seen id).
    + intros x Hx. eapply IH in H; [|done]. set_solver.
    + apply bind_reject_ok in H as [_ H]. intros x Hx. eapply IH in H; [|done]. set_solver.
Qed.

(** A node with an identity of its own, or a copy of the shared one under a fresh name. *)
Lemma fork_safe cfg nodeID node : complete cfg -> Nodes cfg !! nodeID = Some node ->
  let shared := 1 <? countNodeReferences cfg (fun c => str_eq (IdentityRef c) (IdentityRef node)) in
  let r := if shared then privateIdentityReference cfg nodeID else IdentityRef node in
  forall m x, m <> nodeID -> Nodes cfg !! m = Some x -> IdentityRef x <> r.
Proof.
  intros Hc Hn shared r m x Hne Hx. unfold r, shared. destruct (1 <? _) eqn:E; intros Hr.
  - destruct (Hc m x Hx) as [_ [h Hh]]. rewrite Hr in Hh. unfold privateIdentityReference in Hh. by rewrite privateReference_fresh in Hh.
  - bool_facts. pose proof (count_two cfg (fun c => str_eq (IdentityRef c) (IdentityRef node)) m nodeID x node Hne Hx Hn
      ltac:(by apply str_eq_spec) ltac:(by apply str_eq_spec)). lia.
Qed.
End Others.

(** * Edits *)

(** The mutations the repository offers. *)
Inductive edit :=
  | CreateIdentity (identityID : string) (identity : Identity)
  | ReplaceIdentity (ref : IdentityVersionRef) (identity : Identity)
  | DeleteIdentity (ref : IdentityVersionRef)
  | CreateNode (nodeID : string) (node : Node) (host : Host) (identity : Identity)
  | ReplaceNode (ref : NodeVersionRef) (nodeID : string) (node : Node) (host : Host) (identity : Identity)
  | DeleteNode (ref : NodeVersionRef)
  | DeleteNodes (refs : list NodeVersionRef)
  | UpdateTags (nodeIDs tags : list string) (add : bool)
  | UpdateAuth (nodeID authVersion password keyPath passphrase : string)
  | UpdateSudo (nodeID sudoVersion mode suPwd : string)
  | UpdateExecution (ref : NodeVersionRef) (execution : option Exec.ExecutionConfig)
  | ApplyCredential (t : Target) (expectedVersion : string) (newRef : option Ref)
  | EditNodeCredential (nodeRef : NodeVersionRef) (nodeID : string) (node : Node) (host : Host) (identity : Identity)
      (t : Target) (expectedVersion : string) (newRef : option Ref)
  | EditIdentityCredential (identityRef : IdentityVersionRef) (identity : Identity) (t : Target) (expectedVersion : string) (newRef : option Ref)
  | CreateNodeCredential (nodeID : string) (node : Node) (host : Host) (identity : Identity)
      (t : Target) (expectedVersion : string) (newRef : option Ref)
  | ConfirmNode (nodeID : string) (node : Node) (host : Host) (identity : Identity)
  | Initialize.

Section Edits.
Context `{Ver : Versions} `{Ord : KeyOrder}.

(** The checks of the arguments before the transaction, and its mutation. *)
Definition run_edit (e : edit) (cfg : Configuration) : result edit_error Configuration :=
  match e with
  | CreateIdentity identityID identity =>
      reject str_eq identityID "" with EmptyID "identity" ;; create_identity identityID identity cfg
  | ReplaceIdentity ref identity => replace_identity ref identity cfg
  | DeleteIdentity ref => delete_identity ref cfg
  | CreateNode nodeID node host identity =>
      reject str_eq nodeID "" with EmptyID "node" ;; create_node nodeID node host identity cfg
  | ReplaceNode ref nodeID node host identity =>
      reject str_eq nodeID "" with EmptyID "node" ;;
      reject str_eq (nr_ID ref) "" with Conflict "unversioned" nodeID ;;
      try r := replace_node ref nodeID node host identity cfg ;; Ok (fst r)
  | DeleteNode ref => delete_node ref cfg
  | DeleteNodes refs => delete_nodes refs cfg
  | UpdateTags nodeIDs tags add => try r := update_tags nodeIDs tags add cfg ;; Ok (fst r)
  | UpdateAuth nodeID v password keyPath passphrase => try r := update_auth nodeID v password keyPath passphrase cfg ;; Ok (fst r)
  | UpdateSudo nodeID v mode suPwd => try r := update_sudo nodeID v mode suPwd cfg ;; Ok (fst r)
  | UpdateExecution ref execution => update_execution ref execution cfg
  | ApplyCredential t v newRef => try r := apply_credential t v newRef cfg ;; Ok (fst r)
  | EditNodeCredential nodeRef nodeID node host identity t v newRef =>
      reject str_eq (nr_ID nodeRef) "" with Conflict "credential target" nodeID ;;
      try r := edit_node_credential nodeRef nodeID node host identity t v newRef cfg ;; Ok (fst r)
  | EditIdentityCredential identityRef identity t v newRef => try r := edit_identity_credential identityRef identity t v newRef cfg ;; Ok (fst r)
  | CreateNodeCredential nodeID node host identity t v newRef => create_node_credential nodeID node host identity t v newRef cfg
  | ConfirmNode nodeID node host identity => confirm_node nodeID node host identity cfg
  | Initialize => Ok cfg
  end.

Definition users_of (cfg : Configuration) (identityID : string) : list string :=
  List.filter (fun id => match Nodes cfg !! id with Some node => str_eq (IdentityRef node) identityID | None => false end) (keys_of (Nodes cfg)).

(** The nodes an edit is about: those it names, and for an edit of an identity those that use it. *)
Definition named (e : edit) (cfg : Configuration) : list string :=
  match e with
  | CreateIdentity _ _ | DeleteIdentity _ | Initialize => []
  | ReplaceIdentity ref _ | EditIdentityCredential ref _ _ _ _ => users_of cfg (ir_ID ref)
  | CreateNode nodeID _ _ _ | UpdateAuth nodeID _ _ _ _ | UpdateSudo nodeID _ _ _
  | CreateNodeCredential nodeID _ _ _ _ _ _ | ConfirmNode nodeID _ _ _ => [nodeID]
  | ReplaceNode ref nodeID _ _ _ | EditNodeCredential ref nodeID _ _ _ _ _ _ => [nr_ID ref; nodeID]
  | DeleteNode ref | UpdateExecution ref _ => [nr_ID ref]
  | DeleteNodes refs => map nr_ID refs
  | UpdateTags nodeIDs _ _ => nodeIDs
  | ApplyCredential t _ _ => if negb (str_eq (tNodeID t) "") then [tNodeID t] else users_of cfg (tIdentityID t)
  end.
(** The nodes that hold by pointer what an edit of one node sets: those with the same identity, when a one-time
    password or an answer of the node is stored. *)
Definition aliased (e : edit) (cfg : Configuration) : list string :=
  match e with
  | ApplyCredential t _ _ =>
      if negb (str_eq (tNodeID t) "") && one_of (tKind t) [KindTOTPSecret; KindChallengeAnswer] then
        match Nodes cfg !! tNodeID t with Some node => users_of cfg (IdentityRef node) | None => [] end
      else []
  | _ => []
  end.
Definition touched (e : edit) (cfg : Configuration) : list string := named e cfg ++ aliased e cfg.

Lemma users_of_elem cfg i n : n ∈ users_of cfg i <-> exists node, Nodes cfg !! n = Some node /\ IdentityRef node = i.
Proof.
  unfold users_of. rewrite list_elem_of_In, filter_In, <- list_elem_of_In, keys_elem. split.
  - intros [_ H]. destruct (Nodes cfg !! n) as [node|]; [|done]. str_facts. eauto.
  - intros (node & Hn & <-). rewrite Hn, str_eq_refl. eauto.
Qed.

Lemma others_identity_users i x cfg : others (users_of cfg i) cfg (set_identities (insert i x) cfg).
Proof. apply others_identity. intros m node Hm Hn Hr. exfalso. apply Hm, users_of_elem. eauto. Qed.

Lemma kind_pointees identity kind newRef ruleName changed :
  one_of kind [KindTOTPSecret; KindChallengeAnswer] = false ->
  applyIdentityCredentialRefKind identity kind newRef ruleName = Ok changed -> snd changed = pointees_of identity.
Proof.
  intros Hk. apply one_of_false in Hk. unfold applyIdentityCredentialRefKind.
  destruct (str_eq kind KindLoginPassword); [by intros [= <-]|]. destruct (str_eq kind KindPassphrase); [by intros [= <-]|].
  destruct (str_eq kind KindTOTPSecret) eqn:E1; [str_facts; set_solver|].
  destruct (str_eq kind KindChallengeAnswer) eqn:E2; [str_facts; set_solver|]. by intros [= <-].
Qed.
Lemma set_pointees_same i : set_pointees i (pointees_of i) = i.
Proof. by destruct i. Qed.

(** A credential update of a node, and its fingerprint. *)
Lemma others_node_auth t v newRef cfg r : complete cfg -> updateNodeAuthCredentialRef t v newRef cfg = Ok r ->
  forall node, Nodes cfg !! tNodeID t = Some node ->
  others (tNodeID t :: (if one_of (tKind t) [KindTOTPSecret; KindChallengeAnswer] then users_of cfg (IdentityRef node) else [])) cfg (fst r) /\
  exists node', Nodes (fst r) !! tNodeID t = Some node' /\
    forall m x, m <> tNodeID t -> Nodes (fst r) !! m = Some x -> IdentityRef x <> IdentityRef node'.
Proof.
  intros Hc H node Hn. unfold updateNodeAuthCredentialRef in H. rewrite Hn in H.
  apply result_bind_ok in H as (cur & _ & H). apply bind_unit_ok in H as [_ H].
  destruct (Identities cfg !! IdentityRef node) as [identity|] eqn:Hi; [|done].
  pose proof (fork_safe cfg (tNodeID t) node Hc Hn) as Hf. cbv zeta in Hf.
  set (shared := 1 <? _) in *. set (fresh := if shared then _ else _) in Hf.
  set (node' := if shared then set_node_refs node _ _ else node) in H.
  assert (IdentityRef node' = fresh) as Hr by (unfold node', fresh; by destruct shared).
  set (c1 := if shared then _ else cfg) in H. apply result_bind_ok in H as (changed & Hch & H).
  apply result_bind_ok in H as (version & _ & H). apply Ok_inj in H. subst r. cbn [fst].
  assert (others [tNodeID t] cfg c1 /\ Identities c1 = Identities cfg /\ Nodes c1 !! tNodeID t = Some node' /\
          forall m, m <> tNodeID t -> Nodes c1 !! m = Nodes cfg !! m) as (O1 & I1 & N1 & N2).
  { unfold c1, node'. destruct shared; simpl; [|split; [apply others_refl|done]].
    split; [apply others_node; set_solver|]. split; [done|]. split; [apply lookup_insert_eq|].
    intros m Hm. by apply lookup_insert_ne. }
  set (c2 := set_identities (insert (IdentityRef node) _) c1).
  set (T := tNodeID t :: _).
  assert (others T c1 c2) as O2.
  { apply others_identity. intros m x Hm Hx Hrx. rewrite N2 in Hx by set_solver. rewrite I1, Hi. f_equal.
    destruct (one_of (tKind t) _) eqn:Hk.
    - exfalso. apply Hm. unfold T. apply elem_of_cons. right. apply users_of_elem. eauto.
    - rewrite (kind_pointees _ _ _ _ _ Hk Hch). by rewrite set_pointees_same. }
  split.
  - eapply others_trans; [eapply others_weaken; [|exact O1]; set_solver|]. eapply others_trans; [exact O2|].
    apply others_identity. intros m x Hm Hx Hrx. exfalso. change (Nodes c2) with (Nodes c1) in Hx. rewrite N2 in Hx by set_solver.
    rewrite Hr in Hrx. by apply (Hf m x) in Hrx; [|set_solver|].
  - exists node'. split; [done|]. intros m x Hm Hx. rewrite Hr. apply (Hf m x Hm). change (Nodes c1 !! m = Some x) in Hx. by rewrite <- N2.
Qed.

(** What such an update does to the identity the node had. *)
Lemma alias_node_auth t v newRef cfg r node : complete cfg -> updateNodeAuthCredentialRef t v newRef cfg = Ok r -> Nodes cfg !! tNodeID t = Some node ->
  forall m x, m <> tNodeID t -> Nodes cfg !! m = Some x -> IdentityRef x = IdentityRef node ->
  Nodes (fst r) !! m = Some x /\ Hosts (fst r) = Hosts cfg /\
  exists identity p, Identities cfg !! IdentityRef node = Some identity /\ Identities (fst r) !! IdentityRef node = Some (set_pointees identity p).
Proof.
  intros Hc H Hn m x Hne Hx Hrx. unfold updateNodeAuthCredentialRef in H. rewrite Hn in H.
  apply result_bind_ok in H as (cur & _ & H). apply bind_unit_ok in H as [_ H].
  destruct (Identities cfg !! IdentityRef node) as [identity|] eqn:Hi; [|done].
  pose proof (fork_safe cfg (tNodeID t) node Hc Hn m x Hne Hx) as Hf. cbv zeta in Hf. rewrite Hrx in Hf.
  destruct (1 <? countNodeReferences cfg _) eqn:Es; [|done]. apply result_bind_ok in H as (changed & _ & H).
  apply result_bind_ok in H as (version & _ & H). apply Ok_inj in H. subst r. cbn.
  split; [by rewrite lookup_insert_ne|]. split; [done|]. exists identity, (snd changed). split; [done|].
  rewrite lookup_insert_ne by done. by rewrite lookup_insert_eq.
Qed.
End Edits.

Section EditsKeepOthers.
Context `{Ver : Versions} `{Ord : KeyOrder}.

Lemma others_apply t v newRef cfg r : complete cfg -> apply_credential t v newRef cfg = Ok r ->
  others (touched (ApplyCredential t v newRef) cfg) cfg (fst r).
Proof.
  intros Hc. unfold apply_credential, touched. cbn [named aliased]. destruct (negb (str_eq (tNodeID t) "")); cbn [andb]; rewrite ?app_nil_r.
  - unfold update_node_credential. destruct (kind_Validate _); [|done]. intros H. apply bind_unit_ok in H as [_ H].
    destruct (one_of (tKind t) [KindLoginPassword; _; _; _]) eqn:Hk.
    + unfold updateNodeAuthCredentialTarget in H. apply result_bind_ok in H as (upd & Hu & H).
      destruct (Nodes cfg !! tNodeID t) as [node|] eqn:Hn.
      2:{ unfold updateNodeAuthCredentialRef in Hu. by rewrite Hn in Hu. }
      destruct (others_node_auth _ _ _ _ _ Hc Hu node Hn) as (Ho & node' & Hn' & Hex). cbn [app].
      destruct (str_eq (tKeyFingerprint t) ""); [by apply Ok_inj in H as <-|].
      rewrite Hn' in H. destruct (Identities (fst upd) !! IdentityRef node') as [identity|]; [|done].
      apply result_bind_ok in H as (ver & _ & H). apply Ok_inj in H as <-. cbn [fst].
      eapply others_trans; [exact Ho|]. apply others_identity. intros m x Hm Hx Hr. exfalso.
      by apply (Hex m x) in Hr; [|set_solver|].
    + unfold updateNodeSudoCredentialRef in H. destruct (Nodes cfg !! tNodeID t) as [node|]; [|done].
      apply result_bind_ok in H as (cur & _ & H). apply bind_unit_ok in H as [_ H]. apply result_bind_ok in H as (ver & _ & H).
      apply Ok_inj in H as <-. apply others_node. set_solver.
  - destruct (negb (str_eq (tIdentityID t) "")); [|done]. unfold update_identity_credential.
    destruct (kind_Validate _); [|done]. intros H. apply bind_reject_ok in H as [_ H]. apply bind_unit_ok in H as [_ H].
    destruct (Identities cfg !! tIdentityID t) as [identity|]; [|done].
    apply result_bind_ok in H as (cur & _ & H). apply bind_unit_ok in H as [_ H]. apply result_bind_ok in H as (ch & _ & H).
    apply result_bind_ok in H as (ver & _ & H). apply Ok_inj in H as <-. apply others_identity_users.
Qed.

Lemma alias_apply t v newRef cfg r m : complete cfg -> apply_credential t v newRef cfg = Ok r ->
  m ∈ aliased (ApplyCredential t v newRef) cfg -> m ∉ named (ApplyCredential t v newRef) cfg ->
  exists node host identity p, bundle cfg m = Some (node, host, Some identity) /\ bundle (fst r) m = Some (node, host, Some (set_pointees identity p)).
Proof.
  intros Hc. unfold apply_credential. cbn [named aliased]. destruct (negb (str_eq (tNodeID t) "")); [|set_solver]. cbn [andb].
  unfold update_node_credential. destruct (kind_Validate _); [|done]. intros H. apply bind_unit_ok in H as [_ H].
  destruct (one_of (tKind t) [KindTOTPSecret; KindChallengeAnswer]) eqn:Hk; [|set_solver].
  destruct (Nodes cfg !! tNodeID t) as [node|] eqn:Hn; [|set_solver]. intros (x & Hx & Hrx)%users_of_elem Hne%not_elem_of_cons. destruct Hne as [Hne _].
  assert (one_of (tKind t) [KindLoginPassword; KindPassphrase; KindTOTPSecret; KindChallengeAnswer] = true) as Hk4.
  { revert Hk. rewrite !one_of_spec. set_solver. }
  rewrite Hk4 in H. unfold updateNodeAuthCredentialTarget in H. apply result_bind_ok in H as (upd & Hu & H).
  destruct (alias_node_auth _ _ _ _ _ _ Hc Hu Hn m x Hne Hx Hrx) as (Nx & Eh & identity & p & Hi & Hp).
  exists x, (Hosts cfg !! HostRef x), identity, p. unfold bundle. rewrite Hx. cbn. rewrite Hrx, Hi. split; [done|].
  destruct (others_node_auth _ _ _ _ _ Hc Hu node Hn) as (_ & node' & Hn' & Hex).
  assert (forall c, Nodes c = Nodes (fst upd) -> Hosts c = Hosts (fst upd) -> Identities c !! IdentityRef node = Identities (fst upd) !! IdentityRef node ->
            (fun x' => (x', Hosts c !! HostRef x', Identities c !! IdentityRef x')) <$> Nodes c !! m = Some (x, Hosts cfg !! HostRef x, Some (set_pointees identity p))) as Hend.
  { intros c -> -> Ei. rewrite Nx. cbn. by rewrite Eh, Hrx, Ei, Hp. }
  destruct (str_eq (tKeyFingerprint t) ""); [apply Ok_inj in H as <-; by apply Hend|].
  rewrite Hn' in H. destruct (Identities (fst upd) !! IdentityRef node') as [id'|]; [|done].
  apply result_bind_ok in H as (ver & _ & H). apply Ok_inj in H as <-. apply Hend; [done|done|]. cbn. apply lookup_insert_ne.
  intros E. apply (Hex m x Hne Nx). by rewrite Hrx.
Qed.

Lemma others_update_auth nodeID v password keyPath passphrase cfg r : complete cfg ->
  update_auth nodeID v password keyPath passphrase cfg = Ok r -> others [nodeID] cfg (fst r).
Proof.
  intros Hc H. unfold update_auth in H. apply result_bind_ok in H as (expected & _ & H). apply bind_reject_ok in H as [_ H].
  destruct (Nodes cfg !! nodeID) as [node|] eqn:Hn; [|done]. destruct (Identities cfg !! IdentityRef node) as [identity|]; [|done].
  destruct (negb _) in H; [by apply Ok_inj in H as <-; apply others_refl|].
  pose proof (fork_safe cfg nodeID node Hc Hn) as Hf. cbv zeta in Hf. apply result_bind_ok in H as (ver & _ & H). apply Ok_inj in H as <-.
  cbn [fst]. destruct (1 <? _).
  - eapply others_trans; [apply (others_node _ nodeID); set_solver|]. apply others_identity. intros m x Hm Hx Hr. exfalso.
    simpl in Hx, Hr. rewrite lookup_insert_ne in Hx by set_solver. by apply (Hf m x) in Hr; [|set_solver|].
  - apply others_identity. intros m x Hm Hx Hr. exfalso. by apply (Hf m x) in Hr; [|set_solver|].
Qed.

Lemma others_confirm nodeID node host identity cfg cfg' : complete cfg ->
  confirm_node nodeID node host identity cfg = Ok cfg' -> others [nodeID] cfg cfg'.
Proof.
  intros Hc H. unfold confirm_node in H. apply bind_reject_ok in H as [_ H]. apply bind_reject_ok in H as [Hh H].
  apply bind_reject_ok in H as [Hi H]. apply Ok_inj in H as <-.
  eapply others_trans; [apply (others_node _ nodeID); set_solver|].
  eapply others_trans; [apply others_host|apply others_identity].
  - intros m x Hm Hx Hr. simpl in Hx |- *. rewrite lookup_insert_ne in Hx by set_solver. destruct (Hc m x Hx) as [[h E] _].
    rewrite Hr in E. rewrite E in Hh |- *. bool_facts. by apply DeepEqual_spec in Hh as ->.
  - intros m x Hm Hx Hr. simpl in Hx |- *. rewrite lookup_insert_ne in Hx by set_solver. destruct (Hc m x Hx) as [_ [h E]].
    rewrite Hr in E. rewrite E in Hi |- *. bool_facts. by apply DeepEqual_spec in Hi as ->.
Qed.

Lemma others_delete_identity ref cfg cfg' : delete_identity ref cfg = Ok cfg' -> others [] cfg cfg'.
Proof.
  unfold delete_identity. intros H. apply bind_unit_ok in H as [_ H].
  destruct (referrer cfg (ir_ID ref)) as [n|] eqn:E; [done|]. apply Ok_inj in H as <-.
  intros m _. unfold bundle. simpl. destruct (Nodes cfg !! m) as [node|] eqn:Hn; simpl; [|done]. apply triple_eq; [done|].
  apply lookup_delete_ne. intros Hr. unfold referrer in E. eapply find_none in E; [|apply list_elem_of_In, keys_elem; by exists node].
  cbv beta in E. rewrite Hn in E. by str_facts.
Qed.

Lemma others_update_tags ids tags add cfg r : update_tags ids tags add cfg = Ok r -> others ids cfg (fst r).
Proof.
  unfold update_tags. destruct (ordered_tags [] tags) as [|tag l]; [intros [= <-]; apply others_refl|].
  intros H. apply result_bind_ok in H as (seen & Hs & H). apply Ok_inj in H as <-. eapply others_weaken; [|apply others_retag].
  intros x Hx. eapply exists_subset in Hs; [|done]. set_solver.
Qed.

Lemma others_update_sudo nodeID v mode suPwd cfg r : update_sudo nodeID v mode suPwd cfg = Ok r -> others [nodeID] cfg (fst r).
Proof.
  unfold update_sudo. intros H. apply result_bind_ok in H as (expected & _ & H). apply bind_reject_ok in H as [_ H].
  destruct (Nodes cfg !! nodeID) as [node|]; [|done]. destruct (negb _) in H; [by apply Ok_inj in H as <-; apply others_refl|].
  apply result_bind_ok in H as (ver & _ & H). apply Ok_inj in H as <-. apply others_node. set_solver.
Qed.

Lemma others_replace_identity ref identity cfg cfg' : replace_identity ref identity cfg = Ok cfg' -> others (users_of cfg (ir_ID ref)) cfg cfg'.
Proof. unfold replace_identity. intros H. apply bind_unit_ok in H as [_ H]. apply Ok_inj in H as <-. apply others_identity_users. Qed.

Lemma edit_identity_replaces ref identity t v newRef cfg r : edit_identity_credential ref identity t v newRef cfg = Ok r ->
  exists identity', replace_identity ref identity' cfg = Ok (fst r).
Proof. unfold edit_identity_credential. intros H. result_inv. eauto. Qed.

Lemma edit_node_replaces nodeRef nodeID node host identity t v newRef cfg r :
  edit_node_credential nodeRef nodeID node host identity t v newRef cfg = Ok r ->
  exists identity', replaceNodeAtRef nodeRef nodeID node host identity' cfg = Ok (fst r).
Proof. unfold edit_node_credential. intros H. result_inv. eauto. Qed.

Lemma create_credential_creates nodeID node host identity t v newRef cfg cfg' :
  create_node_credential nodeID node host identity t v newRef cfg = Ok cfg' ->
  exists identity', create_node nodeID node host identity' cfg = Ok cfg'.
Proof. unfold create_node_credential. intros H. result_inv. eauto. Qed.

Lemma edits_others e cfg cfg' (Hc : complete cfg) (He : run_edit e cfg = Ok cfg') : others (touched e cfg) cfg cfg'.
Proof.
  destruct e; unfold touched; cbn [run_edit named aliased] in He |- *; rewrite ?app_nil_r.
  - apply bind_reject_ok in He as [_ He]. unfold create_identity in He. apply bind_reject_ok in He as [Hn He]. apply Ok_inj in He as <-.
    bool_facts. apply eq_None_not_Some in Hn. apply others_identity. intros m x _ Hx Hr.
    destruct (Hc m x Hx) as [_ [h E]]. rewrite Hr, Hn in E. done.
  - by eapply others_replace_identity.
  - by eapply others_delete_identity.
  - apply bind_reject_ok in He as [_ He]. by apply (others_create _ _ _ _ _ _ Hc) in He as [? _].
  - apply bind_reject_ok in He as [_ He]. apply bind_reject_ok in He as [Hr He]. unfold replace_node in He. result_inv. str_facts.
    by eapply others_replace.
  - unfold delete_node in He. result_inv. apply others_remove. set_solver.
  - unfold delete_nodes in He. result_inv. apply others_delete_nodes.
  - result_inv. by eapply others_update_tags.
  - result_inv. by eapply others_update_auth.
  - result_inv. by eapply others_update_sudo.
  - unfold update_execution in He. destruct (Exec.validate execution); [|done]. apply bind_unit_ok in He as [_ He].
    destruct (Nodes cfg !! nr_ID ref) as [node|]; [|done]. apply Ok_inj in He as <-. apply others_node. set_solver.
  - apply result_bind_ok in He as (r & He & E). apply Ok_inj in E as <-. by eapply others_apply.
  - apply bind_reject_ok in He as [Hr He]. apply result_bind_ok in He as (r & He & E). apply Ok_inj in E as <-.
    apply edit_node_replaces in He as [i He]. str_facts. by eapply others_replace.
  - apply result_bind_ok in He as (r & He & E). apply Ok_inj in E as <-. apply edit_identity_replaces in He as [i He].
    by eapply others_replace_identity.
  - apply create_credential_creates in He as [i He]. by apply (others_create _ _ _ _ _ _ Hc) in He as [? _].
  - by eapply others_confirm.
  - apply Ok_inj in He as <-. apply others_refl.
Qed.

(** C14: An edit of a configuration whose nodes all have their host and identity leaves the node, host and
    identity of every node it is not about exactly as they are: a shared host is forked before it is
    changed, passwords and keys of one node are forked off a shared identity, and nothing is
    removed while a node uses it.  There is one exception, a flaw of the code ([totp_reaches_template]):
    storing a one-time password or an answer of one node also sets the values that are held by pointer
    in the identity of the nodes that shared it, and nothing else of those nodes. *)
Theorem edits_keep_others e cfg cfg' (Hc : complete cfg) (He : run_edit e cfg = Ok cfg') m (Hm : m ∉ named e cfg) :
  bundle cfg' m = bundle cfg m \/
  (m ∈ aliased e cfg /\ exists node host identity p,
     bundle cfg m = Some (node, host, Some identity) /\ bundle cfg' m = Some (node, host, Some (set_pointees identity p))).
Proof.
  destruct (decide (m ∈ aliased e cfg)) as [Ha|Ha]; [right|left; apply (edits_others e cfg cfg' Hc He); unfold touched; set_solver].
  split; [done|]. destruct e; try by apply not_elem_of_nil in Ha. cbn [run_edit] in He. apply result_bind_ok in He as (r & He & E). apply Ok_inj in E as <-. by eapply alias_apply.
Qed.
End EditsKeepOthers.

(** * Own effects *)
Section Own.
Context `{Ver : Versions} `{Ord : KeyOrder}.

(** A new node gets exactly what was given, and only if neither it nor different records
    under its references are there; a replaced one gets the host and identity given, under
    the references given or fresh ones; a deleted node is gone; an identity is deleted
    only when no node uses it. *)
Theorem edits_exact cfg cfg' (Hc : complete cfg) :
  (forall nodeID node host identity, run_edit (CreateNode nodeID node host identity) cfg = Ok cfg' ->
     bundle cfg nodeID = None /\ bundle cfg' nodeID = Some (cloneNode node, Some host, Some identity)) /\
  (forall ref nodeID node host identity, run_edit (ReplaceNode ref nodeID node host identity) cfg = Ok cfg' ->
     exists h i, bundle cfg' nodeID = Some (cloneNode (set_node_refs node h i), Some host, Some identity)) /\
  (forall ref, run_edit (DeleteNode ref) cfg = Ok cfg' -> bundle cfg (nr_ID ref) <> None /\ bundle cfg' (nr_ID ref) = None) /\
  (forall ref, run_edit (DeleteIdentity ref) cfg = Ok cfg' ->
     (forall n node, Nodes cfg !! n = Some node -> IdentityRef node <> ir_ID ref) /\ Identities cfg' = delete (ir_ID ref) (Identities cfg)).
Proof.
  split; [|split; [|split]]; cbn [run_edit].
  - intros nodeID node host identity He. apply bind_reject_ok in He as [_ He]. by apply (others_create _ _ _ _ _ _ Hc) in He as [_ ?].
  - intros ref nodeID node host identity He. apply bind_reject_ok in He as [_ He]. apply bind_reject_ok in He as [Hr He].
    unfold replace_node in He. result_inv. str_facts. by eapply replaced_bundle.
  - intros ref He. unfold delete_node in He. apply bind_unit_ok in He as [Hv He]. apply Ok_inj in He as <-.
    unfold ensureNodeRefs in Hv. cbn [ensure_refs] in Hv. apply bind_reject_ok in Hv as [_ Hv]. rewrite lookup_empty in Hv.
    apply bind_reject_ok in Hv as [Hv _]. bool_facts. unfold nodeEntityVersion in Hv. unfold bundle, removeNodeAndUnusedRefs.
    destruct (Nodes cfg !! nr_ID ref) as [node|] eqn:Hn; [|done]. split; [done|].
    assert (Nodes (removeUnusedRefs (HostRef node) (IdentityRef node) (set_nodes (delete (nr_ID ref)) cfg)) !! nr_ID ref = None) as ->; [|done].
    unfold removeUnusedRefs. destruct (negb _ && _), (negb _ && _); simpl; apply lookup_delete_eq.
  - intros ref He. unfold delete_identity in He. apply bind_unit_ok in He as [_ He]. destruct (referrer cfg (ir_ID ref)) eqn:E; [done|].
    apply Ok_inj in He as <-. split; [|done]. intros n node Hn Hr. unfold referrer in E.
    eapply find_none in E; [|apply list_elem_of_In, keys_elem; by exists node]. cbv beta in E. rewrite Hn in E. by str_facts.
Qed.
End Own.

(** * The shared one-time password *)
Definition node_otp (cfg : Configuration) (n : string) : option Ref :=
  node ← Nodes cfg !! n; i ← Identities cfg !! IdentityRef node; o ← OTP i; TOTPSecretRef o.

#[local] Instance sample_versions : Versions.
Proof. exists (fun _ => Some "0123456789abcdef0123456789abcdef"). by intros d v [= <-]. Defined.
#[local] Instance sample_regexp : RegexpCompile := fun _ => true.
#[local] Existing Instance SshOptions.sample_algorithms.

Definition t1 : Ref := mkRef "file" "t1".
Definition t2 : Ref := mkRef "file" "t2".
(** Two nodes that share an identity with a one-time password. *)
Definition shared_otp : Configuration :=
  set_identities (insert "i1" (set_otp sample_identity (Some (mkOTP (Some t1) "" None 0 "")))) sample_config.
Definition totp_of (n : string) : Target := mkTarget n "" KindTOTPSecret "" "" "" "" false false false.

(** Storing a one-time password for one node, whose identity is shared, forks that identity
    and yet changes the password of the nodes it was shared with, as the fork keeps the
    pointer; removing it leaves the others one without a source, so that the
    configuration can no longer be written and the removal is refused. *)
Theorem totp_reaches_template :
  (exists cfg, run_edit (ApplyCredential (totp_of "web") "" (Some t2)) shared_otp = Ok cfg /\
     IdentityRef <$> Nodes cfg !! "web" = Some "node:web:identity" /\ IdentityRef <$> Nodes cfg !! "db" = Some "i1" /\
     node_otp shared_otp "db" = Some t1 /\ node_otp cfg "web" = Some t2 /\ node_otp cfg "db" = Some t2) /\
  (exists cfg e, run_edit (ApplyCredential (totp_of "web") "" None) shared_otp = Ok cfg /\
     is_ok (ToV2 shared_otp) = true /\ ToV2 cfg = Err e).
Proof.
  split.
  - assert (match run_edit (ApplyCredential (totp_of "web") "" (Some t2)) shared_otp with
            | Ok cfg => IdentityRef <$> Nodes cfg !! "web" = Some "node:web:identity" /\ IdentityRef <$> Nodes cfg !! "db" = Some "i1" /\
                node_otp shared_otp "db" = Some t1 /\ node_otp cfg "web" = Some t2 /\ node_otp cfg "db" = Some t2
            | Err _ => False end) as H by (vm_compute; repeat split).
    destruct (run_edit _ shared_otp) as [cfg|]; [|destruct H]. exists cfg. split; [reflexivity|exact H].
  - assert (match run_edit (ApplyCredential (totp_of "web") "" None) shared_otp with
            | Ok cfg => is_ok (ToV2 shared_otp) = true /\ is_ok (ToV2 cfg) = false
            | Err _ => False end) as H by (vm_compute; split; reflexivity).
    destruct (run_edit _ shared_otp) as [cfg|]; [|destruct H]. destruct H as [H1 H2].
    destruct (ToV2 cfg) as [|e] eqn:E; [discriminate H2|]. exists cfg, e. split; [reflexivity|]. split; [exact H1|exact E].
Qed.

(** * Witnesses *)
Definition login_of (n : string) : Target := mkTarget n "" KindLoginPassword "" "" "" "" false false false.
Lemma shared_otp_complete : complete shared_otp.
Proof. apply map_Forall_to_list. vm_compute. repeat constructor; eexists; reflexivity. Qed.

Lemma edits_keep_others_witness :
  match run_edit (ApplyCredential (login_of "web") "" (Some t2)) shared_otp with
  | Ok cfg => bundle cfg "db" = bundle shared_otp "db"
  | Err _ => False
  end.
Proof.
  pose proof (edits_keep_others (ApplyCredential (login_of "web") "" (Some t2)) shared_otp) as H.
  assert (is_ok (run_edit (ApplyCredential (login_of "web") "" (Some t2)) shared_otp) = true) as E by (vm_compute; reflexivity).
  destruct (run_edit _ shared_otp) as [cfg|e]; [|discriminate E].
  destruct (H cfg shared_otp_complete eq_refl "db") as [Hb|[Ha _]].
  - apply (bool_decide_unpack ("db" ∉ named (ApplyCredential (login_of "web") "" (Some t2)) shared_otp)). vm_compute. exact I.
  - exact Hb.
  - exfalso. revert Ha. apply (bool_decide_unpack ("db" ∉ aliased (ApplyCredential (login_of "web") "" (Some t2)) shared_otp)). vm_compute. exact I.
Defined.

Lemma edits_exact_witness :
  match run_edit (CreateNode "new" (set_node_refs (sample_node "n") "h2" "i2") sample_host sample_identity) sample_config with
  | Ok cfg => bundle cfg "new" = Some (cloneNode (set_node_refs (sample_node "n") "h2" "i2"), Some sample_host, Some sample_identity)
  | Err _ => False
  end.
Proof.
  assert (complete sample_config) as Hc by (apply map_Forall_to_list; vm_compute; repeat constructor; eexists; reflexivity).
  assert (is_ok (run_edit (CreateNode "new" (set_node_refs (sample_node "n") "h2" "i2") sample_host sample_identity) sample_config) = true) as E by (vm_compute; reflexivity).
  destruct (run_edit _ sample_config) as [cfg|e] eqn:R; [|discriminate E].
  destruct (edits_exact sample_config cfg Hc) as [H _]. destruct (H _ _ _ _ R) as [_ B]. exact B.
Defined.
