(* ===== verification/Repository.v ===== *)
(** The repository, the only way to change the configuration: pkg/config repository.go,
    pending_connection.go, asset_delete.go, connection_preview.go and the store of store.go.

    A disk holds the document that is visible and the one that would survive a crash; a
    write replaces the first and, when the directory is synchronised, the second.  A
    transaction reloads the document, runs an edit on a copy, checks the result and writes
    it; what can fail on the way is an argument.  The theorems show that a commit either
    changes nothing or publishes exactly what it wrote, that everything published is
    complete and carries its own indexes, and when a credential reference counts as
    unreferenced or as durably recorded. *)
From stdpp Require Import sorting.
From S2P Require Export Edits.
#[local] Open Scope Z_scope.

(** * The disk *)

(** A configuration file, or none.  YAML itself is left out: a file is the document it encodes. *)
Definition File : Type := option ConfigurationV2.
Record Disk := mkDisk { d_visible : File; d_durable : File }.

(** How far an atomic replacement of the file came: not at all, up to the directory, or through. *)
Inductive write_result := WriteFailed | WriteApplied | WriteDurable.
Definition write (d : Disk) (w : write_result) (v2 : ConfigurationV2) : Disk :=
  match w with
  | WriteFailed => d
  | WriteApplied => mkDisk (Some v2) (d_durable d)
  | WriteDurable => mkDisk (Some v2) (Some v2)
  end.
(** [Sync] of the directory. *)
Definition sync (d : Disk) : Disk := mkDisk (d_visible d) (d_visible d).
(** After a crash the file is what was durable, or what was visible. *)
Inductive crash : Disk -> Disk -> Prop :=
  | crash_lost d : crash d (mkDisk (d_durable d) (d_durable d))
  | crash_kept d : crash d (sync d).

Inductive commit_error :=
  | RevisionConflict (expected current : Z) | NotStarted | LoadFailed (e : schema_error) | EditFailed (e : edit_error)
  | AliasConflicts (e : alias_conflict) | Incomplete (e : config_error) | Cancelled
  | SaveRefused (e : schema_error) | EncodeFailed | WriteError | AfterWrite
  | NotApplied | AppliedInvalid (e : commit_error) | Durability (e : commit_error) | IncompleteDurability.

(** What goes wrong around a transaction: before the file is read, after the edit, in
    the encoding, in the write, and after it (reading the new version, releasing the lock). *)
Record Faults := mkFaults { f_start : bool; f_cancelled : bool; f_encode : bool; f_write : write_result; f_after : bool }.
Definition no_faults : Faults := mkFaults false false false WriteDurable false.

Record CommitResult := mkCommit { cr_Configuration : option Configuration; cr_Applied : bool; cr_Durable : bool }.
Definition no_commit : CommitResult := mkCommit None false false.

Definition defaultConfiguration : Configuration := mkConfiguration 2 (Some DefaultCredentialConfig) ∅ ∅ ∅ None None "" None None.

(** [map_err f m]: wrapping of an error. *)
Definition map_err {E F A} (f : E -> F) (m : result E A) : result F A :=
  match m with Ok a => Ok a | Err e => Err (f e) end.

Section Store.
Context `{Alg : SshOptions.Algorithms} `{Ord : KeyOrder} `{Rx : RegexpCompile} `{Usr : CurrentUser}.

Definition loadLocked (f : File) : result schema_error Configuration :=
  match f with
  | None => Ok defaultConfiguration
  | Some v2 =>
      try version := DetectSchemaVersion (Some (v2SchemaVersion v2)) ;;
      try _ := ValidateRuntimeSchema version ;;
      FromV2 v2
  end.
(** The document a save writes. *)
Definition encode (cfg : Configuration) (fault : bool) : result commit_error ConfigurationV2 :=
  let version := if SchemaVersion cfg =? 0 then 1 else SchemaVersion cfg in
  try _ := map_err SaveRefused (ValidateRuntimeSchema version) ;;
  try v2 := map_err SaveRefused (ToV2 cfg) ;;
  reject fault with EncodeFailed ;;
  Ok v2.

(** [Transact]: reload, mutate, save, all under one lock. *)
Definition transact (d : Disk) (f : Faults) (mutate : Configuration -> result commit_error Configuration)
    : Disk * CommitResult * option commit_error :=
  if f_start f then (d, no_commit, Some NotStarted)
  else match loadLocked (d_visible d) with
       | Err e => (d, no_commit, Some (LoadFailed e))
       | Ok cfg =>
           match mutate (cloneConfiguration (Some cfg)) with
           | Err e => (d, no_commit, Some e)
           | Ok updated =>
               if f_cancelled f then (d, no_commit, Some Cancelled)
               else match encode updated (f_encode f) with
                    | Err e => (d, no_commit, Some e)
                    | Ok v2 =>
                        let d := write d (f_write f) v2 in
                        let applied durable := mkCommit (Some (cloneConfiguration (Some updated))) true durable in
                        match f_write f with
                        | WriteFailed => (d, no_commit, Some WriteError)
                        | WriteApplied => (d, applied false, Some WriteError)
                        | WriteDurable => (d, applied true, if f_after f then Some AfterWrite else None)
                        end
                    end
           end
       end.

(** * The repository *)
Definition validateConfiguration (cfg : Configuration) : result config_error unit :=
  check_entries (fun nodeID node =>
    reject negb (bool_decide (is_Some (Hosts cfg !! HostRef node))) with HostNotFound (HostRef node) nodeID ;;
    reject negb (bool_decide (is_Some (Identities cfg !! IdentityRef node))) with IdentityNotFound (IdentityRef node) nodeID ;;
    Ok tt) (Nodes cfg).

Definition prepareConfiguration (base : Configuration) (fn : Configuration -> result edit_error Configuration)
    : result commit_error (Configuration * Index) :=
  try updated := map_err EditFailed (fn (cloneConfiguration (Some base))) ;;
  try ix := map_err AliasConflicts (buildIndexes updated true) ;;
  try _ := map_err Incomplete (validateConfiguration updated) ;;
  Ok (updated, ix).

Definition revisions : Z := 2 ^ 64.
Definition anyRevision : Z := revisions - 1.

Record Repo := mkRepo {
  r_provider : Provider; r_revision : Z; r_hasUndurableWrite : bool;
  r_pending : gmap string Provider; r_openSSHErr : bool
}.

Definition newRepository (cfg : option Configuration) (parser : OpenSSHParser) (openSSHErr : bool) : result commit_error Repo :=
  let cloned := cloneConfiguration cfg in
  try ix := map_err AliasConflicts (buildIndexes cloned true) ;;
  try _ := map_err Incomplete (validateConfiguration cloned) ;;
  Ok (mkRepo (mkProvider cloned (fst ix) (snd ix) parser ∅) 0 false ∅ openSSHErr).

Definition publish (r : Repo) (updated : Configuration) (ix : Index) : Repo :=
  mkRepo (mkProvider updated (fst ix) (snd ix) (p_openSSH (r_provider r)) (p_marks (r_provider r)))
    ((r_revision r + 1) mod revisions) (r_hasUndurableWrite r) (r_pending r) (r_openSSHErr r).
Definition set_undurable (r : Repo) (b : bool) : Repo :=
  mkRepo (r_provider r) (r_revision r) b (r_pending r) (r_openSSHErr r).

(** How a commit that was applied is reported. *)
Definition settle (r : Repo) (updated : Configuration) (ix : Index) (durable : bool) (err : option commit_error)
    : Repo * CommitResult * option commit_error :=
  let r := publish r updated ix in
  let result := mkCommit (Some (cloneConfiguration (Some updated))) true durable in
  match err with
  | Some e => (set_undurable r true, result, Some (Durability e))
  | None => if negb durable then (set_undurable r true, result, Some (Durability IncompleteDurability))
            else (set_undurable r false, result, None)
  end.

Definition commitTransactionResult (r : Repo) (d : Disk) (f : Faults) (fn : Configuration -> result edit_error Configuration)
    : Repo * Disk * CommitResult * option commit_error :=
  let '(d, result, err) := transact d f (fun snapshot => try p := prepareConfiguration snapshot fn ;; Ok (fst p)) in
  if negb (cr_Applied result) then (r, d, no_commit, match err with Some e => Some e | None => Some NotApplied end)
  else
    let applied := match cr_Configuration result with Some c => c | None => cloneConfiguration None end in
    match prepareConfiguration applied (fun c => Ok c) with
    | Err e => (r, d, no_commit, Some (AppliedInvalid e))
    | Ok (updated, ix) =>
        let '(r, result, err) := settle r updated ix (cr_Durable result) err in (r, d, result, err)
    end.

(** [commitResultContext] with a transactional store. *)
Definition commit (r : Repo) (d : Disk) (f : Faults) (expectedRevision : Z) (fn : Configuration -> result edit_error Configuration)
    : Repo * Disk * CommitResult * option commit_error :=
  if negb (expectedRevision =? anyRevision) && negb (expectedRevision =? r_revision r)
  then (r, d, no_commit, Some (RevisionConflict expectedRevision (r_revision r)))
  else commitTransactionResult r d f fn.

(** [commitResultContext] with a store that only saves: what its save reports is an argument. *)
Definition commit_saved (r : Repo) (saved : Configuration -> bool * bool * bool) (expectedRevision : Z)
    (fn : Configuration -> result edit_error Configuration) : Repo * CommitResult * option commit_error :=
  if negb (expectedRevision =? anyRevision) && negb (expectedRevision =? r_revision r)
  then (r, no_commit, Some (RevisionConflict expectedRevision (r_revision r)))
  else match prepareConfiguration (provider_Snapshot (r_provider r)) fn with
       | Err e => (r, no_commit, Some e)
       | Ok (updated, ix) =>
           let '(applied, durable, failed) := saved updated in
           if negb applied then (r, no_commit, Some (if failed then WriteError else NotApplied))
           else settle r updated ix durable (if failed then Some WriteError else None)
       end.
End Store.

(** ** Views *)
Section Views.
Context `{Ver : Versions} `{Ord : KeyOrder} `{Usr : CurrentUser}.

Record ConfigView := mkView { v_Revision : Z; v_Configuration : Configuration; v_NodeRefs : gmap string string; v_IdentityRefs : gmap string string }.
(** The references of the entries whose version can be computed. *)
Fixpoint entity_refs (version : string -> result edit_error string) (keys : list string) : gmap string string :=
  match keys with
  | [] => ∅
  | k :: keys => match version k with Ok v => <[k := v]> (entity_refs version keys) | Err _ => entity_refs version keys end
  end.
Definition nodeRefs (cfg : Configuration) : gmap string string := entity_refs (nodeEntityVersion cfg) (keys_of (Nodes cfg)).
Definition identityRefs (cfg : Configuration) : gmap string string := entity_refs (identityEntityVersion cfg) (keys_of (Identities cfg)).
Definition View (r : Repo) : ConfigView :=
  let configuration := provider_Snapshot (r_provider r) in
  mkView (r_revision r) configuration (nodeRefs configuration) (identityRefs configuration).

Definition repo_ResolveSelector (r : Repo) (input : string) : result config_error string :=
  try nodeID := ResolveSelector (r_provider r) input ;;
  reject str_eq nodeID "" && r_openSSHErr r with VirtualNode input ;;
  Ok nodeID.

(** A prepared connection hides the saved node of that name until it is confirmed. *)
Definition connectionProvider (r : Repo) (nodeID : string) : Provider :=
  match r_pending r !! nodeID with Some pending => pending | None => r_provider r end.
Definition repo_Resolve (r : Repo) (nodeID : string) : result config_error (Node * Host * Identity) := Resolve (connectionProvider r nodeID) nodeID.

Record ConnectionSnapshot := mkConnection { cs_node : Node; cs_host : Host; cs_identity : Identity; cs_versions : option (string * string) }.
Definition with_alias (r : Repo) (nodeID : string) (node : Node) : Node :=
  if str_eq (OpenSSHAlias node) "" then set_alias_mark node (NodeOpenSSHAlias (r_provider r) nodeID) else node.
Definition ResolveConnection (r : Repo) (nodeID : string) : result commit_error ConnectionSnapshot :=
  let provider := connectionProvider r nodeID in
  let configuration := provider_Snapshot provider in
  match Nodes configuration !! nodeID with
  | Some node =>
      match Hosts configuration !! HostRef node with
      | None => Err (Incomplete (HostNotFound (HostRef node) nodeID))
      | Some host =>
          match Identities configuration !! IdentityRef node with
          | None => Err (Incomplete (IdentityNotFound (IdentityRef node) nodeID))
          | Some identity =>
              try authVersion := map_err EditFailed (nodeAuthVersion configuration nodeID) ;;
              try sudoVersion := map_err EditFailed (nodeSudoVersion configuration nodeID) ;;
              Ok (mkConnection (with_alias r nodeID (cloneNode node)) (cloneHost host) (identity_Clone identity) (Some (authVersion, sudoVersion)))
          end
      end
  | None =>
      match Resolve provider nodeID with
      | Err e => Err (Incomplete e)
      | Ok (node, host, identity) => Ok (mkConnection (with_alias r nodeID node) host identity None)
      end
  end.

(** A draft that is never saved: it is looked at through a provider of its own. *)
Definition PreviewConnection (r : Repo) (nodeID : string) (node : Node) (host : Host) (identity : Identity) : result commit_error Provider :=
  reject str_eq nodeID "" with EditFailed (EmptyID "preview") ;;
  let cfg := provider_Snapshot (r_provider r) in
  let node := set_node_refs node (privateHostReference cfg nodeID) (privateIdentityReference cfg nodeID) in
  let cfg := put_bundle nodeID node host (identity_Clone identity) cfg in
  try _ := map_err Incomplete (validateConfiguration cfg) ;;
  Ok (newProvider (Some cfg) (p_openSSH (r_provider r))).

(** ** Prepared connections *)
Definition set_pending (r : Repo) (p : gmap string Provider) : Repo :=
  mkRepo (r_provider r) (r_revision r) (r_hasUndurableWrite r) p (r_openSSHErr r).
Definition set_provider (r : Repo) (p : Provider) : Repo :=
  mkRepo p (r_revision r) (r_hasUndurableWrite r) (r_pending r) (r_openSSHErr r).

(** [registerPendingConnection]: [cfg] is the prepared configuration that holds the new node. *)
Definition registerPendingConnection (r : Repo) (cfg : Configuration) (nodeID : string) : result commit_error Repo :=
  match Nodes cfg !! nodeID with
  | None => Err (Incomplete (NodeNotFound nodeID))
  | Some node =>
      let host := default (mkHost None "" 0) (Hosts cfg !! HostRef node) in
      let identity := default (mkIdentity "" "" "" "" "" "" None None None None) (Identities cfg !! IdentityRef node) in
      let node := set_node_refs node (HostRef node) (privateIdentityReference cfg nodeID) in
      let pending := set_identities (insert (IdentityRef node) identity) (set_hosts (insert (HostRef node) host)
                       (set_nodes (insert nodeID node) (cloneConfiguration None))) in
      match r_pending r !! nodeID with
      | Some previous =>
          match Resolve previous nodeID with
          | Err e => Err (Incomplete e)
          | Ok (oldNode, oldHost, oldIdentity) =>
              reject negb (equalPersistedNode oldNode node) || negb (DeepEqual oldHost host) || negb (DeepEqual oldIdentity identity)
                with EditFailed (Conflict "pending connection" nodeID) ;;
              if str_eq (OpenSSHAlias oldNode) "" && negb (str_eq (OpenSSHAlias node) "") then
                let r := set_pending r (<[nodeID := SetNodeOpenSSHAlias previous nodeID (OpenSSHAlias node)]> (r_pending r)) in
                Ok (set_provider r (SetNodeOpenSSHAlias (r_provider r) nodeID (OpenSSHAlias node)))
              else Ok r
          end
      | None =>
          let provider := newProvider (Some pending) (mkParser false (fun spec => Err (VirtualNode spec)) (fun _ => false)) in
          let provider := if str_eq (OpenSSHAlias node) "" then provider else SetNodeOpenSSHAlias provider nodeID (OpenSSHAlias node) in
          Ok (set_pending r (<[nodeID := provider]> (r_pending r)))
      end
  end.
End Views.

Section Confirm.
Context `{Alg : SshOptions.Algorithms} `{Ord : KeyOrder} `{Rx : RegexpCompile} `{Usr : CurrentUser}.
(** [ssh.NeedsExecutionProbe]. *)
Variable NeedsExecutionProbe : option Exec.ExecutionConfig -> bool.

(** A probe of a new node is recorded with it, unless the node was prepared with settings of its own. *)
Definition enrolled (execution : option Exec.ExecutionConfig) (node : Node) : Node :=
  match execution with
  | Some _ => if NeedsExecutionProbe (nExecution node) then set_execution node (Exec.exec_clone execution) else node
  | None => node
  end.

(** [confirmNodeContext]: one commit that creates the prepared node as it was prepared. *)
Definition confirmNode (r : Repo) (d : Disk) (f : Faults) (nodeID : string) (execution : option Exec.ExecutionConfig)
    : Repo * Disk * option commit_error :=
  match r_pending r !! nodeID with
  | None => (r, d, None)
  | Some pending =>
      match Resolve pending nodeID with
      | Err e => (r, d, Some (Incomplete e))
      | Ok (node, host, identity) =>
          let node := enrolled execution node in
          let '(r, d, result, err) := commit r d f anyRevision (confirm_node nodeID node host identity) in
          let r := if cr_Applied result then
                     let r := if str_eq (OpenSSHAlias node) "" then r else set_provider r (SetNodeOpenSSHAlias (r_provider r) nodeID (OpenSSHAlias node)) in
                     set_pending r (delete nodeID (r_pending r))
                   else r in
          (r, d, err)
      end
  end.
End Confirm.

(** * Credential references in the configuration *)
Definition ref_is (r : option Ref) (ref : Ref) : bool := match r with Some r => bool_decide (r = ref) | None => false end.
Definition isRefReferencedInIdentity (id : Identity) (ref : Ref) : bool :=
  ref_is (LoginPasswordRef id) ref || ref_is (PassphraseRef id) ref
  || match OTP id with Some o => ref_is (TOTPSecretRef o) ref | None => false end
  || match KeyboardInteractive id with Some k => existsb (fun rule => ref_is (SecretRef rule) ref) (elems (Rules k)) | None => false end.
Definition isRefReferencedIn `{KeyOrder} (cfg : Configuration) (ref : Ref) : bool :=
  existsb (fun k => match Identities cfg !! k with Some id => isRefReferencedInIdentity id ref | None => false end) (keys_of (Identities cfg))
  || existsb (fun k => match Nodes cfg !! k with Some node => ref_is (PrivilegePasswordRef node) ref | None => false end) (keys_of (Nodes cfg)).

Definition equalRef (actual expected : option Ref) : bool := bool_decide (actual = expected).
(** The reference of a rule by name; a missing one matches no reference. *)
Fixpoint confirm_rule (ruleName : string) (ref : option Ref) (rules : list ChallengeRule) : bool :=
  match rules with
  | [] => no_ref ref
  | rule :: rules => if str_eq (rName rule) ruleName then equalRef (SecretRef rule) ref else confirm_rule ruleName ref rules
  end.
Definition confirm_identity (identity : Identity) (t : Target) (ref : option Ref) : bool :=
  if str_eq (tKind t) KindLoginPassword then equalRef (LoginPasswordRef identity) ref
  else if str_eq (tKind t) KindPassphrase then equalRef (PassphraseRef identity) ref
  else if str_eq (tKind t) KindTOTPSecret then
    match OTP identity with None => no_ref ref | Some o => equalRef (TOTPSecretRef o) ref end
  else if str_eq (tKind t) KindChallengeAnswer then
    match KeyboardInteractive identity with None => no_ref ref | Some k => confirm_rule (tRuleName t) ref (elems (Rules k)) end
  else false.
Definition confirmNodeRefDurable (diskCfg : Configuration) (t : Target) (ref : option Ref) : bool :=
  match Nodes diskCfg !! tNodeID t with
  | None => false
  | Some node =>
      if str_eq (tKind t) KindPrivilegePassword then equalRef (PrivilegePasswordRef node) ref
      else match Identities diskCfg !! IdentityRef node with None => false | Some identity => confirm_identity identity t ref end
  end.
Definition confirmIdentityRefDurable (diskCfg : Configuration) (t : Target) (ref : option Ref) : bool :=
  match Identities diskCfg !! tIdentityID t with None => false | Some identity => confirm_identity identity t ref end.
Definition ref_matched (diskCfg : Configuration) (t : Target) (ref : option Ref) : bool :=
  if negb (str_eq (tNodeID t) "") then confirmNodeRefDurable diskCfg t ref
  else if negb (str_eq (tIdentityID t) "") then confirmIdentityRefDurable diskCfg t ref
  else false.

(** What a store can do about durability, and whether it works this time: [IsDurable]
    before and after a [Sync], and [Sync]. *)
Record Durables := mkDurables { is_durable : option (bool * bool); sync_works : option bool }.
(** The store of a file. *)
Definition file_store (works : bool) : Durables := mkDurables (Some (true, true)) (Some works).

(** [syncStoreLocked]: it fails, or the disk was synchronised or needs not be. *)
Definition syncStoreLocked (undurable : bool) (s : Durables) (d : Disk) : option Disk :=
  let synced := match is_durable s with
                | Some (false, after) =>
                    match sync_works s with
                    | Some false => None
                    | Some true => if after then Some (sync d, true) else None
                    | None => if after then Some (d, false) else None
                    end
                | _ => Some (d, false)
                end in
  match synced with
  | None => None
  | Some (d, true) => Some d
  | Some (d, false) =>
      match sync_works s with
      | Some true => Some (sync d)
      | Some false => None
      | None => match is_durable s with
                | None => if undurable then None else Some d
                | Some _ => Some d
                end
      end
  end.

Section Checks.
Context `{Alg : SshOptions.Algorithms} `{Ord : KeyOrder} `{Rx : RegexpCompile} `{Usr : CurrentUser}.

Inductive check_error := ReloadFailed (e : schema_error) | SyncFailed.

Definition CheckRefUnreferenced (r : Repo) (d : Disk) (s : Durables) (ref : Ref) : Repo * Disk * result check_error bool :=
  if ref_IsEmpty ref then (r, d, Ok true)
  else match loadLocked (d_visible d) with
       | Err e => (r, d, Err (ReloadFailed e))
       | Ok diskCfg =>
           if isRefReferencedIn diskCfg ref then (r, d, Ok false)
           else
             let mem := isRefReferencedIn (provider_Snapshot (r_provider r)) ref in
             if r_hasUndurableWrite r && mem then (r, d, Ok false)
             else
               let r := if negb (r_hasUndurableWrite r) && mem then
                          match buildIndexes diskCfg false with Ok ix => publish r diskCfg ix | Err _ => r end
                        else r in
               match syncStoreLocked (r_hasUndurableWrite r) s d with
               | None => (r, d, Err SyncFailed)
               | Some d => (set_undurable r false, d, Ok true)
               end
       end.

Definition ConfirmRefDurable (r : Repo) (d : Disk) (s : Durables) (t : Target) (ref : option Ref) : Repo * Disk * result check_error bool :=
  match loadLocked (d_visible d) with
  | Err e => (r, d, Err (ReloadFailed e))
  | Ok diskCfg =>
      if negb (ref_matched diskCfg t ref) then (r, d, Ok false)
      else match syncStoreLocked (r_hasUndurableWrite r) s d with
           | None => (r, d, Err SyncFailed)
           | Some d => (set_undurable r false, d, Ok true)
           end
  end.
End Checks.

(** * Deletion with credentials (asset_delete.go) *)
Definition appendCredentialRefs (refs : list Ref) (candidates : list (option Ref)) : list Ref :=
  refs ++ omap (fun c => match c with Some r => if ref_IsEmpty r then None else Some r | None => None end) candidates.
Definition appendIdentityCredentialRefs (refs : list Ref) (identity : Identity) : list Ref :=
  let refs := appendCredentialRefs refs [LoginPasswordRef identity; PassphraseRef identity] in
  let refs := match OTP identity with Some o => appendCredentialRefs refs [TOTPSecretRef o] | None => refs end in
  match KeyboardInteractive identity with Some k => appendCredentialRefs refs (map SecretRef (elems (Rules k))) | None => refs end.
(** The credentials of the nodes that are about to be deleted. *)
Fixpoint node_credentials (cfg : Configuration) (acc : list Ref) (refs : list NodeVersionRef) : list Ref :=
  match refs with
  | [] => acc
  | ref :: refs =>
      match Nodes cfg !! nr_ID ref with
      | None => node_credentials cfg acc refs
      | Some node =>
          let acc := appendCredentialRefs acc [PrivilegePasswordRef node] in
          let acc := match Identities cfg !! IdentityRef node with Some i => appendIdentityCredentialRefs acc i | None => acc end in
          node_credentials cfg acc refs
      end
  end.

(** * Lemmas *)
Lemma map_err_is_ok {E F A} (f : E -> F) (m : result E A) a : map_err f m = Ok a <-> m = Ok a.
Proof. destruct m; simpl; [naive_solver|done]. Qed.

Lemma cloneConfiguration_idem c : cloneConfiguration (Some (cloneConfiguration (Some c))) = cloneConfiguration (Some c).
Proof.
  simpl. rewrite !exec_clone_value, option_clone_idem. f_equal.
  - apply map_eq. intros k. rewrite !lookup_fmap. destruct (Identities c !! k); simpl; [by rewrite identity_Clone_idem|done].
  - apply map_eq. intros k. rewrite !lookup_fmap. by destruct (Hosts c !! k).
  - apply map_eq. intros k. rewrite !lookup_fmap. destruct (Nodes c !! k); simpl; [by rewrite cloneNode_idem|done].
Qed.

Lemma clone_complete c : complete (cloneConfiguration (Some c)) <-> complete c.
Proof.
  unfold complete. simpl. split; intros H k.
  - intros n Hn. specialize (H k (cloneNode n)). rewrite !lookup_fmap, Hn in H. specialize (H eq_refl). simpl in H.
    by rewrite !fmap_is_Some in H.
  - intros n. rewrite lookup_fmap. intros (x & Hx & ->)%fmap_Some. simpl. rewrite !lookup_fmap, !fmap_is_Some. by apply (H k).
Qed.

Lemma bundle_clone c m : bundle (cloneConfiguration (Some c)) m =
  (fun b : Node * option Host * option Identity => (cloneNode b.1.1, cloneHost <$> b.1.2, identity_Clone <$> b.2)) <$> bundle c m.
Proof.
  unfold bundle. simpl. rewrite lookup_fmap. destruct (Nodes c !! m) as [node|]; simpl; [|done]. by rewrite !lookup_fmap.
Qed.

Section Commits.
Context `{Alg : SshOptions.Algorithms} `{Ord : KeyOrder} `{Rx : RegexpCompile} `{Usr : CurrentUser}.

Lemma validateConfiguration_ok cfg : validateConfiguration cfg = Ok tt <-> complete cfg.
Proof.
  unfold validateConfiguration, complete. rewrite check_entries_ok.
  assert (forall a b ea eb, (reject negb a with ea ;; reject negb b with eb ;; Ok tt) = @Ok config_error _ tt <-> a = true /\ b = true) as E.
  { intros a b ea eb. rewrite !bind_reject_ok, !negb_false_iff. tauto. }
  split; intros H k n Hn; specialize (H k n Hn); cbv beta in *; [apply E in H|apply E]; rewrite !bool_decide_eq_true in *; done.
Qed.

Lemma prepare_ok base fn u ix : prepareConfiguration base fn = Ok (u, ix) <->
  fn (cloneConfiguration (Some base)) = Ok u /\ buildIndexes u true = Ok ix /\ complete u.
Proof.
  unfold prepareConfiguration. rewrite result_bind_ok. setoid_rewrite map_err_is_ok. split.
  - intros (u' & Hu & H). apply result_bind_ok in H as (ix' & Hix & H). apply map_err_is_ok in Hix.
    apply bind_unit_ok in H as [Hc H]. apply map_err_is_ok, validateConfiguration_ok in Hc. by injection H as -> ->.
  - intros (Hu & Hix & Hc). exists u. split; [done|]. rewrite Hix. simpl. apply validateConfiguration_ok in Hc. by rewrite Hc.
Qed.

(** The indexes of a copy are those of the original. *)
Lemma clone_index u ix : buildIndexes u true = Ok ix -> buildIndexes (cloneConfiguration (Some u)) true = Ok ix.
Proof.
  intros H. pose proof (buildIndexes_inv u true ltac:(done)) as B. rewrite H in B. destruct B as [I S].
  pose proof (buildIndexes_inv (cloneConfiguration (Some u)) true ltac:(done)) as B.
  destruct (buildIndexes (cloneConfiguration (Some u)) true) as [ix'|e].
  - destruct B as [I' S']. f_equal. eapply index_unique; [|exact I|exact S'|exact S].
    eapply index_inv_ext; [..|exact I']; [apply clone_selects|apply clone_owns].
  - destruct B as (_ & n & m & Hne & Hn & Hm). rewrite clone_owns in Hn, Hm. exfalso.
    pose proof (ii_alias _ _ _ _ I (conflict_alias e)) as Ha. destruct (snd ix !! conflict_alias e); [|by apply Ha in Hn].
    destruct Ha as [[_ Hu]|[? _]]; [|done]. by rewrite (Hu n), (Hu m) in Hne.
Qed.

(** What was prepared once passes again, as a copy. *)
Lemma prepare_again base fn u ix : prepareConfiguration base fn = Ok (u, ix) ->
  prepareConfiguration (cloneConfiguration (Some u)) (fun c => Ok c) = Ok (cloneConfiguration (Some u), ix).
Proof.
  rewrite !prepare_ok, cloneConfiguration_idem. intros (_ & Hix & Hc). split; [done|]. split; [by apply clone_index|].
  by apply clone_complete.
Qed.

(** A transaction that is applied wrote what the edit made of the file. *)
Lemma transact_spec d f mutate d' result err : transact d f mutate = (d', result, err) ->
  (cr_Applied result = false /\ d' = d /\ result = no_commit /\ exists e, err = Some e) \/
  (cr_Applied result = true /\ exists cfg u v2, loadLocked (d_visible d) = Ok cfg /\ mutate (cloneConfiguration (Some cfg)) = Ok u /\
     ToV2 u = Ok v2 /\ SchemaVersion u = 2 /\ f_write f <> WriteFailed /\ d' = write d (f_write f) v2 /\
     result = mkCommit (Some (cloneConfiguration (Some u))) true (match f_write f with WriteDurable => true | _ => false end) /\
     (err = None <-> f_write f = WriteDurable /\ f_after f = false)).
Proof.
  unfold transact. intros H. assert (forall e, (d, no_commit, Some e) = (d', result, err) ->
    cr_Applied result = false /\ d' = d /\ result = no_commit /\ exists e, err = Some e) as Hno by (intros e [= <- <- <-]; eauto).
  destruct (f_start f); [left; by eapply Hno|]. destruct (loadLocked (d_visible d)) as [cfg|] eqn:Hl; [|left; by eapply Hno].
  destruct (mutate _) as [u|] eqn:Hm; [|left; by eapply Hno]. destruct (f_cancelled f); [left; by eapply Hno|].
  destruct (encode u (f_encode f)) as [v2|] eqn:He; [|left; by eapply Hno].
  unfold encode in He. apply bind_unit_ok in He as [Hv He]. apply map_err_is_ok in Hv. apply result_bind_ok in He as (v & Ht & He).
  apply map_err_is_ok in Ht. apply bind_reject_ok in He as [_ He]. apply Ok_inj in He as ->.
  assert (SchemaVersion u = 2) as Hs.
  { unfold ValidateRuntimeSchema in Hv. destruct (SchemaVersion u =? 0); [discriminate Hv|].
    destruct (SchemaVersion u =? 2) eqn:E2; [by bool_facts|]. by destruct (SchemaVersion u =? 1). }
  destruct (f_write f) eqn:Hw; [left; by eapply Hno|right..].
  - injection H as <- <- <-. split; [done|]. exists cfg, u, v2. split; [done|]. split; [done|]. split; [done|]. split; [done|].
    split; [done|]. split; [done|]. split; [done|]. split; [done|]. by intros [? _].
  - injection H as <- <- <-. split; [done|]. exists cfg, u, v2. split; [done|]. split; [done|]. split; [done|]. split; [done|].
    split; [done|]. split; [done|]. split; [done|]. destruct (f_after f); naive_solver.
Qed.
End Commits.

Section Theorems.
Context `{Alg : SshOptions.Algorithms} `{Ord : KeyOrder} `{Rx : RegexpCompile} `{Usr : CurrentUser}.

Lemma load_saved u v2 : ToV2 u = Ok v2 -> loadLocked (Some v2) = Ok (persisted u).
Proof.
  intros Hv. destruct (v2_reads_back u v2 Hv) as (_ & Hf & _). pose proof Hv as Hv'. apply ToV2_ok in Hv' as (_ & _ & ->).
  unfold loadLocked. simpl in *. exact Hf.
Qed.

(** What one commit does. *)
Definition commit_applied (r : Repo) (d : Disk) (f : Faults) (fn : Configuration -> result edit_error Configuration)
    (r' : Repo) (d' : Disk) (result : CommitResult) (err : option commit_error) : Prop :=
  exists base u ix v2,
    loadLocked (d_visible d) = Ok base /\ fn (cloneConfiguration (Some base)) = Ok u /\
    complete u /\ buildIndexes u true = Ok ix /\ ToV2 u = Ok v2 /\
    d_visible d' = Some v2 /\ loadLocked (d_visible d') = Ok (persisted u) /\
    p_cfg (r_provider r') = cloneConfiguration (Some u) /\ (p_lookup (r_provider r'), p_aliases (r_provider r')) = ix /\
    r_revision r' = (r_revision r + 1) mod revisions /\ r_pending r' = r_pending r /\
    cr_Configuration result = Some (cloneConfiguration (Some u)) /\
    d_durable d' = (if cr_Durable result then Some v2 else d_durable d) /\
    (err = None <-> cr_Durable result = true /\ f_after f = false) /\
    r_hasUndurableWrite r' = bool_decide (err <> None).

Lemma commit_cases r d f rev fn r' d' result err : commit r d f rev fn = (r', d', result, err) ->
  (cr_Applied result = false /\ r' = r /\ d' = d /\ err <> None) \/
  (cr_Applied result = true /\ commit_applied r d f fn r' d' result err).
Proof.
  unfold commit. destruct (negb (rev =? anyRevision) && _); [intros [= <- <- <- <-]; left; naive_solver|].
  unfold commitTransactionResult. destruct (transact d f _) as [[d1 result1] err1] eqn:Ht.
  destruct (transact_spec _ _ _ _ _ _ Ht) as [(Ha & -> & -> & e & ->)|(Ha & cfg & u & v2 & Hl & Hm & Hv & Hs & Hw & -> & -> & He)].
  { intros [= <- <- <- <-]. left. naive_solver. }
  cbn [cr_Applied cr_Configuration negb cr_Durable]. apply result_bind_ok in Hm as ([u' ix] & Hp & Hu). apply Ok_inj in Hu. simpl in Hu. subst u'.
  rewrite (prepare_again _ _ _ _ Hp). apply prepare_ok in Hp as (Hfn & Hix & Hc). rewrite cloneConfiguration_idem in Hfn.
  set (durable := match f_write f with WriteDurable => true | _ => false end). unfold settle, commit_applied.
  pose proof (cloneConfiguration_idem u) as Hid. remember (cloneConfiguration (Some u)) as cu eqn:Ecu. cbv zeta. rewrite Hid.
  destruct err1 as [e|]; [|destruct (negb durable) eqn:En]; intros [= <- <- <- <-]; right; (split; [done|]);
    exists cfg, u, ix, v2; rewrite <- Ecu; cbn [set_undurable publish r_provider p_cfg p_lookup p_aliases r_revision r_pending r_hasUndurableWrite
      cr_Configuration cr_Durable].
  - destruct He as [_ He]. split_and!; try done; try (by destruct (f_write f)); [destruct (f_write f); [done|by eapply load_saved..]|by destruct ix|..].
    split; [done|]. intros [Hd Hf]. unfold durable in Hd. destruct (f_write f); [done|done|]. by discriminate (He (conj eq_refl Hf)).
  - exfalso. destruct He as [He _]. unfold durable in En. destruct (He eq_refl) as [Hx _]. by rewrite Hx in En.
  - destruct He as [He _]. destruct (He eq_refl) as [Hd Hf]. unfold durable. rewrite Hd.
    split_and!; try done; [by eapply load_saved|by destruct ix].
Qed.

(** C18: A commit that is not applied changes neither the repository nor the disk and reports
    an error.  One that is applied wrote what its edit made of the file as it was, which
    reads back as that; the repository publishes a complete copy with its own indexes
    and the next revision, and reports success exactly when the write is durable and
    nothing failed after it. *)
Theorem commit_exact r d f rev fn r' d' result err (H : commit r d f rev fn = (r', d', result, err)) :
  (cr_Applied result = false /\ r' = r /\ d' = d /\ err <> None) \/
  (cr_Applied result = true /\ (rev = anyRevision \/ rev = r_revision r) /\ commit_applied r d f fn r' d' result err).
Proof.
  pose proof H as Hc. apply commit_cases in Hc as [Hc|[Ha Hc]]; [by left|]. right. split; [done|]. split; [|done].
  unfold commit in H. destruct (negb (rev =? anyRevision) && negb (rev =? r_revision r)) eqn:E; [by injection H as <- <- <- <-|].
  apply andb_false_iff in E as [E|E]; bool_facts; auto.
Qed.
End Theorems.

(** ** References *)
Definition identity_refs (id : Identity) : list Ref :=
  option_refs (LoginPasswordRef id) ++ option_refs (PassphraseRef id) ++ otp_refs (OTP id) ++ rule_refs (KeyboardInteractive id).
(** A reference that an identity or a node holds. *)
Definition referenced (cfg : Configuration) (ref : Ref) : Prop :=
  (exists k id, Identities cfg !! k = Some id /\ ref ∈ identity_refs id) \/
  (exists k node, Nodes cfg !! k = Some node /\ PrivilegePasswordRef node = Some ref).

Lemma or_iff_compat (A B C D : Prop) : (A <-> C) -> (B <-> D) -> (A \/ B <-> C \/ D).
Proof. tauto. Qed.

Lemma ref_is_spec r ref : ref_is r ref = true <-> r = Some ref.
Proof. destruct r; simpl; [rewrite bool_decide_eq_true|]; naive_solver. Qed.

Lemma rule_refs_elem ki ref : ref ∈ rule_refs (Some ki) <-> exists rule, rule ∈ elems (Rules ki) /\ SecretRef rule = Some ref.
Proof. simpl. rewrite list_elem_of_bind. setoid_rewrite option_refs_elem. naive_solver. Qed.

Lemma in_identity_spec id ref : isRefReferencedInIdentity id ref = true <-> ref ∈ identity_refs id.
Proof.
  unfold isRefReferencedInIdentity, identity_refs. rewrite !orb_true_iff, !ref_is_spec, !elem_of_app, !option_refs_elem.
  assert (match OTP id with Some o => ref_is (TOTPSecretRef o) ref | None => false end = true <-> ref ∈ otp_refs (OTP id)) as E1.
  { destruct (OTP id); simpl; [by rewrite ref_is_spec, option_refs_elem|set_solver]. }
  assert (match KeyboardInteractive id with Some k => existsb (fun rule => ref_is (SecretRef rule) ref) (elems (Rules k)) | None => false end = true
          <-> ref ∈ rule_refs (KeyboardInteractive id)) as E2.
  { destruct (KeyboardInteractive id) as [ki|]; [|set_solver]. rewrite existsb_exists, rule_refs_elem.
    setoid_rewrite ref_is_spec. by setoid_rewrite <- list_elem_of_In. }
  tauto.
Qed.

Lemma isRefReferencedIn_spec `{KeyOrder} cfg ref : isRefReferencedIn cfg ref = true <-> referenced cfg ref.
Proof.
  unfold isRefReferencedIn, referenced. rewrite orb_true_iff, !existsb_exists. setoid_rewrite <- list_elem_of_In. setoid_rewrite keys_elem.
  apply or_iff_compat.
  - split.
    + intros (k & _ & Hk). destruct (Identities cfg !! k) as [id|] eqn:E; [|done]. exists k, id. by rewrite <- in_identity_spec.
    + intros (k & id & Hk & Hr). exists k. rewrite Hk. split; [eauto|]. by apply in_identity_spec.
  - split.
    + intros (k & _ & Hk). destruct (Nodes cfg !! k) as [node|] eqn:E; [|done]. exists k, node. by rewrite <- ref_is_spec.
    + intros (k & node & Hk & Hr). exists k. rewrite Hk. split; [eauto|]. by apply ref_is_spec.
Qed.

Lemma identity_clone_refs id : identity_refs (identity_Clone id) = identity_refs id.
Proof.
  unfold identity_refs, identity_Clone. simpl. do 3 f_equal. destruct (KeyboardInteractive id) as [ki|]; [|done]. simpl.
  unfold rule_Clone. by rewrite map_id.
Qed.
Lemma clone_referenced cfg ref : referenced (cloneConfiguration (Some cfg)) ref <-> referenced cfg ref.
Proof.
  unfold referenced. simpl. apply or_iff_compat; split.
  - intros (k & id & Hk & Hr). rewrite lookup_fmap in Hk. apply fmap_Some in Hk as (x & Hx & ->). rewrite identity_clone_refs in Hr. eauto.
  - intros (k & id & Hk & Hr). exists k, (identity_Clone id). rewrite lookup_fmap, Hk, identity_clone_refs. done.
  - intros (k & node & Hk & Hr). rewrite lookup_fmap in Hk. apply fmap_Some in Hk as (x & Hx & ->). eauto.
  - intros (k & node & Hk & Hr). exists k, (cloneNode node). by rewrite lookup_fmap, Hk.
Qed.

(** Building indexes that do not refuse shared aliases does not fail. *)
Lemma add_aliases_lax n l : forall ix e, add_aliases false n ix l <> Err e.
Proof.
  induction l as [|a l IH]; intros [lookup aliases] e; cbn [add_aliases]; [done|]. unfold addAlias.
  destruct (str_eq a ""); [apply IH|]. destruct (aliases !! a) as [x|]; [|apply IH]. destruct (str_eq x n); apply IH.
Qed.
Lemma index_node_lax `{CurrentUser} cfg n ix e : index_node cfg false ix n <> Err e.
Proof.
  unfold index_node. destruct (Nodes cfg !! n); [|done].
  destruct (add_aliases false n ix _) as [ix1|] eqn:E1; [|by apply add_aliases_lax in E1]. simpl.
  destruct (Hosts cfg !! HostRef _); [|done]. destruct (Identities cfg !! IdentityRef _); [|done].
  destruct (add_aliases false n (_, _) _) as [ix2|] eqn:E2; [|by apply add_aliases_lax in E2]. cbn [result_bind]. by destruct (str_eq (normalizedIdentityUser _) "").
Qed.
Lemma index_never_refused `{CurrentUser} cfg ks : forall ix e, index_nodes cfg false ix ks <> Err e.
Proof.
  induction ks as [|k ks IH]; intros ix e; cbn [index_nodes]; [done|].
  destruct (index_node cfg false ix k) as [ix1|] eqn:E; [apply IH|by apply index_node_lax in E].
Qed.

Section RefChecks.
Context `{Alg : SshOptions.Algorithms} `{Ord : KeyOrder} `{Rx : RegexpCompile} `{Usr : CurrentUser}.

(** No configuration this file could leave behind holds the reference. *)
Definition file_free (f : File) (ref : Ref) : Prop := forall cfg, loadLocked f = Ok cfg -> ~ referenced cfg ref.

(** A synchronised disk keeps its file over a crash. *)
Lemma sync_crash d s u d' : sync_works s <> None -> syncStoreLocked u s d = Some d' ->
  d' = sync d /\ forall d'', crash d' d'' -> d_visible d'' = d_visible d.
Proof.
  intros Hs H. assert (d' = sync d) as ->.
  { unfold syncStoreLocked in H. destruct (sync_works s) as [[]|]; [| |done]; destruct (is_durable s) as [[[] []]|]; naive_solver. }
  split; [done|]. intros d'' Hc. by inversion Hc; subst.
Qed.

Lemma unreferenced_spec r d s ref r' d' (Hs : sync_works s <> None) (Hne : ref_IsEmpty ref = false)
    (H : CheckRefUnreferenced r d s ref = (r', d', Ok true)) :
  d_visible d' = d_visible d /\ (exists cfg, loadLocked (d_visible d') = Ok cfg) /\ file_free (d_visible d') ref /\
  ~ referenced (p_cfg (r_provider r')) ref /\ r_hasUndurableWrite r' = false /\
  (forall d'', crash d' d'' -> file_free (d_visible d'') ref).
Proof.
  unfold CheckRefUnreferenced in H. rewrite Hne in H. destruct (loadLocked (d_visible d)) as [cfg|] eqn:Hl; [|done].
  destruct (isRefReferencedIn cfg ref) eqn:Hr; [done|].
  assert (~ referenced cfg ref) as Hcfg by (intros Hx; apply isRefReferencedIn_spec in Hx; congruence).
  set (mem := isRefReferencedIn (provider_Snapshot (r_provider r)) ref) in H.
  assert (mem = false -> ~ referenced (p_cfg (r_provider r)) ref) as Hmem.
  { intros Hm Hx. unfold mem, provider_Snapshot in Hm. apply clone_referenced, isRefReferencedIn_spec in Hx. congruence. }
  destruct (r_hasUndurableWrite r && mem) eqn:Hu; [done|].
  set (r1 := if negb (r_hasUndurableWrite r) && mem then _ else r) in H.
  destruct (syncStoreLocked (r_hasUndurableWrite r1) s d) as [d1|] eqn:Hsy; [|done]. injection H as <- <-.
  apply sync_crash in Hsy as [-> Hcr]; [|done]. simpl.
  assert (file_free (d_visible d) ref) as Hf by (intros c Hc; rewrite Hl in Hc; injection Hc as <-; done).
  split; [done|]. split; [eauto|]. split; [done|]. split; [|split; [done|]].
  - unfold r1. destruct mem eqn:Hm; [|rewrite andb_false_r; by apply Hmem].
    rewrite andb_true_r in *. rewrite Hu. simpl.
    destruct (buildIndexes cfg false) as [ix|e] eqn:Hb; [done|]. exfalso.
    unfold buildIndexes in Hb. apply result_bind_err in Hb as [Hb|(? & _ & Hb)]; [|done].
    by eapply index_never_refused in Hb.
  - intros d'' Hc. rewrite (Hcr _ Hc). done.
Qed.

(** C24: When a reference is reported as unreferenced by a store that synchronises, it is neither in
    the file, nor in what this process shows, nor in the file after a crash; the file is
    unchanged and no write of this process is left undurable. *)
Theorem unreferenced_durably r d s ref r' d' (Hs : sync_works s <> None) (Hne : ref_IsEmpty ref = false)
    (H : CheckRefUnreferenced r d s ref = (r', d', Ok true)) :
  d_visible d' = d_visible d /\ (exists cfg, loadLocked (d_visible d') = Ok cfg) /\ file_free (d_visible d') ref /\
  ~ referenced (p_cfg (r_provider r')) ref /\ r_hasUndurableWrite r' = false /\
  (forall d'', crash d' d'' -> file_free (d_visible d'') ref).
Proof. exact (unreferenced_spec r d s ref r' d' Hs Hne H). Qed.
End RefChecks.

(** ** Updates of references *)
Definition rules_named (i : Identity) : Prop :=
  forall ki, KeyboardInteractive i = Some ki -> NoDup (filter (fun n => n <> "") (map rName (elems (Rules ki)))).
Definition proper_ref (newRef : option Ref) : Prop := forall r, newRef = Some r -> ref_IsEmpty r = false.

Lemma proper_no_ref newRef : proper_ref newRef -> no_ref newRef = bool_decide (newRef = None).
Proof. intros H. destruct newRef as [r|]; simpl; [by rewrite (H r)|done]. Qed.

Lemma confirm_rule_absent name ref rules : name ∉ map rName rules -> confirm_rule name ref rules = no_ref ref.
Proof.
  induction rules as [|r rules IH]; cbn [map confirm_rule]; [done|]. intros H.
  destruct (str_eq (rName r) name) eqn:E; [str_facts; set_solver|]. apply IH. set_solver.
Qed.

Lemma change_rule_confirm name newRef rules rules' : name <> "" -> proper_ref newRef ->
  NoDup (filter (fun n => n <> "") (map rName rules)) ->
  change_rule name newRef rules = Some rules' -> confirm_rule name newRef rules' = true.
Proof.
  intros Hne Hp. revert rules'. induction rules as [|r rules IH]; intros rules' Hnd; cbn [change_rule map] in *; [done|].
  rewrite filter_cons in Hnd. destruct (str_eq (rName r) name) eqn:E.
  - str_facts. intros [= <-]. destruct (no_ref newRef) eqn:En.
    + rewrite confirm_rule_absent; [done|]. intros Hin. rewrite decide_True in Hnd by congruence.
      apply NoDup_cons in Hnd as [Hnd _]. apply Hnd, list_elem_of_filter. rewrite E. done.
    + cbn [confirm_rule]. unfold set_rule_ref. cbn [rName SecretRef]. rewrite E, str_eq_refl. unfold equalRef. by apply bool_decide_eq_true.
  - intros H. apply fmap_Some in H as (rules0 & H & ->). cbn [confirm_rule]. rewrite E. apply IH; [|done].
    destruct (decide (rName r <> "")); [by apply NoDup_cons in Hnd as [_ ?]|done].
Qed.

Lemma equalRef_refl r : equalRef r r = true.
Proof. by apply bool_decide_eq_true. Qed.

Lemma totp_confirm identity newRef : proper_ref newRef ->
  match OTP (fst (applyIdentityTOTPSecretRef identity newRef)) with None => no_ref newRef | Some o => equalRef (TOTPSecretRef o) newRef end = true.
Proof.
  intros Hp. unfold applyIdentityTOTPSecretRef. destruct (no_ref newRef) eqn:En.
  - assert (newRef = None) as -> by (rewrite proper_no_ref in En by done; by bool_facts).
    destruct (OTP identity) as [o|] eqn:Eo; simpl; [|by rewrite Eo]. by destruct (str_eq _ "").
  - destruct (OTP identity) as [o|]; simpl; destruct (str_eq (AuthType identity) ""); simpl; apply equalRef_refl.
Qed.

Lemma kind_confirm identity t newRef changed : proper_ref newRef -> rules_named identity -> tKind t <> KindPrivilegePassword ->
  kind_Validate (tKind t) = Ok tt ->
  applyIdentityCredentialRefKind identity (tKind t) newRef (tRuleName t) = Ok changed -> confirm_identity (fst changed) t newRef = true.
Proof.
  intros Hp Hn Hk Hv. unfold applyIdentityCredentialRefKind, confirm_identity.
  destruct (str_eq (tKind t) KindLoginPassword) eqn:E1; [intros [= <-]; simpl; by destruct (_ && _); apply equalRef_refl|].
  destruct (str_eq (tKind t) KindPassphrase) eqn:E2; [intros [= <-]; simpl; by destruct (_ && _); apply equalRef_refl|].
  destruct (str_eq (tKind t) KindTOTPSecret) eqn:E3; [intros [= <-]; by apply totp_confirm|].
  destruct (str_eq (tKind t) KindChallengeAnswer) eqn:E.
  - unfold applyIdentityChallengeAnswerRef. intros H. apply bind_reject_ok in H as [Hb H]. str_facts.
    destruct (KeyboardInteractive identity) as [ki|] eqn:Ek; [|done].
    destruct (change_rule _ newRef _) as [rules|] eqn:Ec; [|done]. apply Ok_inj in H as <-. cbn [fst KeyboardInteractive set_ki].
    destruct (no_ref newRef && _) eqn:El; [by apply andb_true_iff in El as [? _]|]. cbn [Rules elems default].
    by eapply change_rule_confirm; [..|exact Ec]; [|done|apply Hn].
  - unfold kind_Validate in Hv. destruct (one_of _ _) eqn:Eo; [|done]. apply one_of_spec in Eo.
    rewrite !elem_of_cons, elem_of_nil in Eo. str_facts. tauto.
Qed.

Lemma confirm_metadata i t newRef t' : confirm_identity (applyIdentityAuthModifications i t') t newRef = confirm_identity i t newRef.
Proof. done. Qed.
Lemma confirm_fingerprint i t newRef f : confirm_identity (set_fingerprint i f) t newRef = confirm_identity i t newRef.
Proof. done. Qed.

Section Applied.
Context `{Ver : Versions} `{Ord : KeyOrder}.

Lemma node_auth_matched t v newRef cfg r : proper_ref newRef -> map_Forall (fun _ i => rules_named i) (Identities cfg) ->
  tKind t <> KindPrivilegePassword -> kind_Validate (tKind t) = Ok tt ->
  updateNodeAuthCredentialTarget t v newRef cfg = Ok r -> confirmNodeRefDurable (fst r) t newRef = true.
Proof.
  intros Hp Hn Hk Hv H. unfold updateNodeAuthCredentialTarget in H. apply result_bind_ok in H as (upd & Hu & H).
  assert (exists node identity, Nodes (fst upd) !! tNodeID t = Some node /\ Identities (fst upd) !! IdentityRef node = Some identity /\
            confirm_identity identity t newRef = true) as (node & identity & Hnode & Hid & Hc).
  { unfold updateNodeAuthCredentialRef in Hu. destruct (Nodes cfg !! tNodeID t) as [node|] eqn:Hnode; [|done].
    apply result_bind_ok in Hu as (cur & _ & Hu). apply bind_unit_ok in Hu as [_ Hu].
    destruct (Identities cfg !! IdentityRef node) as [identity|] eqn:Hi; [|done].
    set (shared := 1 <? _) in Hu. set (node' := if shared then _ else node) in Hu. set (c1 := if shared then _ else cfg) in Hu.
    apply result_bind_ok in Hu as (changed & Hch & Hu). apply result_bind_ok in Hu as (ver & _ & Hu). apply Ok_inj in Hu as <-.
    exists node', (applyIdentityAuthModifications (fst changed) t). split; [|split].
    - simpl. unfold c1, node'. destruct shared; simpl; [apply lookup_insert_eq|done].
    - simpl. apply lookup_insert_eq.
    - rewrite confirm_metadata. eapply kind_confirm; [done|by apply (Hn (IdentityRef node))|done|done|exact Hch]. }
  unfold confirmNodeRefDurable. apply str_eq_false in Hk. destruct (str_eq (tKeyFingerprint t) "").
  - apply Ok_inj in H as <-. by rewrite Hnode, Hk, Hid.
  - rewrite Hnode, Hid in H. apply result_bind_ok in H as (ver & _ & H). apply Ok_inj in H as <-.
    change (Nodes (fst _)) with (Nodes (fst upd)). rewrite Hnode, Hk. simpl. rewrite lookup_insert_eq. by rewrite confirm_fingerprint.
Qed.

(** A credential update that succeeds leaves exactly the reference it was given at its
    target, which is what a later confirmation looks for; for an answer that is removed this needs the
    names of the rules to be different, as they are in a valid configuration. *)
Theorem applied_is_matched t v newRef cfg cfg' (Hp : proper_ref newRef)
    (Hn : map_Forall (fun _ i => rules_named i) (Identities cfg))
    (H : run_edit (ApplyCredential t v newRef) cfg = Ok cfg') : ref_matched cfg' t newRef = true.
Proof.
  cbn [run_edit] in H. apply result_bind_ok in H as ([c ver] & H & E). apply Ok_inj in E as <-. cbn [fst].
  unfold apply_credential in H. unfold ref_matched. destruct (negb (str_eq (tNodeID t) "")).
  - unfold update_node_credential in H. destruct (kind_Validate (tKind t)) as [[]|] eqn:Hv; [|done]. apply bind_unit_ok in H as [_ H].
    destruct (one_of (tKind t) _) eqn:Ho.
    + apply one_of_spec in Ho. assert (tKind t <> KindPrivilegePassword) as Hk.
      { intros Hk. rewrite Hk, !elem_of_cons, elem_of_nil in Ho. by destruct_or! Ho. }
      by apply (node_auth_matched _ _ _ _ _ Hp Hn Hk Hv) in H.
    + apply one_of_false in Ho. assert (tKind t = KindPrivilegePassword) as Hk.
      { unfold kind_Validate in Hv. destruct (one_of _ _) eqn:Eo; [|done]. apply one_of_spec in Eo.
        rewrite !elem_of_cons, elem_of_nil in Eo. rewrite !elem_of_cons, elem_of_nil in Ho. tauto. }
      unfold updateNodeSudoCredentialRef in H. destruct (Nodes cfg !! tNodeID t) as [node|]; [|done].
      apply result_bind_ok in H as (cur & _ & H). apply bind_unit_ok in H as [_ H]. apply result_bind_ok in H as (ver' & _ & H).
      injection H as <- <-. unfold confirmNodeRefDurable. simpl. rewrite lookup_insert_eq, Hk. simpl. apply equalRef_refl.
  - destruct (negb (str_eq (tIdentityID t) "")); [|done]. unfold update_identity_credential in H.
    destruct (kind_Validate (tKind t)) as [[]|] eqn:Hv; [|done]. apply bind_reject_ok in H as [Ho H]. apply bind_unit_ok in H as [_ H].
    bool_facts. apply one_of_spec in Ho. assert (tKind t <> KindPrivilegePassword) as Hk.
    { intros Hk. rewrite Hk, !elem_of_cons, elem_of_nil in Ho. by destruct_or! Ho. }
    destruct (Identities cfg !! tIdentityID t) as [identity|] eqn:Hi; [|done]. apply result_bind_ok in H as (cur & _ & H).
    apply bind_unit_ok in H as [_ H]. apply result_bind_ok in H as (changed & Hch & H). apply result_bind_ok in H as (ver' & _ & H).
    injection H as <- <-. unfold confirmIdentityRefDurable. simpl. rewrite lookup_insert_eq. unfold applyIdentityCredentialMetadata.
    rewrite confirm_metadata. unfold set_target_fingerprint.
    assert (confirm_identity (fst changed) t newRef = true) as Hc by (eapply kind_confirm; [done|by apply (Hn (tIdentityID t))|done|done|exact Hch]).
    by destruct (str_eq (tKeyFingerprint t) "").
Qed.
End Applied.

Section Recorded.
Context `{Alg : SshOptions.Algorithms} `{Ord : KeyOrder} `{Rx : RegexpCompile} `{Usr : CurrentUser}.

(** When a reference is reported as recorded by a store that synchronises, the file holds it
    at its target, and still does after a crash. *)
Theorem recorded_durably r d s t ref r' d' (Hs : sync_works s <> None) (H : ConfirmRefDurable r d s t ref = (r', d', Ok true)) :
  exists cfg, loadLocked (d_visible d') = Ok cfg /\ ref_matched cfg t ref = true /\
  r_provider r' = r_provider r /\ forall d'', crash d' d'' -> loadLocked (d_visible d'') = Ok cfg.
Proof.
  unfold ConfirmRefDurable in H. destruct (loadLocked (d_visible d)) as [cfg|] eqn:Hl; [|done].
  destruct (ref_matched cfg t ref) eqn:Hm; [|done]. cbn [negb] in H.
  destruct (syncStoreLocked (r_hasUndurableWrite r) s d) as [d1|] eqn:Hsy; [|done]. injection H as <- <-.
  apply sync_crash in Hsy as [-> Hcr]; [|done]. exists cfg. split; [done|]. split; [done|]. split; [done|].
  intros d'' Hc. by rewrite (Hcr _ Hc).
Qed.
End Recorded.

Section Reachable.
Context `{Ver : Versions} `{Alg : SshOptions.Algorithms} `{Ord : KeyOrder} `{Rx : RegexpCompile} `{Usr : CurrentUser}.
Variable NeedsExecutionProbe : option Exec.ExecutionConfig -> bool.

Lemma commit_others r d f rev e r' d' result err base
    (H : commit r d f rev (run_edit e) = (r', d', result, err)) (Ha : cr_Applied result = true)
    (Hl : loadLocked (d_visible d) = Ok base) (Hc : complete base) m :
  m ∉ touched e (cloneConfiguration (Some base)) ->
  bundle (p_cfg (r_provider r')) m = bundle (cloneConfiguration (Some base)) m.
Proof.
  intros Hm. destruct (commit_cases _ _ _ _ _ _ _ _ _ H) as [[Hf _]|[_ Hx]]; [congruence|].
  destruct Hx as (base' & u & ix & v2 & Hl' & Hu & _ & _ & _ & _ & _ & -> & _).
  assert (base' = base) as -> by congruence.
  apply edits_others in Hu; [|by apply clone_complete]. by rewrite bundle_clone, (Hu m Hm), <- bundle_clone, cloneConfiguration_idem.
Qed.

(** Other nodes of a commit: their bundles in what is published are copies of those of the file. *)
Theorem commit_keeps_others r d f rev e r' d' result err base
    (H : commit r d f rev (run_edit e) = (r', d', result, err)) (Ha : cr_Applied result = true)
    (Hl : loadLocked (d_visible d) = Ok base) (Hc : complete base) m :
  m ∉ touched e (cloneConfiguration (Some base)) ->
  bundle (p_cfg (r_provider r')) m = bundle (cloneConfiguration (Some base)) m.
Proof. by apply (commit_others _ _ _ _ _ _ _ _ _ _ H). Qed.

(** The steps of a repository whose disk other processes write too.  [named]: no node has
    the empty name, which no edit gives. *)
Definition named (f : File) : Prop := forall cfg, loadLocked f = Ok cfg -> Nodes cfg !! "" = None.
Inductive repo_step : Repo * Disk -> Repo * Disk -> Prop :=
  | repo_commit r d f rev e r' d' result err : commit r d f rev (run_edit e) = (r', d', result, err) -> repo_step (r, d) (r', d')
  | repo_confirm r d f n x r' d' err : confirmNode NeedsExecutionProbe r d f n x = (r', d', err) -> repo_step (r, d) (r', d')
  | repo_register r d cfg n r' : registerPendingConnection r cfg n = Ok r' -> repo_step (r, d) (r', d)
  | repo_check r d s ref r' d' res : named (d_visible d) -> CheckRefUnreferenced r d s ref = (r', d', res) -> repo_step (r, d) (r', d')
  | repo_recorded r d s t ref r' d' res : ConfirmRefDurable r d s t ref = (r', d', res) -> repo_step (r, d) (r', d')
  | repo_external r d d' : repo_step (r, d) (r, d')
  | repo_crash r d d' : crash d d' -> repo_step (r, d) (r, d').
Definition repo_init (s : Repo * Disk) : Prop := exists cfg parser o, newRepository cfg parser o = Ok (fst s).

Definition provider_indexed (p : Provider) : Prop :=
  index_inv false (selects (p_cfg p)) (owns (p_cfg p)) (p_lookup p, p_aliases p) /\
  forall k l, p_lookup p !! k = Some l -> StronglySorted String.le l.

Lemma index_inv_lax S A ix : index_inv true S A ix -> index_inv false S A ix.
Proof. intros [HL Hl Ha]. split; [done|done|]. intros a. specialize (Ha a). destruct (snd ix !! a); [|done]. destruct Ha as [?|[? _]]; [by left|done]. Qed.

Lemma built_indexed cfg strict ix parser marks : (strict = false -> Nodes cfg !! "" = None) ->
  buildIndexes cfg strict = Ok ix -> provider_indexed (mkProvider cfg (fst ix) (snd ix) parser marks).
Proof.
  intros Hs Hb. pose proof (buildIndexes_inv cfg strict Hs) as B. rewrite Hb in B. destruct B as [I So]. split; [|done]. simpl.
  destruct ix. destruct strict; [by apply index_inv_lax|done].
Qed.

Lemma marked_indexed p n a : provider_indexed p -> provider_indexed (SetNodeOpenSSHAlias p n a).
Proof. unfold SetNodeOpenSSHAlias. by destruct (_ || _). Qed.

Lemma commit_indexed r d f rev fn r' d' result err :
  commit r d f rev fn = (r', d', result, err) -> provider_indexed (r_provider r) -> provider_indexed (r_provider r').
Proof.
  intros H Hi. apply commit_cases in H as [(_ & -> & _)|[_ Hx]]; [done|].
  destruct Hx as (base & u & ix & v2 & _ & _ & _ & Hb & _ & _ & _ & Hp & Hix & _).
  apply clone_index in Hb. pose proof (built_indexed _ true ix (p_openSSH (r_provider r')) (p_marks (r_provider r')) ltac:(done) Hb) as B.
  subst ix. cbn [fst snd] in B. rewrite <- Hp in B. by destruct (r_provider r').
Qed.

Lemma register_provider r cfg n r' : registerPendingConnection r cfg n = Ok r' ->
  r_provider r' = r_provider r \/ exists a, r_provider r' = SetNodeOpenSSHAlias (r_provider r) n a.
Proof.
  unfold registerPendingConnection. destruct (Nodes cfg !! n) as [node|]; [|done]. destruct (r_pending r !! n) as [previous|].
  - destruct (Resolve previous n) as [[[oldNode oldHost] oldIdentity]|]; [|done]. intros H. apply bind_reject_ok in H as [_ H].
    destruct (_ && _); apply Ok_inj in H as <-; [right; by eexists|by left].
  - intros H. apply Ok_inj in H as <-. by left.
Qed.

Lemma check_provider r d s ref r' d' res : CheckRefUnreferenced r d s ref = (r', d', res) ->
  r_provider r' = r_provider r \/ exists cfg ix, loadLocked (d_visible d) = Ok cfg /\ buildIndexes cfg false = Ok ix /\
    r_provider r' = mkProvider cfg (fst ix) (snd ix) (p_openSSH (r_provider r)) (p_marks (r_provider r)).
Proof.
  unfold CheckRefUnreferenced. destruct (ref_IsEmpty ref); [intros [= <- _ _]; by left|].
  destruct (loadLocked (d_visible d)) as [cfg|]; [|intros [= <- _ _]; by left].
  destruct (isRefReferencedIn cfg ref); [intros [= <- _ _]; by left|]. set (mem := isRefReferencedIn _ ref). destruct (r_hasUndurableWrite r && mem); [intros [= <- _ _]; by left|].
  set (r1 := if negb (r_hasUndurableWrite r) && mem then _ else r).
  assert (r_provider r1 = r_provider r \/ exists ix, buildIndexes cfg false = Ok ix /\
            r_provider r1 = mkProvider cfg (fst ix) (snd ix) (p_openSSH (r_provider r)) (p_marks (r_provider r))) as Hp.
  { unfold r1. destruct (_ && _); [|by left]. destruct (buildIndexes cfg false) as [ix|]; [right; by exists ix|by left]. }
  destruct (syncStoreLocked _ s d); intros [= <- _ _]; (destruct Hp as [Hp|(ix & ? & Hp)]; [by left|right; by exists cfg, ix]).
Qed.

(** In every state a repository can reach, whatever else happens to its file, the indexes it
    answers from are exactly those of the configuration it shows. *)
Theorem repository_indexed s : reachable repo_init repo_step s -> provider_indexed (r_provider (fst s)).
Proof.
  apply (reachable_invariant _ _ (fun s => provider_indexed (r_provider (fst s)))).
  - intros [r d] (cfg & parser & o & H). unfold newRepository in H. apply result_bind_ok in H as (ix & Hix & H). apply map_err_is_ok in Hix.
    apply bind_unit_ok in H as [_ H]. apply Ok_inj in H. cbn [fst] in H |- *. subst r. cbn [r_provider]. by eapply built_indexed; [|exact Hix].
  - intros [r d] [r' d'] Hi Hs. simpl in *. inversion Hs as [? ? ? ? ? ? ? ? ? H|? ? ? ? ? ? ? ? H|? ? ? ? ? H|? ? ? ? ? ? ? Hn H|? ? ? ? ? ? ? ? H| |]; subst; try done.
    + by eapply commit_indexed.
    + unfold confirmNode in H. destruct (r_pending r !! n) as [pending|]; [|by injection H as <- <-].
      destruct (Resolve pending n) as [[[node host] identity]|]; [|by injection H as <- <-].
      destruct (commit r d f anyRevision _) as [[[r1 d1] result1] err1] eqn:Hc. apply commit_indexed in Hc; [|done].
      cbv zeta in H. injection H as <- <- _. destruct (cr_Applied result1); [|done]. simpl. destruct (str_eq _ ""); [done|].
      simpl. by apply marked_indexed.
    + apply register_provider in H as [-> | [a ->]]; [done|by apply marked_indexed].
    + apply check_provider in H as [-> | (cfg & ix & Hl & Hb & ->)]; [done|]. eapply built_indexed; [|done]. intros _. by apply Hn.
    + unfold ConfirmRefDurable in H. destruct (loadLocked _); [|by injection H as <- _ _].
      destruct (negb _); [by injection H as <- _ _|]. destruct (syncStoreLocked _ s0 d); by injection H as <- _ _.
Qed.
End Reachable.

Section Prepared.
Context `{Ver : Versions} `{Alg : SshOptions.Algorithms} `{Ord : KeyOrder} `{Rx : RegexpCompile} `{Usr : CurrentUser}.
Variable NeedsExecutionProbe : option Exec.ExecutionConfig -> bool.

Lemma commit_pending r d f rev fn r' d' result err : commit r d f rev fn = (r', d', result, err) -> r_pending r' = r_pending r.
Proof.
  intros H. apply commit_cases in H as [(_ & -> & _)|[_ H]]; [done|].
  by destruct H as (? & ? & ? & ? & _ & _ & _ & _ & _ & _ & _ & _ & _ & _ & ? & _).
Qed.

Lemma confirm_own n node host identity cfg cfg' : confirm_node n node host identity cfg = Ok cfg' ->
  (forall old, Nodes cfg !! n = Some old -> equalPersistedNode old node = true) /\ bundle cfg' n = Some (node, Some host, Some identity).
Proof.
  unfold confirm_node. intros H. apply bind_reject_ok in H as [Hn H]. apply bind_reject_ok in H as [_ H].
  apply bind_reject_ok in H as [_ H]. apply Ok_inj in H as <-. split.
  - intros old Ho. rewrite Ho in Hn. by bool_facts.
  - unfold bundle. simpl. rewrite lookup_insert_eq. simpl. by rewrite !lookup_insert_eq.
Qed.

(** A prepared connection is saved in one commit, as it was prepared, when the node is not there or is
    the same; the bundles of all other nodes stay.  If the commit is not applied nothing
    changes and the connection stays prepared. *)
Theorem confirm_exact r d f n x r' d' err pending node host identity
    (Hp : r_pending r !! n = Some pending) (Hr : Resolve pending n = Ok (node, host, identity))
    (H : confirmNode NeedsExecutionProbe r d f n x = (r', d', err)) :
  (r' = r /\ d' = d /\ err <> None) \/
  (r_pending r' = delete n (r_pending r) /\ exists base, loadLocked (d_visible d) = Ok base /\
     (forall old, Nodes base !! n = Some old -> equalPersistedNode (cloneNode old) (enrolled NeedsExecutionProbe x node) = true) /\
     bundle (p_cfg (r_provider r')) n = Some (cloneNode (enrolled NeedsExecutionProbe x node), Some host, Some (identity_Clone identity)) /\
     (complete base -> forall m, m <> n -> bundle (p_cfg (r_provider r')) m = bundle (cloneConfiguration (Some base)) m)).
Proof.
  unfold confirmNode in H. rewrite Hp, Hr in H. set (saved := enrolled NeedsExecutionProbe x node) in *.
  destruct (commit r d f anyRevision (confirm_node n saved host identity)) as [[[r1 d1] result1] err1] eqn:Hc.
  cbv zeta in H. injection H as Er <- <-. pose proof (commit_pending _ _ _ _ _ _ _ _ _ Hc) as Hpend.
  pose proof Hc as Hc'. apply commit_cases in Hc' as [(Ha & Hr1 & Hd1 & He)|[Ha Hx]]; rewrite Ha in Er.
  { left. subst. done. }
  right. assert (p_cfg (r_provider r') = p_cfg (r_provider r1) /\ r_pending r' = delete n (r_pending r)) as [-> ->].
  { rewrite <- Er. destruct (str_eq (OpenSSHAlias saved) ""); simpl; rewrite Hpend; [done|].
    unfold SetNodeOpenSSHAlias. by destruct (_ || _). }
  split; [done|]. destruct Hx as (base & u & ix & v2 & Hl & Hu & _ & _ & _ & _ & _ & Hcfg & _). exists base. split; [done|].
  destruct (confirm_own _ _ _ _ _ _ Hu) as [Hold Hown]. split; [|split].
  - intros old Ho. apply Hold. simpl. by rewrite lookup_fmap, Ho.
  - by rewrite Hcfg, bundle_clone, Hown.
  - intros Hcomp m Hm. apply (commit_others r d f anyRevision (ConfirmNode n saved host identity) r1 d1 result1 err1 base Hc Ha Hl Hcomp m). simpl. set_solver.
Qed.

(** Preparing a connection changes nothing that is shown, found or saved; what it prepares has
    an identity reference of its own. *)
Theorem prepared_private r cfg n r' (H : registerPendingConnection r cfg n = Ok r') :
  p_cfg (r_provider r') = p_cfg (r_provider r) /\ p_lookup (r_provider r') = p_lookup (r_provider r) /\
  p_aliases (r_provider r') = p_aliases (r_provider r) /\ r_revision r' = r_revision r /\
  (forall m, m <> n -> r_pending r' !! m = r_pending r !! m) /\
  exists pending node, r_pending r' !! n = Some pending /\
    (r_pending r !! n = None -> Nodes (p_cfg pending) !! n = Some node /\ Identities cfg !! IdentityRef node = None).
Proof.
  pose proof (register_provider _ _ _ _ H) as Hp. unfold registerPendingConnection in H.
  assert (forall q, (q = r_provider r \/ exists a, q = SetNodeOpenSSHAlias (r_provider r) n a) ->
            p_cfg q = p_cfg (r_provider r) /\ p_lookup q = p_lookup (r_provider r) /\ p_aliases q = p_aliases (r_provider r)) as Hq.
  { intros q [-> | [a ->]]; [done|]. unfold SetNodeOpenSSHAlias. by destruct (_ || _). }
  destruct (Hq _ Hp) as (-> & -> & ->). split; [done|]. split; [done|]. split; [done|]. clear Hp Hq.
  destruct (Nodes cfg !! n) as [node|]; [|done]. destruct (r_pending r !! n) as [previous|] eqn:Hprev.
  - destruct (Resolve previous n) as [[[oldNode oldHost] oldIdentity]|]; [|done]. apply bind_reject_ok in H as [_ H].
    destruct (_ && _); apply Ok_inj in H as <-; simpl.
    + split; [done|]. split; [intros m Hm; by rewrite lookup_insert_ne|]. eexists _, node. rewrite lookup_insert_eq. done.
    + split; [done|]. split; [done|]. exists previous, node. done.
  - apply Ok_inj in H as <-. split; [done|]. split; [intros m Hm; simpl; by rewrite lookup_insert_ne|].
    set (fresh := set_node_refs node (HostRef node) (privateIdentityReference cfg n)).
    eexists _, (cloneNode fresh). split; [apply lookup_insert_eq|]. intros _. split; [|apply privateReference_fresh].
    assert (forall q a, p_cfg (SetNodeOpenSSHAlias q n a) = p_cfg q) as Hq by (intros q a; unfold SetNodeOpenSSHAlias; by destruct (_ || _)).
    destruct (str_eq (OpenSSHAlias _) ""); rewrite ?Hq; unfold newProvider; destruct (buildIndexes _ false) as [[]|]; simpl;
      by rewrite lookup_fmap, lookup_insert_eq.
Qed.
End Prepared.

(** * Witnesses *)
#[local] Existing Instance SshOptions.sample_algorithms.
#[local] Instance sample_versions : Versions.
Proof. exists (fun _ => Some "0123456789abcdef0123456789abcdef"). by intros d v [= <-]. Defined.
#[local] Instance sample_regexp : RegexpCompile := fun _ => true.
#[local] Instance sample_user : CurrentUser := Some "ops".

Definition sample_disk : Disk := let v2 := v2_of sample_config in mkDisk (Some v2) None.
Definition new_sample : edit := CreateNode "new" (set_node_refs (sample_node "n") "h2" "i2") sample_host sample_identity.
Definition sample_repo : Repo :=
  match newRepository (Some sample_config) no_openssh false with
  | Ok r => r
  | Err _ => mkRepo (newProvider None no_openssh) 0 false ∅ false
  end.
Definition sample_commit : Repo * Disk * CommitResult * option commit_error :=
  commit sample_repo sample_disk no_faults 0 (run_edit new_sample).

Lemma commit_exact_witness : commit_applied sample_repo sample_disk no_faults (run_edit new_sample)
  (sample_commit.1.1.1) (sample_commit.1.1.2) (sample_commit.1.2) (sample_commit.2) /\ sample_commit.2 = None.
Proof.
  assert (cr_Applied sample_commit.1.2 = true /\ sample_commit.2 = None) as [Ha He] by (vm_compute; split; reflexivity).
  pose proof (commit_exact sample_repo sample_disk no_faults 0 (run_edit new_sample)
    sample_commit.1.1.1 sample_commit.1.1.2 sample_commit.1.2 sample_commit.2) as H.
  destruct H as [[Hf _]|(_ & _ & H)].
  - unfold sample_commit. by destruct (commit _ _ _ _ _) as [[[]]].
  - rewrite Ha in Hf. discriminate Hf.
  - split; [exact H|exact He].
Defined.

Lemma commit_keeps_others_witness :
  bundle (p_cfg (r_provider sample_commit.1.1.1)) "db" = bundle sample_config "db".
Proof.
  pose proof (commit_keeps_others sample_repo sample_disk no_faults 0 new_sample
    sample_commit.1.1.1 sample_commit.1.1.2 sample_commit.1.2 sample_commit.2) as H.
  assert (exists base, loadLocked (d_visible sample_disk) = Ok base) as [base Hl].
  { assert (is_ok (loadLocked (d_visible sample_disk)) = true) as Hk by (vm_compute; reflexivity).
    destruct (loadLocked _) as [base|]; [exists base; reflexivity|discriminate Hk]. }
  specialize (H base).
  assert (complete base /\ bundle (cloneConfiguration (Some base)) "db" = bundle sample_config "db" /\
          "db" ∉ touched new_sample (cloneConfiguration (Some base))) as (Hc & Hb & Ht).
  { assert (complete (default defaultConfiguration (match loadLocked (d_visible sample_disk) with Ok b => Some b | _ => None end)) /\
       match loadLocked (d_visible sample_disk) with Ok b => bundle (cloneConfiguration (Some b)) "db" = bundle sample_config "db" | Err _ => False end) as [H1 H2].
    { split; [apply map_Forall_to_list; vm_compute; repeat constructor; eexists; reflexivity|vm_compute; reflexivity]. }
    rewrite Hl in H1, H2. split; [exact H1|]. split; [exact H2|]. cbn [touched new_sample]. intros Hx%list_elem_of_singleton. discriminate Hx. }
  rewrite <- Hb. apply H; [|vm_compute; reflexivity|exact Hl|exact Hc|exact Ht].
  unfold sample_commit. by destruct (commit _ _ _ _ _) as [[[]]].
Defined.

Definition unused : Ref := mkRef "file" "old".
Definition sample_check : Repo * Disk * result check_error bool := CheckRefUnreferenced sample_repo sample_disk (file_store true) unused.
Lemma unreferenced_durably_witness :
  r_hasUndurableWrite sample_check.1.1 = false /\ (forall d'', crash sample_check.1.2 d'' -> file_free (d_visible d'') unused).
Proof.
  pose proof (unreferenced_durably sample_repo sample_disk (file_store true) unused sample_check.1.1 sample_check.1.2) as H.
  assert (sample_check.2 = Ok true) as E by (vm_compute; reflexivity).
  destruct H as (_ & _ & _ & _ & H1 & H2); [discriminate|reflexivity| |split; [exact H1|exact H2]].
  rewrite <- E. unfold sample_check. by destruct (CheckRefUnreferenced _ _ _ _) as [[]].
Defined.

Definition sample_applied : result edit_error Configuration := run_edit (ApplyCredential (login_of "web") "" (Some unused)) sample_config.
Lemma applied_is_matched_witness :
  match sample_applied with Ok cfg => ref_matched cfg (login_of "web") (Some unused) = true | Err _ => False end.
Proof.
  pose proof (applied_is_matched (login_of "web") "" (Some unused) sample_config) as H. fold sample_applied in H.
  assert (is_ok sample_applied = true) as E by (vm_compute; reflexivity).
  destruct sample_applied as [cfg|]; [|discriminate E]. apply H; [by intros r [= <-]| |reflexivity].
  apply map_Forall_to_list. vm_compute. repeat constructor. discriminate.
Defined.

Definition first_ref : Ref := mkRef "file" "a1".
Definition sample_recorded : Repo * Disk * result check_error bool :=
  ConfirmRefDurable sample_repo sample_disk (file_store true) (login_of "web") (Some first_ref).
Lemma recorded_durably_witness :
  exists cfg, ref_matched cfg (login_of "web") (Some first_ref) = true /\
  forall d'', crash sample_recorded.1.2 d'' -> loadLocked (d_visible d'') = Ok cfg.
Proof.
  assert (sample_recorded.2 = Ok true) as E by (vm_compute; reflexivity).
  destruct (recorded_durably sample_repo sample_disk (file_store true) (login_of "web") (Some first_ref)
    sample_recorded.1.1 sample_recorded.1.2) as (cfg & _ & Hm & _ & H); [discriminate| |exists cfg; split; [exact Hm|exact H]].
  rewrite <- E. unfold sample_recorded. by destruct (ConfirmRefDurable _ _ _ _ _) as [[]].
Defined.

Lemma repository_indexed_witness : provider_indexed (r_provider (fst sample_commit.1.1)).
Proof.
  assert (repo_init (sample_repo, sample_disk)) as Hi.
  { exists (Some sample_config), no_openssh, false. cbn [fst]. unfold sample_repo.
    assert (is_ok (newRepository (Some sample_config) no_openssh false) = true) as E by (vm_compute; reflexivity).
    by destruct (newRepository _ _ _). }
  assert (repo_step (fun _ => false) (sample_repo, sample_disk) sample_commit.1.1) as Hs.
  { pose proof (repo_commit (fun _ => false) sample_repo sample_disk no_faults 0 new_sample) as H. fold sample_commit in H.
    destruct sample_commit as [[[r d] result] err]. by apply (H r d result err). }
  refine (repository_indexed (fun _ => false) sample_commit.1.1 _).
  refine (reachable_step _ _ _ _ _ Hs). exists (sample_repo, sample_disk). split; [exact Hi|constructor].
Defined.
