(* ===== verification/Target.v ===== *)
(** The connection a user asks for: pkg/config target.go and PrepareNodeContext of pending_connection.go.

    A target names a host by a selector, with a user, a port and jump hosts that are
    explicit or not.  Resolving it looks at the saved nodes, their aliases and the indexes
    of the configuration, at the OpenSSH configuration, and at last takes the selector for
    an address; then it either finds a node or says which one would have to be
    created.  [ResolveTarget] only reports the decision, [EnsureNodeContext] saves the new
    node, [PrepareNodeContext] keeps it until the connection succeeded.  The theorems show
    that what is explicit is what is connected to, that the report agrees with what is
    created, that a creation overwrites no entry, and that resolved jump chains stay
    as they are. *)
From stdpp Require Import sorting.
From S2P Require Export Repository OpenSSH.
From S2P Require Import GoPath GoNumbers NetIP.
#[local] Open Scope Z_scope.

(** * Data *)
Record ConnectionTarget := mkConnectionTarget {
  Selector : string; RawSelector : string; ct_User : string; HasUser : bool; ct_Port : Z; HasPort : bool; ct_ProxyJump : string; HasProxyJump : bool
}.
Record EnsureNodeOptions := mkEnsure {
  eo_Target : ConnectionTarget; DefaultUser : string; eo_Password : string; IdentityFile : string; eo_Passphrase : string;
  eo_Alias : string; eo_Tags : list string; eo_SudoMode : string; eo_SuPwd : string
}.
Record ResolvedTarget := mkResolved {
  rt_NodeID : string; MatchedNodeID : string; BaseNodeID : string; rt_Host : string; rt_Port : Z; rt_User : string;
  rt_ProxyJump : string; rt_KeyPath : string; rt_OpenSSHAlias : string; Created : bool
}.
Record canonicalTargetInfo := mkCanonical {
  ci_BaseNodeID : string; ci_Address : string; ci_Port : Z; ci_IdentityFile : string; ci_ProxyJump : string; ci_DefaultUser : string;
  ci_OpenSSHAlias : string; AmbiguousDefaultUser : bool; AmbiguousCandidates : list string
}.
Record targetDecision := mkDecision {
  NormalizedTarget : ConnectionTarget; td_Selector : string; td_MatchedNodeID : string; td_BaseNodeID : string; td_OpenSSHAlias : string;
  Canonical : canonicalTargetInfo; EffectiveUser : string; EffectivePort : Z; NeedsCreation : bool
}.
Definition no_canonical : canonicalTargetInfo := mkCanonical "" "" 0 "" "" "" "" false [].

(** [os.Getwd], when it succeeds. *)
Class WorkingDirectory := working_directory : option string.

(** pkg/utils/file file.go, on a system with slashes. *)
Definition ToAbsolutePath `{UserHome} `{WorkingDirectory} (path : string) : string :=
  let absolute := if path_is_abs path then path
                  else match working_directory with Some dir => path_join dir path | None => path end in
  if str_eq path "" then path
  else match strip_prefix "~" path, user_home with
       | Some rest, Some home =>
           let rest := match rest with
                       | String c r => if Ascii.eqb c "/" || Ascii.eqb c backslash then r else rest
                       | EmptyString => rest
                       end in
           if str_eq rest "" then home else path_join home rest
       | _, _ => absolute
       end.

Section Targets.
Context `{Ord : KeyOrder} `{Usr : CurrentUser} `{Home : UserHome} `{Cwd : WorkingDirectory}.

(** * Candidates *)

(** The address, port and user of a node whose host exists; the user is blank without an identity. *)
Definition node_host (cfg : Configuration) (id : string) : option (Node * Host) :=
  node ← Nodes cfg !! id; host ← Hosts cfg !! HostRef node; Some (node, host).
Definition host_address (h : Host) : string := clean_address (Address h).
Definition user_or_blank (cfg : Configuration) (node : Node) : string :=
  match Identities cfg !! IdentityRef node with Some i => normalizedIdentityUser (User i) | None => "" end.
Definition endpoint (cfg : Configuration) (id : string) : option (string * Z * string) :=
  match node_host cfg id with Some (node, h) => Some (host_address h, normalizedHostPort (Port h), user_or_blank cfg node) | None => None end.

Definition effectiveNodeOpenSSHAlias (r : Repo) (nodeID : string) (node : Node) : string :=
  if str_eq (OpenSSHAlias node) "" then NodeOpenSSHAlias (r_provider r) nodeID else OpenSSHAlias node.

Definition filterCandidatesByExplicitTarget (cfg : Configuration) (candidates : list string) (target : ConnectionTarget) : list string :=
  if negb (HasPort target) && negb (HasUser target) then candidates
  else List.filter (fun cid => match endpoint cfg cid with
         | Some (_, port, user) =>
             negb (HasPort target && negb (port =? normalizedHostPort (ct_Port target))) && negb (HasUser target && negb (str_eq user (ct_User target)))
         | None => false
         end) candidates.
Definition resolveCandidateNodeInfo (r : Repo) (cfg : Configuration) (candidateID : string) : option canonicalTargetInfo :=
  match node_host cfg candidateID with
  | None => None
  | Some (node, host) =>
      Some (mkCanonical candidateID (host_address host) (normalizedHostPort (Port host))
        (match Identities cfg !! IdentityRef node with Some i => KeyPath i | None => "" end) "" (user_or_blank cfg node)
        (effectiveNodeOpenSSHAlias r candidateID node) false [])
  end.
Fixpoint resolveDirectOrAliasTargetInfo (r : Repo) (cfg : Configuration) (aliases : gmap string string) (keys : list string) : option canonicalTargetInfo :=
  match keys with
  | [] => None
  | key :: keys =>
      if str_eq key "" then resolveDirectOrAliasTargetInfo r cfg aliases keys
      else match resolveCandidateNodeInfo r cfg key with
           | Some info => Some info
           | None =>
               match (nid ← aliases !! key; if str_eq nid "" then None else resolveCandidateNodeInfo r cfg nid) with
               | Some info => Some info
               | None => resolveDirectOrAliasTargetInfo r cfg aliases keys
               end
           end
  end.

(** The alias of the candidates that have one, if they all have the same. *)
Fixpoint consistentCandidateOpenSSHAlias (r : Repo) (cfg : Configuration) (alias : string) (candidates : list string) : string :=
  match candidates with
  | [] => alias
  | cid :: candidates =>
      match Nodes cfg !! cid with
      | None => consistentCandidateOpenSSHAlias r cfg alias candidates
      | Some node =>
          let nodeAlias := effectiveNodeOpenSSHAlias r cid node in
          if str_eq nodeAlias "" then consistentCandidateOpenSSHAlias r cfg alias candidates
          else if str_eq alias "" then consistentCandidateOpenSSHAlias r cfg nodeAlias candidates
          else if str_eq alias nodeAlias then consistentCandidateOpenSSHAlias r cfg alias candidates
          else ""
      end
  end.

(** What the candidates agree on: the first endpoint, and whether the others have its port and
    user; [None] when there is no endpoint, or when [strict] and they are at different places. *)
Record agreement := mkAgreement { ag_address : string; ag_port : Z; ag_user : string; same_port : bool; same_user : bool }.
Fixpoint agree (differs : string * Z -> string * Z -> bool) (cfg : Configuration) (acc : option agreement) (candidates : list string) : option agreement :=
  match candidates with
  | [] => acc
  | cid :: candidates =>
      match endpoint cfg cid with
      | None => agree differs cfg acc candidates
      | Some (address, port, user) =>
          match acc with
          | None => agree differs cfg (Some (mkAgreement address port user true true)) candidates
          | Some a =>
              if differs (ag_address a, ag_port a) (address, port) then None
              else agree differs cfg (Some (mkAgreement (ag_address a) (ag_port a) (ag_user a) (same_port a && (ag_port a =? port))
                                              (same_user a && str_eq (ag_user a) user))) candidates
          end
      end
  end.
Definition resolveConsistentCandidates (r : Repo) (cfg : Configuration) (selector : string) (candidates : list string) : result config_error canonicalTargetInfo :=
  match agree (fun a b => negb (str_eq a.1 b.1) || negb (a.2 =? b.2)) cfg None candidates with
  | None => Err (AmbiguousNode selector candidates)
  | Some a =>
      Ok (mkCanonical "" (ag_address a) (ag_port a) "" "" (if same_user a then ag_user a else "")
            (consistentCandidateOpenSSHAlias r cfg "" candidates) (negb (same_user a)) candidates)
  end.
Definition resolveCandidateAddressFallback (r : Repo) (cfg : Configuration) (selector : string) (candidates : list string) (target : ConnectionTarget)
    : result config_error canonicalTargetInfo :=
  match agree (fun a b => negb (str_eq a.1 b.1)) cfg None candidates with
  | None => Err (AmbiguousNode selector candidates)
  | Some a =>
      reject negb (HasPort target) && negb (same_port a) with AmbiguousNode selector candidates ;;
      let effectivePort := if HasPort target then ct_Port target else normalizedHostPort (ag_port a) in
      let defUser := if HasUser target then ct_User target else if same_user a then ag_user a else "" in
      Ok (mkCanonical "" (ag_address a) effectivePort "" "" defUser (consistentCandidateOpenSSHAlias r cfg "" candidates)
            (negb (HasUser target) && negb (same_user a)) candidates)
  end.
Definition resolveLookupCandidates (r : Repo) (cfg : Configuration) (selector : string) (candidates : list string) (target : ConnectionTarget)
    : result config_error canonicalTargetInfo :=
  let fallback := resolveCandidateAddressFallback r cfg selector candidates target in
  match filterCandidatesByExplicitTarget cfg candidates target with
  | [id] => match resolveCandidateNodeInfo r cfg id with Some info => Ok info | None => fallback end
  | [] => fallback
  | filtered => resolveConsistentCandidates r cfg selector filtered
  end.

(** * Users and matches *)
Definition resolveEffectiveUser (target : ConnectionTarget) (explicitDefaultUser canonicalDefaultUser : string) : result config_error string :=
  if HasUser target && negb (str_eq (trim_space (ct_User target)) "") then Ok (trim_space (ct_User target))
  else if negb (str_eq (trim_space canonicalDefaultUser) "") then Ok (trim_space canonicalDefaultUser)
  else if negb (str_eq (trim_space explicitDefaultUser) "") then Ok (trim_space explicitDefaultUser)
  else of_opt current_user NoCurrentUser.

(** The saved nodes at a place for a user; both entries they refer to must exist. *)
Definition at_endpoint (cfg : Configuration) (user : option string) (addr : string) (port : Z) (nid : string) : bool :=
  match node_host cfg nid with
  | None => false
  | Some (n, h) =>
      match Identities cfg !! IdentityRef n with
      | None => false
      | Some ident => str_eq (host_address h) addr && (normalizedHostPort (Port h) =? normalizedHostPort port)
                      && match user with Some u => str_eq (normalizedIdentityUser (User ident)) u | None => true end
      end
  end.
Definition findMatchingNodes (cfg : Configuration) (user addr : string) (port : Z) : list string :=
  sort_strings (List.filter (at_endpoint cfg (Some user) addr port) (keys_of (Nodes cfg))).
Fixpoint narrowMatchingNodesBySelector (matches : list string) (aliases : gmap string string) (selectors : list string) : list string :=
  if (List.length matches <=? 1)%nat then matches
  else match selectors with
       | [] => matches
       | selector :: selectors =>
           if str_eq selector "" then narrowMatchingNodesBySelector matches aliases selectors
           else if slice_contains matches selector then [selector]
           else match aliases !! selector with
                | Some nid => if negb (str_eq nid "") && slice_contains matches nid then [nid]
                              else narrowMatchingNodesBySelector matches aliases selectors
                | None => narrowMatchingNodesBySelector matches aliases selectors
                end
       end.

(** * OpenSSH hosts *)
Definition ssh_of (r : Repo) : OpenSSHParser := p_openSSH (r_provider r).

Definition resolveOpenSSHAliasName (parser : OpenSSHParser) (spec : string) : string :=
  if negb (parser_loaded parser) then ""
  else
    let clean := trim_space (trim_prefix spec OpenSSHNodePrefix) in
    if str_eq clean "" then ""
    else match parseOpenSSHHostSpec clean with
         | Err _ => ""
         | Ok s => if negb (str_eq (spec_host s) "") && HasHost parser (spec_host s) then spec_host s else ""
         end.
Definition matchBareOpenSSHSelector (r : Repo) (selector : string) : option (string * string) :=
  match strip_prefix OpenSSHNodePrefix selector with
  | Some rest =>
      let clean := trim_space rest in
      if str_eq clean "" then None
      else match GetVirtualNode (ssh_of r) clean with
           | Err _ => None
           | Ok _ => Some (OpenSSHNodePrefix +:+ clean, resolveOpenSSHAliasName (ssh_of r) clean)
           end
  | None =>
      if parser_loaded (ssh_of r) then
        nid ← openssh_Find selector; Some (nid, resolveOpenSSHAliasName (ssh_of r) nid)
      else None
  end.
(** Whether the virtual node of a specification is the user and port asked for. *)
Definition virtual_is (r : Repo) (spec user : string) (port : Z) : bool :=
  match GetVirtualNode (ssh_of r) spec with
  | Err _ => false
  | Ok (_, vhost, vident) => str_eq (User vident) user && (normalizedHostPort (Port vhost) =? port)
  end.
Definition matchOpenSSHVirtualNode (r : Repo) (selector effectiveUser : string) (effectivePort : Z) : option (string * string) :=
  match strip_prefix OpenSSHNodePrefix selector with
  | Some rest =>
      let clean := trim_space rest in
      if str_eq clean "" then None
      else if virtual_is r clean effectiveUser effectivePort
           then Some (OpenSSHNodePrefix +:+ clean, resolveOpenSSHAliasName (ssh_of r) clean) else None
  | None =>
      if negb (parser_loaded (ssh_of r)) then None
      else if str_eq selector "" || contains selector "@" || contains selector ":" then None
      else if negb (HasHost (ssh_of r) selector) then None
      else if virtual_is r selector effectiveUser effectivePort then Some (OpenSSHNodePrefix +:+ selector, selector) else None
  end.

(** * Where a target is *)

(** The fourth tier of [resolveCanonicalTargetInfo]: a host the OpenSSH configuration names. *)
Definition canonical_openssh (r : Repo) (selector : string) : option (result config_error canonicalTargetInfo) :=
  let clean := trim_space (trim_prefix selector OpenSSHNodePrefix) in
  let allowSpec := has_prefix selector OpenSSHNodePrefix || (negb (contains clean "@") && negb (contains clean ":")) in
  if parser_loaded (ssh_of r) && negb (str_eq clean "") && allowSpec && HasHost (ssh_of r) clean then
    Some (match GetVirtualNode (ssh_of r) clean with
          | Err e => Err e
          | Ok (vnode, vhost, vident) =>
              Ok (mkCanonical (OpenSSHNodePrefix +:+ clean) (host_address vhost) (Port vhost) (KeyPath vident) (ProxyJump vnode) (User vident)
                    (resolveOpenSSHAliasName (ssh_of r) clean) false [])
          end)
  else None.
(** The last tier: the selector is an address. *)
Definition canonical_raw (selector : string) : canonicalTargetInfo :=
  let clean := trim_prefix (trim_space selector) OpenSSHNodePrefix in
  match parseOpenSSHHostSpec clean with
  | Ok s => mkCanonical "" (clean_address (spec_host s)) (normalizedHostPort (spec_port s)) "" "" (spec_user s) "" false []
  | Err _ => mkCanonical "" (trim_prefix (trim_suffix clean "]") "[") 22 "" "" "" "" false []
  end.
Definition resolveCanonicalTargetInfo (r : Repo) (cfg : Configuration) (ix : Index) (selector : string) (target : ConnectionTarget)
    : result config_error canonicalTargetInfo :=
  let '(lookup, aliases) := ix in
  let raw := trim_space (RawSelector target) in
  match resolveDirectOrAliasTargetInfo r cfg aliases [raw; selector] with
  | Some info => Ok info
  | None =>
      match default [] (lookup !! selector) with
      | (_ :: _) as candidates => resolveLookupCandidates r cfg selector candidates target
      | [] =>
          match (if negb (str_eq raw "") && negb (str_eq raw selector) then default [] (lookup !! raw) else []) with
          | (_ :: _) as candidates => resolveLookupCandidates r cfg raw candidates target
          | [] =>
              let composite :=
                if str_eq raw "" && HasUser target && HasPort target && negb (str_eq (trim_space (ct_User target)) "") && (0 <? ct_Port target)
                then resolveDirectOrAliasTargetInfo r cfg aliases [FormatNodeID (trim_space (ct_User target)) selector (ct_Port target)]
                else None in
              match composite with
              | Some info => Ok info
              | None => match canonical_openssh r selector with Some res => res | None => Ok (canonical_raw selector) end
              end
          end
      end
  end.

(** * Normalization of the selector *)
Definition isDirectOrIndexedSelector (cfg : Configuration) (ix : Index) (selector : string) : bool :=
  str_eq selector "" || has_prefix selector OpenSSHNodePrefix || bool_decide (is_Some (Nodes cfg !! selector))
  || match snd ix !! selector with Some nid => negb (str_eq nid "") | None => false end
  || match default [] (fst ix !! selector) with [] => false | _ => true end.
Definition isAlreadySplitCompositeTarget (target : ConnectionTarget) (selector parsedUser : string) (parsedPort : Z) : bool :=
  str_eq (trim_space (RawSelector target)) selector
  && negb (str_eq parsedUser "" && (parsedPort =? 0))
  && (str_eq parsedUser "" || HasUser target) && ((parsedPort =? 0) || HasPort target).
(** The target with the user and port of a composite selector, unless it has its own. *)
Definition split_selector (target : ConnectionTarget) (selector : string) (s : HostSpec) (cleanHost : string) : ConnectionTarget :=
  let takesUser := negb (HasUser target) && negb (str_eq (spec_user s) "") in
  let takesPort := negb (HasPort target) && negb (spec_port s =? 0) in
  mkConnectionTarget cleanHost (if str_eq (trim_space (RawSelector target)) "" then selector else RawSelector target)
    (if takesUser then spec_user s else ct_User target) (HasUser target || takesUser)
    (if takesPort then spec_port s else ct_Port target) (HasPort target || takesPort) (ct_ProxyJump target) (HasProxyJump target).
Definition normalizeTargetSelector (cfg : Configuration) (ix : Index) (target : ConnectionTarget) : ConnectionTarget * string :=
  let selector := trim_space (Selector target) in
  if isDirectOrIndexedSelector cfg ix selector then (target, selector)
  else match parseOpenSSHHostSpec selector with
       | Err _ => (target, selector)
       | Ok s =>
           let cleanHost := clean_address (spec_host s) in
           if str_eq cleanHost "" || isAlreadySplitCompositeTarget target selector (spec_user s) (spec_port s) then (target, selector)
           else if str_eq cleanHost selector && str_eq (spec_user s) "" && (spec_port s =? 0) then (target, selector)
           else (split_selector target selector s cleanHost, cleanHost)
       end.

(** * Decisions *)
Definition decision_of (target : ConnectionTarget) (selector id alias : string) : targetDecision :=
  mkDecision target selector id id alias no_canonical "" 0 false.
Definition evaluateBareTargetDecision (r : Repo) (cfg : Configuration) (ix : Index) (selector : string) (target : ConnectionTarget) (explicitDefaultUser : string)
    : result config_error targetDecision :=
  if bool_decide (is_Some (Nodes cfg !! selector)) then Ok (decision_of target selector selector "")
  else match snd ix !! selector with
  | Some ((String _ _) as nid) => Ok (decision_of target selector nid "")
  | _ =>
      match default [] (fst ix !! selector) with
      | [id] => Ok (decision_of target selector id "")
      | [] =>
          match matchBareOpenSSHSelector r selector with
          | Some (nid, alias) => Ok (decision_of target selector nid alias)
          | None =>
              try info := resolveCanonicalTargetInfo r cfg ix selector target ;;
              try effectiveUser := resolveEffectiveUser target explicitDefaultUser (ci_DefaultUser info) ;;
              Ok (mkDecision target selector "" (ci_BaseNodeID info) (ci_OpenSSHAlias info) info effectiveUser (normalizedHostPort (ci_Port info)) true)
          end
      | candidates => Err (AmbiguousNode selector candidates)
      end
  end.
Definition evaluateExplicitTargetDecision (r : Repo) (cfg : Configuration) (ix : Index) (selector : string) (target : ConnectionTarget) (explicitDefaultUser : string)
    : result config_error targetDecision :=
  try info := resolveCanonicalTargetInfo r cfg ix selector target ;;
  reject negb (HasUser target) && AmbiguousDefaultUser info with AmbiguousNode selector (AmbiguousCandidates info) ;;
  let effectivePort := if HasPort target then ct_Port target else normalizedHostPort (ci_Port info) in
  try effectiveUser := resolveEffectiveUser target explicitDefaultUser (ci_DefaultUser info) ;;
  match narrowMatchingNodesBySelector (findMatchingNodes cfg effectiveUser (ci_Address info) effectivePort) (snd ix) [selector; trim_space (RawSelector target)] with
  | [id] => Ok (mkDecision target selector id (if str_eq (ci_BaseNodeID info) "" then id else ci_BaseNodeID info) (ci_OpenSSHAlias info) info effectiveUser effectivePort false)
  | [] =>
      match matchOpenSSHVirtualNode r selector effectiveUser effectivePort with
      | Some (nid, alias) => Ok (mkDecision target selector nid nid alias info effectiveUser effectivePort false)
      | None => Ok (mkDecision target selector "" (ci_BaseNodeID info) (ci_OpenSSHAlias info) info effectiveUser effectivePort true)
      end
  | matches => Err (AmbiguousNode selector matches)
  end.
Definition evaluateTargetDecision (r : Repo) (cfg : Configuration) (ix : Index) (target : ConnectionTarget) (explicitDefaultUser : string)
    : result config_error targetDecision :=
  let '(normTarget, selector) := normalizeTargetSelector cfg ix target in
  reject str_eq selector "" with EmptySelector ;;
  try d := (if negb (HasUser normTarget) && negb (HasPort normTarget)
            then evaluateBareTargetDecision r cfg ix selector normTarget explicitDefaultUser
            else evaluateExplicitTargetDecision r cfg ix selector normTarget explicitDefaultUser) ;;
  let id := FormatNodeID (EffectiveUser d) (ci_Address (Canonical d)) (EffectivePort d) in
  if NeedsCreation d && bool_decide (is_Some (Nodes cfg !! id)) then
    Ok (mkDecision (NormalizedTarget d) (td_Selector d) id (if str_eq (td_BaseNodeID d) "" then id else td_BaseNodeID d) (td_OpenSSHAlias d)
          (Canonical d) (EffectiveUser d) (EffectivePort d) false)
  else Ok d.

(** * Jump hosts *)
Definition isValidDNSByte (c : ascii) : bool := is_alpha c || is_digit c || Ascii.eqb c "-".
Definition isDNSHostname (host : string) : bool :=
  contains host "." && (len host <=? 253) && negb (has_prefix host ".") && negb (has_suffix host ".")
  && forallb (fun part => negb (str_eq part "") && (len part <=? 63) && negb (has_prefix part "-") && negb (has_suffix part "-")
                          && all_bytes isValidDNSByte part) (split_on "." host).
(** [net.ParseIP]: an address without a zone. *)
Definition is_ip (s : string) : bool := match ParseAddr s with Some (Addr4 _) => true | Some (Addr16 _ z) => str_eq z "" | None => false end.
Definition isDirectJumpTarget (cleanHop : string) : bool :=
  match parseOpenSSHHostSpec cleanHop with
  | Err _ => false
  | Ok s => contains cleanHop "@" || contains cleanHop ":" || is_ip (spec_host s) || isDNSHostname (spec_host s)
  end.

Definition resolveHopExactNodeMatch (cfg : Configuration) (ix : Index) (hop : string) : option (result config_error string) :=
  if bool_decide (is_Some (Nodes cfg !! hop)) then Some (Ok hop)
  else match snd ix !! hop with
       | Some ((String _ _) as nid) => Some (Ok nid)
       | _ => match default [] (fst ix !! hop) with
              | [] => None
              | [id] => Some (Ok id)
              | candidates => Some (Err (AmbiguousNode hop candidates))
              end
       end.
Definition collectHostCandidates (cfg : Configuration) (ix : Index) (host : string) : list string :=
  match snd ix !! host with
  | Some ((String _ _) as nid) => [nid]
  | _ => match default [] (fst ix !! host) with
         | [] => if bool_decide (is_Some (Nodes cfg !! host)) then [host] else []
         | cands => cands
         end
  end.
Definition filterHostCandidates (cfg : Configuration) (candidates : list string) (hopUser : string) (hopPort : Z) : list string :=
  List.filter (fun cid =>
    match node_host cfg cid with
    | None => false
    | Some (node, h) =>
        match Identities cfg !! IdentityRef node with
        | None => false
        | Some ident => negb (negb (hopPort =? 0) && negb (normalizedHostPort (Port h) =? normalizedHostPort hopPort))
                        && negb (negb (str_eq hopUser "") && negb (str_eq (normalizedIdentityUser (User ident)) hopUser))
        end
    end) candidates.
(** The value all candidates agree on; [zero] is no value yet. *)
Fixpoint agreed {A} (eqb : A -> A -> bool) (zero : A) (value : Host -> A) (cfg : Configuration) (first : A) (candidates : list string) : option A :=
  match candidates with
  | [] => Some first
  | cid :: candidates =>
      match node_host cfg cid with
      | None => agreed eqb zero value cfg first candidates
      | Some (_, h) =>
          if eqb first zero then agreed eqb zero value cfg (value h) candidates
          else if eqb first (value h) then agreed eqb zero value cfg first candidates else None
      end
  end.
Definition resolveHopAddressFromCandidates (cfg : Configuration) : list string -> option string := agreed str_eq "" host_address cfg "".
Definition resolveHopPortFromCandidates (cfg : Configuration) : list string -> option Z := agreed Z.eqb 0 (fun h => normalizedHostPort (Port h)) cfg 0.

Definition resolveHopAddressFallback (cfg : Configuration) (hop hopUser : string) (hopPort : Z) (hostCandidates : list string) : result config_error string :=
  match resolveHopAddressFromCandidates cfg hostCandidates with
  | None => Err (AmbiguousNode hop hostCandidates)
  | Some firstAddr =>
      reject str_eq firstAddr "" with JumpNotFound hop ;;
      try effectivePort := (if hopPort =? 0 then
                              match resolveHopPortFromCandidates cfg hostCandidates with
                              | None => Err (AmbiguousNode hop hostCandidates)
                              | Some candPort => Ok (normalizedHostPort candPort)
                              end
                            else Ok hopPort) ;;
      let user := if str_eq hopUser "" then None else Some hopUser in
      match sort_strings (List.filter (at_endpoint cfg user firstAddr effectivePort) (keys_of (Nodes cfg))) with
      | [id] => Ok id
      | [] =>
          let resolvedSpec := if str_eq hopUser "" then FormatHostPort firstAddr effectivePort else FormatNodeID hopUser firstAddr effectivePort in
          if isDirectJumpTarget resolvedSpec then Ok (OpenSSHNodePrefix +:+ resolvedSpec) else Err (JumpNotFound hop)
      | matchingNodes => Err (AmbiguousNode hop matchingNodes)
      end
  end.
Definition resolveHopFromHostCandidates (cfg : Configuration) (hop hopUser : string) (hopPort : Z) (hostCandidates : list string) : result config_error string :=
  match filterHostCandidates cfg hostCandidates hopUser hopPort with
  | [id] => Ok id
  | [] => resolveHopAddressFallback cfg hop hopUser hopPort hostCandidates
  | matched => Err (AmbiguousNode hop matched)
  end.
(** A hop that the OpenSSH configuration names. *)
Definition configured_hop (openSSH : OpenSSHParser) (hop : string) : result config_error string :=
  match GetVirtualNode openSSH hop with Err e => Err e | Ok _ => Ok (OpenSSHNodePrefix +:+ hop) end.
Definition resolveOpenSSHJumpHop (openSSH : OpenSSHParser) (hop : string) : result config_error string :=
  let cleanHop := trim_prefix hop OpenSSHNodePrefix in
  if parser_loaded openSSH && HasHost openSSH cleanHop then configured_hop openSSH cleanHop
  else if isDirectJumpTarget cleanHop then
    match parseOpenSSHHostSpec cleanHop with Err _ => Err (JumpInvalid cleanHop) | Ok _ => Ok (OpenSSHNodePrefix +:+ cleanHop) end
  else Err (JumpNotFound hop).
Definition resolveLocalOrDirectJumpHop (cfg : Configuration) (openSSH : OpenSSHParser) (hop : string) : result config_error string :=
  match buildIndexes cfg false with
  | Err e => Err (AliasExists (conflict_alias e) (conflict_owner e))
  | Ok ix =>
      match resolveHopExactNodeMatch cfg ix hop with
      | Some res => res
      | None =>
          let parsed := parseOpenSSHHostSpec hop in
          let candidates := match parsed with Ok s => collectHostCandidates cfg ix (spec_host s) | Err _ => [] end in
          match parsed, candidates with
          | Ok s, _ :: _ => resolveHopFromHostCandidates cfg hop (spec_user s) (spec_port s) candidates
          | _, _ =>
              if parser_loaded openSSH && HasHost openSSH hop then configured_hop openSSH hop
              else if isDirectJumpTarget hop then
                match parsed with Err _ => Err (JumpInvalid hop) | Ok _ => Ok (OpenSSHNodePrefix +:+ hop) end
              else Err (JumpNotFound hop)
          end
      end
  end.
Definition resolveSingleJumpHopWithConfig (cfg : Configuration) (openSSH : OpenSSHParser) (hop : string) : result config_error string :=
  if has_prefix hop OpenSSHNodePrefix then resolveOpenSSHJumpHop openSSH hop else resolveLocalOrDirectJumpHop cfg openSSH hop.
Fixpoint resolve_hops (cfg : Configuration) (openSSH : OpenSSHParser) (rawHops : list string) : result config_error (list string) :=
  match rawHops with
  | [] => Ok []
  | rawHop :: rawHops =>
      let hop := trim_space rawHop in
      if str_eq hop "" || equal_fold hop "none" then resolve_hops cfg openSSH rawHops
      else
        try resolved := resolveSingleJumpHopWithConfig cfg openSSH hop ;;
        try rest := resolve_hops cfg openSSH rawHops ;;
        Ok (resolved :: rest)
  end.
Definition ResolveProxyJumpChainWithConfig (cfg : Configuration) (openSSH : OpenSSHParser) (jumpChain : string) : result config_error string :=
  let trimmed := trim_space jumpChain in
  if str_eq trimmed "" || equal_fold trimmed "none" then Ok ""
  else try hops := resolve_hops cfg openSSH (split_on "," trimmed) ;; Ok (join "," hops).
Definition ResolveProxyJumpChain (r : Repo) (jumpChain : string) : result config_error string :=
  ResolveProxyJumpChainWithConfig (provider_Snapshot (r_provider r)) (ssh_of r) jumpChain.

(** The different jump chains of the nodes at a place. *)
Definition jumps_at (cfg : Configuration) (addr : string) (port : Z) : list string :=
  remove_dups (omap (fun nid =>
    match node_host cfg nid with
    | Some (n, h) => if str_eq (host_address h) addr && (normalizedHostPort (Port h) =? normalizedHostPort port) then Some (trim_space (ProxyJump n)) else None
    | None => None
    end) (keys_of (Nodes cfg))).
Definition resolveJumpForNode (r : Repo) (cfg : Configuration) (target : ConnectionTarget) (info : canonicalTargetInfo) (canonicalAddr : string) (port : Z)
    : result config_error string :=
  if HasProxyJump target then
    if str_eq (ct_ProxyJump target) "" then Ok "" else ResolveProxyJumpChainWithConfig cfg (ssh_of r) (ct_ProxyJump target)
  else match jumps_at cfg canonicalAddr port with
       | [] => if str_eq (ci_ProxyJump info) "" then Ok "" else ResolveProxyJumpChainWithConfig cfg (ssh_of r) (ci_ProxyJump info)
       | [j] => Ok j
       | _ => Err (AmbiguousJump (FormatHostPort canonicalAddr (normalizedHostPort port)))
       end.

(** * Resolution without changes *)
Definition record_alias (r : Repo) (nodeID alias : string) : Repo :=
  set_provider r (SetNodeOpenSSHAlias (r_provider r) nodeID alias).

(** The alias that was found is recorded in the session before the node is looked at. *)
Definition buildMatchedResolvedTarget (r : Repo) (matchedID baseID openSSHAlias : string) (target : ConnectionTarget) : Repo * result config_error ResolvedTarget :=
  let r := record_alias r matchedID openSSHAlias in
  (r,
   try nhi := repo_Resolve r matchedID ;;
   let '(node, host, ident) := nhi in
   let user := if str_eq (User ident) "" then match resolveEffectiveUser target "" "" with Ok u => u | Err _ => "" end else User ident in
   let jump :=
     if HasProxyJump target then
       let j := trim_space (ct_ProxyJump target) in
       if str_eq j "" then j else match ResolveProxyJumpChain r j with Ok resolved => resolved | Err _ => j end
     else ProxyJump node in
   let alias := if str_eq openSSHAlias "" then effectiveNodeOpenSSHAlias r matchedID node else openSSHAlias in
   let alias := if str_eq alias "" && has_prefix matchedID OpenSSHNodePrefix then resolveOpenSSHAliasName (ssh_of r) matchedID else alias in
   Ok (mkResolved matchedID matchedID baseID (host_address host) (normalizedHostPort (Port host)) user jump (KeyPath ident) alias false)).

Definition resolvePendingNode (r : Repo) (nodeID : string) : option (Node * Host * Identity) :=
  if str_eq nodeID "" then None
  else match r_pending r !! nodeID with
       | None => None
       | Some pending => match Resolve pending nodeID with Ok nhi => Some nhi | Err _ => None end
       end.
Definition buildCreatedResolvedTargetWithUserPort (r : Repo) (cfg : Configuration) (info : canonicalTargetInfo) (effectiveUser : string) (effectivePort : Z)
    (target : ConnectionTarget) : Repo * result config_error ResolvedTarget :=
  let targetNodeID := FormatNodeID effectiveUser (ci_Address info) effectivePort in
  if bool_decide (is_Some (Nodes cfg !! targetNodeID)) then
    buildMatchedResolvedTarget r targetNodeID (if str_eq (ci_BaseNodeID info) "" then targetNodeID else ci_BaseNodeID info) (ci_OpenSSHAlias info) target
  else
    let jump := match resolveJumpForNode r cfg target info (ci_Address info) effectivePort with
                | Ok j => j
                | Err _ => if HasProxyJump target then
                             let j := trim_space (ct_ProxyJump target) in if equal_fold j "none" then "" else j
                           else ""
                end in
    let keyPath := if str_eq (ci_IdentityFile info) "" then "" else ToAbsolutePath (ci_IdentityFile info) in
    let '(jump, keyPath, alias) :=
      match resolvePendingNode r targetNodeID with
      | Some (pNode, _, pIdent) =>
          (if negb (HasProxyJump target) && str_eq jump "" then ProxyJump pNode else jump,
           if str_eq keyPath "" then KeyPath pIdent else keyPath,
           if str_eq (ci_OpenSSHAlias info) "" then OpenSSHAlias pNode else ci_OpenSSHAlias info)
      | None => (jump, keyPath, ci_OpenSSHAlias info)
      end in
    (record_alias r targetNodeID alias,
     Ok (mkResolved targetNodeID "" (ci_BaseNodeID info) (ci_Address info) effectivePort effectiveUser jump keyPath alias true)).
Definition ResolveTarget (r : Repo) (target : ConnectionTarget) : Repo * result config_error ResolvedTarget :=
  let cfg := provider_Snapshot (r_provider r) in
  match buildIndexes cfg false with
  | Err e => (r, Err (AliasExists (conflict_alias e) (conflict_owner e)))
  | Ok ix =>
      match evaluateTargetDecision r cfg ix target "" with
      | Err e => (r, Err e)
      | Ok d =>
          if NeedsCreation d then buildCreatedResolvedTargetWithUserPort r cfg (Canonical d) (EffectiveUser d) (EffectivePort d) (NormalizedTarget d)
          else buildMatchedResolvedTarget r (td_MatchedNodeID d) (td_BaseNodeID d) (td_OpenSSHAlias d) (NormalizedTarget d)
      end
  end.

(** * Creation *)
Definition hosts_at (cfg : Configuration) (addr : string) (port : Z) : list string :=
  List.filter (fun href => match Hosts cfg !! href with
                | Some h => str_eq (host_address h) addr && (normalizedHostPort (Port h) =? port) | None => false end) (keys_of (Hosts cfg)).
Definition has_alias (cfg : Configuration) (href : string) : bool :=
  match Hosts cfg !! href with Some h => match elems (hAlias h) with [] => false | _ => true end | None => false end.
Definition create_host (cfg : Configuration) (addr : string) (port : Z) (targetNodeID : string) : Configuration * string :=
  let candidateRef := FormatHostPort addr port in
  let hostRef := match Hosts cfg !! candidateRef with
                 | Some existing => if negb (str_eq (host_address existing) addr) || negb (normalizedHostPort (Port existing) =? port) || has_alias cfg candidateRef
                                    then privateHostReference cfg targetNodeID else candidateRef
                 | None => candidateRef
                 end in
  (set_hosts (insert hostRef (mkHost None addr port)) cfg, hostRef).
Definition ensureMatchingHost (cfg : Configuration) (canonicalAddr : string) (port : Z) (targetNodeID : string) : result config_error (Configuration * string) :=
  let targetPort := normalizedHostPort port in
  let matching := hosts_at cfg canonicalAddr targetPort in
  match matching with
  | [] => Ok (create_host cfg canonicalAddr targetPort targetNodeID)
  | [href] =>
      if has_alias cfg href && (0 <? countNodeReferences cfg (fun candidate => str_eq (HostRef candidate) href && negb (str_eq (HostRef candidate) "")))
      then Ok (create_host cfg canonicalAddr targetPort targetNodeID) else Ok (cfg, href)
  | _ =>
      (* the first one without aliases whose name is not blank *)
      match List.find (fun href => negb (has_alias cfg href) && negb (str_eq href "")) matching with
      | Some href => Ok (cfg, href)
      | None => Err (AmbiguousHost (FormatHostPort canonicalAddr targetPort))
      end
  end.
Definition createIdentityForNode (cfg : Configuration) (opts : EnsureNodeOptions) (info : canonicalTargetInfo) (effectiveUser canonicalAddr targetNodeID : string)
    : Configuration * string :=
  let effectiveKeyPath := if str_eq (IdentityFile opts) "" then ci_IdentityFile info else IdentityFile opts in
  let identity :=
    if str_eq (eo_Password opts) "" && str_eq effectiveKeyPath "" then mkIdentity effectiveUser "" "" "" "" "auto" None None None None
    else if negb (str_eq (eo_Password opts) "") then mkIdentity effectiveUser "" "" "" (eo_Password opts) "password" None None None None
    else mkIdentity effectiveUser (ToAbsolutePath effectiveKeyPath) "" (eo_Passphrase opts) "" "key" None None None None in
  let preferred := effectiveUser +:+ "@" +:+ canonicalAddr in
  let identityRef := if bool_decide (is_Some (Identities cfg !! preferred)) then privateIdentityReference cfg targetNodeID else preferred in
  (set_identities (insert identityRef identity) cfg, identityRef).

Definition owner_among (cfg : Configuration) (p : Node -> bool) (keys : list string) : option string :=
  List.find (fun id => match Nodes cfg !! id with Some node => p node | None => false end) keys.
Fixpoint alias_by_host (cfg : Configuration) (alias : string) (hostIDs : list string) : string :=
  match hostIDs with
  | [] => ""
  | hostID :: hostIDs =>
      let found := match Hosts cfg !! hostID with
                   | Some host => if slice_contains (elems (hAlias host)) alias then owner_among cfg (fun node => str_eq (HostRef node) hostID) (keys_of (Nodes cfg)) else None
                   | None => None
                   end in
      match found with Some nodeID => nodeID | None => alias_by_host cfg alias hostIDs end
  end.
Definition findAliasInConfig (cfg : Configuration) (alias : string) : string :=
  if str_eq alias "" then ""
  else match owner_among cfg (fun node => slice_contains (elems (nAlias node)) alias) (keys_of (Nodes cfg)) with
       | Some nodeID => nodeID
       | None => alias_by_host cfg alias (keys_of (Hosts cfg))
       end.

(** What a transaction decided: the node, whether it was created, and the alias to record for it. *)
Record Ensured := mkEnsured { en_NodeID : string; en_Created : bool; en_Alias : string }.
Definition createNodeInTransaction (r : Repo) (cfg : Configuration) (opts : EnsureNodeOptions) (info : canonicalTargetInfo) (effectiveUser : string)
    (effectivePort : Z) : result config_error (Configuration * Ensured) :=
  let addr := ci_Address info in
  let id := FormatNodeID effectiveUser addr effectivePort in
  if bool_decide (is_Some (Nodes cfg !! id)) then Ok (cfg, mkEnsured id false (ci_OpenSSHAlias info))
  else
    try ch := ensureMatchingHost cfg addr effectivePort id ;;
    let '(cfg, hostRef) := ch in
    try finalJump := resolveJumpForNode r cfg (eo_Target opts) info addr effectivePort ;;
    let '(cfg, identityRef) := createIdentityForNode cfg opts info effectiveUser addr id in
    let trimmedAlias := trim_space (eo_Alias opts) in
    let owner := findAliasInConfig cfg trimmedAlias in
    reject negb (str_eq (eo_Alias opts) "") && negb (str_eq owner "") && negb (str_eq owner id) with AliasExists trimmedAlias owner ;;
    let node := mkNode (if str_eq (eo_Alias opts) "" then None else Some [trimmedAlias])
                  (match eo_Tags opts with [] => None | tags => Some tags end) hostRef identityRef finalJump
                  (if str_eq (eo_SudoMode opts) "" then "auto" else eo_SudoMode opts) (eo_SuPwd opts) None "" None None (ci_OpenSSHAlias info) in
    Ok (set_nodes (insert id node) cfg, mkEnsured id true (ci_OpenSSHAlias info)).

Definition with_target (opts : EnsureNodeOptions) (target : ConnectionTarget) : EnsureNodeOptions :=
  mkEnsure target (DefaultUser opts) (eo_Password opts) (IdentityFile opts) (eo_Passphrase opts) (eo_Alias opts) (eo_Tags opts) (eo_SudoMode opts) (eo_SuPwd opts).
Definition ensureTargetInTransaction (r : Repo) (opts : EnsureNodeOptions) (explicitDefaultUser : string) (cfg : Configuration)
    : result config_error (Configuration * Ensured) :=
  match buildIndexes cfg false with
  | Err e => Err (AliasExists (conflict_alias e) (conflict_owner e))
  | Ok ix =>
      try d := evaluateTargetDecision r cfg ix (eo_Target opts) explicitDefaultUser ;;
      if NeedsCreation d then createNodeInTransaction r cfg (with_target opts (NormalizedTarget d)) (Canonical d) (EffectiveUser d) (EffectivePort d)
      else Ok (cfg, mkEnsured (td_MatchedNodeID d) false (td_OpenSSHAlias d))
  end.
(** The node a target is already, with the alias to record, or none. *)
Definition findExistingNodeFast (r : Repo) (target : ConnectionTarget) (explicitDefaultUser : string) : result config_error (option (string * string)) :=
  let snapshot := provider_Snapshot (r_provider r) in
  match buildIndexes snapshot false with
  | Err e => Err (AliasExists (conflict_alias e) (conflict_owner e))
  | Ok ix =>
      try d := evaluateTargetDecision r snapshot ix target explicitDefaultUser ;;
      Ok (if NeedsCreation d || str_eq (td_MatchedNodeID d) "" then None else Some (td_MatchedNodeID d, td_OpenSSHAlias d))
  end.
End Targets.

(** * Ensured and prepared connections *)
Section Ensure.
Context `{Alg : SshOptions.Algorithms} `{Ver : Versions} `{Ord : KeyOrder} `{Rx : RegexpCompile} `{Usr : CurrentUser} `{Home : UserHome} `{Cwd : WorkingDirectory}.

Record EnsureNodeResult := mkEnsureResult { er_NodeID : string; er_Created : bool; er_Applied : bool; er_Durable : bool; er_Version : string }.
Definition existing_node (id : string) : EnsureNodeResult := mkEnsureResult id false false false "".

Definition ensure_edit (r : Repo) (opts : EnsureNodeOptions) (cfg : Configuration) : result edit_error Configuration :=
  map_err Unresolved (try res := ensureTargetInTransaction r opts (trim_space (DefaultUser opts)) cfg ;; Ok (fst res)).
(** What the transaction saw of the file, and what it decided, if it came to a decision. *)
Definition ensured_in (r : Repo) (opts : EnsureNodeOptions) (d : Disk) : option Ensured :=
  match loadLocked (d_visible d) with
  | Err _ => None
  | Ok cfg => match ensureTargetInTransaction r opts (trim_space (DefaultUser opts)) (cloneConfiguration (Some (cloneConfiguration (Some cfg)))) with
              | Ok res => Some (snd res)
              | Err _ => None
              end
  end.

Definition no_result : EnsureNodeResult := mkEnsureResult "" false false false "".
Definition EnsureNodeContext (r : Repo) (d : Disk) (f : Faults) (opts : EnsureNodeOptions) : Repo * Disk * EnsureNodeResult * option commit_error :=
  let refused e := (r, d, no_result, Some (EditFailed (Unresolved e))) in
  if str_eq (trim_space (Selector (eo_Target opts))) "" then refused EmptySelector
  else match findExistingNodeFast r (eo_Target opts) (trim_space (DefaultUser opts)) with
  | Err e => refused e
  | Ok (Some (id, alias)) => (record_alias r id alias, d, existing_node id, None)
  | Ok None =>
      let ensured := if f_start f then None else ensured_in r opts d in
      let '(r, d, result, err) := commit r d f anyRevision (ensure_edit r opts) in
      let r := match ensured with Some en => record_alias r (en_NodeID en) (en_Alias en) | None => r end in
      match ensured, cr_Configuration result with
      | Some en, Some snapshot =>
          if negb (cr_Applied result) then (r, d, no_result, err)
          else
            let out := mkEnsureResult (en_NodeID en) (en_Created en) (cr_Applied result) (cr_Durable result) in
            match (if en_Created en then nodeEntityVersion snapshot (en_NodeID en) else Ok "") with
            | Err e => (r, d, out "", Some (EditFailed e))
            | Ok version => (r, d, out version, err)
            end
      | _, _ => (r, d, no_result, err)
      end
  end.

Definition PrepareNodeContext (r : Repo) (cancelled : bool) (opts : EnsureNodeOptions) : Repo * result commit_error EnsureNodeResult :=
  let refused e := (r, Err (EditFailed (Unresolved e))) in
  if cancelled then (r, Err Cancelled)
  else if str_eq (trim_space (Selector (eo_Target opts))) "" then refused EmptySelector
  else match findExistingNodeFast r (eo_Target opts) (trim_space (DefaultUser opts)) with
  | Err e => refused e
  | Ok (Some (id, alias)) => (record_alias r id alias, Ok (existing_node id))
  | Ok None =>
      let snapshot := provider_Snapshot (r_provider r) in
      match ensureTargetInTransaction r opts (trim_space (DefaultUser opts)) (cloneConfiguration (Some snapshot)) with
      | Err e => refused e
      | Ok (_, en) =>
          let r' := record_alias r (en_NodeID en) (en_Alias en) in
          match prepareConfiguration snapshot (ensure_edit r opts) with
          | Err e => (r', Err e)
          | Ok (cfg, _) =>
              let res := mkEnsureResult (en_NodeID en) (en_Created en) false false "" in
              if en_Created en then
                match registerPendingConnection r' cfg (en_NodeID en) with
                | Err e => (r', Err e)
                | Ok r'' => (r'', Ok res)
                end
              else (r', Ok res)
          end
      end
  end.
End Ensure.

(** * Lemmas: decisions *)
Section Decisions.
Context `{Ord : KeyOrder} `{Usr : CurrentUser} `{Home : UserHome} `{Cwd : WorkingDirectory}.

Lemma node_host_spec cfg id n h : node_host cfg id = Some (n, h) <-> Nodes cfg !! id = Some n /\ Hosts cfg !! HostRef n = Some h.
Proof.
  unfold node_host. destruct (Nodes cfg !! id) as [n'|]; cbn; [|by split; [|intros [? _]]]. destruct (Hosts cfg !! HostRef n') as [h'|] eqn:Eh; cbn.
  - split; [by intros [= -> ->]|]. intros [[= ->] E]. congruence.
  - split; [done|]. intros [[= ->] E]. congruence.
Qed.
(** A saved node at a place for a user. *)
Definition saved_at (cfg : Configuration) (u a : string) (p : Z) (id : string) : Prop :=
  exists n h i, Nodes cfg !! id = Some n /\ Hosts cfg !! HostRef n = Some h /\ Identities cfg !! IdentityRef n = Some i /\
    host_address h = a /\ normalizedHostPort (Port h) = normalizedHostPort p /\ normalizedIdentityUser (User i) = u.
Lemma at_endpoint_spec cfg u a p id : at_endpoint cfg (Some u) a p id = true <-> saved_at cfg u a p id.
Proof.
  unfold at_endpoint, saved_at. destruct (node_host cfg id) as [[n h]|] eqn:E.
  - apply node_host_spec in E as [Hn Hh]. destruct (Identities cfg !! IdentityRef n) as [i|] eqn:Hi.
    + rewrite !andb_true_iff, !str_eq_spec, Z.eqb_eq. split; [intros [[? ?] ?]; by exists n, h, i|].
      intros (n' & h' & i' & E1 & E2 & E3 & ?). rewrite Hn in E1. injection E1 as <-. rewrite Hh in E2. injection E2 as <-.
      rewrite Hi in E3. injection E3 as <-. naive_solver.
    + split; [done|]. intros (n' & h' & i' & E1 & E2 & E3 & ?). congruence.
  - split; [done|]. intros (n & h & i & Hn & Hh & _). by rewrite (proj2 (node_host_spec cfg id n h) (conj Hn Hh)) in E.
Qed.
Lemma findMatchingNodes_spec cfg u a p id : id ∈ findMatchingNodes cfg u a p <-> saved_at cfg u a p id.
Proof.
  unfold findMatchingNodes. rewrite sort_strings_elem, list_elem_of_In, filter_In, <- list_elem_of_In, keys_elem, at_endpoint_spec.
  split; [by intros [_ ?]|]. intros H. split; [|done]. destruct H as (n & _ & _ & Hn & _). by exists n.
Qed.

Lemma narrow_subset aliases sels : forall matches x, x ∈ narrowMatchingNodesBySelector matches aliases sels -> x ∈ matches.
Proof.
  induction sels as [|sel sels IH]; intros matches x; cbn [narrowMatchingNodesBySelector]; destruct (_ <=? 1)%nat; try done.
  destruct (str_eq sel ""); [apply IH|]. destruct (slice_contains matches sel) eqn:E; [intros ->%list_elem_of_singleton; by apply slice_contains_spec|].
  destruct (aliases !! sel) as [nid|]; [|apply IH]. destruct (_ && slice_contains matches nid) eqn:E2; [|apply IH].
  apply andb_true_iff in E2 as [_ E2]. intros ->%list_elem_of_singleton. by apply slice_contains_spec.
Qed.

(** What an explicit decision rests on. *)
Record explicit_decision (r : Repo) (cfg : Configuration) (target : ConnectionTarget) (u : string) (d : targetDecision) : Prop := {
  xd_target : NormalizedTarget d = target;
  xd_user : resolveEffectiveUser target u (ci_DefaultUser (Canonical d)) = Ok (EffectiveUser d);
  xd_port : EffectivePort d = if HasPort target then ct_Port target else normalizedHostPort (ci_Port (Canonical d));
  xd_node : NeedsCreation d = false ->
    saved_at cfg (EffectiveUser d) (ci_Address (Canonical d)) (EffectivePort d) (td_MatchedNodeID d) \/
    (exists spec, td_MatchedNodeID d = OpenSSHNodePrefix +:+ spec /\ virtual_is r spec (EffectiveUser d) (EffectivePort d) = true);
  xd_none : NeedsCreation d = true -> forall id, ~ saved_at cfg (EffectiveUser d) (ci_Address (Canonical d)) (EffectivePort d) id
}.

Lemma matchVirtual_spec r sel u p nid alias : matchOpenSSHVirtualNode r sel u p = Some (nid, alias) ->
  exists spec, nid = OpenSSHNodePrefix +:+ spec /\ virtual_is r spec u p = true.
Proof.
  unfold matchOpenSSHVirtualNode. destruct (strip_prefix OpenSSHNodePrefix sel) as [rest|].
  - destruct (str_eq (trim_space rest) ""); [done|]. destruct (virtual_is _ _ _ _) eqn:E; [|done]. intros [= <- <-]. eauto.
  - destruct (negb (parser_loaded _)); [done|]. destruct (_ || _ || _); [done|]. destruct (negb (HasHost _ _)); [done|].
    destruct (virtual_is _ _ _ _) eqn:E; [|done]. intros [= <- <-]. eauto.
Qed.

Lemma narrow_nil aliases sels : forall matches, narrowMatchingNodesBySelector matches aliases sels = [] -> matches = [].
Proof.
  induction sels as [|sel sels IH]; intros matches; cbn [narrowMatchingNodesBySelector]; destruct (_ <=? 1)%nat eqn:E; try done.
  destruct (str_eq sel ""); [apply IH|]. destruct (slice_contains matches sel); [done|]. destruct (aliases !! sel) as [nid|]; [|apply IH].
  destruct (_ && _); [done|apply IH].
Qed.

Lemma explicit_spec r cfg ix sel target u d : evaluateExplicitTargetDecision r cfg ix sel target u = Ok d -> explicit_decision r cfg target u d.
Proof.
  unfold evaluateExplicitTargetDecision. intros H. apply result_bind_ok in H as (info & _ & H). apply bind_reject_ok in H as [_ H].
  apply result_bind_ok in H as (eu & Hu & H). set (ep := if HasPort target then _ else _) in *.
  set (matches := findMatchingNodes cfg eu (ci_Address info) ep) in *.
  destruct (narrowMatchingNodesBySelector matches (snd ix) [sel; trim_space (RawSelector target)]) as [|id [|id2 l]] eqn:En; [| |done].
  - apply narrow_nil in En. assert (forall id, ~ saved_at cfg eu (ci_Address info) ep id) as Hno.
    { intros id Hs. apply findMatchingNodes_spec in Hs. fold matches in Hs. rewrite En in Hs. by apply elem_of_nil in Hs. }
    destruct (matchOpenSSHVirtualNode r sel eu ep) as [[nid alias]|] eqn:Ev; injection H as <-; constructor; simpl; try done.
    intros _. right. by eapply matchVirtual_spec.
  - injection H as <-. constructor; simpl; try done. intros _. left. apply findMatchingNodes_spec. eapply narrow_subset. fold matches. rewrite En. set_solver.
Qed.
End Decisions.

(** * What is explicit *)
Section Explicit.
Context `{Ord : KeyOrder} `{Usr : CurrentUser} `{Home : UserHome} `{Cwd : WorkingDirectory}.

Lemma snapshot_node p id : Nodes (provider_Snapshot p) !! id = cloneNode <$> Nodes (p_cfg p) !! id.
Proof. unfold provider_Snapshot, cloneConfiguration. simpl. by rewrite lookup_fmap. Qed.
Lemma snapshot_host p id : Hosts (provider_Snapshot p) !! id = Hosts (p_cfg p) !! id.
Proof. unfold provider_Snapshot, cloneConfiguration. simpl. rewrite lookup_fmap. by destruct (Hosts (p_cfg p) !! id). Qed.
Lemma snapshot_identity p id : Identities (provider_Snapshot p) !! id = identity_Clone <$> Identities (p_cfg p) !! id.
Proof. unfold provider_Snapshot, cloneConfiguration. simpl. by rewrite lookup_fmap. Qed.

(** A saved node resolves to its place and user. *)
Lemma saved_resolves p u a port id n h i : saved_at (provider_Snapshot p) u a port id -> Resolve p id = Ok (n, h, i) ->
  host_address h = a /\ normalizedHostPort (Port h) = normalizedHostPort port /\ normalizedIdentityUser (User i) = u.
Proof.
  intros (n' & h' & i' & Hn & Hh & Hi & Ha & Hp & Hu) Hr. rewrite snapshot_node in Hn. unfold Resolve in Hr.
  destruct (Nodes (p_cfg p) !! id) as [n0|]; [|done]. injection Hn as <-. change (HostRef (cloneNode n0)) with (HostRef n0) in Hh. change (IdentityRef (cloneNode n0)) with (IdentityRef n0) in Hi.
  rewrite snapshot_host in Hh. rewrite snapshot_identity in Hi.
  rewrite Hh in Hr. destruct (Identities (p_cfg p) !! IdentityRef n0) as [i0|]; [|done]. injection Hi as <-. by injection Hr as _ <- <-.
Qed.
Lemma Resolve_marked p id alias id' : Resolve (SetNodeOpenSSHAlias p id alias) id' = match Resolve p id' with
  | Ok (n, h, i) => Ok (match Nodes (p_cfg p) !! id' with Some node => marked (SetNodeOpenSSHAlias p id alias) id' node | None => n end, h, i) | Err e => Err e end.
Proof.
  assert (p_cfg (SetNodeOpenSSHAlias p id alias) = p_cfg p /\ p_openSSH (SetNodeOpenSSHAlias p id alias) = p_openSSH p) as [Ec Eo]
    by (unfold SetNodeOpenSSHAlias; by destruct (_ || _)).
  unfold Resolve. rewrite Ec, Eo. destruct (Nodes (p_cfg p) !! id') as [n|] eqn:En.
  - destruct (Hosts (p_cfg p) !! HostRef n); [|done]. by destruct (Identities (p_cfg p) !! IdentityRef n).
  - destruct (strip_prefix _ _); [|done]. by destruct (GetVirtualNode _ _) as [[[? ?] ?]|].
Qed.
Lemma record_pending r id alias : r_pending (record_alias r id alias) = r_pending r.
Proof. done. Qed.

(** No saved node has an identifier of virtual ones. *)
Definition prefix_reserved (cfg : Configuration) : Prop := forall id, is_Some (Nodes cfg !! id) -> has_prefix id OpenSSHNodePrefix = false.

Lemma virtual_resolves r spec u port n h i : prefix_reserved (provider_Snapshot (r_provider r)) -> virtual_is r spec u port = true ->
  Resolve (r_provider r) (OpenSSHNodePrefix +:+ spec) = Ok (n, h, i) -> User i = u /\ normalizedHostPort (Port h) = port.
Proof.
  intros Hres Hv Hr. unfold Resolve in Hr. destruct (Nodes (p_cfg (r_provider r)) !! (OpenSSHNodePrefix +:+ spec)) as [n0|] eqn:En.
  - specialize (Hres (OpenSSHNodePrefix +:+ spec)). rewrite snapshot_node, En in Hres. rewrite has_prefix_app in Hres. by discriminate Hres; eexists.
  - rewrite (proj2 (strip_prefix_spec OpenSSHNodePrefix _ spec) eq_refl) in Hr. unfold virtual_is in Hv. unfold ssh_of in Hv.
    rewrite Hr in Hv. apply andb_true_iff in Hv as [->%str_eq_spec ->%Z.eqb_eq]. done.
Qed.

Lemma effective_explicit t u c v : HasUser t = true -> trim_space (ct_User t) <> "" -> resolveEffectiveUser t u c = Ok v -> v = trim_space (ct_User t).
Proof. intros H1 H2. unfold resolveEffectiveUser. rewrite H1, (proj2 (str_eq_false _ _) H2). simpl. by intros [= <-]. Qed.
Lemma normalized_user s : trim_space s <> "" -> normalizedIdentityUser (trim_space s) = trim_space s.
Proof. intros H. unfold normalizedIdentityUser. by rewrite trim_space_idem, (proj2 (str_eq_false _ _) H). Qed.
Lemma normalized_port p : 0 < p -> normalizedHostPort p = p.
Proof. intros H. unfold normalizedHostPort. by rewrite (proj2 (Z.eqb_neq p 0)) by lia. Qed.
Lemma normalized_port_idem p : normalizedHostPort (normalizedHostPort p) = normalizedHostPort p.
Proof. unfold normalizedHostPort. destruct (Z.eqb_spec p 0) as [->|H]; [done|]. by rewrite (proj2 (Z.eqb_neq p 0)). Qed.

(** The connection a matched node gives. *)
Lemma matched_result r id base alias t r' rt : buildMatchedResolvedTarget r id base alias t = (r', Ok rt) -> r_pending r !! id = None ->
  exists n h i, Resolve (r_provider r) id = Ok (n, h, i) /\ rt_NodeID rt = id /\ rt_Host rt = host_address h /\
    rt_Port rt = normalizedHostPort (Port h) /\
    (rt_User rt = User i \/ User i = "" /\ (rt_User rt = "" \/ resolveEffectiveUser t "" "" = Ok (rt_User rt))) /\ Created rt = false.
Proof.
  unfold buildMatchedResolvedTarget. intros [= _ H] Hp. apply result_bind_ok in H as ([[n h] i] & Hr & H). injection H as <-.
  unfold repo_Resolve, connectionProvider in Hr. rewrite record_pending, Hp in Hr. simpl in Hr. rewrite Resolve_marked in Hr.
  destruct (Resolve (r_provider r) id) as [[[n0 h0] i0]|] eqn:E; [|done]. injection Hr as _ <- <-. exists n0, h0, i0. split_and!; try done. simpl.
  destruct (str_eq (User i0) "") eqn:Eu; str_facts; [|by left]. right. split; [done|]. destruct (resolveEffectiveUser t "" ""); [by right|by left].
Qed.

Lemma decided r cfg ix target u d : evaluateTargetDecision r cfg ix target u = Ok d ->
  let t := (normalizeTargetSelector cfg ix target).1 in
  HasUser t = true \/ HasPort t = true ->
  exists d0, explicit_decision r cfg t u d0 /\ NormalizedTarget d = t /\ EffectiveUser d = EffectiveUser d0 /\ EffectivePort d = EffectivePort d0 /\ Canonical d = Canonical d0 /\
    ((NeedsCreation d = NeedsCreation d0 /\ td_MatchedNodeID d = td_MatchedNodeID d0 /\
      (NeedsCreation d = true -> Nodes cfg !! FormatNodeID (EffectiveUser d) (ci_Address (Canonical d)) (EffectivePort d) = None)) \/
     NeedsCreation d = false /\ td_MatchedNodeID d = FormatNodeID (EffectiveUser d) (ci_Address (Canonical d)) (EffectivePort d) /\
     is_Some (Nodes cfg !! td_MatchedNodeID d)).
Proof.
  unfold evaluateTargetDecision. destruct (normalizeTargetSelector cfg ix target) as [t sel]. simpl. intros H Hx. apply bind_reject_ok in H as [_ H].
  apply result_bind_ok in H as (d0 & Hd & H).
  assert (negb (HasUser t) && negb (HasPort t) = false) as E by (destruct Hx as [-> | ->]; [done|apply andb_false_r]). rewrite E in Hd.
  pose proof (explicit_spec _ _ _ _ _ _ _ Hd) as X. exists d0. split; [done|].
  destruct (NeedsCreation d0 && _) eqn:Ec; injection H as <-; simpl; (split; [apply X|]); split_and!; try done; [right|left].
  { apply andb_true_iff in Ec as [_ Ec]. by apply bool_decide_eq_true in Ec. }
  split; [done|]. split; [done|]. intros En. rewrite En in Ec. simpl in Ec. apply bool_decide_eq_false in Ec. by apply eq_None_not_Some.
Qed.

(** C5: A connection is made as the user and to the port that were given explicitly, by flags or within the
    selector, whatever nodes are saved; the only exception is a saved node that bears the
    identifier of the connection that was asked for. *)
Theorem explicit_intent_respected r target r' rt ix
    (Hix : buildIndexes (provider_Snapshot (r_provider r)) false = Ok ix)
    (H : ResolveTarget r target = (r', Ok rt))
    (Hp : r_pending r !! rt_NodeID rt = None) (Hres : prefix_reserved (provider_Snapshot (r_provider r))) :
  let t := (normalizeTargetSelector (provider_Snapshot (r_provider r)) ix target).1 in
  let user := trim_space (ct_User t) in
  ((exists u a p, rt_NodeID rt = FormatNodeID u a p /\ (HasUser t = true -> user <> "" -> u = user) /\ (HasPort t = true -> p = ct_Port t)) /\
   is_Some (Nodes (provider_Snapshot (r_provider r)) !! rt_NodeID rt)) \/
  ((HasUser t = true -> user <> "" -> normalizedIdentityUser (rt_User rt) = user) /\
   (HasPort t = true -> 0 < ct_Port t -> rt_Port rt = ct_Port t)).
Proof.
  unfold ResolveTarget in H. rewrite Hix in H. set (cfg := provider_Snapshot (r_provider r)) in *.
  destruct (evaluateTargetDecision r cfg ix target "") as [d|] eqn:Ed; [|done]. intros t user.
  destruct (HasUser t || HasPort t) eqn:Hx; [|right; apply orb_false_iff in Hx as [? ?]; split; congruence]. apply orb_true_iff in Hx.
  destruct (decided _ _ _ _ _ _ Ed Hx) as (d0 & [_ Xu Xp Xn _] & Ht & Eu & Ep & Ec & Hd). fold t in Xu, Xp, Ht. rewrite <- Ec in *. rewrite <- Eu, <- Ep in *.
  assert (HasUser t = true -> user <> "" -> EffectiveUser d = user) as Huser by (intros; by eapply effective_explicit).
  assert (HasPort t = true -> EffectivePort d = ct_Port t) as Hport by (intros Hpt; by rewrite Xp, Hpt).
  destruct (NeedsCreation d) eqn:En.
  - destruct Hd as [(E1 & E2 & E3)|[E1 _]]; [|done]. unfold buildCreatedResolvedTargetWithUserPort in H. rewrite E3 in H by done.
    destruct (resolvePendingNode _ _) as [[[? ?] ?]|]; cbn in H; injection H as <- <-; right; simpl;
      (split; [intros HU HN; rewrite Huser by done; by apply normalized_user|by auto]).
  - assert (rt_NodeID rt = td_MatchedNodeID d) as Hid by (unfold buildMatchedResolvedTarget in H; injection H as _ H; by apply result_bind_ok in H as ([[? ?] ?] & _ & [= <-])).
    rewrite Hid in Hp. apply matched_result in H as (n & h & i & Hr & _ & _ & Hrp & Hru & _); [|done].
    destruct Hd as [(E1 & E2 & _)|(_ & E2 & E3)].
    + right. rewrite <- E2 in Xn. assert (normalizedIdentityUser (User i) = EffectiveUser d \/ User i = EffectiveUser d) as Hui.
      { destruct (Xn (eq_sym E1)) as [S|(spec & Es & Hv)]; [left; by eapply saved_resolves|right]. rewrite Es in Hr. by eapply virtual_resolves. }
      assert (normalizedHostPort (Port h) = normalizedHostPort (EffectivePort d)) as Hph.
      { destruct (Xn (eq_sym E1)) as [S|(spec & Es & Hv)]; [by eapply saved_resolves|]. rewrite Es in Hr.
        destruct (virtual_resolves _ _ _ _ _ _ _ Hres Hv Hr) as [_ <-]. by rewrite normalized_port_idem. }
      split; [|intros HP H0; rewrite Hrp, Hph, Hport by done; by apply normalized_port].
      intros HU HN. rewrite (Huser HU HN) in Hui. destruct Hru as [->|[E [->|Hf]]].
      * destruct Hui as [|E]; [done|]. rewrite E. by apply normalized_user.
      * rewrite E in Hui. destruct Hui as [?|<-]; [done|]. by destruct HN.
      * rewrite Ht in Hf. rewrite (effective_explicit _ _ _ _ HU HN Hf). by apply normalized_user.
    + left. rewrite Hid. split; [|done]. exists (EffectiveUser d), (ci_Address (Canonical d)), (EffectivePort d). by split_and!.
Qed.
End Explicit.

(** * Creation *)
Section Creation.
Context `{Ord : KeyOrder} `{Usr : CurrentUser} `{Home : UserHome} `{Cwd : WorkingDirectory}.

Lemma key_filter {A} (f : string -> bool) (m : gmap string A) k : k ∈ List.filter f (keys_of m) <-> is_Some (m !! k) /\ f k = true.
Proof. by rewrite list_elem_of_In, filter_In, <- list_elem_of_In, keys_elem. Qed.

Lemma hosts_at_elem cfg addr port k h : Hosts cfg !! k = Some h -> host_address h = addr -> normalizedHostPort (Port h) = port -> k ∈ hosts_at cfg addr port.
Proof. intros Hh Ha Hp. apply key_filter. cbn beta. rewrite Hh. split; [done|]. by rewrite Ha, Hp, str_eq_refl, Z.eqb_refl. Qed.
Lemma hosts_at_spec cfg addr port k : k ∈ hosts_at cfg addr port -> exists h, Hosts cfg !! k = Some h /\ host_address h = addr /\ normalizedHostPort (Port h) = port.
Proof.
  intros [[h Hh] Hf]%key_filter. cbn beta in Hf. rewrite Hh in Hf. apply andb_true_iff in Hf as [?%str_eq_spec ?%Z.eqb_eq]. by exists h.
Qed.

(** A host is found or made under a name of its own. *)
Definition host_made (cfg : Configuration) (addr : string) (port : Z) (cfg' : Configuration) (href : string) : Prop :=
  (cfg' = cfg /\ exists h, Hosts cfg !! href = Some h /\ host_address h = addr /\ normalizedHostPort (Port h) = port) \/
  (Hosts cfg !! href = None /\ cfg' = set_hosts (insert href (mkHost None addr port)) cfg).

Lemma create_host_fresh cfg addr port id : (forall k, k ∈ hosts_at cfg addr port -> has_alias cfg k = true) ->
  host_made cfg addr port (create_host cfg addr port id).1 (create_host cfg addr port id).2.
Proof.
  intros Hal. right. unfold create_host. simpl. set (href := match Hosts cfg !! FormatHostPort addr port with Some _ => _ | None => _ end).
  assert (Hosts cfg !! href = None) as E; [|by rewrite E]. subst href. destruct (Hosts cfg !! FormatHostPort addr port) as [h|] eqn:Eh; [|done].
  destruct (negb (str_eq (host_address h) addr) || _ || _) eqn:Ec; [apply privateReference_fresh|]. exfalso.
  apply orb_false_iff in Ec as [[E1 E2]%orb_false_iff E3]. apply negb_false_iff, str_eq_spec in E1. apply negb_false_iff, Z.eqb_eq in E2.
  rewrite (Hal (FormatHostPort addr port)) in E3; [done|]. by eapply hosts_at_elem.
Qed.
Lemma ensureMatchingHost_spec cfg addr port id cfg' href : ensureMatchingHost cfg addr port id = Ok (cfg', href) ->
  host_made cfg addr (normalizedHostPort port) cfg' href.
Proof.
  unfold ensureMatchingHost. set (p := normalizedHostPort port). pose proof (hosts_at_spec cfg addr p) as Hs. pose proof (create_host_fresh cfg addr p id) as Hc.
  destruct (hosts_at cfg addr p) as [|k [|k2 l]].
  - intros Hh%Ok_inj. rewrite <- (f_equal fst Hh : _ = cfg'), <- (f_equal snd Hh : _ = href). apply Hc. set_solver.
  - destruct (has_alias cfg k) eqn:Ha; simpl.
    + destruct (0 <? _); [|intros [= <- <-]; left; split; [done|]; apply Hs; set_solver].
      intros Hh%Ok_inj. rewrite <- (f_equal fst Hh : _ = cfg'), <- (f_equal snd Hh : _ = href). apply Hc. by intros k' ->%list_elem_of_singleton.
    + intros [= <- <-]. left. split; [done|]. apply Hs. set_solver.
  - destruct (List.find _ _) as [k'|] eqn:Ef; [|done]. intros [= <- <-]. left. split; [done|]. apply Hs.
    apply find_some in Ef as [Ef _]. by apply list_elem_of_In.
Qed.

Lemma made_host cfg addr port cfg' href : host_made cfg addr port cfg' href ->
  Nodes cfg' = Nodes cfg /\ Identities cfg' = Identities cfg /\ exists h, Hosts cfg' !! href = Some h /\ normalizedHostPort (Port h) = normalizedHostPort port /\
    (host_address h = addr \/ Address h = addr).
Proof.
  intros [[-> (h & Hh & Ha & Hp)]|[Hn ->]].
  - split; [done|]. split; [done|]. exists h. rewrite <- Hp, normalized_port_idem. auto.
  - split; [done|]. split; [done|]. exists (mkHost None addr port). simpl. rewrite lookup_insert_eq. auto.
Qed.
(** The nodes there are keep the entries they refer to. *)
Definition same_view (cfg cfg' : Configuration) : Prop :=
  Nodes cfg' = Nodes cfg /\ Identities cfg' = Identities cfg /\ forall id n, Nodes cfg !! id = Some n -> Hosts cfg' !! HostRef n = Hosts cfg !! HostRef n.
Lemma made_view cfg addr port cfg' href : complete cfg -> host_made cfg addr port cfg' href -> same_view cfg cfg'.
Proof.
  intros Hc [[-> _]|[Hn ->]]; [done|]. split; [done|]. split; [done|]. intros id n Hid. simpl. rewrite lookup_insert_ne; [done|].
  intros ->. destruct (Hc _ _ Hid) as [[h Hh] _]. congruence.
Qed.
Lemma same_view_bundle cfg cfg' : same_view cfg cfg' -> others [] cfg cfg' /\ (complete cfg -> complete cfg').
Proof.
  intros (En & Ei & Eh). split.
  - intros m _. unfold bundle. rewrite En, Ei. destruct (Nodes cfg !! m) as [n|] eqn:Hn; simpl; [|done]. by rewrite (Eh _ _ Hn).
  - intros Hc id n Hn. rewrite En in Hn. rewrite (Eh _ _ Hn), Ei. by apply (Hc id).
Qed.

(** The node that is created, and where. *)
Record creation (r : Repo) (cfg : Configuration) (opts : EnsureNodeOptions) (info : canonicalTargetInfo) (user : string) (port : Z)
    (cfg' : Configuration) (id : string) : Prop := {
  cr_new : Nodes cfg !! id = None;
  cr_entries : exists cfg1 href jump iref ident node, host_made cfg (ci_Address info) (normalizedHostPort port) cfg1 href /\
    resolveJumpForNode r cfg1 (eo_Target opts) info (ci_Address info) port = Ok jump /\
    Identities cfg !! iref = None /\ User ident = user /\
    (eo_Password opts = "" -> KeyPath ident = (if str_eq (IdentityFile opts) "" then if str_eq (ci_IdentityFile info) "" then "" else ToAbsolutePath (ci_IdentityFile info)
                                                else ToAbsolutePath (IdentityFile opts))) /\
    HostRef node = href /\ IdentityRef node = iref /\ ProxyJump node = jump /\ OpenSSHAlias node = ci_OpenSSHAlias info /\
    cfg' = set_nodes (insert id node) (set_identities (insert iref ident) cfg1)
}.

Lemma createNode_spec r cfg opts info user port cfg' en : createNodeInTransaction r cfg opts info user port = Ok (cfg', en) ->
  en_NodeID en = FormatNodeID user (ci_Address info) port /\ en_Alias en = ci_OpenSSHAlias info /\
  ((en_Created en = false /\ cfg' = cfg /\ is_Some (Nodes cfg !! en_NodeID en)) \/ (en_Created en = true /\ creation r cfg opts info user port cfg' (en_NodeID en))).
Proof.
  unfold createNodeInTransaction. case_bool_decide as Hid; [intros [= <- <-]; split_and!; [done|done|by left]|].
  apply eq_None_not_Some in Hid. intros H. apply result_bind_ok in H as ([cfg1 href] & Hh & H). apply result_bind_ok in H as (jump & Hj & H).
  apply ensureMatchingHost_spec in Hh. destruct (made_host _ _ _ _ _ Hh) as (En & Ei & _).
  destruct (createIdentityForNode cfg1 _ _ _ _ _) as [cfg2 iref] eqn:Ec. apply bind_reject_ok in H as [_ H].
  set (node := mkNode _ _ _ _ _ _ _ _ _ _ _ _) in H. injection H as <- <-. simpl.
  split; [done|]. split; [done|]. right. split; [done|]. constructor; [done|]. unfold createIdentityForNode in Ec.
  set (kp := if str_eq (IdentityFile opts) "" then _ else _) in Ec. set (ident := if _ && _ then _ else _) in Ec. injection Ec as Ec Er.
  exists cfg1, href, jump, iref, ident, node. split; [exact Hh|]. split; [exact Hj|]. split.
  { rewrite <- Ei, <- Er. case_bool_decide as Hi; [apply privateReference_fresh|by apply eq_None_not_Some]. }
  split; [subst ident; by repeat case_match|]. split.
  { intros Hp. subst ident kp. rewrite Hp, str_eq_refl. cbn [andb negb].
    destruct (str_eq (IdentityFile opts) "") eqn:E1; [by destruct (str_eq (ci_IdentityFile info) "")|by rewrite ?E1]. }
  rewrite Er in Ec. rewrite <- Ec. by split_and!.
Qed.
End Creation.

(** ** A host nobody refers to changes nothing *)
Section Views.
Context `{Ord : KeyOrder} `{Usr : CurrentUser} `{Home : UserHome} `{Cwd : WorkingDirectory}.
Context (cfg cfg' : Configuration) (V : same_view cfg cfg').

Lemma view_node_host id : node_host cfg' id = node_host cfg id.
Proof. destruct V as (En & _ & Eh). unfold node_host. rewrite En. destruct (Nodes cfg !! id) as [n|] eqn:Hn; [|done]. cbn. by rewrite (Eh _ _ Hn). Qed.
Lemma view_index strict ks : forall ix, index_nodes cfg' strict ix ks = index_nodes cfg strict ix ks.
Proof.
  destruct V as (En & Ei & Eh). induction ks as [|k ks IH]; intros ix; [done|]. cbn [index_nodes].
  assert (index_node cfg' strict ix k = index_node cfg strict ix k) as ->.
  { unfold index_node. rewrite En, Ei. destruct (Nodes cfg !! k) as [n|] eqn:Hn; [|done]. by rewrite (Eh _ _ Hn). }
  destruct (index_node cfg strict ix k); [apply IH|done].
Qed.
Lemma view_indexes strict : buildIndexes cfg' strict = buildIndexes cfg strict.
Proof. unfold buildIndexes. destruct V as (-> & _ & _). by rewrite view_index. Qed.
Lemma view_endpoint u a p id : at_endpoint cfg' u a p id = at_endpoint cfg u a p id.
Proof. unfold at_endpoint. rewrite view_node_host. by destruct V as (_ & -> & _). Qed.
Lemma view_agreed {A} (eqb : A -> A -> bool) zero value cands : forall first, agreed eqb zero value cfg' first cands = agreed eqb zero value cfg first cands.
Proof.
  induction cands as [|c cands IH]; intros first; [done|]. cbn [agreed]. rewrite view_node_host. destruct (node_host cfg c) as [[n h]|]; [|done].
  rewrite !IH. done.
Qed.
Lemma view_hop_candidates hop u p cands : resolveHopFromHostCandidates cfg' hop u p cands = resolveHopFromHostCandidates cfg hop u p cands.
Proof.
  unfold resolveHopFromHostCandidates, filterHostCandidates. erewrite filter_ext; [|intros c; rewrite view_node_host; destruct V as (_ & -> & _); reflexivity].
  destruct (List.filter _ cands) as [|? [|? ?]]; try done. unfold resolveHopAddressFallback, resolveHopAddressFromCandidates, resolveHopPortFromCandidates.
  rewrite !view_agreed. destruct (agreed str_eq "" host_address cfg "" cands) as [a|]; [|done]. destruct (str_eq a ""); [done|]. cbn [reject_if result_bind].
  destruct (if p =? 0 then _ else _) as [ep|]; [|done]. cbn [result_bind]. erewrite filter_ext; [|intros c; apply view_endpoint]. by destruct V as (-> & _ & _).
Qed.
Lemma view_hop ssh hop : resolveSingleJumpHopWithConfig cfg' ssh hop = resolveSingleJumpHopWithConfig cfg ssh hop.
Proof.
  unfold resolveSingleJumpHopWithConfig. destruct (has_prefix _ _); [done|]. unfold resolveLocalOrDirectJumpHop. rewrite view_indexes.
  destruct (buildIndexes cfg false) as [ix|]; [|done]. unfold resolveHopExactNodeMatch, collectHostCandidates. destruct V as (-> & _ & _).
  destruct (if bool_decide _ then _ else _); [done|]. destruct (parseOpenSSHHostSpec hop) as [s|]; [|done].
  destruct (match snd ix !! spec_host s with Some _ => _ | None => _ end) as [|c cs]; [done|]. apply view_hop_candidates.
Qed.
Lemma view_chain ssh chain : ResolveProxyJumpChainWithConfig cfg' ssh chain = ResolveProxyJumpChainWithConfig cfg ssh chain.
Proof.
  unfold ResolveProxyJumpChainWithConfig. destruct (_ || _); [done|]. f_equal. induction (split_on "," (trim_space chain)) as [|h hs IH]; [done|].
  cbn [resolve_hops]. by rewrite IH, view_hop.
Qed.
Lemma view_jump r t info addr port : resolveJumpForNode r cfg' t info addr port = resolveJumpForNode r cfg t info addr port.
Proof.
  assert (jumps_at cfg' addr port = jumps_at cfg addr port) as E.
  { unfold jumps_at. destruct V as (En & _ & _). rewrite En. f_equal. induction (keys_of (Nodes cfg)) as [|k ks IH]; [done|].
    cbn. rewrite view_node_host, IH. done. }
  unfold resolveJumpForNode. by rewrite !view_chain, E.
Qed.
End Views.

(** ** What a creation leaves alone *)
Section Effect.
Context `{Ord : KeyOrder} `{Usr : CurrentUser} `{Home : UserHome} `{Cwd : WorkingDirectory}.

(** An ensured target, and the decision it follows. *)
Lemma ensured_spec r opts u cfg cfg' en : ensureTargetInTransaction r opts u cfg = Ok (cfg', en) ->
  exists ix d, buildIndexes cfg false = Ok ix /\ evaluateTargetDecision r cfg ix (eo_Target opts) u = Ok d /\
    ((NeedsCreation d = false /\ cfg' = cfg /\ en = mkEnsured (td_MatchedNodeID d) false (td_OpenSSHAlias d)) \/
     (NeedsCreation d = true /\ Nodes cfg !! FormatNodeID (EffectiveUser d) (ci_Address (Canonical d)) (EffectivePort d) = None /\
      en_NodeID en = FormatNodeID (EffectiveUser d) (ci_Address (Canonical d)) (EffectivePort d) /\ en_Created en = true /\
      creation r cfg (with_target opts (NormalizedTarget d)) (Canonical d) (EffectiveUser d) (EffectivePort d) cfg' (en_NodeID en))).
Proof.
  unfold ensureTargetInTransaction. destruct (buildIndexes cfg false) as [ix|]; [|done]. intros H. apply result_bind_ok in H as (d & Hd & H).
  exists ix, d. split; [done|]. split; [done|]. destruct (NeedsCreation d) eqn:En; [right|left; by injection H as <- <-].
  assert (Nodes cfg !! FormatNodeID (EffectiveUser d) (ci_Address (Canonical d)) (EffectivePort d) = None) as Hn.
  { unfold evaluateTargetDecision in Hd. destruct (normalizeTargetSelector _ _ _) as [t sel]. apply bind_reject_ok in Hd as [_ Hd].
    apply result_bind_ok in Hd as (d0 & _ & Hd). destruct (NeedsCreation d0 && _) eqn:Ec; injection Hd as <-; [done|].
    rewrite En in Ec. by apply bool_decide_eq_false, eq_None_not_Some in Ec. }
  apply createNode_spec in H as (Hid & _ & [(_ & _ & Hs)|(Hc & Hcr)]); [|done]. rewrite Hid, Hn in Hs. by destruct Hs.
Qed.

Lemma creation_others r cfg opts info u p cfg' id : complete cfg -> creation r cfg opts info u p cfg' id ->
  complete cfg' /\ others [id] cfg cfg' /\ is_Some (Nodes cfg' !! id).
Proof.
  intros Hc [Hn (cfg1 & href & jump & iref & ident & node & Hm & _ & Hi & _ & _ & Hh & Hr & _ & _ & ->)].
  pose proof (made_view _ _ _ _ _ Hc Hm) as V. pose proof (same_view_bundle _ _ V) as [O Hc1]. specialize (Hc1 Hc).
  pose proof V as (En & Ei & _). destruct (made_host _ _ _ _ _ Hm) as (_ & _ & h & Hhost & _). split; [|split].
  - intros m x. simpl. intros [[<- <-]|[Hne Hx]]%lookup_insert_Some.
    + rewrite Hh, Hr, Hhost, lookup_insert_eq. by split; eexists.
    + destruct (Hc1 m x Hx) as [Hhx Hix]. split; [done|]. destruct (decide (iref = IdentityRef x)) as [<-|Hne2]; [by rewrite lookup_insert_eq; eexists|by rewrite lookup_insert_ne].
  - eapply others_trans; [eapply others_weaken; [|exact O]; set_solver|]. eapply others_trans; [|apply others_node; set_solver].
    apply others_identity. intros m x _ Hx <-. destruct (Hc1 m x Hx) as [_ [i E]]. rewrite Ei in E. congruence.
  - simpl. rewrite lookup_insert_eq. by eexists.
Qed.

(** Entries that are kept as they are, whoever refers to them. *)
Definition keeps_entries (cfg cfg' : Configuration) : Prop :=
  Nodes cfg ⊆ Nodes cfg' /\ Hosts cfg ⊆ Hosts cfg' /\ Identities cfg ⊆ Identities cfg'.
Lemma creation_keeps r cfg opts info u p cfg' id : creation r cfg opts info u p cfg' id ->
  keeps_entries cfg cfg' /\ exists n, Nodes cfg' = <[id := n]> (Nodes cfg).
Proof.
  intros [Hn (cfg1 & href & jump & iref & ident & node & Hm & _ & Hi & _ & _ & _ & _ & _ & _ & ->)].
  assert (Nodes cfg1 = Nodes cfg /\ Hosts cfg ⊆ Hosts cfg1 /\ Identities cfg1 = Identities cfg) as (En & Eh & Ei).
  { destruct Hm as [[-> _]|[Hh ->]]; [done|]. split; [done|]. split; [by apply insert_subseteq|done]. }
  unfold keeps_entries. cbn. rewrite En, Ei. split; [|by exists node]. split_and!; [by apply insert_subseteq|done|by apply insert_subseteq].
Qed.

(** C13: Making sure of a target overwrites nothing.  The configuration stays complete; every node, host and
    identity there was is there afterwards as it was, whether or not a node refers to it, so every other
    node has the host, the user and the credentials it had; a creation adds the one node it reports, under an
    identifier no node had; and a target that is a node already changes nothing. *)
Theorem ensure_keeps_others r opts u cfg cfg' en (Hc : complete cfg) (H : ensureTargetInTransaction r opts u cfg = Ok (cfg', en)) :
  complete cfg' /\ keeps_entries cfg cfg' /\ others [en_NodeID en] cfg cfg' /\
  (if en_Created en then Nodes cfg !! en_NodeID en = None /\ exists n, Nodes cfg' = <[en_NodeID en := n]> (Nodes cfg) else cfg' = cfg).
Proof.
  apply ensured_spec in H as (ix & d & _ & _ & [(_ & -> & ->)|(_ & Hn & Hid & -> & Hcr)]); [by split_and!; try apply others_refl|].
  destruct (creation_others _ _ _ _ _ _ _ _ Hc Hcr) as (? & ? & _). destruct (creation_keeps _ _ _ _ _ _ _ _ Hcr) as [? ?]. split_and!; try done. by rewrite Hid.
Qed.

(** The options of a bare connection. *)
Definition bare_options (target : ConnectionTarget) : EnsureNodeOptions := mkEnsure target "" "" "" "" "" [] "" "".

(** C9: What is reported of a target is what ensuring it does: the same node, created or found; and a node that
    is created has the host, port, user, key, jump hosts and alias that were reported. *)
Theorem preview_is_effect r target r' rt cfg' en (Hc : complete (provider_Snapshot (r_provider r)))
    (H : ResolveTarget r target = (r', Ok rt)) (Hp : r_pending r !! rt_NodeID rt = None)
    (He : ensureTargetInTransaction r (bare_options target) "" (provider_Snapshot (r_provider r)) = Ok (cfg', en)) :
  en_NodeID en = rt_NodeID rt /\ en_Created en = Created rt /\
  (if Created rt then exists n h i, Nodes cfg' !! rt_NodeID rt = Some n /\ Hosts cfg' !! HostRef n = Some h /\ Identities cfg' !! IdentityRef n = Some i /\
     (host_address h = rt_Host rt \/ Address h = rt_Host rt) /\ normalizedHostPort (Port h) = normalizedHostPort (rt_Port rt) /\
     User i = rt_User rt /\ KeyPath i = rt_KeyPath rt /\ ProxyJump n = rt_ProxyJump rt /\ OpenSSHAlias n = rt_OpenSSHAlias rt
   else cfg' = provider_Snapshot (r_provider r)).
Proof.
  unfold ResolveTarget in H. set (cfg := provider_Snapshot (r_provider r)) in *.
  apply ensured_spec in He as (ix & d & Hix & Hd & He). rewrite Hix in H. change (eo_Target (bare_options target)) with target in Hd. rewrite Hd in H.
  destruct He as [(En & -> & ->)|(En & Hn & Hid & Hcr & Hcre)]; rewrite En in H.
  - unfold buildMatchedResolvedTarget in H. injection H as _ H. by apply result_bind_ok in H as ([[n h] i] & _ & [= <-]).
  - unfold buildCreatedResolvedTargetWithUserPort in H. rewrite (bool_decide_eq_false_2 (is_Some (Nodes cfg !! _))) in H by (by rewrite Hn; intros [? ?]). cbv zeta in H.
    assert (resolvePendingNode r (FormatNodeID (EffectiveUser d) (ci_Address (Canonical d)) (EffectivePort d)) = None) as Hpn.
    { unfold resolvePendingNode. destruct (str_eq (FormatNodeID _ _ _) ""); [done|]. assert (rt_NodeID rt = FormatNodeID (EffectiveUser d) (ci_Address (Canonical d)) (EffectivePort d)) as <-; [|by rewrite Hp].
      destruct (resolvePendingNode r _) as [[[? ?] ?]|] in H; by injection H as _ <-. }
    rewrite Hpn in H. injection H as _ <-. simpl. split; [done|]. split; [done|]. rewrite Hid in Hcre.
    destruct Hcre as [_ (cfg1 & href & jump & iref & ident & node & Hm & Hj & Hi & Hu & Hk & Hh & Hr & Hjn & Ha & ->)].
    destruct (made_host _ _ _ _ _ Hm) as (_ & _ & h & Hhost & Hport & Haddr). pose proof (made_view _ _ _ _ _ Hc Hm) as V.
    exists node, h, ident. simpl. rewrite lookup_insert_eq, Hh, Hr, lookup_insert_eq. split_and!; try done.
    + by rewrite Hport, normalized_port_idem.
    + by apply Hk.
    + rewrite Hjn. simpl in Hj. rewrite (view_jump cfg cfg1 V) in Hj. by rewrite Hj.
Qed.
End Effect.

(** ** Resolved jump hosts *)
Section Jumps.
Context `{Ord : KeyOrder} `{Usr : CurrentUser} (cfg : Configuration) (ssh : OpenSSHParser).

Lemma index_built : Nodes cfg !! "" = None -> is_ok (buildIndexes cfg false) = true.
Proof. intros Hb. pose proof (buildIndexes_inv cfg false (fun _ => Hb)) as B. destruct (buildIndexes cfg false); [done|]. by destruct B. Qed.
Lemma index_alias_node ix a n : Nodes cfg !! "" = None -> buildIndexes cfg false = Ok ix -> snd ix !! a = Some n -> n <> "" -> is_Some (Nodes cfg !! n).
Proof.
  intros Hb Hix Ha Hn. pose proof (buildIndexes_inv cfg false (fun _ => Hb)) as B. rewrite Hix in B. destruct B as [[_ _ A] _]. specialize (A a).
  rewrite Ha in A. destruct A as [[(_ & node & E & _) _]|(_ & -> & _)]; [by exists node|done].
Qed.
Lemma index_lookup_node ix k n : Nodes cfg !! "" = None -> buildIndexes cfg false = Ok ix -> n ∈ default [] (fst ix !! k) -> is_Some (Nodes cfg !! n).
Proof.
  intros Hb Hix Hk. pose proof (buildIndexes_inv cfg false (fun _ => Hb)) as B. rewrite Hix in B. destruct B as [[L _ _] _].
  apply L in Hk as (_ & node & E & _). by exists node.
Qed.

(** What a resolved hop is: a node, a host of the OpenSSH configuration, or an address. *)
Inductive resolved_hop : string -> Prop :=
  | hop_node id : is_Some (Nodes cfg !! id) -> resolved_hop id
  | hop_host spec : parser_loaded ssh = true -> HasHost ssh spec = true -> is_ok (GetVirtualNode ssh spec) = true -> resolved_hop (OpenSSHNodePrefix +:+ spec)
  | hop_direct spec : isDirectJumpTarget spec = true -> resolved_hop (OpenSSHNodePrefix +:+ spec).

Lemma configured_resolved hop s : parser_loaded ssh && HasHost ssh hop = true -> configured_hop ssh hop = Ok s -> resolved_hop s.
Proof. intros [Hl Hh]%andb_true_iff. unfold configured_hop. destruct (GetVirtualNode ssh hop) eqn:E; [|done]. intros [= <-]. apply hop_host; [done..|]. by rewrite E. Qed.
Lemma filter_host_node cands u p id : id ∈ filterHostCandidates cfg cands u p -> is_Some (Nodes cfg !! id).
Proof.
  unfold filterHostCandidates. rewrite list_elem_of_In, filter_In. intros [_ H]. destruct (node_host cfg id) as [[n h]|] eqn:E; [|done].
  apply node_host_spec in E as [E _]. by exists n.
Qed.
Lemma fallback_resolved hop u p cands s : resolveHopAddressFallback cfg hop u p cands = Ok s -> resolved_hop s.
Proof.
  unfold resolveHopAddressFallback. destruct (resolveHopAddressFromCandidates _ _) as [a|]; [|done]. intros H. apply bind_reject_ok in H as [_ H].
  apply result_bind_ok in H as (ep & _ & H). destruct (sort_strings _) as [|id [|? ?]] eqn:E; [| |done].
  - destruct (isDirectJumpTarget _) eqn:Ed; [|done]. injection H as <-. by apply hop_direct.
  - injection H as <-. apply hop_node. assert (id ∈ sort_strings (List.filter (at_endpoint cfg (if str_eq u "" then None else Some u) a ep) (keys_of (Nodes cfg)))) as Hin by (rewrite E; set_solver).
    rewrite sort_strings_elem in Hin. by apply key_filter in Hin as [? _].
Qed.
Lemma single_resolved hop s : Nodes cfg !! "" = None -> resolveSingleJumpHopWithConfig cfg ssh hop = Ok s -> resolved_hop s.
Proof.
  intros Hb. unfold resolveSingleJumpHopWithConfig. destruct (has_prefix hop _).
  { unfold resolveOpenSSHJumpHop. destruct (parser_loaded ssh && _) eqn:Ec; [by apply configured_resolved|]. destruct (isDirectJumpTarget _) eqn:Ed; [|done].
    destruct (parseOpenSSHHostSpec _); [|done]. intros [= <-]. by apply hop_direct. }
  unfold resolveLocalOrDirectJumpHop. destruct (buildIndexes cfg false) as [ix|] eqn:Hix; [|done]. destruct (resolveHopExactNodeMatch cfg ix hop) as [res|] eqn:Hx.
  { intros ->. revert Hx. unfold resolveHopExactNodeMatch. case_bool_decide as Hn; [intros [= <-]; by apply hop_node|].
    assert (match default [] (fst ix !! hop) with [] => None | [id] => Some (Ok id) | candidates => Some (Err (AmbiguousNode hop candidates)) end = Some (Ok s) -> resolved_hop s) as Hl.
    { destruct (default [] (fst ix !! hop)) as [|id [|? ?]] eqn:El; [done| |done]. intros [= <-]. apply hop_node. eapply index_lookup_node; [done..|]. rewrite El. set_solver. }
    destruct (snd ix !! hop) as [[|c nid]|] eqn:Ea; [exact Hl| |exact Hl]. intros [= <-]. apply hop_node. by eapply index_alias_node. }
  set (direct := if parser_loaded ssh && _ then _ else _). assert (direct = Ok s -> resolved_hop s) as Hd.
  { subst direct. destruct (parser_loaded ssh && _) eqn:Ec; [by apply configured_resolved|]. destruct (isDirectJumpTarget hop) eqn:Ed; [|done].
    destruct (parseOpenSSHHostSpec hop); [|done]. intros [= <-]. by apply hop_direct. }
  destruct (parseOpenSSHHostSpec hop) as [sp|]; [|exact Hd]. destruct (collectHostCandidates cfg ix (spec_host sp)) as [|c cs]; [exact Hd|].
  unfold resolveHopFromHostCandidates. destruct (filterHostCandidates _ _ _ _) as [|id [|? ?]] eqn:Ef; [by apply fallback_resolved| |done].
  intros [= <-]. apply hop_node. eapply filter_host_node. rewrite Ef. set_solver.
Qed.

(** A hop of the OpenSSH configuration is read, if the configuration has it. *)
Definition readable_hop (s : string) : Prop :=
  forall spec, s = OpenSSHNodePrefix +:+ spec -> HasHost ssh spec = true -> is_ok (GetVirtualNode ssh spec) = true.
Lemma resolved_again s : prefix_reserved cfg -> readable_hop s ->
  Nodes cfg !! "" = None -> resolved_hop s -> resolveSingleJumpHopWithConfig cfg ssh s = Ok s.
Proof.
  intros Hres Hread Hb Hs. pose proof (index_built Hb) as Hix. unfold resolveSingleJumpHopWithConfig. destruct Hs as [id Hid|spec Hl Hh Hv|spec Hd].
  - rewrite (Hres _ Hid). unfold resolveLocalOrDirectJumpHop. destruct (buildIndexes cfg false); [|done]. unfold resolveHopExactNodeMatch. by rewrite bool_decide_eq_true_2.
  - rewrite has_prefix_app. unfold resolveOpenSSHJumpHop, trim_prefix. rewrite (proj2 (strip_prefix_spec OpenSSHNodePrefix _ spec) eq_refl), Hl, Hh.
    unfold configured_hop. by destruct (GetVirtualNode ssh spec).
  - rewrite has_prefix_app. unfold resolveOpenSSHJumpHop, trim_prefix. rewrite (proj2 (strip_prefix_spec OpenSSHNodePrefix _ spec) eq_refl).
    destruct (parser_loaded ssh && _) eqn:E; [apply andb_true_iff in E as [_ E]; unfold configured_hop; specialize (Hread _ eq_refl E); by destruct (GetVirtualNode ssh spec)|].
    rewrite Hd. unfold isDirectJumpTarget in Hd. by destruct (parseOpenSSHHostSpec spec).
Qed.

Definition no_hop (hop : string) : bool := str_eq hop "" || equal_fold hop "none".
(** What keeps a name as it is within a chain. *)
Definition chain_safe (hop : string) : Prop := trim_space hop = hop /\ no_hop hop = false /\ exists_byte (Ascii.eqb ",") hop = false.

(** C31: Resolving jump hosts names only nodes that are saved, hosts of the OpenSSH configuration and addresses,
    and resolves what it has resolved to itself, so a chain that was saved is used as it is, as long as
    its names survive being written in a chain and those of its hops that the OpenSSH configuration has
    are still read from it. *)
Theorem jump_hosts_normal chain hops (Hb : Nodes cfg !! "" = None) (Hres : prefix_reserved cfg) (H : resolve_hops cfg ssh chain = Ok hops) :
  Forall resolved_hop hops /\
  (Forall chain_safe hops -> Forall readable_hop hops -> resolve_hops cfg ssh (split_on "," (join "," hops)) = Ok hops).
Proof.
  assert (Forall resolved_hop hops) as Hh.
  { revert hops H. induction chain as [|raw chain IH]; intros hops; cbn [resolve_hops]; [by intros [= <-]|].
    destruct (_ || _); [apply IH|]. intros H. apply result_bind_ok in H as (s & Hs & H). apply result_bind_ok in H as (rest & Hr & H). injection H as <-.
    constructor; [by eapply single_resolved|by apply IH]. }
  split; [done|]. intros Hsafe Hread. destruct hops as [|hop hops]; [reflexivity|]. assert (split_on "," (join "," (hop :: hops)) = hop :: hops) as ->.
  { apply (split_join ","); [done|]. eapply Forall_impl; [exact Hsafe|]. by intros x (_ & _ & ?). }
  clear H. induction (hop :: hops) as [|x xs IH]; [done|]. inversion_clear Hh as [|? ? Hx Hxs]. inversion_clear Hsafe as [|? ? (Ht & Hn & _) Hs].
  inversion_clear Hread as [|? ? Hr Hrs]. cbn [resolve_hops]. rewrite Ht. unfold no_hop in Hn. rewrite Hn. rewrite resolved_again by done. cbn [result_bind]. by rewrite IH.
Qed.
End Jumps.

(** * A saved node that is no longer what it is called *)
Section Renamed.
#[local] Existing Instance SshOptions.sample_algorithms.
#[local] Instance sample_versions : Versions.
Proof. exists (fun _ => Some "0123456789abcdef0123456789abcdef"). by intros d v [= <-]. Defined.
#[local] Instance sample_user : CurrentUser := Some "ops".
#[local] Instance sample_home : UserHome := Some "/home/ops".
#[local] Instance sample_directory : WorkingDirectory := Some "/srv".

Definition repo_of (cfg : Configuration) : Repo :=
  match newRepository (Some cfg) no_openssh false with Ok r => r | Err _ => mkRepo (newProvider None no_openssh) 0 false ∅ false end.
Definition root_target : ConnectionTarget := mkConnectionTarget "10.0.0.1" "" "root" true 0 false "" false.
(** The connection of root is saved, then its identity is given another user, the way [xops identity edit] does it,
    and then the connection of root is asked for again. *)
Definition renamed (user : string) : option (string * string) :=
  match ensureTargetInTransaction (repo_of defaultConfiguration) (bare_options root_target) "" defaultConfiguration with
  | Err _ => None
  | Ok (cfg, en) =>
      match Identities cfg !! "root@10.0.0.1", identityEntityVersion cfg "root@10.0.0.1" with
      | Some identity, Ok version =>
          let edited := mkIdentity user (KeyPath identity) (KeyFingerprint identity) (Passphrase identity) (Password identity) (AuthType identity)
                          (LoginPasswordRef identity) (PassphraseRef identity) (OTP identity) (KeyboardInteractive identity) in
          match replace_identity (mkIdentityRef "root@10.0.0.1" version) edited cfg with
          | Ok cfg => match snd (ResolveTarget (repo_of cfg) root_target) with Ok rt => Some (rt_NodeID rt, rt_User rt) | Err _ => None end
          | Err _ => None
          end
      | _, _ => None
      end
  end.

(** A user that was given explicitly does not decide when a node bears the identifier of what is asked for: after
    the identity of root at a host is edited to be another user, the connection of root to that host is made as
    that other user. *)
Theorem renamed_identity_redirects : renamed "deploy" = Some ("root@10.0.0.1:22", "deploy").
Proof. vm_compute. reflexivity. Qed.

(** * Witnesses *)
Definition sample_target : ConnectionTarget := mkConnectionTarget "root@10.0.0.9:2222" "" "" false 0 false "" false.
Definition sample_ensured := ensureTargetInTransaction (repo_of sample_config) (bare_options sample_target) "" (provider_Snapshot (r_provider (repo_of sample_config))).
Definition sample_resolved := ResolveTarget (repo_of sample_config) sample_target.
Lemma sample_complete : complete (provider_Snapshot (r_provider (repo_of sample_config))).
Proof. apply map_Forall_to_list. vm_compute. repeat constructor; eexists; reflexivity. Qed.
Lemma sample_reserved : prefix_reserved (provider_Snapshot (r_provider (repo_of sample_config))).
Proof.
  assert (map_Forall (fun id _ => has_prefix id OpenSSHNodePrefix = false) (Nodes (provider_Snapshot (r_provider (repo_of sample_config))))) as H.
  { apply map_Forall_to_list. vm_compute. repeat constructor. }
  intros id [n Hn]. exact (H id n Hn).
Qed.

Lemma explicit_intent_respected_witness :
  match snd sample_resolved with Ok rt => rt_Port rt = 2222 /\ normalizedIdentityUser (rt_User rt) = "root" | Err _ => False end.
Proof.
  assert (match snd sample_resolved with
          | Ok rt => bool_decide (Nodes (provider_Snapshot (r_provider (repo_of sample_config))) !! rt_NodeID rt = None) && bool_decide (r_pending (repo_of sample_config) !! rt_NodeID rt = None)
          | Err _ => false end = true) as E by (vm_compute; reflexivity).
  assert (is_ok (buildIndexes (provider_Snapshot (r_provider (repo_of sample_config))) false) = true) as Ei by (vm_compute; reflexivity).
  assert (match buildIndexes (provider_Snapshot (r_provider (repo_of sample_config))) false with
          | Ok ix => (normalizeTargetSelector (provider_Snapshot (r_provider (repo_of sample_config))) ix sample_target).1 | Err _ => sample_target end
          = mkConnectionTarget "10.0.0.9" "root@10.0.0.9:2222" "root" true 2222 true "" false) as En by (vm_compute; reflexivity).
  destruct (buildIndexes (provider_Snapshot (r_provider (repo_of sample_config))) false) as [ix|] eqn:Hix; [|discriminate Ei].
  pose proof (explicit_intent_respected (repo_of sample_config) sample_target (fst sample_resolved)) as H.
  destruct (snd sample_resolved) as [rt|] eqn:Er; [|discriminate E]. apply andb_true_iff in E as [E1%bool_decide_eq_true E2%bool_decide_eq_true].
  specialize (H rt ix Hix). cbv zeta in H. rewrite En in H. destruct H as [[_ [n Hn]]|[H1 H2]].
  - rewrite <- Er. unfold sample_resolved. by destruct (ResolveTarget _ _).
  - exact E2.
  - apply sample_reserved.
  - rewrite E1 in Hn. discriminate Hn.
  - split; [apply H2; [reflexivity|reflexivity]|]. apply H1; [reflexivity|discriminate].
Defined.

Lemma ensure_keeps_others_witness :
  match sample_ensured with
  | Ok (cfg', en) => en_NodeID en = "root@10.0.0.9:2222" /\ bundle cfg' "db" = bundle (provider_Snapshot (r_provider (repo_of sample_config))) "db"
  | Err _ => False
  end.
Proof.
  pose proof (fun cfg' en => ensure_keeps_others (repo_of sample_config) (bare_options sample_target) "" _ cfg' en sample_complete) as H.
  assert (match sample_ensured with Ok (_, en) => en_NodeID en | Err _ => "" end = "root@10.0.0.9:2222") as E by (vm_compute; reflexivity).
  unfold sample_ensured in *. destruct (ensureTargetInTransaction _ _ _ _) as [[cfg' en]|]; [|discriminate E]. split; [exact E|].
  destruct (H cfg' en eq_refl) as (_ & _ & Ho & _). apply Ho. rewrite E. by intros ?%list_elem_of_singleton.
Defined.

Lemma preview_is_effect_witness :
  match snd sample_resolved, sample_ensured with
  | Ok rt, Ok (cfg', en) => en_NodeID en = rt_NodeID rt /\ Created rt = true /\ is_Some (Nodes cfg' !! rt_NodeID rt)
  | _, _ => False
  end.
Proof.
  pose proof (fun r' rt cfg' en => preview_is_effect (repo_of sample_config) sample_target r' rt cfg' en sample_complete) as H.
  assert (match snd sample_resolved with
          | Ok rt => Created rt && bool_decide (r_pending (repo_of sample_config) !! rt_NodeID rt = None) | Err _ => false end = true) as E by (vm_compute; reflexivity).
  assert (is_ok sample_ensured = true) as E2 by (vm_compute; reflexivity).
  unfold sample_resolved, sample_ensured in *. destruct (ResolveTarget _ _) as [r' [rt|]]; [|discriminate E].
  apply andb_true_iff in E as [Ec Ep%bool_decide_eq_true]. destruct (ensureTargetInTransaction _ _ _ _) as [[cfg' en]|]; [|discriminate E2].
  destruct (H r' rt cfg' en eq_refl Ep eq_refl) as (H1 & _ & H2). split; [exact H1|]. split; [exact Ec|]. rewrite Ec in H2.
  destruct H2 as (n & _ & _ & Hn & _). by exists n.
Defined.

(** An OpenSSH configuration with one host, and jumps over a node, that host and an address. *)
Definition sample_bastion : SSHConfig :=
  mkSSHConfig [mkBlock ["bastion"] (fun h => str_eq h "bastion") [("HostName", "10.0.0.254"); ("Port", "2200")]]
    (fun host key => Some (if str_eq host "bastion" then if str_eq key "HostName" then "10.0.0.254" else if str_eq key "Port" then "2200" else "" else "")).
Definition sample_parser : OpenSSHParser := parser_of (Some sample_bastion).
Definition sample_hops : list string := ["web"; "openssh:bastion"; "openssh:ops@10.0.0.7:2200"].
Lemma jump_hosts_normal_witness :
  HasHost sample_parser "bastion" = true /\
  resolve_hops sample_config sample_parser ["w"; " none"; "bastion"; "ops@10.0.0.7:2200 "] = Ok sample_hops /\
  resolve_hops sample_config sample_parser (split_on "," "web,openssh:bastion,openssh:ops@10.0.0.7:2200") = Ok sample_hops.
Proof.
  assert (resolve_hops sample_config sample_parser ["w"; " none"; "bastion"; "ops@10.0.0.7:2200 "] = Ok sample_hops) as E by (vm_compute; reflexivity).
  split; [vm_compute; reflexivity|]. split; [exact E|]. assert (prefix_reserved sample_config) as Hr.
  { assert (map_Forall (fun id _ => has_prefix id OpenSSHNodePrefix = false) (Nodes sample_config)) as H by (apply map_Forall_to_list; vm_compute; repeat constructor).
    intros id [n Hn]. exact (H id n Hn). }
  refine (proj2 (jump_hosts_normal sample_config sample_parser _ _ _ Hr E) _ _); [reflexivity| |].
  - repeat apply List.Forall_cons; try apply List.Forall_nil; (split; [reflexivity|split; reflexivity]).
  - repeat apply List.Forall_cons; try apply List.Forall_nil; intros spec Hs; [discriminate Hs|injection Hs as <-; reflexivity|injection Hs as <-; intros Hh; discriminate Hh].
Defined.
End Renamed.
