(* ===== verification/Credentials.v ===== *)
(** The credential service: pkg/credential service.go, asset_delete.go, journal.go and registry.go.

    A call of the service is a program of operations ([prog]): on entry locks, the recovery
    journal, the stores, the configuration.  Calls run as threads of processes; any
    operation may fail, also after it took effect, a process may be killed and the
    machine may lose power between any two operations, and the configuration may be edited
    by others.  What the service needs of the configuration is the class
    [ConfigUpdater], the interface of the code with the promises it relies on.

    The theorems about all this are in [CredentialSafety]. *)
From stdpp Require Import sorting.
From S2P Require Export Edits.
#[local] Open Scope string_scope.
#[local] Open Scope Z_scope.

(** * The journal *)
Definition OpRotate : string := "rotate".
Definition OpDelete : string := "delete".
Definition OpCreate : string := "create".
Definition OpAssetDelete : string := "asset_delete".
Definition StageIntent : string := "intent".
Definition StageAppliedUncertain : string := "applied_uncertain".
Definition StageCommitted : string := "committed".
Definition StageCleanup : string := "cleanup".

Record JournalEntry := mkEntry {
  eID : string; eOp : string; eStage : string; eOldRef : option Ref; eNewRef : option Ref; eBaseVersion : string;
  eTarget : Target; eCreatedAt : Z; eUpdatedAt : Z
}.
Definition set_stage (e : JournalEntry) (stage : string) (now : Z) : JournalEntry :=
  mkEntry (eID e) (eOp e) stage (eOldRef e) (eNewRef e) (eBaseVersion e) (eTarget e) (eCreatedAt e) now.
(** A zero time is 0. *)
Definition stamp (e : JournalEntry) (now : Z) : JournalEntry :=
  mkEntry (eID e) (eOp e) StageIntent (eOldRef e) (eNewRef e) (eBaseVersion e) (eTarget e)
    (if eCreatedAt e =? 0 then now else eCreatedAt e) now.

Definition isJournalIDRune (c : ascii) : bool :=
  let n := Z.of_N (N_of_ascii c) in
  ((97 <=? n) && (n <=? 122)) || ((65 <=? n) && (n <=? 90)) || ((48 <=? n) && (n <=? 57)) || (n =? 45) || (n =? 95).
(** The alphabet is ASCII, so a byte decides as its rune does. *)
Definition validateJournalID (id : string) : bool :=
  negb (str_eq (trim_space id) "") && (Z.of_nat (String.length id) <=? 128) && forallb isJournalIDRune (String.list_ascii_of_string id).
Definition ref_fine (r : option Ref) : bool := match r with Some r => is_ok (ref_Validate r) | None => true end.
(** [JournalEntry.Validate]. *)
Definition entry_Validate (e : JournalEntry) : bool :=
  validateJournalID (eID e) && one_of (eOp e) [OpRotate; OpDelete; OpCreate; OpAssetDelete]
  && one_of (eStage e) [StageIntent; StageAppliedUncertain; StageCommitted; StageCleanup]
  && ref_fine (eOldRef e) && ref_fine (eNewRef e)
  && negb (str_eq (eOp e) OpAssetDelete && (no_ref (eOldRef e) || bool_decide (is_Some (eNewRef e)))).

(** The files of the journal: what is visible, and what of it is on disk for good. *)
Record Journal := mkJournal { j_files : gmap string JournalEntry; j_durable : gmap string JournalEntry }.
(** How far a write came: an error before it, an error of the directory's [Sync] after it, or through. *)
Inductive reach := Failed | Unsynced | Through.
Definition journal_put (j : Journal) (r : reach) (e : JournalEntry) : Journal :=
  match r with
  | Failed => j
  | Unsynced => mkJournal (<[eID e := e]> (j_files j)) (j_durable j)
  | Through => mkJournal (<[eID e := e]> (j_files j)) (<[eID e := e]> (j_durable j))
  end.
Definition went_through (r : reach) : bool := match r with Through => true | _ => false end.

(** [save]: an invalid entry is refused. *)
Definition RecordIntent (j : Journal) (r : reach) (now : Z) (e : JournalEntry) : Journal * bool :=
  let e := stamp e now in
  if entry_Validate e then (journal_put j r e, went_through r) else (j, false).
(** [readEntryLocked]. *)
Definition readEntry (j : Journal) (id : string) : option JournalEntry :=
  match j_files j !! id with
  | Some e => if entry_Validate e && str_eq (eID e) id then Some e else None
  | None => None
  end.
Definition updateStage (j : Journal) (r : reach) (now : Z) (id stage : string) : Journal * bool :=
  if validateJournalID id then
    match readEntry j id with
    | Some e => (journal_put j r (set_stage e stage now), went_through r)
    | None => (j, false)
    end
  else (j, false).
(** Whether the lock file goes too, and whether it succeeds. *)
Definition journal_remove (j : Journal) (r : reach) (id : string) : Journal * bool * bool :=
  if validateJournalID id then
    match r with
    | Failed => (j, false, false)
    | Unsynced => (mkJournal (delete id (j_files j)) (j_durable j), true, false)
    | Through => (mkJournal (delete id (j_files j)) (delete id (j_durable j)), true, true)
    end
  else (j, false, false).
Definition journal_name (id : string) : string := "journal-" +:+ id +:+ ".json".
(** [ListPending], in the order of [os.ReadDir]. *)
Definition ListPending (j : Journal) : option (list JournalEntry) :=
  let ids := merge_sort (fun a b => String.le (journal_name a) (journal_name b)) (map_to_list (j_files j)).*1 in
  mapM (fun id => if validateJournalID id then readEntry j id else None) ids.
(** After a power loss each file is what was visible or what was on disk. *)
Definition survives (j : Journal) (files : gmap string JournalEntry) : Prop :=
  forall id, files !! id = j_files j !! id \/ files !! id = j_durable j !! id.

(** * The registry *)
Inductive store_error := StoreNotFound (id : string) | StoreReadOnly (id : string).
(** Registered stores, and whether one can be written. *)
Definition Registry : Type := gmap string bool.
Definition getWritableStore (reg : Registry) (storeID : string) : result store_error unit :=
  match reg !! storeID with
  | None => Err (StoreNotFound storeID)
  | Some false => Err (StoreReadOnly storeID)
  | Some true => Ok tt
  end.
Inductive registry_error := BadStoreID (e : ref_error) | AlreadyRegistered (id : string).
Definition Register (reg : Registry) (storeID : string) (writable : bool) : result registry_error Registry :=
  match validateRefIdentifier "storeID" storeID with
  | Err e => Err (BadStoreID e)
  | Ok _ => if bool_decide (is_Some (reg !! storeID)) then Err (AlreadyRegistered storeID) else Ok (<[storeID := writable]> reg)
  end.
Definition Unregister (reg : Registry) (storeID : string) : Registry := delete storeID reg.
Definition registry_List (reg : Registry) : list string := merge_sort String.le (map_to_list reg).*1.

(** * The configuration *)
Record MutationOutcome := mkOutcome { Applied : bool; Durable : bool }.

(** [ConfigUpdater].  [live]: a reference the visible configuration holds, or the one a crash would
    leave; [shown]: one some process has in memory.  Operations take the process that
    runs them and what fails on the way; [elsewhere] is everything else that happens to the
    configuration, the loss of power included: it may move and drop references, but adds none. *)
Class ConfigUpdater := {
  Config : Type; Fault : Type; Assets : Type; ConfigError : Type;
  live : Config -> Ref -> Prop; (* of references that are not empty *)
  shown : Config -> Ref -> Prop;
  ApplyCredentialRefAtVersion : nat -> Fault -> Target -> string -> option Ref -> Config -> Config * MutationOutcome * string * option ConfigError;
  CheckRefUnreferenced : nat -> Fault -> Ref -> Config -> Config * result ConfigError bool;
  ConfirmRefDurable : nat -> Fault -> Target -> option Ref -> Config -> Config * result ConfigError bool;
  CommitAssets : nat -> Fault -> Assets -> Config -> Config * MutationOutcome * option ConfigError;
  elsewhere : Config -> Config -> Prop;
  known c r := live c r \/ shown c r;
  apply_live p f t v n c c' o ver err : ApplyCredentialRefAtVersion p f t v n c = (c', o, ver, err) ->
    (forall r, live c' r -> live c r \/ (Applied o = true /\ n = Some r)) /\
    (forall r, shown c' r -> known c r \/ (Applied o = true /\ n = Some r));
  apply_recorded p f t v n c c' o ver err r : ApplyCredentialRefAtVersion p f t v n c = (c', o, ver, err) ->
    Applied o = true -> n = Some r -> ref_IsEmpty r = false -> live c' r;
  apply_error p f t v n c c' o ver err : ApplyCredentialRefAtVersion p f t v n c = (c', o, ver, err) ->
    err = None -> Applied o = true /\ Durable o = true;
  check_live p f r c c' res : CheckRefUnreferenced p f r c = (c', res) ->
    (forall q, live c' q -> live c q) /\ (forall q, shown c' q -> known c q) /\
    (res = Ok true -> ~ live c' r) /\ (res = Ok false -> known c r);
  confirm_live p f t r c c' res : ConfirmRefDurable p f t r c = (c', res) ->
    (forall q, live c' q -> live c q) /\ (forall q, shown c' q -> known c q) /\
    (res = Ok true -> forall q, r = Some q -> ref_IsEmpty q = false -> live c q);
  commit_live p f a c c' o err : CommitAssets p f a c = (c', o, err) ->
    (forall q, live c' q -> live c q) /\ (forall q, shown c' q -> known c q);
  elsewhere_live c c' : elsewhere c c' -> (forall q, live c' q -> live c q) /\ (forall q, shown c' q -> known c q)
}.

(** * Operations *)
Inductive lock_result := LockHeld | LockContended | LockFailed.
Inductive delete_result := Deleted | ItemMissing | DeleteFailed.

Section Operations.
Context `{Cfg : ConfigUpdater}.

Inductive op : Type -> Type :=
  | NewItem : op string
  | NewEntry : op string
  | Activate (id : string) : op unit
  | Deactivate (id : string) : op unit
  | IsActive (id : string) : op bool
  | Lock (id : string) : op lock_result
  | Unlock (id : string) : op unit
  | Record_ (e : JournalEntry) : op bool
  | Stage_ (id stage : string) : op bool
  | Remove (id : string) : op bool
  | Pending : op (option (list JournalEntry))
  | Put (r : Ref) (secret : string) : op bool
  | GetItem (r : Ref) : op (option string)
  | DeleteItem (r : Ref) : op delete_result
  | Invalidate (r : Ref) : op unit
  | Apply (t : Target) (version : string) (n : option Ref) : op (MutationOutcome * string * option ConfigError)
  | Check_ (r : Ref) : op (result ConfigError bool)
  | Confirm (t : Target) (r : option Ref) : op (result ConfigError bool)
  | CommitDelete (a : Assets) : op (MutationOutcome * option ConfigError).

Inductive prog (A : Type) : Type :=
  | Ret (a : A)
  | Do {X : Type} (o : op X) (k : X -> prog A).
Arguments Ret {A} a.
Arguments Do {A X} o k.

Fixpoint prog_bind {A B} (f : A -> prog B) (m : prog A) : prog B :=
  match m with
  | Ret a => f a
  | Do o k => Do o (fun x => prog_bind f (k x))
  end.
#[export] Instance prog_mbind : MBind prog := @prog_bind.
#[export] Instance prog_mret : MRet prog := @Ret.
Definition call {X} (o : op X) : prog X := Do o Ret.

(** The machine: configuration, items of the stores, journal, entry locks (by the file's path, with
    their thread), active transactions and cached references by process, and the identifiers ever generated. *)
Record World := mkWorld {
  w_config : Config; w_items : gmap Ref string; w_journal : Journal; w_locks : gmap string nat;
  w_active : gset (nat * string); w_cached : gset (nat * Ref); w_usedItems : gset string; w_usedEntries : gset string
}.
(** What an operation meets: how far a write comes, a fault of the configuration, a generated identifier,
    the time, and the bytes a damaged store reads back. *)
Record Event := mkEvent { ev_reach : reach; ev_fault : Fault; ev_id : string; ev_now : Z; ev_garbled : option string }.

Definition set_config (w : World) (c : Config) : World := mkWorld c (w_items w) (w_journal w) (w_locks w) (w_active w) (w_cached w) (w_usedItems w) (w_usedEntries w).
Definition set_items (w : World) (i : gmap Ref string) : World := mkWorld (w_config w) i (w_journal w) (w_locks w) (w_active w) (w_cached w) (w_usedItems w) (w_usedEntries w).
Definition set_journal (w : World) (j : Journal) : World := mkWorld (w_config w) (w_items w) j (w_locks w) (w_active w) (w_cached w) (w_usedItems w) (w_usedEntries w).
Definition set_locks (w : World) (l : gmap string nat) : World := mkWorld (w_config w) (w_items w) (w_journal w) l (w_active w) (w_cached w) (w_usedItems w) (w_usedEntries w).
Definition set_active (w : World) (a : gset (nat * string)) : World := mkWorld (w_config w) (w_items w) (w_journal w) (w_locks w) a (w_cached w) (w_usedItems w) (w_usedEntries w).
Definition set_cached (w : World) (c : gset (nat * Ref)) : World := mkWorld (w_config w) (w_items w) (w_journal w) (w_locks w) (w_active w) c (w_usedItems w) (w_usedEntries w).
Definition set_used (w : World) (i e : gset string) : World := mkWorld (w_config w) (w_items w) (w_journal w) (w_locks w) (w_active w) (w_cached w) i e.

(** One operation of thread [t] of process [p]; none when the event cannot be: generated identifiers are new. *)
Definition handle (p t : nat) (ev : Event) {X} (o : op X) (w : World) : option (World * X) :=
  match o in op X return option (World * X) with
  | NewItem => if bool_decide (ev_id ev ∈ w_usedItems w) then None
               else Some (set_used w ({[ev_id ev]} ∪ w_usedItems w) (w_usedEntries w), ev_id ev)
  | NewEntry => if bool_decide (ev_id ev ∈ w_usedEntries w) then None
                else Some (set_used w (w_usedItems w) ({[ev_id ev]} ∪ w_usedEntries w), ev_id ev)
  | Activate id => Some (set_active w ({[(p, id)]} ∪ w_active w), tt)
  | Deactivate id => Some (set_active w (w_active w ∖ {[(p, id)]}), tt)
  | IsActive id => Some (w, bool_decide ((p, id) ∈ w_active w))
  | Lock id => if negb (validateJournalID id) || negb (went_through (ev_reach ev)) then Some (w, LockFailed)
               else match w_locks w !! id with
                    | Some _ => Some (w, LockContended)
                    | None => Some (set_locks w (<[id := t]> (w_locks w)), LockHeld)
                    end
  | Unlock id => Some (if bool_decide (w_locks w !! id = Some t) then set_locks w (delete id (w_locks w)) else w, tt)
  | Record_ e => let '(j, ok) := RecordIntent (w_journal w) (ev_reach ev) (ev_now ev) e in Some (set_journal w j, ok)
  | Stage_ id stage => let '(j, ok) := updateStage (w_journal w) (ev_reach ev) (ev_now ev) id stage in Some (set_journal w j, ok)
  | Remove id => let '(j, unlocked, ok) := journal_remove (w_journal w) (ev_reach ev) id in
                 let w := set_journal w j in
                 Some (if unlocked : bool then set_locks w (delete id (w_locks w)) else w, ok)
  | Pending => Some (w, if went_through (ev_reach ev) then ListPending (w_journal w) else None)
  | Put r secret => Some (match ev_reach ev with Failed => w | _ => set_items w (<[r := secret]> (w_items w)) end, went_through (ev_reach ev))
  | GetItem r => Some (w, if went_through (ev_reach ev) then match ev_garbled ev with Some s => Some s | None => w_items w !! r end else None)
  | DeleteItem r => match ev_reach ev with
                    | Failed => Some (w, DeleteFailed)
                    | Unsynced => Some (set_items w (delete r (w_items w)), DeleteFailed)
                    | Through => Some (set_items w (delete r (w_items w)), if bool_decide (is_Some (w_items w !! r)) then Deleted else ItemMissing)
                    end
  | Invalidate r => Some (set_cached w (w_cached w ∖ {[(p, r)]}), tt)
  | Apply tg v n => let '(c, o, ver, err) := ApplyCredentialRefAtVersion p (ev_fault ev) tg v n (w_config w) in Some (set_config w c, (o, ver, err))
  | Check_ r => let '(c, res) := CheckRefUnreferenced p (ev_fault ev) r (w_config w) in Some (set_config w c, res)
  | Confirm tg r => let '(c, res) := ConfirmRefDurable p (ev_fault ev) tg r (w_config w) in Some (set_config w c, res)
  | CommitDelete a => let '(c, o, err) := CommitAssets p (ev_fault ev) a (w_config w) in Some (set_config w c, (o, err))
  end.

(** A program run alone, one event per operation. *)
Fixpoint run {A} (p t : nat) (m : prog A) (evs : list Event) (w : World) : option (World * A) :=
  match m with
  | Ret a => Some (w, a)
  | Do o k => match evs with
              | [] => None
              | ev :: evs => match handle p t ev o w with
                             | Some (w, x) => run p t (k x) evs w
                             | None => None
                             end
              end
  end.

(** * The service *)
Inductive service_error :=
  | BadTarget (e : target_error) | EmptySecret | BadStore (e : ref_error) | BadOldRef (e : ref_error) | EmptyRef
  | StoreUnusable (e : store_error) | LockError (r : lock_result) | JournalError (what : string)
  | PutFailed (r : Ref) | ReadBackFailed (r : Ref) | ReadBackMismatch (r : Ref)
  | ConfigFailed (e : ConfigError) | CompensateFailed (e : service_error) (r : Ref) | CleanupFailed (old : Ref) (e : service_error)
  | ItemNotFound (r : Ref) | DeleteError (r : Ref) | DurabilityUncertain | NotDurable (target : string) | StillReferenced (r : Ref)
  | Joined (a b : service_error).

Notation "x <- m ;; k" := (prog_bind (fun x => k) m) (at level 20, m at level 99, k at level 200, only parsing).
Notation "m ;;; k" := (prog_bind (fun _ => k) m) (at level 100, k at level 200, right associativity, only parsing).

Section Calls.
Variable reg : Registry.

Definition validateRotateParams (target : Target) (newStoreID : string) (oldRef : option Ref) (secret : string) : result service_error unit :=
  match target_Validate target with
  | Err e => Err (BadTarget e)
  | Ok _ =>
      reject str_eq secret "" with EmptySecret ;;
      match validateRefIdentifier "storeID" newStoreID with
      | Err e => Err (BadStore e)
      | Ok _ =>
          match oldRef with
          | Some r => if ref_IsEmpty r then Ok tt else match ref_Validate r with Err e => Err (BadOldRef e) | Ok _ => Ok tt end
          | None => Ok tt
          end
      end
  end.

Definition putAndVerifySecret (newRef : Ref) (secret : string) : prog (option service_error) :=
  ok <- call (Put newRef secret) ;;
  if negb ok then Ret (Some (PutFailed newRef)) else
  readBack <- call (GetItem newRef) ;;
  match readBack with
  | None => Ret (Some (ReadBackFailed newRef))
  | Some s => Ret (if str_eq s secret then None else Some (ReadBackMismatch newRef))
  end.

(** [store.Delete], an absent item tolerated. *)
Definition deleteItem (r : Ref) : prog (option service_error) :=
  d <- call (DeleteItem r) ;;
  Ret (match d with DeleteFailed => Some (DeleteError r) | _ => None end).

(** The cache forgets the old reference in any case. *)
Definition cleanupOldRefOnRotate (entryID : string) (oldRef : option Ref) : prog (option service_error) :=
  match oldRef with
  | None => Ret None
  | Some old =>
      if ref_IsEmpty old then Ret None else
      res <- (unref <- call (Check_ old) ;;
              match unref with
              | Err e => call (Stage_ entryID StageCleanup) ;;; Ret (Some (CleanupFailed old (ConfigFailed e)))
              | Ok false => Ret None
              | Ok true =>
                  match getWritableStore reg (StoreID old) with
                  | Err e => call (Stage_ entryID StageCleanup) ;;; Ret (Some (CleanupFailed old (StoreUnusable e)))
                  | Ok _ =>
                      err <- deleteItem old ;;
                      match err with
                      | Some e => call (Stage_ entryID StageCleanup) ;;; Ret (Some (CleanupFailed old e))
                      | None => Ret None
                      end
                  end
              end) ;;
      call (Invalidate old) ;;;
      Ret res
  end.

Definition compensateNewRef (entryID : string) (newRef : Ref) (origErr : service_error) : prog service_error :=
  err <- deleteItem newRef ;;
  match err with
  | Some _ => Ret (CompensateFailed origErr newRef)
  | None => call (Remove entryID) ;;; Ret origErr
  end.

(** A transaction: its identifier is active and its entry locked while the body runs. *)
Definition with_entry {A} (failed : lock_result -> A) (body : string -> prog A) : prog A :=
  id <- call NewEntry ;;
  call (Activate id) ;;;
  l <- call (Lock id) ;;
  match l with
  | LockHeld =>
      a <- body id ;;
      call (Unlock id) ;;;
      call (Deactivate id) ;;;
      Ret a
  | l => call (Deactivate id) ;;; Ret (failed l)
  end.

Definition RotateResult : Type := option Ref * string * option service_error.

Definition rotate_body (target : Target) (expectedVersion : string) (oldRef : option Ref) (newRef : Ref) (secret : string) (entryID : string)
    : prog RotateResult :=
  let entry := mkEntry entryID (if no_ref oldRef then OpCreate else OpRotate) StageIntent oldRef (Some newRef) expectedVersion target 0 0 in
  ok <- call (Record_ entry) ;;
  if negb ok then Ret (None, "", Some (JournalError entryID)) else
  stored <- putAndVerifySecret newRef secret ;;
  match stored with
  | Some e => e <- compensateNewRef entryID newRef e ;; Ret (None, "", Some e)
  | None =>
      applied <- call (Apply target expectedVersion (Some newRef)) ;;
      let '(outcome, newVersion, casErr) := applied in
      match casErr with
      | Some e =>
          if negb (Applied outcome) then e <- compensateNewRef entryID newRef (ConfigFailed e) ;; Ret (None, "", Some e)
          else call (Stage_ entryID StageAppliedUncertain) ;;; Ret (Some newRef, newVersion, Some (ConfigFailed e))
      | None =>
          call (Stage_ entryID StageCommitted) ;;;
          err <- cleanupOldRefOnRotate entryID oldRef ;;
          match err with
          | Some e => Ret (Some newRef, newVersion, Some e)
          | None => call (Remove entryID) ;;; Ret (Some newRef, newVersion, None)
          end
      end
  end.

Definition Rotate (target : Target) (expectedVersion : string) (oldRef : option Ref) (newStoreID secret : string) : prog RotateResult :=
  match validateRotateParams target newStoreID oldRef secret with
  | Err e => Ret (None, "", Some e)
  | Ok _ =>
      match getWritableStore reg newStoreID with
      | Err e => Ret (None, "", Some (StoreUnusable e))
      | Ok _ =>
          item <- call NewItem ;;
          with_entry (fun l => (None, "", Some (LockError l)))
            (rotate_body target expectedVersion oldRef (mkRef newStoreID item) secret)
      end
  end.
Definition Create (target : Target) (expectedVersion storeID secret : string) : prog RotateResult :=
  Rotate target expectedVersion None storeID secret.

Definition delete_body (target : Target) (expectedVersion : string) (refToDelete : Ref) (entryID : string) : prog (string * option service_error) :=
  let entry := mkEntry entryID OpDelete StageIntent (Some refToDelete) None expectedVersion target 0 0 in
  ok <- call (Record_ entry) ;;
  if negb ok then Ret ("", Some (JournalError entryID)) else
  applied <- call (Apply target expectedVersion None) ;;
  let '(outcome, newVersion, casErr) := applied in
  match casErr with
  | Some e =>
      if negb (Applied outcome) then call (Remove entryID) ;;; Ret ("", Some (ConfigFailed e))
      else call (Stage_ entryID StageAppliedUncertain) ;;; Ret (newVersion, Some (ConfigFailed e))
  | None =>
      call (Stage_ entryID StageCommitted) ;;;
      unref <- call (Check_ refToDelete) ;;
      match unref with
      | Err e => call (Stage_ entryID StageCleanup) ;;; Ret (newVersion, Some (CleanupFailed refToDelete (ConfigFailed e)))
      | Ok false => call (Remove entryID) ;;; Ret (newVersion, None)
      | Ok true =>
          match getWritableStore reg (StoreID refToDelete) with
          | Err e => call (Stage_ entryID StageCleanup) ;;; Ret (newVersion, Some (CleanupFailed refToDelete (StoreUnusable e)))
          | Ok _ =>
              (* here an absent item is a failure too *)
              d <- call (DeleteItem refToDelete) ;;
              match d with
              | Deleted => call (Invalidate refToDelete) ;;; call (Remove entryID) ;;; Ret (newVersion, None)
              | ItemMissing => call (Stage_ entryID StageCleanup) ;;; call (Invalidate refToDelete) ;;; Ret (newVersion, Some (CleanupFailed refToDelete (ItemNotFound refToDelete)))
              | DeleteFailed => call (Stage_ entryID StageCleanup) ;;; call (Invalidate refToDelete) ;;; Ret (newVersion, Some (CleanupFailed refToDelete (DeleteError refToDelete)))
              end
          end
      end
  end.

Definition Delete (target : Target) (expectedVersion : string) (refToDelete : Ref) : prog (string * option service_error) :=
  match target_Validate target with
  | Err e => Ret ("", Some (BadTarget e))
  | Ok _ =>
      match ref_Validate refToDelete with
      | Err e => Ret ("", Some (BadOldRef e))
      | Ok _ => if ref_IsEmpty refToDelete then Ret ("", Some EmptyRef)
                else with_entry (fun l => ("", Some (LockError l))) (delete_body target expectedVersion refToDelete)
      end
  end.

(** ** Recovery *)
Inductive RecoveryAction := CompensatedNewRef | CommittedCleaned | ScheduledForGC | RemovedNoOp | SkippedActive.
Record RecoveryResult := mkRecovery { rec_EntryID : string; rec_Action : RecoveryAction; rec_Err : option service_error }.

Definition cleanupAssetReference (entry : JournalEntry) (old : Ref) : prog (option service_error) :=
  unreferenced <- call (Check_ old) ;;
  match unreferenced with
  | Err e => Ret (Some (ConfigFailed e))
  | Ok unreferenced =>
      err <- (if unreferenced : bool then
                match getWritableStore reg (StoreID old) with
                | Err e => Ret (Some (StoreUnusable e))
                | Ok _ => err <- deleteItem old ;;
                          match err with
                          | Some e => Ret (Some e)
                          | None => call (Invalidate old) ;;; Ret None
                          end
                end
              else Ret None) ;;
      match err with
      | Some e => Ret (Some e)
      | None => ok <- call (Remove (eID entry)) ;; Ret (if ok : bool then None else Some (JournalError (eID entry)))
      end
  end.

Definition recoverCommittedOrCleanupStage (entry : JournalEntry) : prog (RecoveryAction * option service_error) :=
  match eOldRef entry with
  | None => call (Remove (eID entry)) ;;; Ret (RemovedNoOp, None)
  | Some old =>
      if ref_IsEmpty old then call (Remove (eID entry)) ;;; Ret (RemovedNoOp, None) else
      unref <- call (Check_ old) ;;
      match unref with
      | Err e => call (Stage_ (eID entry) StageCleanup) ;;; Ret (ScheduledForGC, Some (ConfigFailed e))
      | Ok false => call (Stage_ (eID entry) StageCleanup) ;;; Ret (ScheduledForGC, Some (StillReferenced old))
      | Ok true =>
          match getWritableStore reg (StoreID old) with
          | Err e => call (Stage_ (eID entry) StageCleanup) ;;; Ret (ScheduledForGC, Some (StoreUnusable e))
          | Ok _ =>
              err <- deleteItem old ;;
              match err with
              | Some e => call (Stage_ (eID entry) StageCleanup) ;;; Ret (ScheduledForGC, Some e)
              | None => call (Invalidate old) ;;; call (Remove (eID entry)) ;;; Ret (CommittedCleaned, None)
              end
          end
      end
  end.

Definition recoverAppliedUncertainStage (entry : JournalEntry) : prog (RecoveryAction * option service_error) :=
  let expectedRef := if one_of (eOp entry) [OpRotate; OpCreate] then eNewRef entry else None in
  durable <- call (Confirm (eTarget entry) expectedRef) ;;
  match durable with
  | Err e => Ret (ScheduledForGC, Some (ConfigFailed e))
  | Ok false => Ret (ScheduledForGC, Some (NotDurable (TargetIdentifier (eTarget entry))))
  | Ok true =>
      ok <- call (Stage_ (eID entry) StageCommitted) ;;
      if negb ok then Ret (ScheduledForGC, Some (JournalError (eID entry)))
      else recoverCommittedOrCleanupStage entry
  end.

Definition recoverIntentWithNewRef (entry : JournalEntry) (new : Ref) : prog (RecoveryAction * option service_error) :=
  unref <- call (Check_ new) ;;
  match unref with
  | Err e => Ret (ScheduledForGC, Some (ConfigFailed e))
  | Ok true =>
      match getWritableStore reg (StoreID new) with
      | Err e => Ret (ScheduledForGC, Some (StoreUnusable e))
      | Ok _ =>
          err <- deleteItem new ;;
          match err with
          | Some e => Ret (ScheduledForGC, Some e)
          | None => call (Invalidate new) ;;; call (Remove (eID entry)) ;;; Ret (CompensatedNewRef, None)
          end
      end
  | Ok false =>
      durable <- call (Confirm (eTarget entry) (Some new)) ;;
      match durable with
      | Err e => Ret (ScheduledForGC, Some (ConfigFailed e))
      | Ok false => call (Stage_ (eID entry) StageAppliedUncertain) ;;; Ret (ScheduledForGC, None)
      | Ok true => call (Stage_ (eID entry) StageCommitted) ;;; recoverCommittedOrCleanupStage entry
      end
  end.

Definition recoverIntentWithoutNewRef (entry : JournalEntry) : prog (RecoveryAction * option service_error) :=
  match eOldRef entry with
  | None => call (Remove (eID entry)) ;;; Ret (RemovedNoOp, None)
  | Some old =>
      if ref_IsEmpty old then call (Remove (eID entry)) ;;; Ret (RemovedNoOp, None) else
      unref <- call (Check_ old) ;;
      match unref with
      | Err e => Ret (ScheduledForGC, Some (ConfigFailed e))
      | Ok true =>
          durable <- call (Confirm (eTarget entry) None) ;;
          match durable with
          | Err e => Ret (ScheduledForGC, Some (ConfigFailed e))
          | Ok false => call (Stage_ (eID entry) StageAppliedUncertain) ;;; Ret (ScheduledForGC, None)
          | Ok true => call (Stage_ (eID entry) StageCommitted) ;;; recoverCommittedOrCleanupStage entry
          end
      | Ok false => call (Remove (eID entry)) ;;; Ret (RemovedNoOp, None)
      end
  end.

Definition recoverIntentStage (entry : JournalEntry) : prog (RecoveryAction * option service_error) :=
  match eNewRef entry with
  | Some new => if ref_IsEmpty new then recoverIntentWithoutNewRef entry else recoverIntentWithNewRef entry new
  | None => recoverIntentWithoutNewRef entry
  end.

(** The entry of an asset deletion has an old reference, or it would not have been read. *)
Definition recover_stage (entry : JournalEntry) : prog (RecoveryAction * option service_error) :=
  if str_eq (eOp entry) OpAssetDelete then
    match eOldRef entry with
    | Some old => err <- cleanupAssetReference entry old ;;
                  Ret (match err with Some _ => ScheduledForGC | None => CommittedCleaned end, err)
    | None => Ret (CommittedCleaned, None)
    end
  else if str_eq (eStage entry) StageIntent then recoverIntentStage entry
  else if str_eq (eStage entry) StageAppliedUncertain then recoverAppliedUncertainStage entry
  else recoverCommittedOrCleanupStage entry.

Definition recoverSingleEntry (entry : JournalEntry) : prog RecoveryResult :=
  active <- call (IsActive (eID entry)) ;;
  if active : bool then Ret (mkRecovery (eID entry) SkippedActive None) else
  l <- call (Lock (eID entry)) ;;
  match l with
  | LockContended => Ret (mkRecovery (eID entry) SkippedActive None)
  | LockFailed => Ret (mkRecovery (eID entry) ScheduledForGC (Some (LockError LockFailed)))
  | LockHeld =>
      r <- recover_stage entry ;;
      call (Unlock (eID entry)) ;;;
      Ret (mkRecovery (eID entry) (fst r) (snd r))
  end.

Fixpoint recover_entries (entries : list JournalEntry) : prog (list RecoveryResult) :=
  match entries with
  | [] => Ret []
  | e :: entries => r <- recoverSingleEntry e ;; rs <- recover_entries entries ;; Ret (r :: rs)
  end.
Definition Recover : prog (result service_error (list RecoveryResult)) :=
  entries <- call Pending ;;
  match entries with
  | None => Ret (Err (JournalError "list"))
  | Some entries => rs <- recover_entries entries ;; Ret (Ok rs)
  end.

(** ** Deletion of assets *)
Definition asset_entry (id : string) (ref : Ref) : JournalEntry :=
  mkEntry id OpAssetDelete "" (Some ref) None "" (mkTarget "" "" "" "" "" "" "" false false false) 0 0.

(** The loop of [DeleteAssets]: one entry per reference, the entries locked so far last first. *)
Fixpoint journal_refs (seen : list Ref) (entries : list JournalEntry) (refs : list Ref) : prog (list JournalEntry * option service_error) :=
  match refs with
  | [] => Ret (entries, None)
  | ref :: refs =>
      match ref_Validate ref with
      | Err e => Ret (entries, Some (BadOldRef e))
      | Ok _ =>
          if ref_IsEmpty ref || slice_contains seen ref then journal_refs seen entries refs else
          id <- call NewEntry ;;
          l <- call (Lock id) ;;
          match l with
          | LockHeld =>
              call (Activate id) ;;;
              ok <- call (Record_ (asset_entry id ref)) ;;
              (if ok : bool then journal_refs (ref :: seen) (asset_entry id ref :: entries) refs
               else Ret (asset_entry id ref :: entries, Some (JournalError id)))
          | l => Ret (entries, Some (LockError l))
          end
      end
  end.

Fixpoint for_entries (f : JournalEntry -> prog (list service_error)) (entries : list JournalEntry) : prog (list service_error) :=
  match entries with
  | [] => Ret []
  | e :: entries => errs <- f e ;; rest <- for_entries f entries ;; Ret (errs ++ rest)%list
  end.
Definition journal_error (e : JournalEntry) (ok : bool) : list service_error := if ok then [] else [JournalError (eID e)].
Definition remove_entry (e : JournalEntry) : prog (list service_error) := ok <- call (Remove (eID e)) ;; Ret (journal_error e ok).
Definition uncertain_entry (e : JournalEntry) : prog (list service_error) :=
  ok <- call (Stage_ (eID e) StageAppliedUncertain) ;; Ret (journal_error e ok).
Definition clean_entry (e : JournalEntry) : prog (list service_error) :=
  match eOldRef e with
  | None => Ret []
  | Some old =>
      ok <- call (Stage_ (eID e) StageCommitted) ;;
      if negb ok then Ret [CleanupFailed old (JournalError (eID e))] else
      err <- cleanupAssetReference e old ;;
      match err with
      | None => Ret []
      | Some err => ok <- call (Stage_ (eID e) StageCleanup) ;;
                    Ret [CleanupFailed old (if ok : bool then err else Joined err (JournalError (eID e)))]
      end
  end.
Definition release_entry (e : JournalEntry) : prog (list service_error) :=
  call (Unlock (eID e)) ;;; call (Deactivate (eID e)) ;;; Ret [].

Definition DeleteAssets (refs : list Ref) (a : Assets) : prog (MutationOutcome * list service_error) :=
  journaled <- journal_refs [] [] refs ;;
  let '(locked, err) := journaled in
  let entries := rev locked in
  r <- match err with
       | Some e => Ret (mkOutcome false false, [e])
       | None =>
           committed <- call (CommitDelete a) ;;
           let '(outcome, err) := committed in
           let errs := match err with Some e => [ConfigFailed e] | None => [] end in
           if negb (Applied outcome) then more <- for_entries remove_entry entries ;; Ret (outcome, (errs ++ more)%list)
           else if negb (Durable outcome) then
             more <- for_entries uncertain_entry entries ;; Ret (outcome, (errs ++ more ++ [DurabilityUncertain])%list)
           else more <- for_entries clean_entry entries ;; Ret (outcome, (errs ++ more)%list)
       end ;;
  for_entries release_entry locked ;;;
  Ret r.

(** A call of the service, its result dropped; the references it is given. *)
Inductive request :=
  | CallRotate (target : Target) (version : string) (old : option Ref) (storeID secret : string)
  | CallDelete (target : Target) (version : string) (ref : Ref)
  | CallDeleteAssets (refs : list Ref) (a : Assets)
  | CallRecover.
Definition program (r : request) : prog unit :=
  match r with
  | CallRotate t v old s secret => Rotate t v old s secret ;;; Ret tt
  | CallDelete t v ref => Delete t v ref ;;; Ret tt
  | CallDeleteAssets refs a => DeleteAssets refs a ;;; Ret tt
  | CallRecover => Recover ;;; Ret tt
  end.
Definition given (r : request) : list Ref :=
  match r with
  | CallRotate _ _ old _ _ => option_list old
  | CallDelete _ _ ref => [ref]
  | CallDeleteAssets refs _ => refs
  | CallRecover => []
  end.

(** ** Threads *)
Record Sys := mkSys { s_world : World; s_threads : gmap nat (nat * prog unit); s_seen : Ref -> Prop }.
Definition observe (w : World) (seen : Ref -> Prop) : Ref -> Prop := fun r => seen r \/ known (w_config w) r.
Definition at_world (s : Sys) (w : World) (threads : gmap nat (nat * prog unit)) : Sys := mkSys w threads (observe w (s_seen s)).
(** The threads and locks left when some processes die. *)
Definition alive (dead : nat -> bool) (threads : gmap nat (nat * prog unit)) : gmap nat (nat * prog unit) :=
  filter (fun x => dead (fst (snd x)) = false) threads.
Definition held_by (threads : gmap nat (nat * prog unit)) (locks : gmap string nat) : gmap string nat :=
  filter (fun x => is_Some (threads !! snd x)) locks.

Inductive sys_step : Sys -> Sys -> Prop :=
  | sys_spawn s t p r :
      s_threads s !! t = None -> (forall o, o ∈ given r -> ref_IsEmpty o = false -> s_seen s o) ->
      sys_step s (mkSys (s_world s) (<[t := (p, program r)]> (s_threads s)) (s_seen s))
  | sys_op s t p X (o : op X) (k : X -> prog unit) ev w' x :
      s_threads s !! t = Some (p, Do o k) -> handle p t ev o (s_world s) = Some (w', x) ->
      sys_step s (at_world s w' (<[t := (p, k x)]> (s_threads s)))
  | sys_done s t p : s_threads s !! t = Some (p, Ret tt) -> sys_step s (mkSys (s_world s) (delete t (s_threads s)) (s_seen s))
  | sys_elsewhere s c' : elsewhere (w_config (s_world s)) c' -> sys_step s (at_world s (set_config (s_world s) c') (s_threads s))
  (* a process reads an item into its cache *)
  | sys_cache s p r : is_Some (w_items (s_world s) !! r) ->
      sys_step s (mkSys (set_cached (s_world s) ({[(p, r)]} ∪ w_cached (s_world s))) (s_threads s) (s_seen s))
  (* processes are killed, their locks with them *)
  | sys_kill s dead :
      let threads := alive dead (s_threads s) in
      let w := set_locks (s_world s) (held_by threads (w_locks (s_world s))) in
      let w := set_active w (filter (fun x => dead (fst x) = false) (w_active w)) in
      sys_step s (mkSys (set_cached w (filter (fun x => dead (fst x) = false) (w_cached w))) threads (s_seen s))
  (* power is lost *)
  | sys_power s c' files :
      elsewhere (w_config (s_world s)) c' -> survives (w_journal (s_world s)) files ->
      let w := set_journal (set_config (s_world s) c') (mkJournal files files) in
      sys_step s (at_world s (set_cached (set_active (set_locks w ∅) ∅) ∅) ∅).

(** Where it starts: no threads, an empty journal, and every reference of the configuration has its secret. *)
Definition sys_init (s : Sys) : Prop :=
  let w := s_world s in
  s_threads s = ∅ /\ w_journal w = mkJournal ∅ ∅ /\ w_locks w = ∅ /\
  (forall r, live (w_config w) r -> is_Some (w_items w !! r)) /\
  (forall r, is_Some (w_items w !! r) \/ known (w_config w) r -> s_seen s r) /\
  (forall r, s_seen s r -> ItemID r ∈ w_usedItems w).
End Calls.
End Operations.
Arguments Ret {Cfg A} a.
Arguments Do {Cfg A X} o k.
Notation "x <- m ;; k" := (prog_bind (fun x => k) m) (at level 20, m at level 99, k at level 200, only parsing) : xops_scope.
Notation "m ;;; k" := (prog_bind (fun _ => k) m) (at level 100, k at level 200, right associativity, only parsing) : xops_scope.
