(* ===== verification/CredentialSafety.v ===== *)
(** Safety of the credential service, for any configuration that keeps the promises of [ConfigUpdater].

    A small program logic: [safe] says that a program never does what it has not learnt to be
    safe, its facts being what no other thread can undo ([holds]); the invariant [Inv] ties the
    facts of all threads to the machine, and every operation keeps it.  The theorems: in
    every state that threads, failures and crashes can reach, each reference the
    configuration holds, or would hold after a crash, still has its secret; every secret is one a
    configuration has held or one the journal will clean up; what a rotation that
    runs alone does; and an uncertain entry that is never settled. *)
From S2P Require Export Credentials.
#[local] Open Scope string_scope.
#[local] Open Scope Z_scope.

(** * What a thread knows *)
Section Safety.
Context `{Cfg : ConfigUpdater}.

(** What a thread has learnt and no other thread can undo: an entry is locked by it, an
    identifier is its own, its entry is on disk, an item it may still apply is stored,
    a reference is absent, dead, has been seen; an entry was issued with a new reference. *)
Inductive fact :=
  | FLocked (id : string) | FNewId (id : string) | FNewRef (item : string) | FTracked (id : string) (r : Ref)
  | FStored (id : string) (r : Ref) | FAbsent (r : Ref) | FDead (r : Ref) | FSeen (r : Ref) | FIssued (id : string) (n : option Ref).
(** With the reference the thread may yet apply, and its entry. *)
Record facts := mkFacts { f_own : option (string * Ref); f_list : list fact }.

Record Ghost := mkGhost {
  g_own : gmap nat (string * Ref); g_issued : gmap string (option Ref); g_ids : gmap string nat; g_items : gmap string nat
}.

Definition tracked (j : Journal) (id : string) (r : Ref) : Prop :=
  (eNewRef <$> j_files j !! id = Some (Some r)) /\ (eNewRef <$> j_durable j !! id = Some (Some r)).
Definition unowned (g : Ghost) (r : Ref) : Prop := forall t id, g_own g !! t <> Some (id, r).

Definition spoken (g : Ghost) (seen : Ref -> Prop) (r : Ref) : Prop := seen r \/ exists id, g_issued g !! id = Some (Some r).

Definition holds (g : Ghost) (w : World) (seen : Ref -> Prop) (t : nat) (f : fact) : Prop :=
  match f with
  | FLocked id => w_locks w !! id = Some t
  | FNewId id => g_ids g !! id = Some t /\ g_issued g !! id = None
  | FNewRef i => g_items g !! i = Some t /\ forall r, ItemID r = i -> ~ seen r /\ forall id, g_issued g !! id <> Some (Some r)
  | FTracked id r => w_locks w !! id = Some t /\ tracked (w_journal w) id r
  | FStored id r => g_own g !! t = Some (id, r) /\ is_Some (w_items w !! r)
  | FAbsent r => w_items w !! r = None /\ (forall t' id, t' <> t -> g_own g !! t' <> Some (id, r)) /\ spoken g seen r
  | FDead r => ~ live (w_config w) r /\ unowned g r /\ spoken g seen r
  | FSeen r => seen r
  | FIssued id n => g_issued g !! id = Some n
  end.

Definition entry_ok (g : Ghost) (seen : Ref -> Prop) (id : string) (e : JournalEntry) : Prop :=
  eID e = id /\ g_issued g !! id = Some (eNewRef e) /\
  (forall n, eNewRef e = Some n -> ref_IsEmpty n = false /\ (eStage e <> StageIntent -> seen n)) /\
  (forall o, eOldRef e = Some o -> ref_IsEmpty o = false -> seen o).

Record Inv (g : Ghost) (w : World) (seen : Ref -> Prop) : Prop := mkInv {
  i_known : forall r, known (w_config w) r -> seen r;
  i_live : forall r, live (w_config w) r -> is_Some (w_items w !! r);
  i_items : forall r, is_Some (w_items w !! r) -> seen r \/ exists id, tracked (w_journal w) id r;
  i_own : forall t id r, g_own g !! t = Some (id, r) ->
            w_locks w !! id = Some t /\ ~ seen r /\ g_issued g !! id = Some (Some r) /\ ref_IsEmpty r = false;
  i_inj : forall id id' r, g_issued g !! id = Some (Some r) -> g_issued g !! id' = Some (Some r) -> id = id';
  i_files : map_Forall (entry_ok g seen) (j_files (w_journal w));
  i_durable : map_Forall (entry_ok g seen) (j_durable (w_journal w));
  i_seen_used : forall r, seen r -> ItemID r ∈ w_usedItems w;
  i_issued_used : forall id n, g_issued g !! id = Some n -> id ∈ w_usedEntries w /\ forall r, n = Some r -> ItemID r ∈ w_usedItems w;
  i_ids_used : forall id t, g_ids g !! id = Some t -> id ∈ w_usedEntries w;
  i_fresh_used : forall i t, g_items g !! i = Some t -> i ∈ w_usedItems w
}.

(** ** What an operation needs, and what it teaches *)
Definition has (F : facts) (f : fact) : Prop := f ∈ f_list F.

Definition pre {X} (F : facts) (o : op X) : Prop :=
  match o with
  | Record_ e => has F (FLocked (eID e)) /\ has F (FNewId (eID e)) /\
      (forall r, eNewRef e = Some r -> f_own F = None /\ has F (FNewRef (ItemID r)) /\ ref_IsEmpty r = false) /\
      (forall o, eOldRef e = Some o -> ref_IsEmpty o = false -> has F (FSeen o))
  | Stage_ id stage => stage <> StageIntent /\ exists n, has F (FIssued id n) /\ forall r, n = Some r -> has F (FSeen r)
  | Remove id => has F (FLocked id) /\ exists n, has F (FIssued id n) /\ forall r, n = Some r -> has F (FSeen r) \/ has F (FAbsent r)
  | Put r _ => exists id, f_own F = Some (id, r) /\ has F (FTracked id r)
  | DeleteItem r => has F (FDead r) \/ exists id, f_own F = Some (id, r)
  | Apply _ _ (Some r) => exists id, f_own F = Some (id, r) /\ has F (FStored id r)
  | Check_ r => has F (FSeen r) \/ (f_own F = None /\ exists id, has F (FIssued id (Some r)) /\ has F (FLocked id))
  | _ => True
  end.

Definition about (id : string) (f : fact) : bool :=
  match f with FLocked i | FTracked i _ | FStored i _ => str_eq i id | _ => false end.
Definition dropped {X} (o : op X) (f : fact) : bool :=
  match o, f with
  | (Unlock id | Remove id), f => about id f
  | Record_ e, FNewId id => str_eq id (eID e)
  | Record_ e, FNewRef i => match eNewRef e with Some r => str_eq i (ItemID r) | None => false end
  | Put r _, FAbsent q => bool_decide (q = r)
  | DeleteItem r, FStored _ q => bool_decide (q = r)
  | Apply _ _ (Some r), FStored _ q => bool_decide (q = r)
  | _, _ => false
  end.

Definition entry_facts (e : JournalEntry) : list fact :=
  FIssued (eID e) (eNewRef e) ::
  (if str_eq (eStage e) StageIntent then [] else match eNewRef e with Some n => [FSeen n] | None => [] end) ++
  (match eOldRef e with Some o => if ref_IsEmpty o then [] else [FSeen o] | None => [] end).
Definition applied_now (a : MutationOutcome * string * option ConfigError) : bool :=
  Applied (fst (fst a)) || match snd a with None => true | Some _ => false end.
Definition gains {X} (F : facts) (o : op X) : X -> list fact :=
  match o in op X return X -> list fact with
  | NewItem => fun x => [FNewRef x]
  | NewEntry => fun x => [FNewId x]
  | Lock id => fun x => match x with LockHeld => [FLocked id] | _ => [] end
  | Record_ e => fun x => FIssued (eID e) (eNewRef e) :: (if x then match eNewRef e with Some r => [FTracked (eID e) r] | None => [] end else [])
  | Pending => fun x => match x with Some es => es ≫= entry_facts | None => [] end
  | Put r _ => fun x => if x then match f_own F with Some (id, _) => [FStored id r] | None => [] end else []
  | DeleteItem r => fun x => match x with DeleteFailed => [] | _ => [FAbsent r] end
  | Apply _ _ (Some r) => fun x => if applied_now x then [FSeen r] else []
  | Check_ r => fun x => match x with Ok true => [FDead r] | Ok false => [FSeen r] | Err _ => [] end
  | Confirm _ (Some r) => fun x => match x with Ok true => if ref_IsEmpty r then [] else [FSeen r] | _ => [] end
  | _ => fun _ => []
  end.
Definition drop_own (id : string) (own : option (string * Ref)) : option (string * Ref) :=
  match own with Some (i, r) => if str_eq i id then None else own | None => None end.
Definition own_after {X} (F : facts) (o : op X) : X -> option (string * Ref) :=
  match o in op X return X -> option (string * Ref) with
  | Record_ e => fun _ => match eNewRef e with Some r => Some (eID e, r) | None => f_own F end
  | Unlock id | Remove id => fun _ => drop_own id (f_own F)
  | Apply _ _ (Some _) => fun x => if applied_now x then None else f_own F
  | _ => fun _ => f_own F
  end.
Definition post {X} (F : facts) (o : op X) (x : X) : facts :=
  mkFacts (own_after F o x) (gains F o x ++ filter (fun f => dropped o f = false) (f_list F)).

(** A generated identifier is not one it has seen issued, and entries that are read are valid. *)
Definition possible {X} (F : facts) (o : op X) : X -> Prop :=
  match o in op X return X -> Prop with
  | NewEntry => fun x => forall n, ~ has F (FIssued x n)
  | Pending => fun x => forall es, x = Some es -> forall e, e ∈ es ->
      entry_Validate e = true /\ forall n, eNewRef e = Some n -> ref_IsEmpty n = false
  | _ => fun _ => True
  end.

(** A program never does what it has not learnt to be safe. *)
Fixpoint safe {A} (F : facts) (m : prog A) (Q : facts -> A -> Prop) : Prop :=
  match m with
  | Ret a => Q F a
  | Do o k => pre F o /\ forall x, possible F o x -> safe (post F o x) (k x) Q
  end.

Lemma safe_bind {A B} (f : A -> prog B) (Q : facts -> B -> Prop) (m : prog A) : forall F,
  safe F m (fun F a => safe F (f a) Q) -> safe F (prog_bind f m) Q.
Proof. induction m as [a|X o k IH]; intros F; simpl; [done|]. intros [Hp Hk]. split; [done|]. intros x Hx. by apply IH, Hk. Qed.
Lemma safe_mono {A} (Q Q' : facts -> A -> Prop) (m : prog A) : forall F,
  (forall F a, Q F a -> Q' F a) -> safe F m Q -> safe F m Q'.
Proof. induction m as [a|X o k IH]; intros F HQ; simpl; [auto|]. intros [Hp Hk]. split; [done|]. intros x Hx. by apply IH, Hk. Qed.

(** ** Steps keep the invariant and what other threads know *)
Record step_ok (D : fact -> bool) (t : nat) (g : Ghost) (w : World) (seen : Ref -> Prop)
    (g' : Ghost) (w' : World) (seen' : Ref -> Prop) (own' : option (string * Ref)) : Prop := mkStepOk {
  so_inv : Inv g' w' seen';
  so_others : forall t', t' <> t -> g_own g' !! t' = g_own g !! t';
  so_own : g_own g' !! t = own';
  so_holds : forall t' f, (t' <> t \/ D f = false) -> holds g w seen t' f -> holds g' w' seen' t' f
}.

Lemma Inv_seen g w (seen seen' : Ref -> Prop) : (forall r, seen r <-> seen' r) -> Inv g w seen -> Inv g w seen'.
Proof.
  intros E [I1 I2 I3 I4 I5 I6 I7 I8 I9 I10 I11].
  assert (forall id e, entry_ok g seen id e -> entry_ok g seen' id e) as He.
  { intros id e (Hi & Hs & Hn & Ho). split; [done|]. split; [done|]. split; [intros n H; destruct (Hn n H) as [Hx Hy]; split; [done|]; intros; by apply E, Hy|].
    intros o H1 H2. by apply E, Ho. }
  split; try done; [intros r H; by apply E, I1|intros r H; destruct (I3 r H); [left; by apply E|by right]| |
    intros id e H; by apply He, I6|intros id e H; by apply He, I7|intros r H; by apply I8, E].
  intros t id r H. destruct (I4 t id r H) as (? & Hs & ? & ?). split_and!; try done. intros Hx. by apply Hs, E.
Qed.
Lemma holds_seen g w (seen seen' : Ref -> Prop) t f : (forall r, seen r <-> seen' r) -> holds g w seen t f -> holds g w seen' t f.
Proof.
  intros E. assert (forall r, spoken g seen r -> spoken g seen' r) as Hsp by (intros r [?|?]; [left; by apply E|by right]).
  destruct f; simpl; try done; [|naive_solver..|by rewrite E]. intros [? H]. split; [done|]. intros r Hr. destruct (H r Hr) as [Hs ?]. split; [|done].
  intros Hx. by apply Hs, E.
Qed.
Lemma observed g w (seen : Ref -> Prop) w' : Inv g w seen -> (forall r, known (w_config w') r -> seen r) -> forall r, seen r <-> observe w' seen r.
Proof. intros I H r. unfold observe. split; [auto|]. intros [?|?]; auto. Qed.
Lemma step_ok_seen D t g w seen g' w' own' : Inv g w seen -> (forall r, known (w_config w') r -> seen r) ->
  step_ok D t g w seen g' w' seen own' -> step_ok D t g w seen g' w' (observe w' seen) own'.
Proof.
  intros I H [Hi Ho Hs Hh]. pose proof (observed g w seen w' I H) as E. split; [by eapply Inv_seen|done|done|].
  intros t' f Hf Hx. eapply holds_seen; [exact E|]. by apply Hh.
Qed.

(** *** Nothing that is spoken of changes *)
Lemma step_idle D t g w seen own' w' : Inv g w seen -> g_own g !! t = own' ->
  w_config w' = w_config w -> w_items w' = w_items w -> w_journal w' = w_journal w -> w_locks w' = w_locks w ->
  w_usedItems w' = w_usedItems w -> w_usedEntries w' = w_usedEntries w ->
  step_ok D t g w seen g w' seen own'.
Proof.
  intros [I1 I2 I3 I4 I5 I6 I7 I8 I9 I10 I11] Ho Ec Ei Ej El Eu Ee.
  split; [split; by rewrite ?Ec, ?Ei, ?Ej, ?El, ?Eu, ?Ee|done|done|].
  intros t' f _. by destruct f; simpl; rewrite ?Ec, ?Ei, ?Ej, ?El, ?Eu, ?Ee.
Qed.

(** *** The configuration *)
Lemma step_config D t g w seen own' c' : Inv g w seen -> g_own g !! t = own' ->
  (forall r, live c' r -> live (w_config w) r) -> (forall r, shown c' r -> known (w_config w) r) ->
  step_ok D t g w seen g (set_config w c') seen own'.
Proof.
  intros [I1 I2 I3 I4 I5 I6 I7 I8 I9 I10 I11] Ho Hl Hs.
  split; [split; simpl; try done|done|done|].
  - intros r [H|H]; apply I1; [left; auto|by apply Hs].
  - intros r H. apply I2. auto.
  - intros t' f _. destruct f; simpl; try done. intros (Hd & ? & ?). split_and!; [|done|done]. intros Hx. auto.
Qed.

(** *** Generated identifiers *)
Lemma step_new_item D t g w seen own' i : Inv g w seen -> g_own g !! t = own' -> i ∉ w_usedItems w ->
  let g' := mkGhost (g_own g) (g_issued g) (g_ids g) (<[i := t]> (g_items g)) in
  let w' := set_used w ({[i]} ∪ w_usedItems w) (w_usedEntries w) in
  step_ok D t g w seen g' w' seen own' /\ holds g' w' seen t (FNewRef i).
Proof.
  intros [I1 I2 I3 I4 I5 I6 I7 I8 I9 I10 I11] Ho Hi. split; [split; [split; simpl; try done|done|done|]|].
  - intros r H. apply elem_of_union_r. auto.
  - intros id n H. destruct (I9 id n H) as [? Hr]. split; [done|]. intros r Hn. apply elem_of_union_r. auto.
  - intros j t' [[-> ->]|[_ H]]%lookup_insert_Some; [apply elem_of_union_l; by apply elem_of_singleton|apply elem_of_union_r; eauto].
  - intros t' f _. destruct f as [| |j| | | | | |]; simpl; try done.
    intros [Hj H]. split; [|done]. rewrite lookup_insert_ne; [done|]. intros ->. apply Hi. by eapply I11.
  - simpl. split; [by rewrite lookup_insert_eq|]. intros r Hr. subst i. split; [intros H; by apply Hi, I8|].
    intros id H. destruct (I9 id _ H) as [_ Hu]. by apply Hi, Hu.
Qed.
Lemma step_new_entry D t g w seen own' id : Inv g w seen -> g_own g !! t = own' -> id ∉ w_usedEntries w ->
  let g' := mkGhost (g_own g) (g_issued g) (<[id := t]> (g_ids g)) (g_items g) in
  let w' := set_used w (w_usedItems w) ({[id]} ∪ w_usedEntries w) in
  step_ok D t g w seen g' w' seen own' /\ holds g' w' seen t (FNewId id).
Proof.
  intros [I1 I2 I3 I4 I5 I6 I7 I8 I9 I10 I11] Ho Hi.
  assert (g_issued g !! id = None) as Hnone.
  { destruct (g_issued g !! id) eqn:E; [|done]. destruct (I9 _ _ E) as [Hx _]. done. }
  split; [split; [split; simpl; try done|done|done|]|].
  - intros id' n H. destruct (I9 id' n H) as [? Hr]. split; [by apply elem_of_union_r|done].
  - intros j t' [[-> ->]|[_ H]]%lookup_insert_Some; [apply elem_of_union_l; by apply elem_of_singleton|apply elem_of_union_r; eauto].
  - intros t' f _. destruct f; simpl; try done. intros [Hj H]. split; [|done]. rewrite lookup_insert_ne; [done|]. intros ->. apply Hi. by eapply I10.
  - simpl. by rewrite lookup_insert_eq.
Qed.

(** *** Locks *)
Lemma step_lock D t g w seen own' id : Inv g w seen -> g_own g !! t = own' -> w_locks w !! id = None ->
  step_ok D t g w seen g (set_locks w (<[id := t]> (w_locks w))) seen own'.
Proof.
  intros [I1 I2 I3 I4 I5 I6 I7 I8 I9 I10 I11] Ho Hn.
  assert (forall i t', w_locks w !! i = Some t' -> <[id := t]> (w_locks w) !! i = Some t') as Hl.
  { intros i t' H. rewrite lookup_insert_ne; [done|]. intros ->. by rewrite Hn in H. }
  split; [split; simpl; try done|done|done|].
  - intros t' i r H. destruct (I4 t' i r H) as (? & ? & ? & ?). split_and!; auto.
  - intros t' f _. destruct f; simpl; try done; [apply Hl|]. intros [? ?]. auto.
Qed.

Definition disown (g : Ghost) (t : nat) (id : string) : Ghost :=
  mkGhost (match drop_own id (g_own g !! t) with Some x => <[t := x]> (g_own g) | None => delete t (g_own g) end)
    (g_issued g) (g_ids g) (g_items g).
Lemma disown_own g t id t' : g_own (disown g t id) !! t' = if decide (t' = t) then drop_own id (g_own g !! t) else g_own g !! t'.
Proof.
  unfold disown. simpl. destruct (decide (t' = t)) as [->|Hne]; destruct (drop_own id (g_own g !! t)) eqn:E;
    by rewrite ?lookup_insert_eq, ?lookup_delete_eq, ?lookup_insert_ne, ?lookup_delete_ne.
Qed.
Lemma disown_some g t id t' i r : g_own (disown g t id) !! t' = Some (i, r) -> g_own g !! t' = Some (i, r) /\ (t' <> t \/ i <> id).
Proof.
  rewrite disown_own. destruct (decide (t' = t)) as [->|Hne]; [|auto]. unfold drop_own. destruct (g_own g !! t) as [[j q]|]; [|done].
  destruct (str_eq j id) eqn:E; [done|]. intros [= -> ->]. split; [done|]. right. by apply str_eq_false.
Qed.

Lemma about_false id f i : about id f = false ->
  match f with FLocked j | FTracked j _ | FStored j _ => j = i | _ => False end -> i <> id.
Proof. by destruct f; simpl; try done; intros E%str_eq_false ->. Qed.

(** A thread gives an entry up: its lock, when it has it, and the right to apply its reference. *)
Lemma step_release t g w seen own' id locks : Inv g w seen -> g_own g !! t = own' ->
  (locks = w_locks w \/ (w_locks w !! id = Some t /\ locks = delete id (w_locks w))) ->
  step_ok (about id) t g w seen (disown g t id) (set_locks w locks) seen (drop_own id own').
Proof.
  intros [I1 I2 I3 I4 I5 I6 I7 I8 I9 I10 I11] Ho Hl.
  assert (forall i t', w_locks w !! i = Some t' -> t' <> t \/ i <> id -> locks !! i = Some t') as Hk.
  { intros i t' H Hne. destruct Hl as [->|[Hid ->]]; [done|]. rewrite lookup_delete_ne; [done|]. intros ->.
    rewrite Hid in H. injection H as ->. by destruct Hne. }
  split.
  - split; simpl; try done. intros t' i r H. apply disown_some in H as [H Hne]. destruct (I4 t' i r H) as (? & ? & ? & ?).
    split_and!; auto.
  - intros t' Hne. rewrite disown_own. by rewrite decide_False.
  - rewrite disown_own, decide_True by done. by rewrite Ho.
  - intros t' f Hf. assert (forall i, match f with FLocked j | FTracked j _ | FStored j _ => j = i | _ => False end -> t' <> t \/ i <> id) as Ha.
    { intros i Hi. destruct Hf as [?|Hf]; [by left|]. right. by eapply about_false. }
    destruct f; cbn [holds set_locks w_locks w_items w_journal w_config w_usedItems g_issued g_ids g_items disown]; try done.
    + intros H. apply Hk; [done|]. by apply Ha.
    + intros [H ?]. split; [|done]. apply Hk; [done|]. by apply Ha.
    + intros [H ?]. split; [|done]. change (g_own (disown g t id) !! t' = Some (id0, r)). rewrite disown_own.
      destruct (decide (t' = t)) as [->|]; [|done]. rewrite H. simpl. destruct (Ha id0 eq_refl) as [?|Hne]; [done|].
      by rewrite (proj2 (str_eq_false _ _) Hne).
    + intros (? & H & ?). split_and!; try done. intros t'' i Ht'' Hx. apply disown_some in Hx as [Hx _]. by eapply H.
    + intros (? & H & ?). split_and!; try done. intros t'' i Hx. apply disown_some in Hx as [Hx _]. by eapply H.
Qed.

Lemma step_trans D t g w seen g1 w1 own1 g2 w2 seen2 own2 :
  step_ok D t g w seen g1 w1 seen own1 -> step_ok D t g1 w1 seen g2 w2 seen2 own2 -> step_ok D t g w seen g2 w2 seen2 own2.
Proof.
  intros [A1 A2 A3 A4] [B1 B2 B3 B4]. split; try done.
  - intros t' Hne. by rewrite B2, A2.
  - intros t' f Hf H. apply B4, A4; done.
Qed.

(** *** The journal *)
Lemma tracked_same j j' id id' r : (j_files j' !! id' = j_files j !! id') -> (j_durable j' !! id' = j_durable j !! id') ->
  id = id' -> tracked j id r -> tracked j' id r.
Proof. unfold tracked. intros E1 E2 ->. by rewrite E1, E2. Qed.

(** Files change, at one entry, to entries that are in order. *)
Lemma step_journal D t g w seen own' id j : Inv g w seen -> g_own g !! t = own' ->
  (forall i, i <> id -> j_files j !! i = j_files (w_journal w) !! i /\ j_durable j !! i = j_durable (w_journal w) !! i) ->
  (forall e, j_files j !! id = Some e \/ j_durable j !! id = Some e -> entry_ok g seen id e) ->
  (forall r, tracked (w_journal w) id r -> tracked j id r \/ ((seen r \/ w_items w !! r = None) /\
     forall t', w_locks w !! id = Some t' -> t' = t /\ D (FTracked id r) = true)) ->
  step_ok D t g w seen g (set_journal w j) seen own'.
Proof.
  intros [I1 I2 I3 I4 I5 I6 I7 I8 I9 I10 I11] Ho Hj He Ht. split; [split; simpl; try done|done|done|].
  - intros r Hr. destruct (I3 r Hr) as [?|[i Hi]]; [by left|]. destruct (decide (i = id)) as [->|Hne].
    + destruct (Ht r Hi) as [?|[[?|Hx] _]]; [by right; exists id|by left|]. rewrite Hx in Hr. by destruct Hr.
    + right. exists i. destruct (Hj i Hne). by eapply tracked_same.
  - intros i e H. destruct (decide (i = id)) as [->|Hne]; [apply He; auto|]. destruct (Hj i Hne) as [Hx _]. rewrite Hx in H. by apply I6.
  - intros i e H. destruct (decide (i = id)) as [->|Hne]; [apply He; auto|]. destruct (Hj i Hne) as [_ Hx]. rewrite Hx in H. by apply I7.
  - intros t' f Hf. destruct f as [| | |i r| | | | |]; simpl; try done. intros [H Hx]. split; [done|].
    destruct (decide (i = id)) as [->|Hne]; [|destruct (Hj i Hne); by eapply tracked_same].
    destruct (Ht r Hx) as [?|[_ Hd]]; [done|]. destruct (Hd _ H) as [-> HD]. destruct Hf as [?|Hf]; [done|]. by rewrite Hf in HD.
Qed.

Lemma put_files j r e i : i <> eID e -> j_files (journal_put j r e) !! i = j_files j !! i /\ j_durable (journal_put j r e) !! i = j_durable j !! i.
Proof. intros H. by destruct r; simpl; rewrite ?lookup_insert_ne. Qed.
Lemma put_entry j r e e' : j_files (journal_put j r e) !! eID e = Some e' \/ j_durable (journal_put j r e) !! eID e = Some e' ->
  e' = e \/ j_files j !! eID e = Some e' \/ j_durable j !! eID e = Some e'.
Proof. destruct r; simpl; rewrite ?lookup_insert_eq; naive_solver. Qed.
Lemma put_tracked j r e r0 : (forall e', j_files j !! eID e = Some e' -> eNewRef e' = eNewRef e) ->
  tracked j (eID e) r0 -> tracked (journal_put j r e) (eID e) r0.
Proof.
  intros Hs [H1 H2]. unfold tracked. destruct (j_files j !! eID e) as [e'|] eqn:E; [|done]. simpl in H1.
  assert (eNewRef e = Some r0) as Hn by (rewrite <- (Hs e' eq_refl); congruence).
  destruct r; simpl; rewrite ?E, ?lookup_insert_eq; simpl; rewrite ?Hn; split; congruence || done.
Qed.


Definition issue (g : Ghost) (t : nat) (e : JournalEntry) : Ghost :=
  mkGhost (match eNewRef e with Some r => <[t := (eID e, r)]> (g_own g) | None => g_own g end)
    (<[eID e := eNewRef e]> (g_issued g)) (g_ids g) (g_items g).
Definition fresh_for (g : Ghost) (w : World) (seen : Ref -> Prop) (t : nat) (e : JournalEntry) : Prop :=
  holds g w seen t (FLocked (eID e)) /\ holds g w seen t (FNewId (eID e)) /\
  forall r, eNewRef e = Some r -> g_own g !! t = None /\ holds g w seen t (FNewRef (ItemID r)) /\ ref_IsEmpty r = false.

Lemma issue_own g t e t' i r : g_own (issue g t e) !! t' = Some (i, r) ->
  g_own g !! t' = Some (i, r) \/ (t' = t /\ i = eID e /\ eNewRef e = Some r).
Proof.
  unfold issue. simpl. destruct (eNewRef e) as [q|]; [|auto]. intros [[-> [= -> ->]]|[_ H]]%lookup_insert_Some; auto.
Qed.
Lemma issue_issued g t e i n : g_issued (issue g t e) !! i = Some n -> (i = eID e /\ n = eNewRef e) \/ (i <> eID e /\ g_issued g !! i = Some n).
Proof. unfold issue. simpl. intros [[-> ->]|[? H]]%lookup_insert_Some; auto. Qed.

(** An entry gets its identifier, and the thread may apply its reference. *)
Lemma step_issue t g w seen e : Inv g w seen -> fresh_for g w seen t e ->
  step_ok (dropped (Record_ e)) t g w seen (issue g t e) w seen
    (match eNewRef e with Some r => Some (eID e, r) | None => g_own g !! t end) /\ g_issued (issue g t e) !! eID e = Some (eNewRef e).
Proof.
  intros [I1 I2 I3 I4 I5 I6 I7 I8 I9 I10 I11] (Hlock & [Hid Hnone] & Hnew).
  assert (forall i, i <> eID e -> g_issued (issue g t e) !! i = g_issued g !! i) as Hother by (intros; unfold issue; simpl; by rewrite lookup_insert_ne).
  assert (forall i n, g_issued g !! i = Some n -> g_issued (issue g t e) !! i = Some n) as Hkeep.
  { intros i n H. rewrite Hother; [done|]. intros ->. by rewrite Hnone in H. }
  assert (forall i e0, entry_ok g seen i e0 -> entry_ok (issue g t e) seen i e0) as He.
  { intros i e0 (? & Hi & ?). split; [done|]. split; [by apply Hkeep|done]. }
  split; [|unfold issue; simpl; by rewrite lookup_insert_eq]. split.
  - split; try done; [| |intros i e0 H; by apply He, I6|intros i e0 H; by apply He, I7|].
    + intros t' i r H. apply issue_own in H as [H|(-> & -> & Hr)].
      * destruct (I4 _ _ _ H) as (? & ? & ? & ?). split_and!; auto.
      * destruct (Hnew r Hr) as (_ & [_ Hfr] & ?). split_and!; [done|by apply (Hfr r eq_refl)| |done]. unfold issue. simpl. by rewrite lookup_insert_eq, Hr.
    + intros i i' r H H'. apply issue_issued in H as [[-> Hr]|[Hi H]]; apply issue_issued in H' as [[-> Hr']|[Hi' H']]; try done.
      * destruct (Hnew r) as (_ & [_ Hfr] & _); [done|]. by destruct (Hfr r eq_refl) as [_ Hx]; destruct (Hx i').
      * destruct (Hnew r) as (_ & [_ Hfr] & _); [done|]. by destruct (Hfr r eq_refl) as [_ Hx]; destruct (Hx i).
      * by eapply I5.
    + intros i n H. apply issue_issued in H as [[-> ->]|[_ H]]; [|by apply I9]. split; [by eapply I10|]. intros r Hr.
      destruct (Hnew r Hr) as (_ & [Hx _] & _). by eapply I11.
  - intros t' Hne. unfold issue. simpl. destruct (eNewRef e); [by rewrite lookup_insert_ne|done].
  - unfold issue. simpl. destruct (eNewRef e); [by rewrite lookup_insert_eq|done].
  - intros t' f Hf. assert (forall q, spoken g seen q -> spoken (issue g t e) seen q) as Hsp by (intros q [?|[i ?]]; [by left|right; eauto]).
    assert (forall q, spoken g seen q -> eNewRef e <> Some q) as Hnot.
    { intros q Hq Hr. destruct (Hnew q Hr) as (_ & [_ Hfr] & _). destruct (Hfr q eq_refl) as [H1 H2]. destruct Hq as [?|[i ?]]; [done|by eapply H2]. }
    destruct f as [|id|i| |id r|r|r| |id n]; simpl; try done.
    + intros [H1 H2]. split; [done|]. rewrite lookup_insert_ne; [done|]. intros Heq. subst id. destruct Hf as [Hf|Hf]; [congruence|].
      simpl in Hf. by rewrite str_eq_refl in Hf.
    + intros [H1 H2]. split; [done|]. intros r Hr. destruct (H2 r Hr) as [? Hx]. split; [done|]. intros id Hi. simpl in Hi.
      apply lookup_insert_Some in Hi as [[_ He']|[_ Hi]]; [|by eapply Hx]. destruct (Hnew r He') as (_ & [Hg _] & _). rewrite Hr in Hg.
      destruct Hf as [Hf|Hf]; [congruence|]. simpl in Hf. rewrite He', <- Hr, str_eq_refl in Hf. done.
    + intros [H1 H2]. split; [|done]. change (g_own (issue g t e) !! t' = Some (id, r)). unfold issue. simpl.
      destruct (eNewRef e) as [q|] eqn:Hq; [|done]. destruct (Hnew q eq_refl) as (Hno & _). rewrite lookup_insert_ne; [done|]. intros ->. congruence.
    + intros (H1 & H2 & H3). split_and!; [done| |by apply Hsp]. intros t'' i Hne Hx. apply (issue_own g t e t'' i r) in Hx as [Hx|(_ & _ & Hx)];
        [by eapply H2|by eapply Hnot].
    + intros (H1 & H2 & H3). split_and!; [done| |by apply Hsp]. intros t'' i Hx. apply issue_own in Hx as [Hx|(_ & _ & Hx)];
        [by eapply H2|by eapply Hnot].
    + apply Hkeep.
Qed.


Lemma entry_issued g w seen id e : Inv g w seen -> j_files (w_journal w) !! id = Some e \/ j_durable (w_journal w) !! id = Some e -> entry_ok g seen id e.
Proof. intros I [H|H]; [by apply (i_files _ _ _ I)|by apply (i_durable _ _ _ I)]. Qed.
Lemma tracked_issued g w seen id r : Inv g w seen -> tracked (w_journal w) id r -> g_issued g !! id = Some (Some r).
Proof.
  intros I [H _]. apply fmap_Some in H as (e & He & Hr). destruct (entry_issued g w seen id e I (or_introl He)) as (_ & Hi & _). congruence.
Qed.
Lemma owners_differ g w seen t t' id id' r : Inv g w seen -> g_own g !! t = Some (id, r) -> g_own g !! t' = Some (id', r) -> t = t'.
Proof.
  intros I H H'. destruct (i_own _ _ _ I _ _ _ H) as (Hl & _ & Hi & _). destruct (i_own _ _ _ I _ _ _ H') as (Hl' & _ & Hi' & _).
  rewrite (i_inj _ _ _ I _ _ _ Hi Hi') in Hl. congruence.
Qed.

Lemma step_record t g w seen e r now j ok : Inv g w seen -> fresh_for g w seen t e ->
  (forall o, eOldRef e = Some o -> ref_IsEmpty o = false -> seen o) -> RecordIntent (w_journal w) r now e = (j, ok) ->
  step_ok (dropped (Record_ e)) t g w seen (issue g t e) (set_journal w j) seen
    (match eNewRef e with Some r => Some (eID e, r) | None => g_own g !! t end) /\
  g_issued (issue g t e) !! eID e = Some (eNewRef e) /\
  (ok = true -> forall n, eNewRef e = Some n -> tracked j (eID e) n).
Proof.
  intros I Hf Hold Hrec. destruct (step_issue t g w seen e I Hf) as [S Hi]. destruct Hf as (Hl & [Hid Hnone] & Hnew).
  assert (forall e0, ~ (j_files (w_journal w) !! eID e = Some e0 \/ j_durable (w_journal w) !! eID e = Some e0)) as Habs.
  { intros e0 He. destruct (entry_issued g w seen _ _ I He) as (_ & Hx & _). by rewrite Hnone in Hx. }
  unfold RecordIntent in Hrec. set (e' := stamp e now) in *. assert (eID e' = eID e) as Eid by done.
  assert ((j = journal_put (w_journal w) r e' /\ ok = went_through r) \/ (j = w_journal w /\ ok = false)) as Hj
    by (destruct (entry_Validate e'); injection Hrec as <- <-; auto). clear Hrec.
  split; [|split; [done|]].
  - eapply step_trans; [exact S|]. eapply (step_journal _ _ _ _ _ _ (eID e)); [exact (so_inv _ _ _ _ _ _ _ _ _ S)|exact (so_own _ _ _ _ _ _ _ _ _ S)| | |].
    + intros i Hne. destruct Hj as [[-> _]|[-> _]]; [|done]. by apply put_files.
    + intros e0 H0. assert (e0 = e') as ->.
      { destruct Hj as [[-> _]|[-> _]]; [|by destruct (Habs e0)]. rewrite <- Eid in H0. apply put_entry in H0 as [->|H0]; [done|]. by destruct (Habs e0). }
      split; [done|]. split; [done|]. split; [|done]. intros n Hn. destruct (Hnew n Hn) as (_ & _ & ?). split; [done|]. intros Hx. by destruct Hx.
    + intros q [Hq _]. apply fmap_Some in Hq as (e0 & He0 & _). destruct (Habs e0). by left.
  - intros -> n Hn. destruct Hj as [[-> Hr]|[_ ?]]; [|done]. destruct r; try done. simpl. unfold tracked. simpl. rewrite <- Eid, !lookup_insert_eq. simpl.
    unfold e', stamp. simpl. by rewrite Hn.
Qed.

Lemma step_stage D t g w seen own' r now id stage j ok n : Inv g w seen -> g_own g !! t = own' ->
  stage <> StageIntent -> g_issued g !! id = Some n -> (forall r, n = Some r -> seen r) ->
  updateStage (w_journal w) r now id stage = (j, ok) -> step_ok D t g w seen g (set_journal w j) seen own'.
Proof.
  intros I Ho Hs Hi Hn. unfold updateStage, readEntry. destruct (validateJournalID id); [|intros [= <- <-]; by apply step_idle; destruct w].
  destruct (j_files (w_journal w) !! id) as [e|] eqn:E; [|intros [= <- <-]; by apply step_idle; destruct w].
  destruct (entry_Validate e && str_eq (eID e) id); [|intros [= <- <-]; by apply step_idle; destruct w]. intros [= <- <-].
  destruct (entry_issued g w seen id e I (or_introl E)) as (Eid & Hi' & Hn' & Hold). set (e' := set_stage e stage now).
  assert (eID e' = id) as Eid' by done. apply (step_journal _ _ _ _ _ _ id); [done|done| | |].
  - intros i Hne. apply put_files. by rewrite Eid'.
  - intros e0 H0. rewrite <- Eid' in H0. apply put_entry in H0 as [->|H0]; [|apply (entry_issued g w); [done|by rewrite <- Eid']].
    split; [done|]. split; [done|]. split; [|done]. intros q Hq. simpl in Hq. destruct (Hn' q Hq) as [? _]. split; [done|]. intros _. apply Hn. congruence.
  - intros q Hq. left. rewrite <- Eid' in Hq |- *. apply put_tracked; [|done]. rewrite Eid'. intros e1 H1. rewrite E in H1. by injection H1 as <-.
Qed.

Lemma step_remove t g w seen own' r id j unlocked ok n : Inv g w seen -> g_own g !! t = own' -> w_locks w !! id = Some t ->
  g_issued g !! id = Some n -> (forall r, n = Some r -> seen r \/ w_items w !! r = None) ->
  journal_remove (w_journal w) r id = (j, unlocked, ok) ->
  step_ok (about id) t g w seen (disown g t id)
    (if unlocked then set_locks (set_journal w j) (delete id (w_locks w)) else set_journal w j) seen (drop_own id own').
Proof.
  intros I Ho Hl Hi Hn Hr.
  assert (step_ok (about id) t g w seen g (set_journal w j) seen own') as S.
  { apply (step_journal _ _ _ _ _ _ id); [done|done| | |].
    - intros i Hne. unfold journal_remove in Hr. destruct (validateJournalID id); [|by injection Hr as <-].
      destruct r; injection Hr as <- <- <-; simpl; by rewrite ?lookup_delete_ne.
    - intros e He. apply (entry_issued g w); [done|]. unfold journal_remove in Hr. destruct (validateJournalID id); [|by injection Hr as <-].
      destruct r; injection Hr as <- <- <-; simpl in He; rewrite ?lookup_delete_eq in He; naive_solver.
    - intros q Hq. right. pose proof (tracked_issued g w seen id q I Hq) as Hq'. split; [apply Hn; congruence|].
      intros t' Ht'. split; [congruence|]. simpl. apply str_eq_refl. }
  eapply step_trans; [exact S|].
  pose proof (so_inv _ _ _ _ _ _ _ _ _ S) as I'. destruct unlocked.
  - apply (step_release t g (set_journal w j)); [done|done|]. right. done.
  - pose proof (step_release t g (set_journal w j) seen own' id (w_locks w) I' Ho (or_introl eq_refl)) as R. by destruct w.
Qed.


(** *** The stores *)
Lemma step_put t g w seen own' r secret id : Inv g w seen -> g_own g !! t = own' -> own' = Some (id, r) -> tracked (w_journal w) id r ->
  step_ok (dropped (Put r secret)) t g w seen g (set_items w (<[r := secret]> (w_items w))) seen own'.
Proof.
  intros I Ho Hown Htr. subst own'. pose proof I as [I1 I2 I3 I4 I5 I6 I7 I8 I9 I10 I11].
  assert (forall q, is_Some (w_items w !! q) -> is_Some (<[r := secret]> (w_items w) !! q)) as Hk.
  { intros q Hq. destruct (decide (r = q)) as [->|]; [by rewrite lookup_insert_eq|by rewrite lookup_insert_ne]. }
  split; [split; simpl; try done|done|done|].
  - intros q H. by apply Hk, I2.
  - intros q H. destruct (decide (r = q)) as [<-|]; [right; by exists id|]. rewrite lookup_insert_ne in H by done. by apply I3.
  - intros t' f Hf. destruct f; simpl; try done; [intros [? ?]; split; [done|by apply Hk]|].
    intros (H1 & H2 & H3). split_and!; [|done|done]. rewrite lookup_insert_ne; [done|]. intros ->. destruct Hf as [Hf|Hf]; [by apply (H2 t id); [|congruence]|].
    simpl in Hf. by rewrite bool_decide_eq_true_2 in Hf.
Qed.

(** A reference nobody may still apply and no configuration holds, or the thread's own. *)
Definition erasable (g : Ghost) (w : World) (seen : Ref -> Prop) (t : nat) (r : Ref) : Prop :=
  holds g w seen t (FDead r) \/ exists id, g_own g !! t = Some (id, r).
Lemma step_delete t g w seen own' r : Inv g w seen -> g_own g !! t = own' -> erasable g w seen t r ->
  step_ok (dropped (DeleteItem r)) t g w seen g (set_items w (delete r (w_items w))) seen own' /\
  holds g (set_items w (delete r (w_items w))) seen t (FAbsent r).
Proof.
  intros I Ho He. pose proof I as [I1 I2 I3 I4 I5 I6 I7 I8 I9 I10 I11].
  assert (forall t' id, t' <> t -> g_own g !! t' <> Some (id, r)) as Hothers.
  { intros t' id Hne Hx. destruct He as [(_ & H & _)|[i H]]; [by eapply H|]. by apply Hne, (owners_differ g w seen t' t id i r). }
  split.
  - split; [split; simpl; try done|done|done|].
    + intros q H. rewrite lookup_delete_ne; [by apply I2|]. intros <-. destruct He as [(Hd & _)|[i Hi]]; [done|].
      destruct (I4 _ _ _ Hi) as (_ & Hs & _). apply Hs, I1. by left.
    + intros q H. apply I3. destruct (decide (r = q)) as [<-|]; [rewrite lookup_delete_eq in H; by destruct H|by rewrite lookup_delete_ne in H].
    + intros t' f Hf. destruct f; simpl; try done.
      * intros [H1 H2]. split; [done|]. rewrite lookup_delete_ne; [done|]. intros <-. destruct Hf as [Hf|Hf]; [by eapply Hothers|].
        simpl in Hf. by rewrite bool_decide_eq_true_2 in Hf.
      * intros (H1 & ? & ?). split_and!; try done. apply lookup_delete_None. by right.
  - simpl. split; [apply lookup_delete_eq|]. split; [done|]. destruct He as [(_ & _ & ?)|[i Hi]]; [done|]. right. exists i. by apply I4 in Hi as (_ & _ & ? & _).
Qed.

(** *** A reference is applied *)
Definition leave_off (g : Ghost) (t : nat) : Ghost := mkGhost (delete t (g_own g)) (g_issued g) (g_ids g) (g_items g).
Lemma leave_off_own g t t' i q : g_own (leave_off g t) !! t' = Some (i, q) -> t' <> t /\ g_own g !! t' = Some (i, q).
Proof. simpl. intros [? H]%lookup_delete_Some. done. Qed.

Lemma step_applied t g w seen r id c' tg v : Inv g w seen -> g_own g !! t = Some (id, r) -> is_Some (w_items w !! r) ->
  (forall q, live c' q -> live (w_config w) q \/ q = r) -> (forall q, shown c' q -> known (w_config w) q \/ q = r) -> live c' r ->
  step_ok (dropped (Apply tg v (Some r))) t g w seen (leave_off g t) (set_config w c') (observe (set_config w c') seen) None.
Proof.
  intros I Ho Hst Hl Hsh Hr. pose proof I as [I1 I2 I3 I4 I5 I6 I7 I8 I9 I10 I11].
  destruct (I4 _ _ _ Ho) as (Hlock & Hns & Hiss & Hne).
  assert (forall q, observe (set_config w c') seen q <-> seen q \/ q = r) as Hs.
  { intros q. unfold observe, known. simpl. split.
    - intros [?|[H|H]]; [by left|destruct (Hl q H); [left; apply I1; by left|by right]|destruct (Hsh q H); [left; by apply I1|by right]].
    - intros [?| ->]; [by left|right; by left]. }
  assert (forall i e, entry_ok g seen i e -> entry_ok g (observe (set_config w c') seen) i e) as He.
  { intros i e (? & ? & Hn & Hold). split; [done|]. split; [done|]. split; [intros n Hx; destruct (Hn n Hx) as [? Hy]; split; [done|]; intros; left; auto|].
    intros o Hx Hy. left. by eapply Hold. }
  assert (forall q, spoken g seen q -> spoken (leave_off g t) (observe (set_config w c') seen) q) as Hsp by (intros q [?|?]; [left; by left|by right]).
  split; [split; simpl; try done|..].
  - intros q H. right. done.
  - intros q H. destruct (Hl q H) as [?| ->]; [by apply I2|done].
  - intros q H. destruct (I3 q H); [left; by left|by right].
  - intros t' i q H. apply leave_off_own in H as [Hne' H]. destruct (I4 _ _ _ H) as (? & Hns' & ? & ?). split_and!; try done.
    rewrite Hs. intros [?| ->]; [done|]. by apply Hne', (owners_differ g w seen t' t i id r).
  - intros i e H. by apply He, I6.
  - intros i e H. by apply He, I7.
  - intros q. rewrite Hs. intros [?| ->]; [by apply I8|]. by eapply I9.
  - intros t' Hne'. simpl. by rewrite lookup_delete_ne.
  - simpl. apply lookup_delete_eq.
  - intros t' f Hf. destruct f as [| |i| |i q|q|q|q|]; simpl; try done.
    + intros [? H]. split; [done|]. intros q Hq. destruct (H q Hq) as [Hx Hy]. split; [|done]. rewrite Hs. intros [?| ->]; [done|]. by eapply Hy.
    + intros [H1 H2]. split; [|done]. rewrite lookup_delete_ne; [done|]. intros <-. destruct Hf as [Hf|Hf]; [done|]. simpl in Hf.
      assert (q = r) as -> by congruence. by rewrite bool_decide_eq_true_2 in Hf.
    + intros (? & H & ?). split_and!; [done| |by apply Hsp]. intros t'' i' Hne'' Hx. apply (leave_off_own g t t'' i' q) in Hx as [_ Hx]. by eapply H.
    + intros (Hd & H & ?). split_and!; [|intros t'' i' Hx; apply (leave_off_own g t t'' i' q) in Hx as [_ Hx]; by eapply H|by apply Hsp].
      intros Hx. destruct (Hl q Hx) as [?| ->]; [done|]. by eapply H.
    + intros ?. by left.
Qed.


(** ** One operation *)
Lemma quiet_ok D t g w seen g' w' own' (gs : list fact) : Inv g w seen -> step_ok D t g w seen g' w' seen own' ->
  (forall q, known (w_config w') q -> known (w_config w) q) -> (forall f, f ∈ gs -> holds g' w' seen t f) ->
  exists g', step_ok D t g w seen g' w' (observe w' seen) own' /\ forall f, f ∈ gs -> holds g' w' (observe w' seen) t f.
Proof.
  intros I S Hc Hg. assert (forall q, known (w_config w') q -> seen q) as Hk by (intros q H; by apply (i_known _ _ _ I), Hc).
  exists g'. split; [by apply step_ok_seen|]. intros f Hf. eapply holds_seen; [by apply (observed g w)|]. by apply Hg.
Qed.
Lemma config_ok D t g w seen own' c' (gs : list fact) : Inv g w seen -> g_own g !! t = own' ->
  (forall r, live c' r -> live (w_config w) r) -> (forall r, shown c' r -> known (w_config w) r) ->
  (forall f, f ∈ gs -> holds g (set_config w c') seen t f) ->
  exists g', step_ok D t g w seen g' (set_config w c') (observe (set_config w c') seen) own' /\
    forall f, f ∈ gs -> holds g' (set_config w c') (observe (set_config w c') seen) t f.
Proof.
  intros I Ho Hl Hs Hg. apply (quiet_ok _ _ _ _ _ g); [done|by apply step_config| |done].
  intros q [H|H]; [left; by apply Hl|by apply Hs].
Qed.

Lemma list_entries g w seen es : Inv g w seen -> ListPending (w_journal w) = Some es -> forall e, e ∈ es ->
  entry_ok g seen (eID e) e /\ entry_Validate e = true.
Proof.
  intros I H e He. unfold ListPending in H. apply mapM_Some in H. apply list_elem_of_lookup in He as [i Hi].
  destruct (Forall2_lookup_r _ _ _ _ _ H Hi) as (id & _ & Hr). destruct (validateJournalID id); [|done].
  unfold readEntry in Hr. destruct (j_files (w_journal w) !! id) as [e0|] eqn:E; [|done].
  destruct (entry_Validate e0 && str_eq (eID e0) id) eqn:Hv; [|done]. injection Hr as ->. apply andb_true_iff in Hv as [? ->%str_eq_spec].
  split; [|done]. apply (entry_issued g w); [done|by left].
Qed.
Lemma entry_facts_hold g w seen t e : entry_ok g seen (eID e) e -> forall f, f ∈ entry_facts e -> holds g w seen t f.
Proof.
  intros (_ & Hi & Hn & Ho) f. unfold entry_facts. rewrite elem_of_cons, elem_of_app. intros [->|[H|H]]; [done|..].
  - destruct (str_eq (eStage e) StageIntent) eqn:E; [by apply elem_of_nil in H|]. destruct (eNewRef e) as [n|] eqn:En; [|by apply elem_of_nil in H].
    apply list_elem_of_singleton in H as ->. simpl. apply str_eq_false in E. by apply (Hn n).
  - destruct (eOldRef e) as [o|] eqn:Eo; [|by apply elem_of_nil in H]. destruct (ref_IsEmpty o) eqn:Ee; [by apply elem_of_nil in H|].
    apply list_elem_of_singleton in H as ->. by apply (Ho o).
Qed.

(** Whoever locks the entry of a reference knows that nobody may still apply it. *)
Lemma locked_unowned g w seen t id r : Inv g w seen -> g_own g !! t = None -> g_issued g !! id = Some (Some r) -> w_locks w !! id = Some t -> unowned g r.
Proof.
  intros I Ho Hi Hl t' id' H. destruct (i_own _ _ _ I _ _ _ H) as (Hl' & _ & Hi' & _). rewrite (i_inj _ _ _ I _ _ _ Hi' Hi) in Hl'.
  assert (t' = t) as -> by congruence. by rewrite H in Ho.
Qed.
Lemma seen_unowned g w seen r : Inv g w seen -> seen r -> unowned g r.
Proof. intros I Hs t id H. by apply (i_own _ _ _ I) in H as (_ & ? & _). Qed.

Lemma handle_ok p t ev X (o : op X) g w seen w' x F : Inv g w seen -> handle p t ev o w = Some (w', x) -> g_own g !! t = f_own F ->
  (forall f, has F f -> holds g w seen t f) -> pre F o ->
  exists g', step_ok (dropped o) t g w seen g' w' (observe w' seen) (own_after F o x) /\
    forall f, f ∈ gains F o x -> holds g' w' (observe w' seen) t f.
Proof.
  intros I Hh Ho HF Hp. destruct o as [| |id|id|id|id|id|e|id stage|id| |r secret|r|r|r|tg v n|r|tg r|a]; cbn [handle] in Hh; cbn [gains own_after].
  - destruct (bool_decide _) eqn:E; [done|]. injection Hh as <- <-. apply bool_decide_eq_false in E.
    destruct (step_new_item (dropped NewItem) t g w seen (f_own F) (ev_id ev) I Ho E) as [S Hg]. eapply quiet_ok; [done|exact S|done|].
    intros f ->%list_elem_of_singleton. exact Hg.
  - destruct (bool_decide _) eqn:E; [done|]. injection Hh as <- <-. apply bool_decide_eq_false in E.
    destruct (step_new_entry (dropped NewEntry) t g w seen (f_own F) (ev_id ev) I Ho E) as [S Hg]. eapply quiet_ok; [done|exact S|done|].
    intros f ->%list_elem_of_singleton. exact Hg.
  - injection Hh as <- <-. eapply quiet_ok; [done|by apply step_idle|done|]. by intros f ?%elem_of_nil.
  - injection Hh as <- <-. eapply quiet_ok; [done|by apply step_idle|done|]. by intros f ?%elem_of_nil.
  - injection Hh as <- <-. eapply quiet_ok; [done|by apply step_idle|done|]. by intros f ?%elem_of_nil.
  - destruct (negb _ || negb _); [|destruct (w_locks w !! id) eqn:E].
    + injection Hh as <- <-. eapply quiet_ok; [done|by apply step_idle|done|]. by intros f ?%elem_of_nil.
    + injection Hh as <- <-. eapply quiet_ok; [done|by apply step_idle|done|]. by intros f ?%elem_of_nil.
    + injection Hh as <- <-. eapply quiet_ok; [done|by apply (step_lock _ _ _ _ _ (f_own F))|done|].
      intros f ->%list_elem_of_singleton. simpl. by rewrite lookup_insert_eq.
  - injection Hh as <- <-. eapply quiet_ok; [done| | |by intros f ?%elem_of_nil].
    + destruct (bool_decide _) eqn:E.
      * apply bool_decide_eq_true in E. apply step_release; [done|done|]. by right.
      * pose proof (step_release t g w seen (f_own F) id (w_locks w) I Ho (or_introl eq_refl)) as R. by destruct w.
    + by destruct (bool_decide _).
  - destruct (RecordIntent _ _ _ e) as [j ok] eqn:Er. injection Hh as <- <-. destruct Hp as (Hp1 & Hp2 & Hp3 & Hp4).
    assert (fresh_for g w seen t e) as Hf.
    { split; [by apply HF|]. split; [by apply HF|]. intros r Hr. destruct (Hp3 r Hr) as (? & ? & ?). split_and!; [congruence|by apply HF|done]. }
    assert (forall o, eOldRef e = Some o -> ref_IsEmpty o = false -> seen o) as Hold.
    { intros o H1 H2. apply (HF (FSeen o)). by apply Hp4. }
    destruct (step_record t g w seen e _ _ j ok I Hf Hold Er) as (S & Hi & Htr). rewrite Ho in S. eapply quiet_ok; [done|exact S|done|].
    intros f [->|Hx]%elem_of_cons; [done|]. destruct ok; [|by apply elem_of_nil in Hx]. destruct (eNewRef e) as [n|] eqn:En; [|by apply elem_of_nil in Hx].
    apply list_elem_of_singleton in Hx as ->. split; [exact (HF _ Hp1)|]. by apply Htr.
  - destruct (updateStage _ _ _ id stage) as [j ok] eqn:Eu. injection Hh as <- <-. destruct Hp as (Hs & n & Hi & Hn).
    eapply quiet_ok; [done| |done|by intros f ?%elem_of_nil].
    eapply step_stage; [done|done|done|exact (HF _ Hi)| |exact Eu]. intros r Hr. exact (HF _ (Hn r Hr)).
  - destruct (journal_remove _ _ id) as [[j unlocked] ok] eqn:Er. injection Hh as <- <-. destruct Hp as (Hl & n & Hi & Hn).
    eapply quiet_ok; [done| |by destruct unlocked|by intros f ?%elem_of_nil].
    eapply step_remove; [done|done|exact (HF _ Hl)|exact (HF _ Hi)| |exact Er].
    intros r Hr. destruct (Hn r Hr) as [H|H]; [left; exact (HF _ H)|right]. by destruct (HF _ H).
  - injection Hh as <- <-. eapply quiet_ok; [done|by apply step_idle|done|]. intros f Hf.
    destruct (went_through _); [|by apply elem_of_nil in Hf]. destruct (ListPending _) as [es|] eqn:El; [|by apply elem_of_nil in Hf].
    apply list_elem_of_bind in Hf as (e & Hf & He). eapply entry_facts_hold; [|exact Hf]. by apply (list_entries g w seen es).
  - destruct Hp as (id & Hown & Htr). rewrite Hown in Ho. assert (w_config w' = w_config w /\ (x = true -> is_Some (w_items w' !! r))) as [Ec Hst].
    { destruct (ev_reach ev); injection Hh as <- <-; split; try done. intros _. simpl. by rewrite lookup_insert_eq. }
    eapply (quiet_ok _ _ _ _ _ g); [done| |by rewrite Ec|].
    + destruct (ev_reach ev); injection Hh as <- <-; rewrite Hown; [by apply step_idle|..];
        (eapply step_put; [done|done|done|by apply (HF _ Htr)]).
    + rewrite Hown. intros f Hf. destruct x; [|by apply elem_of_nil in Hf]. apply list_elem_of_singleton in Hf as ->. split; [done|]. by apply Hst.
  - injection Hh as <- <-. eapply quiet_ok; [done|by apply step_idle|done|]. by intros f ?%elem_of_nil.
  - assert (erasable g w seen t r) as He. { destruct Hp as [H|[id H]]; [left; exact (HF _ H)|right; exists id; congruence]. }
    destruct (step_delete t g w seen (f_own F) r I Ho He) as [S Hg].
    destruct (ev_reach ev); injection Hh as <- <-; (eapply quiet_ok; [done|first [by apply step_idle|exact S]|done|]);
      [by intros f ?%elem_of_nil|by intros f ?%elem_of_nil|].
    destruct (bool_decide _); by intros f ->%list_elem_of_singleton.
  - injection Hh as <- <-. eapply quiet_ok; [done|by apply step_idle|done|]. by intros f ?%elem_of_nil.
  - destruct (ApplyCredentialRefAtVersion _ _ _ _ _ _) as [[[c out] ver] err] eqn:Ea. injection Hh as <- <-.
    destruct (apply_live _ _ _ _ _ _ _ _ _ _ Ea) as [Hl Hs]. destruct n as [r|].
    + destruct Hp as (id & Hown & Hst). rewrite Hown in Ho. unfold applied_now. cbn [fst snd]. destruct (Applied out || _) eqn:Eap.
      * assert (Applied out = true) as Hap.
        { destruct (Applied out) eqn:Ex; [done|]. destruct err; [done|]. by destruct (apply_error _ _ _ _ _ _ _ _ _ _ Ea eq_refl) as [? _]; congruence. }
        destruct (i_own _ _ _ I _ _ _ Ho) as (_ & _ & _ & Hne). exists (leave_off g t). split.
        -- eapply step_applied; [done|done|by apply (HF _ Hst)| | |by eapply apply_recorded].
           ++ intros q Hq. destruct (Hl q Hq) as [?|[_ ?]]; [by left|right; congruence].
           ++ intros q Hq. destruct (Hs q Hq) as [?|[_ ?]]; [by left|right; congruence].
        -- intros f ->%list_elem_of_singleton. right. left. by eapply apply_recorded.
      * apply orb_false_iff in Eap as [Eap _]. eapply config_ok; [done|by rewrite Hown| | |by intros f ?%elem_of_nil].
        -- intros q Hq. destruct (Hl q Hq) as [?|[Hx _]]; [done|congruence].
        -- intros q Hq. destruct (Hs q Hq) as [?|[Hx _]]; [done|congruence].
    + eapply config_ok; [done|done| | |by intros f ?%elem_of_nil].
      * intros q Hq. by destruct (Hl q Hq) as [?|[_ ?]].
      * intros q Hq. by destruct (Hs q Hq) as [?|[_ ?]].
  - destruct (CheckRefUnreferenced _ _ _ _) as [c res] eqn:Ec. injection Hh as <- <-.
    destruct (check_live _ _ _ _ _ _ Ec) as (Hl & Hs & Ht & Hf). eapply config_ok; [done|done|done|done|].
    intros f Hg. destruct res as [[]|]; [..|by apply elem_of_nil in Hg]; apply list_elem_of_singleton in Hg as ->; simpl.
    + split; [by apply Ht|]. destruct Hp as [H|(Hno & id & Hi & Hk)].
      * pose proof (HF _ H) as Hseen. split; [by eapply seen_unowned|]. by left.
      * split; [eapply (locked_unowned g w seen t); [done|congruence|exact (HF _ Hi)|exact (HF _ Hk)]|]. right. exists id. exact (HF _ Hi).
    + apply (i_known _ _ _ I). by apply Hf.
  - destruct (ConfirmRefDurable _ _ _ _ _) as [c res] eqn:Ec. injection Hh as <- <-.
    destruct (confirm_live _ _ _ _ _ _ _ Ec) as (Hl & Hs & Ht). eapply config_ok; [done|done|done|done|].
    intros f Hg. destruct r as [r|]; [|by apply elem_of_nil in Hg]. destruct res as [[]|]; [|by apply elem_of_nil in Hg..].
    destruct (ref_IsEmpty r) eqn:He; [by apply elem_of_nil in Hg|].
    apply list_elem_of_singleton in Hg as ->. simpl. apply (i_known _ _ _ I). left. by apply Ht.
  - destruct (CommitAssets _ _ _ _) as [[c out] err] eqn:Ec. injection Hh as <- <-.
    destruct (commit_live _ _ _ _ _ _ _ Ec) as (Hl & Hs). eapply config_ok; [done|done|done|done|]. by intros f ?%elem_of_nil.
Qed.


Lemma handle_possible p t ev X (o : op X) g w seen w' x F : Inv g w seen -> handle p t ev o w = Some (w', x) ->
  (forall f, has F f -> holds g w seen t f) -> possible F o x.
Proof.
  intros I Hh HF. destruct o; simpl in *; try done.
  - destruct (bool_decide _) eqn:E; [done|]. injection Hh as <- <-.
    apply bool_decide_eq_false in E. intros n Hn. apply E. by apply (i_issued_used _ _ _ I _ n), (HF _ Hn).
  - injection Hh as <- <-. destruct (went_through _); [|done]. intros es Hes e He.
    destruct (list_entries g w seen es I Hes e He) as [(_ & _ & Hn & _) ?]. split; [done|]. intros n Hx. by apply (Hn n).
Qed.

Lemma has_kept {X} F (o : op X) x f : dropped o f = false -> has F f -> has (post F o x) f.
Proof. intros Hd Hf. apply elem_of_app. right. by apply list_elem_of_filter. Qed.
Lemma has_gained {X} F (o : op X) x f : f ∈ gains F o x -> has (post F o x) f.
Proof. intros H. apply elem_of_app. by left. Qed.
Lemma has_post {X} F (o : op X) x f : has (post F o x) f -> f ∈ gains F o x \/ (dropped o f = false /\ has F f).
Proof. intros [?|[? ?]%list_elem_of_filter]%elem_of_app; auto. Qed.

(** ** Processes come and go *)
Definition keep_owners (keep : nat -> bool) (g : Ghost) : Ghost :=
  mkGhost (filter (fun x => keep (fst x) = true) (g_own g)) (g_issued g) (g_ids g) (g_items g).
Lemma keep_own keep g t x : g_own (keep_owners keep g) !! t = Some x <-> g_own g !! t = Some x /\ keep t = true.
Proof. simpl. by rewrite map_lookup_filter_Some. Qed.
Lemma keep_own_none keep g t : keep t = true -> g_own (keep_owners keep g) !! t = g_own g !! t.
Proof. intros Hk. apply option_eq. intros x. rewrite keep_own. naive_solver. Qed.

Lemma survivors keep g w seen locks : Inv g w seen ->
  (forall id t, w_locks w !! id = Some t -> keep t = true -> locks !! id = Some t) ->
  Inv (keep_owners keep g) (set_locks w locks) seen /\
  forall t f, keep t = true -> holds g w seen t f -> holds (keep_owners keep g) (set_locks w locks) seen t f.
Proof.
  intros [I1 I2 I3 I4 I5 I6 I7 I8 I9 I10 I11] Hl. split; [split; simpl; try done|].
  - intros t id r H. apply keep_own in H as [H Hk]. destruct (I4 _ _ _ H) as (? & ? & ? & ?). split_and!; auto.
  - intros t f Hk. destruct f; cbn [holds set_locks w_locks w_journal w_items w_config g_ids g_items g_issued keep_owners]; try done.
    + by intros ?; apply Hl.
    + intros [? ?]. auto.
    + intros [? ?]. split; [by apply keep_own|done].
    + intros (? & H & ?). split_and!; try done. intros t' id Hne Hx. apply (keep_own keep g t') in Hx as [Hx _]. by eapply H.
    + intros (? & H & ?). split_and!; try done. intros t' id Hx. apply (keep_own keep g t') in Hx as [Hx _]. by eapply H.
Qed.

Lemma journal_survives g w seen files : Inv g w seen -> survives (w_journal w) files -> Inv g (set_journal w (mkJournal files files)) seen.
Proof.
  intros [I1 I2 I3 I4 I5 I6 I7 I8 I9 I10 I11] Hs. split; simpl; try done.
  - intros r H. destruct (I3 r H) as [?|[id [H1 H2]]]; [by left|]. right. exists id. unfold tracked. simpl.
    by destruct (Hs id) as [-> | ->].
  - intros id e H. destruct (Hs id) as [Hx|Hx]; rewrite Hx in H; [by apply I6|by apply I7].
  - intros id e H. destruct (Hs id) as [Hx|Hx]; rewrite Hx in H; [by apply I6|by apply I7].
Qed.

Definition thread_ok (g : Ghost) (w : World) (seen : Ref -> Prop) (t : nat) (m : prog unit) : Prop :=
  exists F, g_own g !! t = f_own F /\ (forall f, has F f -> holds g w seen t f) /\ safe F m (fun _ _ => True).
Definition sys_ok (s : Sys) : Prop :=
  exists g, Inv g (s_world s) (s_seen s) /\
  (forall t p m, s_threads s !! t = Some (p, m) -> thread_ok g (s_world s) (s_seen s) t m) /\
  (forall t, s_threads s !! t = None -> g_own g !! t = None).

Lemma cached_keeps s c : sys_ok s -> sys_ok (mkSys (set_cached (s_world s) c) (s_threads s) (s_seen s)).
Proof.
  intros (g & I & Ht & Hn). destruct (step_idle (fun _ => false) 0%nat g _ _ _ (set_cached (s_world s) c) I eq_refl
    eq_refl eq_refl eq_refl eq_refl eq_refl eq_refl) as [I' _ _ Hh].
  exists g. split; [done|]. split; [|done]. intros t p m Hm. destruct (Ht t p m Hm) as (F & Ho & HF & Hs). exists F.
  split; [done|]. split; [|done]. intros f Hf. apply Hh; [by right|]. by apply HF.
Qed.

Lemma op_keeps s t p X (o : op X) (k : X -> prog unit) ev w' x : sys_ok s ->
  s_threads s !! t = Some (p, Do o k) -> handle p t ev o (s_world s) = Some (w', x) ->
  sys_ok (at_world s w' (<[t := (p, k x)]> (s_threads s))).
Proof.
  intros (g & I & Ht & Hn) Hl Hh. destruct (Ht t p _ Hl) as (F & Ho & HF & Hp & Hk).
  destruct (handle_ok p t ev X o g _ _ w' x F I Hh Ho HF Hp) as (g' & [I' Hoth Hown Hhold] & Hg).
  exists g'. split; [done|]. split; cbn [at_world s_threads s_world s_seen].
  - intros t' p' m Hm. destruct (decide (t = t')) as [<-|Hne].
    + rewrite lookup_insert_eq in Hm. injection Hm as <- <-. exists (post F o x). split; [done|]. split.
      * intros f Hf. apply has_post in Hf as [Hf|[Hd Hf]]; [by apply Hg|]. apply Hhold; [by right|]. by apply HF.
      * apply Hk. exact (handle_possible _ _ _ _ _ _ _ _ _ _ _ I Hh HF).
    + rewrite lookup_insert_ne in Hm by done. destruct (Ht t' p' m Hm) as (F' & Ho' & HF' & Hs'). exists F'. split; [by rewrite Hoth|].
      split; [|done]. intros f Hf. apply Hhold; [by left|]. by apply HF'.
  - intros t' Hx. destruct (decide (t' = t)) as [->|Hne]; [by rewrite lookup_insert_eq in Hx|].
    rewrite lookup_insert_ne in Hx by done. rewrite Hoth by done. by apply Hn.
Qed.

Lemma elsewhere_keeps s c' : sys_ok s -> elsewhere (w_config (s_world s)) c' ->
  sys_ok (at_world s (set_config (s_world s) c') (s_threads s)).
Proof.
  intros (g & I & Ht & Hn) He. destruct (elsewhere_live _ _ He) as [Hl Hs].
  destruct (config_ok (fun _ => false) 0%nat g _ _ (g_own g !! 0%nat) c' [] I eq_refl Hl Hs) as (g' & [I' Hoth Hown Hhold] & _).
  { by intros f ?%elem_of_nil. }
  assert (forall t, g_own g' !! t = g_own g !! t) as Eo by (intros t; destruct (decide (t = 0%nat)) as [->|]; [done|by apply Hoth]).
  exists g'. split; [done|]. split; cbn [at_world s_threads s_world s_seen]; [|intros t H; rewrite Eo; by apply Hn].
  intros t p m Hm. destruct (Ht t p m Hm) as (F & Ho & HF & Hsafe). exists F. split; [by rewrite Eo|]. split; [|done].
  intros f Hf. apply Hhold; [by right|]. by apply HF.
Qed.

Lemma kill_keeps s keep locks active : sys_ok s ->
  (forall id t, w_locks (s_world s) !! id = Some t -> keep t = true -> locks !! id = Some t) ->
  sys_ok (mkSys (set_active (set_locks (s_world s) locks) active) (filter (fun x => keep (fst x) = true) (s_threads s)) (s_seen s)).
Proof.
  intros (g & I & Ht & Hn) Hl. destruct (survivors keep g _ _ locks I Hl) as [I' Hk].
  pose proof (step_idle (fun _ => false) 0%nat (keep_owners keep g) _ _ _ (set_active (set_locks (s_world s) locks) active) I' eq_refl
    eq_refl eq_refl eq_refl eq_refl eq_refl eq_refl) as [I'' _ _ Hh].
  exists (keep_owners keep g). cbn [s_world s_threads s_seen]. split; [done|]. split.
  - intros t p m [Hm Hkt]%map_lookup_filter_Some. simpl in Hkt. destruct (Ht t p m Hm) as (F & Ho & HF & Hs). exists F.
    split; [by rewrite keep_own_none|]. split; [|done]. intros f Hf. apply Hh; [by right|]. apply Hk; [done|]. by apply HF.
  - intros t H. apply eq_None_not_Some. intros [x Hx]. apply keep_own in Hx as [Hx Hkt].
    destruct (s_threads s !! t) as [[p m]|] eqn:E; [|by rewrite Hn in Hx]. eapply map_lookup_filter_None in H as [H|H]; [congruence|].
    by apply (H (p, m)).
Qed.


(** ** The calls are safe *)
Definition lasting (f : fact) : bool := match f with FLocked _ | FSeen _ | FIssued _ _ => true | _ => false end.
Definition extends (F F' : facts) : Prop := f_own F' = f_own F /\ forall f, lasting f = true -> has F f -> has F' f.
#[global] Instance extends_preorder : PreOrder extends.
Proof.
  split; [by split|]. intros F1 F2 F3 [H1 H2] [H3 H4]. split; [congruence|auto].
Qed.
Definition quiet_op {X} (o : op X) : bool :=
  match o with
  | Unlock _ | Remove _ | Record_ _ | Apply _ _ (Some _) => false
  | _ => true
  end.
Lemma extends_post {X} F (o : op X) x : quiet_op o = true -> extends F (post F o x).
Proof.
  intros Hq. split; [by destruct o as [| | | | | | | | | | | | | | |? ? []| | |]|].
  intros f Hl Hf. apply has_kept; [|done]. by destruct o as [| | | | | | | | | | | | | | |? ? []| | |], f.
Qed.

Ltac know :=
  first [ eassumption
        | match goal with
          | |- has (post _ _ _) _ => first [ apply has_kept; [reflexivity|know] | apply has_gained; cbn; solve [repeat constructor] ]
          | H : extends ?F ?F' |- has ?F' _ => apply (proj2 H); [reflexivity|know]
          | |- has ?F _ => is_var F; progress unfold F; know
          end ].

(** An operation followed by the rest. *)
Lemma safe_do {X A} F (o : op X) (k : X -> prog A) Q : pre F o -> (forall x, possible F o x -> safe (post F o x) (k x) Q) ->
  safe F (prog_bind k (call o)) Q.
Proof. done. Qed.
(** A quiet operation followed by what is safe with what was known. *)
Lemma safe_quiet {X A} F (o : op X) (k : X -> prog A) Q : quiet_op o = true -> pre F o ->
  (forall F' x, extends F F' -> (forall f, f ∈ gains F o x -> has F' f) -> safe F' (k x) Q) -> safe F (prog_bind k (call o)) Q.
Proof. intros Hq Hp H. apply safe_do; [done|]. intros x _. apply H; [by apply extends_post|]. intros f Hf. by apply has_gained. Qed.

Section Programs.
Variable reg : Registry.

Lemma deleteItem_safe F r (Q : facts -> option service_error -> Prop) : has F (FDead r) \/ (exists id, f_own F = Some (id, r)) ->
  (forall F' e, extends F F' -> (e = None -> has F' (FAbsent r)) -> Q F' e) -> safe F (deleteItem r) Q.
Proof.
  intros Hp HQ. apply safe_quiet; [done|done|]. intros F' x He Hg. apply HQ; [done|]. intros Hx. apply Hg. destruct x; [constructor..|done].
Qed.

(** What is known of an entry that is being worked on. *)
Definition entry_known (F : facts) (id : string) (n : option Ref) : Prop :=
  has F (FLocked id) /\ has F (FIssued id n).
Definition seen_if (F : facts) (r : option Ref) : Prop := forall q, r = Some q -> ref_IsEmpty q = false -> has F (FSeen q).
Definition new_seen (F : facts) (n : option Ref) : Prop := forall q, n = Some q -> has F (FSeen q).

Lemma known_extends F F' id n : extends F F' -> entry_known F id n -> entry_known F' id n.
Proof. intros [_ H] [? ?]. split; by apply H. Qed.
Lemma seen_extends F F' r : extends F F' -> seen_if F r -> seen_if F' r.
Proof. intros [_ H] Hs q Hq He. apply H; [done|]. by apply Hs. Qed.
Lemma new_extends F F' r : extends F F' -> new_seen F r -> new_seen F' r.
Proof. intros [_ H] Hs q Hq. apply H; [done|]. by apply Hs. Qed.
Hint Resolve known_extends seen_extends new_extends : xops.

Lemma stage_pre F id n stage : stage <> StageIntent -> entry_known F id n -> new_seen F n -> pre F (Stage_ id stage).
Proof. intros Hs [_ Hi] Hn. split; [done|]. by exists n. Qed.
Lemma remove_pre F id n : entry_known F id n -> new_seen F n -> pre F (Remove id).
Proof. intros [Hl Hi] Hn. split; [done|]. exists n. split; [done|]. intros r Hr. left. by apply Hn. Qed.

Lemma stage_safe {A} F id n stage (k : bool -> prog A) Q : stage <> StageIntent -> entry_known F id n -> new_seen F n ->
  (forall F' ok, extends F F' -> safe F' (k ok) Q) -> safe F (prog_bind k (call (Stage_ id stage))) Q.
Proof. intros Hs Hk Hn H. apply safe_quiet; [done|by eapply stage_pre|]. intros F' x He _. by apply H. Qed.

Lemma cleanupOldRef_safe F id n old Q : entry_known F id n -> new_seen F n -> seen_if F old ->
  (forall F' e, extends F F' -> Q F' e) -> safe F (cleanupOldRefOnRotate reg id old) Q.
Proof.
  intros Hk Hn Hs HQ. unfold cleanupOldRefOnRotate. destruct old as [old|]; [|by apply HQ]. destruct (ref_IsEmpty old) eqn:Ee; [by apply HQ|].
  assert (forall F' (res : option service_error), extends F F' -> safe F' (call (Invalidate old) ;;; Ret res) Q) as Hend.
  { intros F' res E. apply safe_quiet; [done|done|]. intros F2 ? E2 _. apply HQ. by etrans. }
  apply safe_bind, safe_quiet; [done|left; by apply Hs|]. intros F1 [[]|] E1 Hg.
  - destruct (getWritableStore reg (StoreID old)).
    + apply safe_bind, deleteItem_safe; [left; apply Hg; constructor|]. intros F2 e E2 _. destruct e; [|by apply Hend; etrans].
      eapply stage_safe; [done|by eauto using known_extends|by eauto using new_extends|]. intros F3 ? E3. apply Hend. by do 2 (etrans; [eassumption|]).
    + eapply stage_safe; [done|by eauto using known_extends|by eauto using new_extends|]. intros F3 ? E3. apply Hend. by etrans.
  - by apply Hend.
  - eapply stage_safe; [done|by eauto using known_extends|by eauto using new_extends|]. intros F3 ? E3. apply Hend. by etrans.
Qed.

Lemma compensate_safe F id r e (Q : facts -> service_error -> Prop) : f_own F = Some (id, r) -> entry_known F id (Some r) ->
  (forall F' e, Q F' e) -> safe F (compensateNewRef id r e) Q.
Proof.
  intros Ho Hk HQ. apply safe_bind, deleteItem_safe; [right; by exists id|]. intros F1 [e1|] E1 Ha; [apply HQ|].
  apply safe_do; [|intros x _; apply HQ]. destruct (known_extends _ _ _ _ E1 Hk) as [Hl Hi]. split; [done|]. exists (Some r). split; [done|].
  intros q [= <-]. right. by apply Ha.
Qed.

Definition entry_new (F : facts) (id : string) : Prop := has F (FLocked id) /\ has F (FNewId id).

Lemma rotate_safe F target v old new secret id : entry_new F id -> f_own F = None -> has F (FNewRef (ItemID new)) ->
  ref_IsEmpty new = false -> seen_if F old -> safe F (rotate_body reg target v old new secret id) (fun _ _ => True).
Proof.
  intros [Hl Hn] Ho Hi He Hold. unfold rotate_body. apply safe_do.
  { split; [done|]. split; [done|]. split; [by intros r [= <-]|done]. }
  intros ok _. set (e := mkEntry _ _ _ _ _ _ _ _ _). set (F1 := post F (Record_ e) ok).
  destruct ok; [|done]. cbn [negb]. unfold putAndVerifySecret. apply safe_bind, safe_do; [exists id; split; [done|]; know|].
  intros stored _. set (F2 := post F1 _ _).
  assert (f_own F2 = Some (id, new)) as Ho2 by done. assert (entry_known F2 id (Some new)) as Hk2 by (split; know).
  assert (seen_if F2 old) as Hs2 by (intros q Hq Hx; specialize (Hold q Hq Hx); know).
  destruct stored; [|by apply safe_bind, compensate_safe].
  assert (has F2 (FStored id new)) as Hst by (apply has_gained; simpl; constructor). clearbody F2. clear F1.
  apply safe_do; [done|]. intros back _. set (F3 := post F2 _ _).
  assert (extends F2 F3) as E3 by (by apply extends_post).
  assert (f_own F3 = Some (id, new)) as Ho3 by done. assert (entry_known F3 id (Some new)) as Hk3 by (by eapply known_extends).
  assert (seen_if F3 old) as Hs3 by (by eapply seen_extends). assert (has F3 (FStored id new)) as Hst3 by know. clearbody F3.
  destruct back as [s|]; [|by apply safe_bind, compensate_safe]. cbn [safe]. destruct (str_eq s secret); [|by apply safe_bind, compensate_safe].
  apply safe_do; [by exists id|]. intros [[outcome ver] casErr] _. set (F4 := post F3 _ _).
  assert (entry_known F4 id (Some new)) as Hk4 by (destruct Hk3; split; know).
  assert (seen_if F4 old) as Hs4 by (intros q Hq Hx; specialize (Hs3 q Hq Hx); know).
  destruct casErr as [e1|]; [destruct (Applied outcome) eqn:Ea|]; cbn [negb].
  - assert (new_seen F4 (Some new)) as Hn4.
    { intros q [= <-]. apply has_gained. cbn [gains]. unfold applied_now. simpl. rewrite Ea. constructor. }
    eapply stage_safe; [done|done|done|done].
  - apply safe_bind, compensate_safe; [|done|done]. unfold F4, post. cbn [f_own own_after]. unfold applied_now. simpl. by rewrite Ea.
  - assert (new_seen F4 (Some new)) as Hn4.
    { intros q [= <-]. apply has_gained. cbn [gains]. unfold applied_now. simpl. rewrite orb_true_r. constructor. }
    eapply stage_safe; [done|done|done|]. intros F5 ok5 E5. apply safe_bind.
    eapply cleanupOldRef_safe; [by eapply known_extends|by eapply new_extends|by eapply seen_extends|]. intros F6 [e6|] E6; [done|].
    apply safe_do; [|done]. eapply remove_pre; [by do 2 (eapply known_extends; [eassumption|])|by do 2 (eapply new_extends; [eassumption|])].
Qed.

Lemma with_entry_safe {A} F (failed : lock_result -> A) (body : string -> prog A) :
  (forall F' id, extends F F' -> entry_new F' id -> (forall i, has F (FNewRef i) -> has F' (FNewRef i)) -> safe F' (body id) (fun _ _ => True)) ->
  safe F (with_entry failed body) (fun _ _ => True).
Proof.
  intros H. unfold with_entry. apply safe_do; [done|]. intros id _. apply safe_do; [done|]. intros [] _. apply safe_do; [done|]. intros l _.
  destruct l; [|done..]. apply safe_bind. eapply safe_mono; [|apply H].
  - intros F' a _. simpl. done.
  - do 2 (etrans; [|by apply extends_post]). by apply extends_post.
  - split; know.
  - intros i Hi. know.
Qed.

Lemma Rotate_safe F target v old storeID secret : f_own F = None -> seen_if F old ->
  safe F (Rotate reg target v old storeID secret) (fun _ _ => True).
Proof.
  intros Ho Hold. unfold Rotate. destruct (validateRotateParams target storeID old secret) as [[]|] eqn:Hv; [|done].
  destruct (getWritableStore reg storeID); [|done]. apply safe_do; [done|]. intros item _. apply with_entry_safe. intros F' id He Hn Hi.
  apply rotate_safe; [done| |apply Hi; know| |].
  - destruct He as [-> _]. done.
  - unfold validateRotateParams in Hv. destruct (target_Validate target); [|done]. apply bind_reject_ok in Hv as [_ Hv].
    destruct (validateRefIdentifier "storeID" storeID) eqn:Es; [|done]. unfold validateRefIdentifier in Es. apply bind_reject_ok in Es as [Es _].
    unfold ref_IsEmpty. simpl. destruct (str_eq storeID "") eqn:E0; [|done]. apply str_eq_spec in E0. subst storeID. done.
  - eapply seen_extends; [exact He|]. intros q Hq Hx. specialize (Hold q Hq Hx). know.
Qed.

Lemma delete_safe F target v ref id : entry_new F id -> ref_IsEmpty ref = false -> has F (FSeen ref) ->
  safe F (delete_body reg target v ref id) (fun _ _ => True).
Proof.
  intros [Hl Hn] He Hs. unfold delete_body. apply safe_do; [split; [done|]; split; [done|]; split; [done|by intros q [= <-]]|].
  intros ok _. set (e := mkEntry _ _ _ _ _ _ _ _ _). set (F1 := post F (Record_ e) ok).
  assert (entry_known F1 id None) as Hk1 by (split; know). assert (has F1 (FSeen ref)) as Hs1 by know. clearbody F1.
  destruct ok; [|done]. cbn [negb]. apply safe_quiet; [done|done|]. intros F2 [[outcome ver] casErr] E2 _.
  assert (entry_known F2 id None) as Hk2 by (by eapply known_extends). assert (new_seen F2 None) as Hn2 by done. assert (has F2 (FSeen ref)) as Hs2 by know.
  destruct casErr as [e2|]; [destruct (Applied outcome); cbn [negb]|].
  - eapply stage_safe; done.
  - apply safe_do; [by eapply remove_pre|done].
  - eapply stage_safe; [done..|]. intros F3 ? E3. assert (entry_known F3 id None) as Hk3 by (by eapply known_extends). assert (has F3 (FSeen ref)) as Hs3 by know.
    apply safe_quiet; [done|by left|]. intros F4 [[]|] E4 Hg; [|apply safe_do; [eapply remove_pre; [by eapply known_extends|done]|done]|
      eapply stage_safe; [done|by eapply known_extends|done..]].
    destruct (getWritableStore reg (StoreID ref)); [|eapply stage_safe; [done|by eapply known_extends|done..]].
    apply safe_quiet; [done|left; apply Hg; constructor|]. intros F5 d E5 _. assert (entry_known F5 id None) as Hk5 by (by do 2 (eapply known_extends; [eassumption|])).
    destruct d; [apply safe_quiet; [done|done|]; intros F6 ? E6 _; apply safe_do; [eapply remove_pre; [by eapply known_extends|done]|done]|eapply stage_safe; done..].
Qed.
Lemma Delete_safe F target v ref : seen_if F (Some ref) -> safe F (Delete reg target v ref) (fun _ _ => True).
Proof.
  intros Hs. unfold Delete. destruct (target_Validate target); [|done]. destruct (ref_Validate ref); [|done]. destruct (ref_IsEmpty ref) eqn:He; [done|].
  apply with_entry_safe. intros F' id E Hn _. apply delete_safe; [done|done|]. apply (proj2 E); [done|]. by apply Hs.
Qed.

(** *** Recovery *)
Definition entry_given (F : facts) (e : JournalEntry) : Prop := forall f, f ∈ entry_facts e -> has F f.
Lemma entry_facts_lasting e f : f ∈ entry_facts e -> lasting f = true.
Proof.
  unfold entry_facts. rewrite elem_of_cons, elem_of_app. intros [->|[H|H]]; [done|..].
  - destruct (str_eq _ _); [by apply elem_of_nil in H|]. destruct (eNewRef e); [by apply list_elem_of_singleton in H as ->|by apply elem_of_nil in H].
  - destruct (eOldRef e) as [o|]; [|by apply elem_of_nil in H]. destruct (ref_IsEmpty o); [by apply elem_of_nil in H|by apply list_elem_of_singleton in H as ->].
Qed.
Lemma given_extends F F' e : extends F F' -> entry_given F e -> entry_given F' e.
Proof. intros [_ H] Hg f Hf. apply H; [by eapply entry_facts_lasting|]. by apply Hg. Qed.
Lemma given_known F e : entry_given F e -> has F (FLocked (eID e)) -> entry_known F (eID e) (eNewRef e).
Proof. intros Hg Hl. split; [done|]. apply Hg. constructor. Qed.
Lemma given_old F e : entry_given F e -> seen_if F (eOldRef e).
Proof. intros Hg q Hq He. apply Hg. unfold entry_facts. rewrite Hq, He. rewrite elem_of_cons, elem_of_app. right. right. constructor. Qed.
Lemma given_new F e : entry_given F e -> str_eq (eStage e) StageIntent = false -> new_seen F (eNewRef e).
Proof. intros Hg Hs q Hq. apply Hg. unfold entry_facts. rewrite Hs, Hq. rewrite elem_of_cons, elem_of_app. right. left. constructor. Qed.

(** A thread that owns nothing works on an entry it has read and locked. *)
Definition working (F : facts) (e : JournalEntry) : Prop := f_own F = None /\ entry_given F e /\ has F (FLocked (eID e)).
Lemma working_extends F F' e : extends F F' -> working F e -> working F' e.
Proof. intros E (Ho & Hg & Hl). split; [destruct E as [-> _]; done|]. split; [by eapply given_extends|]. by apply (proj2 E). Qed.
Lemma working_known F e : working F e -> entry_known F (eID e) (eNewRef e).
Proof. intros (_ & ? & ?). by apply given_known. Qed.

(** After which it owns nothing still, and knows what does not concern the entry. *)
Definition settled (e : JournalEntry) (F F' : facts) : Prop :=
  f_own F' = None /\ forall f, lasting f = true -> f <> FLocked (eID e) -> has F f -> has F' f.
Lemma settled_refl F e : working F e -> settled e F F.
Proof. by intros (? & _). Qed.
Lemma extends_settled F1 F2 F3 e : extends F1 F2 -> settled e F2 F3 -> settled e F1 F3.
Proof. intros [_ H] [? Hs]. split; [done|]. auto. Qed.
Lemma settled_remove F e x : working F e -> settled e F (post F (Remove (eID e)) x).
Proof.
  intros (Ho & _). split; [cbn; by rewrite Ho|]. intros f Hl Hne Hf. apply has_kept; [|done].
  destruct f; simpl in *; try done. apply str_eq_false. congruence.
Qed.

Lemma remove_safe {A} F e (k : bool -> prog A) (Q : facts -> A -> Prop) : working F e -> new_seen F (eNewRef e) ->
  (forall F' ok, settled e F F' -> safe F' (k ok) Q) -> safe F (prog_bind k (call (Remove (eID e)))) Q.
Proof.
  intros Hw Hn H. apply safe_do; [eapply remove_pre; [by apply working_known|done]|]. intros x _. apply H. by apply settled_remove.
Qed.
Lemma restage_safe {A} F e stage (k : bool -> prog A) (Q : facts -> A -> Prop) : stage <> StageIntent -> working F e -> new_seen F (eNewRef e) ->
  (forall F' ok, extends F F' -> safe F' (k ok) Q) -> safe F (prog_bind k (call (Stage_ (eID e) stage))) Q.
Proof. intros Hs Hw Hn H. eapply stage_safe; [done|by apply working_known|done|done]. Qed.

Lemma committed_safe F e Q : working F e -> new_seen F (eNewRef e) -> (forall F' a, settled e F F' -> Q F' a) ->
  safe F (recoverCommittedOrCleanupStage reg e) Q.
Proof.
  intros Hw Hn HQ. unfold recoverCommittedOrCleanupStage. pose proof (given_old F e (proj1 (proj2 Hw))) as Hold.
  destruct (eOldRef e) as [old|]; [|by apply remove_safe; [done..|]; intros; apply HQ].
  destruct (ref_IsEmpty old) eqn:He; [by apply remove_safe; [done..|]; intros; apply HQ|].
  apply safe_quiet; [done|left; by apply Hold|]. intros F1 r E1 Hg.
  pose proof (working_extends _ _ _ E1 Hw) as Hw1. pose proof (new_extends _ _ _ E1 Hn) as Hn1.
  assert (forall err, safe F1 (call (Stage_ (eID e) StageCleanup) ;;; Ret (ScheduledForGC, Some err)) Q) as Hc.
  { intros err. apply restage_safe; [done..|]. intros F2 ok E2. apply HQ. eapply extends_settled; [exact E1|].
    eapply extends_settled; [exact E2|]. apply settled_refl. by eapply working_extends. }
  destruct r as [[]|]; [|apply Hc..]. destruct (getWritableStore reg (StoreID old)); [|apply Hc].
  apply safe_bind, deleteItem_safe; [left; apply Hg; constructor|]. intros F2 err E2 _.
  pose proof (working_extends _ _ _ E2 Hw1) as Hw2. pose proof (new_extends _ _ _ E2 Hn1) as Hn2. destruct err as [err|].
  - apply restage_safe; [done..|]. intros F3 ok E3. apply HQ. do 3 (eapply extends_settled; [eassumption|]). apply settled_refl. by eapply working_extends.
  - apply safe_quiet; [done|done|]. intros F3 ? E3 _. apply remove_safe; [by eapply working_extends|by eapply new_extends|].
    intros F4 ok S4. apply HQ. by do 3 (eapply extends_settled; [eassumption|]).
Qed.

Lemma scheduled F F' e (Q : facts -> RecoveryAction * option service_error -> Prop) a :
  (forall F' a, settled e F F' -> Q F' a) -> working F e -> extends F F' -> safe F' (Ret a) Q.
Proof. intros HQ Hw E. apply HQ. eapply extends_settled; [exact E|]. apply settled_refl. by eapply working_extends. Qed.

Lemma committed_after F F' e Q : working F e -> extends F F' -> new_seen F' (eNewRef e) -> (forall F' a, settled e F F' -> Q F' a) ->
  safe F' (recoverCommittedOrCleanupStage reg e) Q.
Proof. intros Hw E Hn HQ. apply committed_safe; [by eapply working_extends|done|]. intros F2 a Hs. apply HQ. by eapply extends_settled. Qed.

Lemma uncertain_safe F e Q : working F e -> new_seen F (eNewRef e) -> (forall F' a, settled e F F' -> Q F' a) ->
  safe F (recoverAppliedUncertainStage reg e) Q.
Proof.
  intros Hw Hn HQ. apply safe_quiet; [done|done|]. intros F1 r E1 _.
  pose proof (working_extends _ _ _ E1 Hw) as Hw1. pose proof (new_extends _ _ _ E1 Hn) as Hn1. destruct r as [[]|]; [|by eapply scheduled..].
  apply restage_safe; [done..|]. intros F2 ok E2. destruct ok; cbn [negb]; [|by eapply scheduled; [done..|]; etrans].
  eapply committed_after; [exact Hw|by etrans|by eapply new_extends|done].
Qed.

Lemma intent_new_safe F e new Q : working F e -> eNewRef e = Some new -> (forall F' a, settled e F F' -> Q F' a) ->
  safe F (recoverIntentWithNewRef reg e new) Q.
Proof.
  intros Hw Hnew HQ. apply safe_quiet; [done| |].
  { right. destruct Hw as (? & Hg & Hl). split; [done|]. exists (eID e). split; [|done]. rewrite <- Hnew. apply Hg. constructor. }
  intros F1 r E1 Hg. pose proof (working_extends _ _ _ E1 Hw) as Hw1. destruct r as [[]|]; [| |by eapply scheduled].
  - destruct (getWritableStore reg (StoreID new)); [|by eapply scheduled].
    apply safe_bind, deleteItem_safe; [left; apply Hg; constructor|]. intros F2 err E2 Ha. pose proof (working_extends _ _ _ E2 Hw1) as Hw2.
    destruct err; [by eapply scheduled; [done..|]; etrans|]. apply safe_do; [done|]. intros [] _.
    assert (extends F2 (post F2 (Invalidate new) tt)) as E3 by (by apply extends_post). specialize (Ha eq_refl).
    assert (has (post F2 (Invalidate new) tt) (FAbsent new)) as Ha3 by know. pose proof (working_extends _ _ _ E3 Hw2) as Hw3. apply safe_do.
    + destruct (working_known _ _ Hw3) as [? Hi]. split; [done|]. exists (Some new). split; [by rewrite <- Hnew|]. intros q [= <-]. by right.
    + intros x _. apply HQ. do 3 (eapply extends_settled; [eassumption|]). by apply settled_remove.
  - assert (new_seen F1 (eNewRef e)) as Hn1 by (rewrite Hnew; intros q [= <-]; apply Hg; constructor).
    apply safe_quiet; [done|done|]. intros F2 r E2 _. pose proof (working_extends _ _ _ E2 Hw1) as Hw2. pose proof (new_extends _ _ _ E2 Hn1) as Hn2.
    destruct r as [[]|]; [| |by eapply scheduled; [done..|]; etrans].
    + apply restage_safe; [done..|]. intros F3 ok E3. eapply committed_after; [exact Hw|by do 2 (etrans; [eassumption|])|by eapply new_extends|done].
    + apply restage_safe; [done..|]. intros F3 ok E3. by eapply scheduled; [done..|]; do 2 (etrans; [eassumption|]).
Qed.

Lemma intent_old_safe F e Q : working F e -> eNewRef e = None -> (forall F' a, settled e F F' -> Q F' a) ->
  safe F (recoverIntentWithoutNewRef reg e) Q.
Proof.
  intros Hw Hnew HQ. assert (forall F, new_seen F (eNewRef e)) as Hn by (intros; by rewrite Hnew). unfold recoverIntentWithoutNewRef.
  pose proof (given_old F e (proj1 (proj2 Hw))) as Hold. destruct (eOldRef e) as [old|]; [|by apply remove_safe; [done..|]; intros; apply HQ].
  destruct (ref_IsEmpty old) eqn:He; [by apply remove_safe; [done..|]; intros; apply HQ|].
  apply safe_quiet; [done|left; by apply Hold|]. intros F1 r E1 _. pose proof (working_extends _ _ _ E1 Hw) as Hw1. destruct r as [[]|]; [| |by eapply scheduled].
  - apply safe_quiet; [done|done|]. intros F2 r E2 _. pose proof (working_extends _ _ _ E2 Hw1) as Hw2.
    destruct r as [[]|]; [| |by eapply scheduled; [done..|]; etrans]; (apply restage_safe; [done..|]; intros F3 ok E3).
    + eapply committed_after; [exact Hw|by do 2 (etrans; [eassumption|])|done|done].
    + by eapply scheduled; [done..|]; do 2 (etrans; [eassumption|]).
  - apply remove_safe; [done..|]. intros F2 ok Hs. apply HQ. by eapply extends_settled.
Qed.

Lemma asset_safe F e old Q : working F e -> eOldRef e = Some old -> ref_IsEmpty old = false -> eNewRef e = None ->
  (forall F' err, settled e F F' -> Q F' err) -> safe F (cleanupAssetReference reg e old) Q.
Proof.
  intros Hw Eo He Hnew HQ. assert (forall F, new_seen F (eNewRef e)) as Hn by (intros; by rewrite Hnew).
  apply safe_quiet; [done|left; by apply (given_old F e (proj1 (proj2 Hw)))|]. intros F1 r E1 Hg.
  pose proof (working_extends _ _ _ E1 Hw) as Hw1. assert (settled e F F1) as S1 by (eapply extends_settled; [exact E1|by apply settled_refl]).
  destruct r as [u|]; [|by apply HQ]. apply safe_bind.
  assert (forall F2 err, extends F1 F2 -> safe F2 (match err with Some e0 => Ret (Some e0)
            | None => ok <- call (Remove (eID e)) ;; Ret (if ok : bool then None else Some (JournalError (eID e))) end) Q) as Hrest.
  { intros F2 err E2. destruct err; [apply HQ; do 2 (eapply extends_settled; [eassumption|]); apply settled_refl; by eapply working_extends|].
    apply remove_safe; [by eapply working_extends|done|]. intros F3 ok Hs. apply HQ. by do 2 (eapply extends_settled; [eassumption|]). }
  destruct u; [|by apply Hrest]. destruct (getWritableStore reg (StoreID old)); [|by apply Hrest].
  apply safe_bind, deleteItem_safe; [left; apply Hg; constructor|]. intros F2 [err|] E2 _; [by apply Hrest|].
  apply safe_quiet; [done|done|]. intros F3 ? E3 _. apply Hrest. by etrans.
Qed.

Definition readable (e : JournalEntry) : Prop := entry_Validate e = true /\ forall n, eNewRef e = Some n -> ref_IsEmpty n = false.

Lemma asset_valid e : entry_Validate e = true -> eOp e = OpAssetDelete -> eNewRef e = None /\ exists old, eOldRef e = Some old /\ ref_IsEmpty old = false.
Proof.
  unfold entry_Validate. intros H Ho. apply andb_true_iff in H as [_ H]. rewrite Ho, str_eq_refl in H. apply negb_true_iff, orb_false_iff in H as [H1 H2].
  apply bool_decide_eq_false in H2. split; [destruct (eNewRef e); [destruct H2; eauto|done]|]. destruct (eOldRef e) as [old|]; [by exists old|done].
Qed.

Lemma recover_stage_safe F e Q : readable e -> working F e -> (forall F' a, settled e F F' -> Q F' a) -> safe F (recover_stage reg e) Q.
Proof.
  intros [Hv Hne] Hw HQ. unfold recover_stage. destruct (str_eq (eOp e) OpAssetDelete) eqn:Ho.
  { apply str_eq_spec in Ho. destruct (asset_valid e Hv Ho) as (Hn & old & Eo & He). rewrite Eo.
    apply safe_bind, asset_safe; [done..|]. intros F' err Hs. by apply HQ. }
  destruct (str_eq (eStage e) StageIntent) eqn:Hs.
  { unfold recoverIntentStage. destruct (eNewRef e) as [new|] eqn:Hn; [|by apply intent_old_safe]. rewrite (Hne new eq_refl). by apply intent_new_safe. }
  pose proof (given_new F e (proj1 (proj2 Hw)) Hs) as Hn. destruct (str_eq (eStage e) StageAppliedUncertain); [by apply uncertain_safe|by apply committed_safe].
Qed.

Lemma recover_entries_safe es : forall F, f_own F = None -> (forall e, e ∈ es -> readable e /\ entry_given F e) ->
  safe F (recover_entries reg es) (fun _ _ => True).
Proof.
  induction es as [|e es IH]; intros F Ho Hes; [done|]. cbn [recover_entries]. apply safe_bind. unfold recoverSingleEntry.
  destruct (Hes e) as [Hr Hg]; [constructor|].
  assert (forall F' r, f_own F' = None -> (forall f, lasting f = true -> (forall id, f <> FLocked id) -> has F f -> has F' f) ->
            safe F' (rs <- recover_entries reg es ;; Ret (r :: rs)) (fun _ _ => True)) as Hnext.
  { intros F' r Ho' HF. apply safe_bind. eapply safe_mono; [|apply IH]; [done|done|]. intros e' He'. destruct (Hes e') as [? Hg']; [by constructor|].
    split; [done|]. intros f Hf. apply HF; [by eapply entry_facts_lasting| |by apply Hg']. intros id ->. unfold entry_facts in Hf.
    rewrite elem_of_cons, elem_of_app in Hf. destruct Hf as [?|[Hf|Hf]]; [done|..].
    - destruct (str_eq _ _); [by apply elem_of_nil in Hf|]. destruct (eNewRef e'); [by apply list_elem_of_singleton in Hf|by apply elem_of_nil in Hf].
    - destruct (eOldRef e') as [o|]; [|by apply elem_of_nil in Hf]. destruct (ref_IsEmpty o); [by apply elem_of_nil in Hf|by apply list_elem_of_singleton in Hf]. }
  apply safe_quiet; [done|done|]. intros F1 [] E1 _; [apply Hnext; [by destruct E1 as [-> _]|intros f ? _; by apply (proj2 E1)]|].
  apply safe_quiet; [done|done|]. intros F2 l E2 Hl. assert (extends F F2) as E by (by etrans).
  destruct l; [|apply Hnext; [by destruct E as [-> _]|intros f ? _; by apply (proj2 E)]..].
  apply safe_bind, recover_stage_safe; [done| |].
  { split; [by destruct E as [-> _]|]. split; [by eapply given_extends|]. apply Hl. constructor. }
  intros F3 a [Ho3 Hs3]. apply safe_do; [done|]. intros [] _. apply Hnext; [cbn; by rewrite Ho3|]. intros f Hf Hne H.
  apply has_kept; [|apply Hs3; [done|done|by apply (proj2 E)]]. destruct f; simpl in *; try done. by destruct (Hne id).
Qed.
Lemma Recover_safe F : f_own F = None -> safe F (Recover reg) (fun _ _ => True).
Proof.
  intros Ho. unfold Recover. apply safe_do; [done|]. intros [es|] Hp; [|done]. apply safe_bind. eapply safe_mono; [done|]. apply recover_entries_safe; [done|].
  intros e He. split; [by apply (Hp es)|]. intros f Hf. apply has_gained. cbn [gains]. apply list_elem_of_bind. by exists e.
Qed.

(** *** Deletion of assets *)
Definition asset_like (e : JournalEntry) : Prop := eNewRef e = None /\ forall old, eOldRef e = Some old -> ref_IsEmpty old = false.
Definition all_working (F : facts) (es : list JournalEntry) : Prop :=
  f_own F = None /\ NoDup (map eID es) /\ forall e, e ∈ es -> working F e /\ asset_like e.
Lemma working_settled F F' e e' : settled e F F' -> eID e' <> eID e -> working F e' -> working F' e'.
Proof.
  intros [Ho Hs] Hne (_ & Hg & Hl). split; [done|]. split; [|apply Hs; [done|congruence|done]]. intros f Hf. apply Hs; [by eapply entry_facts_lasting| |by apply Hg].
  intros ->. by apply Hne; unfold entry_facts in Hf; rewrite elem_of_cons, elem_of_app in Hf; destruct Hf as [?|[Hf|Hf]]; [done|..];
    [destruct (str_eq _ _); [by apply elem_of_nil in Hf|]; destruct (eNewRef e'); [by apply list_elem_of_singleton in Hf|by apply elem_of_nil in Hf]
    |destruct (eOldRef e') as [o|]; [|by apply elem_of_nil in Hf]; destruct (ref_IsEmpty o); [by apply elem_of_nil in Hf|by apply list_elem_of_singleton in Hf]].
Qed.

Lemma for_entries_safe (f : JournalEntry -> prog (list service_error)) (Q : facts -> list service_error -> Prop) :
  (forall F e Q, working F e -> asset_like e -> (forall F' a, settled e F F' -> Q F' a) -> safe F (f e) Q) ->
  (forall F' a, f_own F' = None -> Q F' a) ->
  forall es F, all_working F es -> safe F (for_entries f es) Q.
Proof.
  intros Hf HQ es. revert Q HQ. induction es as [|e es IH]; intros Q HQ F (Ho & Hnd & Hes); cbn [for_entries]; [by apply HQ|].
  destruct (Hes e) as [Hw Hn]; [constructor|]. apply NoDup_cons in Hnd as [Hnin Hnd]. apply safe_bind, Hf; [done|done|]. intros F' errs Hs.
  apply safe_bind, IH; [intros; by apply HQ|]. split; [by destruct Hs|]. split; [done|]. intros e' He'. destruct (Hes e') as [Hw' ?]; [by constructor|].
  split; [|done]. eapply working_settled; [exact Hs| |exact Hw']. intros Heq. apply Hnin. rewrite <- Heq. by apply list_elem_of_In, in_map, list_elem_of_In.
Qed.
Lemma release_safe es : forall F, safe F (for_entries release_entry es) (fun _ _ => True).
Proof. induction es as [|e es IH]; intros F; [done|]. cbn [for_entries]. apply safe_bind, safe_do; [done|]. intros [] _.
  apply safe_do; [done|]. intros [] _. apply safe_bind. eapply safe_mono; [|apply IH]. done. Qed.

Lemma journal_refs_safe refs : forall F seen es Q, all_working F es -> (forall r, r ∈ refs -> seen_if F (Some r)) ->
  (forall F' es' err, f_own F' = None -> (err = None -> all_working F' es') -> Q F' (es', err)) ->
  safe F (journal_refs seen es refs) Q.
Proof.
  induction refs as [|ref refs IH]; intros F seen es Q Hall Hrefs HQ; cbn [journal_refs].
  { apply HQ; [by destruct Hall|done]. }
  destruct (ref_Validate ref); [|by apply HQ; [destruct Hall|]]. destruct (ref_IsEmpty ref || slice_contains seen ref) eqn:Hskip.
  { apply IH; [done| |done]. intros r Hr. apply Hrefs. by constructor. }
  apply orb_false_iff in Hskip as [He _]. apply safe_do; [done|]. intros id Hid. apply safe_do; [done|]. intros l _.
  destruct Hall as (Ho & Hnd & Hes). destruct l; [|by apply HQ..]. apply safe_do; [done|]. intros [] _.
  assert (has F (FSeen ref)) as Hseen by (apply (Hrefs ref); [constructor|done|done]).
  apply safe_do; [split; [know|]; split; [know|]; split; [done|intros o [= <-] _; know]|]. intros ok _.
  destruct ok; [|by apply HQ]. set (F1 := post _ _ _).
  assert (forall f, lasting f = true -> has F f -> has F1 f) as HF by (intros f Hl Hf; destruct f; try done; know).
  apply IH; [|intros r Hr q Hq Hx; apply HF; [done|]; apply (Hrefs r); [by constructor|done|done]|done].
  split; [done|]. split.
  - simpl. apply NoDup_cons. split; [|done]. intros Hin. apply list_elem_of_In, in_map_iff in Hin as (e & <- & Hin). apply (Hid (eNewRef e)).
    destruct (Hes e) as [(_ & Hg & _) _]; [by apply list_elem_of_In|]. apply Hg. constructor.
  - intros e [->|He']%elem_of_cons.
    + split; [|split; [done|by intros o [= <-]]]. split; [done|]. split; [|know]. intros f Hf. unfold entry_facts in Hf. simpl in Hf. rewrite He in Hf.
      apply elem_of_cons in Hf as [->|Hf]; [know|]. apply list_elem_of_singleton in Hf as ->. by apply HF.
    + destruct (Hes e He') as [(_ & Hg & Hl) ?]. split; [|done]. split; [done|]. split; [|by apply HF].
      intros f Hf. apply HF; [by eapply entry_facts_lasting|by apply Hg].
Qed.

Lemma remove_entry_safe F e Q : working F e -> asset_like e -> (forall F' a, settled e F F' -> Q F' a) -> safe F (remove_entry e) Q.
Proof. intros Hw [Hn _] HQ. apply remove_safe; [done|by rewrite Hn|]. intros. by apply HQ. Qed.
Lemma uncertain_entry_safe F e Q : working F e -> asset_like e -> (forall F' a, settled e F F' -> Q F' a) -> safe F (uncertain_entry e) Q.
Proof.
  intros Hw [Hn _] HQ. apply restage_safe; [done|done|by rewrite Hn|]. intros F' ok E. apply HQ. eapply extends_settled; [exact E|].
  apply settled_refl. by eapply working_extends.
Qed.
Lemma clean_entry_safe F e Q : working F e -> asset_like e -> (forall F' a, settled e F F' -> Q F' a) -> safe F (clean_entry reg e) Q.
Proof.
  intros Hw [Hn Hne] HQ. assert (forall F, new_seen F (eNewRef e)) as Hns by (intros; by rewrite Hn). unfold clean_entry.
  destruct (eOldRef e) as [old|] eqn:Eo; [|apply HQ; by apply settled_refl].
  apply restage_safe; [done..|]. intros F1 ok E1. pose proof (working_extends _ _ _ E1 Hw) as Hw1.
  destruct ok; cbn [negb]; [|apply HQ; eapply extends_settled; [exact E1|by apply settled_refl]].
  apply safe_bind, asset_safe; [done|done|by apply Hne|done|]. intros F2 err S2. destruct err as [err|]; [|apply HQ; by eapply extends_settled].
  apply safe_quiet; [done| |].
  - split; [done|]. exists None. split; [|done]. destruct S2 as [_ S2]. apply S2; [done|done|]. rewrite <- Hn. apply Hw1. constructor.
  - intros F3 ok E3 _. apply HQ. eapply extends_settled; [exact E1|]. destruct S2 as [Ho S2]. split; [by destruct E3 as [-> _]|].
    intros f Hl Hx Hf. apply (proj2 E3); [done|]. by apply S2.
Qed.

Lemma DeleteAssets_safe F refs a : f_own F = None -> (forall r, r ∈ refs -> seen_if F (Some r)) ->
  safe F (DeleteAssets reg refs a) (fun _ _ => True).
Proof.
  intros Ho Hrefs. unfold DeleteAssets. apply safe_bind, journal_refs_safe.
  { split; [done|]. split; [constructor|]. by intros e ?%elem_of_nil. }
  { done. }
  intros F1 locked err Ho1 Hall. apply safe_bind.
  assert (forall F' (r : MutationOutcome * list service_error), safe F' (for_entries release_entry locked ;;; Ret r) (fun _ _ => True)) as Hrel.
  { intros F' r. apply safe_bind. eapply safe_mono; [|apply release_safe]. done. }
  destruct err as [e|]; [apply Hrel|]. apply safe_quiet; [done|done|]. intros F2 [outcome err] E2 _.
  assert (all_working F2 (rev locked)) as Hw.
  { destruct (Hall eq_refl) as (? & Hnd & Hes). split; [by destruct E2 as [-> _]|]. split; [rewrite map_rev; by apply NoDup_ListNoDup, NoDup_rev, NoDup_ListNoDup|].
    intros e He. apply list_elem_of_In, in_rev, list_elem_of_In in He. destruct (Hes e He). split; [by eapply working_extends|done]. }
  destruct (Applied outcome); cbn [negb]; [destruct (Durable outcome); cbn [negb]|]; apply safe_bind, for_entries_safe; try done;
    (apply clean_entry_safe || apply uncertain_entry_safe || apply remove_entry_safe || (intros; apply Hrel)).
Qed.

Lemma program_safe F r : f_own F = None -> (forall o, o ∈ given r -> ref_IsEmpty o = false -> has F (FSeen o)) ->
  safe F (program reg r) (fun _ _ => True).
Proof.
  intros Ho Hg. destruct r as [t v old storeID secret|t v ref|refs a|]; cbn [program given] in *; apply safe_bind.
  - eapply safe_mono; [|apply Rotate_safe; [done|]]; [done|]. intros q -> Hq. apply Hg; [constructor|done].
  - eapply safe_mono; [|apply Delete_safe]; [done|]. intros q [= <-] Hq. apply Hg; [constructor|done].
  - eapply safe_mono; [|apply DeleteAssets_safe; [done|]]; [done|]. intros q Hq q' [= <-] He. by apply Hg.
  - eapply safe_mono; [|by apply Recover_safe]. done.
Qed.

(** ** Every reachable state *)
Lemma init_ok s : sys_init s -> sys_ok s.
Proof.
  intros (Ht & Hj & Hl & Hlive & Hseen & Hused). exists (mkGhost ∅ ∅ ∅ ∅). rewrite Ht. split; [|done].
  split; rewrite ?Hj; cbn [g_own g_issued g_ids g_items j_files j_durable]; try done;
    intros; try (match goal with H : ∅ !! _ = Some _ |- _ => by rewrite lookup_empty in H end).
  - apply Hseen. by right.
  - left. apply Hseen. by left.
Qed.

Lemma spawn_keeps s t p r : sys_ok s -> s_threads s !! t = None -> (forall o, o ∈ given r -> ref_IsEmpty o = false -> s_seen s o) ->
  sys_ok (mkSys (s_world s) (<[t := (p, program reg r)]> (s_threads s)) (s_seen s)).
Proof.
  intros (g & I & Ht & Hn) Hl Hg. exists g. split; [done|]. split; cbn [s_threads s_world s_seen].
  - intros t' p' m Hm. destruct (decide (t = t')) as [<-|Hne]; [|rewrite lookup_insert_ne in Hm by done; by eapply Ht].
    rewrite lookup_insert_eq in Hm. injection Hm as <- <-.
    exists (mkFacts None (map FSeen (List.filter (fun o => negb (ref_IsEmpty o)) (given r)))). split; [by apply Hn|]. split.
    + intros f Hf. apply list_elem_of_In, in_map_iff in Hf as (o & <- & Ho). apply filter_In in Ho as [Ho He]. apply Hg; [by apply list_elem_of_In|].
      by apply negb_true_iff.
    + apply program_safe; [done|]. intros o Ho He. apply list_elem_of_In, in_map, filter_In. split; [by apply list_elem_of_In|by rewrite He].
  - intros t' Hm. destruct (decide (t' = t)) as [->|Hne]; [by rewrite lookup_insert_eq in Hm|]. rewrite lookup_insert_ne in Hm by done. by apply Hn.
Qed.

Lemma step_keeps s s' : sys_ok s -> sys_step reg s s' -> sys_ok s'.
Proof.
  intros Hok Hs. destruct Hs as [s t p r Hl Hg|s t p X o k ev w' x Hl Hh|s t p Hl|s c' He|s p r Hi|s dead threads w w1|s c' files He Hf w].
  - by apply spawn_keeps.
  - by eapply op_keeps.
  - assert (delete t (s_threads s) = filter (fun x => negb (Nat.eqb (fst x) t) = true) (s_threads s)) as ->.
    { apply map_eq. intros t'. apply option_eq. intros x. rewrite map_lookup_filter_Some, lookup_delete_Some. simpl.
      rewrite negb_true_iff, Nat.eqb_neq. naive_solver. }
    pose proof (kill_keeps s (fun t' => negb (Nat.eqb t' t)) (w_locks (s_world s)) (w_active (s_world s)) Hok) as H. destruct (s_world s). by apply H.
  - by apply elsewhere_keeps.
  - by apply cached_keeps.
  - apply (cached_keeps (mkSys w1 threads (s_seen s))). unfold w1. clear w1. set (keep := fun t => match s_threads s !! t with Some (p, _) => negb (dead p) | None => false end).
    assert (threads = filter (fun x => keep (fst x) = true) (s_threads s)) as ->.
    { apply map_filter_ext. intros t [p m] Hx. cbn [fst snd]. unfold keep. rewrite Hx. by destruct (dead p). }
    apply (kill_keeps s keep (held_by _ (w_locks (s_world s))) _ Hok). intros id t Hx Hk. unfold held_by. apply map_lookup_filter_Some. split; [done|].
    simpl. unfold keep in Hk. destruct (s_threads s !! t) as [[p m]|] eqn:E; [|done]. exists (p, m). apply map_lookup_filter_Some. split; [done|].
    simpl. unfold keep. by rewrite E.
  - assert (sys_ok (mkSys (set_active (set_locks (s_world s) ∅) ∅) ∅ (s_seen s))) as H1.
    { pose proof (kill_keeps s (fun _ => false) ∅ ∅ Hok) as H.
      assert (filter (fun x : nat * (nat * prog ()) => false = true) (s_threads s) = ∅) as E by (by apply map_empty; intros t; apply map_lookup_filter_None; right).
      rewrite <- E. by apply H. }
    apply (cached_keeps _ ∅), (elsewhere_keeps _ c') in H1; [|by destruct (s_world s)]. destruct H1 as (g & I & _ & Hn). exists g.
    pose proof (journal_survives g _ _ files I) as I'. split; [|split; [by intros t p m Hm|done]].
    unfold w. destruct (s_world s). by apply I'.
Qed.

Lemma live_has_item s r : reachable sys_init (sys_step reg) s -> live (w_config (s_world s)) r -> is_Some (w_items (s_world s) !! r).
Proof.
  intros Hr. assert (sys_ok s) as (g & I & _) by (by apply (reachable_invariant _ _ _ init_ok step_keeps)). apply (i_live _ _ _ I).
Qed.

(** C2: In every state threads, failures, crashes and other edits can reach, each reference the
    configuration holds, or would hold after a crash, has its secret in its store. *)
Theorem credentials_never_lost s r : reachable sys_init (sys_step reg) s -> live (w_config (s_world s)) r -> is_Some (w_items (s_world s) !! r).
Proof. apply live_has_item. Qed.

(** C22: And every secret in a store is one a configuration has held, or the new one of an entry on disk
    that recovery will find: none is forgotten before its reference was ever applied. *)
Theorem secrets_tracked s r : reachable sys_init (sys_step reg) s -> is_Some (w_items (s_world s) !! r) ->
  s_seen s r \/ exists id, tracked (w_journal (s_world s)) id r.
Proof.
  intros Hr. assert (sys_ok s) as (g & I & _) by (by apply (reachable_invariant _ _ _ init_ok step_keeps)). apply (i_items _ _ _ I).
Qed.

(** A program run alone is a sequence of steps of its thread. *)
Lemma run_steps p t (m : prog unit) : forall evs s w' u, s_threads s !! t = Some (p, m) -> run p t m evs (s_world s) = Some (w', u) ->
  exists s', rtc (sys_step reg) s s' /\ s_world s' = w' /\ s_threads s' !! t = Some (p, Ret tt).
Proof.
  induction m as [[]|X o k IH]; intros evs s w' u Ht Hr; cbn [run] in Hr.
  - injection Hr as <-. by exists s.
  - destruct evs as [|ev evs]; [done|]. destruct (handle p t ev o (s_world s)) as [[w1 x]|] eqn:Hh; [|done].
    destruct (IH x evs (at_world s w1 (<[t := (p, k x)]> (s_threads s))) w' u) as (s' & Hs & Hw & Ht').
    + apply lookup_insert_eq.
    + done.
    + exists s'. split; [|done]. eapply rtc_l; [|exact Hs]. by eapply sys_op.
Qed.

(** An uncertain entry is never settled once its target holds another reference: while the
    configuration does not confirm the one of the entry, recovery changes neither the journal nor any
    item, however often it runs; the old secret stays. *)
Theorem uncertain_never_settles p t e evs w w' a :
  (forall p f, let r := if one_of (eOp e) [OpRotate; OpCreate] then eNewRef e else None in
     snd (ConfirmRefDurable p f (eTarget e) r (w_config w)) <> Ok true) ->
  str_eq (eOp e) OpAssetDelete = false -> eStage e = StageAppliedUncertain ->
  run p t (recover_stage reg e) evs w = Some (w', a) ->
  w_journal w' = w_journal w /\ w_items w' = w_items w /\ fst a = ScheduledForGC.
Proof.
  intros Hc Ho Hs Hr. unfold recover_stage in Hr. rewrite Ho, Hs in Hr.
  change (str_eq StageAppliedUncertain StageIntent) with false in Hr. change (str_eq StageAppliedUncertain StageAppliedUncertain) with true in Hr.
  unfold recoverAppliedUncertainStage in Hr. cbn [call prog_bind run] in Hr. destruct evs as [|ev evs]; [done|]. specialize (Hc p (ev_fault ev)).
  cbv zeta in Hc. cbn [handle] in Hr. destruct (ConfirmRefDurable _ _ _ _ _) as [c res]. cbn [snd] in Hc.
  destruct res as [[]|]; [done|..]; cbn [run] in Hr; injection Hr as <- <-; done.
Qed.

(** ** A rotation that runs alone *)
Section Alone.
Variables p t : nat.

Definition runs {A} (m : prog A) (w : World) (Q : World -> A -> Prop) : Prop :=
  forall evs w' a, run p t m evs w = Some (w', a) -> Q w' a.
Lemma alone_ret {A} (a : A) w Q : Q w a -> runs (Ret a) w Q.
Proof. intros H evs w' b [= <- <-]. done. Qed.
Lemma alone_do {X A} (o : op X) (k : X -> prog A) w Q :
  (forall ev w1 x, handle p t ev o w = Some (w1, x) -> runs (k x) w1 Q) -> runs (prog_bind k (call o)) w Q.
Proof.
  intros H [|ev evs] w' a Hr; [done|]. cbn in Hr. destruct (handle p t ev o w) as [[w1 x]|] eqn:Hh; [|done]. by apply (H ev w1 x Hh evs).
Qed.
Lemma alone_bind {A B} (k : A -> prog B) (m : prog A) Q : forall w, runs m w (fun w1 a => runs (k a) w1 Q) -> runs (prog_bind k m) w Q.
Proof.
  induction m as [a|X o k' IH]; intros w H; [by apply (H [])|]. apply (alone_do o (fun x => prog_bind k (k' x))). intros ev w1 x Hh. apply IH.
  intros evs w' a Hr. apply (H (ev :: evs) w' a). cbn [run]. by rewrite Hh.
Qed.
Lemma alone_mono {A} (m : prog A) w (Q Q' : World -> A -> Prop) : (forall w a, Q w a -> Q' w a) -> runs m w Q -> runs m w Q'.
Proof. intros H Hr evs w' a Hx. by apply H, (Hr evs). Qed.

(** What two worlds share but for some items: the configuration adds no live reference. *)
Definition beside (gone : Ref -> Prop) (w w' : World) : Prop :=
  (forall q, ~ gone q -> w_items w' !! q = w_items w !! q) /\ (forall q, live (w_config w') q -> live (w_config w) q).
Lemma beside_refl gone w : beside gone w w.
Proof. done. Qed.
Lemma beside_trans gone w1 w2 w3 : beside gone w1 w2 -> beside gone w2 w3 -> beside gone w1 w3.
Proof. intros [A1 A2] [B1 B2]. split; [intros q H; by rewrite B1, A1|auto]. Qed.

Lemma beside_weaken gone w w' : beside (fun _ => False) w w' -> beside gone w w'.
Proof. intros [H1 H2]. split; [intros q _; apply H1; by intros []|done]. Qed.
Lemma beside_item w w' q : beside (fun _ => False) w w' -> w_items w' !! q = w_items w !! q.
Proof. intros [H _]. apply H. by intros []. Qed.

(** Operations that touch no item, or only one, and apply nothing. *)
Definition touches {X} (o : op X) : option (Ref -> Prop) :=
  match o with
  | Put r _ | DeleteItem r => Some (fun q => q = r)
  | Apply _ _ _ => None
  | _ => Some (fun _ => False)
  end.
Lemma handle_beside ev X (o : op X) w w1 x gone D : handle p t ev o w = Some (w1, x) -> touches o = Some D -> (forall q, D q -> gone q) -> beside gone w w1.
Proof.
  intros Hh Ht Hd.
  destruct o; cbn [touches] in Ht; try done; injection Ht as <-; cbn [handle] in Hh;
    try (destruct (bool_decide _); [done|]; injection Hh as <- <-; done); try (injection Hh as <- <-; done).
  - destruct (_ || _); [by injection Hh as <- <-|]. destruct (w_locks w !! id); by injection Hh as <- <-.
  - destruct (bool_decide _); by injection Hh as <- <-.
  - destruct (RecordIntent _ _ _ _). by injection Hh as <- <-.
  - destruct (updateStage _ _ _ _ _). by injection Hh as <- <-.
  - destruct (journal_remove _ _ _) as [[? []] ?]; by injection Hh as <- <-.
  - injection Hh as <- <-. split; [|by destruct (ev_reach ev)]. intros q Hq. destruct (ev_reach ev); simpl; [done|..];
      (rewrite lookup_insert_ne; [done|]; intros ->; by apply Hq, Hd).
  - destruct (ev_reach ev); injection Hh as <- <-; [done|..]; (split; [|done]); intros q Hq; simpl; (rewrite lookup_delete_ne; [done|]; intros ->; by apply Hq, Hd).
  - destruct (CheckRefUnreferenced _ _ _ _) eqn:E. injection Hh as <- <-. split; [done|]. apply check_live in E as [E _]. exact E.
  - destruct (ConfirmRefDurable _ _ _ _ _) eqn:E. injection Hh as <- <-. split; [done|]. apply confirm_live in E as [E _]. exact E.
  - destruct (CommitAssets _ _ _ _) as [[c o] e] eqn:E. injection Hh as <- <-. split; [done|]. apply commit_live in E as [E _]. exact E.
Qed.

Lemma alone_beside {X A} (o : op X) (k : X -> prog A) w gone D Q : touches o = Some D -> (forall q, D q -> gone q) ->
  (forall w1 x, beside gone w w1 -> runs (k x) w1 Q) -> runs (prog_bind k (call o)) w Q.
Proof. intros Ht Hd H. apply alone_do. intros ev w1 x Hh. apply H. by eapply handle_beside. Qed.

Lemma cleanup_beside id old w gone (Q : World -> option service_error -> Prop) : (forall o, old = Some o -> gone o) ->
  (forall w1 e, beside gone w w1 -> Q w1 e) -> runs (cleanupOldRefOnRotate reg id old) w Q.
Proof.
  intros Hg HQ. unfold cleanupOldRefOnRotate. destruct old as [old|]; [|by apply alone_ret, HQ]. destruct (ref_IsEmpty old); [by apply alone_ret, HQ|].
  assert (forall w2 (res : option service_error), beside gone w w2 -> runs (call (Invalidate old) ;;; Ret res) w2 Q) as Hend.
  { intros w2 res B. eapply (alone_beside _ _ _ gone); [done|done|]. intros w3 ? B'. apply alone_ret, HQ. exact (beside_trans _ _ _ _ B B'). }
  apply alone_bind. eapply (alone_beside _ _ _ gone); [done|done|]. intros w1 r B1.
  assert (forall w2 e, beside gone w w2 ->
            runs (call (Stage_ id StageCleanup) ;;; Ret (Some e)) w2 (fun w1 a => runs (call (Invalidate old) ;;; Ret a) w1 Q)) as Hc.
  { intros w2 e B. eapply (alone_beside _ _ _ gone); [done|done|]. intros w3 ? B'. apply alone_ret, Hend. exact (beside_trans _ _ _ _ B B'). }
  destruct r as [[]|]; [|by apply alone_ret, Hend|by apply Hc]. destruct (getWritableStore reg (StoreID old)); [|by apply Hc].
  apply alone_bind. eapply (alone_beside _ _ _ gone); [done|intros q ->; by apply Hg|]. intros w2 d B2. apply alone_ret.
  assert (beside gone w w2) by exact (beside_trans _ _ _ _ B1 B2). destruct d; [by apply alone_ret, Hend..|by apply Hc].
Qed.
Lemma compensate_beside id new w gone e (Q : World -> service_error -> Prop) : gone new ->
  (forall w1 e, beside gone w w1 -> Q w1 e) -> runs (compensateNewRef id new e) w Q.
Proof.
  intros Hg HQ. unfold compensateNewRef. apply alone_bind. eapply (alone_beside _ _ _ gone); [done|by intros q ->|]. intros w1 d B1. apply alone_ret.
  destruct d; [..|by apply alone_ret, HQ]; (eapply (alone_beside _ _ _ gone); [done|done|]; intros w2 ? B2; apply alone_ret, HQ; by eapply beside_trans).
Qed.

Definition rotated (storeID secret : string) (old : option Ref) (w w' : World) (a : RotateResult) : Prop :=
  match a with
  | (Some n, _, _) => StoreID n = storeID /\ ItemID n ∉ w_usedItems w /\ w_items w' !! n = Some secret /\
                      forall q, live (w_config w') q -> live (w_config w) q \/ q = n
  | (None, _, e) => e <> None /\ forall q, live (w_config w') q -> live (w_config w) q
  end /\ forall q, ItemID q ∈ w_usedItems w -> old <> Some q -> w_items w' !! q = w_items w !! q.

Lemma rotate_body_runs target v old new secret id w w0 :
  (forall o, old = Some o -> ItemID o ∈ w_usedItems w0) -> ItemID new ∉ w_usedItems w0 -> beside (fun _ => False) w0 w ->
  runs (rotate_body reg target v old new secret id) w (rotated (StoreID new) secret old w0).
Proof.
  intros Hold Hnew B0. set (gone := fun q => q = new \/ old = Some q).
  assert (forall q, ItemID q ∈ w_usedItems w0 -> old <> Some q -> ~ gone q) as Hgone by (intros q Hq Ho [->|?]; done).
  assert (beside gone w0 w) as B by (by apply beside_weaken).
  assert (forall w1 v e, beside gone w0 w1 -> rotated (StoreID new) secret old w0 w1 (None, v, Some e)) as Hfail.
  { intros w1 v' e [H1 H2]. split; [split; done|]. intros q Hq Ho. apply H1. by apply Hgone. }
  unfold rotate_body. eapply (alone_beside _ _ _ gone); [done|done|]. intros w1 ok B1. assert (beside gone w0 w1) as C1 by (by eapply beside_trans).
  destruct ok; cbn [negb]; [|by apply alone_ret, Hfail]. apply alone_bind. unfold putAndVerifySecret. apply alone_do. intros ev w2 stored Hput.
  assert (beside gone w0 w2) as C2.
  { eapply beside_trans; [exact C1|]. eapply (handle_beside _ _ _ _ _ _ _ _ Hput); [done|]. intros q ->. by left. }
  assert (forall w2 e, beside gone w0 w2 -> runs (e <- compensateNewRef id new e ;; Ret (None, "", Some e)) w2 (rotated (StoreID new) secret old w0)) as Hcomp.
  { intros w3 e C. apply alone_bind, (compensate_beside _ _ _ gone); [by left|]. intros w4 e4 B4. apply alone_ret, Hfail. exact (beside_trans _ _ _ _ C B4). }
  destruct stored; cbn [negb]; [|by apply alone_ret, Hcomp].
  assert (w_items w2 !! new = Some secret) as Hst.
  { cbn [handle] in Hput. destruct (ev_reach ev); injection Hput as <-; try done. simpl. apply lookup_insert_eq. }
  eapply (alone_beside _ _ _ (fun _ => False)); [done|done|]. intros w3 back B3.
  assert (beside gone w0 w3) as C3 by (eapply beside_trans; [exact C2|by apply beside_weaken]).
  assert (w_items w3 !! new = Some secret) as Hst3 by (by rewrite (beside_item _ _ _ B3)).
  destruct back as [s|]; [|by apply alone_ret, Hcomp]. apply alone_ret. destruct (str_eq s secret); [|by apply Hcomp].
  apply alone_do. intros ev4 w4 [[outcome ver] casErr] Happ. cbn [handle] in Happ.
  destruct (ApplyCredentialRefAtVersion _ _ _ _ _ _) as [[[c o] ver'] err] eqn:Ea. injection Happ as <- <- <- <-.
  destruct (apply_live _ _ _ _ _ _ _ _ _ _ Ea) as [Hl _].
  assert (forall w5, beside (fun q => old = Some q) (set_config w3 c) w5 -> forall v e, rotated (StoreID new) secret old w0 w5 (Some new, v, e)) as Hdone.
  { intros w5 [H1 H2] v' e. split; [split; [done|]; split; [done|]; split|].
    - rewrite H1; [done|]. intros Ho. by apply Hnew, Hold.
    - intros q Hq. apply H2 in Hq. destruct (Hl q Hq) as [?|[_ [= ->]]]; [left; by apply C3|by right].
    - intros q Hq Ho. rewrite H1 by done. apply C3. by apply Hgone. }
  destruct err as [e|]; [destruct (Applied o) eqn:Eap|]; cbn [negb].
  - eapply (alone_beside _ _ _ (fun q => old = Some q)); [done|done|]. intros w5 ? B5. by apply alone_ret, Hdone.
  - apply Hcomp. destruct C3 as [H1 H2]. split; [done|]. intros q Hq. destruct (Hl q Hq) as [?|[? _]]; [by apply H2|done].
  - eapply (alone_beside _ _ _ (fun q => old = Some q)); [done|done|]. intros w5 ? B5. apply alone_bind.
    eapply (cleanup_beside _ _ _ (fun q => old = Some q)); [by intros o' ->|]. intros w6 e B6.
    assert (beside (fun q => old = Some q) (set_config w3 c) w6) as B6' by (by eapply beside_trans). destruct e; [by apply alone_ret, Hdone|].
    eapply (alone_beside _ _ _ (fun q => old = Some q)); [done|done|]. intros w7 ? B7. apply alone_ret, Hdone. by eapply beside_trans.
Qed.

(** A rotation that runs alone, whatever fails on the way: if it returns a reference, the reference is
    new, its item holds the secret and it is the only one the configuration may have
    gained; if it does not, it reports an error and the configuration has gained none.  Either way no
    item of before is touched, except the old one. *)
Theorem rotate_exact target v old storeID secret w evs w' a (Hold : forall o, old = Some o -> ItemID o ∈ w_usedItems w)
    (H : run p t (Rotate reg target v old storeID secret) evs w = Some (w', a)) : rotated storeID secret old w w' a.
Proof.
  revert evs w' a H. change (runs (Rotate reg target v old storeID secret) w (rotated storeID secret old w)).
  assert (forall w1 e, beside (fun _ => False) w w1 -> rotated storeID secret old w w1 (None, "", Some e)) as Hfail.
  { intros w1 e B. split; [split; [done|by destruct B]|]. intros q _ _. by apply beside_item. }
  unfold Rotate. destruct (validateRotateParams target storeID old secret); [|by apply alone_ret, Hfail].
  destruct (getWritableStore reg storeID); [|by apply alone_ret, Hfail]. apply alone_do. intros ev w1 item Hitem. cbn [handle] in Hitem.
  destruct (bool_decide _) eqn:E; [done|]. injection Hitem as <- <-. apply bool_decide_eq_false in E.
  set (w1 := set_used _ _ _). unfold with_entry.
  eapply (alone_beside _ _ _ (fun _ => False)); [done|done|]. intros w2 id B2. eapply (alone_beside _ _ _ (fun _ => False)); [done|done|]. intros w3 ? B3.
  eapply (alone_beside _ _ _ (fun _ => False)); [done|done|]. intros w4 l B4.
  assert (beside (fun _ => False) w w4) as C4 by (by do 3 (eapply beside_trans; [eassumption|])).
  destruct l.
  - apply alone_bind. eapply alone_mono; [|by apply (rotate_body_runs target v old (mkRef storeID (ev_id ev)) secret id w4 w)].
    intros w5 res Ha. eapply (alone_beside _ _ _ (fun _ => False)); [done|done|]. intros w6 ? B6.
    eapply (alone_beside _ _ _ (fun _ => False)); [done|done|]. intros w7 ? B7. apply alone_ret.
    assert (beside (fun _ => False) w5 w7) as D by (exact (beside_trans _ _ _ _ B6 B7)). pose proof (fun q => beside_item _ _ q D) as D1. destruct D as [_ D2]. destruct res as [[[n|] ver] e], Ha as [Ha Hi]; (split; [|intros q Hq Ho; rewrite D1; by apply Hi]).
    + destruct Ha as (H1 & H2 & H3 & H4). split_and!; [done|done|by rewrite D1|]. intros q Hq. by apply H4, D2.
    + destruct Ha as [H1 H2]. split; [done|]. intros q Hq. by apply H2, D2.
  - eapply (alone_beside _ _ _ (fun _ => False)); [done|done|]. intros w5 ? B5. apply alone_ret, Hfail. by eapply beside_trans.
  - eapply (alone_beside _ _ _ (fun _ => False)); [done|done|]. intros w5 ? B5. apply alone_ret, Hfail. by eapply beside_trans.
Qed.
End Alone.
End Programs.

End Safety.

(** * Witnesses *)
(** A configuration that holds one reference per node and is written durably. *)
#[local] Program Instance slots : ConfigUpdater := {|
  Config := gmap string Ref; Fault := unit; Assets := list string; ConfigError := unit;
  live c r := ref_IsEmpty r = false /\ exists n, c !! n = Some r;
  shown _ _ := False;
  ApplyCredentialRefAtVersion _ _ t _ n c :=
    (match n with Some r => <[tNodeID t := r]> c | None => delete (tNodeID t) c end, mkOutcome true true, "v", None);
  CheckRefUnreferenced _ _ r c := (c, Ok (negb (existsb (fun x => bool_decide (snd x = r)) (map_to_list c)) || ref_IsEmpty r));
  ConfirmRefDurable _ _ t r c := (c, Ok (bool_decide (c !! tNodeID t = r)));
  CommitAssets _ _ a c := (filter (fun x => fst x ∉ a) c, mkOutcome true true, None);
  elsewhere c c' := c' = c
|}.
Next Obligation.
  intros p f t v n c c' o ver err [= <- <- _ _]. split; [|by intros]. intros r [He [m Hm]]. destruct n as [q|].
  - apply lookup_insert_Some in Hm as [[_ ->]|[_ Hm]]; [by right|left; eauto].
  - apply lookup_delete_Some in Hm as [_ Hm]. left. eauto.
Qed.
Next Obligation. intros p f t v n c c' o ver err r [= <- <- _ _] _ -> He. split; [done|]. exists (tNodeID t). apply lookup_insert_eq. Qed.
Next Obligation. by intros p f t v n c c' o ver err [= _ <- _ _] _. Qed.
Next Obligation.
  intros p f r c c' res [= <- <-]. split; [done|]. split; [by intros|]. split.
  - intros [= Hb] [He [n Hn]]. rewrite He, orb_false_r in Hb. apply negb_true_iff in Hb.
    assert (existsb (fun x => bool_decide (snd x = r)) (map_to_list c) = true) as Hx; [|congruence].
    apply existsb_exists. exists (n, r). split; [by apply list_elem_of_In, elem_of_map_to_list|by apply bool_decide_eq_true].
  - intros [= Hb]. apply orb_false_iff in Hb as [Hb He]. apply negb_false_iff, existsb_exists in Hb as ([n q] & Hi & Hq).
    apply bool_decide_eq_true in Hq. simpl in Hq. subst q. left. split; [done|]. exists n. by apply elem_of_map_to_list, list_elem_of_In.
Qed.
Next Obligation. intros p f t r c c' res [= <- <-]. split; [done|]. split; [by intros|]. intros [= Hb%bool_decide_eq_true] q -> He. split; [done|eauto]. Qed.
Next Obligation. intros p f a c c' o err [= <- _ _]. split; [|by intros]. intros q [He [n [Hn _]%map_lookup_filter_Some]]. split; [done|eauto]. Qed.
Next Obligation. by intros c c' ->. Qed.

Definition stores : Registry := {["file" := true]}.
Definition web_target : Target := mkTarget "web" "" KindLoginPassword "" "" "" "" false false false.
Definition event (id : string) : Event := mkEvent Through tt id 7 None.
Definition old_ref : Ref := mkRef "file" "old".
Definition start_world : World :=
  mkWorld ({["web" := old_ref]} : gmap string Ref) {[old_ref := "secret1"]} (mkJournal ∅ ∅) ∅ ∅ {[(1%nat, old_ref)]} {["old"]} ∅.
Definition start_sys : Sys := mkSys start_world ∅ (fun r => r = old_ref).
Definition rotation : request := CallRotate web_target "v0" (Some old_ref) "file" "secret2".
Definition rotation_events : list Event := map event ["new"; "e1"; "a"; "b"; "c"; "d"; "e"; "f"; "g"; "h"; "i"; "j"; "k"; "l"; "m"; "n"].
Definition after_rotation : option (World * unit) := run 1%nat 0%nat (program stores rotation) rotation_events start_world.

Lemma start_init : sys_init start_sys.
Proof.
  split; [reflexivity|]. split; [reflexivity|]. split; [reflexivity|]. split; [|split].
  - intros r [_ [n Hn]]. change (({["web" := old_ref]} : gmap string Ref) !! n = Some r) in Hn. apply lookup_singleton_Some in Hn as [_ <-].
    exists "secret1". reflexivity.
  - intros r [[x Hx]|[[_ [n Hn]]|[]]].
    + apply (lookup_singleton_Some old_ref r "secret1" x) in Hx as [<- _]. reflexivity.
    + change (({["web" := old_ref]} : gmap string Ref) !! n = Some r) in Hn. apply lookup_singleton_Some in Hn as [_ <-]. reflexivity.
  - intros r ->. apply elem_of_singleton. reflexivity.
Qed.
(** The rotation ends with the new secret, the old one gone and no entry or lock left. *)
Lemma rotation_result : match after_rotation with
  | Some (w, _) => w_items w !! mkRef "file" "new" = Some "secret2" /\ w_items w !! old_ref = None /\
                   j_files (w_journal w) !! "e1" = None /\ w_locks w !! "e1" = None /\
                   (w_config w : gmap string Ref) !! "web" = Some (mkRef "file" "new")
  | None => False
  end.
Proof. vm_compute. repeat split. Qed.

Lemma reached : exists s, reachable sys_init (sys_step stores) s /\ Some (s_world s, tt) = after_rotation.
Proof.
  assert (is_Some after_rotation) as [[w []] E] by (pose proof rotation_result as R; destruct after_rotation; [eauto|destruct R]).
  destruct (run_steps stores 1%nat 0%nat (program stores rotation) rotation_events
    (mkSys start_world (<[0%nat := (1%nat, program stores rotation)]> ∅) (fun r => r = old_ref)) w tt) as (s & Hs & Hw & _).
  - apply lookup_insert_eq.
  - exact E.
  - exists s. split; [|by rewrite Hw, E]. exists start_sys. split; [exact start_init|]. eapply rtc_l; [|exact Hs].
    apply (sys_spawn stores start_sys 0%nat 1%nat rotation); [reflexivity|]. intros o Ho _. apply list_elem_of_singleton in Ho. exact Ho.
Qed.

Lemma credentials_never_lost_witness : exists s, reachable sys_init (sys_step stores) s /\ is_Some (w_items (s_world s) !! mkRef "file" "new").
Proof.
  destruct reached as (s & Hr & Hw). exists s. split; [exact Hr|]. apply (credentials_never_lost stores s (mkRef "file" "new") Hr).
  pose proof rotation_result as R. rewrite <- Hw in R. destruct R as (_ & _ & _ & _ & Hc). split; [reflexivity|]. exists "web". exact Hc.
Defined.
Lemma secrets_tracked_witness : exists s, reachable sys_init (sys_step stores) s /\
  (s_seen s (mkRef "file" "new") \/ exists id, tracked (w_journal (s_world s)) id (mkRef "file" "new")).
Proof.
  destruct reached as (s & Hr & Hw). exists s. split; [exact Hr|]. apply (secrets_tracked stores s (mkRef "file" "new") Hr).
  pose proof rotation_result as R. rewrite <- Hw in R. destruct R as (Hi & _). rewrite Hi. exists "secret2". reflexivity.
Defined.

Lemma rotate_exact_witness : exists w', run 1%nat 0%nat (Rotate stores web_target "v0" (Some old_ref) "file" "secret2") rotation_events start_world =
    Some (w', (Some (mkRef "file" "new"), "v", None)) /\ w_items w' !! mkRef "file" "new" = Some "secret2".
Proof.
  pose proof (rotate_exact stores 1%nat 0%nat web_target "v0" (Some old_ref) "file" "secret2" start_world rotation_events) as H.
  assert (match run 1%nat 0%nat (Rotate stores web_target "v0" (Some old_ref) "file" "secret2") rotation_events start_world with
          | Some (_, a) => bool_decide (a.1 = (Some (mkRef "file" "new"), "v")) && match a.2 with None => true | _ => false end
          | None => false end = true) as E by (vm_compute; reflexivity).
  destruct (run _ _ _ _ _) as [[w' a]|]; [|discriminate E]. apply andb_true_iff in E as [E1 E2]. apply bool_decide_eq_true in E1.
  assert (a = (Some (mkRef "file" "new"), "v", None)) as -> by (destruct a as [x []]; [discriminate E2|]; simpl in E1; rewrite E1; reflexivity).
  exists w'. split; [reflexivity|]. destruct (H w' (Some (mkRef "file" "new"), "v", None)) as [(_ & _ & Hi & _) _].
  - intros o [= <-]. apply elem_of_singleton. reflexivity.
  - reflexivity.
  - exact Hi.
Defined.

(** The entry of a rotation whose target was rotated again since. *)
Definition stale_entry : JournalEntry :=
  mkEntry "e0" OpRotate StageAppliedUncertain (Some old_ref) (Some (mkRef "file" "lost")) "" web_target 1 1.
Definition stale_world : World := mkWorld ({["web" := mkRef "file" "new"]} : gmap string Ref) {[old_ref := "secret1"]}
  (mkJournal {["e0" := stale_entry]} {["e0" := stale_entry]}) ∅ ∅ ∅ ∅ ∅.
Lemma uncertain_never_settles_witness : exists w' a,
  run 1%nat 0%nat (recover_stage stores stale_entry) [event ""] stale_world = Some (w', a) /\
  w_items w' !! old_ref = Some "secret1" /\ fst a = ScheduledForGC.
Proof.
  assert (forall p f, let r := if one_of (eOp stale_entry) [OpRotate; OpCreate] then eNewRef stale_entry else None in
            snd (ConfirmRefDurable p f (eTarget stale_entry) r (w_config stale_world)) <> Ok true) as Hc by (intros p f; vm_compute; discriminate).
  assert (str_eq (eOp stale_entry) OpAssetDelete = false) as Ho by (vm_compute; reflexivity).
  assert (eStage stale_entry = StageAppliedUncertain) as Hs by reflexivity.
  pose proof (fun w' a => uncertain_never_settles stores 1%nat 0%nat stale_entry [event ""] stale_world w' a Hc Ho Hs) as H.
  assert (match run 1%nat 0%nat (recover_stage stores stale_entry) [event ""] stale_world with Some _ => true | None => false end = true) as E
    by (vm_compute; reflexivity).
  destruct (run 1%nat 0%nat (recover_stage stores stale_entry) [event ""] stale_world) as [[w' a]|]; [|discriminate E].
  destruct (H w' a eq_refl) as (_ & Hi & Ha). exists w', a. split; [reflexivity|]. split; [rewrite Hi; reflexivity|exact Ha].
Defined.
