(* ===== verification/CredentialRepository.v ===== *)
(** The repository keeps the promises the credential service relies on: [ConfigUpdater] for pkg/config's
    Repository, as repository.go's RepositoryConfigUpdater adapts it.

    Several processes, each with a repository of its own, share one configuration file.  A credential
    update is a commit of the corresponding edit, the checks are [CheckRefUnreferenced] and
    [ConfirmRefDurable], assets are deleted by commits; elsewhere, processes commit
    other edits, restart, and the machine loses power.  So the theorems of [CredentialSafety] hold
    for the service as it is composed in the program. *)
From S2P Require Export Repository.
From S2P Require Import CredentialSafety.
#[local] Open Scope Z_scope.

(** * What edits do to references *)
Lemma referenced_identity cfg k i q : referenced (set_identities (insert k i) cfg) q -> q ∈ identity_refs i \/ referenced cfg q.
Proof.
  intros [(k' & i' & H & Hq)|H]; [|right; by right]. simpl in H. apply lookup_insert_Some in H as [[_ <-]|[_ H]]; [by left|].
  right. left. by exists k', i'.
Qed.
Lemma identity_referenced cfg k i q : q ∈ identity_refs i -> referenced (set_identities (insert k i) cfg) q.
Proof. intros H. left. exists k, i. split; [apply lookup_insert_eq|done]. Qed.
Lemma referenced_node cfg k n q : referenced (set_nodes (insert k n) cfg) q -> PrivilegePasswordRef n = Some q \/ referenced cfg q.
Proof.
  intros [H|(k' & n' & H & Hq)]; [right; by left|]. simpl in H. apply lookup_insert_Some in H as [[_ <-]|[_ H]]; [by left|].
  right. right. by exists k', n'.
Qed.

Lemma change_rule_refs name newRef rules : forall rules', change_rule name newRef rules = Some rules' ->
  (forall rule q, rule ∈ rules' -> SecretRef rule = Some q -> (exists r, r ∈ rules /\ SecretRef r = Some q) \/ newRef = Some q) /\
  (no_ref newRef = false -> exists rule, rule ∈ rules' /\ SecretRef rule = newRef).
Proof.
  induction rules as [|r rules IH]; intros rules'; cbn [change_rule]; [done|]. destruct (str_eq (rName r) name).
  - intros [= <-]. destruct (no_ref newRef) eqn:E.
    + split; [|done]. intros rule q Hr Hq. left. exists rule. split; [by constructor|done].
    + split; [|intros _; exists (set_rule_ref r newRef); split; [constructor|done]].
      intros rule q [->|Hr]%elem_of_cons Hq; [by right|]. left. exists rule. split; [by constructor|done].
  - intros (rules0 & H & ->)%fmap_Some. destruct (IH rules0 H) as [H1 H2]. split.
    + intros rule q [->|Hr]%elem_of_cons Hq; [left; exists r; split; [constructor|done]|].
      destruct (H1 rule q Hr Hq) as [(r0 & ? & ?)|?]; [left; exists r0; split; [by constructor|done]|by right].
    + intros Hn. destruct (H2 Hn) as (rule & ? & ?). exists rule. split; [by constructor|done].
Qed.

Lemma elem_identity_refs i q : q ∈ identity_refs i <->
  LoginPasswordRef i = Some q \/ PassphraseRef i = Some q \/ q ∈ otp_refs (OTP i) \/ q ∈ rule_refs (KeyboardInteractive i).
Proof. unfold identity_refs. by rewrite !elem_of_app, !option_refs_elem. Qed.

(** Changing one reference of an identity, for it and for those who share its pointers. *)
Lemma kind_refs identity kind newRef name changed : applyIdentityCredentialRefKind identity kind newRef name = Ok changed ->
  (forall q, q ∈ identity_refs (fst changed) \/ q ∈ identity_refs (set_pointees identity (snd changed)) -> q ∈ identity_refs identity \/ newRef = Some q) /\
  (one_of kind [KindLoginPassword; KindPassphrase; KindTOTPSecret; KindChallengeAnswer] = true -> no_ref newRef = false ->
   forall q, newRef = Some q -> q ∈ identity_refs (fst changed)).
Proof.
  unfold applyIdentityCredentialRefKind. destruct (str_eq kind KindLoginPassword) eqn:E1; [|destruct (str_eq kind KindPassphrase) eqn:E2;
    [|destruct (str_eq kind KindTOTPSecret) eqn:E3; [|destruct (str_eq kind KindChallengeAnswer) eqn:E4]]].
  - intros [= <-]. cbn [fst snd]. destruct (negb _ && negb _); (split; [intros q; rewrite !elem_identity_refs; simpl; tauto|]);
      intros _ _ q ->; rewrite elem_identity_refs; by left.
  - intros [= <-]. cbn [fst snd]. destruct (negb _ && negb _); (split; [intros q; rewrite !elem_identity_refs; simpl; tauto|]);
      intros _ _ q ->; rewrite elem_identity_refs; right; by left.
  - intros [= <-]. unfold applyIdentityTOTPSecretRef. destruct (no_ref newRef) eqn:En.
    + split; [|done]. intros q. destruct (OTP identity) as [o|] eqn:Eo; cbn [fst snd];
        [match goal with |- context [str_eq (trim_space ?a) ""] => destruct (str_eq (trim_space a) "") end|]; rewrite !elem_identity_refs, ?Eo; simpl; rewrite ?elem_of_nil, ?Eo; simpl; rewrite ?elem_of_nil; tauto.
    + split; [intros q; rewrite !elem_identity_refs|intros _ _ q ->; apply elem_identity_refs]; destruct (OTP identity) as [o|] eqn:Eo;
        destruct (str_eq (AuthType identity) ""); simpl; rewrite ?option_refs_elem, ?elem_of_nil, ?Eo; simpl; rewrite ?elem_of_nil, ?option_refs_elem; try tauto; right; right; left; constructor.
  - unfold applyIdentityChallengeAnswerRef. intros H. apply bind_reject_ok in H as [_ H]. destruct (KeyboardInteractive identity) as [ki|] eqn:Ek; [|done].
    destruct (change_rule name newRef (elems (Rules ki))) as [rules|] eqn:Ec; [|done]. injection H as <-. cbn [fst snd].
    apply change_rule_refs in Ec as [H1 H2].
    assert (forall q, q ∈ rule_refs (Some (mkKI (Some rules))) -> q ∈ rule_refs (Some ki) \/ newRef = Some q) as Hr.
    { intros q (rule & Hi & Hq)%rule_refs_elem. destruct (H1 rule q Hi Hq) as [?|?]; [left; by apply rule_refs_elem|by right]. }
    split.
    + intros q. rewrite !elem_identity_refs, Ek. cbn [set_ki set_otp set_pointees fst snd LoginPasswordRef PassphraseRef OTP KeyboardInteractive].
      specialize (Hr q). destruct (no_ref newRef && _); [assert (q ∉ rule_refs None) by apply not_elem_of_nil|]; tauto.
    + intros _ Hn q ->. rewrite Hn. cbn [andb]. apply elem_identity_refs. right. right. right. apply rule_refs_elem. by apply H2.
  - intros [= <-]. cbn [fst snd]. split; [intros q; rewrite !elem_identity_refs; simpl; tauto|]. intros Ho.
    apply one_of_spec in Ho. rewrite !elem_of_cons, elem_of_nil in Ho. apply str_eq_false in E1, E2, E3, E4. destruct_or! Ho; done.
Qed.

Lemma identity_refs_metadata i t : identity_refs (applyIdentityAuthModifications i t) = identity_refs i.
Proof. done. Qed.
Lemma identity_refs_target i t : identity_refs (applyIdentityCredentialMetadata i t) = identity_refs i.
Proof. unfold applyIdentityCredentialMetadata, set_target_fingerprint. by destruct (str_eq _ _). Qed.

(** What an edit may do to references, when it is to record [newRef]. *)
Definition records (newRef : option Ref) (cfg cfg' : Configuration) : Prop :=
  (forall q, referenced cfg' q -> referenced cfg q \/ newRef = Some q) /\
  (no_ref newRef = false -> forall q, newRef = Some q -> referenced cfg' q).

Section Updates.
Context `{Ver : Versions} `{Ord : KeyOrder}.

Lemma auth_records t v newRef cfg r : one_of (tKind t) [KindLoginPassword; KindPassphrase; KindTOTPSecret; KindChallengeAnswer] = true ->
  updateNodeAuthCredentialRef t v newRef cfg = Ok r -> records newRef cfg (fst r).
Proof.
  intros Hk. unfold updateNodeAuthCredentialRef. destruct (Nodes cfg !! tNodeID t) as [node|] eqn:En; [|done]. intros H.
  apply result_bind_ok in H as (cur & _ & H). apply bind_unit_ok in H as [_ H].
  destruct (Identities cfg !! IdentityRef node) as [identity|] eqn:Ei; [|done].
  set (node' := if 1 <? _ then _ else node) in H. set (cfg0 := if 1 <? _ then set_nodes (insert (tNodeID t) node') cfg else cfg) in H.
  apply result_bind_ok in H as (ch & Hc & H). apply result_bind_ok in H as (ver & _ & H). apply Ok_inj in H as <-. cbn [fst].
  destruct (kind_refs _ _ _ _ _ Hc) as [H1 H2].
  assert (forall q, referenced cfg0 q -> referenced cfg q) as Hn.
  { intros q. unfold cfg0, node'. destruct (1 <? _); [|done]. intros [Hq|?]%referenced_node; [|done]. right. by exists (tNodeID t), node. }
  assert (forall q, q ∈ identity_refs identity -> referenced cfg q) as Hi by (intros q Hq; left; by exists (IdentityRef node), identity).
  split.
  - intros q [Hq|[Hq|Hq]%referenced_identity]%referenced_identity; [| |left; by apply Hn].
    + rewrite identity_refs_metadata in Hq. destruct (H1 q (or_introl Hq)); [left; by apply Hi|by right].
    + destruct (H1 q (or_intror Hq)); [left; by apply Hi|by right].
  - intros Hne q Hq. apply identity_referenced. rewrite identity_refs_metadata. by apply H2.
Qed.

Lemma target_records t v newRef cfg r : one_of (tKind t) [KindLoginPassword; KindPassphrase; KindTOTPSecret; KindChallengeAnswer] = true ->
  updateNodeAuthCredentialTarget t v newRef cfg = Ok r -> records newRef cfg (fst r).
Proof.
  intros Hk H. unfold updateNodeAuthCredentialTarget in H. apply result_bind_ok in H as (u & Hu & H). apply auth_records in Hu as [H1 H2]; [|done].
  destruct (str_eq (tKeyFingerprint t) ""); [apply Ok_inj in H as <-; by split|].
  destruct (Nodes (fst u) !! tNodeID t) as [node|]; [|done]. destruct (Identities (fst u) !! IdentityRef node) as [i|] eqn:Ei; [|done].
  apply result_bind_ok in H as (ver & _ & H). apply Ok_inj in H as <-. cbn [fst]. split.
  - intros q [Hq|Hq]%referenced_identity; apply H1; [|done]. left. by exists (IdentityRef node), i.
  - intros Hne q Hq. destruct (H2 Hne q Hq) as [(k & i' & Hk' & Hq')|Hx]; [|by right]. left. simpl.
    destruct (decide (k = IdentityRef node)) as [->|Hkn]; [|exists k, i'; by rewrite lookup_insert_ne].
    exists (IdentityRef node), (set_fingerprint i (tKeyFingerprint t)). rewrite lookup_insert_eq. split; [done|].
    rewrite Ei in Hk'. by injection Hk' as <-.
Qed.

Lemma sudo_records n v newRef cfg r : updateNodeSudoCredentialRef n v newRef cfg = Ok r -> records newRef cfg (fst r).
Proof.
  unfold updateNodeSudoCredentialRef. destruct (Nodes cfg !! n) as [node|]; [|done]. intros H.
  apply result_bind_ok in H as (cur & _ & H). apply bind_unit_ok in H as [_ H]. apply result_bind_ok in H as (ver & _ & H). apply Ok_inj in H as <-.
  cbn [fst]. split; [intros q [Hq|?]%referenced_node; [by right|by left]|]. intros _ q Hq. right. exists n. eexists.
  split; [apply lookup_insert_eq|done].
Qed.

Lemma apply_records t v newRef cfg r : apply_credential t v newRef cfg = Ok r -> records newRef cfg (fst r).
Proof.
  unfold apply_credential. destruct (negb (str_eq (tNodeID t) "")); [|destruct (negb (str_eq (tIdentityID t) "")); [|done]].
  - unfold update_node_credential. destruct (kind_Validate (tKind t)); [|done]. intros H. apply bind_unit_ok in H as [_ H].
    destruct (one_of (tKind t) _) eqn:Hk; [by eapply target_records|by eapply sudo_records].
  - unfold update_identity_credential. destruct (kind_Validate (tKind t)); [|done]. intros H. apply bind_reject_ok in H as [Hk H].
    apply negb_false_iff in Hk. apply bind_unit_ok in H as [_ H]. destruct (Identities cfg !! tIdentityID t) as [i|] eqn:Ei; [|done].
    apply result_bind_ok in H as (cur & _ & H). apply bind_unit_ok in H as [_ H]. apply result_bind_ok in H as (ch & Hc & H).
    apply result_bind_ok in H as (ver & _ & H). apply Ok_inj in H as <-. destruct (kind_refs _ _ _ _ _ Hc) as [H1 H2]. cbn [fst]. split.
    + intros q [Hq|Hq]%referenced_identity; [|by left]. rewrite identity_refs_target in Hq.
      destruct (H1 q (or_introl Hq)); [|by right]. left. left. by exists (tIdentityID t), i.
    + intros Hne q Hq. apply identity_referenced. rewrite identity_refs_target. by apply H2.
Qed.

(** Deleting only drops references. *)
Definition drops (cfg cfg' : Configuration) : Prop := forall q, referenced cfg' q -> referenced cfg q.
#[global] Instance drops_preorder : PreOrder drops.
Proof. split; [by intros c q|intros a b c H1 H2 q Hq; by apply H1, H2]. Qed.

Lemma drops_identity k cfg : drops cfg (set_identities (delete k) cfg).
Proof. intros q [(k' & i & H & Hq)|H]; [|by right]. simpl in H. apply lookup_delete_Some in H as [_ H]. left. by exists k', i. Qed.
Lemma drops_node k cfg : drops cfg (set_nodes (delete k) cfg).
Proof. intros q [H|(k' & i & H & Hq)]; [by left|]. simpl in H. apply lookup_delete_Some in H as [_ H]. right. by exists k', i. Qed.
Lemma drops_hosts f cfg : drops cfg (set_hosts f cfg).
Proof. by intros q. Qed.

Lemma drops_unused h i cfg : drops cfg (removeUnusedRefs h i cfg).
Proof.
  unfold removeUnusedRefs. destruct (negb (refers_to _ HostRef _ _) && _), (negb (refers_to _ IdentityRef _ _) && _);
  [etrans; [apply drops_hosts|apply drops_identity]|apply drops_hosts|apply drops_identity|done].
Qed.
Lemma drops_removed n cfg : drops cfg (removeNodeAndUnusedRefs n cfg).
Proof. unfold removeNodeAndUnusedRefs. destruct (Nodes cfg !! n); [|done]. etrans; [apply drops_node|apply drops_unused]. Qed.
Lemma drops_nodes refs : forall seen cfg, drops cfg (remove_nodes seen refs cfg).
Proof. induction refs as [|r refs IH]; intros seen cfg; simpl; [done|]. destruct (slice_contains _ _); [apply IH|]. etrans; [apply drops_removed|apply IH]. Qed.

Lemma delete_nodes_drops refs cfg cfg' : delete_nodes refs cfg = Ok cfg' -> drops cfg cfg'.
Proof. unfold delete_nodes. intros H. apply bind_unit_ok in H as [_ H]. apply Ok_inj in H as <-. apply drops_nodes. Qed.
Lemma delete_identity_drops ref cfg cfg' : delete_identity ref cfg = Ok cfg' -> drops cfg cfg'.
Proof. unfold delete_identity. intros H. apply bind_unit_ok in H as [_ H]. destruct (referrer cfg _); [done|]. apply Ok_inj in H as <-. apply drops_identity. Qed.
End Updates.

(** * Processes that share a file *)
Record Shared := mkShared { s_disk : Disk; s_repo : nat -> Repo }.
Definition on_repo (s : Shared) (p : nat) (r : Repo) (d : Disk) : Shared :=
  mkShared d (fun p' => if decide (p' = p) then r else s_repo s p').
Lemma on_repo_eq s p r d : s_repo (on_repo s p r d) p = r.
Proof. simpl. by rewrite decide_True. Qed.

(** What goes wrong in a commit, and whether the file can be synchronised in a check. *)
Record Faulty := mkFaulty { x_faults : Faults; x_sync : bool }.
Inductive AssetEdit := NodesAtRefs (refs : list NodeVersionRef) | IdentityAtRef (ref : IdentityVersionRef).
Inductive repository_error := TargetRefused (e : edit_error) | CommitRefused (e : commit_error) | CheckFailed (e : check_error).

Section Promise.
Context `{Ver : Versions} `{Alg : SshOptions.Algorithms} `{Ord : KeyOrder} `{Rx : RegexpCompile} `{Usr : CurrentUser}.

Definition holds (f : File) (q : Ref) : Prop := exists cfg, loadLocked f = Ok cfg /\ referenced cfg q.
Definition on_disk (d : Disk) (q : Ref) : Prop := holds (d_visible d) q \/ holds (d_durable d) q.
Definition in_memory (r : Repo) (q : Ref) : Prop := referenced (p_cfg (r_provider r)) q.
Definition recorded (s : Shared) (q : Ref) : Prop := ref_IsEmpty q = false /\ on_disk (s_disk s) q.
Definition displayed (s : Shared) (q : Ref) : Prop := ref_IsEmpty q = false /\ exists p, in_memory (s_repo s p) q.

(** [RepositoryConfigUpdater].  The target and the reference are checked before the file is
    read; the version is the one the edit produced. *)
Definition checked_target (t : Target) (newRef : option Ref) : result edit_error unit :=
  reject str_eq (tNodeID t) "" && str_eq (tIdentityID t) "" with TargetMissing ;;
  try _ := map_err BadRef (kind_Validate (tKind t)) ;;
  reject str_eq (tNodeID t) "" && negb (one_of (tKind t) [KindLoginPassword; KindPassphrase; KindTOTPSecret; KindChallengeAnswer])
    with BadKind (tKind t) ;;
  check_ref newRef.
Definition committedVersion (d : Disk) (t : Target) (version : string) (newRef : option Ref) : string :=
  match loadLocked (d_visible d) with
  | Ok base => match apply_credential t version newRef (cloneConfiguration (Some base)) with Ok (_, v) => v | Err _ => "" end
  | Err _ => ""
  end.
Definition applyCredential (p : nat) (x : Faulty) (t : Target) (version : string) (newRef : option Ref) (s : Shared)
    : Shared * MutationOutcome * string * option repository_error :=
  match checked_target t newRef with
  | Err e => (s, mkOutcome false false, "", Some (TargetRefused e))
  | Ok _ =>
      let '(r, d, result, err) := commit (s_repo s p) (s_disk s) (x_faults x) anyRevision (run_edit (ApplyCredential t version newRef)) in
      let applied := cr_Applied result in
      (on_repo s p r d, mkOutcome applied (match err with Some _ => false | None => cr_Durable result end),
       if applied then committedVersion (s_disk s) t version newRef else "", CommitRefused <$> err)
  end.
Definition checkUnreferenced (p : nat) (x : Faulty) (q : Ref) (s : Shared) : Shared * result repository_error bool :=
  let '(r, d, res) := Repository.CheckRefUnreferenced (s_repo s p) (s_disk s) (file_store (x_sync x)) q in (on_repo s p r d, map_err CheckFailed res).
Definition confirmDurable (p : nat) (x : Faulty) (t : Target) (q : option Ref) (s : Shared) : Shared * result repository_error bool :=
  let '(r, d, res) := Repository.ConfirmRefDurable (s_repo s p) (s_disk s) (file_store (x_sync x)) t q in (on_repo s p r d, map_err CheckFailed res).
Definition commitAssets (p : nat) (x : Faulty) (a : AssetEdit) (s : Shared) : Shared * MutationOutcome * option repository_error :=
  let e := match a with NodesAtRefs refs => DeleteNodes refs | IdentityAtRef ref => DeleteIdentity ref end in
  let '(r, d, result, err) := commit (s_repo s p) (s_disk s) (x_faults x) anyRevision (run_edit e) in
  (on_repo s p r d, mkOutcome (cr_Applied result) (cr_Durable result), CommitRefused <$> err).

(** ** What they do to references *)
Lemma persisted_referenced c q : referenced (persisted c) q <-> referenced c q.
Proof.
  rewrite <- (clone_referenced c q). unfold referenced, persisted. simpl. apply or_iff_compat; [done|].
  setoid_rewrite lookup_fmap. split; intros (k & n & (x & Hx & ->)%fmap_Some & Hq); exists k; rewrite Hx; eexists; (split; [reflexivity|done]).
Qed.

(** A commit puts on the disk and into memory what its edit makes of the file. *)
Lemma commit_refs r d f rev fn r' d' result err (adds : Ref -> Prop) : commit r d f rev fn = (r', d', result, err) ->
  (forall base u q, fn base = Ok u -> referenced u q -> referenced base q \/ adds q) ->
  (forall q, on_disk d' q -> on_disk d q \/ (cr_Applied result = true /\ adds q)) /\
  (forall q, in_memory r' q -> in_memory r q \/ on_disk d q \/ (cr_Applied result = true /\ adds q)).
Proof.
  intros H Hfn. apply commit_cases in H as [(_ & -> & -> & _)|(Ha & Hc)]; [split; intros q Hq; by left|].
  destruct Hc as (base & u & ix & v2 & Hl & Hu & _ & _ & _ & Hv & Hlv & Hp & _ & _ & _ & _ & Hd & _).
  assert (forall q, referenced u q -> on_disk d q \/ cr_Applied result = true /\ adds q) as Hq.
  { intros q Hq. destruct (Hfn _ _ q Hu Hq) as [Hb|Hb]; [|by right]. left. left. exists base. split; [done|]. by apply clone_referenced. }
  assert (forall q, holds (d_visible d') q -> referenced u q) as Hvis.
  { intros q (c & Hc & Hr). rewrite Hlv in Hc. apply Ok_inj in Hc as <-. by apply persisted_referenced. }
  split.
  - intros q [Hx|Hx]; [by apply Hq, Hvis|]. rewrite Hd in Hx. destruct (cr_Durable result); [|left; by right].
    apply Hq, Hvis. by rewrite Hv.
  - intros q Hx. unfold in_memory in Hx. rewrite Hp in Hx. right. by apply Hq, clone_referenced.
Qed.

Lemma on_repo_displayed s p r d q : displayed (on_repo s p r d) q -> displayed s q \/ (ref_IsEmpty q = false /\ in_memory r q).
Proof.
  intros (He & p' & Hp). simpl in Hp. destruct (decide (p' = p)) as [->|]; [by right|]. left. split; [done|]. by exists p'.
Qed.

(** A commit as the updater's laws see it. *)
Lemma shared_commit s p f rev fn r' d' result err (adds : Ref -> Prop) : commit (s_repo s p) (s_disk s) f rev fn = (r', d', result, err) ->
  (forall base u q, fn base = Ok u -> referenced u q -> referenced base q \/ adds q) ->
  (forall q, recorded (on_repo s p r' d') q -> recorded s q \/ (cr_Applied result = true /\ adds q)) /\
  (forall q, displayed (on_repo s p r' d') q -> (recorded s q \/ displayed s q) \/ (cr_Applied result = true /\ adds q)).
Proof.
  intros H Hfn. destruct (commit_refs _ _ _ _ _ _ _ _ _ adds H Hfn) as [H1 H2]. split.
  - intros q [He Hq]. destruct (H1 q Hq); [by left|by right].
  - intros q [Hd|[He Hq]]%on_repo_displayed; [left; by right|]. destruct (H2 q Hq) as [Hm|[Hd|?]]; [|left; by left|by right].
    left. right. split; [done|]. by exists p.
Qed.

(** [apply_live], [apply_recorded] and [apply_error]. *)
Lemma applied_adds t v newRef base u q : run_edit (ApplyCredential t v newRef) base = Ok u -> referenced u q -> referenced base q \/ newRef = Some q.
Proof.
  cbn [run_edit]. intros H Hq. apply result_bind_ok in H as (r & Hr & H). apply Ok_inj in H as <-. apply apply_records in Hr as [Hr _]. by apply Hr.
Qed.

Lemma apply_adds p x t v newRef s s' o ver err : applyCredential p x t v newRef s = (s', o, ver, err) ->
  (forall q, recorded s' q -> recorded s q \/ (Applied o = true /\ newRef = Some q)) /\
  (forall q, displayed s' q -> (recorded s q \/ displayed s q) \/ (Applied o = true /\ newRef = Some q)).
Proof.
  unfold applyCredential. destruct (checked_target t newRef); [|intros [= <- <- _ _]; split; intros q; auto].
  destruct (commit _ _ _ _ _) as [[[r d] result] e] eqn:Hc. intros [= <- <- _ _]. cbn [Applied].
  apply (shared_commit _ _ _ _ _ _ _ _ _ (fun q => newRef = Some q) Hc). by apply applied_adds.
Qed.

Lemma apply_keeps_ref p x t v newRef s s' o ver err q : applyCredential p x t v newRef s = (s', o, ver, err) ->
  Applied o = true -> newRef = Some q -> ref_IsEmpty q = false -> recorded s' q.
Proof.
  unfold applyCredential. destruct (checked_target t newRef); [|by intros [= _ <- _ _]].
  destruct (commit _ _ _ _ _) as [[[r d] result] e] eqn:Hc. intros [= <- <- _ _]. cbn [Applied]. intros Ha Hn He.
  apply commit_cases in Hc as [(Hx & _)|(_ & base & u & ix & v2 & _ & Hu & _ & _ & _ & _ & Hl & _)]; [congruence|].
  split; [done|]. left. exists (persisted u). split; [done|]. apply persisted_referenced.
  cbn [run_edit] in Hu. apply result_bind_ok in Hu as (w & Hw & Hu). apply Ok_inj in Hu as <-. apply apply_records in Hw as [_ Hw].
  apply Hw; [|done]. by subst newRef.
Qed.

Lemma apply_success p x t v newRef s s' o ver err : applyCredential p x t v newRef s = (s', o, ver, err) ->
  err = None -> Applied o = true /\ Durable o = true.
Proof.
  unfold applyCredential. destruct (checked_target t newRef); [|by intros [= _ _ _ <-]].
  destruct (commit _ _ _ _ _) as [[[r d] result] e] eqn:Hc. intros [= _ <- _ <-] He. destruct e as [e|]; [done|]. cbn [Applied Durable].
  apply commit_cases in Hc as [(_ & _ & _ & Hx)|(Ha & base & u & ix & v2 & Hc)]; [done|]. split; [done|].
  destruct Hc as (_ & _ & _ & _ & _ & _ & _ & _ & _ & _ & _ & _ & _ & Hd & _). by apply Hd.
Qed.

Lemma assets_drop p x a s s' o err : commitAssets p x a s = (s', o, err) ->
  (forall q, recorded s' q -> recorded s q) /\ (forall q, displayed s' q -> recorded s q \/ displayed s q).
Proof.
  unfold commitAssets. destruct (commit _ _ _ _ _) as [[[r d] result] e] eqn:Hc. intros [= <- _ _].
  destruct (shared_commit _ _ _ _ _ _ _ _ _ (fun _ => False) Hc) as [H1 H2].
  { intros base u q Hu Hq. left. destruct a; cbn [run_edit] in Hu; [by eapply delete_nodes_drops|by eapply delete_identity_drops]. }
  split; intros q Hq; [destruct (H1 q Hq) as [?|[_ []]]|destruct (H2 q Hq) as [?|[_ []]]]; done.
Qed.

(** A disk that is synchronised, or left alone, holds nothing new; the memory at most what the file holds. *)
Lemma sync_on_disk u works d d' q : syncStoreLocked u (file_store works) d = Some d' -> on_disk d' q -> holds (d_visible d) q.
Proof.
  intros H Hq. apply sync_crash in H as [-> _]; [|done]. by destruct Hq.
Qed.

Lemma check_memory r d s q r' d' res : Repository.CheckRefUnreferenced r d s q = (r', d', res) ->
  forall q', in_memory r' q' -> in_memory r q' \/ holds (d_visible d) q'.
Proof.
  unfold Repository.CheckRefUnreferenced. destruct (ref_IsEmpty q); [intros [= <- _ _]; by left|].
  destruct (loadLocked (d_visible d)) as [cfg|] eqn:Hl; [|intros [= <- _ _]; by left].
  destruct (isRefReferencedIn cfg q); [intros [= <- _ _]; by left|]. destruct (_ && _); [intros [= <- _ _]; by left|].
  set (r1 := if _ && _ then _ else r). intros H q' Hq'.
  assert (in_memory r1 q' -> in_memory r q' \/ holds (d_visible d) q') as Hr.
  { unfold r1. destruct (_ && _); [|by left]. destruct (buildIndexes cfg false); [|by left]. intros Hq. right. by exists cfg. }
  destruct (syncStoreLocked _ s d); injection H as <- _ _; by apply Hr.
Qed.

Lemma check_laws p x q s s' res : checkUnreferenced p x q s = (s', res) ->
  (forall q', recorded s' q' -> recorded s q') /\ (forall q', displayed s' q' -> recorded s q' \/ displayed s q') /\
  (res = Ok true -> ~ recorded s' q) /\ (res = Ok false -> recorded s q \/ displayed s q).
Proof.
  unfold checkUnreferenced. destruct (Repository.CheckRefUnreferenced _ _ _ _) as [[r d] c] eqn:E. intros [= <- <-].
  pose proof (check_memory _ _ _ _ _ _ _ E) as Hm. split_and!.
  - intros q' [He Hq']. split; [done|]. simpl in Hq'. unfold Repository.CheckRefUnreferenced in E.
    destruct (ref_IsEmpty q); [by injection E as _ <- _|]. destruct (loadLocked _); [|by injection E as _ <- _].
    destruct (isRefReferencedIn _ _); [by injection E as _ <- _|]. destruct (_ && _) in E; [by injection E as _ <- _|].
    destruct (syncStoreLocked _ _ _) eqn:Hs; injection E as _ <- _; [|done]. left. by eapply sync_on_disk.
  - intros q' [Hd|[He Hq']]%on_repo_displayed; [by right|]. destruct (Hm q' Hq'); [right; split; [done|by exists p]|left; split; [done|by left]].
  - intros Hr [He Hq]. assert (c = Ok true) as -> by (by destruct c as [[]|]; inversion Hr).
    apply unreferenced_spec in E as (_ & (cfg & Hl) & Hf & _ & _ & Hcr); [|done|done]. destruct Hq as [(c & Hc & Hq)|(c & Hc & Hq)].
    + by apply (Hf c).
    + apply (Hcr _ (crash_lost d) c Hc Hq).
  - intros Hr. assert (c = Ok false) as -> by (by destruct c as [[]|]; inversion Hr). unfold Repository.CheckRefUnreferenced in E.
    destruct (ref_IsEmpty q) eqn:He; [done|]. destruct (loadLocked (d_visible (s_disk s))) as [cfg|] eqn:Hl; [|done].
    destruct (isRefReferencedIn cfg q) eqn:H1; [left; split; [done|]; left; exists cfg; by rewrite <- isRefReferencedIn_spec|].
    destruct (_ && _) eqn:H2 in E; [|by destruct (syncStoreLocked _ _ _)]. right. split; [done|]. exists p. unfold in_memory.
    apply andb_true_iff in H2 as [_ H2]. by apply clone_referenced, isRefReferencedIn_spec.
Qed.

Lemma confirm_rule_holds name q rules : ref_IsEmpty q = false -> confirm_rule name (Some q) rules = true ->
  exists rule, rule ∈ rules /\ SecretRef rule = Some q.
Proof.
  intros He. induction rules as [|rule rules IH]; cbn [confirm_rule]; [by unfold no_ref; rewrite He|].
  destruct (str_eq (rName rule) name).
  - intros H. unfold equalRef in H. bool_facts. exists rule. split; [constructor|done].
  - intros H. destruct (IH H) as (r & ? & ?). exists r. split; [by constructor|done].
Qed.
Lemma confirm_identity_holds i t q : ref_IsEmpty q = false -> confirm_identity i t (Some q) = true -> q ∈ identity_refs i.
Proof.
  intros He H. apply elem_identity_refs. unfold confirm_identity, equalRef in H.
  destruct (str_eq (tKind t) KindLoginPassword); [bool_facts; by left|]. destruct (str_eq (tKind t) KindPassphrase); [bool_facts; right; by left|].
  destruct (str_eq (tKind t) KindTOTPSecret).
  - right. right. left. destruct (OTP i) as [o|]; [bool_facts; simpl; by apply option_refs_elem|]. unfold no_ref in H. congruence.
  - destruct (str_eq (tKind t) KindChallengeAnswer); [|done]. right. right. right.
    destruct (KeyboardInteractive i) as [ki|]; [by apply rule_refs_elem, (confirm_rule_holds (tRuleName t))|]. unfold no_ref in H. congruence.
Qed.
Lemma matched_referenced cfg t q : ref_IsEmpty q = false -> ref_matched cfg t (Some q) = true -> referenced cfg q.
Proof.
  intros He. unfold ref_matched, confirmNodeRefDurable, confirmIdentityRefDurable. destruct (negb (str_eq (tNodeID t) "")).
  - destruct (Nodes cfg !! tNodeID t) as [node|] eqn:En; [|done]. destruct (str_eq (tKind t) KindPrivilegePassword).
    + unfold equalRef. intros H. bool_facts. right. eauto.
    + destruct (Identities cfg !! IdentityRef node) as [i|] eqn:Ei; [|done]. intros H%confirm_identity_holds; [|done]. left. eauto.
  - destruct (negb (str_eq (tIdentityID t) "")); [|done]. destruct (Identities cfg !! tIdentityID t) as [i|] eqn:Ei; [|done].
    intros H%confirm_identity_holds; [|done]. left. eauto.
Qed.

Lemma confirm_laws p x t r s s' res : confirmDurable p x t r s = (s', res) ->
  (forall q, recorded s' q -> recorded s q) /\ (forall q, displayed s' q -> recorded s q \/ displayed s q) /\
  (res = Ok true -> forall q, r = Some q -> ref_IsEmpty q = false -> recorded s q).
Proof.
  unfold confirmDurable. destruct (Repository.ConfirmRefDurable _ _ _ _ _) as [[r' d] c] eqn:E. intros [= <- <-].
  unfold Repository.ConfirmRefDurable in E. destruct (loadLocked (d_visible (s_disk s))) as [cfg|] eqn:Hl.
  2: { injection E as <- <- <-. split_and!; [done| |done]. intros q [?|[He Hq]]%on_repo_displayed; right; [done|]. split; [done|]. by exists p. }
  assert (forall r0, p_cfg (r_provider r0) = p_cfg (r_provider (s_repo s p)) -> forall q, displayed (on_repo s p r0 d) q -> recorded s q \/ displayed s q) as Hm.
  { intros r0 Hr q [?|[He Hq]]%on_repo_displayed; right; [done|]. split; [done|]. exists p. unfold in_memory in *. by rewrite <- Hr. }
  destruct (ref_matched cfg t r) eqn:Hc; cbn [negb] in E; [|injection E as <- <- <-; split_and!; [done|by apply Hm|done]].
  destruct (syncStoreLocked _ _ _) as [d0|] eqn:Hs; injection E as <- <- <-; (split_and!; [|by apply Hm|]).
  - intros q [He Hq]. split; [done|]. left. by eapply sync_on_disk.
  - intros _ q -> He. split; [done|]. left. exists cfg. split; [done|]. by eapply matched_referenced.
  - done.
  - done.
Qed.

Lemma new_repository_cfg cfg parser o r : newRepository (Some cfg) parser o = Ok r -> p_cfg (r_provider r) = cloneConfiguration (Some cfg).
Proof. unfold newRepository. intros H. apply result_bind_ok in H as (ix & _ & H). apply bind_unit_ok in H as [_ H]. by apply Ok_inj in H as <-. Qed.

(** Everything else: commits that record nothing new, changes of a session, a process that
    starts anew from the file, and a loss of power. *)
Inductive meanwhile (s : Shared) : Shared -> Prop :=
  | by_commit p f rev fn r' d' result err : commit (s_repo s p) (s_disk s) f rev fn = (r', d', result, err) ->
      (forall base u, fn base = Ok u -> drops base u) -> meanwhile s (on_repo s p r' d')
  | by_session p r' : p_cfg (r_provider r') = p_cfg (r_provider (s_repo s p)) -> meanwhile s (on_repo s p r' (s_disk s))
  | by_restart p cfg parser o r' : loadLocked (d_visible (s_disk s)) = Ok cfg -> newRepository (Some cfg) parser o = Ok r' ->
      meanwhile s (on_repo s p r' (s_disk s))
  | by_crash d' : crash (s_disk s) d' -> meanwhile s (mkShared d' (s_repo s)).

Lemma meanwhile_drops s s' : meanwhile s s' ->
  (forall q, recorded s' q -> recorded s q) /\ (forall q, displayed s' q -> recorded s q \/ displayed s q).
Proof.
  intros [p f rev fn r' d' result err Hc Hf|p r' Hr|p cfg parser o r' Hl Hr|d' Hc].
  - destruct (shared_commit _ _ _ _ _ _ _ _ _ (fun _ => False) Hc) as [H1 H2]; [intros base u q Hu Hq; left; by eapply Hf|].
    split; intros q Hq; [destruct (H1 q Hq) as [?|[_ []]]|destruct (H2 q Hq) as [?|[_ []]]]; done.
  - split; [done|]. intros q [?|[He Hq]]%on_repo_displayed; right; [done|]. split; [done|]. exists p. unfold in_memory in *. by rewrite <- Hr.
  - split; [done|]. intros q [?|[He Hq]]%on_repo_displayed; [by right|left]. split; [done|]. left. exists cfg. split; [done|].
    unfold in_memory in Hq. rewrite (new_repository_cfg _ _ _ _ Hr) in Hq. by apply clone_referenced.
  - split; [|intros q Hq; by right]. intros q [He Hq]. split; [done|]. inversion Hc; subst; simpl in *; [right|left]; by destruct Hq.
Qed.

#[global] Instance repository_updater : ConfigUpdater.
Proof.
  refine (Build_ConfigUpdater Shared Faulty AssetEdit repository_error recorded displayed applyCredential checkUnreferenced confirmDurable commitAssets meanwhile _ _ _ _ _ _ _).
  - exact apply_adds.
  - intros p f t v n c c' o ver err r H. by apply (apply_keeps_ref _ _ _ _ _ _ _ _ _ _ _ H).
  - exact apply_success.
  - exact check_laws.
  - exact confirm_laws.
  - exact assets_drop.
  - exact meanwhile_drops.
Defined.

(** C3: Whatever several processes do with the credential service over one configuration file, and wherever
    they fail or the machine loses power: every reference in the file, as it is or as
    a crash would leave it, has its secret in its store. *)
Theorem file_never_dangles reg s f cfg r : reachable sys_init (sys_step reg) s ->
  f = d_visible (s_disk (w_config (s_world s))) \/ f = d_durable (s_disk (w_config (s_world s))) ->
  loadLocked f = Ok cfg -> referenced cfg r -> ref_IsEmpty r = false -> is_Some (w_items (s_world s) !! r).
Proof.
  intros Hr Hf Hl Hq He. apply (live_has_item reg s r Hr). split; [done|].
  destruct Hf as [-> | ->]; [left|right]; by exists cfg.
Qed.
End Promise.

(** * Witness *)
#[local] Existing Instance SshOptions.sample_algorithms.
#[local] Instance sample_versions : Versions.
Proof. exists (fun _ => Some "0123456789abcdef0123456789abcdef"). by intros d v [= <-]. Defined.
#[local] Instance sample_regexp : RegexpCompile := fun _ => true.
#[local] Instance sample_user : CurrentUser := Some "ops".

Definition saved_sample : ConfigurationV2 := v2_of sample_config.
Definition shared_sample : Shared := mkShared (mkDisk (Some saved_sample) (Some saved_sample)) (fun _ => sample_repo).
Definition a1 : Ref := mkRef "file" "a1".
Definition fault_free (id : string) : Event := mkEvent Through (mkFaulty no_faults true) id 7 None.
Definition shared_world : World :=
  mkWorld shared_sample {[a1 := "secret1"]} (mkJournal ∅ ∅) ∅ ∅ ∅ {["a1"]} ∅.
Definition shared_sys : Sys := mkSys shared_world ∅ (fun r => r = a1).
Definition shared_rotation : request := CallRotate web_target "" (Some a1) "file" "secret2".
Definition shared_events : list Event := map fault_free ["new"; "e1"; "a"; "b"; "c"; "d"; "e"; "f"; "g"; "h"; "i"; "j"; "k"; "l"; "m"; "n"].
Definition rotated_world : option (World * unit) := run 1%nat 0%nat (program stores shared_rotation) shared_events shared_world.

Lemma sample_loads : loadLocked (Some saved_sample) = Ok (persisted sample_config).
Proof.
  apply load_saved, ToV2_ok. split; [|split; [vm_compute; reflexivity|reflexivity]].
  split; (apply map_Forall_to_list; vm_compute; repeat constructor).
Qed.
Lemma sample_refs q : referenced sample_config q -> q = a1.
Proof.
  intros [(k & i & Hi & Hq)|(k & n & Hn & Hq)].
  - change (Identities sample_config) with ({["i1" := sample_identity]} : gmap string Identity) in Hi.
    apply lookup_singleton_Some in Hi as [_ <-]. by apply list_elem_of_singleton in Hq.
  - change (Nodes sample_config) with (<["web" := sample_node "w"]> {["db" := sample_node "d"]} : gmap string Node) in Hn.
    apply lookup_insert_Some in Hn as [[_ <-]|[_ [_ <-]%lookup_singleton_Some]]; discriminate Hq.
Qed.
Lemma shared_known q : known (w_config shared_world) q -> q = a1.
Proof.
  intros [[_ Hq]|[_ [p Hp]]]; apply sample_refs.
  - destruct Hq as [(c & Hc & Hq)|(c & Hc & Hq)]; pose proof (Ok_inj _ _ (eq_trans (eq_sym sample_loads) Hc)) as <-; by apply persisted_referenced.
  - assert (p_cfg (r_provider sample_repo) = cloneConfiguration (Some sample_config)) as E.
    { assert (is_ok (newRepository (Some sample_config) no_openssh false) = true) as Hok by (vm_compute; reflexivity).
      unfold sample_repo. destruct (newRepository _ _ _) eqn:En; [|discriminate Hok]. exact (new_repository_cfg _ _ _ _ En). }
    unfold in_memory in Hp. simpl in Hp. rewrite E in Hp. by apply clone_referenced.
Qed.
Lemma shared_init : sys_init shared_sys.
Proof.
  split; [reflexivity|]. split; [reflexivity|]. split; [reflexivity|]. split; [|split].
  - intros r Hr. assert (r = a1) as -> by (apply shared_known; by left). exists "secret1". reflexivity.
  - intros r [[x Hx]|Hk]; [|by apply shared_known]. apply (lookup_singleton_Some a1 r "secret1" x) in Hx as [<- _]. reflexivity.
  - intros r ->. apply elem_of_singleton. reflexivity.
Qed.

(** Process 1 gives "web" a password of its own: the identity it shared is forked. *)
Definition new_secret : Ref := mkRef "file" "new".
Definition holds_new (f : File) : bool := match loadLocked f with Ok cfg => isRefReferencedIn cfg new_secret | Err _ => false end.
Lemma rotated_holds : match rotated_world with Some (w, _) => holds_new (d_durable (s_disk (w_config w))) | None => false end = true.
Proof. vm_compute. reflexivity. Qed.
Lemma rotated_reached : exists s, reachable sys_init (sys_step stores) s /\ Some (s_world s, tt) = rotated_world.
Proof.
  assert (is_Some rotated_world) as [[w []] E] by (pose proof rotated_holds as R; destruct rotated_world; [eauto|discriminate R]).
  destruct (run_steps stores 1%nat 0%nat (program stores shared_rotation) shared_events
    (mkSys shared_world (<[0%nat := (1%nat, program stores shared_rotation)]> ∅) (fun r => r = a1)) w tt) as (s & Hs & Hw & _).
  - apply lookup_insert_eq.
  - exact E.
  - exists s. split; [|by rewrite Hw, E]. exists shared_sys. split; [exact shared_init|]. eapply rtc_l; [|exact Hs].
    apply (sys_spawn stores shared_sys 0%nat 1%nat shared_rotation); [reflexivity|]. intros o Ho _. apply list_elem_of_singleton in Ho. exact Ho.
Qed.

Lemma file_never_dangles_witness : exists s, reachable sys_init (sys_step stores) s /\
  holds_new (d_durable (s_disk (w_config (s_world s)))) = true /\ is_Some (w_items (s_world s) !! new_secret).
Proof.
  destruct rotated_reached as (s & Hr & Hw). exists s. split; [exact Hr|].
  pose proof rotated_holds as R. rewrite <- Hw in R. split; [exact R|]. unfold holds_new in R.
  destruct (loadLocked _) as [cfg|] eqn:E; [|discriminate R]. apply (file_never_dangles stores s _ cfg new_secret Hr (or_intror eq_refl) E).
  - apply isRefReferencedIn_spec. exact R.
  - reflexivity.
Defined.
