(* ===== verification/Approval.v ===== *)
(** Approvals: core/mcp/guardrail/approval.go and approval_roundtrip.go.

    A call that needs approval either elicits an answer on the session
    ([RequestApproval]) or, on newer protocol versions, is answered with a
    challenge whose token must come back with the answer ([advanceApproval]).
    The theorems show what an approval proves: a live, unexpired challenge of
    the same session and the same bound operation, used once. *)
From S2P Require Export Policy.
#[local] Open Scope Z_scope.

(** * The MCP session as the code sees it *)
Record ElicitCapability := mkElicit { capForm : bool; capURL : bool }.
(** [Capabilities] may be nil, and so may its [Elicitation]. *)
Record InitializeParams := mkInit {
  ProtocolVersion : string;
  Capabilities : option (option ElicitCapability)
}.
(** Sessions are compared by pointer: [sid] is the pointer's identity. *)
Record Session := mkSession { sid : positive; InitParams : option InitializeParams }.

(** [content_approved] is [Content["approved"].(bool)]: [None] when the field
    is missing or not a boolean. *)
Record ElicitResult := mkElicitResult { erAction : string; content_approved : option bool }.

(** [InputResponses]: [None] stands for a response of another type. *)
Record CallToolParams := mkParams {
  RequestState : string;
  InputResponses : gmap string (option ElicitResult)
}.
Record CallToolRequest := mkRequest {
  rqSession : option Session;
  rqParams : option CallToolParams
}.

Inductive approval_error :=
  | ACancelled
  | ANoSession
  | ANotInitialized
  | ANoForm
  | AMethodNotFound
  | AElicitFailed
  | AEmptyResponse
  | ANotGranted
  | ADeclined
  | ACancelledByUser
  | AUnexpected (action : string)
  | ADangerousFallback (cause : approval_error)
  | ARequestFailed (cause : approval_error)
  | ANoParams
  | AEncode
  | AExpired
  | AMismatch
  | AInvalidResponse
  | ATooMany
  | ARandom.

(** * Elicitation (approval.go) *)

(** The client cannot show a form: no elicitation, or URL elicitation only. *)
Definition no_form (c : option (option ElicitCapability)) : bool :=
  match c with
  | None | Some None => true
  | Some (Some e) => negb (capForm e) && capURL e
  end.

Definition interpretApproval (r : option ElicitResult) : result approval_error unit :=
  match r with
  | None => Err AEmptyResponse
  | Some r =>
      if str_eq (erAction r) "accept" then
        if bool_decide (content_approved r = Some true) then Ok tt else Err ANotGranted
      else if str_eq (erAction r) "decline" then Err ADeclined
      else if str_eq (erAction r) "cancel" then Err ACancelledByUser
      else Err (AUnexpected (erAction r))
  end.

Definition applyFallback (elicitErr : approval_error) (risk : RiskLevel) (fallback : string)
    : result approval_error unit :=
  if str_eq fallback FallbackAllow then Ok tt
  else if str_eq fallback FallbackDowngrade then
    if risk_lt risk Dangerous then Ok tt else Err (ADangerousFallback elicitErr)
  else Err (ARequestFailed elicitErr).

(** What [session.Elicit] returns: an answer, a JSON-RPC "method not found", or
    another error. *)
Inductive elicit_reply :=
  | Answer (r : option ElicitResult)
  | MethodNotFound
  | ElicitError.

(** [reply] is the answer of the client to the form and [expired] says that the
    two-minute context had ended when it came. *)
Definition RequestApproval (ctx_err : bool) (session : option Session) (risk : RiskLevel)
    (fallback : string) (reply : elicit_reply) (expired : bool) : result approval_error unit :=
  match session with
  | None => Err ANoSession
  | Some s =>
      reject ctx_err with ACancelled;;
      match InitParams s with
      | None => Err ANotInitialized
      | Some init =>
          if no_form (Capabilities init) then applyFallback ANoForm risk fallback
          else match reply with
               | Answer r => interpretApproval r
               | MethodNotFound =>
                   if negb expired then applyFallback AMethodNotFound risk fallback
                   else Err (ARequestFailed AMethodNotFound)
               | ElicitError => Err (ARequestFailed AElicitFailed)
               end
      end
  end.

(** * Challenges (approval_roundtrip.go) *)
Record pendingApproval := mkPending { pa_session : positive; pa_digest : string; pa_expires : Z }.
#[export] Instance pendingApproval_eq_dec : EqDecision pendingApproval.
Proof. solve_decision. Defined.

Notation Pending := (gmap string pendingApproval).

Definition approval_limit : nat := 256.
(** Two minutes in nanoseconds. *)
Definition approval_lifetime : Z := 120000000000.

(** [!now.Before(pending.expires)] *)
Definition pending_expired (now : Z) (p : pendingApproval) : bool := pa_expires p <=? now.

(** The loop that deletes every expired challenge. *)
Definition drop_expired (now : Z) (g : Pending) : Pending :=
  filter (fun kp => pending_expired now kp.2 = false) g.

(** One call of [advanceApproval]: [Ok None] means approved, [Ok (Some token)]
    a new challenge. [token] is what [generateOperationID] returns; [deadline]
    the context's deadline. *)
Definition advanceApproval (now : Z) (deadline : option Z) (token : option string)
    (session : positive) (params : CallToolParams) (digest : string) (g : Pending)
    : result approval_error (option string) * Pending :=
  let state := RequestState params in
  if match g !! state with Some p => pending_expired now p | None => false end
  then (Err AExpired, delete state g)
  else
    let g := drop_expired now g in
    if negb (str_eq state "") || negb (bool_decide (InputResponses params = ∅)) then
      match g !! state with
      | None => (Err AMismatch, g)
      | Some p =>
          if negb (bool_decide (pa_session p = session)) || negb (str_eq (pa_digest p) digest)
          then (Err AMismatch, g)
          else
            let g := delete state g in
            match InputResponses params !! "approval" with
            | Some (Some response) =>
                if negb (bool_decide (size (InputResponses params) = 1%nat)) then (Err AInvalidResponse, g)
                else match interpretApproval (Some response) with
                     | Ok _ => (Ok None, g)
                     | Err e => (Err e, g)
                     end
            | _ => (Err AInvalidResponse, g)
            end
      end
    else if bool_decide (approval_limit <= size g)%nat then (Err ATooMany, g)
    else match token with
         | None => (Err ARandom, g)
         | Some t =>
             let expires := match deadline with
                            | Some d => if d <? now + approval_lifetime then d else now + approval_lifetime
                            | None => now + approval_lifetime
                            end in
             (Ok (Some t), <[t := mkPending session digest expires]> g)
         end.

(** What one approval attempt samples from its surroundings. *)
Record ApprovalEnv := mkApprovalEnv {
  ae_now : Z;
  ae_deadline : option Z;
  ae_token : option string;
  ae_reply : elicit_reply;
  ae_expired : bool
}.

(** The first protocol version with challenges. *)
Definition challenge_version : string := "2026-07-28".
Definition before_version (v : string) : bool :=
  match String.compare v challenge_version with Lt => true | _ => false end.

(** [requestToolApproval]; [digest] is the SHA-256 of the JSON form of risk,
    context, input and binding, [None] when the input cannot be encoded. *)
Definition requestToolApproval (ctx_err : bool) (req : option CallToolRequest) (risk : RiskLevel)
    (fallback : string) (digest : option string) (env : ApprovalEnv) (g : Pending)
    : result approval_error (option string) * Pending :=
  if ctx_err then (Err ACancelled, g)
  else match req with
  | None | Some (mkRequest None _) => (Err ANoSession, g)
  | Some (mkRequest (Some session) params) =>
      let lift r := match r with Ok _ => Ok None | Err e => Err e end in
      match InitParams session with
      | None => (lift (RequestApproval ctx_err (Some session) risk fallback (ae_reply env) (ae_expired env)), g)
      | Some init =>
          if before_version (ProtocolVersion init)
          then (lift (RequestApproval ctx_err (Some session) risk fallback (ae_reply env) (ae_expired env)), g)
          else if no_form (Capabilities init) then (lift (applyFallback ANoForm risk fallback), g)
          else match params with
               | None => (Err ANoParams, g)
               | Some params =>
                   match digest with
                   | None => (Err AEncode, g)
                   | Some d => advanceApproval (ae_now env) (ae_deadline env) (ae_token env) (sid session)
                                 params d g
                   end
               end
      end
  end.

(** * Lemmas *)
Lemma drop_expired_lookup now g k p :
  drop_expired now g !! k = Some p <-> g !! k = Some p /\ pending_expired now p = false.
Proof. unfold drop_expired. by rewrite map_lookup_filter_Some. Qed.

Lemma drop_expired_sub now g : drop_expired now g ⊆ g.
Proof. apply map_filter_subseteq. Qed.

Lemma interpretApproval_ok r u :
  interpretApproval r = Ok u <-> exists e, r = Some e /\ erAction e = "accept" /\ content_approved e = Some true.
Proof.
  destruct r as [e|]; simpl; [|naive_solver]. destruct u.
  destruct (str_eq (erAction e) "accept") eqn:E; str_facts.
  - case_bool_decide; naive_solver.
  - destruct (str_eq _ _); [naive_solver|]. destruct (str_eq _ _); naive_solver.
Qed.

(** The shapes of a result of [advanceApproval]. *)
Inductive advance_result (now : Z) (deadline : option Z) (token : option string) (session : positive)
    (params : CallToolParams) (digest : string) (g : Pending)
    : result approval_error (option string) -> Pending -> Prop :=
  | ar_refused e g' : g' ⊆ g -> advance_result now deadline token session params digest g (Err e) g'
  | ar_approved p r :
      g !! RequestState params = Some p -> pending_expired now p = false ->
      pa_session p = session -> pa_digest p = digest ->
      InputResponses params = {["approval" := Some r]} ->
      erAction r = "accept" -> content_approved r = Some true ->
      advance_result now deadline token session params digest g (Ok None)
        (delete (RequestState params) (drop_expired now g))
  | ar_challenge t expires :
      token = Some t -> RequestState params = "" -> InputResponses params = ∅ ->
      (size (drop_expired now g) < approval_limit)%nat ->
      expires <= now + approval_lifetime ->
      (forall d, deadline = Some d -> expires <= d) ->
      advance_result now deadline token session params digest g (Ok (Some t))
        (<[t := mkPending session digest expires]> (drop_expired now g)).

Lemma singleton_of_size {A} (m : gmap string A) k v :
  m !! k = Some v -> size m = 1%nat -> m = {[k := v]}.
Proof.
  intros Hk Hs.
  assert (Hd : delete k m = ∅).
  { apply map_size_empty_inv. rewrite map_size_delete, Hk, Hs. done. }
  rewrite <- (insert_delete_id m k v Hk), Hd. by rewrite insert_empty.
Qed.

Lemma delete_drop_sub now k g : delete k (drop_expired now g) ⊆ g.
Proof. etrans; [apply delete_subseteq | apply drop_expired_sub]. Qed.

Lemma advanceApproval_cases now deadline token session params digest g r g' :
  advanceApproval now deadline token session params digest g = (r, g') ->
  advance_result now deadline token session params digest g r g'.
Proof.
  unfold advanceApproval.
  destruct (match g !! _ with Some p => pending_expired now p | None => false end).
  { intros [= <- <-]. constructor. apply delete_subseteq. }
  destruct (negb _ || negb _) eqn:Es.
  - destruct (drop_expired now g !! RequestState params) as [p|] eqn:Ep;
      [|intros [= <- <-]; constructor; apply drop_expired_sub].
    destruct (negb (bool_decide (pa_session p = session)) || _) eqn:Em; [intros [= <- <-]; constructor; apply drop_expired_sub|].
    destruct (InputResponses params !! "approval") as [[resp|]|] eqn:Er;
      try (intros [= <- <-]; constructor; apply delete_drop_sub).
    destruct (negb (bool_decide (size _ = 1%nat))) eqn:Ez; [intros [= <- <-]; constructor; apply delete_drop_sub|].
    destruct (interpretApproval (Some resp)) as [u|e] eqn:Ei; intros [= <- <-];
      [|constructor; apply delete_drop_sub].
    apply interpretApproval_ok in Ei as (e & [= <-] & Ha & Hc). str_facts.
    apply drop_expired_lookup in Ep as [Ep Hx]. econstructor; try done. by apply singleton_of_size.
  - destruct (bool_decide (approval_limit <= _)%nat) eqn:Hsz; [intros [= <- <-]; constructor; apply drop_expired_sub|].
    destruct token as [t|]; [|intros [= <- <-]; constructor; apply drop_expired_sub].
    intros [= <- <-]. str_facts. constructor; try done; [lia| |].
    + destruct deadline as [d|]; [destruct (Z.ltb_spec d (now + approval_lifetime))|]; lia.
    + intros d ->. destruct (Z.ltb_spec d (now + approval_lifetime)); lia.
Qed.

(** * Theorems: what an approval proves *)

(** an approval consumes a live challenge: a pending entry under the returned
    token, not expired, of the same session and the same bound operation, answered
    by exactly one response that accepts with [approved = true]; the entry is gone
    afterwards. A refused call never adds a challenge. *)
Theorem advanceApproval_approved now deadline token session params digest g r g' :
  advanceApproval now deadline token session params digest g = (r, g') ->
  (r = Ok None ->
     exists p resp, g !! RequestState params = Some p /\ now < pa_expires p /\
       pa_session p = session /\ pa_digest p = digest /\
       InputResponses params = {["approval" := Some resp]} /\
       erAction resp = "accept" /\ content_approved resp = Some true /\
       g' !! RequestState params = None) /\
  (forall e, r = Err e -> g' ⊆ g).
Proof.
  intros H. apply advanceApproval_cases in H. destruct H; (split; [intros Hr|intros ? Hr]); try done.
  exists p, r. repeat split; try done; [|by rewrite lookup_delete_eq].
  unfold pending_expired in *. bool_facts. lia.
Qed.

Definition sample_params : CallToolParams :=
  mkParams "t1" {["approval" := Some (mkElicitResult "accept" (Some true))]}.
Definition sample_pending : Pending := {["t1" := mkPending 7 "d" 100]}.

Lemma advanceApproval_approved_witness :
  exists r g', advanceApproval 50 None None 7 sample_params "d" sample_pending = (r, g') /\
    r = Ok None /\ g' !! "t1" = None.
Proof.
  eexists _, _. split; [vm_compute; reflexivity|]. split; [reflexivity|].
  destruct (advanceApproval_approved 50 None None 7 sample_params "d" sample_pending _ _ eq_refl) as [H _].
  destruct (H ltac:(vm_compute; reflexivity)) as (p & resp & _ & _ & _ & _ & _ & _ & _ & Hg). exact Hg.
Defined.

(** * Sequences of approval calls *)

(** One call under the approval lock, with what it samples. *)
Record Call := mkCall {
  c_now : Z; c_deadline : option Z; c_token : option string;
  c_session : positive; c_params : CallToolParams; c_digest : string
}.
Notation Log := (list (Call * result approval_error (option string))).

Definition run_call (g : Pending) (c : Call) : result approval_error (option string) * Pending :=
  advanceApproval (c_now c) (c_deadline c) (c_token c) (c_session c) (c_params c) (c_digest c) g.

(** The log of a sequence of calls, latest first, and the final challenges. *)
Definition run_step (s : Log * Pending) (c : Call) : Log * Pending :=
  let '(r, g') := run_call s.2 c in ((c, r) :: s.1, g').
Definition run_calls (calls : list Call) : Log * Pending := fold_left run_step calls ([], ∅).

Definition approved_token (e : Call * result approval_error (option string)) : option string :=
  match e.2 with Ok None => Some (RequestState (c_params e.1)) | _ => None end.

(** [c] was approved on the challenge that [c0] had been given. *)
Definition issued_for (c0 c : Call) (t : string) : Prop :=
  c_session c0 = c_session c /\ c_digest c0 = c_digest c /\
  c_now c < c_now c0 + approval_lifetime /\
  (forall d, c_deadline c0 = Some d -> c_now c < d).

(** Every approval in the log (latest first) answers an issue before it. *)
Definition approved_after_issue (log : Log) : Prop :=
  forall later c earlier, log = later ++ (c, Ok None) :: earlier -> exists c0,
    (c0, Ok (Some (RequestState (c_params c)))) ∈ earlier /\ issued_for c0 c (RequestState (c_params c)).

Lemma approved_after_cons log c r :
  approved_after_issue log ->
  (r = Ok None -> exists c0, (c0, Ok (Some (RequestState (c_params c)))) ∈ log /\
     issued_for c0 c (RequestState (c_params c))) ->
  approved_after_issue ((c, r) :: log).
Proof.
  intros Ha Hr later c1 earlier H. destruct later as [|x later]; simpl in H.
  - injection H as -> -> <-. by apply Hr.
  - injection H as _ H. by eapply Ha.
Qed.

Lemma approved_after_elem log c :
  approved_after_issue log -> (c, Ok None) ∈ log ->
  exists c0, (c0, Ok (Some (RequestState (c_params c)))) ∈ log.
Proof.
  intros Ha (l1 & l2 & ->)%list_elem_of_split. destruct (Ha l1 c l2 eq_refl) as (c0 & Hc0 & _).
  exists c0. apply elem_of_app. right. by right.
Qed.

Record approval_inv (used : list string) (log : Log) (g : Pending) : Prop := {
  inv_pending : forall t p, g !! t = Some p ->
    exists c0, (c0, Ok (Some t)) ∈ log /\ pa_session p = c_session c0 /\ pa_digest p = c_digest c0 /\
      pa_expires p <= c_now c0 + approval_lifetime /\
      (forall d, c_deadline c0 = Some d -> pa_expires p <= d);
  inv_unused : forall t p, g !! t = Some p -> t ∉ omap approved_token log;
  inv_issued : forall c0 t, (c0, Ok (Some t)) ∈ log -> t ∈ used;
  inv_approved : approved_after_issue log;
  inv_nodup : NoDup (omap approved_token log);
  inv_bound : (size g <= approval_limit)%nat
}.

Lemma approved_issued used log g t :
  approval_inv used log g -> t ∈ omap approved_token log -> t ∈ used.
Proof.
  intros I Ht. apply list_elem_of_omap in Ht as ([c r] & Hin & Hr).
  unfold approved_token in Hr. simpl in Hr. destruct r as [[?|]|]; [done| |done].
  injection Hr as <-. destruct (approved_after_elem _ _ (inv_approved _ _ _ I) Hin) as (c0 & Hc0).
  by apply (inv_issued _ _ _ I c0).
Qed.

Lemma approval_inv_err used log g g' c e :
  approval_inv used log g -> g' ⊆ g -> approval_inv used ((c, Err e) :: log) g'.
Proof.
  intros I Hsub. assert (Hl : forall t p, g' !! t = Some p -> g !! t = Some p)
    by (intros; by eapply lookup_weaken).
  constructor.
  - intros t p Hp. destruct (inv_pending _ _ _ I t p (Hl _ _ Hp)) as (c0 & ? & ?). exists c0. by split; [right|].
  - intros t p Hp. simpl. by apply (inv_unused _ _ _ I t p), Hl.
  - intros c0 t [?|H]%elem_of_cons; [simplify_eq|]. by eapply inv_issued.
  - by apply approved_after_cons; [apply (inv_approved _ _ _ I)|].
  - simpl. apply (inv_nodup _ _ _ I).
  - etrans; [by apply map_subseteq_size | apply (inv_bound _ _ _ I)].
Qed.

Lemma approval_inv_approve used log g c p :
  approval_inv used log g ->
  g !! RequestState (c_params c) = Some p -> pending_expired (c_now c) p = false ->
  pa_session p = c_session c -> pa_digest p = c_digest c ->
  approval_inv used ((c, Ok None) :: log) (delete (RequestState (c_params c)) (drop_expired (c_now c) g)).
Proof.
  intros I Hp Hx Hs Hd. set (t0 := RequestState (c_params c)) in *.
  assert (Hl : forall t q, delete t0 (drop_expired (c_now c) g) !! t = Some q -> g !! t = Some q /\ t <> t0).
  { intros t q Hq. apply lookup_delete_Some in Hq as [Hne Hq]. apply drop_expired_lookup in Hq as [Hq _].
    split; [done|congruence]. }
  constructor.
  - intros t q Hq. apply Hl in Hq as [Hq _]. destruct (inv_pending _ _ _ I t q Hq) as (c0 & ? & ?).
    exists c0. by split; [right|].
  - intros t q Hq. apply Hl in Hq as [Hq Hne]. simpl. fold t0.
    apply not_elem_of_cons. split; [done|]. by apply (inv_unused _ _ _ I t q).
  - intros c0 t [?|H]%elem_of_cons; [simplify_eq|]. by eapply inv_issued.
  - apply approved_after_cons; [apply (inv_approved _ _ _ I)|]. intros _.
    destruct (inv_pending _ _ _ I _ _ Hp) as (c0 & Hc0 & Hs0 & Hd0 & He & Hdl). fold t0.
    exists c0. split; [done|]. unfold issued_for, pending_expired in *. bool_facts.
    repeat split; [congruence|congruence|lia|]. intros d Hdd. specialize (Hdl d Hdd). lia.
  - simpl. fold t0. constructor; [by apply (inv_unused _ _ _ I t0 p) | apply (inv_nodup _ _ _ I)].
  - etrans; [apply map_subseteq_size, delete_drop_sub | apply (inv_bound _ _ _ I)].
Qed.

Lemma approval_inv_issue used log g c t expires :
  approval_inv used log g -> t ∉ used ->
  (size (drop_expired (c_now c) g) < approval_limit)%nat ->
  expires <= c_now c + approval_lifetime -> (forall d, c_deadline c = Some d -> expires <= d) ->
  approval_inv (t :: used) ((c, Ok (Some t)) :: log)
    (<[t := mkPending (c_session c) (c_digest c) expires]> (drop_expired (c_now c) g)).
Proof.
  intros I Hfresh Hsz He Hd. constructor.
  - intros t' p [[<- <-]|[_ Hp]]%lookup_insert_Some; [exists c; split; [by left|done]|].
    apply drop_expired_lookup in Hp as [Hp _]. destruct (inv_pending _ _ _ I t' p Hp) as (c0 & ? & ?).
    exists c0. by split; [right|].
  - intros t' p [[<- _]|[_ Hp]]%lookup_insert_Some; simpl.
    + intros Ht. by apply Hfresh, (approved_issued _ _ _ _ I).
    + apply drop_expired_lookup in Hp as [Hp _]. by apply (inv_unused _ _ _ I t' p).
  - intros c0 t' [?|H]%elem_of_cons; [simplify_eq; by left|]. right. by eapply inv_issued.
  - by apply approved_after_cons; [apply (inv_approved _ _ _ I)|].
  - simpl. apply (inv_nodup _ _ _ I).
  - rewrite map_size_insert. destruct (drop_expired _ _ !! t); simpl; lia.
Qed.

Lemma run_calls_inv calls : forall used log g,
  approval_inv used log g -> NoDup (omap c_token calls) ->
  (forall t, t ∈ omap c_token calls -> t ∉ used) ->
  exists used', let s := fold_left run_step calls (log, g) in approval_inv used' s.1 s.2.
Proof.
  induction calls as [|c calls IH]; intros used log g I Hnd Hfr; [by exists used|]. cbn [fold_left].
  destruct (run_call g c) as [r g'] eqn:Er.
  assert (Hstep : run_step (log, g) c = ((c, r) :: log, g')) by (unfold run_step; simpl; by rewrite Er).
  rewrite Hstep. apply advanceApproval_cases in Er. simpl in Hnd, Hfr.
  assert (Hnd' : NoDup (omap c_token calls)).
  { destruct (c_token c); [by apply NoDup_cons in Hnd as [_ ?] | done]. }
  assert (Hfr' : forall t, t ∈ omap c_token calls -> t ∉ used).
  { intros t Ht. apply Hfr. destruct (c_token c); [by right|done]. }
  inversion Er; subst; clear Er Hstep.
  - apply (IH used); [|done|done]. by apply (approval_inv_err used log g).
  - apply (IH used); [|done|done]. by eapply approval_inv_approve.
  - match goal with H : c_token c = Some _ |- _ => rewrite H in Hnd, Hfr end.
    apply NoDup_cons in Hnd as [Hni _].
    eapply (IH (t :: used)); [|done|].
    + apply approval_inv_issue; try done. apply Hfr. by left.
    + intros t' Ht'. apply not_elem_of_cons. split; [by intros ->|by apply Hfr'].
Qed.

Lemma approval_inv_start : approval_inv [] [] ∅.
Proof.
  constructor; try (intros; set_solver);
    [intros [|? later] c earlier H; discriminate H | constructor | unfold approval_limit; rewrite map_size_empty; lia].
Qed.

(** C15: approvals are single-use and bound. In any sequence of approval calls
    whose random tokens do not repeat, no token is approved twice, every approval
    answers a challenge issued earlier to the same session for the same bound
    operation, less than two minutes and before the issuing call's deadline, and
    at most 256 challenges are ever pending. *)
Theorem approvals_single_use calls :
  NoDup (omap c_token calls) ->
  let s := run_calls calls in
  NoDup (omap approved_token s.1) /\
  approved_after_issue s.1 /\
  (size s.2 <= approval_limit)%nat.
Proof.
  intros Hnd. destruct (run_calls_inv calls [] [] ∅ approval_inv_start Hnd) as [used I].
  { intros t _. apply not_elem_of_nil. }
  split; [apply (inv_nodup _ _ _ I)|]. split; [apply (inv_approved _ _ _ I) | apply (inv_bound _ _ _ I)].
Qed.

Definition sample_calls : list Call :=
  [mkCall 10 None (Some "t1") 7 (mkParams "" ∅) "d";
   mkCall 20 None (Some "t2") 7 sample_params "d";
   mkCall 30 None (Some "t3") 7 sample_params "d"].

Lemma approvals_single_use_witness :
  map snd (run_calls sample_calls).1 = [Err AMismatch; Ok None; Ok (Some "t1")] /\
  NoDup (omap approved_token (run_calls sample_calls).1).
Proof.
  split; [vm_compute; reflexivity|].
  apply (approvals_single_use sample_calls). apply (bool_decide_unpack _). vm_compute. reflexivity.
Defined.

(** without a form-capable client the fallback decides alone: "deny" and
    unknown fallbacks refuse everything, "downgrade" accepts only what is below
    Dangerous, and only "allow" lets a Dangerous call through. *)
Theorem applyFallback_spec cause risk fallback :
  (applyFallback cause risk fallback = Ok tt <->
   fallback = FallbackAllow \/ fallback = FallbackDowngrade /\ risk <> Dangerous) /\
  (risk = Dangerous -> applyFallback cause risk fallback = Ok tt -> fallback = FallbackAllow).
Proof.
  assert (Hs : applyFallback cause risk fallback = Ok tt <->
    fallback = FallbackAllow \/ fallback = FallbackDowngrade /\ risk <> Dangerous).
  { unfold applyFallback. destruct (str_eq fallback FallbackAllow) eqn:E1; str_facts; [naive_solver|].
    destruct (str_eq fallback FallbackDowngrade) eqn:E2; str_facts; [|naive_solver].
    destruct risk; simpl; naive_solver. }
  split; [exact Hs|]. intros -> H. apply Hs in H. naive_solver.
Qed.

Lemma applyFallback_spec_witness :
  applyFallback ANoForm Dangerous FallbackAllow = Ok tt /\ FallbackAllow = FallbackAllow.
Proof.
  split; [reflexivity|].
  apply (proj2 (applyFallback_spec ANoForm Dangerous FallbackAllow) eq_refl). reflexivity.
Defined.
