(* ===== verification/Guardrail.v ===== *)
(** The guardrail pipeline: core/mcp/guardrail/guardrail.go, authorization.go,
    context.go and the entry checks of audit.go.

    A tool call is classified, decided, approved, announced in the audit log,
    executed and audited again ([WithGuardrail]); a deferred operation stops
    after the authorisation ([Authorize]).  Functions run in a small state monad
    over a [World] that holds the pending challenges and the trace of audit
    writes and handler runs; what the code samples from outside (random ids,
    clock, context state, the audit destination, the client's answers) is an
    [Env] indexed by the number of operations done so far.

    The theorems show that the handler runs only behind an allowing decision or
    an approval and directly after a successful intent record, and that a failed
    record after the execution is reported as success with a no-retry mark. *)
From S2P Require Export Approval.
#[local] Open Scope Z_scope.

(** * Audit entries (audit.go) *)
Record AuditEntry := mkEntry {
  aOperationID : string;
  aTool : string;
  aNodeID : string;
  aNodeIDs : list string;
  aCommand : string;
  aPaths : list string;
  aRiskLevel : string;
  aDecision : string;
  aOutcome : string;
  aError : bool;
  aDetails : string;
  aBinding : string
}.

Definition with_outcome (outcome : string) (e : AuditEntry) : AuditEntry :=
  mkEntry (aOperationID e) (aTool e) (aNodeID e) (aNodeIDs e) (aCommand e) (aPaths e) (aRiskLevel e)
    (aDecision e) outcome (aError e) (aDetails e) (aBinding e).
Definition with_decision (decision : string) (e : AuditEntry) : AuditEntry :=
  mkEntry (aOperationID e) (aTool e) (aNodeID e) (aNodeIDs e) (aCommand e) (aPaths e) (aRiskLevel e)
    decision (aOutcome e) (aError e) (aDetails e) (aBinding e).
Definition with_error (e : AuditEntry) : AuditEntry :=
  mkEntry (aOperationID e) (aTool e) (aNodeID e) (aNodeIDs e) (aCommand e) (aPaths e) (aRiskLevel e)
    (aDecision e) (aOutcome e) true (aDetails e) (aBinding e).
Definition with_binding (binding : string) (e : AuditEntry) : AuditEntry :=
  mkEntry (aOperationID e) (aTool e) (aNodeID e) (aNodeIDs e) (aCommand e) (aPaths e) (aRiskLevel e)
    (aDecision e) (aOutcome e) (aError e) (aDetails e) binding.

(** * Errors and results *)
Section Pipeline.
(** The handler's error, its typed output with its zero value, its typed input. *)
Context {HErr Out In : Type}.
Variable zero : Out.

Inductive gerror :=
  | GRandom
  | GDenied (opID : string)
  | GApproval (e : approval_error)
  | GAudit
  | GContext
  | GHandler (e : HErr)
  | GJoin (a b : gerror).

(** The part of [mcp.CallToolResult] that the pipeline touches: the metadata it
    adds, the text it appends and the challenge it returns. *)
Record AuditMeta := mkMeta { m_operation : string; m_executed : bool; m_audit_failed : bool; m_retryable : bool }.
Record ToolResult := mkTool {
  trAuditMeta : option AuditMeta;
  trWarnings : list string;
  trChallenge : option string
}.
Definition empty_result : ToolResult := mkTool None [] None.

(** * The world *)
Inductive event :=
  | EvAudit (e : AuditEntry) (written : bool)
  | EvHandler (succeeded : bool).

Record World := mkWorld { w_pending : Pending; w_trace : list event; w_tick : nat }.

(** Where a guardrail writes its audit: a host-owned sink, a writer of the host, a log file (whose
    path may be empty) or nowhere. *)
Inductive Destination := DSink | DWriter | DFile (path : string) | DNone.

Record Guardrail := mkGuardrail {
  g_policy : Config;
  g_sink : bool;
  g_audit : Destination;
  g_fallback : string
}.

(** A sink goes before the writer. *)
Definition g_destination (g : Guardrail) : Destination := if g_sink g then DSink else g_audit g.

(** [context.Context] as used here: the scoped policy and binding. *)
Record Context := mkContext { ctx_policy : option (Config * string) }.

Record Env := mkEnv {
  env_id : nat -> option string;
  env_cancelled : nat -> bool;
  env_append : nat -> AuditEntry -> bool;
  env_approval : nat -> ApprovalEnv;
  env_ranges : Ranges
}.

Definition M (A : Type) : Type := World -> A * World.
#[local] Instance M_ret : MRet M := fun _ a w => (a, w).
#[local] Instance M_bind : MBind M := fun _ _ f m w => let '(a, w') := m w in f a w'.

Definition tick : M nat := fun w => (w_tick w, mkWorld (w_pending w) (w_trace w) (S (w_tick w))).
(** A step on the challenges, under the approval lock. *)
Definition on_pending {A} (f : Pending -> A * Pending) : M A :=
  fun w => let '(a, p) := f (w_pending w) in (a, mkWorld p (w_trace w) (w_tick w)).
Definition emit (e : event) : M unit :=
  fun w => (tt, mkWorld (w_pending w) (w_trace w ++ [e]) (w_tick w)).

(** [New], and a guardrail with a sink. *)
Definition New (cfg : option Config) : Guardrail :=
  let cfg := default DefaultGuardrailConfig cfg in
  let fallback := if str_eq (NoElicitFallback cfg) "" then FallbackDowngrade else NoElicitFallback cfg in
  mkGuardrail cfg false (DFile (AuditLog cfg)) fallback.
(** The sink may be nil. *)
Definition NewWithAuditSink (cfg : option Config) (sink : bool) : Guardrail :=
  mkGuardrail (g_policy (New cfg)) sink (g_audit (New cfg)) (g_fallback (New cfg)).
(** [SetAuditWriter]: a writer of the host, a log file or nil. *)
Definition SetAuditWriter (w : Destination) (g : Guardrail) : Guardrail := mkGuardrail (g_policy g) false w (g_fallback g).

(** [invocation]: the policy, fallback and binding in force. *)
Definition invocation (g : Guardrail) (ctx : Context) : Config * string * string :=
  match ctx_policy ctx with
  | Some (cfg, binding) =>
      (cfg, (if str_eq (NoElicitFallback cfg) "" then FallbackDowngrade else NoElicitFallback cfg), binding)
  | None => (g_policy g, g_fallback g, "")
  end.

Definition EvaluateContext (ranges : Ranges) (g : Guardrail) (ctx : Context) (input : RiskInput) : Decision :=
  Evaluate ranges (invocation g ctx).1.1 (Classify input) input.

Section Run.
Variable env : Env.
(** SHA-256 of the JSON form of risk, context, typed input and binding; [None]
    when the encoder fails. *)
Variable approval_digest : RiskLevel -> RiskInput -> In -> string -> option string.

Definition generateOperationID : M (option string) := k ← tick; mret (env_id env k).

(** The write of one entry to the destination, once the context is known to be
    live. An [AuditLogger] with an empty path records nothing and reports
    success; one with an unexpanded home fails. *)
Definition append_entry (g : Guardrail) (entry : AuditEntry) : M (result gerror unit) :=
  k ← tick;
  match g_destination g with
  | DNone => mret (Err GAudit)
  | DFile path =>
      if str_eq path "" then mret (Ok tt)
      else if has_prefix path "~/" then mret (Err GAudit)
      else let ok := env_append env k entry in
           emit (EvAudit entry ok);; mret (if ok then Ok tt else Err GAudit)
  | DSink | DWriter => let ok := env_append env k entry in
             emit (EvAudit entry ok);; mret (if ok then Ok tt else Err GAudit)
  end.

Definition log (g : Guardrail) (ctx : Context) (entry : AuditEntry) : M (result gerror unit) :=
  k ← tick;
  if env_cancelled env k then mret (Err GContext)
  else append_entry g (with_binding (invocation g ctx).2 entry).

(** [logOutcome] replaces the context by a fresh one that is not cancelled. *)
Definition logOutcome (g : Guardrail) (ctx : Context) (entry : AuditEntry) : M (result gerror unit) :=
  append_entry g (with_binding (invocation g ctx).2 entry).

(** [requestToolApproval] on the guardrail's challenges. *)
Definition request_approval (g : Guardrail) (ctx : Context) (req : option CallToolRequest)
    (risk : RiskLevel) (ri : RiskInput) (input : In) : M (result gerror (option string)) :=
  k ← tick;
  let '(_, fallback, binding) := invocation g ctx in
  r ← on_pending (requestToolApproval (env_cancelled env k) req risk fallback
        (approval_digest risk ri input binding) (env_approval env k));
  mret (match r with Ok c => Ok c | Err e => Err (GApproval e) end).

(** The first entry of a call. *)
Definition first_entry (opID tool : string) (ri : RiskInput) (decision : Decision) : AuditEntry :=
  mkEntry opID tool (NodeID ri) (NodeIDs ri) (Command ri) (Paths ri) (risk_string (Classify ri))
    (decision_string decision) "" false (Details ri) "".

(** What a wrapped handler returns. *)
Record outcome := mkOutcome { o_result : option ToolResult; o_out : Out; o_err : option gerror }.
Definition fail (e : gerror) : outcome := mkOutcome None zero (Some e).

Definition warned (opID : string) (r : option ToolResult) : ToolResult :=
  let r := default empty_result r in
  mkTool (Some (mkMeta opID true true false)) (trWarnings r ++ ["[WARNING: AUDIT_FAILED]"]) (trChallenge r).

(** Execution behind the gate: intent record, handler, outcome record. *)
Definition execute (g : Guardrail) (ctx : Context) (entry : AuditEntry)
    (handler : In -> option ToolResult * Out * option HErr) (input : In) : M outcome :=
  intent ← log g ctx (with_outcome "intent" entry);
  match intent with
  | Err e => mret (fail (GJoin GAudit e))
  | Ok _ =>
      let '(result, output, err) := handler input in
      emit (EvHandler (match err with None => true | Some _ => false end));;
      let entry := match err with
                   | None => with_outcome "executed" entry
                   | Some _ => with_error (with_outcome "error" entry)
                   end in
      post ← logOutcome g ctx entry;
      match post with
      | Err pe =>
          match err with
          | Some e => mret (mkOutcome result zero (Some (GJoin (GHandler e) pe)))
          | None => mret (mkOutcome (Some (warned (aOperationID entry) result)) output None)
          end
      | Ok _ => mret (mkOutcome result output (option_map GHandler err))
      end
  end.

Definition set_tool (tool : string) (ri : RiskInput) : RiskInput :=
  mkInput tool (Action ri) (NodeID ri) (NodeIDs ri) (Command ri) (Text ri) (Paths ri) (Sudo ri)
    (Details ri) (TunnelMode ri) (ListenHost ri) (Execution ri) (Dialect ri) (PlanDigest ri).

(** [WithGuardrail] on a non-nil guardrail. *)
Definition WithGuardrail (g : Guardrail) (toolName : string) (riskInputFn : In -> RiskInput)
    (handler : In -> option ToolResult * Out * option HErr)
    (ctx : Context) (req : option CallToolRequest) (input : In) : M outcome :=
  id ← generateOperationID;
  match id with
  | None => mret (fail GRandom)
  | Some opID =>
      let ri := set_tool toolName (riskInputFn input) in
      let risk := Classify ri in
      let decision := EvaluateContext (env_ranges env) g ctx ri in
      let entry := first_entry opID toolName ri decision in
      match decision with
      | Deny =>
          r ← log g ctx (with_outcome "denied" entry);
          match r with
          | Err e => mret (fail (GJoin (GDenied opID) e))
          | Ok _ => mret (fail (GDenied opID))
          end
      | NeedApproval =>
          a ← request_approval g ctx req risk ri input;
          match a with
          | Err e =>
              r ← log g ctx (with_error (with_outcome "denied" entry));
              match r with
              | Err e' => mret (fail (GJoin e e'))
              | Ok _ => mret (fail e)
              end
          | Ok (Some token) =>
              r ← log g ctx (with_outcome "approval_requested" entry);
              match r with
              | Err e => mret (fail e)
              | Ok _ => mret (mkOutcome (Some (mkTool None [] (Some token))) zero None)
              end
          | Ok None => execute g ctx (with_decision "approved" entry) handler input
          end
      | Allow => execute g ctx entry handler input
      end
  end.

(** * Deferred operations (authorization.go) *)

(** [Authorize]: an operation id, a challenge or an error. *)
Definition Authorize (g : Guardrail) (ctx : Context) (req : option CallToolRequest)
    (ri : RiskInput) (input : In) : M (result gerror (string + string)) :=
  k ← tick;
  if env_cancelled env k then mret (Err GContext)
  else
    id ← generateOperationID;
    match id with
    | None => mret (Err GRandom)
    | Some opID =>
        let risk := Classify ri in
        let decision := EvaluateContext (env_ranges env) g ctx ri in
        let entry := first_entry opID (ToolName ri) ri decision in
        let finish entry :=
          r ← log g ctx (with_outcome "authorized" entry);
          mret (match r with Err e => Err e | Ok _ => Ok (inl opID) end) in
        match decision with
        | Deny =>
            r ← log g ctx (with_outcome "denied" entry);
            mret (Err (match r with Err e => GJoin (GDenied opID) e | Ok _ => GDenied opID end))
        | NeedApproval =>
            a ← request_approval g ctx req risk ri input;
            match a with
            | Err e =>
                r ← log g ctx (with_error (with_outcome "denied" entry));
                mret (Err (match r with Err e' => GJoin e e' | Ok _ => e end))
            | Ok (Some token) =>
                r ← log g ctx (with_outcome "approval_requested" entry);
                mret (match r with Err e => Err e | Ok _ => Ok (inr token) end)
            | Ok None => finish (with_decision "approved" entry)
            end
        | Allow => finish entry
        end
    end.

(** [RecordAuthorizedContext] *)
Definition RecordAuthorizedContext (g : Guardrail) (ctx : Context) (operationID : string)
    (input : RiskInput) (outc : string) (failed : bool) : M (result gerror unit) :=
  log g ctx (mkEntry operationID (ToolName input) (NodeID input) (NodeIDs input) "" (Paths input)
    (risk_string (Classify input)) "authorized" outc failed (Details input) "").

(** * Lemmas *)

(** A successful record of [e]: written, or swallowed by the empty log path. *)
Definition audited (g : Guardrail) (e : AuditEntry) (evs : list event) : Prop :=
  evs = [EvAudit e true] \/ (evs = [] /\ g_destination g = DFile "").
(** A failed record of [e]: nothing written, or a failed write. *)
Definition audit_failed (e : AuditEntry) (evs : list event) : Prop :=
  evs = [EvAudit e false] \/ evs = [].

Definition log_result (g : Guardrail) (e : AuditEntry) (r : result gerror unit) (evs : list event) : Prop :=
  match r with Ok _ => audited g e evs | Err _ => audit_failed e evs end.

Lemma append_entry_spec g e w r w' :
  append_entry g e w = (r, w') ->
  w_pending w' = w_pending w /\ exists evs, w_trace w' = w_trace w ++ evs /\ log_result g e r evs.
Proof.
  unfold append_entry, log_result, audited, audit_failed. unfold mbind, M_bind, tick, mret, M_ret, emit.
  destruct (g_destination g) as [| |path|]; simpl.
  1, 2: intros [= <- <-]; split; [done|]; eexists; split; [done|];
    destruct (env_append env (w_tick w) e); simpl; auto.
  - destruct (str_eq path "") eqn:E; str_facts; [subst|].
    + intros [= <- <-]. split; [done|]. exists []. split; [by rewrite app_nil_r|]. auto.
    + destruct (has_prefix path "~/"); intros [= <- <-]; (split; [done|]).
      * exists []. split; [by rewrite app_nil_r|]. auto.
      * eexists. split; [done|]. destruct (env_append env (w_tick w) e); simpl; auto.
  - intros [= <- <-]. split; [done|]. exists []. split; [by rewrite app_nil_r|]. auto.
Qed.

(** The entry as it is written, with the binding of the invocation. *)
Definition bound (g : Guardrail) (ctx : Context) (e : AuditEntry) : AuditEntry :=
  with_binding (invocation g ctx).2 e.

Lemma log_spec g ctx e w r w' :
  log g ctx e w = (r, w') ->
  w_pending w' = w_pending w /\ exists evs, w_trace w' = w_trace w ++ evs /\ log_result g (bound g ctx e) r evs.
Proof.
  unfold log. unfold mbind at 1, M_bind, tick. destruct (env_cancelled env (w_tick w)).
  - intros [= <- <-]. split; [done|]. exists []. split; [by rewrite app_nil_r|]. right. done.
  - intros H. by apply append_entry_spec in H.
Qed.

Definition no_handler (evs : list event) : Prop := forall s, EvHandler s ∉ evs.

Lemma log_result_quiet g e r evs : log_result g e r evs -> no_handler evs.
Proof.
  intros H s Hin. destruct r; simpl in H; [destruct H as [-> | [-> _]] | destruct H as [-> | ->]];
    first [by apply list_elem_of_singleton in Hin | by apply not_elem_of_nil in Hin].
Qed.

(** What the handler did, and the outcome the caller sees. *)
Definition reported (entry : AuditEntry) (res : option ToolResult) (out : Out) (err : option HErr)
    (post_ok : bool) (o : outcome) : Prop :=
  match err with
  | None => o_err o = None /\ o_out o = out /\
            o_result o = if post_ok then res else Some (warned (aOperationID entry) res)
  | Some e => o_result o = res /\
              if post_ok then o_err o = Some (GHandler e)
              else exists pe, o_err o = Some (GJoin (GHandler e) pe)
  end.

Lemma execute_spec g ctx entry handler input w o w' :
  execute g ctx entry handler input w = (o, w') ->
  exists evs, w_trace w' = w_trace w ++ evs /\
  ((audit_failed (bound g ctx (with_outcome "intent" entry)) evs /\ o_err o <> None /\ o_result o = None) \/
   exists before after post_ok, let '(res, out, err) := handler input in
     evs = before ++ EvHandler (match err with None => true | Some _ => false end) :: after /\
     audited g (bound g ctx (with_outcome "intent" entry)) before /\
     no_handler after /\ reported entry res out err post_ok o).
Proof.
  unfold execute. unfold mbind, M_bind, mret, M_ret.
  destruct (log g ctx (with_outcome "intent" entry) w) as [r1 w1] eqn:E1.
  apply log_spec in E1 as (_ & evs1 & Ht1 & H1). destruct r1 as [u|e1]; simpl in H1.
  2:{ intros [= <- <-]. exists evs1. split; [done|]. left. split; [done|]. done. }
  destruct (handler input) as [[res out] err] eqn:Eh. unfold emit.
  set (w2 := mkWorld _ _ _).
  set (entry2 := match err with None => _ | Some _ => _ end).
  destruct (logOutcome g ctx entry2 w2) as [r2 w3] eqn:E3.
  apply append_entry_spec in E3 as (_ & evs2 & Ht2 & H2). apply log_result_quiet in H2 as Hq.
  intros H. exists (evs1 ++ EvHandler (match err with None => true | Some _ => false end) :: evs2).
  assert (Htr : w_trace w3 = w_trace w ++ evs1 ++ EvHandler (match err with None => true | Some _ => false end) :: evs2).
  { rewrite Ht2. subst w2. cbn [w_trace]. rewrite Ht1, <- !app_assoc. done. }
  assert (Hw : w' = w3) by (destruct r2, err; by injection H as _ <-).
  subst w'. split; [exact Htr|]. right.
  exists evs1, evs2, (match r2 with Ok _ => true | Err _ => false end).
  split; [done|]. split; [done|]. split; [done|]. unfold reported.
  destruct r2 as [u2|pe], err as [e|]; injection H as <-; simpl; eauto.
Qed.

(** The approval that lets a call through, at some sample of its surroundings. *)
Definition approved_call (g : Guardrail) (ctx : Context) (req : option CallToolRequest) (ri : RiskInput)
    (input : In) (pending : Pending) : Prop :=
  exists k, (requestToolApproval (env_cancelled env k) req (Classify ri) (invocation g ctx).1.2
    (approval_digest (Classify ri) ri input (invocation g ctx).2) (env_approval env k) pending).1 = Ok None.

Lemma request_approval_spec g ctx req ri input w r w' :
  request_approval g ctx req (Classify ri) ri input w = (r, w') ->
  w_trace w' = w_trace w /\ (r = Ok None -> approved_call g ctx req ri input (w_pending w)).
Proof.
  unfold request_approval, approved_call. unfold mbind, M_bind, mret, M_ret, tick, on_pending.
  destruct (invocation g ctx) as [[cfg fb] b]. simpl.
  destruct (requestToolApproval _ _ _ _ _ _ _) as [r0 p] eqn:E. intros [= <- <-]. split; [done|].
  intros Hr. destruct r0 as [c|]; [|done]. injection Hr as ->. exists (w_tick w). by rewrite E.
Qed.

(** The risk input of a wrapped call. *)
Definition call_input (toolName : string) (riskInputFn : In -> RiskInput) (input : In) : RiskInput :=
  set_tool toolName (riskInputFn input).

(** How a call ended: refused or challenged without running, or run behind its
    intent record. *)
Definition refused (o : outcome) (evs : list event) : Prop :=
  no_handler evs /\ (o_err o <> None \/ exists t, o_result o = Some (mkTool None [] (Some t))).

Definition executed (g : Guardrail) (ctx : Context)
    (handler : In -> option ToolResult * Out * option HErr) (ri : RiskInput) (input : In)
    (o : outcome) (evs : list event) : Prop :=
  exists entry before after post_ok, let '(res, out, err) := handler input in
    evs = before ++ EvHandler (match err with None => true | Some _ => false end) :: after /\
    audited g entry before /\ aOutcome entry = "intent" /\
    aDecision entry = (if decide (EvaluateContext (env_ranges env) g ctx ri = Allow) then "allow" else "approved") /\
    no_handler after /\ reported entry res out err post_ok o.

Lemma execute_cases g ctx entry handler ri input w o w' :
  execute g ctx entry handler input w = (o, w') ->
  aDecision entry = (if decide (EvaluateContext (env_ranges env) g ctx ri = Allow) then "allow" else "approved") ->
  exists evs, w_trace w' = w_trace w ++ evs /\ (refused o evs \/ executed g ctx handler ri input o evs).
Proof.
  intros H Hd. apply execute_spec in H as (evs & Ht & [(Hf & He & _)|Hx]).
  - exists evs. split; [done|]. left. split; [|by left].
    by apply (log_result_quiet g (bound g ctx (with_outcome "intent" entry)) (Err GAudit)).
  - exists evs. split; [done|]. right. destruct Hx as (before & after & ok & Hx).
    exists (bound g ctx (with_outcome "intent" entry)), before, after, ok.
    destruct (handler input) as [[res out] err]. destruct Hx as (? & ? & ? & ?). by repeat split.
Qed.

Lemma logged_refusal g ctx e w r w' (k : result gerror unit -> outcome) :
  log g ctx e w = (r, w') -> (forall r, o_err (k r) <> None \/ exists t, o_result (k r) = Some (mkTool None [] (Some t))) ->
  exists evs, w_trace w' = w_trace w ++ evs /\ refused (k r) evs.
Proof.
  intros H Hk. apply log_spec in H as (_ & evs & Ht & Hl). exists evs. split; [done|].
  split; [by eapply log_result_quiet | apply Hk].
Qed.

(** What a call may have done by the end of [WithGuardrail]. *)
Lemma WithGuardrail_cases g toolName riskInputFn handler ctx req input w o w' :
  WithGuardrail g toolName riskInputFn handler ctx req input w = (o, w') ->
  let ri := call_input toolName riskInputFn input in
  exists evs, w_trace w' = w_trace w ++ evs /\
  (refused o evs \/
   EvaluateContext (env_ranges env) g ctx ri <> Deny /\
   (EvaluateContext (env_ranges env) g ctx ri = NeedApproval -> approved_call g ctx req ri input (w_pending w)) /\
   executed g ctx handler ri input o evs).
Proof.
  intros H ri. unfold WithGuardrail, generateOperationID in H.
  fold (call_input toolName riskInputFn input) in H. fold ri in H.
  unfold mbind, M_bind, mret, M_ret, tick in H. destruct (env_id env (w_tick w)) as [opID|].
  2:{ injection H as <- <-. exists []. split; [by rewrite app_nil_r|]. left.
      split; [intros s; apply not_elem_of_nil | by left]. }
  set (w1 := mkWorld _ _ _) in H.
  assert (Hw1 : w_trace w1 = w_trace w /\ w_pending w1 = w_pending w) by done.
  clearbody w1. destruct Hw1 as [Ht1 Hp1]. rewrite <- Ht1, <- Hp1. clear Ht1 Hp1.
  destruct (EvaluateContext (env_ranges env) g ctx ri) eqn:Ed.
  - apply (execute_cases _ _ _ _ ri) in H as (evs & Ht & Hc); [|by rewrite Ed].
    exists evs. split; [done|]. destruct Hc; [by left|right]. by repeat split.
  - destruct (request_approval g ctx req (Classify ri) ri input w1) as [ra wa] eqn:Ea.
    apply request_approval_spec in Ea as [Hta Hok]. rewrite <- Hta.
    destruct ra as [[token|]|e].
    + destruct (log _ _ _ wa) as [r w2] eqn:El.
      apply (logged_refusal _ _ _ _ _ _ (fun r => match r with Err e => fail e | Ok _ => mkOutcome (Some (mkTool None [] (Some token))) zero None end)) in El
        as (evs & Ht & Hr); [|intros [?|?]; simpl; eauto].
      exists evs. destruct r; injection H as <- <-; (split; [done|]); by left.
    + apply (execute_cases _ _ _ _ ri) in H as (evs & Ht & Hc); [|by rewrite Ed].
      exists evs. split; [done|]. destruct Hc; [by left|right]. by repeat split; auto.
    + destruct (log _ _ _ wa) as [r w2] eqn:El.
      apply (logged_refusal _ _ _ _ _ _ (fun r => match r with Err e' => fail (GJoin e e') | Ok _ => fail e end)) in El
        as (evs & Ht & Hr); [|intros [?|?]; simpl; auto].
      exists evs. destruct r; injection H as <- <-; (split; [done|]); by left.
  - destruct (log _ _ _ w1) as [r w2] eqn:El.
    apply (logged_refusal _ _ _ _ _ _ (fun r => match r with Err e => fail (GJoin (GDenied opID) e) | Ok _ => fail (GDenied opID) end)) in El
      as (evs & Ht & Hr); [|intros [?|?]; simpl; auto].
    exists evs. destruct r; injection H as <- <-; (split; [done|]); by left.
Qed.

Lemma in_trace_split (before after : list event) s s' :
  no_handler after -> EvHandler s ∈ before ++ EvHandler s' :: after -> no_handler before -> s = s'.
Proof.
  intros Ha Hin Hb. apply elem_of_app in Hin as [Hin|Hin]; [by apply Hb in Hin|].
  apply elem_of_cons in Hin as [Hin|Hin]; [by injection Hin | by apply Ha in Hin].
Qed.

Lemma audited_quiet g e evs : audited g e evs -> no_handler evs.
Proof. intros H. by apply (log_result_quiet g e (Ok tt)). Qed.

(** C1: the handler of a guarded tool runs at most once per call, only when the
    policy does not deny it, only after an approval where one is needed, and
    directly after a successful intent record (the empty log path being the only
    destination that records nothing); if it does not run, the caller gets an
    error or a challenge. *)
Theorem WithGuardrail_gate g toolName riskInputFn handler ctx req input w o w' :
  WithGuardrail g toolName riskInputFn handler ctx req input w = (o, w') ->
  let ri := call_input toolName riskInputFn input in
  exists evs, w_trace w' = w_trace w ++ evs /\
  ((no_handler evs /\ (o_err o <> None \/ exists t, o_result o = Some (mkTool None [] (Some t)))) \/
   exists entry before s after,
     evs = before ++ EvHandler s :: after /\ no_handler before /\ no_handler after /\
     EvaluateContext (env_ranges env) g ctx ri <> Deny /\
     (EvaluateContext (env_ranges env) g ctx ri = NeedApproval -> approved_call g ctx req ri input (w_pending w)) /\
     aOutcome entry = "intent" /\
     (before = [EvAudit entry true] \/ before = [] /\ g_destination g = DFile "")).
Proof.
  intros H ri. apply WithGuardrail_cases in H as (evs & Ht & [Hr|(Hnd & Hap & Hx)]); exists evs; (split; [done|]).
  - by left.
  - right. destruct Hx as (entry & before & after & ok & Hx). fold ri in Hnd, Hap.
    destruct (handler input) as [[res out] err].
    destruct Hx as (-> & Hau & Hi & _ & Hq & _). eexists entry, before, _, after.
    split_and!; try done. by eapply audited_quiet.
Qed.

(** what ran is what is reported. When the handler succeeded the caller sees
    success and its output even if the record after the execution failed, and
    then the result carries the no-retry mark; when it failed the caller sees its
    error. *)
Theorem WithGuardrail_reports g toolName riskInputFn handler ctx req input w o w' :
  WithGuardrail g toolName riskInputFn handler ctx req input w = (o, w') ->
  exists evs, w_trace w' = w_trace w ++ evs /\
  forall s, EvHandler s ∈ evs ->
    let '(res, out, err) := handler input in
    match err with
    | None => s = true /\ o_err o = None /\ o_out o = out /\
        (o_result o = res \/
         exists r op, o_result o = Some r /\ trAuditMeta r = Some (mkMeta op true true false))
    | Some e => s = false /\ o_result o = res /\
        (o_err o = Some (GHandler e) \/ exists pe, o_err o = Some (GJoin (GHandler e) pe))
    end.
Proof.
  intros H. apply WithGuardrail_cases in H as (evs & Ht & [[Hr _]|(_ & _ & Hx)]); exists evs; (split; [done|]).
  - intros s Hin. by apply Hr in Hin.
  - intros s Hin. destruct Hx as (entry & before & after & ok & Hx).
    destruct (handler input) as [[res out] err].
    destruct Hx as (-> & Hau & _ & _ & Hq & Hrep).
    apply in_trace_split in Hin; [|done|by eapply audited_quiet]. subst s. unfold reported in Hrep.
    destruct err as [e|].
    + destruct Hrep as [Hres He]. split_and!; try done. destruct ok; [by left|by right].
    + destruct Hrep as (He & Ho & Hres). split_and!; try done. rewrite Hres.
      destruct ok; [by left|right]. by eexists _, _.
Qed.

(** a deferred operation is authorised only behind the same gate: [Authorize]
    returns an operation id only when the policy does not deny it, after an
    approval where one is needed, and after a successful "authorized" record; it
    never runs anything itself. *)
Theorem Authorize_gate g ctx req ri input w r w' :
  Authorize g ctx req ri input w = (r, w') ->
  exists evs, w_trace w' = w_trace w ++ evs /\ no_handler evs /\
  forall opID, r = Ok (inl opID) ->
    EvaluateContext (env_ranges env) g ctx ri <> Deny /\
    (EvaluateContext (env_ranges env) g ctx ri = NeedApproval -> approved_call g ctx req ri input (w_pending w)) /\
    exists entry, aOutcome entry = "authorized" /\ aOperationID entry = opID /\
      (evs = [EvAudit entry true] \/ evs = [] /\ g_destination g = DFile "").
Proof.
  unfold Authorize, generateOperationID. unfold mbind, M_bind, mret, M_ret, tick. intros H.
  assert (Hquiet : w' = mkWorld (w_pending w) (w_trace w) (w_tick w') -> (forall opID, r <> Ok (inl opID)) ->
    exists evs, w_trace w' = w_trace w ++ evs /\ no_handler evs /\ forall opID, r = Ok (inl opID) -> False).
  { intros -> Hr. exists []. split; [simpl; by rewrite app_nil_r|]. split; [intros s; apply not_elem_of_nil|].
    intros opID He. by apply (Hr opID). }
  destruct (env_cancelled env (w_tick w)).
  { injection H as <- <-. destruct Hquiet as (evs & ? & ? & Hn); [done|done|]. exists evs.
    split_and!; try done; intros op Ho; by destruct (Hn op Ho). }
  cbn [w_tick w_pending w_trace] in H. destruct (env_id env (S (w_tick w))) as [opID|].
  2:{ injection H as <- <-. destruct Hquiet as (evs & ? & ? & Hn); [done|done|]. exists evs.
    split_and!; try done; intros op Ho; by destruct (Hn op Ho). }
  clear Hquiet. set (w1 := mkWorld _ _ _) in H.
  assert (Hw1 : w_trace w1 = w_trace w /\ w_pending w1 = w_pending w) by done.
  clearbody w1. destruct Hw1 as [Ht1 Hp1]. rewrite <- Ht1, <- Hp1. clear Ht1 Hp1.
  set (entry0 := first_entry opID (ToolName ri) ri (EvaluateContext (env_ranges env) g ctx ri)) in H.
  assert (Hfin : forall e w2, aOperationID e = opID -> EvaluateContext (env_ranges env) g ctx ri <> Deny ->
     (EvaluateContext (env_ranges env) g ctx ri = NeedApproval -> approved_call g ctx req ri input (w_pending w1)) ->
     w_trace w2 = w_trace w1 ->
     (let '(a, w3) := log g ctx (with_outcome "authorized" e) w2 in
      (match a with Err e0 => Err e0 | Ok _ => Ok (inl opID) end, w3)) = (r, w') ->
     exists evs, w_trace w' = w_trace w1 ++ evs /\ no_handler evs /\
     forall op, r = Ok (inl op) -> EvaluateContext (env_ranges env) g ctx ri <> Deny /\
       (EvaluateContext (env_ranges env) g ctx ri = NeedApproval -> approved_call g ctx req ri input (w_pending w1)) /\
       exists entry, aOutcome entry = "authorized" /\ aOperationID entry = op /\ audited g entry evs).
  { intros e w2 He Hnd Hap Htr Hlog. destruct (log _ _ _ w2) as [a w3] eqn:El.
    apply log_spec in El as (_ & evs & Ht & Hl). injection Hlog as <- <-. rewrite Htr in Ht.
    exists evs. split; [done|]. split; [by eapply log_result_quiet|]. intros op Hop.
    destruct a; [|done]. injection Hop as <-. split_and!; [done|done|].
    exists (bound g ctx (with_outcome "authorized" e)). by split_and!. }
  assert (Hno : forall e w2 (k : result gerror unit -> result gerror (string + string)),
     w_trace w2 = w_trace w1 -> (forall x op, k x <> Ok (inl op)) ->
     (let '(a, w3) := log g ctx e w2 in (k a, w3)) = (r, w') ->
     exists evs, w_trace w' = w_trace w1 ++ evs /\ no_handler evs /\ forall op, r <> Ok (inl op)).
  { intros e w2 k Htr Hk Hlog. destruct (log _ _ _ w2) as [a w3] eqn:El.
    apply log_spec in El as (_ & evs & Ht & Hl). injection Hlog as <- <-. rewrite Htr in Ht.
    exists evs. split; [done|]. split; [by eapply log_result_quiet|]. auto. }
  destruct (EvaluateContext (env_ranges env) g ctx ri) eqn:Ed.
  - apply Hfin in H; done.
  - destruct (request_approval g ctx req (Classify ri) ri input w1) as [ra wa] eqn:Ea.
    apply request_approval_spec in Ea as [Hta Hok]. destruct ra as [[token|]|e].
    + apply (Hno _ _ (fun r => match r with Err e => Err e | Ok _ => Ok (inr token) end)) in H
        as (evs & ? & ? & Hr); [|done|by intros []].
      exists evs. split_and!; try done; intros op Hop; by destruct (Hr op).
    + apply Hfin in H; auto; done.
    + apply (Hno _ _ (fun r => Err (match r with Err e' => GJoin e e' | Ok _ => e end))) in H
        as (evs & ? & ? & Hr); [|done|done].
      exists evs. split_and!; try done; intros op Hop; by destruct (Hr op).
  - apply (Hno _ _ (fun r => Err (match r with Err e => GJoin (GDenied opID) e | Ok _ => GDenied opID end))) in H
      as (evs & ? & ? & Hr); [|done|done].
    exists evs. split_and!; try done; intros op Hop; by destruct (Hr op).
Qed.
End Run.
End Pipeline.

(** * Witnesses *)
Definition sample_env : Env :=
  mkEnv (fun _ => Some "op") (fun _ => false) (fun _ e => negb (str_eq (aOutcome e) "executed"))
    (fun _ => mkApprovalEnv 0 None (Some "t") ElicitError false) as_listed.
Definition sample_guardrail : Guardrail := NewWithAuditSink None true.
Definition sample_handler (input : string) : option ToolResult * nat * option unit := (None, 3%nat, None).
Definition empty_world : World := mkWorld ∅ [] 0.
Definition sample_digest (r : RiskLevel) (ri : RiskInput) (input binding : string) : option string := Some input.

(** The post-execution record fails in [sample_env]. *)
Definition sample_run : outcome (HErr := unit) * World :=
  WithGuardrail 0%nat sample_env sample_digest sample_guardrail "terminal" (fun c => sample_input c "dev")
    sample_handler (mkContext None) None "uptime" empty_world.

Lemma WithGuardrail_gate_witness :
  w_trace sample_run.2 <> [] /\
  exists evs, w_trace sample_run.2 = w_trace empty_world ++ evs.
Proof.
  split; [vm_compute; discriminate|].
  destruct (WithGuardrail_gate 0%nat sample_env sample_digest sample_guardrail "terminal"
    (fun c => sample_input c "dev") sample_handler (mkContext None) None "uptime" empty_world
    sample_run.1 sample_run.2 ltac:(vm_compute; reflexivity)) as (evs & Ht & _).
  exists evs. exact Ht.
Defined.

Lemma WithGuardrail_reports_witness :
  (exists r op, o_result sample_run.1 = Some r /\ trAuditMeta r = Some (mkMeta op true true false)) /\
  exists evs, w_trace sample_run.2 = w_trace empty_world ++ evs /\
    (EvHandler true ∈ evs -> o_err sample_run.1 = None).
Proof.
  split; [do 2 eexists; split; vm_compute; reflexivity|].
  destruct (WithGuardrail_reports 0%nat sample_env sample_digest sample_guardrail "terminal"
    (fun c => sample_input c "dev") sample_handler (mkContext None) None "uptime" empty_world
    sample_run.1 sample_run.2 ltac:(vm_compute; reflexivity)) as (evs & Ht & H).
  exists evs. split; [exact Ht|]. intros Hin. exact (proj1 (proj2 (H true Hin))).
Defined.

Definition sample_authorize : result (gerror (HErr := unit)) (string + string) * World :=
  Authorize sample_env sample_digest sample_guardrail (mkContext None) None
    (tunnel_input "local" "127.0.0.1") "in" empty_world.

Lemma Authorize_gate_witness :
  sample_authorize.1 = Ok (inl "op") /\
  exists evs, w_trace sample_authorize.2 = w_trace empty_world ++ evs /\ no_handler evs.
Proof.
  split; [vm_compute; reflexivity|].
  destruct (Authorize_gate sample_env sample_digest sample_guardrail (mkContext None) None
    (tunnel_input "local" "127.0.0.1") "in" empty_world sample_authorize.1 sample_authorize.2
    ltac:(vm_compute; reflexivity)) as (evs & Ht & Hn & _).
  exists evs. split; [exact Ht | exact Hn].
Defined.
