(* ===== verification/Patch.v ===== *)
(** The search/replace patch engine of the MCP file tool, core/mcp/patch/patch.go:
    the block parser, exact and whitespace-insensitive matching, indentation
    alignment and line endings.

    The theorems show that the parser reads back every printable block list,
    that an applied block is one unique edit that leaves the rest of the file
    alone, that uniform CRLF files keep their line endings, and where the
    uniqueness test of exact matches falls short. *)
From S2P Require Export GoStrings.

Record Block := mkBlock { Search : string; Replace : string }.
#[export] Instance Block_eq_dec : EqDecision Block.
Proof. solve_decision. Defined.

Inductive patch_error :=
  | ErrOutside (line : string)
  | ErrEmptySearch
  | ErrUnclosed
  | ErrNoBlocks
  | ErrNoMatch
  | ErrAmbiguousMatch (found : nat)
  | ErrBlock (index : nat) (e : patch_error).

(** * Parsing *)
Definition lf : string := str1 newline.
Definition crlf : string := String creturn lf.

Definition isMarker (trimmed prefix : string) : bool :=
  if negb (has_prefix trimmed prefix) then false
  else
    let mark := match prefix with EmptyString => newline | String c _ => c end in
    let rest := trim_left (Ascii.eqb mark) (drop_bytes (String.length prefix) trimmed) in
    str_eq rest "" || has_prefix rest " ".

Inductive pstate := stateOutside | stateSearch | stateReplace.
#[export] Instance pstate_eq_dec : EqDecision pstate.
Proof. solve_decision. Defined.

(** The variables of the parsing loop. *)
Record parser := mkParser {
  curState : pstate;
  searchLines : list string;
  replaceLines : list string;
  blocks : list Block
}.

Definition parse_line (p : parser) (line : string) : result patch_error parser :=
  let trimmed := trim_space line in
  match curState p with
  | stateOutside =>
      if isMarker trimmed "<<<<" then Ok (mkParser stateSearch [] [] (blocks p))
      else if negb (str_eq trimmed "") then Err (ErrOutside line)
      else Ok p
  | stateSearch =>
      if isMarker trimmed "====" then Ok (mkParser stateReplace (searchLines p) (replaceLines p) (blocks p))
      else Ok (mkParser stateSearch (searchLines p ++ [line]) (replaceLines p) (blocks p))
  | stateReplace =>
      if isMarker trimmed ">>>>" then
        let search := join lf (searchLines p) in
        reject str_eq search "" with ErrEmptySearch;;
        Ok (mkParser stateOutside (searchLines p) (replaceLines p)
              (blocks p ++ [mkBlock search (join lf (replaceLines p))]))
      else Ok (mkParser stateReplace (searchLines p) (replaceLines p ++ [line]) (blocks p))
  end.

Fixpoint parse_lines (p : parser) (lines : list string) : result patch_error parser :=
  match lines with
  | [] => Ok p
  | l :: rest => try p' := parse_line p l;; parse_lines p' rest
  end.

Definition Parse (raw : string) : result patch_error (list Block) :=
  let normalized := replace_all raw crlf lf in
  try p := parse_lines (mkParser stateOutside [] [] []) (split_on newline normalized);;
  reject negb (bool_decide (curState p = stateOutside)) with ErrUnclosed;;
  reject bool_decide (blocks p = []) with ErrNoBlocks;;
  Ok (blocks p).

(** * Matching *)
Definition is_indent (c : ascii) : bool := Ascii.eqb c " " || Ascii.eqb c tab.

Definition leadingWhitespace (s : string) : string :=
  let trimmed := trim_left is_indent s in
  take_bytes (String.length s - String.length trimmed) s.

(** [candidate] has at least as many lines as [search]. *)
Fixpoint matchesTrimmed (candidate search : list string) : bool :=
  match search, candidate with
  | [], _ => true
  | s :: search', c :: candidate' =>
      if negb (str_eq (trim_space c) (trim_space s)) then false else matchesTrimmed candidate' search'
  | _ :: _, [] => false
  end.

(** The first non-blank search line and the line it is matched with. *)
Fixpoint anchor (actualLines searchLines : list string) : option (string * string) :=
  match actualLines, searchLines with
  | a :: actualLines', s :: searchLines' =>
      if negb (str_eq (trim_space s) "") then Some (leadingWhitespace a, leadingWhitespace s)
      else anchor actualLines' searchLines'
  | _, _ => None
  end.

Definition align_line (actualIndent searchIndent line : string) : string :=
  if str_eq (trim_space line) "" then line
  else if has_prefix line searchIndent
       then actualIndent +:+ drop_bytes (String.length searchIndent) line
  else actualIndent +:+ trim_left is_indent line.

Definition alignIndentation (actualLines searchLines replaceLines : list string) : list string :=
  match anchor actualLines searchLines with
  | None => replaceLines
  | Some (actualIndent, searchIndent) =>
      if str_eq actualIndent searchIndent then replaceLines
      else map (align_line actualIndent searchIndent) replaceLines
  end.

Definition replacement_lines (matched searchLines : list string) (replace : string) : list string :=
  if str_eq replace "" then [] else alignIndentation matched searchLines (split_on newline replace).

Definition replaceMatchedWindow (contentLines searchLines : list string) (start : nat) (replace : string)
    : string :=
  let matched := take (length searchLines) (drop start contentLines) in
  join lf (take start contentLines ++ replacement_lines matched searchLines replace ++
           drop (start + length searchLines) contentLines).

Definition findNonBlankLineRange (lines : list string) : option (nat * nat) :=
  let step (acc : nat * option (nat * nat)) (line : string) :=
    let '(i, r) := acc in
    (S i, if negb (str_eq (trim_space line) "")
          then Some (match r with None => i | Some (f, _) => f end, i) else r) in
  snd (fold_left step lines (0, None)).

(** The start indices of the windows that match. *)
Definition match_indices (contentLines searchLines : list string) : list nat :=
  List.filter (fun start => matchesTrimmed (take (length searchLines) (drop start contentLines)) searchLines)
    (seq 0 (S (length contentLines - length searchLines))).

(** [Ok None] means that nothing matched. *)
Definition applyStage2 (contentLines searchLines : list string) (replace : string)
    : result patch_error (option string) :=
  if length contentLines <? length searchLines then Ok None
  else match match_indices contentLines searchLines with
       | [] => Ok None
       | [start] => Ok (Some (replaceMatchedWindow contentLines searchLines start replace))
       | l => Err (ErrAmbiguousMatch (length l))
       end.

Definition applyStage2b (contentLines searchLines : list string) (replace : string)
    : result patch_error (string * bool) :=
  match findNonBlankLineRange searchLines with
  | None => Err ErrNoMatch
  | Some (first, last) =>
      reject (first =? 0) && (last =? length searchLines - 1) with ErrNoMatch;;
      let trimmedSearchLines := take (last + 1 - first) (drop first searchLines) in
      reject length contentLines <? length trimmedSearchLines with ErrNoMatch;;
      match match_indices contentLines trimmedSearchLines with
      | [] => Err ErrNoMatch
      | [start] => Ok (replaceMatchedWindow contentLines trimmedSearchLines start replace, true)
      | l => Err (ErrAmbiguousMatch (length l))
      end
  end.

Definition applyBlock (content : string) (block : Block) : result patch_error (string * bool) :=
  let exactCount := count content (Search block) in
  if exactCount =? 1 then Ok (replace_first content (Search block) (Replace block), false)
  else if 1 <? exactCount then Err (ErrAmbiguousMatch exactCount)
  else
    let contentLines := split_on newline content in
    let searchLines := split_on newline (Search block) in
    match applyStage2 contentLines searchLines (Replace block) with
    | Err e => Err e
    | Ok (Some res) => Ok (res, true)
    | Ok None => applyStage2b contentLines searchLines (Replace block)
    end.

(** * Applying a patch *)
Record Result := mkResult { Content : string; Blocks : nat; Fuzzy : nat }.

Definition useCRLF (content : string) : bool :=
  let n := count content crlf in (0 <? n) && (n =? count content lf).

(** The loop over the blocks: the text and the number of fuzzy matches so far. *)
Fixpoint apply_blocks (idx : nat) (working : string) (fuzzy : nat) (bs : list Block)
    : result patch_error (string * nat) :=
  match bs with
  | [] => Ok (working, fuzzy)
  | b :: rest =>
      match applyBlock working b with
      | Err e => Err (ErrBlock (idx + 1) e)
      | Ok (working', f) => apply_blocks (S idx) working' (if f then S fuzzy else fuzzy) rest
      end
  end.

Definition Apply (content rawPatch : string) : result patch_error Result :=
  try bs := Parse rawPatch;;
  let crlf_file := useCRLF content in
  let working := if crlf_file then replace_all content crlf lf else content in
  try wf := apply_blocks 0 working 0 bs;;
  let working := if crlf_file then replace_all wf.1 lf crlf else wf.1 in
  Ok (mkResult working (length bs) wf.2).

(** * Theorems: parsing *)

(** The text of a block list, one marker or text line after the other. *)
Definition print_block (b : Block) : string :=
  "<<<<" +:+ lf +:+ Search b +:+ lf +:+ "====" +:+ lf +:+ Replace b +:+ lf +:+ ">>>>" +:+ lf.
Fixpoint print_blocks (bs : list Block) : string :=
  match bs with [] => "" | b :: rest => print_block b +:+ print_blocks rest end.

(** Blocks that the format can express: a search text, no carriage return, and
    no line that looks like the marker that ends its part. *)
Definition printable (b : Block) : Prop :=
  Search b <> "" /\
  exists_byte (Ascii.eqb creturn) (Search b) = false /\
  exists_byte (Ascii.eqb creturn) (Replace b) = false /\
  Forall (fun l => isMarker (trim_space l) "====" = false) (split_on newline (Search b)) /\
  Forall (fun l => isMarker (trim_space l) ">>>>" = false) (split_on newline (Replace b)).

Definition block_lines (b : Block) : list string :=
  "<<<<" :: split_on newline (Search b) ++ "====" :: split_on newline (Replace b) ++ [">>>>"].

Lemma split_lf x t : split_on newline (x +:+ lf +:+ t) = split_on newline x ++ split_on newline t.
Proof. apply (split_on_app newline x t). Qed.

Lemma print_block_lines b rest :
  split_on newline (print_block b +:+ rest) = block_lines b ++ split_on newline rest.
Proof.
  unfold print_block, block_lines. rewrite <- !app_assoc_str. rewrite !split_lf.
  change (split_on newline "<<<<") with ["<<<<"]. change (split_on newline "====") with ["===="].
  change (split_on newline ">>>>") with [">>>>"]. simpl. rewrite <- !app_assoc. simpl. by rewrite <- !app_assoc.
Qed.

Lemma print_blocks_lines bs :
  split_on newline (print_blocks bs) = flat_map block_lines bs ++ [""].
Proof.
  induction bs as [|b bs IH]; [done|]. cbn [print_blocks flat_map].
  rewrite print_block_lines, IH. by rewrite app_assoc.
Qed.

Lemma parse_lines_app p l1 l2 :
  parse_lines p (l1 ++ l2) = result_bind (fun p' => parse_lines p' l2) (parse_lines p l1).
Proof.
  revert p. induction l1 as [|l l1 IH]; intros p; [done|]. cbn [parse_lines app].
  destruct (parse_line p l); simpl; [apply IH|done].
Qed.

Lemma parse_search_lines ls p :
  curState p = stateSearch -> Forall (fun l => isMarker (trim_space l) "====" = false) ls ->
  parse_lines p ls = Ok (mkParser stateSearch (searchLines p ++ ls) (replaceLines p) (blocks p)).
Proof.
  revert p. induction ls as [|l ls IH]; intros [st sl rl bs] Hp Hl; simpl in *; subst st.
  { by rewrite app_nil_r. }
  apply Forall_cons in Hl as [Hm Hl]. unfold parse_line. cbn [curState]. rewrite Hm. simpl.
  rewrite IH by done. simpl. by rewrite <- app_assoc.
Qed.

Lemma parse_replace_lines ls p :
  curState p = stateReplace -> Forall (fun l => isMarker (trim_space l) ">>>>" = false) ls ->
  parse_lines p ls = Ok (mkParser stateReplace (searchLines p) (replaceLines p ++ ls) (blocks p)).
Proof.
  revert p. induction ls as [|l ls IH]; intros [st sl rl bs] Hp Hl; simpl in *; subst st.
  { by rewrite app_nil_r. }
  apply Forall_cons in Hl as [Hm Hl]. unfold parse_line. cbn [curState]. rewrite Hm. simpl.
  rewrite IH by done. simpl. by rewrite <- app_assoc.
Qed.

Lemma parse_block b p :
  printable b -> curState p = stateOutside ->
  exists p', parse_lines p (block_lines b) = Ok p' /\ curState p' = stateOutside /\
             blocks p' = blocks p ++ [b].
Proof.
  intros (Hne & _ & _ & Hs & Hr) Hp. unfold block_lines. cbn [parse_lines]. unfold parse_line at 1.
  rewrite Hp. change (isMarker (trim_space "<<<<") "<<<<") with true. cbn [result_bind].
  rewrite parse_lines_app, parse_search_lines by done. cbn [result_bind parse_lines].
  unfold parse_line at 1. cbn [curState]. change (isMarker (trim_space "====") "====") with true.
  cbn [result_bind searchLines replaceLines blocks app].
  rewrite parse_lines_app, parse_replace_lines by done. cbn [result_bind parse_lines].
  unfold parse_line. cbn [curState]. change (isMarker (trim_space ">>>>") ">>>>") with true.
  cbn [searchLines replaceLines blocks app].
  change lf with (str1 newline). rewrite !join_split. apply str_eq_false in Hne. rewrite Hne.
  eexists. split; [reflexivity|]. cbn. destruct b; done.
Qed.

Lemma parse_blocks bs p :
  Forall printable bs -> curState p = stateOutside ->
  exists p', parse_lines p (flat_map block_lines bs) = Ok p' /\ curState p' = stateOutside /\
             blocks p' = blocks p ++ bs.
Proof.
  revert p. induction bs as [|b bs IH]; intros p Hb Hp.
  { exists p. cbn. by rewrite app_nil_r. }
  apply Forall_cons in Hb as [Hb Hbs]. destruct (parse_block b p Hb Hp) as (p1 & H1 & Hs1 & Hb1).
  destruct (IH p1 Hbs Hs1) as (p2 & H2 & Hs2 & Hb2). exists p2. cbn [flat_map].
  rewrite parse_lines_app, H1. split; [done|]. split; [done|]. by rewrite Hb2, Hb1, <- app_assoc.
Qed.

Lemma no_cr_no_crlf s : exists_byte (Ascii.eqb creturn) s = false -> contains s crlf = false.
Proof.
  intros H. apply not_true_iff_false. intros (a & b & ->)%contains_spec.
  rewrite exists_byte_app in H. simpl in H. by rewrite orb_true_r in H.
Qed.

Lemma print_no_cr bs : Forall printable bs -> exists_byte (Ascii.eqb creturn) (print_blocks bs) = false.
Proof.
  induction 1 as [|b bs (_ & Hs & Hr & _) Hbs IH]; [done|]. cbn [print_blocks]. unfold print_block.
  by rewrite !exists_byte_app, Hs, Hr, IH.
Qed.

(** the parser reads back every printable list of blocks: searches and
    replacements come out with their exact bytes. *)
Theorem Parse_print bs :
  bs <> [] -> Forall printable bs -> Parse (print_blocks bs) = Ok bs.
Proof.
  intros Hne Hb. unfold Parse.
  rewrite replace_all_absent by (by apply no_cr_no_crlf, print_no_cr).
  rewrite print_blocks_lines, parse_lines_app.
  destruct (parse_blocks bs (mkParser stateOutside [] [] []) Hb eq_refl) as (p & -> & Hs & Hbs).
  cbn [result_bind parse_lines]. unfold parse_line. rewrite Hs.
  change (isMarker (trim_space "") "<<<<") with false. change (trim_space "") with "".
  change (negb (str_eq "" "")) with false. cbn [result_bind]. rewrite Hs, Hbs.
  rewrite (bool_decide_eq_false_2 (_ = [])) by done. done.
Qed.

Definition sample_blocks : list Block := [mkBlock "a" ""; mkBlock ("x" +:+ lf +:+ " y") "z"].

Lemma Parse_print_witness : sample_blocks <> [] /\ Parse (print_blocks sample_blocks) = Ok sample_blocks.
Proof.
  split; [discriminate|]. apply Parse_print; [discriminate|].
  repeat constructor; try discriminate; vm_compute; reflexivity.
Defined.

Lemma parse_line_blocks p l p' :
  parse_line p l = Ok p' -> Forall (fun b => Search b <> "") (blocks p) ->
  Forall (fun b => Search b <> "") (blocks p').
Proof.
  unfold parse_line. destruct (curState p); destruct (isMarker _ _); intros H Hb; result_inv; simpl; try done.
  - by destruct (negb _); result_inv.
  - apply Forall_app. split; [done|]. apply Forall_singleton. simpl. by apply str_eq_false.
Qed.

Lemma Parse_blocks raw bs : Parse raw = Ok bs -> bs <> [] /\ Forall (fun b => Search b <> "") bs.
Proof.
  unfold Parse. intros H. result_inv. str_facts. split; [done|].
  assert (Hl : forall ls p p', parse_lines p ls = Ok p' -> Forall (fun b => Search b <> "") (blocks p) ->
    Forall (fun b => Search b <> "") (blocks p')).
  { induction ls as [|l ls IH]; intros p p' Hp Hb; simpl in Hp; [by result_inv|].
    apply result_bind_ok in Hp as (p1 & Hx1 & Hx2). apply (IH p1 p' Hx2). by eapply parse_line_blocks. }
  eapply Hl; [eassumption|constructor].
Qed.

(** * Theorems: edits *)

(** A line whose text, past its indentation, is that of [l]. *)
Definition reindented (l l' : string) : Prop := trim_left is_indent l' = trim_left is_indent l.

(** The window of [n] lines at [start]. *)
Definition window (cl : list string) (start n : nat) : list string := take n (drop start cl).

(** What a matched window is replaced with: nothing, or the replacement's lines
    with their indentation changed. *)
Definition replaced_by (replace : string) (new : list string) : Prop :=
  if str_eq replace "" then new = [] else Forall2 reindented (split_on newline replace) new.

(** One edit of [content] by block [b]. An exact edit replaces the first
    occurrence, and no other one starts behind it. A fuzzy edit replaces the only
    window of lines equal to the search lines up to surrounding white space, where
    the search has no exact occurrence. *)
Inductive edit (b : Block) (content : string) : bool -> string -> Prop :=
  | edit_exact pre post :
      first_at content (Search b) pre post -> contains post (Search b) = false ->
      edit b content false (pre +:+ Replace b +:+ post)
  | edit_fuzzy sl start new :
      contains content (Search b) = false ->
      (exists before after, split_on newline (Search b) = before ++ sl ++ after /\
         Forall (fun l => trim_space l = "") (before ++ after)) ->
      (forall i, i + length sl <= length (split_on newline content) ->
         matchesTrimmed (window (split_on newline content) i (length sl)) sl = true <-> i = start) ->
      start + length sl <= length (split_on newline content) ->
      replaced_by (Replace b) new ->
      edit b content true
        (join lf (take start (split_on newline content) ++ new ++
                  drop (start + length sl) (split_on newline content))).

Lemma trim_left_app_indent a b :
  all_bytes is_indent a = true -> trim_left is_indent (a +:+ b) = trim_left is_indent b.
Proof.
  induction a as [|c a IH]; [done|]. rewrite all_bytes_cons. intros H. bool_facts. simpl.
  match goal with H : is_indent c = true |- _ => rewrite H end. by apply IH.
Qed.

Lemma trim_left_idem s : trim_left is_indent (trim_left is_indent s) = trim_left is_indent s.
Proof.
  induction s as [|c s IH]; [done|]. simpl. destruct (is_indent c) eqn:E; [done|]. simpl. by rewrite E.
Qed.

Lemma leadingWhitespace_indent s : all_bytes is_indent (leadingWhitespace s) = true.
Proof.
  unfold leadingWhitespace.
  assert (Hle : forall t, String.length (trim_left is_indent t) <= String.length t).
  { induction t as [|c t IH]; simpl; [lia|]. destruct (is_indent c); simpl; lia. }
  induction s as [|c s IH]; [done|]. simpl. specialize (Hle s). destruct (is_indent c) eqn:E.
  - replace (S (String.length s) - String.length (trim_left is_indent s))
      with (S (String.length s - String.length (trim_left is_indent s))) by lia.
    cbn [take_bytes]. rewrite all_bytes_cons, E. exact IH.
  - simpl. by rewrite Nat.sub_diag.
Qed.

Lemma anchor_indent al sl ai si :
  anchor al sl = Some (ai, si) -> all_bytes is_indent ai = true /\ all_bytes is_indent si = true.
Proof.
  revert sl. induction al as [|a al IH]; intros [|s sl]; simpl; try done.
  destruct (negb _); [|apply IH]. intros [= <- <-]. split; apply leadingWhitespace_indent.
Qed.

Lemma align_line_reindented ai si l :
  all_bytes is_indent ai = true -> all_bytes is_indent si = true -> reindented l (align_line ai si l).
Proof.
  intros Ha Hs. unfold align_line, reindented. destruct (str_eq (trim_space l) ""); [done|].
  destruct (has_prefix l si) eqn:E.
  - apply has_prefix_spec in E as (t & ->). rewrite drop_bytes_app. by rewrite !trim_left_app_indent.
  - by rewrite trim_left_app_indent, trim_left_idem.
Qed.

Lemma replacement_lines_spec matched sl replace :
  replaced_by replace (replacement_lines matched sl replace).
Proof.
  unfold replaced_by, replacement_lines. destruct (str_eq replace ""); [done|].
  assert (Hid : forall l, Forall2 reindented l l) by (induction l; constructor; done).
  unfold alignIndentation. destruct (anchor matched sl) as [[ai si]|] eqn:E; [|done].
  destruct (str_eq ai si); [done|]. apply anchor_indent in E as [Ha Hs].
  induction (split_on newline replace) as [|l ls IH]; simpl; constructor; [|done].
  by apply align_line_reindented.
Qed.

Lemma match_indices_spec cl sl start :
  length sl <= length cl -> match_indices cl sl = [start] ->
  start + length sl <= length cl /\
  forall i, i + length sl <= length cl ->
    matchesTrimmed (window cl i (length sl)) sl = true <-> i = start.
Proof.
  intros Hle H. unfold match_indices in H.
  assert (Hin : forall i, i ∈ [start] <-> i + length sl <= length cl /\
    matchesTrimmed (window cl i (length sl)) sl = true).
  { intros i. rewrite <- H, list_elem_of_In, filter_In, in_seq. unfold window. naive_solver lia. }
  split.
  - apply (Hin start). by left.
  - intros i Hi. specialize (Hin i). rewrite list_elem_of_singleton in Hin. naive_solver.
Qed.

(** The range is that of the first and the last non-blank line. *)
Definition range_step (acc : nat * option (nat * nat)) (line : string) : nat * option (nat * nat) :=
  let '(i, r) := acc in
  (S i, if negb (str_eq (trim_space line) "")
        then Some (match r with None => i | Some (f, _) => f end, i) else r).

Lemma range_step_spec lines :
  let acc := fold_left range_step lines (0, None) in
  acc.1 = length lines /\
  match acc.2 with
  | None => Forall (fun l => trim_space l = "") lines
  | Some (f, l) => f <= l < length lines /\
      Forall (fun x => trim_space x = "") (take f lines ++ drop (S l) lines)
  end.
Proof.
  induction lines as [|x lines IH] using rev_ind; [split; [done|constructor]|].
  rewrite fold_left_app. simpl. destruct (fold_left range_step lines (0, None)) as [i r]. simpl in *.
  destruct IH as [-> Hr]. rewrite length_app. simpl. split; [lia|].
  destruct (str_eq (trim_space x) "") eqn:E; str_facts; simpl.
  - destruct r as [[f l]|].
    + destruct Hr as [Hfl Hb]. split; [lia|]. rewrite take_app_le by lia. rewrite drop_app_le by lia.
      rewrite app_assoc. apply Forall_app. split; [done|]. by apply Forall_singleton.
    + apply Forall_app. split; [done|]. by apply Forall_singleton.
  - destruct r as [[f l]|].
    + destruct Hr as [Hfl Hb]. split; [lia|]. rewrite take_app_le by lia.
      rewrite drop_ge by (rewrite length_app; simpl; lia). rewrite app_nil_r.
      by apply Forall_app in Hb as [? _].
    + split; [lia|]. rewrite take_app_length. rewrite drop_ge by (rewrite length_app; simpl; lia).
      by rewrite app_nil_r.
Qed.

Lemma findNonBlankLineRange_spec lines f l :
  findNonBlankLineRange lines = Some (f, l) ->
  exists before after, lines = before ++ take (l + 1 - f) (drop f lines) ++ after /\
    Forall (fun x => trim_space x = "") (before ++ after).
Proof.
  intros H. change (findNonBlankLineRange lines) with (fold_left range_step lines (0, None)).2 in H.
  pose proof (range_step_spec lines) as [_ Hr]. rewrite H in Hr. destruct Hr as [Hfl Hb].
  exists (take f lines), (drop (S l) lines). split; [|done].
  replace (S l) with (f + (l + 1 - f)) by lia. rewrite <- drop_drop. by rewrite !take_drop.
Qed.

Lemma applyBlock_edit_core content b content' fuzzy :
  Search b <> "" -> applyBlock content b = Ok (content', fuzzy) -> edit b content fuzzy content'.
Proof.
  intros Hne. unfold applyBlock. assert (Hc : count content (Search b) = count_from 0 content (Search b))
    by (unfold count; by destruct (Search b)). rewrite Hc.
  destruct (Nat.eqb_spec (count_from 0 content (Search b)) 1) as [E1|E1].
  { intros [= <- <-]. destruct (count_one _ _ (Replace b) Hne E1) as (pre & post & Hf & Hp & ->).
    by constructor. }
  destruct (Nat.ltb_spec 1 (count_from 0 content (Search b))) as [E2|E2]; [done|].
  assert (H0 : contains content (Search b) = false) by (apply count_zero; [done|lia]).
  unfold applyStage2. set (cl := split_on newline content). set (sl := split_on newline (Search b)).
  assert (Hfuzzy : forall sl' start, length sl' <= length cl -> match_indices cl sl' = [start] ->
    (exists before after, sl = before ++ sl' ++ after /\ Forall (fun l => trim_space l = "") (before ++ after)) ->
    edit b content true (replaceMatchedWindow cl sl' start (Replace b))).
  { intros sl' start Hlen Hm Hsub. apply match_indices_spec in Hm as [Hs Hu]; [|done].
    unfold replaceMatchedWindow. apply edit_fuzzy; try done. apply replacement_lines_spec. }
  assert (Hrest : applyStage2b cl sl (Replace b) = Ok (content', fuzzy) -> edit b content fuzzy content').
  { unfold applyStage2b. destruct (findNonBlankLineRange sl) as [[f l]|] eqn:Er; [|done].
    intros H. apply bind_reject_ok in H as [_ H]. apply bind_reject_ok in H as [Hlt H].
    destruct (Nat.ltb_spec (length cl) (length (take (l + 1 - f) (drop f sl)))); [done|].
    destruct (match_indices _ _) as [|start [|]] eqn:Em; try done. injection H as <- <-.
    apply Hfuzzy; [lia|done|]. by apply findNonBlankLineRange_spec. }
  destruct (Nat.ltb_spec (length cl) (length sl)); [exact Hrest|].
  destruct (match_indices cl sl) as [|start [|]] eqn:Em; [exact Hrest| |done].
  intros [= <- <-]. apply Hfuzzy; [lia|done|]. exists [], []. split; [by rewrite app_nil_r|constructor].
Qed.

(** C20: whatever [applyBlock] returns is one edit: the rest of the file is
    untouched; an exact match is the first one, and no other begins behind its end, but
    one that overlaps it may be there ([Apply_overlap_not_ambiguous]); a fuzzy match is unique
    among all windows; and re-indentation changes only leading blanks. *)
Theorem applyBlock_edit content b content' fuzzy :
  Search b <> "" -> applyBlock content b = Ok (content', fuzzy) -> edit b content fuzzy content'.
Proof. apply applyBlock_edit_core. Qed.

Lemma applyBlock_edit_witness :
  exists content', applyBlock ("  a" +:+ lf +:+ "b") (mkBlock "a " "c") = Ok (content', true) /\
    edit (mkBlock "a " "c") ("  a" +:+ lf +:+ "b") true content'.
Proof.
  eexists. split; [vm_compute; reflexivity|].
  apply applyBlock_edit; [discriminate | vm_compute; reflexivity].
Defined.

(** A chain of edits, one per block, with the number of fuzzy ones. *)
Inductive edits : list Block -> string -> nat -> string -> Prop :=
  | edits_nil c : edits [] c 0 c
  | edits_cons b bs c f c1 n c2 :
      edit b c f c1 -> edits bs c1 n c2 -> edits (b :: bs) c (if f then S n else n) c2.

Lemma apply_blocks_edits bs : forall idx c n c' n',
  Forall (fun b => Search b <> "") bs -> apply_blocks idx c n bs = Ok (c', n') ->
  exists k, n' = n + k /\ edits bs c k c'.
Proof.
  induction bs as [|b bs IH]; intros idx c n c' n' Hb H; simpl in H.
  - injection H as <- <-. exists 0. split; [lia|constructor].
  - apply Forall_cons in Hb as [Hne Hb]. destruct (applyBlock c b) as [[c1 f]|e] eqn:E; [|done].
    apply applyBlock_edit_core in E; [|done]. destruct (IH _ _ _ _ _ Hb H) as (k & -> & He).
    exists (if f then S k else k). split; [destruct f; lia|]. by econstructor.
Qed.

(** ** Line endings *)
Lemma count_crlf_cons c s :
  count_from 0 (String c s) crlf =
  (if Ascii.eqb creturn c && has_prefix s lf then 1 else 0) + count_from 0 s crlf.
Proof.
  cbn [count_from]. unfold has_prefix at 1. cbn [crlf strip_prefix].
  destruct (Ascii.eqb creturn c); cbn [andb]; [|done].
  unfold has_prefix. destruct (strip_prefix lf s) as [t|] eqn:E; [|done].
  apply strip_prefix_spec in E. subst s. cbn [String.length Nat.sub lf str1 String.append].
  rewrite count_skip. cbn [drop_bytes]. done.
Qed.

Lemma count_lf_cons c s :
  count_from 0 (String c s) lf = (if Ascii.eqb newline c then 1 else 0) + count_from 0 s lf.
Proof.
  cbn [count_from]. unfold has_prefix, lf. cbn [str1 strip_prefix].
  destruct (Ascii.eqb newline c); [|done]. by rewrite count_skip.
Qed.

Lemma count_crlf_le s : forall n, String.length s <= n -> count_from 0 s crlf <= count_from 0 s lf.
Proof.
  intros n. revert s. induction n as [|n IH]; intros [|c s] Hn; simpl in Hn; try (simpl; lia).
  rewrite count_crlf_cons, count_lf_cons.
  destruct (Ascii.eqb_spec creturn c) as [<-|Hc]; cbn [andb]; [|specialize (IH s ltac:(lia)); lia].
  destruct s as [|d s]; [simpl; lia|].
  assert (Hp : has_prefix (String d s) lf = Ascii.eqb newline d)
    by (unfold has_prefix; cbn [lf str1 strip_prefix]; by destruct (Ascii.eqb newline d)).
  rewrite Hp. destruct (Ascii.eqb_spec newline d) as [<-|Hd].
  - rewrite count_crlf_cons, count_lf_cons.
    change (Ascii.eqb creturn newline) with false. change (Ascii.eqb newline newline) with true.
    change (Ascii.eqb newline creturn) with false. simpl in Hn. specialize (IH s ltac:(lia)).
    cbn [andb]. cbv beta iota. lia.
  - change (Ascii.eqb newline creturn) with false. cbv beta iota.
    assert (Hn' : String.length (String d s) <= n) by (simpl in *; lia). specialize (IH (String d s) Hn'). lia.
Qed.

Lemma replace_crlf_cons c s :
  replace_all (String c s) crlf lf =
  if Ascii.eqb creturn c && has_prefix s lf then String newline (replace_all (drop_bytes 1 s) crlf lf)
  else String c (replace_all s crlf lf).
Proof.
  unfold replace_all. cbn [replace_from]. unfold has_prefix at 1. cbn [crlf strip_prefix].
  destruct (Ascii.eqb creturn c); cbn [andb]; [|done].
  unfold has_prefix. destruct (strip_prefix lf s) as [t|] eqn:E; [|done]. by rewrite replace_skip.
Qed.

Lemma replace_lf_cons c s :
  replace_all (String c s) lf crlf =
  (if Ascii.eqb newline c then crlf else str1 c) +:+ replace_all s lf crlf.
Proof.
  unfold replace_all. cbn [replace_from]. unfold has_prefix, lf at 1. cbn [str1 strip_prefix].
  destruct (Ascii.eqb newline c); [|done]. by rewrite replace_skip.
Qed.

Lemma crlf_roundtrip s : forall n, String.length s <= n ->
  count_from 0 s crlf = count_from 0 s lf -> replace_all (replace_all s crlf lf) lf crlf = s.
Proof.
  intros n. revert s. induction n as [|n IH]; intros [|c s] Hn; simpl in Hn; try done; [lia|].
  rewrite replace_crlf_cons, count_crlf_cons, count_lf_cons. intros H.
  destruct (Ascii.eqb_spec creturn c) as [<-|Hc]; cbn [andb] in *.
  - destruct s as [|d s]; [done|].
    assert (Hp : has_prefix (String d s) lf = Ascii.eqb newline d)
      by (unfold has_prefix; cbn [lf str1 strip_prefix]; by destruct (Ascii.eqb newline d)).
    rewrite Hp in *. destruct (Ascii.eqb_spec newline d) as [<-|Hd].
    + rewrite replace_lf_cons. change (Ascii.eqb newline newline) with true. cbn [drop_bytes]. simpl in Hn.
      rewrite IH; [done|lia|]. rewrite count_crlf_cons, count_lf_cons in H.
      change (Ascii.eqb creturn newline) with false in H. change (Ascii.eqb newline newline) with true in H.
      change (Ascii.eqb newline creturn) with false in H. cbn [andb] in H. lia.
    + change (Ascii.eqb newline creturn) with false in H. rewrite replace_lf_cons.
      change (Ascii.eqb newline creturn) with false. cbn [str1 String.append].
      rewrite IH; [done|lia|]. exact H.
  - rewrite replace_lf_cons. destruct (Ascii.eqb_spec newline c) as [<-|Hd].
    + pose proof (count_crlf_le s n ltac:(lia)). lia.
    + cbn [str1 String.append]. rewrite IH; [done|lia|exact H].
Qed.

(** After [ReplaceAll(w, LF, CRLF)] every line feed follows a carriage return. *)
Lemma to_crlf_uniform w : count_from 0 (replace_all w lf crlf) crlf = count_from 0 (replace_all w lf crlf) lf.
Proof.
  induction w as [|c w IH]; [done|]. rewrite replace_lf_cons.
  destruct (Ascii.eqb_spec newline c) as [<-|Hc].
  - cbn [crlf lf str1 String.append]. rewrite !count_crlf_cons, !count_lf_cons.
    change (has_prefix (String newline (replace_all w lf crlf)) lf) with true.
    change (Ascii.eqb creturn newline) with false. change (Ascii.eqb newline creturn) with false.
    rewrite !Ascii.eqb_refl. cbn [andb]. lia.
  - cbn [str1 String.append]. rewrite count_crlf_cons, count_lf_cons.
    assert (Hp : has_prefix (replace_all w lf crlf) lf = false).
    { destruct w as [|d w]; [done|]. rewrite replace_lf_cons. destruct (Ascii.eqb_spec newline d); [done|].
      unfold has_prefix. cbn [str1 String.append lf strip_prefix].
      by rewrite (proj2 (Ascii.eqb_neq newline d)). }
    rewrite Hp, andb_false_r. rewrite (proj2 (Ascii.eqb_neq newline c)) by done. exact IH.
Qed.

Lemma count_crlf s : count s crlf = count_from 0 s crlf.
Proof. done. Qed.
Lemma count_lf s : count s lf = count_from 0 s lf.
Proof. done. Qed.

(** a successful [Apply] is a chain of single edits, one per parsed block in
    order, on the text with its line endings normalised; it reports the number
    of blocks and of fuzzy ones. A uniform CRLF file is edited in its LF form,
    which reads back to the original, and comes out with CRLF everywhere; any
    other file is edited byte for byte. *)
Theorem Apply_edits content raw r :
  Apply content raw = Ok r ->
  exists bs w, Parse raw = Ok bs /\ bs <> [] /\ Blocks r = length bs /\
  if useCRLF content
  then replace_all (replace_all content crlf lf) lf crlf = content /\
       edits bs (replace_all content crlf lf) (Fuzzy r) w /\
       Content r = replace_all w lf crlf /\ count (Content r) crlf = count (Content r) lf
  else edits bs content (Fuzzy r) w /\ Content r = w.
Proof.
  unfold Apply. intros H. apply result_bind_ok in H as (bs & Hp & H).
  apply result_bind_ok in H as ([w n] & Ha & H). apply Ok_inj in H. subst r.
  destruct (Parse_blocks _ _ Hp) as [Hne Hs]. apply apply_blocks_edits in Ha as (k & -> & He); [|done].
  exists bs, w. cbn [Blocks Fuzzy Content fst snd Nat.add]. split_and!; [done|done|done|].
  destruct (useCRLF content) eqn:Eu; [|done].
  unfold useCRLF in Eu. apply andb_true_iff in Eu as [_ Eu]. apply Nat.eqb_eq in Eu.
  rewrite count_crlf, count_lf in *. split_and!; [|done|done|apply to_crlf_uniform].
  by apply (crlf_roundtrip content (String.length content)).
Qed.

Lemma Apply_edits_witness :
  exists r, Apply ("a" +:+ crlf +:+ "b" +:+ crlf) ("<<<<" +:+ lf +:+ "a" +:+ lf +:+ "====" +:+ lf +:+
      "c" +:+ lf +:+ "d" +:+ lf +:+ ">>>>") = Ok r /\
    Content r = "c" +:+ crlf +:+ "d" +:+ crlf +:+ "b" +:+ crlf /\
    exists bs, Parse ("<<<<" +:+ lf +:+ "a" +:+ lf +:+ "====" +:+ lf +:+
      "c" +:+ lf +:+ "d" +:+ lf +:+ ">>>>") = Ok bs /\ Blocks r = length bs.
Proof.
  eexists. split; [vm_compute; reflexivity|]. split; [reflexivity|].
  destruct (Apply_edits ("a" +:+ crlf +:+ "b" +:+ crlf) ("<<<<" +:+ lf +:+ "a" +:+ lf +:+ "====" +:+ lf +:+
      "c" +:+ lf +:+ "d" +:+ lf +:+ ">>>>") _ eq_refl) as (bs & w & Hp & _ & Hb & _).
  exists bs. split; [exact Hp | exact Hb].
Defined.

(** the uniqueness test of exact matches counts non-overlapping occurrences:
    a search text that occurs twice with an overlap is applied to the first place
    without an ambiguity error. *)
Theorem Apply_overlap_not_ambiguous :
  exists content b raw r pre post pre' post',
    Parse raw = Ok [b] /\ content = pre +:+ Search b +:+ post /\ content = pre' +:+ Search b +:+ post' /\
    pre <> pre' /\ Apply content raw = Ok r.
Proof.
  set (search := "}" +:+ lf +:+ "}").
  exists ("}" +:+ lf +:+ "}" +:+ lf +:+ "}"), (mkBlock search "x"), (print_block (mkBlock search "x")).
  eexists _, "", (lf +:+ "}"), ("}" +:+ lf), "".
  split; [vm_compute; reflexivity|]. split; [reflexivity|]. split; [reflexivity|].
  split; [discriminate|]. vm_compute. reflexivity.
Qed.
