(* ===== verification/Plan.v ===== *)
(** Connection plans of core/ssh/plan.go: the normalisation of a captured jump
    chain with its options (ssh_options.go), connection keys, and the
    reference-counted cache of plan generations with its retirement markers.

    The theorems show what a normalised plan is and that normalisation is
    idempotent, and, over every sequence of cache operations, that a retired
    generation is never handed out again and no transport is closed under a
    lease before the connector itself closes. *)
From S2P Require Export GoStrings.
From S2P Require Import Exec.
#[local] Open Scope Z_scope.

(** * Options (ssh_options.go) *)

(** Canonical key, OpenSSH name, class and aliases of every registered option. *)
Definition optionRegistry : list (string * string * string * list string) :=
  [("control_master", "ControlMaster", "mux", []);
   ("control_path", "ControlPath", "mux", []);
   ("control_persist", "ControlPersist", "mux", []);
   ("connect_timeout", "ConnectTimeout", "transport", []);
   ("server_alive_interval", "ServerAliveInterval", "transport", []);
   ("server_alive_count_max", "ServerAliveCountMax", "transport", []);
   ("tcp_keep_alive", "TCPKeepAlive", "transport", []);
   ("strict_host_key_checking", "StrictHostKeyChecking", "trust", []);
   ("user_known_hosts_file", "UserKnownHostsFile", "trust", []);
   ("pubkey_authentication", "PubkeyAuthentication", "auth", []);
   ("password_authentication", "PasswordAuthentication", "auth", []);
   ("kbd_interactive_authentication", "KbdInteractiveAuthentication", "auth",
     ["ChallengeResponseAuthentication"; "challenge_response_authentication"]);
   ("identities_only", "IdentitiesOnly", "auth", []);
   ("preferred_authentications", "PreferredAuthentications", "auth", []);
   ("batch_mode", "BatchMode", "auth", []);
   ("host_key_algorithms", "HostKeyAlgorithms", "transport", []);
   ("ciphers", "Ciphers", "transport", []);
   ("macs", "MACs", "transport", []);
   ("kex_algorithms", "KexAlgorithms", "transport", [])].

Definition spec_names (spec : string * string * string * list string) : list string :=
  let '(canonical, name, _, aliases) := spec in map to_lower (canonical :: name :: aliases).

(** [LookupOptionSpec]: canonical key and class. *)
Definition LookupOptionSpec (key : string) : option (string * string) :=
  let trimmed := to_lower (trim_space key) in
  if str_eq trimmed "" then None
  else match List.find (fun spec => one_of trimmed (spec_names spec)) optionRegistry with
       | Some (canonical, _, class, _) => Some (canonical, class)
       | None => None
       end.

(** [Options]: the values and the implicit-tier mark. *)
Record Options := mkOpts { opt_values : gmap string string; ImplicitTier4 : bool }.
#[export] Instance Options_eq_dec : EqDecision Options.
Proof. solve_decision. Defined.

Definition IsEmpty (o : option Options) : bool :=
  match o with None => true | Some o => bool_decide (opt_values o = ∅) end.

(** [StripClasses(OptionClassMux)] *)
Definition is_class (class key : string) : bool :=
  match LookupOptionSpec key with Some (_, c) => str_eq c class | None => false end.
Definition StripClass (class : string) (o : Options) : Options :=
  mkOpts (filter (fun kv => is_class class kv.1 = false) (opt_values o)) (ImplicitTier4 o).

(** [hop.Options.Clone()], [StripClasses], and nil when nothing is left. *)
Definition plan_options (o : option Options) : option Options :=
  match o with
  | None => None
  | Some o => let o' := StripClass "mux" o in if IsEmpty (Some o') then None else Some o'
  end.

(** * Plans (types_api.go, plan.go) *)
Record ConnectionConfig := mkConn {
  KeyRef : string;
  TrustVersion : string;
  cNodeID : string;
  Address : string;
  Port : Z;
  User : string;
  AuthType : string;
  KeyPath : string;
  AuthUpdateToken : string;
  SudoMode : string;
  SudoUpdateToken : string;
  ProxyJump : string;
  OriginalProxyJump : string;
  HasOriginalProxyJump : bool;
  PasswordPromptPattern : string;
  cExecution : option ExecutionConfig;
  cOptions : option Options
}.
#[export] Instance ConnectionConfig_eq_dec : EqDecision ConnectionConfig.
Proof. solve_decision. Defined.

Record ConnectionPlan := mkConnPlan { Scope : string; Hops : list ConnectionConfig }.
#[export] Instance ConnectionPlan_eq_dec : EqDecision ConnectionPlan.
Proof. solve_decision. Defined.

Inductive plan_error := EScopeOrHops | ENodeIDInvalid | EEndpointInvalid | EJumpMismatch | EConnectorClosed.

Definition node_id_bad : string := String "," (String nul (String creturn (str1 newline))).

(** One hop of the loop of [normalizePlan]. *)
Definition normalize_hop (previous : string) (hop : ConnectionConfig) : ConnectionConfig :=
  let jump := previous in
  let '(orig, has) := if HasOriginalProxyJump hop then (OriginalProxyJump hop, true) else (jump, true) in
  mkConn (KeyRef hop) (TrustVersion hop) (cNodeID hop) (Address hop)
    (if Port hop =? 0 then 22 else Port hop) (User hop) (AuthType hop) (KeyPath hop)
    (AuthUpdateToken hop) (SudoMode hop) (SudoUpdateToken hop) jump orig has
    (PasswordPromptPattern hop) (exec_clone (cExecution hop)) (plan_options (cOptions hop)).

Fixpoint normalize_hops (seen : list string) (previous : string) (hops : list ConnectionConfig)
    : result plan_error (list ConnectionConfig) :=
  match hops with
  | [] => Ok []
  | hop :: rest =>
      reject str_eq (cNodeID hop) "" || (1024 <? len (cNodeID hop)) ||
             contains_any (cNodeID hop) node_id_bad || one_of (cNodeID hop) seen with ENodeIDInvalid;;
      reject str_eq (Address hop) "" || str_eq (User hop) "" || (Port hop <? 0) || (65535 <? Port hop)
        with EEndpointInvalid;;
      reject negb (str_eq (ProxyJump hop) "") && negb (str_eq (ProxyJump hop) previous) with EJumpMismatch;;
      try rest' := normalize_hops (cNodeID hop :: seen) (cNodeID hop) rest;;
      Ok (normalize_hop previous hop :: rest')
  end.

Definition normalizePlan (plan : ConnectionPlan) : result plan_error ConnectionPlan :=
  reject str_eq (Scope plan) "" || (256 <? len (Scope plan)) ||
         bool_decide (Hops plan = []) || (32 <? Z.of_nat (length (Hops plan))) with EScopeOrHops;;
  try hops := normalize_hops [] "" (Hops plan);;
  Ok (mkConnPlan (Scope plan) hops).

(** [base64.StdEncoding.EncodeToString] of the bytes of a token. *)
Fixpoint string_bytes (s : string) : list N :=
  match s with EmptyString => [] | String c r => byte_code c :: string_bytes r end.
Definition encode_tokens (hop : ConnectionConfig) : ConnectionConfig :=
  mkConn (KeyRef hop) (TrustVersion hop) (cNodeID hop) (Address hop) (Port hop) (User hop)
    (AuthType hop) (KeyPath hop) (base64 (string_bytes (AuthUpdateToken hop))) (SudoMode hop)
    (base64 (string_bytes (SudoUpdateToken hop))) (ProxyJump hop) (OriginalProxyJump hop)
    (HasOriginalProxyJump hop) (PasswordPromptPattern hop) (cExecution hop) (cOptions hop).

Section Key.
(** SHA-256 of the JSON form of a plan, in hexadecimal. *)
Variable plan_hash : ConnectionPlan -> string.

Definition ConnectionKey (plan : ConnectionPlan) : result plan_error string :=
  try plan := normalizePlan plan;;
  Ok (plan_hash (mkConnPlan (Scope plan) (map encode_tokens (Hops plan)))).
End Key.

(** * The cache of plan generations *)

(** A generation: its key, its leases and whether it may still be reused. The
    connector it owns is known by the generation's identity. *)
Record planEntry := mkPlanEntry { pe_key : string; pe_refs : nat; pe_retired : bool }.

(** [pc_heap] holds every entry ever made (entries are pointers), [pc_all] those
    in [allPlans], [pc_closing] those whose [closePlan] has been decided and not
    yet run. *)
Record planCache := mkCache {
  pc_closed : bool;
  pc_plans : gmap string positive;
  pc_heap : gmap positive planEntry;
  pc_all : gset positive;
  pc_retired : gset string;
  pc_disabled : bool;
  pc_closing : gset positive;
  pc_next : positive
}.
Definition empty_cache : planCache := mkCache false ∅ ∅ ∅ ∅ false ∅ 1.

Definition maxRetiredPlans : nat := 4096.

Definition acquirePlan (key : string) (c : planCache) : result plan_error (positive * planCache) :=
  reject pc_closed c with EConnectorClosed;;
  let '(id, c) :=
    match pc_plans c !! key with
    | Some id => (id, c)
    | None =>
        let retired := bool_decide (key ∈ pc_retired c) || pc_disabled c in
        let id := pc_next c in
        (id, mkCache (pc_closed c) (if retired then pc_plans c else <[key := id]> (pc_plans c))
               (<[id := mkPlanEntry key 0 retired]> (pc_heap c)) ({[id]} ∪ pc_all c) (pc_retired c) (pc_disabled c)
               (pc_closing c) (Pos.succ id))
    end in
  Ok (id, mkCache (pc_closed c) (pc_plans c)
            (alter (fun e => mkPlanEntry (pe_key e) (S (pe_refs e)) (pe_retired e)) id (pc_heap c))
            (pc_all c) (pc_retired c) (pc_disabled c) (pc_closing c) (pc_next c)).

(** [retired] of an entry is set and [closeNow] computed. *)
Definition close_if (b : bool) (id : positive) (s : gset positive) : gset positive :=
  if b then {[id]} ∪ s else s.

Definition RetirePlan (key : string) (c : planCache) : planCache :=
  if pc_closed c then c
  else
    let '(retired, disabled) :=
      if pc_disabled c then (pc_retired c, true)
      else if bool_decide (maxRetiredPlans <= size (pc_retired c))%nat then (∅, true)
      else ({[key]} ∪ pc_retired c, false) in
    match pc_plans c !! key with
    | None => mkCache (pc_closed c) (pc_plans c) (pc_heap c) (pc_all c) retired disabled (pc_closing c) (pc_next c)
    | Some id =>
        let closeNow := match pc_heap c !! id with Some e => pe_refs e =? 0 | None => false end%nat in
        mkCache (pc_closed c) (delete key (pc_plans c))
          (alter (fun e => mkPlanEntry (pe_key e) (pe_refs e) true) id (pc_heap c))
          (pc_all c) retired disabled (close_if closeNow id (pc_closing c)) (pc_next c)
    end.

Definition releasePlan (id : positive) (failed : bool) (c : planCache) : planCache :=
  match pc_heap c !! id with
  | None => c
  | Some e =>
      let e := mkPlanEntry (pe_key e) (pe_refs e - 1) (if failed || pc_closed c then true else pe_retired e) in
      let plans := if pe_retired e && bool_decide (pc_plans c !! pe_key e = Some id)
                   then delete (pe_key e) (pc_plans c) else pc_plans c in
      mkCache (pc_closed c) plans (<[id := e]> (pc_heap c)) (pc_all c) (pc_retired c) (pc_disabled c)
        (close_if (pe_retired e && (pe_refs e =? 0)%nat) id (pc_closing c)) (pc_next c)
  end.

(** [closePlan]: the transport of [id] is closed. *)
Definition closePlan (id : positive) (c : planCache) : planCache :=
  mkCache (pc_closed c) (pc_plans c) (pc_heap c) (pc_all c ∖ {[id]}) (pc_retired c) (pc_disabled c)
    (pc_closing c ∖ {[id]}) (pc_next c).

(** The plan part of [Connector.CloseAll]: no reuse, every generation closed. *)
Definition close_all_plans (c : planCache) : planCache :=
  mkCache true ∅ (pc_heap c) (pc_all c) ∅ (pc_disabled c) (pc_closing c ∪ pc_all c) (pc_next c).

(** * Theorems: normalised plans *)

(** A hop after normalisation, behind the hop named [previous]. *)
Definition normal_hop (previous : string) (hop : ConnectionConfig) : Prop :=
  cNodeID hop <> "" /\ len (cNodeID hop) <= 1024 /\ contains_any (cNodeID hop) node_id_bad = false /\
  Address hop <> "" /\ User hop <> "" /\ 1 <= Port hop <= 65535 /\
  ProxyJump hop = previous /\ HasOriginalProxyJump hop = true /\
  (forall o, cOptions hop = Some o -> opt_values o <> ∅ /\
     forall k v, opt_values o !! k = Some v -> is_class "mux" k = false).

(** A chain of hops, each behind the one before it, without repeated names. *)
Fixpoint normal_chain (seen : list string) (previous : string) (hops : list ConnectionConfig) : Prop :=
  match hops with
  | [] => True
  | hop :: rest =>
      normal_hop previous hop /\ cNodeID hop ∉ seen /\
      normal_chain (cNodeID hop :: seen) (cNodeID hop) rest
  end.

(** What a plan says about the connection, apart from the derived fields. *)
Definition same_endpoint (a b : ConnectionConfig) : Prop :=
  cNodeID b = cNodeID a /\ Address b = Address a /\ User b = User a /\
  Port b = (if Port a =? 0 then 22 else Port a) /\ AuthType b = AuthType a /\ KeyRef b = KeyRef a /\
  KeyPath b = KeyPath a /\ TrustVersion b = TrustVersion a /\ AuthUpdateToken b = AuthUpdateToken a /\
  SudoUpdateToken b = SudoUpdateToken a /\ SudoMode b = SudoMode a /\ cExecution b = cExecution a.

Lemma plan_options_spec o o' :
  plan_options o = Some o' ->
  opt_values o' <> ∅ /\ forall k v, opt_values o' !! k = Some v -> is_class "mux" k = false.
Proof.
  destruct o as [o|]; [|done]. unfold plan_options. cbv zeta. destruct (IsEmpty _) eqn:E; [done|].
  intros [= <-]. unfold IsEmpty in E. bool_facts. split; [done|]. intros k v Hk.
  unfold StripClass in Hk. cbn [opt_values] in Hk. by apply map_lookup_filter_Some in Hk as [_ Hk].
Qed.

Lemma plan_options_idem o : plan_options (plan_options o) = plan_options o.
Proof.
  destruct (plan_options o) as [o'|] eqn:E; [|done]. apply plan_options_spec in E as [Hne Hk].
  assert (Hs : StripClass "mux" o' = o').
  { destruct o' as [vs t]. unfold StripClass. cbn [opt_values ImplicitTier4] in *. f_equal.
    apply map_filter_id. intros k v Hv. by apply (Hk k v). }
  unfold plan_options. cbv zeta. rewrite Hs. unfold IsEmpty. by rewrite bool_decide_eq_false_2.
Qed.

Lemma normalize_hops_ok hops : forall seen previous hops',
  normalize_hops seen previous hops = Ok hops' ->
  normal_chain seen previous hops' /\ Forall2 same_endpoint hops hops' /\
  normalize_hops seen previous hops' = Ok hops'.
Proof.
  induction hops as [|hop hops IH]; intros seen previous hops'; cbn [normalize_hops].
  { intros [= <-]. split; [done|]. by split; [constructor|]. }
  intros H. apply bind_reject_ok in H as [H1 H]. apply bind_reject_ok in H as [H2 H].
  apply bind_reject_ok in H as [H3 H]. apply result_bind_ok in H as (rest & Hr & H).
  apply Ok_inj in H. subst hops'. destruct (IH _ _ _ Hr) as (Hc & Hf & Hn).
  set (hop' := normalize_hop previous hop).
  assert (Hid : cNodeID hop' = cNodeID hop /\ Address hop' = Address hop /\ User hop' = User hop /\
    ProxyJump hop' = previous /\ HasOriginalProxyJump hop' = true /\
    Port hop' = (if Port hop =? 0 then 22 else Port hop) /\ cOptions hop' = plan_options (cOptions hop))
    by (subst hop'; unfold normalize_hop; destruct (HasOriginalProxyJump hop); done).
  destruct Hid as (Hid & Had & Hus & Hpj & Hho & Hpo & Hop).
  assert (Hfacts : Address hop <> "" /\ User hop <> "" /\ 0 <= Port hop <= 65535 /\ cNodeID hop <> "" /\
    len (cNodeID hop) <= 1024 /\ contains_any (cNodeID hop) node_id_bad = false /\ cNodeID hop ∉ seen)
    by (str_facts; split_and!; done || lia).
  destruct Hfacts as (Ha & Hu & Hp & Hi & Hl & Hb & Hns).
  assert (Hport : 1 <= Port hop' <= 65535) by (rewrite Hpo; destruct (Z.eqb_spec (Port hop) 0); lia).
  split; [|split].
  - cbn [normal_chain]. rewrite Hid. split; [|split; [done|done]]. unfold normal_hop.
    rewrite Hid, Had, Hus. split_and!; try done; try lia.
    intros o Ho. rewrite Hop in Ho. by apply plan_options_spec in Ho.
  - constructor; [|done]. subst hop'. unfold same_endpoint, normalize_hop.
    destruct (HasOriginalProxyJump hop); cbn; rewrite exec_clone_id; done.
  - cbn [normalize_hops]. rewrite Hid, Had, Hus, Hpj, H1. cbn [reject_if result_bind].
    rewrite (proj2 (str_eq_false (Address hop) "") Ha), (proj2 (str_eq_false (User hop) "") Hu).
    rewrite (proj2 (Z.ltb_ge (Port hop') 0)) by lia. rewrite (proj2 (Z.ltb_ge 65535 (Port hop'))) by lia.
    cbn [orb reject_if result_bind]. rewrite str_eq_refl, andb_false_r. cbn [reject_if result_bind].
    rewrite Hn. cbn [result_bind]. f_equal. f_equal. subst hop'. unfold normalize_hop.
    destruct (HasOriginalProxyJump hop); cbn; rewrite exec_clone_id, plan_options_idem;
      destruct (Z.eqb_spec (Port hop) 0); cbn; try done;
      rewrite (proj2 (Z.eqb_neq (Port hop) 0)) by done; done.
Qed.

(** a normalised plan is a chain of valid hops: bounded scope, 1 to 32 hops
    with distinct names, a port in range, each jump the hop before it, no
    multiplexing options; it keeps every endpoint and version field, and
    normalising it again changes nothing, so connection keys are stable. *)
Theorem normalizePlan_normal plan plan' :
  normalizePlan plan = Ok plan' ->
  Scope plan' = Scope plan /\ 1 <= len (Scope plan) <= 256 /\
  1 <= Z.of_nat (length (Hops plan')) <= 32 /\ normal_chain [] "" (Hops plan') /\
  Forall2 same_endpoint (Hops plan) (Hops plan') /\ normalizePlan plan' = Ok plan' /\
  forall h, ConnectionKey h plan' = ConnectionKey h plan.
Proof.
  unfold normalizePlan, ConnectionKey. intros H. apply bind_reject_ok in H as [H0 H].
  apply result_bind_ok in H as (hops & Hh & H). apply Ok_inj in H. subst plan'. cbn [Scope Hops].
  destruct (normalize_hops_ok _ _ _ _ Hh) as (Hc & Hf & Hn). pose proof (Forall2_length _ _ _ Hf) as Hl.
  assert (Hb : bool_decide (hops = []) = bool_decide (Hops plan = []))
    by (apply bool_decide_ext; destruct hops, (Hops plan); done).
  assert (Hnorm : normalizePlan (mkConnPlan (Scope plan) hops) = Ok (mkConnPlan (Scope plan) hops)).
  { unfold normalizePlan. cbn [Scope Hops]. rewrite Hb, <- Hl, H0. cbn [reject_if result_bind]. by rewrite Hn. }
  assert (Hfacts : Scope plan <> "" /\ len (Scope plan) <= 256 /\ Hops plan <> [] /\
    Z.of_nat (length (Hops plan)) <= 32) by (clear Hnorm Hb; str_facts; split_and!; done || lia).
  destruct Hfacts as (Hs & Hs2 & Hh1 & Hh2). split_and!; try done.
  - destruct (Scope plan); [done|]. unfold len. simpl. lia.
  - destruct (Hops plan), hops; try done. simpl. lia.
  - lia.
  - intros h. rewrite Hnorm. unfold normalizePlan. rewrite H0. cbn [reject_if result_bind]. rewrite Hh. done.
Qed.

Definition sample_hop (id jump : string) (port : Z) : ConnectionConfig :=
  mkConn "" "v1" id "10.0.0.1" port "root" "key" "" "a" "" "b" jump "" false "" None
    (Some (mkOpts {["ControlMaster" := "auto"; "ciphers" := "aes"]} false)).

Lemma normalizePlan_normal_witness :
  exists p, normalizePlan (mkConnPlan "s" [sample_hop "a" "" 0; sample_hop "b" "a" 2222]) = Ok p /\
    normal_chain [] "" (Hops p).
Proof.
  destruct (normalizePlan (mkConnPlan "s" [sample_hop "a" "" 0; sample_hop "b" "a" 2222])) as [p|e] eqn:E;
    [|vm_compute in E; discriminate E].
  exists p. split; [reflexivity|]. exact (proj1 (proj2 (proj2 (proj2 (normalizePlan_normal _ _ E))))).
Defined.

(** * Theorems: plan generations *)

(** Steps of the cache: the operations under the lifecycle lock, with the keys
    retired so far. A release gives back a lease that is held. *)
Definition cache_state : Type := planCache * gset string.
Inductive cache_step : cache_state -> cache_state -> Prop :=
  | cs_acquire c ever key id c' :
      acquirePlan key c = Ok (id, c') -> cache_step (c, ever) (c', ever)
  | cs_retire c ever key : cache_step (c, ever) (RetirePlan key c, {[key]} ∪ ever)
  | cs_release c ever id failed e :
      pc_heap c !! id = Some e -> (0 < pe_refs e)%nat ->
      cache_step (c, ever) (releasePlan id failed c, ever)
  | cs_close c ever id : id ∈ pc_closing c -> cache_step (c, ever) (closePlan id c, ever)
  | cs_close_all c ever : cache_step (c, ever) (close_all_plans c, ever).
Definition cache_init (s : cache_state) : Prop := s = (empty_cache, ∅).

Record cache_inv (s : cache_state) : Prop := {
  ci_plans : forall k id, pc_plans s.1 !! k = Some id ->
    exists e, pc_heap s.1 !! id = Some e /\ pe_key e = k /\ pe_retired e = false;
  ci_closing : pc_closed s.1 = false -> forall id, id ∈ pc_closing s.1 ->
    exists e, pc_heap s.1 !! id = Some e /\ pe_refs e = 0%nat /\ pe_retired e = true;
  ci_ever : pc_closed s.1 = false -> forall k, k ∈ s.2 ->
    pc_plans s.1 !! k = None /\ (pc_disabled s.1 = true \/ k ∈ pc_retired s.1);
  ci_fresh : forall id e, pc_heap s.1 !! id = Some e -> (id < pc_next s.1)%positive;
  ci_bound : (size (pc_retired s.1) <= maxRetiredPlans)%nat
}.

(** An entry after more leases or a retirement. *)
Lemma alter_entry (f : planEntry -> planEntry) id i (m : gmap positive planEntry) e :
  alter f id m !! i = Some e <->
  (i = id /\ exists e0, m !! i = Some e0 /\ e = f e0) \/ (i <> id /\ m !! i = Some e).
Proof.
  rewrite lookup_alter_Some. split.
  - intros [(-> & e0 & ? & ->)|[? ?]]; eauto.
  - intros [(-> & e0 & ? & ->)|[? ?]]; eauto 10.
Qed.

(** What [acquirePlan] hands out: the cached generation of the key, or a fresh
    one, retired from the start where reuse is off. *)
Lemma acquirePlan_cases key c id c' :
  acquirePlan key c = Ok (id, c') ->
  pc_closed c = false /\ pc_closed c' = false /\ pc_retired c' = pc_retired c /\ pc_disabled c' = pc_disabled c /\
  pc_closing c' = pc_closing c /\
  let add e := mkPlanEntry (pe_key e) (S (pe_refs e)) (pe_retired e) in
  ((pc_plans c !! key = Some id /\ pc_plans c' = pc_plans c /\ pc_next c' = pc_next c /\
    pc_heap c' = alter add id (pc_heap c)) \/
   (pc_plans c !! key = None /\ id = pc_next c /\ pc_next c' = Pos.succ id /\
    let retired := bool_decide (key ∈ pc_retired c) || pc_disabled c in
    pc_plans c' = (if retired then pc_plans c else <[key := id]> (pc_plans c)) /\
    pc_heap c' = <[id := mkPlanEntry key 1 retired]> (pc_heap c))).
Proof.
  unfold acquirePlan. intros H. apply bind_reject_ok in H as [Hc H]. destruct (pc_plans c !! key) as [i|] eqn:E.
  - apply Ok_inj in H. injection H as <- <-. cbn. split_and!; try done. left. done.
  - apply Ok_inj in H. injection H as <- <-. cbn. split_and!; try done. right. split_and!; try done.
    by rewrite alter_insert_eq.
Qed.

Lemma cache_inv_acquire c ever key id c' :
  cache_inv (c, ever) -> acquirePlan key c = Ok (id, c') -> cache_inv (c', ever).
Proof.
  intros I H. apply acquirePlan_cases in H as (Hc & Hc' & Hr & Hd & Hcl & Hcase).
  destruct I as [I1 I2 I3 I4 I5]. cbn [fst snd] in *.
  destruct Hcase as [(Hp & Hpl & Hn & Hh)|(Hp & -> & Hn & Hpl & Hh)]; constructor; cbn [fst snd];
    rewrite ?Hpl, ?Hn, ?Hh, ?Hr, ?Hd, ?Hcl, ?Hc'.
  - intros k i Hk. destruct (I1 k i Hk) as (e & He & Hke & Hre).
    destruct (decide (i = id)) as [->|Hne].
    + eexists. rewrite lookup_alter_eq, He. cbn. eauto.
    + exists e. by rewrite lookup_alter_ne.
  - intros _ i Hi. destruct (I2 Hc i Hi) as (e & He & Hre & Hte). exists e.
    rewrite lookup_alter_ne; [done|]. intros <-. destruct (I1 _ _ Hp) as (e' & He' & _ & Hf). congruence.
  - intros _. by apply I3.
  - intros i e He. apply alter_entry in He as [(-> & e0 & He & _)|[_ He]]; by eapply I4.
  - done.
  - assert (Hfresh : forall k i, pc_plans c !! k = Some i -> i <> pc_next c).
    { intros k i Hk ->. destruct (I1 _ _ Hk) as (e & He & _). apply I4 in He. lia. }
    intros k i Hk. destruct (bool_decide (key ∈ pc_retired c) || pc_disabled c) eqn:Er.
    + destruct (I1 _ _ Hk) as (e & He & ?). exists e. rewrite lookup_insert_ne; [done|]. by apply not_eq_sym, (Hfresh k).
    + apply lookup_insert_Some in Hk as [[<- <-]|[Hne Hk]].
      * eexists. rewrite lookup_insert_eq. split; [done|]. by cbn.
      * destruct (I1 _ _ Hk) as (e & He & ?). exists e. rewrite lookup_insert_ne; [done|].
        by apply not_eq_sym, (Hfresh k).
  - intros _ i Hi. destruct (I2 Hc i Hi) as (e & He & ?). exists e. rewrite lookup_insert_ne; [done|].
    intros <-. apply I4 in He. lia.
  - intros _ k Hk. destruct (I3 Hc k Hk) as [Hn1 Hor]. split; [|done].
    destruct (bool_decide (key ∈ pc_retired c) || pc_disabled c) eqn:Er; [done|].
    apply orb_false_iff in Er as [Er1 Er2]. apply bool_decide_eq_false in Er1.
    apply lookup_insert_None. split; [done|]. intros ->. destruct Hor; [congruence|done].
  - intros i e [[<- _]|[_ He]]%lookup_insert_Some; [lia|]. apply I4 in He. lia.
  - done.
Qed.

Lemma cache_inv_retire c ever key : cache_inv (c, ever) -> cache_inv (RetirePlan key c, {[key]} ∪ ever).
Proof.
  intros [I1 I2 I3 I4 I5]. cbn [fst snd] in *. unfold RetirePlan.
  destruct (pc_closed c) eqn:Hc; [constructor; cbn [fst snd]; rewrite ?Hc; try done; by intros ?|].
  destruct (if pc_disabled c then _ else _) as [ret dis] eqn:Er.
  assert (Hret : (size ret <= maxRetiredPlans)%nat /\ (dis = true \/ key ∈ ret /\ pc_retired c ⊆ ret) /\
    (pc_disabled c = true -> dis = true)).
  { destruct (pc_disabled c); [injection Er as <- <-; auto|].
    destruct (bool_decide _) eqn:Eb; injection Er as <- <-; bool_facts.
    - split_and!; [rewrite size_empty; lia|by left|done].
    - split_and!; [|right; set_solver|done].
      rewrite size_union_alt, size_singleton.
      assert (size (pc_retired c ∖ {[key]}) <= size (pc_retired c))%nat by (apply subseteq_size; set_solver).
      lia. }
  destruct Hret as (Hsz & Hkey & Hdis).
  assert (Hever : forall k, k ∈ {[key]} ∪ ever -> dis = true \/ k ∈ ret).
  { intros k [->%elem_of_singleton|Hk]%elem_of_union; [naive_solver|].
    destruct (I3 eq_refl k Hk) as [_ [Hd|Hk']]; [left; auto|]. destruct Hkey as [?|[_ Hsub]]; [by left|right; auto]. }
  destruct (pc_plans c !! key) as [id|] eqn:Ep.
  - destruct (I1 _ _ Ep) as (e0 & He0 & Hk0 & Hr0). rewrite He0.
    constructor; cbn [fst snd pc_plans pc_heap pc_closed pc_closing pc_retired pc_disabled pc_next].
    + intros k i [Hne Hk]%lookup_delete_Some. destruct (I1 _ _ Hk) as (e & He & Hke & Hre). exists e.
      rewrite lookup_alter_ne; [done|]. intros <-. congruence.
    + intros _ i Hi. unfold close_if in Hi.
      assert (Hi' : (i = id /\ pe_refs e0 = 0%nat) \/ i ∈ pc_closing c).
      { destruct (Nat.eqb_spec (pe_refs e0) 0); [|by right]. set_solver. }
      destruct Hi' as [[-> H0]|Hi'].
      * eexists. rewrite lookup_alter_eq, He0. split; [done|]. by cbn.
      * destruct (I2 eq_refl i Hi') as (e & He & Hz & Ht). destruct (decide (i = id)) as [->|Hne].
        -- eexists. rewrite lookup_alter_eq, He. split; [done|]. by cbn.
        -- exists e. by rewrite lookup_alter_ne.
    + intros _ k Hk. split; [|by apply Hever]. apply lookup_delete_None.
      destruct (decide (key = k)) as [|Hne]; [by left|right]. apply elem_of_union in Hk as [Hk|Hk]; [set_solver|].
      by apply (I3 eq_refl).
    + intros i e He. apply alter_entry in He as [(-> & e1 & He & _)|[_ He]]; by eapply I4.
    + done.
  - constructor; cbn [fst snd pc_plans pc_heap pc_closed pc_closing pc_retired pc_disabled pc_next]; try done.
    intros _ k Hk. split; [|by apply Hever]. apply elem_of_union in Hk as [Hk|Hk]; [|by apply (I3 eq_refl)].
    apply elem_of_singleton in Hk as ->. done.
Qed.

Lemma cache_inv_release c ever id failed e :
  cache_inv (c, ever) -> pc_heap c !! id = Some e -> (0 < pe_refs e)%nat ->
  cache_inv (releasePlan id failed c, ever).
Proof.
  intros [I1 I2 I3 I4 I5] He Hpos. cbn [fst snd] in *. unfold releasePlan. rewrite He.
  set (e' := mkPlanEntry _ _ _).
  assert (Hsub : forall k i, (if pe_retired e' && bool_decide (pc_plans c !! pe_key e' = Some id)
      then delete (pe_key e') (pc_plans c) else pc_plans c) !! k = Some i ->
      pc_plans c !! k = Some i /\ (i = id -> pe_retired e' = false)).
  { intros k i. destruct (pe_retired e' && _) eqn:Eb.
    - apply andb_true_iff in Eb as [_ Eb]. apply bool_decide_eq_true in Eb.
      intros [Hne Hk]%lookup_delete_Some. split; [done|]. intros ->.
      destruct (I1 _ _ Hk) as (ex & Hx & Hkx & _). rewrite He in Hx. injection Hx as <-. done.
    - intros Hk. split; [done|]. intros ->. destruct (I1 _ _ Hk) as (ex & Hx & Hkx & _).
      rewrite He in Hx. injection Hx as <-. apply andb_false_iff in Eb as [Eb|Eb]; [done|].
      apply bool_decide_eq_false in Eb. cbn [e' pe_key] in Eb. congruence. }
  constructor; cbn [fst snd pc_plans pc_heap pc_closed pc_closing pc_retired pc_disabled pc_next].
  - intros k i Hk. apply Hsub in Hk as [Hk Hr]. destruct (I1 _ _ Hk) as (ex & Hx & Hkx & Hrx).
    destruct (decide (i = id)) as [->|Hne].
    + rewrite He in Hx. injection Hx as <-. exists e'. rewrite lookup_insert_eq. by auto.
    + exists ex. by rewrite lookup_insert_ne.
  - intros Hc i Hi. unfold close_if in Hi.
    assert (Hi' : (i = id /\ pe_retired e' = true /\ pe_refs e' = 0%nat) \/ i ∈ pc_closing c).
    { revert Hi. destruct (pe_retired e' && (pe_refs e' =? 0)%nat) eqn:Eb; intros Hi; [|by right]. apply andb_true_iff in Eb as [? Eb].
      apply Nat.eqb_eq in Eb. set_solver. }
    destruct (decide (i = id)) as [->|Hne].
    + destruct Hi' as [(_ & Ht & Hz)|Hi']; [exists e'; by rewrite lookup_insert_eq|].
      destruct (I2 Hc id Hi') as (ex & Hx & Hz & _). rewrite He in Hx. injection Hx as <-. lia.
    + destruct Hi' as [(? & _)|Hi']; [done|]. destruct (I2 Hc i Hi') as (ex & Hx & ?). exists ex.
      by rewrite lookup_insert_ne.
  - intros Hc k Hk. destruct (I3 Hc k Hk) as [Hn Hor]. split; [|done].
    destruct (pe_retired e' && bool_decide _); [apply lookup_delete_None; by right | done].
  - intros i ex [[<- _]|[_ Hx]]%lookup_insert_Some; by eapply I4.
  - done.
Qed.

Lemma cache_inv_reachable s : reachable cache_init cache_step s -> cache_inv s.
Proof.
  apply reachable_invariant.
  - intros ? ->. constructor; cbn; [done | intros _ id; set_solver | intros _ k; set_solver | done |].
    rewrite size_empty. unfold maxRetiredPlans. lia.
  - intros s0 s' I Hstep. destruct Hstep as [c ever key id c' Ha|c ever key|c ever id failed e He Hp|c ever id Hi|c ever].
    + by eapply cache_inv_acquire.
    + by apply cache_inv_retire.
    + by eapply cache_inv_release.
    + destruct I as [I1 I2 I3 I4 I5]. constructor; cbn in *; try done.
      intros Hc i Hi'. apply (I2 Hc). set_solver.
    + destruct I as [I1 I2 I3 I4 I5]. constructor; cbn in *; try done.
      rewrite size_empty. unfold maxRetiredPlans. lia.
Qed.

(** retirement is final. In every reachable state of an open connector, a
    lease on a key that has ever been retired is on a fresh generation that is
    never cached, whatever the bounded history of markers has forgotten. *)
Theorem retired_plan_never_reused c ever key id c' :
  reachable cache_init cache_step (c, ever) ->
  key ∈ ever -> acquirePlan key c = Ok (id, c') ->
  pc_heap c !! id = None /\ pc_plans c' !! key = None /\
  exists e, pc_heap c' !! id = Some e /\ pe_retired e = true /\ pe_refs e = 1%nat.
Proof.
  intros Hr Hk Ha. apply cache_inv_reachable in Hr as [I1 I2 I3 I4 I5]. cbn [fst snd] in *.
  apply acquirePlan_cases in Ha as (Hc & _ & _ & _ & _ & Hcase).
  destruct (I3 Hc key Hk) as [Hn Hor]. destruct Hcase as [(Hp & _)|(_ & -> & _ & Hpl & Hh)]; [congruence|].
  assert (Hret : bool_decide (key ∈ pc_retired c) || pc_disabled c = true).
  { destruct Hor as [->|Hin]; [apply orb_true_r|]. by rewrite bool_decide_eq_true_2. }
  rewrite Hret in Hpl, Hh. rewrite Hpl, Hh, lookup_insert_eq. split_and!; [|done|by eexists].
  destruct (pc_heap c !! pc_next c) as [e|] eqn:E; [|done]. apply I4 in E. lia.
Qed.

(** while the connector is open, a generation is closed only after it has been
    retired and its last lease has been returned; cached generations are live and
    filed under their own key. *)
Theorem plan_closed_only_unleased c ever id :
  reachable cache_init cache_step (c, ever) ->
  pc_closed c = false -> id ∈ pc_closing c ->
  (exists e, pc_heap c !! id = Some e /\ pe_refs e = 0%nat /\ pe_retired e = true) /\
  forall k, pc_plans c !! k <> Some id.
Proof.
  intros Hr Hc Hi. apply cache_inv_reachable in Hr as [I1 I2 _ _ _]. cbn [fst snd] in *.
  destruct (I2 Hc id Hi) as (e & He & Hz & Ht). split; [by exists e|]. intros k Hk.
  destruct (I1 _ _ Hk) as (e' & He' & _ & Hf). congruence.
Qed.

(** Two acquisitions of one key around its retirement. *)
Definition sample_c1 : planCache :=
  match acquirePlan "k" empty_cache with Ok (_, c) => c | Err _ => empty_cache end.
Definition sample_c2 : planCache := RetirePlan "k" sample_c1.
Definition sample_c3 : planCache := releasePlan 1 false sample_c2.

Lemma sample_reachable_2 : reachable cache_init cache_step (sample_c2, {["k"]} ∪ ∅).
Proof.
  eapply reachable_step; [|apply cs_retire].
  exists (empty_cache, ∅). split; [reflexivity|]. eapply rtc_l; [|apply rtc_refl].
  by apply (cs_acquire empty_cache ∅ "k" 1).
Qed.

Lemma retired_plan_never_reused_witness :
  exists id c', acquirePlan "k" sample_c2 = Ok (id, c') /\ pc_heap sample_c2 !! id = None.
Proof.
  destruct (acquirePlan "k" sample_c2) as [[id c']|e] eqn:E; [|vm_compute in E; discriminate E].
  exists id, c'. split; [reflexivity|].
  refine (proj1 (retired_plan_never_reused sample_c2 _ "k" id c' sample_reachable_2 _ E)). set_solver.
Defined.

Lemma plan_closed_only_unleased_witness :
  1%positive ∈ pc_closing sample_c3 /\ forall k, pc_plans sample_c3 !! k <> Some 1%positive.
Proof.
  assert (Hin : 1%positive ∈ pc_closing sample_c3) by (apply (bool_decide_unpack _); vm_compute; reflexivity).
  split; [exact Hin|].
  refine (proj2 (plan_closed_only_unleased sample_c3 ({["k"]} ∪ ∅) 1 _ _ Hin)); [|reflexivity].
  eapply reachable_step; [apply sample_reachable_2|].
  eapply (cs_release sample_c2 _ 1 false); [vm_compute; reflexivity | simpl; lia].
Defined.
