(* ===== verification/Ports.v ===== *)
(** Operation snapshots, bindings and permits: core/mcp/ports/types.go,
    snapshot.go and permit.go.  JSON encoding with SHA-256 is a function argument
    (a digest); plans come from [Plan], policies from [Policy]. *)
From S2P Require Export Policy Plan.
From S2P Require Import Exec.
#[local] Open Scope Z_scope.

(** * Snapshots (types.go) *)
Record NodeInfo := mkInfo {
  niID : string;
  niAlias : list string;
  niAddress : string;
  niUser : string;
  niAuthType : string;
  niProxyJump : string;
  niTags : list string
}.

Record Target := mkTarget {
  Info : NodeInfo;
  tPlan : ConnectionPlan;
  Version : string;
  ExecutionVersion : string;
  tExecution : option ExecutionConfig;
  Disabled : bool
}.

Record OperationSnapshot := mkSnapshot {
  DomainID : string;
  Revision : string;
  PolicyRevision : string;
  sPolicy : Config;
  Targets : gmap string Target;
  Selectors : gmap string string
}.

(** The named phases, and any other text. *)
Inductive Phase := Inspect | Execute | TransferStart | Commit | Recovery | OtherPhase (name : string).
#[export] Instance Phase_eq_dec : EqDecision Phase.
Proof. solve_decision. Defined.

Record Binding := mkBinding {
  bDomainID : string;
  bScope : string;
  bTool : string;
  InputDigest : string;
  SnapshotDigest : string
}.
#[export] Instance Binding_eq_dec : EqDecision Binding.
Proof. solve_decision. Defined.

Inductive port_error :=
  | ErrStaleBinding
  | ErrNodeDisabled
  | ErrNotFound
  | ErrPurpose
  | ErrIdentity
  | ErrDomain
  | ErrPlan (e : plan_error)
  | ErrScope
  | ErrEncode
  | ErrContext
  | ErrDeadline
  | ErrOperationID.

(** * Resolution (snapshot.go) *)
Definition last_hop (p : ConnectionPlan) : option string := option_map cNodeID (last (Hops p)).

(** The node and its plan name the same identity. *)
Definition identity_agrees (id : string) (t : Target) : bool :=
  str_eq (niID (Info t)) id && bool_decide (last_hop (tPlan t) = Some id).

(** A canonical node id wins over an alias of the same name. *)
Definition canonical_id (s : OperationSnapshot) (selector : string) : string :=
  match Targets s !! selector with
  | Some _ => selector
  | None => default selector (Selectors s !! selector)
  end.

Definition Resolve (s : OperationSnapshot) (selector : string) : result port_error (string * Target) :=
  let id := canonical_id s selector in
  match Targets s !! id with
  | None => Err ErrNotFound
  | Some target =>
      reject Disabled target with ErrNodeDisabled;;
      reject negb (identity_agrees id target) with ErrIdentity;;
      Ok (id, target)
  end.

(** * Digests and bindings (snapshot.go) *)
Record targetIdentity := mkIdentity {
  tiKey : string; tiVersion : string; tiExecution : string; tiDisabled : bool
}.
#[export] Instance targetIdentity_eq_dec : EqDecision targetIdentity.
Proof. solve_decision. Defined.

(** What the digest of a snapshot covers. *)
Record snapshotIdentity := mkSnapIdentity {
  siDomain : string;
  siPolicyRevision : string;
  siPolicy : Config;
  siTargets : gmap string targetIdentity;
  siSelectors : gmap string string
}.

Definition without_audit (c : Config) : Config :=
  mkConfig (Enabled c) "" (ApprovalThreshold c) (BlockedPatterns c) (ProtectedPaths c)
    (NodeOverrides c) (NoElicitFallback c).

Section Digest.
(** SHA-256 over JSON of a plan and of a snapshot identity. *)
Variable plan_hash : ConnectionPlan -> string.
Variable view_hash : snapshotIdentity -> string.

Definition target_identity (id : string) (t : Target) : result port_error targetIdentity :=
  match ConnectionKey plan_hash (tPlan t) with
  | Err e => Err (ErrPlan e)
  | Ok key =>
      reject negb (identity_agrees id t) with ErrIdentity;;
      Ok (mkIdentity key (Version t) (ExecutionVersion t) (Disabled t))
  end.

(** The loop over the targets: the identities, or the error of one of them. *)
Fixpoint identities (l : list (string * Target)) : result port_error (list (string * targetIdentity)) :=
  match l with
  | [] => Ok []
  | (id, t) :: rest =>
      try ti := target_identity id t;;
      try tis := identities rest;;
      Ok ((id, ti) :: tis)
  end.

Definition snapshot_identity (s : OperationSnapshot) : result port_error snapshotIdentity :=
  reject str_eq (DomainID s) "" with ErrDomain;;
  try tis := identities (map_to_list (Targets s));;
  Ok (mkSnapIdentity (DomainID s) (PolicyRevision s) (without_audit (sPolicy s))
        (list_to_map tis) (Selectors s)).

Definition Digest (s : OperationSnapshot) : result port_error string :=
  try si := snapshot_identity s;; Ok (view_hash si).

(** [input_digest] is the digest of the request, [None] when it cannot be encoded. *)
Definition Bind (s : OperationSnapshot) (scope tool : string) (input_digest : option string)
    : result port_error Binding :=
  reject str_eq scope "" || (256 <? len scope) || str_eq tool "" with ErrScope;;
  try view := Digest s;;
  match input_digest with
  | None => Err ErrEncode
  | Some request => Ok (mkBinding (DomainID s) scope tool request view)
  end.

(** [hex.DecodeString] accepts and gives 32 bytes. *)
Definition is_hex (c : ascii) : bool := is_digit c || byte_in 97 102 c || byte_in 65 70 c.
Definition sha256_hex (s : string) : bool := (len s =? 64) && all_bytes is_hex s.

Definition Validate (b : Binding) (s : OperationSnapshot) : result port_error unit :=
  try current := Digest s;;
  reject negb (sha256_hex (InputDigest b)) || negb (str_eq (bDomainID b) (DomainID s)) ||
         negb (str_eq (SnapshotDigest b) current) || str_eq (bScope b) "" || str_eq (bTool b) ""
    with ErrStaleBinding;;
  Ok tt.

(** * Permits (permit.go) *)

(** A context sampled at a call: its error, and its deadline if it has one. *)
Record CallContext := mkCtx { cx_err : bool; cx_deadline : option Z }.

Record Admission := mkAdmission {
  aOperation : string;
  aPhase : Phase;
  aSnapshot : OperationSnapshot;
  aBind : Binding
}.

(** [NewPermit]: structure only; the admission is what the permit then shows. *)
Definition NewPermit (ctx : CallContext) (a : Admission) : result port_error Admission :=
  reject cx_err ctx with ErrContext;;
  reject bool_decide (cx_deadline ctx = None) with ErrDeadline;;
  reject str_eq (aOperation a) "" with ErrOperationID;;
  reject negb (slice_contains [Inspect; Execute; TransferStart; Commit; Recovery] (aPhase a)) with ErrPurpose;;
  try _ := Validate (aBind a) (aSnapshot a);;
  Ok a.

(** [WorkContext]: the deadline under which work may run. *)
Definition WorkContext (ctx permit_ctx : CallContext) (permit : Admission) (phases : list Phase)
    : result port_error Z :=
  reject cx_err ctx with ErrContext;;
  reject cx_err permit_ctx with ErrContext;;
  reject negb (slice_contains phases (aPhase permit)) with ErrPurpose;;
  match cx_deadline permit_ctx with
  | None => Err ErrDeadline
  | Some deadline =>
      try _ := Validate (aBind permit) (aSnapshot permit);;
      Ok (match cx_deadline ctx with Some d => Z.min d deadline | None => deadline end)
  end.

(** * Lemmas *)
Lemma Resolve_ok s selector id t :
  Resolve s selector = Ok (id, t) <->
  id = canonical_id s selector /\ Targets s !! id = Some t /\ Disabled t = false /\
  niID (Info t) = id /\ last_hop (tPlan t) = Some id.
Proof.
  unfold Resolve. destruct (Targets s !! canonical_id s selector) as [t'|] eqn:E.
  - rewrite !bind_reject_ok. unfold identity_agrees. rewrite negb_false_iff, andb_true_iff, str_eq_spec,
      bool_decide_eq_true. split.
    + intros (Hd & [Hi Hl] & Hok). apply Ok_inj in Hok. injection Hok as <- <-. done.
    + intros (-> & Ht & ? & ? & ?). rewrite E in Ht. injection Ht as <-. done.
  - split; [done|]. intros (-> & Ht & _). congruence.
Qed.

Lemma identities_spec l tis :
  identities l = Ok tis ->
  Forall2 (fun p q => q.1 = p.1 /\ target_identity p.1 p.2 = Ok q.2) l tis.
Proof.
  revert tis. induction l as [|[id t] l IH]; intros tis; simpl.
  - intros [= <-]. constructor.
  - intros H. apply result_bind_ok in H as (ti & Hti & H). apply result_bind_ok in H as (rest & Hr & H).
    apply Ok_inj in H. subst tis. constructor; [done|auto].
Qed.

(** The identity of every target of a digested snapshot. *)
Lemma snapshot_identity_lookup s si id t :
  snapshot_identity s = Ok si -> Targets s !! id = Some t ->
  exists ti, siTargets si !! id = Some ti /\ target_identity id t = Ok ti.
Proof.
  unfold snapshot_identity. intros H Ht. apply bind_reject_ok in H as [_ H].
  apply result_bind_ok in H as (tis & Htis & H). apply Ok_inj in H. subst si. cbn [siTargets].
  apply identities_spec in Htis. apply elem_of_map_to_list in Ht.
  assert (Hfst : tis.*1 = (map_to_list (Targets s)).*1).
  { clear Ht. induction Htis as [|p q ps qs [Hpq _] _ IH]; csimpl; congruence. }
  apply list_elem_of_lookup in Ht as [i Hi].
  destruct (Forall2_lookup_l _ _ _ _ _ Htis Hi) as ([id' ti] & Hi' & Hid & Hti). cbn [fst snd] in *. subst id'.
  exists ti. split; [|done]. apply elem_of_list_to_map_1.
  - rewrite Hfst. apply NoDup_fst_map_to_list.
  - by eapply list_elem_of_lookup_2.
Qed.

Lemma snapshot_identity_none s si id :
  snapshot_identity s = Ok si -> Targets s !! id = None -> siTargets si !! id = None.
Proof.
  unfold snapshot_identity. intros H Ht. apply bind_reject_ok in H as [_ H].
  apply result_bind_ok in H as (tis & Htis & H). apply Ok_inj in H. subst si. cbn [siTargets].
  apply identities_spec in Htis. apply not_elem_of_list_to_map_1.
  assert (Hfst : tis.*1 = (map_to_list (Targets s)).*1)
    by (induction Htis as [|p q ps qs [Hpq _] _ IH]; csimpl; congruence).
  rewrite Hfst. intros Hin. apply list_elem_of_fmap in Hin as ([k t] & -> & Hin).
  apply elem_of_map_to_list in Hin. simpl in Ht. congruence.
Qed.

(** ** Bindings pin the dependencies *)
Lemma target_identity_ok id t ti :
  target_identity id t = Ok ti <->
  ConnectionKey plan_hash (tPlan t) = Ok (tiKey ti) /\ identity_agrees id t = true /\
  tiVersion ti = Version t /\ tiExecution ti = ExecutionVersion t /\ tiDisabled ti = Disabled t.
Proof.
  unfold target_identity. destruct (ConnectionKey plan_hash (tPlan t)) as [k|e]; [|naive_solver].
  rewrite bind_reject_ok, negb_false_iff. destruct ti. simpl. naive_solver.
Qed.

Lemma Validate_ok b s :
  Validate b s = Ok tt -> exists si, snapshot_identity s = Ok si /\ SnapshotDigest b = view_hash si /\
    bDomainID b = DomainID s /\ sha256_hex (InputDigest b) = true /\ bScope b <> "" /\ bTool b <> "".
Proof.
  unfold Validate, Digest. intros H. apply result_bind_ok in H as (d & Hd & H).
  apply result_bind_ok in Hd as (si & Hsi & Hd). apply Ok_inj in Hd. subst d.
  apply bind_reject_ok in H as [H _]. str_facts. exists si. done.
Qed.

(** a binding that is valid for two snapshots pins their dependencies: unless
    the digests of the two collide, they have the same domain, policy (the audit
    path apart), selectors and nodes, and every node has the same connection key,
    versions and enablement. *)
Theorem Validate_pins b s1 s2 :
  Validate b s1 = Ok tt -> Validate b s2 = Ok tt ->
  (forall si1 si2, snapshot_identity s1 = Ok si1 -> snapshot_identity s2 = Ok si2 ->
     view_hash si1 = view_hash si2 -> si1 = si2) ->
  DomainID s1 = DomainID s2 /\ PolicyRevision s1 = PolicyRevision s2 /\
  without_audit (sPolicy s1) = without_audit (sPolicy s2) /\ Selectors s1 = Selectors s2 /\
  forall id, match Targets s1 !! id, Targets s2 !! id with
             | Some t1, Some t2 =>
                 ConnectionKey plan_hash (tPlan t1) = ConnectionKey plan_hash (tPlan t2) /\
                 Version t1 = Version t2 /\ ExecutionVersion t1 = ExecutionVersion t2 /\
                 Disabled t1 = Disabled t2
             | None, None => True
             | _, _ => False
             end.
Proof.
  intros H1 H2 Hcol. apply Validate_ok in H1 as (si1 & Hs1 & Hd1 & _). apply Validate_ok in H2 as (si2 & Hs2 & Hd2 & _).
  assert (si1 = si2) as <- by (apply (Hcol si1 si2); [done|done|congruence]). clear Hcol Hd1 Hd2.
  assert (Hf : forall s, snapshot_identity s = Ok si1 -> DomainID s = siDomain si1 /\
    PolicyRevision s = siPolicyRevision si1 /\ without_audit (sPolicy s) = siPolicy si1 /\ Selectors s = siSelectors si1).
  { unfold snapshot_identity. intros s H. apply bind_reject_ok in H as [_ H].
    apply result_bind_ok in H as (tis & _ & H). apply Ok_inj in H. by subst si1. }
  destruct (Hf s1 Hs1) as (-> & -> & -> & ->), (Hf s2 Hs2) as (-> & -> & -> & ->). clear Hf.
  split_and!; try done. intros id.
  destruct (Targets s1 !! id) as [t1|] eqn:E1, (Targets s2 !! id) as [t2|] eqn:E2; [| | |done].
  - destruct (snapshot_identity_lookup _ _ _ _ Hs1 E1) as (ti & Hl & Ht1).
    destruct (snapshot_identity_lookup _ _ _ _ Hs2 E2) as (ti' & Hl' & Ht2).
    rewrite Hl in Hl'. injection Hl' as <-.
    apply target_identity_ok in Ht1 as (? & _ & ? & ? & ?).
    apply target_identity_ok in Ht2 as (? & _ & ? & ? & ?). split_and!; congruence.
  - destruct (snapshot_identity_lookup _ _ _ _ Hs1 E1) as (ti & Hl & _).
    apply (snapshot_identity_none _ _ _ Hs2) in E2. congruence.
  - destruct (snapshot_identity_lookup _ _ _ _ Hs2 E2) as (ti & Hl & _).
    apply (snapshot_identity_none _ _ _ Hs1) in E1. congruence.
Qed.

(** work runs only inside its permit: the granted deadline is at most that of
    the permit and of the call, the permit's phase is one of those asked for, and
    its binding is valid for its snapshot. *)
Theorem WorkContext_within ctx permit_ctx permit phases d :
  WorkContext ctx permit_ctx permit phases = Ok d ->
  aPhase permit ∈ phases /\ Validate (aBind permit) (aSnapshot permit) = Ok tt /\
  (exists dp, cx_deadline permit_ctx = Some dp /\ d <= dp) /\
  (forall dc, cx_deadline ctx = Some dc -> d <= dc) /\
  cx_err ctx = false /\ cx_err permit_ctx = false.
Proof.
  unfold WorkContext. intros H. apply bind_reject_ok in H as [H1 H]. apply bind_reject_ok in H as [H2 H].
  apply bind_reject_ok in H as [H3 H]. apply negb_false_iff, slice_contains_spec in H3.
  destruct (cx_deadline permit_ctx) as [dp|]; [|done]. apply result_bind_ok in H as ([] & Hv & H).
  apply Ok_inj in H. split_and!; try done.
  - exists dp. split; [done|]. destruct (cx_deadline ctx); subst d; lia.
  - intros dc Hdc. rewrite Hdc in H. subst d. lia.
Qed.
End Digest.

Definition sample_info (id : string) : NodeInfo := mkInfo id [] "" "" "" "" [].
Definition sample_target (id : string) (disabled : bool) : Target :=
  mkTarget (sample_info id) (mkConnPlan "s" [sample_hop id "" 22]) "1" "1" None disabled.
Definition sample_snapshot (revision : string) : OperationSnapshot :=
  mkSnapshot "dom" revision "p1" sample_config {["a" := sample_target "a" false]} {["alias" := "a"]}.
Definition sample_plan_hash (p : ConnectionPlan) : string := join "," (map cNodeID (Hops p)).
Definition sample_view_hash (s : snapshotIdentity) : string := siPolicyRevision s.
Definition sample_binding : Binding :=
  mkBinding "dom" "scope" "tool" (String.concat "" (repeat "0123456789abcdef" 4)) "p1".

Lemma Validate_pins_witness :
  Validate sample_plan_hash sample_view_hash sample_binding (sample_snapshot "1") = Ok tt /\
  Selectors (sample_snapshot "1") = Selectors (sample_snapshot "2").
Proof.
  split; [vm_compute; reflexivity|].
  apply (Validate_pins sample_plan_hash sample_view_hash sample_binding (sample_snapshot "1") (sample_snapshot "2"));
    [vm_compute; reflexivity | vm_compute; reflexivity |].
  intros si1 si2 H1 H2 _.
  assert (He : snapshot_identity sample_plan_hash (sample_snapshot "1") =
               snapshot_identity sample_plan_hash (sample_snapshot "2")) by (vm_compute; reflexivity).
  rewrite H1, H2 in He. apply (Ok_inj _ _ He).
Defined.

Lemma WorkContext_within_witness :
  exists d, WorkContext sample_plan_hash sample_view_hash (mkCtx false (Some 90)) (mkCtx false (Some 50))
      (mkAdmission "op" Execute (sample_snapshot "1") sample_binding) [Inspect; Execute] = Ok d /\ d <= 90.
Proof.
  exists 50. split; [vm_compute; reflexivity|].
  refine (proj1 (proj2 (proj2 (proj2 (WorkContext_within sample_plan_hash sample_view_hash (mkCtx false (Some 90))
    (mkCtx false (Some 50)) (mkAdmission "op" Execute (sample_snapshot "1") sample_binding) [Inspect; Execute] 50 _)))) 90 _);
    vm_compute; reflexivity.
Defined.
