(* ===== verification/Inventory.v ===== *)
(** The inventory coordinator of core/mcp/state: immutable publication of node
    snapshots (change.go, update.go) and admission of operations against them
    (coordinator.go).

    The state is a record; every function under the coordinator's lock is one
    operation on it, and [inv_step] interleaves them.  The theorems show that
    dependency closure is the least one, that an operation admitted while a
    publication is pending sees only nodes that the publication does not change,
    and that no live permit depends on a deleted node. *)
From S2P Require Export Ports.
From S2P Require Import Exec.

(** * Errors *)
Inductive state_error :=
  | ErrUpdating
  | ErrConflict
  | ErrClosed
  | ErrPersistenceUnknown
  | ErrUpdateState
  | ErrIdentityReuse (id : string)
  | ErrCapacity
  | SPort (e : port_error)
  | SStale (e : state_error)
  | SContext
  | SDeadline
  | SLimit
  | SRevision
  | SConfig
  | SAlias (alias : string)
  | SHop (hop : string)
  | SDeletedJump (id hop : string)
  | SNoRetire
  | SActivation.

(** * Views (coordinator.go) *)
Definition hop_ids (t : Target) : list string := map cNodeID (Hops (tPlan t)).

(** A node that is missing, disabled, or behind a disabled hop. *)
Definition disabled (view : OperationSnapshot) (id : string) : bool :=
  match Targets view !! id with
  | None => true
  | Some t =>
      Disabled t ||
      existsb (fun h => match Targets view !! h with Some d => Disabled d | None => false end) (hop_ids t)
  end.

Definition dependencies (view : OperationSnapshot) : gset string :=
  ⋃ (map (fun p => {[p.1]} ∪ list_to_set (hop_ids p.2)) (map_to_list (Targets view))).

(** [OperationSnapshot.Resolve] with the errors of this package. *)
Definition resolve (s : OperationSnapshot) (selector : string) : result state_error (string * Target) :=
  match Resolve s selector with Ok r => Ok r | Err e => Err (SPort e) end.

Fixpoint select_into (source : OperationSnapshot) (selectors : list string)
    (targets : gmap string Target) (sels : gmap string string)
    : result state_error (gmap string Target * gmap string string) :=
  match selectors with
  | [] => Ok (targets, sels)
  | selector :: rest =>
      try r := resolve source selector;;
      reject disabled source r.1 with SPort ErrNodeDisabled;;
      select_into source rest (<[r.1 := r.2]> targets) (<[selector := r.1]> sels)
  end.

Definition selectView (source : OperationSnapshot) (selectors : list string)
    : result state_error OperationSnapshot :=
  try ts := select_into source selectors ∅ ∅;;
  Ok (mkSnapshot (DomainID source) (Revision source) (PolicyRevision source) (sPolicy source) ts.1 ts.2).

Definition selectorsFor (view : OperationSnapshot) : list string :=
  match (map_to_list (Selectors view)).*1 with
  | [] => (map_to_list (Targets view)).*1
  | l => l
  end.

(** * Publication changes (change.go) *)

(** [endpoint]: the fields that identify a shared hop. *)
Definition endpoint (cfg : ConnectionConfig) : ConnectionConfig :=
  mkConn (KeyRef cfg) (TrustVersion cfg) (cNodeID cfg) (Address cfg)
    (if (Port cfg =? 0)%Z then 22%Z else Port cfg) (User cfg) (AuthType cfg) (KeyPath cfg)
    (AuthUpdateToken cfg) (SudoMode cfg) (SudoUpdateToken cfg) "" "" false
    (PasswordPromptPattern cfg) (cExecution cfg) (cOptions cfg).

(** Go's [==] on the struct compares [Execution] and [Options] as pointers: an
    [address] gives the two pointers of a hop of a target's plan, nil as [None]. *)
Definition address : Type := option positive * option positive.
Definition same_endpoint_struct (a b : ConnectionConfig * address) : bool :=
  bool_decide (mkConn (KeyRef a.1) (TrustVersion a.1) (cNodeID a.1) (Address a.1) (Port a.1) (User a.1)
                 (AuthType a.1) (KeyPath a.1) (AuthUpdateToken a.1) (SudoMode a.1) (SudoUpdateToken a.1)
                 (ProxyJump a.1) (OriginalProxyJump a.1) (HasOriginalProxyJump a.1)
                 (PasswordPromptPattern a.1) None None =
               mkConn (KeyRef b.1) (TrustVersion b.1) (cNodeID b.1) (Address b.1) (Port b.1) (User b.1)
                 (AuthType b.1) (KeyPath b.1) (AuthUpdateToken b.1) (SudoMode b.1) (SudoUpdateToken b.1)
                 (ProxyJump b.1) (OriginalProxyJump b.1) (HasOriginalProxyJump b.1)
                 (PasswordPromptPattern b.1) None None) &&
  bool_decide (a.2 = b.2).

(** The loop of [validateSnapshot] over all hops with their addresses. *)
Fixpoint check_hops (seen : gmap string (ConnectionConfig * address))
    (hops : list (ConnectionConfig * address)) : result state_error unit :=
  match hops with
  | [] => Ok tt
  | (hop, a) :: rest =>
      let identity := (endpoint hop, a) in
      reject match seen !! cNodeID hop with
             | Some previous => negb (same_endpoint_struct previous identity)
             | None => false
             end with SHop (cNodeID hop);;
      check_hops (<[cNodeID hop := identity]> seen) rest
  end.

Definition plan_hops (addr : string -> nat -> address) (id : string) (t : Target)
    : list (ConnectionConfig * address) :=
  imap (fun i h => (h, addr id i)) (Hops (tPlan t)).

(** The loop over the aliases. *)
Fixpoint check_aliases (view : OperationSnapshot) (aliases : list (string * string))
    : result state_error unit :=
  match aliases with
  | [] => Ok tt
  | (alias, id) :: rest =>
      reject str_eq alias "" with SAlias alias;;
      reject bool_decide (Targets view !! id = None) with SAlias alias;;
      reject bool_decide (is_Some (Targets view !! alias)) && negb (str_eq alias id) with SAlias alias;;
      check_aliases view rest
  end.

Section Digests.
Variable plan_hash : ConnectionPlan -> string.
Variable view_hash : snapshotIdentity -> string.

Definition validateSnapshot (addr : string -> nat -> address) (view : OperationSnapshot)
    : result state_error unit :=
  reject str_eq (DomainID view) "" || str_eq (Revision view) "" with SRevision;;
  reject negb (is_ok (ValidateConfig (Some (sPolicy view)))) with SConfig;;
  reject negb (is_ok (Digest plan_hash view_hash view)) with SConfig;;
  try _ := check_aliases view (map_to_list (Selectors view));;
  check_hops ∅ (flat_map (fun p => plan_hops addr p.1 p.2) (map_to_list (Targets view))).

Record Change := mkChange {
  Affected : gset string;
  Revoke : gset string;
  Removed : list string;
  Retired : list ConnectionPlan;
  ch_policy : bool
}.

(** [reflect.DeepEqual] of two policies without their audit paths; overrides are
    Go maps. (Nil and empty slices are not told apart here.) *)
Definition same_policy (a b : Config) : bool :=
  bool_decide (Enabled a = Enabled b) && str_eq (ApprovalThreshold a) (ApprovalThreshold b) &&
  bool_decide (BlockedPatterns a = BlockedPatterns b) && bool_decide (ProtectedPaths a = ProtectedPaths b) &&
  bool_decide ((list_to_map (NodeOverrides a) : gmap string string) = list_to_map (NodeOverrides b)) &&
  str_eq (NoElicitFallback a) (NoElicitFallback b).

Definition authenticationChanged (old next : ConnectionPlan) : bool :=
  let previous : gmap string ConnectionConfig :=
    fold_left (fun m hop => <[cNodeID hop := hop]> m) (Hops old) ∅ in
  existsb (fun hop =>
    match previous !! cNodeID hop with
    | None => false
    | Some before =>
        negb (str_eq (AuthType before) (AuthType hop)) ||
        negb (str_eq (AuthUpdateToken before) (AuthUpdateToken hop)) ||
        negb (str_eq (SudoUpdateToken before) (SudoUpdateToken hop)) ||
        negb (str_eq (KeyRef before) (KeyRef hop)) || negb (str_eq (KeyPath before) (KeyPath hop)) ||
        negb (str_eq (TrustVersion before) (TrustVersion hop))
    end) (Hops next).

Definition connection_key (p : ConnectionPlan) : result state_error string :=
  match ConnectionKey plan_hash p with Ok k => Ok k | Err e => Err (SPort (ErrPlan e)) end.

(** [(change *Change) compareTarget] *)
Definition compareTarget (c : Change) (id : string) (target : Target) (updated : option Target)
    : result state_error Change :=
  match updated with
  | None =>
      Ok (mkChange ({[id]} ∪ Affected c) ({[id]} ∪ Revoke c) (Removed c ++ [id])
            (Retired c ++ [tPlan target]) (ch_policy c))
  | Some updated =>
      try oldKey := connection_key (tPlan target);;
      try newKey := connection_key (tPlan updated);;
      let c := if negb (str_eq oldKey newKey) || negb (str_eq (Version target) (Version updated)) ||
                  negb (str_eq (ExecutionVersion target) (ExecutionVersion updated)) ||
                  negb (bool_decide (Disabled target = Disabled updated))
               then mkChange ({[id]} ∪ Affected c) (Revoke c) (Removed c) (Retired c ++ [tPlan target]) (ch_policy c)
               else c in
      Ok (if Disabled updated || authenticationChanged (tPlan target) (tPlan updated)
          then mkChange (Affected c) ({[id]} ∪ Revoke c) (Removed c) (Retired c) (ch_policy c)
          else c)
  end.

Fixpoint compare_targets (c : Change) (old : list (string * Target)) (next : gmap string Target)
    : result state_error Change :=
  match old with
  | [] => Ok c
  | (id, target) :: rest => try c' := compareTarget c id target (next !! id);; compare_targets c' rest next
  end.

(** One pass of [expandAffected] over the targets in one iteration order. *)
Definition expand_once (targets : list (string * Target)) (set : gset string) : gset string :=
  fold_left (fun s p =>
    if bool_decide (p.1 ∈ s) then s
    else if existsb (fun h => bool_decide (h ∈ s)) (hop_ids p.2) then {[p.1]} ∪ s else s) targets set.

(** Passes until nothing changes; each pass has its own iteration order. *)
Fixpoint expand_rounds (fuel : nat) (order : nat -> list (string * Target)) (set : gset string) : gset string :=
  match fuel with
  | O => set
  | S f =>
      let set' := expand_once (order fuel) set in
      if bool_decide (set' = set) then set else expand_rounds f order set'
  end.

Definition expandAffected (view : OperationSnapshot) (set : gset string) : gset string :=
  expand_rounds (S (size (Targets view))) (fun _ => map_to_list (Targets view)) set.

(** The nodes on both sides of an alias that moved. *)
Definition moved_aliases (old next : gmap string string) : gset string :=
  ⋃ (map (fun alias =>
       if bool_decide (default "" (old !! alias) = default "" (next !! alias)) then ∅
       else list_to_set (List.filter (fun id => negb (str_eq id "")) [default "" (old !! alias); default "" (next !! alias)]))
     (elements (dom old ∪ dom next))).

(** An enabled node that depends on a removed jump. *)
Definition deleted_jump (removed : list string) (targets : list (string * Target)) : option (string * string) :=
  head (flat_map (fun p => if Disabled p.2 then []
                           else map (pair p.1) (List.filter (slice_contains removed) (hop_ids p.2))) targets).

Definition calculateChange (old next : OperationSnapshot) : result state_error Change :=
  let policy := negb (str_eq (PolicyRevision old) (PolicyRevision next)) ||
                negb (same_policy (sPolicy old) (sPolicy next)) in
  try c := compare_targets (mkChange ∅ ∅ [] [] policy) (map_to_list (Targets old)) (Targets next);;
  let connections := Affected c ∪ (dom (Targets next) ∖ dom (Targets old)) in
  let affected := connections ∪ moved_aliases (Selectors old) (Selectors next) in
  match deleted_jump (Removed c) (map_to_list (Targets next)) with
  | Some (id, hop) => Err (SDeletedJump id hop)
  | None =>
      let both s := expandAffected next (expandAffected old s) in
      let connections := both connections in
      let retired := fold_left (fun plans p =>
        if bool_decide (p.1 ∈ connections) && negb (slice_contains plans (tPlan p.2))
        then plans ++ [tPlan p.2] else plans) (map_to_list (Targets old)) (Retired c) in
      Ok (mkChange (both affected) (both (Revoke c)) (Removed c) retired (ch_policy c))
  end.

(** * The coordinator *)
Inductive updatePhase := prepared | persisting | committed | publishing | publicationFailed | finished.
#[export] Instance updatePhase_eq_dec : EqDecision updatePhase.
Proof. solve_decision. Defined.

(** [u_stops] is the local [cancel] of the one [Publish] call that is under way. *)
Record Update := mkUpdate {
  u_next : OperationSnapshot;
  u_change : Change;
  u_phase : updatePhase;
  u_published : bool;
  u_stops : list positive
}.

Record registration := mkReg {
  rg_operation : string;
  rg_binding : Binding;
  rg_dependencies : gset string;
  rg_phase : Phase;
  rg_cancelled : bool
}.

(** Updates and registrations are pointers: [co_updates] and [co_regs] are their
    heap; [co_token] says that the update channel holds its token. *)
Record Coordinator := mkCoord {
  co_view : OperationSnapshot;
  co_closed : bool;
  co_token : bool;
  co_pending : option positive;
  co_updates : gmap positive Update;
  co_active : gset positive;
  co_regs : gmap positive registration;
  co_deleted : gset string;
  co_maxActive : Z;
  co_next : positive
}.

Definition New (addr : string -> nat -> address) (initial : OperationSnapshot) (maxActive : Z)
    : result state_error Coordinator :=
  try _ := validateSnapshot addr initial;;
  let maxActive := if (maxActive =? 0)%Z then 1024%Z else maxActive in
  reject (maxActive <? 1)%Z with SLimit;;
  Ok (mkCoord initial false false None ∅ ∅ ∅ ∅ maxActive 1).

Definition pending_change (c : Coordinator) : option Change :=
  match co_pending c with
  | Some u => option_map u_change (co_updates c !! u)
  | None => None
  end.

Definition blockedLocked (c : Coordinator) (view : OperationSnapshot) : bool :=
  match pending_change c with
  | None => false
  | Some ch => if ch_policy ch then true
               else existsb (fun id => bool_decide (id ∈ Affected ch)) (elements (dependencies view))
  end.

(** [Coordinator.Resolve] *)
Definition co_Resolve (ctx_err : bool) (selectors : list string) (c : Coordinator)
    : result state_error OperationSnapshot :=
  reject ctx_err with SContext;;
  reject co_closed c with ErrClosed;;
  try view := selectView (co_view c) selectors;;
  reject blockedLocked c view with ErrUpdating;;
  Ok view.

(** [List]: the enabled nodes with the tag, in the order of their ids. *)
Fixpoint insert_by_id (n : NodeInfo) (l : list NodeInfo) : list NodeInfo :=
  match l with
  | [] => [n]
  | m :: rest => match String.compare (niID n) (niID m) with
                 | Gt => m :: insert_by_id n rest
                 | _ => n :: l
                 end
  end.
Definition co_List (ctx_err : bool) (tag : string) (c : Coordinator) : result state_error (list NodeInfo) :=
  reject ctx_err with SContext;;
  reject co_closed c with ErrClosed;;
  reject bool_decide (co_pending c <> None) with ErrUpdating;;
  Ok (foldr insert_by_id []
       (map (fun p => Info p.2)
         (List.filter (fun p => negb (disabled (co_view c) p.1) &&
                                (str_eq tag "" || one_of tag (niTags (Info p.2))))
            (map_to_list (Targets (co_view c)))))).

(** ** Admission *)

(** A permit handed back for a commit: the registration behind its context (if
    the context comes from this coordinator), what it reports, whether its
    context is the registered one and whether that has ended. *)
Record previousPermit := mkPrevious {
  pp_entry : option positive;
  pp_phase : Phase;
  pp_binding : Binding;
  pp_same_context : bool;
  pp_expired : bool
}.

Definition previousLocked (c : Coordinator) (a : Admission) (previous : option previousPermit)
    : result state_error (option positive) :=
  match previous with
  | None => Ok None
  | Some p =>
      reject negb (bool_decide (aPhase a = Commit)) || negb (bool_decide (pp_phase p = TransferStart))
        with SPort ErrPurpose;;
      match pp_entry p with
      | None => Err (SPort ErrPurpose)
      | Some id =>
          match co_regs c !! id with
          | None => Err (SPort ErrPurpose)
          | Some entry =>
              reject negb (bool_decide (id ∈ co_active c)) || negb (pp_same_context p) with SPort ErrPurpose;;
              reject rg_cancelled entry || pp_expired p with SContext;;
              reject negb (bool_decide (rg_phase entry = TransferStart)) ||
                     negb (str_eq (rg_operation entry) (aOperation a)) ||
                     negb (bool_decide (rg_binding entry = aBind a)) ||
                     negb (bool_decide (pp_binding p = aBind a)) with SPort ErrStaleBinding;;
              Ok (Some id)
          end
      end
  end.

Definition validate_binding (b : Binding) (s : OperationSnapshot) : result state_error unit :=
  match Validate plan_hash view_hash b s with Ok u => Ok u | Err e => Err (SPort e) end.

(** [entry.cancel()] and the removal from the active set. *)
Definition cancel_reg (id : positive) (regs : gmap positive registration) : gmap positive registration :=
  alter (fun r => mkReg (rg_operation r) (rg_binding r) (rg_dependencies r) (rg_phase r) true) id regs.
Definition release (id : positive) (c : Coordinator) : Coordinator :=
  mkCoord (co_view c) (co_closed c) (co_token c) (co_pending c) (co_updates c) (co_active c ∖ {[id]})
    (cancel_reg id (co_regs c)) (co_deleted c) (co_maxActive c) (co_next c).

(** [enterLocked]: the new registration and the state that holds it. *)
Definition enterLocked (ctx : CallContext) (a : Admission) (previous : option previousPermit) (c : Coordinator)
    : result state_error (positive * option positive * Coordinator) :=
  reject co_closed c with ErrClosed;;
  try prev := previousLocked c a previous;;
  reject bool_decide (prev = None) && (co_maxActive c <=? Z.of_nat (size (co_active c)))%Z with ErrCapacity;;
  try current := match selectView (co_view c) (selectorsFor (aSnapshot a)) with
                 | Ok v => Ok v
                 | Err e => Err (SStale e)
                 end;;
  reject blockedLocked c current with ErrUpdating;;
  try _ := validate_binding (aBind a) current;;
  reject existsb (fun p => disabled (co_view c) p.1) (map_to_list (Targets current)) with SPort ErrNodeDisabled;;
  try _ := match NewPermit plan_hash view_hash ctx a with Ok _ => Ok tt | Err e => Err (SPort e) end;;
  let id := co_next c in
  let active := match prev with Some p => co_active c ∖ {[p]} | None => co_active c end in
  Ok (id, prev,
      mkCoord (co_view c) (co_closed c) (co_token c) (co_pending c) (co_updates c) ({[id]} ∪ active)
        (<[id := mkReg (aOperation a) (aBind a) (dependencies current) (aPhase a) false]> (co_regs c))
        (co_deleted c) (co_maxActive c) (Pos.succ id)).

Definition Enter (ctx : CallContext) (a : Admission) (previous : option previousPermit) (c : Coordinator)
    : result state_error (positive * Coordinator) :=
  reject cx_err ctx with SContext;;
  try _ := validate_binding (aBind a) (aSnapshot a);;
  try r := enterLocked ctx a previous c;;
  let '(id, prev, c') := r in
  Ok (id, match prev with Some p => release p c' | None => c' end).

(** [Close]: no more admissions, every registration released. *)
Definition Close (c : Coordinator) : Coordinator :=
  if co_closed c then c
  else
    let c' := mkCoord (co_view c) true (co_token c) (co_pending c) (co_updates c) (co_active c)
                (co_regs c) (co_deleted c) (co_maxActive c) (co_next c) in
    fold_right release c' (elements (co_active c)).
(** ** Updates (update.go) *)
Definition deleted_conflict (deleted : gset string) (p : string * Target) : option string :=
  if bool_decide (p.1 ∈ deleted) then Some p.1
  else if Disabled p.2 then None
  else List.find (fun h => bool_decide (h ∈ deleted)) (hop_ids p.2).

(** [validateRetainedIdentities] *)
Definition validateRetainedIdentities (deleted : gset string) (next : OperationSnapshot)
    : result state_error unit :=
  match omap (deleted_conflict deleted) (map_to_list (Targets next)) with
  | [] => Ok tt
  | id :: _ => Err (ErrIdentityReuse id)
  end.

(** The coordinator with the update [u] changed to [up]. *)
Definition set_update (u : positive) (up : Update) (c : Coordinator) : Coordinator :=
  mkCoord (co_view c) (co_closed c) (co_token c) (co_pending c) (<[u := up]> (co_updates c)) (co_active c)
    (co_regs c) (co_deleted c) (co_maxActive c) (co_next c).
Definition with_phase (ph : updatePhase) (up : Update) : Update :=
  mkUpdate (u_next up) (u_change up) ph (u_published up) (u_stops up).

(** [BeginUpdate].  The candidate is computed on a copy of the view; the view
    only changes under the update token, so the whole call is one step.  With the
    token taken the call waits, and ends with its context. *)
Definition BeginUpdate (addr : string -> nat -> address) (ctx : CallContext) (expected : string)
    (next : OperationSnapshot) (c : Coordinator) : result state_error (positive * Coordinator) :=
  reject cx_err ctx with SContext;;
  reject bool_decide (cx_deadline ctx = None) with SDeadline;;
  try _ := validateSnapshot addr next;;
  reject negb (str_eq (DomainID next) (DomainID (co_view c))) || str_eq (Revision next) expected with ErrConflict;;
  reject co_closed c with ErrClosed;;
  reject co_token c with SContext;;
  reject negb (str_eq (Revision (co_view c)) expected) with ErrConflict;;
  try change := calculateChange (co_view c) next;;
  try _ := validateRetainedIdentities (co_deleted c) next;;
  let u := co_next c in
  Ok (u, mkCoord (co_view c) (co_closed c) true (Some u)
           (<[u := mkUpdate next change prepared false []]> (co_updates c)) (co_active c) (co_regs c)
           (co_deleted c) (co_maxActive c) (Pos.succ u)).

(** [validLocked], with the update it is about. *)
Definition validLocked (u : positive) (c : Coordinator) : result state_error Update :=
  reject co_closed c with ErrClosed;;
  reject negb (bool_decide (co_pending c = Some u)) with ErrUpdateState;;
  match co_updates c !! u with
  | None => Err ErrUpdateState
  | Some up => reject bool_decide (u_phase up = finished) with ErrUpdateState;; Ok up
  end.

Definition BeginPersistence (u : positive) (c : Coordinator) : result state_error Coordinator :=
  try up := validLocked u c;;
  reject negb (bool_decide (u_phase up = prepared)) with ErrUpdateState;;
  Ok (set_update u (with_phase persisting up) c).

Definition ConfirmCommit (u : positive) (c : Coordinator) : result state_error Coordinator :=
  try up := validLocked u c;;
  reject negb (bool_decide (u_phase up = prepared)) && negb (bool_decide (u_phase up = persisting)) with ErrUpdateState;;
  Ok (set_update u (with_phase committed up) c).

(** [finishLocked] *)
Definition finishLocked (u : positive) (up : Update) (c : Coordinator) : Coordinator :=
  mkCoord (co_view c) (co_closed c) false None (<[u := with_phase finished up]> (co_updates c)) (co_active c)
    (co_regs c) (co_deleted c) (co_maxActive c) (co_next c).

Definition Abort_ (u : positive) (c : Coordinator) : result state_error Coordinator :=
  try up := validLocked u c;;
  reject negb (bool_decide (u_phase up = prepared)) with ErrPersistenceUnknown;;
  Ok (finishLocked u up c).

Definition ConfirmRollback (u : positive) (c : Coordinator) : result state_error Coordinator :=
  try up := validLocked u c;;
  reject negb (bool_decide (u_phase up = prepared)) && negb (bool_decide (u_phase up = persisting))
    with ErrPersistenceUnknown;;
  Ok (finishLocked u up c).

(** [(u *Update) revokes] *)
Definition revokes (ch : Change) (entry : registration) : bool :=
  ch_policy ch || existsb (fun id => bool_decide (id ∈ Revoke ch)) (elements (rg_dependencies entry)).

(** The registrations that a publication ends. *)
Definition to_stop (ch : Change) (c : Coordinator) : list positive :=
  List.filter (fun id => match co_regs c !! id with
                         | Some entry => negb (bool_decide (rg_phase entry = Commit)) && revokes ch entry
                         | None => false
                         end) (elements (co_active c)).

(** [Publish] up to its first unlock. [has_retire] says that a retirement callback
    was given. The plans handed to it are [Retired (u_change up)]. *)
Definition publish_begin (ctx : CallContext) (u : positive) (has_retire : bool) (c : Coordinator)
    : result state_error Coordinator :=
  reject cx_err ctx with SContext;;
  reject bool_decide (cx_deadline ctx = None) with SDeadline;;
  try up := validLocked u c;;
  reject negb (bool_decide (u_phase up = committed)) && negb (bool_decide (u_phase up = publicationFailed))
    with ErrUpdateState;;
  reject negb (bool_decide (Retired (u_change up) = [])) && negb has_retire with SNoRetire;;
  if u_published up then Ok (set_update u (with_phase publishing up) c)
  else
    Ok (mkCoord (u_next up) (co_closed c) (co_token c) (co_pending c)
          (<[u := mkUpdate (u_next up) (u_change up) publishing true (to_stop (u_change up) c)]> (co_updates c))
          (co_active c) (co_regs c) (co_deleted c ∪ list_to_set (Removed (u_change up)))
          (co_maxActive c) (co_next c)).

(** Between the locks: the collected [cancel] functions run. *)
Definition publish_stop (u : positive) (c : Coordinator) : Coordinator :=
  match co_updates c !! u with
  | None => c
  | Some up =>
      mkCoord (co_view c) (co_closed c) (co_token c) (co_pending c)
        (<[u := mkUpdate (u_next up) (u_change up) (u_phase up) (u_published up) []]> (co_updates c)) (co_active c)
        (foldr cancel_reg (co_regs c) (u_stops up)) (co_deleted c) (co_maxActive c) (co_next c)
  end.

(** After the retirement: [failed] says that the callback or the context failed. *)
Definition publish_end (u : positive) (failed : bool) (c : Coordinator) : option state_error * Coordinator :=
  match co_updates c !! u with
  | None => (None, c)
  | Some up =>
      if co_closed c then (Some ErrClosed, set_update u (with_phase publicationFailed up) c)
      else if failed then (Some SActivation, set_update u (with_phase publicationFailed up) c)
      else (None, finishLocked u up c)
  end.
End Digests.

(** * Steps *)
Section Steps.
Variable plan_hash : ConnectionPlan -> string.
Variable view_hash : snapshotIdentity -> string.

(** Every call of the coordinator as a step; a registration ends at any time
    ([co_expire], its context is done) and leaves the active set ([co_release]). *)
Inductive co_step (c : Coordinator) : Coordinator -> Prop :=
  | co_enter ctx a previous id c' :
      Enter plan_hash view_hash ctx a previous c = Ok (id, c') -> co_step c c'
  | co_release id : co_step c (release id c)
  | co_expire id :
      co_step c (mkCoord (co_view c) (co_closed c) (co_token c) (co_pending c) (co_updates c) (co_active c)
                   (cancel_reg id (co_regs c)) (co_deleted c) (co_maxActive c) (co_next c))
  | co_begin addr ctx expected next u c' :
      BeginUpdate plan_hash view_hash addr ctx expected next c = Ok (u, c') -> co_step c c'
  | co_persist u c' : BeginPersistence u c = Ok c' -> co_step c c'
  | co_commit u c' : ConfirmCommit u c = Ok c' -> co_step c c'
  | co_abort u c' : Abort_ u c = Ok c' -> co_step c c'
  | co_rollback u c' : ConfirmRollback u c = Ok c' -> co_step c c'
  | co_publish ctx u has_retire c' : publish_begin ctx u has_retire c = Ok c' -> co_step c c'
  | co_stop u : co_step c (publish_stop u c)
  | co_publish_end u failed up :
      co_updates c !! u = Some up -> u_phase up = publishing -> u_stops up = [] ->
      co_step c (publish_end u failed c).2
  | co_close : co_step c (Close c).

Definition co_init (c : Coordinator) : Prop :=
  exists addr initial maxActive, New plan_hash view_hash addr initial maxActive = Ok c.

(** The states that calls, ends of operations and retirements lead to. *)
Definition coordinator_reachable (c : Coordinator) : Prop := reachable co_init co_step c.
End Steps.

(** * Lemmas: dependency closure *)

(** [reaches targets set id]: [id] is in [set], or one of its hops is reached. *)
Inductive reaches (targets : gmap string Target) (set : gset string) : string -> Prop :=
  | reaches_here id : id ∈ set -> reaches targets set id
  | reaches_hop id t hop :
      targets !! id = Some t -> hop ∈ hop_ids t -> reaches targets set hop -> reaches targets set id.

(** The hops of a target meet a set. *)
Definition touches (t : Target) (set : gset string) : bool :=
  existsb (fun h => bool_decide (h ∈ set)) (hop_ids t).
Lemma touches_spec t set : touches t set = true <-> exists h, h ∈ hop_ids t /\ h ∈ set.
Proof.
  unfold touches. rewrite existsb_exists. setoid_rewrite bool_decide_eq_true.
  setoid_rewrite <- list_elem_of_In. done.
Qed.

Section Expand.
Variable targets : gmap string Target.

Definition expand_step (s : gset string) (p : string * Target) : gset string :=
  if bool_decide (p.1 ∈ s) then s else if touches p.2 s then {[p.1]} ∪ s else s.
Lemma expand_once_fold l s : expand_once l s = fold_left expand_step l s.
Proof. reflexivity. Qed.

Lemma expand_step_sub s p : s ⊆ expand_step s p.
Proof. unfold expand_step. destruct (bool_decide _); [done|]. destruct (touches _ _); set_solver. Qed.

Lemma expand_once_sub l s : s ⊆ expand_once l s.
Proof.
  rewrite expand_once_fold. revert s. induction l as [|p l IH]; intros s; simpl; [done|].
  etrans; [apply expand_step_sub|apply IH].
Qed.

Lemma expand_once_sound l set s :
  (forall p, p ∈ l -> targets !! p.1 = Some p.2) ->
  (forall id, id ∈ s -> reaches targets set id) ->
  forall id, id ∈ expand_once l s -> reaches targets set id.
Proof.
  rewrite expand_once_fold. revert s. induction l as [|p l IH]; intros s Hl Hs; simpl; [done|].
  apply IH; [intros q Hq; apply Hl; by right|].
  intros id Hid. unfold expand_step in Hid. destruct (bool_decide _); [auto|].
  destruct (touches p.2 s) eqn:E; [|auto]. apply touches_spec in E as (h & Hh & Hhs).
  apply elem_of_union in Hid as [->%elem_of_singleton|Hid]; [|auto].
  eapply reaches_hop; [apply Hl; by left | exact Hh | auto].
Qed.

(** A pass that adds nothing has found the closure. *)
Lemma expand_once_fixed l s :
  expand_once l s = s -> forall p, p ∈ l -> touches p.2 s = true -> p.1 ∈ s.
Proof.
  rewrite expand_once_fold. revert s. induction l as [|q l IH]; intros s Heq p Hp Ht; [by apply not_elem_of_nil in Hp|].
  simpl in Heq.
  assert (Hq : expand_step s q = s).
  { apply set_eq. intros x. split; [|apply expand_step_sub].
    intros Hx. rewrite <- Heq. by apply (expand_once_sub l (expand_step s q)). }
  rewrite Hq in Heq. apply elem_of_cons in Hp as [->|Hp]; [|by apply IH].
  unfold expand_step in Hq. destruct (bool_decide _) eqn:E; [by apply bool_decide_eq_true in E|].
  rewrite Ht in Hq. rewrite <- Hq. set_solver.
Qed.

Lemma expand_once_dom l s : (forall p, p ∈ l -> p.1 ∈ dom targets) ->
  expand_once l s ⊆ s ∪ dom targets.
Proof.
  rewrite expand_once_fold. revert s. induction l as [|p l IH]; intros s Hl; simpl; [set_solver|].
  etrans; [apply IH; intros q Hq; apply Hl; by right|].
  unfold expand_step. pose proof (Hl p ltac:(by left)). destruct (bool_decide _); [done|].
  destruct (touches _ _); set_solver.
Qed.

(** Each pass has an iteration order of its own: any arrangement of the targets. *)
Variable order : nat -> list (string * Target).
Hypothesis order_perm : forall n, order n ≡ₚ map_to_list targets.

Lemma order_lookup n p : p ∈ order n <-> targets !! p.1 = Some p.2.
Proof. rewrite order_perm. destruct p as [i x]. apply elem_of_map_to_list. Qed.

Lemma expand_rounds_sound set fuel s :
  (forall id, id ∈ s -> reaches targets set id) ->
  forall id, id ∈ expand_rounds fuel order s -> reaches targets set id.
Proof.
  revert s. induction fuel as [|f IH]; intros s Hs; cbn [expand_rounds]; [done|].
  cbv zeta. destruct (bool_decide _); [done|]. apply IH. apply expand_once_sound; [|done].
  intros p. by rewrite order_lookup.
Qed.

Lemma expand_rounds_closed fuel s :
  (size (dom targets ∖ s) < fuel)%nat ->
  s ⊆ expand_rounds fuel order s /\
  forall id t, targets !! id = Some t -> touches t (expand_rounds fuel order s) = true ->
    id ∈ expand_rounds fuel order s.
Proof.
  revert s. induction fuel as [|f IH]; intros s Hf; [lia|]. cbn [expand_rounds]. cbv zeta.
  destruct (bool_decide (expand_once (order (S f)) s = s)) eqn:E; bool_facts.
  - split; [done|]. intros id t Ht. apply (expand_once_fixed _ _ E (id, t)). by apply order_lookup.
  - assert (Hsub := expand_once_sub (order (S f)) s).
    destruct (IH (expand_once (order (S f)) s)) as [Hsub' Hcl].
    + assert (Hdom : expand_once (order (S f)) s ⊆ s ∪ dom targets).
      { apply expand_once_dom. intros p Hp%order_lookup. by apply elem_of_dom_2 in Hp. }
      assert (Hnew : exists x, x ∈ expand_once (order (S f)) s /\ x ∉ s).
      { destruct (set_choose_or_empty (expand_once (order (S f)) s ∖ s)) as [[x Hx]|He].
        - exists x. by apply elem_of_difference in Hx.
        - exfalso. apply E, (anti_symm (⊆)); [|done]. intros x Hx. destruct (decide (x ∈ s)) as [|Hn]; [done|].
          assert (Hx' : x ∈ expand_once (order (S f)) s ∖ s) by (by apply elem_of_difference).
          rewrite He in Hx'. by apply elem_of_empty in Hx'. }
      destruct Hnew as (x & Hx & Hxs).
      assert (size (dom targets ∖ expand_once (order (S f)) s) < size (dom targets ∖ s))%nat; [|lia].
      apply subset_size. split; [intros y; rewrite !elem_of_difference; naive_solver|]. intros Hbad.
      assert (Hxd : x ∈ dom targets ∖ s).
      { apply elem_of_difference. split; [|done]. apply Hdom, elem_of_union in Hx. naive_solver. }
      by apply Hbad, elem_of_difference in Hxd as [_ ?].
    + split; [by etrans|done].
Qed.
End Expand.

Lemma expand_core (view : OperationSnapshot) (order : nat -> list (string * Target)) set id :
  (forall n, order n ≡ₚ map_to_list (Targets view)) ->
  id ∈ expand_rounds (S (size (Targets view))) order set <-> reaches (Targets view) set id.
Proof.
  intros Ho. destruct (expand_rounds_closed (Targets view) order Ho (S (size (Targets view))) set) as [Hsub Hcl].
  { rewrite <- (size_dom (D := gset string) (Targets view)). apply le_n_S, subseteq_size. set_solver. }
  split.
  - apply (expand_rounds_sound _ _ Ho). intros x Hx. by apply reaches_here.
  - induction 1 as [x Hx|x t h Ht Hh _ IH]; [by apply Hsub|].
    apply (Hcl x t Ht), touches_spec. eauto.
Qed.
Lemma expandAffected_spec view set id : id ∈ expandAffected view set <-> reaches (Targets view) set id.
Proof. unfold expandAffected. by apply (expand_core view (fun _ => map_to_list (Targets view))). Qed.

(** the dependency closure is the least one, whatever the iteration orders of
    Go's maps: with any orders and one pass more than there are targets, a node is
    in the result exactly when a chain of hops leads from it into the set. *)
Theorem expandAffected_closure (view : OperationSnapshot) (order : nat -> list (string * Target)) set id :
  (forall n, order n ≡ₚ map_to_list (Targets view)) ->
  (id ∈ expand_rounds (S (size (Targets view))) order set <-> reaches (Targets view) set id) /\
  (id ∈ expandAffected view set <-> reaches (Targets view) set id).
Proof. intros Ho. split; [by apply expand_core|apply expandAffected_spec]. Qed.

(** * Lemmas: what a change covers *)
Section Changes.
Variable plan_hash : ConnectionPlan -> string.

(** A target that the publication leaves as it was. *)
Definition stable (t t' : Target) : Prop :=
  ConnectionKey plan_hash (tPlan t) = ConnectionKey plan_hash (tPlan t') /\
  Version t = Version t' /\ ExecutionVersion t = ExecutionVersion t' /\ Disabled t = Disabled t'.

Lemma connection_key_ok p k : connection_key plan_hash p = Ok k <-> ConnectionKey plan_hash p = Ok k.
Proof. unfold connection_key. destruct (ConnectionKey plan_hash p); naive_solver. Qed.

Record change_le (c c' : Change) : Prop := {
  cl_affected : Affected c ⊆ Affected c';
  cl_revoke : Revoke c ⊆ Revoke c';
  cl_removed : Removed c ⊆ Removed c';
  cl_retired : Retired c ⊆ Retired c';
  cl_policy : ch_policy c' = ch_policy c
}.
#[export] Instance change_le_preorder : PreOrder change_le.
Proof.
  split; [by intros c; constructor|].
  intros a b c [] []. constructor; [by etrans|by etrans|by etrans|by etrans|congruence].
Qed.

(** One target of the old view is accounted for. *)
Record covers (c : Change) (id : string) (t : Target) (t' : option Target) : Prop := {
  cv_removed : t' = None -> id ∈ Affected c /\ id ∈ Revoke c /\ id ∈ Removed c /\ tPlan t ∈ Retired c;
  cv_changed : forall n, t' = Some n ->
    (stable t n \/ (id ∈ Affected c /\ tPlan t ∈ Retired c)) /\
    (Disabled n = true \/ authenticationChanged (tPlan t) (tPlan n) = true -> id ∈ Revoke c)
}.
Lemma covers_le c c' id t t' : change_le c c' -> covers c id t t' -> covers c' id t t'.
Proof.
  intros [H1 H2 H3 H4 _] [Hr Hc]. constructor.
  - intros Hn. destruct (Hr Hn) as (? & ? & ? & ?). auto.
  - intros n Hn. destruct (Hc n Hn) as [[? | [? ?]] ?]; split; auto.
Qed.

Lemma compareTarget_ok c id t t' c' :
  compareTarget plan_hash c id t t' = Ok c' ->
  change_le c c' /\ covers c' id t t' /\
  (forall x, x ∈ Removed c' -> x ∈ Removed c \/ (x = id /\ t' = None)).
Proof.
  destruct t' as [n|]; unfold compareTarget.
  - intros H. apply result_bind_ok in H as (k1 & Hk1 & H). apply result_bind_ok in H as (k2 & Hk2 & H).
    apply connection_key_ok in Hk1, Hk2. apply Ok_inj in H. revert H.
    destruct (negb (str_eq k1 k2) || negb (str_eq (Version t) (Version n)) ||
      negb (str_eq (ExecutionVersion t) (ExecutionVersion n)) ||
      negb (bool_decide (Disabled t = Disabled n))) eqn:Ec;
    destruct (Disabled n || authenticationChanged (tPlan t) (tPlan n)) eqn:Ed; cbv zeta; intros <-;
      (split; [constructor; simpl; set_solver|]); (split; [|simpl; tauto]).
    all: constructor; [done|]; intros n' [= <-]; split; simpl.
    all: try (right; split; set_solver).
    all: try (intros _; set_solver).
    all: try (apply orb_false_iff in Ed as [E1 E2]; rewrite E1, E2; naive_solver).
    all: left; str_facts; unfold stable; split_and!; congruence.
  - intros H. apply Ok_inj in H. subst c'. split; [constructor; simpl; set_solver|]. split.
    + constructor; [intros _; simpl; set_solver|done].
    + simpl. intros x Hx. apply elem_of_app in Hx as [Hx|Hx]; [by left|].
      apply list_elem_of_singleton in Hx. by right.
Qed.

Lemma compare_targets_ok old next : forall c c',
  compare_targets plan_hash c old next = Ok c' ->
  change_le c c' /\ (forall p, p ∈ old -> covers c' p.1 p.2 (next !! p.1)) /\
  (forall x, x ∈ Removed c' -> x ∈ Removed c \/ (x ∈ old.*1 /\ next !! x = None)).
Proof.
  induction old as [|[id t] old IH]; intros c c'; simpl.
  { intros [= <-]. split; [done|]. split; [intros p Hp; by apply not_elem_of_nil in Hp|auto]. }
  intros H. apply result_bind_ok in H as (c1 & H1 & H). apply compareTarget_ok in H1 as (Hle1 & Hcv1 & Hr1).
  apply IH in H as (Hle & Hcv & Hr). split; [by etrans|]. split.
  - intros p [->|Hp]%elem_of_cons; [by eapply covers_le|auto].
  - intros x Hx. destruct (Hr x Hx) as [Hx1|[Hx1 Hn]].
    + destruct (Hr1 x Hx1) as [?|[-> ?]]; [by left|right]. split; [by left|done].
    + right. split; [by right|done].
Qed.

Lemma retire_fold connections l plans :
  let r := fold_left (fun plans p =>
        if bool_decide (p.1 ∈ connections) && negb (slice_contains plans (tPlan p.2))
        then plans ++ [tPlan p.2] else plans) l plans in
  plans ⊆ r /\ forall p : string * Target, p ∈ l -> p.1 ∈ (connections : gset string) -> tPlan p.2 ∈ r.
Proof.
  revert plans. induction l as [|p l IH]; intros plans; simpl.
  { split; [done|]. intros p Hp. by apply not_elem_of_nil in Hp. }
  set (plans' := if _ && _ then _ else _). destruct (IH plans') as [Hsub Hin].
  assert (Hp : plans ⊆ plans' /\ (p.1 ∈ connections -> tPlan p.2 ∈ plans')).
  { subst plans'. destruct (bool_decide (p.1 ∈ connections)) eqn:E1; bool_facts; simpl; [|done].
    destruct (slice_contains plans (tPlan p.2)) eqn:E2; simpl; [split; [done|]|set_solver].
    intros _. by apply slice_contains_spec. }
  destruct Hp as [Hp1 Hp2]. split; [set_solver|]. intros q [->|Hq]%elem_of_cons Hc; [|by apply Hin].
  apply Hsub, Hp2, Hc.
Qed.

Lemma moved_aliases_spec old next alias id :
  default "" (old !! alias) <> default "" (next !! alias) -> id <> "" ->
  old !! alias = Some id \/ next !! alias = Some id -> id ∈ moved_aliases old next.
Proof.
  intros Hne Hid Hor. unfold moved_aliases. apply elem_of_union_list.
  eexists. split.
  - apply list_elem_of_fmap. exists alias. split; [reflexivity|]. apply elem_of_elements, elem_of_union.
    destruct Hor as [H|H]; apply elem_of_dom_2 in H; auto.
  - rewrite bool_decide_eq_false_2 by done. apply elem_of_list_to_set, list_elem_of_In, filter_In.
    split; [destruct Hor as [-> | ->]; simpl; auto|]. by apply negb_true_iff, str_eq_false.
Qed.

Record change_ok (old next : OperationSnapshot) (ch : Change) : Prop := {
  co_covers : forall id t, Targets old !! id = Some t -> covers ch id t (Targets next !! id);
  co_added : forall id t, Targets next !! id = Some t -> Targets old !! id = None -> id ∈ Affected ch;
  co_alias : forall alias id, id <> "" -> Selectors old !! alias = Some id \/ Selectors next !! alias = Some id ->
    default "" (Selectors old !! alias) <> default "" (Selectors next !! alias) -> id ∈ Affected ch;
  co_closed_next : forall id t, Targets next !! id = Some t -> touches t (Affected ch) = true -> id ∈ Affected ch;
  co_revoke_next : forall id t, Targets next !! id = Some t -> touches t (Revoke ch) = true -> id ∈ Revoke ch;
  co_removed : forall id, id ∈ Removed ch -> Targets next !! id = None /\ is_Some (Targets old !! id);
  co_jumps : forall id t hop, Targets next !! id = Some t -> Disabled t = false -> hop ∈ hop_ids t -> hop ∉ Removed ch;
  co_retired : forall id t hop th, Targets old !! id = Some t -> hop ∈ hop_ids t -> Targets old !! hop = Some th ->
    (forall n, Targets next !! hop = Some n -> ~ stable th n) -> tPlan t ∈ Retired ch;
  co_policy : ch_policy ch = negb (str_eq (PolicyRevision old) (PolicyRevision next)) ||
                             negb (same_policy (sPolicy old) (sPolicy next))
}.

Lemma deleted_jump_none removed targets :
  deleted_jump removed targets = None ->
  forall p hop, p ∈ targets -> Disabled p.2 = false -> hop ∈ hop_ids p.2 -> hop ∉ removed.
Proof.
  unfold deleted_jump. intros H p hop Hp Hd Hh Hr. apply head_None in H.
  assert (Hin : (p.1, hop) ∈ flat_map (fun p => if Disabled p.2 then []
      else map (pair p.1) (List.filter (slice_contains removed) (hop_ids p.2))) targets).
  { apply list_elem_of_In, in_flat_map. exists p. split; [by apply list_elem_of_In|]. rewrite Hd.
    apply in_map, filter_In. split; [by apply list_elem_of_In|by apply slice_contains_spec]. }
  rewrite H in Hin. by apply not_elem_of_nil in Hin.
Qed.

Lemma calculateChange_ok old next ch : calculateChange plan_hash old next = Ok ch -> change_ok old next ch.
Proof.
  unfold calculateChange. intros H. apply result_bind_ok in H as (c & Hc & H).
  apply compare_targets_ok in Hc as (Hle & Hcv & Hrem). cbv zeta in H.
  destruct (deleted_jump (Removed c) (map_to_list (Targets next))) as [[? ?]|] eqn:Ej; [done|].
  apply Ok_inj in H. subst ch.
  match goal with |- context [fold_left ?f ?l ?p] => destruct (retire_fold
    (expandAffected next (expandAffected old (Affected c ∪ (dom (Targets next) ∖ dom (Targets old))))) l p) as [Hret Hretc] end.
  set (conn := Affected c ∪ (dom (Targets next) ∖ dom (Targets old))) in *.
  set (aff := conn ∪ moved_aliases (Selectors old) (Selectors next)).
  set (retired := fold_left _ _ _) in *.
  assert (Hboth : forall s id, id ∈ s -> id ∈ expandAffected next (expandAffected old s)).
  { intros s id Hs. apply expandAffected_spec, reaches_here. by apply expandAffected_spec, reaches_here. }
  assert (Hclosed : forall s id t, Targets next !! id = Some t ->
    touches t (expandAffected next (expandAffected old s)) = true -> id ∈ expandAffected next (expandAffected old s)).
  { intros s id t Ht Hto. apply touches_spec in Hto as (h & Hh & Hin). apply expandAffected_spec in Hin.
    apply expandAffected_spec. by eapply reaches_hop. }
  constructor; simpl.
  - intros id t Ht. apply elem_of_map_to_list in Ht. specialize (Hcv _ Ht). simpl in Hcv.
    eapply covers_le; [|exact Hcv]. constructor; simpl; try done.
    + intros x Hx. apply Hboth. set_solver.
    + intros x Hx. by apply Hboth.
  - intros id t Ht Ho. apply Hboth, elem_of_union_l, elem_of_union_r, elem_of_difference.
    split; [by eapply elem_of_dom_2|by apply not_elem_of_dom].
  - intros alias id Hid Hor Hne. apply Hboth, elem_of_union_r. by apply (moved_aliases_spec _ _ alias).
  - apply Hclosed.
  - apply Hclosed.
  - intros id Hid. destruct (Hrem id Hid) as [Hx|[Hx Hn]]; [by apply not_elem_of_nil in Hx|].
    split; [done|]. apply list_elem_of_fmap in Hx as ([k t] & -> & Hx). apply elem_of_map_to_list in Hx. by exists t.
  - intros id t hop Ht Hd Hh. eapply (deleted_jump_none _ _ Ej (id, t)); [by apply elem_of_map_to_list|done|done].
  - intros id t hop th Ht Hh Hth Hns. apply (Hretc (id, t)); [by apply elem_of_map_to_list|]. simpl.
    apply expandAffected_spec, reaches_here, expandAffected_spec. eapply reaches_hop; [done|done|].
    apply reaches_here, elem_of_union_l. apply elem_of_map_to_list in Hth. destruct (Hcv _ Hth) as [Hr Hcc]. simpl in *.
    destruct (Targets next !! hop) as [n|] eqn:En; [|by apply Hr].
    destruct (Hcc n eq_refl) as [[Hst|[Haff _]] _]; [by destruct (Hns n)|done].
  - apply (cl_policy _ _ Hle).
Qed.
End Changes.

(** a publication changes nothing but what it lists as affected: every other
    node keeps its connection key, versions and enablement and depends on no
    affected node, no alias moves to or from it; every old plan through a hop that
    changed is handed over for retirement, and no enabled node keeps a removed hop. *)
Theorem calculateChange_sound plan_hash old next ch :
  calculateChange plan_hash old next = Ok ch ->
  (forall id t, Targets old !! id = Some t -> id ∉ Affected ch ->
     exists t', Targets next !! id = Some t' /\ stable plan_hash t t' /\
       forall h, h ∈ hop_ids t' -> h ∉ Affected ch) /\
  (forall id, Targets old !! id = None -> id ∉ Affected ch -> Targets next !! id = None) /\
  (forall alias id, id <> "" -> id ∉ Affected ch ->
     (Selectors old !! alias = Some id <-> Selectors next !! alias = Some id)) /\
  (forall id t hop th, Targets old !! id = Some t -> hop ∈ hop_ids t -> Targets old !! hop = Some th ->
     (forall n, Targets next !! hop = Some n -> ~ stable plan_hash th n) -> tPlan t ∈ Retired ch) /\
  (forall id t, Targets next !! id = Some t -> Disabled t = false -> forall h, h ∈ hop_ids t -> h ∉ Removed ch).
Proof.
  intros H. apply calculateChange_ok in H as [Hcv Hadd Hal Hcl _ _ Hj Hret _]. split_and!.
  - intros id t Ht Hn. destruct (Hcv id t Ht) as [Hr Hc].
    destruct (Targets next !! id) as [t'|] eqn:E; [|by destruct (Hr eq_refl)].
    exists t'. destruct (Hc t' eq_refl) as [[Hst|[? _]] _]; [|done]. split_and!; [done|done|].
    intros h Hh Hin. apply Hn, (Hcl id t' E), touches_spec. eauto.
  - intros id Ho Hn. destruct (Targets next !! id) as [t'|] eqn:E; [|done]. destruct Hn. by apply (Hadd id t').
  - intros alias id Hid Hn.
    assert (Heq : (Selectors old !! alias = Some id \/ Selectors next !! alias = Some id) ->
      default "" (Selectors old !! alias) = default "" (Selectors next !! alias)).
    { intros Hor. destruct (decide (default "" (Selectors old !! alias) = default "" (Selectors next !! alias)))
        as [|Hne]; [done|]. destruct Hn. by apply (Hal alias id). }
    split; intros He; specialize (Heq ltac:(eauto)); rewrite He in Heq; simpl in Heq;
      [destruct (Selectors next !! alias)|destruct (Selectors old !! alias)]; simpl in Heq; congruence.
  - exact Hret.
  - intros id t Ht Hd h. by apply (Hj id t).
Qed.

(** * Lemmas: views *)
Lemma select_into_ok source sels : forall ts ss ts' ss',
  select_into source sels ts ss = Ok (ts', ss') ->
  (forall id t, ts !! id = Some t -> Targets source !! id = Some t /\ disabled source id = false) ->
  (forall sel id, ss !! sel = Some id -> canonical_id source sel = id) ->
  (forall id t, ts' !! id = Some t -> Targets source !! id = Some t /\ disabled source id = false) /\
  (forall sel id, ss' !! sel = Some id -> canonical_id source sel = id).
Proof.
  induction sels as [|s sels IH]; intros ts ss ts' ss'; cbn [select_into].
  { intros [= <- <-]. auto. }
  intros H Hts Hss. apply result_bind_ok in H as ([id t] & Hr & H). apply bind_reject_ok in H as [Hd H].
  unfold resolve in Hr. destruct (Resolve source s) as [r|] eqn:Er; [|done]. apply Ok_inj in Hr. subst r.
  apply Resolve_ok in Er as (-> & Ht & _). apply IH in H; [done| |].
  - intros i x [[<- <-]|[_ Hx]]%lookup_insert_Some; [by split|auto].
  - intros sel i [[<- <-]|[_ Hx]]%lookup_insert_Some; [done|auto].
Qed.

Lemma selectView_ok source sels v :
  selectView source sels = Ok v ->
  DomainID v = DomainID source /\
  (forall id t, Targets v !! id = Some t -> Targets source !! id = Some t /\ disabled source id = false) /\
  (forall sel id, Selectors v !! sel = Some id -> canonical_id source sel = id).
Proof.
  unfold selectView. intros H. apply result_bind_ok in H as ([ts ss] & Hs & H). apply Ok_inj in H. subst v. simpl.
  split; [done|]. apply (select_into_ok _ _ _ _ _ _ Hs); intros ??; by rewrite lookup_empty.
Qed.

Lemma dependencies_spec v d :
  d ∈ dependencies v <-> exists id t, Targets v !! id = Some t /\ (d = id \/ d ∈ hop_ids t).
Proof.
  unfold dependencies. rewrite elem_of_union_list. split.
  - intros (X & HX & Hd). apply list_elem_of_fmap in HX as ([id t] & -> & Hp). apply elem_of_map_to_list in Hp.
    exists id, t. split; [done|]. simpl in Hd. apply elem_of_union in Hd as [->%elem_of_singleton|Hd]; [by left|].
    right. by apply elem_of_list_to_set in Hd.
  - intros (id & t & Ht & Hd). eexists. split.
    + apply list_elem_of_fmap. exists (id, t). split; [reflexivity|]. by apply elem_of_map_to_list.
    + simpl. apply elem_of_union. destruct Hd as [-> | Hd]; [left; by apply elem_of_singleton|right].
      by apply elem_of_list_to_set.
Qed.

Lemma blockedLocked_false c view ch :
  pending_change c = Some ch -> blockedLocked c view = false ->
  ch_policy ch = false /\ forall d, d ∈ dependencies view -> d ∉ Affected ch.
Proof.
  unfold blockedLocked. intros ->. destruct (ch_policy ch); [done|]. intros H. split; [done|].
  intros d Hd Ha. apply not_true_iff_false in H. apply H, existsb_exists. exists d.
  split; [by apply list_elem_of_In, elem_of_elements|by apply bool_decide_eq_true].
Qed.

Lemma disabled_false view id :
  disabled view id = false -> exists t, Targets view !! id = Some t /\ Disabled t = false /\
    forall h th, h ∈ hop_ids t -> Targets view !! h = Some th -> Disabled th = false.
Proof.
  unfold disabled. destruct (Targets view !! id) as [t|]; [|done]. intros H. apply orb_false_iff in H as [Hd He].
  exists t. split_and!; [done|done|]. intros h th Hh Hth. apply not_true_iff_false in He.
  destruct (Disabled th) eqn:E; [|done]. destruct He. apply existsb_exists. exists h.
  split; [by apply list_elem_of_In|]. by rewrite Hth.
Qed.

(** * Lemmas: admission *)
Section Admission.
Variable plan_hash : ConnectionPlan -> string.
Variable view_hash : snapshotIdentity -> string.

Lemma previousLocked_ok c a previous p :
  previousLocked c a previous = Ok (Some p) -> p ∈ co_active c /\ is_Some (co_regs c !! p).
Proof.
  unfold previousLocked. destruct previous as [pr|]; [|done]. intros H. apply bind_reject_ok in H as [_ H].
  destruct (pp_entry pr) as [id|]; [|done]. destruct (co_regs c !! id) as [e|] eqn:E; [|done].
  apply bind_reject_ok in H as [H1 H]. apply bind_reject_ok in H as [_ H]. apply bind_reject_ok in H as [_ H].
  apply Ok_inj in H. injection H as <-. apply orb_false_iff in H1 as [H1 _].
  apply negb_false_iff, bool_decide_eq_true in H1. by rewrite E.
Qed.

(** What an admission has checked, and the state it leaves. *)
Record admitted (c : Coordinator) (a : Admission) (id : positive) (prev : option positive)
    (current : OperationSnapshot) (c' : Coordinator) : Prop := {
  ad_open : co_closed c = false;
  ad_view : selectView (co_view c) (selectorsFor (aSnapshot a)) = Ok current;
  ad_binding : validate_binding plan_hash view_hash (aBind a) current = Ok tt;
  ad_given : validate_binding plan_hash view_hash (aBind a) (aSnapshot a) = Ok tt;
  ad_free : blockedLocked c current = false;
  ad_enabled : forall n t, Targets current !! n = Some t -> disabled (co_view c) n = false;
  ad_room : prev = None -> (Z.of_nat (size (co_active c)) < co_maxActive c)%Z;
  ad_prev : forall p, prev = Some p -> p ∈ co_active c /\ is_Some (co_regs c !! p);
  ad_id : id = co_next c;
  ad_state : c' = (let c1 := mkCoord (co_view c) (co_closed c) (co_token c) (co_pending c) (co_updates c)
                     ({[id]} ∪ (match prev with Some p => co_active c ∖ {[p]} | None => co_active c end))
                     (<[id := mkReg (aOperation a) (aBind a) (dependencies current) (aPhase a) false]> (co_regs c))
                     (co_deleted c) (co_maxActive c) (Pos.succ id) in
                   match prev with Some p => release p c1 | None => c1 end)
}.

Lemma Enter_ok ctx a previous c id c' :
  Enter plan_hash view_hash ctx a previous c = Ok (id, c') ->
  exists prev current, admitted c a id prev current c'.
Proof.
  unfold Enter. intros H. apply bind_reject_ok in H as [_ H]. apply result_bind_ok in H as ([] & Hg & H).
  apply result_bind_ok in H as ([[i p] c1] & He & H). apply Ok_inj in H. injection H as <- <-.
  unfold enterLocked in He. apply bind_reject_ok in He as [Hc He]. apply result_bind_ok in He as (prev & Hp & He).
  apply bind_reject_ok in He as [Hcap He]. apply result_bind_ok in He as (current & Hcur & He).
  apply bind_reject_ok in He as [Hb He]. apply result_bind_ok in He as ([] & Hv & He).
  apply bind_reject_ok in He as [Hd He]. apply result_bind_ok in He as ([] & _ & He). apply Ok_inj in He.
  injection He as <- <- <-. exists prev, current. constructor; try done.
  - destruct (selectView _ _); [|done]. by apply Ok_inj in Hcur as ->.
  - intros n t Ht. apply not_true_iff_false. intros Hdis. apply not_true_iff_false in Hd. apply Hd, existsb_exists.
    exists (n, t). split; [by apply list_elem_of_In, elem_of_map_to_list|done].
  - intros ->. rewrite bool_decide_eq_true_2 in Hcap by done. simpl in Hcap. by apply Z.leb_gt.
  - intros q ->. by apply (previousLocked_ok _ _ _ _ Hp).
Qed.

(** The state after an admission, field by field. *)
Lemma admitted_state c a id prev current c' :
  admitted c a id prev current c' ->
  co_view c' = co_view c /\ co_closed c' = co_closed c /\ co_token c' = co_token c /\ co_pending c' = co_pending c /\
  co_updates c' = co_updates c /\ co_deleted c' = co_deleted c /\ co_maxActive c' = co_maxActive c /\
  co_next c' = Pos.succ id /\
  co_active c' ⊆ {[id]} ∪ co_active c /\
  (forall p, prev = Some p -> p ∉ co_active c') /\
  (forall i r, co_regs c' !! i = Some r ->
     (i = id /\ rg_dependencies r = dependencies current /\ rg_phase r = aPhase a) \/
     (exists r0, co_regs c !! i = Some r0 /\ rg_dependencies r = rg_dependencies r0 /\ rg_phase r = rg_phase r0 /\
        (rg_cancelled r0 = true -> rg_cancelled r = true))) /\
  (forall i, is_Some (co_regs c !! i) -> is_Some (co_regs c' !! i)) /\ is_Some (co_regs c' !! id).
Proof.
  intros [_ _ _ _ _ _ _ _ _ ->]. destruct prev as [p|]; simpl.
  - split_and!; try done; try set_solver.
    + intros i r. unfold cancel_reg. rewrite lookup_alter_Some. intros [(<- & r0 & Hr & ->)|[Hne Hr]];
        apply lookup_insert_Some in Hr as [[<- <-]|[_ Hr]]; simpl; [by left|right; by exists r0|by left|right; by exists r].
    + intros i Hi. unfold cancel_reg. rewrite lookup_alter_is_Some, lookup_insert_is_Some. tauto || (destruct (decide (id = i)); auto).
    + unfold cancel_reg. rewrite lookup_alter_is_Some, lookup_insert_eq. by eexists.
  - split_and!; try done.
    + intros i r [[<- <-]|[_ Hr]]%lookup_insert_Some; simpl; [by left|right; by exists r].
    + intros i Hi. rewrite lookup_insert_is_Some. destruct (decide (id = i)); auto.
    + rewrite lookup_insert_eq. by eexists.
Qed.
End Admission.

(** * The invariant of the coordinator *)

(** No node of a view is deleted, nor a hop of an enabled one. *)
Definition clean (view : OperationSnapshot) (deleted : gset string) : Prop :=
  forall id t, Targets view !! id = Some t ->
    id ∉ deleted /\ (Disabled t = false -> forall h, h ∈ hop_ids t -> h ∉ deleted).

Definition activated (ph : updatePhase) : bool :=
  match ph with publishing | publicationFailed => true | _ => false end.

Section Invariant.
Variable plan_hash : ConnectionPlan -> string.
Variable view_hash : snapshotIdentity -> string.

Record update_ok (c : Coordinator) (up : Update) : Prop := {
  uo_phase : u_phase up <> finished;
  uo_published : u_published up = activated (u_phase up);
  uo_stops : u_published up = false -> u_stops up = [];
  uo_clean : u_published up = false -> clean (u_next up) (co_deleted c);
  uo_change : u_published up = false -> change_ok plan_hash (co_view c) (u_next up) (u_change up)
}.

Record co_inv (c : Coordinator) : Prop := {
  iv_regs : forall i r, co_regs c !! i = Some r -> (i < co_next c)%positive;
  iv_updates : forall u up, co_updates c !! u = Some up -> (u < co_next c)%positive;
  iv_active : forall i, i ∈ co_active c -> is_Some (co_regs c !! i);
  iv_bound : (Z.of_nat (size (co_active c)) <= co_maxActive c)%Z;
  iv_token : co_token c = bool_decide (co_pending c <> None);
  iv_pending : forall u, co_pending c = Some u -> exists up, co_updates c !! u = Some up /\ update_ok c up;
  iv_others : forall u up, co_updates c !! u = Some up -> co_pending c <> Some u -> u_phase up = finished;
  iv_clean : clean (co_view c) (co_deleted c);
  iv_live : forall i r d, i ∈ co_active c -> co_regs c !! i = Some r -> rg_cancelled r = false ->
    rg_phase r <> Commit -> d ∈ rg_dependencies r -> d ∈ co_deleted c ->
    exists u up, co_pending c = Some u /\ co_updates c !! u = Some up /\ i ∈ u_stops up
}.

Lemma cancel_reg_lookup id regs i r :
  cancel_reg id regs !! i = Some r <->
  exists r0, regs !! i = Some r0 /\ r = mkReg (rg_operation r0) (rg_binding r0) (rg_dependencies r0) (rg_phase r0)
    (rg_cancelled r0 || bool_decide (i = id)).
Proof.
  unfold cancel_reg. rewrite lookup_alter_Some. split.
  - intros [(-> & r0 & Hr & ->)|[Hne Hr]].
    + exists r0. rewrite bool_decide_eq_true_2, orb_true_r by done. done.
    + exists r. rewrite bool_decide_eq_false_2, orb_false_r by congruence. by destruct r.
  - intros (r0 & Hr & ->). destruct (decide (id = i)) as [->|Hne].
    + left. split; [done|]. exists r0. rewrite bool_decide_eq_true_2, orb_true_r by done. done.
    + right. rewrite bool_decide_eq_false_2, orb_false_r by congruence. by destruct r0.
Qed.

(** Cancelling any registrations and dropping some from the active set. *)
Lemma inv_cancel c id active : co_inv c -> active ⊆ co_active c ->
  co_inv (mkCoord (co_view c) (co_closed c) (co_token c) (co_pending c) (co_updates c) active
            (cancel_reg id (co_regs c)) (co_deleted c) (co_maxActive c) (co_next c)).
Proof.
  intros [I1 I2 I3 I4 I5 I6 I7 I8 I9] Hsub. constructor; simpl; try done.
  - intros i r (r0 & Hr & _)%cancel_reg_lookup. by eapply I1.
  - intros i Hi. destruct (I3 i (Hsub i Hi)) as [r Hr].
    eexists. apply cancel_reg_lookup. by exists r.
  - apply subseteq_size in Hsub. lia.
  - intros u Hu. destruct (I6 u Hu) as (up & Hup & []). exists up. split; [done|]. by constructor.
  - intros i r d Hi (r0 & Hr & ->)%cancel_reg_lookup; simpl. intros Hc%orb_false_iff Hph Hd Hdel.
    apply (I9 i r0 d (Hsub i Hi) Hr); tauto || done.
Qed.
Lemma inv_release id c : co_inv c -> co_inv (release id c).
Proof. intros I. apply inv_cancel; [done|]. set_solver. Qed.

Lemma inv_Close c : co_inv c -> co_inv (Close c).
Proof.
  intros I. unfold Close. destruct (co_closed c); [done|]. cbv zeta.
  generalize (elements (co_active c)). intros l. induction l as [|i l IH]; simpl; [|by apply inv_release].
  destruct I as [I1 I2 I3 I4 I5 I6 I7 I8 I9]. constructor; simpl; try done.
  intros u Hu. destruct (I6 u Hu) as (up & Hup & []). exists up. split; [done|]. by constructor.
Qed.

Lemma inv_New addr initial maxActive c : New plan_hash view_hash addr initial maxActive = Ok c -> co_inv c.
Proof.
  unfold New. intros H. apply result_bind_ok in H as ([] & _ & H). cbv zeta in H.
  apply bind_reject_ok in H as [Hm H]. apply Z.ltb_ge in Hm. apply Ok_inj in H. subst c.
  set (m := if (maxActive =? 0)%Z then _ else _) in *.
  constructor; cbn [co_view co_closed co_token co_pending co_updates co_active co_regs co_deleted co_maxActive co_next];
    try done.
  rewrite size_empty. lia.
Qed.

(** The pending update moves to another phase. *)
Lemma inv_phase c u up ph :
  co_inv c -> co_pending c = Some u -> co_updates c !! u = Some up -> ph <> finished ->
  u_published up = activated ph -> co_inv (set_update u (with_phase ph up) c).
Proof.
  intros [I1 I2 I3 I4 I5 I6 I7 I8 I9] Hp Hu Hne Ha. constructor; simpl; try done.
  - intros v vp [[<- _]|[_ Hv]]%lookup_insert_Some; eauto.
  - intros v Hv. rewrite Hp in Hv. injection Hv as <-. exists (with_phase ph up). rewrite lookup_insert_eq.
    split; [done|]. destruct (I6 u Hp) as (up' & Hup & []). rewrite Hu in Hup. injection Hup as <-. by constructor.
  - intros v vp [[<- _]|[_ Hv]]%lookup_insert_Some Hnp; [done|]. by eapply I7.
  - intros i r d Hi Hr Hc Hph Hd Hdel. destruct (I9 i r d Hi Hr Hc Hph Hd Hdel) as (v & vp & Hv & Hvp & Hin).
    rewrite Hp in Hv. injection Hv as <-. rewrite Hu in Hvp. injection Hvp as <-.
    exists u, (with_phase ph up). by rewrite lookup_insert_eq.
Qed.

(** The pending update is finished; nothing is left to stop. *)
Lemma inv_finish c u up :
  co_inv c -> co_pending c = Some u -> co_updates c !! u = Some up -> u_stops up = [] ->
  co_inv (finishLocked u up c).
Proof.
  intros [I1 I2 I3 I4 I5 I6 I7 I8 I9] Hp Hu Hst. constructor; simpl; try done.
  - intros v vp [[<- _]|[_ Hv]]%lookup_insert_Some; eauto.
  - intros v vp [[<- <-]|[Hne Hv]]%lookup_insert_Some _; [done|]. eapply I7; [done|]. congruence.
  - intros i r d Hi Hr Hc Hph Hd Hdel. destruct (I9 i r d Hi Hr Hc Hph Hd Hdel) as (v & vp & Hv & Hvp & Hin).
    rewrite Hp in Hv. injection Hv as <-. rewrite Hu in Hvp. injection Hvp as <-. rewrite Hst in Hin.
    by apply not_elem_of_nil in Hin.
Qed.

Lemma validLocked_ok u c up :
  validLocked u c = Ok up -> co_closed c = false /\ co_pending c = Some u /\ co_updates c !! u = Some up /\ u_phase up <> finished.
Proof.
  unfold validLocked. intros H. apply bind_reject_ok in H as [Hc H]. apply bind_reject_ok in H as [Hp H].
  destruct (co_updates c !! u) as [v|] eqn:E; [|done]. apply bind_reject_ok in H as [Hf H]. apply Ok_inj in H as ->.
  bool_facts. done.
Qed.

Lemma inv_Enter ctx a previous c id c' :
  co_inv c -> Enter plan_hash view_hash ctx a previous c = Ok (id, c') -> co_inv c'.
Proof.
  intros [I1 I2 I3 I4 I5 I6 I7 I8 I9] H. apply Enter_ok in H as (prev & current & Had).
  pose proof (admitted_state _ _ _ _ _ _ _ _ Had) as (E1 & E2 & E3 & E4 & E5 & E6 & E7 & E8 & Eact & Eprev & Eregs & Edom & Eid).
  pose proof (ad_id _ _ _ _ _ _ _ _ Had) as ->.
  constructor; rewrite ?E1, ?E3, ?E4, ?E5, ?E6, ?E7, ?E8.
  - intros i r Hr. destruct (Eregs i r Hr) as [(-> & _)|(r0 & Hr0 & _)]; [lia|]. apply I1 in Hr0. lia.
  - intros u up Hu. apply I2 in Hu. lia.
  - intros i Hi. apply Eact, elem_of_union in Hi as [->%elem_of_singleton|Hi]; [done|]. by apply Edom, I3.
  - destruct prev as [p|].
    + destruct (ad_prev _ _ _ _ _ _ _ _ Had p eq_refl) as [Hpa _]. specialize (Eprev p eq_refl).
      assert (Hs : co_active c' ⊆ {[co_next c]} ∪ (co_active c ∖ {[p]})) by set_solver.
      apply subseteq_size in Hs. rewrite size_union_alt, size_singleton in Hs.
      assert (size ((co_active c ∖ {[p]}) ∖ {[co_next c]}) <= size (co_active c ∖ {[p]}))%nat
        by (apply subseteq_size; set_solver).
      assert (size (co_active c ∖ {[p]}) < size (co_active c))%nat by (apply subset_size; set_solver). lia.
    + pose proof (ad_room _ _ _ _ _ _ _ _ Had eq_refl). apply subseteq_size in Eact.
      rewrite size_union_alt, size_singleton in Eact.
      assert (size (co_active c ∖ {[co_next c]}) <= size (co_active c))%nat by (apply subseteq_size; set_solver). lia.
  - done.
  - intros u Hu. destruct (I6 u Hu) as (up & Hup & []). exists up. split; [done|].
    constructor; rewrite ?E1, ?E6; done.
  - done.
  - done.
  - intros i r d Hi Hr Hc Hph Hd Hdel. destruct (Eregs i r Hr) as [(-> & Hdep & _)|(r0 & Hr0 & Hdep & Hp & Hcan)].
    + exfalso. rewrite Hdep in Hd. apply dependencies_spec in Hd as (n & t & Ht & Hd).
      pose proof (ad_enabled _ _ _ _ _ _ _ _ Had n t Ht) as Hen. apply disabled_false in Hen as (t' & Ht' & Hdis & _).
      apply (selectView_ok _ _ _ (ad_view _ _ _ _ _ _ _ _ Had)) in Ht as [Ht _].
      rewrite Ht in Ht'. injection Ht' as <-. destruct (I8 n t Ht) as [Hn Hh].
      destruct Hd as [-> | Hd]; [done|]. by apply (Hh Hdis d Hd).
    + assert (Hne : i <> co_next c) by (intros ->; apply I1 in Hr0; lia).
      apply Eact, elem_of_union in Hi as [Hi%elem_of_singleton|Hi]; [done|].
      apply (I9 i r0 d Hi Hr0); try congruence. destruct (rg_cancelled r0); [|done].
      by rewrite Hcan in Hc.
Qed.

Lemma deleted_conflict_none deleted next :
  validateRetainedIdentities deleted next = Ok tt -> clean next deleted.
Proof.
  unfold validateRetainedIdentities. intros H id t Ht.
  assert (Hn : deleted_conflict deleted (id, t) = None).
  { destruct (deleted_conflict deleted (id, t)) as [x|] eqn:E; [|done]. exfalso.
    assert (Hin : x ∈ omap (deleted_conflict deleted) (map_to_list (Targets next))).
    { apply list_elem_of_omap. exists (id, t). split; [by apply elem_of_map_to_list|done]. }
    destruct (omap _ _); [by apply not_elem_of_nil in Hin|done]. }
  unfold deleted_conflict in Hn. cbn [fst snd] in Hn. destruct (bool_decide (id ∈ deleted)) eqn:E1; [done|].
  bool_facts. split; [done|]. intros Hd h Hh Hdel. rewrite Hd in Hn.
  apply list_elem_of_In in Hh. pose proof (List.find_none _ _ Hn h Hh) as Hf. cbv beta in Hf.
  by rewrite bool_decide_eq_true_2 in Hf.
Qed.

Lemma inv_BeginUpdate addr ctx expected next c u c' :
  co_inv c -> BeginUpdate plan_hash view_hash addr ctx expected next c = Ok (u, c') -> co_inv c'.
Proof.
  intros [I1 I2 I3 I4 I5 I6 I7 I8 I9] H. unfold BeginUpdate in H. apply bind_reject_ok in H as [_ H].
  apply bind_reject_ok in H as [_ H]. apply result_bind_ok in H as ([] & _ & H). apply bind_reject_ok in H as [_ H].
  apply bind_reject_ok in H as [Hc H]. apply bind_reject_ok in H as [Ht H]. apply bind_reject_ok in H as [_ H].
  apply result_bind_ok in H as (change & Hch & H). apply result_bind_ok in H as ([] & Hv & H). apply Ok_inj in H.
  injection H as <- <-. apply deleted_conflict_none in Hv. apply calculateChange_ok in Hch.
  rewrite Ht in I5. symmetry in I5. apply bool_decide_eq_false in I5. apply dec_stable in I5.
  assert (Hall : forall v vp, co_updates c !! v = Some vp -> u_phase vp = finished).
  { intros v vp Hvp. apply (I7 v vp Hvp). by rewrite I5. }
  constructor; simpl; try done.
  - intros i r Hr. apply I1 in Hr. lia.
  - intros v vp [[<- _]|[_ Hvp]]%lookup_insert_Some; [lia|]. apply I2 in Hvp. lia.
  - intros v [= <-]. eexists. rewrite lookup_insert_eq. split; [done|]. by constructor.
  - intros v vp [[<- <-]|[_ Hvp]]%lookup_insert_Some Hne; [done|]. by apply (Hall v).
  - intros i r d Hi Hr Hcc Hph Hd Hdel. destruct (I9 i r d Hi Hr Hcc Hph Hd Hdel) as (v & vp & Hpv & _). congruence.
Qed.

Lemma to_stop_spec ch c i :
  i ∈ to_stop ch c <-> i ∈ co_active c /\ exists r, co_regs c !! i = Some r /\ rg_phase r <> Commit /\ revokes ch r = true.
Proof.
  unfold to_stop. rewrite list_elem_of_In, filter_In, <- list_elem_of_In, elem_of_elements.
  destruct (co_regs c !! i) as [r|]; [|naive_solver].
  rewrite andb_true_iff, negb_true_iff, bool_decide_eq_false. naive_solver.
Qed.

Lemma revokes_dep ch r d : d ∈ rg_dependencies r -> d ∈ Revoke ch -> revokes ch r = true.
Proof.
  intros Hd Hr. unfold revokes. apply orb_true_iff. right. apply existsb_exists. exists d.
  split; [by apply list_elem_of_In, elem_of_elements|by apply bool_decide_eq_true].
Qed.

Lemma publish_begin_ok ctx u has_retire c c' :
  publish_begin ctx u has_retire c = Ok c' ->
  exists up, validLocked u c = Ok up /\ (u_phase up = committed \/ u_phase up = publicationFailed) /\
    (Retired (u_change up) <> [] -> has_retire = true) /\
    c' = if u_published up then set_update u (with_phase publishing up) c
         else mkCoord (u_next up) (co_closed c) (co_token c) (co_pending c)
          (<[u := mkUpdate (u_next up) (u_change up) publishing true (to_stop (u_change up) c)]> (co_updates c))
          (co_active c) (co_regs c) (co_deleted c ∪ list_to_set (Removed (u_change up)))
          (co_maxActive c) (co_next c).
Proof.
  unfold publish_begin. intros H. apply bind_reject_ok in H as [_ H]. apply bind_reject_ok in H as [_ H].
  apply result_bind_ok in H as (up & Hup & H). apply bind_reject_ok in H as [Hph H].
  apply bind_reject_ok in H as [Hre H]. exists up. split_and!; [done| | |].
  - apply andb_false_iff in Hph as [Hp|Hp]; apply negb_false_iff, bool_decide_eq_true in Hp; auto.
  - intros Hne. apply andb_false_iff in Hre as [Hp|Hp]; apply negb_false_iff in Hp; [|done].
    by apply bool_decide_eq_true in Hp.
  - destruct (u_published up); by apply Ok_inj in H.
Qed.

Lemma inv_publish_begin ctx u has_retire c c' :
  co_inv c -> publish_begin ctx u has_retire c = Ok c' -> co_inv c'.
Proof.
  intros I H. apply publish_begin_ok in H as (up & Hv & Hph & _ & ->). apply validLocked_ok in Hv as (Hcl & Hp & Hu & _).
  destruct (u_published up) eqn:Epub; [by apply inv_phase|].
  destruct I as [I1 I2 I3 I4 I5 I6 I7 I8 I9].
  destruct (I6 u Hp) as (up' & Hup & Hok). rewrite Hu in Hup. injection Hup as <-.
  destruct Hok as [_ _ Hst Hclean Hch]. specialize (Hclean Epub). specialize (Hch Epub). specialize (Hst Epub).
  constructor; simpl; try done.
  - intros v vp [[<- _]|[_ Hvp]]%lookup_insert_Some; eauto.
  - intros v Hv'. rewrite Hp in Hv'. injection Hv' as <-. eexists. rewrite lookup_insert_eq. split; [done|]. by constructor.
  - intros v vp [[<- _]|[_ Hvp]]%lookup_insert_Some Hne; [done|]. by eapply I7.
  - intros id t Ht. destruct (Hclean id t Ht) as [Hd Hh]. split.
    + intros [Hin|Hin%elem_of_list_to_set]%elem_of_union; [done|].
      apply (co_removed _ _ _ _ Hch) in Hin as [Hn _]. congruence.
    + intros Hdis h Hhop [Hin|Hin%elem_of_list_to_set]%elem_of_union; [by apply (Hh Hdis h)|].
      by apply (co_jumps _ _ _ _ Hch id t h).
  - intros i r d Hi Hr Hc Hphr Hd [Hdel|Hdel%elem_of_list_to_set]%elem_of_union.
    + destruct (I9 i r d Hi Hr Hc Hphr Hd Hdel) as (v & vp & Hv & Hvp & Hin). exfalso.
      rewrite Hp in Hv. injection Hv as <-. rewrite Hu in Hvp. injection Hvp as <-. rewrite Hst in Hin.
      by apply not_elem_of_nil in Hin.
    + eexists u, _. rewrite lookup_insert_eq. split_and!; [done|done|]. simpl. apply to_stop_spec.
      split; [done|]. exists r. split_and!; [done|done|]. apply (revokes_dep _ _ d Hd).
      destruct (co_removed _ _ _ _ Hch d Hdel) as [Hn [t Ht]].
      by destruct (cv_removed _ _ _ _ _ (co_covers _ _ _ _ Hch d t Ht) Hn) as (_ & ? & _).
Qed.

Lemma foldr_cancel l regs i r :
  foldr cancel_reg regs l !! i = Some r ->
  exists r0, regs !! i = Some r0 /\ rg_dependencies r = rg_dependencies r0 /\ rg_phase r = rg_phase r0 /\
    (rg_cancelled r = false -> rg_cancelled r0 = false /\ i ∉ l).
Proof.
  revert r. induction l as [|j l IH]; intros r; simpl.
  - intros Hr. exists r. split_and!; try done. intros ?. split; [done|]. apply not_elem_of_nil.
  - intros (r1 & Hr1 & ->)%cancel_reg_lookup. simpl. destruct (IH r1 Hr1) as (r0 & H0 & H1 & H2 & H3).
    exists r0. split_and!; try done. intros [Hc Hne]%orb_false_iff. apply bool_decide_eq_false in Hne.
    destruct (H3 Hc). split; [done|]. by rewrite not_elem_of_cons.
Qed.
Lemma foldr_cancel_some l regs i : is_Some (regs !! i) -> is_Some (foldr cancel_reg regs l !! i).
Proof. intros H. induction l as [|j l IH]; simpl; [done|]. unfold cancel_reg at 1. by rewrite lookup_alter_is_Some. Qed.

Lemma inv_publish_stop u c : co_inv c -> co_inv (publish_stop u c).
Proof.
  intros [I1 I2 I3 I4 I5 I6 I7 I8 I9]. unfold publish_stop. destruct (co_updates c !! u) as [up|] eqn:Hu; [|by constructor].
  constructor; simpl; try done.
  - intros i r Hr. apply foldr_cancel in Hr as (r0 & Hr0 & _). by eapply I1.
  - intros v vp [[<- _]|[_ Hvp]]%lookup_insert_Some; eauto.
  - intros i Hi. by apply foldr_cancel_some, I3.
  - intros v Hv. destruct (I6 v Hv) as (vp & Hvp & Hok). destruct (decide (u = v)) as [<-|Hne].
    + rewrite Hu in Hvp. injection Hvp as <-. eexists. rewrite lookup_insert_eq. split; [done|]. destruct Hok. by constructor.
    + exists vp. rewrite lookup_insert_ne by done. split; [done|]. destruct Hok. by constructor.
  - intros v vp [[<- <-]|[_ Hvp]]%lookup_insert_Some Hne; simpl; by eapply I7.
  - intros i r d Hi Hr Hc Hph Hd Hdel. apply foldr_cancel in Hr as (r0 & Hr0 & Ed & Ep & Hcan).
    destruct (Hcan Hc) as [Hc0 Hnin]. rewrite Ed in Hd. rewrite Ep in Hph.
    destruct (I9 i r0 d Hi Hr0 Hc0 Hph Hd Hdel) as (v & vp & Hv & Hvp & Hin). exists v, vp.
    split; [done|]. rewrite lookup_insert_ne; [done|]. intros <-. congruence.
Qed.

Lemma inv_pending_ok c u up : co_inv c -> co_pending c = Some u -> co_updates c !! u = Some up -> update_ok c up.
Proof. intros I Hp Hu. destruct (iv_pending _ I u Hp) as (up' & Hu' & Hok). congruence. Qed.

(** Before its commit is confirmed, an update has activated and stopped nothing. *)
Lemma inv_early c u up : co_inv c -> co_pending c = Some u -> co_updates c !! u = Some up ->
  activated (u_phase up) = false -> u_published up = false /\ u_stops up = [].
Proof.
  intros I Hp Hu Hph. pose proof (inv_pending_ok c u up I Hp Hu) as [_ Hpub Hst _ _].
  rewrite Hph in Hpub. auto.
Qed.

Lemma inv_step c c' : co_inv c -> co_step plan_hash view_hash c c' -> co_inv c'.
Proof.
  intros I H. destruct H as [ctx a previous id c' H|id|id|addr ctx expected next u c' H|u c' H|u c' H|u c' H|u c' H
    |ctx u has_retire c' H|u|u failed up Hu Hph Hst|].
  - by eapply inv_Enter.
  - by apply inv_release.
  - by apply inv_cancel.
  - by eapply inv_BeginUpdate.
  - apply result_bind_ok in H as (up & Hv & H). apply bind_reject_ok in H as [Hph H]. apply Ok_inj in H. subst c'.
    apply validLocked_ok in Hv as (_ & Hp & Hu & _). bool_facts. apply inv_phase; try done.
    by apply (inv_early c u up); rewrite ?Hph.
  - apply result_bind_ok in H as (up & Hv & H). apply bind_reject_ok in H as [Hph H]. apply Ok_inj in H. subst c'.
    apply validLocked_ok in Hv as (_ & Hp & Hu & _). apply inv_phase; try done.
    apply (inv_early c u up); [done|done|done|]. apply andb_false_iff in Hph as [Hph|Hph]; bool_facts; by rewrite Hph.
  - apply result_bind_ok in H as (up & Hv & H). apply bind_reject_ok in H as [Hph H]. apply Ok_inj in H. subst c'.
    apply validLocked_ok in Hv as (_ & Hp & Hu & _). bool_facts. apply inv_finish; try done.
    by apply (inv_early c u up); rewrite ?Hph.
  - apply result_bind_ok in H as (up & Hv & H). apply bind_reject_ok in H as [Hph H]. apply Ok_inj in H. subst c'.
    apply validLocked_ok in Hv as (_ & Hp & Hu & _). apply inv_finish; try done.
    apply (inv_early c u up); [done|done|done|]. apply andb_false_iff in Hph as [Hph|Hph]; bool_facts; by rewrite Hph.
  - by eapply inv_publish_begin.
  - by apply inv_publish_stop.
  - assert (Hp : co_pending c = Some u).
    { destruct (decide (co_pending c = Some u)) as [|Hne]; [done|]. rewrite (iv_others _ I u up Hu Hne) in Hph. done. }
    assert (Hpub : u_published up = true).
    { pose proof (inv_pending_ok c u up I Hp Hu) as [_ Hpub _ _ _]. by rewrite Hph in Hpub. }
    unfold publish_end. rewrite Hu. destruct (co_closed c); [by apply inv_phase|].
    destruct failed; [by apply inv_phase|by apply inv_finish].
  - by apply inv_Close.
Qed.

Lemma inv_reachable c : coordinator_reachable plan_hash view_hash c -> co_inv c.
Proof.
  apply reachable_invariant.
  - intros c0 (addr & initial & maxActive & H). by eapply inv_New.
  - apply inv_step.
Qed.

(** * Theorems *)

(** C16: deletion is final, in every interleaving of operations: a deleted node is
    not in the view and no enabled node uses it as a hop; and a live operation
    (registered, not cancelled, not a commit) depends on no deleted node, except
    between a publication and its cancel calls, which are about to end it. *)
Theorem deleted_never_live c :
  coordinator_reachable plan_hash view_hash c ->
  clean (co_view c) (co_deleted c) /\
  forall i r d, i ∈ co_active c -> co_regs c !! i = Some r -> rg_cancelled r = false ->
    rg_phase r <> Commit -> d ∈ rg_dependencies r -> d ∈ co_deleted c ->
    exists u up, co_pending c = Some u /\ co_updates c !! u = Some up /\ u_phase up <> prepared /\
      u_phase up <> persisting /\ u_phase up <> committed /\ i ∈ u_stops up.
Proof.
  intros H. apply inv_reachable in H as I. split; [apply I|]. intros i r d Hi Hr Hc Hph Hd Hdel.
  destruct (iv_live _ I i r d Hi Hr Hc Hph Hd Hdel) as (u & up & Hp & Hu & Hin). exists u, up.
  assert (Ha : activated (u_phase up) = true).
  { destruct (activated (u_phase up)) eqn:E; [done|]. destruct (inv_early c u up I Hp Hu E) as [_ Hs].
    rewrite Hs in Hin. by apply not_elem_of_nil in Hin. }
  split_and!; try done; intros E; by rewrite E in Ha.
Qed.

(** the coordinator's bookkeeping: never more than the limit of admissions,
    the update token taken exactly while an update is pending, and at most that
    one update unfinished. *)
Theorem admission_bounded c :
  coordinator_reachable plan_hash view_hash c ->
  (Z.of_nat (size (co_active c)) <= co_maxActive c)%Z /\
  (co_token c = true <-> co_pending c <> None) /\
  (forall i, i ∈ co_active c -> is_Some (co_regs c !! i)) /\
  forall u up, co_updates c !! u = Some up -> u_phase up <> finished -> co_pending c = Some u.
Proof.
  intros H. apply inv_reachable in H as I. split_and!; [apply I| |apply I|].
  - by rewrite (iv_token _ I), bool_decide_eq_true.
  - intros u up Hu Hph. destruct (decide (co_pending c = Some u)) as [|Hne]; [done|].
    by rewrite (iv_others _ I u up Hu Hne) in Hph.
Qed.

(** C34: an operation admitted while a publication is pending is one that the
    publication does not touch: none of its dependencies is affected, the policy
    stays, and until the switch each of its nodes is in the candidate with the same
    connection key, versions and enablement. *)
Theorem Enter_during_update c u up ctx a previous id c' :
  coordinator_reachable plan_hash view_hash c -> co_pending c = Some u -> co_updates c !! u = Some up ->
  Enter plan_hash view_hash ctx a previous c = Ok (id, c') ->
  exists r, co_regs c' !! id = Some r /\ rg_cancelled r = false /\
    (forall d, d ∈ rg_dependencies r -> d ∉ Affected (u_change up)) /\
    (u_published up = false ->
       PolicyRevision (co_view c) = PolicyRevision (u_next up) /\
       same_policy (sPolicy (co_view c)) (sPolicy (u_next up)) = true /\
       forall d t, d ∈ rg_dependencies r -> Targets (co_view c) !! d = Some t ->
         exists t', Targets (u_next up) !! d = Some t' /\ stable plan_hash t t').
Proof.
  intros H Hp Hu Hen. apply inv_reachable in H as I. apply Enter_ok in Hen as (prev & current & Had).
  pose proof (ad_free _ _ _ _ _ _ _ _ Had) as Hfree.
  apply (blockedLocked_false c current (u_change up)) in Hfree as [Hpol Hdeps];
    [|unfold pending_change; by rewrite Hp, Hu].
  exists (mkReg (aOperation a) (aBind a) (dependencies current) (aPhase a) false). split_and!.
  - rewrite (ad_state _ _ _ _ _ _ _ _ Had). destruct prev as [p|]; simpl; [|by rewrite lookup_insert_eq].
    apply cancel_reg_lookup. eexists. rewrite lookup_insert_eq. split; [done|]. simpl.
    rewrite bool_decide_eq_false_2; [done|].
    destruct (ad_prev _ _ _ _ _ _ _ _ Had p eq_refl) as [_ [r Hr]]. apply (iv_regs _ I) in Hr.
    rewrite (ad_id _ _ _ _ _ _ _ _ Had). lia.
  - done.
  - exact Hdeps.
  - intros Hpub. pose proof (uo_change _ _ (inv_pending_ok _ _ _ I Hp Hu) Hpub) as Hch.
    rewrite (co_policy _ _ _ _ Hch) in Hpol. apply orb_false_iff in Hpol as [Hp1 Hp2].
    apply negb_false_iff in Hp1, Hp2. apply str_eq_spec in Hp1. split_and!; [done|done|]. simpl.
    intros d t Hd Ht. specialize (Hdeps d Hd). destruct (co_covers _ _ _ _ Hch d t Ht) as [Hr Hc].
    destruct (Targets (u_next up) !! d) as [t'|]; [|by destruct (Hr eq_refl)].
    exists t'. split; [done|]. by destruct (Hc t' eq_refl) as [[?|[? _]] _].
Qed.

(** the view is only ever replaced by a candidate whose commit was confirmed,
    together with its deletions; and an update that is aborted or rolled back has
    never been visible and frees the update token. *)
Theorem view_only_committed c c' :
  coordinator_reachable plan_hash view_hash c -> co_step plan_hash view_hash c c' ->
  (co_view c' = co_view c /\ co_deleted c' = co_deleted c \/
   exists u up, co_pending c = Some u /\ co_updates c !! u = Some up /\ u_phase up = committed /\
     co_view c' = u_next up /\ co_deleted c' = co_deleted c ∪ list_to_set (Removed (u_change up))) /\
  forall u, Abort_ u c = Ok c' \/ ConfirmRollback u c = Ok c' ->
    exists up, co_pending c = Some u /\ co_updates c !! u = Some up /\ u_published up = false /\
      co_view c' = co_view c /\ co_deleted c' = co_deleted c /\ co_pending c' = None /\ co_token c' = false.
Proof.
  intros Hr Hs. apply inv_reachable in Hr as I. split.
  - destruct Hs as [ctx a previous id c' H|id|id|addr ctx expected next u c' H|u c' H|u c' H|u c' H|u c' H
      |ctx u has_retire c' H|u|u failed up Hu Hph Hst|]; try (by left).
    + left. apply Enter_ok in H as (prev & current & H). apply admitted_state in H. tauto.
    + left. unfold BeginUpdate in H. result_inv. match goal with H : (_, _) = _ |- _ => injection H as <- <- end. done.
    + left. unfold BeginPersistence in H. result_inv. done.
    + left. unfold ConfirmCommit in H. result_inv. done.
    + left. unfold Abort_ in H. result_inv. done.
    + left. unfold ConfirmRollback in H. result_inv. done.
    + apply publish_begin_ok in H as (up & Hv & Hph & _ & ->). apply validLocked_ok in Hv as (_ & Hp & Hu & _).
      destruct (u_published up) eqn:E; [by left|right]. exists u, up. split_and!; try done.
      destruct Hph as [?|Hf]; [done|]. pose proof (uo_published _ _ (inv_pending_ok _ _ _ I Hp Hu)) as Ha.
      rewrite Hf in Ha. simpl in Ha. congruence.
    + left. unfold publish_stop. by destruct (co_updates c !! u).
    + left. unfold publish_end. rewrite Hu. destruct (co_closed c); [done|]. by destruct failed.
    + left. unfold Close. destruct (co_closed c); [done|]. cbv zeta.
      generalize (elements (co_active c)). intros l. by induction l.
  - assert (Hgen : forall u up, validLocked u c = Ok up -> activated (u_phase up) = false -> c' = finishLocked u up c ->
      exists up, co_pending c = Some u /\ co_updates c !! u = Some up /\ u_published up = false /\
      co_view c' = co_view c /\ co_deleted c' = co_deleted c /\ co_pending c' = None /\ co_token c' = false).
    { intros u up Hv Hph ->. apply validLocked_ok in Hv as (_ & Hp & Hu & _). exists up.
      destruct (inv_early _ _ _ I Hp Hu Hph). done. }
    intros u [H|H]; apply result_bind_ok in H as (up & Hv & H); apply bind_reject_ok in H as [Hph H];
      apply Ok_inj in H; apply (Hgen u up Hv); try done.
    + bool_facts. by rewrite Hph.
    + apply andb_false_iff in Hph as [Hph|Hph]; bool_facts; by rewrite Hph.
Qed.

(** a committed update completes: with a deadline, a retirement callback that
    succeeds and an open coordinator, [Publish] makes the candidate the view, ends
    every operation it revokes and frees the update token. *)
Theorem Publish_completes c u up ctx :
  coordinator_reachable plan_hash view_hash c -> co_closed c = false -> co_pending c = Some u -> co_updates c !! u = Some up ->
  u_phase up = committed -> cx_err ctx = false -> cx_deadline ctx <> None ->
  exists c1, publish_begin ctx u true c = Ok c1 /\
    let c2 := publish_stop u c1 in
    exists c3, publish_end u false c2 = (None, c3) /\ co_view c3 = u_next up /\ co_pending c3 = None /\
      co_token c3 = false /\
      forall i r, i ∈ co_active c3 -> co_regs c3 !! i = Some r -> rg_phase r <> Commit ->
        revokes (u_change up) r = true -> rg_cancelled r = true.
Proof.
  intros Hr Hc Hp Hu Hph Hctx Hdl. apply inv_reachable in Hr as I.
  pose proof (uo_published _ _ (inv_pending_ok _ _ _ I Hp Hu)) as Hpub. rewrite Hph in Hpub. simpl in Hpub.
  assert (Hv : validLocked u c = Ok up).
  { unfold validLocked. rewrite Hc, Hu, (bool_decide_eq_true_2 (co_pending c = Some u)), Hph by done. done. }
  unfold publish_begin. rewrite Hctx, Hv, bool_decide_eq_false_2 by done. simpl. rewrite Hph. simpl.
  rewrite andb_false_r, Hpub. eexists. split; [done|]. unfold publish_stop. cbn [co_updates]. rewrite lookup_insert_eq.
  cbv zeta. unfold publish_end. cbn [co_updates co_closed]. rewrite lookup_insert_eq, Hc. eexists. split; [done|].
  cbn [finishLocked co_view co_pending co_token co_active co_regs u_stops]. split_and!; try done.
  intros i r Hi Hr' Hcom Hrev. destruct (rg_cancelled r) eqn:E; [done|]. exfalso.
  apply foldr_cancel in Hr' as (r0 & Hr0 & Hd & Hp0 & Hcan). destruct (Hcan E) as [_ Hnin]. apply Hnin, to_stop_spec.
  split; [done|]. exists r0. split_and!; [done|congruence|]. unfold revokes in *. by rewrite <- Hd.
Qed.
End Invariant.

(** * A concrete coordinator *)
Definition sample_view (revision : string) (targets : gmap string Target) : OperationSnapshot :=
  mkSnapshot "dom" revision "p1" sample_config targets ∅.
Definition view_1 : OperationSnapshot :=
  sample_view "1" {["a" := sample_target "a" false; "b" := sample_target "b" false]}.
Definition view_2 : OperationSnapshot := sample_view "2" {["b" := sample_target "b" false]}.
Definition select_a : OperationSnapshot := sample_view "1" {["a" := sample_target "a" false]}.
Definition select_b : OperationSnapshot := sample_view "1" {["b" := sample_target "b" false]}.
Definition no_address (id : string) (i : nat) : address := (None, None).
Definition sample_ctx : CallContext := mkCtx false (Some 90%Z).
Definition admission (op : string) (s : OperationSnapshot) : Admission := mkAdmission op Execute s sample_binding.

Definition from_ok {E A} (d : A) (r : result E A) : A := match r with Ok a => a | Err _ => d end.
Definition empty_coord : Coordinator := mkCoord view_1 false false None ∅ ∅ ∅ ∅ 1 1.
Notation sEnter := (Enter sample_plan_hash sample_view_hash).
Notation sBegin := (BeginUpdate sample_plan_hash sample_view_hash no_address).
Notation sreachable := (coordinator_reachable sample_plan_hash sample_view_hash).

Definition coord_0 : Coordinator :=
  from_ok empty_coord (New sample_plan_hash sample_view_hash no_address view_1 10).
Definition coord_1 : Coordinator :=
  (from_ok (1%positive, empty_coord) (sEnter sample_ctx (admission "op" select_a) None coord_0)).2.
Definition coord_2 : Coordinator :=
  (from_ok (1%positive, empty_coord) (sBegin sample_ctx "1" view_2 coord_1)).2.
Definition coord_3 : Coordinator := from_ok empty_coord (ConfirmCommit 2 coord_2).
Definition coord_4 : Coordinator := from_ok empty_coord (publish_begin sample_ctx 2 true coord_3).

Lemma coord_1_reachable : sreachable coord_1.
Proof.
  eapply reachable_step.
  - exists coord_0. split; [|apply rtc_refl]. exists no_address, view_1, 10%Z. vm_compute. reflexivity.
  - apply (co_enter _ _ _ sample_ctx (admission "op" select_a) None 1). vm_compute. reflexivity.
Qed.
Lemma coord_2_reachable : sreachable coord_2.
Proof.
  eapply reachable_step; [apply coord_1_reachable|].
  apply (co_begin _ _ _ no_address sample_ctx "1" view_2 2). vm_compute. reflexivity.
Qed.
Lemma coord_3_reachable : sreachable coord_3.
Proof.
  eapply reachable_step; [apply coord_2_reachable|]. apply (co_commit _ _ _ 2). vm_compute. reflexivity.
Qed.
Lemma coord_4_step : co_step sample_plan_hash sample_view_hash coord_3 coord_4.
Proof. apply (co_publish _ _ coord_3 sample_ctx 2 true coord_4). vm_compute. reflexivity. Qed.
Lemma coord_4_reachable : sreachable coord_4.
Proof. eapply reachable_step; [apply coord_3_reachable|apply coord_4_step]. Qed.

Lemma expandAffected_closure_witness :
  "a" ∈ expandAffected view_1 {["a"]} <-> reaches (Targets view_1) {["a"]} "a".
Proof.
  exact (proj2 (expandAffected_closure view_1 (fun _ => map_to_list (Targets view_1)) {["a"]} "a"
    (fun n => Permutation_refl _))).
Defined.

Lemma calculateChange_sound_witness :
  exists ch t', calculateChange sample_plan_hash view_1 view_2 = Ok ch /\ "b" ∉ Affected ch /\
    Targets view_2 !! "b" = Some t'.
Proof.
  destruct (calculateChange sample_plan_hash view_1 view_2) as [ch|e] eqn:E; [|vm_compute in E; discriminate E].
  assert (Hb : "b" ∉ Affected ch).
  { assert (Hd : bool_decide ("b" ∈ Affected (from_ok (mkChange ∅ ∅ [] [] false)
      (calculateChange sample_plan_hash view_1 view_2))) = false) by (vm_compute; reflexivity).
    rewrite E in Hd. apply bool_decide_eq_false in Hd. exact Hd. }
  destruct (proj1 (calculateChange_sound sample_plan_hash view_1 view_2 ch E) "b" (sample_target "b" false))
    as (t' & Ht' & _); [vm_compute; reflexivity|exact Hb|].
  exists ch, t'. exact (conj eq_refl (conj Hb Ht')).
Defined.

Lemma deleted_never_live_witness :
  exists u up, co_pending coord_4 = Some u /\ co_updates coord_4 !! u = Some up /\ 1%positive ∈ u_stops up.
Proof.
  destruct (co_regs coord_4 !! 1%positive) as [r|] eqn:Er; [|vm_compute in Er; discriminate Er].
  assert (Hr : rg_cancelled r = false /\ rg_phase r = Execute /\ bool_decide ("a" ∈ rg_dependencies r) = true)
    by (vm_compute in Er; injection Er as <-; vm_compute; split; [reflexivity|split; reflexivity]).
  destruct Hr as (Hc & Hph & Hd). apply bool_decide_eq_true in Hd.
  destruct (proj2 (deleted_never_live sample_plan_hash sample_view_hash coord_4 coord_4_reachable) 1%positive r "a")
    as (u & up & Hp & Hu & _ & _ & _ & Hin).
  - apply (bool_decide_unpack _). vm_compute. reflexivity.
  - exact Er.
  - exact Hc.
  - rewrite Hph. discriminate.
  - exact Hd.
  - apply (bool_decide_unpack _). vm_compute. reflexivity.
  - exists u, up. exact (conj Hp (conj Hu Hin)).
Defined.

Lemma admission_bounded_witness : co_token coord_4 = true /\ size (co_active coord_4) = 1%nat.
Proof.
  split; [|vm_compute; reflexivity].
  apply (proj1 (proj2 (admission_bounded sample_plan_hash sample_view_hash coord_4 coord_4_reachable))).
  vm_compute. discriminate.
Defined.

Lemma Enter_during_update_witness :
  exists up c' r, co_updates coord_2 !! 2%positive = Some up /\
    sEnter sample_ctx (admission "op2" select_b) None coord_2 = Ok (3%positive, c') /\
    co_regs c' !! 3%positive = Some r /\ forall d, d ∈ rg_dependencies r -> d ∉ Affected (u_change up).
Proof.
  destruct (co_updates coord_2 !! 2%positive) as [up|] eqn:Eu; [|vm_compute in Eu; discriminate Eu].
  destruct (sEnter sample_ctx (admission "op2" select_b) None coord_2) as [[id c']|e] eqn:Ee;
    [|vm_compute in Ee; discriminate Ee].
  assert (Hid : id = 3%positive).
  { assert (Hd : option_map fst (match sEnter sample_ctx (admission "op2" select_b) None coord_2 with
        Ok p => Some p | Err _ => None end) = Some 3%positive) by (vm_compute; reflexivity).
    rewrite Ee in Hd. by injection Hd. }
  subst id.
  destruct (Enter_during_update sample_plan_hash sample_view_hash coord_2 2 up sample_ctx (admission "op2" select_b)
    None 3 c' coord_2_reachable ltac:(vm_compute; reflexivity) Eu Ee) as (r & Hr & _ & Hd & _).
  exists up, c', r. exact (conj eq_refl (conj eq_refl (conj Hr Hd))).
Defined.

Lemma view_only_committed_witness :
  co_view coord_4 = view_2 /\ co_view coord_3 <> co_view coord_4 /\
  exists u up, co_pending coord_3 = Some u /\ co_updates coord_3 !! u = Some up /\ u_phase up = committed.
Proof.
  split; [vm_compute; reflexivity|].
  assert (Hne : co_view coord_3 <> co_view coord_4) by (vm_compute; discriminate). split; [exact Hne|].
  destruct (proj1 (view_only_committed sample_plan_hash sample_view_hash coord_3 coord_4 coord_3_reachable
    coord_4_step)) as [[H _]|(u & up & Hp & Hu & Hph & _)].
  - destruct Hne. symmetry. exact H.
  - exists u, up. exact (conj Hp (conj Hu Hph)).
Defined.

Lemma Publish_completes_witness :
  exists c1, publish_begin sample_ctx 2 true coord_3 = Ok c1.
Proof.
  destruct (co_updates coord_3 !! 2%positive) as [up|] eqn:Eu; [|vm_compute in Eu; discriminate Eu].
  assert (Hph : u_phase up = committed) by (vm_compute in Eu; injection Eu as <-; reflexivity).
  destruct (Publish_completes sample_plan_hash sample_view_hash coord_3 2 up sample_ctx coord_3_reachable
    ltac:(vm_compute; reflexivity) ltac:(vm_compute; reflexivity) Eu Hph eq_refl ltac:(discriminate)) as (c1 & H1 & _).
  exists c1. exact H1.
Defined.

(** * Shared hops with options *)
Definition hop_with_options (id jump : string) : ConnectionConfig := sample_hop id jump 22.
Definition via_jump (id : string) : Target :=
  mkTarget (sample_info id) (mkConnPlan "s" [sample_hop "j" "" 22; sample_hop id "j" 22]) "1" "1" None false.
Definition shared_view : OperationSnapshot :=
  sample_view "1" {["a" := via_jump "a"; "b" := via_jump "b"; "j" := sample_target "j" false]}.
(** Every plan with option records of its own, and one record shared by all. *)
Definition own_records (id : string) (i : nat) : address :=
  (None, Some (if str_eq id "a" then 1 else if str_eq id "b" then 2 else 3)%positive).
Definition one_record (id : string) (i : nat) : address := (None, Some 1%positive).

(** a jump that carries options and is shared by several nodes passes
    validation only where the plans point to one and the same option record: with
    equal values in records of their own, the same view is rejected. *)
Theorem validateSnapshot_pointer_sensitive :
  validateSnapshot sample_plan_hash sample_view_hash one_record shared_view = Ok tt /\
  exists hop, validateSnapshot sample_plan_hash sample_view_hash own_records shared_view = Err (SHop hop).
Proof. split; [vm_compute; reflexivity|]. eexists. vm_compute. reflexivity. Qed.
