(* ===== verification/Transfer.v ===== *)
(** Transfer records: core/mcp/transfer/record.go, record_bounds.go and the
    authorization of authorization.go.  Validation of specifications and records,
    the encoded size limits and the bounded diagnostics.  The manager that moves
    the records is in [Tasks].

    Instants are integers with Go's zero time as 0.  JSON encoding is a function
    argument that gives the encoded size, [None] where encoding fails. *)
From S2P Require Export Ports GoPath.
From S2P Require Import Exec.
#[local] Open Scope Z_scope.

(** * Data (record.go) *)
Inductive Direction := Upload | Download | OtherDirection (name : string).
#[export] Instance Direction_eq_dec : EqDecision Direction.
Proof. solve_decision. Defined.

Inductive State :=
  | Ready | Transferring | Verifying | Committing | Completed | Streamed | Failed | Cancelled
  | Expired | Unknown | OtherState (name : string).
#[export] Instance State_eq_dec : EqDecision State.
Proof. solve_decision. Defined.

Definition recordVersion : Z := 2.
Definition legacyRecordVersion : Z := 1.
Definition maxRecordBytes : Z := 64 * 1024.

Inductive transfer_error :=
  | EBusy | EConflict | EUnauthorized | ENotFound | EExpired | EClosed | EInvalidState
  | EStoreUnusable | ERecordTooLarge | EBindingRequired
  | EPort (e : port_error)
  | ESpecDigest | ESpecPath | ESpecIdentity | ESpecTarget | ESpecSize | ESpecUpload | ESpecDownload | ESpecDirection
  | ERecordVersion | ERecordLegacy | ERecordToken | ERecordTimes | ERecordTemporary | ERecordDiagnostic
  | ERecordProgress | ERecordResolution | ERecordContent | ERecordState
  | EEncode | EDiagnostic | ESizeLimit | ERandom | ELimits | EDuplicateKey | EDuplicateID
  | EContext | EDeadline | ELength | EContent | ECause.

Record Spec := mkSpec {
  RequestID : string;
  RequestDigest : string;
  RequestedPath : string;
  spScope : string;
  spDirection : Direction;
  spNodeID : string;
  TargetID : string;
  RemotePath : string;
  Size : Z;
  spSHA256 : string;
  Overwrite : bool;
  SourceModTime : Z
}.
#[export] Instance Spec_eq_dec : EqDecision Spec.
Proof. solve_decision. Defined.

Record Authorization := mkAuthorization { auSnapshot : OperationSnapshot; auBinding : Binding }.

Record TransferRecord := mkRecord {
  rVersion : Z;
  rAuthorization : option Authorization;
  rID : string;
  OperationID : string;
  rSpec : Spec;
  TokenDigest : string;
  rState : State;
  CreatedAt : Z;
  UpdatedAt : Z;
  StartBefore : Z;
  StatusExpiresAt : Z;
  TempPath : string;
  TempOwned : bool;
  rBytes : Z;
  rSHA256 : string;
  rError : string;
  rWarning : string;
  CleanupPending : bool;
  CancelRequested : bool;
  Resolved : bool;
  Resolution : string
}.

(** Assignments to fields of a record. *)
Definition set_state (v : State) (r : TransferRecord) : TransferRecord :=
  mkRecord (rVersion r) (rAuthorization r) (rID r) (OperationID r) (rSpec r) (TokenDigest r) v (CreatedAt r)
    (UpdatedAt r) (StartBefore r) (StatusExpiresAt r) (TempPath r) (TempOwned r) (rBytes r) (rSHA256 r)
    (rError r) (rWarning r) (CleanupPending r) (CancelRequested r) (Resolved r) (Resolution r).
Definition set_updated (v : Z) (r : TransferRecord) : TransferRecord :=
  mkRecord (rVersion r) (rAuthorization r) (rID r) (OperationID r) (rSpec r) (TokenDigest r) (rState r)
    (CreatedAt r) v (StartBefore r) (StatusExpiresAt r) (TempPath r) (TempOwned r) (rBytes r) (rSHA256 r)
    (rError r) (rWarning r) (CleanupPending r) (CancelRequested r) (Resolved r) (Resolution r).
Definition set_token (v : string) (r : TransferRecord) : TransferRecord :=
  mkRecord (rVersion r) (rAuthorization r) (rID r) (OperationID r) (rSpec r) v (rState r) (CreatedAt r)
    (UpdatedAt r) (StartBefore r) (StatusExpiresAt r) (TempPath r) (TempOwned r) (rBytes r) (rSHA256 r)
    (rError r) (rWarning r) (CleanupPending r) (CancelRequested r) (Resolved r) (Resolution r).
Definition set_bytes (v : Z) (r : TransferRecord) : TransferRecord :=
  mkRecord (rVersion r) (rAuthorization r) (rID r) (OperationID r) (rSpec r) (TokenDigest r) (rState r)
    (CreatedAt r) (UpdatedAt r) (StartBefore r) (StatusExpiresAt r) (TempPath r) (TempOwned r) v (rSHA256 r)
    (rError r) (rWarning r) (CleanupPending r) (CancelRequested r) (Resolved r) (Resolution r).
Definition set_sha (v : string) (r : TransferRecord) : TransferRecord :=
  mkRecord (rVersion r) (rAuthorization r) (rID r) (OperationID r) (rSpec r) (TokenDigest r) (rState r)
    (CreatedAt r) (UpdatedAt r) (StartBefore r) (StatusExpiresAt r) (TempPath r) (TempOwned r) (rBytes r) v
    (rError r) (rWarning r) (CleanupPending r) (CancelRequested r) (Resolved r) (Resolution r).
Definition set_temp (v : string) (r : TransferRecord) : TransferRecord :=
  mkRecord (rVersion r) (rAuthorization r) (rID r) (OperationID r) (rSpec r) (TokenDigest r) (rState r)
    (CreatedAt r) (UpdatedAt r) (StartBefore r) (StatusExpiresAt r) v (TempOwned r) (rBytes r) (rSHA256 r)
    (rError r) (rWarning r) (CleanupPending r) (CancelRequested r) (Resolved r) (Resolution r).
Definition set_cleanup (v : bool) (r : TransferRecord) : TransferRecord :=
  mkRecord (rVersion r) (rAuthorization r) (rID r) (OperationID r) (rSpec r) (TokenDigest r) (rState r)
    (CreatedAt r) (UpdatedAt r) (StartBefore r) (StatusExpiresAt r) (TempPath r) (TempOwned r) (rBytes r)
    (rSHA256 r) (rError r) (rWarning r) v (CancelRequested r) (Resolved r) (Resolution r).
Definition set_owned (v : bool) (r : TransferRecord) : TransferRecord :=
  mkRecord (rVersion r) (rAuthorization r) (rID r) (OperationID r) (rSpec r) (TokenDigest r) (rState r)
    (CreatedAt r) (UpdatedAt r) (StartBefore r) (StatusExpiresAt r) (TempPath r) v (rBytes r) (rSHA256 r)
    (rError r) (rWarning r) (CleanupPending r) (CancelRequested r) (Resolved r) (Resolution r).
Definition set_error (v : string) (r : TransferRecord) : TransferRecord :=
  mkRecord (rVersion r) (rAuthorization r) (rID r) (OperationID r) (rSpec r) (TokenDigest r) (rState r)
    (CreatedAt r) (UpdatedAt r) (StartBefore r) (StatusExpiresAt r) (TempPath r) (TempOwned r) (rBytes r)
    (rSHA256 r) v (rWarning r) (CleanupPending r) (CancelRequested r) (Resolved r) (Resolution r).
Definition set_warning (v : string) (r : TransferRecord) : TransferRecord :=
  mkRecord (rVersion r) (rAuthorization r) (rID r) (OperationID r) (rSpec r) (TokenDigest r) (rState r)
    (CreatedAt r) (UpdatedAt r) (StartBefore r) (StatusExpiresAt r) (TempPath r) (TempOwned r) (rBytes r)
    (rSHA256 r) (rError r) v (CleanupPending r) (CancelRequested r) (Resolved r) (Resolution r).
Definition set_cancel (v : bool) (r : TransferRecord) : TransferRecord :=
  mkRecord (rVersion r) (rAuthorization r) (rID r) (OperationID r) (rSpec r) (TokenDigest r) (rState r)
    (CreatedAt r) (UpdatedAt r) (StartBefore r) (StatusExpiresAt r) (TempPath r) (TempOwned r) (rBytes r)
    (rSHA256 r) (rError r) (rWarning r) (CleanupPending r) v (Resolved r) (Resolution r).

(** * Validation *)

(** [validHex]: lower-case hexadecimal text of so many bytes. *)
Definition validHex (value : string) (bytes : Z) : bool :=
  (len value =? bytes * 2) && str_eq value (to_lower value) && all_bytes is_hex value.

Definition has_nul (s : string) : bool := exists_byte (Ascii.eqb nul) s.

Definition validateIdentity (s : Spec) : result transfer_error unit :=
  reject negb (str_eq (RequestDigest s) "") && negb (validHex (RequestDigest s) 32) with ESpecDigest;;
  reject (4096 <? len (RequestedPath s)) || has_nul (RequestedPath s) with ESpecPath;;
  reject str_eq (RequestID s) "" || (128 <? len (RequestID s)) || str_eq (spScope s) "" || (256 <? len (spScope s))
    with ESpecIdentity;;
  reject str_eq (spNodeID s) "" || (1024 <? len (spNodeID s)) || str_eq (TargetID s) "" || (1024 <? len (TargetID s))
    with ESpecTarget;;
  Ok tt.

Definition isDriveRoot (p : string) : bool :=
  match p with
  | String a (String b (String c EmptyString)) => Ascii.eqb a slash && Ascii.eqb c ":"%char && is_alpha b
  | _ => false
  end.

(** [Spec.validate] *)
Definition spec_validate (s : Spec) : result transfer_error unit :=
  try _ := validateIdentity s;;
  reject negb (path_is_abs (RemotePath s)) || negb (str_eq (path_clean (RemotePath s)) (RemotePath s)) ||
         str_eq (RemotePath s) "/" || isDriveRoot (RemotePath s) || (4096 <? len (RemotePath s)) ||
         has_nul (RemotePath s) with ESpecPath;;
  reject (Size s <? 0) with ESpecSize;;
  match spDirection s with
  | Upload => reject negb (validHex (spSHA256 s) 32) with ESpecUpload;; Ok tt
  | Download => reject Overwrite s || negb (str_eq (spSHA256 s) "") with ESpecDownload;; Ok tt
  | OtherDirection _ => Err ESpecDirection
  end.

Definition temporaryPath (remotePath id : string) : string :=
  path_join (path_dir remotePath) (".xops-transfer-" +:+ id +:+ ".tmp").

Definition validateTemporary (r : TransferRecord) : result transfer_error unit :=
  reject negb (str_eq (TempPath r) "") &&
         (negb (bool_decide (spDirection (rSpec r) = Upload)) ||
          negb (str_eq (TempPath r) (temporaryPath (RemotePath (rSpec r)) (rID r)))) with ERecordTemporary;;
  reject CleanupPending r && str_eq (TempPath r) "" with ERecordTemporary;;
  reject TempOwned r && str_eq (TempPath r) "" with ERecordTemporary;;
  reject (4096 <? len (rError r)) || (4096 <? len (Resolution r)) || (4096 <? len (rWarning r)) with ERecordDiagnostic;;
  Ok tt.

Definition validateProgress (r : TransferRecord) : result transfer_error unit :=
  reject (rBytes r <? 0) || (Size (rSpec r) <? rBytes r) ||
         (negb (str_eq (rSHA256 r) "") && negb (validHex (rSHA256 r) 32)) with ERecordProgress;;
  reject Resolved r && (negb (bool_decide (rState r = Unknown)) || str_eq (Resolution r) "") with ERecordResolution;;
  reject bool_decide (rState r = Completed) &&
         (negb (rBytes r =? Size (rSpec r)) || negb (str_eq (rSHA256 r) (spSHA256 (rSpec r)))) with ERecordContent;;
  reject bool_decide (rState r = Streamed) &&
         (negb (rBytes r =? Size (rSpec r)) || str_eq (rSHA256 r) "") with ERecordContent;;
  Ok tt.

Definition validateState (direction : Direction) (state : State) : result transfer_error unit :=
  match state with
  | Ready | Transferring | Verifying | Failed | Cancelled | Expired => Ok tt
  | Committing | Completed | Unknown => reject negb (bool_decide (direction = Upload)) with ERecordState;; Ok tt
  | Streamed => reject negb (bool_decide (direction = Download)) with ERecordState;; Ok tt
  | OtherState _ => Err ERecordState
  end.

(** * Authorization (authorization.go) *)

(** How a context has ended, if it has. *)
Inductive ctx_state := Live | CtxCanceled | CtxDeadline.
#[export] Instance ctx_state_eq_dec : EqDecision ctx_state.
Proof. solve_decision. Defined.
Definition ended (c : ctx_state) : bool := match c with Live => false | _ => true end.

(** A permit as its holder sees it; [pm_ctx] is [None] for a nil context. *)
Record Permit := mkPermit {
  pm_phase : Phase;
  pm_binding : Binding;
  pm_snapshot : OperationSnapshot;
  pm_ctx : option ctx_state;
  pm_deadline : option Z
}.

Section Records.
Variable plan_hash : ConnectionPlan -> string.
Variable view_hash : snapshotIdentity -> string.
Variable spec_digest : Spec -> option string.
(** The length of the JSON form. *)
Variable record_size : TransferRecord -> option Z.

Definition port_result {A} (r : result port_error A) : result transfer_error A :=
  match r with Ok a => Ok a | Err e => Err (EPort e) end.

(** [(a *Authorization) validate] *)
Definition authorization_validate (a : option Authorization) (spec : Spec) : result transfer_error unit :=
  match a with
  | None => Err EBindingRequired
  | Some a =>
      try want := port_result (Bind plan_hash view_hash (auSnapshot a) (spScope spec) "transfer" (spec_digest spec));;
      reject negb (bool_decide (want = auBinding a)) with EPort ErrStaleBinding;;
      reject negb (size (Targets (auSnapshot a)) =? 1)%nat with EPort ErrStaleBinding;;
      try _ := port_result (Resolve (auSnapshot a) (spNodeID spec));;
      Ok tt
  end.

(** [Record.CheckPermit] *)
Definition CheckPermit (r : TransferRecord) (permit : option Permit) (phase : Phase) : result transfer_error unit :=
  try _ := authorization_validate (rAuthorization r) (rSpec r);;
  match permit, rAuthorization r with
  | Some p, Some a =>
      reject negb (bool_decide (pm_phase p = phase)) || negb (bool_decide (pm_binding p = auBinding a))
        with EPort ErrStaleBinding;;
      try _ := port_result (Validate plan_hash view_hash (pm_binding p) (pm_snapshot p));;
      match pm_ctx p with
      | None => Err EBindingRequired
      | Some c => reject ended c with EContext;; Ok tt
      end
  | _, _ => Err (EPort ErrStaleBinding)
  end.

Definition is_none {A} (o : option A) : bool := match o with None => true | Some _ => false end.

(** [Record.validate] *)
Definition record_validate (r : TransferRecord) : result transfer_error unit :=
  reject (negb (rVersion r =? recordVersion) && negb (rVersion r =? legacyRecordVersion)) ||
         negb (validHex (rID r) 16) || str_eq (OperationID r) "" || (128 <? len (OperationID r)) with ERecordVersion;;
  try _ := (if rVersion r =? recordVersion then authorization_validate (rAuthorization r) (rSpec r)
            else reject_if (negb (is_none (rAuthorization r))) ERecordLegacy);;
  try _ := spec_validate (rSpec r);;
  reject negb (validHex (TokenDigest r) 32) with ERecordToken;;
  reject (CreatedAt r =? 0) || (UpdatedAt r <? CreatedAt r) || negb (CreatedAt r <? StartBefore r) ||
         negb (StartBefore r <? StatusExpiresAt r) with ERecordTimes;;
  try _ := validateTemporary r;;
  try _ := validateProgress r;;
  validateState (spDirection (rSpec r)) (rState r).

(** [encodeRecord] *)
Definition encodeRecord (r : TransferRecord) : result transfer_error unit :=
  try _ := record_validate r;;
  match record_size r with
  | None => Err EEncode
  | Some n => reject (maxRecordBytes <? n) with ERecordTooLarge;; Ok tt
  end.

(** * Sizes (record_bounds.go) *)
Definition maxDiagnosticBytes : Z := 4096.

(** [utf8.RuneLen] of a decoded rune. *)
Definition rune_len (r : N) : Z :=
  if (r <? 128)%N then 1 else if (r <? 2048)%N then 2 else if (r <? 65536)%N then 3 else 4.

(** The cost of one rune in the JSON form. *)
Definition rune_cost (r : N) : Z :=
  if (r =? 34)%N || (r =? 92)%N || (r =? 8)%N || (r =? 12)%N || (r =? 10)%N || (r =? 13)%N || (r =? 9)%N then 2
  else if (r =? 60)%N || (r =? 62)%N || (r =? 38)%N || (r =? 8232)%N || (r =? 8233)%N then 6
  else if (r <? 32)%N then 6
  else rune_len r.

(** The loop of [diagnosticPrefix] at byte [index]; [skip] bytes of a rune remain. *)
Fixpoint prefix_loop (skip : nat) (size index : Z) (s : string) : Z :=
  match s with
  | EmptyString => index
  | String _ s' =>
      match skip with
      | S k => prefix_loop k size (index + 1) s'
      | O =>
          let '(r, w) := decode_rune s in
          if maxDiagnosticBytes <? size + rune_cost r then index
          else prefix_loop (w - 1) (size + rune_cost r) (index + 1) s'
      end
  end.
Definition diagnosticPrefix (value : string) : Z := prefix_loop 0 0 0 value.

(** [utf8.ValidString] *)
Fixpoint valid_utf8_from (skip : nat) (s : string) : bool :=
  match s with
  | EmptyString => true
  | String _ s' =>
      match skip with
      | S k => valid_utf8_from k s'
      | O => let '(r, w) := decode_rune s in
             if (r =? rune_error)%N && (w =? 1)%nat then false else valid_utf8_from (w - 1) s'
      end
  end.
Definition valid_utf8 (s : string) : bool := valid_utf8_from 0 s.

Definition ValidateDiagnostic (value : string) : result transfer_error unit :=
  reject negb (valid_utf8 value) || negb (diagnosticPrefix value =? len value) with EDiagnostic;; Ok tt.

(** [strings.ToValidUTF8(s, U+FFFD)]: one replacement for each run of bad bytes. *)
Fixpoint to_valid_utf8 (skip : nat) (in_run : bool) (s : string) : string :=
  match s with
  | EmptyString => EmptyString
  | String c s' =>
      match skip with
      | S k => String c (to_valid_utf8 k false s')
      | O => let '(r, w) := decode_rune s in
             if (r =? rune_error)%N && (w =? 1)%nat
             then (if in_run then "" else replacement) +:+ to_valid_utf8 0 true s'
             else String c (to_valid_utf8 (w - 1) false s')
      end
  end.

Definition boundedDiagnostic (value : string) : string :=
  let value := to_valid_utf8 0 false value in
  take_bytes (Z.to_nat (diagnosticPrefix value)) value.

(** Text of [n] copies of a byte ([strings.Repeat]). *)
Fixpoint repeat_byte (c : ascii) (n : nat) : string :=
  match n with O => EmptyString | S m => String c (repeat_byte c m) end.

(** The last instant of the year 9999, in nanoseconds. *)
Definition max_time : Z := 315537897599999999999.

(** The projection of [validatePreparationSize]. *)
Definition worst_case (r : TransferRecord) : TransferRecord :=
  let long := repeat_byte "e"%char (Z.to_nat maxDiagnosticBytes) in
  mkRecord (rVersion r) (rAuthorization r) (rID r) (OperationID r) (rSpec r) (TokenDigest r) Transferring
    (CreatedAt r) max_time (StartBefore r) (StatusExpiresAt r)
    (if bool_decide (spDirection (rSpec r) = Upload) then temporaryPath (RemotePath (rSpec r)) (rID r) else TempPath r)
    false (Size (rSpec r)) (repeat_byte "f"%char 64) long long false false false long.

Definition validatePreparationSize (r : TransferRecord) : result transfer_error unit :=
  try _ := encodeRecord r;;
  match record_size (worst_case r) with
  | None => Err EEncode
  | Some n => reject (maxRecordBytes <? n) with ERecordTooLarge;; Ok tt
  end.
End Records.
