(* ===== verification/Tasks.v ===== *)
(** The transfer manager: core/mcp/transfer/manager.go, lease.go, management.go
    and the manager part of authorization.go.

    Every function under the manager's lock is one operation of a state and error
    monad.  The journal is part of the state: a save can succeed, fail without
    effect, or fail after it was applied.  [task_step] is the lifecycle that the
    manager promises, in small steps, and [lawful] what a single call may do to the tasks;
    the theorems show that every operation keeps to both and what the lifecycle
    guarantees. *)
From S2P Require Import Exec.
From S2P Require Export Transfer.
#[local] Open Scope Z_scope.

(** * State (manager.go) *)
Record Limits := mkLimits {
  MaxFileBytes : Z;
  MaxActive : Z;
  MaxPerTarget : Z;
  MaxReady : Z;
  MaxRecords : Z;
  StartWindow : Z;
  Retention : Z;
  TotalTimeout : Z;
  CommitTimeout : Z
}.

Definition second : Z := 1000000000.
Definition DefaultLimits : Limits :=
  mkLimits (Z.shiftl 10 30) 4 2 256 4096 (5 * 60 * second) (24 * 3600 * second) (2 * 3600 * second) (30 * second).

(** [Limits.Validate] *)
Definition limits_validate (l : Limits) : result transfer_error unit :=
  reject (MaxFileBytes l <=? 0) || (Z.shiftl 1 50 <? MaxFileBytes l) || (MaxActive l <=? 0) || (1024 <? MaxActive l) ||
         (MaxPerTarget l <=? 0) || (MaxReady l <=? 0) || (MaxRecords l <=? 0) || (65536 <? MaxRecords l) with ELimits;;
  reject (MaxActive l <? MaxPerTarget l) || (MaxRecords l <? MaxReady l) with ELimits;;
  reject (StartWindow l <=? 0) || (TotalTimeout l <=? 0) || (CommitTimeout l <=? 0) || (Retention l <=? StartWindow l) ||
         (Retention l - StartWindow l <=? TotalTimeout l) ||
         (Retention l - StartWindow l - TotalTimeout l <=? CommitTimeout l) with ELimits;;
  Ok tt.

(** The public view of a record. *)
Record Status := mkStatus {
  stID : string;
  stOperationID : string;
  stDirection : Direction;
  stNodeID : string;
  stRemotePath : string;
  stState : State;
  stSize : Z;
  stBytes : Z;
  stSHA256 : string;
  stError : string;
  stWarning : string;
  stCleanupPending : bool;
  stTempOwned : bool;
  stCancelRequested : bool;
  stResolved : bool;
  stStartBefore : Z;
  stStatusExpiresAt : Z;
  stUpdatedAt : Z
}.

Definition statusOf (r : TransferRecord) : Status :=
  mkStatus (rID r) (OperationID r) (spDirection (rSpec r)) (spNodeID (rSpec r)) (RemotePath (rSpec r)) (rState r)
    (Size (rSpec r)) (rBytes r) (rSHA256 r) (rError r) (rWarning r) (CleanupPending r) (TempOwned r)
    (CancelRequested r) (Resolved r) (StartBefore r) (StatusExpiresAt r) (UpdatedAt r).

Definition request_key (s : Spec) : string * string := (spScope s, RequestID s).

(** [at_attached]: the end of the request or of the stream permit still cancels
    the task ([stopRequest] has not run). *)
Record activeTask := mkTask {
  at_ctx : ctx_state;
  at_request : ctx_state;
  at_deadline : Z;
  commitReserved : bool;
  at_attached : bool
}.

(** [m_disk] is what the store holds. *)
Record Manager := mkManager {
  m_limits : Limits;
  m_records : gmap string TransferRecord;
  m_requests : gmap (string * string) string;
  m_active : gmap string activeTask;
  m_closed : bool;
  m_ctx_done : bool;
  m_storeErr : bool;
  m_disk : gmap string TransferRecord
}.

Definition set_records (v : gmap string TransferRecord) (m : Manager) : Manager :=
  mkManager (m_limits m) v (m_requests m) (m_active m) (m_closed m) (m_ctx_done m) (m_storeErr m) (m_disk m).
Definition set_requests (v : gmap (string * string) string) (m : Manager) : Manager :=
  mkManager (m_limits m) (m_records m) v (m_active m) (m_closed m) (m_ctx_done m) (m_storeErr m) (m_disk m).
Definition set_active (v : gmap string activeTask) (m : Manager) : Manager :=
  mkManager (m_limits m) (m_records m) (m_requests m) v (m_closed m) (m_ctx_done m) (m_storeErr m) (m_disk m).
Definition set_storeErr (m : Manager) : Manager :=
  mkManager (m_limits m) (m_records m) (m_requests m) (m_active m) (m_closed m) (m_ctx_done m) true (m_disk m).
Definition set_disk (v : gmap string TransferRecord) (m : Manager) : Manager :=
  mkManager (m_limits m) (m_records m) (m_requests m) (m_active m) (m_closed m) (m_ctx_done m) (m_storeErr m) v.
Definition set_closed (closed ctx_done : bool) (m : Manager) : Manager :=
  mkManager (m_limits m) (m_records m) (m_requests m) (m_active m) closed ctx_done (m_storeErr m) (m_disk m).
(** [m.records[r.ID] = r] *)
Definition put_record (r : TransferRecord) (m : Manager) : Manager := set_records (<[rID r := r]> (m_records m)) m.

(** * The monad of the operations *)
Definition op (A : Type) : Type := Manager -> result transfer_error A * Manager.
Definition op_ret {A} (a : A) : op A := fun m => (Ok a, m).
Definition op_fail {A} (e : transfer_error) : op A := fun m => (Err e, m).
Definition op_bind {A B} (c : op A) (k : A -> op B) : op B :=
  fun m => match c m with
           | (Ok a, m') => k a m'
           | (Err e, m') => (Err e, m')
           end.
(** The state, an update of it, a pure computation that can fail, a guard. *)
Definition get : op Manager := fun m => (Ok m, m).
Definition modify (f : Manager -> Manager) : op unit := fun m => (Ok tt, f m).
Definition pure {A} (r : result transfer_error A) : op A := fun m => (r, m).
Definition guard (b : bool) (e : transfer_error) : op unit := fun m => (reject_if b e, m).
(** The error of a computation is kept as a value ([err := m.save(r)]). *)
Definition caught (c : op unit) : op (option transfer_error) :=
  fun m => match c m with (Ok _, m') => (Ok None, m') | (Err e, m') => (Ok (Some e), m') end.

Notation "x <- c ;; k" := (op_bind c (fun x => k))
  (at level 100, c at next level, right associativity) : xops_scope.
Notation "c ;;; k" := (op_bind c (fun _ : unit => k))
  (at level 100, right associativity) : xops_scope.

(** How the store answers. *)
Inductive outcome := Stored | AppliedError | LostError.
(** The clock, the store and the order in which a range visits the records of a call. *)
Record Env := mkEnv {
  now : Z; save_io : string -> outcome; remove_io : string -> outcome;
  ordered : list TransferRecord -> list TransferRecord; ordered_all : forall l, Permutation (ordered l) l
}.

Section Manager.
Variable plan_hash : ConnectionPlan -> string.
Variable view_hash : snapshotIdentity -> string.
Variable spec_digest : Spec -> option string.
Variable record_size : TransferRecord -> option Z.
(** SHA-256 of a token, in hexadecimal. *)
Variable token_hash : string -> string.
Variable env : Env.

Definition encode (r : TransferRecord) : result transfer_error unit :=
  encodeRecord plan_hash view_hash spec_digest record_size r.

(** ** Storage *)
Definition mutationAllowed : op unit :=
  m <- get;;
  guard (m_closed m || m_ctx_done m) EClosed;;;
  guard (m_storeErr m) EStoreUnusable.

Definition save (r : TransferRecord) : op unit :=
  pure (encode r);;;
  match save_io env (rID r) with
  | Stored => modify (fun m => put_record r (set_disk (<[rID r := r]> (m_disk m)) m))
  | AppliedError =>
      modify (fun m => set_storeErr (set_disk (<[rID r := r]> (m_disk m)) m));;;
      op_fail EStoreUnusable
  | LostError => modify set_storeErr;;; op_fail EStoreUnusable
  end.

(** [err := m.save(r); m.records[id] = r]: memory keeps the change. *)
Definition save_sticky (r : TransferRecord) : op (option transfer_error) :=
  err <- caught (save r);;
  modify (put_record r);;;
  op_ret err.

(** [store.Remove] of one record and its removal from memory. *)
Definition remove_record (r : TransferRecord) : op unit :=
  match remove_io env (rID r) with
  | Stored =>
      modify (fun m => set_disk (delete (rID r) (m_disk m))
                         (set_requests (delete (request_key (rSpec r)) (m_requests m))
                           (set_records (delete (rID r) (m_records m)) m)))
  | AppliedError =>
      modify (fun m => set_storeErr (set_disk (delete (rID r) (m_disk m)) m));;; op_fail EStoreUnusable
  | LostError => modify set_storeErr;;; op_fail EStoreUnusable
  end.

Definition unresolved (r : TransferRecord) : bool := bool_decide (rState r = Unknown) && negb (Resolved r).
(** Past its retention, with no evidence that must be kept. *)
Definition collectable (r : TransferRecord) : bool :=
  negb ((now env <? StatusExpiresAt r) || CleanupPending r || unresolved r).

Definition collect_one (r : TransferRecord) : op unit :=
  m <- get;;
  if bool_decide (is_Some (m_active m !! rID r)) then op_ret tt
  else
    let due := bool_decide (rState r = Ready) && negb (now env <? StartBefore r) in
    let r' := if due then set_updated (now env) (set_state Expired r) else r in
    (if due then save r' else op_ret tt);;;
    if collectable r' then remove_record r' else op_ret tt.

Fixpoint collect_all (l : list TransferRecord) : op unit :=
  match l with
  | [] => op_ret tt
  | r :: rest => collect_one r;;; collect_all rest
  end.
Definition collect : op unit := m <- get;; collect_all (ordered env ((map_to_list (m_records m)).*2)).

(** ** Preparation *)
Definition Prepared : Type := Status * option string.

(** [issue]: [token] is fresh randomness, [None] when there is none. *)
Definition issue (token : option string) (r : TransferRecord) : op Prepared :=
  match token with
  | None => op_fail ERandom
  | Some token =>
      let r := set_updated (now env) (set_token (token_hash token) r) in
      pure (validatePreparationSize plan_hash view_hash spec_digest record_size r);;;
      save r;;;
      op_ret (statusOf r, Some token)
  end.

Definition readyCount (m : Manager) : Z :=
  Z.of_nat (length (List.filter (fun r => bool_decide (rState r = Ready)) ((map_to_list (m_records m)).*2))).

Definition same_destination (a b : Spec) : bool :=
  str_eq (TargetID a) (TargetID b) && str_eq (RemotePath a) (RemotePath b).

(** An upload whose destination has an uncertain commit. *)
Definition pathBlocked (spec : Spec) (m : Manager) : bool :=
  if bool_decide (spDirection spec = Upload)
  then existsb (fun r => unresolved r && same_destination (rSpec r) spec) ((map_to_list (m_records m)).*2)
  else false.

Definition same_authorization (a b : option Authorization) : bool :=
  match a, b with
  | None, None => true
  | Some a, Some b => bool_decide (auBinding a = auBinding b)
  | _, _ => false
  end.

Definition new_record (l : Limits) (authorization : option Authorization) (id operationID : string) (spec : Spec)
    : TransferRecord :=
  mkRecord (if is_none authorization then legacyRecordVersion else recordVersion) authorization id operationID spec ""
    Ready (now env) (now env) (now env + StartWindow l) (now env + Retention l) "" false 0 "" "" "" false false false "".

Definition prepare (spec : Spec) (operationID : string) (authorization : option Authorization)
    (fresh token : option string) : op Prepared :=
  pure (spec_validate spec);;;
  m <- get;;
  guard (MaxFileBytes (m_limits m) <? Size spec) ESizeLimit;;;
  mutationAllowed;;;
  collect;;;
  m <- get;;
  match m_requests m !! request_key spec with
  | Some id =>
      match m_records m !! id with
      | None => op_fail EConflict
      | Some r =>
          guard (negb (bool_decide (rSpec r = spec)) || negb (same_authorization (rAuthorization r) authorization))
            EConflict;;;
          if bool_decide (rState r = Ready) then issue token r else op_ret (statusOf r, None)
      end
  | None =>
      guard ((MaxRecords (m_limits m) <=? Z.of_nat (size (m_records m))) || (MaxReady (m_limits m) <=? readyCount m))
        EBusy;;;
      guard (pathBlocked spec m) EConflict;;;
      match fresh with
      | None => op_fail ERandom
      | Some id =>
          prepared <- issue token (new_record (m_limits m) authorization id operationID spec);;
          modify (fun m => set_requests (<[request_key spec := id]> (m_requests m)) m);;;
          op_ret prepared
      end
  end.

Definition check_permit (r : TransferRecord) (permit : option Permit) (phase : Phase) : op unit :=
  pure (CheckPermit plan_hash view_hash spec_digest r permit phase).

Definition PrepareBound (spec : Spec) (operationID : string) (permit : option Permit) (fresh token : option string)
    : op Prepared :=
  match permit with
  | None => op_fail EBindingRequired
  | Some p =>
      let a := mkAuthorization (pm_snapshot p) (pm_binding p) in
      check_permit (mkRecord 0 (Some a) "" "" spec "" (OtherState "") 0 0 0 0 "" false 0 "" "" "" false false false "")
        permit Inspect;;;
      prepare spec operationID (Some a) fresh token
  end.

(** ** Reading *)
Definition authenticate (id token : string) : op TransferRecord :=
  m <- get;;
  match m_records m !! id with
  | None => op_fail EUnauthorized
  | Some r =>
      guard (negb (all_bytes is_hex (TokenDigest r) && str_eq (to_lower (TokenDigest r)) (token_hash token)) ||
             negb (now env <? StatusExpiresAt r)) EUnauthorized;;;
      op_ret r
  end.

Definition currentStatus (r : TransferRecord) : Status :=
  statusOf (if bool_decide (rState r = Ready) && negb (now env <? StartBefore r) then set_state Expired r else r).

Definition Authenticate (id token : string) : op Status := r <- authenticate id token;; op_ret (currentStatus r).

Definition lookup_scoped (scope id : string) : op TransferRecord :=
  m <- get;;
  match m_records m !! id with
  | None => op_fail ENotFound
  | Some r => guard (negb (str_eq (spScope (rSpec r)) scope)) ENotFound;;; op_ret r
  end.
Definition Lookup (scope id : string) : op Status := r <- lookup_scoped scope id;; op_ret (currentStatus r).

(** ** Leases (lease.go) *)
Definition hasCapacity (spec : Spec) (m : Manager) : bool :=
  let others := omap (fun id => rSpec <$> m_records m !! id) (elements (dom (m_active m))) in
  let on_target := List.filter (fun o => str_eq (TargetID o) (TargetID spec)) others in
  negb (MaxActive (m_limits m) <=? Z.of_nat (size (m_active m))) &&
  negb (existsb (fun o => bool_decide (spDirection o = Upload) && bool_decide (spDirection spec = Upload) &&
                          str_eq (RemotePath o) (RemotePath spec)) on_target) &&
  (Z.of_nat (length on_target) <? MaxPerTarget (m_limits m)).

(** [newActiveTask] for a live request. *)
Definition newActiveTask (l : Limits) (permit : option Permit) : activeTask :=
  let deadline := now env + TotalTimeout l in
  mkTask Live Live
    (match permit with
     | Some p => match pm_deadline p with Some d => Z.min d deadline | None => deadline end
     | None => deadline
     end) false true.

(** [claim]; the lease is the id with the approved specification. *)
Definition claim (ctx : ctx_state) (id token : string) (direction : Direction) (permit : option Permit)
    : op (string * Spec) :=
  guard (ended ctx) EContext;;;
  mutationAllowed;;;
  r <- authenticate id token;;
  (if negb (is_none (rAuthorization r)) || negb (is_none permit) then check_permit r permit TransferStart else op_ret tt);;;
  guard (negb (bool_decide (spDirection (rSpec r) = direction))) EUnauthorized;;;
  guard (bool_decide (rState r = Expired)) EExpired;;;
  guard (negb (bool_decide (rState r = Ready))) EInvalidState;;;
  if negb (now env <? StartBefore r)
  then _ <- caught (save (set_updated (now env) (set_state Expired r)));; op_fail EExpired
  else
    m <- get;;
    guard (pathBlocked (rSpec r) m) EConflict;;;
    guard (negb (hasCapacity (rSpec r) m)) EBusy;;;
    save (set_updated (now env) (set_state Transferring r));;;
    modify (fun m => set_active (<[id := newActiveTask (m_limits m) permit]> (m_active m)) m);;;
    op_ret (id, rSpec r).

(** The record of a lease with its active task. *)
Definition leased (id : string) (e : transfer_error) : op (TransferRecord * activeTask) :=
  m <- get;;
  match m_records m !! id, m_active m !! id with
  | Some r, Some a => op_ret (r, a)
  | _, _ => op_fail e
  end.

Definition Progress (id : string) (bytes : Z) : op unit :=
  ra <- leased id EInvalidState;;
  let r := ra.1 in
  guard (negb (bool_decide (rState r = Transferring))) EInvalidState;;;
  guard ((bytes <? 0) || (Size (rSpec r) - rBytes r <? bytes)) ELength;;;
  modify (put_record (set_updated (now env) (set_bytes (rBytes r + bytes) r))).

Definition Temporary (id : string) : op string :=
  ra <- leased id EInvalidState;;
  let r := ra.1 in
  guard (negb (bool_decide (rState r = Transferring)) || negb (bool_decide (spDirection (rSpec r) = Upload))) EInvalidState;;;
  let r := set_updated (now env) (set_cleanup true (set_temp (temporaryPath (RemotePath (rSpec r)) (rID r)) r)) in
  save r;;;
  op_ret (TempPath r).

Definition Verify (id : string) (bytes : Z) (digest : string) : op unit :=
  ra <- leased id EInvalidState;;
  let '(r, a) := ra in
  guard (negb (bool_decide (rState r = Transferring))) EInvalidState;;;
  guard (ended (at_ctx a) && bool_decide (spDirection (rSpec r) = Upload)) EContext;;;
  guard (negb (bytes =? Size (rSpec r)) || negb (bytes =? rBytes r) || negb (validHex digest 32)) ELength;;;
  guard (bool_decide (spDirection (rSpec r) = Upload) && negb (str_eq digest (spSHA256 (rSpec r)))) EContent;;;
  save (set_updated (now env) (set_state Verifying (set_sha digest (set_bytes bytes r)))).

Definition ConfirmTemporary (id : string) : op (option transfer_error) :=
  ra <- leased id EInvalidState;;
  let r := ra.1 in
  guard (negb (bool_decide (rState r = Transferring)) || str_eq (TempPath r) "") EInvalidState;;;
  save_sticky (set_updated (now env) (set_owned true r)).

Definition set_task (id : string) (a : activeTask) (m : Manager) : Manager := set_active (<[id := a]> (m_active m)) m.
Definition cancel_ctx (c : ctx_state) : ctx_state := match c with Live => CtxCanceled | _ => c end.
(** [a.cancel()], and [a.stopRequest(); a.cancel()] *)
Definition cancelled_task (a : activeTask) : activeTask :=
  mkTask (cancel_ctx (at_ctx a)) (at_request a) (at_deadline a) (commitReserved a) (at_attached a).
Definition stopped_task (a : activeTask) : activeTask :=
  mkTask (cancel_ctx (at_ctx a)) (at_request a) (at_deadline a) (commitReserved a) false.

(** The guards of [reserveCommit] and [beginCommit]. *)
Definition commit_ready (r : TransferRecord) : bool :=
  bool_decide (rState r = Verifying) && bool_decide (spDirection (rSpec r) = Upload) &&
  negb (str_eq (TempPath r) "") && TempOwned r.

Definition reserveCommit (id : string) (permit : option Permit) : op unit :=
  ra <- leased id EInvalidState;;
  let '(r, a) := ra in
  guard (negb (commit_ready r)) EInvalidState;;;
  check_permit r permit Commit;;;
  if commitReserved a then op_ret tt
  else
    mutationAllowed;;;
    guard (CancelRequested r) EContext;;;
    guard (ended (at_request a)) EContext;;;
    guard (negb (now env <? at_deadline a)) EDeadline;;;
    modify (set_task id (mkTask (at_ctx a) (at_request a) (at_deadline a) true (at_attached a))).

Definition beginCommit (id : string) (permit : option Permit) : op unit :=
  ra <- leased id EInvalidState;;
  let '(r, a) := ra in
  guard (negb (commit_ready r)) EInvalidState;;;
  (if negb (is_none (rAuthorization r)) || negb (is_none permit) then reserveCommit id permit
   else guard (ended (at_ctx a)) EContext);;;
  ra <- leased id EInvalidState;;
  (if commitReserved ra.2 then m <- get;; guard (m_storeErr m) EStoreUnusable else mutationAllowed);;;
  save (set_updated (now env) (set_state Committing r));;;
  modify (set_task id (mkTask Live (at_request ra.2) (at_deadline ra.2) (commitReserved ra.2) false)).

Definition BeginCommitBound (id : string) (permit : option Permit) : op unit :=
  match permit with None => op_fail EBindingRequired | Some _ => beginCommit id permit end.

Definition Complete (id : string) : op (Status * option transfer_error) :=
  ra <- leased id EInvalidState;;
  let '(r, a) := ra in
  r' <- (if bool_decide (rState r = Committing) && bool_decide (spDirection (rSpec r) = Upload)
         then op_ret (set_cleanup false (set_state Completed r))
         else if bool_decide (rState r = Verifying) && bool_decide (spDirection (rSpec r) = Download)
         then op_ret (set_state Streamed r)
         else op_fail EInvalidState);;
  let r' := set_updated (now env) r' in
  err <- save_sticky r';;
  modify (set_task id (stopped_task a));;;
  op_ret (statusOf r', err).

Definition terminalState (s : State) : bool :=
  match s with Completed | Streamed | Failed | Cancelled | Expired | Unknown => true | _ => false end.

Definition with_cause (cause : option string) (r : TransferRecord) : TransferRecord :=
  match cause with Some c => set_error (boundedDiagnostic c) r | None => r end.

(** The state that [Fail] gives. *)
Definition failed_state (r : TransferRecord) (a : activeTask) : State :=
  if bool_decide (rState r = Committing) then Unknown
  else if CancelRequested r ||
          (negb (commitReserved a) &&
           (bool_decide (at_ctx a = CtxCanceled) || bool_decide (at_request a = CtxCanceled)))
  then Cancelled else Failed.

Definition Fail_ (id : string) (cause : option string) : op (option transfer_error) :=
  m <- get;;
  match m_records m !! id, m_active m !! id with
  | Some r, Some a =>
      if terminalState (rState r) then op_ret None
      else
        err <- save_sticky (set_updated (now env) (with_cause cause (set_state (failed_state r a) r)));;
        modify (set_task id (stopped_task a));;;
        op_ret err
  | _, _ => op_ret None
  end.

(** [Lease.Close]; the release deletes the active task. *)
Definition lease_close (id : string) : op (option transfer_error) :=
  err <- Fail_ id (Some "transfer handler ended without confirming completion");;
  modify (fun m => set_active (delete id (m_active m)) m);;;
  op_ret err.

Definition RejectCommit (id : string) (cause : option string) : op (option transfer_error) :=
  ra <- leased id EInvalidState;;
  let '(r, a) := ra in
  guard (negb (bool_decide (rState r = Committing))) EInvalidState;;;
  match cause with
  | None => op_fail ECause
  | Some c =>
      err <- save_sticky (set_updated (now env) (set_error (boundedDiagnostic c) (set_state Failed r)));;
      modify (set_task id (stopped_task a));;;
      op_ret err
  end.

(** ** Cancellation and management *)
Definition running (s : State) : bool := match s with Ready | Transferring | Verifying => true | _ => false end.

Definition cancelTask (r : TransferRecord) : op (Status * option transfer_error) :=
  m <- get;;
  let a := m_active m !! rID r in
  guard (match a with Some a => commitReserved a && bool_decide (rState r = Verifying) | None => false end) EInvalidState;;;
  guard (bool_decide (rState r = Committing) || bool_decide (rState r = Unknown)) EInvalidState;;;
  if negb (running (rState r)) then op_ret (statusOf r, None)
  else
    let r := set_updated (now env) (set_cancel true r) in
    let r := if bool_decide (rState r = Ready) then set_state Cancelled r else r in
    err <- save_sticky r;;
    modify (fun m => match m_active m !! rID r with
                     | Some a => set_task (rID r) (cancelled_task a) m
                     | None => m
                     end);;;
    op_ret (statusOf r, err).

Definition Cancel (scope id : string) : op (Status * option transfer_error) :=
  r <- lookup_scoped scope id;; cancelTask r.
Definition CancelWithToken (id token : string) : op (Status * option transfer_error) :=
  r <- authenticate id token;; cancelTask r.

(** A record by its id. *)
Definition find_record (id : string) : op TransferRecord :=
  m <- get;;
  match m_records m !! id with None => op_fail ENotFound | Some r => op_ret r end.

Definition Cleaned (id : string) : op unit :=
  r <- find_record id;;
  guard (unresolved r) EInvalidState;;;
  save (set_updated (now env) (set_cleanup false r)).

Definition Warn (id warning : string) : op (option transfer_error) :=
  r <- find_record id;;
  save_sticky (set_updated (now env) (set_warning (boundedDiagnostic warning) r)).

(** The task of a request, [None] when there is none; its digest must agree. *)
Definition find_request (scope requestID digest : string) : op (option TransferRecord) :=
  mutationAllowed;;;
  collect;;;
  m <- get;;
  match m_requests m !! (scope, requestID) with
  | None => op_ret None
  | Some id =>
      match m_records m !! id with
      | None => op_fail EConflict
      | Some r =>
          guard (str_eq digest "" || negb (str_eq (RequestDigest (rSpec r)) digest)) EConflict;;;
          op_ret (Some r)
      end
  end.
Definition FindRequest : string -> string -> string -> op (option TransferRecord) := find_request.

Definition Retry (scope requestID requestDigest : string) (token : option string) : op (option Prepared) :=
  found <- find_request scope requestID requestDigest;;
  match found with
  | None => op_ret None
  | Some r =>
      if negb (bool_decide (rState r = Ready)) then op_ret (Some (statusOf r, None))
      else
        guard (negb (is_none (rAuthorization r))) EBindingRequired;;;
        p <- issue token r;;
        op_ret (Some p)
  end.

Definition RetryBound (id : string) (permit : option Permit) (token : option string) : op Prepared :=
  mutationAllowed;;;
  collect;;;
  r <- find_record id;;
  if negb (bool_decide (rState r = Ready)) then op_ret (statusOf r, None)
  else
    check_permit r permit Inspect;;;
    issue token r.

Definition InvalidateReady (id : string) (cause : option string) : op unit :=
  mutationAllowed;;;
  r <- find_record id;;
  if negb (bool_decide (rState r = Ready)) then op_ret tt
  else
    match cause with
    | None => op_fail ECause
    | Some c => save (set_updated (now env) (set_error (boundedDiagnostic c) (set_state Failed r)))
    end.

(** ** Shutdown *)

(** The first part of [Shutdown]: no more claims; work before its commit ends. *)
Definition shutdown_begin (m : Manager) : Manager :=
  set_active (map_imap (fun id a =>
      Some (if match m_records m !! id with Some r => bool_decide (rState r = Committing) | None => false end ||
               commitReserved a then a else cancelled_task a)) (m_active m))
    (set_closed true (m_ctx_done m) m).
(** After the last lease, and at the deadline of the shutdown. *)
Definition shutdown_drained (m : Manager) : Manager := set_closed (m_closed m) true m.
Definition shutdown_timeout (m : Manager) : Manager := set_active (cancelled_task <$> m_active m) m.

(** ** Recovery *)
Definition recovered_state (r : TransferRecord) : State * string :=
  match rState r with
  | Ready => (Expired, "service restarted before transfer began")
  | Transferring | Verifying => (Failed, "service restarted before commit")
  | Committing => (Unknown, "service restarted with uncertain commit result")
  | s => (s, rError r)
  end.

Definition recovery_warning : string :=
  "recovery state is in memory; original journal retained because it has no update headroom".

(** One record of [recoverRecords]; a failed save ends the recovery. *)
Definition recover_one (r : TransferRecord) (m : Manager) : result transfer_error Manager :=
  try _ := record_validate plan_hash view_hash spec_digest r;;
  reject bool_decide (is_Some (m_requests m !! request_key (rSpec r))) with EDuplicateKey;;
  reject bool_decide (is_Some (m_records m !! rID r)) with EDuplicateID;;
  let keep r m := set_requests (<[request_key (rSpec r) := rID r]> (m_requests m)) (put_record r m) in
  let '(state, error) := recovered_state r in
  if bool_decide (state = rState r) then Ok (keep r m)
  else
    let r' := set_updated (now env) (set_error error (set_state state r)) in
    match encode r' with
    | Err ERecordTooLarge => Ok (keep (set_warning (boundedDiagnostic recovery_warning) r') m)
    | Err e => Err e
    | Ok _ =>
        match save_io env (rID r) with
        | Stored => Ok (keep r' (set_disk (<[rID r := r']> (m_disk m)) m))
        | _ => Err EStoreUnusable
        end
    end.

Fixpoint recoverRecords (l : list TransferRecord) (m : Manager) : result transfer_error Manager :=
  match l with
  | [] => Ok m
  | r :: rest => try m' := recover_one r m;; recoverRecords rest m'
  end.

(** [NewManager] on a store that holds [disk]; [loaded] is the store's answer. *)
Definition NewManager (ctx : ctx_state) (limits : Limits) (disk : gmap string TransferRecord)
    (loaded : result transfer_error (list TransferRecord)) : result transfer_error Manager :=
  reject ended ctx with EContext;;
  try _ := limits_validate limits;;
  try records := loaded;;
  recoverRecords records (mkManager limits ∅ ∅ ∅ false false false disk).
End Manager.

(** * The lifecycle of a task *)

(** What no operation changes. *)
Record same_task (r r' : TransferRecord) : Prop := {
  sm_id : rID r' = rID r;
  sm_spec : rSpec r' = rSpec r;
  sm_auth : rAuthorization r' = rAuthorization r;
  sm_created : CreatedAt r' = CreatedAt r;
  sm_start : StartBefore r' = StartBefore r;
  sm_expires : StatusExpiresAt r' = StatusExpiresAt r;
  sm_resolved : Resolved r' = Resolved r
}.

Definition same_content (r r' : TransferRecord) : Prop := rBytes r' = rBytes r /\ rSHA256 r' = rSHA256 r.
Definition calm (r r' : TransferRecord) : Prop := same_content r r' /\ CancelRequested r' = CancelRequested r.
Definition verified (r : TransferRecord) : Prop :=
  rBytes r = Size (rSpec r) /\ validHex (rSHA256 r) 32 = true /\
  (spDirection (rSpec r) = Upload -> rSHA256 r = spSHA256 (rSpec r)).

(** One change of a record; [a] is its active task. *)
Inductive edit (a : option activeTask) (r r' : TransferRecord) : Prop :=
  | ed_note : rState r' = rState r -> calm r r' ->
      (TokenDigest r' = TokenDigest r \/ rState r = Ready) ->
      (TempOwned r' = TempOwned r \/ rState r = Transferring) -> edit a r r'
  | ed_progress : is_Some a -> rState r = Transferring -> rState r' = Transferring ->
      rBytes r <= rBytes r' <= Size (rSpec r) -> rSHA256 r' = rSHA256 r ->
      CancelRequested r' = CancelRequested r -> edit a r r'
  | ed_verify : is_Some a -> rState r = Transferring -> rState r' = Verifying -> verified r' ->
      CancelRequested r' = CancelRequested r -> edit a r r'
  | ed_commit t : a = Some t -> rState r = Verifying -> rState r' = Committing -> spDirection (rSpec r) = Upload ->
      TempOwned r = true -> commitReserved t = true \/ at_ctx t = Live -> calm r r' -> edit a r r'
  | ed_complete : is_Some a -> rState r = Committing -> rState r' = Completed -> calm r r' -> edit a r r'
  | ed_stream : is_Some a -> rState r = Verifying -> spDirection (rSpec r) = Download -> rState r' = Streamed ->
      calm r r' -> edit a r r'
  | ed_fail t : a = Some t -> rState r = Transferring \/ rState r = Verifying \/ rState r = Committing ->
      rState r' = failed_state r t -> calm r r' -> edit a r r'
  | ed_reject : is_Some a -> rState r = Committing -> rState r' = Failed -> calm r r' -> edit a r r'
  | ed_cancel : rState r = Transferring \/ rState r = Verifying -> rState r' = rState r -> same_content r r' ->
      CancelRequested r' = true ->
      (forall t, a = Some t -> rState r = Verifying -> commitReserved t = false) -> edit a r r'
  | ed_stop : rState r = Ready -> rState r' = Cancelled \/ rState r' = Expired \/ rState r' = Failed ->
      same_content r r' -> edit a r r'.

(** A record written to memory, to the store, with the store marked unusable. *)
Definition write_record (mem disk err : bool) (r : TransferRecord) (m : Manager) : Manager :=
  mkManager (m_limits m) (if mem then <[rID r := r]> (m_records m) else m_records m) (m_requests m) (m_active m)
    (m_closed m) (m_ctx_done m) (m_storeErr m || err)
    (if disk then <[rID r := r]> (m_disk m) else m_disk m).
Definition drop_record (mem disk err : bool) (r : TransferRecord) (m : Manager) : Manager :=
  mkManager (m_limits m) (if mem then delete (rID r) (m_records m) else m_records m)
    (if mem then delete (request_key (rSpec r)) (m_requests m) else m_requests m) (m_active m)
    (m_closed m) (m_ctx_done m) (m_storeErr m || err)
    (if disk then delete (rID r) (m_disk m) else m_disk m).

(** A commit in progress or of unknown outcome. *)
Definition uncertain (r : TransferRecord) : bool := bool_decide (rState r = Committing) || unresolved r.

(** The state machine of a task. *)
Definition next_state (a b : State) : bool :=
  bool_decide (a = b) ||
  match a, b with
  | Ready, (Transferring | Expired | Cancelled | Failed) => true
  | Transferring, (Verifying | Failed | Cancelled) => true
  | Verifying, (Committing | Streamed | Failed | Cancelled) => true
  | Committing, (Completed | Failed | Unknown) => true
  | _, _ => false
  end.

(** Two uploads to one destination. *)
Definition collide (r s : TransferRecord) : Prop :=
  spDirection (rSpec r) = Upload /\ spDirection (rSpec s) = Upload /\ same_destination (rSpec r) (rSpec s) = true.

(** What one call may do to a task: nothing, one edit, its claim, or the begin of its commit, which may
    have been reserved in the same call. *)
Definition moved (m : Manager) (r r' : TransferRecord) : Prop :=
  r' = r \/ same_task r r' /\
  (edit (m_active m !! rID r) r r' \/
   (rState r = Ready /\ rState r' = Transferring /\ calm r r' /\ pathBlocked (rSpec r) m = false /\ hasCapacity (rSpec r) m = true) \/
   (exists t, m_active m !! rID r = Some t /\ rState r = Verifying /\ rState r' = Committing /\ calm r r' /\
      spDirection (rSpec r) = Upload /\ TempOwned r = true /\
      (commitReserved t = true \/ at_ctx t = Live \/ CancelRequested r = false /\ ended (at_request t) = false))).

(** What one call may do: it moves every task it keeps by at most one transition, drops only settled tasks
    without a lease, and adds only ready ones, whose destination is not blocked. *)
Record lawful (m m' : Manager) : Prop := {
  lw_moves : forall id r r', m_records m !! id = Some r -> m_records m' !! id = Some r' ->
    moved m r r' /\ next_state (rState r) (rState r') = true;
  lw_drops : forall id r, m_records m !! id = Some r -> m_records m' !! id = None ->
    m_active m !! id = None /\ uncertain r = false /\ rState r <> Transferring /\ rState r <> Verifying /\ CleanupPending r = false;
  lw_adds : forall id r', m_records m !! id = None -> m_records m' !! id = Some r' ->
    rState r' = Ready /\ rBytes r' = 0 /\ CancelRequested r' = false /\ Resolved r' = false /\
    forall j q, m_records m' !! j = Some q -> unresolved q = true -> ~ collide q r'
}.

Section Lifecycle.
Variable plan_hash : ConnectionPlan -> string.
Variable view_hash : snapshotIdentity -> string.
Variable spec_digest : Spec -> option string.
Variable record_size : TransferRecord -> option Z.
Notation encode := (encode plan_hash view_hash spec_digest record_size).

(** The lifecycle: an edit (a commit only starts on disk, and no failed write
    leaves another state on disk behind an uncertain commit), a new task, the
    claim of a ready one, changes of an active task (a reservation only of an
    uncancelled verified upload), its release, the removal of a settled record,
    and the flags of a shutdown. *)
Inductive task_step (m : Manager) : Manager -> Prop :=
  | ts_edit r r' mem disk err :
      m_records m !! rID r = Some r -> same_task r r' -> edit (m_active m !! rID r) r r' ->
      (disk = true -> encode r' = Ok tt) ->
      (mem = true -> disk = false -> rState r' = Committing -> rState r = Committing) ->
      (mem = false -> uncertain r = true -> rState r' = rState r) ->
      (mem = false -> disk = true -> err = true) ->
      task_step m (write_record mem disk err r' m)
  | ts_new r mem disk err :
      m_records m !! rID r = None -> m_disk m !! rID r = None -> m_requests m !! request_key (rSpec r) = None ->
      m_storeErr m = false -> rState r = Ready -> rBytes r = 0 -> Resolved r = false -> CancelRequested r = false ->
      pathBlocked (rSpec r) m = false ->
      (mem = true -> disk = true) -> (disk = true -> encode r = Ok tt) -> (mem = false -> disk = true -> err = true) ->
      task_step m ((if mem then set_requests (<[request_key (rSpec r) := rID r]> (m_requests m)) else id)
                     (write_record mem disk err r m))
  | ts_claim r r' a :
      m_records m !! rID r = Some r -> same_task r r' -> rState r = Ready -> rState r' = Transferring -> calm r r' ->
      encode r' = Ok tt -> pathBlocked (rSpec r) m = false -> hasCapacity (rSpec r) m = true ->
      commitReserved a = false ->
      task_step m (set_task (rID r) a (write_record true true false r' m))
  | ts_claim_lost r r' disk err :
      m_records m !! rID r = Some r -> same_task r r' -> rState r = Ready -> rState r' = Transferring -> calm r r' ->
      (disk = true -> encode r' = Ok tt /\ err = true) ->
      task_step m (write_record false disk err r' m)
  | ts_task r a a' :
      m_records m !! rID r = Some r -> m_active m !! rID r = Some a ->
      commitReserved a' = commitReserved a \/
        (commitReserved a' = true /\ commit_ready r = true /\ CancelRequested r = false) ->
      task_step m (set_task (rID r) a' m)
  | ts_release r : m_records m !! rID r = Some r -> terminalState (rState r) = true ->
      task_step m (set_active (delete (rID r) (m_active m)) m)
  | ts_remove r mem disk err :
      m_records m !! rID r = Some r -> m_active m !! rID r = None -> unresolved r = false ->
      (mem = true -> disk = true) -> (mem = false -> disk = true -> err = true) ->
      task_step m (drop_record mem disk err r m)
  | ts_flags closed ctx_done : task_step m (set_closed closed ctx_done m).

(** Every call of the manager and of its leases, with the clock and the store's
    answers of that call; ends of contexts; shutdown and restart. *)
Variable token_hash : string -> string.
Definition fresh_id (m : Manager) (fresh : option string) : Prop :=
  forall id, fresh = Some id -> m_records m !! id = None /\ m_disk m !! id = None.

Inductive mgr_step (m : Manager) : Manager -> Prop :=
  | ms_prepare env spec operationID authorization fresh token : fresh_id m fresh ->
      mgr_step m (prepare plan_hash view_hash spec_digest record_size token_hash env spec operationID authorization fresh token m).2
  | ms_prepare_bound env spec operationID permit fresh token : fresh_id m fresh ->
      mgr_step m (PrepareBound plan_hash view_hash spec_digest record_size token_hash env spec operationID permit fresh token m).2
  | ms_claim env ctx id token direction permit :
      mgr_step m (claim plan_hash view_hash spec_digest record_size token_hash env ctx id token direction permit m).2
  | ms_progress env id bytes : mgr_step m (Progress env id bytes m).2
  | ms_temporary env id : mgr_step m (Temporary plan_hash view_hash spec_digest record_size env id m).2
  | ms_confirm env id : mgr_step m (ConfirmTemporary plan_hash view_hash spec_digest record_size env id m).2
  | ms_verify env id bytes digest : mgr_step m (Verify plan_hash view_hash spec_digest record_size env id bytes digest m).2
  | ms_reserve env id permit : mgr_step m (reserveCommit plan_hash view_hash spec_digest env id permit m).2
  | ms_begin env id permit : mgr_step m (beginCommit plan_hash view_hash spec_digest record_size env id permit m).2
  | ms_begin_bound env id permit : mgr_step m (BeginCommitBound plan_hash view_hash spec_digest record_size env id permit m).2
  | ms_complete env id : mgr_step m (Complete plan_hash view_hash spec_digest record_size env id m).2
  | ms_fail env id cause : mgr_step m (Fail_ plan_hash view_hash spec_digest record_size env id cause m).2
  | ms_close env id : mgr_step m (lease_close plan_hash view_hash spec_digest record_size env id m).2
  | ms_reject env id cause : mgr_step m (RejectCommit plan_hash view_hash spec_digest record_size env id cause m).2
  | ms_cancel env scope id : mgr_step m (Cancel plan_hash view_hash spec_digest record_size env scope id m).2
  | ms_cancel_token env id token : mgr_step m (CancelWithToken plan_hash view_hash spec_digest record_size token_hash env id token m).2
  | ms_cleaned env id : mgr_step m (Cleaned plan_hash view_hash spec_digest record_size env id m).2
  | ms_warn env id warning : mgr_step m (Warn plan_hash view_hash spec_digest record_size env id warning m).2
  | ms_find env scope requestID digest :
      mgr_step m (FindRequest plan_hash view_hash spec_digest record_size env scope requestID digest m).2
  | ms_retry env scope requestID digest token :
      mgr_step m (Retry plan_hash view_hash spec_digest record_size token_hash env scope requestID digest token m).2
  | ms_retry_bound env id permit token :
      mgr_step m (RetryBound plan_hash view_hash spec_digest record_size token_hash env id permit token m).2
  | ms_invalidate env id cause : mgr_step m (InvalidateReady plan_hash view_hash spec_digest record_size env id cause m).2
  | ms_ctx id a c : m_active m !! id = Some a -> is_Some (m_records m !! id) ->
      mgr_step m (set_task id (mkTask c (at_request a) (at_deadline a) (commitReserved a) (at_attached a)) m)
  | ms_request id a c : m_active m !! id = Some a -> is_Some (m_records m !! id) ->
      mgr_step m (set_task id (mkTask (if at_attached a then cancel_ctx (at_ctx a) else at_ctx a) c (at_deadline a)
                                 (commitReserved a) (at_attached a)) m)
  | ms_shutdown : mgr_step m (shutdown_begin m)
  | ms_drained : m_active m = ∅ -> mgr_step m (shutdown_drained m)
  | ms_timeout : mgr_step m (shutdown_timeout m).

(** A manager started on the content of its store. *)
Definition started (disk : gmap string TransferRecord) (m : Manager) : Prop :=
  (forall id d, disk !! id = Some d -> rID d = id) /\
  exists env ctx limits l, l ≡ₚ (map_to_list disk).*2 /\
    NewManager plan_hash view_hash spec_digest record_size env ctx limits disk (Ok l) = Ok m.
Definition mgr_init (m : Manager) : Prop := exists disk, started disk m.
Definition mgr_reachable (m : Manager) : Prop := reachable mgr_init mgr_step m.
End Lifecycle.

(** * The invariant *)

(** Verified content, approved for an upload. *)
Definition content_ok (r : TransferRecord) : Prop :=
  rBytes r = Size (rSpec r) /\ (spDirection (rSpec r) = Upload -> rSHA256 r = spSHA256 (rSpec r)).
Definition unreserved (a : option activeTask) : Prop := forall t, a = Some t -> commitReserved t = false.

(** What each state means for a record with its active task. *)
Definition state_inv (a : option activeTask) (r : TransferRecord) : Prop :=
  match rState r with
  | Ready => a = None
  | Transferring => is_Some a /\ unreserved a
  | Verifying => is_Some a /\ content_ok r /\
      forall t, a = Some t -> commitReserved t = true -> spDirection (rSpec r) = Upload /\ CancelRequested r = false
  | Committing => is_Some a /\ content_ok r /\ spDirection (rSpec r) = Upload
  | Completed => content_ok r /\ spDirection (rSpec r) = Upload
  | Unknown => spDirection (rSpec r) = Upload
  | Streamed => content_ok r /\ unreserved a /\ spDirection (rSpec r) = Download
  | Cancelled | Expired => unreserved a
  | Failed => True
  | OtherState _ => False
  end.

Record record_inv (a : option activeTask) (r : TransferRecord) : Prop := {
  ri_bytes : 0 <= rBytes r <= Size (rSpec r);
  ri_direction : spDirection (rSpec r) = Upload \/ spDirection (rSpec r) = Download;
  ri_state : state_inv a r;
  ri_resolved : Resolved r = true -> rState r = Unknown
}.

Definition same_key (r s : TransferRecord) : Prop := request_key (rSpec r) = request_key (rSpec s).

Section Invariant.
Variable plan_hash : ConnectionPlan -> string.
Variable view_hash : snapshotIdentity -> string.
Variable spec_digest : Spec -> option string.
Variable record_size : TransferRecord -> option Z.
Notation encode := (encode plan_hash view_hash spec_digest record_size).
Notation task_step := (task_step plan_hash view_hash spec_digest record_size).
Notation valid := (record_validate plan_hash view_hash spec_digest).

Record mgr_inv (m : Manager) : Prop := {
  mi_record : forall id r, m_records m !! id = Some r -> rID r = id /\ record_inv (m_active m !! id) r;
  mi_active : forall id, is_Some (m_active m !! id) -> is_Some (m_records m !! id);
  mi_requests : forall k id, m_requests m !! k = Some id <->
    exists r, m_records m !! id = Some r /\ request_key (rSpec r) = k;
  mi_exclusive : forall i j r s, i <> j -> is_Some (m_active m !! i) -> is_Some (m_active m !! j) ->
    m_records m !! i = Some r -> m_records m !! j = Some s -> ~ collide r s;
  mi_unknown : forall i j r s, i <> j -> unresolved r = true -> is_Some (m_active m !! j) ->
    m_records m !! i = Some r -> m_records m !! j = Some s -> ~ collide r s;
  mi_capacity : Z.of_nat (size (m_active m)) <= MaxActive (m_limits m);
  mi_disk : forall id d, m_disk m !! id = Some d -> rID d = id /\ valid d = Ok tt /\
    ((exists r, m_records m !! id = Some r /\ rSpec d = rSpec r) \/
     (m_storeErr m = true /\ m_records m !! id = None /\ m_requests m !! request_key (rSpec d) = None));
  mi_unique : forall i j d e, m_disk m !! i = Some d -> m_disk m !! j = Some e -> same_key d e -> i = j;
  mi_committing : forall id r, m_records m !! id = Some r -> rState r = Committing ->
    exists d, m_disk m !! id = Some d /\ rState d = Committing;
  mi_uncertain : forall id r, m_records m !! id = Some r -> unresolved r = true ->
    exists d, m_disk m !! id = Some d /\ (rState d = Committing \/ rState d = Unknown) /\ Resolved d = false
}.

Lemma validateProgress_ok r : validateProgress r = Ok tt ->
  0 <= rBytes r <= Size (rSpec r) /\ (Resolved r = true -> rState r = Unknown) /\
  (rState r = Completed -> rBytes r = Size (rSpec r) /\ rSHA256 r = spSHA256 (rSpec r)) /\
  (rState r = Streamed -> rBytes r = Size (rSpec r)).
Proof.
  unfold validateProgress. intros H. apply bind_reject_ok in H as [H1 H]. apply bind_reject_ok in H as [H2 H].
  apply bind_reject_ok in H as [H3 H]. apply bind_reject_ok in H as [H4 _].
  apply orb_false_iff in H1 as [H1 _]. bool_facts. split; [lia|]. split_and!.
  - intros Hr. rewrite Hr in H2. simpl in H2. apply orb_false_iff in H2 as [H2 _]. by bool_facts.
  - intros Hs. rewrite bool_decide_eq_true_2 in H3 by done. simpl in H3. str_facts. by bool_facts.
  - intros Hs. rewrite bool_decide_eq_true_2 in H4 by done. simpl in H4. apply orb_false_iff in H4 as [H4 _].
    by bool_facts.
Qed.

Lemma validateState_ok d s : validateState d s = Ok tt ->
  (forall n, s <> OtherState n) /\ (s = Committing \/ s = Completed \/ s = Unknown -> d = Upload) /\
  (s = Streamed -> d = Download).
Proof.
  destruct s; simpl; intros H; split_and!; try done; try naive_solver;
    apply bind_reject_ok in H as [H _]; bool_facts; naive_solver.
Qed.

(** What validation guarantees of a record. *)
Lemma record_validate_ok r : valid r = Ok tt ->
  spec_validate (rSpec r) = Ok tt /\ validateTemporary r = Ok tt /\ validateProgress r = Ok tt /\
  validateState (spDirection (rSpec r)) (rState r) = Ok tt /\ CreatedAt r <= UpdatedAt r.
Proof.
  unfold record_validate. intros H. apply bind_reject_ok in H as [_ H]. apply result_bind_ok in H as (? & _ & H).
  apply result_bind_ok in H as ([] & Hs & H). apply bind_reject_ok in H as [_ H]. apply bind_reject_ok in H as [Ht H].
  apply result_bind_ok in H as ([] & Htm & H). apply result_bind_ok in H as ([] & Hp & H).
  apply orb_false_iff in Ht as [Ht _]. apply orb_false_iff in Ht as [Ht _]. apply orb_false_iff in Ht as [_ Ht].
  bool_facts. done.
Qed.

Lemma spec_validate_ok s : spec_validate s = Ok tt ->
  0 <= Size s /\ (spDirection s = Upload \/ spDirection s = Download).
Proof.
  unfold spec_validate. intros H. apply result_bind_ok in H as (? & _ & H). apply bind_reject_ok in H as [_ H].
  apply bind_reject_ok in H as [Hs H]. bool_facts. split; [done|]. destruct (spDirection s); [by left|by right|done].
Qed.

Lemma encode_valid r : encode r = Ok tt -> valid r = Ok tt.
Proof.
  unfold Tasks.encode, encodeRecord. intros H. by apply result_bind_ok in H as ([] & H & _).
Qed.

(** ** Edits *)
Lemma state_inv_same a r r' :
  rSpec r' = rSpec r -> rState r' = rState r -> calm r r' -> state_inv a r -> state_inv a r'.
Proof.
  unfold state_inv, content_ok. intros Hsp Hs [[Hb Hh] Hc]. rewrite Hs, Hsp, Hb, Hh, Hc. by destruct (rState r).
Qed.

Lemma edit_state_inv a r r' : same_task r r' -> edit a r r' -> state_inv a r -> state_inv a r'.
Proof.
  intros [_ Hsp _ _ _ _ _] He.
  destruct He as [Hs Hcalm _ _|Ha Hs Hs' Hb Hh Hc|Ha Hs Hs' (Hb & _ & Hu) Hc|t -> Hs Hs' Hd _ _ [[Hb Hh] Hc]
    |Ha Hs Hs' [[Hb Hh] Hc]|Ha Hs Hd Hs' [[Hb Hh] Hc]|t -> Hs Hs' [[Hb Hh] Hc]|Ha Hs Hs' [[Hb Hh] Hc]
    |Hs Hs' [Hb Hh] Hc Hres|Hs Hs' [Hb Hh]]; [by apply state_inv_same| | | | | | | | |];
    unfold state_inv, content_ok; rewrite ?Hs, ?Hs', ?Hsp.
  - done.
  - intros [_ Hun]. rewrite Hsp in *. split_and!; [done|done|done|]. intros t Ht Hr. by rewrite (Hun t Ht) in Hr.
  - rewrite Hb, Hh. intros (_ & Hco & _). done.
  - rewrite Hb, Hh. intros (_ & Hco & Hup). done.
  - rewrite Hb, Hh. intros (_ & Hco & Hres). split_and!; [apply Hco|apply Hco| |done].
    intros t Ht. destruct (commitReserved t) eqn:E; [|done]. destruct (Hres t Ht E). congruence.
  - unfold failed_state. destruct Hs as [Hs|[Hs|Hs]]; rewrite Hs; simpl.
    + intros [_ Hun]. destruct (CancelRequested r || _); [done|done].
    + intros (_ & _ & Hres). destruct (CancelRequested r || _) eqn:E; [|done]. intros t' [= <-].
      destruct (commitReserved t) eqn:Et; [|done]. destruct (Hres t eq_refl Et) as [_ Hf].
      rewrite Hf in E. simpl in E. discriminate E.
    + intros (_ & _ & Hd). done.
  - done.
  - destruct Hs as [Hs|Hs]; rewrite Hs; [done|]. rewrite Hb, Hh. intros (Ha & Hco & _). split_and!; [done|apply Hco|apply Hco|].
    intros t Ht Hr. by rewrite (Hres t Ht Hs) in Hr.
  - intros ->. destruct Hs' as [-> |[-> | ->]]; try done; by intros t Ht.
Qed.

Lemma edit_bytes a r r' : same_task r r' -> edit a r r' -> 0 <= rBytes r <= Size (rSpec r) -> 0 <= rBytes r' <= Size (rSpec r').
Proof.
  intros [_ Hsp _ _ _ _ _] He. rewrite Hsp.
  destruct He as [_ [[Hb _] _] _ _|_ _ _ Hb _ _|_ _ _ [Hb _] _|? _ _ _ _ _ _ [[Hb _] _]|_ _ _ [[Hb _] _]|_ _ _ _ [[Hb _] _]
    |? _ _ _ [[Hb _] _]|_ _ _ [[Hb _] _]|_ _ [Hb _] _ _|_ _ [Hb _]]; try (rewrite Hb); try lia.
  rewrite Hsp. lia.
Qed.

(** Settled states are final. *)
Lemma edit_terminal a r r' : edit a r r' -> terminalState (rState r) = true -> rState r' = rState r.
Proof.
  intros He. destruct He as [Hs _ _ _|_ Hs _ _ _ _|_ Hs _ _ _|? _ Hs _ _ _ _ _|_ Hs Hs' _|_ Hs _ _ _|? _ Hs _ _|_ Hs _ _
    |_ Hs _ _ _|Hs _ _]; try (rewrite Hs; done).
  destruct Hs as [Hs|[Hs|Hs]]; rewrite Hs; done.
Qed.

Lemma edit_record_inv a r r' : same_task r r' -> edit a r r' -> record_inv a r -> record_inv a r'.
Proof.
  intros Hsm He [I1 I2 I3 I4]. constructor.
  - by eapply edit_bytes.
  - by rewrite (sm_spec _ _ Hsm).
  - by eapply edit_state_inv.
  - rewrite (sm_resolved _ _ Hsm). intros Hr. specialize (I4 Hr).
    rewrite (edit_terminal _ _ _ He); [done|]. by rewrite I4.
Qed.

(** An edit makes a record uncertain only out of a commit. *)
Lemma edit_unresolved a r r' : same_task r r' -> edit a r r' -> unresolved r' = true ->
  unresolved r = true \/ rState r = Committing.
Proof.
  intros Hsm He Hu. unfold unresolved in *. rewrite (sm_resolved _ _ Hsm) in Hu. apply andb_true_iff in Hu as [Hu Hres].
  apply bool_decide_eq_true in Hu. rewrite Hres, andb_true_r, bool_decide_eq_true.
  destruct He as [Hs _ _ _|_ _ Hs _ _ _|_ _ Hs _ _|? _ _ Hs _ _ _ _|_ Hs Hs' _|_ _ _ Hs _|t _ Hs Hs' _|_ Hs _ _
    |_ Hs _ _ _|Hs Hs' _]; try (left; congruence); try (right; congruence); try congruence.
  - right. revert Hs'. rewrite Hu. unfold failed_state. destruct (bool_decide (rState r = Committing)) eqn:E; bool_facts; [done|].
    destruct (CancelRequested r || _); done.
  - destruct Hs' as [Hs'|[Hs'|Hs']]; congruence.
Qed.

(** ** Steps *)
Lemma collide_spec r r' s s' : rSpec r' = rSpec r -> rSpec s' = rSpec s -> collide r' s' -> collide r s.
Proof. unfold collide. by intros -> ->. Qed.

Lemma insert_cases (b : bool) (x : TransferRecord) i (mm : gmap string TransferRecord) y :
  (if b then <[rID x := x]> mm else mm) !! i = Some y ->
  (b = true /\ i = rID x /\ y = x) \/ (mm !! i = Some y /\ (b = true -> i <> rID x)).
Proof.
  destruct b; [|auto]. intros [[<- <-]|[Hne Hy]]%lookup_insert_Some; auto.
Qed.

Lemma inv_key m i j r s : mgr_inv m -> m_records m !! i = Some r -> m_records m !! j = Some s -> same_key r s -> i = j.
Proof.
  intros I Hr Hs Hk.
  assert (m_requests m !! request_key (rSpec s) = Some i) by (apply (mi_requests _ I); eauto).
  assert (m_requests m !! request_key (rSpec s) = Some j) by (apply (mi_requests _ I); eauto).
  congruence.
Qed.

(** A stored copy under the key of a task is that task's. *)
Lemma inv_disk_key m i j d r : mgr_inv m -> m_disk m !! i = Some d -> m_records m !! j = Some r -> same_key d r -> i = j.
Proof.
  intros I Hd Hr Hk. destruct (mi_disk _ I i d Hd) as (_ & _ & [(x & Hx & Hspec)|(_ & _ & Hn)]).
  - apply (inv_key m i j x r I Hx Hr). unfold same_key. by rewrite <- Hspec.
  - assert (m_requests m !! request_key (rSpec r) = Some j) by (apply (mi_requests _ I); eauto).
    unfold same_key in Hk. congruence.
Qed.

Lemma valid_resolved d : valid d = Ok tt -> rState d <> Unknown -> Resolved d = false.
Proof.
  intros (_ & _ & H & _)%record_validate_ok Hs. apply validateProgress_ok in H as (_ & H & _).
  destruct (Resolved d); [|done]. by specialize (H eq_refl).
Qed.

Section Edit.
Variables (m : Manager) (r r' : TransferRecord) (mem disk err : bool).
Hypothesis I : mgr_inv m.
Hypothesis Hr : m_records m !! rID r = Some r.
Hypothesis Hsm : same_task r r'.
Hypothesis He : mem = true -> edit (m_active m !! rID r) r r'.
Let m' := write_record mem disk err r' m.

(** Every record is an old one up to the edit. *)
Lemma edit_old i x : m_records m' !! i = Some x ->
  exists y, m_records m !! i = Some y /\ rSpec x = rSpec y /\
    ((x = r' /\ y = r /\ i = rID r /\ mem = true) \/ (x = y /\ (mem = true -> i <> rID r))).
Proof.
  intros Hx. apply insert_cases in Hx as [(-> & -> & ->)|(Hx & Hne)]; rewrite ?(sm_id _ _ Hsm) in *.
  - exists r. split; [done|]. split; [apply (sm_spec _ _ Hsm)|]. by left.
  - exists x. split_and!; [done|done|]. by right.
Qed.
Lemma edit_new i y : m_records m !! i = Some y -> exists x, m_records m' !! i = Some x /\ rSpec x = rSpec y.
Proof.
  intros Hy. subst m'. simpl. destruct mem; [|eauto]. rewrite (sm_id _ _ Hsm).
  destruct (decide (rID r = i)) as [<-|Hne].
  - exists r'. rewrite lookup_insert_eq. split; [done|]. rewrite Hr in Hy. injection Hy as <-. apply (sm_spec _ _ Hsm).
  - exists y. by rewrite lookup_insert_ne.
Qed.

Lemma inv_edit :
  (disk = true -> encode r' = Ok tt) ->
  (mem = true -> disk = false -> rState r' = Committing -> rState r = Committing) ->
  (mem = false -> uncertain r = true -> rState r' = rState r) ->
  (mem = false -> disk = true -> err = true) -> mgr_inv m'.
Proof.
  intros Henc Hdur Hunc Herr.
  assert (Hdisk : forall i d, m_disk m' !! i = Some d ->
    (disk = true /\ i = rID r /\ d = r') \/ (m_disk m !! i = Some d /\ (disk = true -> i <> rID r))).
  { intros i d Hd. apply insert_cases in Hd. by rewrite (sm_id _ _ Hsm) in Hd. }
  assert (Hsame : forall i d, disk = false \/ i <> rID r -> m_disk m !! i = Some d -> m_disk m' !! i = Some d).
  { intros i d Hor Hd. subst m'. simpl. destruct disk; [|done]. rewrite (sm_id _ _ Hsm).
    destruct Hor; [done|]. by rewrite lookup_insert_ne. }
  assert (Hwritten : disk = true -> m_disk m' !! rID r = Some r').
  { intros ->. subst m'. simpl. by rewrite (sm_id _ _ Hsm), lookup_insert_eq. }
  constructor.
  - intros i x Hx. destruct (edit_old i x Hx) as (y & Hy & _ & [(-> & -> & -> & Hmem)|[-> _]]).
    + split; [apply (sm_id _ _ Hsm)|]. eapply edit_record_inv; [done|by apply He|]. by apply (mi_record _ I).
    + by apply (mi_record _ I).
  - intros i Ha. destruct (mi_active _ I i Ha) as [y Hy]. destruct (edit_new i y Hy) as (x & Hx & _). by exists x.
  - intros k i. split.
    + intros (y & Hy & Hk)%(mi_requests _ I). destruct (edit_new i y Hy) as (x & Hx & Hsp). exists x. by rewrite Hsp.
    + intros (x & Hx & Hk). destruct (edit_old i x Hx) as (y & Hy & Hsp & _). apply (mi_requests _ I). exists y. by rewrite <- Hsp.
  - intros i j x y Hne Hi Hj Hx Hy Hcol. destruct (edit_old i x Hx) as (x0 & Hx0 & Hsx & _).
    destruct (edit_old j y Hy) as (y0 & Hy0 & Hsy & _).
    eapply (mi_exclusive _ I i j x0 y0); [done..|]. by eapply collide_spec.
  - intros i j x y Hne Hu Hj Hx Hy Hcol. destruct (edit_old i x Hx) as (x0 & Hx0 & Hsx & Hcase).
    destruct (edit_old j y Hy) as (y0 & Hy0 & Hsy & _). pose proof (collide_spec _ _ _ _ Hsx Hsy Hcol) as Hcol0.
    assert (Hor : unresolved x0 = true \/ rState x0 = Committing).
    { destruct Hcase as [(-> & -> & _ & Hmem)|[<- _]]; [by apply (edit_unresolved _ _ _ Hsm (He Hmem))|by left]. }
    destruct Hor as [Hu0|Hc0]; [by eapply (mi_unknown _ I i j x0 y0)|].
    destruct (mi_record _ I i x0 Hx0) as [_ [_ _ Hst _]]. unfold state_inv in Hst. rewrite Hc0 in Hst.
    eapply (mi_exclusive _ I i j x0 y0); [done|apply Hst|done..].
  - apply (mi_capacity _ I).
  - intros i d [(Hd & -> & ->)|[Hd _]]%Hdisk.
    + split; [apply (sm_id _ _ Hsm)|]. split; [by apply encode_valid, Henc|]. left.
      destruct (edit_new _ _ Hr) as (x & Hx & Hsp). exists x. split; [done|]. rewrite Hsp. apply (sm_spec _ _ Hsm).
    + destruct (mi_disk _ I i d Hd) as (Hid & Hv & [(y & Hy & Hsp)|(Hse & Hn & Hq)]).
      * split_and!; [done|done|]. left. destruct (edit_new i y Hy) as (x & Hx & Hsx). exists x. split; [done|congruence].
      * split_and!; [done|done|]. right. split_and!; [simpl; by rewrite Hse| |done].
        destruct (m_records m' !! i) as [x|] eqn:E; [|done]. destruct (edit_old i x E) as (y & Hy & _). congruence.
  - intros i j d e [(Hd & -> & ->)|[Hd Hdn]]%Hdisk [(He' & -> & ->)|[He' Hen]]%Hdisk Hk; try done.
    + symmetry. apply (inv_disk_key m j (rID r) e r I He' Hr). unfold same_key in *. by rewrite <- Hk, (sm_spec _ _ Hsm).
    + apply (inv_disk_key m i (rID r) d r I Hd Hr). unfold same_key in *. by rewrite Hk, (sm_spec _ _ Hsm).
    + by apply (mi_unique _ I i j d e).
  - intros i x Hx Hs. destruct (edit_old i x Hx) as (y & Hy & _ & [(-> & -> & -> & Hmem)|[-> Hne]]).
    + destruct disk eqn:Ed; [exists r'; auto|]. specialize (Hdur Hmem eq_refl Hs).
      destruct (mi_committing _ I _ _ Hr Hdur) as (d & Hd & Hds). exists d. split; [|done]. apply Hsame; auto.
    + destruct (mi_committing _ I _ _ Hy Hs) as (d & Hd & Hds).
      destruct (decide (i = rID r)) as [->|Hni]; [|exists d; split; [apply Hsame; auto|done]].
      assert (y = r) as -> by congruence. assert (Hmf : mem = false) by (destruct mem; [by destruct Hne|done]).
      destruct disk eqn:Ed; [|exists d; split; [apply Hsame; auto|done]].
      exists r'. split; [auto|]. rewrite Hunc; [done|done|]. unfold uncertain. by rewrite bool_decide_eq_true_2.
  - intros i x Hx Hu. destruct (edit_old i x Hx) as (y & Hy & _ & [(-> & -> & -> & Hmem)|[-> Hne]]).
    + destruct disk eqn:Ed.
      * exists r'. split; [auto|]. unfold unresolved in Hu. apply andb_true_iff in Hu as [Hu1 Hu2]. bool_facts. auto.
      * destruct (edit_unresolved _ _ _ Hsm (He Hmem) Hu) as [Hur|Hcr].
        -- destruct (mi_uncertain _ I _ _ Hr Hur) as (d & Hd & Hds). exists d. split; [|done]. apply Hsame; auto.
        -- destruct (mi_committing _ I _ _ Hr Hcr) as (d & Hd & Hds). exists d. split; [apply Hsame; auto|].
           split; [by left|]. destruct (mi_disk _ I _ _ Hd) as (_ & Hv & _). apply (valid_resolved d Hv). by rewrite Hds.
    + destruct (mi_uncertain _ I _ _ Hy Hu) as (d & Hd & Hds).
      destruct (decide (i = rID r)) as [->|Hni]; [|exists d; split; [apply Hsame; auto|done]].
      assert (y = r) as -> by congruence. assert (Hmf : mem = false) by (destruct mem; [by destruct Hne|done]).
      destruct disk eqn:Ed; [|exists d; split; [apply Hsame; auto|done]].
      assert (Hs : rState r' = rState r) by (apply Hunc; [done|unfold uncertain; by rewrite Hu, orb_true_r]).
      exists r'. split; [auto|]. unfold unresolved in Hu. apply andb_true_iff in Hu as [Hu1 Hu2]. bool_facts.
      rewrite Hs, (sm_resolved _ _ Hsm). auto.
Qed.
End Edit.

Lemma pathBlocked_false m r i x :
  pathBlocked (rSpec r) m = false -> m_records m !! i = Some x -> unresolved x = true -> ~ collide x r.
Proof.
  intros Hp Hx Hu (_ & Hup & Hd). unfold pathBlocked in Hp. rewrite bool_decide_eq_true_2 in Hp by done.
  apply not_true_iff_false in Hp. apply Hp, existsb_exists. exists x. split; [|by rewrite Hu, Hd].
  apply list_elem_of_In, list_elem_of_fmap. exists (i, x). split; [done|]. by apply elem_of_map_to_list.
Qed.

Lemma hasCapacity_true m r :
  hasCapacity (rSpec r) m = true ->
  Z.of_nat (size (m_active m)) < MaxActive (m_limits m) /\
  forall j x, is_Some (m_active m !! j) -> m_records m !! j = Some x -> ~ collide x r.
Proof.
  unfold hasCapacity. intros H. apply andb_true_iff in H as [H _]. apply andb_true_iff in H as [H1 H2].
  apply negb_true_iff in H1, H2. apply Z.leb_gt in H1. split; [done|]. intros j x Hj Hx (Hu & Hur & Hd).
  apply not_true_iff_false in H2. apply H2, existsb_exists. unfold same_destination in Hd. apply andb_true_iff in Hd as [Ht Hp].
  exists (rSpec x). split; [|by rewrite !bool_decide_eq_true_2, Hp].
  apply filter_In. split; [|done]. apply list_elem_of_In, list_elem_of_omap. exists j.
  split; [by apply elem_of_elements, elem_of_dom|]. by rewrite Hx.
Qed.

Lemma new_record_inv r : encode r = Ok tt -> rState r = Ready -> rBytes r = 0 -> Resolved r = false -> record_inv None r.
Proof.
  intros Henc Hs Hb Hr. apply encode_valid, record_validate_ok in Henc as (Hsp & _ & Hp & _).
  apply spec_validate_ok in Hsp as [Hsize Hdir]. constructor; [lia|done| |congruence].
  unfold state_inv. by rewrite Hs.
Qed.

Lemma inv_new m r mem disk err :
  mgr_inv m ->
  m_records m !! rID r = None -> m_disk m !! rID r = None -> m_requests m !! request_key (rSpec r) = None ->
  m_storeErr m = false -> rState r = Ready -> rBytes r = 0 -> Resolved r = false ->
  (mem = true -> disk = true) -> (disk = true -> encode r = Ok tt) -> (mem = false -> disk = true -> err = true) ->
  mgr_inv ((if mem then set_requests (<[request_key (rSpec r) := rID r]> (m_requests m)) else id)
             (write_record mem disk err r m)).
Proof.
  intros I Hrec Hdisk Hreq Hse Hs Hb Hres Hmd Henc Herr.
  set (m' := (if mem then _ else id) _).
  assert (Hmem : m_records m' = (if mem then <[rID r := r]> (m_records m) else m_records m) /\
    m_disk m' = (if disk then <[rID r := r]> (m_disk m) else m_disk m) /\
    m_requests m' = (if mem then <[request_key (rSpec r) := rID r]> (m_requests m) else m_requests m) /\
    m_active m' = m_active m /\ m_limits m' = m_limits m /\ m_storeErr m' = err).
  { subst m'. destruct mem; simpl; by rewrite Hse. }
  destruct Hmem as (E1 & E2 & E3 & E4 & E5 & E6).
  assert (Hna : m_active m !! rID r = None).
  { destruct (m_active m !! rID r) eqn:E; [|done]. destruct (mi_active _ I (rID r)); [eauto|congruence]. }
  assert (Hold : forall i x, m_records m' !! i = Some x -> (mem = true /\ i = rID r /\ x = r) \/ m_records m !! i = Some x).
  { intros i x. rewrite E1. intros Hx. apply insert_cases in Hx as [?|[? _]]; auto. }
  assert (Hkeep : forall i x, m_records m !! i = Some x -> m_records m' !! i = Some x).
  { intros i x Hx. rewrite E1. destruct mem; [|done]. rewrite lookup_insert_ne; [done|]. congruence. }
  constructor; rewrite ?E4, ?E5.
  - intros i x [(-> & -> & ->)|Hx]%Hold; [|by apply (mi_record _ I)]. split; [done|]. rewrite Hna. apply new_record_inv; auto.
  - intros i Ha. destruct (mi_active _ I i Ha) as [x Hx]. exists x. auto.
  - intros k i. rewrite E3. split.
    + intros Hk. destruct mem.
      * apply lookup_insert_Some in Hk as [[<- <-]|[Hne Hk]]; [exists r; split; [|done]; by rewrite E1, lookup_insert_eq|].
        apply (mi_requests _ I) in Hk as (x & Hx & Hk). exists x. auto.
      * apply (mi_requests _ I) in Hk as (x & Hx & Hk). exists x. auto.
    + intros (x & Hx & Hk). destruct (Hold i x Hx) as [(-> & -> & ->)|Hx0]; [by rewrite Hk, lookup_insert_eq|].
      assert (Hq : m_requests m !! k = Some i) by (apply (mi_requests _ I); eauto).
      destruct mem; [|done]. rewrite lookup_insert_ne; [done|]. congruence.
  - intros i j x y Hne Hi Hj [(-> & -> & ->)|Hx]%Hold [(Hm & -> & ->)|Hy]%Hold;
      [done|rewrite Hna in Hi; by destruct Hi|rewrite Hna in Hj; by destruct Hj|by apply (mi_exclusive _ I i j)].
  - intros i j x y Hne Hu Hj [(-> & -> & ->)|Hx]%Hold [(Hm & -> & ->)|Hy]%Hold;
      [done| |rewrite Hna in Hj; by destruct Hj|by apply (mi_unknown _ I i j)].
    unfold unresolved in Hu. by rewrite Hs in Hu.
  - apply (mi_capacity _ I).
  - intros i d. rewrite E2, E6. intros Hd. apply insert_cases in Hd as [(Hd & -> & ->)|[Hd _]].
    + split_and!; [done|by apply encode_valid, Henc|]. destruct mem.
      * left. exists r. by rewrite E1, lookup_insert_eq.
      * right. rewrite E1, E3. auto.
    + destruct (mi_disk _ I i d Hd) as (Hid & Hv & [(y & Hy & Hsp)|(Hf & _)]); [|congruence].
      split_and!; [done|done|]. left. exists y. auto.
  - intros i j d e. rewrite E2. intros Hd He Hk.
    assert (Hfar : forall i d, m_disk m !! i = Some d -> same_key d r -> False).
    { intros i0 d0 Hd0 Hk0. destruct (mi_disk _ I i0 d0 Hd0) as (_ & _ & [(y & Hy & Hsp)|(Hf & _)]); [|congruence].
      assert (m_requests m !! request_key (rSpec r) = Some i0); [|congruence].
      apply (mi_requests _ I). exists y. split; [done|]. by rewrite <- Hsp. }
    apply insert_cases in Hd as [(_ & -> & ->)|[Hd _]]; apply insert_cases in He as [(_ & -> & ->)|[He _]].
    + done.
    + by destruct (Hfar j e He).
    + by destruct (Hfar i d Hd).
    + by apply (mi_unique _ I i j d e).
  - intros i x [(-> & -> & ->)|Hx]%Hold Hc; [congruence|].
    destruct (mi_committing _ I i x Hx Hc) as (d & Hd & Hds). exists d. split; [|done]. rewrite E2.
    destruct disk; [|done]. rewrite lookup_insert_ne; [done|]. congruence.
  - intros i x [(-> & -> & ->)|Hx]%Hold Hu; [unfold unresolved in Hu; by rewrite Hs in Hu|].
    destruct (mi_uncertain _ I i x Hx Hu) as (d & Hd & Hds). exists d. split; [|done]. rewrite E2.
    destruct disk; [|done]. rewrite lookup_insert_ne; [done|]. congruence.
Qed.

Lemma calm_ready_edit r r' : same_task r r' -> rState r = Ready -> rState r' = Transferring -> calm r r' ->
  record_inv None r -> forall a, commitReserved a = false -> record_inv (Some a) r'.
Proof.
  intros [_ Hsp _ _ _ _ Hres] Hs Hs' [[Hb Hh] Hc] [I1 I2 I3 I4] a Ha. constructor; rewrite ?Hsp, ?Hb; try done.
  - unfold state_inv. rewrite Hs'. split; [by eexists|]. by intros t [= <-].
  - rewrite Hres, Hs'. intros Hr. specialize (I4 Hr). congruence.
Qed.

Lemma inv_claim m r r' a :
  mgr_inv m -> m_records m !! rID r = Some r -> same_task r r' -> rState r = Ready -> rState r' = Transferring ->
  calm r r' -> encode r' = Ok tt -> pathBlocked (rSpec r) m = false -> hasCapacity (rSpec r) m = true ->
  commitReserved a = false ->
  mgr_inv (set_task (rID r) a (write_record true true false r' m)).
Proof.
  intros I Hr Hsm Hs Hs' Hcalm Henc Hpb Hcap Ha. pose proof (sm_id _ _ Hsm) as Hid. pose proof (sm_spec _ _ Hsm) as Hsp.
  apply hasCapacity_true in Hcap as [Hsize Hexcl].
  destruct (mi_record _ I _ _ Hr) as [_ Hri].
  assert (Hna : m_active m !! rID r = None).
  { pose proof (ri_state _ _ Hri) as Hst. unfold state_inv in Hst. by rewrite Hs in Hst. }
  rewrite Hna in Hri.
  set (m' := set_task _ _ _).
  assert (Hlook : forall i x, m_records m' !! i = Some x ->
    (i = rID r /\ x = r') \/ (i <> rID r /\ m_records m !! i = Some x)).
  { intros i x. subst m'. simpl. rewrite Hid. intros [[<- <-]|[Hne Hx]]%lookup_insert_Some; auto. }
  assert (Hspecs : forall i x, m_records m' !! i = Some x -> exists y, m_records m !! i = Some y /\ rSpec x = rSpec y).
  { intros i x [[-> ->]|[_ Hx]]%Hlook; eauto. }
  assert (Hback : forall i y, m_records m !! i = Some y -> exists x, m_records m' !! i = Some x /\ rSpec x = rSpec y).
  { intros i y Hy. subst m'. simpl. rewrite Hid. destruct (decide (rID r = i)) as [<-|Hne].
    - exists r'. rewrite lookup_insert_eq. split; [done|]. congruence.
    - exists y. by rewrite lookup_insert_ne. }
  assert (Hact : forall i, is_Some (m_active m' !! i) -> i = rID r \/ is_Some (m_active m !! i)).
  { intros i. subst m'. simpl. rewrite lookup_insert_is_Some. intros [->|[_ H]]; auto. }
  assert (Hdsk : forall i d, m_disk m' !! i = Some d -> (i = rID r /\ d = r') \/ (i <> rID r /\ m_disk m !! i = Some d)).
  { intros i d. subst m'. simpl. rewrite Hid. intros [[<- <-]|[Hne Hx]]%lookup_insert_Some; auto. }
  assert (Hdk : forall i d, i <> rID r -> m_disk m !! i = Some d -> m_disk m' !! i = Some d).
  { intros i d Hne Hd. subst m'. simpl. rewrite Hid. by rewrite lookup_insert_ne. }
  constructor.
  - intros i x [[-> ->]|[Hne Hx]]%Hlook.
    + split; [done|]. subst m'. simpl. rewrite lookup_insert_eq. by eapply calm_ready_edit.
    + subst m'. simpl. rewrite lookup_insert_ne by done. by apply (mi_record _ I).
  - intros i [->|Hi]%Hact; [destruct (Hback _ _ Hr) as (x & Hx & _); by exists x|].
    destruct (mi_active _ I i Hi) as [y Hy]. destruct (Hback _ _ Hy) as (x & Hx & _). by exists x.
  - intros k i. split.
    + intros (y & Hy & Hk)%(mi_requests _ I). destruct (Hback i y Hy) as (x & Hx & Hsx). exists x. by rewrite Hsx.
    + intros (x & Hx & Hk). destruct (Hspecs i x Hx) as (y & Hy & Hsx). apply (mi_requests _ I). exists y. by rewrite <- Hsx.
  - intros i j x y Hne Hi Hj Hx Hy Hcol.
    destruct (Hspecs i x Hx) as (x0 & Hx0 & Hsx), (Hspecs j y Hy) as (y0 & Hy0 & Hsy).
    pose proof (collide_spec _ _ _ _ Hsx Hsy Hcol) as Hc0.
    apply Hact in Hi as [->|Hi]; apply Hact in Hj as [->|Hj].
    + done.
    + rewrite Hr in Hx0. injection Hx0 as <-. apply (Hexcl j y0 Hj Hy0). destruct Hc0 as (? & ? & Hd).
      split_and!; [done|done|]. unfold same_destination in *. apply andb_true_iff in Hd as [Hd1 Hd2]. str_facts.
      by rewrite Hd1, Hd2, !str_eq_refl.
    + rewrite Hr in Hy0. injection Hy0 as <-. by apply (Hexcl i x0 Hi Hx0).
    + by apply (mi_exclusive _ I i j x0 y0).
  - intros i j x y Hne Hu Hj [[-> ->]|[Hni Hx]]%Hlook Hy Hcol; [unfold unresolved in Hu; by rewrite Hs' in Hu|].
    destruct (Hspecs j y Hy) as (y0 & Hy0 & Hsy). pose proof (collide_spec _ x _ _ eq_refl Hsy Hcol) as Hc0.
    apply Hact in Hj as [->|Hj].
    + rewrite Hr in Hy0. injection Hy0 as <-. by apply (pathBlocked_false m r i x).
    + by apply (mi_unknown _ I i j x y0).
  - subst m'. simpl. rewrite map_size_insert, Hna. lia.
  - intros i d [[-> ->]|[Hne Hd]]%Hdsk.
    + split_and!; [done|by apply encode_valid|]. left. destruct (Hback _ _ Hr) as (x & Hx & Hsx). exists x. split; [done|congruence].
    + destruct (mi_disk _ I i d Hd) as (Hidd & Hv & [(y & Hy & Hspd)|(Hf & Hn & Hq)]).
      * split_and!; [done|done|]. left. destruct (Hback i y Hy) as (x & Hx & Hsx). exists x. split; [done|congruence].
      * split_and!; [done|done|]. right. split_and!; [by subst m'; simpl; rewrite Hf| |done].
        subst m'. simpl. rewrite Hid. by rewrite lookup_insert_ne.
  - intros i j d e [[-> ->]|[Hd Hdn]]%Hdsk [[-> ->]|[He' Hen]]%Hdsk Hk; try done.
    + symmetry. apply (inv_disk_key m j (rID r) e r I Hen Hr). unfold same_key in *. by rewrite <- Hk, Hsp.
    + apply (inv_disk_key m i (rID r) d r I Hdn Hr). unfold same_key in *. by rewrite Hk, Hsp.
    + by apply (mi_unique _ I i j d e).
  - intros i x [[-> ->]|[Hne Hx]]%Hlook Hc; [congruence|].
    destruct (mi_committing _ I i x Hx Hc) as (d & Hd & Hds). exists d. auto.
  - intros i x [[-> ->]|[Hne Hx]]%Hlook Hu; [unfold unresolved in Hu; by rewrite Hs' in Hu|].
    destruct (mi_uncertain _ I i x Hx Hu) as (d & Hd & Hds). exists d. auto.
Qed.

Lemma inv_task m r a a' :
  mgr_inv m -> m_records m !! rID r = Some r -> m_active m !! rID r = Some a ->
  commitReserved a' = commitReserved a \/ (commitReserved a' = true /\ commit_ready r = true /\ CancelRequested r = false) ->
  mgr_inv (set_task (rID r) a' m).
Proof.
  intros [I1 I2 I3 I4 I5 I6 I7 I8 I9 I10] Hr Ha Hor.
  assert (Hact : forall i, is_Some (m_active (set_task (rID r) a' m) !! i) <-> is_Some (m_active m !! i)).
  { intros i. simpl. rewrite lookup_insert_is_Some. destruct (decide (rID r = i)) as [<-|Hne]; [rewrite Ha|]; naive_solver. }
  constructor; simpl; try done.
  - intros i x Hx. destruct (I1 i x Hx) as [Hi Hri]. split; [done|].
    destruct (decide (rID r = i)) as [<-|Hne]; [|by rewrite lookup_insert_ne].
    rewrite lookup_insert_eq. rewrite Hr in Hx. injection Hx as <-. rewrite Ha in Hri. destruct Hri as [R1 R2 R3 R4].
    constructor; [done|done| |done]. clear -R3 Hor. unfold state_inv, unreserved in *.
    assert (Hc : rState r = Verifying /\ spDirection (rSpec r) = Upload /\ CancelRequested r = false \/
      commitReserved a' = commitReserved a).
    { destruct Hor as [?|(_ & Hcr & Hcan)]; [by right|left]. unfold commit_ready in Hcr. bool_facts. done. }
    destruct (rState r); try done.
    + destruct R3 as [_ R3]. split; [by eexists|]. intros t [= <-]. destruct Hc as [(? & _)|Hc]; [done|]. rewrite Hc. by apply R3.
    + destruct R3 as (_ & Hco & R3). split_and!; [by eexists|done|]. intros t [= <-] Ht.
      destruct Hc as [(_ & Hd & Hcan)|Hc]; [done|]. apply (R3 a); [done|]. congruence.
    + destruct R3 as (_ & ?). split; [by eexists|done].
    + destruct R3 as (? & R3 & ?). split_and!; try done. intros t [= <-]. destruct Hc as [(? & _)|Hc]; [done|]. rewrite Hc. by apply R3.
    + intros t [= <-]. destruct Hc as [(? & _)|Hc]; [done|]. rewrite Hc. by apply R3.
    + intros t [= <-]. destruct Hc as [(? & _)|Hc]; [done|]. rewrite Hc. by apply R3.
  - intros i Hi%Hact. by apply I2.
  - intros i j x y Hne Hi%Hact Hj%Hact. by apply I4.
  - intros i j x y Hne Hu Hj%Hact. by apply I5.
  - rewrite map_size_insert, Ha. done.
Qed.

Lemma inv_lease_end m r :
  mgr_inv m -> m_records m !! rID r = Some r -> terminalState (rState r) = true ->
  mgr_inv (set_active (delete (rID r) (m_active m)) m).
Proof.
  intros [I1 I2 I3 I4 I5 I6 I7 I8 I9 I10] Hr Ht.
  assert (Hact : forall i, is_Some (delete (rID r) (m_active m) !! i) -> is_Some (m_active m !! i)).
  { intros i. rewrite lookup_delete_is_Some. tauto. }
  constructor; simpl; try done; eauto.
  - intros i x Hx. destruct (I1 i x Hx) as [Hi Hri]. split; [done|].
    destruct (decide (rID r = i)) as [<-|Hne]; [|by rewrite lookup_delete_ne].
    rewrite lookup_delete_eq. rewrite Hr in Hx. injection Hx as <-. destruct Hri as [R1 R2 R3 R4].
    constructor; [done|done| |done]. unfold state_inv, unreserved in *. destruct (rState r); done || naive_solver.
  - etrans; [|exact I6]. apply inj_le. rewrite map_size_delete. destruct (m_active m !! rID r); simpl; lia.
Qed.

Lemma inv_remove m r mem disk err :
  mgr_inv m -> m_records m !! rID r = Some r -> m_active m !! rID r = None -> unresolved r = false ->
  (mem = true -> disk = true) -> (mem = false -> disk = true -> err = true) ->
  mgr_inv (drop_record mem disk err r m).
Proof.
  intros I Hr Hna Hu Hmd Herr. destruct (mi_record _ I _ _ Hr) as [_ Hri].
  assert (Hnc : rState r <> Committing).
  { intros Hc. pose proof (ri_state _ _ Hri) as Hst. unfold state_inv in Hst. rewrite Hc, Hna in Hst.
    destruct Hst as [[? ?] _]. done. }
  set (m' := drop_record mem disk err r m).
  assert (Hrec : forall i x, m_records m' !! i = Some x -> m_records m !! i = Some x /\ (mem = true -> i <> rID r)).
  { intros i x. subst m'. simpl. destruct mem; [|done]. rewrite lookup_delete_Some. naive_solver. }
  assert (Hkeep : forall i x, m_records m !! i = Some x -> mem = false \/ i <> rID r -> m_records m' !! i = Some x).
  { intros i x Hx Hor. subst m'. simpl. destruct mem; [|done]. rewrite lookup_delete_ne; [done|]. naive_solver. }
  assert (Hdk : forall i d, m_disk m' !! i = Some d -> m_disk m !! i = Some d /\ (disk = true -> i <> rID r)).
  { intros i x. subst m'. simpl. destruct disk; [|done]. rewrite lookup_delete_Some. naive_solver. }
  assert (Hdkeep : forall i d, m_disk m !! i = Some d -> i <> rID r -> m_disk m' !! i = Some d).
  { intros i x Hx Hne. subst m'. simpl. destruct disk; [|done]. rewrite lookup_delete_ne; [done|]. naive_solver. }
  constructor.
  - intros i x [Hx _]%Hrec. by apply (mi_record _ I).
  - intros i Hi. destruct (mi_active _ I i Hi) as [x Hx]. exists x. apply Hkeep; [done|]. right. intros ->.
    subst m'. simpl in Hi. rewrite Hna in Hi. by destruct Hi.
  - intros k i. subst m'. simpl. destruct mem; [|apply (mi_requests _ I)]. rewrite lookup_delete_Some, (mi_requests _ I).
    setoid_rewrite lookup_delete_Some. split.
    + intros (Hne & x & Hx & Hk). exists x. split_and!; try done. intros <-. congruence.
    + intros (x & (Hne & Hx) & Hk). split; [|by exists x]. intros <-. apply Hne. by apply (inv_key m (rID r) i r x I).
  - intros i j x y Hne Hi Hj [Hx _]%Hrec [Hy _]%Hrec. by apply (mi_exclusive _ I i j).
  - intros i j x y Hne Hux Hj [Hx _]%Hrec [Hy _]%Hrec. by apply (mi_unknown _ I i j).
  - apply (mi_capacity _ I).
  - intros i d [Hd Hdne]%Hdk. destruct (mi_disk _ I i d Hd) as (Hid & Hv & Hcase). split_and!; [done|done|].
    destruct Hcase as [(x & Hx & Hsp)|(Hf & Hn & Hq)].
    + left. exists x. split; [|done]. apply Hkeep; [done|]. destruct mem; [right|by left]. auto.
    + right. split_and!; [by subst m'; simpl; rewrite Hf| |].
      * subst m'. simpl. destruct mem; [|done]. rewrite lookup_delete_None. auto.
      * subst m'. simpl. destruct mem; [|done]. rewrite lookup_delete_None. auto.
  - intros i j d e [Hd _]%Hdk [He _]%Hdk. by apply (mi_unique _ I i j d e).
  - intros i x [Hx _]%Hrec Hc. destruct (mi_committing _ I i x Hx Hc) as (d & Hd & Hds). exists d. split; [|done].
    apply Hdkeep; [done|]. intros ->. congruence.
  - intros i x [Hx _]%Hrec Hux. destruct (mi_uncertain _ I i x Hx Hux) as (d & Hd & Hds). exists d. split; [|done].
    apply Hdkeep; [done|]. intros ->. congruence.
Qed.

Lemma inv_flags m closed ctx_done : mgr_inv m -> mgr_inv (set_closed closed ctx_done m).
Proof. intros []. by constructor. Qed.

Lemma inv_task_step m m' : mgr_inv m -> task_step m m' -> mgr_inv m'.
Proof.
  intros I H. destruct H as [r r' mem disk err Hr Hsm He H1 H2 H3 H4|r mem disk err H1 H2 H3 H4 H5 H6 H7 H8 H9 H10 H11 H12
    |r r' a H1 H2 H3 H4 H5 H6 H7 H8 H9|r r' disk err H1 H2 H3 H4 H5 H6|r a a' H1 H2 H3|r H1 H2|r mem disk err H1 H2 H3 H4 H5|closed ctx_done].
  - by apply (inv_edit m r r' mem disk err).
  - by apply inv_new.
  - by apply inv_claim.
  - apply (inv_edit m r r' false disk err); try done; [naive_solver| |naive_solver].
    intros _ Hu. unfold uncertain, unresolved in Hu. by rewrite H3 in Hu.
  - by apply (inv_task m r a).
  - by apply inv_lease_end.
  - by apply inv_remove.
  - by apply inv_flags.
Qed.
End Invariant.

(** * Every operation follows the lifecycle *)
Section Refinement.
Variable plan_hash : ConnectionPlan -> string.
Variable view_hash : snapshotIdentity -> string.
Variable spec_digest : Spec -> option string.
Variable record_size : TransferRecord -> option Z.
Variable token_hash : string -> string.
Variable env : Env.
Notation encode := (encode plan_hash view_hash spec_digest record_size).
Notation task_step := (task_step plan_hash view_hash spec_digest record_size).
Notation mgr_inv := (mgr_inv plan_hash view_hash spec_digest).
Notation save := (save plan_hash view_hash spec_digest record_size env).
Notation save_sticky := (save_sticky plan_hash view_hash spec_digest record_size env).

(** An operation, run from [m], ends in a state that is related to [m]; it follows the lifecycle when it
    is a sequence of its steps. *)
Definition ran {A} (R : Manager -> Manager -> Prop) (c : op A) (m : Manager) : Prop := R m (c m).2.
Notation follows := (ran (rtc task_step)).

Section Ran.
Context {R : Manager -> Manager -> Prop} `{!Reflexive R}.
Lemma follows_ret {A} (a : A) m : ran R (op_ret a) m.
Proof. unfold ran. reflexivity. Qed.
Lemma follows_fail {A} e m : ran R (op_fail e : op A) m.
Proof. unfold ran. reflexivity. Qed.
Lemma follows_guard {A} b e (k : unit -> op A) m : (b = false -> ran R (k tt) m) -> ran R (op_bind (guard b e) k) m.
Proof. unfold ran, op_bind, guard. destruct b; simpl; [intros; reflexivity|auto]. Qed.
Lemma follows_pure {A B} (x : result transfer_error A) (k : A -> op B) m :
  (forall a, x = Ok a -> ran R (k a) m) -> ran R (op_bind (pure x) k) m.
Proof. unfold ran, op_bind, pure. destruct x; simpl; [auto|intros; reflexivity]. Qed.
Lemma follows_get {A} (k : Manager -> op A) m : ran R (k m) m -> ran R (op_bind get k) m.
Proof. done. Qed.
(** An operation that changes nothing comes first. *)
Lemma follows_still {A B} (c : op A) (k : A -> op B) m : (c m).2 = m -> (forall a, (c m).1 = Ok a -> ran R (k a) m) -> ran R (op_bind c k) m.
Proof. unfold ran, op_bind. destruct (c m) as [[a|e] m']; simpl; intros -> Hk; [by apply Hk|reflexivity]. Qed.
End Ran.
Lemma follows_bind {A B} (c : op A) (k : A -> op B) m :
  follows c m -> (forall a m', c m = (Ok a, m') -> follows (k a) m') -> follows (op_bind c k) m.
Proof.
  unfold ran, op_bind. destruct (c m) as [[a|e] m'] eqn:E; simpl; intros H1 H2; [|done].
  etrans; [exact H1|by apply (H2 a)].
Qed.
Lemma follows_modify f m : rtc task_step m (f m) -> follows (modify f) m.
Proof. done. Qed.
Lemma follows_step c m : task_step m ((c m : result transfer_error unit * Manager).2) -> follows c m.
Proof. apply rtc_once. Qed.

Lemma write_none r m : write_record false false false r m = m.
Proof. unfold write_record. rewrite orb_false_r. by destruct m. Qed.

(** What a save writes, and what its success means. *)
Lemma save_write r m : exists mem disk err,
  (save r m).2 = write_record mem disk err r m /\ (disk = true -> encode r = Ok tt) /\
  (mem = false -> disk = true -> err = true) /\ (mem = true -> disk = true) /\
  (forall m', save r m = (Ok tt, m') -> m' = write_record true true false r m /\ encode r = Ok tt).
Proof.
  unfold Tasks.save, op_bind, pure. destruct (encode r) as [[]|e] eqn:E.
  - destruct (save_io env (rID r)); simpl.
    + exists true, true, false. split_and!; try done; [unfold write_record, put_record, set_records, set_disk; by rewrite orb_false_r|].
      intros m' [= <-]. split; [|done]. unfold write_record, put_record, set_records, set_disk. by rewrite orb_false_r.
    + exists false, true, true. split_and!; try done. unfold write_record, set_storeErr, set_disk. by rewrite orb_true_r.
    + exists false, false, true. split_and!; try done. unfold write_record, set_storeErr. by rewrite orb_true_r.
  - exists false, false, false. by rewrite write_none.
Qed.

Lemma save_ok r m m' : save r m = (Ok tt, m') -> m' = write_record true true false r m /\ encode r = Ok tt.
Proof. destruct (save_write r m) as (? & ? & ? & _ & _ & _ & _ & H). apply H. Qed.

Lemma write_put mem disk err r m : put_record r (write_record mem disk err r m) = write_record true disk err r m.
Proof.
  unfold put_record, set_records, write_record. simpl. f_equal. destruct mem; [|done].
  by rewrite insert_insert_eq.
Qed.

Lemma save_sticky_write r m : exists o disk err,
  save_sticky r m = (Ok o, write_record true disk err r m) /\ (disk = true -> encode r = Ok tt).
Proof.
  unfold Tasks.save_sticky, op_bind, caught. destruct (save_write r m) as (mem & disk & err & Hw & Henc & _).
  destruct (save r m) as [[[]|e] m1]; simpl in *; subst m1; simpl; rewrite write_put; eauto 10.
Qed.

Lemma follows_save m r r' :
  m_records m !! rID r = Some r -> same_task r r' -> edit (m_active m !! rID r) r r' ->
  (uncertain r = true -> rState r' = rState r) -> follows (save r') m.
Proof.
  intros Hr Hsm He Hu. unfold ran. destruct (save_write r' m) as (mem & disk & err & -> & Henc & Herr & Hmem & _).
  apply rtc_once. apply (ts_edit _ _ _ _ _ r); try done.
  intros Hm Hd. rewrite Hmem in Hd; done.
Qed.

Lemma follows_sticky m r r' :
  m_records m !! rID r = Some r -> same_task r r' -> edit (m_active m !! rID r) r r' ->
  (rState r' = Committing -> rState r = Committing) -> follows (save_sticky r') m.
Proof.
  intros Hr Hsm He Hu. unfold ran. destruct (save_sticky_write r' m) as (o & disk & err & -> & Henc).
  apply rtc_once. apply (ts_edit _ _ _ _ _ r); done.
Qed.

Lemma save_sticky_ok r m o m' : save_sticky r m = (Ok o, m') -> exists disk err, m' = write_record true disk err r m.
Proof. destruct (save_sticky_write r m) as (o' & disk & err & -> & _). intros [= _ <-]. eauto. Qed.

(** ** Reading operations *)
Lemma mutationAllowed_ok m x m' : mutationAllowed m = (x, m') ->
  m' = m /\ (x = Ok tt -> m_closed m || m_ctx_done m = false /\ m_storeErr m = false).
Proof.
  unfold mutationAllowed, op_bind, get, guard. destruct (m_closed m || m_ctx_done m); simpl; [by intros [= <- <-]|].
  intros [= <- <-]. split; [done|]. destruct (m_storeErr m); [done|auto].
Qed.
Lemma follows_allowed {R : Manager -> Manager -> Prop} `{!Reflexive R} {A} (k : unit -> op A) m :
  (m_storeErr m = false -> ran R (k tt) m) -> ran R (op_bind mutationAllowed k) m.
Proof.
  intros H. unfold ran, op_bind. destruct (mutationAllowed m) as [x m'] eqn:E.
  apply mutationAllowed_ok in E as [-> Hx]. destruct x as [[]|]; [|reflexivity].
  apply H, Hx; done.
Qed.

Lemma leased_ok m id e x m' : leased id e m = (x, m') ->
  m' = m /\ forall r a, x = Ok (r, a) -> m_records m !! id = Some r /\ m_active m !! id = Some a.
Proof.
  unfold leased, op_bind, get. destruct (m_records m !! id), (m_active m !! id); intros [= <- <-]; naive_solver.
Qed.
Lemma follows_leased {R : Manager -> Manager -> Prop} `{!Reflexive R} {A} id e (k : TransferRecord * activeTask -> op A) m :
  (forall r a, m_records m !! id = Some r -> m_active m !! id = Some a -> ran R (k (r, a)) m) ->
  ran R (op_bind (leased id e) k) m.
Proof.
  intros H. unfold ran, op_bind. destruct (leased id e m) as [x m'] eqn:E. apply leased_ok in E as [-> Hx].
  destruct x as [[r a]|]; [|reflexivity]. destruct (Hx r a eq_refl). by apply H.
Qed.

Lemma find_ok m id x m' : find_record id m = (x, m') -> m' = m /\ forall r, x = Ok r -> m_records m !! id = Some r.
Proof. unfold find_record, op_bind, get. destruct (m_records m !! id); intros [= <- <-]; naive_solver. Qed.
Lemma follows_find {R : Manager -> Manager -> Prop} `{!Reflexive R} {A} id (k : TransferRecord -> op A) m :
  (forall r, m_records m !! id = Some r -> ran R (k r) m) -> ran R (op_bind (find_record id) k) m.
Proof.
  intros H. unfold ran, op_bind. destruct (find_record id m) as [x m'] eqn:E. apply find_ok in E as [-> Hx].
  destruct x as [r|]; [|reflexivity]. by apply H, Hx.
Qed.

Lemma authenticate_ok m id token x m' : authenticate token_hash env id token m = (x, m') ->
  m' = m /\ forall r, x = Ok r -> m_records m !! id = Some r /\ to_lower (TokenDigest r) = token_hash token /\
    now env < StatusExpiresAt r.
Proof.
  unfold authenticate, op_bind, get, guard. destruct (m_records m !! id) as [r0|]; [|intros [= <- <-]; done].
  destruct (negb (all_bytes is_hex (TokenDigest r0) && str_eq (to_lower (TokenDigest r0)) (token_hash token)) ||
            negb (now env <? StatusExpiresAt r0)) eqn:E; simpl; intros [= <- <-]; split; try done.
  intros r [= <-]. apply orb_false_iff in E as [E1 E2]. apply negb_false_iff in E1, E2.
  apply andb_true_iff in E1 as [_ E1]. apply str_eq_spec in E1. apply Z.ltb_lt in E2. done.
Qed.
Lemma follows_authenticate {R : Manager -> Manager -> Prop} `{!Reflexive R} {A} id token (k : TransferRecord -> op A) m :
  (forall r, m_records m !! id = Some r -> ran R (k r) m) -> ran R (op_bind (authenticate token_hash env id token) k) m.
Proof.
  intros H. unfold ran, op_bind. destruct (authenticate token_hash env id token m) as [x m'] eqn:E.
  apply authenticate_ok in E as [-> Hx]. destruct x as [r|]; [|reflexivity]. by apply H, Hx.
Qed.

Lemma save_err r m e m' : save r m = (Err e, m') -> exists disk err, m' = write_record false disk err r m /\
  (disk = true -> encode r = Ok tt /\ err = true).
Proof.
  unfold Tasks.save, op_bind, pure. destruct (encode r) as [[]|e'] eqn:E.
  - destruct (save_io env (rID r)); simpl; intros [= <- <-].
    + exists true, true. split; [|done]. unfold write_record, set_storeErr, set_disk. by rewrite orb_true_r.
    + exists false, true. split; [|done]. unfold write_record, set_storeErr. by rewrite orb_true_r.
  - intros [= <- <-]. exists false, false. by rewrite write_none.
Qed.

Lemma follows_save_bind {A} m r r' (k : unit -> op A) :
  m_records m !! rID r = Some r -> same_task r r' -> edit (m_active m !! rID r) r r' ->
  (uncertain r = true -> rState r' = rState r) ->
  (encode r' = Ok tt -> follows (k tt) (write_record true true false r' m)) -> follows (op_bind (save r') k) m.
Proof.
  intros Hr Hsm He Hu Hk. apply follows_bind; [by apply (follows_save _ r)|].
  intros [] m' H. apply save_ok in H as [-> Henc]. by apply Hk.
Qed.

Lemma follows_sticky_bind {A} m r r' (k : option transfer_error -> op A) :
  m_records m !! rID r = Some r -> same_task r r' -> edit (m_active m !! rID r) r r' ->
  (rState r' = Committing -> rState r = Committing) ->
  (forall o disk err, follows (k o) (write_record true disk err r' m)) -> follows (op_bind (save_sticky r') k) m.
Proof.
  intros Hr Hsm He Hu Hk. apply follows_bind; [by apply (follows_sticky _ r)|].
  intros o m' H. apply save_sticky_ok in H as (disk & err & ->). apply Hk.
Qed.

Lemma inv_rtc m m' : mgr_inv m -> rtc task_step m m' -> mgr_inv m'.
Proof. intros I H. induction H as [|x y z Hs _ IH]; [done|]. apply IH. by eapply inv_task_step. Qed.

(** ** Collection *)
Notation collect_one := (collect_one plan_hash view_hash spec_digest record_size env).
Notation collect := (collect plan_hash view_hash spec_digest record_size env).

Lemma not_uncertain r : rState r <> Committing -> rState r <> Unknown -> uncertain r = false.
Proof. intros H1 H2. unfold uncertain, unresolved. by rewrite !bool_decide_eq_false_2. Qed.

Lemma remove_follows m r : m_records m !! rID r = Some r -> m_active m !! rID r = None -> unresolved r = false ->
  follows (remove_record env r) m.
Proof.
  intros Hr Hn Hu. unfold ran, remove_record, op_bind, modify. apply rtc_once.
  destruct (remove_io env (rID r)); simpl.
  - replace (set_disk _ _) with (drop_record true true false r m);
      [|unfold drop_record, set_disk, set_requests, set_records; simpl; by rewrite orb_false_r].
    by apply ts_remove.
  - replace (set_storeErr _) with (drop_record false true true r m);
      [|unfold drop_record, set_storeErr, set_disk; simpl; by rewrite orb_true_r].
    by apply ts_remove.
  - replace (set_storeErr _) with (drop_record false false true r m);
      [|unfold drop_record, set_storeErr; simpl; by rewrite orb_true_r].
    by apply ts_remove.
Qed.

(** The record that [collect_one] looks at, after a due expiry. *)
Definition expired_copy (r : TransferRecord) : TransferRecord :=
  if bool_decide (rState r = Ready) && negb (now env <? StartBefore r) then set_updated (now env) (set_state Expired r) else r.
Lemma same_task_state s t r : same_task r (set_updated t (set_state s r)).
Proof. by constructor. Qed.

Lemma collect_one_follows m r : m_records m !! rID r = Some r -> follows (collect_one r) m.
Proof.
  intros Hr. unfold Tasks.collect_one. apply follows_get. destruct (bool_decide _) eqn:Ea; [apply follows_ret|].
  bool_facts. assert (Hn : m_active m !! rID r = None) by (destruct (m_active m !! rID r); [destruct Ea; eauto|done]).
  cbv zeta. fold (expired_copy r).
  assert (Hfin : forall m', m_records m' !! rID r = Some (expired_copy r) -> m_active m' !! rID r = None ->
    follows (if collectable env (expired_copy r) then remove_record env (expired_copy r) else op_ret tt) m').
  { intros m' Hr' Hn'. destruct (collectable env (expired_copy r)) eqn:Ec; [|apply follows_ret].
    assert (Hid : rID (expired_copy r) = rID r) by (unfold expired_copy; by destruct (_ && _)).
    apply remove_follows; rewrite ?Hid; try done. unfold collectable in Ec. apply negb_true_iff in Ec.
    by apply orb_false_iff in Ec as [_ Ec]. }
  unfold expired_copy in *. destruct (bool_decide (rState r = Ready) && negb (now env <? StartBefore r)) eqn:Ed.
  - apply andb_true_iff in Ed as [Es _]. apply bool_decide_eq_true in Es.
    apply (follows_save_bind _ r); [done|apply same_task_state| |intros Hu|intros _].
    + apply ed_stop; [done|auto|done].
    + rewrite not_uncertain in Hu; congruence.
    + apply Hfin; simpl; [by rewrite lookup_insert_eq|done].
  - apply follows_bind; [apply follows_ret|]. intros [] m' [= <-]. by apply Hfin.
Qed.

Lemma save_far r m i : i <> rID r -> m_records (save r m).2 !! i = m_records m !! i /\ m_disk (save r m).2 !! i = m_disk m !! i.
Proof.
  intros Hne. destruct (save_write r m) as (mem & disk & err & -> & _). simpl.
  split; [destruct mem|destruct disk]; by rewrite ?lookup_insert_ne by congruence.
Qed.
Lemma remove_far r m i : i <> rID r ->
  m_records (remove_record env r m).2 !! i = m_records m !! i /\ m_disk (remove_record env r m).2 !! i = m_disk m !! i.
Proof.
  intros Hne. unfold remove_record, op_bind, modify.
  destruct (remove_io env (rID r)); simpl; split; rewrite ?lookup_delete_ne by congruence; done.
Qed.
(** Two states agree on one identity. *)
Definition agree (i : string) (m m' : Manager) : Prop :=
  m_records m' !! i = m_records m !! i /\ m_disk m' !! i = m_disk m !! i.
Lemma collect_one_far r m i : i <> rID r -> agree i m (collect_one r m).2.
Proof.
  intros Hne. unfold Tasks.collect_one, op_bind at 1, get. cbv beta iota.
  destruct (bool_decide (is_Some (m_active m !! rID r))); [done|]. cbv zeta. fold (expired_copy r).
  assert (Hid : rID (expired_copy r) = rID r) by (unfold expired_copy; by destruct (_ && _)).
  assert (Hend : forall m', agree i m m' ->
    agree i m ((if collectable env (expired_copy r) then remove_record env (expired_copy r) else op_ret tt) m').2).
  { intros m' [H1 H2]. destruct (collectable env (expired_copy r)); [|done].
    destruct (remove_far (expired_copy r) m' i) as [H3 H4]; [congruence|]. split; congruence. }
  unfold op_bind. destruct (bool_decide (rState r = Ready) && negb (now env <? StartBefore r)); [|by apply Hend].
  destruct (save_far (expired_copy r) m i) as [H1 H2]; [congruence|].
  destruct (save (expired_copy r) m) as [[[]|e] m1] eqn:E; [by apply Hend|done].
Qed.

Lemma collect_all_follows l : forall m, mgr_inv m -> NoDup (rID <$> l) ->
  (forall x, x ∈ l -> m_records m !! rID x = Some x) ->
  follows (collect_all plan_hash view_hash spec_digest record_size env l) m /\
  forall i, i ∉ (rID <$> l) ->
    m_records (collect_all plan_hash view_hash spec_digest record_size env l m).2 !! i = m_records m !! i /\
    m_disk (collect_all plan_hash view_hash spec_digest record_size env l m).2 !! i = m_disk m !! i.
Proof.
  induction l as [|r l IH]; intros m I Hnd Hl; [split; [apply follows_ret|done]|].
  apply NoDup_cons in Hnd as [Hni Hnd]. assert (Hf := collect_one_follows m r (Hl r ltac:(by left))).
  cbn [Tasks.collect_all].
  assert (Hrest : forall m', collect_one r m = (Ok tt, m') -> mgr_inv m' /\ (forall x, x ∈ l -> m_records m' !! rID x = Some x)).
  { intros m' E. assert (Hm' : (collect_one r m).2 = m') by (by rewrite E). split.
    - apply (inv_rtc m); [done|]. unfold ran in Hf. by rewrite Hm' in Hf.
    - intros x Hx. rewrite <- Hm'.
      assert (Hxr : rID x <> rID r) by (intros Heq; apply Hni; rewrite <- Heq; by apply (list_elem_of_fmap_2 rID)).
      rewrite (proj1 (collect_one_far r m (rID x) Hxr)). apply Hl. by right. }
  split.
  - apply follows_bind; [done|]. intros [] m' E. destruct (Hrest m' E). by apply IH.
  - intros i Hi. rewrite fmap_cons, not_elem_of_cons in Hi. destruct Hi as [Hne Hi].
    destruct (collect_one_far r m i Hne) as [H1 H2]. unfold op_bind.
    destruct (collect_one r m) as [[[]|e] m'] eqn:E; simpl in *; [|done].
    destruct (Hrest m' eq_refl) as [I' Hl']. destruct (IH m' I' Hnd Hl') as [_ IHf]. destruct (IHf i Hi). split; congruence.
Qed.

Lemma records_list m : mgr_inv m -> NoDup (rID <$> (map_to_list (m_records m)).*2) /\
  (forall x, x ∈ (map_to_list (m_records m)).*2 -> m_records m !! rID x = Some x).
Proof.
  intros I.
  assert (Heq : rID <$> (map_to_list (m_records m)).*2 = (map_to_list (m_records m)).*1).
  { rewrite <- list_fmap_compose. apply list_fmap_ext. intros i [id x] Hx. simpl.
    apply list_elem_of_lookup_2, elem_of_map_to_list in Hx. by apply (mi_record _ _ _ _ I). }
  rewrite Heq. split; [apply NoDup_fst_map_to_list|]. intros x Hx. apply list_elem_of_fmap in Hx as ([id y] & -> & Hx).
  apply elem_of_map_to_list in Hx. simpl. by rewrite (proj1 (mi_record _ _ _ _ I id y Hx)).
Qed.

Lemma visited_list m : mgr_inv m -> NoDup (rID <$> ordered env (map_to_list (m_records m)).*2) /\
  (forall x, x ∈ ordered env (map_to_list (m_records m)).*2 -> m_records m !! rID x = Some x).
Proof. intros I. destruct (records_list m I) as [Hnd Hl]. split; [by rewrite ordered_all|]. intros x. rewrite ordered_all. apply Hl. Qed.

Lemma collect_follows m : mgr_inv m -> follows collect m /\ forall i, m_records m !! i = None ->
  m_records (collect m).2 !! i = None /\ m_disk (collect m).2 !! i = m_disk m !! i.
Proof.
  intros I. destruct (visited_list m I) as [Hnd Hl]. destruct (collect_all_follows _ m I Hnd Hl) as [Hf Hfar].
  split; [exact Hf|]. intros i Hi. rewrite <- Hi. apply Hfar. intros Hin. apply list_elem_of_fmap in Hin as (x & -> & Hx).
  rewrite (Hl x Hx) in Hi. done.
Qed.

Lemma collect_one_store r m m' : collect_one r m = (Ok tt, m') -> m_storeErr m' = m_storeErr m.
Proof.
  unfold Tasks.collect_one, op_bind at 1, get. cbv beta iota.
  destruct (bool_decide (is_Some (m_active m !! rID r))); [by intros [= <-]|]. cbv zeta. fold (expired_copy r).
  assert (Hend : forall m1, m_storeErr m1 = m_storeErr m ->
    (if collectable env (expired_copy r) then remove_record env (expired_copy r) else op_ret tt) m1 = (Ok tt, m') ->
    m_storeErr m' = m_storeErr m).
  { intros m1 H1. destruct (collectable env (expired_copy r)); [|intros [= <-]; done].
    unfold remove_record, op_bind, modify. destruct (remove_io env _); [intros [= <-]; done|done|done]. }
  unfold op_bind. destruct (bool_decide (rState r = Ready) && negb (now env <? StartBefore r)); [|by apply Hend].
  destruct (save (expired_copy r) m) as [[[]|e] m1] eqn:E; [|done]. apply save_ok in E as [-> _]. apply Hend.
  simpl. by rewrite orb_false_r.
Qed.
Lemma collect_store m m' : collect m = (Ok tt, m') -> m_storeErr m' = m_storeErr m.
Proof.
  unfold Tasks.collect, op_bind at 1, get. generalize (ordered env (map_to_list (m_records m)).*2) as l. intros l.
  revert m. induction l as [|r l IH]; intros m; cbn [collect_all]; [by intros [= <-]|].
  unfold op_bind. destruct (collect_one r m) as [[[]|e] m1] eqn:E; [|done].
  intros H. rewrite (IH _ H). by apply collect_one_store in E.
Qed.

(** ** Preparation *)
Notation issue := (issue plan_hash view_hash spec_digest record_size token_hash env).

Lemma note_edit a r r' : rState r' = rState r -> calm r r' -> TokenDigest r' = TokenDigest r \/ rState r = Ready ->
  TempOwned r' = TempOwned r \/ rState r = Transferring -> edit a r r'.
Proof. apply ed_note. Qed.

Lemma inv_rid m id r : mgr_inv m -> m_records m !! id = Some r -> rID r = id.
Proof. intros I Hr. by apply (mi_record _ _ _ _ I). Qed.

Lemma issue_follows m token r : m_records m !! rID r = Some r -> rState r = Ready -> follows (issue token r) m.
Proof.
  intros Hr Hs. unfold Tasks.issue. destruct token as [token|]; [|apply follows_fail]. cbv zeta.
  apply follows_pure. intros _ _. apply (follows_save_bind m r); [done|by constructor| | |intros; apply follows_ret].
  - apply note_edit; [done|done|by right|by left].
  - intros Hu. rewrite not_uncertain in Hu; congruence.
Qed.

Lemma issue_new_follows m l token authorization id operationID spec :
  mgr_inv m -> m_records m !! id = None -> m_disk m !! id = None -> m_requests m !! request_key spec = None ->
  m_storeErr m = false -> pathBlocked spec m = false ->
  follows (prepared <- issue token (new_record env l authorization id operationID spec);;
           modify (fun m => set_requests (<[request_key spec := id]> (m_requests m)) m);;; op_ret prepared) m.
Proof.
  intros I Hr Hd Hq Hse Hpb. unfold Tasks.issue. destruct token as [token|]; [|apply rtc_refl]. cbv zeta.
  set (r := set_updated (now env) (set_token (token_hash token) _)). unfold ran, op_bind at 1, op_bind at 1, pure.
  destruct (validatePreparationSize _ _ _ _ r) as [u|e]; [|apply rtc_refl]. unfold op_bind at 1.
  assert (Hfacts : rID r = id /\ rSpec r = spec /\ rState r = Ready /\ rBytes r = 0 /\ Resolved r = false /\
    CancelRequested r = false) by done. destruct Hfacts as (Hid & Hsp & Hst & Hb & Hre & Hca).
  destruct (save r m) as [[[]|e] m1] eqn:E; simpl.
  - apply save_ok in E as [-> Henc]. apply rtc_once. simpl.
    pose proof (ts_new plan_hash view_hash spec_digest record_size m r true true false) as Hts.
    rewrite Hid, Hsp in Hts. by apply Hts.
  - apply save_err in E as (disk & err & -> & Hde). apply rtc_once.
    pose proof (ts_new plan_hash view_hash spec_digest record_size m r false disk err) as Hts.
    rewrite Hid, Hsp in Hts. apply Hts; naive_solver.
Qed.

Lemma prepare_follows m spec operationID authorization fresh token :
  mgr_inv m -> fresh_id m fresh ->
  follows (prepare plan_hash view_hash spec_digest record_size token_hash env spec operationID authorization fresh token) m.
Proof.
  intros I Hf. unfold prepare. apply follows_pure. intros _ _. apply follows_get, follows_guard. intros _.
  apply follows_allowed. intros Hse. destruct (collect_follows m I) as [Hcf Hfar].
  apply follows_bind; [done|]. intros [] m1 Hm1. assert (I1 : mgr_inv m1).
  { apply (inv_rtc m); [done|]. unfold ran in Hcf. by rewrite Hm1 in Hcf. }
  apply follows_get. destruct (m_requests m1 !! request_key spec) as [id|] eqn:Eq.
  - destruct (m_records m1 !! id) as [r|] eqn:Er; [|apply follows_fail]. apply follows_guard. intros _.
    pose proof (inv_rid _ _ _ I1 Er) as <-. destruct (bool_decide (rState r = Ready)) eqn:Es; [|apply follows_ret].
    apply bool_decide_eq_true in Es. by apply issue_follows.
  - apply follows_guard. intros _. apply follows_guard. intros Hpb. destruct fresh as [id|]; [|apply follows_fail].
    destruct (Hf id eq_refl) as [Hr Hd]. destruct (Hfar id Hr) as [Hr1 Hd1]. rewrite Hm1 in Hr1, Hd1. simpl in Hr1, Hd1.
    apply issue_new_follows; try done; [congruence|].
    by rewrite (collect_store _ _ Hm1).
Qed.

Lemma find_request_follows m scope requestID digest :
  mgr_inv m -> follows (find_request plan_hash view_hash spec_digest record_size env scope requestID digest) m /\
  forall r m', find_request plan_hash view_hash spec_digest record_size env scope requestID digest m = (Ok (Some r), m') ->
    mgr_inv m' /\ m_records m' !! rID r = Some r.
Proof.
  intros I. destruct (collect_follows m I) as [Hcf _].
  assert (Hin : forall m1, collect m = (Ok tt, m1) -> mgr_inv m1).
  { intros m1 Hm1. apply (inv_rtc m); [done|]. unfold ran in Hcf. by rewrite Hm1 in Hcf. }
  unfold find_request. split.
  - apply follows_allowed. intros _. apply follows_bind; [done|]. intros [] m1 Hm1. apply follows_get.
    destruct (m_requests m1 !! _) as [id|]; [|apply follows_ret].
    destruct (m_records m1 !! id) as [r|]; [|apply follows_fail]. apply follows_guard. intros _. apply follows_ret.
  - intros r m'. unfold op_bind at 1. destruct (mutationAllowed m) as [x m0] eqn:E.
    apply mutationAllowed_ok in E as [-> _]. destruct x; [|done]. unfold op_bind at 1.
    destruct (collect m) as [[[]|e] m1] eqn:Em; [|done]. specialize (Hin m1 eq_refl). unfold op_bind at 1, get.
    destruct (m_requests m1 !! _) as [id|]; [|done]. destruct (m_records m1 !! id) as [r0|] eqn:Er; [|done].
    unfold op_bind, guard. destruct (str_eq digest "" || _); [done|]. simpl. intros [= <- <-].
    split; [done|]. by rewrite (inv_rid _ _ _ Hin Er).
Qed.

Lemma Retry_follows m scope requestID digest token :
  mgr_inv m -> follows (Retry plan_hash view_hash spec_digest record_size token_hash env scope requestID digest token) m.
Proof.
  intros I. destruct (find_request_follows m scope requestID digest I) as [Hf Hok]. unfold Retry.
  apply follows_bind; [done|]. intros [r|] m1 Hm1; [|apply follows_ret]. destruct (Hok r m1 Hm1) as [I1 Hr].
  destruct (bool_decide (rState r = Ready)) eqn:Es; [|apply follows_ret]. apply bool_decide_eq_true in Es.
  apply follows_guard. intros _. apply follows_bind; [by apply issue_follows|]. intros p m2 _. apply follows_ret.
Qed.

Lemma RetryBound_follows m id permit token :
  mgr_inv m -> follows (RetryBound plan_hash view_hash spec_digest record_size token_hash env id permit token) m.
Proof.
  intros I. destruct (collect_follows m I) as [Hcf _]. unfold RetryBound. apply follows_allowed. intros _.
  apply follows_bind; [done|]. intros [] m1 Hm1. assert (I1 : mgr_inv m1).
  { apply (inv_rtc m); [done|]. unfold ran in Hcf. by rewrite Hm1 in Hcf. }
  apply follows_find. intros r Hr. pose proof (inv_rid _ _ _ I1 Hr) as <-.
  destruct (bool_decide (rState r = Ready)) eqn:Es; [|apply follows_ret]. apply bool_decide_eq_true in Es.
  apply follows_pure. intros _ _. by apply issue_follows.
Qed.

(** ** Leases *)
Lemma write_lookup mem disk err r m : mem = true -> m_records (write_record mem disk err r m) !! rID r = Some r.
Proof. intros ->. simpl. by rewrite lookup_insert_eq. Qed.

Lemma claim_follows m ctx id token direction permit :
  mgr_inv m ->
  follows (claim plan_hash view_hash spec_digest record_size token_hash env ctx id token direction permit) m.
Proof.
  intros I. unfold claim. apply follows_guard. intros _. apply follows_allowed. intros _.
  apply follows_authenticate. intros r Hr. pose proof (inv_rid _ _ _ I Hr) as Hid.
  apply follows_bind; [destruct (_ || _); [|apply follows_ret]; unfold check_permit; apply rtc_refl|].
  intros [] m0 Hm0. assert (m0 = m) as ->.
  { destruct (negb (is_none (rAuthorization r)) || negb (is_none permit)); by injection Hm0. }
  apply follows_guard. intros _. apply follows_guard. intros _. apply follows_guard. intros Hs. bool_facts.
  destruct (negb (now env <? StartBefore r)) eqn:El.
  - apply follows_bind; [|intros; apply follows_fail]. unfold ran, caught.
    pose proof (follows_save m r (set_updated (now env) (set_state Expired r))) as Hsv. rewrite Hid in Hsv.
    unfold ran in Hsv. destruct (save _ m) as [[[]|e] m1]; simpl in *; apply Hsv;
      try done; try apply same_task_state; try (apply ed_stop; auto; done); intros Hu; rewrite not_uncertain in Hu; congruence.
  - apply follows_get, follows_guard. intros Hpb. apply follows_guard. intros Hcap. apply negb_false_iff in Hcap.
    set (r' := set_updated (now env) (set_state Transferring r)). unfold ran, op_bind at 1.
    destruct (save r' m) as [[[]|e] m1] eqn:E.
    + apply save_ok in E as [-> Henc]. simpl. apply rtc_once.
      pose proof (ts_claim plan_hash view_hash spec_digest record_size m r r'
        (newActiveTask env (m_limits m) permit)) as Hts. rewrite Hid in Hts. by apply Hts.
    + apply save_err in E as (disk & err & -> & Hde). apply rtc_once.
      by apply (ts_claim_lost _ _ _ _ m r r'); rewrite ?Hid.
Qed.

(** The context of a lease: its record with an active task. *)
Lemma active_state m id r a : mgr_inv m -> m_records m !! id = Some r -> m_active m !! id = Some a ->
  rID r = id /\ terminalState (rState r) = false -> rState r = Transferring \/ rState r = Verifying \/ rState r = Committing.
Proof.
  intros I Hr Ha [_ Ht]. destruct (mi_record _ _ _ _ I _ _ Hr) as [_ [_ _ Hst _]]. unfold state_inv in Hst.
  rewrite Ha in Hst. destruct (rState r); auto; done.
Qed.

Lemma follows_step_modify m f : task_step m (f m) -> follows (modify f) m.
Proof. intros H. by apply rtc_once. Qed.

Ltac with_id I Hr := let H := fresh "Hid" in pose proof (inv_rid _ _ _ I Hr) as H; subst.

Lemma Progress_follows m id bytes : mgr_inv m -> follows (Progress env id bytes) m.
Proof.
  intros I. unfold Progress. apply follows_leased. intros r a Hr Ha. cbn [fst]. with_id I Hr.
  apply follows_guard. intros Hs. apply follows_guard. intros Hb. bool_facts.
  apply follows_step_modify. set (r' := set_updated _ _).
  destruct (mi_record _ _ _ _ I _ _ Hr) as [_ [Hbytes _ _ _]].
  replace (put_record r' m) with (write_record true false false r' m);
    [|unfold write_record, put_record, set_records; by rewrite orb_false_r].
  apply (ts_edit _ _ _ _ _ r); try done.
  apply ed_progress; try done. simpl. lia.
Qed.

Lemma Temporary_follows m id :
  mgr_inv m -> follows (Temporary plan_hash view_hash spec_digest record_size env id) m.
Proof.
  intros I. unfold Temporary. apply follows_leased. intros r a Hr Ha. cbn [fst]. with_id I Hr.
  apply follows_guard. intros Hs. apply orb_false_iff in Hs as [Hs _]. bool_facts. cbv zeta.
  apply (follows_save_bind _ r); [done|by constructor|apply note_edit; auto; done| |intros; apply follows_ret].
  intros Hu. rewrite not_uncertain in Hu; congruence.
Qed.

Lemma ConfirmTemporary_follows m id :
  mgr_inv m -> follows (ConfirmTemporary plan_hash view_hash spec_digest record_size env id) m.
Proof.
  intros I. unfold ConfirmTemporary. apply follows_leased. intros r a Hr Ha. cbn [fst]. with_id I Hr.
  apply follows_guard. intros Hs. apply orb_false_iff in Hs as [Hs _]. bool_facts. cbv zeta.
  apply (follows_sticky _ r); [done|by constructor|apply note_edit; auto; done|done].
Qed.

Lemma Verify_follows m id bytes digest :
  mgr_inv m -> follows (Verify plan_hash view_hash spec_digest record_size env id bytes digest) m.
Proof.
  intros I. unfold Verify. apply follows_leased. intros r a Hr Ha. with_id I Hr. cbv beta iota.
  apply follows_guard. intros Hs. apply follows_guard. intros _. apply follows_guard. intros Hb. apply follows_guard. intros Hd.
  bool_facts. apply (follows_save _ r); [done|by constructor| |].
  - apply ed_verify; try done. split_and!; [done|done|]. intros Hup. simpl in *.
    rewrite bool_decide_eq_true_2 in Hd by done. simpl in Hd. str_facts. done.
  - intros Hu. rewrite not_uncertain in Hu; congruence.
Qed.

Lemma set_task_same_records id a m : m_records (set_task id a m) = m_records m.
Proof. done. Qed.

(** A task of an active record changes, keeping its reservation. *)
Lemma task_change m r a a' : m_records m !! rID r = Some r -> m_active m !! rID r = Some a ->
  commitReserved a' = commitReserved a -> rtc task_step m (set_task (rID r) a' m).
Proof. intros Hr Ha Hc. apply rtc_once, (ts_task _ _ _ _ m r a); auto. Qed.

(** What a reservation leaves behind. *)
Definition reserve_result (id : string) (m : Manager) (p : result transfer_error unit * Manager) : Prop :=
  rtc task_step m p.2 /\ m_records p.2 = m_records m /\
  (p.1 = Ok tt -> exists a', m_active p.2 !! id = Some a' /\ commitReserved a' = true).

Lemma reserveCommit_result m id permit :
  mgr_inv m -> reserve_result id m (reserveCommit plan_hash view_hash spec_digest env id permit m).
Proof.
  assert (Hno : forall e, reserve_result id m (Err e, m)) by (intros e; split_and!; [apply rtc_refl|done|done]).
  intros I. unfold reserveCommit, op_bind at 1.
  destruct (leased id EInvalidState m) as [x m0] eqn:E. apply leased_ok in E as [-> Hx].
  destruct x as [[r a]|]; [|apply Hno]. destruct (Hx r a eq_refl) as [Hr Ha]. with_id I Hr.
  unfold op_bind, guard, check_permit, pure. destruct (commit_ready r) eqn:Ecr; simpl; [|apply Hno].
  destruct (CheckPermit _ _ _ _ _ _) as [[]|e]; [|apply Hno].
  destruct (commitReserved a) eqn:Er; [split_and!; [apply rtc_refl|done|]; intros _; by exists a|].
  destruct (mutationAllowed m) as [y m1] eqn:Em. apply mutationAllowed_ok in Em as [-> _].
  destruct y; [|apply Hno]. destruct (CancelRequested r) eqn:Ec; simpl; [apply Hno|].
  destruct (ended (at_request a)); simpl; [apply Hno|]. destruct (now env <? at_deadline a); simpl; [|apply Hno].
  split_and!; [|done|].
  - apply rtc_once. apply (ts_task _ _ _ _ m r a); auto.
  - intros _. eexists. simpl. by rewrite lookup_insert_eq.
Qed.

Lemma reserveCommit_follows m id permit :
  mgr_inv m -> follows (reserveCommit plan_hash view_hash spec_digest env id permit) m /\
  m_records (reserveCommit plan_hash view_hash spec_digest env id permit m).2 = m_records m /\
  forall m', reserveCommit plan_hash view_hash spec_digest env id permit m = (Ok tt, m') ->
    exists a', m_active m' !! id = Some a' /\ commitReserved a' = true.
Proof.
  intros I. destruct (reserveCommit_result m id permit I) as (H1 & H2 & H3). split_and!; [done|done|].
  intros m' Hm'. rewrite Hm' in H3. by apply H3.
Qed.

Lemma beginCommit_follows m id permit :
  mgr_inv m -> follows (beginCommit plan_hash view_hash spec_digest record_size env id permit) m.
Proof.
  intros I. unfold beginCommit. apply follows_leased. intros r a Hr Ha. cbv beta iota. with_id I Hr.
  apply follows_guard. intros Hcr. apply negb_false_iff in Hcr. unfold commit_ready in Hcr.
  apply andb_true_iff in Hcr as [Hcr Hown]. apply andb_true_iff in Hcr as [Hcr _]. bool_facts.
  set (c := if negb (is_none (rAuthorization r)) || negb (is_none permit) then _ else _).
  assert (Hc : follows c m /\ m_records (c m).2 = m_records m /\
    forall m', c m = (Ok tt, m') -> forall t, m_active m' !! rID r = Some t -> commitReserved t = true \/ at_ctx t = Live).
  { subst c. destruct (negb (is_none (rAuthorization r)) || negb (is_none permit)).
    - destruct (reserveCommit_follows m (rID r) permit I) as (H1 & H2 & H3). split_and!; [done|done|].
      intros m' Hm' t Ht. destruct (H3 m' Hm') as (a' & Ha' & Hres). left. congruence.
    - split_and!; [apply rtc_refl|done|]. unfold guard. intros m' Hg t Ht.
      destruct (ended (at_ctx a)) eqn:Ee; [done|]. injection Hg as <-. right.
      rewrite Ha in Ht. injection Ht as <-. by destruct (at_ctx a). }
  destruct Hc as (Hcf & Hcrec & Hcok). apply follows_bind; [done|]. intros [] m1 Hm1.
  assert (I1 : mgr_inv m1) by (apply (inv_rtc m); [done|]; unfold ran in Hcf; by rewrite Hm1 in Hcf).
  rewrite Hm1 in Hcrec. simpl in Hcrec.
  apply follows_leased. intros r1 t Hr1 Ht. rewrite Hcrec, Hr in Hr1. injection Hr1 as <-. cbn [snd].
  specialize (Hcok m1 Hm1 t Ht).
  apply follows_bind; [destruct (commitReserved t); [apply follows_get; apply rtc_refl|]|].
  { unfold ran. destruct (mutationAllowed m1) as [y m2] eqn:Em. apply mutationAllowed_ok in Em as [-> _]. apply rtc_refl. }
  intros [] m2 Hm2. assert (m2 = m1) as ->.
  { destruct (commitReserved t).
    - unfold op_bind, get, guard in Hm2. by injection Hm2.
    - by apply mutationAllowed_ok in Hm2 as [-> _]. }
  apply (follows_save_bind _ r); [by rewrite Hcrec|by constructor| | |].
  - rewrite Ht. apply (ed_commit _ _ _ t); done.
  - intros Hu. rewrite not_uncertain in Hu; congruence.
  - intros _. apply follows_modify. set (r2 := set_updated _ _).
    apply (task_change _ r2 t); [simpl; by rewrite lookup_insert_eq|done|done].
Qed.

Lemma sticky_then_stop {A} m r r' a (k : option transfer_error -> op A) :
  m_records m !! rID r = Some r -> m_active m !! rID r = Some a -> same_task r r' ->
  edit (m_active m !! rID r) r r' -> (rState r' = Committing -> rState r = Committing) ->
  (forall o m', follows (k o) m') ->
  follows (op_bind (save_sticky r') (fun o => op_bind (modify (set_task (rID r) (stopped_task a))) (fun _ => k o))) m.
Proof.
  intros Hr Ha Hsm He Hc Hk. apply (follows_sticky_bind _ r); try done. intros o disk err.
  apply follows_bind; [|intros; apply Hk]. apply follows_modify. rewrite <- (sm_id _ _ Hsm).
  apply (task_change _ r' a); [by apply write_lookup|by rewrite (sm_id _ _ Hsm)|done].
Qed.

Lemma Complete_follows m id :
  mgr_inv m -> follows (Complete plan_hash view_hash spec_digest record_size env id) m.
Proof.
  intros I. unfold Complete. apply follows_leased. intros r a Hr Ha. cbv beta iota. with_id I Hr.
  destruct (bool_decide (rState r = Committing) && bool_decide (spDirection (rSpec r) = Upload)) eqn:E1;
    [|destruct (bool_decide (rState r = Verifying) && bool_decide (spDirection (rSpec r) = Download)) eqn:E2;
      [|apply follows_fail]].
  - bool_facts. unfold ran, op_bind at 1, op_ret at 1. cbv zeta.
    apply (sticky_then_stop m r _ a); try done; [|intros; apply follows_ret].
    apply ed_complete; [by rewrite Ha|done..].
  - clear E1. bool_facts. unfold ran, op_bind at 1, op_ret at 1. cbv zeta.
    apply (sticky_then_stop m r _ a); try done; [|intros; apply follows_ret].
    apply ed_stream; [by rewrite Ha|done..].
Qed.

Lemma Fail_follows m id cause :
  mgr_inv m -> follows (Fail_ plan_hash view_hash spec_digest record_size env id cause) m.
Proof.
  intros I. unfold Fail_. apply follows_get. destruct (m_records m !! id) as [r|] eqn:Hr; [|apply follows_ret].
  destruct (m_active m !! id) as [a|] eqn:Ha; [|apply follows_ret].
  destruct (terminalState (rState r)) eqn:Ht; [apply follows_ret|]. with_id I Hr.
  pose proof (active_state m (rID r) r a I Hr Ha (conj eq_refl Ht)) as Hst.
  assert (Hf : failed_state r a <> Committing).
  { unfold failed_state. destruct (bool_decide _); [done|]. by destruct (_ || _). }
  apply (sticky_then_stop m r _ a); try done.
  - unfold with_cause. by destruct cause.
  - apply (ed_fail _ _ _ a); try done; unfold with_cause; by destruct cause.
  - unfold with_cause. destruct cause; simpl; congruence.
  - intros; apply follows_ret.
Qed.

(** After [Fail_] a leased record is settled. *)
Lemma Fail_settled m id cause o m' :
  mgr_inv m -> Fail_ plan_hash view_hash spec_digest record_size env id cause m = (o, m') ->
  forall r, m_records m' !! id = Some r -> is_Some (m_active m' !! id) -> terminalState (rState r) = true.
Proof.
  intros I. unfold Fail_, op_bind at 1, get. destruct (m_records m !! id) as [r|] eqn:Hr.
  - destruct (m_active m !! id) as [a|] eqn:Ha.
    + destruct (terminalState (rState r)) eqn:Ht; [intros [= <- <-] x Hx _; congruence|]. with_id I Hr.
      unfold op_bind at 1. set (r' := set_updated _ _).
      destruct (save_sticky_write r' m) as (o' & disk & err & -> & _). simpl. intros [= <- <-] x Hx _.
      simpl in Hx. replace (rID (with_cause cause (set_state (failed_state r a) r))) with (rID r) in Hx by by destruct cause.
      rewrite lookup_insert_eq in Hx. injection Hx as <-.
      assert (Hst : rState r' = failed_state r a) by (subst r'; unfold with_cause; by destruct cause).
      rewrite Hst. unfold failed_state. destruct (bool_decide _); [done|]. by destruct (_ || _).
    + intros [= <- <-] x Hx [? ?]. congruence.
  - intros [= <- <-] x Hx. congruence.
Qed.

Lemma lease_close_follows m id :
  mgr_inv m -> follows (lease_close plan_hash view_hash spec_digest record_size env id) m.
Proof.
  intros I. pose proof (Fail_follows m id (Some "transfer handler ended without confirming completion") I) as Hf.
  unfold lease_close. apply follows_bind; [done|]. intros o m' Hm'.
  assert (I' : mgr_inv m') by (apply (inv_rtc m); [done|]; unfold ran in Hf; by rewrite Hm' in Hf).
  apply follows_bind; [|intros; apply follows_ret]. apply follows_modify.
  destruct (m_active m' !! id) as [a|] eqn:Ha.
  - destruct (mi_active _ _ _ _ I' id) as [r Hr]; [by rewrite Ha|]. with_id I' Hr.
    apply rtc_once, ts_release; [done|]. by apply (Fail_settled _ _ _ _ _ I Hm' r Hr); rewrite Ha.
  - rewrite delete_id by done. destruct m'; apply rtc_refl.
Qed.

Lemma RejectCommit_follows m id cause :
  mgr_inv m -> follows (RejectCommit plan_hash view_hash spec_digest record_size env id cause) m.
Proof.
  intros I. unfold RejectCommit. apply follows_leased. intros r a Hr Ha. cbv beta iota. with_id I Hr.
  apply follows_guard. intros Hs. bool_facts. destruct cause as [c|]; [|apply follows_fail].
  apply (sticky_then_stop m r _ a); try done; [|intros; apply follows_ret].
  apply ed_reject; [by rewrite Ha|done..].
Qed.

(** ** Cancellation and management *)
Lemma cancelTask_follows m r :
  mgr_inv m -> m_records m !! rID r = Some r -> follows (cancelTask plan_hash view_hash spec_digest record_size env r) m.
Proof.
  intros I Hr. unfold cancelTask. apply follows_get. apply follows_guard. intros Hres. apply follows_guard. intros Hs.
  destruct (running (rState r)) eqn:Erun; cbn [negb]; [|apply follows_ret]. apply orb_false_iff in Hs as [Hc Hu].
  bool_facts. cbv zeta. set (r' := if bool_decide _ then _ else _).
  assert (Hr' : same_task r r' /\ same_content r r' /\ CancelRequested r' = true /\
    rState r' = (if bool_decide (rState r = Ready) then Cancelled else rState r)).
  { subst r'. simpl. destruct (bool_decide (rState r = Ready)); done. }
  destruct Hr' as (Hsm & Hco & Hca & Hst).
  apply (follows_sticky_bind _ r); [done|done| | |].
  - destruct (bool_decide (rState r = Ready)) eqn:E; bool_facts.
    + apply ed_stop; [done| |done]. by left.
    + apply ed_cancel; [|done|done|done|].
      * revert Erun. clear -E. destruct (rState r); simpl; auto; done.
      * intros t Ht Hv. rewrite Ht, Hv in Hres. rewrite andb_true_r in Hres. done.
  - rewrite Hst. destruct (bool_decide (rState r = Ready)); [discriminate|auto].
  - intros o disk err. apply follows_bind; [|intros; apply follows_ret]. apply follows_modify. cbv beta.
    destruct (m_active (write_record true disk err r' m) !! rID r') as [a|] eqn:Ea; [|apply rtc_refl].
    apply (task_change _ r' a); [by apply write_lookup|done|done].
Qed.

Lemma Cancel_follows m scope id :
  mgr_inv m -> follows (Cancel plan_hash view_hash spec_digest record_size env scope id) m.
Proof.
  intros I. unfold Cancel, lookup_scoped. unfold ran, op_bind, get.
  destruct (m_records m !! id) as [r|] eqn:Hr; [|apply rtc_refl]. with_id I Hr.
  unfold guard. destruct (negb _); [apply rtc_refl|]. simpl. by apply cancelTask_follows.
Qed.

Lemma CancelWithToken_follows m id token :
  mgr_inv m -> follows (CancelWithToken plan_hash view_hash spec_digest record_size token_hash env id token) m.
Proof.
  intros I. unfold CancelWithToken. apply follows_authenticate. intros r Hr. with_id I Hr. by apply cancelTask_follows.
Qed.

Lemma Cleaned_follows m id :
  mgr_inv m -> follows (Cleaned plan_hash view_hash spec_digest record_size env id) m.
Proof.
  intros I. unfold Cleaned. apply follows_find. intros r Hr. with_id I Hr. apply follows_guard. intros Hu.
  apply (follows_save _ r); [done|by constructor|apply note_edit; auto; done|done].
Qed.

Lemma Warn_follows m id warning :
  mgr_inv m -> follows (Warn plan_hash view_hash spec_digest record_size env id warning) m.
Proof.
  intros I. unfold Warn. apply follows_find. intros r Hr. with_id I Hr.
  apply (follows_sticky _ r); [done|by constructor|apply note_edit; auto; done|done].
Qed.

Lemma InvalidateReady_follows m id cause :
  mgr_inv m -> follows (InvalidateReady plan_hash view_hash spec_digest record_size env id cause) m.
Proof.
  intros I. unfold InvalidateReady. apply follows_allowed. intros _. apply follows_find. intros r Hr. with_id I Hr.
  destruct (bool_decide (rState r = Ready)) eqn:Es; [|apply follows_ret]. bool_facts.
  destruct cause as [c|]; [|apply follows_fail].
  apply (follows_save _ r); [done|by constructor|apply ed_stop; auto; done|].
  intros Hu. rewrite not_uncertain in Hu; congruence.
Qed.

(** Tasks cancelled one after the other. *)
Lemma tasks_change m f : mgr_inv m -> (forall id a, commitReserved (f id a) = commitReserved a) ->
  rtc task_step m (set_active (map_imap (fun id a => Some (f id a)) (m_active m)) m).
Proof.
  intros I Hf.
  assert (Hgen : forall (l : list string) m0 am, mgr_inv m0 -> m_active m0 = am ->
    (forall id, id ∈ l -> is_Some (am !! id)) ->
    rtc task_step m0 (set_active (map_imap (fun id a => Some (if bool_decide (id ∈ l) then f id a else a)) am) m0)).
  { induction l as [|i l IH]; intros m0 am I0 Ham Hl.
    - replace (map_imap _ am) with am; [subst am; destruct m0; apply rtc_refl|].
      apply map_eq. intros id. rewrite map_lookup_imap. by destruct (am !! id).
    - etrans; [apply IH; [done|done|]; intros id Hid; apply Hl; by right|].
      set (m1 := set_active _ m0). set (am' := map_imap (fun id a => Some (if bool_decide (id ∈ i :: l) then f id a else a)) am).
      assert (I1 : mgr_inv m1) by (apply (inv_rtc m0); [done|]; apply IH; [done|done|]; intros id Hid; apply Hl; by right).
      destruct (Hl i ltac:(by left)) as [a Ha].
      assert (Ha1 : m_active m1 !! i = Some (if bool_decide (i ∈ l) then f i a else a)).
      { subst m1. simpl. by rewrite map_lookup_imap, Ha. }
      destruct (mi_active _ _ _ _ I1 i) as [r Hr]; [by rewrite Ha1|]. pose proof (inv_rid _ _ _ I1 Hr) as Hid.
      replace (set_active am' m0) with (set_task (rID r) (f i a) m1).
      + apply (task_change m1 r (if bool_decide (i ∈ l) then f i a else a)); rewrite ?Hid; [done|done|].
        destruct (bool_decide (i ∈ l)); [done|apply Hf].
      + unfold set_task, set_active. subst m1. simpl. rewrite Hid. f_equal. apply map_eq. intros j.
        subst am'. rewrite map_lookup_imap. destruct (decide (i = j)) as [->|Hne].
        * rewrite lookup_insert_eq, Ha. simpl. by rewrite bool_decide_eq_true_2 by left.
        * rewrite lookup_insert_ne by done. rewrite map_lookup_imap. destruct (am !! j); [|done]. simpl. f_equal.
          assert (bool_decide (j ∈ l) = bool_decide (j ∈ i :: l)) as ->; [|done].
          apply bool_decide_ext. rewrite elem_of_cons. naive_solver. }
  specialize (Hgen (elements (dom (m_active m))) m (m_active m) I eq_refl).
  replace (map_imap (fun id a => Some (f id a)) (m_active m)) with
    (map_imap (fun id a => Some (if bool_decide (id ∈ elements (dom (m_active m))) then f id a else a)) (m_active m)).
  - apply Hgen. intros id Hid. by apply elem_of_elements, elem_of_dom in Hid.
  - apply map_eq. intros id. rewrite !map_lookup_imap. destruct (m_active m !! id) eqn:E; [|done]. simpl.
    rewrite bool_decide_eq_true_2; [done|]. apply elem_of_elements, elem_of_dom. by rewrite E.
Qed.

(** ** One transition per call *)
Lemma next_state_refl a : next_state a a = true.
Proof. unfold next_state. by rewrite bool_decide_eq_true_2. Qed.
Lemma edit_next a r r' : edit a r r' -> next_state (rState r) (rState r') = true.
Proof.
  intros He. destruct He as [Hs _ _ _|_ Hs Hs' _ _ _|_ Hs Hs' _ _|? _ Hs Hs' _ _ _ _|_ Hs Hs' _|_ Hs _ Hs' _|t _ Hs Hs' _|_ Hs Hs' _
    |Hs Hs' _ _ _|Hs Hs' _]; try (rewrite Hs, Hs'; done).
  - rewrite Hs. apply next_state_refl.
  - rewrite Hs'. unfold failed_state. destruct Hs as [Hs|[Hs|Hs]]; rewrite Hs; simpl; [| |done]; by destruct (_ || _).
  - rewrite Hs'. apply next_state_refl.
  - rewrite Hs. destruct Hs' as [-> |[-> | ->]]; done.
Qed.
Lemma moved_next m r r' : moved m r r' -> next_state (rState r) (rState r') = true.
Proof.
  intros [-> |[_ [He|[(Hs & Hs' & _)|(t & _ & Hs & Hs' & _)]]]]; [apply next_state_refl|by eapply edit_next| |]; by rewrite Hs, Hs'.
Qed.
Lemma moved_edit m r r' : same_task r r' -> edit (m_active m !! rID r) r r' -> moved m r r'.
Proof. intros H1 H2. right. split; [done|by left]. Qed.
Lemma moved_id m r r' : moved m r r' -> rID r' = rID r.
Proof. intros [-> |[H _]]; [done|apply (sm_id _ _ H)]. Qed.

Lemma lawful_kept m m' : m_records m' = m_records m -> lawful m m'.
Proof.
  intros E. constructor; rewrite E; [|congruence|congruence].
  intros id r r' Hr Hr'. assert (r' = r) as -> by congruence. split; [by left|apply next_state_refl].
Qed.
#[local] Instance lawful_reflexive : Reflexive lawful.
Proof. intros m. by apply lawful_kept. Qed.
Lemma lawful_one m m' r r' : m_records m !! rID r = Some r -> moved m r r' ->
  m_records m' = m_records m \/ m_records m' = <[rID r' := r']> (m_records m) -> lawful m m'.
Proof.
  intros Hr Hm [E|E]; [by apply lawful_kept|]. rewrite (moved_id _ _ _ Hm) in E. constructor; rewrite E; intros id x.
  - intros y Hx Hy. destruct (decide (rID r = id)) as [<-|Hne].
    + rewrite lookup_insert_eq in Hy. assert (x = r) as -> by congruence. injection Hy as <-. split; [done|by eapply moved_next].
    + rewrite lookup_insert_ne in Hy by done. assert (y = x) as -> by congruence. split; [by left|apply next_state_refl].
  - intros Hx Hn. apply lookup_insert_None in Hn as [Hn _]. congruence.
  - intros Hn Hx. apply lookup_insert_Some in Hx as [[<- _]|[_ Hx]]; congruence.
Qed.
Lemma lawful_then m m' m'' : lawful m m' -> m_records m'' = m_records m' -> lawful m m''.
Proof. intros [L1 L2 L3] E. constructor; rewrite E; done. Qed.

(** Saves as the calls use them; [m0] has the records of [m]. *)
Lemma save_records r m : m_records (save r m).2 = m_records m \/ m_records (save r m).2 = <[rID r := r]> (m_records m).
Proof. destruct (save_write r m) as ([] & disk & err & -> & _); simpl; auto. Qed.
Lemma lawful_save m m0 r r' : m_records m0 = m_records m -> m_records m !! rID r = Some r -> moved m r r' -> lawful m (save r' m0).2.
Proof. intros E Hr Hm. apply (lawful_one m _ r r'); [done|done|]. rewrite <- E. apply save_records. Qed.
Lemma lawful_save_bind {A} m m0 r r' (k : unit -> op A) : m_records m0 = m_records m -> m_records m !! rID r = Some r -> moved m r r' ->
  (forall m1, m_records (k tt m1).2 = m_records m1) -> lawful m (op_bind (save r') k m0).2.
Proof.
  intros E Hr Hm Hk. pose proof (lawful_save m m0 r r' E Hr Hm) as L. unfold op_bind. destruct (save r' m0) as [[[]|e] m1]; [|done].
  eapply lawful_then; [exact L|apply Hk].
Qed.
Lemma lawful_sticky_bind {A} m r r' (k : option transfer_error -> op A) : m_records m !! rID r = Some r -> moved m r r' ->
  (forall o m1, m_records (k o m1).2 = m_records m1) -> lawful m (op_bind (save_sticky r') k m).2.
Proof.
  intros Hr Hm Hk. unfold op_bind. destruct (save_sticky_write r' m) as (o & disk & err & -> & _).
  apply (lawful_one m _ r r'); [done|done|]. right. by rewrite Hk.
Qed.
Lemma lawful_sticky m r r' : m_records m !! rID r = Some r -> moved m r r' -> lawful m (save_sticky r' m).2.
Proof. intros Hr Hm. destruct (save_sticky_write r' m) as (o & disk & err & -> & _). apply (lawful_one m _ r r'); [done|done|by right]. Qed.

(** What the collection does to one record, and to all. *)
Definition swept_one (m : Manager) (r : TransferRecord) (o : option TransferRecord) : Prop :=
  match o with
  | Some r' => r' = r \/ rState r = Ready /\ rState r' = Expired /\ same_task r r' /\ same_content r r'
  | None => m_active m !! rID r = None /\ uncertain r = false /\ rState r <> Transferring /\ rState r <> Verifying /\ CleanupPending r = false
  end.
Lemma collect_one_sweeps m r : mgr_inv m -> m_records m !! rID r = Some r ->
  swept_one m r (m_records (collect_one r m).2 !! rID r) /\ m_active (collect_one r m).2 = m_active m.
Proof.
  intros I Hr. remember (collect_one r m) as res eqn:Hres. unfold Tasks.collect_one, op_bind at 1, get in Hres. cbv beta iota in Hres.
  destruct (bool_decide (is_Some _)) eqn:Ea; subst res; [simpl; rewrite Hr; split; [by left|done]|].
  bool_facts. assert (Hn : m_active m !! rID r = None) by (destruct (m_active m !! rID r); [destruct Ea; eauto|done]).
  destruct (mi_record _ _ _ _ I _ _ Hr) as [_ [_ _ Hst _]]. unfold state_inv in Hst. rewrite Hn in Hst.
  assert (Hrun : rState r <> Transferring /\ rState r <> Verifying /\ rState r <> Committing).
  { split_and!; intros E; rewrite E in Hst; destruct Hst as [[? ?] _]; done. }
  destruct Hrun as (H1 & H2 & H3). cbv zeta. fold (expired_copy r).
  assert (Hx : swept_one m r (Some (expired_copy r)) /\ rID (expired_copy r) = rID r /\
    (unresolved (expired_copy r) = false -> uncertain r = false) /\ CleanupPending (expired_copy r) = CleanupPending r).
  { unfold expired_copy. destruct (bool_decide (rState r = Ready)) eqn:Es; simpl; [|split; [by left|]; split; [done|]; split; [|done];
      intros Hu; unfold uncertain; by rewrite Hu, bool_decide_eq_false_2].
    bool_facts. assert (uncertain r = false) by (apply not_uncertain; congruence).
    destruct (negb _); [|split; [by left|done]]. split; [right|done]. done. }
  destruct Hx as (Hx & Hid & Hu & Hcl).
  assert (Hend : forall m', m_active m' = m_active m -> swept_one m r (m_records m' !! rID r) ->
    let m'' := ((if collectable env (expired_copy r) then remove_record env (expired_copy r) else op_ret tt) m').2 in
    swept_one m r (m_records m'' !! rID r) /\ m_active m'' = m_active m).
  { intros m' Ha' Hs'. cbv zeta. destruct (collectable env (expired_copy r)) eqn:Ec; [|done].
    unfold collectable in Ec. apply negb_true_iff in Ec. apply orb_false_iff in Ec as [Ec Eu]. apply orb_false_iff in Ec as [_ Ec].
    unfold remove_record, op_bind, modify. destruct (remove_io env _); simpl; [|done|done]. split; [|done].
    rewrite Hid, lookup_delete_eq. split_and!; [done|by apply Hu|done|done|by rewrite <- Hcl]. }
  unfold op_bind. destruct (bool_decide (rState r = Ready) && negb (now env <? StartBefore r)).
  - destruct (save_write (expired_copy r) m) as (mem & disk & err & Hw & _). 
    assert (Hs1 : m_active (save (expired_copy r) m).2 = m_active m /\ swept_one m r (m_records (save (expired_copy r) m).2 !! rID r)).
    { rewrite Hw. simpl. split; [done|]. rewrite Hid. destruct mem; [by rewrite lookup_insert_eq|rewrite Hr; by left]. }
    destruct Hs1 as [Ha1 Hs1]. destruct (save (expired_copy r) m) as [[[]|e] m1]; [by apply Hend|done].
  - apply Hend; [done|]. simpl. rewrite Hr. by left.
Qed.

Record swept (m m' : Manager) : Prop := {
  sw_one : forall id r, m_records m !! id = Some r -> swept_one m r (m_records m' !! id);
  sw_none : forall id, m_records m !! id = None -> m_records m' !! id = None;
  sw_active : m_active m' = m_active m
}.
Lemma collect_all_sweeps l : forall m, mgr_inv m -> NoDup (rID <$> l) -> (forall x, x ∈ l -> m_records m !! rID x = Some x) ->
  swept m (collect_all plan_hash view_hash spec_digest record_size env l m).2.
Proof.
  induction l as [|r l IH]; intros m I Hnd Hl; cbn [Tasks.collect_all].
  { constructor; [|done|done]. intros id r Hr. simpl. rewrite Hr. by left. }
  apply NoDup_cons in Hnd as [Hni Hnd]. assert (Hr := Hl r ltac:(by left)).
  destruct (collect_one_sweeps m r I Hr) as [Ho Ha]. pose proof (collect_one_far r m) as Hfar. pose proof (collect_one_follows m r Hr) as Hf.
  assert (H1 : swept m (collect_one r m).2).
  { constructor; [|intros id Hn|done].
    - intros id x Hx. destruct (decide (id = rID r)) as [->|Hne]; [congruence|]. rewrite (proj1 (Hfar id Hne)), Hx. by left.
    - destruct (decide (id = rID r)) as [->|Hne]; [congruence|]. by rewrite (proj1 (Hfar id Hne)). }
  unfold op_bind. destruct (collect_one r m) as [[[]|e] m1] eqn:E; [|done]. simpl in *.
  assert (I1 : mgr_inv m1) by (apply (inv_rtc m); [done|]; unfold ran in Hf; by rewrite E in Hf).
  assert (Hl1 : forall x, x ∈ l -> m_records m1 !! rID x = Some x).
  { intros x Hx. rewrite (proj1 (Hfar (rID x) ltac:(intros Heq; apply Hni; rewrite <- Heq; by apply (list_elem_of_fmap_2 rID)))). apply Hl. by right. }
  destruct (IH m1 I1 Hnd Hl1) as [W1 W2 W3]. destruct (collect_all_follows l m1 I1 Hnd Hl1) as [_ Hrest].
  constructor; [|intros id Hn; by apply W2, (sw_none _ _ H1)|congruence].
  intros id x Hx. destruct (decide (id = rID r)) as [->|Hne].
  - rewrite (proj1 (Hrest _ Hni)). by apply (sw_one _ _ H1).
  - assert (Hx1 : m_records m1 !! id = Some x) by (by rewrite (proj1 (Hfar id Hne))).
    pose proof (W1 id x Hx1) as W. unfold swept_one in *. by rewrite Ha in W.
Qed.
Lemma collect_sweeps m : mgr_inv m -> swept m (collect m).2.
Proof. intros I. destruct (visited_list m I) as [Hnd Hl]. by apply collect_all_sweeps. Qed.

Lemma swept_moved m r r' : rID r' = rID r -> swept_one m r (Some r') -> moved m r r'.
Proof. intros _ [-> |(Hs & Hs' & Hsm & Hc)]; [by left|]. apply moved_edit; [done|]. apply ed_stop; auto. Qed.
Lemma swept_lawful m m' : mgr_inv m -> swept m m' -> lawful m m'.
Proof.
  intros I [W1 W2 W3]. constructor.
  - intros id r r' Hr Hr'. pose proof (W1 id r Hr) as W. rewrite Hr' in W. assert (moved m r r') as Hm; [|split; [done|by eapply moved_next]].
    destruct W as [-> |(Hs & Hs' & Hsm & Hc)]; [by left|]. apply moved_edit; [done|]. apply ed_stop; auto.
  - intros id r Hr Hn. pose proof (W1 id r Hr) as W. rewrite Hn in W. by rewrite <- (inv_rid _ _ _ I Hr).
  - intros id r' Hn Hr'. rewrite W2 in Hr'; done.
Qed.
(** A ready task that the collection has left is edited, or a task is added. *)
Lemma swept_edit m m1 m' r r' : mgr_inv m -> swept m m1 -> m_records m1 !! rID r = Some r -> rState r = Ready -> same_task r r' -> (forall a, edit a r r') ->
  m_records m' = m_records m1 \/ m_records m' = <[rID r' := r']> (m_records m1) -> lawful m m'.
Proof.
  intros I W Hr Hs Hsm He E. pose proof (swept_lawful m m1 I W) as [L1 L2 L3].
  assert (Hr0 : m_records m !! rID r = Some r).
  { destruct (m_records m !! rID r) as [r0|] eqn:E0; [|by rewrite (sw_none _ _ W _ E0) in Hr].
    pose proof (sw_one _ _ W _ _ E0) as Ho. rewrite Hr in Ho. destruct Ho as [-> |(_ & Hx & _)]; [done|congruence]. }
  destruct E as [E|E]; [by apply (lawful_then m m1)|]. rewrite (sm_id _ _ Hsm) in E. constructor; rewrite E; intros id x.
  - intros y Hx Hy. apply lookup_insert_Some in Hy as [[<- <-]|[Hne Hy]]; [|by apply (L1 id)].
    assert (x = r) as -> by congruence. assert (moved m r r') as Hm by (by apply moved_edit). split; [done|by eapply moved_next].
  - intros Hx Hn. apply lookup_insert_None in Hn as [Hn _]. by apply (L2 id).
  - intros Hn Hy. apply lookup_insert_Some in Hy as [[<- _]|[_ Hy]]; [congruence|].
    by rewrite (sw_none _ _ W _ Hn) in Hy.
Qed.
Lemma swept_add m m1 m' r : mgr_inv m -> swept m m1 -> m_records m !! rID r = None -> rState r = Ready -> rBytes r = 0 -> CancelRequested r = false -> Resolved r = false ->
  pathBlocked (rSpec r) m1 = false -> m_records m' = m_records m1 \/ m_records m' = <[rID r := r]> (m_records m1) -> lawful m m'.
Proof.
  intros I W Hn Hs Hb Hc Hre Hp E. pose proof (swept_lawful m m1 I W) as [L1 L2 L3]. pose proof (sw_none _ _ W _ Hn) as Hn1.
  destruct E as [E|E]; [by apply (lawful_then m m1)|]. constructor; rewrite E; intros id x.
  - intros y Hx Hy. apply lookup_insert_Some in Hy as [[<- <-]|[_ Hy]]; [congruence|by apply (L1 id)].
  - intros Hx Hy. apply lookup_insert_None in Hy as [Hy _]. by apply (L2 id).
  - intros Hx Hy. apply lookup_insert_Some in Hy as [[<- <-]|[_ Hy]]; [|by rewrite (sw_none _ _ W _ Hx) in Hy].
    split_and!; try done. intros j q [[_ <-]|[_ Hq]]%lookup_insert_Some Hu; [|by eapply pathBlocked_false].
    unfold unresolved in Hu. rewrite Hs in Hu. done.
Qed.

(** *** The calls *)
Notation lawfully := (ran lawful).
(** Edits that keep the state, and ends of ready tasks. *)
Lemma moved_note m r r' : same_task r r' -> rState r' = rState r -> calm r r' -> TokenDigest r' = TokenDigest r \/ rState r = Ready ->
  TempOwned r' = TempOwned r \/ rState r = Transferring -> moved m r r'.
Proof. intros H1 H2 H3 H4 H5. apply moved_edit; [done|by apply note_edit]. Qed.
Lemma moved_expired m r : rState r = Ready -> moved m r (set_updated (now env) (set_state Expired r)).
Proof. intros Hs. apply moved_edit; [apply same_task_state|]. apply ed_stop; auto; done. Qed.

(** The end of a preparation, for a task that is there and for a new one. *)
Lemma issue_records token r m : let m' := (issue token r m).2 in
  m_records m' = m_records m \/ exists t, m_records m' = <[rID r := set_updated (now env) (set_token t r)]> (m_records m).
Proof.
  cbv zeta. unfold Tasks.issue. destruct token as [token|]; [|by left]. cbv zeta. unfold op_bind at 1, pure.
  destruct (validatePreparationSize _ _ _ _ _) as [u|e]; [|by left]. unfold op_bind.
  set (r' := set_updated _ _). destruct (save_records r' m) as [E|E]; destruct (save r' m) as [[[]|e] m1]; simpl in *; eauto.
Qed.
Lemma issue_lawful m m1 token r : mgr_inv m -> swept m m1 -> m_records m1 !! rID r = Some r -> rState r = Ready -> lawful m (issue token r m1).2.
Proof.
  intros I W Hr Hs. destruct (issue_records token r m1) as [E|[t E]].
  - eapply lawful_then; [by apply (swept_lawful m m1)|exact E].
  - apply (swept_edit m m1 _ r (set_updated (now env) (set_token t r))); try done; [|right; exact E].
    intros a. apply note_edit; [done|done|by right|by left].
Qed.
(** The rest of a call, after the collection. *)
Lemma collected_lawful {A} m (k : unit -> op A) : mgr_inv m ->
  (forall m1, mgr_inv m1 -> swept m m1 -> lawful m (k tt m1).2) -> lawfully (op_bind collect k) m.
Proof.
  intros I Hk. destruct (collect_follows m I) as [Hf _]. pose proof (collect_sweeps m I) as W. unfold ran, op_bind in *.
  destruct (collect m) as [[[]|e] m1]; [|by apply swept_lawful]. apply Hk; [by apply (inv_rtc m)|done].
Qed.

Lemma prepare_lawful m spec operationID authorization fresh token : mgr_inv m -> fresh_id m fresh ->
  lawfully (prepare plan_hash view_hash spec_digest record_size token_hash env spec operationID authorization fresh token) m.
Proof.
  intros I Hf. unfold prepare. apply follows_pure. intros _ _. apply follows_get, follows_guard. intros _.
  apply follows_allowed. intros _. apply collected_lawful; [done|]. intros m1 I1 W. pose proof (swept_lawful m m1 I W) as L.
  unfold op_bind at 1, get. destruct (m_requests m1 !! request_key spec) as [id|].
  - destruct (m_records m1 !! id) as [r|] eqn:Er; [|done]. unfold op_bind, guard. destruct (_ || _); [done|]. cbn [reject_if].
    pose proof (inv_rid _ _ _ I1 Er) as <-. destruct (bool_decide (rState r = Ready)) eqn:Es; [|done]. bool_facts. by apply issue_lawful.
  - unfold op_bind at 1, guard. destruct (_ || _); [done|]. cbn [reject_if]. unfold op_bind at 1, guard. destruct (pathBlocked spec m1) eqn:Ep; [done|]. cbn [reject_if].
    destruct fresh as [id|]; [|done]. destruct (Hf id eq_refl) as [Hn _]. set (r := new_record _ _ _ _ _ _).
    assert (forall m2, m_records m2 = m_records m1 \/ (exists t, m_records m2 = <[rID r := set_updated (now env) (set_token t r)]> (m_records m1)) -> lawful m m2) as Hend.
    { intros m2 [E|[t E]]; [by apply (lawful_then m m1)|]. apply (swept_add m m1 _ (set_updated (now env) (set_token t r))); try done. by right. }
    pose proof (issue_records token r m1) as Hi. unfold op_bind. destruct (issue token r m1) as [[p|e] m2]; by apply Hend.
Qed.
Lemma find_request_lawful {A} m scope requestID digest (k : option TransferRecord -> op A) : mgr_inv m ->
  (forall m1, swept m m1 -> lawful m (k None m1).2) -> (forall m1 r, swept m m1 -> m_records m1 !! rID r = Some r -> lawful m (k (Some r) m1).2) ->
  lawfully (op_bind (find_request plan_hash view_hash spec_digest record_size env scope requestID digest) k) m.
Proof.
  intros I Hno Hk. unfold ran, op_bind at 1, find_request, op_bind at 1. destruct (mutationAllowed m) as [x m0] eqn:E.
  apply mutationAllowed_ok in E as [-> _]. destruct x as [[]|]; [|by apply lawful_kept].
  destruct (collect_follows m I) as [Hf _]. pose proof (collect_sweeps m I) as W. pose proof (swept_lawful m _ I W) as L. unfold ran in Hf. unfold op_bind at 1.
  destruct (collect m) as [[[]|e] m1]; [|done]. simpl in *. assert (I1 : mgr_inv m1) by (by apply (inv_rtc m)).
  unfold op_bind at 1, get. destruct (m_requests m1 !! _) as [id|]; [|by apply Hno]. destruct (m_records m1 !! id) as [r|] eqn:Er; [|done].
  unfold op_bind, guard. destruct (str_eq digest "" || _); [done|]. simpl. apply Hk; [done|]. by rewrite (inv_rid _ _ _ I1 Er).
Qed.
Lemma FindRequest_lawful m scope requestID digest : mgr_inv m -> lawfully (FindRequest plan_hash view_hash spec_digest record_size env scope requestID digest) m.
Proof.
  intros I. pose proof (find_request_lawful m scope requestID digest (fun o => op_ret o) I) as H. unfold FindRequest.
  unfold ran, op_bind in H. unfold ran. destruct (find_request _ _ _ _ _ _ _ _ m) as [[o|e] m1]; apply H; intros; by apply swept_lawful.
Qed.
Lemma Retry_lawful m scope requestID digest token : mgr_inv m -> lawfully (Retry plan_hash view_hash spec_digest record_size token_hash env scope requestID digest token) m.
Proof.
  intros I. unfold Retry. apply find_request_lawful; [done|intros; by apply swept_lawful|]. intros m1 r W Hr. pose proof (swept_lawful m m1 I W) as L.
  destruct (bool_decide (rState r = Ready)) eqn:Es; [|done]. bool_facts. cbn [negb]. unfold op_bind at 1, guard. destruct (negb _); [done|]. cbn [reject_if].
  pose proof (issue_lawful m m1 token r I W Hr Es) as Hi. unfold op_bind. by destruct (issue token r m1) as [[p|e] m2].
Qed.
Lemma RetryBound_lawful m id permit token : mgr_inv m -> lawfully (RetryBound plan_hash view_hash spec_digest record_size token_hash env id permit token) m.
Proof.
  intros I. unfold RetryBound. apply follows_allowed. intros _. apply collected_lawful; [done|]. intros m1 I1 W. pose proof (swept_lawful m m1 I W) as L.
  unfold op_bind at 1. destruct (find_record id m1) as [x m2] eqn:E. apply find_ok in E as [-> Hx]. destruct x as [r|]; [|done]. specialize (Hx r eq_refl).
  pose proof (inv_rid _ _ _ I1 Hx) as <-. destruct (bool_decide (rState r = Ready)) eqn:Es; [|done]. bool_facts. cbn [negb]. unfold op_bind, check_permit, pure.
  destruct (CheckPermit _ _ _ _ _ _); [by apply issue_lawful|done].
Qed.

Lemma claim_lawful m ctx id token direction permit : mgr_inv m ->
  lawfully (claim plan_hash view_hash spec_digest record_size token_hash env ctx id token direction permit) m.
Proof.
  intros I. unfold claim. apply follows_guard. intros _. apply follows_allowed. intros _.
  apply follows_authenticate. intros r Hr. with_id I Hr. apply follows_still; [by destruct (_ || _)|]. intros _ _.
  apply follows_guard. intros _. apply follows_guard. intros _. apply follows_guard. intros Hs. bool_facts.
  destruct (negb (now env <? StartBefore r)).
  - set (r' := set_updated _ _). unfold ran, op_bind, caught. pose proof (lawful_save m m r r' eq_refl Hr (moved_expired m r Hs)) as L.
    by destruct (save r' m) as [[[]|e] m1].
  - apply follows_get, follows_guard. intros Hp. apply follows_guard. intros Hc. apply negb_false_iff in Hc.
    unfold ran. apply (lawful_save_bind m m r); [done|done| |done]. right. split; [apply same_task_state|]. right. left. done.
Qed.
Lemma Progress_lawful m id bytes : mgr_inv m -> lawfully (Progress env id bytes) m.
Proof.
  intros I. unfold Progress. apply follows_leased. intros r a Hr Ha. cbn [fst]. with_id I Hr.
  apply follows_guard. intros Hs. apply follows_guard. intros Hb. bool_facts. destruct (mi_record _ _ _ _ I _ _ Hr) as [_ [Hbytes _ _ _]].
  apply (lawful_one m _ r (set_updated (now env) (set_bytes (rBytes r + bytes) r))); [done| |by right].
  apply moved_edit; [by constructor|]. apply ed_progress; try done. simpl. lia.
Qed.
Lemma Temporary_lawful m id : mgr_inv m -> lawfully (Temporary plan_hash view_hash spec_digest record_size env id) m.
Proof.
  intros I. unfold Temporary. apply follows_leased. intros r a Hr Ha. cbn [fst]. with_id I Hr.
  apply follows_guard. intros Hs. cbv zeta. apply (lawful_save_bind m m r); [done|done| |done]. apply moved_note; auto; by constructor.
Qed.
Lemma ConfirmTemporary_lawful m id : mgr_inv m -> lawfully (ConfirmTemporary plan_hash view_hash spec_digest record_size env id) m.
Proof.
  intros I. unfold ConfirmTemporary. apply follows_leased. intros r a Hr Ha. cbn [fst]. with_id I Hr.
  apply follows_guard. intros Hs. apply orb_false_iff in Hs as [Hs _]. bool_facts. cbv zeta.
  apply (lawful_sticky m r); [done|]. apply moved_note; auto; by constructor.
Qed.
Lemma Verify_lawful m id bytes digest : mgr_inv m -> lawfully (Verify plan_hash view_hash spec_digest record_size env id bytes digest) m.
Proof.
  intros I. unfold Verify. apply follows_leased. intros r a Hr Ha. with_id I Hr. cbv beta iota.
  apply follows_guard. intros Hs. apply follows_guard. intros _. apply follows_guard. intros Hb. apply follows_guard. intros Hd.
  bool_facts. apply (lawful_save m m r); [done|done|]. apply moved_edit; [by constructor|]. apply ed_verify; try done. split_and!; [done|done|]. intros Hup. simpl in *.
  rewrite bool_decide_eq_true_2 in Hd by done. simpl in Hd. str_facts. done.
Qed.

(** What a reservation has looked at. *)
Lemma reserveCommit_guards m r a permit m' : m_records m !! rID r = Some r -> m_active m !! rID r = Some a ->
  reserveCommit plan_hash view_hash spec_digest env (rID r) permit m = (Ok tt, m') ->
  commitReserved a = true \/ CancelRequested r = false /\ ended (at_request a) = false.
Proof.
  intros Hr Ha. unfold reserveCommit, op_bind at 1, leased, op_bind at 1, get. rewrite Hr, Ha. unfold op_bind, guard, check_permit, pure, op_ret.
  destruct (negb (commit_ready r)); simpl; [done|]. destruct (CheckPermit _ _ _ _ _ _); [|done]. destruct (commitReserved a); [by left|].
  destruct (mutationAllowed m) as [y m1] eqn:Em. apply mutationAllowed_ok in Em as [-> _]. destruct y; [|done].
  destruct (CancelRequested r); simpl; [done|]. destruct (ended (at_request a)); simpl; [done|]. by right.
Qed.
Lemma beginCommit_lawful m id permit : mgr_inv m -> lawfully (beginCommit plan_hash view_hash spec_digest record_size env id permit) m.
Proof.
  intros I. unfold beginCommit. apply follows_leased. intros r a Hr Ha. cbv beta iota. with_id I Hr.
  apply follows_guard. intros Hcr. apply negb_false_iff in Hcr. unfold commit_ready in Hcr.
  apply andb_true_iff in Hcr as [Hcr Hown]. apply andb_true_iff in Hcr as [Hcr _]. bool_facts.
  set (c := if negb (is_none (rAuthorization r)) || negb (is_none permit) then _ else _).
  assert (Hc : m_records (c m).2 = m_records m /\ forall m', c m = (Ok tt, m') ->
    commitReserved a = true \/ at_ctx a = Live \/ CancelRequested r = false /\ ended (at_request a) = false).
  { subst c. destruct (negb (is_none (rAuthorization r)) || negb (is_none permit)).
    - split; [by apply (reserveCommit_follows m (rID r) permit I)|]. intros m' Hm'. destruct (reserveCommit_guards m r a permit m' Hr Ha Hm'); auto.
    - split; [done|]. unfold guard. intros m' Hg. destruct (ended (at_ctx a)) eqn:Ee; [done|]. right. left. by destruct (at_ctx a). }
  destruct Hc as [Hrec Hok]. unfold ran, op_bind at 1. destruct (c m) as [[[]|e] m1]; simpl in Hrec; [|by apply lawful_kept].
  specialize (Hok m1 eq_refl). unfold op_bind at 1. destruct (leased (rID r) EInvalidState m1) as [x m2] eqn:El. apply leased_ok in El as [-> _].
  destruct x as [[r1 t]|]; [|by apply lawful_kept]. unfold op_bind at 1.
  assert (Hst : forall y m3, (if commitReserved t then m <- get;; guard (m_storeErr m) EStoreUnusable else mutationAllowed) m1 = (y, m3) -> m3 = m1).
  { intros y m3. destruct (commitReserved t); [unfold op_bind, get, guard; by intros [= _ <-]|]. intros Hall. by apply mutationAllowed_ok in Hall as [-> _]. }
  cbn [snd]. match goal with |- context [(if commitReserved t then ?x1 else ?x2) m1] => destruct ((if commitReserved t then x1 else x2) m1) as [y m3] eqn:E3 end.
  pose proof (Hst y m3 eq_refl) as ->. destruct y as [[]|]; [|by apply lawful_kept].
  apply (lawful_save_bind m m1 r); [done|done| |done]. right. split; [by constructor|]. right. right. exists a. done.
Qed.
Lemma Complete_lawful m id : mgr_inv m -> lawfully (Complete plan_hash view_hash spec_digest record_size env id) m.
Proof.
  intros I. unfold Complete. apply follows_leased. intros r a Hr Ha. cbv beta iota. with_id I Hr.
  destruct (bool_decide (rState r = Committing) && bool_decide (spDirection (rSpec r) = Upload)) eqn:E1;
    [|destruct (bool_decide (rState r = Verifying) && bool_decide (spDirection (rSpec r) = Download)) eqn:E2;
      [|apply follows_fail]].
  - bool_facts. unfold ran, op_bind at 1, op_ret at 1. cbv zeta. apply (lawful_sticky_bind m r); [done| |done].
    apply moved_edit; [by constructor|]. apply ed_complete; [by rewrite Ha|done..].
  - clear E1. bool_facts. unfold ran, op_bind at 1, op_ret at 1. cbv zeta. apply (lawful_sticky_bind m r); [done| |done].
    apply moved_edit; [by constructor|]. apply ed_stream; [by rewrite Ha|done..].
Qed.
Lemma Fail_lawful m id cause : mgr_inv m -> lawfully (Fail_ plan_hash view_hash spec_digest record_size env id cause) m.
Proof.
  intros I. unfold Fail_. apply follows_get. destruct (m_records m !! id) as [r|] eqn:Hr; [|apply follows_ret].
  destruct (m_active m !! id) as [a|] eqn:Ha; [|apply follows_ret].
  destruct (terminalState (rState r)) eqn:Ht; [apply follows_ret|]. with_id I Hr.
  pose proof (active_state m (rID r) r a I Hr Ha (conj eq_refl Ht)) as Hst.
  apply (lawful_sticky_bind m r); [done| |done]. apply moved_edit; [unfold with_cause; destruct cause; by constructor|].
  apply (ed_fail _ _ _ a); try done; unfold with_cause; by destruct cause.
Qed.
Lemma lease_close_lawful m id : mgr_inv m -> lawfully (lease_close plan_hash view_hash spec_digest record_size env id) m.
Proof.
  intros I. pose proof (Fail_lawful m id (Some "transfer handler ended without confirming completion") I) as L.
  unfold ran in *. unfold lease_close, op_bind at 1. destruct (Fail_ _ _ _ _ _ _ _ m) as [[o|e] m1]; [|done]. by eapply lawful_then.
Qed.
Lemma RejectCommit_lawful m id cause : mgr_inv m -> lawfully (RejectCommit plan_hash view_hash spec_digest record_size env id cause) m.
Proof.
  intros I. unfold RejectCommit. apply follows_leased. intros r a Hr Ha. cbv beta iota. with_id I Hr.
  apply follows_guard. intros Hs. bool_facts. destruct cause as [c|]; [|apply follows_fail].
  apply (lawful_sticky_bind m r); [done| |done]. apply moved_edit; [by constructor|]. apply ed_reject; [by rewrite Ha|done..].
Qed.
Lemma cancelTask_lawful m r : mgr_inv m -> m_records m !! rID r = Some r -> lawfully (cancelTask plan_hash view_hash spec_digest record_size env r) m.
Proof.
  intros I Hr. unfold cancelTask. apply follows_get. apply follows_guard. intros Hres. apply follows_guard. intros Hs.
  destruct (running (rState r)) eqn:Erun; cbn [negb]; [|apply follows_ret]. bool_facts. cbv zeta.
  set (r' := if bool_decide (rState (set_updated _ _) = Ready) then _ else _).
  apply (lawful_sticky_bind m r r'); [done| |intros o m1; unfold op_bind, modify; simpl; by destruct (m_active m1 !! _)].
  assert (same_task r r' /\ same_content r r' /\ CancelRequested r' = true /\ rState r' = (if bool_decide (rState r = Ready) then Cancelled else rState r)) as (Hsm & Hco & Hca & Hst)
    by (subst r'; simpl; by destruct (bool_decide (rState r = Ready))).
  apply moved_edit; [done|]. destruct (bool_decide (rState r = Ready)) eqn:E; bool_facts.
  - apply ed_stop; [done| |done]. by left.
  - apply ed_cancel; [|done|done|done|].
    + revert Erun. clear -E. destruct (rState r); simpl; auto; done.
    + intros t Ht Hv. rewrite Ht, bool_decide_eq_true_2, andb_true_r in Hres by done. done.
Qed.
Lemma Cancel_lawful m scope id : mgr_inv m -> lawfully (Cancel plan_hash view_hash spec_digest record_size env scope id) m.
Proof.
  intros I. unfold Cancel, lookup_scoped. unfold ran, op_bind, get. destruct (m_records m !! id) as [r|] eqn:Hr; [|by apply lawful_kept]. with_id I Hr.
  unfold guard. destruct (negb _); [by apply lawful_kept|]. simpl. by apply cancelTask_lawful.
Qed.
Lemma CancelWithToken_lawful m id token : mgr_inv m -> lawfully (CancelWithToken plan_hash view_hash spec_digest record_size token_hash env id token) m.
Proof. intros I. unfold CancelWithToken. apply follows_authenticate. intros r Hr. with_id I Hr. by apply cancelTask_lawful. Qed.
Lemma Cleaned_lawful m id : mgr_inv m -> lawfully (Cleaned plan_hash view_hash spec_digest record_size env id) m.
Proof.
  intros I. unfold Cleaned. apply follows_find. intros r Hr. with_id I Hr. apply follows_guard. intros _.
  apply (lawful_save m m r); [done|done|]. apply moved_note; auto; by constructor.
Qed.
Lemma Warn_lawful m id warning : mgr_inv m -> lawfully (Warn plan_hash view_hash spec_digest record_size env id warning) m.
Proof.
  intros I. unfold Warn. apply follows_find. intros r Hr. with_id I Hr. apply (lawful_sticky m r); [done|]. apply moved_note; auto; by constructor.
Qed.
Lemma InvalidateReady_lawful m id cause : mgr_inv m -> lawfully (InvalidateReady plan_hash view_hash spec_digest record_size env id cause) m.
Proof.
  intros I. unfold InvalidateReady. apply follows_allowed. intros _. apply follows_find. intros r Hr. with_id I Hr.
  destruct (bool_decide (rState r = Ready)) eqn:Es; [|apply follows_ret]. bool_facts. destruct cause as [c|]; [|apply follows_fail].
  apply (lawful_save m m r); [done|done|]. apply moved_edit; [by constructor|]. apply ed_stop; auto; done.
Qed.

(** ** Recovery *)

(** A recovery with the records [l] still to come. *)
Record recovering (l : list TransferRecord) (m : Manager) : Prop := {
  rc_record : forall id r, m_records m !! id = Some r -> rID r = id /\ record_inv None r /\ rState r <> Committing;
  rc_requests : forall k id, m_requests m !! k = Some id <->
    exists r, m_records m !! id = Some r /\ request_key (rSpec r) = k;
  rc_fresh : m_active m = ∅ /\ m_storeErr m = false /\ 0 < MaxActive (m_limits m);
  rc_disk : forall id d, m_disk m !! id = Some d -> rID d = id /\
    ((exists r, m_records m !! id = Some r /\ rSpec d = rSpec r /\
       record_validate plan_hash view_hash spec_digest d = Ok tt) \/ d ∈ l);
  rc_list : forall d, d ∈ l -> m_disk m !! rID d = Some d;
  rc_nodup : NoDup (rID <$> l);
  rc_uncertain : forall id r, m_records m !! id = Some r -> unresolved r = true ->
    exists d, m_disk m !! id = Some d /\ (rState d = Committing \/ rState d = Unknown) /\ Resolved d = false
}.

(** A record after its recovery is settled and well-formed. *)
Lemma recovered_inv r r' :
  record_validate plan_hash view_hash spec_digest r = Ok tt ->
  rSpec r' = rSpec r -> same_content r r' -> Resolved r' = Resolved r -> rState r' = (recovered_state r).1 ->
  record_inv None r' /\ rState r' <> Committing /\
  (unresolved r' = true -> (rState r = Committing \/ rState r = Unknown) /\ Resolved r = false).
Proof.
  intros Hv Hsp [Hb Hh] Hres Hs. pose proof (valid_resolved _ _ _ _ Hv) as Hvr.
  apply record_validate_ok in Hv as (Hspv & _ & Hp & Hst & _). apply spec_validate_ok in Hspv as [Hsize Hdir].
  apply validateProgress_ok in Hp as (Hby & Hru & Hcomp & Hstr). apply validateState_ok in Hst as (Hoth & Hup & Hdown).
  unfold recovered_state in Hs. split_and!.
  - constructor; rewrite ?Hsp, ?Hb, ?Hres; [done|done| |].
    + unfold state_inv, content_ok, unreserved. rewrite Hs, Hsp, Hb, Hh.
      destruct (rState r); simpl; try done; try (by apply Hup; auto).
      * destruct (Hcomp eq_refl) as [? ?]. split; [by split|]. apply Hup. auto.
      * split_and!; [by apply Hstr| |done|by apply Hdown]. intros Hd. rewrite (Hdown eq_refl) in Hd. discriminate Hd.
      * by destruct (Hoth name).
    + intros Hr. specialize (Hru Hr). rewrite Hs, Hru. done.
  - rewrite Hs. by destruct (rState r).
  - unfold unresolved. rewrite Hs, Hres. intros [Hu Hr]%andb_true_iff. apply bool_decide_eq_true in Hu.
    apply negb_true_iff in Hr. split; [|done]. destruct (rState r); simpl in Hu; try done; auto.
Qed.

Lemma recovering_keep r r' l m disk :
  recovering (r :: l) m -> record_validate plan_hash view_hash spec_digest r = Ok tt ->
  m_requests m !! request_key (rSpec r) = None -> m_records m !! rID r = None ->
  same_task r r' -> same_content r r' -> rState r' = (recovered_state r).1 ->
  disk = m_disk m \/ (disk = <[rID r := r']> (m_disk m) /\
    record_validate plan_hash view_hash spec_digest r' = Ok tt) ->
  recovering l (set_requests (<[request_key (rSpec r') := rID r']> (m_requests m)) (put_record r' (set_disk disk m))).
Proof.
  intros [R1 R2 R3 R4 R5 R6 R7] Hv Hnq Hnr Hsm Hco Hs Hdisk. pose proof (sm_id _ _ Hsm) as Hid. pose proof (sm_spec _ _ Hsm) as Hsp.
  destruct (recovered_inv r r' Hv Hsp Hco (sm_resolved _ _ Hsm) Hs) as (Hri & Hnc & Hunc).
  rewrite fmap_cons in R6. apply NoDup_cons in R6 as [Hni Hnd].
  assert (Hrd : m_disk m !! rID r = Some r) by (apply R5; by left).
  assert (Hd : forall i d, disk !! i = Some d ->
    (i = rID r /\ rID d = rID r /\ rSpec d = rSpec r /\ record_validate plan_hash view_hash spec_digest d = Ok tt) \/
    (i <> rID r /\ m_disk m !! i = Some d)).
  { intros i d Hd. destruct (decide (i = rID r)) as [->|Hne].
    - left. split; [done|]. destruct Hdisk as [-> |[-> Hv']].
      + assert (d = r) as -> by congruence. done.
      + rewrite lookup_insert_eq in Hd. injection Hd as <-. done.
    - right. split; [done|]. destruct Hdisk as [-> |[-> _]]; [done|]. by rewrite lookup_insert_ne in Hd. }
  constructor; simpl; rewrite ?Hid, ?Hsp.
  - intros i x [[<- <-]|[Hne Hx]]%lookup_insert_Some; [done|by apply R1].
  - intros k i. rewrite lookup_insert_Some. split.
    + intros [[<- <-]|[Hne Hk]]; [exists r'; by rewrite lookup_insert_eq, Hsp|].
      apply R2 in Hk as (x & Hx & Hk). exists x. rewrite lookup_insert_ne; [done|]. congruence.
    + intros (x & [[<- <-]|[Hne Hx]]%lookup_insert_Some & <-); [left; by rewrite Hsp|]. right.
      assert (Hq : m_requests m !! request_key (rSpec x) = Some i) by (apply R2; eauto). split; [congruence|done].
  - done.
  - intros i d [(-> & Hdi & Hds & Hdv)|[Hne Hx]]%Hd.
    + split; [done|]. left. exists r'. rewrite lookup_insert_eq. split_and!; [done|congruence|done].
    + destruct (R4 i d Hx) as (Hidd & [(x & Hxr & Hsx & Hvx)|Hin]).
      * split; [done|]. left. exists x. rewrite lookup_insert_ne; done.
      * split; [done|]. right. apply elem_of_cons in Hin as [->|Hin]; [congruence|done].
  - intros d Hd'. assert (Hne : rID d <> rID r) by (intros Heq; apply Hni; rewrite <- Heq; by apply (list_elem_of_fmap_2 rID)).
    assert (Hin : m_disk m !! rID d = Some d) by (apply R5; by right).
    destruct Hdisk as [-> |[-> _]]; [done|]. by rewrite lookup_insert_ne.
  - done.
  - intros i x [[<- <-]|[Hne Hx]]%lookup_insert_Some Hu.
    + destruct (Hunc Hu) as [Hst Hrs]. destruct Hdisk as [-> |[-> _]]; [by exists r|].
      exists r'. rewrite lookup_insert_eq. split; [done|]. unfold unresolved in Hu. apply andb_true_iff in Hu as [Hu1 Hu2].
      bool_facts. auto.
    + destruct (R7 i x Hx Hu) as (d & Hdd & Hds). exists d. split; [|done].
      destruct Hdisk as [-> |[-> _]]; [done|]. by rewrite lookup_insert_ne.
Qed.

Lemma set_disk_id m : set_disk (m_disk m) m = m.
Proof. by destruct m. Qed.

Notation recover_one := (recover_one plan_hash view_hash spec_digest record_size env).
Notation recoverRecords := (recoverRecords plan_hash view_hash spec_digest record_size env).

Lemma recover_one_ok r l m m' : recovering (r :: l) m -> recover_one r m = Ok m' -> recovering l m'.
Proof.
  intros R. unfold Tasks.recover_one. intros H. apply result_bind_ok in H as ([] & Hv & H).
  apply bind_reject_ok in H as [Hq H]. apply bind_reject_ok in H as [Hr H]. apply bool_decide_eq_false in Hq, Hr.
  assert (Hq' : m_requests m !! request_key (rSpec r) = None) by (destruct (m_requests m !! _); [destruct Hq; eauto|done]).
  assert (Hr' : m_records m !! rID r = None) by (destruct (m_records m !! _); [destruct Hr; eauto|done]). clear Hq Hr.
  cbv zeta in H. destruct (recovered_state r) as [state error] eqn:Es. destruct (bool_decide (state = rState r)) eqn:Eq.
  - bool_facts. apply Ok_inj in H. subst m'. rewrite <- (set_disk_id m) at 2.
    apply (recovering_keep r r); try done; [by rewrite Es|by left].
  - set (r' := set_updated (now env) (set_error error (set_state state r))) in *.
    assert (Hst : rState r' = (recovered_state r).1) by (by rewrite Es).
    destruct (encode r') as [[]|e] eqn:Ee.
    + destruct (save_io env (rID r)); [|done|done]. apply Ok_inj in H. subst m'.
      refine (recovering_keep r r' l m _ R Hv Hq' Hr' _ _ Hst _); [done|done|]. right. split; [done|]. by eapply encode_valid.
    + destruct e; try done. apply Ok_inj in H. subst m'. rewrite <- (set_disk_id m) at 2.
      apply (recovering_keep r (set_warning (boundedDiagnostic recovery_warning) r')); try done. by left.
Qed.

Lemma recoverRecords_ok l : forall m m', recovering l m -> recoverRecords l m = Ok m' -> recovering [] m'.
Proof.
  induction l as [|r l IH]; intros m m' R; cbn [Tasks.recoverRecords]; [by intros [= <-]|].
  intros H. apply result_bind_ok in H as (m1 & H1 & H). apply (IH m1); [|done]. by eapply recover_one_ok.
Qed.

Lemma recovering_done m : recovering [] m -> mgr_inv m.
Proof.
  intros [R1 R2 (Ha & Hse & Hmax) R4 _ _ R7].
  assert (Hdisk : forall i d, m_disk m !! i = Some d -> exists r, m_records m !! i = Some r /\ rSpec d = rSpec r).
  { intros i d Hd. destruct (R4 i d Hd) as (_ & [(r & Hr & Hs & _)|Hin]); [eauto|by apply not_elem_of_nil in Hin]. }
  constructor; rewrite ?Ha.
  - intros id r Hr. rewrite lookup_empty. destruct (R1 id r Hr) as (? & ? & _). done.
  - intros id. rewrite lookup_empty. by intros [? ?].
  - exact R2.
  - intros i j r s _. rewrite lookup_empty. by intros [? ?].
  - intros i j r s _ _. rewrite lookup_empty. by intros [? ?].
  - rewrite map_size_empty. lia.
  - intros id d Hd. destruct (R4 id d Hd) as (Hid & [(r & Hr & Hs & Hv)|Hin]); [|by apply not_elem_of_nil in Hin].
    split_and!; [done|done|]. left. eauto.
  - intros i j d e Hd He Hk. destruct (Hdisk i d Hd) as (r & Hr & Hsr), (Hdisk j e He) as (s & Hs & Hss).
    unfold same_key in Hk. rewrite Hsr, Hss in Hk.
    assert (m_requests m !! request_key (rSpec s) = Some i) by (apply R2; eauto).
    assert (m_requests m !! request_key (rSpec s) = Some j) by (apply R2; eauto). congruence.
  - intros id r Hr Hc. by destruct (R1 id r Hr) as (_ & _ & Hn).
  - exact R7.
Qed.

(** The state in which a recovery starts. *)
Lemma recovering_start limits disk l :
  0 < MaxActive limits -> (forall id d, disk !! id = Some d -> rID d = id) -> l ≡ₚ (map_to_list disk).*2 ->
  recovering l (mkManager limits ∅ ∅ ∅ false false false disk).
Proof.
  intros Hmax Hid Hl.
  assert (Hin : forall d, d ∈ l <-> disk !! rID d = Some d).
  { intros d. rewrite Hl, list_elem_of_fmap. split.
    - intros ([i x] & -> & Hx). apply elem_of_map_to_list in Hx. simpl. by rewrite (Hid i x Hx).
    - intros Hd. exists (rID d, d). split; [done|]. by apply elem_of_map_to_list. }
  constructor; simpl; try done.
  - intros k id. rewrite lookup_empty. split; [done|]. intros (r & Hr & _). by rewrite lookup_empty in Hr.
  - intros id d Hd. rewrite (Hid id d Hd). split; [done|]. right. apply Hin. by rewrite (Hid id d Hd).
  - intros d. apply Hin.
  - rewrite Hl.
    assert (Heq : rID <$> (map_to_list disk).*2 = (map_to_list disk).*1); [|rewrite Heq; apply NoDup_fst_map_to_list].
    rewrite <- list_fmap_compose. apply list_fmap_ext. intros i [id x] Hx. simpl.
    apply list_elem_of_lookup_2, elem_of_map_to_list in Hx. by apply Hid.
Qed.

Lemma NewManager_inv ctx limits disk l m :
  (forall id d, disk !! id = Some d -> rID d = id) -> l ≡ₚ (map_to_list disk).*2 ->
  NewManager plan_hash view_hash spec_digest record_size env ctx limits disk (Ok l) = Ok m -> mgr_inv m.
Proof.
  intros Hid Hl H. unfold NewManager in H. apply bind_reject_ok in H as [_ H].
  apply result_bind_ok in H as ([] & Hlim & H). apply result_bind_ok in H as (l' & Hl' & H). apply Ok_inj in Hl'. subst l'.
  apply recovering_done. eapply recoverRecords_ok; [|exact H]. apply recovering_start; try done.
  unfold limits_validate in Hlim. apply bind_reject_ok in Hlim as [Hlim _].
  repeat (apply orb_false_iff in Hlim as [Hlim ?]). bool_facts. done.
Qed.
End Refinement.

(** * The manager *)
Section Properties.
Variable plan_hash : ConnectionPlan -> string.
Variable view_hash : snapshotIdentity -> string.
Variable spec_digest : Spec -> option string.
Variable record_size : TransferRecord -> option Z.
Variable token_hash : string -> string.
Notation mgr_inv := (mgr_inv plan_hash view_hash spec_digest).
Notation task_step := (task_step plan_hash view_hash spec_digest record_size).
Notation mgr_step := (mgr_step plan_hash view_hash spec_digest record_size token_hash).
Notation mgr_reachable := (mgr_reachable plan_hash view_hash spec_digest record_size token_hash).

Lemma step_follows m m' : mgr_inv m -> mgr_step m m' -> rtc task_step m m'.
Proof.
  intros I H. destruct H as [env spec operationID authorization fresh token Hf|env spec operationID permit fresh token Hf
    | | | | | | | | | | | | | | | | | | | | |id a c Ha Hr|id a c Ha Hr| | |].
  - by apply prepare_follows.
  - unfold PrepareBound. destruct permit as [p|]; [|apply rtc_refl]. cbv zeta. unfold op_bind, check_permit, pure.
    destruct (CheckPermit _ _ _ _ _ _); [|apply rtc_refl]. by apply prepare_follows.
  - by apply claim_follows.
  - by apply Progress_follows.
  - by apply Temporary_follows.
  - by apply ConfirmTemporary_follows.
  - by apply Verify_follows.
  - by apply reserveCommit_follows.
  - by apply beginCommit_follows.
  - unfold BeginCommitBound. destruct permit; [by apply beginCommit_follows|apply rtc_refl].
  - by apply Complete_follows.
  - by apply Fail_follows.
  - by apply lease_close_follows.
  - by apply RejectCommit_follows.
  - by apply Cancel_follows.
  - by apply CancelWithToken_follows.
  - by apply Cleaned_follows.
  - by apply Warn_follows.
  - unfold FindRequest. by apply find_request_follows.
  - by apply Retry_follows.
  - by apply RetryBound_follows.
  - by apply InvalidateReady_follows.
  - destruct Hr as [r Hr]. pose proof (inv_rid _ _ _ _ _ _ I Hr) as <-. by apply (task_change _ _ _ _ m r a).
  - destruct Hr as [r Hr]. pose proof (inv_rid _ _ _ _ _ _ I Hr) as <-. by apply (task_change _ _ _ _ m r a).
  - unfold shutdown_begin. etrans; [apply rtc_once, (ts_flags _ _ _ _ m true (m_ctx_done m))|].
    set (f := fun id a => if match m_records m !! id with Some r => bool_decide (rState r = Committing) | None => false end ||
               commitReserved a then a else cancelled_task a).
    pose proof (tasks_change plan_hash view_hash spec_digest record_size token_hash (set_closed true (m_ctx_done m) m) f) as Ht.
    apply Ht; [by apply inv_flags|]. intros id a. unfold f. by destruct (_ || _).
  - apply rtc_once, ts_flags.
  - unfold shutdown_timeout.
    pose proof (tasks_change plan_hash view_hash spec_digest record_size token_hash m (fun _ => cancelled_task) I (fun _ _ => eq_refl)) as Ht.
    replace (cancelled_task <$> m_active m) with (map_imap (fun _ a => Some (cancelled_task a)) (m_active m)); [done|].
    apply map_eq. intros id. rewrite map_lookup_imap, lookup_fmap. by destruct (m_active m !! id).
Qed.

Lemma mgr_inv_reachable m : mgr_reachable m -> mgr_inv m.
Proof.
  apply reachable_invariant.
  - intros m0 (disk & Hid & env & ctx & limits & l & Hl & H). by eapply NewManager_inv.
  - intros m0 m1 I H. eapply inv_rtc; [done|by apply step_follows].
Qed.

(** ** The state machine *)

Lemma step_lawful m m' : mgr_inv m -> mgr_step m m' -> lawful m m'.
Proof.
  intros I H. destruct H as [env spec operationID authorization fresh token Hf|env spec operationID permit fresh token Hf
    | | | | | | | | | | | | | | | | | | | | |id a c Ha Hr|id a c Ha Hr| | |].
  - by apply prepare_lawful.
  - unfold PrepareBound. destruct permit as [p|]; [|by apply lawful_kept]. cbv zeta. unfold op_bind, check_permit, pure.
    destruct (CheckPermit _ _ _ _ _ _); [|by apply lawful_kept]. by apply prepare_lawful.
  - by apply claim_lawful.
  - by apply (Progress_lawful plan_hash view_hash spec_digest).
  - by apply Temporary_lawful.
  - by apply ConfirmTemporary_lawful.
  - by apply Verify_lawful.
  - apply lawful_kept. by apply (reserveCommit_follows plan_hash view_hash spec_digest record_size token_hash env m id permit).
  - by apply beginCommit_lawful.
  - unfold BeginCommitBound. destruct permit; [by apply beginCommit_lawful|by apply lawful_kept].
  - by apply Complete_lawful.
  - by apply Fail_lawful.
  - by apply lease_close_lawful.
  - by apply RejectCommit_lawful.
  - by apply Cancel_lawful.
  - by apply CancelWithToken_lawful.
  - by apply Cleaned_lawful.
  - by apply Warn_lawful.
  - by apply FindRequest_lawful.
  - by apply Retry_lawful.
  - by apply RetryBound_lawful.
  - by apply InvalidateReady_lawful.
  - by apply lawful_kept.
  - by apply lawful_kept.
  - by apply lawful_kept.
  - by apply lawful_kept.
  - by apply lawful_kept.
Qed.

(** C11: Every call of the manager, of its leases and of its shutdown, with any answers of the
    store, moves each task by at most one transition of the state machine, under the conditions of that
    transition (a claim needs a free destination and capacity, [Verifying] the approved content, a
    commit an owned temporary file and a reservation or a live context, [Completed] a commit in progress), changes nothing a task was
    prepared for, drops only settled tasks without a lease, and adds only ready tasks whose
    destination has no commit of unknown outcome. *)
Theorem transfer_lifecycle m m' : mgr_reachable m -> mgr_step m m' -> lawful m m'.
Proof. intros Hr Hs. apply step_lawful; [by apply mgr_inv_reachable|done]. Qed.

(** C21: destinations are exclusive: never two leases on uploads to one
    destination, no lease on an upload to a destination whose last commit is of
    unknown outcome, and never more leases than the limit. *)
Theorem destination_exclusive m i j r s :
  mgr_reachable m -> i <> j -> m_records m !! i = Some r -> m_records m !! j = Some s ->
  is_Some (m_active m !! i) \/ unresolved r = true -> is_Some (m_active m !! j) ->
  ~ collide r s /\ Z.of_nat (size (m_active m)) <= MaxActive (m_limits m).
Proof.
  intros Hr Hne Hi Hj Hor Ha. apply mgr_inv_reachable in Hr as I. split; [|apply (mi_capacity _ _ _ _ I)].
  destruct Hor as [Hai|Hu].
  - by apply (mi_exclusive _ _ _ _ I i j).
  - by apply (mi_unknown _ _ _ _ I i j).
Qed.

(** a completed upload has the approved size and digest; a streamed download
    has its full length; and progress never passes the declared size. *)
Theorem completed_is_verified m id r :
  mgr_reachable m -> m_records m !! id = Some r ->
  0 <= rBytes r <= Size (rSpec r) /\
  (rState r = Completed -> spDirection (rSpec r) = Upload /\ rBytes r = Size (rSpec r) /\
     rSHA256 r = spSHA256 (rSpec r)) /\
  (rState r = Streamed -> spDirection (rSpec r) = Download /\ rBytes r = Size (rSpec r)).
Proof.
  intros Hm Hr. apply mgr_inv_reachable in Hm as I. destruct (mi_record _ _ _ _ I _ _ Hr) as [_ [Hb _ Hst _]].
  unfold state_inv, content_ok in Hst. split; [done|]. split; intros Hs; rewrite Hs in Hst; naive_solver.
Qed.

(** a reserved commit cannot be cancelled: as long as its lease lives the task
    is not cancelled, and a cancel request before or during the commit is refused
    without any effect. *)
Theorem reserved_not_cancelled m id r a :
  mgr_reachable m -> m_records m !! id = Some r -> m_active m !! id = Some a -> commitReserved a = true ->
  rState r <> Cancelled /\ rState r <> Transferring /\
  (rState r = Verifying \/ rState r = Committing -> forall env,
     Cancel plan_hash view_hash spec_digest record_size env (spScope (rSpec r)) id m = (Err EInvalidState, m)).
Proof.
  intros Hm Hr Ha Hres. apply mgr_inv_reachable in Hm as I. destruct (mi_record _ _ _ _ I _ _ Hr) as [Hid [_ _ Hst _]].
  unfold state_inv, unreserved in Hst. rewrite Ha in Hst. split_and!.
  - intros E. rewrite E in Hst. specialize (Hst a eq_refl). congruence.
  - intros E. rewrite E in Hst. destruct Hst as [_ Hst]. specialize (Hst a eq_refl). congruence.
  - intros Hs env. unfold Cancel, lookup_scoped, op_bind, get. rewrite Hr. unfold guard.
    rewrite str_eq_refl. simpl. unfold cancelTask, op_bind, get, guard. rewrite Hid, Ha, Hres.
    destruct Hs as [-> | ->]; done.
Qed.

(** ** Restart *)
Section Restart.
Variable env : Env.
Notation recover_one := (recover_one plan_hash view_hash spec_digest record_size env).
Notation recoverRecords := (recoverRecords plan_hash view_hash spec_digest record_size env).
Notation valid := (record_validate plan_hash view_hash spec_digest).

Lemma recover_one_record d m m' : recover_one d m = Ok m' ->
  exists r, m_records m' = <[rID d := r]> (m_records m) /\ m_records m !! rID d = None /\
    m_requests m' = <[request_key (rSpec d) := rID d]> (m_requests m) /\
    rSpec r = rSpec d /\ Resolved r = Resolved d /\ rState r = (recovered_state d).1.
Proof.
  unfold Tasks.recover_one. intros H. apply result_bind_ok in H as (? & _ & H). apply bind_reject_ok in H as [_ H].
  apply bind_reject_ok in H as [Hr H]. apply bool_decide_eq_false in Hr.
  assert (Hr' : m_records m !! rID d = None) by (destruct (m_records m !! _); [destruct Hr; eauto|done]).
  cbv zeta in H. destruct (recovered_state d) as [state error] eqn:Es. destruct (bool_decide (state = rState d)) eqn:Eq.
  - bool_facts. apply Ok_inj in H. subst m'. by exists d.
  - set (r' := set_updated (now env) (set_error error (set_state state d))) in *.
    destruct (encode _ _ _ _ r') as [[]|e].
    + destruct (save_io env (rID d)); [|done|done]. apply Ok_inj in H. subst m'. by exists r'.
    + destruct e; try done. apply Ok_inj in H. subst m'. by exists (set_warning (boundedDiagnostic recovery_warning) r').
Qed.

Lemma recover_keeps l : forall m m' i x, recoverRecords l m = Ok m' -> m_records m !! i = Some x -> m_records m' !! i = Some x.
Proof.
  induction l as [|d l IH]; intros m m' i x; cbn [Tasks.recoverRecords]; [by intros [= <-]|].
  intros H Hx. apply result_bind_ok in H as (m1 & H1 & H). apply (IH m1); [done|].
  destruct (recover_one_record _ _ _ H1) as (r & -> & Hn & _). rewrite lookup_insert_ne; [done|]. congruence.
Qed.

Lemma recover_each l : forall m m' d, recoverRecords l m = Ok m' -> d ∈ l ->
  exists r, m_records m' !! rID d = Some r /\ rSpec r = rSpec d /\ Resolved r = Resolved d /\
    rState r = (recovered_state d).1.
Proof.
  induction l as [|x l IH]; intros m m' d; cbn [Tasks.recoverRecords]; [intros _ H; by apply not_elem_of_nil in H|].
  intros H Hd. apply result_bind_ok in H as (m1 & H1 & H). apply elem_of_cons in Hd as [->|Hd]; [|by apply (IH m1)].
  destruct (recover_one_record _ _ _ H1) as (r & Heq & _ & _ & Hfacts). exists r. split; [|done].
  apply (recover_keeps l m1); [done|]. by rewrite Heq, lookup_insert_eq.
Qed.
End Restart.

Lemma disk_list m l d : mgr_inv m -> l ≡ₚ (map_to_list (m_disk m)).*2 -> (d ∈ l <-> m_disk m !! rID d = Some d).
Proof.
  intros I ->. rewrite list_elem_of_fmap. split.
  - intros ([i x] & -> & Hx). apply elem_of_map_to_list in Hx. simpl.
    destruct (mi_disk _ _ _ _ I i x Hx) as (Hid & _). by rewrite Hid.
  - intros Hd. exists (rID d, d). split; [done|]. by apply elem_of_map_to_list.
Qed.

(** C26: a commit that has begun survives a crash at any point: from whatever the
    store then holds, a restart classifies the task as of unknown outcome, and its
    destination stays locked for every upload. *)
Theorem uncertain_survives_restart m id r env ctx limits l m' spec :
  mgr_reachable m -> m_records m !! id = Some r -> uncertain r = true ->
  l ≡ₚ (map_to_list (m_disk m)).*2 ->
  NewManager plan_hash view_hash spec_digest record_size env ctx limits (m_disk m) (Ok l) = Ok m' ->
  spDirection spec = Upload -> same_destination (rSpec r) spec = true ->
  (exists r', m_records m' !! id = Some r' /\ rSpec r' = rSpec r /\ unresolved r' = true) /\
  pathBlocked spec m' = true.
Proof.
  intros Hm Hr Hu Hl Hnew Hup Hdest. apply mgr_inv_reachable in Hm as I.
  assert (Hd : exists d, m_disk m !! id = Some d /\ (rState d = Committing \/ rState d = Unknown) /\ Resolved d = false).
  { unfold uncertain in Hu. apply orb_true_iff in Hu as [Hu|Hu]; [|by apply (mi_uncertain _ _ _ _ I id r)].
    bool_facts. destruct (mi_committing _ _ _ _ I id r Hr Hu) as (d & Hd & Hs). exists d. split_and!; [done|by left|].
    destruct (mi_disk _ _ _ _ I id d Hd) as (_ & Hv & _). apply (valid_resolved _ _ _ d Hv). by rewrite Hs. }
  destruct Hd as (d & Hd & Hst & Hres). destruct (mi_disk _ _ _ _ I id d Hd) as (Hid & _ & Hcase).
  assert (Hsp : rSpec d = rSpec r) by (destruct Hcase as [(x & Hx & Hsx)|(_ & Hn & _)]; congruence).
  unfold NewManager in Hnew. apply bind_reject_ok in Hnew as [_ Hnew]. apply result_bind_ok in Hnew as (? & _ & Hnew).
  apply result_bind_ok in Hnew as (l' & Hl' & Hnew). apply Ok_inj in Hl'. subst l'.
  destruct (recover_each env l _ _ d Hnew) as (r' & Hr' & Hsp' & Hres' & Hst').
  { apply (disk_list m l d I Hl). by rewrite Hid. }
  rewrite Hid in Hr'.
  assert (Hu' : unresolved r' = true).
  { unfold unresolved. rewrite Hst', Hres', Hres. unfold recovered_state. by destruct Hst as [-> | ->]. }
  split; [exists r'; split_and!; [done|congruence|done]|].
  unfold pathBlocked. rewrite bool_decide_eq_true_2 by done. apply existsb_exists. exists r'. split.
  - apply list_elem_of_In, list_elem_of_fmap. exists (id, r'). split; [done|]. by apply elem_of_map_to_list.
  - rewrite Hu', Hsp', Hsp. done.
Qed.

(** ** A restart succeeds *)
Notation valid := (record_validate plan_hash view_hash spec_digest).

Lemma recovered_valid env d state error :
  valid d = Ok tt -> CreatedAt d <= now env -> recovered_state d = (state, error) -> state <> rState d ->
  valid (set_updated (now env) (set_error error (set_state state d))) = Ok tt.
Proof.
  intros Hv Hnow Hrec Hne. pose proof (valid_resolved _ _ _ d Hv) as Hres. unfold record_validate in *.
  apply bind_reject_ok in Hv as [H1 Hv]. apply result_bind_ok in Hv as ([] & H2 & Hv).
  apply result_bind_ok in Hv as ([] & H3 & Hv). apply bind_reject_ok in Hv as [H4 Hv]. apply bind_reject_ok in Hv as [H5 Hv].
  apply result_bind_ok in Hv as ([] & H6 & Hv). apply result_bind_ok in Hv as ([] & H7 & Hv).
  assert (Hst : (rState d = Ready /\ state = Expired \/ rState d = Transferring /\ state = Failed \/
    rState d = Verifying /\ state = Failed \/ rState d = Committing /\ state = Unknown) /\ len error <= 4096).
  { unfold recovered_state in Hrec. destruct (rState d); injection Hrec as <- <-; try done; (split; [auto 10|done]). }
  destruct Hst as [Hst Herr].
  assert (Hr0 : Resolved d = false) by (apply Hres; destruct Hst as [[-> _]|[[-> _]|[[-> _]|[-> _]]]]; done).
  apply bind_reject_ok; split; [exact H1|]. apply result_bind_ok; exists tt; split; [exact H2|].
  apply result_bind_ok; exists tt; split; [exact H3|]. apply bind_reject_ok; split; [exact H4|].
  apply bind_reject_ok; split.
  { simpl. apply orb_false_iff in H5 as [H5 H5d]. apply orb_false_iff in H5 as [H5 H5c]. apply orb_false_iff in H5 as [H5a H5b].
    rewrite H5a, H5c, H5d, !orb_false_r. simpl. apply Z.ltb_ge. lia. }
  apply result_bind_ok; exists tt; split.
  { unfold validateTemporary in *. simpl. apply bind_reject_ok in H6 as [H6a H6]. apply bind_reject_ok in H6 as [H6b H6].
    apply bind_reject_ok in H6 as [H6c H6]. apply bind_reject_ok in H6 as [H6d _].
    apply orb_false_iff in H6d as [H6d H6e]. apply orb_false_iff in H6d as [_ H6f].
    rewrite H6a, H6b, H6c, H6e, H6f. simpl. rewrite (proj2 (Z.ltb_ge _ _) Herr). done. }
  apply result_bind_ok; exists tt; split.
  { unfold validateProgress in *. simpl. apply bind_reject_ok in H7 as [H7a _]. rewrite H7a, Hr0. simpl.
    assert (Hn : state <> Completed /\ state <> Streamed) by (destruct Hst as [[_ ->]|[[_ ->]|[[_ ->]|[_ ->]]]]; done).
    rewrite !bool_decide_eq_false_2 by apply Hn. done. }
  simpl. destruct Hst as [[_ ->]|[[_ ->]|[[_ ->]|[Hc ->]]]]; try done.
  simpl in *. rewrite Hc in Hv. exact Hv.
Qed.

Lemma recover_total env l : forall m0,
  (forall r, record_size r <> None) -> (forall id, save_io env id = Stored) ->
  (forall d, d ∈ l -> valid d = Ok tt /\ CreatedAt d <= now env /\
     m_requests m0 !! request_key (rSpec d) = None /\ m_records m0 !! rID d = None) ->
  NoDup (rID <$> l) -> NoDup ((fun d => request_key (rSpec d)) <$> l) ->
  exists m', recoverRecords plan_hash view_hash spec_digest record_size env l m0 = Ok m'.
Proof.
  induction l as [|d l IH]; intros m0 Hsize Hio Hl Hid Hkey; cbn [recoverRecords]; [by exists m0|].
  change (NoDup (request_key (rSpec d) :: ((fun d => request_key (rSpec d)) <$> l))) in Hkey.
  rewrite fmap_cons in Hid. apply NoDup_cons in Hid as [Hni Hid]. apply NoDup_cons in Hkey as [Hnk Hkey].
  destruct (Hl d ltac:(by left)) as (Hv & Hnow & Hq & Hr).
  assert (H1 : exists m1, recover_one plan_hash view_hash spec_digest record_size env d m0 = Ok m1).
  { unfold recover_one. rewrite Hv, Hq, Hr. cbn [result_bind].
    rewrite !bool_decide_eq_false_2 by (by intros [? ?]). cbn [result_bind reject_if]. cbv zeta.
    destruct (recovered_state d) as [state error] eqn:Es. destruct (bool_decide (state = rState d)) eqn:Eq; [eauto|].
    apply bool_decide_eq_false in Eq. pose proof (recovered_valid env d state error Hv Hnow Es Eq) as Hv'.
    unfold encode, encodeRecord. rewrite Hv'. cbn [result_bind].
    destruct (record_size _) as [n|] eqn:En; [|by destruct (Hsize _ En)].
    destruct (maxRecordBytes <? n); cbn [result_bind reject_if]; [eauto|]. rewrite Hio. eauto. }
  destruct H1 as [m1 H1]. rewrite H1. cbn [result_bind].
  destruct (recover_one_record env _ _ _ H1) as (r & Heq & _ & Hreq & _).
  apply IH; try done. intros x Hx. destruct (Hl x ltac:(by right)) as (Hvx & Hnx & Hqx & Hrx).
  rewrite Heq, Hreq. split_and!; [done|done| |].
  - rewrite lookup_insert_ne; [done|]. intros Hk. apply Hnk. rewrite Hk. by apply (list_elem_of_fmap_2 (fun d => request_key (rSpec d))).
  - rewrite lookup_insert_ne; [done|]. intros Hk. apply Hni. rewrite Hk. by apply (list_elem_of_fmap_2 rID).
Qed.

(** what a manager leaves in its store at any point - after failed writes too -
    can be recovered: with a clock not before the tasks and a store that works, a
    restart succeeds. *)
Theorem restart_succeeds m env limits l :
  mgr_reachable m -> limits_validate limits = Ok tt ->
  (forall r, record_size r <> None) -> (forall id, save_io env id = Stored) ->
  (forall id d, m_disk m !! id = Some d -> CreatedAt d <= now env) ->
  l ≡ₚ (map_to_list (m_disk m)).*2 ->
  exists m', NewManager plan_hash view_hash spec_digest record_size env Live limits (m_disk m) (Ok l) = Ok m'.
Proof.
  intros Hm Hlim Hsize Hio Hnow Hl. apply mgr_inv_reachable in Hm as I. unfold NewManager. simpl. rewrite Hlim. simpl.
  assert (Hin : forall d, d ∈ l -> m_disk m !! rID d = Some d) by (intros d; apply (disk_list m l d I Hl)).
  assert (Hid : NoDup (rID <$> l)).
  { rewrite Hl. assert (Heq : rID <$> (map_to_list (m_disk m)).*2 = (map_to_list (m_disk m)).*1); [|rewrite Heq; apply NoDup_fst_map_to_list].
    rewrite <- list_fmap_compose. apply list_fmap_ext. intros i [id x] Hx. simpl.
    apply list_elem_of_lookup_2, elem_of_map_to_list in Hx. by destruct (mi_disk _ _ _ _ I id x Hx). }
  apply recover_total; try done.
  - intros d Hd. specialize (Hin d Hd). destruct (mi_disk _ _ _ _ I _ d Hin) as (_ & Hv & _).
    split_and!; [done|by apply (Hnow (rID d))| |]; simpl; apply lookup_empty.
  - clear -Hid Hin I. induction l as [|d l IH]; [constructor|]. rewrite fmap_cons in *. apply NoDup_cons in Hid as [Hni Hid].
    apply NoDup_cons. split; [|apply IH; [|exact Hid]; intros x Hx; apply Hin; by right].
    intros Hx. apply list_elem_of_fmap in Hx as (x & Hk & Hx). apply Hni.
    assert (rID d = rID x) as ->; [|by apply (list_elem_of_fmap_2 rID)].
    apply (mi_unique _ _ _ _ I (rID d) (rID x) d x); [apply Hin; by left|apply Hin; by right|exact Hk].
Qed.

(** a request has one task: two tasks of one scope and request id are the
    same, in memory and in the store, and everything stored is a valid record
    under its own id. *)
Theorem one_task_per_request m :
  mgr_reachable m ->
  (forall i j r s, m_records m !! i = Some r -> m_records m !! j = Some s -> same_key r s -> i = j) /\
  (forall i j d e, m_disk m !! i = Some d -> m_disk m !! j = Some e -> same_key d e -> i = j) /\
  (forall i d, m_disk m !! i = Some d -> rID d = i /\ valid d = Ok tt) /\
  (forall k i, m_requests m !! k = Some i -> exists r, m_records m !! i = Some r /\ request_key (rSpec r) = k).
Proof.
  intros Hm. apply mgr_inv_reachable in Hm as I. split_and!.
  - intros i j r s. by apply (inv_key _ _ _ m i j r s I).
  - apply (mi_unique _ _ _ _ I).
  - intros i d Hd. by destruct (mi_disk _ _ _ _ I i d Hd) as (? & ? & _).
  - intros k i. apply (mi_requests _ _ _ _ I).
Qed.

(** a claim succeeds only with the current credential of a ready, unexpired
    task of that direction, behind its permit when it is bound, and only when its
    start is recorded in the store; the credential cannot start it again. *)
Theorem claim_authorized m env ctx id token direction permit lease m' :
  claim plan_hash view_hash spec_digest record_size token_hash env ctx id token direction permit m = (Ok lease, m') ->
  exists r r', m_records m !! id = Some r /\ to_lower (TokenDigest r) = token_hash token /\
    now env < StatusExpiresAt r /\ rState r = Ready /\ now env < StartBefore r /\
    spDirection (rSpec r) = direction /\
    (rAuthorization r <> None -> CheckPermit plan_hash view_hash spec_digest r permit TransferStart = Ok tt) /\
    ctx = Live /\ lease = (id, rSpec r) /\ rState r' = Transferring /\
    m_disk m' !! rID r = Some r' /\ m_records m' !! rID r = Some r' /\ is_Some (m_active m' !! id).
Proof.
  unfold claim, op_bind at 1, guard. destruct (ended ctx) eqn:Ectx; [done|]. simpl. unfold op_bind at 1.
  destruct (mutationAllowed m) as [x m0] eqn:E. apply mutationAllowed_ok in E as [-> _]. destruct x; [|done].
  unfold op_bind at 1. destruct (authenticate token_hash env id token m) as [x m0] eqn:E.
  apply authenticate_ok in E as [-> Hx]. destruct x as [r|]; [|done]. destruct (Hx r eq_refl) as (Hr & Htok & Hexp).
  unfold op_bind at 1. set (chk := if negb (is_none (rAuthorization r)) || negb (is_none permit) then _ else _).
  assert (Hchk : forall y m1, chk m = (y, m1) -> m1 = m /\ (y = Ok tt -> rAuthorization r <> None ->
    CheckPermit plan_hash view_hash spec_digest r permit TransferStart = Ok tt)).
  { subst chk. intros y m1. unfold check_permit, pure, op_ret.
    destruct (negb (is_none (rAuthorization r)) || negb (is_none permit)) eqn:Ea; intros [= <- <-]; split; try done.
    intros _ Hn. apply orb_false_iff in Ea as [Ea _]. by destruct (rAuthorization r). }
  destruct (chk m) as [y m1] eqn:Ec. destruct (Hchk _ _ eq_refl) as [-> Hperm]. clear Hchk Ec. destruct y as [[]|]; [|done].
  specialize (Hperm eq_refl). unfold op_bind at 1.
  destruct (bool_decide (spDirection (rSpec r) = direction)) eqn:Ed; [|done]. simpl. unfold op_bind at 1.
  destruct (bool_decide (rState r = Expired)); [done|]. simpl. unfold op_bind at 1.
  destruct (bool_decide (rState r = Ready)) eqn:Es; [|done]. simpl.
  destruct (now env <? StartBefore r) eqn:El; simpl; [|unfold op_bind; by destruct (caught _ _) as [[]]].
  unfold op_bind at 1, get. unfold op_bind at 1. destruct (pathBlocked (rSpec r) m); [done|]. simpl. unfold op_bind at 1.
  destruct (hasCapacity (rSpec r) m); [|done]. simpl. unfold op_bind at 1.
  set (r' := set_updated (now env) (set_state Transferring r)).
  destruct (save _ _ _ _ env r' m) as [[[]|] m1] eqn:Ew; [|done]. apply save_ok in Ew as [-> _]. simpl. intros [= <- <-].
  exists r, r'. bool_facts. simpl. rewrite !lookup_insert_eq. destruct ctx; try done.
Qed.
End Properties.

(** * A concrete transfer *)
Definition hex64 : string := String.concat "" (repeat "0123456789abcdef" 4).
Definition hex32 : string := String.concat "" (repeat "0123456789abcdef" 2).
Definition x_spec_digest (s : Spec) : option string := Some hex64.
Definition x_record_size (r : TransferRecord) : option Z := Some 100.
Definition x_token_hash (t : string) : string := hex64.
Definition x_env : Env := mkEnv 1000 (fun _ => Stored) (fun _ => Stored) (fun l => l) (@Permutation_refl _).
Definition x_spec : Spec := mkSpec "r1" hex64 "/data/f" "scope" Upload "a" "t1" "/data/f" 3 hex64 false 0.
Definition x_binding : Binding := mkBinding "dom" "scope" "transfer" hex64 "p1".
Definition x_permit (phase : Phase) : option Permit :=
  Some (mkPermit phase x_binding (sample_snapshot "1") (Some Live) None).

Notation x_reachable := (mgr_reachable sample_plan_hash sample_view_hash x_spec_digest x_record_size x_token_hash).
Notation x_step := (mgr_step sample_plan_hash sample_view_hash x_spec_digest x_record_size x_token_hash).
Definition x_0 : Manager := mkManager DefaultLimits ∅ ∅ ∅ false false false ∅.
Definition x_prepared : result transfer_error Prepared * Manager :=
  PrepareBound sample_plan_hash sample_view_hash x_spec_digest x_record_size x_token_hash x_env x_spec "op"
    (x_permit Inspect) (Some hex32) (Some "token") x_0.
Definition x_1 : Manager := x_prepared.2.
Definition x_claimed : result transfer_error (string * Spec) * Manager :=
  claim sample_plan_hash sample_view_hash x_spec_digest x_record_size x_token_hash x_env Live hex32 "token" Upload
    (x_permit TransferStart) x_1.
Definition x_2 : Manager := x_claimed.2.
Definition x_3 : Manager := (Progress x_env hex32 3 x_2).2.
Definition x_4 : Manager := (Temporary sample_plan_hash sample_view_hash x_spec_digest x_record_size x_env hex32 x_3).2.
Definition x_5 : Manager := (ConfirmTemporary sample_plan_hash sample_view_hash x_spec_digest x_record_size x_env hex32 x_4).2.
Definition x_6 : Manager := (Verify sample_plan_hash sample_view_hash x_spec_digest x_record_size x_env hex32 3 hex64 x_5).2.
Definition x_7 : Manager := (reserveCommit sample_plan_hash sample_view_hash x_spec_digest x_env hex32 (x_permit Commit) x_6).2.
Definition x_8 : Manager :=
  (beginCommit sample_plan_hash sample_view_hash x_spec_digest x_record_size x_env hex32 (x_permit Commit) x_7).2.
Definition x_9 : Manager := (Complete sample_plan_hash sample_view_hash x_spec_digest x_record_size x_env hex32 x_8).2.

Lemma x_1_step : x_step x_0 x_1.
Proof.
  refine (ms_prepare_bound _ _ _ _ _ x_0 x_env x_spec "op" (x_permit Inspect) (Some hex32) (Some "token") _).
  intros id _. split; reflexivity.
Qed.
Lemma x_2_step : x_step x_1 x_2.
Proof. exact (ms_claim _ _ _ _ _ x_1 x_env Live hex32 "token" Upload (x_permit TransferStart)). Qed.
Lemma x_3_step : x_step x_2 x_3.
Proof. exact (ms_progress _ _ _ _ _ x_2 x_env hex32 3). Qed.
Lemma x_4_step : x_step x_3 x_4.
Proof. exact (ms_temporary _ _ _ _ _ x_3 x_env hex32). Qed.
Lemma x_5_step : x_step x_4 x_5.
Proof. exact (ms_confirm _ _ _ _ _ x_4 x_env hex32). Qed.
Lemma x_6_step : x_step x_5 x_6.
Proof. exact (ms_verify _ _ _ _ _ x_5 x_env hex32 3 hex64). Qed.
Lemma x_7_step : x_step x_6 x_7.
Proof. exact (ms_reserve _ _ _ _ _ x_6 x_env hex32 (x_permit Commit)). Qed.
Lemma x_8_step : x_step x_7 x_8.
Proof. exact (ms_begin _ _ _ _ _ x_7 x_env hex32 (x_permit Commit)). Qed.
Lemma x_9_step : x_step x_8 x_9.
Proof. exact (ms_complete _ _ _ _ _ x_8 x_env hex32). Qed.

Lemma x_0_reachable : x_reachable x_0.
Proof.
  exists x_0. split; [|apply rtc_refl]. exists ∅. split; [intros id d H; discriminate H|].
  exists x_env, Live, DefaultLimits, []. split; [apply Permutation_refl|vm_compute; reflexivity].
Qed.
Lemma x_7_reachable : x_reachable x_7.
Proof.
  refine (reachable_step _ _ _ _ _ x_7_step). refine (reachable_step _ _ _ _ _ x_6_step).
  refine (reachable_step _ _ _ _ _ x_5_step). refine (reachable_step _ _ _ _ _ x_4_step).
  refine (reachable_step _ _ _ _ _ x_3_step). refine (reachable_step _ _ _ _ _ x_2_step).
  exact (reachable_step _ _ _ _ x_0_reachable x_1_step).
Qed.
Lemma x_8_reachable : x_reachable x_8.
Proof. exact (reachable_step _ _ _ _ x_7_reachable x_8_step). Qed.
Lemma x_9_reachable : x_reachable x_9.
Proof. exact (reachable_step _ _ _ _ x_8_reachable x_9_step). Qed.

Definition x_record (m : Manager) : option (State * Z) := option_map (fun r => (rState r, rBytes r)) (m_records m !! hex32).
Example x_states : (x_record x_1, x_record x_2, x_record x_7, x_record x_8, x_record x_9) =
  (Some (Ready, 0), Some (Transferring, 0), Some (Verifying, 3), Some (Committing, 3), Some (Completed, 3)).
Proof. vm_compute. reflexivity. Qed.

(** A second upload of the same scope, to another path, is claimed while the
    first one transfers. *)
Definition y_spec : Spec := mkSpec "r2" hex64 "/data/g" "scope" Upload "a" "t1" "/data/g" 3 hex64 false 0.
Definition y_id : string := String.concat "" (repeat "fedcba9876543210" 2).
Definition y_1 : Manager :=
  (prepare sample_plan_hash sample_view_hash x_spec_digest x_record_size x_token_hash x_env y_spec "op" None
     (Some y_id) (Some "token") x_2).2.
Definition y_2 : Manager :=
  (claim sample_plan_hash sample_view_hash x_spec_digest x_record_size x_token_hash x_env Live y_id "token" Upload None y_1).2.

Lemma x_2_reachable : x_reachable x_2.
Proof.
  refine (reachable_step _ _ _ _ _ x_2_step). exact (reachable_step _ _ _ _ x_0_reachable x_1_step).
Qed.
Lemma y_1_step : x_step x_2 y_1.
Proof.
  refine (ms_prepare _ _ _ _ _ x_2 x_env y_spec "op" None (Some y_id) (Some "token") _).
  intros id H. injection H as <-. split; vm_compute; reflexivity.
Qed.
Lemma y_2_step : x_step y_1 y_2.
Proof. exact (ms_claim _ _ _ _ _ y_1 x_env Live y_id "token" Upload None). Qed.
Lemma y_2_reachable : x_reachable y_2.
Proof.
  refine (reachable_step _ _ _ _ _ y_2_step). exact (reachable_step _ _ _ _ x_2_reachable y_1_step).
Qed.

(** What the manager holds under an id, as a value of the concrete run. *)
Definition the_record (id : string) (m : Manager) : TransferRecord :=
  from_option (fun r => r) (mkRecord 0 None id "" x_spec "" Failed 0 0 0 0 "" false 0 "" "" "" false false false "") (m_records m !! id).

Lemma the_record_lookup id m : is_Some (m_records m !! id) -> m_records m !! id = Some (the_record id m).
Proof. intros [r Hr]. unfold the_record. by rewrite Hr. Qed.

(** ** The properties on the concrete run *)
Notation at_run prop := (prop sample_plan_hash sample_view_hash x_spec_digest x_record_size x_token_hash) (only parsing).

Lemma transfer_lifecycle_witness : lawful x_7 x_8.
Proof. exact (at_run transfer_lifecycle x_7 x_8 x_7_reachable x_8_step). Defined.

Lemma destination_exclusive_witness :
  ~ collide (the_record hex32 y_2) (the_record y_id y_2) /\ Z.of_nat (size (m_active y_2)) <= 32.
Proof.
  assert (Hne : hex32 <> y_id) by (vm_compute; discriminate).
  assert (Hi : is_Some (m_records y_2 !! hex32)) by (vm_compute; eexists; reflexivity).
  assert (Hj : is_Some (m_records y_2 !! y_id)) by (vm_compute; eexists; reflexivity).
  assert (Hai : is_Some (m_active y_2 !! hex32)) by (vm_compute; eexists; reflexivity).
  assert (Haj : is_Some (m_active y_2 !! y_id)) by (vm_compute; eexists; reflexivity).
  exact (at_run destination_exclusive y_2 hex32 y_id _ _ y_2_reachable Hne
    (the_record_lookup _ _ Hi) (the_record_lookup _ _ Hj) (or_introl Hai) Haj).
Defined.

Lemma x_9_record : m_records x_9 !! hex32 = Some (the_record hex32 x_9).
Proof. apply the_record_lookup. vm_compute. eexists. reflexivity. Qed.
Lemma x_8_record : m_records x_8 !! hex32 = Some (the_record hex32 x_8).
Proof. apply the_record_lookup. vm_compute. eexists. reflexivity. Qed.
Lemma x_7_record : m_records x_7 !! hex32 = Some (the_record hex32 x_7).
Proof. apply the_record_lookup. vm_compute. eexists. reflexivity. Qed.

Lemma completed_is_verified_witness : spSHA256 x_spec = rSHA256 (the_record hex32 x_9) /\ rBytes (the_record hex32 x_9) = 3.
Proof.
  destruct (at_run completed_is_verified x_9 hex32 _ x_9_reachable x_9_record) as [_ [Hc _]].
  assert (Hs : rState (the_record hex32 x_9) = Completed) by (vm_compute; reflexivity).
  destruct (Hc Hs) as (_ & Hb & Hd). assert (E : rSpec (the_record hex32 x_9) = x_spec) by (vm_compute; reflexivity).
  rewrite E in Hb, Hd. exact (conj (eq_sym Hd) Hb).
Defined.

(** The lease of the upload once its commit is reserved. *)
Definition x_7_task : activeTask := from_option (fun a => a) (mkTask Live Live 0 false false) (m_active x_7 !! hex32).

Lemma reserved_not_cancelled_witness :
  Cancel sample_plan_hash sample_view_hash x_spec_digest x_record_size x_env
    (spScope (rSpec (the_record hex32 x_7))) hex32 x_7 = (Err EInvalidState, x_7).
Proof.
  assert (Ha : m_active x_7 !! hex32 = Some x_7_task) by (vm_compute; reflexivity).
  assert (Hres : commitReserved x_7_task = true) by (vm_compute; reflexivity).
  assert (Hs : rState (the_record hex32 x_7) = Verifying) by (vm_compute; reflexivity).
  destruct (at_run reserved_not_cancelled x_7 hex32 _ _ x_7_reachable x_7_record Ha Hres) as (_ & _ & Hc).
  exact (Hc (or_introl Hs) x_env).
Defined.

(** The process dies while the commit of [x_8] runs: the next one. *)
Definition x_restart : result transfer_error Manager :=
  NewManager sample_plan_hash sample_view_hash x_spec_digest x_record_size x_env Live DefaultLimits
    (m_disk x_8) (Ok (map_to_list (m_disk x_8)).*2).
Definition x_restarted : Manager := match x_restart with Ok m => m | Err _ => x_0 end.

Lemma uncertain_survives_restart_witness : pathBlocked x_spec x_restarted = true.
Proof.
  assert (Hu : uncertain (the_record hex32 x_8) = true) by (vm_compute; reflexivity).
  assert (Hn : x_restart = Ok x_restarted) by (vm_compute; reflexivity).
  assert (Hd : same_destination (rSpec (the_record hex32 x_8)) x_spec = true) by (vm_compute; reflexivity).
  exact (proj2 (at_run uncertain_survives_restart x_8 hex32 _ x_env Live DefaultLimits _ x_restarted x_spec
    x_8_reachable x_8_record Hu (Permutation_refl _) Hn eq_refl Hd)).
Defined.

Lemma restart_succeeds_witness : exists m', x_restart = Ok m'.
Proof.
  apply (at_run restart_succeeds x_8 x_env DefaultLimits); [exact x_8_reachable|reflexivity|discriminate|reflexivity| |reflexivity].
  intros id d H. apply elem_of_map_to_list in H.
  assert (E : map_to_list (m_disk x_8) = [(hex32, the_record hex32 x_8)]) by (vm_compute; reflexivity).
  rewrite E in H. apply list_elem_of_singleton in H. apply (f_equal snd) in H.
  change (d = the_record hex32 x_8) in H. rewrite H. vm_compute. discriminate.
Defined.

Lemma one_task_per_request_witness :
  rID (the_record hex32 x_9) = hex32 /\ record_validate sample_plan_hash sample_view_hash x_spec_digest (the_record hex32 x_9) = Ok tt.
Proof.
  assert (H : m_disk x_9 !! hex32 = Some (the_record hex32 x_9)) by (vm_compute; reflexivity).
  exact (proj1 (proj2 (proj2 (at_run one_task_per_request x_9 x_9_reachable))) hex32 _ H).
Defined.

Lemma claim_authorized_witness : is_Some (m_active x_2 !! hex32).
Proof.
  assert (H : x_claimed = (Ok (hex32, x_spec), x_2)) by (vm_compute; reflexivity).
  destruct (at_run claim_authorized x_1 x_env Live hex32 "token" Upload (x_permit TransferStart) _ _ H)
    as (r & r' & _ & _ & _ & _ & _ & _ & _ & _ & _ & _ & _ & _ & Ha).
  exact Ha.
Defined.
