(* ===== verification/ConcMap.v ===== *)
(** The sharded concurrent map: core/concurrent/concurrent_map.go and hash.go.

    A method is a program of critical sections: under the lock of one shard it
    reads the items, writes the new ones and goes on with what it read.  Methods
    run among other goroutines, whose critical sections fall between its own.
    Go does not fix the order in which a map is ranged over: [order] is any one.
    The encodings (JSON, YAML, the printed forms) are outside; what they encode
    and decode are [Snapshot] and [Merge]. *)
From S2P Require Export GoStrings.
#[local] Open Scope Z_scope.

(** * Hashes (hash.go) *)
Definition u32 (z : Z) : Z := z mod 2^32.
Definition u64 (z : Z) : Z := z mod 2^64.
Definition offset32 : Z := 2166136261.
Definition prime32 : Z := 16777619.
Definition knuth : Z := 2654435761.

(** FNV-1a; the loop runs over the bytes. *)
Fixpoint hash_from (hash : Z) (s : string) : Z :=
  match s with
  | EmptyString => hash
  | String c s' => hash_from (u32 (Z.lxor hash (Z.of_N (N_of_ascii c)) * prime32)) s'
  end.
Definition HashString (s : string) : Z := hash_from offset32 s.
Definition HashInt (key : Z) : Z := u32 (u32 key * knuth).
Definition HashUint64 (key : Z) : Z := u32 (u32 (Z.lxor key (Z.shiftr key 32)) * knuth).
Definition HashInt64 (key : Z) : Z :=
  let value := u64 key in u32 (u32 (Z.lxor value (Z.shiftr value 32)) * knuth).

(** * Programs of critical sections *)
Section Programs.
Context {items : Type}.

Inductive prog (A : Type) : Type :=
  | Ret (a : A)
  | Panic
  | Crit (shard : nat) (update : items -> items) (next : items -> prog A).
Arguments Ret {A} a.
Arguments Panic {A}.
Arguments Crit {A} shard update next.

Fixpoint prog_bind {A B} (p : prog A) (k : A -> prog B) : prog B :=
  match p with
  | Ret a => k a
  | Panic => Panic
  | Crit i update next => Crit i update (fun x => prog_bind (next x) k)
  end.

(** A run of a program from [s] to [s'] with the answer [a], among goroutines
    whose critical sections are steps of [other]. *)
Inductive run {A} (other : relation (list items)) : list items -> prog A -> list items -> A -> Prop :=
  | run_ret s s' a : rtc other s s' -> run other s (Ret a) s' a
  | run_crit s s1 i x update next s' a :
      rtc other s s1 -> s1 !! i = Some x ->
      run other (<[i := update x]> s1) (next x) s' a ->
      run other s (Crit i update next) s' a.

(** Whatever the others do, the program ends without a panic, and each of its
    critical sections is one of their steps. *)
Inductive completes {A} (other : relation (list items)) : list items -> prog A -> Prop :=
  | completes_ret s a : completes other s (Ret a)
  | completes_crit s i update next :
      (forall s1, rtc other s s1 -> exists x, s1 !! i = Some x /\ other s1 (<[i := update x]> s1) /\
         completes other (<[i := update x]> s1) (next x)) ->
      completes other s (Crit i update next).

(** A program that runs alone, with fuel for the number of its sections. *)
Fixpoint alone {A} (fuel : nat) (s : list items) (p : prog A) : option (A * list items) :=
  match p with
  | Ret a => Some (a, s)
  | Panic => None
  | Crit i update next =>
      match fuel, s !! i with
      | S f, Some x => alone f (<[i := update x]> s) (next x)
      | _, _ => None
      end
  end.
End Programs.
Arguments Ret {items A} a.
Arguments Panic {items A}.
Arguments Crit {items A} shard update next.

(** * The map (concurrent_map.go) *)
Definition DEFAULT_SHARD_COUNT : Z := 32.

Section Map.
Context `{Countable K} {V : Type}.
Notation items := (gmap K V).

(** [Map]; the hash function and the count never change after [NewMap]. *)
Record Map := mkMap { shards : list items; hashFunc : K -> Z; shardCount : Z }.

Definition Option_ : Type := Map -> Map.
Definition WithShardCount (count : Z) : Option_ := fun m => mkMap (shards m) (hashFunc m) count.

Definition NewMap (hash : K -> Z) (opts : list Option_) : Map :=
  let m := foldl (fun m opt => opt m) (mkMap [] hash DEFAULT_SHARD_COUNT) opts in
  mkMap (replicate (Z.to_nat (shardCount m)) ∅) (hashFunc m) (shardCount m).

Variable m : Map.
Variable order : items -> list (K * V).

(** [hash % m.shardCount], which panics when there are no shards. *)
Definition shardIndex (key : K) : option nat :=
  if shardCount m =? 0 then None else Some (Z.to_nat (hashFunc m key mod shardCount m)).
(** [getShard], and the critical section that follows. *)
Definition on_shard {A} (key : K) (update : items -> items) (next : items -> A) : @prog items A :=
  match shardIndex key with
  | None => Panic
  | Some i => Crit i update (fun x => Ret (next x))
  end.
Definition keep (x : items) : items := x.
Definition shard_count : nat := Z.to_nat (shardCount m).

Definition Set_ (key : K) (value : V) : @prog items unit := on_shard key (insert key value) (fun _ => tt).
Definition Get (key : K) : @prog items (option V) := on_shard key keep (lookup key).
Definition Remove (key : K) : @prog items unit := on_shard key (delete key) (fun _ => tt).
Definition Pop (key : K) : @prog items (option V) :=
  on_shard key (fun x => if x !! key then delete key x else x) (lookup key).
Definition matches `{EqDecision V} (expected : V) (current : option V) : bool :=
  match current with None => false | Some v => bool_decide (v = expected) end.
Definition RemoveIfMatch `{EqDecision V} (key : K) (expected : V) : @prog items bool :=
  on_shard key (fun x => if matches expected (x !! key) then delete key x else x)
    (fun x => matches expected (x !! key)).
Definition Upsert (key : K) (cb : option V -> V) : @prog items V :=
  on_shard key (fun x => <[key := cb (x !! key)]> x) (fun x => cb (x !! key)).
Definition SetIfAbsent (key : K) (value : V) : @prog items (V * bool) :=
  on_shard key (fun x => if x !! key then x else <[key := value]> x)
    (fun x => match x !! key with Some old => (old, false) | None => (value, true) end).

(** ** Whole-map methods: one shard after the other *)

(** [for i := range m.shardCount], with an accumulator. *)
Fixpoint each_shard {A} (update : items -> items) (step : A -> items -> A) (n i : nat) (acc : A) : @prog items A :=
  match n with
  | O => Ret acc
  | S n' => Crit i update (fun x => each_shard update step n' (S i) (step acc x))
  end.

Definition Count : @prog items Z := each_shard keep (fun n x => n + Z.of_nat (size x)) shard_count 0 0.
Definition Keys : @prog items (list K) := each_shard keep (fun l x => l ++ (order x).*1) shard_count 0 [].
Definition Clear : @prog items unit := each_shard (fun _ => ∅) (fun _ _ => tt) shard_count 0 tt.
(** What [MarshalJSON] and [MarshalYAML] encode. *)
Definition Snapshot : @prog items items := each_shard keep (fun tmp x => x ∪ tmp) shard_count 0 ∅.

(** [IterCb]: the callback answers whether to go on and changes its own state. *)
Fixpoint iter_items {St} (fn : K -> V -> St -> bool * St) (l : list (K * V)) (st : St) : bool * St :=
  match l with
  | [] => (true, st)
  | (k, v) :: rest => let '(go, st') := fn k v st in if go then iter_items fn rest st' else (false, st')
  end.
Fixpoint iter_shards {St} (fn : K -> V -> St -> bool * St) (n i : nat) (st : St) : @prog items St :=
  match n with
  | O => Ret st
  | S n' => Crit i keep (fun x => let '(go, st') := iter_items fn (order x) st in
                                  if go then iter_shards fn n' (S i) st' else Ret st')
  end.
Definition IterCb {St} (fn : K -> V -> St -> bool * St) (st : St) : @prog items St := iter_shards fn shard_count 0 st.

(** What [UnmarshalJSON] and [UnmarshalYAML] do with the decoded map. *)
Fixpoint merge_list (l : list (K * V)) : @prog items unit :=
  match l with
  | [] => Ret tt
  | (k, v) :: rest => prog_bind (Set_ k v) (fun _ => merge_list rest)
  end.
Definition Merge (tmp : items) : @prog items unit := merge_list (order tmp).

(** [MSet]: the data by shard, then each shard that has some. *)
Fixpoint batches (l : list (K * V)) (batched : list (option items)) : option (list (option items)) :=
  match l with
  | [] => Some batched
  | (k, v) :: rest =>
      match shardIndex k with
      | None => None
      | Some i => batches rest (alter (fun b => Some (<[k := v]> (default ∅ b))) i batched)
      end
  end.
Fixpoint write_batches (batched : list (option items)) (i : nat) : @prog items unit :=
  match batched with
  | [] => Ret tt
  | None :: rest => write_batches rest (S i)
  | Some b :: rest => Crit i (fun x => b ∪ x) (fun _ => write_batches rest (S i))
  end.
Definition MSet (data : items) : @prog items unit :=
  match batches (order data) (replicate shard_count None) with
  | None => Panic
  | Some batched => write_batches batched 0
  end.
End Map.
Arguments Map K {_ _} V : assert.

(** * Hashes: bounds and spread *)
Lemma u32_bound z : 0 <= u32 z < 2^32.
Proof. apply Z.mod_pos_bound. lia. Qed.

Lemma HashString_bound s : 0 <= HashString s < 2^32.
Proof.
  unfold HashString. assert (H : 0 <= offset32 < 2^32) by (vm_compute; split; congruence).
  revert H. generalize offset32. induction s as [|c s IH]; intros h Hh; simpl; [done|]. apply IH, u32_bound.
Qed.

(** A product with an odd constant keeps residues modulo powers of two apart. *)
Lemma mul_unit_mod a b c inv n : 0 < n -> (c * inv) mod n = 1 mod n ->
  (a * c) mod n = (b * c) mod n -> a mod n = b mod n.
Proof.
  intros Hn Hinv Heq.
  assert (E : forall x, x mod n = (x * c) mod n * (inv mod n) mod n).
  { intros x. rewrite <- Zmult_mod, <- Z.mul_assoc, Zmult_mod, Hinv, <- Zmult_mod, Z.mul_1_r. done. }
  rewrite (E a), (E b), Heq. done.
Qed.

Lemma u32_mod_pow z j : 0 <= j <= 32 -> u32 z mod 2^j = z mod 2^j.
Proof.
  intros Hj. unfold u32. symmetry. apply Znumtheory.Zmod_div_mod; [lia|lia|].
  exists (2^(32 - j)). rewrite <- Z.pow_add_r by lia. f_equal. lia.
Qed.

Lemma knuth_unit j : 0 <= j <= 32 -> (knuth * 244002641) mod 2^j = 1 mod 2^j.
Proof.
  intros Hj. rewrite <- (u32_mod_pow _ j Hj). f_equal.
Qed.

(** [HashInt] spreads a sequence perfectly: over a power of two of shards two
    integers share a shard exactly when they are equal modulo the count, so as
    many consecutive keys as shards fill each of them once. *)
Theorem HashInt_spreads a b j : 0 <= j <= 32 ->
  0 <= HashInt a < 2^32 /\ (HashInt a mod 2^j = HashInt b mod 2^j <-> a mod 2^j = b mod 2^j).
Proof.
  intros Hj. split; [apply u32_bound|]. unfold HashInt. rewrite !u32_mod_pow by done.
  assert (E : forall x, (u32 x * knuth) mod 2^j = (x * knuth) mod 2^j).
  { intros x. rewrite Zmult_mod, u32_mod_pow, <- Zmult_mod; done. }
  rewrite !E. split; intros Heq.
  - by apply (mul_unit_mod a b knuth 244002641); [lia|apply knuth_unit|].
  - by rewrite (Zmult_mod a), (Zmult_mod b), Heq.
Qed.

(** * Interference *)
Section Correct.
Context `{Countable K} {V : Type}.
Notation items := (gmap K V).
Variable m : Map K V.
Variable order : items -> list (K * V).
Hypothesis order_perm : forall x, order x ≡ₚ map_to_list x.
Hypothesis some_shards : 0 < shardCount m.
Implicit Types (s xs : list items) (k : K).

Definition shard_of (k : K) : nat := Z.to_nat (hashFunc m k mod shardCount m).
(** Every key is in its own shard. *)
Definition placed s : Prop :=
  length s = shard_count m /\ forall i x k, s !! i = Some x -> is_Some (x !! k) -> i = shard_of k.
(** The plain map that the shards hold. *)
Definition contents s : items := foldr union ∅ s.

(** A critical section of any goroutine: one shard changes, every key stays in
    its own shard. *)
Definition section s s' : Prop :=
  placed s /\ placed s' /\ exists i x, s' = <[i := x]> s.
(** Sections that do not touch one key. *)
Definition leaves k s s' : Prop := section s s' /\ contents s' !! k = contents s !! k.

Lemma shardIndex_ok k : shardIndex m k = Some (shard_of k).
Proof. unfold shardIndex. destruct (shardCount m =? 0) eqn:E; [bool_facts; lia|done]. Qed.

Lemma shard_of_bound k : (shard_of k < shard_count m)%nat.
Proof. unfold shard_of, shard_count. pose proof (Z.mod_pos_bound (hashFunc m k) _ some_shards). lia. Qed.

Lemma contents_none s k : (forall x, x ∈ s -> x !! k = None) -> contents s !! k = None.
Proof.
  induction s as [|x s IH]; intros Hs; simpl; [apply lookup_empty|].
  rewrite lookup_union, (Hs x) by (by left). rewrite (left_id_L None union). apply IH. intros y Hy. apply Hs. by right.
Qed.

Lemma contents_lookup_at s i x k : s !! i = Some x ->
  (forall j y, s !! j = Some y -> is_Some (y !! k) -> j = i) -> contents s !! k = x !! k.
Proof.
  revert i. induction s as [|y s IH]; intros [|i] Hi Hs; try done; simpl in *; rewrite lookup_union.
  - injection Hi as ->. rewrite (contents_none s), (right_id_L None union); [done|].
    intros z Hz. apply list_elem_of_lookup in Hz as [j Hj]. apply eq_None_not_Some. intros Hk.
    by specialize (Hs (S j) z Hj Hk).
  - assert (Hy : y !! k = None) by (apply eq_None_not_Some; intros Hk; by specialize (Hs 0%nat y eq_refl Hk)).
    rewrite Hy, (left_id_L None union). apply (IH i); [done|]. intros j z Hj Hk. specialize (Hs (S j) z Hj Hk). lia.
Qed.

Lemma placed_shard s k : placed s -> exists x, s !! shard_of k = Some x /\ contents s !! k = x !! k.
Proof.
  intros [Hlen Hs]. destruct (lookup_lt_is_Some_2 s (shard_of k)) as [x Hx]; [rewrite Hlen; apply shard_of_bound|].
  exists x. split; [done|]. apply (contents_lookup_at s _ _ _ Hx). intros j y Hj Hk. by apply (Hs j y k).
Qed.

(** The new items of a shard hold only keys of that shard. *)
Definition own i (x : items) : Prop := forall k, is_Some (x !! k) -> i = shard_of k.

Lemma placed_own s i x : placed s -> s !! i = Some x -> own i x.
Proof. intros [_ Hs] Hx k. by apply (Hs i x). Qed.

Lemma placed_insert s i x : placed s -> own i x -> placed (<[i := x]> s).
Proof.
  intros [Hlen Hs] Hx. split; [by rewrite length_insert|]. intros j y k Hy Hk.
  apply list_lookup_insert_Some in Hy as [(-> & <- & _)|(_ & Hy)]; [by apply Hx|by apply (Hs j y)].
Qed.

Lemma section_insert s i x : placed s -> own i x -> section s (<[i := x]> s).
Proof. intros Hs Hx. split_and!; [done|by apply placed_insert|eauto]. Qed.

(** What a change of one shard does to the plain map. *)
Lemma contents_insert s i x k : placed s -> own i x -> (i < length s)%nat ->
  contents (<[i := x]> s) !! k = if decide (shard_of k = i) then x !! k else contents s !! k.
Proof.
  intros Hs Hx Hi. pose proof (placed_insert s i x Hs Hx) as Hs'.
  destruct (placed_shard _ k Hs') as (y & Hy & ->). destruct (decide _) as [He|Hne].
  - rewrite He, list_lookup_insert_eq in Hy by done. by injection Hy as ->.
  - rewrite list_lookup_insert_ne in Hy by congruence. destruct (placed_shard s k Hs) as (z & Hz & ->). congruence.
Qed.

Lemma own_insert i x k v : own i x -> i = shard_of k -> own i (<[k := v]> x).
Proof. intros Hx Hi k' Hk'. apply lookup_insert_is_Some' in Hk' as [<-|Hk']; [done|by apply Hx]. Qed.
Lemma own_delete i x k : own i x -> own i (delete k x).
Proof. intros Hx k' Hk'. apply lookup_delete_is_Some in Hk' as [_ Hk']. by apply Hx. Qed.
Lemma own_union i x y : own i x -> own i y -> own i (x ∪ y).
Proof. intros Hx Hy k [v Hk]. apply lookup_union_Some_raw in Hk as [Hk|[_ Hk]]; [apply Hx|apply Hy]; by exists v. Qed.

Lemma section_placed s s' : placed s -> rtc section s s' -> placed s'.
Proof. intros Hs Hr. induction Hr as [|? ? ? (_ & Hy & _) _ IH]; [done|by apply IH]. Qed.

Lemma leaves_placed k s s' : placed s -> rtc (leaves k) s s' -> placed s' /\ contents s' !! k = contents s !! k.
Proof.
  intros Hs Hr. induction Hr as [|? y ? [(_ & Hy & _) Hk] _ IH]; [done|]. destruct (IH Hy) as [Hz Hkz].
  split; [done|congruence].
Qed.

(** ** Single-key methods *)

(** The calls on one key, with their answers. *)
Inductive call :=
  | CSet k (v : V) | CGet k | CRemove k | CPop k | CUpsert k (cb : option V -> V) | CSetIfAbsent k (v : V)
  | CRemoveIfMatch `{EqDecision V} k (v : V).
Inductive reply :=
  | RUnit | RValue (v : option V) | RNew (v : V) | RStored (v : V * bool) | RRemoved (b : bool).

Definition answer {A} (f : A -> reply) (p : @prog items A) : @prog items reply := prog_bind p (fun a => Ret (f a)).
Definition method (c : call) : @prog items reply :=
  match c with
  | CSet k v => answer (fun _ => RUnit) (Set_ m k v)
  | CGet k => answer RValue (Get m k)
  | CRemove k => answer (fun _ => RUnit) (Remove m k)
  | CPop k => answer RValue (Pop m k)
  | CUpsert k cb => answer RNew (Upsert m k cb)
  | CSetIfAbsent k v => answer RStored (SetIfAbsent m k v)
  | CRemoveIfMatch k v => answer RRemoved (RemoveIfMatch m k v)
  end.

(** What the calls do to a plain map. *)
Definition plain (c : call) (x : items) : items * reply :=
  match c with
  | CSet k v => (<[k := v]> x, RUnit)
  | CGet k => (x, RValue (x !! k))
  | CRemove k => (delete k x, RUnit)
  | CPop k => (delete k x, RValue (x !! k))
  | CUpsert k cb => (<[k := cb (x !! k)]> x, RNew (cb (x !! k)))
  | CSetIfAbsent k v => match x !! k with Some old => (x, RStored (old, false)) | None => (<[k := v]> x, RStored (v, true)) end
  | CRemoveIfMatch k v => if bool_decide (x !! k = Some v) then (delete k x, RRemoved true) else (x, RRemoved false)
  end.
Definition call_key (c : call) : K :=
  match c with
  | CSet k _ | CGet k | CRemove k | CPop k | CUpsert k _ | CSetIfAbsent k _ | CRemoveIfMatch k _ => k
  end.

(** The change of the one key and the answer. *)
Definition effect (c : call) (old : option V) : option V * reply :=
  match c with
  | CSet _ v => (Some v, RUnit)
  | CGet _ => (old, RValue old)
  | CRemove _ => (None, RUnit)
  | CPop _ => (None, RValue old)
  | CUpsert _ cb => (Some (cb old), RNew (cb old))
  | CSetIfAbsent _ v => match old with Some o => (old, RStored (o, false)) | None => (Some v, RStored (v, true)) end
  | CRemoveIfMatch _ v => if bool_decide (old = Some v) then (None, RRemoved true) else (old, RRemoved false)
  end.
Definition alter_key (c : call) (x : items) : items := partial_alter (fun o => (effect c o).1) (call_key c) x.

Lemma alter_same k (x : items) o : x !! k = o -> partial_alter (fun _ => o) k x = x.
Proof. intros <-. apply partial_alter_self. Qed.

Lemma plain_effect c x : plain c x = (alter_key c x, (effect c (x !! call_key c)).2).
Proof.
  unfold alter_key. destruct c as [k v|k|k|k|k cb|k v|dec k v]; simpl; try done.
  - f_equal. apply map_eq. intros k'. destruct (decide (k = k')) as [<-|Hne];
      [by rewrite lookup_partial_alter_eq|by rewrite lookup_partial_alter_ne].
  - f_equal. apply map_eq. intros k'. destruct (decide (k = k')) as [<-|Hne];
      [by rewrite lookup_insert_eq, lookup_partial_alter_eq|by rewrite lookup_insert_ne, lookup_partial_alter_ne].
  - destruct (x !! k) as [o|] eqn:E; simpl; f_equal; apply map_eq; intros k'; destruct (decide (k = k')) as [<-|Hne];
      rewrite ?lookup_insert_eq, ?lookup_partial_alter_eq, ?E, ?lookup_insert_ne, ?lookup_partial_alter_ne by done; done.
  - destruct (bool_decide (x !! k = Some v)) eqn:E; simpl; f_equal; apply map_eq; intros k'; destruct (decide (k = k')) as [<-|Hne];
      rewrite ?lookup_delete_eq, ?lookup_partial_alter_eq, ?E, ?lookup_delete_ne, ?lookup_partial_alter_ne by done; done.
Qed.

Lemma method_effect c : exists update next, method c = Crit (shard_of (call_key c)) update next /\
  forall x, update x = alter_key c x /\ next x = Ret (effect c (x !! call_key c)).2.
Proof.
  assert (Hk : forall x, (alter_key c x, (effect c (x !! call_key c)).2) = plain c x) by (intros x; by rewrite plain_effect).
  destruct c as [k v|k|k|k|k cb|k v|dec k v]; simpl in *;
    unfold Set_, Get, Remove, Pop, Upsert, SetIfAbsent, RemoveIfMatch, answer, on_shard; rewrite shardIndex_ok; simpl;
    eexists _, _; (split; [reflexivity|]); intros x; specialize (Hk x); unfold keep, matches.
  - split; congruence.
  - split; congruence.
  - split; congruence.
  - split; [|done]. destruct (x !! k) eqn:E; [done|]. symmetry. exact (delete_id x k E).
  - split; congruence.
  - destruct (x !! k); (split; congruence).
  - destruct (x !! k) as [o|]; simpl in *; [|split; congruence].
    destruct (decide (o = v)) as [->|Hne].
    + rewrite !bool_decide_eq_true_2 in * by done. simpl in *. split; congruence.
    + rewrite !bool_decide_eq_false_2 in * by congruence. simpl in *. split; congruence.
Qed.

Lemma own_alter c i x : own i x -> i = shard_of (call_key c) -> own i (alter_key c x).
Proof.
  intros Hx Hi k Hk. unfold alter_key in Hk. destruct (decide (call_key c = k)) as [<-|Hne]; [done|].
  rewrite lookup_partial_alter_ne in Hk by done. by apply Hx.
Qed.

Lemma alter_contents c s x : placed s -> s !! shard_of (call_key c) = Some x ->
  contents (<[shard_of (call_key c) := alter_key c x]> s) = alter_key c (contents s).
Proof.
  intros Hs Hx. apply map_eq. intros k.
  rewrite contents_insert; [|done|by eapply own_alter, eq_refl; apply (placed_own s)|by eapply lookup_lt_Some].
  destruct (placed_shard s (call_key c) Hs) as (y & Hy & Hck). rewrite Hx in Hy. injection Hy as <-.
  unfold alter_key. destruct (decide (call_key c = k)) as [<-|Hne].
  - rewrite decide_True by done. rewrite !lookup_partial_alter_eq. by rewrite Hck.
  - rewrite !lookup_partial_alter_ne by done. destruct (decide _) as [He|]; [|done].
    destruct (placed_shard s k Hs) as (y & Hy & Hk). congruence.
Qed.

(** C40: the calls on a key are linearizable: whatever the other goroutines do
    meanwhile, a call of any of the seven methods takes effect at one instant,
    where it does to the map what it does to a plain map and answers the same; it
    always ends, and to the others it is one step. *)
Theorem single_key_linearizable c s :
  placed s ->
  completes section s (method c) /\
  forall s' r, run section s (method c) s' r ->
    exists s1 s2, rtc section s s1 /\ section s1 s2 /\ rtc section s2 s' /\
      plain c (contents s1) = (contents s2, r).
Proof.
  intros Hs. destruct (method_effect c) as (update & next & -> & Hc). set (i := shard_of (call_key c)) in *.
  assert (Hstep : forall s1 x, placed s1 -> s1 !! i = Some x ->
    section s1 (<[i := update x]> s1) /\ plain c (contents s1) = (contents (<[i := update x]> s1), (effect c (x !! call_key c)).2)).
  { intros s1 x H1 Hx. destruct (Hc x) as [-> _]. split.
    - apply section_insert; [done|]. apply own_alter; [|done]. by apply (placed_own s1).
    - rewrite plain_effect. unfold i. rewrite alter_contents by done. do 2 f_equal.
      destruct (placed_shard s1 (call_key c) H1) as (y & Hy & ->). unfold i in Hx. congruence. }
  split.
  - constructor. intros s1 Hr. pose proof (section_placed s s1 Hs Hr) as H1.
    destruct (placed_shard s1 (call_key c) H1) as (x & Hx & _). exists x. split; [done|].
    split; [by apply Hstep|]. destruct (Hc x) as [_ ->]. constructor.
  - intros s' r Hrun. inversion Hrun as [|? s1 ? x ? ? ? ? Hr Hx Hrest]; subst.
    destruct (Hc x) as [_ E]. rewrite E in Hrest. inversion Hrest; subst.
    pose proof (section_placed s s1 Hs Hr) as H1. destruct (Hstep s1 x H1 Hx) as [Hsec Hp]. by exists s1, (<[i := update x]> s1).
Qed.

(** ** Whole-map methods *)

(** A pass over the shards that only reads: what it reads in each, at which state. *)
Lemma each_run {A} other (step : A -> items -> A) n : forall i s s' acc a,
  run other s (each_shard keep step n i acc) s' a ->
  rtc other s s' /\ exists xs, length xs = n /\ a = foldl step acc xs /\
    forall j x, xs !! j = Some x -> exists s1, rtc other s s1 /\ s1 !! (i + j)%nat = Some x.
Proof.
  induction n as [|n IH]; intros i s s' acc a Hrun; simpl in Hrun.
  - inversion Hrun; subst. split; [done|]. exists []. split_and!; [done|done|]. intros j x Hj. by rewrite lookup_nil in Hj.
  - inversion Hrun as [|? s1 ? x ? ? ? ? Hr Hx Hrest]; subst. unfold keep in Hrest. rewrite list_insert_id in Hrest by done.
    destruct (IH _ _ _ _ _ Hrest) as (Hr' & xs & Hlen & -> & Hxs). split; [by etrans|].
    exists (x :: xs). split_and!; [simpl; by f_equal|done|]. intros [|j] y Hy.
    + injection Hy as <-. exists s1. by rewrite Nat.add_0_r.
    + destruct (Hxs j y Hy) as (s2 & Hr2 & Hy2). exists s2. split; [by etrans|]. by rewrite Nat.add_succ_r.
Qed.

(** Such a pass meets a key that the others leave alone in its shard only. *)
Lemma pass_lookup k s xs :
  placed s -> length xs = shard_count m ->
  (forall j x, xs !! j = Some x -> exists s1, rtc (leaves k) s s1 /\ s1 !! (0 + j)%nat = Some x) ->
  forall j x, xs !! j = Some x -> x !! k = if decide (j = shard_of k) then contents s !! k else None.
Proof.
  intros Hs Hlen Hxs j x Hx. destruct (Hxs j x Hx) as (s1 & Hr & Hx1). simpl in Hx1.
  destruct (leaves_placed k s s1 Hs Hr) as [H1 Hk]. destruct (decide _) as [->|Hne].
  - destruct (placed_shard s1 k H1) as (y & Hy & Hc). congruence.
  - apply eq_None_not_Some. intros Hsome. apply Hne. by apply (placed_own s1 j x H1 Hx1).
Qed.

Lemma foldl_app_concat {A B} (f : A -> list B) (xs : list A) acc : foldl (fun l x => l ++ f x) acc xs = acc ++ concat (f <$> xs).
Proof. revert acc. induction xs as [|x xs IH]; intros acc; simpl; [by rewrite app_nil_r|]. by rewrite IH, <- app_assoc. Qed.

Lemma order_keys x k : k ∈ (order x).*1 <-> is_Some (x !! k).
Proof.
  rewrite order_perm, list_elem_of_fmap. split.
  - intros ([k' v] & -> & Hk). apply elem_of_map_to_list in Hk. by exists v.
  - intros [v Hv]. exists (k, v). split; [done|]. by apply elem_of_map_to_list.
Qed.

Lemma keys_nodup i xs : (forall j x, xs !! j = Some x -> own (i + j)%nat x) -> NoDup (concat ((fun x => (order x).*1) <$> xs)).
Proof.
  revert i. induction xs as [|x xs IH]; intros i Hxs; simpl; [constructor|]. apply NoDup_app. split_and!.
  - rewrite order_perm. apply NoDup_fst_map_to_list.
  - intros k Hk Hin. apply order_keys in Hk. pose proof (Hxs 0%nat x eq_refl k Hk) as Hi.
    apply list_elem_of_In, in_concat in Hin as (l & Hl & Hin). apply list_elem_of_In in Hl, Hin.
    apply list_elem_of_fmap in Hl as (y & -> & Hy). apply list_elem_of_lookup in Hy as [j Hj].
    apply order_keys in Hin. pose proof (Hxs (S j) y Hj k Hin). lia.
  - apply (IH (S i)). intros j y Hj. rewrite Nat.add_succ_l, <- Nat.add_succ_r. by apply (Hxs (S j)).
Qed.

Lemma section_own s xs i : placed s ->
  (forall j x, xs !! j = Some x -> exists s1, rtc section s s1 /\ s1 !! (i + j)%nat = Some x) ->
  forall j x, xs !! j = Some x -> own (i + j)%nat x.
Proof.
  intros Hs Hxs j x Hx. destruct (Hxs j x Hx) as (s1 & Hr & H1). apply (placed_own s1); [|done].
  by apply (section_placed s).
Qed.

Lemma leaves_section k s s' : rtc (leaves k) s s' -> rtc section s s'.
Proof. induction 1 as [|? ? ? [Hsec _] _ IH]; [done|by eapply rtc_l]. Qed.

(** [Keys] among goroutines that leave [k] alone. *)
Lemma Keys_run k s s' l : placed s -> run (leaves k) s (Keys m order) s' l ->
  NoDup l /\ (k ∈ l <-> is_Some (contents s !! k)).
Proof.
  intros Hs Hrun. apply each_run in Hrun as (_ & xs & Hlen & -> & Hxs). rewrite foldl_app_concat. simpl. split.
  - apply (keys_nodup 0). apply (section_own s); [done|]. intros j x Hx. destruct (Hxs j x Hx) as (s1 & Hr & H1).
    exists s1. split; [by eapply leaves_section|done].
  - pose proof (pass_lookup k s xs Hs Hlen Hxs) as Hl. rewrite list_elem_of_In, in_concat. split.
    + intros (y & Hy & Hk). apply list_elem_of_In in Hy, Hk. apply list_elem_of_fmap in Hy as (x & -> & Hx).
      apply order_keys in Hk. apply list_elem_of_lookup in Hx as [j Hj]. rewrite (Hl j x Hj) in Hk.
      destruct (decide _); [done|by destruct Hk].
    + intros Hk. destruct (lookup_lt_is_Some_2 xs (shard_of k)) as [x Hx]; [rewrite Hlen; apply shard_of_bound|].
      exists (order x).*1. specialize (Hl _ x Hx). rewrite decide_True in Hl by done. split; apply list_elem_of_In.
      * apply list_elem_of_fmap. exists x. split; [done|]. by eapply list_elem_of_lookup_2.
      * apply order_keys. by rewrite Hl.
Qed.

Lemma Snapshot_run k s s' a : placed s -> run (leaves k) s (Snapshot m) s' a -> a !! k = contents s !! k.
Proof.
  intros Hs Hrun. apply each_run in Hrun as (_ & xs & Hlen & -> & Hxs).
  pose proof (pass_lookup k s xs Hs Hlen Hxs) as Hl.
  assert (Hf : forall (ys : list items) i (acc : items), (forall j x, ys !! j = Some x -> x !! k = if decide (i + j = shard_of k)%nat then contents s !! k else None) ->
    foldl (fun tmp x => x ∪ tmp) acc ys !! k =
      (if decide (i <= shard_of k < i + length ys)%nat then contents s !! k else None) ∪ acc !! k).
  { clear. induction ys as [|y ys IH]; intros i acc Hys; simpl.
    - rewrite decide_False by lia. by rewrite (left_id_L None union).
    - rewrite (IH (S i)) by (intros j x Hj; rewrite (Hys (S j) x Hj), Nat.add_succ_r; done).
      rewrite lookup_union, (Hys 0%nat y eq_refl), Nat.add_0_r.
      repeat destruct (decide _); try lia; by destruct (contents s !! k), (acc !! k). }
  rewrite (Hf xs 0%nat ∅ Hl), lookup_empty, (right_id_L None union), decide_True; [done|]. rewrite Hlen.
  pose proof (shard_of_bound k). lia.
Qed.

Lemma Clear_run k n : forall i s s' u, placed s -> run (leaves k) s (each_shard (fun _ => ∅) (fun _ _ => tt) n i tt) s' u ->
  contents s' !! k = if decide (i <= shard_of k < i + n)%nat then None else contents s !! k.
Proof.
  induction n as [|n IH]; intros i s s' u Hs Hrun; simpl in Hrun.
  - inversion Hrun; subst. rewrite decide_False by lia. by apply leaves_placed.
  - inversion Hrun as [|? s1 ? x ? ? ? ? Hr Hx Hrest]; subst. destruct (leaves_placed k s s1 Hs Hr) as [H1 Hk].
    assert (Ho : own i ∅) by (intros k' [v Hv]; by rewrite lookup_empty in Hv).
    apply IH in Hrest; [|by apply placed_insert]. rewrite Hrest.
    rewrite contents_insert by (try done; by eapply lookup_lt_Some). rewrite lookup_empty, Hk.
    repeat destruct (decide _); try lia; done.
Qed.

(** *** MSet and Merge *)
Definition pick (batched : list (option items)) i k : option V :=
  if decide (i <= shard_of k)%nat
  then match batched !! (shard_of k - i)%nat with Some (Some b) => b !! k | _ => None end else None.

Lemma pick_cons b rest i k :
  pick (b :: rest) i k = if decide (shard_of k = i) then default ∅ b !! k else pick rest (S i) k.
Proof.
  unfold pick. destruct (decide (shard_of k = i)) as [->|Hne].
  - rewrite decide_True by lia. rewrite Nat.sub_diag. destruct b; simpl; [done|by rewrite lookup_empty].
  - destruct (decide (i <= shard_of k)%nat) as [Hi|Hi]; [|by rewrite decide_False by lia].
    rewrite decide_True by lia. by replace (shard_of k - i)%nat with (S (shard_of k - S i)) by lia.
Qed.

Lemma write_batches_run k batched : forall i s s' u,
  placed s -> (forall j b, batched !! j = Some (Some b) -> own (i + j)%nat b) ->
  run (leaves k) s (write_batches batched i) s' u ->
  contents s' !! k = pick batched i k ∪ contents s !! k.
Proof.
  induction batched as [|b rest IH]; intros i s s' u Hs Hown Hrun; simpl in Hrun.
  - inversion Hrun; subst. unfold pick. rewrite lookup_nil.
    replace (if decide _ then None else None) with (@None V) by (by destruct (decide _)).
    rewrite (left_id_L None union). by apply leaves_placed.
  - rewrite pick_cons. assert (Hrest' : forall j b, rest !! j = Some (Some b) -> own (S i + j)%nat b).
    { intros j b' Hj. rewrite Nat.add_succ_l, <- Nat.add_succ_r. by apply (Hown (S j)). }
    assert (Hlate : shard_of k = i -> pick rest (S i) k = None) by (intros He; unfold pick; by rewrite decide_False by lia).
    destruct b as [b|]; simpl.
    + inversion Hrun as [|? s1 ? x ? ? ? ? Hr Hx Hrest]; subst. destruct (leaves_placed k s s1 Hs Hr) as [H1 Hk].
      assert (Ho : own i (b ∪ x)).
      { apply own_union; [|by apply (placed_own s1)]. rewrite <- (Nat.add_0_r i). by apply (Hown 0%nat). }
      apply IH in Hrest; [|by apply placed_insert|done]. rewrite Hrest.
      rewrite contents_insert by (try done; by eapply lookup_lt_Some). rewrite <- Hk.
      destruct (decide _) as [He|Hne]; [|done]. rewrite (Hlate He), (left_id_L None union), lookup_union. f_equal.
      destruct (placed_shard s1 k H1) as (y & Hy & Hc). congruence.
    + apply IH in Hrun; [|done|done]. rewrite Hrun. destruct (decide _) as [He|Hne]; [|done].
      by rewrite (Hlate He), lookup_empty.
Qed.

Lemma batches_spec l : forall batched,
  length batched = shard_count m -> NoDup l.*1 ->
  (forall j b, batched !! j = Some (Some b) -> own j b) ->
  exists b', batches m l batched = Some b' /\ (forall j b, b' !! j = Some (Some b) -> own j b) /\
    forall k, pick b' 0 k = (list_to_map l : items) !! k ∪ pick batched 0 k.
Proof.
  induction l as [|[k0 v0] l IH]; intros batched Hlen Hnd Hown.
  - exists batched. split_and!; [done|done|]. intros k. simpl. by rewrite lookup_empty, (left_id_L None union).
  - apply NoDup_cons in Hnd as [Hni Hnd]. cbn [batches]. rewrite shardIndex_ok.
    set (f := fun b => Some (<[k0:=v0]> (default ∅ b))).
    destruct (IH (alter f (shard_of k0) batched)) as (b' & Hb & Ho & Hp).
    + by rewrite length_alter.
    + done.
    + intros j b Hj. destruct (decide (j = shard_of k0)) as [->|Hne].
      * rewrite list_lookup_alter_eq in Hj. destruct (batched !! shard_of k0) as [b0|] eqn:E; [|done].
        injection Hj as <-. apply own_insert; [|done]. destruct b0 as [b0|]; simpl; [by apply Hown|].
        intros k [v Hv]. by rewrite lookup_empty in Hv.
      * rewrite list_lookup_alter_ne in Hj by done. by apply Hown.
    + exists b'. split_and!; [done|done|]. intros k. rewrite Hp. simpl. unfold pick. rewrite !Nat.sub_0_r.
      rewrite !decide_True by lia. destruct (decide (k0 = k)) as [<-|Hne].
      * rewrite lookup_insert_eq, list_lookup_alter_eq.
        rewrite not_elem_of_list_to_map_1 by done.
        destruct (lookup_lt_is_Some_2 batched (shard_of k0)) as [b0 E]; [rewrite Hlen; apply shard_of_bound|].
        rewrite E. simpl. rewrite lookup_insert_eq. by destruct b0 as [b0|]; [destruct (b0 !! k0)|].
      * rewrite lookup_insert_ne by done. f_equal. destruct (decide (shard_of k = shard_of k0)) as [He|Hs].
        -- rewrite He, list_lookup_alter_eq. destruct (batched !! shard_of k0) as [b0|] eqn:E; [|done]. simpl.
           rewrite lookup_insert_ne by done. destruct b0; simpl; [done|]. by rewrite lookup_empty.
        -- by rewrite list_lookup_alter_ne by done.
Qed.

Lemma order_map x : NoDup (order x).*1 /\ forall k, (list_to_map (order x) : items) !! k = x !! k.
Proof.
  assert (Hnd : NoDup (order x).*1) by (rewrite order_perm; apply NoDup_fst_map_to_list). split; [done|]. intros k.
  by rewrite (list_to_map_proper (order x) (map_to_list x)), list_to_map_to_list.
Qed.

Lemma MSet_run k data s s' u : placed s -> run (leaves k) s (MSet m order data) s' u ->
  contents s' !! k = (data ∪ contents s) !! k.
Proof.
  intros Hs. unfold MSet. destruct (order_map data) as [Hnd Hmap].
  destruct (batches_spec (order data) (replicate (shard_count m) None)) as (b' & -> & Ho & Hp).
  - apply length_replicate.
  - done.
  - intros j b Hj. by apply lookup_replicate in Hj as [? _].
  - intros Hrun. apply write_batches_run in Hrun; [|done|done]. rewrite Hrun, Hp, Hmap, lookup_union.
    unfold pick. rewrite Nat.sub_0_r, decide_True by lia.
    destruct (replicate (shard_count m) None !! shard_of k) as [o|] eqn:E; [apply lookup_replicate in E as [-> _]|];
      by rewrite (right_id_L None union).
Qed.

Lemma run_bind {A B} other (p : @prog items A) (f : A -> prog B) s s' b :
  run other s (prog_bind p f) s' b -> exists s1 a, run other s p s1 a /\ run other s1 (f a) s' b.
Proof.
  revert s. induction p as [a| |i update next IH]; intros s Hrun; simpl in Hrun.
  - exists s, a. split; [by apply run_ret|done].
  - inversion Hrun.
  - inversion Hrun as [|? s1 ? x ? ? ? ? Hr Hx Hrest]; subst. apply IH in Hrest as (s2 & a & Ha & Hb).
    exists s2, a. split; [by eapply run_crit|done].
Qed.

Lemma merge_run k l : forall s s' u, NoDup l.*1 -> placed s -> run (leaves k) s (merge_list m l) s' u ->
  contents s' !! k = ((list_to_map l : items) ∪ contents s) !! k.
Proof.
  induction l as [|[k0 v0] l IH]; intros s s' u Hnd Hs Hrun.
  - inversion Hrun; subst. simpl. rewrite lookup_union, lookup_empty, (left_id_L None union). by apply leaves_placed.
  - apply NoDup_cons in Hnd as [Hni Hnd]. cbn [merge_list] in Hrun. apply run_bind in Hrun as (s1 & [] & Hset & Hrest).
    unfold Set_, on_shard in Hset. rewrite shardIndex_ok in Hset.
    inversion Hset as [|? s2 ? x ? ? ? ? Hr Hx Hret]; subst. inversion Hret; subst.
    destruct (leaves_placed k s s2 Hs Hr) as [Hp2 Hk]. pose proof (placed_own s2 _ x Hp2 Hx) as Hox.
    assert (Ho : own (shard_of k0) (<[k0:=v0]> x)) by (by apply own_insert).
    pose proof (placed_insert s2 _ _ Hp2 Ho) as Hp3. destruct (leaves_placed k _ s1 Hp3 ltac:(done)) as [Hp4 Hk4].
    apply IH in Hrest; [|done|done]. rewrite Hrest, !lookup_union, Hk4. simpl.
    rewrite contents_insert by (try done; by eapply lookup_lt_Some).
    destruct (placed_shard s2 k Hp2) as (y & Hy & Hc). destruct (decide (k0 = k)) as [<-|Hne].
    + rewrite decide_True by done. rewrite !lookup_insert_eq, not_elem_of_list_to_map_1 by done. by destruct (contents s !! k0).
    + rewrite !lookup_insert_ne by done. destruct (decide _) as [He|]; [|by rewrite Hk]. congruence.
Qed.

(** a method over the whole map is exact for each key that the other
    goroutines leave alone while it runs, although it never holds two locks:
    [Keys] lists such a key exactly when it is there (and no key twice), a
    snapshot has its value, [MSet] and [Merge] write it as a plain map would,
    [Clear] removes it. *)
Theorem whole_map_per_key k s s' :
  placed s ->
  (forall l, run (leaves k) s (Keys m order) s' l -> NoDup l /\ (k ∈ l <-> is_Some (contents s !! k))) /\
  (forall a, run (leaves k) s (Snapshot m) s' a -> a !! k = contents s !! k) /\
  (forall data u, run (leaves k) s (MSet m order data) s' u -> contents s' !! k = (data ∪ contents s) !! k) /\
  (forall tmp u, run (leaves k) s (Merge m order tmp) s' u -> contents s' !! k = (tmp ∪ contents s) !! k) /\
  (forall u, run (leaves k) s (Clear m) s' u -> contents s' !! k = None).
Proof.
  intros Hs. split_and!.
  - intros l. by apply Keys_run.
  - intros a. by apply Snapshot_run.
  - intros data u. by apply MSet_run.
  - intros tmp u Hrun. destruct (order_map tmp) as [Hnd Hmap]. apply merge_run in Hrun; [|done|done].
    by rewrite Hrun, !lookup_union, Hmap.
  - intros u Hrun. apply Clear_run in Hrun; [|done]. rewrite Hrun. pose proof (shard_of_bound k).
    by rewrite decide_True by lia.
Qed.
(** ** Termination *)
Lemma each_completes {A} update (step : A -> items -> A) n : forall i s acc,
  (forall j x, own j x -> own j (update x)) -> placed s -> (i + n <= shard_count m)%nat ->
  completes section s (each_shard update step n i acc).
Proof.
  induction n as [|n IH]; intros i s acc Hup Hs Hn; simpl; [constructor|]. constructor. intros s1 Hr.
  pose proof (section_placed s s1 Hs Hr) as H1. destruct (lookup_lt_is_Some_2 s1 i) as [x Hx]; [rewrite (proj1 H1); lia|].
  exists x. split; [done|]. assert (Ho : own i (update x)) by (by apply Hup, (placed_own s1)).
  split; [by apply section_insert|]. apply IH; [done|by apply placed_insert|lia].
Qed.

Lemma iter_completes {St} (fn : K -> V -> St -> bool * St) n : forall i s st,
  placed s -> (i + n <= shard_count m)%nat -> completes section s (iter_shards order fn n i st).
Proof.
  induction n as [|n IH]; intros i s st Hs Hn; simpl; [constructor|]. constructor. intros s1 Hr.
  pose proof (section_placed s s1 Hs Hr) as H1. destruct (lookup_lt_is_Some_2 s1 i) as [x Hx]; [rewrite (proj1 H1); lia|].
  exists x. split; [done|]. pose proof (placed_own s1 i x H1 Hx) as Ho. split; [by apply section_insert|].
  destruct (iter_items fn (order x) st) as [[] st']; [|constructor]. apply IH; [by apply placed_insert|lia].
Qed.

Lemma write_completes batched : forall i s, placed s -> (i + length batched <= shard_count m)%nat ->
  (forall j b, batched !! j = Some (Some b) -> own (i + j)%nat b) -> completes section s (write_batches batched i).
Proof.
  induction batched as [|b rest IH]; intros i s Hs Hn Hown; simpl in *; [constructor|].
  assert (Hrest : forall j b, rest !! j = Some (Some b) -> own (S i + j)%nat b).
  { intros j b' Hj. rewrite Nat.add_succ_l, <- Nat.add_succ_r. by apply (Hown (S j)). }
  destruct b as [b|]; [|apply IH; [done|lia|done]]. constructor. intros s1 Hr.
  pose proof (section_placed s s1 Hs Hr) as H1. destruct (lookup_lt_is_Some_2 s1 i) as [x Hx]; [rewrite (proj1 H1); lia|].
  exists x. split; [done|]. assert (Ho : own i (b ∪ x)).
  { apply own_union; [|by apply (placed_own s1)]. rewrite <- (Nat.add_0_r i). by apply (Hown 0%nat). }
  split; [by apply section_insert|]. apply IH; [by apply placed_insert|lia|done].
Qed.

Lemma batches_length l : forall batched b', batches m l batched = Some b' -> length b' = length batched.
Proof.
  induction l as [|[k v] l IH]; intros batched b'; cbn [batches]; [by intros [= ->]|].
  rewrite shardIndex_ok. intros Hb. apply IH in Hb. by rewrite Hb, length_alter.
Qed.

Lemma merge_completes l : forall s, placed s -> completes section s (merge_list m l).
Proof.
  induction l as [|[k v] l IH]; intros s Hs; cbn [merge_list]; [constructor|].
  unfold Set_, on_shard. rewrite shardIndex_ok. simpl. constructor. intros s1 Hr.
  pose proof (section_placed s s1 Hs Hr) as H1. destruct (placed_shard s1 k H1) as (x & Hx & _). exists x. split; [done|].
  assert (Ho : own (shard_of k) (<[k:=v]> x)) by (apply own_insert; [by apply (placed_own s1)|done]).
  split; [by apply section_insert|]. apply IH. by apply placed_insert.
Qed.

(** whole-map methods always end without a panic, whatever the other
    goroutines do, and leave every key in its own shard. *)
Theorem whole_map_completes s :
  placed s ->
  completes section s (Count m) /\ completes section s (Keys m order) /\ completes section s (Clear m) /\
  completes section s (Snapshot m) /\ (forall data, completes section s (MSet m order data)) /\
  (forall tmp, completes section s (Merge m order tmp)) /\
  (forall St (fn : K -> V -> St -> bool * St) st, completes section s (IterCb m order fn st)).
Proof.
  intros Hs. split_and!; try (apply each_completes; [unfold keep|done|lia]; by auto).
  - apply each_completes; [|done|lia]. intros j x _ k [v Hv]. by rewrite lookup_empty in Hv.
  - intros data. unfold MSet. destruct (order_map data) as [Hnd _].
    destruct (batches_spec (order data) (replicate (shard_count m) None)) as (b' & Hb & Ho & _).
    + apply length_replicate.
    + done.
    + intros j b Hj. by apply lookup_replicate in Hj as [? _].
    + rewrite Hb. apply batches_length in Hb. rewrite length_replicate in Hb. apply write_completes; [done|lia|done].
  - intros tmp. by apply merge_completes.
  - intros St fn st. apply iter_completes; [done|lia].
Qed.
End Correct.

(** * A concrete map *)
Lemma NewMap_placed `{Countable K} {V} (hash : K -> Z) opts :
  placed (NewMap (V := V) hash opts) (shards (NewMap (V := V) hash opts)).
Proof.
  split; [apply length_replicate|]. intros i x k Hi [v Hv]. apply lookup_replicate in Hi as [-> _].
  by rewrite lookup_empty in Hv.
Qed.

Lemma alone_run {items A} (other : relation (list items)) fuel : forall s (p : prog A) a s',
  alone fuel s p = Some (a, s') -> run other s p s' a.
Proof.
  induction fuel as [|f IH]; intros s p a s' Hp; destruct p as [x| |i update next]; simpl in Hp; try done.
  1,2: injection Hp as <- <-; by apply run_ret.
  destruct (s !! i) as [x|] eqn:E; [|done]. eapply run_crit; [done|exact E|by apply IH].
Qed.

Definition sample_map : Map string Z := NewMap HashString [WithShardCount 4].
Definition sample_order (x : gmap string Z) : list (string * Z) := map_to_list x.
Definition sample_data : gmap string Z := {[ "alpha" := 1; "beta" := 2; "gamma" := 3 ]}.
(** The shards after [MSet] and then [Set_]. *)
Definition sample_shards : list (gmap string Z) :=
  match alone 10 (shards sample_map) (MSet sample_map sample_order sample_data) with Some (_, s) => s | None => [] end.

Example sample_hashes : (HashString "alpha", HashString "beta", HashInt (-1), HashInt64 (-1), HashUint64 (2^64 - 1)) =
  (1569418667, 2944525511, 1640531535, 0, 0).
Proof. vm_compute. reflexivity. Qed.
Example sample_upsert :
  alone 1 sample_shards (Upsert sample_map "beta" (fun o => default 0 o + 40)) =
  Some (42, <[shard_of sample_map "beta" := <["beta" := 42]> (sample_shards !!! shard_of sample_map "beta")]> sample_shards).
Proof. vm_compute. reflexivity. Qed.

Lemma HashInt_spreads_witness : HashInt 7 mod 2^5 <> HashInt 8 mod 2^5.
Proof. intros E. apply (proj2 (HashInt_spreads 7 8 5 ltac:(lia))) in E. discriminate E. Defined.

Lemma sample_placed : placed sample_map (shards sample_map).
Proof. apply NewMap_placed. Qed.
Lemma sample_run : run (leaves sample_map "beta") (shards sample_map) (MSet sample_map sample_order sample_data) sample_shards tt.
Proof. apply (alone_run _ 10). vm_compute. reflexivity. Qed.

Lemma single_key_linearizable_witness :
  completes (section sample_map) (shards sample_map) (method sample_map (CSetIfAbsent "alpha" 1)).
Proof.
  assert (Hn : 0 < shardCount sample_map) by (vm_compute; reflexivity).
  exact (proj1 (single_key_linearizable sample_map Hn (CSetIfAbsent "alpha" 1) _ sample_placed)).
Defined.

Lemma whole_map_per_key_witness : contents sample_shards !! "beta" = Some 2.
Proof.
  assert (Hn : 0 < shardCount sample_map) by (vm_compute; reflexivity).
  assert (Ho : forall x, sample_order x ≡ₚ map_to_list x) by (intros x; reflexivity).
  rewrite (proj1 (proj2 (proj2 (whole_map_per_key sample_map sample_order Ho Hn "beta" _ sample_shards sample_placed)))
    sample_data tt sample_run).
  vm_compute. reflexivity.
Defined.

Lemma whole_map_completes_witness : completes (section sample_map) (shards sample_map) (Clear sample_map).
Proof.
  assert (Hn : 0 < shardCount sample_map) by (vm_compute; reflexivity).
  assert (Ho : forall x, sample_order x ≡ₚ map_to_list x) by (intros x; reflexivity).
  exact (proj1 (proj2 (proj2 (whole_map_completes sample_map sample_order Ho Hn _ sample_placed)))).
Defined.
