(* ===== verification/Tunnel.v ===== *)
(** SSH tunnels of the MCP server: core/mcp/tunnel/manager.go.

    Requests are normalized and reserved under the manager's lock; a worker of
    its own serves each tunnel.  Every region under the lock is one step, the
    worker is a program counter between them, and callers, workers, timers and
    ends of contexts interleave freely.  The runner (the network) may answer
    anything; instants are nanoseconds. *)
From stdpp Require Import pretty.
From S2P Require Export NetIP.
#[local] Open Scope Z_scope.

(** * Addresses *)

(** [strconv.FormatUint(v, 16)]. *)
Definition hex_digit (n : N) : ascii := if (n <? 10)%N then ascii_of_N (48 + n) else ascii_of_N (87 + n).
Fixpoint hex_of (fuel : nat) (n : N) (acc : string) : string :=
  let acc := String (hex_digit (n mod 16)) acc in
  match fuel with
  | O => acc
  | S f => if (n <? 16)%N then acc else hex_of f (n / 16) acc
  end.
Definition hex16 (n : N) : string := hex_of 3 n EmptyString.
Definition dotted (b : list N) : string := join "." (map pretty b).

(** The eight groups of an address. *)
Fixpoint groups (b : list N) : list N :=
  match b with
  | hi :: lo :: rest => (hi * 256 + lo)%N :: groups rest
  | _ => []
  end.
Fixpoint zero_run (l : list N) : nat :=
  match l with x :: r => if (x =? 0)%N then S (zero_run r) else O | [] => O end.
(** The first longest run of at least two zero groups. *)
Fixpoint longest_run (l : list N) (i : nat) (best : nat * nat) : nat * nat :=
  match l with
  | [] => best
  | _ :: r =>
      let n := zero_run l in
      longest_run r (S i) (if (2 <=? n)%nat && (best.2 <? n)%nat then (i, n) else best)
  end.
Definition string6 (b : list N) : string :=
  let g := groups b in
  match longest_run g 0 (0%nat, 0%nat) with
  | (_, O) => join ":" (map hex16 g)
  | (i, n) => join ":" (map hex16 (take i g)) +:+ "::" +:+ join ":" (map hex16 (drop (i + n) g))
  end.
(** [Addr.String] *)
Definition addr_string (a : Addr) : string :=
  match a with
  | Addr4 b => dotted b
  | Addr16 b zone =>
      (if bool_decide (take 12 b = mapped_prefix) then "::ffff:" +:+ dotted (drop 12 b) else string6 b) +:+
      (if str_eq zone "" then "" else "%" +:+ zone)
  end.

(** [strconv.Atoi] of text without a sign or with one. *)
Fixpoint digits_from (s : string) (acc : Z) : option Z :=
  match s with
  | EmptyString => Some acc
  | String c r => if is_digit c then digits_from r (acc * 10 + Z.of_N (byte_code c - 48)) else None
  end.
Definition Atoi (s : string) : option Z :=
  let '(neg, d) := match s with
                   | String c r => if Ascii.eqb c "-" then (true, r) else if Ascii.eqb c "+" then (false, r) else (false, s)
                   | EmptyString => (false, s)
                   end in
  if str_eq d "" then None
  else match digits_from d 0 with
       | None => None
       | Some v => let v := if neg then - v else v in if (- 2^63 <=? v) && (v <? 2^63) then Some v else None
       end.

Fixpoint last_index (c : ascii) (s : string) (i : nat) (found : option nat) : option nat :=
  match s with
  | EmptyString => found
  | String x r => last_index c r (S i) (if Ascii.eqb x c then Some i else found)
  end.
Fixpoint first_index (c : ascii) (s : string) : option nat :=
  match s with
  | EmptyString => None
  | String x r => if Ascii.eqb x c then Some O else option_map S (first_index c r)
  end.
(** The port of [net.SplitHostPort], [None] for a malformed address. *)
Definition split_port (hostport : string) : option string :=
  match last_index ":"%char hostport 0 None with
  | None => None
  | Some i =>
      let port := drop_bytes (S i) hostport in
      match (if has_prefix hostport "["
             then match first_index "]"%char hostport with
                  | None => None
                  | Some e => if (S e =? i)%nat then Some (1%nat, S e) else None
                  end
             else if byte_member ":"%char (take_bytes i hostport) then None else Some (O, O)) with
      | None => None
      | Some (j, k) =>
          if byte_member "["%char (drop_bytes j hostport) || byte_member "]"%char (drop_bytes k hostport)
          then None else Some port
      end
  end.

(** * Requests *)
Record Spec := mkSpec {
  RequestID : string;
  NodeID : string;
  Mode : string;
  ListenHost : string;
  ListenPort : Z;
  TargetHost : string;
  TargetPort : Z;
  TTLSeconds : Z
}.
#[export] Instance Spec_eq_dec : EqDecision Spec.
Proof. solve_decision. Defined.

Definition set_listen (host : string) (s : Spec) : Spec :=
  mkSpec (RequestID s) (NodeID s) (Mode s) host (ListenPort s) (TargetHost s) (TargetPort s) (TTLSeconds s).
Definition set_port (port : Z) (s : Spec) : Spec :=
  mkSpec (RequestID s) (NodeID s) (Mode s) (ListenHost s) port (TargetHost s) (TargetPort s) (TTLSeconds s).
Definition set_ttl (ttl : Z) (s : Spec) : Spec :=
  mkSpec (RequestID s) (NodeID s) (Mode s) (ListenHost s) (ListenPort s) (TargetHost s) (TargetPort s) ttl.

Inductive err :=
  | ERequestID | ENodeID | ETargetHost | EMode | EListenHost | EPorts | ETTL
  | EStopped | EExpired | EStartupCancelled | EDeadline | ECanceled
  | EConflict | EClosed | ECapacity | ERandom | ERunner | ENotFound | EUnavailable
  | EStartupTimeout | EExited | EText (msg : string).
#[export] Instance err_eq_dec : EqDecision err.
Proof. solve_decision. Defined.

(** [strings.IndexFunc(s, f) >= 0]; [skip] bytes of a rune remain. *)
Fixpoint exists_rune (f : N -> bool) (skip : nat) (s : string) : bool :=
  match s with
  | EmptyString => false
  | String _ r =>
      match skip with
      | S k => exists_rune f k r
      | O => let '(x, w) := decode_rune s in f x || exists_rune f (w - 1) r
      end
  end.
Definition is_control (r : N) : bool := (r <? 32)%N || ((127 <=? r)%N && (r <? 160)%N).

Definition validateNames (s : Spec) : result err unit :=
  reject str_eq (RequestID s) "" || (128 <? len (RequestID s)) || negb (str_eq (trim_space (RequestID s)) (RequestID s)) ||
         exists_rune is_control 0 (RequestID s) with ERequestID;;
  reject str_eq (NodeID s) "" || (1024 <? len (NodeID s)) || exists_rune is_control 0 (NodeID s) with ENodeID;;
  Ok tt.

Definition validateTargetHost (host : string) : result err unit :=
  reject str_eq host "" || (253 <? len host) || exists_rune (fun r => is_control r || rune_is_space r) 0 host ||
         contains_any host "/\[]" with ETargetHost;;
  if contains host ":" then reject bool_decide (ParseAddr host = None) with ETargetHost;; Ok tt else Ok tt.

Definition hour : Z := 3600.
Definition normalizeEndpoints (s : Spec) : result err Spec :=
  reject negb (str_eq (Mode s) "local") && negb (str_eq (Mode s) "remote") with EMode;;
  let s := if str_eq (ListenHost s) "" || str_eq (ListenHost s) "localhost" then set_listen "127.0.0.1" s else s in
  match ParseAddr (ListenHost s) with
  | None => Err EListenHost
  | Some addr =>
      let s := set_listen (addr_string addr) s in
      reject (ListenPort s <? 0) || (65535 <? ListenPort s) || (TargetPort s <? 1) || (65535 <? TargetPort s) with EPorts;;
      let s := if TTLSeconds s =? 0 then set_ttl hour s else s in
      reject (TTLSeconds s <? 1) || (24 * hour <? TTLSeconds s) with ETTL;;
      Ok s
  end.

Definition Normalize (s : Spec) : result err Spec :=
  try _ := validateNames s;;
  try _ := validateTargetHost (TargetHost s);;
  normalizeEndpoints s.

Example addr_strings :
  map (fun s => option_map addr_string (ParseAddr s))
    ["127.0.0.1"; "::1"; "::"; "0:0:1:0:0:0:0:1"; "2001:DB8::0:1"; "::ffff:1.2.3.4"; "1:0:2:0:3:0:4:0"; "fe80::1%eth0"]
  = map Some ["127.0.0.1"; "::1"; "::"; "0:0:1::1"; "2001:db8::1"; "::ffff:1.2.3.4"; "1:0:2:0:3:0:4:0"; "fe80::1%eth0"].
Proof. vm_compute. reflexivity. Qed.
Example split_ports : map split_port ["127.0.0.1:80"; "[::1]:22"; "::1:22"; "host"; "[::1]x:1"; ":9"] =
  [Some "80"; Some "22"; None; None; None; Some "9"].
Proof. vm_compute. reflexivity. Qed.

(** * The manager *)
Definition MaxActive : Z := 16.
Definition MaxRecords : Z := 1024.
Definition nanos : Z := 1000000000.
Definition Retention : Z := 24 * hour * nanos.

Inductive tunnel_state := Starting | Running | Stopping | Stopped | Expired | Failed.
#[export] Instance tunnel_state_eq_dec : EqDecision tunnel_state.
Proof. solve_decision. Defined.

(** [Status]; an error is the list of the errors joined in it. *)
Record Status := mkStatus {
  st_spec : Spec;
  TunnelID : string;
  OperationID : string;
  st_state : tunnel_state;
  ListenAddress : string;
  ListenScope : string;
  TargetScope : string;
  CreatedAt : Z;
  ExpiresAt : option Z;
  FinishedAt : option Z;
  st_error : list err;
  LastConnectionError : list err;
  AuditError : list err;
  RemoteRelease : string
}.
Definition set_state (v : tunnel_state) (s : Status) : Status :=
  mkStatus (st_spec s) (TunnelID s) (OperationID s) v (ListenAddress s) (ListenScope s) (TargetScope s) (CreatedAt s)
    (ExpiresAt s) (FinishedAt s) (st_error s) (LastConnectionError s) (AuditError s) (RemoteRelease s).
Definition set_running (spec : Spec) (address : string) (expires : Z) (s : Status) : Status :=
  mkStatus spec (TunnelID s) (OperationID s) Running address (ListenScope s) (TargetScope s) (CreatedAt s)
    (Some expires) (FinishedAt s) (st_error s) (LastConnectionError s) (AuditError s) (RemoteRelease s).
Definition set_finished (v : tunnel_state) (e : list err) (now : Z) (release : string) (s : Status) : Status :=
  mkStatus (st_spec s) (TunnelID s) (OperationID s) v (ListenAddress s) (ListenScope s) (TargetScope s) (CreatedAt s)
    (ExpiresAt s) (Some now) e (LastConnectionError s) (AuditError s) release.
Definition set_connection_error (e : list err) (s : Status) : Status :=
  mkStatus (st_spec s) (TunnelID s) (OperationID s) (st_state s) (ListenAddress s) (ListenScope s) (TargetScope s)
    (CreatedAt s) (ExpiresAt s) (FinishedAt s) (st_error s) e (AuditError s) (RemoteRelease s).
Definition set_audit_error (e : list err) (s : Status) : Status :=
  mkStatus (st_spec s) (TunnelID s) (OperationID s) (st_state s) (ListenAddress s) (ListenScope s) (TargetScope s)
    (CreatedAt s) (ExpiresAt s) (FinishedAt s) (st_error s) (LastConnectionError s) e (RemoteRelease s).

(** Where the worker of a task is: before its first check, before the audit of
    the start, in the runner, in its [ready] after the commit, in the runner after
    that, before [finish], before the audit of the end, before and after the
    channel [ready] is closed. *)
Inductive pc := PStart | PObserve | PRun | PReady | PServe | PFinish (e : list err) | PRecord (e : list err) | PClose | PEnd | PDone.

Section Manager.
Context {Runner : Type}.

(** [t_ctx] is the cause of its end, [t_request] the error of the request's context. *)
Record task := mkTask {
  t_runner : Runner;
  t_status : Status;
  t_orig : Spec;
  t_ctx : option (list err);
  t_request : option err;
  t_ready : bool;
  t_runErr : list err;
  t_pc : pc
}.
Definition t_done (t : task) : bool := match t_pc t with PDone => true | _ => false end.
Definition finished (t : task) : bool := match FinishedAt (t_status t) with Some _ => true | None => false end.

Record Manager := mkManager {
  m_ctx : option (list err);
  m_run : option Runner;
  m_tasks : gmap string task;
  m_requests : gmap string string;
  m_closed : bool
}.
Definition New (run : option Runner) : Manager := mkManager None run ∅ ∅ false.
Definition set_tasks (v : gmap string task) (m : Manager) : Manager :=
  mkManager (m_ctx m) (m_run m) v (m_requests m) (m_closed m).
Definition update (id : string) (f : task -> task) (m : Manager) : Manager := set_tasks (alter f id (m_tasks m)) m.

Definition with_status (f : Status -> Status) (t : task) : task :=
  mkTask (t_runner t) (f (t_status t)) (t_orig t) (t_ctx t) (t_request t) (t_ready t) (t_runErr t) (t_pc t).
Definition with_pc (p : pc) (t : task) : task :=
  mkTask (t_runner t) (t_status t) (t_orig t) (t_ctx t) (t_request t) (t_ready t) (t_runErr t) p.
(** [t.cancel(cause)]: only the first cause counts. *)
Definition cancel (cause : list err) (t : task) : task :=
  mkTask (t_runner t) (t_status t) (t_orig t) (Some (default cause (t_ctx t))) (t_request t) (t_ready t) (t_runErr t) (t_pc t).
Definition close_ready (t : task) : task :=
  mkTask (t_runner t) (t_status t) (t_orig t) (t_ctx t) (t_request t) true (t_runErr t) (t_pc t).
Definition with_run_error (e : list err) (t : task) : task :=
  mkTask (t_runner t) (t_status t) (t_orig t) (t_ctx t) (t_request t) (t_ready t) e (t_pc t).
Definition with_request (e : option err) (t : task) : task :=
  mkTask (t_runner t) (t_status t) (t_orig t) (t_ctx t) e (t_ready t) (t_runErr t) (t_pc t).

(** ** Requests *)
Definition retryLocked (s : Spec) (m : Manager) : result err (option string) :=
  match m_requests m !! RequestID s with
  | None => Ok None
  | Some id =>
      match m_tasks m !! id with
      | None => Err EUnavailable
      | Some t =>
          reject negb (bool_decide (t_orig t = s)) && negb (bool_decide (st_spec (t_status t) = s)) with EConflict;;
          Ok (Some id)
      end
  end.

(** Finished before the retention began. *)
Definition outdated (now : Z) (t : task) : bool :=
  match FinishedAt (t_status t) with Some f => f <? now - Retention | None => false end.
Definition prune_one (now : Z) (m : Manager) (entry : string * task) : Manager :=
  let '(id, t) := entry in
  if outdated now t
  then mkManager (m_ctx m) (m_run m) (delete id (m_tasks m)) (delete (RequestID (st_spec (t_status t))) (m_requests m)) (m_closed m)
  else m.
Definition pruneLocked (now : Z) (m : Manager) : Manager := foldl (prune_one now) m (map_to_list (m_tasks m)).

Definition Retry (now : Z) (s : Spec) (m : Manager) : result err (option Status) * Manager :=
  match Normalize s with
  | Err e => (Err e, m)
  | Ok s =>
      let m := pruneLocked now m in
      (result_bind (fun found => Ok (match found with Some id => t_status <$> m_tasks m !! id | None => None end))
         (retryLocked s m), m)
  end.

Definition unfinished (m : Manager) : Z :=
  Z.of_nat (size (filter (fun entry => finished entry.2 = false) (m_tasks m))).

Definition new_task (now : Z) (request : option err) (s : Spec) (operationID : string) (runner : Runner) (id : string)
    (parent : option (list err)) : task :=
  let '(scope, targetScope) := if str_eq (Mode s) "remote" then ("ssh_node", "mcp_process") else ("mcp_process", "ssh_node") in
  mkTask runner (mkStatus s id operationID Starting "" scope targetScope now None None [] [] [] "") s parent request false [] PStart.

(** [fresh] is a new random identity, [None] when there is no randomness. *)
Definition reserveLocked (now : Z) (request : option err) (s : Spec) (operationID : string) (runner : option Runner)
    (fresh : option string) (m : Manager) : result err string * Manager :=
  if m_closed m || negb (bool_decide (m_ctx m = None)) then (Err EClosed, m)
  else match retryLocked s m with
       | Err e => (Err e, m)
       | Ok (Some id) => (Ok id, m)
       | Ok None =>
           if (MaxActive <=? unfinished m) || (MaxRecords <=? Z.of_nat (size (m_tasks m))) then (Err ECapacity, m)
           else match fresh with
                | None => (Err ERandom, m)
                | Some id =>
                    match (match runner with Some r => Some r | None => m_run m end) with
                    | None => (Err ERunner, m)
                    | Some r =>
                        (Ok id, mkManager (m_ctx m) (m_run m)
                                  (<[id := new_task now request s operationID r id (m_ctx m)]> (m_tasks m))
                                  (<[RequestID s := id]> (m_requests m)) (m_closed m))
                    end
                end
       end.

(** [CreateWithRunner] up to its wait, for the task it then waits for. *)
Definition CreateWithRunner (now : Z) (request : option err) (s : Spec) (operationID : string) (runner : option Runner)
    (fresh : option string) (m : Manager) : result err string * Manager :=
  match request with
  | Some e => (Err e, m)
  | None =>
      match Normalize s with
      | Err e => (Err e, m)
      | Ok s => reserveLocked now request s operationID runner fresh (pruneLocked now m)
      end
  end.

Definition Status_of (now : Z) (id : string) (m : Manager) : result err Status * Manager :=
  let m := pruneLocked now m in
  (match m_tasks m !! id with Some t => Ok (t_status t) | None => Err ENotFound end, m).

(** The wait of [CreateWithRunner]: [None] while it has to go on. *)
Definition create_wait (now : Z) (ctx : option err) (id : string) (m : Manager) : option (result err Status * Manager) :=
  if match m_tasks m !! id with Some t => t_ready t | None => false end then Some (Status_of now id m)
  else match ctx with Some e => Some (Err e, m) | None => None end.

Definition matches_filter (nodeID : string) (state : option tunnel_state) (t : task) : bool :=
  (str_eq nodeID "" || str_eq nodeID (NodeID (st_spec (t_status t)))) &&
  match state with None => true | Some s => bool_decide (s = st_state (t_status t)) end.
(** [List], before it is sorted by identity. *)
Definition List_ (now : Z) (nodeID : string) (state : option tunnel_state) (m : Manager) : list Status * Manager :=
  let m := pruneLocked now m in
  (t_status <$> List.filter (matches_filter nodeID state) ((map_to_list (m_tasks m)).*2), m).

(** ** The worker *)
Definition abortStartup (cause : list err) (t : task) : task :=
  if bool_decide (st_state (t_status t) = Starting) then cancel cause t else t.

Definition request_errors (t : task) : list err := EStartupCancelled :: match t_request t with Some e => [e] | None => [] end.

(** [serve] up to the audit of the start. *)
Definition serve_begin (t : task) : task :=
  with_pc PObserve (if t_request t then abortStartup (request_errors t) t else t).
Definition serve_observed (audit : list err) (t : task) : task :=
  with_pc (match audit with [] => PRun | _ => PFinish audit end) t.

(** The locked region of [ready], and whether it committed. *)
Definition ready_region (now : Z) (address : string) (t : task) : bool * task :=
  if negb (bool_decide (t_ctx t = None)) || negb (bool_decide (t_request t = None)) ||
     negb (bool_decide (st_state (t_status t) = Starting))
  then (false, if t_request t then cancel (request_errors t) t else t)
  else
    let spec := st_spec (t_status t) in
    let spec := match split_port address with
                | Some port => match Atoi port with Some p => if 0 <? p then set_port p spec else spec | None => spec end
                | None => spec
                end in
    (true, with_pc PReady (with_status (set_running spec address (now + TTLSeconds spec * nanos)) t)).
(** The rest of [ready] after it committed. *)
Definition ready_audit (audit : list err) (t : task) : task :=
  with_pc PServe (close_ready (match audit with [] => t | _ => with_status (set_audit_error audit) t end)).
Definition report (e : list err) (t : task) : task :=
  match e with [] => t | _ => with_status (set_connection_error e) t end.
Definition run_return (e : list err) (t : task) : task := with_pc (PFinish e) t.

(** The state and the error that [finish] gives. *)
Definition outcome (cause : option (list err)) (e : list err) : tunnel_state * list err :=
  let '(state, e) :=
    match cause with
    | None => (Failed, e)
    | Some c =>
        if bool_decide (EDeadline ∈ c) then (Failed, EStartupTimeout :: e)
        else if bool_decide (EStartupCancelled ∈ c) then (Failed, c ++ e)
        else if negb (bool_decide (e = [])) then (Failed, e)
        else if bool_decide (EExpired ∈ c) then (Expired, e)
        else (Stopped, e)
    end in
  (state, if bool_decide (cause = None) && bool_decide (e = []) then [EExited] else e).

Definition finish (now : Z) (e : list err) (t : task) : task :=
  let t := if t_ctx t then with_run_error e t else t in
  let '(state, e') := outcome (t_ctx t) e in
  let release := if str_eq (Mode (st_spec (t_status t))) "remote" then "unconfirmed" else RemoteRelease (t_status t) in
  with_pc (PRecord e') (with_status (set_finished state e' now release) t).
Definition finish_audit (audit : list err) (t : task) : task :=
  with_pc PClose (match audit with [] => t | _ => with_status (set_audit_error audit) t end).
Definition serve_ready (t : task) : task := with_pc PEnd (close_ready t).
(** The deferred calls of [serve]. *)
Definition serve_end (t : task) : task := with_pc PDone (cancel [EStopped] t).

(** ** Ending tunnels *)
Definition stop_task (t : task) : task :=
  if finished t then t else cancel [EStopped] (with_status (set_state Stopping) t).
Definition Stop (id : string) (m : Manager) : result err unit * Manager :=
  match m_tasks m !! id with
  | None => (Err ENotFound, m)
  | Some _ => (Ok tt, update id stop_task m)
  end.
(** Its wait for the worker. *)
Definition stop_wait (now : Z) (ctx : option err) (id : string) (m : Manager) : option (result err Status * Manager) :=
  if match m_tasks m !! id with Some t => t_done t | None => false end then Some (Status_of now id m)
  else match ctx with Some e => Some (Err e, m) | None => None end.

(** The end of the manager's context ends the contexts of its tasks. *)
Definition end_context (cause : list err) (m : Manager) : Manager :=
  mkManager (Some (default cause (m_ctx m))) (m_run m) (cancel (default cause (m_ctx m)) <$> m_tasks m) (m_requests m) (m_closed m).
(** [Shutdown] up to its joins; the tasks that it joins are those of this state. *)
Definition Shutdown (m : Manager) : Manager :=
  let m := end_context [ECanceled] m in
  mkManager (m_ctx m) (m_run m) (m_tasks m) (m_requests m) true.
(** The joins of the workers, on their tasks as they are now: [None] while one of
    them runs and the context of the call lives. *)
Definition shutdown_wait (ctx : option err) (tasks : list task) : option (list err) :=
  if forallb t_done tasks then Some (concat (t_runErr <$> tasks))
  else match ctx with Some e => Some [e] | None => None end.

(** * Interleavings *)

(** One step of the worker at its program counter; its runner and the audit
    answer anything, and the runner calls [ready] until one call commits. *)
Inductive worker_step (now : Z) (t : task) : task -> Prop :=
  | ws_begin : t_pc t = PStart -> worker_step now t (serve_begin t)
  | ws_observed audit : t_pc t = PObserve -> worker_step now t (serve_observed audit t)
  | ws_ready address : t_pc t = PRun -> worker_step now t (ready_region now address t).2
  | ws_ready_audit audit : t_pc t = PReady -> worker_step now t (ready_audit audit t)
  | ws_report e : t_pc t = PRun \/ t_pc t = PServe -> worker_step now t (report e t)
  | ws_return e : t_pc t = PRun \/ t_pc t = PServe -> worker_step now t (run_return e t)
  | ws_finish e : t_pc t = PFinish e -> worker_step now t (finish now e t)
  | ws_finish_audit e audit : t_pc t = PRecord e -> worker_step now t (finish_audit audit t)
  | ws_close : t_pc t = PClose -> worker_step now t (serve_ready t)
  | ws_end : t_pc t = PEnd -> worker_step now t (serve_end t).

(** What else happens to a task: its request ends and tells the startup so, the
    startup takes too long, the tunnel expires, somebody stops it. *)
Inductive event_step (now : Z) (t : task) : task -> Prop :=
  | es_request e : e = ECanceled \/ e = EDeadline -> t_request t = None -> event_step now t (with_request (Some e) t)
  | es_abort : is_Some (t_request t) -> event_step now t (abortStartup (request_errors t) t)
  | es_timeout : event_step now t (abortStartup [EDeadline] t)
  | es_expire x : ExpiresAt (t_status t) = Some x -> x <= now -> event_step now t (cancel [EExpired] t)
  | es_stop : event_step now t (stop_task t).

(** Calls, workers, events and the end of the service, in any order. *)
Inductive tunnel_step (m : Manager) : Manager -> Prop :=
  | tl_create now request s operationID runner fresh : (forall id, fresh = Some id -> m_tasks m !! id = None) ->
      tunnel_step m (CreateWithRunner now request s operationID runner fresh m).2
  | tl_retry now s : tunnel_step m (Retry now s m).2
  | tl_status now id : tunnel_step m (Status_of now id m).2
  | tl_list now nodeID state : tunnel_step m (List_ now nodeID state m).2
  | tl_stop id : tunnel_step m (Stop id m).2
  | tl_worker now id t t' : m_tasks m !! id = Some t -> worker_step now t t' -> tunnel_step m (set_tasks (<[id := t']> (m_tasks m)) m)
  | tl_event now id t t' : m_tasks m !! id = Some t -> event_step now t t' -> tunnel_step m (set_tasks (<[id := t']> (m_tasks m)) m)
  | tl_end cause : EStartupCancelled ∉ cause -> EExpired ∉ cause -> tunnel_step m (end_context cause m)
  | tl_shutdown : tunnel_step m (Shutdown m).
Definition tunnel_init (m : Manager) : Prop := exists run, m = New run.
Definition tunnel_reachable (m : Manager) : Prop := reachable tunnel_init tunnel_step m.
End Manager.
Arguments task Runner : clear implicits.
Arguments Manager Runner : clear implicits.

(** * The invariant *)
Definition final (s : tunnel_state) : bool := match s with Stopped | Expired | Failed => true | _ => false end.
(** The state machine of a tunnel. *)
Definition next_state (a b : tunnel_state) : bool :=
  bool_decide (a = b) ||
  match a, b with
  | Starting, (Running | Stopping) | Running, Stopping => true
  | (Starting | Running | Stopping), b => final b
  | _, _ => false
  end.

Section Invariant.
Context {Runner : Type}.
Notation task := (task Runner).
Notation Manager := (Manager Runner).
Implicit Types (t : task) (m : Manager).

(** Where the worker may be in each state of the tunnel. *)
Definition pc_state (p : pc) (s : tunnel_state) (done : bool) : Prop :=
  match p with
  | PStart | PObserve | PRun => (s = Starting \/ s = Stopping) /\ done = false
  | PReady | PServe => (s = Running \/ s = Stopping) /\ done = false
  | PFinish _ => (s = Starting \/ s = Running \/ s = Stopping) /\ done = false
  | PRecord _ | PClose | PEnd | PDone => final s = true /\ done = true
  end.

(** [service] is how the manager's context ended. *)
Record task_inv (service : option (list err)) (id : string) t : Prop := {
  ti_id : TunnelID (t_status t) = id;
  ti_request : RequestID (st_spec (t_status t)) = RequestID (t_orig t);
  ti_pc : pc_state (t_pc t) (st_state (t_status t)) (finished t);
  ti_ready : t_ready t = true -> st_state (t_status t) <> Starting;
  ti_starting : st_state (t_status t) = Starting -> ExpiresAt (t_status t) = None;
  ti_running : st_state (t_status t) = Running -> t_ctx t = None \/ t_ctx t = Some [EExpired] \/ (is_Some service /\ t_ctx t = service);
  ti_service : is_Some service -> is_Some (t_ctx t);
  ti_stopping : st_state (t_status t) = Stopping -> is_Some (t_ctx t);
  ti_stopped : st_state (t_status t) = Stopped -> is_Some (t_ctx t) /\ st_error (t_status t) = [];
  ti_expired : st_state (t_status t) = Expired -> (exists c, t_ctx t = Some c /\ EExpired ∈ c) /\ st_error (t_status t) = [];
  ti_failed : st_state (t_status t) = Failed -> st_error (t_status t) <> [];
  ti_released : t_pc t = PEnd \/ t_pc t = PDone -> t_ready t = true
}.

(** What no step changes in a task. *)
Record same_tunnel t t' : Prop := {
  sa_runner : t_runner t' = t_runner t;
  sa_orig : t_orig t' = t_orig t;
  sa_id : TunnelID (t_status t') = TunnelID (t_status t);
  sa_operation : OperationID (t_status t') = OperationID (t_status t);
  sa_created : CreatedAt (t_status t') = CreatedAt (t_status t);
  sa_state : next_state (st_state (t_status t)) (st_state (t_status t')) = true;
  sa_ready : t_ready t = true -> t_ready t' = true;
  sa_cause : is_Some (t_ctx t) -> t_ctx t' = t_ctx t;
  sa_finished : finished t = true -> FinishedAt (t_status t') = FinishedAt (t_status t) /\
    st_state (t_status t') = st_state (t_status t) /\ st_error (t_status t') = st_error (t_status t)
}.

Lemma next_refl s : next_state s s = true.
Proof. unfold next_state. by rewrite bool_decide_eq_true_2. Qed.

Lemma same_refl t : same_tunnel t t.
Proof. split; try done. apply next_refl. Qed.

Lemma cancel_same c t : same_tunnel t (cancel c t).
Proof. split; try done; simpl; [apply next_refl|]. by intros [x ->]. Qed.

Lemma cancel_inv service id c t :
  task_inv service id t ->
  (st_state (t_status t) = Running -> t_ctx t = None -> c = [EExpired] \/ service = Some c) ->
  (st_state (t_status t) = Expired -> is_Some (t_ctx t)) ->
  task_inv service id (cancel c t).
Proof.
  intros [] Hrun Hexp. split; simpl; try done.
  - intros Hs. destruct (ti_running0 Hs) as [E|[E|[E1 E2]]].
    + rewrite E. simpl. destruct (Hrun Hs E) as [->| ->]; right; [by left|right; by split].
    + rewrite E. simpl. by right; left.
    + right. right. split; [done|]. destruct E1 as [x Ex]. rewrite E2, Ex. done.
  - intros Hs. split; [eauto|by apply ti_stopped0].
  - intros Hs. destruct (ti_expired0 Hs) as [(x & Hx & Hin) He]. rewrite Hx. simpl. eauto.
Qed.

Lemma abort_inv service id c t : task_inv service id t -> task_inv service id (abortStartup c t).
Proof.
  intros I. unfold abortStartup. case_bool_decide as Hs; [|done]. apply cancel_inv; [done|congruence|congruence].
Qed.
Lemma abort_same c t : same_tunnel t (abortStartup c t).
Proof. unfold abortStartup. case_bool_decide; [apply cancel_same|apply same_refl]. Qed.

Lemma outcome_final cause e : final (outcome cause e).1 = true.
Proof. unfold outcome. repeat case_match; simplify_eq; try done; repeat case_bool_decide; simplify_eq; done. Qed.

Lemma outcome_spec cause e :
  let '(s, e') := outcome cause e in
  (s = Stopped -> is_Some cause /\ e' = []) /\
  (s = Expired -> (exists c, cause = Some c /\ EExpired ∈ c) /\ e' = []) /\
  (s = Failed -> e' <> []).
Proof.
  unfold outcome. destruct cause as [c|].
  2: { rewrite bool_decide_eq_true_2 by done. case_bool_decide; simpl; split_and!; done. }
  rewrite (bool_decide_eq_false_2 (Some c = None)) by done. simpl.
  repeat case_bool_decide; simpl; split_and!; try done; eauto.
  intros _ E. apply app_nil in E as [-> _]. by apply not_elem_of_nil in H0.
Qed.

Lemma unfinished_state service id t : task_inv service id t -> finished t = final (st_state (t_status t)).
Proof.
  intros [_ _ Hpc _ _ _ _ _ _ _ _ _]. unfold pc_state in Hpc.
  destruct (t_pc t); destruct Hpc as [Hs ->]; try (destruct Hs as [->|[->| ->]]; done); try (destruct Hs as [->| ->]; done); done.
Qed.

Lemma ready_region_inv service id now address t :
  task_inv service id t -> t_pc t = PRun -> task_inv service id (ready_region now address t).2.
Proof.
  intros I Hp. unfold ready_region. destruct (_ || _) eqn:E; simpl.
  - destruct (t_request t); [|done]. apply cancel_inv; [done| |].
    + intros Hs. pose proof (ti_pc _ _ _ I) as Hpc. rewrite Hp in Hpc. destruct Hpc as [[?|?] _]; congruence.
    + intros Hs. pose proof (ti_pc _ _ _ I) as Hpc. rewrite Hp in Hpc. destruct Hpc as [[?|?] _]; congruence.
  - bool_facts. destruct I. split; simpl; try done; try (intros [?|?]; done).
    + repeat case_match; done.
    + rewrite Hp in ti_pc0. split; [by left|]. by destruct ti_pc0.
    + by left.
Qed.

Lemma finish_inv service id now e t : task_inv service id t -> t_pc t = PFinish e -> task_inv service id (finish now e t).
Proof.
  intros I Hp. unfold finish. set (t1 := if t_ctx t then with_run_error e t else t).
  assert (E : t_status t1 = t_status t /\ t_ctx t1 = t_ctx t /\ t_orig t1 = t_orig t) by (subst t1; destruct (t_ctx t) eqn:Ec; simpl; rewrite ?Ec; done).
  destruct E as (E1 & E2 & E3). pose proof (outcome_final (t_ctx t1) e) as Hf. pose proof (outcome_spec (t_ctx t1) e) as Ho.
  destruct (outcome (t_ctx t1) e) as [s e']. simpl in Hf. destruct Ho as (Hst & Hex & Hfa). rewrite E2 in Hst, Hex.
  destruct I. split; simpl; rewrite ?E1, ?E2, ?E3; try done; try (intros ->; done); try (by intros ? ->); by intros [?|?].
Qed.

Lemma audit_inv service id (audit : list err) t :
  task_inv service id t -> task_inv service id (match audit with [] => t | _ => with_status (set_audit_error audit) t end).
Proof. intros []. by destruct audit. Qed.

Lemma worker_inv service id now t t' : task_inv service id t -> worker_step now t t' -> task_inv service id t'.
Proof.
  intros I H. destruct H as [Hp|audit Hp|address Hp|audit Hp|e Hp|e Hp|e Hp|e audit Hp|Hp|Hp].
  - assert (I' : task_inv service id (if t_request t then abortStartup (request_errors t) t else t))
      by (destruct (t_request t); [by apply abort_inv|done]).
    assert (E : t_pc (if t_request t then abortStartup (request_errors t) t else t) = PStart)
      by (unfold abortStartup; destruct (t_request t); [case_bool_decide|]; done).
    unfold serve_begin. destruct I'. rewrite E in ti_pc0. by split; simpl; try done; intros [?|?].
  - unfold serve_observed. destruct I. rewrite Hp in ti_pc0.
    destruct audit; split; simpl; try done; try (intros [?|?]; done); by destruct ti_pc0 as [[?|?] ?]; split; auto.
  - by apply ready_region_inv.
  - unfold ready_audit. apply (audit_inv _ _ audit) in I. set (t1 := match audit with [] => t | _ => _ end) in *.
    assert (E : t_pc t1 = PReady) by (subst t1; by destruct audit). destruct I. rewrite E in ti_pc0. split; simpl; try done; try (intros [?|?]; done).
    intros _ Hs. rewrite Hs in ti_pc0. by destruct ti_pc0 as [[?|?] _].
  - unfold report. destruct e; [done|]. by destruct I.
  - unfold run_return. destruct I. split; simpl; try done; try (intros [?|?]; done). destruct Hp as [Hp|Hp]; rewrite Hp in ti_pc0;
      destruct ti_pc0 as [[?|?] ?]; split; auto.
  - by apply finish_inv.
  - unfold finish_audit. apply (audit_inv _ _ audit) in I. set (t1 := match audit with [] => t | _ => _ end) in *.
    assert (E : t_pc t1 = PRecord e) by (subst t1; by destruct audit). destruct I. rewrite E in ti_pc0. by split; simpl; try done; intros [?|?].
  - unfold serve_ready. destruct I. rewrite Hp in ti_pc0. split; simpl; try done; try (intros [?|?]; done). intros _ Hs. rewrite Hs in ti_pc0. by destruct ti_pc0.
  - assert (Hs : final (st_state (t_status t)) = true) by (pose proof (ti_pc _ _ _ I) as Hpc; rewrite Hp in Hpc; by destruct Hpc).
    assert (I' : task_inv service id (cancel [EStopped] t)).
    { apply cancel_inv; [done| |]; intros Hs'; [by rewrite Hs' in Hs|]. destruct (ti_expired _ _ _ I Hs') as [(c & Hc & _) _]. by exists c. }
    unfold serve_end. destruct I'. simpl in *. rewrite Hp in ti_pc0, ti_released0. split; simpl; try done. intros _. apply ti_released0. by left.
Qed.

Lemma event_inv service id now t t' : task_inv service id t -> event_step now t t' -> task_inv service id t'.
Proof.
  intros I H. destruct H as [e He Hr|Hr| |x Hx Hle|].
  - by destruct I.
  - by apply abort_inv.
  - by apply abort_inv.
  - apply cancel_inv; [done|by left|]. intros Hs. destruct (ti_expired _ _ _ I Hs) as [(c & Hc & _) _]. by exists c.
  - unfold stop_task. pose proof (unfinished_state _ _ _ I) as Hf. destruct (finished t) eqn:E; [done|].
    destruct I. split; simpl; try done; try (intros [?|?]; done); eauto. unfold pc_state in *. rewrite E in ti_pc0.
    replace (finished (with_status (set_state Stopping) t)) with false by done.
    destruct (t_pc t); destruct ti_pc0; try done; auto.
Qed.

(** ** What stays the same *)
Lemma with_pc_same p t : same_tunnel t (with_pc p t).
Proof. split; try done. apply next_refl. Qed.

Lemma same_trans_pc t t' p : same_tunnel t t' -> same_tunnel t (with_pc p t').
Proof. intros []. by split. Qed.

Lemma audit_same (audit : list err) t : same_tunnel t (match audit with [] => t | _ => with_status (set_audit_error audit) t end).
Proof. destruct audit; split; try done; apply next_refl. Qed.

Lemma close_same t t' : same_tunnel t t' -> same_tunnel t (close_ready t').
Proof. intros []. by split. Qed.

Lemma to_final s s' : final s = false -> final s' = true -> next_state s s' = true.
Proof. destruct s, s'; done. Qed.

Lemma finish_same service id now e t : task_inv service id t -> t_pc t = PFinish e -> same_tunnel t (finish now e t).
Proof.
  intros I Hp. pose proof (unfinished_state _ _ _ I) as Hf. pose proof (ti_pc _ _ _ I) as Hpc. rewrite Hp in Hpc.
  destruct Hpc as [Hs Hfin]. rewrite Hfin in Hf. unfold finish. set (t1 := if t_ctx t then with_run_error e t else t).
  pose proof (outcome_final (t_ctx t1) e) as Ho. destruct (outcome (t_ctx t1) e) as [s e']. simpl in Ho.
  assert (E : t_status t1 = t_status t /\ t_ctx t1 = t_ctx t /\ t_orig t1 = t_orig t /\ t_runner t1 = t_runner t /\ t_ready t1 = t_ready t)
    by (subst t1; destruct (t_ctx t) eqn:Ec; simpl; rewrite ?Ec; done).
  destruct E as (E1 & E2 & E3 & E4 & E5).
  split; simpl; rewrite ?E1, ?E2, ?E3, ?E4, ?E5; try done; [by apply to_final|congruence].
Qed.

Lemma worker_same service id now t t' : task_inv service id t -> worker_step now t t' -> same_tunnel t t'.
Proof.
  intros I H. destruct H as [Hp|audit Hp|address Hp|audit Hp|e Hp|e Hp|e Hp|e audit Hp|Hp|Hp].
  - apply same_trans_pc. destruct (t_request t); [apply abort_same|apply same_refl].
  - apply with_pc_same.
  - unfold ready_region. destruct (_ || _) eqn:E; simpl; [destruct (t_request t); [apply cancel_same|apply same_refl]|].
    apply orb_false_iff in E as [_ Hst]. apply negb_false_iff, bool_decide_eq_true in Hst.
    pose proof (unfinished_state _ _ _ I) as Hf. rewrite Hst in Hf. simpl in Hf. split; simpl; try done; [by rewrite Hst|congruence].
  - apply same_trans_pc, close_same, audit_same.
  - unfold report. destruct e; [apply same_refl|]. split; try done. apply next_refl.
  - apply with_pc_same.
  - by eapply finish_same.
  - apply same_trans_pc, audit_same.
  - apply same_trans_pc, close_same, same_refl.
  - apply same_trans_pc, cancel_same.
Qed.

Lemma event_same service id now t t' : task_inv service id t -> event_step now t t' -> same_tunnel t t'.
Proof.
  intros I H. destruct H as [e He Hr|Hr| |x Hx Hle|].
  - split; try done. apply next_refl.
  - apply abort_same.
  - apply abort_same.
  - apply cancel_same.
  - unfold stop_task. pose proof (unfinished_state _ _ _ I) as Hf. destruct (finished t) eqn:E; [apply same_refl|].
    split; simpl; try done; [by destruct (st_state (t_status t))|by intros [c ->]|congruence].
Qed.
End Invariant.

(** * The manager's invariant *)
Section Lifecycle.
Context {Runner : Type}.
Notation task := (task Runner).
Notation Manager := (Manager Runner).
Implicit Types (t : task) (m : Manager).

Record mgr_inv m : Prop := {
  mi_task : forall id t, m_tasks m !! id = Some t -> task_inv (m_ctx m) id t;
  mi_requests : forall r id, m_requests m !! r = Some id <-> exists t, m_tasks m !! id = Some t /\ RequestID (t_orig t) = r;
  mi_active : unfinished m <= MaxActive;
  mi_records : Z.of_nat (size (m_tasks m)) <= MaxRecords;
  mi_closed : m_closed m = true -> is_Some (m_ctx m)
}.

(** A step of the manager keeps every tunnel on its course; only tunnels that
    ended before the retention began are forgotten. *)
Definition lawful m m' : Prop :=
  forall id t, m_tasks m !! id = Some t ->
    match m_tasks m' !! id with
    | Some t' => same_tunnel t t'
    | None => exists now, outdated now t = true
    end.

Lemma unfinished_le m m' :
  (forall id t', m_tasks m' !! id = Some t' -> finished t' = false -> exists t, m_tasks m !! id = Some t /\ finished t = false) ->
  unfinished m' <= unfinished m.
Proof.
  intros Hle. unfold unfinished. rewrite <- !(size_dom (D := gset string)). apply inj_le, subseteq_size. intros id Hid.
  apply elem_of_dom in Hid as [t' Ht']. apply map_lookup_filter_Some in Ht' as [Ht' Hf].
  destruct (Hle id t' Ht' Hf) as (t & Ht & Hf'). apply elem_of_dom. exists t. by apply map_lookup_filter_Some.
Qed.

Lemma lawful_refl m : lawful m m.
Proof. intros id t Ht. rewrite Ht. apply same_refl. Qed.

(** ** Forgetting old tunnels *)
Inductive drop (now : Z) m : Manager -> Prop :=
  | drop_one id t : m_tasks m !! id = Some t -> outdated now t = true ->
      drop now m (mkManager (m_ctx m) (m_run m) (delete id (m_tasks m))
                    (delete (RequestID (st_spec (t_status t))) (m_requests m)) (m_closed m)).

Lemma prune_drops now m : rtc (drop now) m (pruneLocked now m).
Proof.
  unfold pruneLocked.
  assert (Hl : forall l m0, NoDup l.*1 -> (forall id t, (id, t) ∈ l -> m_tasks m0 !! id = Some t) ->
    rtc (drop now) m0 (foldl (prune_one now) m0 l)).
  { induction l as [|[id t] l IH]; intros m0 Hnd Hin; simpl; [done|]. apply NoDup_cons in Hnd as [Hni Hnd].
    destruct (outdated now t) eqn:E.
    - eapply rtc_l; [apply (drop_one _ _ id t); [apply Hin; by left|done]|]. apply IH; [done|]. intros i x Hx. simpl.
      rewrite lookup_delete_ne; [apply Hin; by right|]. intros ->. apply Hni. by apply (list_elem_of_fmap_2 fst _ (i, x)).
    - apply IH; [done|]. intros i x Hx. apply Hin. by right. }
  apply Hl; [apply NoDup_fst_map_to_list|]. intros id t. by rewrite elem_of_map_to_list.
Qed.

Lemma inv_drop now m m' : mgr_inv m -> drop now m m' -> mgr_inv m'.
Proof.
  intros [Ht Hr Ha Hs Hc] [id t Hid Hout]. pose proof (ti_request _ _ _ (Ht id t Hid)) as Hq. split; simpl; try done.
  - intros i x. rewrite lookup_delete_Some. intros [_ Hx]. by apply Ht.
  - intros r i. rewrite lookup_delete_Some, Hr. setoid_rewrite lookup_delete_Some. split.
    + intros [Hne (x & Hx & Hrx)]. exists x. split; [split; [|done]|done]. intros <-. congruence.
    + intros (x & [Hne Hx] & Hrx). split; [|by exists x]. intros E. apply Hne.
      assert (H1 : m_requests m !! r = Some id) by (apply Hr; exists t; split; congruence).
      assert (H2 : m_requests m !! r = Some i) by (apply Hr; by exists x). congruence.
  - transitivity (unfinished m); [|done]. apply unfinished_le. intros i x. simpl. rewrite lookup_delete_Some. intros [_ Hx] Hf. by exists x.
  - rewrite map_size_delete_Some by eauto. lia.
Qed.

Lemma drops_spec now m m' : rtc (drop now) m m' ->
  m_ctx m' = m_ctx m /\ m_run m' = m_run m /\ m_closed m' = m_closed m /\
  forall id, m_tasks m' !! id = m_tasks m !! id \/
    (m_tasks m' !! id = None /\ exists t, m_tasks m !! id = Some t /\ outdated now t = true).
Proof.
  induction 1 as [|m0 m1 m2 H1 _ (E1 & E2 & E3 & IH)]; [split_and!; auto|]. destruct H1 as [i x Hi Ho]. simpl in *.
  split_and!; try done. intros id. destruct (decide (i = id)) as [->|Hne].
  - right. split; [|by exists x]. destruct (IH id) as [-> | [? _]]; [|done]. apply lookup_delete_eq.
  - destruct (IH id) as [E|(E & t & Ht & Hout)]; rewrite E; rewrite ?lookup_delete_ne in * by done; [by left|].
    right. split; [done|by exists t].
Qed.

Lemma inv_prune now m : mgr_inv m -> mgr_inv (pruneLocked now m).
Proof. intros I. pose proof (prune_drops now m) as Hr. induction Hr; [done|]. apply IHHr. by eapply inv_drop. Qed.

Lemma prune_lawful now m : lawful m (pruneLocked now m).
Proof.
  destruct (drops_spec now _ _ (prune_drops now m)) as (_ & _ & _ & Hd). intros id t Ht.
  destruct (Hd id) as [E|(E & x & Hx & Hout)]; rewrite E; [rewrite Ht; apply same_refl|].
  exists now. congruence.
Qed.

(** ** Steps of one task *)
Lemma inv_update m id t t' :
  mgr_inv m -> m_tasks m !! id = Some t -> same_tunnel t t' -> task_inv (m_ctx m) id t' ->
  mgr_inv (set_tasks (<[id := t']> (m_tasks m)) m) /\ lawful m (set_tasks (<[id := t']> (m_tasks m)) m).
Proof.
  intros [Ht Hr Ha Hs Hc] Hid Hsame Hinv. split.
  - split; simpl; try done.
    + intros i x Hx. apply lookup_insert_Some in Hx as [[<- <-]|[_ Hx]]; [done|by apply Ht].
    + intros r i. rewrite Hr. split; intros (x & Hx & Hrx).
      * destruct (decide (id = i)) as [<-|Hne]; [|exists x; by rewrite lookup_insert_ne].
        exists t'. rewrite lookup_insert_eq. split; [done|]. rewrite (sa_orig _ _ Hsame). congruence.
      * apply lookup_insert_Some in Hx as [[<- <-]|[_ Hx]]; [|by exists x]. exists t. split; [done|].
        by rewrite <- (sa_orig _ _ Hsame).
    + transitivity (unfinished m); [|done]. apply unfinished_le. intros i x Hx Hf. simpl in Hx.
      apply lookup_insert_Some in Hx as [[<- <-]|[_ Hx]]; [|by exists x]. exists t. split; [done|].
      destruct (finished t) eqn:E; [|done]. destruct (sa_finished _ _ Hsame E) as [Hf' _]. unfold finished in Hf, E.
      by rewrite Hf', E in Hf.
    + by rewrite map_size_insert_Some by eauto.
  - intros i x Hx. simpl. destruct (decide (id = i)) as [<-|Hne].
    + rewrite lookup_insert_eq. congruence.
    + rewrite lookup_insert_ne, Hx by done. apply same_refl.
Qed.

(** ** Reservation *)
Lemma new_task_inv service now s op r id :
  service = None -> task_inv service id (new_task (Runner := Runner) now None s op r id service).
Proof.
  intros ->. unfold new_task. destruct (str_eq _ _); simpl; split; simpl; try done; auto; try (by intros [? ?]); by intros [?|?].
Qed.

Lemma retryLocked_ok m s o : mgr_inv m -> retryLocked s m = Ok o ->
  (o = None /\ m_requests m !! RequestID s = None) \/
  (exists id t, o = Some id /\ m_tasks m !! id = Some t /\ RequestID (t_orig t) = RequestID s).
Proof.
  intros I. unfold retryLocked. destruct (m_requests m !! RequestID s) as [id|] eqn:E; [|intros [= <-]; by left].
  destruct (m_tasks m !! id) as [t|] eqn:Et; [|done]. intros Hok. apply bind_reject_ok in Hok as [_ [= <-]]. right.
  exists id, t. split_and!; [done|done|]. apply (mi_requests _ I) in E as (x & Hx & Hr). congruence.
Qed.

Lemma reserve_inv now s op runner fresh m :
  mgr_inv m -> (forall id, fresh = Some id -> m_tasks m !! id = None) ->
  mgr_inv (reserveLocked now None s op runner fresh m).2 /\ lawful m (reserveLocked now None s op runner fresh m).2.
Proof.
  intros I Hfresh. unfold reserveLocked. destruct (m_closed m || _) eqn:Eo; [split; [done|apply lawful_refl]|].
  apply orb_false_iff in Eo as [_ Ectx]. apply negb_false_iff, bool_decide_eq_true in Ectx.
  destruct (retryLocked s m) as [[id|]|e] eqn:Er; try (split; [done|apply lawful_refl]).
  destruct ((MaxActive <=? unfinished m) || _) eqn:Ec; [split; [done|apply lawful_refl]|].
  apply orb_false_iff in Ec as [Ec1 Ec2]. apply Z.leb_gt in Ec1, Ec2.
  destruct fresh as [id|]; [|split; [done|apply lawful_refl]].
  destruct (match runner with Some r => Some r | None => m_run m end) as [r|]; [|split; [done|apply lawful_refl]].
  specialize (Hfresh id eq_refl). destruct (retryLocked_ok m s None I Er) as [[_ Hreq]|(? & ? & ? & _)]; [|done].
  set (t := new_task now None s op r id (m_ctx m)).
  assert (Hq : t_orig t = s) by (subst t; unfold new_task; by destruct (str_eq _ _)).
  split.
  - destruct I as [Ht Hr Ha Hs Hc]. split; simpl; try done.
    + intros i x Hx. apply lookup_insert_Some in Hx as [[<- <-]|[_ Hx]]; [by apply new_task_inv|by apply Ht].
    + intros q i. rewrite lookup_insert_Some, Hr. setoid_rewrite lookup_insert_Some. split.
      * intros [[<- <-]|[Hne (x & Hx & Hrx)]]; [exists t; split; [by left|by rewrite Hq]|]. exists x. split; [right; split; [congruence|done]|done].
      * intros (x & [[<- <-]|[Hne Hx]] & Hrx); [left; split; [by rewrite Hq in Hrx|done]|]. right. split; [|by exists x].
        intros <-. assert (m_requests m !! RequestID s = Some i) by (apply Hr; by exists x). congruence.
    + unfold unfinished in *. simpl. rewrite map_filter_insert.
      destruct (decide _); [rewrite map_size_insert_None by (apply map_lookup_filter_None; by left); lia|].
      rewrite delete_id by done. lia.
    + rewrite map_size_insert_None by done. lia.
  - intros i x Hx. simpl. rewrite lookup_insert_ne by congruence. rewrite Hx. apply same_refl.
Qed.

(** ** The end of the service *)
Lemma service_inv cause m (closed : bool) :
  mgr_inv m -> EStartupCancelled ∉ cause -> EExpired ∉ cause -> (closed = true -> True) ->
  let m' := end_context cause m in
  let m'' := mkManager (m_ctx m') (m_run m') (m_tasks m') (m_requests m') (m_closed m || closed) in
  mgr_inv m'' /\ lawful m m''.
Proof.
  intros [Ht Hr Ha Hs Hc] Hn1 Hn2 _. simpl. set (c := default cause (m_ctx m)).
  assert (Hct : forall id t, m_tasks m !! id = Some t -> task_inv (Some c) id (cancel c t)).
  { intros id t Hid. specialize (Ht id t Hid).
    assert (Ht' : is_Some (m_ctx m) \/ m_ctx m = None) by (destruct (m_ctx m); eauto).
    destruct Ht' as [[x Hx]|Hx].
    - assert (c = x) as -> by (unfold c; by rewrite Hx). rewrite Hx in Ht. apply cancel_inv; [done|by right|].
      intros Hs'. destruct (ti_expired _ _ _ Ht Hs') as [(y & Hy & _) _]. by exists y.
    - rewrite Hx in Ht. assert (Hsome : is_Some (t_ctx (cancel c t))) by (by eexists).
      assert (I0 : task_inv None id (cancel c t) \/ (st_state (t_status t) = Running /\ t_ctx t = None)).
      { destruct (t_ctx t) as [y|] eqn:Ey.
        - left. apply cancel_inv; [done|congruence|]. intros _. rewrite Ey. by eexists.
        - destruct (decide (st_state (t_status t) = Running)); [by right|]. left. apply cancel_inv; [done|done|].
          intros Hs'. destruct (ti_expired _ _ _ Ht Hs') as [(z & Hz & _) _]. congruence. }
      destruct I0 as [[]|[Hrun Hnone]].
      + split; try done. intros Hs'. destruct (ti_running0 Hs') as [?|[?|[[? ?] _]]]; auto; done.
      + destruct Ht. split; simpl; try done; try congruence. intros _. right. right. split; [by eexists|]. by rewrite Hnone. }
  split.
  - split; simpl; try done.
    + intros id t Hid. rewrite lookup_fmap_Some in Hid. destruct Hid as (x & <- & Hx). by apply Hct.
    + intros r id. rewrite Hr. setoid_rewrite lookup_fmap_Some. split.
      * intros (t & Hid & Hq). exists (cancel c t). split; [by exists t|done].
      * intros (t & (x & <- & Hx) & Hq). by exists x.
    + transitivity (unfinished m); [|done]. apply unfinished_le. intros id t' Hid Hf. simpl in Hid.
      rewrite lookup_fmap_Some in Hid. destruct Hid as (x & <- & Hx). by exists x.
    + by rewrite map_size_fmap.
  - intros id t Hid. simpl. rewrite lookup_fmap, Hid. simpl. apply cancel_same.
Qed.

Lemma update_insert m id t f : m_tasks m !! id = Some t -> update id f m = set_tasks (<[id := f t]> (m_tasks m)) m.
Proof.
  intros Hid. unfold update. f_equal. apply map_eq. intros i. destruct (decide (id = i)) as [<-|Hne].
  - by rewrite lookup_alter_eq, lookup_insert_eq, Hid.
  - by rewrite lookup_alter_ne, lookup_insert_ne.
Qed.

Lemma reserve_other now request s op runner fresh m id :
  fresh <> Some id -> m_tasks (reserveLocked now request s op runner fresh m).2 !! id = m_tasks m !! id.
Proof.
  intros Hne. unfold reserveLocked. repeat case_match; simpl; try done; apply lookup_insert_ne; congruence.
Qed.

Lemma step_inv m m' : mgr_inv m -> tunnel_step m m' -> mgr_inv m' /\ lawful m m'.
Proof.
  intros I H. destruct H as [now request s op runner fresh Hfresh|now s|now id|now nodeID state|id|now id t t' Hid Hw|now id t t' Hid He|cause Hn1 Hn2|].
  - unfold CreateWithRunner. destruct request as [e|]; [split; [done|apply lawful_refl]|].
    destruct (Normalize s) as [s'|e]; [|split; [done|apply lawful_refl]].
    destruct (drops_spec now _ _ (prune_drops now m)) as (_ & _ & _ & Hd).
    destruct (reserve_inv now s' op runner fresh (pruneLocked now m)) as [I' Hl]; [by apply inv_prune| |].
    { intros id Hf. destruct (Hd id) as [E|[E _]]; rewrite E; [by apply Hfresh|done]. }
    split; [done|]. intros id t Ht. pose proof (prune_lawful now m id t Ht) as Hp.
    destruct (Hd id) as [E|[E _]]; rewrite E in Hp; [rewrite Ht in Hp; apply Hl; congruence|].
    destruct (m_tasks (reserveLocked _ _ _ _ _ _ _).2 !! id) as [t'|] eqn:Et; [|done].
    exfalso. rewrite reserve_other in Et; [congruence|]. intros Hf. specialize (Hfresh id Hf). congruence.
  - unfold Retry. destruct (Normalize s); simpl; [|split; [done|apply lawful_refl]]. split; [by apply inv_prune|apply prune_lawful].
  - split; [by apply inv_prune|apply prune_lawful].
  - split; [by apply inv_prune|apply prune_lawful].
  - unfold Stop. destruct (m_tasks m !! id) as [t|] eqn:Hid; [|split; [done|apply lawful_refl]]. simpl.
    rewrite (update_insert m id t stop_task Hid).
    pose proof (es_stop 0 t) as Hs. apply (inv_update m id t); [done|done|by eapply event_same, Hs; apply (mi_task _ I)|].
    eapply event_inv, Hs. by apply (mi_task _ I).
  - apply (inv_update m id t); [done|done|eapply worker_same; [by apply (mi_task _ I)|done]|].
    eapply worker_inv; [by apply (mi_task _ I)|done].
  - apply (inv_update m id t); [done|done|eapply event_same; [by apply (mi_task _ I)|done]|].
    eapply event_inv; [by apply (mi_task _ I)|done].
  - pose proof (service_inv cause m false I Hn1 Hn2) as [I' Hl]; [done|]. rewrite orb_false_r in I', Hl. by destruct m.
  - assert (Hn : EStartupCancelled ∉ [ECanceled] /\ EExpired ∉ [ECanceled]) by (split; set_solver).
    destruct (service_inv [ECanceled] m true I) as [I' Hl]; [apply Hn|apply Hn|done|]. rewrite orb_true_r in I', Hl. done.
Qed.

Lemma inv_init m : tunnel_init m -> mgr_inv m.
Proof.
  intros [run ->]. split; simpl; try done. intros r id. rewrite lookup_empty. setoid_rewrite lookup_empty. split; [done|by intros (? & ? & _)].
Qed.

Lemma tunnel_inv_reachable m : tunnel_reachable m -> mgr_inv m.
Proof. apply reachable_invariant; [apply inv_init|]. intros m0 m1 I Hs. by apply (step_inv m0). Qed.

(** ** Termination of the worker *)
Definition rank t : nat :=
  match t_pc t with
  | PStart => 9 | PObserve => 8 | PRun => 7 | PReady => 6 | PServe => 5 | PFinish _ => 4 | PRecord _ => 3
  | PClose => 2 | PEnd => 1 | PDone => 0
  end.

(** The next step of a worker whose runner returns [e] and whose audits answer [audit]. *)
Definition worker_next (now : Z) (audit e : list err) t : task :=
  match t_pc t with
  | PStart => serve_begin t
  | PObserve => serve_observed audit t
  | PRun | PServe => run_return e t
  | PReady => ready_audit audit t
  | PFinish e => finish now e t
  | PRecord _ => finish_audit audit t
  | PClose => serve_ready t
  | PEnd | PDone => serve_end t
  end.

Lemma worker_next_step now audit e t : t_pc t <> PDone ->
  worker_step now t (worker_next now audit e t) /\ (rank (worker_next now audit e t) < rank t)%nat.
Proof.
  intros Hne. unfold worker_next, rank. destruct (t_pc t) eqn:Hp; try done; (split; [by econstructor; eauto|]); simpl; try lia.
  - destruct audit; simpl; lia.
  - unfold finish. destruct (outcome _ _). simpl. lia.
Qed.

Lemma worker_rank now t t' : worker_step now t t' ->
  (rank t' < rank t)%nat \/ (t_pc t' = t_pc t /\ (t_pc t = PRun \/ t_pc t = PServe)).
Proof.
  intros H. destruct H as [Hp|audit Hp|address Hp|audit Hp|e Hp|e Hp|e Hp|e audit Hp|Hp|Hp]; unfold rank.
  - left. rewrite Hp. simpl. lia.
  - left. rewrite Hp. destruct audit; simpl; lia.
  - unfold ready_region. destruct (_ || _); simpl; [|left; rewrite Hp; lia]. right. destruct (t_request t); by auto.
  - left. rewrite Hp. simpl. lia.
  - right. split; [by destruct e|done].
  - left. destruct Hp as [-> | ->]; simpl; lia.
  - left. rewrite Hp. unfold finish. destruct (outcome _ _). simpl. lia.
  - left. rewrite Hp. simpl. lia.
  - left. rewrite Hp. simpl. lia.
  - left. rewrite Hp. simpl. lia.
Qed.

(** ** Properties *)

(** every call, worker step, timer, end of a request and shutdown, in any
    interleaving, moves each tunnel along its state machine - never back, never
    from Stopping to Running - and keeps its request, its runner, its first cause
    of cancellation and, once it ended, its outcome; only tunnels that ended before
    the retention are forgotten. *)
Theorem tunnel_lifecycle m m' : tunnel_reachable m -> tunnel_step m m' -> lawful m m'.
Proof. intros Hm Hs. by apply (step_inv m m' (tunnel_inv_reachable m Hm)). Qed.

(** once its startup committed, a running tunnel is out of reach of the call
    that created it and of the startup timer: only expiry, a stop or the end of the
    service end it.  [ready] is closed only past the startup; a tunnel ends
    Stopped or Expired only without an error, and Failed only with one. *)
Theorem startup_isolated m id t :
  tunnel_reachable m -> m_tasks m !! id = Some t ->
  (st_state (t_status t) = Running ->
     t_ctx t = None \/ t_ctx t = Some [EExpired] \/ (is_Some (m_ctx m) /\ t_ctx t = m_ctx m)) /\
  (t_ready t = true -> st_state (t_status t) <> Starting) /\
  (st_state (t_status t) = Stopped -> is_Some (t_ctx t) /\ st_error (t_status t) = []) /\
  (st_state (t_status t) = Expired -> (exists c, t_ctx t = Some c /\ EExpired ∈ c) /\ st_error (t_status t) = []) /\
  (st_state (t_status t) = Failed -> st_error (t_status t) <> []).
Proof. intros Hm Ht. apply tunnel_inv_reachable in Hm as I. destruct (mi_task _ I id t Ht). done. Qed.

(** the manager stays within its limits, and a request has one tunnel: the
    index of requests and the retained tunnels agree in every state. *)
Theorem tunnels_bounded m :
  tunnel_reachable m ->
  unfinished m <= MaxActive /\ Z.of_nat (size (m_tasks m)) <= MaxRecords /\
  (forall r id, m_requests m !! r = Some id <-> exists t, m_tasks m !! id = Some t /\ RequestID (t_orig t) = r) /\
  (forall i j t u, m_tasks m !! i = Some t -> m_tasks m !! j = Some u -> RequestID (t_orig t) = RequestID (t_orig u) -> i = j).
Proof.
  intros Hm. apply tunnel_inv_reachable in Hm as I. split_and!; [apply (mi_active _ I)|apply (mi_records _ I)|apply (mi_requests _ I)|].
  intros i j t u Hi Hj E. assert (H1 : m_requests m !! RequestID (t_orig t) = Some i) by (apply (mi_requests _ I); by exists t).
  assert (H2 : m_requests m !! RequestID (t_orig t) = Some j) by (apply (mi_requests _ I); by exists u). congruence.
Qed.

(** repeating a request starts nothing: as long as its tunnel is retained, a
    create with the same parameters answers that tunnel with its own runner
    whatever runner it brings, and other parameters are a conflict; either way the
    tunnels stay as they are. *)
Theorem create_idempotent m now s s' op runner fresh id t :
  tunnel_reachable m -> m_closed m = false -> m_ctx m = None -> Normalize s = Ok s' ->
  m_tasks m !! id = Some t -> RequestID (t_orig t) = RequestID s' -> outdated now t = false ->
  let answer := CreateWithRunner now None s op runner fresh m in
  answer.1 = (if bool_decide (t_orig t = s') || bool_decide (st_spec (t_status t) = s') then Ok id else Err EConflict) /\
  answer.2 = pruneLocked now m /\ m_tasks answer.2 !! id = Some t.
Proof.
  intros Hm Hopen Hctx Hn Ht Hr Hout. apply tunnel_inv_reachable in Hm as I. cbv zeta. unfold CreateWithRunner. rewrite Hn.
  destruct (drops_spec now _ _ (prune_drops now m)) as (E1 & _ & E3 & Hd). pose proof (inv_prune now m I) as I'.
  assert (Ht' : m_tasks (pruneLocked now m) !! id = Some t) by (destruct (Hd id) as [-> |(_ & x & Hx & Hx')]; congruence).
  assert (Hreq : m_requests (pruneLocked now m) !! RequestID s' = Some id) by (apply (mi_requests _ I'); by exists t).
  unfold reserveLocked. rewrite E3, Hopen, E1, Hctx, bool_decide_eq_true_2 by done. simpl.
  unfold retryLocked. rewrite Hreq, Ht'. destruct (bool_decide (t_orig t = s')), (bool_decide (st_spec (t_status t) = s')); done.
Qed.

(** after a shutdown began, every tunnel is cancelled, none commits its
    startup, no call reserves another one, and when the joins succeed every tunnel
    has ended. *)
Theorem shutdown_ends_all m :
  tunnel_reachable m -> m_closed m = true ->
  (forall id t now address, m_tasks m !! id = Some t -> is_Some (t_ctx t) /\ (ready_region now address t).1 = false) /\
  (forall now request s op runner fresh, exists e, (CreateWithRunner now request s op runner fresh m).1 = Err e) /\
  (forall errors, shutdown_wait None ((map_to_list (m_tasks m)).*2) = Some errors ->
     forall id t, m_tasks m !! id = Some t -> finished t = true).
Proof.
  intros Hm Hc. apply tunnel_inv_reachable in Hm as I. pose proof (mi_closed _ I Hc) as Hctx. split_and!.
  - intros id t now address Ht. pose proof (ti_service _ _ _ (mi_task _ I id t Ht) Hctx) as Hs. split; [done|].
    unfold ready_region. destruct Hs as [c Hs]. rewrite Hs. rewrite (bool_decide_eq_false_2 (Some c = None)) by done. done.
  - intros now request s op runner fresh. unfold CreateWithRunner. destruct request; [by eexists|].
    destruct (Normalize s); [|by eexists]. unfold reserveLocked.
    destruct (drops_spec now _ _ (prune_drops now m)) as (_ & _ & -> & _). rewrite Hc. by eexists.
  - intros errors. unfold shutdown_wait. destruct (forallb _ _) eqn:E; [|done]. intros _ id t Ht.
    rewrite forallb_forall in E. assert (Hin : t ∈ (map_to_list (m_tasks m)).*2).
    { apply list_elem_of_fmap. exists (id, t). split; [done|]. by apply elem_of_map_to_list. }
    apply list_elem_of_In, E in Hin. unfold t_done in Hin. pose proof (ti_pc _ _ _ (mi_task _ I id t Ht)) as Hpc.
    destruct (t_pc t); try done. by destruct Hpc.
Qed.

(** a worker always ends: each of its steps lowers a rank of at most nine, but
    for reports and refused [ready] calls of its runner, and until it ended a step
    that lowers it needs nothing but that the runner returns; then the tunnel has
    ended and its callers are released. *)
Theorem worker_ends m id t now :
  tunnel_reachable m -> m_tasks m !! id = Some t ->
  (forall t', worker_step now t t' -> (rank t' < rank t)%nat \/ (t_pc t' = t_pc t /\ (t_pc t = PRun \/ t_pc t = PServe))) /\
  (t_done t = false -> forall audit e, worker_step now t (worker_next now audit e t) /\ (rank (worker_next now audit e t) < rank t)%nat) /\
  (t_done t = true -> finished t = true /\ t_ready t = true /\ rank t = 0%nat).
Proof.
  intros Hm Ht. apply tunnel_inv_reachable in Hm as I. pose proof (ti_pc _ _ _ (mi_task _ I id t Ht)) as Hpc. split_and!.
  - intros t'. apply worker_rank.
  - intros Hd audit e. apply worker_next_step. intros Hp. unfold t_done in Hd. by rewrite Hp in Hd.
  - pose proof (ti_released _ _ _ (mi_task _ I id t Ht)) as Hrel. unfold t_done, rank.
    destruct (t_pc t); try done. destruct Hpc as [_ Hf]. intros _. rewrite Hf, Hrel by (by right). done.
Qed.
End Lifecycle.

(** * A concrete tunnel *)
Definition sample_request : Spec := mkSpec "r1" "n1" "local" "localhost" 0 "db" 5432 0.
Definition sample_manager : Manager nat := New (Some 7%nat).
Definition sample_1 : Manager nat := (CreateWithRunner 100 None sample_request "op" (Some 9%nat) (Some "id1") sample_manager).2.
Definition no_task : task nat := new_task 0 None sample_request "" 0%nat "" None.
Definition the_task (m : Manager nat) : task nat := default no_task (m_tasks m !! "id1").
Definition on_task (f : task nat -> task nat) (m : Manager nat) : Manager nat :=
  set_tasks (<["id1" := f (the_task m)]> (m_tasks m)) m.
Definition sample_2 : Manager nat := on_task serve_begin sample_1.
Definition sample_3 : Manager nat := on_task (serve_observed []) sample_2.
Definition sample_4 : Manager nat := on_task (fun t => (ready_region 200 "127.0.0.1:8080" t).2) sample_3.
Definition sample_5 : Manager nat := on_task (ready_audit []) sample_4.
Definition sample_6 : Manager nat := Shutdown sample_5.

Lemma the_task_lookup m : is_Some (m_tasks m !! "id1") -> m_tasks m !! "id1" = Some (the_task m).
Proof. intros [t Ht]. unfold the_task. by rewrite Ht. Qed.

Lemma worker_reachable m now f :
  tunnel_reachable m -> is_Some (m_tasks m !! "id1") -> worker_step now (the_task m) (f (the_task m)) -> tunnel_reachable (on_task f m).
Proof. intros Hm Hin Hw. refine (reachable_step _ _ _ _ Hm _). exact (tl_worker _ now "id1" _ _ (the_task_lookup m Hin) Hw). Qed.

Ltac in_tasks := vm_compute; eexists; reflexivity.
Lemma sample_1_reachable : tunnel_reachable sample_1.
Proof.
  refine (reachable_step _ _ sample_manager _ _ (tl_create _ 100 None sample_request "op" (Some 9%nat) (Some "id1") _)).
  - exists sample_manager. split; [by exists (Some 7%nat)|apply rtc_refl].
  - intros id _. reflexivity.
Qed.
Lemma sample_5_reachable : tunnel_reachable sample_5.
Proof.
  apply (worker_reachable _ 0); [|in_tasks|apply ws_ready_audit; vm_compute; reflexivity].
  apply (worker_reachable _ 200); [|in_tasks|apply (ws_ready 200 _ "127.0.0.1:8080"); vm_compute; reflexivity].
  apply (worker_reachable _ 0); [|in_tasks|apply ws_observed; vm_compute; reflexivity].
  apply (worker_reachable _ 0); [exact sample_1_reachable|in_tasks|apply ws_begin; vm_compute; reflexivity].
Qed.
Lemma sample_6_reachable : tunnel_reachable sample_6.
Proof. exact (reachable_step _ _ _ _ sample_5_reachable (tl_shutdown sample_5)). Qed.
Lemma sample_5_task : m_tasks sample_5 !! "id1" = Some (the_task sample_5).
Proof. apply the_task_lookup. in_tasks. Qed.

Example sample_status :
  let s := t_status (the_task sample_5) in
  (st_state s, ListenHost (st_spec s), ListenPort (st_spec s), ExpiresAt s, t_ready (the_task sample_5), t_runner (the_task sample_5)) =
  (Running, "127.0.0.1", 8080, Some (200 + 3600 * nanos), true, 9%nat).
Proof. vm_compute. reflexivity. Qed.

Lemma tunnel_lifecycle_witness : lawful sample_5 sample_6.
Proof. exact (tunnel_lifecycle sample_5 sample_6 sample_5_reachable (tl_shutdown sample_5)). Defined.

Lemma startup_isolated_witness : st_state (t_status (the_task sample_5)) <> Starting.
Proof.
  assert (Hr : t_ready (the_task sample_5) = true) by (vm_compute; reflexivity).
  exact (proj1 (proj2 (startup_isolated sample_5 "id1" _ sample_5_reachable sample_5_task)) Hr).
Defined.

Lemma tunnels_bounded_witness : unfinished sample_5 <= 16.
Proof. exact (proj1 (tunnels_bounded sample_5 sample_5_reachable)). Defined.

(** A retry that leaves its port open, with another runner. *)
Lemma create_idempotent_witness :
  (CreateWithRunner 300 None sample_request "op2" (Some 8%nat) (Some "id2") sample_5).1 = Ok "id1".
Proof.
  assert (Hn : Normalize sample_request = Ok (t_orig (the_task sample_5))) by (vm_compute; reflexivity).
  rewrite (proj1 (create_idempotent sample_5 300 sample_request _ "op2" (Some 8%nat) (Some "id2") "id1" _
    sample_5_reachable eq_refl eq_refl Hn sample_5_task eq_refl eq_refl)).
  vm_compute. reflexivity.
Defined.

Lemma shutdown_ends_all_witness : exists e, (CreateWithRunner 300 None sample_request "op" None (Some "id2") sample_6).1 = Err e.
Proof. exact (proj1 (proj2 (shutdown_ends_all sample_6 sample_6_reachable eq_refl)) 300 None sample_request "op" None (Some "id2")). Defined.

Lemma worker_ends_witness : worker_step 300 (the_task sample_5) (worker_next 300 [] [] (the_task sample_5)).
Proof. exact (proj1 (proj1 (proj2 (worker_ends sample_5 "id1" _ 300 sample_5_reachable sample_5_task)) eq_refl [] [])). Defined.
