(* ===== verification/Terminal.v ===== *)
(** The output side of persistent terminal sessions: core/mcp/session/manager.go.

    Completion sentinels and their payloads, the bounded buffer of the reader,
    the waits of a call and the cleaning of what it returns.  The sessions of the
    manager and their slots are in [Sessions].  What the reader appended and which
    channel fired between two looks at the buffer is a list of events. *)
From S2P Require Export Regex.
From S2P Require Import Exec.
#[local] Open Scope Z_scope.

(** * Signals *)

(** [strings.ToUpper]; of the letters outside ASCII only the two whose upper case
    is an ASCII letter, U+0131 (I) and U+017F (S): the callers only compare the
    result with ASCII text, which cannot see the others. *)
Fixpoint to_upper (s : string) : string :=
  match s with
  | EmptyString => EmptyString
  | String c s' =>
      match strip_prefix (String (ascii_of_N 196) (str1 (ascii_of_N 177))) s,
            strip_prefix (String (ascii_of_N 197) (str1 (ascii_of_N 191))) s with
      | Some _, _ => String "I"%char match s' with String _ r => to_upper r | EmptyString => EmptyString end
      | None, Some _ => String "S"%char match s' with String _ r => to_upper r | EmptyString => EmptyString end
      | None, None => String (upper_byte c) (to_upper s')
      end
  end.

Definition IsSignalCommand (cmd : string) : bool := one_of (to_upper (trim_space cmd)) ["SIGINT"; "EOF"; "SIGTERM"; "SIGKILL"].
Definition signalWritesStdin (upper : string) : bool := one_of upper ["SIGINT"; "EOF"].

(** * Sentinels *)
Definition sentinelHead : string := "___MCP_".
Definition sentinelTail : string := "DONE_".
Definition sentinelMark : string := sentinelHead +:+ sentinelTail.
Definition sentinelEnd : string := "___".

(** [bytes.Index]: the text before the first [sub], and the text behind it. *)
Fixpoint cut (sub s : string) : option (string * string) :=
  match strip_prefix sub s with
  | Some after => Some (EmptyString, after)
  | None =>
      match s with
      | EmptyString => None
      | String c s' => match cut sub s' with Some (pre, after) => Some (String c pre, after) | None => None end
      end
  end.

(** The leading digits and the rest. *)
Fixpoint span_digits (s : string) : string * string :=
  match s with
  | String c r => if is_digit c then let '(d, rest) := span_digits r in (String c d, rest) else (EmptyString, s)
  | EmptyString => (EmptyString, EmptyString)
  end.
Fixpoint decimal_from (s : string) (acc : Z) : Z :=
  match s with EmptyString => acc | String c r => decimal_from r (acc * 10 + Z.of_N (byte_code c - 48)) end.
(** [strconv.ParseUint(s, 10, 32)] of digits. *)
Definition parse_uint32 (s : string) : option Z :=
  let v := decimal_from s 0 in if v <? 2^32 then Some v else None.

(** [parseExitCode], with the text behind ["<digits>___"]. *)
Definition parseExitCode (b : string) : option (Z * string) :=
  let '(digits, rest) := span_digits b in
  if str_eq digits "" then None
  else match strip_prefix sentinelEnd rest with
       | None => None
       | Some after => match parse_uint32 digits with Some code => Some (code, after) | None => None end
       end.

Fixpoint skip_newlines (s : string) : string :=
  match s with
  | String c r => if Ascii.eqb c creturn || Ascii.eqb c newline then skip_newlines r else s
  | EmptyString => EmptyString
  end.

(** The search of [tryConsumeSentinel]: the output before the sentinel, its code
    and what stays in the buffer. *)
Fixpoint find_sentinel (fuel : nat) (prefix seen rest : string) : option (string * Z * string) :=
  match fuel with
  | O => None
  | S f =>
      match cut prefix rest with
      | None => None
      | Some (pre, after) =>
          match parseExitCode after with
          | Some (code, behind) => Some (seen +:+ pre, code, skip_newlines behind)
          | None => find_sentinel f prefix (seen +:+ pre +:+ prefix) after
          end
      end
  end.
Definition consume (prefix buf : string) : option (string * Z * string) :=
  find_sentinel (S (String.length buf)) prefix EmptyString buf.

(** * Cleaning *)
Definition hex_class : regex := RClass false [(48, 57); (97, 102)]%N.
Definition digit_class : regex := RClass false [(48, 57)]%N.
Definition not_newline : regex := RClass true [(10, 10)]%N.
Definition staleSentinelPattern : regex :=
  RCat [ROpt (RByte newline); RLit sentinelMark; RPlus hex_class; RByte "_"; RPlus digit_class; RLit sentinelEnd; ROpt (RByte newline)].
(** Without its [^], which the search takes care of. *)
Definition echoedSentinelCmdPattern : regex :=
  RCat [RStar not_newline; RLit ("printf '\n%s%s_%d" +:+ sentinelEnd +:+ "\n' '" +:+ sentinelHead +:+ "' '" +:+ sentinelTail);
        RPlus hex_class; RLit "' "; RStar not_newline; ROpt (RByte newline)].
Definition esc : ascii := ascii_of_N 27.
Definition ansiEscapePattern : regex :=
  RSeq (RByte esc) (ROneOf [
    RCat [RByte "["; RStar (RClass false [(48, 57); (59, 59); (63, 63)]%N); RStar (RClass false [(32, 47)]%N); RClass false [(64, 126)]%N];
    RCat [RByte "]"; RStar (RClass true [(7, 7); (27, 27)]%N); RAlt (RByte (ascii_of_N 7)) (RLit (String esc (str1 bslash)))];
    RClass false [(64, 90); (92, 95)]%N]).

(** [Regexp.ReplaceAllString] for patterns that match no empty text and whose
    preferred match is the longest one, which the three above are: at each
    position where [starts] lets a match begin, the longest one is replaced. *)
Fixpoint replace_matches (starts : string -> nat -> bool) (r : regex) (repl s : string) (i fuel : nat) : string :=
  match fuel with
  | O => EmptyString
  | S f =>
      match String.get i s with
      | None => EmptyString
      | Some c =>
          let j := if starts s i then foldr Nat.max 0%nat (ends s r i) else 0%nat in
          if (i <? j)%nat then repl +:+ replace_matches starts r repl s j f
          else String c (replace_matches starts r repl s (S i) f)
      end
  end.
Definition ReplaceAllString starts (r : regex) (s repl : string) : string :=
  replace_matches starts r repl s 0 (S (String.length s)).
Definition anywhere (s : string) (i : nat) : bool := true.
Definition line_start (s : string) (i : nat) : bool :=
  match i with
  | O => true
  | S k => match String.get k s with Some c => Ascii.eqb c newline | None => false end
  end.

(** The text behind the last carriage return of a line. *)
Fixpoint after_last_cr (s : string) : option string :=
  match s with
  | EmptyString => None
  | String c r => match after_last_cr r with
                  | Some t => Some t
                  | None => if Ascii.eqb c creturn then Some r else None
                  end
  end.
Definition final_frame (line : string) : string :=
  let line := trim_right (Ascii.eqb creturn) line in default line (after_last_cr line).

Definition crlf : string := String creturn (str1 newline).
Definition cleanTerminalOutput (raw : string) : string :=
  let raw := replace_all raw crlf (str1 newline) in
  let raw := ReplaceAllString anywhere ansiEscapePattern raw "" in
  let raw := ReplaceAllString anywhere staleSentinelPattern raw (str1 newline) in
  let raw := ReplaceAllString line_start echoedSentinelCmdPattern raw "" in
  let raw := if byte_member creturn raw
             then join (str1 newline) (map final_frame (split_on newline raw)) else raw in
  trim_right (Ascii.eqb newline) (trim_left (Ascii.eqb newline) raw).

Example clean_progress :
  cleanTerminalOutput ("10%" +:+ str1 creturn +:+ "99%" +:+ crlf +:+ String esc "[1;31mred" +:+ String esc "[0m" +:+ crlf) =
  "99%" +:+ str1 newline +:+ "red".
Proof. vm_compute. reflexivity. Qed.

(** * Payloads *)
Inductive term_error :=
  | EBusy | EInUse | ENotFound | EWrite | ESignal | ERandom | ECwd | EContext.

Definition status_expr (dialect : string) : string :=
  if str_eq dialect LaunchFish then "$status"
  else if str_eq dialect LaunchCsh then String dquote ("$status" +:+ str1 dquote)
  else String dquote ("$?" +:+ str1 dquote).
Definition cd_line (dialect cwd : string) : string :=
  "cd -- " +:+
  (if str_eq dialect LaunchFish then fishQuote cwd
   else if str_eq dialect LaunchCsh then cshQuote cwd
   else "'" +:+ replace_all cwd "'" "'\''" +:+ "'") +:+ str1 newline.
Definition printf_line (dialect token : string) : string :=
  "printf '\n%s%s_%d" +:+ sentinelEnd +:+ "\n' '" +:+ sentinelHead +:+ "' '" +:+ sentinelTail +:+ token +:+ "' " +:+
  status_expr dialect +:+ str1 newline.

(** [token] is fresh randomness in hexadecimal, [None] when there is none. *)
Definition buildSentinelPayload (dialect cwd rawCmd trimmedCmd : string) (token : option string)
    : result term_error (string * string) :=
  match token with
  | None => Err ERandom
  | Some token =>
      reject negb (str_eq cwd "") && contains_any cwd (String creturn (String newline (str1 nul))) with ECwd;;
      Ok (sentinelMark +:+ token +:+ "_",
          (if str_eq cwd "" then "" else cd_line dialect cwd) +:+
          (if str_eq trimmedCmd "" then ""
           else rawCmd +:+ (if has_suffix rawCmd (str1 newline) then "" else str1 newline)) +:+
          printf_line dialect token)
  end.

(** * The session of a call *)
Definition maxBufferBytes : Z := 256 * 1024.

Inductive State := StateIdle | StateCompleted | StateRunning | StateLost.
Record ExecuteResult := mkResult {
  Output : string;
  ExitCode : option Z;
  rState : State;
  Truncated : bool;
  NewSession : bool
}.

(** The buffer of a session, with what makes it busy and closed. *)
Record session := mkSession {
  s_buf : string;
  s_truncated : bool;
  activeSentinel : string;
  s_closed : bool
}.
Definition busy (s : session) : bool := negb (str_eq (activeSentinel s) "").
Definition setSentinel (prefix : string) (s : session) : session :=
  mkSession (s_buf s) (s_truncated s) prefix (s_closed s).
Definition set_closed (s : session) : session := mkSession (s_buf s) (s_truncated s) (activeSentinel s) true.

(** One read of [readLoop]. *)
Definition read_chunk (s : session) (chunk : string) : session :=
  let buf := s_buf s +:+ chunk in
  if maxBufferBytes <? len buf
  then mkSession (drop_bytes (Z.to_nat (len buf - maxBufferBytes)) buf) true (activeSentinel s) (s_closed s)
  else mkSession buf (s_truncated s) (activeSentinel s) (s_closed s).
Definition read_all (chunks : list string) (s : session) : session := foldl read_chunk s chunks.

Definition drain (s : session) : string * bool * session :=
  (cleanTerminalOutput (s_buf s), s_truncated s, mkSession EmptyString false (activeSentinel s) (s_closed s)).

Definition tryConsumeSentinel (prefix : string) (s : session) : option (ExecuteResult * session) :=
  match consume prefix (s_buf s) with
  | None => None
  | Some (before, code, rest) =>
      Some (mkResult (cleanTerminalOutput before) (Some code) StateCompleted (s_truncated s) false,
            mkSession rest false EmptyString (s_closed s))
  end.

Definition drained (state : State) (s : session) : result term_error ExecuteResult * session :=
  let '(out, truncated, s') := drain s in (Ok (mkResult out None state truncated false), s').

(** What ends a select: output, the end of the reader, the timer, the context. *)
Inductive wake := Notify | ReaderDone | Timer | Cancelled.

(** [waitSentinel] on what was read before each wake; [None] is still waiting. *)
Fixpoint waitSentinel (prefix : string) (events : list (list string * wake)) (s : session)
    : option (result term_error ExecuteResult * session) :=
  match tryConsumeSentinel prefix s with
  | Some (res, s') => Some (Ok res, s')
  | None =>
      match events with
      | [] => None
      | (chunks, w) :: rest =>
          let s := read_all chunks s in
          match w with
          | Notify => waitSentinel prefix rest s
          | ReaderDone =>
              let s := set_closed s in
              match tryConsumeSentinel prefix s with
              | Some (res, s') => Some (Ok res, s')
              | None => Some (drained StateLost s)
              end
          | Timer => Some (drained StateRunning s)
          | Cancelled => Some (Err EContext, s)
          end
      end
  end.

Definition appendStatusLine (out status : string) : string :=
  if negb (str_eq out "") && negb (has_suffix out (str1 newline)) then out +:+ str1 newline +:+ status else out +:+ status.
Definition with_line (status : string) (r : ExecuteResult) : ExecuteResult :=
  mkResult (appendStatusLine (Output r) status) (ExitCode r) (rState r) (Truncated r) (NewSession r).
Definition lost_line : string := "[Status: Session ended before the command reported completion]".

Definition on_result (f : ExecuteResult -> ExecuteResult) (w : option (result term_error ExecuteResult * session))
    : option (result term_error ExecuteResult * session) :=
  match w with
  | Some (Ok r, s) => Some (Ok (f r), s)
  | w => w
  end.
Definition waitSentinelOrTimeout (prefix : string) events (s : session) :=
  on_result (fun r => match rState r with
                      | StateRunning => with_line "[Status: Running in background]" r
                      | StateLost => with_line lost_line r
                      | _ => r
                      end) (waitSentinel prefix events s).

Definition pollOutput events (s : session) : option (result term_error ExecuteResult * session) :=
  if busy s then waitSentinelOrTimeout (activeSentinel s) events s else Some (drained StateIdle s).

(** The end of [Execute] once the session is held: [write_ok] is the answer of the
    write of the payload; a failed one closes the session. *)
Definition execute_command (dialect cwd rawCmd : string) (token : option string) (write_ok created : bool) events (s : session)
    : option (result term_error ExecuteResult * session) :=
  if busy s then Some (Err EBusy, s)
  else match buildSentinelPayload dialect cwd rawCmd (trim_space rawCmd) token with
       | Err e => Some (Err e, s)
       | Ok (prefix, payload) =>
           if write_ok
           then on_result (fun r => mkResult (Output r) (ExitCode r) (rState r) (Truncated r) created)
                  (waitSentinelOrTimeout prefix events (setSentinel prefix s))
           else Some (Err EWrite, set_closed (setSentinel EmptyString s))
       end.

(** [settleIdleSignal]: [chunks] are read and [closed] tells whether the reader
    ended before its drain. *)
Definition settleIdleSignal (upper : string) (chunks : list string) (closed : bool) (s : session) : ExecuteResult * session :=
  let s := read_all chunks s in
  let s := if closed || str_eq upper "SIGKILL" then set_closed s else s in
  let '(out, truncated, s) := drain s in
  if str_eq upper "SIGKILL"
  then (mkResult (appendStatusLine out "[Status: Session terminated by SIGKILL]") None StateLost truncated false, s)
  else if s_closed s
  then (mkResult (appendStatusLine out ("[Status: Signal " +:+ upper +:+ " sent; session closed]")) None StateLost truncated false, s)
  else (mkResult (appendStatusLine out ("[Status: Signal " +:+ upper +:+ " sent]")) None StateIdle truncated false, s).

Definition sendSignal (upper : string) (sig_ok : bool) (chunks : list string) (closed : bool) events (s : session)
    : option (result term_error ExecuteResult * session) :=
  if negb sig_ok && negb (str_eq upper "SIGKILL") then Some (Err ESignal, s)
  else if negb (busy s) || str_eq upper "SIGKILL"
  then let '(r, s) := settleIdleSignal upper chunks closed s in Some (Ok r, s)
  else on_result (fun r => match rState r with
                           | StateCompleted => with_line ("[Status: Signal " +:+ upper +:+ " sent]") r
                           | StateRunning => with_line ("[Status: Signal " +:+ upper +:+ " sent; command still running]") r
                           | _ => with_line lost_line r
                           end) (waitSentinel (activeSentinel s) events s).

(** * The buffer *)
Lemma read_chunk_spec s chunk : s_closed (read_chunk s chunk) = s_closed s /\ activeSentinel (read_chunk s chunk) = activeSentinel s.
Proof. unfold read_chunk. by destruct (_ <? _). Qed.

Lemma read_all_same chunks : forall s,
  s_closed (read_all chunks s) = s_closed s /\ activeSentinel (read_all chunks s) = activeSentinel s.
Proof.
  induction chunks as [|c chunks IH]; intros s; [done|]. change (read_all (c :: chunks) s) with (read_all chunks (read_chunk s c)).
  destruct (IH (read_chunk s c)) as [-> ->]. apply read_chunk_spec.
Qed.

(** The last [n] bytes. *)
Definition last_bytes (n : Z) (s : string) : string := drop_bytes (Z.to_nat (len s - n)) s.
Definition concat_str (l : list string) : string := String.concat "" l.

Lemma concat_str_cons c l : concat_str (c :: l) = c +:+ concat_str l.
Proof. unfold concat_str. destruct l as [|d l]; simpl; [by rewrite app_nil_r_str|done]. Qed.

Lemma drop_bytes_add a b s : drop_bytes (a + b) s = drop_bytes a (drop_bytes b s).
Proof. revert b s. induction b as [|b IH]; intros s; [by rewrite Nat.add_0_r|]. rewrite Nat.add_succ_r. destruct s; simpl; [by destruct a|apply IH]. Qed.

Lemma drop_bytes_short n s t : (n <= String.length s)%nat -> drop_bytes n (s +:+ t) = drop_bytes n s +:+ t.
Proof. revert s. induction n as [|n IH]; intros [|c s] Hn; simpl in *; try done; [lia|]. apply IH. lia. Qed.

Lemma length_drop n (s : string) : String.length (drop_bytes n s) = (String.length s - n)%nat.
Proof. revert s. induction n as [|n IH]; intros [|c s]; simpl; auto. Qed.

(** Keeping the last bytes at once is keeping them at every step. *)
Lemma last_bytes_app n s t : 0 <= n -> last_bytes n (last_bytes n s +:+ t) = last_bytes n (s +:+ t).
Proof.
  intros Hn. unfold last_bytes, len. rewrite !length_app_str, length_drop.
  set (a := String.length s). set (b := String.length t).
  rewrite <- (drop_bytes_short (Z.to_nat (Z.of_nat a - n)) s t) by lia. rewrite <- drop_bytes_add. f_equal. lia.
Qed.

Lemma last_bytes_all s : len (s_buf s) <= maxBufferBytes ->
  s_buf s = last_bytes maxBufferBytes (s_buf s +:+ concat_str []).
Proof.
  intros Hle. unfold last_bytes, concat_str. simpl. rewrite app_nil_r_str.
  by replace (Z.to_nat (len (s_buf s) - maxBufferBytes)) with 0%nat by lia.
Qed.

Lemma read_all_cons c chunks s : read_all (c :: chunks) s = read_all chunks (read_chunk s c).
Proof. done. Qed.

Lemma read_chunk_buffer s c : len (s_buf s) <= maxBufferBytes ->
  s_buf (read_chunk s c) = last_bytes maxBufferBytes (s_buf s +:+ c) /\ len (s_buf (read_chunk s c)) <= maxBufferBytes /\
  s_truncated (read_chunk s c) = s_truncated s || (maxBufferBytes <? len (s_buf s +:+ c)).
Proof.
  intros Hle. unfold read_chunk, last_bytes. destruct (Z.ltb_spec maxBufferBytes (len (s_buf s +:+ c))); simpl.
  - split_and!; [done|unfold len in *; rewrite length_drop; lia|by rewrite orb_true_r].
  - split_and!; [by replace (Z.to_nat _) with 0%nat by lia|done|by rewrite orb_false_r].
Qed.

(** the buffer of a session is the last 256 KiB of its output, however the
    reads cut that output, and the mark of truncation is set exactly when some of
    it was lost; reading never touches the command in flight. *)
Theorem buffer_keeps_last chunks s :
  len (s_buf s) <= maxBufferBytes ->
  let total := s_buf s +:+ concat_str chunks in
  let s' := read_all chunks s in
  s_buf s' = last_bytes maxBufferBytes total /\ len (s_buf s') <= maxBufferBytes /\
  s_truncated s' = s_truncated s || (maxBufferBytes <? len total) /\ activeSentinel s' = activeSentinel s.
Proof.
  cbv zeta. intros Hle. split_and!; [| | |apply read_all_same]; revert s Hle.
  - induction chunks as [|c chunks IH]; intros s Hle; [by apply last_bytes_all|]. rewrite concat_str_cons, read_all_cons.
    destruct (read_chunk_buffer s c Hle) as (Hb & Hl & _). rewrite (IH _ Hl), Hb, last_bytes_app by done. by rewrite app_assoc_str.
  - induction chunks as [|c chunks IH]; intros s Hle; [done|]. rewrite read_all_cons. apply IH. by apply read_chunk_buffer.
  - induction chunks as [|c chunks IH]; intros s Hle.
    + unfold concat_str. simpl. rewrite app_nil_r_str.
      replace (maxBufferBytes <? len (s_buf s)) with false by (symmetry; apply Z.ltb_ge; lia). by rewrite orb_false_r.
    + rewrite concat_str_cons, read_all_cons. destruct (read_chunk_buffer s c Hle) as (Hb & Hl & Ht).
      rewrite (IH _ Hl), Hb, Ht, <- orb_assoc. f_equal. unfold last_bytes, len.
      rewrite !length_app_str, length_drop, !length_app_str. apply eq_true_iff_eq. rewrite orb_true_iff, !Z.ltb_lt. lia.
Qed.

(** * Completion *)
Lemma cut_some sub s pre post : cut sub s = Some (pre, post) -> first_at s sub pre post.
Proof.
  revert pre post. induction s as [|c s IH]; intros pre post; cbn [cut].
  - destruct (strip_prefix sub "") as [t|] eqn:E; [|done]. intros [= <- <-]. apply strip_prefix_spec in E.
    split; [done|]. intros. simpl. lia.
  - destruct (strip_prefix sub (String c s)) as [t|] eqn:E.
    + intros [= <- <-]. apply strip_prefix_spec in E. split; [done|]. intros. simpl. lia.
    + destruct (cut sub s) as [[pre0 post0]|] eqn:Ec; [|done]. intros [= <- <-]. destruct (IH _ _ eq_refl) as [Hs Hmin].
      split; [by rewrite Hs|]. intros [|d pre'] post' Heq.
      * assert (Hx : strip_prefix sub (String c s) = Some post') by (by apply strip_prefix_spec). congruence.
      * injection Heq as _ Heq. apply Hmin in Heq. simpl. lia.
Qed.

Lemma cut_none sub s : cut sub s = None -> contains s sub = false.
Proof.
  induction s as [|c s IH]; cbn [cut contains]; unfold has_prefix.
  - by destruct (strip_prefix sub "").
  - destruct (strip_prefix sub (String c s)); [done|]. destruct (cut sub s) as [[? ?]|]; [done|]. intros _. by apply IH.
Qed.

(** Two ways to cut one text. *)
Lemma app_split (a b x y : string) : a +:+ b = x +:+ y ->
  (exists v, x = a +:+ v /\ b = v +:+ y) \/ (exists v, a = x +:+ v /\ y = v +:+ b).
Proof.
  revert x. induction a as [|c a IH]; intros x; [left; by exists x|]. destruct x as [|d x].
  - simpl. intros E. right. exists (String c a). split; [done|]. by rewrite <- E.
  - simpl. intros [= -> E]. destruct (IH x E) as [(v & -> & ->)|(v & -> & ->)]; [left|right]; by exists v.
Qed.

Lemma app_same_length (a b x y : string) : a +:+ b = x +:+ y -> String.length a = String.length x -> a = x /\ b = y.
Proof.
  revert x. induction a as [|c a IH]; intros [|d x]; simpl; try done. intros [= -> E] [= Hl].
  by destruct (IH x E Hl) as [-> ->].
Qed.

Lemma span_digits_app d r : all_bytes is_digit d = true ->
  match r with String c _ => is_digit c = false | EmptyString => True end -> span_digits (d +:+ r) = (d, r).
Proof.
  intros Hd Hr. induction d as [|c d IH].
  - destruct r as [|c r]; [done|]. simpl. by rewrite Hr.
  - rewrite all_bytes_cons in Hd. apply andb_true_iff in Hd as [Hc Hd]. simpl. rewrite Hc. by rewrite (IH Hd).
Qed.

Lemma all_bytes_prefix f a b : all_bytes f (a +:+ b) = true -> all_bytes f a = true.
Proof.
  induction a as [|c a IH]; [done|]. simpl. rewrite !all_bytes_cons. intros [-> H]%andb_true_iff. by apply IH.
Qed.

(** Text of digits and underscores, and text that is not. *)
Definition code_byte (c : ascii) : bool := is_digit c || Ascii.eqb c "_".
Lemma no_sub f sub s : all_bytes f s = true -> exists_byte (fun c => negb (f c)) sub = true -> contains s sub = false.
Proof.
  intros Hs Hsub. apply not_true_iff_false. intros (a & b & ->)%contains_spec. unfold all_bytes in Hs.
  apply negb_true_iff in Hs. rewrite !exists_byte_app, Hsub, orb_true_r in Hs. done.
Qed.

Lemma strip_end_none v t u : v +:+ String t u = sentinelEnd -> strip_prefix sentinelEnd v = None.
Proof.
  intros E. destruct (strip_prefix sentinelEnd v) as [w|] eqn:Ew; [|done]. apply strip_prefix_spec in Ew.
  assert (Hl : String.length (v +:+ String t u) = 3%nat) by (by rewrite E). rewrite Ew in Hl.
  rewrite !length_app_str in Hl. simpl in Hl. lia.
Qed.

Section Completion.
Variables (p pre d post : string) (code : Z).
Hypothesis p_letter : exists_byte (fun c => negb (code_byte c)) p = true.
Hypothesis d_digits : all_bytes is_digit d = true.
Hypothesis d_code : parse_uint32 d = Some code.
Hypothesis d_some : d <> "".
Let total : string := pre +:+ p +:+ d +:+ sentinelEnd +:+ post.
Hypothesis first : first_at total p pre (d +:+ sentinelEnd +:+ post).

Lemma code_bytes : all_bytes code_byte (d +:+ sentinelEnd) = true.
Proof.
  clear -d_digits. induction d as [|c r IH]; [done|]. rewrite all_bytes_cons in d_digits. apply andb_true_iff in d_digits as [Hc Hr].
  simpl. rewrite all_bytes_cons. unfold code_byte at 1. rewrite Hc. by apply IH.
Qed.

Lemma partial_code after u t : after +:+ String t u = d +:+ sentinelEnd -> parseExitCode after = None /\ cut p after = None.
Proof.
  intros E. pose proof code_bytes as Hc. rewrite <- E in Hc. apply all_bytes_prefix in Hc.
  split.
  - unfold parseExitCode. destruct (app_split _ _ _ _ E) as [(v & Hd & _)|(v & -> & Hv)].
    + assert (Hda : all_bytes is_digit after = true) by (rewrite Hd in d_digits; by eapply all_bytes_prefix).
      pose proof (span_digits_app after "" Hda I) as Hs. rewrite app_nil_r_str in Hs. rewrite Hs. by destruct (str_eq after "").
    + rewrite span_digits_app; [|done|].
      * rewrite (strip_end_none v t u) by done. by destruct (str_eq d "").
      * destruct v as [|c v]; [done|]. by injection Hv as <- _.
  - destruct (cut p after) as [[x y]|] eqn:Ec; [|done]. apply cut_some in Ec as [Ec _].
    assert (contains after p = true) by (apply contains_spec; by exists x, y). rewrite (no_sub _ p after Hc p_letter) in H. done.
Qed.

(** What is found in a part of the output that the reader has seen. *)
Lemma consume_part buf u : buf +:+ u = total ->
  (exists v, buf = pre +:+ p +:+ d +:+ sentinelEnd +:+ v /\ consume p buf = Some (pre, code, skip_newlines v)) \/
  (consume p buf = None /\ u <> "").
Proof.
  intros E. unfold consume. cbn [find_sentinel]. destruct (cut p buf) as [[pre' after]|] eqn:Ec.
  - apply cut_some in Ec as [Hb Hmin]. destruct first as [_ Hfirst].
    assert (E' : total = pre' +:+ p +:+ (after +:+ u)) by (rewrite <- E, Hb, <- !app_assoc_str; done).
    assert (Hle : (String.length pre <= String.length pre')%nat) by (by apply (Hfirst pre' (after +:+ u))).
    assert (Hge : (String.length pre' <= String.length pre)%nat).
    { rewrite Hb in E. assert (E2 : (pre' +:+ p +:+ after) +:+ u = (pre +:+ p) +:+ (d +:+ sentinelEnd +:+ post))
        by (rewrite E; unfold total; by rewrite <- (app_assoc_str pre p)).
      destruct (app_split _ _ _ _ E2) as [(v & Hv & _)|(v & Hv & _)].
      - assert (Hl : String.length (pre +:+ p) = String.length ((pre' +:+ p +:+ after) +:+ v)) by (by rewrite Hv).
        rewrite !length_app_str in Hl. lia.
      - apply (Hmin pre v). rewrite Hb, Hv. by rewrite <- app_assoc_str. }
    assert (Hpre : pre' = pre /\ p +:+ after +:+ u = p +:+ d +:+ sentinelEnd +:+ post).
    { apply app_same_length; [|lia]. unfold total in E'. congruence. }
    destruct Hpre as [-> Hrest]. apply app_inj_l in Hrest. rewrite app_assoc_str in Hrest.
    destruct (app_split _ _ _ _ Hrest) as [(v & Hv & Hu)|(v & Hv & _)].
    + destruct v as [|t v].
      * rewrite app_nil_r_str in Hv. left. exists "". rewrite Hb, <- Hv. split; [by rewrite app_nil_r_str|].
        unfold parseExitCode. rewrite span_digits_app by done. rewrite (proj2 (str_eq_false d "")) by done.
        change (strip_prefix sentinelEnd sentinelEnd) with (Some ""). by rewrite d_code.
      * right. split; [|by rewrite Hu]. destruct (partial_code after v t (eq_sym Hv)) as [Hp Hc]. rewrite Hp.
        destruct (String.length buf); [done|]. cbn [find_sentinel]. by rewrite Hc.
    + left. exists v. rewrite Hb, Hv, <- !app_assoc_str. split; [done|].
      unfold parseExitCode. rewrite span_digits_app by done. rewrite (proj2 (str_eq_false d "")) by done.
      assert (Hst : strip_prefix sentinelEnd (sentinelEnd +:+ v) = Some v) by (by apply strip_prefix_spec).
      rewrite Hst, d_code. done.
  - right. split; [done|]. intros ->. rewrite app_nil_r_str in E. apply cut_none in Ec. rewrite E in Ec.
    assert (contains total p = true) by (apply contains_spec; by exists pre, (d +:+ sentinelEnd +:+ post)). congruence.
Qed.
End Completion.

Lemma app_nil_str (a b : string) : a +:+ b = a -> b = "".
Proof. induction a as [|c a IH]; simpl; [done|]. intros [= E]. by apply IH. Qed.

Lemma read_all_small chunks s : len (s_buf s +:+ concat_str chunks) <= maxBufferBytes ->
  read_all chunks s = mkSession (s_buf s +:+ concat_str chunks) (s_truncated s) (activeSentinel s) (s_closed s).
Proof.
  revert s. induction chunks as [|c chunks IH]; intros s Hle.
  - unfold concat_str. simpl. rewrite app_nil_r_str. by destruct s.
  - rewrite concat_str_cons in *. rewrite read_all_cons. unfold read_chunk at 1.
    assert (Hc : len (s_buf s +:+ c) <= maxBufferBytes).
    { unfold len in *. rewrite app_assoc_str, length_app_str in Hle. lia. }
    rewrite (proj2 (Z.ltb_ge _ _) Hc). rewrite IH by (simpl; by rewrite <- app_assoc_str). simpl. by rewrite <- app_assoc_str.
Qed.

(** What the reader appends before the wakes of a wait. *)
Definition output_of (events : list (list string * wake)) : string := concat_str (concat (map fst events)).

Lemma concat_str_app a b : concat_str (a ++ b) = concat_str a +:+ concat_str b.
Proof. induction a as [|c a IH]; [done|]. simpl. by rewrite !concat_str_cons, IH, app_assoc_str. Qed.

(** a completion is seen however the reads cut the output: if the output of
    a command has its sentinel with an exit code, the wait ends Completed with
    that code and the cleaned text before it, and the session is free again.  The
    prefix need only hold a byte that no exit code has. *)
Theorem completion_any_chunking p pre d post code events s :
  exists_byte (fun c => negb (code_byte c)) p = true ->
  all_bytes is_digit d = true -> d <> "" -> parse_uint32 d = Some code ->
  let total := s_buf s +:+ output_of events in
  first_at total p pre (d +:+ sentinelEnd +:+ post) -> len total <= maxBufferBytes ->
  Forall (fun e => e.2 = Notify) events ->
  exists s', waitSentinel p events s =
      Some (Ok (mkResult (cleanTerminalOutput pre) (Some code) StateCompleted (s_truncated s) false), s') /\
    activeSentinel s' = "".
Proof.
  intros Hp Hd Hne Hcode. cbv zeta. revert s. induction events as [|[chunks w] events IH]; intros s Hfirst Hlen Hn.
  - assert (E : s_buf s +:+ "" = pre +:+ p +:+ d +:+ sentinelEnd +:+ post) by (destruct Hfirst as [E _]; exact E).
    unfold output_of, concat_str in Hfirst. simpl in Hfirst, E. rewrite E in Hfirst.
    destruct (consume_part p pre d post code Hp Hd Hcode Hne Hfirst _ _ E) as [(v & _ & Hc)|[_ Hu]]; [|done].
    cbn [waitSentinel]. unfold tryConsumeSentinel. rewrite Hc. eexists. by split.
  - pose proof (proj1 Hfirst) as E. rewrite E in Hfirst.
    apply Forall_cons in Hn as [Hw Hn]. simpl in Hw. subst w. cbn [waitSentinel]. unfold tryConsumeSentinel.
    destruct (consume_part p pre d post code Hp Hd Hcode Hne Hfirst _ _ E) as [(v & _ & Hc)|[Hc _]]; rewrite Hc.
    + eexists. by split.
    + unfold output_of in E, Hlen. simpl in E, Hlen. rewrite concat_str_app, app_assoc_str in E, Hlen.
      assert (Hsmall : len (s_buf s +:+ concat_str chunks) <= maxBufferBytes).
      { unfold len in *. rewrite length_app_str in Hlen. lia. }
      rewrite (read_all_small _ _ Hsmall).
      destruct (IH (mkSession (s_buf s +:+ concat_str chunks) (s_truncated s) (activeSentinel s) (s_closed s))) as (s' & Hs' & Hact).
      * simpl. fold (output_of events) in E. by rewrite E.
      * done.
      * done.
      * by exists s'.
Qed.

(** ** The command in flight *)
Lemma tryConsume_spec p s r s' : tryConsumeSentinel p s = Some (r, s') ->
  rState r = StateCompleted /\ is_Some (ExitCode r) /\ activeSentinel s' = "".
Proof. unfold tryConsumeSentinel. destruct (consume p (s_buf s)) as [[[b c] rest]|]; [|done]. intros [= <- <-]. simpl. split_and!; [done|by eexists|done]. Qed.

(** A wait that ends leaves the command in flight, or it completed. *)
Definition settled (p : string) (r : result term_error ExecuteResult) (s' : session) : Prop :=
  activeSentinel s' = p \/
  exists res, r = Ok res /\ rState res = StateCompleted /\ is_Some (ExitCode res) /\ activeSentinel s' = "".

Lemma wait_settled p events : forall s r s',
  waitSentinel p events s = Some (r, s') -> settled (activeSentinel s) r s'.
Proof.
  induction events as [|[chunks w] events IH]; intros s r s'; cbn [waitSentinel].
  - destruct (tryConsumeSentinel p s) as [[res s1]|] eqn:E; [|done]. intros [= <- <-].
    apply tryConsume_spec in E as (? & ? & ?). right. by exists res.
  - destruct (tryConsumeSentinel p s) as [[res s1]|] eqn:E.
    { intros [= <- <-]. apply tryConsume_spec in E as (? & ? & ?). right. by exists res. }
    destruct (read_all_same chunks s) as [_ Hact]. destruct w.
    + intros H. apply IH in H. by rewrite Hact in H.
    + destruct (tryConsumeSentinel p (set_closed (read_all chunks s))) as [[res s1]|] eqn:E2.
      * intros [= <- <-]. apply tryConsume_spec in E2 as (? & ? & ?). right. by exists res.
      * unfold drained, drain. intros [= <- <-]. by left.
    + unfold drained, drain. intros [= <- <-]. by left.
    + intros [= <- <-]. by left.
Qed.

Lemma on_result_settled p f w r s' :
  (forall res, rState (f res) = rState res /\ ExitCode (f res) = ExitCode res) ->
  (forall r0, w = Some (r0, s') -> settled p r0 s') -> on_result f w = Some (r, s') -> settled p r s'.
Proof.
  intros Hf Hw. destruct w as [[[res|e] s1]|]; simpl; [| |done]; intros [= <- <-].
  - destruct (Hw _ eq_refl) as [?|(res' & [= <-] & H1 & H2 & H3)]; [by left|]. right. destruct (Hf res) as [E1 E2].
    exists (f res). rewrite E1, E2. done.
  - by apply Hw.
Qed.

(** A call on a session: a command, a poll, a signal. *)
Inductive call_on (s : session) : result term_error ExecuteResult -> session -> Prop :=
  | co_command dialect cwd rawCmd token write_ok created events r s' :
      execute_command dialect cwd rawCmd token write_ok created events s = Some (r, s') -> call_on s r s'
  | co_poll events r s' : pollOutput events s = Some (r, s') -> call_on s r s'
  | co_signal upper sig_ok chunks closed events r s' :
      str_eq upper "SIGKILL" = false -> sendSignal upper sig_ok chunks closed events s = Some (r, s') -> call_on s r s'.

(** one command at a time: while a command is in flight another one is
    refused without any effect, and no poll and no signal but SIGKILL frees the
    session - only the observed completion with its exit code does. *)
Theorem one_command_at_a_time s r s' :
  busy s = true ->
  (forall dialect cwd rawCmd token write_ok created events,
     execute_command dialect cwd rawCmd token write_ok created events s = Some (Err EBusy, s)) /\
  (call_on s r s' -> settled (activeSentinel s) r s').
Proof.
  intros Hb. split; [intros; unfold execute_command; by rewrite Hb|]. intros H.
  destruct H as [dialect cwd rawCmd token write_ok created events r s' H|events r s' H|upper sig_ok chunks closed events r s' Hk H].
  - unfold execute_command in H. rewrite Hb in H. injection H as <- <-. by left.
  - unfold pollOutput in H. rewrite Hb in H. eapply on_result_settled, H; [|intros r0; apply wait_settled].
    intros res. by destruct (rState res) eqn:E; simpl; rewrite ?E.
  - unfold sendSignal in H. rewrite Hb, Hk in H. destruct (negb sig_ok && negb false); [injection H as <- <-; by left|].
    simpl in H. eapply on_result_settled, H; [|intros r0; apply wait_settled].
    intros res. by destruct (rState res) eqn:E; simpl; rewrite ?E.
Qed.

(** * The payload *)

(** The bytes of the mark. *)
Definition mark_byte (c : ascii) : bool := byte_member c sentinelMark.

Lemma contains_app_sep m a c b : byte_member c m = false -> m <> "" ->
  contains (a +:+ String c b) m = contains a m || contains b m.
Proof.
  intros Hc Hm. assert (Hpre : forall x, has_prefix (x +:+ String c b) m = has_prefix x m).
  { clear Hm. revert Hc. induction m as [|d m IH]; intros Hc x; [done|]. unfold byte_member in Hc. cbn [exists_byte] in Hc.
    apply orb_false_iff in Hc as [Hcd Hc]. unfold has_prefix in *. destruct x as [|e x]; simpl.
    - rewrite Ascii.eqb_sym, Hcd. done.
    - destruct (Ascii.eqb d e); [|done]. by apply IH. }
  induction a as [|e a IH].
  - pose proof (Hpre "") as H0. cbn [String.append contains] in *. rewrite H0. by destruct m.
  - pose proof (Hpre (String e a)) as H0. cbn [String.append contains] in *. rewrite H0, IH. by rewrite orb_assoc.
Qed.

(** Escaping that replaces only bytes outside the mark, by such bytes. *)
Lemma contains_escaped (f : ascii -> string) (esc : string -> string) m :
  m <> "" -> all_bytes mark_byte m = true ->
  (forall c r, esc (String c r) = f c +:+ esc r) -> esc "" = "" ->
  (forall c, mark_byte c = true -> f c = str1 c) ->
  (forall c, mark_byte c = false -> f c <> "" /\ all_bytes (fun x => negb (mark_byte x)) (f c) = true) ->
  forall s q, match q with String c _ => mark_byte c = false | EmptyString => True end ->
  contains q m = false -> contains s m = false -> contains (esc s +:+ q) m = false.
Proof.
  intros Hm Hmark Hesc He Hin Hout s q Hq Hcq.
  assert (Hpre : forall m', all_bytes mark_byte m' = true -> forall s, has_prefix (esc s +:+ q) m' = true -> has_prefix s m' = true).
  { induction m' as [|d m' IH]; intros Hm' s0; [done|]. rewrite all_bytes_cons in Hm'. apply andb_true_iff in Hm' as [Hd Hm'].
    destruct s0 as [|c r].
    - rewrite He. unfold has_prefix. simpl. destruct q as [|c q]; [done|]. simpl. destruct (Ascii.eqb_spec d c) as [->|]; [congruence|done].
    - rewrite Hesc. destruct (mark_byte c) eqn:Ec.
      + rewrite (Hin c Ec). unfold has_prefix in *. simpl. destruct (Ascii.eqb d c); [|done]. by apply IH.
      + destruct (Hout c Ec) as [Hne Hall]. destruct (f c) as [|x fx]; [done|]. rewrite all_bytes_cons in Hall.
        apply andb_true_iff in Hall as [Hx _]. apply negb_true_iff in Hx. unfold has_prefix. simpl.
        destruct (Ascii.eqb_spec d x) as [->|]; [congruence|done]. }
  destruct m as [|d m0]; [done|]. set (m := String d m0) in *.
  assert (Hfirst : forall x y, negb (mark_byte x) = true -> has_prefix (String x y) m = false).
  { intros x y Hx. unfold m in Hmark. rewrite all_bytes_cons in Hmark. apply andb_true_iff in Hmark as [Hd _].
    unfold has_prefix, m. simpl. destruct (Ascii.eqb_spec d x) as [->|]; [|done]. apply negb_true_iff in Hx. congruence. }
  assert (Hskip : forall x rest, all_bytes (fun c => negb (mark_byte c)) x = true -> contains (x +:+ rest) m = contains rest m).
  { induction x as [|x0 x IH]; intros rest Hx; [done|]. rewrite all_bytes_cons in Hx. apply andb_true_iff in Hx as [H0 Hx].
    cbn [String.append contains]. rewrite (Hfirst x0 _ H0). by apply IH. }
  induction s as [|c r IH]; intros Hs.
  - by rewrite He.
  - cbn [contains] in Hs. apply orb_false_iff in Hs as [Hp Hs]. rewrite Hesc, <- app_assoc_str. destruct (mark_byte c) eqn:Ec.
    + rewrite (Hin c Ec). cbn [str1 String.append contains]. rewrite (IH Hs), orb_false_r. apply not_true_iff_false. intros Hp'.
      assert (has_prefix (String c r) m = true); [|congruence]. apply (Hpre m Hmark). rewrite Hesc, (Hin c Ec). exact Hp'.
    + destruct (Hout c Ec) as [_ Hall]. rewrite Hskip by done. by apply IH.
Qed.

Lemma mark_marks : all_bytes mark_byte sentinelMark = true. Proof. reflexivity. Qed.

Lemma cd_line_clean dialect cwd : contains cwd sentinelMark = false -> contains (cd_line dialect cwd) sentinelMark = false.
Proof.
  intros Hc. unfold cd_line.
  assert (Hq : forall esc, (forall q, match q with String c _ => mark_byte c = false | EmptyString => True end ->
      contains q sentinelMark = false -> contains (esc cwd +:+ q) sentinelMark = false) ->
    contains ("cd -- " +:+ ("'" +:+ esc cwd +:+ "'") +:+ str1 newline) sentinelMark = false).
  { intros esc He. change ("cd -- " +:+ ("'" +:+ esc cwd +:+ "'") +:+ str1 newline)
      with ("cd -- " +:+ String squote ((esc cwd +:+ "'") +:+ str1 newline)).
    rewrite contains_app_sep by done. rewrite <- app_assoc_str. apply orb_false_iff. split; [done|]. by apply He. }
  destruct (str_eq dialect LaunchFish); [|destruct (str_eq dialect LaunchCsh)];
    [refine (Hq fish_escape _)|refine (Hq csh_escape _)|refine (Hq (fun v => replace_all v "'" "'\''") _)]; clear Hq; intros q Hq1 Hq2.
  - apply (contains_escaped (fun c => if Ascii.eqb c bslash || Ascii.eqb c squote then String bslash (str1 c) else str1 c)); try done.
    + intros c r. cbn [fish_escape]. by destruct (_ || _).
    + intros c Hm. destruct (Ascii.eqb_spec c bslash) as [->|]; [done|]. by destruct (Ascii.eqb_spec c squote) as [->|].
    + intros c Hm. destruct (Ascii.eqb_spec c bslash) as [->|]; [done|]. destruct (Ascii.eqb_spec c squote) as [->|]; [done|].
      simpl. unfold all_bytes. simpl. by rewrite Hm.
  - apply (contains_escaped (fun c => if Ascii.eqb c squote then "'\''" else if Ascii.eqb c "!" then "\!"
      else if Ascii.eqb c newline then String bslash (str1 newline) else str1 c)); try done.
    + intros c Hm. destruct (Ascii.eqb_spec c squote) as [->|]; [done|]. destruct (Ascii.eqb_spec c "!") as [->|]; [done|].
      by destruct (Ascii.eqb_spec c newline) as [->|].
    + intros c Hm. destruct (Ascii.eqb_spec c squote) as [->|]; [done|]. destruct (Ascii.eqb_spec c "!") as [->|]; [done|].
      destruct (Ascii.eqb_spec c newline) as [->|]; [done|]. simpl. unfold all_bytes. simpl. by rewrite Hm.
  - apply (contains_escaped (fun c => if Ascii.eqb c squote then "'\''" else str1 c) (fun v => replace_all v "'" "'\''")); try done.
    + intros c r. apply replace_all_quote.
    + intros c Hm. by destruct (Ascii.eqb_spec c squote) as [->|].
    + intros c Hm. destruct (Ascii.eqb_spec c squote) as [->|]; [done|]. simpl. unfold all_bytes. simpl. by rewrite Hm.
Qed.

Lemma string_rev_app_spec s : forall acc, string_rev_app s acc = string_rev s +:+ acc.
Proof.
  unfold string_rev. induction s as [|c s IH]; intros acc; [done|]. simpl. rewrite (IH (String c acc)), (IH (String c EmptyString)), <- app_assoc_str. done.
Qed.
Lemma string_rev_cons c s : string_rev (String c s) = string_rev s +:+ str1 c.
Proof. unfold string_rev. simpl. apply string_rev_app_spec. Qed.
Lemma string_rev_append a b : string_rev (a +:+ b) = string_rev b +:+ string_rev a.
Proof.
  induction a as [|c a IH]; simpl; [unfold string_rev at 3; simpl; by rewrite app_nil_r_str|].
  by rewrite !string_rev_cons, IH, app_assoc_str.
Qed.
Lemma string_rev_twice s : string_rev (string_rev s) = s.
Proof. induction s as [|c s IH]; [done|]. rewrite string_rev_cons, string_rev_append, IH. done. Qed.
Lemma has_suffix_spec s p : has_suffix s p = true -> exists t, s = t +:+ p.
Proof.
  unfold has_suffix. intros (t & Ht)%has_prefix_spec. exists (string_rev t).
  rewrite <- (string_rev_twice s), Ht, string_rev_append, string_rev_twice. done.
Qed.

Definition is_lower_hex (c : ascii) : bool := is_digit c || byte_in 97 102 c.

Lemma hex_not_mark c : is_lower_hex c = true -> mark_byte c = false.
Proof. destruct c as [[] [] [] [] [] [] [] []]; intros H; first [reflexivity|discriminate H]. Qed.

Lemma printf_line_clean dialect token : all_bytes is_lower_hex token = true -> contains (printf_line dialect token) sentinelMark = false.
Proof.
  intros Ht. unfold printf_line.
  set (rest := str1 " " +:+ status_expr dialect +:+ str1 newline).
  assert (Hrest : contains rest sentinelMark = false).
  { unfold rest, status_expr. destruct (str_eq dialect LaunchFish); [done|]. by destruct (str_eq dialect LaunchCsh). }
  change (contains (("printf '\n%s%s_%d" +:+ sentinelEnd +:+ "\n' '" +:+ sentinelHead +:+ "' ") +:+
    String squote ((sentinelTail +:+ token) +:+ String squote rest)) sentinelMark = false).
  rewrite contains_app_sep by done. apply orb_false_iff. split; [done|].
  rewrite contains_app_sep by done. apply orb_false_iff. split; [|exact Hrest]. destruct token as [|t tl]; [done|].
  rewrite all_bytes_cons in Ht. apply andb_true_iff in Ht as [Htl Ht].
  rewrite contains_app_sep; [|by apply hex_not_mark|done]. apply orb_false_iff. split; [done|].
  apply (no_sub (fun c => negb (mark_byte c))); [|done]. unfold all_bytes in *. apply negb_true_iff. apply negb_true_iff in Ht.
  apply not_true_iff_false. intros (a & c & b & -> & Hc)%exists_byte_spec. apply negb_true_iff, negb_false_iff in Hc.
  assert (Hh : is_lower_hex c = true); [|apply hex_not_mark in Hh; congruence].
  rewrite exists_byte_app in Ht. apply orb_false_iff in Ht as [_ Ht]. simpl in Ht. apply orb_false_iff in Ht as [Ht _].
  by apply negb_false_iff in Ht.
Qed.

(** an echoed command line is never taken for a completion: no text of the
    payload - the directory change, the command, the printf of the sentinel, in
    any of the quotings - holds the mark, unless the caller's own text does. *)
Theorem payload_never_completes dialect cwd rawCmd trimmed token prefix payload :
  buildSentinelPayload dialect cwd rawCmd trimmed (Some token) = Ok (prefix, payload) ->
  all_bytes is_lower_hex token = true ->
  contains cwd sentinelMark = false -> contains rawCmd sentinelMark = false ->
  contains payload sentinelMark = false /\ consume prefix payload = None /\ has_prefix prefix sentinelMark = true.
Proof.
  intros Hb Ht Hcwd Hraw. unfold buildSentinelPayload in Hb. apply bind_reject_ok in Hb as [_ [= <- <-]].
  set (cmd := if str_eq trimmed "" then "" else _). set (cd := if str_eq cwd "" then "" else _).
  assert (Hline : forall x y, x = "" \/ (exists x', x = x' +:+ str1 newline) -> contains x sentinelMark = false ->
    contains y sentinelMark = false -> contains (x +:+ y) sentinelMark = false).
  { intros x y [->|[x' ->]] Hx Hy; [done|]. unfold str1 in *. rewrite <- app_assoc_str. simpl.
    rewrite contains_app_sep in * by done. apply orb_false_iff in Hx as [Hx _]. by rewrite Hx. }
  assert (Hcmd : (cmd = "" \/ exists x', cmd = x' +:+ str1 newline) /\ contains cmd sentinelMark = false).
  { unfold cmd. destruct (str_eq trimmed ""); [by split; [left|]|].
    destruct (has_suffix rawCmd (str1 newline)) eqn:E.
    - rewrite app_nil_r_str. split; [|done]. apply has_suffix_spec in E as [t ->]. right. by exists t.
    - split; [right; by exists rawCmd|]. unfold str1. rewrite contains_app_sep by done. by rewrite Hraw. }
  assert (Hcd : (cd = "" \/ exists x', cd = x' +:+ str1 newline) /\ contains cd sentinelMark = false).
  { unfold cd. destruct (str_eq cwd ""); [by split; [left|]|]. split; [right|by apply cd_line_clean].
    unfold cd_line. eexists. by rewrite app_assoc_str. }
  destruct Hcmd as [Hcmd1 Hcmd2], Hcd as [Hcd1 Hcd2].
  assert (Hall : contains (cd +:+ cmd +:+ printf_line dialect token) sentinelMark = false)
    by (apply Hline; [done|done|]; apply Hline; [done|done|]; by apply printf_line_clean).
  split; [exact Hall|]. split; [|exact (has_prefix_app sentinelMark (token +:+ "_"))].
  unfold consume. cbn [find_sentinel]. destruct (cut _ _) as [[a b]|] eqn:Ec; [|done]. apply cut_some in Ec as [Ec _].
  assert (Hin : contains (cd +:+ cmd +:+ printf_line dialect token) sentinelMark = true); [|congruence].
  apply contains_spec. exists a, ((token +:+ "_") +:+ b). rewrite Ec. reflexivity.
Qed.

(** * A concrete command *)
Definition sample_token : string := "0123456789ab".
Definition sample_prefix : string := sentinelMark +:+ sample_token +:+ "_".
Definition fresh_session : session := mkSession EmptyString false EmptyString false.
Definition busy_session : session := setSentinel sample_prefix fresh_session.
(** The sentinel arrives in three reads. *)
Definition sample_events : list (list string * wake) :=
  [(["hello" +:+ str1 newline +:+ "___MCP_DO"], Notify); (["NE_0123456789ab_1"], Notify); (["7___" +:+ str1 newline], Notify)].
Example terminal_run : option_map fst (waitSentinel sample_prefix sample_events busy_session) =
  Some (Ok (mkResult "hello" (Some 17) StateCompleted false false)).
Proof. vm_compute. reflexivity. Qed.

Lemma buffer_keeps_last_witness : s_buf (read_all ["ab"; "cd"] busy_session) = last_bytes maxBufferBytes "abcd".
Proof.
  assert (Hl : len (s_buf busy_session) <= maxBufferBytes) by (vm_compute; discriminate).
  exact (proj1 (buffer_keeps_last ["ab"; "cd"] busy_session Hl)).
Defined.

Lemma sample_first : first_at (s_buf busy_session +:+ output_of sample_events) sample_prefix ("hello" +:+ str1 newline)
  ("17" +:+ sentinelEnd +:+ str1 newline).
Proof. apply cut_some. vm_compute. reflexivity. Qed.

Lemma completion_any_chunking_witness : exists s',
  waitSentinel sample_prefix sample_events busy_session =
    Some (Ok (mkResult (cleanTerminalOutput ("hello" +:+ str1 newline)) (Some 17) StateCompleted (s_truncated busy_session) false), s') /\
  activeSentinel s' = "".
Proof.
  apply (completion_any_chunking sample_prefix ("hello" +:+ str1 newline) "17" (str1 newline) 17 sample_events busy_session);
    [reflexivity|reflexivity|discriminate|reflexivity|exact sample_first|vm_compute; discriminate|].
  repeat constructor.
Defined.

Lemma one_command_at_a_time_witness : execute_command "posix" "" "ls" (Some "ff") true false [] busy_session = Some (Err EBusy, busy_session).
Proof.
  assert (Hb : busy busy_session = true) by reflexivity.
  exact (proj1 (one_command_at_a_time busy_session (Err EBusy) busy_session Hb) "posix" "" "ls" (Some "ff") true false []).
Defined.

Definition sample_payload : string :=
  match buildSentinelPayload "fish" "/tmp/a b" "echo ok" "echo ok" (Some sample_token) with Ok (_, p) => p | Err _ => EmptyString end.
Lemma payload_never_completes_witness : consume sample_prefix sample_payload = None.
Proof.
  assert (H : buildSentinelPayload "fish" "/tmp/a b" "echo ok" "echo ok" (Some sample_token) = Ok (sample_prefix, sample_payload))
    by (vm_compute; reflexivity).
  exact (proj1 (proj2 (payload_never_completes _ _ _ _ _ _ _ H eq_refl eq_refl eq_refl))).
Defined.
