(* ===== verification/Sessions.v ===== *)
(** The sessions of the MCP terminal: core/mcp/session/manager.go.

    Sessions and their slots under the manager's lock: lookup, reservation, the
    shared dial of callers that wait for one another, publication, removal, the
    idle sweep and shutdown.  Every region under the lock is a step; what a caller
    removed and will close after the lock is [m_doomed].  The reader of a session
    may end at any time.  What a call does with its session is in [Terminal].
    Instants are nanoseconds. *)
From S2P Require Export Prelude.
#[local] Open Scope Z_scope.

Definition DefaultMaxSessions : Z := 16.
Definition DefaultMaxTotalSessions : Z := 64.
Definition DefaultIdleTTL : Z := 30 * 60 * 1000000000.
Definition maxSessionLifetime : Z := 12 * 3600 * 1000000000.

(** Scope, node and name. *)
Definition Key : Type := string * string * string.
Definition Scope (k : Key) : string := k.1.1.

Inductive session_error := EManagerClosed | ETooManySessions | EDial | EInit | ENotFound (reason : option string).

(** [managedSession]: [se_ended] is the end of its reader, [se_closed] that
    [close] released its PTY. *)
Record managedSession := mkSession {
  generation : string;
  createdAt : Z;
  lastActive : Z;
  se_busy : bool;
  se_ended : bool;
  se_closed : bool
}.

(** [dialCall]: while it is open its leader dials, and then owns a session. *)
Inductive phase := Dialing | Dialed (sid : nat) | Done (sess : option nat) (err : option session_error) (leaderCanceled : bool).
Record dialCall := mkCall { c_key : Key; c_generation : string; waiters : nat; c_phase : phase }.
Definition is_open (c : dialCall) : bool := match c_phase c with Done _ _ _ => false | _ => true end.

Record Manager := mkManager {
  idleTTL : Z;
  maxSessions : Z;
  maxTotalSessions : Z;
  m_closed : bool;
  m_sessions : gmap Key nat;
  m_pending : gmap string nat;
  m_inflight : gmap Key nat;
  m_all : gmap nat managedSession;
  m_calls : gmap nat dialCall;
  m_doomed : gset nat
}.

(** [NewManager] *)
Definition NewManager (ttl : Z) : Manager :=
  mkManager (if ttl <=? 0 then DefaultIdleTTL else ttl) DefaultMaxSessions DefaultMaxTotalSessions false ∅ ∅ ∅ ∅ ∅ ∅.

(** Assignments. *)
Definition set_closed (m : Manager) : Manager :=
  mkManager (idleTTL m) (maxSessions m) (maxTotalSessions m) true (m_sessions m) (m_pending m) (m_inflight m) (m_all m) (m_calls m) (m_doomed m).
Definition set_sessions (v : gmap Key nat) (m : Manager) : Manager :=
  mkManager (idleTTL m) (maxSessions m) (maxTotalSessions m) (m_closed m) v (m_pending m) (m_inflight m) (m_all m) (m_calls m) (m_doomed m).
Definition set_pending (v : gmap string nat) (m : Manager) : Manager :=
  mkManager (idleTTL m) (maxSessions m) (maxTotalSessions m) (m_closed m) (m_sessions m) v (m_inflight m) (m_all m) (m_calls m) (m_doomed m).
Definition set_inflight (v : gmap Key nat) (m : Manager) : Manager :=
  mkManager (idleTTL m) (maxSessions m) (maxTotalSessions m) (m_closed m) (m_sessions m) (m_pending m) v (m_all m) (m_calls m) (m_doomed m).
Definition set_all (v : gmap nat managedSession) (m : Manager) : Manager :=
  mkManager (idleTTL m) (maxSessions m) (maxTotalSessions m) (m_closed m) (m_sessions m) (m_pending m) (m_inflight m) v (m_calls m) (m_doomed m).
Definition set_calls (v : gmap nat dialCall) (m : Manager) : Manager :=
  mkManager (idleTTL m) (maxSessions m) (maxTotalSessions m) (m_closed m) (m_sessions m) (m_pending m) (m_inflight m) (m_all m) v (m_doomed m).
Definition set_doomed (v : gset nat) (m : Manager) : Manager :=
  mkManager (idleTTL m) (maxSessions m) (maxTotalSessions m) (m_closed m) (m_sessions m) (m_pending m) (m_inflight m) (m_all m) (m_calls m) v.

(** * Sessions *)
Definition isClosed (m : Manager) (sid : nat) : bool :=
  match m_all m !! sid with Some s => se_ended s | None => true end.
Definition expired (s : managedSession) (now idle : Z) : bool :=
  let ttl := if se_busy s then 2 * idle else idle in
  se_ended s || (ttl <=? now - lastActive s) || (negb (createdAt s =? 0) && (maxSessionLifetime <=? now - createdAt s)).
Definition isExpired (m : Manager) (now : Z) (sid : nat) : bool :=
  match m_all m !! sid with Some s => expired s now (idleTTL m) | None => true end.
Definition generation_of (m : Manager) (sid : nat) : option string := generation <$> m_all m !! sid.

(** [managedSession.close]: the PTY is released and its reader joined. *)
Definition close_session (sid : nat) (m : Manager) : Manager :=
  set_all (alter (fun s => mkSession (generation s) (createdAt s) (lastActive s) (se_busy s) true true) sid (m_all m))
    (set_doomed (m_doomed m ∖ {[ sid ]}) m).
Definition doom (sid : nat) (m : Manager) : Manager := set_doomed (m_doomed m ∪ {[ sid ]}) m.

(** What [takeReusableLocked] finds under a key. *)
Inductive found := Absent | Reuse (sid : nat) | Stale (sid : nat) (reason : string).
Definition takeReusableLocked (key : Key) (gen : string) (now : Z) (m : Manager) : found * Manager :=
  match m_sessions m !! key with
  | None => (Absent, m)
  | Some sid =>
      let drop reason := (Stale sid reason, set_sessions (delete key (m_sessions m)) m) in
      if isClosed m sid then drop "closed"%string
      else if negb (bool_decide (generation_of m sid = Some gen)) then drop "reconfigured: node configuration or credentials changed"%string
      else if isExpired m now sid then drop "expired"%string
      else (Reuse sid, m)
  end.

(** * Slots *)
Definition totalPending (m : Manager) : Z := Z.of_nat (map_fold (fun _ n acc => n + acc)%nat 0%nat (m_pending m)).
Definition pending_of (scope : string) (m : Manager) : nat := default 0%nat (m_pending m !! scope).
Definition scopeSessions (scope : string) (m : Manager) : nat :=
  size (filter (fun entry : Key * nat => Scope entry.1 = scope) (m_sessions m)).

Definition checkCapacityLocked (scope : string) (m : Manager) : option session_error :=
  if m_closed m then Some EManagerClosed
  else if maxTotalSessions m <=? Z.of_nat (size (m_sessions m)) + totalPending m then Some ETooManySessions
  else if maxSessions m <=? Z.of_nat (pending_of scope m + scopeSessions scope m) then Some ETooManySessions
  else None.

Definition releaseSlotLocked (scope : string) (m : Manager) : Manager :=
  set_pending (if (pending_of scope m <=? 1)%nat then delete scope (m_pending m)
               else <[scope := (pending_of scope m - 1)%nat]> (m_pending m)) m.

(** The call is done: [close(call.done)]. *)
Definition finish_call (cid : nat) (sess : option nat) (err : option session_error) (canceled : bool) (m : Manager) : Manager :=
  set_calls (alter (fun c => mkCall (c_key c) (c_generation c) (waiters c) (Done sess err canceled)) cid (m_calls m)) m.
Definition forget_inflight (key : Key) (cid : nat) (m : Manager) : Manager :=
  if bool_decide (m_inflight m !! key = Some cid) then set_inflight (delete key (m_inflight m)) m else m.

Definition finishReservedDialLocked (key : Key) (cid : nat) (sess : option nat) (err : option session_error) (canceled : bool)
    (m : Manager) : Manager :=
  finish_call cid sess err canceled (forget_inflight key cid (releaseSlotLocked (Scope key) m)).

(** * Finding a session or a slot *)
Inductive slot := SClosed | SStale (sid : nat) | SReuse (sid : nat) | SWait (cid : nat) | SReserved (cid : nat) | SFull (e : session_error).

(** A new call for a free slot. *)
Definition reserve (key : Key) (gen : string) (fresh : nat) (m : Manager) : slot * Manager :=
  match checkCapacityLocked (Scope key) m with
  | Some e => (SFull e, m)
  | None =>
      (SReserved fresh,
       set_calls (<[fresh := mkCall key gen 0 Dialing]> (m_calls m))
         (set_inflight (<[key := fresh]> (m_inflight m))
           (set_pending (<[Scope key := S (pending_of (Scope key) m)]> (m_pending m)) m)))
  end.

(** One round of the loop of [findOrReserveSlot]; [fresh] is the new call.  A
    stale session is closed before the next round. *)
Definition find_round (now : Z) (key : Key) (gen : string) (fresh : nat) (m : Manager) : slot * Manager :=
  if m_closed m then (SClosed, m)
  else match takeReusableLocked key gen now m with
       | (Stale sid _, m) => (SStale sid, doom sid m)
       | (Reuse sid, m) => (SReuse sid, m)
       | (Absent, m) =>
           match m_inflight m !! key with
           | Some cid =>
               if bool_decide (c_generation <$> m_calls m !! cid = Some gen)
               then (SWait cid, set_calls (alter (fun c => mkCall (c_key c) (c_generation c) (S (waiters c)) (c_phase c)) cid (m_calls m)) m)
               else reserve key gen fresh m
           | None => reserve key gen fresh m
           end
       end.

(** What a waiter does once its call is done. *)
Inductive waited := WAgain | WError (e : session_error) | WSession (sid : nat) | WBlocked.
Definition wait_call (cid : nat) (m : Manager) : waited :=
  match c_phase <$> m_calls m !! cid with
  | Some (Done sess (Some e) canceled) => if canceled then WAgain else WError e
  | Some (Done (Some sid) None _) => if isClosed m sid then WAgain else WSession sid
  | Some (Done None None _) => WAgain
  | _ => WBlocked
  end.

(** One round of [lookupExisting]; [evicted] is the reason of the round before. *)
Definition lookup_round (now : Z) (key : Key) (gen : string) (evicted : option string) (m : Manager)
    : result session_error found * Manager :=
  if m_closed m then (Err EManagerClosed, m)
  else match takeReusableLocked key gen now m with
       | (Stale sid reason, m) => (Ok (Stale sid reason), doom sid m)
       | (Reuse sid, m) => (Ok (Reuse sid), m)
       | (Absent, m) => (Err (ENotFound evicted), m)
       end.

(** * Dialing *)

(** [getOrCreate] after a successful dial: the session of the leader. *)
Definition dialed (now : Z) (cid sid : nat) (m : Manager) : Manager :=
  match m_calls m !! cid with
  | None => m
  | Some c =>
      set_calls (<[cid := mkCall (c_key c) (c_generation c) (waiters c) (Dialed sid)]> (m_calls m))
        (set_all (<[sid := mkSession (c_generation c) now now false false false]> (m_all m)) m)
  end.
(** Its deferred end when it could not hand over a session: [canceled] is the end
    of the leader's context; a session that it had is closed first. *)
Definition dial_failed (cid : nat) (err : session_error) (canceled : bool) (m : Manager) : Manager :=
  match m_calls m !! cid with
  | None => m
  | Some c =>
      let m := match c_phase c with Dialed sid => close_session sid m | _ => m end in
      finishReservedDialLocked (c_key c) cid None (Some err) canceled m
  end.

(** [publishSession] of the leader's session. *)
Definition publishSession (key : Key) (gen : string) (cid sid : nat) (m : Manager) : result session_error nat * Manager :=
  if m_closed m
  then (Err EManagerClosed, doom sid (finishReservedDialLocked key cid None (Some EManagerClosed) false m))
  else
    let publish m := finish_call cid (Some sid) None false (forget_inflight key cid (set_sessions (<[key := sid]> (m_sessions m)) m)) in
    match m_sessions m !! key with
    | Some raced =>
        if bool_decide (generation_of m raced = Some gen) && negb (isClosed m raced)
        then (Ok raced, doom sid (finishReservedDialLocked key cid (Some raced) None false m))
        else (Ok sid, doom raced (publish (releaseSlotLocked (Scope key) m)))
    | None =>
        let m := releaseSlotLocked (Scope key) m in
        match checkCapacityLocked (Scope key) m with
        | Some e => (Err e, doom sid (finish_call cid None (Some e) false (forget_inflight key cid m)))
        | None => (Ok sid, publish m)
        end
    end.

(** * Removal *)
Definition remove (key : Key) (sid : nat) (m : Manager) : Manager :=
  if bool_decide (m_sessions m !! key = Some sid) then set_sessions (delete key (m_sessions m)) m else m.

(** [SweepIdle] under the lock; what it removed is closed afterwards. *)
Definition SweepIdle (now : Z) (m : Manager) : Manager :=
  set_doomed (m_doomed m ∪ list_to_set ((map_to_list (filter (fun e : Key * nat => isExpired m now e.2 = true) (m_sessions m))).*2))
    (set_sessions (filter (fun e : Key * nat => isExpired m now e.2 = false) (m_sessions m)) m).

(** [Shutdown] under the lock. *)
Definition Shutdown (m : Manager) : Manager :=
  set_doomed (m_doomed m ∪ list_to_set ((map_to_list (m_sessions m)).*2)) (set_sessions ∅ (set_closed m)).

(** * Interleavings *)
Definition set_session (sid : nat) (s : managedSession) (m : Manager) : Manager := set_all (<[sid := s]> (m_all m)) m.

(** Every region under the lock, the closes after it, the ends of dials and
    readers, and the marks that calls leave on their sessions. *)
Inductive session_step (m : Manager) : Manager -> Prop :=
  | ss_find now key gen fresh : m_calls m !! fresh = None -> session_step m (find_round now key gen fresh m).2
  | ss_lookup now key gen evicted : session_step m (lookup_round now key gen evicted m).2
  | ss_close sid : sid ∈ m_doomed m -> session_step m (close_session sid m)
  | ss_dialed now cid sid c : m_calls m !! cid = Some c -> c_phase c = Dialing -> m_all m !! sid = None ->
      session_step m (dialed now cid sid m)
  | ss_dial_failed cid c err canceled : m_calls m !! cid = Some c -> is_open c = true -> session_step m (dial_failed cid err canceled m)
  | ss_publish cid sid c : m_calls m !! cid = Some c -> c_phase c = Dialed sid ->
      session_step m (publishSession (c_key c) (c_generation c) cid sid m).2
  | ss_reader_ends sid s : m_all m !! sid = Some s ->
      session_step m (set_session sid (mkSession (generation s) (createdAt s) (lastActive s) (se_busy s) true (se_closed s)) m)
  | ss_used sid s last busy : m_all m !! sid = Some s ->
      session_step m (set_session sid (mkSession (generation s) (createdAt s) last busy (se_ended s) (se_closed s)) m)
  | ss_kill sid : is_Some (m_all m !! sid) -> session_step m (close_session sid m)
  | ss_remove_broken key sid : is_Some (m_all m !! sid) -> session_step m (doom sid (remove key sid m))
  | ss_remove_lost key sid : isClosed m sid = true -> session_step m (remove key sid m)
  | ss_sweep now : session_step m (SweepIdle now m)
  | ss_shutdown : session_step m (Shutdown m).
Definition session_init (m : Manager) : Prop := exists ttl, m = NewManager ttl.
Definition session_reachable (m : Manager) : Prop := reachable session_init session_step m.

(** * Counting *)
Section Sizes.
Context `{Countable K} {A : Type}.
Implicit Types (x : A) (l : gmap K A).

Lemma filter_size_split (P : K * A -> Prop) `{!forall e, Decision (P e)} l i x :
  l !! i = Some x -> size (filter P l) = ((if decide (P (i, x)) then 1 else 0) + size (filter P (delete i l)))%nat.
Proof.
  intros Hi. rewrite <- (insert_delete_id l i x) at 1 by done. rewrite map_filter_insert. rewrite delete_delete_eq.
  destruct (decide (P (i, x))); [|done]. rewrite map_size_insert_None; [done|].
  apply map_lookup_filter_None. left. apply lookup_delete_eq.
Qed.

Lemma filter_size_update (P : K * A -> Prop) `{!forall e, Decision (P e)} l i x x' :
  l !! i = Some x ->
  (size (filter P (<[i := x']> l)) + (if decide (P (i, x)) then 1 else 0) =
   size (filter P l) + (if decide (P (i, x')) then 1 else 0))%nat.
Proof.
  intros Hi. rewrite (filter_size_split P l i x Hi), (filter_size_split P (<[i := x']> l) i x') by apply lookup_insert_eq.
  rewrite delete_insert_eq. lia.
Qed.

Lemma filter_size_new (P : K * A -> Prop) `{!forall e, Decision (P e)} l i x :
  l !! i = None -> size (filter P (<[i := x]> l)) = (size (filter P l) + (if decide (P (i, x)) then 1 else 0))%nat.
Proof.
  intros Hi. rewrite (filter_size_split P (<[i := x]> l) i x) by apply lookup_insert_eq.
  rewrite delete_insert_id by done. lia.
Qed.

Lemma filter_size_delete (P : K * A -> Prop) `{!forall e, Decision (P e)} l i : (size (filter P (delete i l)) <= size (filter P l))%nat.
Proof.
  destruct (l !! i) as [x|] eqn:E; [|by rewrite delete_id]. rewrite (filter_size_split P l i x E). lia.
Qed.
End Sizes.

Definition sum (p : gmap string nat) : nat := map_fold (fun _ n acc => n + acc)%nat 0%nat p.

Lemma sum_delete p k n : p !! k = Some n -> sum p = (n + sum (delete k p))%nat.
Proof.
  intros Hk. unfold sum. rewrite (map_fold_delete_L (fun _ n acc => n + acc)%nat 0%nat k n p); [done| |done].
  intros. lia.
Qed.
Lemma sum_update p k n : (sum (<[k := n]> p) + default 0 (p !! k) = sum p + n)%nat.
Proof.
  rewrite (sum_delete (<[k := n]> p) k n) by apply lookup_insert_eq. rewrite delete_insert_eq.
  destruct (p !! k) as [x|] eqn:E; simpl; [rewrite (sum_delete p k x E); lia|]. rewrite delete_id by done. lia.
Qed.
Lemma sum_remove p k : (sum (delete k p) + default 0 (p !! k) = sum p)%nat.
Proof. destruct (p !! k) as [x|] eqn:E; simpl; [rewrite (sum_delete p k x E); lia|]. rewrite delete_id by done. lia. Qed.

Definition open_total (m : Manager) : nat := size (filter (fun e : nat * dialCall => is_open e.2 = true) (m_calls m)).
Definition open_in (scope : string) (m : Manager) : nat :=
  size (filter (fun e : nat * dialCall => is_open e.2 = true /\ Scope (c_key e.2) = scope) (m_calls m)).

(** Every slot is a dial that runs, and the limits hold. *)
Record counted (m : Manager) : Prop := {
  co_pending : forall scope, pending_of scope m = open_in scope m;
  co_total : sum (m_pending m) = open_total m;
  co_max : maxSessions m = DefaultMaxSessions /\ maxTotalSessions m = DefaultMaxTotalSessions;
  co_limit : Z.of_nat (size (m_sessions m)) + Z.of_nat (open_total m) <= maxTotalSessions m;
  co_scope : forall scope, Z.of_nat (scopeSessions scope m + open_in scope m) <= maxSessions m
}.

(** Steps that free sessions and leave the slots alone. *)
Lemma counted_shrink m m' :
  counted m -> m_pending m' = m_pending m -> open_total m' = open_total m -> (forall scope, open_in scope m' = open_in scope m) ->
  maxSessions m' = maxSessions m -> maxTotalSessions m' = maxTotalSessions m ->
  (size (m_sessions m') <= size (m_sessions m))%nat -> (forall scope, scopeSessions scope m' <= scopeSessions scope m)%nat ->
  counted m'.
Proof.
  intros [Hp Ht [Hm1 Hm2] Hl Hs] E1 E2 E3 E4 E5 L1 L2. split.
  - intros scope. unfold pending_of. rewrite E1, E3. apply Hp.
  - by rewrite E1, E2.
  - by rewrite E4, E5.
  - rewrite E2, E5. lia.
  - intros scope. rewrite E3, E4. specialize (Hs scope). specialize (L2 scope). lia.
Qed.

Lemma capacity_free scope m : checkCapacityLocked scope m = None ->
  m_closed m = false /\ Z.of_nat (size (m_sessions m)) + totalPending m < maxTotalSessions m /\
  Z.of_nat (pending_of scope m + scopeSessions scope m) < maxSessions m.
Proof.
  unfold checkCapacityLocked. destruct (m_closed m); [done|]. destruct (Z.leb_spec (maxTotalSessions m) (Z.of_nat (size (m_sessions m)) + totalPending m)); [done|].
  destruct (Z.leb_spec (maxSessions m) (Z.of_nat (pending_of scope m + scopeSessions scope m))); [done|]. done.
Qed.

Lemma counted_reserve key gen fresh m : counted m -> m_calls m !! fresh = None -> counted (reserve key gen fresh m).2.
Proof.
  intros C Hf. unfold reserve. destruct (checkCapacityLocked (Scope key) m) eqn:E; [done|]. simpl.
  apply capacity_free in E as (_ & Hl & Hs). destruct C as [Hp Ht Hm Hl0 Hs0].
  assert (E1 : open_total m = Z.to_nat (totalPending m)) by (unfold totalPending; rewrite <- Ht; unfold sum; lia).
  assert (Eopen : forall scope, open_in scope (set_calls (<[fresh := mkCall key gen 0 Dialing]> (m_calls m)) m) =
    (open_in scope m + if decide (Scope key = scope) then 1 else 0)%nat).
  { intros scope. unfold open_in. simpl. rewrite filter_size_new by done. f_equal.
    repeat destruct (decide _); try done; naive_solver. }
  assert (Etot : open_total (set_calls (<[fresh := mkCall key gen 0 Dialing]> (m_calls m)) m) = S (open_total m)).
  { unfold open_total. simpl. rewrite filter_size_new by done. rewrite decide_True by done. lia. }
  split; simpl.
  - intros scope. change (open_in scope _) with (open_in scope (set_calls (<[fresh := mkCall key gen 0 Dialing]> (m_calls m)) m)).
    rewrite Eopen. pose proof (Hp scope) as Hps. unfold pending_of in *. simpl.
    destruct (decide (Scope key = scope)) as [<-|Hne]; [rewrite lookup_insert_eq; simpl; lia|].
    rewrite lookup_insert_ne by done. lia.
  - change (open_total _) with (open_total (set_calls (<[fresh := mkCall key gen 0 Dialing]> (m_calls m)) m)). rewrite Etot.
    pose proof (sum_update (m_pending m) (Scope key) (S (pending_of (Scope key) m))) as Hsum. unfold pending_of in *. lia.
  - done.
  - change (open_total _) with (open_total (set_calls (<[fresh := mkCall key gen 0 Dialing]> (m_calls m)) m)). rewrite Etot.
    unfold totalPending in Hl. fold (sum (m_pending m)) in Hl. lia.
  - intros scope. change (open_in scope _) with (open_in scope (set_calls (<[fresh := mkCall key gen 0 Dialing]> (m_calls m)) m)).
    rewrite Eopen. change (scopeSessions scope _) with (scopeSessions scope m). specialize (Hs0 scope). rewrite (Hp (Scope key)) in Hs.
    destruct (decide _) as [<-|]; lia.
Qed.

(** A call is done and gives its slot back, for at most one more session. *)
Lemma counted_release m m' cid c c' :
  counted m -> m_calls m !! cid = Some c -> is_open c = true -> is_open c' = false ->
  m_calls m' = <[cid := c']> (m_calls m) -> m_pending m' = m_pending (releaseSlotLocked (Scope (c_key c)) m) ->
  maxSessions m' = maxSessions m -> maxTotalSessions m' = maxTotalSessions m ->
  (size (m_sessions m') <= S (size (m_sessions m)))%nat ->
  (forall scope, scopeSessions scope m' <= scopeSessions scope m + if decide (Scope (c_key c) = scope) then 1 else 0)%nat ->
  counted m' /\ S (open_total m') = open_total m.
Proof.
  intros [Hp Ht [Hm1 Hm2] Hl Hs] Hc Ho Ho' E1 E2 E3 E4 L1 L2.
  assert (Etot : S (open_total m') = open_total m).
  { unfold open_total. rewrite E1. pose proof (filter_size_update (fun e => is_open e.2 = true) (m_calls m) cid c c' Hc) as Hu.
    rewrite decide_True, decide_False in Hu by (simpl; congruence). lia. }
  assert (Ein : forall scope, (open_in scope m' + (if decide (Scope (c_key c) = scope) then 1 else 0) = open_in scope m)%nat).
  { intros scope. unfold open_in. rewrite E1.
    pose proof (filter_size_update (fun e => is_open e.2 = true /\ Scope (c_key e.2) = scope) (m_calls m) cid c c' Hc) as Hu.
    simpl in Hu. destruct (decide (is_open c' = true /\ Scope (c_key c') = scope)) as [[? _]|_]; [congruence|].
    destruct (decide (is_open c = true /\ Scope (c_key c) = scope)) as [[_ He]|Hne]; destruct (decide (Scope (c_key c) = scope)); try lia; tauto. }
  assert (Hpos : (0 < pending_of (Scope (c_key c)) m)%nat).
  { rewrite Hp. specialize (Ein (Scope (c_key c))). rewrite decide_True in Ein by done. lia. }
  split; [|done]. split.
  - intros scope. pose proof (Hp scope) as Hps. specialize (Ein scope). unfold pending_of in *. rewrite E2. unfold releaseSlotLocked, pending_of.
    simpl. destruct (decide (Scope (c_key c) = scope)) as [<-|Hne].
    + destruct (Nat.leb_spec (default 0%nat (m_pending m !! Scope (c_key c))) 1); [rewrite lookup_delete_eq|rewrite lookup_insert_eq]; simpl; lia.
    + destruct (Nat.leb_spec (default 0%nat (m_pending m !! Scope (c_key c))) 1); [rewrite lookup_delete_ne by done|rewrite lookup_insert_ne by done]; lia.
  - rewrite E2. unfold releaseSlotLocked. simpl. unfold pending_of in *. destruct (Nat.leb_spec (default 0%nat (m_pending m !! Scope (c_key c))) 1).
    + pose proof (sum_remove (m_pending m) (Scope (c_key c))). lia.
    + pose proof (sum_update (m_pending m) (Scope (c_key c)) (default 0%nat (m_pending m !! Scope (c_key c)) - 1)). lia.
  - by rewrite E3, E4.
  - rewrite E4. lia.
  - intros scope. rewrite E3. specialize (Hs scope). specialize (L2 scope). specialize (Ein scope). lia.
Qed.

Lemma scope_insert m key sid scope :
  (size (filter (fun e : Key * nat => Scope e.1 = scope) (<[key := sid]> (m_sessions m))) <=
   scopeSessions scope m + if decide (Scope key = scope) then 1 else 0)%nat.
Proof.
  unfold scopeSessions. destruct (m_sessions m !! key) as [x|] eqn:E.
  - pose proof (filter_size_update (fun e : Key * nat => Scope e.1 = scope) (m_sessions m) key x sid E) as Hu. simpl in Hu. lia.
  - rewrite filter_size_new by done. simpl. lia.
Qed.
Lemma insert_size {A} (l : gmap Key A) key x : (size (<[key := x]> l) <= S (size l))%nat.
Proof. rewrite map_size_insert. destruct (l !! key); simpl; lia. Qed.
Lemma delete_size {A} (l : gmap Key A) key : (size (delete key l) <= size l)%nat.
Proof. rewrite map_size_delete. destruct (l !! key); simpl; lia. Qed.

(** Slots and limits see only the sessions, the slots and the calls. *)
Lemma counted_view m m' : counted m -> m_sessions m' = m_sessions m -> m_pending m' = m_pending m -> m_calls m' = m_calls m ->
  maxSessions m' = maxSessions m -> maxTotalSessions m' = maxTotalSessions m -> counted m'.
Proof.
  intros C E1 E2 E3 E4 E5. apply (counted_shrink m); try done; unfold open_total, open_in, scopeSessions; rewrite ?E1, ?E3; try done.
Qed.

Lemma counted_drop key m : counted m -> counted (set_sessions (delete key (m_sessions m)) m).
Proof.
  intros C. apply (counted_shrink m); try done; simpl; [apply delete_size|]. intros scope. apply filter_size_delete.
Qed.

(** Calls may change, as long as they stay open for their key. *)
Lemma counted_call m cid c c' :
  counted m -> m_calls m !! cid = Some c -> is_open c' = is_open c -> c_key c' = c_key c ->
  counted (set_calls (<[cid := c']> (m_calls m)) m).
Proof.
  intros C Hc Ho Hk. apply (counted_shrink m); try done.
  - unfold open_total. simpl. pose proof (filter_size_update (fun e => is_open e.2 = true) (m_calls m) cid c c' Hc) as Hu.
    simpl in Hu. rewrite Ho in Hu. lia.
  - intros scope. unfold open_in. simpl.
    pose proof (filter_size_update (fun e => is_open e.2 = true /\ Scope (c_key e.2) = scope) (m_calls m) cid c c' Hc) as Hu.
    simpl in Hu. rewrite Ho, Hk in Hu. lia.
Qed.

Lemma alter_lookup {A} `{Countable K} (f : A -> A) (l : gmap K A) k x : l !! k = Some x -> alter f k l = <[k := f x]> l.
Proof.
  intros Hk. apply map_eq. intros i. destruct (decide (k = i)) as [<-|Hne].
  - by rewrite lookup_alter_eq, lookup_insert_eq, Hk.
  - by rewrite lookup_alter_ne, lookup_insert_ne.
Qed.

Lemma forget_same key cid m :
  m_calls (forget_inflight key cid m) = m_calls m /\ m_pending (forget_inflight key cid m) = m_pending m /\
  m_sessions (forget_inflight key cid m) = m_sessions m /\ maxSessions (forget_inflight key cid m) = maxSessions m /\
  maxTotalSessions (forget_inflight key cid m) = maxTotalSessions m /\ m_all (forget_inflight key cid m) = m_all m /\
  m_doomed (forget_inflight key cid m) = m_doomed m /\ m_closed (forget_inflight key cid m) = m_closed m.
Proof. unfold forget_inflight. by destruct (bool_decide _). Qed.

Lemma take_cases key gen now m :
  (exists sid reason, takeReusableLocked key gen now m = (Stale sid reason, set_sessions (delete key (m_sessions m)) m) /\
     m_sessions m !! key = Some sid) \/
  (exists sid, takeReusableLocked key gen now m = (Reuse sid, m) /\ m_sessions m !! key = Some sid /\
     isClosed m sid = false /\ generation_of m sid = Some gen /\ isExpired m now sid = false) \/
  (takeReusableLocked key gen now m = (Absent, m) /\ m_sessions m !! key = None).
Proof.
  unfold takeReusableLocked. destruct (m_sessions m !! key) as [sid|] eqn:E; [|by right; right].
  destruct (isClosed m sid) eqn:E1; [left; eauto|]. destruct (bool_decide _) eqn:E2; simpl; [|left; eauto].
  destruct (isExpired m now sid) eqn:E3; [left; eauto|]. right. left. bool_facts. exists sid. by split_and!.
Qed.

Lemma counted_find now key gen fresh m : counted m -> m_calls m !! fresh = None -> counted (find_round now key gen fresh m).2.
Proof.
  intros C Hf. unfold find_round. destruct (m_closed m); [done|].
  destruct (take_cases key gen now m) as [(sid & reason & -> & _)|[(sid & -> & _)|[-> _]]].
  - apply (counted_drop key) in C. by apply (counted_view _ _ C).
  - done.
  - destruct (m_inflight m !! key) as [cid|]; [|by apply counted_reserve].
    destruct (bool_decide _) eqn:E; [|by apply counted_reserve]. bool_facts. simpl.
    destruct (m_calls m !! cid) as [c|] eqn:Ec; [|done]. rewrite (alter_lookup _ _ _ c) by done. by apply (counted_call m cid c).
Qed.

Lemma counted_finish key cid c sess err canceled m :
  counted m -> m_calls m !! cid = Some c -> is_open c = true -> c_key c = key ->
  counted (finishReservedDialLocked key cid sess err canceled m).
Proof.
  intros C Hc Ho Hk. unfold finishReservedDialLocked, finish_call.
  destruct (forget_same key cid (releaseSlotLocked (Scope key) m)) as (E1 & E2 & E3 & E4 & E5 & _).
  refine (proj1 (counted_release m _ cid c (mkCall (c_key c) (c_generation c) (waiters c) (Done sess err canceled)) C Hc Ho _ _ _ _ _ _ _));
    subst key; simpl; rewrite ?E1, ?E2, ?E3, ?E4, ?E5; try done.
  - simpl. by rewrite (alter_lookup _ _ _ c Hc).
  - simpl. lia.
  - intros scope. unfold scopeSessions. simpl. rewrite E3. simpl. lia.
Qed.

(** Under a reserved slot there is always room: publication never fails for the
    limits. *)
Lemma published_room m cid c :
  counted m -> m_calls m !! cid = Some c -> is_open c = true -> m_closed m = false ->
  checkCapacityLocked (Scope (c_key c)) (releaseSlotLocked (Scope (c_key c)) m) = None.
Proof.
  intros C Hc Ho Hclosed. destruct C as [Hp Ht [Hm1 Hm2] Hl Hs]. unfold checkCapacityLocked.
  assert (Hpos : (0 < pending_of (Scope (c_key c)) m)%nat).
  { rewrite Hp. unfold open_in. rewrite (filter_size_split _ (m_calls m) cid c Hc). rewrite decide_True by done. lia. }
  assert (Hsum : (S (sum (m_pending (releaseSlotLocked (Scope (c_key c)) m))) <= sum (m_pending m))%nat /\
    (S (pending_of (Scope (c_key c)) (releaseSlotLocked (Scope (c_key c)) m)) <= pending_of (Scope (c_key c)) m)%nat).
  { unfold releaseSlotLocked, pending_of in *. simpl. destruct (Nat.leb_spec (default 0%nat (m_pending m !! Scope (c_key c))) 1).
    - pose proof (sum_remove (m_pending m) (Scope (c_key c))). rewrite lookup_delete_eq. simpl. lia.
    - pose proof (sum_update (m_pending m) (Scope (c_key c)) (default 0%nat (m_pending m !! Scope (c_key c)) - 1)).
      rewrite lookup_insert_eq. simpl. lia. }
  destruct Hsum as [Hsum Hpend]. change (m_closed (releaseSlotLocked (Scope (c_key c)) m)) with (m_closed m). rewrite Hclosed.
  unfold totalPending. fold (sum (m_pending (releaseSlotLocked (Scope (c_key c)) m))).
  change (m_sessions (releaseSlotLocked (Scope (c_key c)) m)) with (m_sessions m).
  change (maxTotalSessions (releaseSlotLocked (Scope (c_key c)) m)) with (maxTotalSessions m).
  change (maxSessions (releaseSlotLocked (Scope (c_key c)) m)) with (maxSessions m).
  change (scopeSessions (Scope (c_key c)) (releaseSlotLocked (Scope (c_key c)) m)) with (scopeSessions (Scope (c_key c)) m).
  specialize (Hs (Scope (c_key c))). rewrite <- Hp in Hs.
  rewrite (proj2 (Z.leb_gt _ _)) by lia. rewrite (proj2 (Z.leb_gt _ _)) by lia. done.
Qed.

Lemma counted_publish m cid sid c :
  counted m -> m_calls m !! cid = Some c -> is_open c = true ->
  counted (publishSession (c_key c) (c_generation c) cid sid m).2.
Proof.
  intros C Hc Ho. unfold publishSession. destruct (m_closed m) eqn:Ecl.
  { simpl. apply (counted_view (finishReservedDialLocked (c_key c) cid None (Some EManagerClosed) false m)); try done. by apply (counted_finish _ _ c). }
  assert (Hpub : forall d, counted (set_doomed d (finish_call cid (Some sid) None false (forget_inflight (c_key c) cid
    (set_sessions (<[c_key c := sid]> (m_sessions (releaseSlotLocked (Scope (c_key c)) m))) (releaseSlotLocked (Scope (c_key c)) m)))))).
  { intros d. set (m1 := set_sessions _ _). destruct (forget_same (c_key c) cid m1) as (E1 & E2 & E3 & E4 & E5 & _).
    refine (proj1 (counted_release m _ cid c (mkCall (c_key c) (c_generation c) (waiters c) (Done (Some sid) None false)) C Hc Ho _ _ _ _ _ _ _));
      simpl; rewrite ?E1, ?E2, ?E3, ?E4, ?E5; try done.
    - simpl. by rewrite (alter_lookup _ _ _ c Hc).
    - simpl. apply insert_size.
    - intros scope. unfold scopeSessions at 1. simpl. rewrite E3. simpl. apply scope_insert. }
  destruct (m_sessions m !! c_key c) as [raced|] eqn:Es.
  - destruct (_ && _); simpl; [|apply Hpub].
    apply (counted_view (finishReservedDialLocked (c_key c) cid (Some raced) None false m)); try done. by apply (counted_finish _ _ c).
  - rewrite (published_room m cid c) by done. simpl. apply (counted_view _ _ (Hpub ∅)); done.
Qed.

(** * Ownership *)
Definition mentions (c : dialCall) (sid : nat) : Prop :=
  c_phase c = Dialed sid \/ exists err canceled, c_phase c = Done (Some sid) err canceled.

Definition held (m : Manager) (sid : nat) : Prop :=
  sid ∈ m_doomed m \/ (exists k, m_sessions m !! k = Some sid) \/
  exists cid c, m_calls m !! cid = Some c /\ c_phase c = Dialed sid.

Record owned (m : Manager) : Prop := {
  ow_sessions : forall k sid, m_sessions m !! k = Some sid ->
    exists cid c, m_calls m !! cid = Some c /\ mentions c sid /\ c_key c = k;
  ow_calls : forall cid c sid, m_calls m !! cid = Some c -> mentions c sid -> generation_of m sid = Some (c_generation c);
  ow_key : forall i j c d sid, m_calls m !! i = Some c -> m_calls m !! j = Some d -> mentions c sid -> mentions d sid -> c_key c = c_key d;
  ow_held : forall sid s, m_all m !! sid = Some s -> se_closed s = true \/ se_ended s = true \/ held m sid;
  ow_ended : forall sid s, m_all m !! sid = Some s -> se_closed s = true -> se_ended s = true;
  ow_shut : m_closed m = true -> m_sessions m = ∅;
  ow_dialed : forall cid c sid, m_calls m !! cid = Some c -> c_phase c = Dialed sid ->
    (forall k, m_sessions m !! k <> Some sid) /\ (forall j d, m_calls m !! j = Some d -> mentions d sid -> j = cid)
}.

(** Sessions leave the map, to be closed or because they ended. *)
Lemma owned_drops m m' :
  owned m -> m_all m' = m_all m -> m_calls m' = m_calls m -> m_doomed m ⊆ m_doomed m' ->
  (forall k sid, m_sessions m' !! k = Some sid -> m_sessions m !! k = Some sid) ->
  (forall k sid, m_sessions m !! k = Some sid -> m_sessions m' !! k = Some sid \/ sid ∈ m_doomed m' \/ isClosed m sid = true) ->
  (m_closed m' = true -> m_sessions m' = ∅) -> owned m'.
Proof.
  intros [Hs Hc Hk Hh He Hz Hf] E1 E2 Hd Hsub Hdrop Hshut. split; unfold generation_of; rewrite ?E1, ?E2; try done.
  - intros k sid Hx. apply Hs. by apply Hsub.
  - intros sid s Hx. destruct (Hh sid s Hx) as [?|[?|[Hin|[[k Hin]|Hin]]]]; [by left|by right; left| | |].
    + right. right. left. by apply Hd.
    + destruct (Hdrop k sid Hin) as [?|[?|Hcl]]; [right; right; right; left; by exists k|right; right; by left|].
      right. left. unfold isClosed in Hcl. by rewrite Hx in Hcl.
    + right. right. right. right. unfold held. by rewrite E2.
  - intros cid c sid Hx Hp. destruct (Hf cid c sid Hx Hp) as [Hf1 Hf2]. split; [|done]. intros k Hin. by apply (Hf1 k), Hsub.
Qed.

(** A session changes, or is closed. *)
Lemma owned_session m m' sid s s' :
  owned m -> m_all m !! sid = Some s -> generation s' = generation s ->
  (se_closed s = true -> se_closed s' = true) -> (se_ended s = true -> se_ended s' = true) ->
  (se_closed s' = true -> se_ended s' = true) ->
  m_all m' = <[sid := s']> (m_all m) -> m_calls m' = m_calls m -> m_sessions m' = m_sessions m -> m_closed m' = m_closed m ->
  (m_doomed m' = m_doomed m \/ (m_doomed m' = m_doomed m ∖ {[ sid ]} /\ se_closed s' = true)) -> owned m'.
Proof.
  intros [Hs Hc Hk Hh He Hz Hf] Hx Hgen H1 H2 H3 E1 E2 E3 E4 Hd. split; unfold generation_of; rewrite ?E1, ?E2, ?E3, ?E4; try done.
  - intros cid c x Hcid Hm. specialize (Hc cid c x Hcid Hm). unfold generation_of in Hc.
    destruct (decide (sid = x)) as [<-|Hne]; [|by rewrite lookup_insert_ne]. rewrite lookup_insert_eq. rewrite Hx in Hc. simpl in *. congruence.
  - intros x y Hy. apply lookup_insert_Some in Hy as [[<- <-]|[Hne Hy]].
    + destruct (Hh sid s Hx) as [?|[?|Hin]]; [left; auto|right; left; auto|].
      destruct Hd as [Hd|[_ Hcl]]; [|by left]. right. right. unfold held in *. by rewrite Hd, E2, E3.
    + destruct (Hh x y Hy) as [?|[?|Hin]]; [by left|by right; left|]. right. right. unfold held in *. rewrite E2, E3.
      destruct Hd as [-> |[-> _]]; [done|]. destruct Hin as [Hin|Hin]; [left; set_solver|by right].
  - intros x y Hy. apply lookup_insert_Some in Hy as [[<- <-]|[_ Hy]]; [done|by apply (He x)].
Qed.

(** A call changes without changing what it mentions. *)
Lemma owned_call m m' cid c c' :
  owned m -> m_calls m !! cid = Some c -> c_key c' = c_key c -> c_generation c' = c_generation c ->
  c_phase c' = c_phase c ->
  m_calls m' = <[cid := c']> (m_calls m) -> m_all m' = m_all m -> m_sessions m' = m_sessions m -> m_closed m' = m_closed m ->
  m_doomed m' = m_doomed m -> owned m'.
Proof.
  intros [Hs Hc Hk Hh He Hz Hf] Hx Ek Eg Ep E1 E2 E3 E4 E5.
  assert (Hm1 : forall sid, mentions c' sid <-> mentions c sid) by (intros sid; unfold mentions; by rewrite Ep).
  assert (Hlook : forall i d, <[cid := c']> (m_calls m) !! i = Some d ->
    exists d0, m_calls m !! i = Some d0 /\ c_key d = c_key d0 /\ c_generation d = c_generation d0 /\ forall sid, mentions d sid -> mentions d0 sid).
  { intros i d Hd0. apply lookup_insert_Some in Hd0 as [[<- <-]|[_ Hd0]]; [exists c|exists d]; split_and!; try done; intros sid; apply Hm1. }
  split; unfold generation_of; rewrite ?E1, ?E2, ?E3, ?E4; try done.
  - intros k sid Hin. destruct (Hs k sid Hin) as (i & d & Hi & Hmen & Hkey). destruct (decide (cid = i)) as [<-|Hne].
    + exists cid, c'. rewrite lookup_insert_eq. assert (d = c) as -> by congruence. split_and!; [done|by apply Hm1|congruence].
    + exists i, d. by rewrite lookup_insert_ne.
  - intros i d sid Hi Hmen. destruct (Hlook i d Hi) as (d0 & Hd0 & _ & -> & Hmen'). apply (Hc i d0); auto.
  - intros i j d e sid Hi Hj H1 H2. destruct (Hlook i d Hi) as (d0 & Hd0 & -> & _ & Hmd). destruct (Hlook j e Hj) as (e0 & He0 & -> & _ & Hme).
    apply (Hk i j d0 e0 sid); auto.
  - intros sid s Hsid. destruct (Hh sid s Hsid) as [?|[?|Hin]]; [by left|by right; left|]. right. right. unfold held in *. rewrite E1, E3, E5.
    destruct Hin as [?|[?|(i & d & Hi & Hph)]]; [by left|by right; left|]. right. right. destruct (decide (cid = i)) as [<-|Hne].
    + exists cid, c'. rewrite lookup_insert_eq. split; [done|]. congruence.
    + exists i, d. by rewrite lookup_insert_ne.
  - intros i d sid Hi Hp. assert (Hi' : exists d0, m_calls m !! i = Some d0 /\ c_phase d0 = Dialed sid).
    { apply lookup_insert_Some in Hi as [[<- <-]|[_ Hi]]; [exists c|exists d]; split; congruence. }
    destruct Hi' as (d0 & Hd0 & Hp0). destruct (Hf i d0 sid Hd0 Hp0) as [Hf1 Hf2]. split; [done|].
    intros j e Hj Hm. destruct (Hlook j e Hj) as (e0 & He0 & _ & _ & Hme). apply (Hf2 j e0); auto.
Qed.

(** A call is done, with a session of its key and generation or without; the one
    that its leader had is closed, doomed or published under the key. *)
Lemma owned_done m m' cid c sess err canceled :
  owned m -> m_calls m !! cid = Some c -> is_open c = true ->
  m_calls m' = <[cid := mkCall (c_key c) (c_generation c) (waiters c) (Done sess err canceled)]> (m_calls m) ->
  m_all m' = m_all m -> m_closed m' = m_closed m -> m_doomed m ⊆ m_doomed m' ->
  (forall sid, sess = Some sid -> mentions c sid \/
     exists i d, m_calls m !! i = Some d /\ mentions d sid /\ c_key d = c_key c /\ generation_of m sid = Some (c_generation c) /\ m_sessions m !! c_key c = Some sid) ->
  (forall sid, c_phase c = Dialed sid -> isClosed m sid = true \/ sid ∈ m_doomed m' \/ m_sessions m' !! c_key c = Some sid) ->
  (forall k sid, m_sessions m' !! k = Some sid -> m_sessions m !! k = Some sid \/ (k = c_key c /\ sess = Some sid)) ->
  (forall k sid, m_sessions m !! k = Some sid -> m_sessions m' !! k = Some sid \/ sid ∈ m_doomed m') ->
  (m_closed m = true -> m_sessions m' = ∅) ->
  owned m'.
Proof.
  intros [Hs Hc Hk Hh He Hz Hf] Hx Ho E1 E2 E4 Hd Hsess Hlead Hnew Hold Hshut.
  set (c' := mkCall (c_key c) (c_generation c) (waiters c) (Done sess err canceled)) in *.
  assert (Hment : forall sid, mentions c' sid -> sess = Some sid).
  { intros sid [Hm|(e & b & Hm)]; [done|]. by injection Hm. }
  (* a mention by a call of the old state *)
  assert (Hwho : forall i d sid, <[cid := c']> (m_calls m) !! i = Some d -> mentions d sid ->
    exists j d0, m_calls m !! j = Some d0 /\ mentions d0 sid /\ c_key d0 = c_key d /\ generation_of m sid = Some (c_generation d)).
  { intros i d sid Hi Hm. apply lookup_insert_Some in Hi as [[<- <-]|[_ Hi]].
    - destruct (Hsess sid (Hment sid Hm)) as [Hmc|(j & d0 & Hj & Hmd & Hkd & Hg & _)].
      + exists cid, c. split_and!; [done|done|done|by apply (Hc cid c)].
      + exists j, d0. by split_and!.
    - exists i, d. split_and!; [done|done|done|by apply (Hc i d)]. }
  split; unfold generation_of; rewrite ?E1, ?E2, ?E4; try done.
  - intros k sid Hin. destruct (Hnew k sid Hin) as [Hin'|[-> Hsid]].
    + destruct (Hs k sid Hin') as (i & d & Hi & Hm & Hkey). destruct (decide (cid = i)) as [<-|Hne].
      * assert (d = c) as -> by congruence. exists cid, c'. rewrite lookup_insert_eq. split_and!; [done| |done].
        destruct Hm as [Hm|(e & b & Hm)]; [|unfold is_open in Ho; by rewrite Hm in Ho].
        right. exists err, canceled. simpl. f_equal. apply dec_stable. intros _. by apply (proj1 (Hf cid c sid Hx Hm) k).
      * exists i, d. by rewrite lookup_insert_ne.
    + exists cid, c'. rewrite lookup_insert_eq. split_and!; [done| |done]. right. exists err, canceled. simpl. by rewrite Hsid.
  - intros i d sid Hi Hm. by destruct (Hwho i d sid Hi Hm) as (_ & _ & _ & _ & _ & Hg).
  - intros i j d e sid Hi Hj H1 H2. destruct (Hwho i d sid Hi H1) as (x & d0 & Hx1 & Hm1 & <- & _).
    destruct (Hwho j e sid Hj H2) as (y & e0 & Hy1 & Hm2 & <- & _). by apply (Hk x y d0 e0 sid).
  - intros sid s Hsid. destruct (Hh sid s Hsid) as [?|[?|Hin]]; [by left|by right; left|]. unfold held in *.
    destruct Hin as [Hin|[[k Hin]|(i & d & Hi & Hph)]].
    + right. right. left. by apply Hd.
    + right. right. destruct (Hold k sid Hin) as [?|?]; [right; left; by exists k|by left].
    + destruct (decide (cid = i)) as [<-|Hne].
      * assert (d = c) as -> by congruence. destruct (Hlead sid Hph) as [Hcl|[?|?]].
        -- right. left. unfold isClosed in Hcl. by rewrite Hsid in Hcl.
        -- right. right. by left.
        -- right. right. right. left. by exists (c_key c).
      * right. right. right. right. exists i, d. by rewrite E1, lookup_insert_ne.
  - intros i d sid Hi Hp. apply lookup_insert_Some in Hi as [[<- <-]|[Hne Hi]]; [done|]. destruct (Hf i d sid Hi Hp) as [Hf1 Hf2].
    assert (Hnot : sess <> Some sid).
    { intros E. destruct (Hsess sid E) as [Hm|(_ & _ & _ & _ & _ & _ & Hin)]; [|by apply (Hf1 (c_key c))]. apply Hne. by apply (Hf2 cid c). }
    split.
    + intros k Hin. destruct (Hnew k sid Hin) as [Hin'|[_ E]]; [by apply (Hf1 k)|done].
    + intros j e Hj Hm. apply lookup_insert_Some in Hj as [[<- <-]|[_ Hj]]; [by destruct Hnot; apply Hment|by apply (Hf2 j e)].
Qed.

(** A new call, which has no session. *)
Lemma owned_reserve key gen fresh m : owned m -> m_calls m !! fresh = None -> owned (reserve key gen fresh m).2.
Proof.
  intros O Hf. unfold reserve. destruct (checkCapacityLocked (Scope key) m) eqn:E; [done|]. simpl.
  destruct O as [Hs Hc Hk Hh He Hz Hd].
  assert (Hlook : forall i d, <[fresh := mkCall key gen 0 Dialing]> (m_calls m) !! i = Some d ->
    (forall sid, ~ mentions d sid) \/ m_calls m !! i = Some d).
  { intros i d Hi. apply lookup_insert_Some in Hi as [[<- <-]|[_ Hi]]; [left|by right]. intros sid [Hm|(e & b & Hm)]; done. }
  assert (Hkeep : forall i d, m_calls m !! i = Some d -> <[fresh := mkCall key gen 0 Dialing]> (m_calls m) !! i = Some d).
  { intros i d Hi. rewrite lookup_insert_ne; [done|]. intros <-. congruence. }
  split; simpl.
  - intros k sid Hin. destruct (Hs k sid Hin) as (i & d & Hi & ?). exists i, d. split; [by apply Hkeep|done].
  - intros i d sid Hi Hm. destruct (Hlook i d Hi) as [Hno|Hi']; [by destruct (Hno sid)|]. by apply (Hc i d).
  - intros i j c d sid Hi Hj H1 H2. destruct (Hlook i c Hi) as [Hno|Hi']; [by destruct (Hno sid)|].
    destruct (Hlook j d Hj) as [Hno|Hj']; [by destruct (Hno sid)|]. by apply (Hk i j c d sid).
  - intros sid s Hsid. destruct (Hh sid s Hsid) as [?|[?|Hin]]; [by left|by right; left|]. right. right.
    destruct Hin as [?|[?|(i & d & Hi & ?)]]; [by left|by right; left|]. right. right. exists i, d. split; [by apply Hkeep|done].
  - done.
  - done.
  - intros i d sid Hi Hp. destruct (Hlook i d Hi) as [Hno|Hi']; [destruct (Hno sid); by left|].
    destruct (Hd i d sid Hi' Hp) as [Hd1 Hd2]. split; [done|]. intros j e Hj Hm.
    destruct (Hlook j e Hj) as [Hno|Hj']; [by destruct (Hno sid)|]. by apply (Hd2 j e).
Qed.

(** A session that did not exist is in no call and not stored. *)
Lemma unborn m sid : owned m -> m_all m !! sid = None ->
  (forall i d, m_calls m !! i = Some d -> ~ mentions d sid) /\ (forall k, m_sessions m !! k <> Some sid).
Proof.
  intros [Hs Hc _ _ _ _ _] Hn.
  assert (H1 : forall i d, m_calls m !! i = Some d -> ~ mentions d sid).
  { intros i d Hi Hm. specialize (Hc i d sid Hi Hm). unfold generation_of in Hc. by rewrite Hn in Hc. }
  split; [done|]. intros k Hin. destruct (Hs k sid Hin) as (i & d & Hi & Hm & _). by apply (H1 i d).
Qed.

Lemma owned_dialed now cid sid c m : owned m -> m_calls m !! cid = Some c -> c_phase c = Dialing -> m_all m !! sid = None ->
  owned (dialed now cid sid m).
Proof.
  intros O Hx Hp Hn. destruct (unborn m sid O Hn) as [Hno Hns]. destruct O as [Hs Hc Hk Hh He Hz Hd].
  unfold dialed. rewrite Hx. set (c' := mkCall (c_key c) (c_generation c) (waiters c) (Dialed sid)).
  assert (Hnone : forall x, ~ mentions c x) by (intros x [Hm|(e & b & Hm)]; congruence).
  assert (Hnew : forall x, mentions c' x -> x = sid) by (intros x [Hm|(e & b & Hm)]; [by injection Hm|done]).
  assert (Hlook : forall i d, <[cid := c']> (m_calls m) !! i = Some d -> (i = cid /\ d = c') \/ (i <> cid /\ m_calls m !! i = Some d)).
  { intros i d Hi. apply lookup_insert_Some in Hi as [[<- <-]|[? Hi]]; [by left|by right]. }
  assert (Hkeep : forall i d x, m_calls m !! i = Some d -> mentions d x -> <[cid := c']> (m_calls m) !! i = Some d).
  { intros i d x Hi Hm. rewrite lookup_insert_ne; [done|]. intros <-. assert (d = c) as -> by congruence. by apply (Hnone x). }
  split; simpl.
  - intros k x Hin. destruct (Hs k x Hin) as (i & d & Hi & Hm & ?). exists i, d. split; [by apply (Hkeep i d x)|done].
  - unfold generation_of. simpl. intros i d x Hi Hm. destruct (Hlook i d Hi) as [[-> ->]|[_ Hi']].
    + apply Hnew in Hm as ->. by rewrite lookup_insert_eq.
    + rewrite lookup_insert_ne; [by apply (Hc i d)|]. intros <-. by apply (Hno i d).
  - intros i j d e x Hi Hj H1 H2. destruct (Hlook i d Hi) as [[-> ->]|[_ Hi']], (Hlook j e Hj) as [[-> ->]|[_ Hj']].
    + done.
    + apply Hnew in H1 as ->. by destruct (Hno j e).
    + apply Hnew in H2 as ->. by destruct (Hno i d).
    + by apply (Hk i j d e x).
  - intros x s Hsid. apply lookup_insert_Some in Hsid as [[<- <-]|[Hne Hsid]].
    + right. right. right. right. exists cid, c'. simpl. by rewrite lookup_insert_eq.
    + destruct (Hh x s Hsid) as [?|[?|Hin]]; [by left|by right; left|]. right. right.
      destruct Hin as [?|[?|(i & d & Hi & Hph)]]; [by left|by right; left|]. right. right. exists i, d. simpl.
      split; [apply (Hkeep i d x); [done|by left]|done].
  - intros x s Hsid. apply lookup_insert_Some in Hsid as [[<- <-]|[_ Hsid]]; [done|by apply (He x)].
  - done.
  - intros i d x Hi Hph. destruct (Hlook i d Hi) as [[-> ->]|[Hne Hi']].
    + injection Hph as <-. split; [done|]. intros j e Hj Hm. destruct (Hlook j e Hj) as [[? _]|[_ Hj']]; [done|by destruct (Hno j e)].
    + destruct (Hd i d x Hi' Hph) as [Hd1 Hd2]. split; [done|]. intros j e Hj Hm. destruct (Hlook j e Hj) as [[-> ->]|[_ Hj']].
      * apply Hnew in Hm as ->. destruct (Hno i d); [done|by left].
      * by apply (Hd2 j e).
Qed.

Lemma owned_close m sid : owned m -> owned (close_session sid m).
Proof.
  intros O. unfold close_session. destruct (m_all m !! sid) as [s|] eqn:E.
  - rewrite (alter_lookup _ _ _ s) by done.
    refine (owned_session m _ sid s (mkSession (generation s) (createdAt s) (lastActive s) (se_busy s) true true) O E _ _ _ _ _ _ _ _ _);
      try done. right. done.
  - assert (Ea : forall f, alter f sid (m_all m) = m_all m).
    { intros f. apply map_eq. intros i. destruct (decide (sid = i)) as [<-|Hne]; [by rewrite lookup_alter_eq, E|by rewrite lookup_alter_ne]. }
    rewrite Ea. destruct O as [Hs Hc Hk Hh He Hz Hd]. split; try done. intros x s Hx.
    destruct (Hh x s Hx) as [?|[?|[Hin|Hin]]]; [by left|by right; left| |by right; right; right].
    right. right. left. simpl. assert (x <> sid) by (intros ->; simpl in Hx; congruence). set_solver.
Qed.

(** The calls in flight are open, one for each key. *)
Definition in_flight (m : Manager) : Prop := forall k cid, m_inflight m !! k = Some cid ->
  exists c, m_calls m !! cid = Some c /\ is_open c = true /\ c_key c = k.

Lemma in_flight_same m m' : in_flight m -> m_inflight m' = m_inflight m -> m_calls m' = m_calls m -> in_flight m'.
Proof. unfold in_flight. intros H -> ->. done. Qed.

Lemma in_flight_finish m m' cid c c' :
  in_flight m -> m_calls m !! cid = Some c -> m_calls m' = <[cid := c']> (m_calls m) ->
  m_inflight m' = m_inflight (forget_inflight (c_key c) cid m) -> in_flight m'.
Proof.
  intros H Hc E1 E2 k i. rewrite E1, E2. unfold forget_inflight. intros Hk.
  assert (Hk' : m_inflight m !! k = Some i /\ (i = cid -> k <> c_key c)).
  { destruct (bool_decide _) eqn:E; bool_facts; simpl in Hk.
    - apply lookup_delete_Some in Hk as [Hne Hk]. split; [done|congruence].
    - split; [done|]. intros -> ->. done. }
  destruct Hk' as [Hk' Hne]. destruct (H k i Hk') as (d & Hd & Ho & Hkey). exists d. rewrite lookup_insert_ne; [done|].
  intros <-. apply Hne; [done|]. congruence.
Qed.

Lemma in_flight_call m cid c c' : in_flight m -> m_calls m !! cid = Some c -> is_open c' = is_open c -> c_key c' = c_key c ->
  forall m', m_calls m' = <[cid := c']> (m_calls m) -> m_inflight m' = m_inflight m -> in_flight m'.
Proof.
  intros H Hc Ho Hk m' E1 E2 k i. rewrite E1, E2. intros Hi. destruct (H k i Hi) as (d & Hd & Hod & Hkd).
  destruct (decide (cid = i)) as [<-|Hne]; [|exists d; by rewrite lookup_insert_ne].
  exists c'. rewrite lookup_insert_eq. assert (d = c) as -> by congruence. split_and!; congruence.
Qed.

(** * The invariant *)
Record managed (m : Manager) : Prop := { mg_counted : counted m; mg_owned : owned m; mg_flight : in_flight m }.

Lemma managed_init m : session_init m -> managed m.
Proof.
  intros [ttl ->]. split; [split|split|].
  all: intros; try (by rewrite ?lookup_empty in * ); try done; try (unfold NewManager in *; simpl in *; by rewrite ?lookup_empty in * ).
Qed.

Lemma managed_reserve key gen fresh m : managed m -> m_calls m !! fresh = None -> managed (reserve key gen fresh m).2.
Proof.
  intros [C O F] Hf. split; [by apply counted_reserve|by apply owned_reserve|]. unfold reserve.
  destruct (checkCapacityLocked (Scope key) m); [done|]. intros k i. simpl. intros Hi.
  apply lookup_insert_Some in Hi as [[<- <-]|[Hne Hi]]; [eexists; by rewrite lookup_insert_eq|].
  destruct (F k i Hi) as (d & Hd & ?). exists d. rewrite lookup_insert_ne; [done|]. intros <-. congruence.
Qed.

Lemma managed_drop key sid m : managed m -> m_sessions m !! key = Some sid ->
  managed (doom sid (set_sessions (delete key (m_sessions m)) m)).
Proof.
  intros [C O F] Hin. split; [|apply (owned_drops m); try done; simpl|by apply (in_flight_same m)].
  - apply (counted_drop key) in C. by apply (counted_view _ _ C).
  - set_solver.
  - intros k x Hk. by apply lookup_delete_Some in Hk as [_ ?].
  - intros k x Hk. destruct (decide (key = k)) as [<-|Hne]; [|left; by rewrite lookup_delete_ne].
    right. left. assert (x = sid) by congruence. set_solver.
  - intros Hcl. apply (ow_shut _ O) in Hcl. by rewrite Hcl in Hin.
Qed.

Lemma managed_find now key gen fresh m : managed m -> m_calls m !! fresh = None -> managed (find_round now key gen fresh m).2.
Proof.
  intros M Hf. unfold find_round. destruct (m_closed m); [done|].
  destruct (take_cases key gen now m) as [(sid & reason & -> & Hin)|[(sid & -> & _)|[-> _]]]; [by apply managed_drop|done|].
  destruct (m_inflight m !! key) as [cid|] eqn:Ei; [|by apply managed_reserve].
  destruct (bool_decide _) eqn:E; [|by apply managed_reserve]. simpl. destruct M as [C O F].
  destruct (F key cid Ei) as (c & Hc & Ho & Hk). rewrite (alter_lookup _ _ _ c) by done.
  set (c' := mkCall (c_key c) (c_generation c) (S (waiters c)) (c_phase c)).
  split; [by apply (counted_call m cid c)| |].
  - by apply (owned_call m _ cid c c').
  - by apply (in_flight_call m cid c c').
Qed.

Lemma managed_lookup now key gen evicted m : managed m -> managed (lookup_round now key gen evicted m).2.
Proof.
  intros M. unfold lookup_round. destruct (m_closed m); [done|].
  destruct (take_cases key gen now m) as [(sid & reason & -> & Hin)|[(sid & -> & _)|[-> _]]]; [by apply managed_drop|done|done].
Qed.

(** The end of a dial without a session; one that the leader had is closed. *)
Lemma managed_finish m m' key cid c sess err canceled :
  managed m -> m_calls m !! cid = Some c -> is_open c = true -> c_key c = key ->
  m' = finishReservedDialLocked key cid sess err canceled m ->
  forall d, m_doomed m ⊆ d ->
  (forall sid, c_phase c = Dialed sid -> isClosed m sid = true \/ sid ∈ d) ->
  (forall sid, sess = Some sid -> m_sessions m !! key = Some sid /\ generation_of m sid = Some (c_generation c)) ->
  managed (set_doomed d m').
Proof.
  intros [C O F] Hc Ho Hk -> d Hd Hlead Hsess.
  destruct (forget_same key cid (releaseSlotLocked (Scope key) m)) as (E1 & E2 & E3 & E4 & E5 & E6 & E7 & E8).
  split.
  - apply (counted_view (finishReservedDialLocked key cid sess err canceled m)); try done. by apply (counted_finish _ _ c).
  - refine (owned_done m _ cid c sess err canceled O Hc Ho _ _ _ _ _ _ _ _ _); subst key; simpl; rewrite ?E1, ?E3, ?E6, ?E8; try done.
    + by rewrite (alter_lookup _ _ _ c Hc).
    + intros sid E. right. destruct (Hsess sid E) as [H1 H2]. destruct (ow_sessions _ O _ _ H1) as (i & e & Hi & Hm & Hke). by exists i, e.
    + intros sid Hp. destruct (Hlead sid Hp); [by left|by right; left].
    + simpl. intros k sid Hin. by left.
    + simpl. intros k sid Hin. by left.
    + apply (ow_shut _ O).
  - refine (in_flight_finish m _ cid c (mkCall (c_key c) (c_generation c) (waiters c) (Done sess err canceled)) F Hc _ _); simpl; rewrite ?E1; simpl.
    + by rewrite (alter_lookup _ _ _ c Hc).
    + subst key. unfold forget_inflight. simpl. by destruct (bool_decide _).
Qed.

Lemma finish_doomed key cid sess err canceled m : m_doomed (finishReservedDialLocked key cid sess err canceled m) = m_doomed m.
Proof. by destruct (forget_same key cid (releaseSlotLocked (Scope key) m)) as (_ & _ & _ & _ & _ & _ & H & _). Qed.

Lemma managed_close m sid : managed m -> managed (close_session sid m).
Proof. intros [C O F]. split; [by apply (counted_view m)|by apply owned_close|by apply (in_flight_same m)]. Qed.

Lemma managed_failed m cid c err canceled :
  managed m -> m_calls m !! cid = Some c -> is_open c = true -> managed (dial_failed cid err canceled m).
Proof.
  intros M Hc Ho. unfold dial_failed. rewrite Hc.
  assert (Hset : forall m1, m1 = set_doomed (m_doomed m1) m1) by (by intros []).
  destruct (c_phase c) as [|sid|] eqn:Ep; [| |unfold is_open in Ho; by rewrite Ep in Ho].
  - rewrite (Hset (finishReservedDialLocked _ _ _ _ _ _)).
    eapply (managed_finish m _ (c_key c) cid c None (Some err) canceled); try done.
    + by rewrite finish_doomed.
    + congruence.
  - pose proof (managed_close m sid M) as M'. rewrite (Hset (finishReservedDialLocked _ _ _ _ _ _)).
    eapply (managed_finish (close_session sid m) _ (c_key c) cid c None (Some err) canceled); try done.
    + by rewrite finish_doomed.
    + intros x Hx. left. assert (x = sid) as -> by congruence. unfold isClosed, close_session. simpl. rewrite lookup_alter_eq.
      by destruct (m_all m !! sid).
Qed.

(** The leader's session is stored under its key. *)
Lemma managed_stored m cid c sid d :
  managed m -> m_calls m !! cid = Some c -> c_phase c = Dialed sid -> m_closed m = false -> m_doomed m ⊆ d ->
  (forall raced, m_sessions m !! c_key c = Some raced -> raced ∈ d) ->
  managed (set_doomed d (finish_call cid (Some sid) None false (forget_inflight (c_key c) cid
    (set_sessions (<[c_key c := sid]> (m_sessions m)) (releaseSlotLocked (Scope (c_key c)) m))))).
Proof.
  intros [C O F] Hc Hp Hcl Hd Hraced. assert (Ho : is_open c = true) by (unfold is_open; by rewrite Hp).
  set (m1 := set_sessions _ _). destruct (forget_same (c_key c) cid m1) as (E1 & E2 & E3 & E4 & E5 & E6 & E7 & E8).
  set (c' := mkCall (c_key c) (c_generation c) (waiters c) (Done (Some sid) None false)).
  assert (Ecalls : m_calls (set_doomed d (finish_call cid (Some sid) None false (forget_inflight (c_key c) cid m1))) = <[cid := c']> (m_calls m)).
  { simpl. rewrite E1. simpl. by rewrite (alter_lookup _ _ _ c Hc). }
  split.
  - refine (proj1 (counted_release m _ cid c c' C Hc Ho _ _ _ _ _ _ _)); simpl; rewrite ?E2, ?E3, ?E4, ?E5; try done.
    + simpl. apply insert_size.
    + intros scope. unfold scopeSessions at 1. simpl. rewrite E3. simpl. apply scope_insert.
  - refine (owned_done m _ cid c (Some sid) None false O Hc Ho Ecalls _ _ _ _ _ _ _ _); simpl; rewrite ?E3, ?E6, ?E8; try done.
    + intros x [= <-]. left. by left.
    + intros x Hx. right. right. assert (x = sid) as -> by congruence. apply lookup_insert_eq.
    + simpl. intros k x Hin. apply lookup_insert_Some in Hin as [[<- <-]|[_ Hin]]; [by right|by left].
    + simpl. intros k x Hin. destruct (decide (c_key c = k)) as [<-|Hne]; [right; by apply Hraced|left; by rewrite lookup_insert_ne].
    + simpl. congruence.
  - refine (in_flight_finish m _ cid c c' F Hc Ecalls _). simpl. unfold forget_inflight. simpl. by destruct (bool_decide _).
Qed.

Lemma managed_publish m cid c sid :
  managed m -> m_calls m !! cid = Some c -> c_phase c = Dialed sid -> managed (publishSession (c_key c) (c_generation c) cid sid m).2.
Proof.
  intros M Hc Hp. assert (Ho : is_open c = true) by (unfold is_open; by rewrite Hp).
  assert (Hfin : forall sess err, (forall x, sess = Some x -> m_sessions m !! c_key c = Some x /\ generation_of m x = Some (c_generation c)) ->
    managed (doom sid (finishReservedDialLocked (c_key c) cid sess err false m))).
  { intros sess err Hsess.
    eapply (managed_finish m _ (c_key c) cid c sess err false M Hc Ho); [done|done| | |done].
    - rewrite finish_doomed. set_solver.
    - intros x Hx. right. assert (x = sid) as -> by congruence. set_solver. }
  unfold publishSession. destruct (m_closed m) eqn:Ecl; [by apply Hfin|].
  destruct (m_sessions m !! c_key c) as [raced|] eqn:Es.
  - destruct (_ && _) eqn:Eb; simpl; bool_facts.
    + apply Hfin. intros x [= <-]. done.
    + unfold doom. destruct (forget_same (c_key c) cid (set_sessions (<[c_key c := sid]> (m_sessions m)) (releaseSlotLocked (Scope (c_key c)) m)))
        as (_ & _ & _ & _ & _ & _ & E7 & _).
      apply managed_stored; try done; simpl; rewrite E7; simpl; [set_solver|]. intros x Hx. assert (x = raced) as -> by congruence. set_solver.
  - rewrite (published_room m cid c) by (done || apply M). simpl.
    destruct (forget_same (c_key c) cid (set_sessions (<[c_key c := sid]> (m_sessions m)) (releaseSlotLocked (Scope (c_key c)) m)))
        as (_ & _ & _ & _ & _ & _ & E7 & _).
    assert (Hset : forall m1, m1 = set_doomed (m_doomed m1) m1) by (by intros []).
    rewrite (Hset (finish_call _ _ _ _ _)). apply managed_stored; try done; simpl; rewrite ?E7; [done|]. congruence.
Qed.

(** Sessions leave the map to be closed, or because they ended. *)
Lemma managed_drops m m' :
  managed m -> m_all m' = m_all m -> m_calls m' = m_calls m -> m_pending m' = m_pending m -> m_inflight m' = m_inflight m ->
  maxSessions m' = maxSessions m -> maxTotalSessions m' = maxTotalSessions m -> m_doomed m ⊆ m_doomed m' ->
  m_sessions m' ⊆ m_sessions m ->
  (forall k sid, m_sessions m !! k = Some sid -> m_sessions m' !! k = Some sid \/ sid ∈ m_doomed m' \/ isClosed m sid = true) ->
  (m_closed m' = true -> m_sessions m' = ∅) -> managed m'.
Proof.
  intros [C O F] E1 E2 E3 E4 E5 E6 Hd Hsub Hdrop Hshut. split; [|apply (owned_drops m); try done|by apply (in_flight_same m)].
  - apply (counted_shrink m); try done; [by unfold open_total; rewrite E2|by intros scope; unfold open_in; rewrite E2| |].
    + by apply map_subseteq_size.
    + intros scope. unfold scopeSessions. apply map_subseteq_size, map_subseteq_spec. intros k x Hk.
      apply map_lookup_filter_Some in Hk as [Hk ?]. apply map_lookup_filter_Some. split; [by apply (lookup_weaken _ _ _ _ Hk Hsub)|done].
  - intros k sid Hk. by apply (lookup_weaken _ _ _ _ Hk Hsub).
Qed.

Lemma managed_step m m' : managed m -> session_step m m' -> managed m'.
Proof.
  intros M Hstep. pose proof (ow_shut _ (mg_owned _ M)) as Hz. destruct Hstep as
    [now key gen fresh Hf|now key gen evicted|sid Hs|now cid sid c Hc Hp Hn|cid c err canceled Hc Ho|cid sid c Hc Hp|sid s Hs|sid s last busy Hs|
     sid Hs|key sid Hs|key sid Hs|now|].
  - by apply managed_find.
  - by apply managed_lookup.
  - by apply managed_close.
  - destruct M as [C O F]. split; [|by apply (owned_dialed now cid sid c)|]; unfold dialed; rewrite Hc;
      set (c' := mkCall (c_key c) (c_generation c) (waiters c) (Dialed sid)); assert (is_open c' = is_open c) by (unfold is_open; by rewrite Hp).
    + apply (counted_view (set_calls (<[cid := c']> (m_calls m)) m)); try done. by apply (counted_call m cid c).
    + by apply (in_flight_call m cid c c').
  - by apply (managed_failed m cid c).
  - by apply managed_publish.
  - destruct M as [C O F]. split; [by apply (counted_view m)| |by apply (in_flight_same m)].
    refine (owned_session m _ sid s (mkSession (generation s) (createdAt s) (lastActive s) (se_busy s) true (se_closed s)) O Hs _ _ _ _ _ _ _ _ _); try done. by left.
  - destruct M as [C O F]. split; [by apply (counted_view m)| |by apply (in_flight_same m)].
    refine (owned_session m _ sid s (mkSession (generation s) (createdAt s) last busy (se_ended s) (se_closed s)) O Hs _ _ _ _ _ _ _ _ _); try done; [|by left].
    simpl. by apply (ow_ended _ O sid).
  - by apply managed_close.
  - apply (managed_drops m); try done; unfold remove; destruct (bool_decide _) eqn:E; simpl; try done; bool_facts.
    + set_solver.
    + set_solver.
    + apply delete_subseteq.
    + intros k x Hk. destruct (decide (key = k)) as [<-|Hne]; [right; left; set_solver|left; by rewrite lookup_delete_ne].
    + intros k x Hk. by left.
    + intros Hcl. by rewrite Hz in E.
  - apply (managed_drops m); try done; unfold remove; destruct (bool_decide _) eqn:E; simpl; try done; bool_facts.
    + apply delete_subseteq.
    + intros k x Hk. destruct (decide (key = k)) as [<-|Hne]; [right; right; congruence|left; by rewrite lookup_delete_ne].
    + intros k x Hk. by left.
    + intros Hcl. by rewrite Hz in E.
  - apply (managed_drops m); try done; simpl.
    + set_solver.
    + apply map_filter_subseteq.
    + intros k x Hk. destruct (isExpired m now x) eqn:E.
      * right. left. apply elem_of_union_r, elem_of_list_to_set, list_elem_of_fmap. exists (k, x). split; [done|].
        apply elem_of_map_to_list, map_lookup_filter_Some. done.
      * left. by apply map_lookup_filter_Some.
    + intros Hcl. rewrite (Hz Hcl). apply map_filter_empty.
  - apply (managed_drops m); try done; simpl.
    + set_solver.
    + apply map_empty_subseteq.
    + intros k x Hk. right. left. apply elem_of_union_r, elem_of_list_to_set, list_elem_of_fmap. exists (k, x). split; [done|].
      by apply elem_of_map_to_list.
Qed.

Lemma managed_reachable m : session_reachable m -> managed m.
Proof. apply reachable_invariant; [apply managed_init|intros s s'; apply managed_step]. Qed.

(** * What the manager promises *)

(** C38: the limits.  In every interleaving of calls, dials, sweeps, readers and the
    shutdown, at most 64 sessions are stored or being dialed, at most 16 of them
    in one scope, and the reserved slots of each scope are exactly its running
    dials: none leaks.  So a dial that got its slot always finds room for its
    session: its publication never fails for the limits. *)
Theorem sessions_bounded m : session_reachable m ->
  Z.of_nat (size (m_sessions m)) + totalPending m <= DefaultMaxTotalSessions /\
  (forall scope, Z.of_nat (scopeSessions scope m + pending_of scope m) <= DefaultMaxSessions) /\
  (forall scope, pending_of scope m = open_in scope m) /\
  (forall cid c sid, m_calls m !! cid = Some c -> c_phase c = Dialed sid -> m_closed m = false ->
     exists sid', (publishSession (c_key c) (c_generation c) cid sid m).1 = Ok sid').
Proof.
  intros Hr. destruct (managed_reachable m Hr) as [C _ _]. destruct (C) as [Hp Ht [Hm1 Hm2] Hl Hs]. split_and!.
  - unfold totalPending. fold (sum (m_pending m)). rewrite Ht, <- Hm2. done.
  - intros scope. rewrite Hp, <- Hm1. apply Hs.
  - done.
  - intros cid c sid Hc Hph Hcl. unfold publishSession. rewrite Hcl. destruct (m_sessions m !! c_key c) as [raced|].
    + destruct (_ && _); simpl; eauto.
    + rewrite (published_room m cid c); simpl; eauto. unfold is_open. by rewrite Hph.
Qed.

(** what callers get.  A session found under a key is open, of the generation
    asked for, and within its idle time and its lifetime; one found stale leaves
    the map and will be closed.  A caller waits only for a call of its own key
    and generation that still runs, and gets from it only a live session of that
    generation, which is stored under no other key. *)
Theorem sessions_current m now key gen fresh : session_reachable m ->
  (forall sid, (find_round now key gen fresh m).1 = SReuse sid ->
     m_sessions m !! key = Some sid /\
     exists s, m_all m !! sid = Some s /\ generation s = gen /\ se_ended s = false /\ se_closed s = false /\
       now - lastActive s < (if se_busy s then 2 * idleTTL m else idleTTL m) /\
       (createdAt s <> 0 -> now - createdAt s < maxSessionLifetime)) /\
  (forall sid, (find_round now key gen fresh m).1 = SStale sid ->
     m_sessions (find_round now key gen fresh m).2 !! key = None /\ sid ∈ m_doomed (find_round now key gen fresh m).2) /\
  (forall cid, (find_round now key gen fresh m).1 = SWait cid ->
     exists c, m_calls m !! cid = Some c /\ is_open c = true /\ c_key c = key /\ c_generation c = gen) /\
  (forall cid c sid, m_calls m !! cid = Some c -> wait_call cid m = WSession sid ->
     isClosed m sid = false /\ generation_of m sid = Some (c_generation c) /\
     forall k, m_sessions m !! k = Some sid -> k = c_key c).
Proof.
  intros Hr. destruct (managed_reachable m Hr) as [_ O F]. split_and!.
  - intros sid. unfold find_round. destruct (m_closed m); [done|].
    destruct (take_cases key gen now m) as [(x & reason & -> & Hin)|[(x & -> & Hin & Hcl & Hgen & Hexp)|[-> _]]]; [done| |].
    + intros [= <-]. split; [done|]. unfold isClosed, generation_of, isExpired in *. destruct (m_all m !! x) as [s|] eqn:Es; [|done].
      exists s. simpl in Hgen. injection Hgen as Hgen. unfold expired in Hexp. bool_facts. split_and!; try done.
      * destruct (se_closed s) eqn:Ec; [|done]. by rewrite (ow_ended _ O x s Es Ec) in Hcl.
      * intros Hne. apply Z.eqb_neq in Hne. match goal with H : negb _ && _ = false |- _ => rewrite Hne in H; simpl in H end. bool_facts. done.
    + unfold reserve. destruct (m_inflight m !! key); repeat (case_match; simpl; try done).
  - intros sid. unfold find_round. destruct (m_closed m); [done|].
    destruct (take_cases key gen now m) as [(x & reason & -> & Hin)|[(x & -> & Hin & Hcl & Hgen & Hexp)|[-> _]]].
    + simpl. intros [= <-]. split; [apply lookup_delete_eq|set_solver].
    + done.
    + unfold reserve. destruct (m_inflight m !! key); repeat (case_match; simpl; try done).
  - intros cid. unfold find_round. destruct (m_closed m); [done|].
    destruct (take_cases key gen now m) as [(x & reason & -> & Hin)|[(x & -> & Hin & Hcl & Hgen & Hexp)|[-> _]]]; [done|done|].
    unfold reserve. destruct (m_inflight m !! key) as [i|] eqn:Ei; [|by repeat (case_match; simpl; try done)].
    destruct (bool_decide _) eqn:Eb; [|by repeat (case_match; simpl; try done)]. simpl. intros [= <-]. bool_facts.
    destruct (F key i Ei) as (c & Hc & Ho & Hk). exists c. split_and!; try done. rewrite Hc in Eb. by injection Eb.
  - intros cid c sid Hc. unfold wait_call. rewrite Hc. simpl. destruct (c_phase c) as [| |sess err canceled] eqn:Ep; [done|done|].
    destruct sess as [x|], err as [e|]; try (by destruct canceled); try done. destruct (isClosed m x) eqn:Ecl; [done|]. intros [= <-].
    assert (Hm : mentions c x) by (right; eauto). split_and!; [done|by apply (ow_calls _ O cid c)|].
    intros k Hin. destruct (ow_sessions _ O k x Hin) as (i & d & Hi & Hmd & <-). by apply (ow_key _ O i cid d c x).
Qed.

(** the manager owns its sessions.  A session whose shell has not ended was
    closed, or is stored, or is about to be closed, or belongs to the dial that
    opened it; it is stored under at most one key; and it stays of the generation
    of the call that dialed it. *)
Theorem sessions_owned m sid s : session_reachable m -> m_all m !! sid = Some s -> se_ended s = false ->
  se_closed s = false /\ held m sid /\
  (forall k k', m_sessions m !! k = Some sid -> m_sessions m !! k' = Some sid -> k = k') /\
  (forall cid c, m_calls m !! cid = Some c -> mentions c sid -> generation s = c_generation c).
Proof.
  intros Hr Hs He. destruct (managed_reachable m Hr) as [_ O _]. split_and!.
  - destruct (se_closed s) eqn:Ec; [|done]. by rewrite (ow_ended _ O sid s Hs Ec) in He.
  - destruct (ow_held _ O sid s Hs) as [Hc|[?|?]]; [|congruence|done]. by rewrite (ow_ended _ O sid s Hs Hc) in He.
  - intros k k' H1 H2. destruct (ow_sessions _ O _ _ H1) as (i & c & Hi & Hm & <-), (ow_sessions _ O _ _ H2) as (j & d & Hj & Hmd & <-).
    by apply (ow_key _ O i j c d sid).
  - intros cid c Hc Hm. pose proof (ow_calls _ O cid c sid Hc Hm) as Hg. unfold generation_of in Hg. rewrite Hs in Hg. by injection Hg.
Qed.

Lemma closed_step m m' : session_step m m' -> m_closed m = true -> m_closed m' = true.
Proof.
  intros Hstep Hcl. destruct Hstep; simpl; try done; unfold find_round, lookup_round, dialed, dial_failed, publishSession, remove,
    finishReservedDialLocked, forget_inflight in *; rewrite ?Hcl; simpl; try done; repeat (case_match; simpl; try done).
Qed.

(** after a shutdown, for good.  In every later state nothing is stored, every
    lookup, reservation and publication fails with the closed error, no call can
    open a dial, a session that a dial still brings is closed, and every session
    that the manager had stored when it was shut down is closed or will be. *)
Theorem sessions_shut m m' : session_reachable m -> rtc session_step (Shutdown m) m' ->
  m_sessions m' = ∅ /\
  (forall now key gen fresh, (find_round now key gen fresh m').1 = SClosed /\ (find_round now key gen fresh m').2 = m') /\
  (forall now key gen evicted, (lookup_round now key gen evicted m').1 = Err EManagerClosed) /\
  (forall key gen cid sid, (publishSession key gen cid sid m').1 = Err EManagerClosed /\
     sid ∈ m_doomed (publishSession key gen cid sid m').2) /\
  (forall key sid, m_sessions m !! key = Some sid -> sid ∈ m_doomed (Shutdown m)).
Proof.
  intros Hr Hsteps.
  assert (Hr' : session_reachable m').
  { assert (H0 : session_reachable (Shutdown m)) by (refine (reachable_step _ _ _ _ Hr _); constructor).
    clear Hr. induction Hsteps; [done|]. apply IHHsteps. by eapply reachable_step. }
  assert (Hcl : m_closed m' = true).
  { assert (H0 : m_closed (Shutdown m) = true) by done. revert H0. induction Hsteps; [done|]. intros H0. apply IHHsteps; [done|].
    by eapply closed_step. }
  split_and!.
  - by apply (ow_shut _ (mg_owned _ (managed_reachable m' Hr'))).
  - intros. unfold find_round. by rewrite Hcl.
  - intros. unfold lookup_round. by rewrite Hcl.
  - intros. unfold publishSession. rewrite Hcl. simpl. set_solver.
  - intros key sid Hin. simpl. apply elem_of_union_r, elem_of_list_to_set, list_elem_of_fmap. exists (key, sid). split; [done|].
    by apply elem_of_map_to_list.
Qed.

(** * A run *)
Definition sample_key : Key := ("scope"%string, "node"%string, "main"%string).
Definition sample_0 : Manager := NewManager 0.
Definition sample_1 : Manager := (find_round 100 sample_key "g1" 0 sample_0).2.
Definition sample_2 : Manager := (find_round 110 sample_key "g1" 1 sample_1).2.
Definition sample_3 : Manager := dialed 200 0 5 sample_2.
Definition sample_4 : Manager := (publishSession sample_key "g1" 0 5 sample_3).2.
Definition sample_session (ended : bool) : managedSession := mkSession "g1" 200 200 false ended false.
Definition sample_5 : Manager := set_session 5 (sample_session true) sample_4.
Definition sample_6 : Manager := remove sample_key 5 sample_5.
Definition sample_7 : Manager := Shutdown sample_6.

Definition sample_call (p : phase) : dialCall := mkCall sample_key "g1" 1 p.
Lemma sample_2_call : m_calls sample_2 !! 0%nat = Some (sample_call Dialing).
Proof. vm_compute. reflexivity. Qed.
Lemma sample_3_call : m_calls sample_3 !! 0%nat = Some (sample_call (Dialed 5)).
Proof. vm_compute. reflexivity. Qed.
Lemma sample_4_call : m_calls sample_4 !! 0%nat = Some (sample_call (Done (Some 5%nat) None false)).
Proof. vm_compute. reflexivity. Qed.
Lemma sample_4_session : m_all sample_4 !! 5%nat = Some (sample_session false).
Proof. vm_compute. reflexivity. Qed.

Lemma ses_1_reachable : session_reachable sample_1.
Proof.
  refine (reachable_step _ _ sample_0 _ _ (ss_find _ 100 sample_key "g1" 0 _)); [|reflexivity].
  exists sample_0. split; [by exists 0|apply rtc_refl].
Qed.
Lemma ses_3_reachable : session_reachable sample_3.
Proof.
  refine (reachable_step _ _ sample_2 _ _ (ss_dialed _ 200 0 5 _ sample_2_call eq_refl _)); [|vm_compute; reflexivity].
  refine (reachable_step _ _ sample_1 _ ses_1_reachable (ss_find _ 110 sample_key "g1" 1 _)). vm_compute. reflexivity.
Qed.
Lemma ses_4_reachable : session_reachable sample_4.
Proof. exact (reachable_step _ _ _ _ ses_3_reachable (ss_publish _ 0 5 _ sample_3_call eq_refl)). Qed.
Lemma ses_5_reachable : session_reachable sample_5.
Proof. exact (reachable_step _ _ _ _ ses_4_reachable (ss_reader_ends _ 5 _ sample_4_session)). Qed.
Lemma ses_7_reachable : session_reachable sample_7.
Proof.
  refine (reachable_step _ _ sample_6 _ _ (ss_shutdown _)).
  refine (reachable_step _ _ sample_5 _ ses_5_reachable (ss_remove_lost _ sample_key 5 _)). vm_compute. reflexivity.
Qed.

Example sample_finds :
  ((find_round 110 sample_key "g1" 1 sample_1).1, (find_round 300 sample_key "g1" 1 sample_4).1, (find_round 300 sample_key "g2" 1 sample_4).1,
   wait_call 0 sample_4) = (SWait 0, SReuse 5, SStale 5, WSession 5).
Proof. vm_compute. reflexivity. Qed.

(** a session whose shell ended is lost by the call that notices it: the call
    takes it out of the map without closing it, so its PTY, and the lease on the
    connection that the PTY releases, stay open.  There is a run after which
    the manager is shut down, no dial runs, nothing is left to close, and a
    session that it opened was never closed and is held by nobody. *)
Theorem lost_session_leaks : exists m sid s,
  session_reachable m /\ m_closed m = true /\ m_doomed m = ∅ /\
  (forall cid c, m_calls m !! cid = Some c -> is_open c = false) /\
  m_all m !! sid = Some s /\ se_closed s = false /\ ~ held m sid.
Proof.
  assert (Hcalls : m_calls sample_7 = {[ 0%nat := sample_call (Done (Some 5%nat) None false) ]}) by (vm_compute; reflexivity).
  assert (Hone : forall cid c, m_calls sample_7 !! cid = Some c -> c = sample_call (Done (Some 5%nat) None false)).
  { intros cid c. rewrite Hcalls. intros Hc. by apply lookup_singleton_Some in Hc as [_ <-]. }
  exists sample_7, 5%nat, (sample_session true). split_and!.
  - exact ses_7_reachable.
  - reflexivity.
  - vm_compute. reflexivity.
  - intros cid c Hc. by rewrite (Hone cid c Hc).
  - vm_compute. reflexivity.
  - reflexivity.
  - assert (Hd : m_doomed sample_7 = ∅) by (vm_compute; reflexivity).
    intros [Hin|[[k Hk]|(cid & c & Hc & Hp)]].
    + rewrite Hd in Hin. set_solver.
    + change (m_sessions sample_7) with (∅ : gmap Key nat) in Hk. by rewrite lookup_empty in Hk.
    + by rewrite (Hone cid c Hc) in Hp.
Qed.

Lemma sessions_bounded_witness : Z.of_nat (size (m_sessions sample_3)) + totalPending sample_3 <= DefaultMaxTotalSessions.
Proof. exact (proj1 (sessions_bounded sample_3 ses_3_reachable)). Defined.

Lemma sessions_current_witness : generation_of sample_4 5 = Some "g1"%string.
Proof.
  assert (Hw : wait_call 0 sample_4 = WSession 5) by (vm_compute; reflexivity).
  pose proof (sessions_current sample_4 300 sample_key "g1" 1 ses_4_reachable) as (_ & _ & _ & H).
  exact (proj1 (proj2 (H 0%nat _ 5%nat sample_4_call Hw))).
Defined.

Lemma sessions_owned_witness : held sample_4 5.
Proof. exact (proj1 (proj2 (sessions_owned sample_4 5 _ ses_4_reachable sample_4_session eq_refl))). Defined.

Lemma sessions_shut_witness : m_sessions (Shutdown sample_4) = ∅.
Proof. exact (proj1 (sessions_shut sample_4 _ ses_4_reachable (rtc_refl _ _))). Defined.
