(* ===== verification/Wire.v ===== *)
(** Big-endian integers and length-prefixed text on the wire: package
    [encoding/binary] as the formats and protocols of the program use it, and
    the interface that states what an encoding and its reader promise each
    other. *)
From S2P Require Export GoStrings.
#[local] Open Scope Z_scope.

Lemma pow256 n : 0 < 256 ^ Z.of_nat n.
Proof. apply Z.pow_pos_nonneg; lia. Qed.

(** * Bytes and integers *)
Definition byte_of (v : Z) : ascii := Ascii.ascii_of_N (Z.to_N (v mod 256)).
Definition code (c : ascii) : Z := Z.of_N (byte_code c).

(** [AppendUint16], [AppendUint32] and [AppendUint64] of an unsigned integer: its
    low [n] bytes, the highest first. *)
Fixpoint be (n : nat) (v : Z) : string :=
  match n with O => EmptyString | S k => String (byte_of (v / 256 ^ Z.of_nat k)) (be k v) end.

(** [Uint16], [Uint32] and [Uint64]. *)
Fixpoint unbe_from (s : string) (acc : Z) : Z :=
  match s with EmptyString => acc | String c r => unbe_from r (acc * 256 + code c) end.
Definition unbe (s : string) : Z := unbe_from s 0.

Lemma code_range c : 0 <= code c < 256.
Proof. unfold code, byte_code. pose proof (Ascii.N_ascii_bounded c). lia. Qed.

Lemma code_byte_of v : code (byte_of v) = v mod 256.
Proof.
  unfold code, byte_code, byte_of. pose proof (Z.mod_pos_bound v 256 eq_refl). rewrite Ascii.N_ascii_embedding by lia. lia.
Qed.

Lemma byte_of_code c : byte_of (code c) = c.
Proof.
  unfold byte_of. pose proof (code_range c). rewrite Z.mod_small by lia. unfold code. rewrite N2Z.id. apply Ascii.ascii_N_embedding.
Qed.

Lemma be_length n v : String.length (be n v) = n.
Proof. induction n; simpl; congruence. Qed.

Lemma unbe_from_split s : forall acc, unbe_from s acc = acc * 256 ^ Z.of_nat (String.length s) + unbe s.
Proof.
  unfold unbe. induction s as [|c s IH]; intros acc; [simpl; lia|]. cbn [unbe_from String.length]. rewrite IH, (IH (0 * 256 + code c)).
  rewrite Nat2Z.inj_succ, Z.pow_succ_r by lia. lia.
Qed.

Lemma unbe_cons c s : unbe (String c s) = code c * 256 ^ Z.of_nat (String.length s) + unbe s.
Proof. unfold unbe at 1. cbn [unbe_from]. rewrite unbe_from_split. lia. Qed.

Lemma unbe_range s : 0 <= unbe s < 256 ^ Z.of_nat (String.length s).
Proof.
  induction s as [|c s IH]; [done|]. rewrite unbe_cons. cbn [String.length]. rewrite Nat2Z.inj_succ, Z.pow_succ_r by lia.
  pose proof (code_range c). pose proof (pow256 (String.length s)). nia.
Qed.

Lemma be_mod n : forall v, be n (v mod 256 ^ Z.of_nat n) = be n v.
Proof.
  assert (H : forall n v w, v mod 256 ^ Z.of_nat n = w mod 256 ^ Z.of_nat n -> be n v = be n w).
  { clear n. induction n as [|n IH]; intros v w E; [done|]. simpl. pose proof (pow256 n).
    assert (E' : v mod (256 ^ Z.of_nat n * 256) = w mod (256 ^ Z.of_nat n * 256)).
    { rewrite Nat2Z.inj_succ, Z.pow_succ_r in E by lia. by rewrite (Z.mul_comm _ 256). }
    rewrite !Z.rem_mul_r in E' by lia.
    pose proof (Z.mod_pos_bound v (256 ^ Z.of_nat n) ltac:(lia)). pose proof (Z.mod_pos_bound w (256 ^ Z.of_nat n) ltac:(lia)).
    destruct (Z.div_mod_unique (256 ^ Z.of_nat n) ((v / 256 ^ Z.of_nat n) mod 256) ((w / 256 ^ Z.of_nat n) mod 256)
      (v mod 256 ^ Z.of_nat n) (w mod 256 ^ Z.of_nat n)) as [E1 E2]; [by left|by left|lia|].
    f_equal; [unfold byte_of; by rewrite E1|by apply IH]. }
  intros v. apply H. by rewrite Zmod_mod.
Qed.

(** Integers survive the wire, up to their width. *)
Lemma unbe_be n v : unbe (be n v) = v mod 256 ^ Z.of_nat n.
Proof.
  revert v. induction n as [|n IH]; intros v; [by rewrite Z.mod_1_r|]. cbn [be]. rewrite unbe_cons, code_byte_of, be_length, IH.
  rewrite Nat2Z.inj_succ, Z.pow_succ_r, (Z.mul_comm 256) by lia. pose proof (pow256 n). rewrite Z.rem_mul_r by lia. lia.
Qed.

Lemma unbe_be_small n v : 0 <= v < 256 ^ Z.of_nat n -> unbe (be n v) = v.
Proof. intros H. rewrite unbe_be. by apply Z.mod_small. Qed.

Lemma be_unbe s : be (String.length s) (unbe s) = s.
Proof.
  induction s as [|c s IH]; [done|]. cbn [String.length be]. rewrite unbe_cons. pose proof (unbe_range s). f_equal.
  - rewrite Z.div_add_l by lia. rewrite Z.div_small by lia. rewrite Z.add_0_r. apply byte_of_code.
  - transitivity (be (String.length s) (unbe s)); [|exact IH]. rewrite <- be_mod. rewrite Z.add_comm, Z_mod_plus_full. by rewrite be_mod.
Qed.

Lemma be_unbe_n n s : String.length s = n -> be n (unbe s) = s.
Proof. intros <-. apply be_unbe. Qed.

(** * Cutting *)
Lemma take_bytes_app a b : take_bytes (String.length a) (a +:+ b) = a.
Proof. induction a as [|c a IH]; simpl; [by destruct b|]. by rewrite IH. Qed.

Lemma take_drop n : forall s, (n <= String.length s)%nat -> take_bytes n s +:+ drop_bytes n s = s.
Proof. induction n as [|n IH]; intros [|c s] H; simpl in *; try done; try lia. rewrite IH by lia. done. Qed.

Lemma take_bytes_length n : forall s, (n <= String.length s)%nat -> String.length (take_bytes n s) = n.
Proof. induction n as [|n IH]; intros [|c s] H; simpl in *; try done; try lia. rewrite IH by lia. done. Qed.

Lemma app_inj_length (a b c d : string) : String.length a = String.length c -> a +:+ b = c +:+ d -> a = c /\ b = d.
Proof.
  revert c. induction a as [|x a IH]; intros [|y c] Hl H; simpl in *; try done; try lia.
  injection H as -> H. apply IH in H as [-> ->]; [done|lia].
Qed.

(** * Lengths *)
Lemma len_app a b : len (a +:+ b) = len a + len b.
Proof. unfold len. rewrite length_app_str. lia. Qed.
Lemma len_zero s : len s = 0 <-> s = "".
Proof. unfold len. destruct s; simpl; split; intros; (done || lia). Qed.
Lemma len_pos s : 0 <= len s.
Proof. unfold len. lia. Qed.

Lemma concat_cons (s : string) l : String.concat "" (s :: l) = s +:+ String.concat "" l.
Proof. destruct l; simpl; [by rewrite app_nil_r_str|done]. Qed.

#[global] Arguments be : simpl never.
#[global] Arguments unbe : simpl never.
