(* ===== verification/Mux.v ===== *)
(** The messages of a connection shared between processes:
    core/ssh/mux_protocol.go, the framing and the encodings of OpenSSH's
    PROTOCOL.mux.  A reader is the bytes that are still to come. *)
From S2P Require Export Wire.
#[local] Open Scope Z_scope.

Definition MuxProtoVersion : Z := 4.
Definition MaxMuxPacketLength : Z := 256 * 1024.
Definition MaxMuxStringLength : Z := 64 * 1024.

Inductive mux_error :=
  | EUnexpectedEOF | EEOF | EShort (n : Z) | ETooLong (n : Z) | EStringTooLong (n : Z) | ETrailing (n : Z) | EPayload.

(** * Packets *)

(** [io.ReadFull]: exactly [n] bytes. *)
Definition ReadFull (n : Z) (r : string) : result mux_error (string * string) :=
  if len r <? n then Err (if str_eq r "" then EEOF else EUnexpectedEOF)
  else Ok (take_bytes (Z.to_nat n) r, drop_bytes (Z.to_nat n) r).

Definition ReadMuxPacket (r : string) : result mux_error (Z * string * string) :=
  try (header, r) := ReadFull 8 r;;
  let pktLen := unbe (take_bytes 4 header) in
  reject pktLen <? 4 with EShort pktLen;;
  reject MaxMuxPacketLength <? pktLen with ETooLong pktLen;;
  let packetType := unbe (drop_bytes 4 header) in
  let payloadLen := pktLen - 4 in
  if payloadLen =? 0 then Ok (packetType, EmptyString, r)
  else match ReadFull payloadLen r with
       | Err _ => Err EPayload
       | Ok (payload, r) => Ok (packetType, payload, r)
       end.

(** The bytes of its one [Write]. *)
Definition WriteMuxPacket (packetType : Z) (payload : string) : result mux_error string :=
  let totalLen := 4 + len payload in
  reject MaxMuxPacketLength <? totalLen with ETooLong totalLen;;
  Ok (be 4 totalLen +:+ be 4 packetType +:+ payload).

(** * Fields *)
Definition WriteUint32 (v : Z) : string := be 4 v.
Definition WriteBool (b : bool) : string := str1 (byte_of (if b then 1 else 0)).
Definition WriteString (s : string) : string := WriteUint32 (len s) +:+ s.

Definition ReadUint32 (r : string) : result mux_error (Z * string) :=
  if len r <? 4 then Err EUnexpectedEOF else Ok (unbe (take_bytes 4 r), drop_bytes 4 r).
Definition ReadBool (r : string) : result mux_error (bool * string) :=
  match r with EmptyString => Err EUnexpectedEOF | String c r => Ok (negb (code c =? 0), r) end.
(** [ReadString] and [ReadBytes] up to their limit. *)
Definition read_counted (limit : Z) (r : string) : result mux_error (string * string) :=
  try (n, r) := ReadUint32 r;;
  reject limit <? n with EStringTooLong n;;
  if len r <? n then Err EUnexpectedEOF else Ok (take_bytes (Z.to_nat n) r, drop_bytes (Z.to_nat n) r).
Definition ReadString : string -> result mux_error (string * string) := read_counted MaxMuxStringLength.
Definition ReadBytes : string -> result mux_error (string * string) := read_counted MaxMuxPacketLength.

(** [if r.Remaining() != 0] at the end of a message. *)
Definition no_trailing {A} (a : A) (r : string) : result mux_error A :=
  reject negb (len r =? 0) with ETrailing (len r);; Ok a.

Definition boolToUint32 (b : bool) : Z := if b then 1 else 0.

(** * Messages *)
Record MuxExtension := mkExtension { ext_Name : string; ext_Value : string }.
Record MuxFwdRequest := mkFwd {
  fwd_RequestID : Z;
  FwdType : Z;
  ListenHost : string;
  ListenPort : Z;
  ConnectHost : string;
  ConnectPort : Z
}.
Record MuxNewSessionRequest := mkNewSession {
  ses_RequestID : Z;
  ses_Reserved : string;
  WantTTY : bool;
  WantX11 : bool;
  WantAgent : bool;
  Subsystem : bool;
  EscapeChar : Z;
  TermType : string;
  Command : string;
  Env : list string
}.
Record MuxNewStdioFwdRequest := mkStdio {
  std_RequestID : Z;
  std_Reserved : string;
  std_ConnectHost : string;
  std_ConnectPort : Z
}.

Definition EncodeMuxHello (version : Z) (extensions : list MuxExtension) : string :=
  WriteUint32 version +:+
  String.concat "" (map (fun ext => WriteString (ext_Name ext) +:+ WriteString (ext_Value ext)) extensions).

(** [for r.Remaining() > 0]. *)
Fixpoint read_extensions (fuel : nat) (r : string) : result mux_error (list MuxExtension) :=
  if len r =? 0 then Ok []
  else match fuel with
       | O => Ok []
       | S f =>
           try (name, r) := ReadString r;;
           try (val, r) := ReadString r;;
           try exts := read_extensions f r;;
           Ok (mkExtension name val :: exts)
       end.
Definition DecodeMuxHello (payload : string) : result mux_error (Z * list MuxExtension) :=
  try (version, r) := ReadUint32 payload;;
  try extensions := read_extensions (String.length r) r;;
  Ok (version, extensions).

Definition EncodeMuxRequestID (requestID : Z) : string := WriteUint32 requestID.
Definition DecodeMuxRequestID (payload : string) : result mux_error Z :=
  try (requestID, r) := ReadUint32 payload;; no_trailing requestID r.

(** [EncodeMuxAlive], [EncodeMuxRemotePort], [EncodeMuxSessionOpened] and
    [EncodeMuxExitMessage]: two numbers. *)
Definition EncodeMuxPair (m : Z * Z) : string := WriteUint32 m.1 +:+ WriteUint32 m.2.
Definition DecodeMuxPair (payload : string) : result mux_error (Z * Z) :=
  try (a, r) := ReadUint32 payload;;
  try (b, r) := ReadUint32 r;;
  no_trailing (a, b) r.

(** [EncodeMuxError] and [EncodeMuxExtInfo]: a number and a text. *)
Definition EncodeMuxError (m : Z * string) : string := WriteUint32 m.1 +:+ WriteString m.2.
Definition DecodeMuxError (payload : string) : result mux_error (Z * string) :=
  try (clientRequestID, r) := ReadUint32 payload;;
  try (reason, r) := ReadString r;;
  no_trailing (clientRequestID, reason) r.

Definition EncodeMuxExtInfoResponse (m : Z * Z * string) : string :=
  WriteUint32 m.1.1 +:+ WriteUint32 m.1.2 +:+ WriteString m.2.
Definition DecodeMuxExtInfoResponse (payload : string) : result mux_error (Z * Z * string) :=
  try (clientRequestID, r) := ReadUint32 payload;;
  try (status, r) := ReadUint32 r;;
  try (msg, r) := ReadString r;;
  no_trailing (clientRequestID, status, msg) r.

Definition EncodeMuxFwdRequest (req : MuxFwdRequest) : string :=
  WriteUint32 (fwd_RequestID req) +:+ WriteUint32 (FwdType req) +:+ WriteString (ListenHost req) +:+
  WriteUint32 (ListenPort req) +:+ WriteString (ConnectHost req) +:+ WriteUint32 (ConnectPort req).
Definition DecodeMuxFwdRequest (payload : string) : result mux_error MuxFwdRequest :=
  try (id, r) := ReadUint32 payload;;
  try (ty, r) := ReadUint32 r;;
  try (lhost, r) := ReadString r;;
  try (lport, r) := ReadUint32 r;;
  try (chost, r) := ReadString r;;
  try (cport, r) := ReadUint32 r;;
  no_trailing (mkFwd id ty lhost lport chost cport) r.

Definition EncodeMuxNewSession (req : MuxNewSessionRequest) : string :=
  WriteUint32 (ses_RequestID req) +:+ WriteString (ses_Reserved req) +:+
  WriteUint32 (boolToUint32 (WantTTY req)) +:+ WriteUint32 (boolToUint32 (WantX11 req)) +:+
  WriteUint32 (boolToUint32 (WantAgent req)) +:+ WriteUint32 (boolToUint32 (Subsystem req)) +:+
  WriteUint32 (EscapeChar req) +:+ WriteString (TermType req) +:+ WriteString (Command req) +:+
  String.concat "" (map WriteString (Env req)).

Fixpoint read_strings (fuel : nat) (r : string) : result mux_error (list string) :=
  if len r =? 0 then Ok []
  else match fuel with
       | O => Ok []
       | S f =>
           try (item, r) := ReadString r;;
           try items := read_strings f r;;
           Ok (item :: items)
       end.
Definition DecodeMuxNewSession (payload : string) : result mux_error MuxNewSessionRequest :=
  try (id, r) := ReadUint32 payload;;
  try (reserved, r) := ReadString r;;
  try (wantTTY, r) := ReadUint32 r;;
  try (wantX11, r) := ReadUint32 r;;
  try (wantAgent, r) := ReadUint32 r;;
  try (subsystem, r) := ReadUint32 r;;
  try (escape, r) := ReadUint32 r;;
  try (term, r) := ReadString r;;
  try (command, r) := ReadString r;;
  try env := read_strings (String.length r) r;;
  Ok (mkNewSession id reserved (negb (wantTTY =? 0)) (negb (wantX11 =? 0)) (negb (wantAgent =? 0)) (negb (subsystem =? 0))
        escape term command env).

Definition EncodeMuxNewStdioFwd (req : MuxNewStdioFwdRequest) : string :=
  WriteUint32 (std_RequestID req) +:+ WriteString (std_Reserved req) +:+ WriteString (std_ConnectHost req) +:+
  WriteUint32 (std_ConnectPort req).
Definition DecodeMuxNewStdioFwd (payload : string) : result mux_error MuxNewStdioFwdRequest :=
  try (id, r) := ReadUint32 payload;;
  try (reserved, r) := ReadString r;;
  try (chost, r) := ReadString r;;
  try (cport, r) := ReadUint32 r;;
  no_trailing (mkStdio id reserved chost cport) r.

(** * Fields and their readers *)
Definition uint32 (v : Z) : Prop := 0 <= v < 2 ^ 32.
Definition short (s : string) : Prop := len s <= MaxMuxStringLength.

Lemma ReadUint32_spec b v r : ReadUint32 b = Ok (v, r) <-> uint32 v /\ b = WriteUint32 v +:+ r.
Proof.
  unfold ReadUint32, WriteUint32, uint32. split.
  - destruct (Z.ltb_spec (len b) 4) as [|H]; [done|]. intros E. apply Ok_inj in E. apply pair_eq in E as [<- <-].
    assert (Hl : String.length (take_bytes 4 b) = 4%nat) by (apply take_bytes_length; unfold len in H; lia).
    split; [pose proof (unbe_range (take_bytes 4 b)) as Hr; rewrite Hl in Hr; exact Hr|].
    rewrite be_unbe_n by done. symmetry. apply take_drop. unfold len in H. lia.
  - intros [Hv ->]. rewrite len_app. unfold len at 1. rewrite be_length. destruct (Z.ltb_spec (Z.of_nat 4 + len r) 4); [pose proof (len_pos r); lia|].
    pose proof (take_bytes_app (be 4 v) r) as Ht. pose proof (drop_bytes_app (be 4 v) r) as Hd. rewrite be_length in Ht, Hd.
    rewrite Ht, Hd. by rewrite unbe_be_small.
Qed.

Lemma read_counted_spec limit b s r : limit < 2 ^ 32 ->
  read_counted limit b = Ok (s, r) <-> len s <= limit /\ b = WriteString s +:+ r.
Proof.
  intros Hlim. unfold read_counted, WriteString. rewrite result_bind_ok. split.
  - intros ([n b'] & Hn & H). apply ReadUint32_spec in Hn as [Hu ->]. unfold uint32 in Hu. result_inv. bool_facts.
    destruct (Z.ltb_spec (len b') n) as [|Hb]; [done|]. result_inv. apply pair_eq in H as [<- <-].
    assert (Hl : len (take_bytes (Z.to_nat n) b') = n) by (unfold len in *; rewrite take_bytes_length; lia).
    split; [lia|]. rewrite Hl, <- app_assoc_str, take_drop; [done|unfold len in Hb; lia].
  - intros [Hs ->]. exists (len s, s +:+ r). split.
    + apply ReadUint32_spec. unfold uint32. pose proof (len_pos s). split; [lia|]. by rewrite app_assoc_str.
    + unfold reject_if. destruct (Z.ltb_spec limit (len s)); [lia|]. simpl. rewrite len_app.
      destruct (Z.ltb_spec (len s + len r) (len s)); [pose proof (len_pos r); lia|].
      unfold len. rewrite Nat2Z.id, take_bytes_app, drop_bytes_app. done.
Qed.

Lemma ReadString_spec b s r : ReadString b = Ok (s, r) <-> short s /\ b = WriteString s +:+ r.
Proof. by apply read_counted_spec. Qed.

Lemma no_trailing_spec {A} (a x : A) r : no_trailing a r = Ok x <-> x = a /\ r = "".
Proof.
  unfold no_trailing, reject_if. destruct (Z.eqb_spec (len r) 0) as [E|E]; simpl.
  - apply len_zero in E as ->. split; [intros H; apply Ok_inj in H; by subst|by intros [-> _]].
  - split; [done|]. intros [_ ->]. done.
Qed.

Lemma ReadUint32_write v r : uint32 v -> ReadUint32 (WriteUint32 v +:+ r) = Ok (v, r).
Proof. intros H. by apply ReadUint32_spec. Qed.
Lemma ReadString_write s r : short s -> ReadString (WriteString s +:+ r) = Ok (s, r).
Proof. intros H. by apply ReadString_spec. Qed.
Lemma uint32_bool b : uint32 (boolToUint32 b).
Proof. unfold uint32. destruct b; simpl; lia. Qed.

(** [read_field] runs the next reader of a message on its encoding, [unread] turns
    a reader that succeeded into the bytes it read. *)
Ltac read_field :=
  rewrite <- ?app_assoc_str;
  first [ rewrite ReadUint32_write by (assumption || apply uint32_bool) | rewrite ReadString_write by assumption ];
  cbn [result_bind].
Ltac read_fields := rewrite <- (app_nil_r_str (_ +:+ _)) at 1; repeat read_field.
Ltac unread :=
  repeat match goal with
  | H : result_bind _ _ = Ok _ |- _ => apply result_bind_ok in H as ([? ?] & ? & H)
  | H : ReadUint32 _ = Ok _ |- _ => apply ReadUint32_spec in H as [? ->]
  | H : ReadString _ = Ok _ |- _ => apply ReadString_spec in H as [? ->]
  | H : no_trailing _ _ = Ok _ |- _ => apply no_trailing_spec in H as [-> ->]
  end.

Ltac fields := cbn [fst snd fwd_RequestID FwdType ListenHost ListenPort ConnectHost ConnectPort ses_RequestID ses_Reserved WantTTY WantX11
  WantAgent Subsystem EscapeChar TermType Command Env std_RequestID std_Reserved std_ConnectHost std_ConnectPort ext_Name ext_Value] in *.

(** * Messages and their encodings *)

(** What a message promises to its transport: what it encodes within the widths
    of its fields is what the other side decodes. *)
Class Message (A : Type) := {
  encode : A -> string;
  decode : string -> result mux_error A;
  fits : A -> Prop;
  decode_encode a : fits a -> decode (encode a) = Ok a
}.
(** A message with one encoding only: every payload that is accepted is it. *)
Class Canonical (A : Type) `{Message A} := encode_decode : forall p a, decode p = Ok a -> fits a /\ encode a = p.

Lemma request_id_message v : uint32 v -> DecodeMuxRequestID (EncodeMuxRequestID v) = Ok v.
Proof.
  intros Hv. unfold DecodeMuxRequestID, EncodeMuxRequestID. rewrite <- (app_nil_r_str (WriteUint32 v)). read_field. by apply no_trailing_spec.
Qed.
#[export] Instance RequestIDMessage : Message Z := {| decode_encode := request_id_message |}.
#[export] Instance RequestIDCanonical : Canonical Z.
Proof. intros p a. unfold encode, decode, fits, RequestIDMessage, DecodeMuxRequestID, EncodeMuxRequestID. intros H. unread. by rewrite app_nil_r_str. Qed.

Definition pair_fits (m : Z * Z) : Prop := uint32 m.1 /\ uint32 m.2.
Lemma pair_message m : pair_fits m -> DecodeMuxPair (EncodeMuxPair m) = Ok m.
Proof. destruct m as [a b]. intros [H1 H2]. unfold DecodeMuxPair, EncodeMuxPair. fields. read_fields. by apply no_trailing_spec. Qed.
#[export] Instance PairMessage : Message (Z * Z) := {| decode_encode := pair_message |}.
#[export] Instance PairCanonical : Canonical (Z * Z).
Proof.
  intros p a. unfold encode, decode, fits, PairMessage, DecodeMuxPair, EncodeMuxPair, pair_fits. intros H. unread. fields. by rewrite app_nil_r_str.
Qed.

Definition error_fits (m : Z * string) : Prop := uint32 m.1 /\ short m.2.
Lemma error_message m : error_fits m -> DecodeMuxError (EncodeMuxError m) = Ok m.
Proof. destruct m as [a b]. intros [H1 H2]. unfold DecodeMuxError, EncodeMuxError. fields. read_fields. by apply no_trailing_spec. Qed.
#[export] Instance ErrorMessage : Message (Z * string) := {| decode_encode := error_message |}.
#[export] Instance ErrorCanonical : Canonical (Z * string).
Proof.
  intros p a. unfold encode, decode, fits, ErrorMessage, DecodeMuxError, EncodeMuxError, error_fits. intros H. unread. fields. by rewrite app_nil_r_str.
Qed.

Definition ext_info_fits (m : Z * Z * string) : Prop := uint32 m.1.1 /\ uint32 m.1.2 /\ short m.2.
Lemma ext_info_message m : ext_info_fits m -> DecodeMuxExtInfoResponse (EncodeMuxExtInfoResponse m) = Ok m.
Proof.
  destruct m as [[a b] c]. intros (H1 & H2 & H3). unfold DecodeMuxExtInfoResponse, EncodeMuxExtInfoResponse. fields. read_fields.
  by apply no_trailing_spec.
Qed.
#[export] Instance ExtInfoMessage : Message (Z * Z * string) := {| decode_encode := ext_info_message |}.
#[export] Instance ExtInfoCanonical : Canonical (Z * Z * string).
Proof.
  intros p a. unfold encode, decode, fits, ExtInfoMessage, DecodeMuxExtInfoResponse, EncodeMuxExtInfoResponse, ext_info_fits. intros H. unread. fields. by rewrite app_nil_r_str.
Qed.

Definition fwd_fits (q : MuxFwdRequest) : Prop :=
  uint32 (fwd_RequestID q) /\ uint32 (FwdType q) /\ short (ListenHost q) /\ uint32 (ListenPort q) /\ short (ConnectHost q) /\ uint32 (ConnectPort q).
Lemma fwd_message q : fwd_fits q -> DecodeMuxFwdRequest (EncodeMuxFwdRequest q) = Ok q.
Proof.
  destruct q. intros (H1 & H2 & H3 & H4 & H5 & H6). unfold DecodeMuxFwdRequest, EncodeMuxFwdRequest. fields. read_fields.
  by apply no_trailing_spec.
Qed.
#[export] Instance FwdMessage : Message MuxFwdRequest := {| decode_encode := fwd_message |}.
#[export] Instance FwdCanonical : Canonical MuxFwdRequest.
Proof.
  intros p a. unfold encode, decode, fits, FwdMessage, DecodeMuxFwdRequest, EncodeMuxFwdRequest, fwd_fits. intros H. unread. fields. by rewrite app_nil_r_str.
Qed.

Definition stdio_fits (q : MuxNewStdioFwdRequest) : Prop :=
  uint32 (std_RequestID q) /\ short (std_Reserved q) /\ short (std_ConnectHost q) /\ uint32 (std_ConnectPort q).
Lemma stdio_message q : stdio_fits q -> DecodeMuxNewStdioFwd (EncodeMuxNewStdioFwd q) = Ok q.
Proof.
  destruct q. intros (H1 & H2 & H3 & H4). unfold DecodeMuxNewStdioFwd, EncodeMuxNewStdioFwd. fields. read_fields.
  by apply no_trailing_spec.
Qed.
#[export] Instance StdioMessage : Message MuxNewStdioFwdRequest := {| decode_encode := stdio_message |}.
#[export] Instance StdioCanonical : Canonical MuxNewStdioFwdRequest.
Proof.
  intros p a. unfold encode, decode, fits, StdioMessage, DecodeMuxNewStdioFwd, EncodeMuxNewStdioFwd, stdio_fits. intros H. unread. fields. by rewrite app_nil_r_str.
Qed.

(** * Messages that end in a list *)
Lemma WriteString_length s : (4 <= String.length (WriteString s))%nat.
Proof. unfold WriteString, WriteUint32. rewrite length_app_str, be_length. lia. Qed.

(** A loop that reads until nothing remains is the inverse of the concatenation,
    if each round undoes the encoding of one item. *)
Section Items.
Context {X : Type} (enc : X -> string) (ok : X -> Prop) (read : string -> result mux_error (X * string)).
Context (loop : nat -> string -> result mux_error (list X)).
Hypothesis read_spec : forall b x r, read b = Ok (x, r) <-> ok x /\ b = enc x +:+ r.
Hypothesis enc_pos : forall x, (0 < String.length (enc x))%nat.
Hypothesis loop_nil : forall fuel, loop fuel "" = Ok [].
Hypothesis loop_cons : forall fuel b, b <> "" ->
  loop (S fuel) b = result_bind (fun p => result_bind (fun l => Ok (p.1 :: l)) (loop fuel p.2)) (read b).

Lemma loop_spec fuel : forall b l, (String.length b <= fuel)%nat ->
  loop fuel b = Ok l <-> Forall ok l /\ b = String.concat "" (map enc l).
Proof.
  assert (Hnil : forall l, "" = String.concat "" (map enc l) -> l = []).
  { intros [|x l]; [done|]. simpl map. rewrite concat_cons. intros E. apply (f_equal String.length) in E.
    rewrite length_app_str in E. pose proof (enc_pos x). simpl in E. lia. }
  induction fuel as [|fuel IH]; intros b l Hf.
  - destruct b; [|simpl in Hf; lia]. rewrite loop_nil. split; [intros E; apply Ok_inj in E as <-; by split|]. intros [_ E]. by rewrite (Hnil l E).
  - destruct (decide (b = "")) as [->|Hb].
    + rewrite loop_nil. split; [intros E; apply Ok_inj in E as <-; by split|]. intros [_ E]. by rewrite (Hnil l E).
    + rewrite loop_cons by done. rewrite result_bind_ok. setoid_rewrite result_bind_ok. split.
      * intros ([x r] & Hx & l' & Hl & E). simpl in *. apply Ok_inj in E as <-. apply read_spec in Hx as [Hok ->].
        rewrite length_app_str in Hf. pose proof (enc_pos x). apply IH in Hl as [Hall ->]; [|lia].
        simpl map. rewrite concat_cons. split; [by constructor|done].
      * intros [Hall E]. destruct l as [|x l]; [done|]. simpl map in E. rewrite concat_cons in E. apply Forall_cons in Hall as [Hx Hall].
        exists (x, String.concat "" (map enc l)). split; [by apply read_spec|]. exists l. simpl. split; [|done].
        apply IH; [|done]. rewrite E, length_app_str in Hf. pose proof (enc_pos x). lia.
Qed.
End Items.

Lemma read_strings_spec fuel b l : (String.length b <= fuel)%nat ->
  read_strings fuel b = Ok l <-> Forall short l /\ b = String.concat "" (map WriteString l).
Proof.
  apply (loop_spec WriteString short ReadString read_strings).
  - apply ReadString_spec.
  - intros x. pose proof (WriteString_length x). lia.
  - by intros [|f].
  - intros f r Hr. cbn [read_strings]. destruct (Z.eqb_spec (len r) 0) as [E|_]; [by apply len_zero in E|].
    by destruct (ReadString r) as [[x b']|].
Qed.

Definition ext_encode (e : MuxExtension) : string := WriteString (ext_Name e) +:+ WriteString (ext_Value e).
Definition ext_read (b : string) : result mux_error (MuxExtension * string) :=
  try (name, r) := ReadString b;; try (val, r) := ReadString r;; Ok (mkExtension name val, r).
Definition ext_ok (e : MuxExtension) : Prop := short (ext_Name e) /\ short (ext_Value e).

Lemma read_extensions_spec fuel b l : (String.length b <= fuel)%nat ->
  read_extensions fuel b = Ok l <-> Forall ext_ok l /\ b = String.concat "" (map ext_encode l).
Proof.
  apply (loop_spec ext_encode ext_ok ext_read read_extensions).
  - unfold ext_read, ext_encode, ext_ok. intros r [name val] b'. split.
    + intros H. unread. apply Ok_inj in H. apply pair_eq in H as [H <-]. injection H as <- <-. fields. by rewrite app_assoc_str.
    + fields. intros [[H1 H2] ->]. by repeat read_field.
  - intros x. unfold ext_encode. rewrite length_app_str. pose proof (WriteString_length (ext_Name x)). lia.
  - by intros [|f].
  - intros f r Hr. cbn [read_extensions]. destruct (Z.eqb_spec (len r) 0) as [E|_]; [by apply len_zero in E|]. unfold ext_read.
    destruct (ReadString r) as [[x b']|]; [|done]. cbn [result_bind]. by destruct (ReadString b') as [[y c]|].
Qed.

Definition hello_fits (m : Z * list MuxExtension) : Prop := uint32 m.1 /\ Forall ext_ok m.2.
Lemma hello_message m : hello_fits m -> DecodeMuxHello (EncodeMuxHello m.1 m.2) = Ok m.
Proof.
  destruct m as [v l]. intros [Hv Hl]. unfold DecodeMuxHello, EncodeMuxHello. fields. read_field.
  by rewrite (proj2 (read_extensions_spec _ _ l (le_n _))).
Qed.
#[export] Instance HelloMessage : Message (Z * list MuxExtension) := {| decode_encode := hello_message |}.
#[export] Instance HelloCanonical : Canonical (Z * list MuxExtension).
Proof.
  intros p a. unfold encode, decode, fits, HelloMessage, DecodeMuxHello, EncodeMuxHello, hello_fits. intros H.
  apply result_bind_ok in H as ([v r] & Hv & H). apply ReadUint32_spec in Hv as [Hv ->]. apply result_bind_ok in H as (l & Hl & H).
  apply read_extensions_spec in Hl as [Hall ->]; [|done]. apply Ok_inj in H as <-. done.
Qed.

Definition session_fits (q : MuxNewSessionRequest) : Prop :=
  uint32 (ses_RequestID q) /\ short (ses_Reserved q) /\ uint32 (EscapeChar q) /\ short (TermType q) /\ short (Command q) /\ Forall short (Env q).
Lemma flag_read (b : bool) : negb (boolToUint32 b =? 0) = b.
Proof. by destruct b. Qed.
Lemma session_message q : session_fits q -> DecodeMuxNewSession (EncodeMuxNewSession q) = Ok q.
Proof.
  destruct q as [id reserved t x a s e term cmd env]. intros (H1 & H2 & H3 & H4 & H5 & H6). unfold DecodeMuxNewSession, EncodeMuxNewSession.
  fields. repeat read_field. rewrite (proj2 (read_strings_spec _ _ env (le_n _))) by done. cbn [result_bind]. by rewrite !flag_read.
Qed.
#[export] Instance SessionMessage : Message MuxNewSessionRequest := {| decode_encode := session_message |}.

(** * Frames *)
Definition frame (ty : Z) (payload : string) : string := be 4 (4 + len payload) +:+ be 4 ty +:+ payload.

Lemma ReadFull_spec n r a b : 0 <= n -> ReadFull n r = Ok (a, b) <-> len a = n /\ r = a +:+ b.
Proof.
  intros Hn. unfold ReadFull. split.
  - destruct (Z.ltb_spec (len r) n) as [|Hr]; [done|]. intros E. apply Ok_inj in E. apply pair_eq in E as [<- <-]. unfold len in *.
    rewrite take_bytes_length by lia. rewrite take_drop by lia. split; [lia|done].
  - intros [<- ->]. rewrite len_app. destruct (Z.ltb_spec (len a + len b) (len a)); [pose proof (len_pos b); lia|].
    unfold len. by rewrite Nat2Z.id, take_bytes_app, drop_bytes_app.
Qed.

Lemma header_parts h : len h = 8 -> h = take_bytes 4 h +:+ drop_bytes 4 h /\ String.length (take_bytes 4 h) = 4%nat /\
  String.length (drop_bytes 4 h) = 4%nat.
Proof.
  intros H. unfold len in H. assert (E : h = take_bytes 4 h +:+ drop_bytes 4 h) by (rewrite take_drop; [done|lia]).
  assert (L : String.length (take_bytes 4 h) = 4%nat) by (apply take_bytes_length; lia). split_and!; try done.
  apply (f_equal String.length) in E. rewrite length_app_str in E. lia.
Qed.

Lemma WriteMuxPacket_spec ty payload f : WriteMuxPacket ty payload = Ok f <-> 4 + len payload <= MaxMuxPacketLength /\ f = frame ty payload.
Proof.
  unfold WriteMuxPacket. rewrite bind_reject_ok, Z.ltb_ge. split; intros [H E]; (split; [done|]).
  - by apply Ok_inj in E.
  - by subst.
Qed.

Lemma ReadMuxPacket_spec r ty payload r' :
  ReadMuxPacket r = Ok (ty, payload, r') <->
  uint32 ty /\ 4 + len payload <= MaxMuxPacketLength /\ r = frame ty payload +:+ r'.
Proof.
  unfold ReadMuxPacket, frame, uint32. rewrite result_bind_ok. split.
  - intros ([h b] & Hh & H). apply ReadFull_spec in Hh as [Hl ->]; [|done]. destruct (header_parts h Hl) as (Eh & L1 & L2).
    result_inv. bool_facts. set (n := unbe (take_bytes 4 h)) in *.
    assert (Hn : be 4 n = take_bytes 4 h) by (by apply be_unbe_n).
    assert (Ht : be 4 (unbe (drop_bytes 4 h)) = drop_bytes 4 h) by (by apply be_unbe_n).
    pose proof (unbe_range (drop_bytes 4 h)) as Hr. rewrite L2 in Hr.
    assert (Hp : unbe (drop_bytes 4 h) = ty /\ len payload = n - 4 /\ b = payload +:+ r').
    { destruct (Z.eqb_spec (n - 4) 0) as [E|E].
      - result_inv. apply pair_eq in H as [H <-]. apply pair_eq in H as [<- <-]. split_and!; [done|done|done].
      - destruct (ReadFull (n - 4) b) as [[p c]|] eqn:Ef; [|done]. apply ReadFull_spec in Ef as [El ->]; [|lia].
        result_inv. apply pair_eq in H as [H <-]. apply pair_eq in H as [<- <-]. done. }
    destruct Hp as (<- & Hlen & ->). split_and!; [by apply Hr|by apply Hr|lia|].
    replace (4 + len payload) with n by lia. rewrite Hn, Ht. rewrite Eh at 1. by rewrite !app_assoc_str.
  - intros (Hty & Hlen & ->). exists (be 4 (4 + len payload) +:+ be 4 ty, payload +:+ r'). pose proof (len_pos payload) as Hpos.
    split.
    + apply ReadFull_spec; [done|]. split; [unfold len; by rewrite length_app_str, !be_length|by rewrite !app_assoc_str].
    + assert (Et : take_bytes 4 (be 4 (4 + len payload) +:+ be 4 ty) = be 4 (4 + len payload)).
      { rewrite <- (be_length 4 (4 + len payload)) at 1. apply take_bytes_app. }
      assert (Ed : drop_bytes 4 (be 4 (4 + len payload) +:+ be 4 ty) = be 4 ty).
      { rewrite <- (be_length 4 (4 + len payload)) at 1. apply drop_bytes_app. }
      rewrite Et, Ed. unfold MaxMuxPacketLength in *. rewrite !unbe_be_small by (simpl; lia). unfold reject_if.
      rewrite (proj2 (Z.ltb_ge _ _)) by lia. cbn [result_bind]. rewrite (proj2 (Z.ltb_ge _ _)) by lia. cbn [result_bind].
      destruct (Z.eqb_spec (4 + len payload - 4) 0) as [E|E].
      * assert (payload = "") as -> by (apply len_zero; lia). done.
      * rewrite (proj2 (ReadFull_spec (4 + len payload - 4) (payload +:+ r') payload r' ltac:(lia))) by (split; [lia|done]). done.
Qed.

(** A stream of packets. *)
Definition WriteMuxPackets (ps : list (Z * string)) : result mux_error string :=
  foldr (fun p acc => try out := WriteMuxPacket p.1 p.2;; try rest := acc;; Ok (out +:+ rest)) (Ok EmptyString) ps.
Fixpoint ReadMuxPackets (n : nat) (r : string) : result mux_error (list (Z * string) * string) :=
  match n with
  | O => Ok ([], r)
  | S n =>
      try (ty, payload, r) := ReadMuxPacket r;;
      try (ps, r) := ReadMuxPackets n r;;
      Ok ((ty, payload) :: ps, r)
  end.

(** C37: the framing is exact.  The packets that one side writes, one after the
    other, are the packets that the other side reads, with what follows them left
    in the stream; and what is read as a packet is the frame that writing it gives,
    never longer than 256 KiB, so a stream that ends inside a frame, a length below
    four or a length above the limit is an error and never a shorter packet. *)
Theorem mux_frames_exact :
  (forall ps bytes rest, Forall (fun p => uint32 p.1) ps -> WriteMuxPackets ps = Ok bytes ->
     ReadMuxPackets (length ps) (bytes +:+ rest) = Ok (ps, rest)) /\
  (forall stream ty payload rest, ReadMuxPacket stream = Ok (ty, payload, rest) <->
     uint32 ty /\ exists bytes, WriteMuxPacket ty payload = Ok bytes /\ stream = bytes +:+ rest) /\
  (forall ty payload bytes n, WriteMuxPacket ty payload = Ok bytes -> (n < String.length bytes)%nat ->
     exists e, ReadMuxPacket (take_bytes n bytes) = Err e).
Proof.
  split_and!.
  - intros ps. induction ps as [|[ty p] ps IH]; intros bytes rest Hty H.
    + simpl in H. apply Ok_inj in H as <-. done.
    + apply Forall_cons in Hty as [Hty Hall]. cbn [WriteMuxPackets foldr] in H. apply result_bind_ok in H as (f & Hf & H).
      apply result_bind_ok in H as (out & Hout & H). apply Ok_inj in H as <-. apply WriteMuxPacket_spec in Hf as [Hl ->]. fields.
      cbn [ReadMuxPackets length]. rewrite <- app_assoc_str.
      rewrite (proj2 (ReadMuxPacket_spec _ ty p (out +:+ rest))) by done. cbn [result_bind]. by rewrite (IH out rest Hall Hout).
  - intros stream ty payload rest. rewrite ReadMuxPacket_spec. setoid_rewrite WriteMuxPacket_spec. naive_solver.
  - intros ty payload bytes n Hw Hn. apply WriteMuxPacket_spec in Hw as [Hl ->].
    destruct (ReadMuxPacket (take_bytes n (frame ty payload))) as [[[ty' p'] r']|e] eqn:E; [|by exists e]. exfalso.
    apply ReadMuxPacket_spec in E as (Hty & Hl' & E). pose proof (take_drop n (frame ty payload) ltac:(lia)) as Hs. rewrite E in Hs.
    unfold frame in Hs. rewrite <- !app_assoc_str in Hs. apply app_inj_length in Hs as [H1 Hs]; [|by rewrite !be_length].
    apply app_inj_length in Hs as [H2 Hs]; [|by rewrite !be_length].
    assert (Hp : len p' = len payload).
    { apply (f_equal unbe) in H1. unfold MaxMuxPacketLength in *. pose proof (len_pos p'). pose proof (len_pos payload).
      rewrite !unbe_be_small in H1 by (simpl; lia). lia. }
    pose proof (take_bytes_length n (frame ty payload) ltac:(lia)) as Hlen. rewrite E in Hlen. unfold frame in *.
    repeat rewrite length_app_str in Hlen. repeat rewrite length_app_str in Hn. rewrite !be_length in Hlen, Hn. unfold len in Hp. lia.
Qed.

(** every message is decoded as it was encoded, with numbers of 32 bits and
    texts of at most 64 KiB; and, for all of them but the session request, whose
    flags may be any non-zero number, a payload that is accepted is the one
    encoding of its message, so that no bytes trail it and none are ignored. *)
Theorem mux_messages_roundtrip :
  (forall q, session_fits q -> DecodeMuxNewSession (EncodeMuxNewSession q) = Ok q) /\
  (forall p q, DecodeMuxFwdRequest p = Ok q <-> fwd_fits q /\ p = EncodeMuxFwdRequest q) /\
  (forall p q, DecodeMuxNewStdioFwd p = Ok q <-> stdio_fits q /\ p = EncodeMuxNewStdioFwd q) /\
  (forall p v exts, DecodeMuxHello p = Ok (v, exts) <-> hello_fits (v, exts) /\ p = EncodeMuxHello v exts) /\
  (forall p m, DecodeMuxExtInfoResponse p = Ok m <-> ext_info_fits m /\ p = EncodeMuxExtInfoResponse m) /\
  (forall p m, DecodeMuxError p = Ok m <-> error_fits m /\ p = EncodeMuxError m) /\
  (forall p m, DecodeMuxPair p = Ok m <-> pair_fits m /\ p = EncodeMuxPair m) /\
  (forall p v, DecodeMuxRequestID p = Ok v <-> uint32 v /\ p = EncodeMuxRequestID v).
Proof.
  assert (Hiff : forall A `(Canonical A) p (a : A), decode p = Ok a <-> fits a /\ p = encode a).
  { intros A M C p a. split; [intros Hd; destruct (encode_decode p a Hd) as [? <-]; done|]. intros [Hf ->]. by apply decode_encode. }
  split_and!.
  - apply session_message.
  - exact (Hiff _ _ FwdCanonical).
  - exact (Hiff _ _ StdioCanonical).
  - intros p v exts. exact (Hiff _ _ HelloCanonical p (v, exts)).
  - exact (Hiff _ _ ExtInfoCanonical).
  - exact (Hiff _ _ ErrorCanonical).
  - exact (Hiff _ _ PairCanonical).
  - exact (Hiff _ _ RequestIDCanonical).
Qed.

Example frame_bytes : WriteMuxPacket 1 (EncodeMuxHello 4 []) =
  Ok (be 4 8 +:+ be 4 1 +:+ be 4 4).
Proof. vm_compute. reflexivity. Qed.
Example frame_short : ReadMuxPacket (be 4 3 +:+ be 4 1) = Err (EShort 3).
Proof. vm_compute. reflexivity. Qed.
Example session_flags : option_map WantTTY (match DecodeMuxNewSession (EncodeMuxNewSession (mkNewSession 1 "" true false false false 0 "xterm" "ls" ["A=1"])) with
  Ok q => Some q | Err _ => None end) = Some true.
Proof. vm_compute. reflexivity. Qed.

Lemma mux_frames_exact_witness :
  exists bytes, WriteMuxPackets [(1, "ab"); (2, "")] = Ok bytes /\ ReadMuxPackets 2 (bytes +:+ "rest") = Ok ([(1, "ab"); (2, "")], "rest").
Proof.
  eexists. split; [vm_compute; reflexivity|].
  apply (proj1 mux_frames_exact [(1, "ab"); (2, "")]); [|vm_compute; reflexivity]. repeat constructor; simpl; lia.
Defined.

Definition sample_session_request : MuxNewSessionRequest := mkNewSession 1 "" true false false false 0 "xterm" "ls" ["A=1"].
Lemma mux_messages_roundtrip_witness :
  DecodeMuxNewSession (EncodeMuxNewSession sample_session_request) = Ok sample_session_request.
Proof. apply (proj1 mux_messages_roundtrip). split_and!; try done. apply Forall_cons. split; [done|constructor]. Defined.
