(* ===== verification/MuxServer.v ===== *)
(** The multiplexing master: core/ssh/mux_server.go, its life from the first client to the end.

    A master counts the sessions and forwarded streams it carries, keeps the
    listeners of its forwards and the connections it pipes, and ends when it is told
    to, when its last user leaves, when it is stopped and idle, or after an idle time.
    Regions under [idleMu] are one step; between them every goroutine is a program
    counter, and goroutines, timers, clients and the owner interleave freely.  Reads and
    writes of the network may fail at any time.  Counters and generations are unbounded.
    The unlinking of the socket file and the table of masters by path are left out. *)
From S2P Require Export Mux.
From S2P Require Import GoNumbers.
#[local] Open Scope Z_scope.

(** * Requests *)
Definition MUX_MSG_HELLO : Z := 0x00000001.
Definition MUX_C_NEW_SESSION : Z := 0x10000002.
Definition MUX_C_ALIVE_CHECK : Z := 0x10000004.
Definition MUX_C_TERMINATE : Z := 0x10000005.
Definition MUX_C_OPEN_FWD : Z := 0x10000006.
Definition MUX_C_CLOSE_FWD : Z := 0x10000007.
Definition MUX_C_NEW_STDIO_FWD : Z := 0x10000008.
Definition MUX_C_STOP_LISTENING : Z := 0x10000009.
Definition MUX_C_PROXY : Z := 0x1000000f.
Definition MUX_C_EXT_INFO : Z := 0x20000001.
Definition MUX_FWD_LOCAL : Z := 1.
Definition MUX_FWD_REMOTE : Z := 2.
Definition MUX_FWD_DYNAMIC : Z := 3.

(** What a packet asks for; a packet that is refused names its request and the reason. *)
Inductive Request :=
  | AliveCheck (id : Z) | Terminate (id : Z) | StopListening (id : Z) | Proxy (id : Z)
  | OpenFwd (req : MuxFwdRequest) | CloseFwd (req : MuxFwdRequest)
  | NewSession (req : MuxNewSessionRequest) | NewStdioFwd (req : MuxNewStdioFwdRequest)
  | ExtInfo (id : Z) (name : string) | Refused (id : Z) (reason : string).

Definition peekMuxRequestID (reqPayload : string) : Z :=
  if 4 <=? len reqPayload then unbe (take_bytes 4 reqPayload) else 0.

Definition decoded {A} (r : result mux_error A) (reqPayload what : string) (k : A -> Request) : Request :=
  match r with Ok a => k a | Err _ => Refused (peekMuxRequestID reqPayload) ("malformed " +:+ what +:+ " request") end.
(** The reading of a request in [dispatchRequest]; [unsupported] is its reason for an unknown type. *)
Definition read_request (unsupported : string) (msgType : Z) (reqPayload : string) : Request :=
  if msgType =? MUX_C_ALIVE_CHECK then decoded (DecodeMuxRequestID reqPayload) reqPayload "alive check" AliveCheck
  else if msgType =? MUX_C_TERMINATE then decoded (DecodeMuxRequestID reqPayload) reqPayload "terminate" Terminate
  else if msgType =? MUX_C_STOP_LISTENING then decoded (DecodeMuxRequestID reqPayload) reqPayload "stop listening" StopListening
  else if msgType =? MUX_C_PROXY then decoded (DecodeMuxRequestID reqPayload) reqPayload "proxy" Proxy
  else if msgType =? MUX_C_OPEN_FWD then decoded (DecodeMuxFwdRequest reqPayload) reqPayload "open forward" OpenFwd
  else if msgType =? MUX_C_CLOSE_FWD then decoded (DecodeMuxFwdRequest reqPayload) reqPayload "close forward" CloseFwd
  else if msgType =? MUX_C_NEW_SESSION then decoded (DecodeMuxNewSession reqPayload) reqPayload "new session" NewSession
  else if msgType =? MUX_C_NEW_STDIO_FWD then decoded (DecodeMuxNewStdioFwd reqPayload) reqPayload "new stdio fwd" NewStdioFwd
  else if msgType =? MUX_C_EXT_INFO then decoded (DecodeMuxError reqPayload) reqPayload "ext info" (fun p => ExtInfo p.1 p.2)
  else Refused (peekMuxRequestID reqPayload) unsupported.

(** The first packet of a client: whether it is accepted, or why not. *)
Inductive hello_error := NotHello (pktType : Z) | UnsupportedVersion (version : Z).
Definition handshakeHello (targetID : string) (pktType : Z) (payload : string) : result hello_error (list MuxExtension) :=
  reject negb (pktType =? MUX_MSG_HELLO) with NotHello pktType ;;
  match DecodeMuxHello payload with
  | Err _ => Err (UnsupportedVersion 0)
  | Ok (clientVer, _) =>
      reject negb (clientVer =? MuxProtoVersion) with UnsupportedVersion clientVer ;;
      Ok (mkExtension "info" "1" :: (if str_eq targetID "" then [] else [mkExtension "target@xops" targetID]))
  end.

(** The packet that asks for a request, and the requests that can be asked for. *)
Definition request_packet (r : Request) : Z * string :=
  match r with
  | AliveCheck id => (MUX_C_ALIVE_CHECK, EncodeMuxRequestID id)
  | Terminate id => (MUX_C_TERMINATE, EncodeMuxRequestID id)
  | StopListening id => (MUX_C_STOP_LISTENING, EncodeMuxRequestID id)
  | Proxy id => (MUX_C_PROXY, EncodeMuxRequestID id)
  | OpenFwd q => (MUX_C_OPEN_FWD, EncodeMuxFwdRequest q)
  | CloseFwd q => (MUX_C_CLOSE_FWD, EncodeMuxFwdRequest q)
  | NewSession q => (MUX_C_NEW_SESSION, EncodeMuxNewSession q)
  | NewStdioFwd q => (MUX_C_NEW_STDIO_FWD, EncodeMuxNewStdioFwd q)
  | ExtInfo id name => (MUX_C_EXT_INFO, EncodeMuxError (id, name))
  | Refused _ _ => (0, "")
  end.
Definition request_fits (r : Request) : Prop :=
  match r with
  | AliveCheck id | Terminate id | StopListening id | Proxy id => uint32 id
  | OpenFwd q | CloseFwd q => fwd_fits q
  | NewSession q => session_fits q
  | NewStdioFwd q => stdio_fits q
  | ExtInfo id name => uint32 id /\ short name
  | Refused _ _ => False
  end.

Lemma peek_write id rest : uint32 id -> peekMuxRequestID (WriteUint32 id +:+ rest) = id.
Proof.
  intros H. pose proof (ReadUint32_write id rest H) as E. unfold ReadUint32 in E. unfold peekMuxRequestID. rewrite Z.leb_antisym.
  destruct (len _ <? 4); [done|]. apply Ok_inj, (f_equal fst) in E. exact E.
Qed.
(** Comparisons of numbers that are written out. *)
Ltac compare_numbers :=
  repeat match goal with
         | |- context [?a =? ?b] => first [change (a =? b) with true|change (a =? b) with false]; cbv iota
         end.

(** The master reads from a packet the request it was made for, whichever it is; an unknown
    type is refused under the identifier its payload starts with. *)
Theorem requests_read_back unsupported :
  (forall r, request_fits r -> read_request unsupported (request_packet r).1 (request_packet r).2 = r) /\
  (forall id rest ty, uint32 id -> ty ∉ [MUX_C_ALIVE_CHECK; MUX_C_TERMINATE; MUX_C_STOP_LISTENING; MUX_C_PROXY; MUX_C_OPEN_FWD; MUX_C_CLOSE_FWD;
      MUX_C_NEW_SESSION; MUX_C_NEW_STDIO_FWD; MUX_C_EXT_INFO] -> read_request unsupported ty (WriteUint32 id +:+ rest) = Refused id unsupported).
Proof.
  split.
  - intros [id|id|id|id|q|q|q|q|id name|id reason]; simpl; try done; intros H; unfold read_request, decoded; compare_numbers;
      [by rewrite request_id_message..|by rewrite fwd_message|by rewrite fwd_message|by rewrite session_message|by rewrite stdio_message|].
    by rewrite error_message.
  - intros id rest ty Hid Ht. rewrite !not_elem_of_cons in Ht. destruct_and! Ht. unfold read_request. rewrite !(proj2 (Z.eqb_neq _ _)) by done. by rewrite peek_write.
Qed.

(** ** Forwards *)
Definition normalizeForwardListenHost (listenHost : string) : string :=
  let trimmed := trim_space listenHost in
  if str_eq trimmed "" then "127.0.0.1" else if str_eq trimmed "*" then "0.0.0.0" else listenHost.
Definition forwardKey (fwdType : Z) (listenHost : string) (listenPort : Z) (connectHost : string) (connectPort : Z) : string :=
  itoa fwdType +:+ ":" +:+ normalizeForwardListenHost listenHost +:+ ":" +:+ itoa listenPort +:+ ":" +:+ connectHost +:+ ":" +:+ itoa connectPort.
(** The request as [handleOpenFwd] and [handleCloseFwd] use it, its key, and the key with the port the server allocated. *)
Definition listening_at (q : MuxFwdRequest) (port : Z) : string :=
  forwardKey (FwdType q) (normalizeForwardListenHost (ListenHost q)) port (ConnectHost q) (ConnectPort q).
Definition key_of (q : MuxFwdRequest) : string := listening_at q (ListenPort q).
(** A remote forward whose port the server chooses. *)
Definition allocates (q : MuxFwdRequest) : bool := (FwdType q =? MUX_FWD_REMOTE) && (ListenPort q =? 0).
Definition published_key (q : MuxFwdRequest) (allocated : Z) : string :=
  if allocates q && (0 <? allocated) then listening_at q allocated else key_of q.
(** The keys [handleCloseFwd] takes for a forward whose port was allocated. *)
Definition closes_key (q : MuxFwdRequest) (k : string) : bool :=
  has_prefix k (itoa (FwdType q) +:+ ":" +:+ normalizeForwardListenHost (ListenHost q) +:+ ":") &&
  has_suffix k (":" +:+ ConnectHost q +:+ ":" +:+ itoa (ConnectPort q)).
Definition supported (q : MuxFwdRequest) : bool := bool_of (FwdType q ∈ [MUX_FWD_LOCAL; MUX_FWD_REMOTE; MUX_FWD_DYNAMIC]).

(** Keys tell forwards apart as long as no host has a colon in it; IPv6 addresses do. *)
Definition no_colon (s : string) : Prop := exists_byte (Ascii.eqb ":") s = false.

Lemma normalize_idem h : normalizeForwardListenHost (normalizeForwardListenHost h) = normalizeForwardListenHost h.
Proof.
  unfold normalizeForwardListenHost at 2 3. destruct (str_eq (trim_space h) "") eqn:E1; [done|]. destruct (str_eq (trim_space h) "*") eqn:E2; [done|].
  unfold normalizeForwardListenHost. by rewrite E1, E2.
Qed.
Lemma digits_no_colon n : 0 <= n -> no_colon (itoa n).
Proof.
  intros Hn. destruct (itoa_nat n Hn) as (_ & Hd & _). unfold no_colon. revert Hd. generalize (itoa n) as s. intros s.
  induction s as [|c s IH]; [done|]. rewrite all_bytes_cons. intros [Hc Hs]%andb_true_iff. cbn [exists_byte]. rewrite (IH Hs), orb_false_r.
  destruct (Ascii.eqb_spec ":" c) as [<-|]; [|done]. by vm_compute in Hc.
Qed.
Lemma itoa_inj a b : 0 <= a -> 0 <= b -> itoa a = itoa b -> a = b.
Proof. intros Ha Hb E. destruct (itoa_nat a Ha) as (_ & _ & <-), (itoa_nat b Hb) as (_ & _ & <-). by rewrite E. Qed.

Lemma forwardKey_split ty lh lp ch cp : 0 <= ty -> 0 <= lp -> 0 <= cp -> no_colon (normalizeForwardListenHost lh) -> no_colon ch ->
  split_on ":" (forwardKey ty lh lp ch cp) = [itoa ty; normalizeForwardListenHost lh; itoa lp; ch; itoa cp].
Proof.
  intros H1 H2 H3 Hl Hc. unfold forwardKey.
  change (itoa ty +:+ ":" +:+ normalizeForwardListenHost lh +:+ ":" +:+ itoa lp +:+ ":" +:+ ch +:+ ":" +:+ itoa cp)
    with (itoa ty +:+ String ":" (normalizeForwardListenHost lh +:+ String ":" (itoa lp +:+ String ":" (ch +:+ String ":" (itoa cp))))).
  rewrite !split_on_app. unfold split_on. rewrite !split_by_none by first [exact Hl|exact Hc|by apply digits_no_colon]. done.
Qed.

(** Two requests for forwards of hosts without a colon have the same key only if they ask for the same
    forward; with IPv6 addresses different forwards share a key, so that the second one is
    taken for the first and answered without being opened. *)
Theorem forward_keys_tell_apart :
  (forall q q', 0 <= FwdType q -> 0 <= FwdType q' -> 0 <= ListenPort q -> 0 <= ListenPort q' -> 0 <= ConnectPort q -> 0 <= ConnectPort q' ->
     no_colon (normalizeForwardListenHost (ListenHost q)) -> no_colon (normalizeForwardListenHost (ListenHost q')) ->
     no_colon (ConnectHost q) -> no_colon (ConnectHost q') -> key_of q = key_of q' ->
     FwdType q = FwdType q' /\ normalizeForwardListenHost (ListenHost q) = normalizeForwardListenHost (ListenHost q') /\
     ListenPort q = ListenPort q' /\ ConnectHost q = ConnectHost q' /\ ConnectPort q = ConnectPort q') /\
  key_of (mkFwd 1 MUX_FWD_LOCAL "fe80::1" 80 "90:a::1" 22) = key_of (mkFwd 2 MUX_FWD_LOCAL "fe80::1:80" 90 "a::1" 22).
Proof.
  split; [|reflexivity]. intros q q' T1 T2 L1 L2 P1 P2 Hl Hl' Hc Hc' E. unfold key_of, listening_at in E.
  apply (f_equal (split_on ":")) in E. rewrite !forwardKey_split in E by (rewrite ?normalize_idem; done). rewrite !normalize_idem in E.
  injection E as E1 E2 E3 E4 E5. split_and!; try done; by apply itoa_inj.
Qed.

(** * State *)

(** What a master is told at its start; a duration is in nanoseconds. *)
Record MuxServerOptions := mkOptions { persistEnabled : bool; persistDuration : Z; persistIndefinite : bool }.
Definition timed (o : MuxServerOptions) : bool := persistEnabled o && negb (persistIndefinite o) && (0 <? persistDuration o).

(** The fields under [idleMu].  A timer has its generation and may have fired; the channel
    of notifications is how often it was closed and replaced. *)
Record Idle := mkIdle {
  activeSessions : Z; activeForwardStreams : Z; idleGen : Z; idleTimer : option (Z * bool);
  shuttingDown : bool; idleNotify : nat
}.
(** The atomic flags. *)
Record Flags := mkFlags {
  closed : bool; stoppedListening : bool; releaseForegroundOnStop : bool; foregroundReleasedOnStop : bool
}.
(** How far [Shutdown] is; the ranges over the maps have entries left to visit. *)
Inductive phase :=
  | NotShut | Begun | Marked | Committed | Unlistened
  | ClosingForwards (todo : gset string) | ClosingStreams (todo : gset nat) | ShutDone.

(** A master and what it holds.  Listeners and connections have numbers; [w_open] are those
    that are not closed.  [w_forced]: something other than idleness ended the master;
    [w_abandoned]: a stop
    could not be answered, or a handoff was taken back. *)
Record World := mkWorld {
  w_idle : Idle; w_flags : Flags; w_forwards : gmap string nat; w_live : gset nat;
  w_phase : phase; w_listening : bool; w_open : gset nat; w_issued : gset nat;
  w_forced : bool; w_abandoned : bool
}.

Definition set_idle (i : Idle) (w : World) : World :=
  mkWorld i (w_flags w) (w_forwards w) (w_live w) (w_phase w) (w_listening w) (w_open w) (w_issued w) (w_forced w) (w_abandoned w).
Definition set_flags (f : Flags) (w : World) : World :=
  mkWorld (w_idle w) f (w_forwards w) (w_live w) (w_phase w) (w_listening w) (w_open w) (w_issued w) (w_forced w) (w_abandoned w).
Definition set_forwards (f : gmap string nat) (w : World) : World :=
  mkWorld (w_idle w) (w_flags w) f (w_live w) (w_phase w) (w_listening w) (w_open w) (w_issued w) (w_forced w) (w_abandoned w).
Definition set_live (l : gset nat) (w : World) : World :=
  mkWorld (w_idle w) (w_flags w) (w_forwards w) l (w_phase w) (w_listening w) (w_open w) (w_issued w) (w_forced w) (w_abandoned w).
Definition set_phase (p : phase) (w : World) : World :=
  mkWorld (w_idle w) (w_flags w) (w_forwards w) (w_live w) p (w_listening w) (w_open w) (w_issued w) (w_forced w) (w_abandoned w).
Definition stop_listener (w : World) : World :=
  mkWorld (w_idle w) (w_flags w) (w_forwards w) (w_live w) (w_phase w) false (w_open w) (w_issued w) (w_forced w) (w_abandoned w).
(** A new listener or connection, and the end of one. *)
Definition open_new (c : nat) (w : World) : World :=
  mkWorld (w_idle w) (w_flags w) (w_forwards w) (w_live w) (w_phase w) (w_listening w) ({[c]} ∪ w_open w) ({[c]} ∪ w_issued w) (w_forced w) (w_abandoned w).
Definition close_it (c : nat) (w : World) : World :=
  mkWorld (w_idle w) (w_flags w) (w_forwards w) (w_live w) (w_phase w) (w_listening w) (w_open w ∖ {[c]}) (w_issued w) (w_forced w) (w_abandoned w).
Definition force (w : World) : World :=
  mkWorld (w_idle w) (w_flags w) (w_forwards w) (w_live w) (w_phase w) (w_listening w) (w_open w) (w_issued w) true (w_abandoned w).
Definition abandon (w : World) : World :=
  mkWorld (w_idle w) (w_flags w) (w_forwards w) (w_live w) (w_phase w) (w_listening w) (w_open w) (w_issued w) (w_forced w) true.

(** * Regions under [idleMu] *)
Definition stop_timer (i : Idle) : Idle :=
  mkIdle (activeSessions i) (activeForwardStreams i) (idleGen i + 1) None (shuttingDown i) (idleNotify i).
Definition set_shutting (b : bool) (i : Idle) : Idle :=
  mkIdle (activeSessions i) (activeForwardStreams i) (idleGen i) (idleTimer i) b (idleNotify i).
Definition add_sessions (n : Z) (i : Idle) : Idle :=
  mkIdle (activeSessions i + n) (activeForwardStreams i) (idleGen i) (idleTimer i) (shuttingDown i) (idleNotify i).
Definition add_streams (n : Z) (i : Idle) : Idle :=
  mkIdle (activeSessions i) (activeForwardStreams i + n) (idleGen i) (idleTimer i) (shuttingDown i) (idleNotify i).
Definition notifyIdleLocked (i : Idle) : Idle :=
  mkIdle (activeSessions i) (activeForwardStreams i) (idleGen i) (idleTimer i) (shuttingDown i) (S (idleNotify i)).
Definition arm_timer (i : Idle) : Idle :=
  mkIdle (activeSessions i) (activeForwardStreams i) (idleGen i + 1) (Some (idleGen i + 1, false)) (shuttingDown i) (idleNotify i).

(** Whether it is the end of the master: no new user is admitted. *)
Definition ending (w : World) : bool := shuttingDown (w_idle w) || closed (w_flags w).

Definition addActiveSession (w : World) : World * bool :=
  if ending w then (w, false) else (set_idle (stop_timer (add_sessions 1 (w_idle w))) w, true).
Definition addActiveForwardStream (w : World) : World * bool :=
  if ending w then (w, false) else (set_idle (stop_timer (add_streams 1 (w_idle w))) w, true).

(** The regions below also say whether a goroutine that runs [Shutdown] is started. *)
Definition scheduleIdleOrShutdownLocked (o : MuxServerOptions) (w : World) : World * bool :=
  if ending w then (w, false)
  else if stoppedListening (w_flags w) then (set_idle (set_shutting true (w_idle w)) w, true)
  else if timed o then (set_idle (arm_timer (w_idle w)) w, false)
  else if negb (persistEnabled o) then (set_idle (set_shutting true (w_idle w)) w, true)
  else (w, false).
Definition removeActiveSession (o : MuxServerOptions) (w : World) : World * bool :=
  let w := set_idle (notifyIdleLocked (add_sessions (-1) (w_idle w))) w in
  if (activeSessions (w_idle w) <=? 0) && (activeForwardStreams (w_idle w) <=? 0) then scheduleIdleOrShutdownLocked o w else (w, false).
Definition removeActiveForwardStream (o : MuxServerOptions) (w : World) : World * bool :=
  let w := set_idle (notifyIdleLocked (add_streams (-1) (w_idle w))) w in
  if (activeForwardStreams (w_idle w) <=? 0) && (activeSessions (w_idle w) <=? 0) then scheduleIdleOrShutdownLocked o w else (w, false).
Definition shutdownWhenIdle (w : World) : World * bool :=
  if ending w || (0 <? activeSessions (w_idle w)) || (0 <? activeForwardStreams (w_idle w)) then (w, false)
  else (set_idle (stop_timer (set_shutting true (w_idle w))) w, true).
Definition onIdleTimeout (gen : Z) (w : World) : World * bool :=
  let i := w_idle w in
  if negb (idleGen i =? gen) then (w, false)
  else if (0 <? activeSessions i) || (0 <? activeForwardStreams i) then (w, false)
  else if ending w then (w, false)
  else (set_idle (mkIdle (activeSessions i) (activeForwardStreams i) (idleGen i) None true (idleNotify i)) w, true).
Definition PrepareHandoff (w : World) : World * bool :=
  if ending w || stoppedListening (w_flags w) || (0 <? activeSessions (w_idle w)) then (w, false)
  else if negb (bool_of (w_forwards w = ∅)) || (0 <? activeForwardStreams (w_idle w)) then (w, false)
  else (set_idle (stop_timer (set_shutting true (w_idle w))) w, true).
(** A reservation that is released after a stop stays. *)
Definition CancelHandoff (w : World) : World :=
  if closed (w_flags w) || stoppedListening (w_flags w) then w
  else set_idle (notifyIdleLocked (set_shutting false (w_idle w))) w.
(** Whether the listener was accepted, or is a duplicate. *)
Definition publishForward (key : string) (listener : nat) (w : World) : World * (bool * bool) :=
  if ending w then (w, (false, false))
  else if bool_of (is_Some (w_forwards w !! key)) then (w, (false, true))
  else (set_forwards (<[key := listener]> (w_forwards w)) w, (true, false)).
(** What [WaitForDrain] waits for. *)
Definition drained (maxSessions : Z) (w : World) : bool :=
  ending w || stoppedListening (w_flags w) ||
  ((activeSessions (w_idle w) <=? maxSessions) && bool_of (w_forwards w = ∅) && (activeForwardStreams (w_idle w) =? 0)).

(** * Goroutines *)

(** Program counters.  [c], [d], [e] are connections, [l] listeners. *)
Inductive pc :=
  (* Serve *)
  | AServe
  (* handleClient: tracking, serving, closing *)
  | CTrack (c : nat) | CCheck (c : nat) | CServe (c : nat) | CReply (c : nat) | CTerminate (c : nat) | CEnd (c : nat) | CUntrack (c : nat)
  (* handleProxy, handlePassengerSession, handlePassengerStdioFwd *)
  | SAdmit (c : nat) | SOpened (c : nat) | SCheck (c : nat) | SRun (c : nat) | SUntrack (c : nat) | SRemove (c : nat)
  (* handleOpenFwd *)
  | FCheck (c : nat) (q : MuxFwdRequest) | FExists (c : nat) (q : MuxFwdRequest) | FListen (c : nat) (q : MuxFwdRequest)
  | FPublish (c : nat) (key : string) (l : nat) | FRefuse (c l : nat)
  (* serveLocalForward, serveRemoteForward, serveDynamicForward *)
  | FServe (key : string) (l : nat) | FClose (key : string) (l : nat) | FRetire (key : string) (l : nat) | FNotify
  (* a forwarded connection and the one it is piped to *)
  | TAdmit (d : nat) | TRefuse (d : nat) | TTrack (d : nat) | TCheck (d : nat) | TDial (d : nat)
  | TTrack2 (d e : nat) | TCheck2 (d e : nat) | TPipe (d e : nat) | TClose2 (d e : nat) | TUntrack2 (d e : nat)
  | TClose (d : nat) | TUntrack (d : nat) | TRemove
  (* handleCloseFwd *)
  | XDelete (c : nat) (q : MuxFwdRequest) | XFind (c : nat) (q : MuxFwdRequest) | XDelete2 (c : nat) (key : string)
  | XClose (c l : nat) | XNotify (c : nat)
  (* handleStopListening for a client, retireUnlinkedOrReplacedListener for none *)
  | KCas (k : option nat) | KClose (k : option nat) | KNotify (k : option nat) | KReply (k : option nat) | KSwap (k : option nat)
  | KStore (k : option nat) | KRemove (k : option nat) | KIdle (k : option nat)
  (* Shutdown: before and in its sync.Once *)
  | HOnce | HRun
  (* onIdleTimeout *)
  | PTimer (gen : Z)
  (* the owner of the master: RemoveForegroundSession, AddForegroundSession, the handoff *)
  | OHold | ORelease1 | ORelease2 | ORelease3 | OIdle | OReserved
  (* WaitForDrain *)
  | WCheck (maxSessions : Z) | WWait (maxSessions : Z) (notify : nat).

Definition handler (c : nat) (r : Request) : pc :=
  match r with
  | AliveCheck _ | ExtInfo _ _ => CReply c
  | Refused _ _ => CEnd c
  | Terminate _ => CTerminate c
  | StopListening _ => KCas (Some c)
  | Proxy _ | NewSession _ | NewStdioFwd _ => SAdmit c
  | OpenFwd q => FCheck c q
  | CloseFwd q => XDelete c q
  end.
Definition resume (k : option nat) : option pc := CServe <$> k.
Definition shutter (b : bool) : option pc := if b then Some HOnce else None.

(** Stores of single fields. *)
Definition store_stopped (w : World) : World :=
  set_flags (mkFlags (closed (w_flags w)) true (releaseForegroundOnStop (w_flags w)) (foregroundReleasedOnStop (w_flags w))) w.
Definition store_closed (w : World) : World :=
  set_flags (mkFlags true (stoppedListening (w_flags w)) (releaseForegroundOnStop (w_flags w)) (foregroundReleasedOnStop (w_flags w))) w.
Definition store_release (b : bool) (w : World) : World :=
  set_flags (mkFlags (closed (w_flags w)) (stoppedListening (w_flags w)) b (foregroundReleasedOnStop (w_flags w))) w.
Definition store_released (b : bool) (w : World) : World :=
  set_flags (mkFlags (closed (w_flags w)) (stoppedListening (w_flags w)) (releaseForegroundOnStop (w_flags w)) b) w.
Definition notify (w : World) : World := set_idle (notifyIdleLocked (w_idle w)) w.
(** A connection that is tracked after [closed] was set is closed by the one that tracks it. *)
Definition track (c : nat) (w : World) : World := set_live ({[c]} ∪ w_live w) w.
Definition recheck (c : nat) (w : World) : World := if closed (w_flags w) then close_it c w else w.
Definition untrack (c : nat) (w : World) : World := set_live (w_live w ∖ {[c]}) w.
Definition unpublish (key : string) (w : World) : World := set_forwards (delete key (w_forwards w)) w.
(** Closing the value of an entry a range visits, if it is still there. *)
Definition close_entry (key : string) (w : World) : World :=
  match w_forwards w !! key with Some l => close_it l w | None => w end.

Section Master.
Context (o : MuxServerOptions) (n_master : bool).
(** [n_master]: the owner may mark its session to be released by a stop, as [ssh -N] does. *)

(** [moves w p w' q s]: a goroutine at [p] goes on to [q], or ends, and may start one at [s]. *)
Inductive moves (w : World) : pc -> World -> option pc -> option pc -> Prop :=
  | accept_client c : w_listening w = true -> c ∉ w_issued w -> moves w AServe (open_new c w) (Some AServe) (Some (CTrack c))
  | accept_ended : closed (w_flags w) || stoppedListening (w_flags w) = true -> moves w AServe w None None
  | accept_failed : closed (w_flags w) || stoppedListening (w_flags w) = false -> moves w AServe (force w) (Some HOnce) None
  | accept_replaced : moves w AServe w (Some (KCas None)) None
  | client_track c : moves w (CTrack c) (track c w) (Some (CCheck c)) None
  | client_check c : moves w (CCheck c) (recheck c w) (Some (CServe c)) None
  | client_request c unsupported msgType payload : c ∈ w_open w ->
      moves w (CServe c) w (Some (handler c (read_request unsupported msgType payload))) None
  | client_gone c : moves w (CServe c) w (Some (CEnd c)) None
  | client_replied c : moves w (CReply c) w (Some (CServe c)) None
  | client_unreachable c : moves w (CReply c) w (Some (CEnd c)) None
  | client_terminate c : moves w (CTerminate c) (force w) (Some (CEnd c)) (Some HOnce)
  | client_close c : moves w (CEnd c) (close_it c w) (Some (CUntrack c)) None
  | client_untrack c : moves w (CUntrack c) (untrack c w) None None
  | session_denied c : moves w (SAdmit c) w (Some (CEnd c)) None
  | session_admit c : let r := addActiveSession w in moves w (SAdmit c) r.1 (Some (if r.2 then SOpened c else CEnd c)) None
  | session_failed c : moves w (SOpened c) w (Some (SRemove c)) None
  | session_track c : moves w (SOpened c) (track c w) (Some (SCheck c)) None
  | session_check c : moves w (SCheck c) (recheck c w) (Some (SRun c)) None
  | session_ended c : moves w (SRun c) w (Some (SUntrack c)) None
  | session_untrack c : moves w (SUntrack c) (untrack c w) (Some (SRemove c)) None
  | session_remove c : let r := removeActiveSession o w in moves w (SRemove c) r.1 (Some (CEnd c)) (shutter r.2)
  | forward_check c q : moves w (FCheck c q) w (Some (if shuttingDown (w_idle w) then CReply c else FExists c q)) None
  | forward_exists c q :
      moves w (FExists c q) w (Some (if negb (allocates q) && bool_of (is_Some (w_forwards w !! key_of q)) then CReply c else FListen c q)) None
  | forward_denied c q : moves w (FListen c q) w (Some (CReply c)) None
  | forward_listen c q l port : supported q = true -> l ∉ w_issued w ->
      moves w (FListen c q) (open_new l w) (Some (FPublish c (published_key q port) l)) None
  | forward_publish c key l : let r := publishForward key l w in
      moves w (FPublish c key l) r.1 (Some (if r.2.1 then CReply c else FRefuse c l)) (if r.2.1 then Some (FServe key l) else None)
  | forward_refuse c l : moves w (FRefuse c l) (close_it l w) (Some (CReply c)) None
  | forward_accept key l d : l ∈ w_open w -> d ∉ w_issued w ->
      moves w (FServe key l) (open_new d w) (Some (FServe key l)) (Some (TAdmit d))
  | forward_ended key l : moves w (FServe key l) w (Some (FClose key l)) None
  | forward_close key l : moves w (FClose key l) (close_it l w) (Some (FRetire key l)) None
  | forward_retire key l : w_forwards w !! key = Some l -> moves w (FRetire key l) (unpublish key w) (Some FNotify) None
  | forward_retired key l : w_forwards w !! key <> Some l -> moves w (FRetire key l) w None None
  | forward_notify : moves w FNotify (notify w) None None
  | stream_admit d : let r := addActiveForwardStream w in moves w (TAdmit d) r.1 (Some (if r.2 then TTrack d else TRefuse d)) None
  | stream_refuse d : moves w (TRefuse d) (close_it d w) None None
  | stream_track d : moves w (TTrack d) (track d w) (Some (TCheck d)) None
  | stream_check d : moves w (TCheck d) (recheck d w) (Some (TDial d)) None
  | stream_failed d : moves w (TDial d) w (Some (TClose d)) None
  | stream_dial d e : e ∉ w_issued w -> moves w (TDial d) (open_new e w) (Some (TTrack2 d e)) None
  | stream_track2 d e : moves w (TTrack2 d e) (track e w) (Some (TCheck2 d e)) None
  | stream_check2 d e : moves w (TCheck2 d e) (recheck e w) (Some (TPipe d e)) None
  | stream_half d e c : c ∈ [d; e] -> moves w (TPipe d e) (close_it c w) (Some (TPipe d e)) None
  | stream_piped d e : moves w (TPipe d e) w (Some (TClose2 d e)) None
  | stream_close2 d e : moves w (TClose2 d e) (close_it e w) (Some (TUntrack2 d e)) None
  | stream_untrack2 d e : moves w (TUntrack2 d e) (untrack e w) (Some (TClose d)) None
  | stream_close d : moves w (TClose d) (close_it d w) (Some (TUntrack d)) None
  | stream_untrack d : moves w (TUntrack d) (untrack d w) (Some TRemove) None
  | stream_remove : let r := removeActiveForwardStream o w in moves w TRemove r.1 None (shutter r.2)
  | close_delete c q l : w_forwards w !! key_of q = Some l -> moves w (XDelete c q) (unpublish (key_of q) w) (Some (XClose c l)) None
  | close_absent c q : w_forwards w !! key_of q = None -> moves w (XDelete c q) w (Some (if allocates q then XFind c q else CReply c)) None
  | close_found c q key : is_Some (w_forwards w !! key) -> closes_key q key = true -> moves w (XFind c q) w (Some (XDelete2 c key)) None
  | close_unfound c q : (forall key, is_Some (w_forwards w !! key) -> closes_key q key = false) -> moves w (XFind c q) w (Some (CReply c)) None
  | close_delete2 c key l : w_forwards w !! key = Some l -> moves w (XDelete2 c key) (unpublish key w) (Some (XClose c l)) None
  | close_absent2 c key : w_forwards w !! key = None -> moves w (XDelete2 c key) w (Some (CReply c)) None
  | close_close c l : moves w (XClose c l) (close_it l w) (Some (XNotify c)) None
  | close_notify c : moves w (XNotify c) (notify w) (Some (CReply c)) None
  | stop_cas k : moves w (KCas k) (store_stopped w) (Some (if stoppedListening (w_flags w) then KReply k else KClose k)) None
  | stop_close k : moves w (KClose k) (stop_listener w) (Some (KNotify k)) None
  | stop_notify k : moves w (KNotify k) (notify w) (Some (KReply k)) None
  | stop_replied k : moves w (KReply k) w (Some (KSwap k)) None
  | stop_unreachable c : moves w (KReply (Some c)) (abandon w) (Some (CEnd c)) None
  | stop_swap k : moves w (KSwap k) (store_release false w) (Some (if releaseForegroundOnStop (w_flags w) then KStore k else KIdle k)) None
  | stop_store k : moves w (KStore k) (store_released true w) (Some (KRemove k)) None
  | stop_remove k : let r := removeActiveSession o w in moves w (KRemove k) r.1 (resume k) (shutter r.2)
  | stop_idle k : let r := shutdownWhenIdle w in moves w (KIdle k) r.1 (resume k) (shutter r.2)
  | shutdown_first : w_phase w = NotShut -> moves w HOnce (set_phase Begun w) (Some HRun) None
  | shutdown_again : w_phase w = ShutDone -> moves w HOnce w None None
  | shutdown_mark : w_phase w = Begun -> moves w HRun (set_phase Marked (store_closed w)) (Some HRun) None
  | shutdown_commit : w_phase w = Marked ->
      moves w HRun (set_phase Committed (set_idle (stop_timer (set_shutting true (w_idle w))) w)) (Some HRun) None
  | shutdown_unlisten : w_phase w = Committed -> moves w HRun (set_phase Unlistened (stop_listener w)) (Some HRun) None
  | shutdown_range : w_phase w = Unlistened -> moves w HRun (set_phase (ClosingForwards (dom (w_forwards w))) w) (Some HRun) None
  | shutdown_forward todo key : w_phase w = ClosingForwards todo -> key ∈ todo ->
      moves w HRun (set_phase (ClosingForwards (todo ∖ {[key]})) (close_entry key w)) (Some HRun) None
  | shutdown_range2 : w_phase w = ClosingForwards ∅ -> moves w HRun (set_phase (ClosingStreams (w_live w)) w) (Some HRun) None
  | shutdown_stream todo c : w_phase w = ClosingStreams todo -> c ∈ todo ∪ w_live w ->
      moves w HRun (set_phase (ClosingStreams (todo ∖ {[c]})) (if bool_of (c ∈ w_live w) then close_it c w else w)) (Some HRun) None
  | shutdown_finish : w_phase w = ClosingStreams ∅ -> moves w HRun (set_phase ShutDone w) None None
  | timer_fires gen : let r := onIdleTimeout gen w in moves w (PTimer gen) r.1 (shutter r.2) None
  | owner_release_on_stop : n_master = true -> moves w OHold (store_release true w) (Some OHold) None
  | owner_release : moves w OHold w (Some ORelease1) None
  | owner_store : moves w ORelease1 (store_release false w) (Some ORelease2) None
  | owner_swap : moves w ORelease2 (store_released false w) (Some (if foregroundReleasedOnStop (w_flags w) then OIdle else ORelease3)) None
  | owner_remove : let r := removeActiveSession o w in moves w ORelease3 r.1 (Some OIdle) (shutter r.2)
  | owner_add : let r := addActiveSession w in moves w OIdle r.1 (Some (if r.2 then OHold else OIdle)) None
  | owner_prepare : let r := PrepareHandoff w in moves w OIdle r.1 (Some (if r.2 then OReserved else OIdle)) None
  | owner_cancel : moves w OReserved (CancelHandoff (abandon w)) (Some OIdle) None
  | owner_handoff : moves w OReserved w (Some HOnce) None
  | owner_shutdown : moves w OIdle (force w) (Some HOnce) None
  | owner_leaves : moves w OIdle w None None
  | drain_check n : moves w (WCheck n) w (if drained n w then None else Some (WWait n (idleNotify (w_idle w)))) None
  | drain_wake n v : idleNotify (w_idle w) <> v -> moves w (WWait n v) w (Some (WCheck n)) None
  | drain_end n v : moves w (WWait n v) w None None.

Record Sys := mkSys { s_world : World; s_threads : gmap nat pc }.
Definition at_ (t : nat) (q : option pc) (ts : gmap nat pc) : gmap nat pc :=
  match q with Some q => <[t := q]> ts | None => delete t ts end.
Definition started (u : nat) (s : option pc) (ts : gmap nat pc) : gmap nat pc :=
  match s with Some p => <[u := p]> ts | None => ts end.

Inductive master_step : Sys -> Sys -> Prop :=
  | thread_moves s t u p w' q sp : s_threads s !! t = Some p -> s_threads s !! u = None -> moves (s_world s) p w' q sp ->
      master_step s (mkSys w' (started u sp (at_ t q (s_threads s))))
  | timer_expires s u g : s_threads s !! u = None -> idleTimer (w_idle (s_world s)) = Some (g, false) ->
      master_step s (mkSys (set_idle (let i := w_idle (s_world s) in
          mkIdle (activeSessions i) (activeForwardStreams i) (idleGen i) (Some (g, true)) (shuttingDown i) (idleNotify i)) (s_world s))
        (<[u := PTimer g]> (s_threads s)))
  | context_done s u : s_threads s !! u = None -> master_step s (mkSys (force (s_world s)) (<[u := HOnce]> (s_threads s)))
  | drain_starts s u n : s_threads s !! u = None -> 0 <= n -> master_step s (mkSys (s_world s) (<[u := WCheck n]> (s_threads s))).

(** [NewMuxServer], with a session of its owner or none, and [Serve]. *)
Definition NewMuxServer (foreground : bool) : World :=
  let i := mkIdle (if foreground then 1 else 0) 0 0 None false 0 in
  mkWorld (if timed o && negb foreground then arm_timer i else i) (mkFlags false false false false) ∅ ∅ NotShut true ∅ ∅ false false.
Definition master_init (foreground : bool) (s : Sys) : Prop :=
  s = mkSys (NewMuxServer foreground) {[0%nat := AServe; 1%nat := if foreground then OHold else OIdle]}.
End Master.

(** * Counting users *)

(** Whether a goroutine holds a session or a stream, or runs or reserves the end. *)
Definition session_of (p : pc) : Z :=
  match p with
  | SOpened _ | SCheck _ | SRun _ | SUntrack _ | SRemove _ | OHold | ORelease1 | ORelease2 | ORelease3 => 1
  | _ => 0
  end.
Definition stream_of (p : pc) : Z :=
  match p with
  | TTrack _ | TCheck _ | TDial _ | TTrack2 _ _ | TCheck2 _ _ | TPipe _ _ | TClose2 _ _ | TUntrack2 _ _ | TClose _ | TUntrack _ | TRemove => 1
  | _ => 0
  end.
Definition commits (p : pc) : Z := match p with HOnce | HRun | OReserved => 1 | _ => 0 end.
(** A stop that is under way. *)
Definition stopping (p : pc) : Z := match p with KClose _ | KNotify _ | KReply _ | KSwap _ | KIdle _ => 1 | _ => 0 end.
Definition opt (f : pc -> Z) (q : option pc) : Z := match q with Some q => f q | None => 0 end.

Lemma session_nonneg p : 0 <= session_of p.
Proof. destruct p; simpl; lia. Qed.
Lemma stream_nonneg p : 0 <= stream_of p.
Proof. destruct p; simpl; lia. Qed.
Lemma commits_nonneg p : 0 <= commits p.
Proof. destruct p; simpl; lia. Qed.
Lemma stopping_nonneg p : 0 <= stopping p.
Proof. destruct p; simpl; lia. Qed.
Lemma opt_nonneg f q : (forall p, 0 <= f p) -> 0 <= opt f q.
Proof. intros H. destruct q; simpl; [apply H|lia]. Qed.
#[local] Hint Resolve session_nonneg stream_nonneg commits_nonneg stopping_nonneg : core.

Lemma tally_move f ts t u p q sp : ts !! t = Some p -> ts !! u = None ->
  tally f (started u sp (at_ t q ts)) = tally f ts - f p + opt f q + opt f sp.
Proof.
  intros Ht Hu. assert (tally f (at_ t q ts) = tally f ts - f p + opt f q) as E.
  { destruct q; simpl; [by rewrite (tally_update _ _ _ _ _ Ht)|rewrite (tally_delete _ _ _ _ Ht); lia]. }
  assert (at_ t q ts !! u = None) as Hu'.
  { assert (t <> u) by congruence. destruct q; simpl; [by rewrite lookup_insert_ne|by rewrite lookup_delete_ne]. }
  destruct sp; simpl; [rewrite (tally_new _ _ _ _ Hu')|]; lia.
Qed.

(** The goroutines after a step: those of before but for one, and at most one new. *)
Lemma moved_lookup ts t u p q sp t' r : ts !! t = Some p -> ts !! u = None -> started u sp (at_ t q ts) !! t' = Some r ->
  (t' = t /\ q = Some r) \/ (t' = u /\ sp = Some r) \/ (t' <> t /\ t' <> u /\ ts !! t' = Some r).
Proof.
  intros Ht Hu H. assert (t <> u) by congruence.
  assert (at_ t q ts !! t' = Some r -> (t' = t /\ q = Some r) \/ (t' <> t /\ t' <> u /\ ts !! t' = Some r)) as Ha.
  { destruct q; simpl; intros Hx.
    - apply lookup_insert_Some in Hx as [[<- <-]|[Hne Hx]]; [by left|]. right. split; [done|]. split; [congruence|done].
    - apply lookup_delete_Some in Hx as [Hne Hx]. right. split; [done|]. split; [congruence|done]. }
  destruct sp; simpl in H.
  - apply lookup_insert_Some in H as [[<- <-]|[Hne H]]; [by right; left|]. apply Ha in H as [H|H]; auto.
  - apply Ha in H as [H|H]; auto.
Qed.

(** Case analysis on a step, and on what its region decides. *)
Ltac regions :=
  unfold addActiveSession, addActiveForwardStream, removeActiveSession, removeActiveForwardStream, scheduleIdleOrShutdownLocked,
    shutdownWhenIdle, onIdleTimeout, PrepareHandoff, CancelHandoff, publishForward, recheck, close_entry in *; cbn in *.
Ltac region :=
  repeat match goal with
         | H : (if ?b then _ else _).2 = _ |- _ => destruct b eqn:?; cbn in *
         | H : (if ?b then _ else _).2.1 = _ |- _ => destruct b eqn:?; cbn in *
         | |- context [if ?b then _ else _] => destruct b eqn:?; cbn in *
         | |- context [read_request ?a ?b ?c] => destruct (read_request a b c); cbn in *
         | |- context [match ?m !! ?k with _ => _ end] => destruct (m !! k) eqn:?; cbn in *
         | |- context [resume ?k] => destruct k; cbn in *
         end.
Ltac steps H :=
  destruct H; repeat match goal with r := _ |- _ => subst r end; try regions.

Section Proofs.
Context (o : MuxServerOptions) (n_master : bool).
Notation moves := (moves o n_master).

(** A master whose owner does not leave its session to a stop. *)
Definition flags_off (w : World) : Prop := releaseForegroundOnStop (w_flags w) = false /\ foregroundReleasedOnStop (w_flags w) = false.
Definition not_released (p : pc) : Prop := match p with KStore _ | KRemove _ => False | _ => True end.
Definition all_of (P : pc -> Prop) (q : option pc) : Prop := match q with Some q => P q | None => True end.

Lemma moves_flags_off w p w' q sp : n_master = false -> moves w p w' q sp -> flags_off w -> not_released p ->
  flags_off w' /\ all_of not_released q /\ all_of not_released sp.
Proof.
  intros Hn H [H1 H2] Hp. unfold flags_off. steps H; rewrite ?H1, ?H2 in *; region; try done; congruence.
Qed.

(** The counters count. *)
Lemma moves_sessions w p w' q sp : moves w p w' q sp -> flags_off w -> not_released p ->
  activeSessions (w_idle w') = activeSessions (w_idle w) - session_of p + opt session_of q + opt session_of sp.
Proof. intros H [H1 H2] Hp. steps H; rewrite ?H1, ?H2 in *; region; try done; cbn; lia. Qed.
Lemma moves_streams w p w' q sp : moves w p w' q sp ->
  activeForwardStreams (w_idle w') = activeForwardStreams (w_idle w) - stream_of p + opt stream_of q + opt stream_of sp.
Proof. intros H. steps H; region; try done; lia. Qed.

(** The invariant of the end: as long as nothing forces it, it begins when no user is left,
    and one goroutine at most is in charge of it. *)
Record ends_idle (w : World) (ts : gmap nat pc) : Prop := {
  e_flags : flags_off w;
  e_threads : forall t p, ts !! t = Some p -> not_released p;
  e_sessions : activeSessions (w_idle w) = tally session_of ts;
  e_streams : activeForwardStreams (w_idle w) = tally stream_of ts;
  e_alone : w_forced w = false -> tally commits ts <= 1;
  e_charge : w_forced w = false -> 1 <= tally commits ts -> shuttingDown (w_idle w) = true;
  e_closed : closed (w_flags w) = true -> w_phase w <> NotShut;
  e_begun : w_forced w = false -> w_phase w <> NotShut -> shuttingDown (w_idle w) = true /\ forall t, ts !! t <> Some OReserved;
  e_quiet : w_forced w = false -> shuttingDown (w_idle w) = true -> tally session_of ts = 0 /\ tally stream_of ts = 0
}.

Lemma moves_commits w p w' q sp : moves w p w' q sp -> w_forced w' = false ->
  w_forced w = false /\
  ((shuttingDown (w_idle w') = shuttingDown (w_idle w) /\ opt commits q + opt commits sp <= commits p) \/
   (ending w = false /\ shuttingDown (w_idle w') = true /\ commits p = 0 /\ opt commits q + opt commits sp = 1 /\
    activeSessions (w_idle w') <= 0 /\ activeForwardStreams (w_idle w') <= 0) \/
   (p = OReserved /\ opt commits q + opt commits sp = 0 /\ shuttingDown (w_idle w') = false) \/
   (p = HRun /\ w_phase w = Marked /\ opt commits q + opt commits sp = 1 /\ shuttingDown (w_idle w') = true)).
Proof.
  intros H Hf. steps H; region; try done; (split; [done|]); try (left; split; [done|lia]);
    try (right; left; split_and!; solve [done|lia|by bool_facts]); right; right; [right|left]; done.
Qed.

(** Nobody is admitted at the end. *)
Lemma moves_no_admission w p w' q sp : moves w p w' q sp -> ending w = true ->
  opt session_of q + opt session_of sp <= session_of p /\ opt stream_of q + opt stream_of sp <= stream_of p.
Proof. intros H He. steps H; try rewrite He; region; try (split; lia); by rewrite He in *. Qed.
Lemma moves_reserved w p w' q sp : moves w p w' q sp -> q = Some OReserved \/ sp = Some OReserved -> ending w = false.
Proof. intros H. steps H; region; intros [?|?]; try done; by bool_facts. Qed.
Lemma moves_phase w p w' q sp : moves w p w' q sp ->
  (w_phase w' = w_phase w /\ closed (w_flags w') = closed (w_flags w)) \/
  (p = HOnce /\ w_phase w = NotShut /\ w' = set_phase Begun w /\ q = Some HRun /\ sp = None) \/
  (p = HRun /\ w_phase w <> NotShut /\ w_phase w' <> NotShut).
Proof.
  intros H. steps H; region; try (left; done); right; [by left|..]; right; (split; [done|]);
    match goal with E : w_phase _ = _ |- _ => rewrite E end; done.
Qed.

Lemma ending_of w : shuttingDown (w_idle w) = true -> ending w = true.
Proof. intros H. unfold ending. by rewrite H. Qed.

Lemma thread_ends_idle w ts t u p w' q sp : n_master = false -> ts !! t = Some p -> ts !! u = None -> moves w p w' q sp ->
  ends_idle w ts -> ends_idle w' (started u sp (at_ t q ts)).
Proof.
  intros Hn Ht Hu Hm I. destruct I as [Ifl Ith Ise Ist Ial Ich Icl Ibe Iqu].
  destruct (moves_flags_off _ _ _ _ _ Hn Hm Ifl (Ith _ _ Ht)) as (Hfl & Hq & Hsp).
  pose proof (moves_sessions _ _ _ _ _ Hm Ifl (Ith _ _ Ht)) as Ese. pose proof (moves_streams _ _ _ _ _ Hm) as Est.
  pose proof (tally_entry session_of ts t p session_nonneg Ht) as Pse. pose proof (tally_entry stream_of ts t p stream_nonneg Ht) as Pst.
  pose proof (tally_entry commits ts t p commits_nonneg Ht) as Pco.
  assert (0 <= tally session_of (started u sp (at_ t q ts)) /\ 0 <= tally stream_of (started u sp (at_ t q ts))) as [Zse Zst] by (split; by apply tally_nonneg).
  pose proof (moves_commits _ _ _ _ _ Hm) as Hc.
  assert (forall t', w_forced w' = false -> w_phase w <> NotShut -> started u sp (at_ t q ts) !! t' <> Some OReserved) as Hre.
  { intros t' Hf Hp Hx. destruct (Hc Hf) as [Hf0 _]. destruct (Ibe Hf0 Hp) as [Hs Hno].
    destruct (moved_lookup _ _ _ _ _ _ _ _ Ht Hu Hx) as [[_ Hr]|[[_ Hr]|(_ & _ & Hr)]]; [| |by eapply Hno];
      [pose proof (moves_reserved _ _ _ _ _ Hm (or_introl Hr)) as He|pose proof (moves_reserved _ _ _ _ _ Hm (or_intror Hr)) as He];
      unfold ending in He; by rewrite Hs in He. }
  constructor; rewrite ?(tally_move _ _ _ _ _ _ _ Ht Hu) in *.
  - done.
  - intros t' r Hr. destruct (moved_lookup _ _ _ _ _ _ _ _ Ht Hu Hr) as [[_ ->]|[[_ ->]|(_ & _ & Hx)]]; [done|done|by eapply Ith].
  - lia.
  - lia.
  - intros Hf. destruct (Hc Hf) as [Hf0 [(_ & ?)|[(He & _ & ? & ? & _)|[(-> & ? & _)|(-> & _ & ? & _)]]]]; specialize (Ial Hf0); simpl in *; try lia.
    destruct (Z.le_gt_cases 1 (tally commits ts)) as [Hx|Hx]; [|lia]. apply (Ich Hf0), ending_of in Hx. congruence.
  - intros Hf Hx. destruct (Hc Hf) as [Hf0 [(E & ?)|[(_ & ? & _)|[(-> & ? & _)|(_ & _ & _ & ?)]]]]; try done.
    + rewrite E. apply (Ich Hf0). lia.
    + specialize (Ial Hf0). simpl in *. lia.
  - intros Hx. destruct (moves_phase _ _ _ _ _ Hm) as [[-> Ec]|[(_ & _ & -> & _)|(_ & _ & ?)]]; [|done|done]. apply Icl. congruence.
  - intros Hf Hx. destruct (Hc Hf) as [Hf0 Hcs]. destruct (moves_phase _ _ _ _ _ Hm) as [[Ep _]|[(-> & Ep & -> & -> & ->)|(-> & Hp & _)]].
    + rewrite Ep in Hx. destruct (Ibe Hf0 Hx) as [Hs Hno]. split; [|by intros t'; apply Hre].
      destruct Hcs as [(E & ?)|[(_ & ? & _)|[(-> & _)|(_ & _ & _ & ?)]]]; [congruence|done| |done]. by destruct (Hno t).
    + assert (shuttingDown (w_idle w) = true) as Hs by (apply (Ich Hf0); simpl in Pco; lia). split; [done|]. intros t' Hx'.
      destruct (moved_lookup _ _ _ _ _ _ _ _ Ht Hu Hx') as [[_ ?]|[[_ ?]|(Hne & _ & Hr)]]; [done|done|].
      pose proof (tally_entries commits ts t HOnce t' OReserved commits_nonneg Ht Hr ltac:(congruence)) as Hb. specialize (Ial Hf0). simpl in Hb. lia.
    + destruct (Ibe Hf0 Hp) as [Hs Hno]. split; [|by intros t'; apply Hre].
      destruct Hcs as [(E & ?)|[(_ & ? & _)|[(? & _)|(_ & _ & _ & ?)]]]; [congruence|done|done|done].
  - intros Hf Hx. destruct (Hc Hf) as [Hf0 Hcs].
    assert (shuttingDown (w_idle w) = true -> tally session_of ts - session_of p + opt session_of q + opt session_of sp = 0 /\
              tally stream_of ts - stream_of p + opt stream_of q + opt stream_of sp = 0) as Hold.
    { intros Hs. destruct (Iqu Hf0 Hs) as [? ?]. destruct (moves_no_admission _ _ _ _ _ Hm (ending_of _ Hs)). lia. }
    destruct Hcs as [(E & ?)|[(_ & _ & _ & _ & ? & ?)|[(_ & _ & ?)|(-> & Hp & _)]]]; [apply Hold; congruence|lia|congruence|].
    apply Hold. apply (Ibe Hf0). by rewrite Hp.
Qed.

(** A goroutine that starts counts for nothing, a timer or a drain changes no counter. *)
Lemma started_ends_idle w w' ts u p : n_master = false -> ts !! u = None -> session_of p = 0 -> stream_of p = 0 -> commits p = 0 \/ w_forced w' = true ->
  not_released p -> p <> OReserved -> (w_forced w' = false -> w_forced w = false) -> w_flags w' = w_flags w -> w_phase w' = w_phase w ->
  shuttingDown (w_idle w') = shuttingDown (w_idle w) -> activeSessions (w_idle w') = activeSessions (w_idle w) ->
  activeForwardStreams (w_idle w') = activeForwardStreams (w_idle w) -> ends_idle w ts -> ends_idle w' (<[u := p]> ts).
Proof.
  intros Hn Hu Hs Hst Hc Hp Hr Hf Efl Eph Esh Ese Est [Ifl Ith Ise Ist Ial Ich Icl Ibe Iqu].
  assert (w_forced w' = false -> commits p = 0) as Hc' by (intros ?; destruct Hc; congruence).
  constructor; rewrite ?(tally_new _ _ _ _ Hu), ?Efl, ?Eph, ?Esh, ?Ese, ?Est; try done; try lia.
  - unfold flags_off. by rewrite Efl.
  - intros t r Hx. apply lookup_insert_Some in Hx as [[_ <-]|[_ Hx]]; [done|by eapply Ith].
  - intros Hx. rewrite (Hc' Hx). by apply Ial, Hf.
  - intros Hx. rewrite (Hc' Hx). by apply Ich, Hf.
  - intros Hx Hph. destruct (Ibe (Hf Hx) Hph) as [? Hno]. split; [done|]. intros t Ht.
    apply lookup_insert_Some in Ht as [[_ ?]|[_ Ht]]; [done|by eapply Hno].
  - intros Hx Hy. rewrite Hs, Hst. by apply Iqu; [apply Hf|].
Qed.

Lemma ends_idle_step s s' : n_master = false -> ends_idle (s_world s) (s_threads s) -> master_step o n_master s s' -> ends_idle (s_world s') (s_threads s').
Proof.
  intros Hn I H. destruct H as [s t u p w' q sp Ht Hu Hm|s u g Hu Hg|s u Hu|s u n Hu Hn0].
  - by eapply thread_ends_idle.
  - eapply (started_ends_idle (s_world s)); try done. by left.
  - eapply (started_ends_idle (s_world s)); try done. by right.
  - eapply (started_ends_idle (s_world s)); try done. by left.
Qed.

Lemma ends_idle_init fg s : master_init o fg s -> ends_idle (s_world s) (s_threads s).
Proof.
  intros ->. assert (forall f p, tally f ({[0%nat := AServe; 1%nat := p]} : gmap nat pc) = f AServe + f p) as E.
  { intros f p. rewrite tally_new by done. unfold singletonM, map_singleton. rewrite (tally_new f ∅) by done. unfold tally. rewrite map_fold_empty. lia. }
  constructor; simpl; rewrite ?E; try (destruct fg, (timed o); simpl; try done; lia).
  - intros t p Hp. apply lookup_insert_Some in Hp as [[_ <-]|[_ [_ <-]%lookup_singleton_Some]]; [done|by destruct fg].
Qed.

Lemma reachable_ends_idle fg s : n_master = false -> reachable (master_init o fg) (master_step o n_master) s -> ends_idle (s_world s) (s_threads s).
Proof.
  intros Hn. apply (reachable_invariant _ _ (fun s => ends_idle (s_world s) (s_threads s))); [apply ends_idle_init|].
  intros s1 s2. by apply ends_idle_step.
Qed.

(** C4: In every reachable state of a master whose owner never leaves its session to a stop (it does not call
    [ReleaseForegroundOnStop], as [ssh -N] does), the counters are the sessions and streams
    there are, and unless something forces the end of the master (a client's terminate, a failed
    listener, its owner or its context), the end begins only when there are none, and from then on nobody is
    admitted: an idle timer, a stop, the end of the last session or a handoff never cuts
    anybody off.  For the master of an [ssh -N] this is false: [released_twice_cuts_off]. *)
Theorem users_never_cut_off fg s (Hn : n_master = false) (Hr : reachable (master_init o fg) (master_step o n_master) s) :
  activeSessions (w_idle (s_world s)) = tally session_of (s_threads s) /\
  activeForwardStreams (w_idle (s_world s)) = tally stream_of (s_threads s) /\
  (w_forced (s_world s) = false -> ending (s_world s) = true ->
   forall t p, s_threads s !! t = Some p -> session_of p = 0 /\ stream_of p = 0).
Proof.
  destruct (reachable_ends_idle fg s Hn Hr) as [_ _ Ise Ist _ _ Icl Ibe Iqu]. split; [done|]. split; [done|]. intros Hf He t p Hp.
  assert (shuttingDown (w_idle (s_world s)) = true) as Hs.
  { unfold ending in He. apply orb_true_iff in He as [?|Hc]; [done|]. by apply Ibe, Icl. }
  destruct (Iqu Hf Hs) as [Es Et]. pose proof (tally_entry session_of _ _ _ session_nonneg Hp). pose proof (tally_entry stream_of _ _ _ stream_nonneg Hp).
  pose proof (session_nonneg p). pose proof (stream_nonneg p). lia.
Qed.

(** ** The end comes *)
Definition timer_of (g : Z) (p : pc) : Z := match p with PTimer g' => if g' =? g then 1 else 0 | _ => 0 end.
Lemma timer_nonneg g p : 0 <= timer_of g p.
Proof. destruct p; simpl; try lia. destruct (_ =? _); lia. Qed.

(** No user left, and nothing that ends the master but idleness. *)
Definition vacant (w : World) : Prop :=
  w_forced w = false /\ w_abandoned w = false /\ shuttingDown (w_idle w) = false /\
  activeSessions (w_idle w) <= 0 /\ activeForwardStreams (w_idle w) <= 0.

(** A vacant master was vacant before the step, or the last user just left. *)
Lemma timed_persist : timed o = true -> persistEnabled o = true.
Proof. unfold timed. intros H. by bool_facts. Qed.
Lemma moves_vacant w p w' q sp : moves w p w' q sp -> vacant w' -> flags_off w -> 0 <= activeSessions (w_idle w) -> 0 <= activeForwardStreams (w_idle w) ->
  (w_forced w = false -> shuttingDown (w_idle w) = false -> closed (w_flags w) = false) ->
  (vacant w /\ idleTimer (w_idle w') = idleTimer (w_idle w) /\ idleGen (w_idle w') = idleGen (w_idle w) /\
   (stoppedListening (w_flags w') = stoppedListening (w_flags w) /\ stopping p <= opt stopping q + opt stopping sp \/ opt stopping q = 1) /\
   timer_of (idleGen (w_idle w)) p = 0) \/
  (stoppedListening (w_flags w') = false /\ persistEnabled o = true /\
   (timed o = true -> idleTimer (w_idle w') = Some (idleGen (w_idle w'), false))).
Proof.
  intros H (Hf & Ha & Hs & H1 & H2) [Hr _] P1 P2 He. unfold vacant.
  steps H; rewrite ?Hr; region; try done; try lia; try (unfold ending in *; cbn in *; rewrite Hs, He in * by done; done); try (bool_facts; lia); 
    try (left; split_and!; try done; try lia; by (left || right)); try (right; split_and!; try done; first [by apply timed_persist|by bool_facts]);
    try (exfalso; repeat match goal with Hx : _ || _ = true |- _ => apply orb_true_iff in Hx as [Hx|Hx] end; unfold ending in *; rewrite ?Hs, ?He in * by done; bool_facts; lia).
Qed.

(** Who ends a vacant master: a stop under way, the timer, or the one who runs [Shutdown]. *)
Record retires (foreground : bool) (w : World) (ts : gmap nat pc) : Prop := {
  r_stop : vacant w -> stoppedListening (w_flags w) = true -> 1 <= tally stopping ts;
  r_timer : vacant w -> timed o = true ->
    idleTimer (w_idle w) = Some (idleGen (w_idle w), false) \/
    (idleTimer (w_idle w) = Some (idleGen (w_idle w), true) /\ 1 <= tally (timer_of (idleGen (w_idle w))) ts);
  r_last : vacant w -> foreground = true -> persistEnabled o = true;
  r_over : w_forced w = false -> w_abandoned w = false -> shuttingDown (w_idle w) = true -> 1 <= tally commits ts \/ w_phase w = ShutDone
}.

Lemma moves_over w p w' q sp : moves w p w' q sp -> w_abandoned w' = false ->
  w_abandoned w = false /\ (commits p <= opt commits q + opt commits sp \/ w_phase w' = ShutDone) /\ (w_phase w = ShutDone -> w_phase w' = ShutDone).
Proof.
  intros H. steps H; region; intros Ha; try done; (split; [done|split; [solve [left; lia|by right]|]; solve [done|congruence]]).
Qed.

Lemma open_not_closed w ts : ends_idle w ts -> w_forced w = false -> shuttingDown (w_idle w) = false -> closed (w_flags w) = false.
Proof. intros I Hf Hs. destruct (closed (w_flags w)) eqn:E; [|done]. apply (e_closed _ _ I), (e_begun _ _ I Hf) in E as [? _]. congruence. Qed.

Lemma thread_retires fg w ts t u p w' q sp : ts !! t = Some p -> ts !! u = None -> moves w p w' q sp ->
  ends_idle w ts -> retires fg w ts -> retires fg w' (started u sp (at_ t q ts)).
Proof.
  intros Ht Hu Hm I [Rs Rt Rl Ro].
  assert (0 <= activeSessions (w_idle w) /\ 0 <= activeForwardStreams (w_idle w)) as [P1 P2].
  { rewrite (e_sessions _ _ I), (e_streams _ _ I). split; by apply tally_nonneg. }
  pose proof (fun Hv => moves_vacant _ _ _ _ _ Hm Hv (e_flags _ _ I) P1 P2 (open_not_closed _ _ I)) as Hmv.
  pose proof (opt_nonneg stopping sp stopping_nonneg). pose proof (opt_nonneg commits sp commits_nonneg).
  pose proof (tally_entry stopping ts t p stopping_nonneg Ht).
  constructor; rewrite ?(tally_move _ _ _ _ _ _ _ Ht Hu).
  - intros Hv Hs. destruct (Hmv Hv) as [(Hv0 & _ & _ & [[Es ?]|?] & _)|(? & _)]; [|lia|congruence].
    rewrite Es in Hs. specialize (Rs Hv0 Hs). lia.
  - intros Hv Htm. destruct (Hmv Hv) as [(Hv0 & Et & Eg & _ & Hp)|(_ & _ & Ht')]; [|by left; apply Ht'].
    rewrite Et, Eg. destruct (Rt Hv0 Htm) as [?|[? ?]]; [by left|right]. split; [done|].
    pose proof (opt_nonneg (timer_of (idleGen (w_idle w))) sp (timer_nonneg _)). pose proof (opt_nonneg (timer_of (idleGen (w_idle w))) q (timer_nonneg _)). lia.
  - intros Hv Hf. destruct (Hmv Hv) as [(Hv0 & _)|(_ & ? & _)]; [by apply Rl|done].
  - intros Hf Ha Hs. destruct (moves_over _ _ _ _ _ Hm Ha) as (Ha0 & [Hc|?] & Hd); [|by right].
    destruct (moves_commits _ _ _ _ _ Hm Hf) as [Hf0 [(E & _)|[(_ & _ & _ & ? & _)|[(_ & _ & ?)|(-> & _)]]]].
    + rewrite E in Hs. destruct (Ro Hf0 Ha0 Hs) as [?|?]; [left; lia|right; by apply Hd].
    + left. pose proof (tally_entry commits ts t p commits_nonneg Ht). pose proof (commits_nonneg p). lia.
    + congruence.
    + left. pose proof (tally_entry commits ts t HRun commits_nonneg Ht) as Hx. simpl in *. lia.
Qed.

Lemma started_retires fg w w' ts u p : ts !! u = None -> (w_forced w' = false -> w_forced w = false) -> w_abandoned w' = w_abandoned w ->
  w_flags w' = w_flags w -> w_phase w' = w_phase w -> w_idle w' = w_idle w -> retires fg w ts -> retires fg w' (<[u := p]> ts).
Proof.
  intros Hu Hf Ea Efl Eph Ei [Rs Rt Rl Ro].
  assert (vacant w' -> vacant w) as Hv by (unfold vacant; rewrite Ea, Ei; naive_solver).
  pose proof (stopping_nonneg p). pose proof (commits_nonneg p). pose proof (timer_nonneg (idleGen (w_idle w)) p).
  constructor; rewrite ?(tally_new _ _ _ _ Hu), ?Efl, ?Eph, ?Ei, ?Ea.
  - intros Hx Hs. specialize (Rs (Hv Hx) Hs). lia.
  - intros Hx Ht. destruct (Rt (Hv Hx) Ht) as [?|[? ?]]; [by left|right]. split; [done|lia].
  - intros Hx. by apply Rl, Hv.
  - intros Hx Hy Hz. destruct (Ro (Hf Hx) Hy Hz); [left; lia|by right].
Qed.

Lemma retires_step fg s s' : ends_idle (s_world s) (s_threads s) -> retires fg (s_world s) (s_threads s) ->
  master_step o n_master s s' -> retires fg (s_world s') (s_threads s').
Proof.
  intros I R H. destruct H as [s t u p w' q sp Ht Hu Hm|s u g Hu Hg|s u Hu|s u n Hu Hn0].
  - by eapply thread_retires.
  - destruct R as [Rs Rt Rl Ro]. pose proof (timer_nonneg (idleGen (w_idle (s_world s))) (PTimer g)).
    constructor; simpl; rewrite ?(tally_new _ _ _ _ Hu); [..|].
    + intros Hv Hs. specialize (Rs Hv Hs). simpl. lia.
    + intros Hv Ht. right. destruct (Rt Hv Ht) as [E|[E _]]; rewrite Hg in E; [|done]. injection E as ->. split; [done|].
      simpl. rewrite Z.eqb_refl. pose proof (tally_nonneg (timer_of (idleGen (w_idle (s_world s)))) (s_threads s) (timer_nonneg _)). lia.
    + done.
    + intros Hf Ha Hs. destruct (Ro Hf Ha Hs); [left; simpl; lia|by right].
  - by apply (started_retires fg (s_world s)).
  - by apply (started_retires fg (s_world s)).
Qed.

Lemma retires_init fg s : master_init o fg s -> retires fg (s_world s) (s_threads s).
Proof.
  intros ->. unfold NewMuxServer. destruct fg, (timed o) eqn:Et; constructor; unfold vacant; simpl; rewrite ?Et; try done; try (intros; by left);
    intros (_ & _ & _ & H & _); lia.
Qed.

Lemma reachable_retires fg s : n_master = false -> reachable (master_init o fg) (master_step o n_master) s ->
  ends_idle (s_world s) (s_threads s) /\ retires fg (s_world s) (s_threads s).
Proof.
  intros Hn. apply (reachable_invariant _ _ (fun s => ends_idle (s_world s) (s_threads s) /\ retires fg (s_world s) (s_threads s))).
  - intros s0 H. split; [by eapply ends_idle_init|by apply retires_init].
  - intros s1 s2 [I R] H. split; [by eapply ends_idle_step|by eapply retires_step].
Qed.

(** C12: Take a master whose owner never leaves its session to a stop (no [ReleaseForegroundOnStop]), that
    nothing has forced to end, of which every stop so far could be answered and no handoff was taken back.
    If nobody uses it, and it was stopped, has an idle time, or does not persist after the session it was
    started for, then it has ended, or its end is under way: a stop that is about to look, a goroutine in
    [Shutdown], or the timer of the current generation.  An unanswered stop and a handoff that is taken back
    do leave such a master behind: [unanswered_stop_strands], [cancelled_handoff_strands]. *)
Theorem idle_master_ends fg s (Hn : n_master = false) (Hr : reachable (master_init o fg) (master_step o n_master) s)
  (Hf : w_forced (s_world s) = false) (Ha : w_abandoned (s_world s) = false)
  (Hu : forall t p, s_threads s !! t = Some p -> session_of p = 0 /\ stream_of p = 0)
  (Hd : stoppedListening (w_flags (s_world s)) = true \/ timed o = true \/ persistEnabled o = false /\ fg = true) :
  w_phase (s_world s) = ShutDone \/ idleTimer (w_idle (s_world s)) = Some (idleGen (w_idle (s_world s)), false) \/
  exists t p, s_threads s !! t = Some p /\ (0 < stopping p \/ 0 < commits p \/ p = PTimer (idleGen (w_idle (s_world s)))).
Proof.
  destruct (reachable_retires fg s Hn Hr) as [I [Rs Rt Rl Ro]].
  assert (forall f, (forall p, 0 <= f p) -> (forall p, f p <> 0 -> 0 < stopping p \/ 0 < commits p \/ p = PTimer (idleGen (w_idle (s_world s)))) -> 1 <= tally f (s_threads s) ->
     exists t p, s_threads s !! t = Some p /\ (0 < stopping p \/ 0 < commits p \/ p = PTimer (idleGen (w_idle (s_world s))))) as Hw.
  { intros f Hf0 Hp Hx. destruct (tally_witness f (s_threads s) Hf0 ltac:(lia)) as (t & p & Ht & Hfp). exists t, p. split; [done|]. apply Hp. lia. }
  destruct (shuttingDown (w_idle (s_world s))) eqn:Es.
  - destruct (Ro Hf Ha eq_refl) as [Hc|?]; [|by left]. right. right. apply (Hw commits commits_nonneg); [|done].
    intros p Hp. right. left. pose proof (commits_nonneg p). lia.
  - assert (vacant (s_world s)) as Hv.
    { split_and!; try done; rewrite ?(e_sessions _ _ I), ?(e_streams _ _ I).
      - destruct (Z.le_gt_cases (tally session_of (s_threads s)) 0) as [|Hx]; [done|].
        apply tally_witness in Hx as (t & p & Ht & Hp); [|done]. destruct (Hu t p Ht). lia.
      - destruct (Z.le_gt_cases (tally stream_of (s_threads s)) 0) as [|Hx]; [done|].
        apply tally_witness in Hx as (t & p & Ht & Hp); [|done]. destruct (Hu t p Ht). lia. }
    destruct Hd as [Hs|[Ht|[Hp Hg]]].
    + right. right. apply (Hw stopping stopping_nonneg); [|by apply Rs]. intros p Hp. left. pose proof (stopping_nonneg p). lia.
    + destruct (Rt Hv Ht) as [?|[_ Hx]]; [by right; left|]. right. right. apply (Hw _ (timer_nonneg _)) in Hx; [done|].
      intros p Hp. right. right. destruct p; simpl in Hp; try done. destruct (_ =? _) eqn:E; [by bool_facts; subst|done].
    + specialize (Rl Hv Hg). congruence.
Qed.

(** ** What the end closes *)

(** The connections of a goroutine, those it has tracked, and those it counts on [Shutdown] to close. *)
Definition conns (p : pc) : list nat :=
  match p with
  | CTrack c | CCheck c | CServe c | CReply c | CTerminate c | CEnd c | CUntrack c
  | SAdmit c | SOpened c | SCheck c | SRun c | SUntrack c | SRemove c
  | FCheck c _ | FExists c _ | FListen c _ | FPublish c _ _ | FRefuse c _
  | XDelete c _ | XFind c _ | XDelete2 c _ | XClose c _ | XNotify c
  | KCas (Some c) | KClose (Some c) | KNotify (Some c) | KReply (Some c) | KSwap (Some c) | KStore (Some c) | KRemove (Some c) | KIdle (Some c) => [c]
  | TAdmit d | TRefuse d | TTrack d | TCheck d | TDial d | TClose d | TUntrack d => [d]
  | TTrack2 d e | TCheck2 d e | TPipe d e | TClose2 d e | TUntrack2 d e => [d; e]
  | _ => []
  end.
Definition tracked (p : pc) : list nat :=
  match p with
  | CTrack _ | CEnd _ | CUntrack _ | SUntrack _ | SRemove _ | TAdmit _ | TRefuse _ | TTrack _ | TClose _ | TUntrack _ | TClose2 _ _ | TUntrack2 _ _ => []
  | TTrack2 d _ => [d]
  | _ => conns p
  end.
Definition guarded (p : pc) : list nat :=
  match p with
  | CCheck _ | TCheck _ => []
  | TCheck2 d _ => [d]
  | _ => tracked p
  end.
(** The listeners it has to close. *)
Definition listeners (p : pc) : list nat :=
  match p with FPublish _ _ l | FRefuse _ l | FServe _ l | FClose _ l | XClose _ l => [l] | _ => [] end.
Definition holds (p : pc) : list nat :=
  match p with CUntrack _ | TUntrack _ => [] | TUntrack2 d _ => [d] | _ => conns p ++ listeners p end.
Definition each (f : pc -> list nat) (q : option pc) : list nat := match q with Some q => f q | None => [] end.

(** Whether [Shutdown] will still come to an entry. *)
Definition early (ph : phase) : bool := match ph with NotShut | Begun => true | _ => false end.
Definition will_close_stream (ph : phase) (c : nat) : Prop :=
  match ph with ClosingStreams todo => c ∈ todo | ShutDone => False | _ => True end.
Definition will_close_forward (ph : phase) (key : string) : Prop :=
  match ph with ClosingForwards todo => key ∈ todo | ClosingStreams _ | ShutDone => False | _ => True end.

Ltac members := simpl in *; set_solver.

Lemma moves_conns w p w' q sp : moves w p w' q sp ->
  w_issued w ⊆ w_issued w' /\
  (forall c, c ∈ each conns q \/ c ∈ each conns sp -> c ∈ conns p \/ (c ∉ w_issued w /\ c ∈ w_issued w')) /\
  (each conns sp <> [] -> each conns q = []).
Proof.
  intros H. steps H; region; (split; [set_solver|split; [intros x|]]); try done; try members.
Qed.
Lemma moves_live w p w' q sp c : moves w p w' q sp -> c ∉ conns p -> c ∈ w_live w -> c ∈ w_live w'.
Proof. intros H. steps H; region; intros Hc Hl; try done; members. Qed.
Lemma moves_open w p w' q sp c : moves w p w' q sp -> c ∈ w_open w' -> c ∈ w_open w \/ (c ∉ w_issued w /\ c ∈ w_issued w').
Proof. intros H. steps H; region; intros Hc; try (by left); members. Qed.
Lemma moves_tracked w p w' q sp c : moves w p w' q sp -> (forall c, c ∈ tracked p -> c ∈ w_live w) -> c ∈ each tracked q \/ c ∈ each tracked sp ->
  c ∈ w_live w'.
Proof. intros H. steps H; region; intros Ht [Hc|Hc]; try (by apply Ht); try (specialize (Ht c)); members. Qed.
Lemma moves_guarded w p w' q sp c : moves w p w' q sp -> c ∈ each guarded q \/ c ∈ each guarded sp -> c ∈ w_open w' ->
  c ∈ guarded p \/ closed (w_flags w) = false /\ w_phase w' = w_phase w.
Proof. intros H. steps H; region; intros [Hc|Hc] Ho; try (by left); try (by right); members. Qed.
Lemma moves_keeps w p w' q sp c : moves w p w' q sp -> c ∈ w_live w -> (c ∈ w_open w -> will_close_stream (w_phase w) c) -> c ∈ w_open w' ->
  c ∈ w_issued w -> will_close_stream (w_phase w') c.
Proof. intros H. steps H; region; intros Hl Hk Ho Hi; try (apply Hk; members); try done.
  - rewrite H in Hk. simpl in Hk. set_solver.
  - apply bool_decide_eq_false in Heqb. rewrite H in Hk. simpl in Hk. set_solver.
  - rewrite H in Hk. simpl in Hk. set_solver.
Qed.
Lemma moves_phase_early w p w' q sp : moves w p w' q sp -> (early (w_phase w) = false -> closed (w_flags w) = true) ->
  early (w_phase w') = false -> closed (w_flags w') = true.
Proof. intros H. steps H; region; intros He Hp; try (apply He; by rewrite ?H in *); first [assumption|reflexivity|discriminate (He Hp)]. Qed.
Lemma moves_forwards w p w' q sp key l : moves w p w' q sp -> w_forwards w' !! key = Some l ->
  (w_forwards w !! key = Some l) \/
  (closed (w_flags w) = false /\ w_phase w' = w_phase w /\ exists c, p = FPublish c key l).
Proof.
  intros H. steps H; region; intros Hk; try (by left);
    try (apply lookup_delete_Some in Hk as [_ Hk]; by left).
  apply lookup_insert_Some in Hk as [[<- <-]|[_ Hk]]; [|by left]. right. split; [unfold ending in *; by bool_facts|]. split; [done|by exists c].
Qed.
Lemma moves_keeps_forward w p w' q sp key l : moves w p w' q sp -> w_forwards w !! key = Some l ->
  (l ∈ w_open w -> will_close_forward (w_phase w) key) -> l ∈ w_open w' -> l ∈ w_issued w -> w_forwards w' !! key = Some l -> will_close_forward (w_phase w') key.
Proof. intros H. steps H; region; intros Hl Hk Ho Hi Hl'; try (apply Hk; members); try done;
    try rewrite H in Hk; simpl in Hk; try (destruct Hk; members).
  - apply elem_of_dom. by exists l.
  - assert (key <> key0) by (intros ->; set_solver). set_solver.
  - assert (key <> key0) by (intros ->; congruence). set_solver.
  - set_solver.
Qed.

(** The goroutines that stay where they are. *)
Lemma moved_stays ts t u p q sp t' r : ts !! t = Some p -> ts !! u = None -> ts !! t' = Some r -> t' <> t ->
  started u sp (at_ t q ts) !! t' = Some r.
Proof.
  intros Ht Hu Hr Hne. assert (t' <> u) by congruence. assert (at_ t q ts !! t' = Some r) as Ha.
  { destruct q; simpl; [by rewrite lookup_insert_ne|by rewrite lookup_delete_ne]. }
  destruct sp; simpl; [by rewrite lookup_insert_ne|done].
Qed.
Lemma moved_new ts t u p q sp r : ts !! t = Some p -> ts !! u = None -> (q = Some r -> started u sp (at_ t q ts) !! t = Some r) /\
  (sp = Some r -> started u sp (at_ t q ts) !! u = Some r).
Proof.
  intros Ht Hu. assert (t <> u) by congruence. split.
  - intros ->. simpl. destruct sp; simpl; [rewrite lookup_insert_ne by done|]; apply lookup_insert_eq.
  - intros ->. simpl. apply lookup_insert_eq.
Qed.

(** Every connection has one goroutine, what is open is somebody's to close, and what
    a goroutine counts on is in the maps [Shutdown] ranges over until it has come there. *)
Record tidy (w : World) (ts : gmap nat pc) : Prop := {
  y_marked : early (w_phase w) = false -> closed (w_flags w) = true;
  y_open : w_open w ⊆ w_issued w;
  y_owned : forall t p c, ts !! t = Some p -> c ∈ conns p -> c ∈ w_issued w;
  y_alone : forall t t' p p' c, ts !! t = Some p -> ts !! t' = Some p' -> c ∈ conns p -> c ∈ conns p' -> t = t';
  y_tracked : forall t p c, ts !! t = Some p -> c ∈ tracked p -> c ∈ w_live w;
  y_guarded : forall t p c, ts !! t = Some p -> c ∈ guarded p -> c ∈ w_open w -> will_close_stream (w_phase w) c;
  y_listeners : (forall key l, w_forwards w !! key = Some l -> l ∈ w_issued w) /\ (forall t p l, ts !! t = Some p -> l ∈ listeners p -> l ∈ w_issued w);
  y_forwards : forall key l, w_forwards w !! key = Some l -> l ∈ w_open w -> will_close_forward (w_phase w) key;
  y_held : forall x, x ∈ w_open w -> exists t p, ts !! t = Some p /\ x ∈ holds p
}.

Lemma tracked_conns p c : c ∈ tracked p -> c ∈ conns p.
Proof. destruct p; simpl; try done; try (by intros []%elem_of_nil); set_solver. Qed.
Lemma guarded_tracked p c : c ∈ guarded p -> c ∈ tracked p.
Proof. destruct p; simpl; try done; try (by intros []%elem_of_nil); set_solver. Qed.
Lemma moves_listeners w p w' q sp l : moves w p w' q sp -> l ∈ each listeners q \/ l ∈ each listeners sp -> (forall key l, w_forwards w !! key = Some l -> l ∈ w_issued w) ->
  (forall l, l ∈ listeners p -> l ∈ w_issued w) -> l ∈ w_issued w'.
Proof. intros H. steps H; region; intros [Hl|Hl] Hf Hp; try (apply Hp; members); members. Qed.
Lemma moves_held w p w' q sp x : moves w p w' q sp -> x ∈ w_open w' -> x ∈ holds p \/ x ∉ w_open w -> x ∈ each holds q \/ x ∈ each holds sp.
Proof. intros H. unfold holds. steps H; region; intros Ho [Hx|Hx]; try members. Qed.

Lemma thread_tidy w ts t u p w' q sp : ts !! t = Some p -> ts !! u = None -> moves w p w' q sp -> tidy w ts -> tidy w' (started u sp (at_ t q ts)).
Proof.
  intros Ht Hu Hm [Im Io Iow Ial Itr Igu [Ili1 Ili2] Ifo Ihe].
  destruct (moves_conns _ _ _ _ _ Hm) as (Hsub & Hcs & Hxor).
  pose proof (fun x => moved_lookup ts t u p q sp x) as Hl.
  assert (forall t' r c, started u sp (at_ t q ts) !! t' = Some r -> c ∈ conns r -> (c ∈ each conns q \/ c ∈ each conns sp) \/ (t' <> t /\ ts !! t' = Some r)) as Hnew.
  { intros t' r c Hr Hc. destruct (Hl t' r Ht Hu Hr) as [[_ ->]|[[_ ->]|(? & _ & ?)]]; auto. }
  assert (forall t' r c, t' <> t -> ts !! t' = Some r -> c ∈ conns r -> c ∉ conns p) as Hoth.
  { intros t' r c Hne Hr Hc Hp. by apply Hne, (Ial t' t r p c). }
  assert (forall key l, w_forwards w' !! key = Some l -> w_forwards w !! key = Some l \/ (closed (w_flags w) = false /\ w_phase w' = w_phase w /\ l ∈ w_issued w)) as Hfw.
  { intros key l Hk. destruct (moves_forwards _ _ _ _ _ _ _ Hm Hk) as [?|(? & ? & c & ->)]; [by left|right]. split_and!; try done.
    apply (Ili2 t (FPublish c key l)); [done|]. by apply list_elem_of_singleton. }
  assert (closed (w_flags w) = false -> w_phase w' = w_phase w -> early (w_phase w') = true) as Hea.
  { intros Hc Hp. rewrite Hp. destruct (early (w_phase w)); [done|]. by rewrite Im in Hc. }
  constructor.
  - by apply (moves_phase_early _ _ _ _ _ Hm).
  - intros x Hx. destruct (moves_open _ _ _ _ _ _ Hm Hx) as [?|[_ ?]]; [|done]. by apply Hsub, Io.
  - intros t' r c Hr Hc. destruct (Hnew _ _ _ Hr Hc) as [Hx|[_ Hx]]; [|by eapply Hsub, Iow].
    destruct (Hcs c Hx) as [?|[_ ?]]; [|done]. by eapply Hsub, Iow.
  - intros t1 t2 r1 r2 c H1 H2 C1 C2.
    assert (forall t' r, t' <> t -> ts !! t' = Some r -> c ∈ conns r -> c ∈ each conns q \/ c ∈ each conns sp -> False) as Hno.
    { intros t' r Hne Hr Hc Hx. destruct (Hcs c Hx) as [Hp|[Hp _]]; [by apply (Hoth _ _ _ Hne Hr Hc)|]. by eapply Hp, Iow. }
    assert (c ∈ each conns q -> c ∈ each conns sp -> False) as Hboth.
    { intros Hq Hsp. rewrite Hxor in Hq by (intros E; rewrite E in Hsp; by apply elem_of_nil in Hsp). by apply elem_of_nil in Hq. }
    destruct (Hl _ _ Ht Hu H1) as [[E1 Q1]|[[E1 Q1]|(N1 & _ & X1)]], (Hl _ _ Ht Hu H2) as [[E2 Q2]|[[E2 Q2]|(N2 & _ & X2)]];
      try congruence; try exact (Ial t1 t2 r1 r2 c X1 X2 C1 C2); rewrite ?Q1, ?Q2 in *; simpl in *; exfalso;
      first [by apply Hboth|by eapply (Hno t2 r2); eauto|by eapply (Hno t1 r1); eauto].
  - intros t' r c Hr Hc. destruct (Hl _ _ Ht Hu Hr) as [[_ ->]|[[_ ->]|(Hne & _ & Hx)]].
    + apply (moves_tracked _ _ _ _ _ _ Hm); [by intros; eapply Itr|by left].
    + apply (moves_tracked _ _ _ _ _ _ Hm); [by intros; eapply Itr|by right].
    + apply (moves_live _ _ _ _ _ _ Hm); [|by eapply Itr]. apply (Hoth t' r c Hne Hx). by apply tracked_conns.
  - assert (forall t' r c, ts !! t' = Some r -> c ∈ guarded r -> c ∈ w_open w' -> will_close_stream (w_phase w') c) as Hold.
    { intros t' r c Hr Hc Ho. pose proof (guarded_tracked _ _ Hc) as Hct. pose proof (tracked_conns _ _ Hct) as Hcc.
      apply (moves_keeps _ _ _ _ _ _ Hm); [by eapply Itr|by intros; eapply Igu|done|by eapply Iow]. }
    intros t' r c Hr Hc Ho. assert ((c ∈ each guarded q \/ c ∈ each guarded sp) \/ ts !! t' = Some r) as Hx.
    { destruct (Hl _ _ Ht Hu Hr) as [[_ ->]|[[_ ->]|(_ & _ & ?)]]; auto. }
    destruct Hx as [Hx|Hx]; [|by eapply Hold].
    destruct (moves_guarded _ _ _ _ _ _ Hm Hx Ho) as [?|[Hc1 Hc2]]; [by eapply Hold|]. specialize (Hea Hc1 Hc2). by destruct (w_phase w').
  - split.
    + intros key l Hk. destruct (Hfw _ _ Hk) as [?|(_ & _ & ?)]; [|by apply Hsub]. by eapply Hsub, Ili1.
    + intros t' r l Hr Hc. destruct (Hl _ _ Ht Hu Hr) as [[_ ->]|[[_ ->]|(_ & _ & Hx)]]; [| |by eapply Hsub, Ili2];
        apply (moves_listeners _ _ _ _ _ _ Hm); auto; intros; by eapply Ili2.
  - intros key l Hk Ho. destruct (Hfw _ _ Hk) as [Hk0|(Hc & Hp & _)].
    + apply (moves_keeps_forward _ _ _ _ _ _ _ Hm Hk0); [by apply Ifo|done|by eapply Ili1|done].
    + specialize (Hea Hc Hp). by destruct (w_phase w').
  - intros x Hx. pose proof (fun r => moved_new ts t u p q sp r Ht Hu) as Hmn.
    assert (x ∈ holds p \/ x ∉ w_open w -> exists t' r, started u sp (at_ t q ts) !! t' = Some r /\ x ∈ holds r) as Hh.
    { intros Hp. destruct (moves_held _ _ _ _ _ _ Hm Hx Hp) as [Hq|Hq]; [exists t; destruct q as [r|]|exists u; destruct sp as [r|]];
        try (by apply elem_of_nil in Hq); exists r; (split; [by apply Hmn|done]). }
    destruct (decide (x ∈ w_open w)) as [Ho|Ho]; [|by apply Hh; right]. destruct (Ihe x Ho) as (t0 & r & Hr & Hxr).
    destruct (decide (t0 = t)) as [->|Hne]; [apply Hh; left; congruence|]. exists t0, r. split; [|done]. by apply moved_stays with p.
Qed.

(** A listener that is served and open is in the table, or about to be closed by the one who took it out. *)
Record served (w : World) (ts : gmap nat pc) : Prop := {
  v_serve : forall t key l, ts !! t = Some (FServe key l) -> l ∈ w_open w ->
    w_forwards w !! key = Some l \/ exists t' c, ts !! t' = Some (XClose c l);
  v_retire : forall t key l, ts !! t = Some (FRetire key l) -> l ∉ w_open w /\ l ∈ w_issued w
}.

Lemma moves_removed w p w' q sp key l : moves w p w' q sp -> w_forwards w !! key = Some l ->
  w_forwards w' !! key = Some l \/ p = FRetire key l \/ exists c, q = Some (XClose c l).
Proof.
  intros H. steps H; region; intros Hk; try (by left);
    try (match goal with |- context [delete ?k _ !! key] => destruct (decide (k = key)) as [<-|Hne]; [right|left; by rewrite lookup_delete_ne] end;
         first [left; congruence|right; eexists; do 2 f_equal; congruence]).
  left. rewrite lookup_insert_ne; [done|]. intros <-. apply bool_decide_eq_false in Heqb0. by apply Heqb0.
Qed.
Lemma moves_serve w p w' q sp key l : moves w p w' q sp -> q = Some (FServe key l) \/ sp = Some (FServe key l) ->
  p = FServe key l \/ w_forwards w' !! key = Some l.
Proof. intros H. steps H; region; intros [[= E]|[= E]]; try done; subst; try (by left). right. apply lookup_insert_eq. Qed.
Lemma moves_retire w p w' q sp key l : moves w p w' q sp -> q = Some (FRetire key l) \/ sp = Some (FRetire key l) -> p = FClose key l /\ l ∉ w_open w'.
Proof. intros H. steps H; region; intros [[= E]|[= E]]; try done; subst; split; [done|set_solver]. Qed.
Lemma moves_xclose w w' c l q sp : moves w (XClose c l) w' q sp -> l ∉ w_open w'.
Proof. intros H. inversion H; subst. simpl. set_solver. Qed.

Lemma thread_served w ts t u p w' q sp : ts !! t = Some p -> ts !! u = None -> moves w p w' q sp -> tidy w ts -> served w ts ->
  served w' (started u sp (at_ t q ts)).
Proof.
  intros Ht Hu Hm Y [V1 V2]. destruct (y_listeners _ _ Y) as [Ili1 Ili2]. destruct (moves_conns _ _ _ _ _ Hm) as (Hsub & _).
  assert (forall l, l ∈ w_issued w -> l ∈ w_open w' -> l ∈ w_open w) as Hop.
  { intros l Hi Ho. by destruct (moves_open _ _ _ _ _ _ Hm Ho) as [?|[? _]]. }
  constructor.
  - assert (forall t' key l, ts !! t' = Some (FServe key l) -> l ∈ w_open w' ->
      w_forwards w' !! key = Some l \/ exists t' c, started u sp (at_ t q ts) !! t' = Some (XClose c l)) as Hold.
    { intros t' key l Hs Ho. assert (l ∈ w_issued w) as Hi by (apply (Ili2 _ _ l Hs); by apply list_elem_of_singleton).
      pose proof (Hop l Hi Ho) as Ho0. destruct (V1 _ _ _ Hs Ho0) as [Hk|(t1 & c & H1)].
      - destruct (moves_removed _ _ _ _ _ _ _ Hm Hk) as [?|[->|[c ->]]]; [by left| |].
        + by destruct (V2 _ _ _ Ht).
        + right. exists t, c. by apply (moved_new ts t u p (Some (XClose c l)) sp).
      - destruct (decide (t1 = t)) as [->|Hne].
        + rewrite H1 in Ht. injection Ht as <-. by apply moves_xclose in Hm.
        + right. exists t1, c. by apply moved_stays with p. }
    intros t' key l Hs Ho. destruct (moved_lookup _ _ _ _ _ _ _ _ Ht Hu Hs) as [[_ Hq]|[[_ Hq]|(_ & _ & Hx)]]; [| |by eapply Hold];
      (destruct (moves_serve _ _ _ _ _ key l Hm) as [->|?]; [by auto|by eapply Hold|by left]).
  - intros t' key l Hs. destruct (moved_lookup _ _ _ _ _ _ _ _ Ht Hu Hs) as [[_ Hq]|[[_ Hq]|(_ & _ & Hx)]].
    1,2: destruct (moves_retire _ _ _ _ _ key l Hm) as [-> ?]; [by auto|]; split; [done|]; apply Hsub, (Ili2 _ _ l Ht); by apply list_elem_of_singleton.
    destruct (V2 _ _ _ Hx) as [Hn Hi]. split; [|by apply Hsub]. intros Ho. by apply Hn, Hop.
Qed.

(** A goroutine that starts owns nothing. *)
Lemma started_tidy w w' ts u p : ts !! u = None -> conns p = [] -> tracked p = [] -> guarded p = [] -> listeners p = [] ->
  (forall key l, p <> FServe key l /\ p <> FRetire key l) -> w_flags w' = w_flags w -> w_phase w' = w_phase w -> w_open w' = w_open w ->
  w_issued w' = w_issued w -> w_live w' = w_live w -> w_forwards w' = w_forwards w ->
  tidy w ts /\ served w ts -> tidy w' (<[u := p]> ts) /\ served w' (<[u := p]> ts).
Proof.
  intros Hu Ec Et Eg El Hp Efl Eph Eo Eis Eli Ef [[Im Io Iow Ial Itr Igu [Ili1 Ili2] Ifo Ihe] [V1 V2]].
  assert (forall t r, ts !! t = Some r -> <[u := p]> ts !! t = Some r) as Hst by (intros t r Hr; rewrite lookup_insert_ne; congruence).
  assert (forall t r (f : pc -> list nat) x, f p = [] -> <[u := p]> ts !! t = Some r -> x ∈ f r -> ts !! t = Some r) as Hl.
  { intros t r f x Hf Hr Hx. apply lookup_insert_Some in Hr as [[_ <-]|[_ Hr]]; [|done]. rewrite Hf in Hx. by apply elem_of_nil in Hx. }
  split; constructor; rewrite ?Efl, ?Eph, ?Eo, ?Eis, ?Eli, ?Ef; try done.
  - intros t r c Hr Hc. eapply Iow; [by eapply (Hl t r conns)|done].
  - intros t t' r r' c Hr Hr' Hc Hc'. eapply Ial; [by eapply (Hl t r conns)|by eapply (Hl t' r' conns)|done|done].
  - intros t r c Hr Hc. eapply Itr; [by eapply (Hl t r tracked)|done].
  - intros t r c Hr Hc. eapply Igu; [by eapply (Hl t r guarded)|done].
  - split; [done|]. intros t r l Hr Hc. eapply Ili2; [by eapply (Hl t r listeners)|done].
  - intros x Hx. destruct (Ihe x Hx) as (t & r & Hr & Hxr). exists t, r. auto.
  - intros t key l Hr Ho. apply lookup_insert_Some in Hr as [[_ E]|[_ Hr]]; [by destruct (Hp key l)|].
    destruct (V1 _ _ _ Hr Ho) as [?|(t' & c & ?)]; [by left|right; eauto].
  - intros t key l Hr. apply lookup_insert_Some in Hr as [[_ E]|[_ Hr]]; [by destruct (Hp key l)|]. by eapply V2.
Qed.

Lemma tidy_step s s' : tidy (s_world s) (s_threads s) /\ served (s_world s) (s_threads s) -> master_step o n_master s s' ->
  tidy (s_world s') (s_threads s') /\ served (s_world s') (s_threads s').
Proof.
  intros [I V] H. destruct H as [s t u p w' q sp Ht Hu Hm|s u g Hu Hg|s u Hu|s u n Hu Hn0].
  - split; [by eapply thread_tidy|by eapply thread_served].
  - by apply (started_tidy (s_world s)).
  - by apply (started_tidy (s_world s)).
  - by apply (started_tidy (s_world s)).
Qed.

Lemma reachable_tidy fg s : reachable (master_init o fg) (master_step o n_master) s -> tidy (s_world s) (s_threads s) /\ served (s_world s) (s_threads s).
Proof.
  apply (reachable_invariant _ _ (fun s => tidy (s_world s) (s_threads s) /\ served (s_world s) (s_threads s))); [|intros s1 s2; apply tidy_step].
  intros s0 ->. assert (forall t p, ({[0%nat := AServe; 1%nat := if fg then OHold else OIdle]} : gmap nat pc) !! t = Some p ->
    conns p = [] /\ tracked p = [] /\ guarded p = [] /\ listeners p = [] /\ forall key l, p <> FServe key l /\ p <> FRetire key l) as Hp.
  { intros t p Hp. apply lookup_insert_Some in Hp as [[_ <-]|[_ [_ <-]%lookup_singleton_Some]]; [done|by destruct fg]. }
  split; constructor; simpl; try done.
  - intros t p c Ht Hc. destruct (Hp t p Ht) as (E & _). rewrite E in Hc. by apply elem_of_nil in Hc.
  - intros t t' p p' c Ht _ Hc. destruct (Hp t p Ht) as (E & _). rewrite E in Hc. by apply elem_of_nil in Hc.
  - intros t p c Ht Hc. destruct (Hp t p Ht) as (_ & E & _). rewrite E in Hc. by apply elem_of_nil in Hc.
  - split; [done|]. intros t p l Ht Hc. destruct (Hp t p Ht) as (_ & _ & _ & E & _). rewrite E in Hc. by apply elem_of_nil in Hc.
  - intros t key l Ht. destruct (Hp t _ Ht) as (_ & _ & _ & _ & E). by destruct (E key l).
Qed.

(** C8: Whatever is open is held by a goroutine that will close it or counts on [Shutdown]; and when
    [Shutdown] is done, every connection a session, a client or a forward counted on it to close is
    closed, and so is every listener that is served, or somebody is about to close it: nothing slips
    through between a check and the ranges over the maps. *)
Theorem shutdown_closes_all fg s (Hr : reachable (master_init o fg) (master_step o n_master) s) :
  (forall x, x ∈ w_open (s_world s) -> exists t p, s_threads s !! t = Some p /\ x ∈ holds p) /\
  (w_phase (s_world s) = ShutDone -> ending (s_world s) = true /\
    (forall t p c, s_threads s !! t = Some p -> c ∈ guarded p -> c ∉ w_open (s_world s)) /\
    (forall t key l, s_threads s !! t = Some (FServe key l) -> l ∈ w_open (s_world s) -> exists t' c, s_threads s !! t' = Some (XClose c l))).
Proof.
  destruct (reachable_tidy fg s Hr) as [Y V]. split; [exact (y_held _ _ Y)|]. intros Hd. split; [|split].
  - unfold ending. rewrite (y_marked _ _ Y), orb_true_r by by rewrite Hd. done.
  - intros t p c Ht Hc Ho. pose proof (y_guarded _ _ Y t p c Ht Hc Ho) as Hk. by rewrite Hd in Hk.
  - intros t key l Ht Ho. destruct (v_serve _ _ V t key l Ht Ho) as [Hk|?]; [|done].
    pose proof (y_forwards _ _ Y key l Hk Ho) as Hw. by rewrite Hd in Hw.
Qed.

(** ** Waiting for the last user *)

(** Goroutines that notify, or end in the close of [shutdownChan]. *)
Definition wakes (p : pc) : Z :=
  match p with KClose _ | KNotify _ | FNotify | XClose _ _ | XNotify _ | HOnce | HRun => 1 | _ => 0 end.
Lemma wakes_nonneg p : 0 <= wakes p.
Proof. destruct p; simpl; lia. Qed.

Lemma moves_wakes w p w' q sp : moves w p w' q sp ->
  (idleNotify (w_idle w) <= idleNotify (w_idle w'))%nat /\
  (idleNotify (w_idle w') = idleNotify (w_idle w) -> wakes p <= opt wakes q + opt wakes sp \/ w_phase w' = ShutDone) /\
  (w_phase w = ShutDone -> w_phase w' = ShutDone).
Proof.
  intros H. steps H; region; (split; [lia|split; [intros Hn; first [left; lia|by right|lia]|]]); try done; congruence.
Qed.

Lemma drained_spec n w : drained n w = true <->
  ending w = true \/ stoppedListening (w_flags w) = true \/
  (activeSessions (w_idle w) <= n /\ w_forwards w = ∅ /\ activeForwardStreams (w_idle w) = 0).
Proof.
  unfold drained, bool_of. rewrite !orb_true_iff, !andb_true_iff, Z.leb_le, Z.eqb_eq, bool_decide_eq_true. tauto.
Qed.

Lemma moves_drained n w p w' q sp : moves w p w' q sp -> 0 <= n -> 0 <= activeForwardStreams (w_idle w) ->
  idleNotify (w_idle w') = idleNotify (w_idle w) -> drained n w' = true -> drained n w = true \/ 1 <= opt wakes q + opt wakes sp.
Proof.
  intros H Hn Hp. steps H; region; intros Ei Hd; try (by left); try (right; lia); try lia.
  all: left; rewrite drained_spec in *; unfold ending in *; cbn in *.
  - destruct Hd as [?|[?|(? & ? & ?)]]; [by left|by right; left|]. right. right. split_and!; [lia|done|done].
  - destruct Hd as [?|[?|(? & Hf & ?)]]; [by left|by right; left|]. by apply insert_non_empty in Hf.
  - destruct Hd as [?|[?|(? & ? & ?)]]; [by left|by right; left|]. lia.
  - destruct Hd as [?|[?|(? & ? & ?)]]; by auto.
  - destruct Hd as [?|[?|(? & ? & ?)]]; [by left|by right; left|]. right. right. split_and!; [lia|done|done].
  - bool_facts. right. right. split_and!; [lia|by apply bool_decide_eq_true in H|lia].
Qed.

Record awake (w : World) (ts : gmap nat pc) : Prop := {
  k_check : forall t n, ts !! t = Some (WCheck n) -> 0 <= n;
  k_wait : forall t n v, ts !! t = Some (WWait n v) -> 0 <= n /\ (v <= idleNotify (w_idle w))%nat /\
    (v = idleNotify (w_idle w) -> drained n w = true -> 1 <= tally wakes ts \/ w_phase w = ShutDone)
}.

Lemma moves_waits w p w' q sp : moves w p w' q sp ->
  (forall n, q = Some (WCheck n) \/ sp = Some (WCheck n) -> exists v, p = WWait n v) /\
  (forall n v, q = Some (WWait n v) \/ sp = Some (WWait n v) -> p = WCheck n /\ w' = w /\ v = idleNotify (w_idle w) /\ drained n w = false).
Proof.
  intros H. steps H; region; (split; [intros m [[= E]|[= E]]|intros m v' [[= E]|[= E]]]); subst; try done; by eexists.
Qed.

Lemma thread_awake w ts t u p w' q sp : ts !! t = Some p -> ts !! u = None -> moves w p w' q sp -> 0 <= activeForwardStreams (w_idle w) ->
  awake w ts -> awake w' (started u sp (at_ t q ts)).
Proof.
  intros Ht Hu Hm Hp [Kc Kw]. destruct (moves_waits _ _ _ _ _ Hm) as [Mc Mw]. destruct (moves_wakes _ _ _ _ _ Hm) as (Mn & Mk & Md).
  constructor.
  - intros t' n Hx. destruct (moved_lookup _ _ _ _ _ _ _ _ Ht Hu Hx) as [[_ E]|[[_ E]|(_ & _ & E)]]; [..|by eapply Kc];
      (destruct (Mc n) as [v ->]; [by auto|]; by destruct (Kw _ _ _ Ht)).
  - intros t' n v Hx. destruct (moved_lookup _ _ _ _ _ _ _ _ Ht Hu Hx) as [[_ E]|[[_ E]|(_ & _ & E)]].
    1,2: destruct (Mw n v) as (-> & -> & -> & Hd); [by auto|]; split; [by eapply Kc|]; split; [done|]; by rewrite Hd.
    destruct (Kw _ _ _ E) as (Hn & Hv & Hw). split; [done|]. split; [lia|]. intros Hv' Hd. assert (idleNotify (w_idle w') = idleNotify (w_idle w)) as Ei by lia.
    rewrite (tally_move _ _ _ _ _ _ _ Ht Hu). pose proof (tally_entry wakes ts t p wakes_nonneg Ht).
    destruct (moves_drained n _ _ _ _ _ Hm Hn Hp Ei Hd) as [Hd0|?]; [|left; lia].
    destruct (Hw ltac:(lia) Hd0) as [?|?]; [|right; by apply Md]. destruct (Mk Ei); [left; lia|by right].
Qed.

Lemma started_awake w w' ts u p : ts !! u = None -> (forall n v, p <> WWait n v) -> (forall n, p = WCheck n -> 0 <= n) ->
  (forall n, drained n w' = drained n w) -> w_phase w' = w_phase w -> idleNotify (w_idle w') = idleNotify (w_idle w) -> awake w ts -> awake w' (<[u := p]> ts).
Proof.
  intros Hu Hp Hc Ed Eph Ei [Kc Kw]. constructor; rewrite ?Ei, ?Eph, ?(tally_new _ _ _ _ Hu).
  - intros t n Hx. apply lookup_insert_Some in Hx as [[_ E]|[_ Hx]]; [by apply Hc|by eapply Kc].
  - intros t n v Hx. apply lookup_insert_Some in Hx as [[_ E]|[_ Hx]]; [by destruct (Hp n v)|]. rewrite Ed.
    destruct (Kw _ _ _ Hx) as (? & ? & Hw). split; [done|]. split; [done|]. intros Hv Hd. pose proof (wakes_nonneg p).
    destruct (Hw Hv Hd); [left; lia|by right].
Qed.

Lemma awake_step s s' : 0 <= activeForwardStreams (w_idle (s_world s)) -> awake (s_world s) (s_threads s) -> master_step o n_master s s' ->
  awake (s_world s') (s_threads s').
Proof.
  intros Hp K H. destruct H as [s t u p w' q sp Ht Hu Hm|s u g Hu Hg|s u Hu|s u n Hu Hn0].
  - by eapply thread_awake.
  - by apply (started_awake (s_world s)).
  - by apply (started_awake (s_world s)).
  - apply (started_awake (s_world s)); try done. by intros m [= <-].
Qed.

(** C27: Nobody who waits for the master to drain sleeps on, in a master whose owner never leaves its
    session to a stop (no [ReleaseForegroundOnStop]): whenever what it waits for is the case and it has not been
    notified since it looked, a goroutine is there that will notify it or end the master, which
    wakes it too. *)
Theorem drain_never_sleeps fg s t n v (Hn : n_master = false) (Hr : reachable (master_init o fg) (master_step o n_master) s)
  (Ht : s_threads s !! t = Some (WWait n v)) (Hv : v = idleNotify (w_idle (s_world s))) (Hd : drained n (s_world s) = true) :
  w_phase (s_world s) = ShutDone \/ exists t' p, s_threads s !! t' = Some p /\ 0 < wakes p.
Proof.
  assert (ends_idle (s_world s) (s_threads s) /\ awake (s_world s) (s_threads s)) as [_ [_ Kw]].
  { revert s Hr Ht Hv Hd. intros s Hr _ _ _. revert s Hr.
    apply (reachable_invariant _ _ (fun s => ends_idle (s_world s) (s_threads s) /\ awake (s_world s) (s_threads s))).
    - intros s H. split; [by eapply ends_idle_init|]. rewrite H. constructor; simpl; intros t' n'.
      + intros Hp. apply lookup_insert_Some in Hp as [[_ ?]|[_ [_ ?]%lookup_singleton_Some]]; [done|by destruct fg].
      + intros v' Hp. apply lookup_insert_Some in Hp as [[_ ?]|[_ [_ ?]%lookup_singleton_Some]]; [done|by destruct fg].
    - intros s1 s2 [I K] H. split; [by eapply ends_idle_step|]. eapply awake_step; [|exact K|exact H]. rewrite (e_streams _ _ I). by apply tally_nonneg. }
  destruct (Kw _ _ _ Ht) as (_ & _ & Hw). destruct (Hw Hv Hd) as [Hx|?]; [right|by left].
  destruct (tally_witness wakes (s_threads s) wakes_nonneg ltac:(lia)) as (t' & p & ? & ?). eauto.
Qed.
End Proofs.

(** * Runs *)
Section Runs.
Context (o : MuxServerOptions) (n_master : bool).
Definition leads (s : Sys) (P : Sys -> Prop) : Prop := exists s', rtc (master_step o n_master) s s' /\ P s'.
Lemma leads_here s (P : Sys -> Prop) : P s -> leads s P.
Proof. by exists s. Qed.
Lemma leads_on w ts t u p w' q sp P : ts !! t = Some p -> ts !! u = None -> moves o n_master w p w' q sp ->
  leads (mkSys w' (started u sp (at_ t q ts))) P -> leads (mkSys w ts) P.
Proof. intros Ht Hu Hm (s' & Hs & HP). exists s'. split; [|done]. eapply rtc_l; [exact (thread_moves o n_master (mkSys w ts) t u p w' q sp Ht Hu Hm)|done]. Qed.
Lemma leads_drain w ts u n P : ts !! u = None -> 0 <= n -> leads (mkSys w (<[u := WCheck n]> ts)) P -> leads (mkSys w ts) P.
Proof. intros Hu Hn (s' & Hs & HP). exists s'. split; [|done]. eapply rtc_l; [exact (drain_starts o n_master (mkSys w ts) u n Hu Hn)|done]. Qed.
Lemma leads_reachable fg s P : master_init o fg s -> leads s P -> exists s', reachable (master_init o fg) (master_step o n_master) s' /\ P s'.
Proof. intros H (s' & Hs & HP). exists s'. split; [by exists s|done]. Qed.
End Runs.

(** One step of goroutine [t] by rule [C]; a goroutine it starts is [u]. *)
Ltac fact := first [reflexivity | apply (bool_decide_unpack _); vm_compute; exact I | discriminate].
Tactic Notation "go" constr(t) constr(u) open_constr(C) := eapply (leads_on _ _ _ _ t u); [reflexivity|reflexivity|eapply C; fact|].

Definition stop_packet : string := EncodeMuxRequestID 7.
Definition indefinite : MuxServerOptions := mkOptions true 0 true.
Definition plain_master : MuxServerOptions := mkOptions false 0 false.

(** ** A stop that cannot be answered *)

(** A stopped master without users, timer or begun end. *)
Definition deserted (w : World) : Prop :=
  stoppedListening (w_flags w) = true /\ releaseForegroundOnStop (w_flags w) = false /\ ending w = false /\ w_phase w = NotShut /\
  activeSessions (w_idle w) = 0 /\ activeForwardStreams (w_idle w) = 0 /\ idleTimer (w_idle w) = None.
(** Its only goroutine is the stop of connection [c], which has the answer to write; the same once the stop has returned. *)
Definition answering (w : World) (c : nat) : Sys := mkSys w {[2%nat := KReply (Some c)]}.
Definition returned (w : World) (c : nat) : Sys := mkSys w {[2%nat := CEnd c]}.
(** Goroutines that end nothing: a connection that is closed, and waits for a drain. *)
Definition harmless (p : pc) : Prop := match p with CEnd _ | CUntrack _ | WCheck _ | WWait _ _ => True | _ => False end.
(** Nothing will end the master but what forces it to. *)
Definition stranded (s : Sys) : Prop :=
  w_phase (s_world s) = NotShut /\ ending (s_world s) = false /\ idleTimer (w_idle (s_world s)) = None /\
  forall t p, s_threads s !! t = Some p -> harmless p.

Section Stranded.
Context (o : MuxServerOptions) (n_master : bool).
Lemma moves_forced w p w' q sp : moves o n_master w p w' q sp -> w_forced w = true -> w_forced w' = true.
Proof. intros H. steps H; region; done. Qed.
Lemma harmless_moves w p w' q sp : moves o n_master w p w' q sp -> harmless p ->
  w_phase w' = w_phase w /\ ending w' = ending w /\ idleTimer (w_idle w') = idleTimer (w_idle w) /\
  (forall r, q = Some r -> harmless r) /\ sp = None.
Proof. intros H Hp. destruct H; try done; cbn; split_and!; try done; try by intros ? [= <-]. intros r. by destruct (drained n w); intros [= <-]. Qed.
Lemma stranded_step s s' : master_step o n_master s s' -> w_forced (s_world s) = true \/ stranded s -> w_forced (s_world s') = true \/ stranded s'.
Proof.
  intros H [Hf|(Hp & He & Ht & Hh)].
  - left. destruct H as [s t u p w' q sp Ht Hu Hm|s u g Hu Hg|s u Hu|s u n Hu Hn]; try done. by eapply moves_forced.
  - destruct H as [s t u p w' q sp Hs Hu Hm|s u g Hu Hg|s u Hu|s u n Hu Hn]; [|congruence|by left|].
    + right. destruct (harmless_moves _ _ _ _ _ Hm (Hh _ _ Hs)) as (E1 & E2 & E3 & Hq & ->). unfold stranded. cbn [s_world s_threads].
      rewrite E1, E2, E3. split_and!; try done. intros t' r Hr. destruct (moved_lookup _ _ _ _ _ _ _ _ Hs Hu Hr) as [[_ E]|[[_ E]|(_ & _ & E)]]; eauto; done.
    + right. split_and!; try done. intros t0 r Hr. simpl in Hr. apply lookup_insert_Some in Hr as [[_ <-]|[_ Hr]]; [done|by eapply Hh].
Qed.
Lemma stranded_stays s s' : rtc (master_step o n_master) s s' -> w_forced (s_world s) = true \/ stranded s ->
  w_forced (s_world s') = true \/ stranded s'.
Proof. induction 1; eauto using stranded_step. Qed.
(** A stop that cannot write its answer goes on to close its connection, and does nothing else. *)
Lemma unanswered_step w c s : deserted w -> master_step o n_master (answering w c) s -> s_threads s !! 2%nat = Some (CEnd c) ->
  w_forced (s_world s) = true \/ stranded s.
Proof.
  intros (_ & _ & He & Hp & _ & _ & Ht) H E. inversion H as [s0 t u p w' q sp Hs Hu Hm|s0 u g Hu Hg|s0 u Hu|s0 u n Hu Hn]; subst; simpl in *; [|congruence|by left|].
  - apply lookup_singleton_Some in Hs as [<- <-]. apply lookup_singleton_None in Hu. inversion Hm; subst; simpl in *; simplify_map_eq.
    right. split_and!; try done. intros t p Hx. cbn in Hx. rewrite insert_singleton in Hx. by apply lookup_singleton_Some in Hx as [_ <-].
  - exfalso. assert (u <> 2%nat) by (intros ->; by simplify_map_eq). by simplify_map_eq.
Qed.
End Stranded.

(** C36: In a stopped master without users, timer or begun end, whose only goroutine is a stop that has its
    answer to write (a second stop, or the first one of an idle persistent master), everything hangs
    on that answer.  If it is written, the stop goes on to begin the end.  If it cannot be
    written, the stop returns, and from then on, whatever steps follow, the master has not ended, no end
    is begun, no timer runs and no goroutine is there that could end it, unless something forces the
    end: it is left behind. *)
Theorem unanswered_stop_strands o n_master w c (Hw : deserted w) :
  leads o n_master (answering w c) (fun s => w_forced (s_world s) = w_forced w /\ shuttingDown (w_idle (s_world s)) = true /\
    exists t, s_threads s !! t = Some HOnce) /\
  master_step o n_master (answering w c) (returned (abandon w) c) /\
  forall s s', master_step o n_master (answering w c) s -> s_threads s !! 2%nat = Some (CEnd c) -> rtc (master_step o n_master) s s' ->
    w_forced (s_world s') = false -> stranded s'.
Proof.
  split_and!.
  - destruct w as [[] [] ? ? ? ? ? ? ? ?], Hw as (E1 & E2 & E3 & E4 & E5 & E6 & E7). unfold ending in E3. cbn in *. apply orb_false_iff in E3 as [-> ->]. subst.
    unfold answering. go 2%nat 3%nat stop_replied. go 2%nat 3%nat stop_swap. go 2%nat 3%nat stop_idle.
    apply leads_here. split_and!; try reflexivity. by exists 3%nat.
  - assert (returned (abandon w) c = mkSys (abandon w) (started 3%nat None (at_ 2%nat (Some (CEnd c)) (s_threads (answering w c))))) as ->.
    { unfold returned, answering. cbn. by rewrite insert_singleton. }
    by eapply thread_moves; [| |apply stop_unreachable].
  - intros s s' Hs Ht Hr Hf. destruct (stranded_stays o n_master s s' Hr) as [?|?]; [by eapply unanswered_step|congruence|done].
Qed.

(** A stop that arrives while a handoff is reserved, and a handoff that is then taken back, leave a
    master that admits nobody and that nothing ends. *)
Theorem cancelled_handoff_strands :
  exists s, reachable (master_init indefinite true) (master_step indefinite false) s /\ s_threads s = ∅ /\
    w_forced (s_world s) = false /\ stoppedListening (w_flags (s_world s)) = true /\ ending (s_world s) = true /\
    activeSessions (w_idle (s_world s)) = 0 /\ idleTimer (w_idle (s_world s)) = None /\ w_phase (s_world s) = NotShut.
Proof.
  eapply leads_reachable; [reflexivity|].
  go 1%nat 2%nat owner_release. go 1%nat 2%nat owner_store. go 1%nat 2%nat owner_swap. go 1%nat 2%nat owner_remove. go 1%nat 2%nat owner_prepare.
  go 0%nat 2%nat (accept_client _ _ _ 0%nat).
  go 2%nat 3%nat client_track. go 2%nat 3%nat client_check. go 2%nat 3%nat (client_request _ _ _ _ "" MUX_C_STOP_LISTENING stop_packet).
  go 2%nat 3%nat stop_cas. go 2%nat 3%nat stop_close. go 2%nat 3%nat stop_notify. go 2%nat 3%nat stop_replied. go 2%nat 3%nat stop_swap.
  go 2%nat 3%nat stop_idle. go 2%nat 3%nat client_gone. go 2%nat 3%nat client_close. go 2%nat 3%nat client_untrack. go 0%nat 3%nat accept_ended.
  go 1%nat 3%nat owner_cancel. go 1%nat 3%nat owner_leaves.
  apply leads_here. split_and!; vm_compute; reflexivity.
Qed.

(** When the owner of an [ssh -N] master releases its session just as a stop does, the session is
    counted down twice, and the end begins under another user. *)
Theorem released_twice_cuts_off :
  exists s, reachable (master_init plain_master true) (master_step plain_master true) s /\
    w_forced (s_world s) = false /\ ending (s_world s) = true /\ s_threads s !! 2%nat = Some (SRun 0%nat).
Proof.
  eapply leads_reachable; [reflexivity|]. go 1%nat 2%nat owner_release_on_stop.
  go 0%nat 2%nat (accept_client _ _ _ 0%nat). go 2%nat 3%nat client_track. go 2%nat 3%nat client_check.
  go 2%nat 3%nat (client_request _ _ _ _ "" MUX_C_PROXY stop_packet). go 2%nat 3%nat session_admit. go 2%nat 3%nat session_track. go 2%nat 3%nat session_check.
  go 0%nat 3%nat (accept_client _ _ _ 1%nat). go 3%nat 4%nat client_track. go 3%nat 4%nat client_check.
  go 3%nat 4%nat (client_request _ _ _ _ "" MUX_C_STOP_LISTENING stop_packet).
  go 3%nat 4%nat stop_cas. go 3%nat 4%nat stop_close. go 3%nat 4%nat stop_notify. go 3%nat 4%nat stop_replied. go 3%nat 4%nat stop_swap.
  go 1%nat 4%nat owner_release. go 1%nat 4%nat owner_store. go 1%nat 4%nat owner_swap. go 1%nat 4%nat owner_remove.
  go 3%nat 4%nat stop_store. go 3%nat 4%nat stop_remove.
  apply leads_here. split_and!; vm_compute; reflexivity.
Qed.

(** * Witnesses *)

(** The session the master was started for ends: nobody is left when the end begins. *)
Lemma users_never_cut_off_witness :
  exists s, reachable (master_init plain_master true) (master_step plain_master false) s /\ ending (s_world s) = true /\
    activeSessions (w_idle (s_world s)) = tally session_of (s_threads s) /\
    forall t p, s_threads s !! t = Some p -> session_of p = 0 /\ stream_of p = 0.
Proof.
  assert (exists s, reachable (master_init plain_master true) (master_step plain_master false) s /\ w_forced (s_world s) = false /\ ending (s_world s) = true) as (s & Hr & Hf & He).
  { eapply leads_reachable; [reflexivity|]. go 1%nat 2%nat owner_release. go 1%nat 2%nat owner_store. go 1%nat 2%nat owner_swap.
    go 1%nat 2%nat owner_remove. apply leads_here. split; reflexivity. }
  destruct (users_never_cut_off plain_master false true s eq_refl Hr) as (Es & _ & Hu). exists s. split; [exact Hr|]. split; [exact He|]. split; [exact Es|].
  exact (Hu Hf He).
Defined.

(** The stop of an idle persistent master, in a state that is reached. *)
Lemma unanswered_stop_strands_witness :
  exists w c, reachable (master_init indefinite true) (master_step indefinite false) (answering w c) /\ w_forced w = false /\
    (forall s s', master_step indefinite false (answering w c) s -> s_threads s !! 2%nat = Some (CEnd c) -> rtc (master_step indefinite false) s s' ->
      w_forced (s_world s') = false -> stranded s').
Proof.
  assert (exists s, reachable (master_init indefinite true) (master_step indefinite false) s /\
    exists w c, s = answering w c /\ w_forced w = false /\ deserted w) as (s & Hr & w & c & -> & Hf & Hw).
  { eapply leads_reachable; [reflexivity|].
    go 1%nat 2%nat owner_release. go 1%nat 2%nat owner_store. go 1%nat 2%nat owner_swap. go 1%nat 2%nat owner_remove. go 1%nat 2%nat owner_leaves.
    go 0%nat 2%nat (accept_client _ _ _ 0%nat). go 2%nat 3%nat client_track. go 2%nat 3%nat client_check.
    go 2%nat 3%nat (client_request _ _ _ _ "" MUX_C_STOP_LISTENING stop_packet). go 2%nat 3%nat stop_cas. go 2%nat 3%nat stop_close.
    go 2%nat 3%nat stop_notify. go 0%nat 3%nat accept_ended. apply leads_here. eexists _, 0%nat. split; [reflexivity|]. split; [reflexivity|]. split_and!; reflexivity. }
  exists w, c. split; [exact Hr|]. split; [exact Hf|]. exact (proj2 (proj2 (unanswered_stop_strands indefinite false w c Hw))).
Defined.

(** A stop that was answered and is about to look whether the master is idle. *)
Lemma idle_master_ends_witness :
  exists s, reachable (master_init indefinite true) (master_step indefinite false) s /\
    (w_phase (s_world s) = ShutDone \/ idleTimer (w_idle (s_world s)) = Some (idleGen (w_idle (s_world s)), false) \/
     exists t p, s_threads s !! t = Some p /\ (0 < stopping p \/ 0 < commits p \/ p = PTimer (idleGen (w_idle (s_world s))))).
Proof.
  assert (exists s, reachable (master_init indefinite true) (master_step indefinite false) s /\ w_forced (s_world s) = false /\ w_abandoned (s_world s) = false /\
            map_Forall (fun _ p => session_of p = 0 /\ stream_of p = 0) (s_threads s) /\ stoppedListening (w_flags (s_world s)) = true) as (s & Hr & Hf & Ha & Hu & Hs).
  { eapply leads_reachable; [reflexivity|]. go 1%nat 2%nat owner_release. go 1%nat 2%nat owner_store. go 1%nat 2%nat owner_swap. go 1%nat 2%nat owner_remove.
    go 0%nat 2%nat (accept_client _ _ _ 0%nat). go 2%nat 3%nat client_track. go 2%nat 3%nat client_check.
    go 2%nat 3%nat (client_request _ _ _ _ "" MUX_C_STOP_LISTENING stop_packet). go 2%nat 3%nat stop_cas. go 2%nat 3%nat stop_close.
    go 2%nat 3%nat stop_notify. go 2%nat 3%nat stop_replied. apply leads_here. split_and!; try reflexivity. apply (bool_decide_unpack _). vm_compute. exact I. }
  exists s. split; [exact Hr|]. apply (idle_master_ends indefinite false true s eq_refl Hr Hf Ha); [intros t p Ht; exact (Hu t p Ht)|by left].
Defined.

(** A client is connected when the owner shuts the master down. *)
Lemma shutdown_closes_all_witness :
  exists s, reachable (master_init indefinite true) (master_step indefinite false) s /\ w_phase (s_world s) = ShutDone /\
    s_threads s !! 2%nat = Some (CServe 0%nat) /\ 0%nat ∉ w_open (s_world s).
Proof.
  assert (exists s, reachable (master_init indefinite true) (master_step indefinite false) s /\ w_phase (s_world s) = ShutDone /\
            s_threads s !! 2%nat = Some (CServe 0%nat)) as (s & Hr & Hd & Ht).
  { eapply leads_reachable; [reflexivity|]. go 1%nat 2%nat owner_release. go 1%nat 2%nat owner_store. go 1%nat 2%nat owner_swap. go 1%nat 2%nat owner_remove.
    go 0%nat 2%nat (accept_client _ _ _ 0%nat). go 2%nat 3%nat client_track. go 2%nat 3%nat client_check. go 1%nat 3%nat owner_shutdown.
    go 1%nat 3%nat shutdown_first. go 1%nat 3%nat shutdown_mark. go 1%nat 3%nat shutdown_commit. go 1%nat 3%nat shutdown_unlisten. go 1%nat 3%nat shutdown_range.
    go 1%nat 3%nat shutdown_range2. go 1%nat 3%nat (shutdown_stream _ _ _ _ 0%nat). go 1%nat 3%nat shutdown_finish. apply leads_here. split; reflexivity. }
  exists s. split; [exact Hr|]. split; [exact Hd|]. split; [exact Ht|].
  destruct (shutdown_closes_all indefinite false true s Hr) as [_ H]. destruct (H Hd) as (_ & Hg & _). apply (Hg _ _ _ Ht). constructor.
Defined.

(** A client has told the master to stop, and nobody was notified yet. *)
Lemma drain_never_sleeps_witness :
  exists s, reachable (master_init plain_master true) (master_step plain_master false) s /\ s_threads s !! 3%nat = Some (WWait 0 0) /\
    (w_phase (s_world s) = ShutDone \/ exists t' p, s_threads s !! t' = Some p /\ 0 < wakes p).
Proof.
  assert (exists s, reachable (master_init plain_master true) (master_step plain_master false) s /\ s_threads s !! 3%nat = Some (WWait 0 0) /\
            0%nat = idleNotify (w_idle (s_world s)) /\ drained 0 (s_world s) = true) as (s & Hr & Ht & Hv & Hd).
  { eapply leads_reachable; [reflexivity|]. eapply (leads_drain _ _ _ _ 3%nat 0); [reflexivity|lia|]. go 3%nat 2%nat drain_check.
    go 0%nat 2%nat (accept_client _ _ _ 0%nat). go 2%nat 4%nat client_track. go 2%nat 4%nat client_check.
    go 2%nat 4%nat (client_request _ _ _ _ "" MUX_C_STOP_LISTENING stop_packet). go 2%nat 4%nat stop_cas. apply leads_here. split_and!; reflexivity. }
  exists s. split; [exact Hr|]. split; [exact Ht|]. exact (drain_never_sleeps plain_master false true s 3%nat 0 0%nat eq_refl Hr Ht Hv Hd).
Defined.

(** A request to stop, and a packet of an unknown type. *)
Lemma requests_read_back_witness :
  read_request "unsupported" MUX_C_STOP_LISTENING stop_packet = StopListening 7 /\
  read_request "unsupported" 5 (WriteUint32 9 +:+ "x") = Refused 9 "unsupported".
Proof.
  destruct (requests_read_back "unsupported") as [H1 H2]. split.
  - apply (H1 (StopListening 7)). simpl. unfold uint32. lia.
  - apply H2; [unfold uint32; lia|]. apply (bool_decide_unpack _). vm_compute. exact I.
Defined.
Lemma forward_keys_tell_apart_witness :
  exists q q', key_of q = key_of q' /\ ListenHost q <> ListenHost q' /\ normalizeForwardListenHost (ListenHost q) = normalizeForwardListenHost (ListenHost q').
Proof.
  exists (mkFwd 1 MUX_FWD_LOCAL "" 80 "web" 22), (mkFwd 2 MUX_FWD_LOCAL " " 80 "web" 22). split; [reflexivity|]. split; [discriminate|].
  refine (proj1 (proj2 (proj1 forward_keys_tell_apart _ _ _ _ _ _ _ _ _ _ _ _ _))); try (simpl; unfold MUX_FWD_LOCAL; lia); reflexivity.
Defined.
