(* ===== verification/Vault.v ===== *)
(** The binary formats of the offline credential vault:
    internal/credentialfile/format.  The containers and their fields, the
    publication pointer, the encryption budget, wrapped keys, items, manifests
    and the payload of maintenance transactions, with the primitives of Go's
    crypto packages as an interface.  An identifier, an array or a secret is its
    bytes; an instant is its nanoseconds. *)
From S2P Require Export Wire.
#[local] Open Scope Z_scope.

Definition Version : Z := 1.
Definition MaxIDBytes : Z := 1024.
Definition MaxSecretBytes : Z := 64 * 1024.
Definition MaxMetaBytes : Z := 4096.
Definition MaxItemBytes : Z := 67667.
Definition MaxEncryptions : Z := 2 ^ 20.
Definition MaxManifestBytes : Z := 2 ^ 20.
Definition prefixLen : Z := 16.
Definition manifestHeader : Z := 18.
Definition metaMagic : string := "XOPSMETA".
Definition itemMagic : string := "XOPSITEM".
Definition currentMagic : string := "XOPSCURR".
Definition budgetMagic : string := "XOPSBUDG".
Definition manifestMagic : string := "XOPSMANF".
Definition transactionMagic : string := "XOPSTXNS".

Inductive vault_error := ECorrupt | EUnsupported | EIdentity | ELocked.

(** * The decoder: once it failed it stays failed and reads zero values *)
Record decoder := mkDecoder { d_b : string; d_err : bool }.
Definition D (A : Type) : Type := decoder -> A * decoder.

Definition take (n : Z) : D string := fun d =>
  if d_err d then (EmptyString, d)
  else if (n <? 0) || (len (d_b d) <? n) then (EmptyString, mkDecoder (d_b d) true)
  else (take_bytes (Z.to_nat n) (d_b d), mkDecoder (drop_bytes (Z.to_nat n) (d_b d)) false).
(** [u8] to [u64]: zero for the nil slice of a failed decoder. *)
Definition uint (n : Z) : D Z := fun d => let '(b, d) := take n d in (unbe b, d).
Definition u8 : D Z := uint 1.
Definition u16 : D Z := uint 2.
Definition u32 : D Z := uint 4.
Definition u64 : D Z := uint 8.
Definition id : D string := fun d =>
  let '(n, d) := u16 d in
  if MaxIDBytes <? n then (EmptyString, mkDecoder (d_b d) true) else take n d.
(** [copy(array[:], d.take(n))]: the array keeps its zeros when the decoder failed. *)
Definition zeros (n : nat) : string := be n 0.
Definition take_array (n : nat) : D string := fun d =>
  let '(b, d) := take (Z.of_nat n) d in (if str_eq b "" then zeros n else b, d).

(** Statements that read, and that return early. *)
Definition P (A : Type) : Type := decoder -> result vault_error (A * decoder).
Definition step {A} (m : D A) : P A := fun d => Ok (m d).
Definition ret {A} (a : A) : P A := fun d => Ok (a, d).
Definition bind {A B} (m : P A) (k : A -> P B) : P B := fun d => try (a, d) := m d;; k a d.
Definition return_if (b : bool) (e : vault_error) : P unit := fun d => reject b with e;; Ok (tt, d).
(** [if d.err != nil { return d.err }] and [d.done()]. *)
Definition checked : P unit := fun d => reject d_err d with ECorrupt;; Ok (tt, d).
Definition done_reading : P unit := fun d =>
  reject d_err d with ECorrupt;; reject negb (len (d_b d) =? 0) with ECorrupt;; Ok (tt, d).
Definition validated (v : result vault_error unit) : P unit := fun d => try _ := v;; Ok (tt, d).
(** [len(d.b)] in a condition. *)
Definition remaining : P Z := fun d => Ok (len (d_b d), d).
Notation "'get' x <- m ;; k" := (bind (step m) (fun x => k)) (at level 100, x pattern, m at level 99, k at level 200, right associativity).
Notation "'do' m ;; k" := (bind m (fun _ => k)) (at level 100, m at level 99, k at level 200, right associativity).
Definition run {A} (p : P A) (b : string) : result vault_error A := try (a, _) := p (mkDecoder b false);; Ok a.

(** * Identifiers and containers *)
(** [credential.Ref{StoreID: s, ItemID: "item"}.Validate()] for a non-empty [s]. *)
Definition validateRefIdentifier (val : string) : bool :=
  negb (str_eq (trim_space val) "") && negb (contains_any val ("/\ " +:+ String tab (String creturn (String newline (str1 nul))))).
Definition identifier (s : string) : result vault_error unit :=
  reject str_eq s "" || (MaxIDBytes <? len s) with ECorrupt;;
  reject negb (validateRefIdentifier s) with ECorrupt;;
  Ok tt.

Definition lp (s : string) : string := be 2 (len s) +:+ s.

Definition container (magic fields : string) (payloadLen : Z) : string :=
  magic +:+ be 2 Version +:+ be 2 (prefixLen + len fields) +:+ be 4 payloadLen +:+ fields.

(** [b[i:j]] *)
Definition slice (i j : nat) (b : string) : string := take_bytes (j - i) (drop_bytes i b).

Definition split (b magic : string) (maxBytes : Z) : result vault_error (string * string) :=
  reject (len b <? prefixLen) || (maxBytes <? len b) with ECorrupt;;
  reject negb (str_eq (take_bytes 8 b) magic) with ECorrupt;;
  reject negb (unbe (slice 8 10 b) =? Version) with EUnsupported;;
  let h := unbe (slice 10 12 b) in
  let p := unbe (slice 12 16 b) in
  reject (h <? prefixLen) || (len b <? h) || negb (p =? len b - h) with ECorrupt;;
  Ok (take_bytes (Z.to_nat h) b, drop_bytes (Z.to_nat h) b).
(** [h[prefixLen:]] *)
Definition fields_of (h : string) : string := drop_bytes 16 h.

(** * The primitives of the crypto packages *)

(** AES-256-GCM with a 32 byte key, HKDF and HMAC with SHA-256, and SHA-256. *)
Class Crypto := {
  Seal : string -> string -> string -> string -> string;
  Open : string -> string -> string -> string -> option string;
  hkdf : string -> string -> string -> string;
  hmac : string -> string -> string;
  sha256 : string -> string
}.
(** What the packages document: a sealed text is 16 bytes longer, opens to its
    plaintext, and is the only one that does under its key, nonce and header; keys
    and digests have 32 bytes. *)
Class CryptoLaws `{Crypto} := {
  seal_length k n p a : len (Seal k n p a) = len p + 16;
  open_seal k n p a : Open k n (Seal k n p a) a = Some p;
  open_exact k n c p a : Open k n c a = Some p -> c = Seal k n p a;
  hkdf_length k s i : len (hkdf k s i) = 32;
  hmac_length k m : len (hmac k m) = 32;
  sha256_length m : len (sha256 m) = 32
}.

Definition aead_key (key : string) : result vault_error unit := reject negb (len key =? 32) with ECorrupt;; Ok tt.
Definition derive `{Crypto} (key salt info : string) : result vault_error string :=
  reject negb (len key =? 32) with ECorrupt;; Ok (hkdf key salt info).

(** * The publication pointer *)
Record Current := mkCurrent {
  cur_VaultID : string;
  cur_Revision : Z;
  cur_Generation : Z;
  cur_MetaHash : string
}.
Definition marshal_current (c : Current) : result vault_error string :=
  reject (cur_Revision c =? 0) || (cur_Generation c =? 0) with ECorrupt;;
  Ok (container currentMagic (cur_VaultID c +:+ be 8 (cur_Revision c) +:+ be 8 (cur_Generation c) +:+ cur_MetaHash c) 0).
Definition ParseCurrent (data : string) : result vault_error Current :=
  try (h, p) := split data currentMagic 80;;
  reject negb (len h =? 80) || negb (len p =? 0) with ECorrupt;;
  run (get vault <- take_array 16;;
       get revision <- u64;;
       get generation <- u64;;
       get hash <- take_array 32;;
       do return_if ((revision =? 0) || (generation =? 0)) ECorrupt;;
       ret (mkCurrent vault revision generation hash)) (fields_of h).

(** * The encryption budget *)
Record Budget := mkBudget {
  bud_VaultID : string;
  bud_Generation : Z;
  Consumed : Z;
  Sequence : Z;
  bud_StoreID : string
}.
Definition validate_budget (b : Budget) : result vault_error unit :=
  reject (bud_Generation b =? 0) || (Sequence b =? 0) || (MaxEncryptions <? Consumed b) with ECorrupt;;
  identifier (bud_StoreID b).
Definition budgetKey `{Crypto} (b : Budget) (dek : string) : result vault_error string :=
  derive dek (bud_VaultID b) (lp "XOps/encrypted-file/v1/budget-mac" +:+ lp (bud_StoreID b) +:+ be 8 (bud_Generation b)).
Definition budget_header (b : Budget) : string :=
  container budgetMagic
    (be 2 1 +:+ bud_VaultID b +:+ be 8 (bud_Generation b) +:+ be 8 (Consumed b) +:+ be 8 (Sequence b) +:+ lp (bud_StoreID b)) 32.
Definition SealBudget `{Crypto} (b : Budget) (dek : string) : result vault_error string :=
  try _ := validate_budget b;;
  try k := budgetKey b dek;;
  Ok (budget_header b +:+ hmac k (budget_header b)).
Definition parse_budget (h : string) : result vault_error Budget :=
  run (get suite <- u16;;
       do checked;;
       do return_if (negb (suite =? 1)) EUnsupported;;
       get vault <- take_array 16;;
       get generation <- u64;;
       get consumed <- u64;;
       get sequence <- u64;;
       get store <- id;;
       do done_reading;;
       do validated (validate_budget (mkBudget vault generation consumed sequence store));;
       ret (mkBudget vault generation consumed sequence store)) (fields_of h).
Definition OpenBudget `{Crypto} (data dek vaultID : string) (generation : Z) (storeID : string) : result vault_error Budget :=
  try (h, p) := split data budgetMagic (60 + MaxIDBytes + 32);;
  reject negb (len p =? 32) with ECorrupt;;
  try b := parse_budget h;;
  try k := budgetKey b dek;;
  reject negb (str_eq p (hmac k h)) with ECorrupt;;
  reject negb (str_eq (bud_VaultID b) vaultID) || negb (bud_Generation b =? generation) || negb (str_eq (bud_StoreID b) storeID) with EIdentity;;
  Ok b.

(** * Wrapped keys *)
Definition WrapPassword : Z := 1.
Definition WrapKeyFile : Z := 2.
Record Meta := mkMeta {
  Suite : Z;
  meta_VaultID : string;
  meta_Generation : Z;
  meta_Revision : Z;
  Salt : string;
  meta_Nonce : string;
  meta_StoreID : string
}.
Definition validate_meta (m : Meta) : result vault_error unit :=
  reject negb (Suite m =? WrapPassword) && negb (Suite m =? WrapKeyFile) with EUnsupported;;
  let n := if Suite m =? WrapKeyFile then 32 else 16 in
  reject negb (len (Salt m) =? n) || (meta_Generation m =? 0) || (meta_Revision m =? 0) with ECorrupt;;
  identifier (meta_StoreID m).
Definition meta_fields (m : Meta) : string :=
  let '(memory, iterations, parallel) := if Suite m =? WrapPassword then (65536, 3, 1) else (0, 0, 0) in
  be 2 (Suite m) +:+ be 2 1 +:+ meta_VaultID m +:+ be 8 (meta_Generation m) +:+ be 8 (meta_Revision m) +:+
  be 4 memory +:+ be 4 iterations +:+ be 1 parallel +:+ be 1 (len (Salt m)) +:+ Salt m +:+ meta_Nonce m +:+ lp (meta_StoreID m).
Definition metaHeader (m : Meta) : result vault_error string :=
  try _ := validate_meta m;; Ok (container metaMagic (meta_fields m) 48).
Definition validParameters (s memory iterations parallel : Z) : bool :=
  if s =? WrapPassword then (memory =? 65536) && (iterations =? 3) && (parallel =? 1)
  else (s =? WrapKeyFile) && (memory =? 0) && (iterations =? 0) && (parallel =? 0).
Definition parse_meta (h : string) : result vault_error Meta :=
  run (get suite <- u16;;
       get itemSuite <- u16;;
       do checked;;
       do return_if (negb (itemSuite =? 1)) EUnsupported;;
       get vault <- take_array 16;;
       get generation <- u64;;
       get revision <- u64;;
       get memory <- u32;;
       get iterations <- u32;;
       get parallel <- u8;;
       get saltLen <- u8;;
       do return_if (negb (saltLen =? 16) && negb (saltLen =? 32)) ECorrupt;;
       get salt <- take saltLen;;
       get nonce <- take_array 12;;
       get store <- id;;
       do done_reading;;
       do validated (validate_meta (mkMeta suite vault generation revision salt nonce store));;
       do return_if (negb (validParameters suite memory iterations parallel)) EUnsupported;;
       ret (mkMeta suite vault generation revision salt nonce store)) (fields_of h).
Definition ParseMeta (data : string) : result vault_error Meta :=
  try (h, p) := split data metaMagic MaxMetaBytes;;
  reject negb (len p =? 48) with ECorrupt;;
  parse_meta h.
Definition KeyFileWrappingKey `{Crypto} (m : Meta) (key : string) : result vault_error string :=
  try _ := validate_meta m;;
  reject negb (Suite m =? WrapKeyFile) with EUnsupported;;
  derive key (Salt m) (lp "XOps/encrypted-file/v1/key-file-wrap" +:+ meta_VaultID m +:+ lp (meta_StoreID m)).
Definition SealMeta `{Crypto} (m : Meta) (wrappingKey dek : string) : result vault_error string :=
  reject negb (len dek =? 32) with ECorrupt;;
  try h := metaHeader m;;
  try _ := aead_key wrappingKey;;
  Ok (h +:+ Seal wrappingKey (meta_Nonce m) dek h).
Definition OpenMeta `{Crypto} (data wrappingKey storeID : string) : result vault_error (Meta * string) :=
  try m := ParseMeta data;;
  try _ := aead_key wrappingKey;;
  try (h, p) := split data metaMagic MaxMetaBytes;;
  match Open wrappingKey (meta_Nonce m) p h with
  | None => Err ELocked
  | Some dek => reject negb (str_eq (meta_StoreID m) storeID) with EIdentity;; Ok (m, dek)
  end.
(** [Current.Matches] *)
Definition Matches `{Crypto} (c : Current) (data : string) (m : Meta) : bool :=
  str_eq (cur_VaultID c) (meta_VaultID m) && (cur_Revision c =? meta_Revision m) && (cur_Generation c =? meta_Generation m) &&
  str_eq (cur_MetaHash c) (sha256 data).

(** * Items *)
Record ItemIdentity := mkIdentity {
  it_VaultID : string;
  it_Generation : Z;
  it_StoreID : string;
  it_ItemID : string
}.
Definition validate_identity (i : ItemIdentity) : result vault_error unit :=
  reject it_Generation i =? 0 with ECorrupt;;
  try _ := identifier (it_StoreID i);;
  identifier (it_ItemID i).
#[export] Instance ItemIdentity_eq_dec : EqDecision ItemIdentity.
Proof. solve_decision. Defined.

Record Secret := mkSecret { Value : string; ExpiresAt : option Z }.

(** [UnixNano] wraps to 64 bits; [signed64] reads them back. *)
Definition signed64 (v : Z) : Z := let v := v mod 2 ^ 64 in if v <? 2 ^ 63 then v else v - 2 ^ 64.
Definition expiryFields (s : Secret) : result vault_error (Z * Z) :=
  match ExpiresAt s with
  | None => Ok (0, 0)
  | Some t => reject negb (signed64 t =? t) with ECorrupt;; Ok (1, signed64 t)
  end.
Definition item_header (i : ItemIdentity) (nonce : string) (flag expires : Z) (payloadLen : Z) : string :=
  container itemMagic
    (be 2 1 +:+ it_VaultID i +:+ be 8 (it_Generation i) +:+ nonce +:+ be 1 flag +:+ be 8 expires +:+ lp (it_StoreID i) +:+ lp (it_ItemID i))
    payloadLen.
Definition SealItem `{Crypto} (i : ItemIdentity) (nonce key : string) (secret : Secret) : result vault_error string :=
  try _ := validate_identity i;;
  reject (len (Value secret) =? 0) || (MaxSecretBytes <? len (Value secret)) with ECorrupt;;
  try (flag, expires) := expiryFields secret;;
  let h := item_header i nonce flag expires (len (Value secret) + 16) in
  try _ := aead_key key;;
  Ok (h +:+ Seal key nonce (Value secret) h).
Definition parseItemHeader (h : string) : result vault_error (ItemIdentity * string * option Z) :=
  run (get suite <- u16;;
       do checked;;
       do return_if (negb (suite =? 1)) EUnsupported;;
       get vault <- take_array 16;;
       get generation <- u64;;
       get nonce <- take_array 12;;
       get flag <- u8;;
       get n <- u64;;
       do return_if ((1 <? flag) || ((flag =? 0) && negb (signed64 n =? 0))) ECorrupt;;
       get store <- id;;
       get item <- id;;
       do done_reading;;
       do validated (validate_identity (mkIdentity vault generation store item));;
       ret (mkIdentity vault generation store item, nonce, if flag =? 1 then Some (signed64 n) else None)) (fields_of h).
(** The header and the ciphertext of an item. *)
Definition split_item (data : string) : result vault_error (string * string) :=
  try (h, p) := split data itemMagic MaxItemBytes;;
  reject (len p <? 17) || (MaxSecretBytes + 16 <? len p) with ECorrupt;;
  Ok (h, p).
Definition OpenItem `{Crypto} (data key : string) (expected : ItemIdentity) : result vault_error Secret :=
  try _ := validate_identity expected;;
  try (h, p) := split_item data;;
  try (identity, nonce, expires) := parseItemHeader h;;
  try _ := aead_key key;;
  match Open key nonce p h with
  | None => Err ECorrupt
  | Some value => reject negb (bool_decide (identity = expected)) with EIdentity;; Ok (mkSecret value expires)
  end.
Definition InspectItem (data : string) : result vault_error ItemIdentity :=
  try (h, _) := split_item data;;
  try (identity, _, _) := parseItemHeader h;;
  Ok identity.

(** * Manifests *)
Record ManifestEntry := mkEntry { e_ItemID : string; FileSize : Z; Hash : string }.
Definition validate_entry (e : ManifestEntry) : result vault_error unit :=
  try _ := identifier (e_ItemID e);;
  reject (FileSize e <? 86) || (MaxItemBytes <? FileSize e) with ECorrupt;;
  Ok tt.
Record ManifestBlock := mkBlock { Index : Z; Entries : list ManifestEntry }.

Definition entry_bytes (e : ManifestEntry) : string := lp (e_ItemID e) +:+ be 4 (FileSize e) +:+ Hash e.

(** The loop of [MarshalBinary] over the entries; [prev] is the entry before. *)
Fixpoint check_entries (prev : option string) (size : Z) (es : list ManifestEntry) : result vault_error Z :=
  match es with
  | [] => Ok size
  | e :: es =>
      try _ := validate_entry e;;
      reject match prev with Some p => negb (String.ltb p (e_ItemID e)) | None => false end with ECorrupt;;
      let size := size + (2 + len (e_ItemID e) + 4 + 32) in
      reject MaxManifestBytes <? size with ECorrupt;;
      check_entries (Some (e_ItemID e)) size es
  end.
Definition marshal_block (m : ManifestBlock) : result vault_error string :=
  reject (MaxEncryptions <=? Index m) || (Z.of_nat (length (Entries m)) =? 0) || (MaxEncryptions <? Z.of_nat (length (Entries m))) with ECorrupt;;
  try _ := check_entries None manifestHeader (Entries m);;
  Ok (manifestMagic +:+ be 2 Version +:+ be 4 (Index m) +:+ be 4 (Z.of_nat (length (Entries m))) +:+
      String.concat "" (map entry_bytes (Entries m))).

(** [for range count] *)
Fixpoint parse_entries (prev : option string) (count : nat) : P (list ManifestEntry) :=
  match count with
  | O => ret []
  | S count =>
      get item <- id;;
      get size <- u32;;
      get hash <- take_array 32;;
      do checked;;
      do validated (validate_entry (mkEntry item size hash));;
      do return_if match prev with Some p => negb (String.ltb p item) | None => false end ECorrupt;;
      bind (parse_entries (Some item) count) (fun es => ret (mkEntry item size hash :: es))
  end.
Definition ParseManifestBlock (data : string) : result vault_error ManifestBlock :=
  reject (len data <? manifestHeader) || (MaxManifestBytes <? len data) with ECorrupt;;
  reject negb (str_eq (take_bytes 8 data) manifestMagic) with ECorrupt;;
  reject negb (unbe (slice 8 10 data) =? Version) with EUnsupported;;
  run (get index <- u32;;
       get count <- u32;;
       bind remaining (fun left =>
       do return_if ((MaxEncryptions <=? index) || (count =? 0) || (left / 39 <? count)) ECorrupt;;
       bind (parse_entries None (Z.to_nat count)) (fun es =>
       do done_reading;;
       ret (mkBlock index es)))) (drop_bytes 10 data).

Definition root_header (blocks : Z) : string := "XOps/manifest/v1" +:+ be 4 blocks.
Definition ManifestRoot `{Crypto} (hashes : list string) : result vault_error string :=
  reject MaxEncryptions <? Z.of_nat (length hashes) with ECorrupt;;
  Ok (sha256 (root_header (Z.of_nat (length hashes)) +:+ String.concat "" hashes)).

(** The verifier of a manifest; [v_hashed] is what its hash was fed. *)
Record ManifestVerifier := mkVerifier {
  v_hashed : string;
  expectedBlocks : Z;
  expectedItems : Z;
  v_blocks : Z;
  v_items : Z;
  lastID : string;
  finished : bool
}.
Definition NewManifestVerifier (blocks items : Z) : result vault_error ManifestVerifier :=
  reject (MaxEncryptions <? blocks) || (MaxEncryptions <? items) || (items <? blocks) || ((blocks =? 0) && negb (items =? 0)) with ECorrupt;;
  Ok (mkVerifier (root_header blocks) blocks items 0 0 EmptyString false).
Definition first_id (es : list ManifestEntry) : string := match es with e :: _ => e_ItemID e | [] => EmptyString end.
Definition last_id (es : list ManifestEntry) : string := match last es with Some e => e_ItemID e | None => EmptyString end.
Definition Add `{Crypto} (data : string) (v : ManifestVerifier) : result vault_error unit * ManifestVerifier :=
  if finished v || (expectedBlocks v <=? v_blocks v) then (Err ECorrupt, v)
  else match ParseManifestBlock data with
       | Err e => (Err e, v)
       | Ok m =>
           if negb (Index m =? v_blocks v) || ((0 <? v_blocks v) && negb (String.ltb (lastID v) (first_id (Entries m)))) then (Err ECorrupt, v)
           else if expectedItems v - v_items v <? Z.of_nat (length (Entries m)) then (Err ECorrupt, v)
           else (Ok tt, mkVerifier (v_hashed v +:+ sha256 data) (expectedBlocks v) (expectedItems v) (v_blocks v + 1)
                          (v_items v + Z.of_nat (length (Entries m))) (last_id (Entries m)) false)
       end.
Definition Finish `{Crypto} (expected : string) (v : ManifestVerifier) : result vault_error unit * ManifestVerifier :=
  if finished v then (Err ECorrupt, v)
  else (reject negb (v_blocks v =? expectedBlocks v) || negb (v_items v =? expectedItems v) with ECorrupt;;
        reject negb (str_eq (sha256 (v_hashed v)) expected) with ECorrupt;;
        Ok tt,
        mkVerifier (v_hashed v) (expectedBlocks v) (expectedItems v) (v_blocks v) (v_items v) (lastID v) true).

(** * Maintenance transactions *)
Definition OpInit : Z := 1.
Definition OpRewrap : Z := 2.
Definition OpReencrypt : Z := 3.
Definition OpRestore : Z := 4.
Definition OpClone : Z := 5.
Definition OpPrune : Z := 6.
Definition Prepared : Z := 1.
Definition Building : Z := 2.
Definition Verified : Z := 3.
Definition Published : Z := 4.
Definition Committed : Z := 5.
Definition CleanupPending : Z := 6.

Record Endpoint := mkEndpoint {
  ep_VaultID : string;
  ep_StoreID : string;
  ep_Revision : Z;
  ep_Generation : Z;
  ep_MetaHash : string;
  ep_ManifestRoot : string;
  ItemCount : Z
}.
#[export] Instance Endpoint_eq_dec : EqDecision Endpoint.
Proof. solve_decision. Defined.
Definition zero_endpoint : Endpoint := mkEndpoint (zeros 16) EmptyString 0 0 (zeros 32) (zeros 32) 0.
Definition validate_endpoint (e : Endpoint) : result vault_error unit :=
  reject (ep_Revision e =? 0) || (ep_Generation e =? 0) || (MaxEncryptions <? ItemCount e) with ECorrupt;;
  identifier (ep_StoreID e).

Record Transaction := mkTransaction {
  OperationID : string;
  t_Operation : Z;
  t_Stage : Z;
  Source : Endpoint;
  Target : Endpoint;
  CleanupRevisions : list Z
}.

Definition no_hash (h : string) : bool := str_eq h (zeros 32).
Definition validateRelations (t : Transaction) : result vault_error unit :=
  let s := Source t in
  let d := Target t in
  let sameVault := str_eq (ep_VaultID s) (ep_VaultID d) && str_eq (ep_StoreID s) (ep_StoreID d) in
  let op := t_Operation t in
  reject (if op =? OpRewrap then negb sameVault || negb (ep_Generation s =? ep_Generation d) || (ep_Revision d <=? ep_Revision s)
          else if (op =? OpReencrypt) || (op =? OpRestore)
               then negb sameVault || (ep_Generation d <=? ep_Generation s) || (ep_Revision d <=? ep_Revision s)
          else if op =? OpClone then str_eq (ep_VaultID s) (ep_VaultID d)
          else if op =? OpPrune then negb (bool_decide (s = d))
          else false) with ECorrupt;;
  reject negb (op =? OpInit) && (no_hash (ep_MetaHash s) || no_hash (ep_ManifestRoot s)) with ECorrupt;;
  reject (Verified <=? t_Stage t) && (no_hash (ep_MetaHash d) || no_hash (ep_ManifestRoot d)) with ECorrupt;;
  Ok tt.

(** The loop over the revisions to clean up. *)
Fixpoint check_cleanup (target : Z) (prev : option Z) (ns : list Z) : result vault_error unit :=
  match ns with
  | [] => Ok tt
  | n :: ns =>
      reject (n =? 0) || (n =? target) || match prev with Some p => n <=? p | None => false end with ECorrupt;;
      check_cleanup target (Some n) ns
  end.
Definition validate_transaction (t : Transaction) : result vault_error unit :=
  let op := t_Operation t in
  let cleanup := Z.of_nat (length (CleanupRevisions t)) in
  reject (op <? OpInit) || (OpPrune <? op) || (t_Stage t <? Prepared) || (CleanupPending <? t_Stage t) with EUnsupported;;
  reject str_eq (OperationID t) (zeros 16) with ECorrupt;;
  try _ := validate_endpoint (Target t);;
  try _ := (if op =? OpInit then reject_if (negb (bool_decide (Source t = zero_endpoint))) ECorrupt
            else validate_endpoint (Source t));;
  reject (256 <? cleanup) || ((0 <? cleanup) && negb (op =? OpPrune)) with ECorrupt;;
  try _ := check_cleanup (ep_Revision (Target t)) None (CleanupRevisions t);;
  validateRelations t.

Definition payload_bytes (t : Transaction) : string :=
  let s := Source t in
  let d := Target t in
  transactionMagic +:+ be 2 Version +:+ OperationID t +:+ be 1 (t_Operation t) +:+ be 1 (t_Stage t) +:+
  ep_VaultID s +:+ ep_VaultID d +:+ lp (ep_StoreID s) +:+ lp (ep_StoreID d) +:+
  be 8 (ep_Revision s) +:+ be 8 (ep_Revision d) +:+ be 8 (ep_Generation s) +:+ be 8 (ep_Generation d) +:+
  ep_MetaHash s +:+ ep_MetaHash d +:+ ep_ManifestRoot s +:+ ep_ManifestRoot d +:+
  be 8 (ItemCount s) +:+ be 8 (ItemCount d) +:+ be 2 (Z.of_nat (length (CleanupRevisions t))) +:+
  String.concat "" (map (be 8) (CleanupRevisions t)).
Definition payload (t : Transaction) : result vault_error string :=
  try _ := validate_transaction t;; Ok (payload_bytes t).

Fixpoint read_revisions (count : nat) : P (list Z) :=
  match count with
  | O => ret []
  | S count => get n <- u64;; bind (read_revisions count) (fun ns => ret (n :: ns))
  end.
Definition parseTransactionPayload (b : string) : result vault_error Transaction :=
  reject (len b <? 10) || negb (str_eq (take_bytes 8 b) transactionMagic) with ECorrupt;;
  reject negb (unbe (slice 8 10 b) =? Version) with EUnsupported;;
  run (get operationID <- take_array 16;;
       get operation <- u8;;
       get stage <- u8;;
       get sVault <- take_array 16;;
       get dVault <- take_array 16;;
       get sStore <- id;;
       get dStore <- id;;
       get sRevision <- u64;;
       get dRevision <- u64;;
       get sGeneration <- u64;;
       get dGeneration <- u64;;
       get sMeta <- take_array 32;;
       get dMeta <- take_array 32;;
       get sRoot <- take_array 32;;
       get dRoot <- take_array 32;;
       get sCount <- u64;;
       get dCount <- u64;;
       get count <- u16;;
       bind remaining (fun left =>
       do return_if ((256 <? count) || (left / 8 <? count)) ECorrupt;;
       bind (read_revisions (Z.to_nat count)) (fun revisions =>
       do done_reading;;
       let t := mkTransaction operationID operation stage
                  (mkEndpoint sVault sStore sRevision sGeneration sMeta sRoot sCount)
                  (mkEndpoint dVault dStore dRevision dGeneration dMeta dRoot dCount) revisions in
       do validated (validate_transaction t);;
       ret t))) (drop_bytes 10 b).

(** [transactionMAC] *)
Definition transactionMAC `{Crypto} (e : Endpoint) (key payload : string) : result vault_error string :=
  try _ := validate_endpoint e;;
  try k := derive key (ep_VaultID e) (lp "XOps/encrypted-file/v1/transaction-mac" +:+ lp (ep_StoreID e) +:+ be 8 (ep_Generation e));;
  Ok (hmac k payload).

(** The three fields of the state envelope, decoded: a MAC is empty without its key. *)
Record envelope := mkEnvelope { env_payload : string; source_mac : string; target_mac : string }.
Definition mac_or_empty `{Crypto} (e : Endpoint) (key p : string) : result vault_error string :=
  if str_eq key "" then Ok EmptyString else transactionMAC e key p.
(** [SealTransaction] up to its encoding as JSON, and [OpenTransaction] after its
    decoding. *)
Definition SealTransaction `{Crypto} (t : Transaction) (sourceKey targetKey : string) : result vault_error envelope :=
  try p := payload t;;
  reject str_eq sourceKey "" && str_eq targetKey "" with ECorrupt;;
  try s := mac_or_empty (Source t) sourceKey p;;
  try d := mac_or_empty (Target t) targetKey p;;
  Ok (mkEnvelope p s d).
Record KeyIdentity := mkKeyIdentity { k_VaultID : string; k_Generation : Z; k_StoreID : string }.
Definition OpenTransaction `{Crypto} (fields : result vault_error envelope) (key : string) (expected : KeyIdentity) (target : bool)
    : result vault_error Transaction :=
  reject (k_Generation expected =? 0) || negb (is_ok (identifier (k_StoreID expected))) with EIdentity;;
  try env := fields;;
  try t := parseTransactionPayload (env_payload env);;
  let e := if target then Target t else Source t in
  reject negb (str_eq (ep_VaultID e) (k_VaultID expected)) || negb (ep_Generation e =? k_Generation expected) ||
         negb (str_eq (ep_StoreID e) (k_StoreID expected)) with EIdentity;;
  try m := transactionMAC e key (env_payload env);;
  reject negb (str_eq m (if target then target_mac env else source_mac env)) with ECorrupt;;
  Ok t.

(** * Reading as a relation *)

(** [p] reads [a] from [b] without failing, and [r] is left. *)
Definition runs {A} (p : P A) (b : string) (a : A) (r : string) : Prop := p (mkDecoder b false) = Ok (a, mkDecoder r false).

(** A program that started failed never recovers; one that keeps the decoder; one
    that only returns when everything was read. *)
Class Sticky {A} (p : P A) : Prop := sticky : forall d a d', p d = Ok (a, d') -> d_err d = true -> d_err d' = true.
Class Keeps {A} (p : P A) : Prop := keeps : forall d a d', p d = Ok (a, d') -> d' = d.
Class Ends {A} (p : P A) : Prop := ends : forall d a d', p d = Ok (a, d') -> d' = mkDecoder EmptyString false.

#[global] Instance keeps_sticky {A} (p : P A) : Keeps p -> Sticky p.
Proof. intros K d a d' H He. by rewrite (K d a d' H). Qed.
#[global] Instance keeps_ret {A} (a : A) : Keeps (ret a).
Proof. intros d x d' H. by apply Ok_inj, pair_eq in H as [_ <-]. Qed.
#[global] Instance keeps_return_if b e : Keeps (return_if b e).
Proof. intros d x d' H. unfold return_if in H. result_inv. by apply pair_eq in H as [_ <-]. Qed.
#[global] Instance keeps_checked : Keeps checked.
Proof. intros d x d' H. unfold checked in H. result_inv. by apply pair_eq in H as [_ <-]. Qed.
#[global] Instance keeps_done : Keeps done_reading.
Proof. intros d x d' H. unfold done_reading in H. result_inv. by apply pair_eq in H as [_ <-]. Qed.
#[global] Instance keeps_validated v : Keeps (validated v).
Proof. intros d x d' H. unfold validated in H. result_inv. by apply pair_eq in H as [_ <-]. Qed.
#[global] Instance keeps_remaining : Keeps remaining.
Proof. intros d x d' H. by apply Ok_inj, pair_eq in H as [_ <-]. Qed.
#[global] Instance keeps_bind {A B} (m : P A) (k : A -> P B) : Keeps m -> (forall a, Keeps (k a)) -> Keeps (bind m k).
Proof. intros Hm Hk d c d' H. apply result_bind_ok in H as ([a d1] & H1 & H2). rewrite (Hk a _ _ _ H2). by apply (Hm _ _ _ H1). Qed.
#[global] Instance sticky_bind {A B} (m : P A) (k : A -> P B) : Sticky m -> (forall a, Sticky (k a)) -> Sticky (bind m k).
Proof. intros Hm Hk d c d' H He. apply result_bind_ok in H as ([a d1] & H1 & H2). apply (Hk a _ _ _ H2). by apply (Hm _ _ _ H1). Qed.
#[global] Instance ends_bind {A B} (m : P A) (k : A -> P B) : (forall a, Ends (k a)) -> Ends (bind m k).
Proof. intros Hk d c d' H. apply result_bind_ok in H as ([a d1] & H1 & H2). by apply (Hk a _ _ _ H2). Qed.
#[global] Instance ends_done {B} (k : unit -> P B) : (forall a, Keeps (k a)) -> Ends (bind done_reading k) | 0.
Proof.
  intros Hk d c d' H. apply result_bind_ok in H as ([a d1] & H1 & H2). rewrite (Hk a _ _ _ H2). rewrite (keeps_done _ _ _ H1).
  unfold done_reading in H1. result_inv. bool_facts. match goal with H : len _ = 0 |- _ => apply len_zero in H end. destruct d. simpl in *. by subst.
Qed.

Lemma take_failed n d : d_err d = true -> (take n d).2 = d.
Proof. intros He. unfold take. by rewrite He. Qed.
Lemma sticky_step {A} (m : D A) : (forall d, d_err d = true -> d_err (m d).2 = true) -> Sticky (step m).
Proof. intros Hm d a d' H He. apply Ok_inj in H. specialize (Hm d He). by rewrite H in Hm. Qed.
#[global] Instance sticky_take n : Sticky (step (take n)).
Proof. apply sticky_step. intros d He. by rewrite take_failed. Qed.
Lemma uint_failed n d : d_err d = true -> (uint n d).2 = d.
Proof. intros He. unfold uint. pose proof (take_failed n d He) as Ht. destruct (take n d) as [b d']. simpl in *. by subst. Qed.
#[global] Instance sticky_uint n : Sticky (step (uint n)).
Proof. apply sticky_step. intros d He. by rewrite uint_failed. Qed.
#[global] Instance sticky_array n : Sticky (step (take_array n)).
Proof.
  apply sticky_step. intros d He. unfold take_array. pose proof (take_failed (Z.of_nat n) d He) as Ht.
  destruct (take _ d) as [b d']. simpl in *. by subst.
Qed.
#[global] Instance sticky_id : Sticky (step id).
Proof.
  apply sticky_step. intros d He. unfold id, u16. pose proof (uint_failed 2 d He) as Ht. destruct (uint 2 d) as [n d']. simpl in Ht. subst d'.
  destruct (_ <? _); [done|]. by rewrite take_failed.
Qed.

Lemma runs_bind {A B} (m : P A) (k : A -> P B) b c r : (forall a, Sticky (k a)) ->
  runs (bind m k) b c r <-> exists a b', runs m b a b' /\ runs (k a) b' c r.
Proof.
  intros Hk. unfold runs, bind. rewrite result_bind_ok. split.
  - intros ([a [b' e]] & H1 & H2). destruct e; [by pose proof (Hk a _ _ _ H2 eq_refl)|]. by exists a, b'.
  - intros (a & b' & H1 & H2). by exists (a, mkDecoder b' false).
Qed.
Lemma runs_ret {A} (x : A) b a r : runs (ret x) b a r <-> a = x /\ r = b.
Proof. unfold runs, ret. split; [intros H; by apply Ok_inj, pair_eq in H as [<- [= <-]]|by intros [-> ->]]. Qed.
Lemma runs_return_if c e b u r : runs (return_if c e) b u r <-> c = false /\ r = b.
Proof.
  unfold runs, return_if. rewrite bind_reject_ok. split; intros [-> H]; (split; [done|]).
  - by apply Ok_inj, pair_eq in H as [_ [= <-]].
  - by destruct u; subst.
Qed.
Lemma runs_checked b u r : runs checked b u r <-> r = b.
Proof. unfold runs, checked. rewrite bind_reject_ok. simpl. destruct u. split; [intros [_ H]; by apply Ok_inj, pair_eq in H as [_ [= <-]]|by intros ->]. Qed.
Lemma runs_done b u r : runs done_reading b u r <-> b = "" /\ r = "".
Proof.
  unfold runs, done_reading. rewrite !bind_reject_ok. simpl. rewrite negb_false_iff, Z.eqb_eq, len_zero. destruct u. split.
  - intros (_ & -> & H). by apply Ok_inj, pair_eq in H as [_ [= <-]].
  - by intros [-> ->].
Qed.
Lemma runs_validated v b u r : runs (validated v) b u r <-> v = Ok tt /\ r = b.
Proof.
  unfold runs, validated. rewrite result_bind_ok. destruct u. split.
  - intros ([] & Hv & H). by apply Ok_inj, pair_eq in H as [_ [= <-]].
  - intros [-> ->]. by exists tt.
Qed.
Lemma runs_remaining b n r : runs remaining b n r <-> n = len b /\ r = b.
Proof. unfold runs, remaining. split; [intros H; by apply Ok_inj, pair_eq in H as [<- [= <-]]|by intros [-> ->]]. Qed.

Lemma runs_take n b v r : 0 <= n -> runs (step (take n)) b v r <-> len v = n /\ b = v +:+ r.
Proof.
  intros Hn. unfold runs, step, take. simpl. destruct (Z.ltb_spec n 0); [lia|]. simpl. split.
  - destruct (Z.ltb_spec (len b) n); intros E; apply Ok_inj, pair_eq in E as [<- E]; [done|]. injection E as <-. unfold len in *.
    rewrite take_bytes_length by lia. rewrite take_drop by lia. split; [lia|done].
  - intros [<- ->]. rewrite len_app. destruct (Z.ltb_spec (len v + len r) (len v)); [pose proof (len_pos r); lia|].
    unfold len. by rewrite Nat2Z.id, take_bytes_app, drop_bytes_app.
Qed.
Definition word (n : nat) (v : Z) : Prop := 0 <= v < 256 ^ Z.of_nat n.
Lemma runs_uint (n : nat) b v r : runs (step (uint (Z.of_nat n))) b v r <-> word n v /\ b = be n v +:+ r.
Proof.
  assert (H : runs (step (uint (Z.of_nat n))) b v r <-> exists s, runs (step (take (Z.of_nat n))) b s r /\ unbe s = v).
  { unfold runs, step, uint. destruct (take _ _) as [s d]. split.
    - intros E. apply Ok_inj, pair_eq in E as [<- ->]. by exists s.
    - intros (s' & E & <-). by apply Ok_inj, pair_eq in E as [<- ->]. }
  rewrite H. setoid_rewrite runs_take; [|lia]. unfold word. split.
  - intros (s & [Hl ->] & <-). assert (Hn : String.length s = n) by (unfold len in Hl; lia). pose proof (unbe_range s) as Hr. rewrite Hn in Hr.
    split; [done|]. by rewrite be_unbe_n.
  - intros [Hv ->]. exists (be n v). split; [split; [unfold len; by rewrite be_length|done]|]. by apply unbe_be_small.
Qed.
Lemma runs_array (n : nat) b v r : (0 < n)%nat -> runs (step (take_array n)) b v r <-> String.length v = n /\ b = v +:+ r.
Proof.
  intros Hn. assert (H : runs (step (take_array n)) b v r <-> runs (step (take (Z.of_nat n))) b v r).
  { unfold runs, step, take_array. destruct (take (Z.of_nat n) (mkDecoder b false)) as [s d] eqn:E. split; intros Hx; apply Ok_inj, pair_eq in Hx as [Hx ->].
    - destruct (str_eq s "") eqn:Es; [|by subst]. apply str_eq_spec in Es as ->.
      assert (Hr : runs (step (take (Z.of_nat n))) b "" r) by (unfold runs, step; by rewrite E). apply runs_take in Hr as [Hl _]; [|lia].
      unfold len in Hl. simpl in Hl. lia.
    - subst s. assert (Hr : runs (step (take (Z.of_nat n))) b v r) by (unfold runs, step; by rewrite E). apply runs_take in Hr as [Hl _]; [|lia].
      rewrite (proj2 (str_eq_false v "")); [done|]. intros ->. unfold len in Hl. simpl in Hl. lia. }
  rewrite H, runs_take by lia. unfold len. split; intros [? ?]; (split; [lia|done]).
Qed.
Lemma runs_id b s r : runs (step id) b s r <-> len s <= MaxIDBytes /\ b = lp s +:+ r.
Proof.
  assert (H : runs (step id) b s r <-> exists n b', runs (step (uint (Z.of_nat 2))) b n b' /\ n <= MaxIDBytes /\ runs (step (take n)) b' s r).
  { unfold runs, step, id, u16. change (Z.of_nat 2) with 2. destruct (uint 2 (mkDecoder b false)) as [n d] eqn:E. split.
    - destruct (Z.ltb_spec MaxIDBytes n); intros Hx; apply Ok_inj in Hx; [done|]. exists n, (d_b d). destruct d as [b' e]. simpl in *.
      destruct e; [|by rewrite <- Hx]. unfold take in Hx. simpl in Hx. apply pair_eq in Hx as [_ [=]].
    - intros (n' & b' & H1 & H2 & H3). apply Ok_inj, pair_eq in H1 as [-> ->]. destruct (Z.ltb_spec MaxIDBytes n'); [lia|done]. }
  rewrite H. setoid_rewrite runs_uint. unfold lp, word, MaxIDBytes. split.
  - intros (n & b' & [Hn ->] & Hle & Ht). apply runs_take in Ht as [Hl ->]; [|lia]. subst n. split; [done|]. by rewrite <- app_assoc_str.
  - intros [Hl ->]. exists (len s), (s +:+ r). pose proof (len_pos s). split_and!; [simpl; lia|simpl; unfold MaxIDBytes in Hl; lia|by rewrite <- app_assoc_str|done|]. by apply runs_take.
Qed.
Lemma run_ends {A} (p : P A) b a : Ends p -> run p b = Ok a <-> runs p b a "".
Proof.
  intros He. unfold run, runs. rewrite result_bind_ok. split.
  - intros ([x d] & H & E). apply Ok_inj in E as ->. by rewrite (He _ _ _ H) in H.
  - intros H. by exists (a, mkDecoder "" false).
Qed.

(** [unread] turns a program that ran into the bytes that it read; [reread] runs
    one on them. *)
Ltac runs_step H :=
  match type of H with
  | runs (step u8) _ _ _ => apply (runs_uint 1) in H
  | runs (step u16) _ _ _ => apply (runs_uint 2) in H
  | runs (step u32) _ _ _ => apply (runs_uint 4) in H
  | runs (step u64) _ _ _ => apply (runs_uint 8) in H
  | runs (step id) _ _ _ => apply runs_id in H
  | runs (step (take_array _)) _ _ _ => apply runs_array in H; [|lia]
  | runs checked _ _ _ => apply runs_checked in H
  | runs done_reading _ _ _ => apply runs_done in H
  | runs (validated _) _ _ _ => apply runs_validated in H
  | runs remaining _ _ _ => apply runs_remaining in H
  | runs (ret _) _ _ _ => apply runs_ret in H
  | runs (return_if _ _) _ _ _ => apply runs_return_if in H
  end.
Ltac unread :=
  repeat match goal with
  | H : runs (bind _ _) _ _ _ |- _ => apply runs_bind in H as (? & ? & ? & H); [|intros ?; apply _]
  | H : runs _ _ _ _ |- _ => runs_step H
  end.
Ltac reread_step :=
  match goal with
  | |- runs (step u8) _ _ _ => apply (runs_uint 1)
  | |- runs (step u16) _ _ _ => apply (runs_uint 2)
  | |- runs (step u32) _ _ _ => apply (runs_uint 4)
  | |- runs (step u64) _ _ _ => apply (runs_uint 8)
  | |- runs (step id) _ _ _ => apply runs_id
  | |- runs (step (take_array _)) _ _ _ => apply runs_array; [lia|]
  | |- runs checked _ _ _ => apply runs_checked
  | |- runs done_reading _ _ _ => apply runs_done
  | |- runs (validated _) _ _ _ => apply runs_validated
  | |- runs remaining _ _ _ => apply runs_remaining
  | |- runs (ret _) _ _ _ => apply runs_ret
  | |- runs (return_if _ _) _ _ _ => apply runs_return_if
  end.
Ltac reread :=
  rewrite <- ?app_assoc_str; apply runs_bind; [intros ?; apply _|]; first [exists tt | eexists]; eexists; split; [reread_step|].

(** * Containers *)
Lemma drop_drop i j : forall s, drop_bytes i (drop_bytes j s) = drop_bytes (j + i) s.
Proof. induction j as [|j IH]; intros s; [done|]. destruct s as [|c s]; [by destruct i|]. simpl. apply IH. Qed.

Lemma slice_cut i j b : (i <= j)%nat -> (j <= String.length b)%nat ->
  drop_bytes i b = slice i j b +:+ drop_bytes j b /\ String.length (slice i j b) = (j - i)%nat.
Proof.
  intros Hij Hj. unfold slice.
  assert (Hd : String.length (drop_bytes i b) = (String.length b - i)%nat).
  { pose proof (take_drop i b ltac:(lia)) as E. apply (f_equal String.length) in E. rewrite length_app_str, take_bytes_length in E by lia. lia. }
  split; [|apply take_bytes_length; lia]. rewrite <- (take_drop (j - i) (drop_bytes i b)) at 1 by lia. rewrite drop_drop.
  by replace (i + (j - i))%nat with j by lia.
Qed.

Lemma prefix_parts b : (16 <= String.length b)%nat ->
  b = take_bytes 8 b +:+ slice 8 10 b +:+ slice 10 12 b +:+ slice 12 16 b +:+ drop_bytes 16 b /\
  String.length (take_bytes 8 b) = 8%nat /\ String.length (slice 8 10 b) = 2%nat /\ String.length (slice 10 12 b) = 2%nat /\
  String.length (slice 12 16 b) = 4%nat.
Proof.
  intros Hb. destruct (slice_cut 8 10 b) as [E1 L1]; [lia|lia|]. destruct (slice_cut 10 12 b) as [E2 L2]; [lia|lia|].
  destruct (slice_cut 12 16 b) as [E3 L3]; [lia|lia|]. rewrite E3 in E2. rewrite E2 in E1. split_and!; try done; [|apply take_bytes_length; lia].
  rewrite <- E1. symmetry. apply take_drop. lia.
Qed.

Lemma container_length magic f n : String.length magic = 8%nat -> len (container magic f n) = 16 + len f.
Proof. intros Hm. unfold container, len. rewrite !length_app_str, !be_length, Hm. lia. Qed.
Lemma fields_container magic f n : String.length magic = 8%nat -> fields_of (container magic f n) = f.
Proof.
  intros Hm. unfold fields_of, container. rewrite !app_assoc_str.
  set (h := (((magic +:+ _) +:+ _) +:+ _)). assert (Hl : String.length h = 16%nat) by (unfold h; rewrite !length_app_str, !be_length, Hm; lia).
  rewrite <- Hl. apply drop_bytes_app.
Qed.

Lemma parts_of (m v h p r : string) : String.length m = 8%nat -> String.length v = 2%nat -> String.length h = 2%nat -> String.length p = 4%nat ->
  let b := m +:+ v +:+ h +:+ p +:+ r in
  take_bytes 8 b = m /\ slice 8 10 b = v /\ slice 10 12 b = h /\ slice 12 16 b = p /\ drop_bytes 16 b = r.
Proof.
  intros Hm Hv Hh Hp b. destruct (prefix_parts b) as (E & L1 & L2 & L3 & L4).
  { unfold b. rewrite !length_app_str. lia. }
  unfold b in E at 1. apply app_inj_length in E as [<- E]; [|lia]. apply app_inj_length in E as [<- E]; [|lia].
  apply app_inj_length in E as [<- E]; [|lia]. by apply app_inj_length in E as [<- <-]; [|lia].
Qed.

Lemma split_spec b magic max h p : String.length magic = 8%nat ->
  split b magic max = Ok (h, p) <->
  len b <= max /\ exists f, 16 + len f < 2 ^ 16 /\ len p < 2 ^ 32 /\ h = container magic f (len p) /\ b = h +:+ p.
Proof.
  intros Hm. unfold split, prefixLen. rewrite !bind_reject_ok, !orb_false_iff, !negb_false_iff, !Z.ltb_ge, !Z.eqb_eq, str_eq_spec. split.
  - intros ([H16 Hmax] & Hmag & Hver & [[Hh Hhb] Hp] & E). apply Ok_inj, pair_eq in E as [<- <-]. split; [done|].
    unfold len in H16. destruct (prefix_parts b) as (Eb & L1 & L2 & L3 & L4); [lia|]. set (n := unbe (slice 10 12 b)) in *.
    pose proof (unbe_range (slice 10 12 b)) as Rn. rewrite L3 in Rn. fold n in Rn. pose proof (unbe_range (slice 12 16 b)) as Rp. rewrite L4 in Rp.
    pose proof (take_drop (Z.to_nat n) b ltac:(unfold len in Hhb; lia)) as Ecut.
    assert (Ln : len (take_bytes (Z.to_nat n) b) = n) by (unfold len in *; rewrite take_bytes_length; lia).
    assert (Lp : len (drop_bytes (Z.to_nat n) b) = len b - n) by (apply (f_equal len) in Ecut; rewrite len_app in Ecut; lia).
    exists (drop_bytes 16 (take_bytes (Z.to_nat n) b)).
    destruct (prefix_parts (take_bytes (Z.to_nat n) b)) as (Et & K1 & K2 & K3 & K4); [unfold len in Ln; lia|].
    set (t := take_bytes (Z.to_nat n) b) in *. set (u := drop_bytes (Z.to_nat n) b) in *.
    rewrite Et in Ecut at 1. rewrite Eb in Ecut at 1. rewrite <- !app_assoc_str in Ecut.
    apply app_inj_length in Ecut as [E1 Ecut]; [|lia]. apply app_inj_length in Ecut as [E2 Ecut]; [|lia].
    apply app_inj_length in Ecut as [E3 Ecut]; [|lia]. apply app_inj_length in Ecut as [E4 Ecut]; [|lia].
    assert (Lf : 16 + len (drop_bytes 16 t) = n).
    { apply (f_equal len) in Et. rewrite !len_app in Et. unfold len in Et at 2 3 4 5. lia. }
    split_and!; [lia|rewrite Lp, <- Hp; apply Rp| |].
    + unfold container, prefixLen. rewrite Lf, Lp, <- Hp. unfold n. rewrite <- Hver, <- Hmag.
      rewrite !be_unbe_n by done. rewrite <- E1, <- E2, <- E3, <- E4. exact Et.
    + symmetry. apply take_drop. unfold len in Hhb. lia.
  - intros (Hmax & f & Hf & Hlp & -> & ->). pose proof (len_pos f). pose proof (len_pos p).
    destruct (parts_of magic (be 2 Version) (be 2 (prefixLen + len f)) (be 4 (len p)) (f +:+ p)) as (E1 & E2 & E3 & E4 & _); try (done || apply be_length).
    assert (Eb : container magic f (len p) +:+ p = magic +:+ be 2 Version +:+ be 2 (prefixLen + len f) +:+ be 4 (len p) +:+ f +:+ p).
    { unfold container. by rewrite <- !app_assoc_str. }
    rewrite Eb in *. rewrite E1, E2, E3, E4, <- Eb. rewrite <- Eb in Hmax. unfold prefixLen in *. rewrite !unbe_be_small by (simpl; unfold Version; lia).
    rewrite len_app, container_length in * by done. split_and!; try lia; try done.
    assert (Ec : Z.to_nat (16 + len f) = String.length (container magic f (len p))).
    { pose proof (container_length magic f (len p) Hm) as Hc. unfold len at 1 in Hc. lia. }
    by rewrite Ec, take_bytes_app, drop_bytes_app.
Qed.

(** * The formats and their values *)
Definition array (n : nat) (s : string) : Prop := String.length s = n.

Lemma array_len n s : array n s -> len s = Z.of_nat n.
Proof. intros <-. done. Qed.
Lemma identifier_len s : identifier s = Ok tt -> len s <= MaxIDBytes.
Proof. unfold identifier. intros H. apply bind_reject_ok in H as [H _]. bool_facts. done. Qed.
Lemma len_be n v : len (be n v) = Z.of_nat n.
Proof. unfold len. by rewrite be_length. Qed.
Lemma len_lp s : len (lp s) = 2 + len s.
Proof. unfold lp. by rewrite len_app, len_be. Qed.

Ltac proj := cbn [cur_VaultID cur_Revision cur_Generation cur_MetaHash bud_VaultID bud_Generation Consumed Sequence bud_StoreID
  Suite meta_VaultID meta_Generation meta_Revision Salt meta_Nonce meta_StoreID it_VaultID it_Generation it_StoreID it_ItemID
  e_ItemID FileSize Hash Index Entries ep_VaultID ep_StoreID ep_Revision ep_Generation ep_MetaHash ep_ManifestRoot ItemCount
  OperationID t_Operation t_Stage Source Target CleanupRevisions fst snd] in *.

(** Current *)
Definition current_ok (c : Current) : Prop :=
  array 16 (cur_VaultID c) /\ word 8 (cur_Revision c) /\ word 8 (cur_Generation c) /\ array 32 (cur_MetaHash c).

Lemma take_enough n b : 0 <= n <= len b -> step (take n) (mkDecoder b false) = Ok (take_bytes (Z.to_nat n) b, mkDecoder (drop_bytes (Z.to_nat n) b) false).
Proof. intros H. unfold step, take. simpl. destruct (Z.ltb_spec n 0); [lia|]. destruct (Z.ltb_spec (len b) n); [lia|done]. Qed.

Lemma current_spec f c : len f = 64 ->
  run (get vault <- take_array 16;; get revision <- u64;; get generation <- u64;; get hash <- take_array 32;;
       do return_if ((revision =? 0) || (generation =? 0)) ECorrupt;; ret (mkCurrent vault revision generation hash)) f = Ok c <->
  current_ok c /\ ((cur_Revision c =? 0) || (cur_Generation c =? 0)) = false /\
  f = cur_VaultID c +:+ be 8 (cur_Revision c) +:+ be 8 (cur_Generation c) +:+ cur_MetaHash c.
Proof.
  intros Hf. set (p := bind _ _).
  (* such fields can always be read *)
  assert (Hgo : forall c, run p f = Ok c <-> runs p f c "").
  { intros x. destruct (slice_cut 0 16 f) as [E1 L1]; [lia|unfold len in Hf; lia|]. destruct (slice_cut 16 24 f) as [E2 L2]; [lia|unfold len in Hf; lia|].
    destruct (slice_cut 24 32 f) as [E3 L3]; [lia|unfold len in Hf; lia|]. destruct (slice_cut 32 64 f) as [E4 L4]; [lia|unfold len in Hf; lia|].
    change (drop_bytes 0 f) with f in E1.
    assert (Hend : drop_bytes 64 f = "").
    { apply len_zero. apply (f_equal len) in E1, E2, E3, E4. rewrite len_app in E1, E2, E3, E4. unfold len in *. lia. }
    rewrite Hend, app_nil_r_str in E4. rewrite E4 in E3. rewrite E3 in E2. rewrite E2 in E1.
    set (v := slice 0 16 f) in *. set (a := slice 16 24 f) in *. set (b := slice 24 32 f) in *. set (h := slice 32 64 f) in *.
    assert (Hreads : forall k : string -> Z -> Z -> string -> P Current,
      (get vault <- take_array 16;; get revision <- u64;; get generation <- u64;; get hash <- take_array 32;; k vault revision generation hash)
        (mkDecoder f false) = k v (unbe a) (unbe b) h (mkDecoder "" false)).
    { intros k.
      assert (R1 : runs (step (take_array 16)) f v (a +:+ b +:+ h)) by (apply runs_array; [lia|done]).
      assert (R2 : runs (step u64) (a +:+ b +:+ h) (unbe a) (b +:+ h)).
      { apply (runs_uint 8). pose proof (unbe_range a) as R. rewrite L2 in R. split; [done|]. by rewrite be_unbe_n. }
      assert (R3 : runs (step u64) (b +:+ h) (unbe b) h).
      { apply (runs_uint 8). pose proof (unbe_range b) as R. rewrite L3 in R. split; [done|]. by rewrite be_unbe_n. }
      assert (R4 : runs (step (take_array 32)) h h "") by (apply runs_array; [lia|]; by rewrite app_nil_r_str).
      unfold runs in *. unfold bind. rewrite R1. cbn [result_bind]. rewrite R2. cbn [result_bind]. rewrite R3. cbn [result_bind]. by rewrite R4. }
    unfold run, runs, p. rewrite Hreads. rewrite result_bind_ok. split.
    - intros ([y d] & Hy & E). apply Ok_inj in E as ->. assert (K : Keeps (bind (return_if ((unbe a =? 0) || (unbe b =? 0)) ECorrupt)
        (fun _ => ret (mkCurrent v (unbe a) (unbe b) h)))) by apply _. by rewrite (K _ _ _ Hy) in Hy.
    - intros Hx. by exists (x, mkDecoder "" false). }
  rewrite Hgo. unfold p, current_ok. split.
  - intros H. unread. destruct_and?. subst. proj. rewrite app_nil_r_str in *. split_and!; done.
  - destruct c as [v r g h]. proj. intros ((H1 & H2 & H3 & H4) & Hz & ->). do 3 (reread; [split; [|reflexivity]; assumption|]).
    rewrite <- (app_nil_r_str h) at 1. reread; [split; [|reflexivity]; assumption|]. apply runs_bind; [intros ?; apply _|]. exists tt, "". split; [by apply runs_return_if|by apply runs_ret].
Qed.

Ltac read_on := reread; [first [split; [|reflexivity]; assumption | reflexivity | split; [|reflexivity]; eassumption]|].

(** Budgets *)
Definition budget_ok (b : Budget) : Prop :=
  array 16 (bud_VaultID b) /\ word 8 (bud_Generation b) /\ word 8 (Consumed b) /\ word 8 (Sequence b) /\ validate_budget b = Ok tt.
Definition budget_fields (b : Budget) : string :=
  be 2 1 +:+ bud_VaultID b +:+ be 8 (bud_Generation b) +:+ be 8 (Consumed b) +:+ be 8 (Sequence b) +:+ lp (bud_StoreID b).

Lemma word_2_1 : word 2 1.
Proof. unfold word. simpl. lia. Qed.
Lemma budget_store b : validate_budget b = Ok tt -> len (bud_StoreID b) <= MaxIDBytes.
Proof. unfold validate_budget. intros H. apply bind_reject_ok in H as [_ H]. by apply identifier_len. Qed.

Lemma parse_budget_spec h b : parse_budget h = Ok b <-> budget_ok b /\ fields_of h = budget_fields b.
Proof.
  unfold parse_budget, budget_ok, budget_fields. rewrite run_ends by apply _. split.
  - intros H. unread. destruct_and?. bool_facts. subst. proj. rewrite app_nil_r_str in *. split_and!; try assumption; try done.
  - destruct b as [v g c s i]. proj. intros ((H1 & H2 & H3 & H4 & H5) & ->). pose proof (budget_store _ H5) as H6. proj. pose proof word_2_1.
    read_on. read_on. reread; [done|]. do 4 read_on. rewrite <- (app_nil_r_str (lp i)). read_on. reread; [done|]. reread; [done|]. by apply runs_ret.
Qed.

(** Wrapped keys *)
Definition meta_ok (m : Meta) : Prop :=
  array 16 (meta_VaultID m) /\ word 8 (meta_Generation m) /\ word 8 (meta_Revision m) /\ array 12 (meta_Nonce m) /\ validate_meta m = Ok tt.

Lemma validate_meta_spec m : validate_meta m = Ok tt ->
  (Suite m = WrapPassword /\ len (Salt m) = 16 \/ Suite m = WrapKeyFile /\ len (Salt m) = 32) /\ len (meta_StoreID m) <= MaxIDBytes.
Proof.
  unfold validate_meta. intros H. apply bind_reject_ok in H as [H1 H]. apply bind_reject_ok in H as [H2 H]. apply identifier_len in H.
  split; [|done]. unfold WrapPassword, WrapKeyFile in *. destruct (Z.eqb_spec (Suite m) 1) as [E|E], (Z.eqb_spec (Suite m) 2) as [E'|E']; bool_facts; try lia; done.
Qed.

Lemma salt_length m : validate_meta m = Ok tt -> word 1 (len (Salt m)) /\ (negb (len (Salt m) =? 16) && negb (len (Salt m) =? 32)) = false.
Proof.
  intros H. destruct (validate_meta_spec m H) as [Hs _]. unfold word.
  destruct Hs as [[_ E]|[_ E]]; rewrite E; simpl; split; (lia || done).
Qed.

Lemma params_words m : validate_meta m = Ok tt ->
  exists memory iterations parallel, word 2 (Suite m) /\ word 4 memory /\ word 4 iterations /\ word 1 parallel /\
    validParameters (Suite m) memory iterations parallel = true /\
    (forall a b c, validParameters (Suite m) a b c = true -> a = memory /\ b = iterations /\ c = parallel) /\
    meta_fields m = be 2 (Suite m) +:+ be 2 1 +:+ meta_VaultID m +:+ be 8 (meta_Generation m) +:+ be 8 (meta_Revision m) +:+
      be 4 memory +:+ be 4 iterations +:+ be 1 parallel +:+ be 1 (len (Salt m)) +:+ Salt m +:+ meta_Nonce m +:+ lp (meta_StoreID m).
Proof.
  intros H. destruct (validate_meta_spec m H) as [Hs _]. unfold meta_fields, validParameters, word, WrapPassword, WrapKeyFile in *.
  destruct Hs as [[E _]|[E _]]; rewrite E.
  - exists 65536, 3, 1. split_and!; try done. intros a b c Hv. simpl in Hv. bool_facts. done.
  - exists 0, 0, 0. split_and!; try done. intros a b c Hv. simpl in Hv. bool_facts. done.
Qed.

Lemma parse_meta_spec h m : parse_meta h = Ok m <-> meta_ok m /\ fields_of h = meta_fields m.
Proof.
  unfold parse_meta, meta_ok. rewrite run_ends by apply _. split.
  - intros H. unread. destruct_and?. subst.
    match goal with H : runs (step (take _)) _ _ _ |- _ =>
      apply runs_take in H; [|match goal with H : word 1 _ |- _ => destruct H as [? _]; assumption end] end.
    destruct_and?. subst. proj.
    match goal with H : validate_meta ?m = Ok tt |- _ => destruct (params_words m H) as (me & it & pa & _ & _ & _ & _ & _ & Hu & Hf); rewrite Hf end.
    proj. match goal with H : negb (validParameters _ _ _ _) = false |- _ => apply negb_false_iff in H; destruct (Hu _ _ _ H) as (<- & <- & <-) end.
    bool_facts. subst. rewrite app_nil_r_str in *. split_and!; try assumption; done.
  - intros ((H1 & H2 & H3 & H4 & H5) & ->). destruct (validate_meta_spec m H5) as [_ H6]. destruct (salt_length m H5) as [H7 H8].
    destruct (params_words m H5) as (me & it & pa & Hs & P1 & P2 & P3 & P4 & _ & ->). destruct m as [su v g re sa no st]. proj. pose proof word_2_1.
    do 2 read_on. do 2 (reread; [done|]). do 7 read_on. reread; [done|].
    rewrite <- ?app_assoc_str. apply runs_bind; [intros ?; apply _|]. eexists sa, _. split; [apply runs_take; [apply H7|]; by split|].
    read_on. rewrite <- (app_nil_r_str (lp st)). read_on. do 2 (reread; [done|]). reread; [split; [by rewrite P4|reflexivity]|]. by apply runs_ret.
Qed.

(** Items *)
Definition item_fields (i : ItemIdentity) (nonce : string) (flag n : Z) : string :=
  be 2 1 +:+ it_VaultID i +:+ be 8 (it_Generation i) +:+ nonce +:+ be 1 flag +:+ be 8 n +:+ lp (it_StoreID i) +:+ lp (it_ItemID i).
Definition identity_ok (i : ItemIdentity) : Prop :=
  array 16 (it_VaultID i) /\ word 8 (it_Generation i) /\ validate_identity i = Ok tt.
(** Nanoseconds that 64 bits hold. *)
Definition instant (t : Z) : Prop := - 2 ^ 63 <= t < 2 ^ 63.
Definition expiry_bytes (e : option Z) : Z * Z := match e with None => (0, 0) | Some t => (1, t mod 2 ^ 64) end.

Lemma validate_identity_len i : validate_identity i = Ok tt -> len (it_StoreID i) <= MaxIDBytes /\ len (it_ItemID i) <= MaxIDBytes.
Proof.
  unfold validate_identity. intros H. apply bind_reject_ok in H as [_ H]. apply result_bind_ok in H as ([] & H1 & H2).
  split; by apply identifier_len.
Qed.
Lemma signed64_range v : instant (signed64 v).
Proof. unfold instant, signed64. pose proof (Z.mod_pos_bound v (2 ^ 64) eq_refl). destruct (Z.ltb_spec (v mod 2 ^ 64) (2 ^ 63)); lia. Qed.
Lemma signed64_small t : instant t -> signed64 (t mod 2 ^ 64) = t /\ signed64 t = t.
Proof.
  unfold instant, signed64. intros H. rewrite Zmod_mod. pose proof (Z.mod_pos_bound t (2 ^ 64) eq_refl).
  assert (E : t mod 2 ^ 64 = t \/ t mod 2 ^ 64 = t + 2 ^ 64).
  { destruct (Z.ltb_spec t 0); [right|left; apply Z.mod_small; lia]. rewrite <- (Z_mod_plus_full t 1). rewrite Z.mod_small; lia. }
  destruct (Z.ltb_spec (t mod 2 ^ 64) (2 ^ 63)); lia.
Qed.
Lemma signed64_mod n : 0 <= n < 2 ^ 64 -> signed64 n mod 2 ^ 64 = n.
Proof.
  intros H. unfold signed64. rewrite (Z.mod_small n) by lia. destruct (Z.ltb_spec n (2 ^ 63)); [apply Z.mod_small; lia|].
  rewrite <- (Z_mod_plus_full (n - 2 ^ 64) 1). replace (n - 2 ^ 64 + 1 * 2 ^ 64) with n by lia. apply Z.mod_small; lia.
Qed.

Lemma item_fields_bytes i nonce e :
  item_fields i nonce (expiry_bytes e).1 (expiry_bytes e).2 =
  be 2 1 +:+ it_VaultID i +:+ be 8 (it_Generation i) +:+ nonce +:+ be 1 (expiry_bytes e).1 +:+ be 8 (expiry_bytes e).2 +:+
  lp (it_StoreID i) +:+ lp (it_ItemID i).
Proof. done. Qed.

(** The flag and the 64 bits of an expiry, and back. *)
Lemma expiry_spec flag n e : word 1 flag -> word 8 n ->
  ((1 <? flag) || ((flag =? 0) && negb (signed64 n =? 0))) = false /\ e = (if flag =? 1 then Some (signed64 n) else None) <->
  (flag, n) = expiry_bytes e /\ match e with Some t => instant t | None => True end.
Proof.
  intros Hf Hn. assert (Hn' : 0 <= n < 2 ^ 64) by exact Hn. pose proof (signed64_mod n Hn') as Hm. unfold word in Hf. split.
  - intros [Hb ->]. apply orb_false_iff in Hb as [Hb1 Hb2]. apply Z.ltb_ge in Hb1. destruct (Z.eqb_spec flag 1) as [->|H1].
    + split; [|apply signed64_range]. unfold expiry_bytes. by rewrite Hm.
    + assert (flag = 0) as -> by lia. simpl in Hb2. bool_facts. split; [|done]. rewrite Hb2 in Hm. unfold expiry_bytes. by rewrite <- Hm.
  - destruct e as [t|]; simpl; intros [E Ht]; injection E as -> ->.
    + split; [done|]. simpl. by rewrite (proj1 (signed64_small t Ht)).
    + done.
Qed.

Lemma parseItemHeader_spec h i nonce e : parseItemHeader h = Ok (i, nonce, e) <->
  identity_ok i /\ array 12 nonce /\ match e with Some t => instant t | None => True end /\
  fields_of h = item_fields i nonce (expiry_bytes e).1 (expiry_bytes e).2.
Proof.
  unfold parseItemHeader, identity_ok. rewrite item_fields_bytes, run_ends by apply _. split.
  - intros H. unread. destruct_and?. subst.
    match goal with H : (i, nonce, e) = _ |- _ => apply pair_eq in H as [H He]; apply pair_eq in H as [-> ->] end.
    match goal with H1 : word 1 ?f, H2 : word 8 ?n, H3 : (1 <? ?f) || _ = false |- _ =>
      destruct (proj1 (expiry_spec f n e H1 H2) (conj H3 He)) as [Ee Hi] end.
    rewrite <- Ee. bool_facts. subst. proj. rewrite app_nil_r_str in *. split_and!; try assumption; done.
  - intros ((H1 & H2 & H3) & H4 & H5 & ->). destruct (validate_identity_len i H3) as [H6 H7].
    assert (Hw : word 1 (expiry_bytes e).1 /\ word 8 (expiry_bytes e).2).
    { destruct e as [t|]; simpl; unfold word; [|split; simpl; lia]. split; [simpl; lia|]. apply (Z.mod_pos_bound t (2 ^ 64)). lia. }
    destruct Hw as [H8 H9]. set (f := (expiry_bytes e).1) in *. set (n := (expiry_bytes e).2) in *.
    destruct (proj2 (expiry_spec f n e H8 H9)) as [Hc He]; [split; [by destruct e|done]|].
    destruct i as [v g s it]. proj. pose proof word_2_1.
    read_on. do 2 (reread; [done|]). do 5 read_on. reread; [done|]. read_on.
    rewrite <- (app_nil_r_str (lp it)). read_on. do 2 (reread; [done|]). apply runs_ret. by rewrite He.
Qed.

(** Manifests *)
Definition entry_ok (e : ManifestEntry) : Prop := array 32 (Hash e) /\ validate_entry e = Ok tt.
Lemma validate_entry_spec e : validate_entry e = Ok tt -> len (e_ItemID e) <= MaxIDBytes /\ word 4 (FileSize e).
Proof.
  unfold validate_entry. intros H. apply result_bind_ok in H as ([] & H1 & H). apply bind_reject_ok in H as [H _]. bool_facts.
  unfold word, MaxItemBytes in *. simpl. split; [by apply identifier_len|lia].
Qed.

(** Strictly increasing identifiers, above the one before. *)
Fixpoint ascending (prev : option string) (es : list ManifestEntry) : Prop :=
  match es with
  | [] => True
  | e :: es => match prev with Some p => String.ltb p (e_ItemID e) = true | None => True end /\ ascending (Some (e_ItemID e)) es
  end.

#[global] Instance sticky_entries prev n : Sticky (parse_entries prev n).
Proof. revert prev. induction n as [|n IH]; intros prev; simpl; apply _. Qed.
#[global] Instance sticky_revisions n : Sticky (read_revisions n).
Proof. induction n as [|n IH]; simpl; apply _. Qed.

Lemma entries_cons i z h es : String.concat "" (map entry_bytes (mkEntry i z h :: es)) =
  lp i +:+ be 4 z +:+ h +:+ String.concat "" (map entry_bytes es).
Proof. cbn [map]. rewrite concat_cons. unfold entry_bytes at 1. proj. by rewrite <- !app_assoc_str. Qed.

Lemma parse_entries_spec n : forall prev b es r, runs (parse_entries prev n) b es r <->
  length es = n /\ Forall entry_ok es /\ ascending prev es /\ b = String.concat "" (map entry_bytes es) +:+ r.
Proof.
  induction n as [|n IH]; intros prev b es r.
  - simpl. rewrite runs_ret. split; [by intros [-> ->]|]. intros (Hl & _ & _ & ->). apply nil_length_inv in Hl as ->. done.
  - cbn [parse_entries]. split.
    + intros H. unread. destruct_and?. subst.
      match goal with H : runs (parse_entries _ _) _ _ _ |- _ => apply IH in H as (Hl & Hall & Hasc & ->) end.
      rewrite entries_cons. cbn [length ascending]. proj. rewrite <- !app_assoc_str. split_and!; try done.
      * by rewrite Hl.
      * constructor; [by split|done].
      * destruct prev; bool_facts; done.
    + intros (Hl & Hall & Hasc & ->). destruct es as [|[id0 sz hs] es]; [done|]. injection Hl as Hl. apply Forall_cons in Hall as [[H1 H2] Hall].
      cbn [ascending] in *. destruct Hasc as [Hp Hasc]. rewrite entries_cons.
      destruct (validate_entry_spec _ H2) as [H3 H4]. proj.
      do 3 read_on. do 2 (reread; [done|]). reread; [by destruct prev as [p|]; [rewrite Hp|]|].
      apply runs_bind; [intros ?; apply _|]. exists es, r. split; [|by apply runs_ret]. by apply IH.
Qed.

Lemma check_entries_spec es : forall prev size total, check_entries prev size es = Ok total <->
  Forall (fun e => validate_entry e = Ok tt) es /\ ascending prev es /\ (es = [] \/ total <= MaxManifestBytes) /\
  total = size + foldr (fun e n => 2 + len (e_ItemID e) + 4 + 32 + n) 0 es.
Proof.
  induction es as [|e es IH]; intros prev size total; cbn [check_entries ascending foldr].
  - split; [intros H; apply Ok_inj in H as <-; split_and!; [done|done|by left|lia]|]. intros (_ & _ & _ & ->). f_equal. lia.
  - rewrite result_bind_ok. setoid_rewrite bind_reject_ok. setoid_rewrite bind_reject_ok. setoid_rewrite IH. rewrite Forall_cons.
    assert (Hp : match prev with Some p => negb (String.ltb p (e_ItemID e)) | None => false end = false <->
                 match prev with Some p => String.ltb p (e_ItemID e) = true | None => True end).
    { destruct prev; [apply negb_false_iff|done]. }
    assert (Hnn : forall es, 0 <= foldr (fun e n => 2 + len (e_ItemID e) + 4 + 32 + n) 0 es).
    { clear. induction es as [|e es IH]; simpl; [lia|]. pose proof (len_pos (e_ItemID e)). lia. }
    specialize (Hnn es). split.
    + intros ([] & Hv & Hpr & Hsz & Hall & Hasc & Hlim & ->). apply Z.ltb_ge in Hsz. split_and!; try done; [by apply Hp| |lia].
      right. destruct Hlim as [->|Hlim]; simpl; lia.
    + intros ([Hv Hall] & [Hpr Hasc] & [Hlim|Hlim] & ->); [done|]. exists tt. split_and!; try done; [by apply Hp|apply Z.ltb_ge; lia| |lia]. right. lia.
Qed.

Definition block_ok (m : ManifestBlock) : Prop := word 4 (Index m) /\ Forall (fun e => array 32 (Hash e)) (Entries m).
Definition sizes (es : list ManifestEntry) : Z := foldr (fun e n => 2 + len (e_ItemID e) + 4 + 32 + n) 0 es.

Lemma len_entries es : Forall (fun e => array 32 (Hash e)) es -> len (String.concat "" (map entry_bytes es)) = sizes es.
Proof.
  induction es as [|[i z h] es IH]; [done|]. intros H. apply Forall_cons in H as [Hh Hall]. rewrite entries_cons.
  rewrite !len_app, len_lp, len_be, (array_len 32 h) by done. unfold sizes. cbn [foldr]. proj. fold (sizes es). rewrite <- IH by done. lia.
Qed.

Lemma identifier_pos s : identifier s = Ok tt -> 1 <= len s.
Proof.
  unfold identifier. intros H. apply bind_reject_ok in H as [H _]. bool_facts. unfold len.
  match goal with H : str_eq s "" = false |- _ => apply str_eq_false in H end. destruct s; [done|]. simpl. lia.
Qed.
Lemma sizes_low es : Forall (fun e => validate_entry e = Ok tt) es -> 39 * Z.of_nat (length es) <= sizes es.
Proof.
  induction es as [|e es IH]; [done|]. intros H. apply Forall_cons in H as [He Hall]. specialize (IH Hall). unfold sizes in *. cbn [foldr length].
  unfold validate_entry in He. apply result_bind_ok in He as ([] & Hi & _). pose proof (identifier_pos _ Hi). lia.
Qed.

Definition block_bytes (m : ManifestBlock) : string :=
  be 4 (Index m) +:+ be 4 (Z.of_nat (length (Entries m))) +:+ String.concat "" (map entry_bytes (Entries m)).
Lemma marshal_block_spec m data : marshal_block m = Ok data <->
  Index m < MaxEncryptions /\ 0 < Z.of_nat (length (Entries m)) <= MaxEncryptions /\
  Forall (fun e => validate_entry e = Ok tt) (Entries m) /\ ascending None (Entries m) /\ 18 + sizes (Entries m) <= MaxManifestBytes /\
  data = manifestMagic +:+ be 2 Version +:+ block_bytes m.
Proof.
  unfold marshal_block. rewrite bind_reject_ok, !orb_false_iff, Z.leb_gt, Z.eqb_neq, Z.ltb_ge, result_bind_ok.
  setoid_rewrite check_entries_spec. fold (sizes (Entries m)). unfold block_bytes, manifestHeader. split.
  - intros ([[H1 H2] H3] & total & (Hall & Hasc & Hlim & ->) & E). apply Ok_inj in E as <-.
    destruct Hlim as [E|Hlim]; [rewrite E in H2; done|]. split_and!; try done. lia.
  - intros (H1 & [H2 H3] & Hall & Hasc & Hlim & ->). split; [split; [split; [done|lia]|done]|]. eexists. split_and!; try done. by right.
Qed.

Lemma count_bound n left : 0 <= n -> left / 39 <? n = false <-> 39 * n <= left.
Proof. intros Hn. rewrite Z.ltb_ge. split; intros H; [pose proof (Z.mul_div_le left 39 ltac:(lia)); lia|by apply Z.div_le_lower_bound]. Qed.

Definition block_program : P ManifestBlock :=
  get index <- u32;;
  get count <- u32;;
  bind remaining (fun left =>
  do return_if ((MaxEncryptions <=? index) || (count =? 0) || (left / 39 <? count)) ECorrupt;;
  bind (parse_entries None (Z.to_nat count)) (fun es => do done_reading;; ret (mkBlock index es))).

Lemma block_program_spec b m : run block_program b = Ok m <->
  block_ok m /\ Index m < MaxEncryptions /\ 0 < Z.of_nat (length (Entries m)) < 2 ^ 32 /\
  Forall (fun e => validate_entry e = Ok tt) (Entries m) /\ ascending None (Entries m) /\ b = block_bytes m.
Proof.
  unfold block_program. rewrite run_ends by apply _. unfold block_ok, block_bytes, entry_ok. split.
  - intros H. unread. destruct_and?. subst.
    match goal with H : runs (parse_entries _ _) _ _ _ |- _ => apply parse_entries_spec in H as (Hl & Hall & Hasc & ->) end. proj.
    match goal with H : word 4 ?n, H' : context [_ / 39 <? ?n] |- _ => rename n into count; rename H into Hw; rename H' into Hc end.
    assert (Hn : Z.of_nat (length x7) = count) by (unfold word in Hw; lia). rewrite app_nil_r_str in *.
    bool_facts. unfold word in *. rewrite Hn.
    assert (K1 : Forall (fun e => array 32 (Hash e)) x7) by (eapply Forall_impl; [exact Hall|]; by intros e [? _]).
    assert (K2 : Forall (fun e => validate_entry e = Ok tt) x7) by (eapply Forall_impl; [exact Hall|]; by intros e [_ ?]).
    split_and!; try done; try lia.
  - destruct m as [ix es]. proj. intros ((H1 & H2) & H3 & H4 & H5 & H6 & ->).
    assert (Hw : word 4 (Z.of_nat (length es))) by (unfold word; simpl; lia).
    do 2 read_on. reread; [done|].
    assert (Hc : (MaxEncryptions <=? ix) || (Z.of_nat (length es) =? 0) || (len (String.concat "" (map entry_bytes es)) / 39 <? Z.of_nat (length es)) = false).
    { rewrite !orb_false_iff, Z.leb_gt, Z.eqb_neq. split; [split; lia|]. apply count_bound; [lia|]. rewrite len_entries by done. by apply sizes_low. }
    reread; [by split|]. apply runs_bind; [intros ?; apply _|]. exists es, "". split.
    + apply parse_entries_spec. rewrite app_nil_r_str, Nat2Z.id. split_and!; try done. apply Forall_forall. intros e He. split.
      * by apply (proj1 (Forall_forall _ _) H2).
      * by apply (proj1 (Forall_forall _ _) H5).
    + reread; [done|]. by apply runs_ret.
Qed.

Lemma version_prefix magic (r : string) : String.length magic = 8%nat ->
  take_bytes 8 (magic +:+ be 2 Version +:+ r) = magic /\ slice 8 10 (magic +:+ be 2 Version +:+ r) = be 2 Version /\
  drop_bytes 10 (magic +:+ be 2 Version +:+ r) = r.
Proof.
  intros Hm. destruct (slice_cut 8 10 (magic +:+ be 2 Version +:+ r)) as [E L]; [lia|rewrite !length_app_str, be_length; lia|].
  pose proof (drop_bytes_app magic (be 2 Version +:+ r)) as Hd. pose proof (take_bytes_app magic (be 2 Version +:+ r)) as Ht. rewrite Hm in Hd, Ht.
  rewrite Hd in E. apply app_inj_length in E as [<- <-]; [done|]. by rewrite L, be_length.
Qed.
Lemma version_parts magic b : String.length magic = 8%nat -> 10 <= len b -> take_bytes 8 b = magic -> unbe (slice 8 10 b) = Version ->
  b = magic +:+ be 2 Version +:+ drop_bytes 10 b.
Proof.
  intros Hm Hl Ht Hv. destruct (slice_cut 8 10 b) as [E L]; [lia|unfold len in Hl; lia|].
  pose proof (take_drop 8 b ltac:(unfold len in Hl; lia)) as Hb. rewrite Ht, E in Hb. rewrite <- Hb at 1. do 2 f_equal. rewrite <- Hv. symmetry. by apply be_unbe_n.
Qed.

Lemma ParseManifestBlock_spec data m : ParseManifestBlock data = Ok m <-> block_ok m /\ marshal_block m = Ok data.
Proof.
  rewrite marshal_block_spec. unfold ParseManifestBlock. fold block_program. rewrite !bind_reject_ok, orb_false_iff, !negb_false_iff, !Z.ltb_ge, Z.eqb_eq, str_eq_spec, block_program_spec.
  unfold manifestHeader. split.
  - intros ([H1 H2] & Ht & Hv & Hok & H3 & H4 & H5 & H6 & Hb). pose proof (version_parts manifestMagic data eq_refl ltac:(lia) Ht Hv) as E.
    rewrite Hb in E. destruct Hok as [Hi Hh].
    assert (Hlen : len data = 18 + sizes (Entries m)).
    { rewrite E. unfold block_bytes. rewrite !len_app, !len_be, len_entries by done. change (len manifestMagic) with 8. lia. }
    pose proof (sizes_low _ H5). unfold MaxManifestBytes, MaxEncryptions in *. split; [done|]. split_and!; try done; lia.
  - intros ([Hi Hh] & H1 & H2 & H3 & H4 & H5 & ->).
    destruct (version_prefix manifestMagic (block_bytes m) eq_refl) as (E1 & E2 & E3). rewrite E1, E2, E3.
    assert (Hlen : len (manifestMagic +:+ be 2 Version +:+ block_bytes m) = 18 + sizes (Entries m)).
    { unfold block_bytes. rewrite !len_app, !len_be, len_entries by done. change (len manifestMagic) with 8. lia. }
    pose proof (sizes_low _ H3). unfold MaxManifestBytes, MaxEncryptions in *. rewrite Hlen. split_and!; try done; try lia.
Qed.

(** Transactions *)
Lemma read_revisions_spec n : forall b ns r, runs (read_revisions n) b ns r <->
  length ns = n /\ Forall (word 8) ns /\ b = String.concat "" (map (be 8) ns) +:+ r.
Proof.
  induction n as [|n IH]; intros b ns r.
  - cbn [read_revisions]. rewrite runs_ret. split; [by intros [-> ->]|]. intros (Hl & _ & ->). apply nil_length_inv in Hl as ->. done.
  - cbn [read_revisions]. split.
    + intros H. unread. destruct_and?. subst.
      match goal with H : runs (read_revisions _) _ _ _ |- _ => apply IH in H as (Hl & Hall & ->) end.
      cbn [length map]. rewrite concat_cons, <- app_assoc_str. split_and!; [by rewrite Hl|by constructor|done].
    + intros (Hl & Hall & ->). destruct ns as [|v ns]; [done|]. injection Hl as Hl. apply Forall_cons in Hall as [Hv Hall].
      cbn [map]. rewrite concat_cons. read_on. apply runs_bind; [intros ?; apply _|]. exists ns, r. split; [by apply IH|by apply runs_ret].
Qed.

Definition endpoint_ok (e : Endpoint) : Prop :=
  array 16 (ep_VaultID e) /\ word 8 (ep_Revision e) /\ word 8 (ep_Generation e) /\ array 32 (ep_MetaHash e) /\ array 32 (ep_ManifestRoot e) /\
  word 8 (ItemCount e).
Definition transaction_ok (t : Transaction) : Prop :=
  array 16 (OperationID t) /\ endpoint_ok (Source t) /\ endpoint_ok (Target t) /\ Forall (word 8) (CleanupRevisions t).

Lemma validate_transaction_spec t : validate_transaction t = Ok tt ->
  word 1 (t_Operation t) /\ word 1 (t_Stage t) /\ len (ep_StoreID (Source t)) <= MaxIDBytes /\ len (ep_StoreID (Target t)) <= MaxIDBytes /\
  Z.of_nat (length (CleanupRevisions t)) <= 256.
Proof.
  unfold validate_transaction. intros H. apply bind_reject_ok in H as [H1 H]. apply bind_reject_ok in H as [_ H].
  apply result_bind_ok in H as ([] & Ht & H). apply result_bind_ok in H as (u & Hs & H). apply bind_reject_ok in H as [Hc _].
  bool_facts. unfold OpInit, OpPrune, Prepared, CleanupPending, word in *. simpl.
  assert (He : forall e, validate_endpoint e = Ok tt -> len (ep_StoreID e) <= MaxIDBytes).
  { intros e He. unfold validate_endpoint in He. apply bind_reject_ok in He as [_ He]. by apply identifier_len. }
  split_and!; try lia; [|by apply He].
  destruct (t_Operation t =? 1); [|destruct u; by apply He].
  apply reject_if_ok in Hs. bool_facts. rewrite Hs. done.
Qed.

Definition body_bytes (t : Transaction) : string :=
  let s := Source t in
  let d := Target t in
  OperationID t +:+ be 1 (t_Operation t) +:+ be 1 (t_Stage t) +:+
  ep_VaultID s +:+ ep_VaultID d +:+ lp (ep_StoreID s) +:+ lp (ep_StoreID d) +:+
  be 8 (ep_Revision s) +:+ be 8 (ep_Revision d) +:+ be 8 (ep_Generation s) +:+ be 8 (ep_Generation d) +:+
  ep_MetaHash s +:+ ep_MetaHash d +:+ ep_ManifestRoot s +:+ ep_ManifestRoot d +:+
  be 8 (ItemCount s) +:+ be 8 (ItemCount d) +:+ be 2 (Z.of_nat (length (CleanupRevisions t))) +:+
  String.concat "" (map (be 8) (CleanupRevisions t)).

Lemma len_words ns : len (String.concat "" (map (be 8) ns)) = 8 * Z.of_nat (length ns).
Proof. induction ns as [|n ns IH]; [done|]. cbn [map length]. rewrite concat_cons, len_app, len_be, IH. lia. Qed.

Definition transaction_program : P Transaction :=
  get operationID <- take_array 16;;
  get operation <- u8;;
  get stage <- u8;;
  get sVault <- take_array 16;;
  get dVault <- take_array 16;;
  get sStore <- id;;
  get dStore <- id;;
  get sRevision <- u64;;
  get dRevision <- u64;;
  get sGeneration <- u64;;
  get dGeneration <- u64;;
  get sMeta <- take_array 32;;
  get dMeta <- take_array 32;;
  get sRoot <- take_array 32;;
  get dRoot <- take_array 32;;
  get sCount <- u64;;
  get dCount <- u64;;
  get count <- u16;;
  bind remaining (fun left =>
  do return_if ((256 <? count) || (left / 8 <? count)) ECorrupt;;
  bind (read_revisions (Z.to_nat count)) (fun revisions =>
  do done_reading;;
  do validated (validate_transaction (mkTransaction operationID operation stage
      (mkEndpoint sVault sStore sRevision sGeneration sMeta sRoot sCount)
      (mkEndpoint dVault dStore dRevision dGeneration dMeta dRoot dCount) revisions));;
  ret (mkTransaction operationID operation stage
      (mkEndpoint sVault sStore sRevision sGeneration sMeta sRoot sCount)
      (mkEndpoint dVault dStore dRevision dGeneration dMeta dRoot dCount) revisions))).

Lemma transaction_program_spec b t : run transaction_program b = Ok t <->
  transaction_ok t /\ validate_transaction t = Ok tt /\ b = body_bytes t.
Proof.
  unfold transaction_program. rewrite run_ends by apply _. unfold transaction_ok, endpoint_ok, body_bytes. split.
  - intros H. unread. destruct_and?. subst.
    match goal with H : runs (read_revisions _) _ ?l _ |- _ => rename l into ns; apply read_revisions_spec in H as (Hl & Hall & ->) end. proj.
    match goal with H : word 2 ?n, H' : context [_ / 8 <? ?n] |- _ => rename n into count; rename H into Hw end.
    assert (Hn : Z.of_nat (length ns) = count) by (unfold word in Hw; lia). rewrite Hn, app_nil_r_str. split_and!; try assumption; done.
  - destruct t as [oid op st [sv ss sr sg sm sro sc] [dv ds dr dg dm dro dc] ns]. proj.
    intros ((H1 & (S1 & S2 & S3 & S4 & S5 & S6) & (D1 & D2 & D3 & D4 & D5 & D6) & Hall) & Hv & ->).
    destruct (validate_transaction_spec _ Hv) as (Hop & Hst & Hs & Hd & Hn). proj.
    assert (Hw : word 2 (Z.of_nat (length ns))) by (unfold word; simpl; lia).
    do 18 read_on. reread; [done|].
    assert (Hc : (256 <? Z.of_nat (length ns)) || (len (String.concat "" (map (be 8) ns)) / 8 <? Z.of_nat (length ns)) = false).
    { rewrite len_words, orb_false_iff, !Z.ltb_ge. split; [lia|]. rewrite Z.mul_comm, Z.div_mul; lia. }
    reread; [by split|]. apply runs_bind; [intros ?; apply _|]. exists ns, "". split.
    + apply read_revisions_spec. rewrite app_nil_r_str, Nat2Z.id. done.
    + do 2 (reread; [done|]). by apply runs_ret.
Qed.

Lemma parseTransactionPayload_spec b t : parseTransactionPayload b = Ok t <-> transaction_ok t /\ payload t = Ok b.
Proof.
  assert (Hp : payload t = Ok b <-> validate_transaction t = Ok tt /\ b = transactionMagic +:+ be 2 Version +:+ body_bytes t).
  { unfold payload. rewrite result_bind_ok. split; [intros ([] & Hv & E); by apply Ok_inj in E as <-|]. intros [Hv ->]. by exists tt. }
  rewrite Hp. unfold parseTransactionPayload. fold transaction_program.
  rewrite !bind_reject_ok, orb_false_iff, !negb_false_iff, Z.ltb_ge, Z.eqb_eq, str_eq_spec, transaction_program_spec. split.
  - intros ([H1 Ht] & Hv & Hok & Hval & Hb). pose proof (version_parts transactionMagic b eq_refl H1 Ht Hv) as E. by rewrite Hb in E.
  - intros (Hok & Hval & ->). destruct (version_prefix transactionMagic (body_bytes t) eq_refl) as (E1 & E2 & E3). rewrite E1, E2, E3.
    split_and!; try done. rewrite !len_app, len_be. pose proof (len_pos (body_bytes t)). change (len transactionMagic) with 8. lia.
Qed.

Lemma ParseCurrent_spec data c : ParseCurrent data = Ok c <-> current_ok c /\ marshal_current c = Ok data.
Proof.
  unfold ParseCurrent, marshal_current. rewrite result_bind_ok, bind_reject_ok. split.
  - intros ([h p] & Hs & H). apply split_spec in Hs as (Hl & f & Hf & _ & -> & ->); [|done]. apply bind_reject_ok in H as [Hz H]. bool_facts.
    rewrite container_length in * by done. rewrite fields_container in H by done.
    match goal with H : len p = 0 |- _ => apply len_zero in H as -> end. apply current_spec in H as (Hok & Hz & ->); [|lia].
    split; [done|]. split; [done|]. by rewrite app_nil_r_str.
  - intros (Hok & Hz & E). apply Ok_inj in E as <-. set (f := cur_VaultID c +:+ _). destruct (Hok) as (H1 & _ & _ & H4).
    assert (Hf : len f = 64) by (unfold f; rewrite !len_app, !len_be, (array_len 16 _ H1), (array_len 32 _ H4); done).
    assert (Hlen : len (container currentMagic f 0) = 80) by (rewrite container_length; [lia|done]).
    exists (container currentMagic f 0, ""). split.
    + apply split_spec; [done|]. split; [lia|]. exists f. rewrite app_nil_r_str. split_and!; try done; lia.
    + rewrite Hlen. change (negb (80 =? 80) || negb (len "" =? 0)) with false. cbn [reject_if result_bind]. rewrite fields_container by done. by apply current_spec.
Qed.

Lemma len_meta_fields m : meta_ok m -> 16 + len (meta_fields m) <= 16 + 94 + MaxIDBytes.
Proof.
  intros (H1 & _ & _ & H4 & H5). destruct (validate_meta_spec m H5) as [Hs Hi]. destruct (params_words m H5) as (? & ? & ? & _ & _ & _ & _ & _ & _ & ->).
  rewrite !len_app, !len_be, len_lp, (array_len 16 _ H1), (array_len 12 _ H4). destruct Hs as [[_ ->]|[_ ->]]; lia.
Qed.
Lemma metaHeader_spec m h : metaHeader m = Ok h <-> validate_meta m = Ok tt /\ h = container metaMagic (meta_fields m) 48.
Proof.
  unfold metaHeader. rewrite result_bind_ok. split; [intros ([] & Hv & E); by apply Ok_inj in E as <-|]. intros [Hv ->]. by exists tt.
Qed.
(** A parsed container and its wrapped key. *)
Lemma ParseMeta_spec data m : ParseMeta data = Ok m <->
  meta_ok m /\ exists h p, metaHeader m = Ok h /\ len p = 48 /\ data = h +:+ p /\ split data metaMagic MaxMetaBytes = Ok (h, p).
Proof.
  unfold ParseMeta. rewrite result_bind_ok. setoid_rewrite metaHeader_spec. split.
  - intros ([h p] & Hs & H). apply bind_reject_ok in H as [Hp H]. bool_facts. pose proof Hs as Hs'.
    apply split_spec in Hs as (Hl & f & Hf & _ & -> & ->); [|done]. apply parse_meta_spec in H as [Hok Hfields].
    rewrite fields_container in Hfields by done. subst f. rewrite Hp in *. split; [done|]. eexists _, p. split_and!; try done. apply Hok.
  - intros (Hok & h & p & [_ ->] & Hp & -> & Hs). exists (container metaMagic (meta_fields m) 48, p). split; [done|]. rewrite Hp. simpl.
    apply parse_meta_spec. split; [done|]. by apply fields_container.
Qed.
Lemma split_meta m p : meta_ok m -> len p = 48 ->
  split (container metaMagic (meta_fields m) 48 +:+ p) metaMagic MaxMetaBytes = Ok (container metaMagic (meta_fields m) 48, p).
Proof.
  intros Hok Hp. pose proof (len_meta_fields m Hok) as Hl. apply split_spec; [done|]. rewrite len_app, container_length by done.
  unfold MaxIDBytes, MaxMetaBytes in *. split; [lia|]. exists (meta_fields m). rewrite Hp. split_and!; try done; lia.
Qed.

(** * Sealing and opening *)
Section Sealed.
Context `{CryptoLaws}.

Lemma derive_spec key salt info k : derive key salt info = Ok k <-> len key = 32 /\ k = hkdf key salt info.
Proof. unfold derive. rewrite bind_reject_ok, negb_false_iff, Z.eqb_eq. split; intros [? E]; (split; [done|]); [by apply Ok_inj in E|by subst]. Qed.
Lemma aead_key_spec key : aead_key key = Ok tt <-> len key = 32.
Proof. unfold aead_key. rewrite bind_reject_ok, negb_false_iff, Z.eqb_eq. split; [by intros [? _]|done]. Qed.

Lemma budget_split b p : budget_ok b -> len p = 32 ->
  split (budget_header b +:+ p) budgetMagic (60 + MaxIDBytes + 32) = Ok (budget_header b, p).
Proof.
  intros (H1 & _ & _ & _ & H5) Hp. pose proof (budget_store b H5) as Hs. apply split_spec; [done|]. unfold budget_header.
  rewrite len_app, container_length by done. rewrite !len_app, !len_be, len_lp, (array_len 16 _ H1). unfold MaxIDBytes in *. split; [lia|].
  exists (budget_fields b). rewrite Hp. split_and!; try done. unfold budget_fields. rewrite !len_app, !len_be, len_lp, (array_len 16 _ H1). lia.
Qed.

Lemma OpenBudget_spec data dek v g s b : OpenBudget data dek v g s = Ok b <->
  budget_ok b /\ SealBudget b dek = Ok data /\ bud_VaultID b = v /\ bud_Generation b = g /\ bud_StoreID b = s.
Proof.
  unfold OpenBudget, SealBudget, budgetKey. split.
  - intros Ho. apply result_bind_ok in Ho as ([h p] & Hs & Ho). apply bind_reject_ok in Ho as [Hp Ho]. apply result_bind_ok in Ho as (b' & Hb & Ho).
    apply result_bind_ok in Ho as (k & Hk & Ho). apply bind_reject_ok in Ho as [Hm Ho]. apply bind_reject_ok in Ho as [Hid Ho]. apply Ok_inj in Ho as ->.
    apply parse_budget_spec in Hb as [Hok Hf]. apply split_spec in Hs as (Hl & f & _ & _ & -> & ->); [|done]. rewrite fields_container in Hf by done. subst f.
    bool_facts. repeat match goal with H : str_eq _ _ = true |- _ => apply str_eq_spec in H end.
    match goal with H : len p = 32 |- _ => rewrite H in * end.
    change (container budgetMagic (budget_fields b) 32) with (budget_header b) in *.
    split_and!; try assumption; try apply Hok. destruct (Hok) as (_ & _ & _ & _ & Hv). rewrite Hv. cbn [result_bind]. rewrite Hk. cbn [result_bind]. by subst p.
  - intros (Hok & Hs & <- & <- & <-). apply result_bind_ok in Hs as ([] & Hv & Hs). apply result_bind_ok in Hs as (k & Hk & Hs).
    apply Ok_inj in Hs as <-. rewrite budget_split by (done || apply hmac_length). cbn [result_bind]. rewrite hmac_length. simpl (negb _).
    cbn [reject_if result_bind]. rewrite (proj2 (parse_budget_spec (budget_header b) b)).
    + cbn [result_bind]. rewrite Hk. cbn [result_bind]. rewrite !str_eq_refl, Z.eqb_refl. done.
    + split; [done|]. by apply fields_container.
Qed.

Lemma OpenMeta_spec data wk sid m dek : OpenMeta data wk sid = Ok (m, dek) <->
  meta_ok m /\ SealMeta m wk dek = Ok data /\ meta_StoreID m = sid.
Proof.
  unfold OpenMeta, SealMeta. split.
  - intros Ho. apply result_bind_ok in Ho as (m' & Hm & Ho). apply result_bind_ok in Ho as ([] & Hk & Ho). apply result_bind_ok in Ho as ([h p] & Hs & Ho).
    apply ParseMeta_spec in Hm as (Hok & h' & p' & Hh & Hp & -> & Hs'). rewrite Hs' in Hs. apply Ok_inj, pair_eq in Hs as [<- <-].
    destruct (Open wk (meta_Nonce m') p' h') as [d|] eqn:E; [|done]. apply bind_reject_ok in Ho as [Hid Ho]. apply Ok_inj, pair_eq in Ho as [-> ->].
    bool_facts. apply str_eq_spec in Hid. apply open_exact in E as ->. rewrite seal_length in Hp. split_and!; try apply Hok; [|done].
    assert (len dek = 32) as -> by lia. simpl (negb _). cbn [reject_if result_bind]. rewrite Hh. cbn [result_bind]. by rewrite Hk.
  - intros (Hok & Hs & <-). apply bind_reject_ok in Hs as [Hd Hs]. apply result_bind_ok in Hs as (h & Hh & Hs). apply result_bind_ok in Hs as ([] & Hk & Hs).
    apply Ok_inj in Hs as <-. bool_facts. assert (Hp : len (Seal wk (meta_Nonce m) dek h) = 48) by (rewrite seal_length; lia).
    assert (Hsp : split (h +:+ Seal wk (meta_Nonce m) dek h) metaMagic MaxMetaBytes = Ok (h, Seal wk (meta_Nonce m) dek h)).
    { apply metaHeader_spec in Hh as [_ ->]. by apply split_meta. }
    rewrite (proj2 (ParseMeta_spec _ m)); [|split; [done|]; eexists _, _; by split_and!]. cbn [result_bind]. rewrite Hk. cbn [result_bind].
    rewrite Hsp. cbn [result_bind]. rewrite open_seal, str_eq_refl. done.
Qed.

Lemma validate_identity_fields i nonce flag n : identity_ok i -> array 12 nonce -> len (item_fields i nonce flag n) <= 51 + 2 * MaxIDBytes.
Proof.
  intros (H1 & _ & H3) H4. destruct (validate_identity_len i H3) as [H5 H6]. unfold item_fields.
  rewrite !len_app, !len_be, !len_lp, (array_len 16 _ H1), (array_len 12 _ H4). unfold MaxIDBytes in *. lia.
Qed.

(** The header that [SealItem] writes for an expiry. *)
Lemma sealed_header i nonce e n : match e with Some t => instant t | None => True end ->
  expiryFields (mkSecret "" e) = Ok ((expiry_bytes e).1, match e with Some t => t | None => 0 end) /\
  item_header i nonce (expiry_bytes e).1 (match e with Some t => t | None => 0 end) n =
  container itemMagic (item_fields i nonce (expiry_bytes e).1 (expiry_bytes e).2) n.
Proof.
  intros He. unfold expiryFields, item_header, item_fields. destruct e as [t|]; cbn [ExpiresAt expiry_bytes fst snd]; [|done]. rewrite (proj2 (signed64_small t He)), Z.eqb_refl.
  split; [done|]. change (2 ^ 64) with (256 ^ Z.of_nat 8). by rewrite be_mod.
Qed.

Definition secret_ok (s : Secret) : Prop := match ExpiresAt s with Some t => instant t | None => True end.

Lemma OpenItem_spec data key i s : OpenItem data key i = Ok s <->
  identity_ok i /\ secret_ok s /\ exists nonce, array 12 nonce /\ SealItem i nonce key s = Ok data.
Proof.
  destruct s as [value e]. unfold secret_ok. cbn [ExpiresAt]. unfold OpenItem, SealItem, split_item. split.
  - intros Ho. apply result_bind_ok in Ho as ([] & Hv & Ho). apply result_bind_ok in Ho as ([h p] & Hs & Ho).
    apply result_bind_ok in Hs as ([h0 p0] & Hs & Hb). apply bind_reject_ok in Hb as [Hb Hp]. apply Ok_inj, pair_eq in Hp as [-> ->].
    apply result_bind_ok in Ho as ([[i' nonce] e'] & Hh & Ho). apply result_bind_ok in Ho as ([] & Hk & Ho).
    destruct (Open key nonce p h) as [value'|] eqn:E; [|done]. apply bind_reject_ok in Ho as [Hid Ho]. apply Ok_inj in Ho as [= <- ->].
    bool_facts. subst i'. apply parseItemHeader_spec in Hh as (Hok & Hn & He & Hf). apply split_spec in Hs as (_ & f & _ & _ & -> & ->); [|done].
    rewrite fields_container in Hf by done. subst f. destruct (sealed_header i nonce e (len p) He) as [Hx Hhd].
    apply open_exact in E. pose proof (f_equal len E) as Hlen. rewrite seal_length in Hlen.
    split_and!; try apply Hok; [done|]. exists nonce. split; [done|]. rewrite Hv. cbn [result_bind Value]. unfold reject_if.
    assert (Hz : (len value' =? 0) || (MaxSecretBytes <? len value') = false) by (rewrite orb_false_iff, Z.eqb_neq, Z.ltb_ge; lia). rewrite Hz. cbn [result_bind].
    change (expiryFields (mkSecret value' e)) with (expiryFields (mkSecret "" e)). rewrite Hx. cbn [result_bind]. rewrite Hk. cbn [result_bind].
    rewrite <- Hlen, Hhd. by rewrite <- E.
  - intros (Hok & He & nonce & Hn & Hs). destruct (Hok) as (_ & _ & Hv). apply result_bind_ok in Hs as ([] & _ & Hs). apply bind_reject_ok in Hs as [Hz Hs].
    apply result_bind_ok in Hs as ([flag ex] & Hx & Hs). apply result_bind_ok in Hs as ([] & Hk & Hs). apply Ok_inj in Hs as <-.
    cbn [Value] in *. destruct (sealed_header i nonce e (len value + 16) He) as [Hx' Hhd].
    change (expiryFields (mkSecret value e)) with (expiryFields (mkSecret "" e)) in Hx. rewrite Hx' in Hx. apply Ok_inj, pair_eq in Hx as [<- <-].
    rewrite Hhd. set (h := container _ _ _). rewrite Hv. cbn [result_bind]. bool_facts.
    pose proof (validate_identity_fields i nonce (expiry_bytes e).1 (expiry_bytes e).2 Hok Hn) as Hlf. pose proof (len_pos value).
    assert (Hsp : split (h +:+ Seal key nonce value h) itemMagic MaxItemBytes = Ok (h, Seal key nonce value h)).
    { apply split_spec; [done|]. rewrite len_app, seal_length. unfold h at 1. rewrite container_length by done. unfold MaxIDBytes, MaxItemBytes, MaxSecretBytes in *.
      split; [lia|]. exists (item_fields i nonce (expiry_bytes e).1 (expiry_bytes e).2). split_and!; [lia|lia|done|done]. }
    rewrite Hsp. cbn [result_bind]. rewrite seal_length.
    assert (Hb : (len value + 16 <? 17) || (MaxSecretBytes + 16 <? len value + 16) = false) by (rewrite orb_false_iff, !Z.ltb_ge; lia). rewrite Hb. cbn [reject_if result_bind].
    rewrite (proj2 (parseItemHeader_spec h i nonce e)); [|split_and!; try apply Hok; try done; by apply fields_container]. cbn [result_bind].
    rewrite Hk. cbn [result_bind]. rewrite open_seal, bool_decide_eq_true_2 by done. done.
Qed.
End Sealed.

(** * Streaming a manifest *)
Section Verify.
Context `{CryptoLaws}.

(** A file layer that adds every block and stops at the first that is refused. *)
Fixpoint add_all (datas : list string) (v : ManifestVerifier) : result vault_error ManifestVerifier :=
  match datas with
  | [] => Ok v
  | data :: datas => let '(r, v) := Add data v in try _ := r;; add_all datas v
  end.
Definition verify_manifest (blocks items : Z) (datas : list string) (root : string) : result vault_error unit :=
  try v := NewManifestVerifier blocks items;;
  try v := add_all datas v;;
  (Finish root v).1.

(** What a snapshot is: consecutive blocks whose entries are, all together,
    strictly increasing. *)
Fixpoint consecutive (at_ : Z) (ms : list ManifestBlock) : Prop :=
  match ms with [] => True | m :: ms => Index m = at_ /\ consecutive (at_ + 1) ms end.
Definition all_entries (ms : list ManifestBlock) : list ManifestEntry := concat (map Entries ms).

Definition previous (v : ManifestVerifier) : option string := if 0 <? v_blocks v then Some (lastID v) else None.

Lemma ascending_app es1 es2 : forall prev, es1 <> [] ->
  ascending prev (es1 ++ es2) <-> ascending prev es1 /\ ascending (Some (last_id es1)) es2.
Proof.
  induction es1 as [|e es1 IH]; intros prev Hne; [done|]. destruct es1 as [|e' es1]; [simpl; unfold last_id; simpl; tauto|].
  change ((e :: e' :: es1) ++ es2) with (e :: ((e' :: es1) ++ es2)). cbn [ascending]. rewrite (IH (Some (e_ItemID e))) by done.
  change (last_id (e :: e' :: es1)) with (last_id (e' :: es1)). cbn [ascending]. tauto.
Qed.
Lemma ascending_first prev es : es <> [] ->
  ascending prev es <-> match prev with Some p => String.ltb p (first_id es) = true | None => True end /\ ascending None es.
Proof. destruct es as [|e es]; [done|]. simpl. tauto. Qed.

Lemma marshal_nonempty m data : marshal_block m = Ok data -> Entries m <> [] /\ ascending None (Entries m).
Proof. intros Hm. apply marshal_block_spec in Hm as (_ & [Hl _] & _ & Ha & _ & _). split; [|done]. intros E. by rewrite E in Hl. Qed.

Lemma last_id_app (a b : list ManifestEntry) : b <> [] -> last_id (a ++ b) = last_id b.
Proof. intros Hb. unfold last_id. rewrite last_app. destruct (last b) eqn:E; [done|]. by apply last_None in E. Qed.
Lemma entries_nonempty datas m ms : Forall2 (fun data m => ParseManifestBlock data = Ok m) datas (m :: ms) -> all_entries (m :: ms) <> [].
Proof.
  intros Hall. apply Forall2_cons_inv_r in Hall as (d & ds & Hp & _ & _). apply ParseManifestBlock_spec in Hp as [_ Hp].
  apply marshal_nonempty in Hp as [Hp _]. unfold all_entries. simpl. by destruct (Entries m).
Qed.

Lemma Add_spec data v v' : finished v = false -> 0 <= v_blocks v ->
  Add data v = (Ok tt, v') <->
  exists m, ParseManifestBlock data = Ok m /\ v_blocks v < expectedBlocks v /\ Index m = v_blocks v /\ ascending (previous v) (Entries m) /\
    v_items v + Z.of_nat (length (Entries m)) <= expectedItems v /\
    v' = mkVerifier (v_hashed v +:+ sha256 data) (expectedBlocks v) (expectedItems v) (v_blocks v + 1)
           (v_items v + Z.of_nat (length (Entries m))) (last_id (Entries m)) false.
Proof.
  intros Hf Hb. unfold Add. rewrite Hf. simpl. destruct (Z.leb_spec (expectedBlocks v) (v_blocks v)) as [Hl|Hl].
  { split; [done|]. intros (m & _ & Hc & _). lia. }
  destruct (ParseManifestBlock data) as [m|e] eqn:Hm; [|split; [done|]; by intros (m & ? & _)].
  pose proof (proj1 (ParseManifestBlock_spec data m) Hm) as [_ Hmar]. destruct (marshal_nonempty m data Hmar) as [Hne Hasc].
  assert (Hcond : negb (Index m =? v_blocks v) || ((0 <? v_blocks v) && negb (String.ltb (lastID v) (first_id (Entries m)))) = false <->
    Index m = v_blocks v /\ ascending (previous v) (Entries m)).
  { rewrite orb_false_iff, negb_false_iff, Z.eqb_eq, ascending_first by done. unfold previous. destruct (0 <? v_blocks v); simpl.
    - rewrite negb_false_iff. tauto.
    - tauto. }
  destruct (_ || _) eqn:Ec.
  { split; [done|]. intros (m' & Em & _ & Hi & Ha & _). apply Ok_inj in Em as <-. by pose proof (proj2 Hcond (conj Hi Ha)). }
  destruct (proj1 Hcond eq_refl) as [Hi Ha]. destruct (Z.ltb_spec (expectedItems v - v_items v) (Z.of_nat (length (Entries m)))) as [Hs|Hs].
  { split; [done|]. intros (m' & Em & _ & _ & _ & Hc & _). apply Ok_inj in Em as <-. lia. }
  split.
  - intros E. apply pair_eq in E as [_ <-]. exists m. split_and!; try done. lia.
  - intros (m' & Em & _ & _ & _ & _ & ->). by apply Ok_inj in Em as <-.
Qed.

Lemma add_all_spec datas : forall v v', finished v = false -> 0 <= v_blocks v ->
  add_all datas v = Ok v' <->
  exists ms, Forall2 (fun data m => ParseManifestBlock data = Ok m) datas ms /\
    (ms = [] \/ v_blocks v + Z.of_nat (length ms) <= expectedBlocks v) /\ consecutive (v_blocks v) ms /\ ascending (previous v) (all_entries ms) /\
    (ms = [] \/ v_items v + Z.of_nat (length (all_entries ms)) <= expectedItems v) /\
    v' = mkVerifier (v_hashed v +:+ String.concat "" (map sha256 datas)) (expectedBlocks v) (expectedItems v) (v_blocks v + Z.of_nat (length ms))
           (v_items v + Z.of_nat (length (all_entries ms))) (match ms with [] => lastID v | _ => last_id (all_entries ms) end) false.
Proof.
  induction datas as [|data datas IH]; intros v v' Hf Hb; cbn [add_all].
  - split.
    + intros E. apply Ok_inj in E as <-. exists []. split_and!; try done; try by left. destruct v. simpl in *. subst. f_equal; [by rewrite app_nil_r_str|lia|lia].
    + intros (ms & Hall & _ & _ & _ & _ & ->). apply Forall2_nil_inv_l in Hall as ->. destruct v. simpl in *. subst. f_equal.
      f_equal; [by rewrite app_nil_r_str|lia|lia].
  - destruct (Add data v) as [r v1] eqn:Ea. split.
    + intros E. apply result_bind_ok in E as ([] & -> & E). apply Add_spec in Ea as (m & Hm & Hl & Hi & Ha & Hs & ->); [|done|done].
      apply IH in E as (ms & Hall & Hbl & Hcon & Hasc & Hit & ->); [|done|simpl; lia]. cbn [v_hashed expectedBlocks expectedItems v_blocks v_items lastID] in *.
      pose proof (proj1 (ParseManifestBlock_spec data m) Hm) as [_ Hmar]. destruct (marshal_nonempty m data Hmar) as [Hne _].
      assert (Hprev : ascending (Some (last_id (Entries m))) (all_entries ms)).
      { unfold previous in Hasc. simpl in Hasc. destruct (Z.ltb_spec 0 (v_blocks v + 1)); [done|lia]. }
      exists (m :: ms). change (all_entries (m :: ms)) with (Entries m ++ all_entries ms). cbn [map length]. rewrite concat_cons, length_app. split_and!.
      * by constructor.
      * right. destruct Hbl as [->|]; simpl; lia.
      * done.
      * by apply ascending_app.
      * right. destruct Hit as [->|]; simpl; lia.
      * f_equal; [by rewrite app_assoc_str|lia|lia|]. destruct ms as [|m' ms]; [simpl; by rewrite app_nil_r|].
        symmetry. apply last_id_app. by apply (entries_nonempty datas).
    + intros (ms & Hall & Hbl & Hcon & Hasc & Hit & ->). apply Forall2_cons_inv_l in Hall as (m & ms' & Hm & Hall & ->).
      pose proof (proj1 (ParseManifestBlock_spec data m) Hm) as [_ Hmar]. destruct (marshal_nonempty m data Hmar) as [Hne _].
      destruct Hbl as [|Hbl]; [done|]. destruct Hit as [|Hit]; [done|]. destruct Hcon as [Hi Hcon]. change (all_entries (m :: ms')) with (Entries m ++ all_entries ms') in *. cbn [length] in *.
      rewrite length_app in *. apply ascending_app in Hasc as [Ha1 Ha2]; [|done].
      assert (Eadd := proj2 (Add_spec data v (mkVerifier (v_hashed v +:+ sha256 data) (expectedBlocks v) (expectedItems v) (v_blocks v + 1)
           (v_items v + Z.of_nat (length (Entries m))) (last_id (Entries m)) false) Hf Hb)).
      rewrite Eadd in Ea by (exists m; split_and!; try done; lia). apply pair_eq in Ea as [<- <-]. cbn [result_bind]. apply IH; [done|simpl; lia|].
      exists ms'. cbn [v_hashed expectedBlocks expectedItems v_blocks v_items lastID map]. rewrite concat_cons. split_and!; try done.
      * right. lia.
      * unfold previous. cbn [v_blocks lastID]. destruct (Z.ltb_spec 0 (v_blocks v + 1)); [done|lia].
      * right. lia.
      * f_equal; [by rewrite app_assoc_str|lia|lia|]. destruct ms' as [|m' ms']; [simpl; by rewrite app_nil_r|].
        apply last_id_app. by apply (entries_nonempty datas).
Qed.
End Verify.

(** * What the formats promise *)

(** C17: one encoding for each value.  The publication pointer, a manifest block and
    the payload of a transaction are accepted exactly when they are the bytes that
    encoding a valid value gives, and wrapping metadata exactly when it is such a
    header with a wrapped key behind it; so what was written is read back, and no
    byte can change, be added or be left out without being noticed or making
    another value. *)
Theorem vault_formats_exact :
  (forall data c, ParseCurrent data = Ok c <-> current_ok c /\ marshal_current c = Ok data) /\
  (forall data m, ParseManifestBlock data = Ok m <-> block_ok m /\ marshal_block m = Ok data) /\
  (forall data t, parseTransactionPayload data = Ok t <-> transaction_ok t /\ payload t = Ok data) /\
  (forall data m, ParseMeta data = Ok m <-> meta_ok m /\ exists h p, metaHeader m = Ok h /\ len p = 48 /\ data = h +:+ p).
Proof.
  split_and!; [apply ParseCurrent_spec|apply ParseManifestBlock_spec|apply parseTransactionPayload_spec|].
  intros data m. rewrite ParseMeta_spec. split; intros (Hok & h & p & Hh & Hp & E); (split; [done|]); exists h, p.
  - by destruct E as [-> _].
  - split_and!; try done. subst. apply metaHeader_spec in Hh as [_ ->]. by apply split_meta.
Qed.

Section Promises.
Context `{CryptoLaws}.

(** C23: an item gives its secret, with its expiry, to the key and the identity that
    it was sealed under, and to nothing else: it opens exactly when it is what
    [SealItem] made of that secret under this key for this vault, generation, store
    and item.  An item of another identity is refused as such, and a sealed item is
    never larger than what is accepted. *)
Theorem vault_items_authentic data key i s :
  (OpenItem data key i = Ok s <-> identity_ok i /\ secret_ok s /\ exists nonce, array 12 nonce /\ SealItem i nonce key s = Ok data) /\
  (forall j nonce, identity_ok i -> identity_ok j -> i <> j -> secret_ok s -> array 12 nonce -> SealItem j nonce key s = Ok data ->
     OpenItem data key i = Err EIdentity /\ InspectItem data = Ok j) /\
  (forall nonce, identity_ok i -> secret_ok s -> array 12 nonce -> SealItem i nonce key s = Ok data -> len data <= MaxItemBytes).
Proof.
  split; [apply OpenItem_spec|]. split.
  - intros j nonce Hi Hj Hne Hs Hn Hseal. assert (Ho : OpenItem data key j = Ok s) by (apply OpenItem_spec; eauto).
    unfold OpenItem in *. apply result_bind_ok in Ho as ([] & _ & Ho). apply result_bind_ok in Ho as ([h p] & Hsp & Ho).
    apply result_bind_ok in Ho as ([[i' n'] e'] & Hh & Ho). apply result_bind_ok in Ho as ([] & Hk & Ho).
    destruct (Open key n' p h) as [value|] eqn:E; [|done]. apply bind_reject_ok in Ho as [Hid _]. bool_facts. subst i'.
    destruct (Hi) as (_ & _ & Hv). rewrite Hv. cbn [result_bind]. unfold InspectItem. rewrite Hsp. cbn [result_bind]. rewrite Hh. cbn [result_bind].
    rewrite Hk. cbn [result_bind]. rewrite E. by rewrite bool_decide_eq_false_2.
  - intros nonce Hi Hs Hn Hseal. assert (Ho : OpenItem data key i = Ok s) by (apply OpenItem_spec; eauto).
    unfold OpenItem, split_item in Ho. apply result_bind_ok in Ho as ([] & _ & Ho). apply result_bind_ok in Ho as ([h p] & Hsp & _).
    apply result_bind_ok in Hsp as ([h' p'] & Hsp & _). by apply split_spec in Hsp as [? _].
Qed.

(** wrapped keys and budgets.  A wrapped data key comes out under its wrapping
    key and store exactly when it is what [SealMeta] made of it, and a reservation
    count is accepted under its key exactly when it is what [SealBudget] made of a
    valid count of this vault, generation and store. *)
Theorem vault_keys_authentic :
  (forall data wk store m dek, OpenMeta data wk store = Ok (m, dek) <->
     meta_ok m /\ SealMeta m wk dek = Ok data /\ meta_StoreID m = store) /\
  (forall data dek vault generation store b, OpenBudget data dek vault generation store = Ok b <->
     budget_ok b /\ SealBudget b dek = Ok data /\ bud_VaultID b = vault /\ bud_Generation b = generation /\ bud_StoreID b = store).
Proof. split; [apply OpenMeta_spec|apply OpenBudget_spec]. Qed.

(** C28: a manifest that is streamed through the verifier block by block is accepted
    exactly when it is the snapshot that was authenticated: the promised numbers of
    blocks and entries, blocks numbered from zero, identifiers strictly increasing
    over the whole snapshot, and the root of their hashes.  The verifier keeps only
    the last identifier and its counts; a block that it refuses changes nothing. *)
Theorem manifest_streamed blocks items datas root :
  (verify_manifest blocks items datas root = Ok tt <->
   0 <= blocks /\ blocks <= items /\ items <= MaxEncryptions /\ (blocks = 0 -> items = 0) /\
   exists ms, Forall2 (fun data m => ParseManifestBlock data = Ok m) datas ms /\
     Z.of_nat (length ms) = blocks /\ consecutive 0 ms /\ ascending None (all_entries ms) /\
     Z.of_nat (length (all_entries ms)) = items /\ ManifestRoot (map sha256 datas) = Ok root) /\
  (forall data v e, (Add data v).1 = Err e -> (Add data v).2 = v).
Proof.
  split.
  - unfold verify_manifest, NewManifestVerifier. split.
    + intros Hv. apply result_bind_ok in Hv as (v & Hn & Hv). apply bind_reject_ok in Hn as [Hl Hn]. apply Ok_inj in Hn as <-.
      apply result_bind_ok in Hv as (v' & Ha & Hv). apply add_all_spec in Ha as (ms & Hall & _ & Hcon & Hasc & _ & ->); [|done|done].
      unfold Finish in Hv. simpl in Hv. result_inv. bool_facts. pose proof (Forall2_length _ _ _ Hall) as Hlen.
      assert (Hb : Z.of_nat (length ms) = blocks) by lia. assert (Hi : Z.of_nat (length (all_entries ms)) = items) by lia.
      split_and!; try lia. exists ms. split_and!; try done. unfold ManifestRoot. rewrite length_map, Hlen, Hb.
      match goal with H : str_eq _ root = true |- _ => apply str_eq_spec in H as <- end.
      unfold reject_if. rewrite (proj2 (Z.ltb_ge _ _)) by lia. done.
    + intros (H1 & H2 & H3 & H4 & ms & Hall & Hb & Hcon & Hasc & Hi & Hroot). pose proof (Forall2_length _ _ _ Hall) as Hlen.
      assert (Hl : (MaxEncryptions <? blocks) || (MaxEncryptions <? items) || (items <? blocks) || ((blocks =? 0) && negb (items =? 0)) = false).
      { rewrite !orb_false_iff, !Z.ltb_ge, andb_false_iff, negb_false_iff, Z.eqb_neq, Z.eqb_eq. split_and!; lia. }
      rewrite Hl. cbn [reject_if result_bind].
      erewrite (proj2 (add_all_spec datas (mkVerifier (root_header blocks) blocks items 0 0 "" false) _ eq_refl ltac:(simpl; lia))).
      2:{ exists ms. cbn [v_hashed expectedBlocks expectedItems v_blocks v_items lastID]. split_and!; try done; right; lia. }
      cbn [result_bind]. unfold Finish. cbn [v_hashed expectedBlocks expectedItems v_blocks v_items lastID finished fst].
      rewrite Hb, Hi, !Z.add_0_l, !Z.eqb_refl. cbn [negb orb reject_if result_bind]. unfold ManifestRoot in Hroot. apply bind_reject_ok in Hroot as [_ Hroot].
      apply Ok_inj in Hroot as <-. rewrite length_map, Hlen, Hb. by rewrite str_eq_refl.
  - intros data v e. unfold Add. destruct (_ || _); [done|]. destruct (ParseManifestBlock data); [|done]. by repeat (destruct (_ : bool); try done).
Qed.

Definition identity_of (e : Endpoint) : KeyIdentity := mkKeyIdentity (ep_VaultID e) (ep_Generation e) (ep_StoreID e).

(** the state of a maintenance operation.  Sealed for its source, its target or
    both, it opens under each of those keys for that side's identity, and is the
    transaction that was sealed; whatever opens an envelope opened the payload that
    it holds, under a MAC of exactly these bytes for that side, so that no key, side
    or identity gives another transaction. *)
Theorem transaction_sealed t sourceKey targetKey env : transaction_ok t -> SealTransaction t sourceKey targetKey = Ok env ->
  (sourceKey <> "" -> OpenTransaction (Ok env) sourceKey (identity_of (Source t)) false = Ok t) /\
  (targetKey <> "" -> OpenTransaction (Ok env) targetKey (identity_of (Target t)) true = Ok t) /\
  (forall key expected target t', OpenTransaction (Ok env) key expected target = Ok t' ->
     t' = t /\ let e := if target then Target t else Source t in
     identity_of e = expected /\ transactionMAC e key (env_payload env) = Ok (if target then target_mac env else source_mac env)).
Proof.
  intros Hok Hs. unfold SealTransaction in Hs. apply result_bind_ok in Hs as (p & Hp & Hs). apply bind_reject_ok in Hs as [_ Hs].
  apply result_bind_ok in Hs as (sm & Hsm & Hs). apply result_bind_ok in Hs as (tm & Htm & Hs). apply Ok_inj in Hs as <-.
  pose proof (proj2 (parseTransactionPayload_spec p t) (conj Hok Hp)) as Hparse.
  assert (Hopen : forall (target : bool) key m, key <> "" ->
    mac_or_empty (if target then Target t else Source t) key p = Ok m -> m = (if target then tm else sm) ->
    OpenTransaction (Ok (mkEnvelope p sm tm)) key (identity_of (if target then Target t else Source t)) target = Ok t).
  { intros target key m Hne Hm ->. set (e := if target then Target t else Source t) in *. unfold mac_or_empty in Hm.
    rewrite (proj2 (str_eq_false key "")) in Hm by done. unfold OpenTransaction, identity_of. cbn [k_Generation k_StoreID k_VaultID env_payload].
    assert (He : ep_Generation e =? 0 = false /\ identifier (ep_StoreID e) = Ok tt).
    { unfold transactionMAC in Hm. apply result_bind_ok in Hm as ([] & Hv & _). unfold validate_endpoint in Hv. apply bind_reject_ok in Hv as [Hv Hi]. bool_facts.
      split; [by apply Z.eqb_neq|done]. }
    destruct He as [-> ->]. cbn [is_ok negb orb reject_if result_bind env_payload]. rewrite Hparse. cbn [result_bind]. fold e.
    rewrite !str_eq_refl, Z.eqb_refl. cbn [negb orb reject_if result_bind]. rewrite Hm. cbn [result_bind source_mac target_mac].
    destruct target; by rewrite str_eq_refl. }
  split_and!.
  - intros Hne. by apply (Hopen false sourceKey sm).
  - intros Hne. by apply (Hopen true targetKey tm).
  - intros key expected target t' Ho. unfold OpenTransaction in Ho. apply bind_reject_ok in Ho as [_ Ho]. cbn [result_bind env_payload] in Ho.
    rewrite Hparse in Ho. cbn [result_bind] in Ho. apply bind_reject_ok in Ho as [Hid Ho]. apply result_bind_ok in Ho as (m & Hm & Ho).
    apply bind_reject_ok in Ho as [Hmac Ho]. apply Ok_inj in Ho as <-. bool_facts. split; [done|]. cbv zeta.
    repeat match goal with H : str_eq _ _ = true |- _ => apply str_eq_spec in H end. split; [|by subst m].
    destruct expected. unfold identity_of. simpl in *. by subst.
Qed.
End Promises.

(** * A vault *)

(** Primitives that satisfy the laws, to run the formats. *)
Definition toy_seal (k n p a : string) : string := p +:+ zeros 16.
Definition toy_open (k n c a : string) : option string :=
  let m := (String.length c - 16)%nat in
  if (16 <=? String.length c)%nat && str_eq (drop_bytes m c) (zeros 16) then Some (take_bytes m c) else None.
#[local] Instance toy_crypto : Crypto := {|
  Seal := toy_seal;
  Open := toy_open;
  hkdf k s i := be 32 (unbe k + unbe s + unbe i);
  hmac k m := be 32 (unbe k + unbe m);
  sha256 m := be 32 (unbe m)
|}.
#[local] Instance toy_laws : CryptoLaws.
Proof.
  split.
  - intros k n p a. simpl. unfold toy_seal. rewrite len_app. done.
  - intros k n p a. simpl. unfold toy_open, toy_seal. rewrite length_app_str. change (String.length (zeros 16)) with 16%nat.
    replace (String.length p + 16 - 16)%nat with (String.length p) by lia. rewrite drop_bytes_app, take_bytes_app, str_eq_refl.
    rewrite (proj2 (Nat.leb_le _ _)) by lia. done.
  - intros k n c p a. simpl. unfold toy_open, toy_seal. destruct (_ && _) eqn:E; [|done]. intros [= <-]. apply andb_true_iff in E as [E1 E2].
    apply str_eq_spec in E2. rewrite <- E2. apply Nat.leb_le in E1. rewrite take_drop; [done|lia].
  - intros k s i. simpl. unfold len. by rewrite be_length.
  - intros k m. simpl. unfold len. by rewrite be_length.
  - intros m. simpl. unfold len. by rewrite be_length.
Qed.

Definition sample_key : string := be 32 7.
Definition sample_identity : ItemIdentity := mkIdentity (be 16 1) 1 "store" "item".
Definition sample_secret : Secret := mkSecret "hunter2" (Some (-5)).
Definition sample_item : string :=
  match SealItem sample_identity (be 12 9) sample_key sample_secret with Ok d => d | Err _ => EmptyString end.
Definition sample_pointer : Current := mkCurrent (be 16 1) 3 1 (be 32 5).

Example sample_pointer_bytes : len (match marshal_current sample_pointer with Ok d => d | Err _ => "" end) = 80.
Proof. vm_compute. reflexivity. Qed.
Example sample_item_expiry : OpenItem sample_item sample_key sample_identity = Ok sample_secret.
Proof. vm_compute. reflexivity. Qed.

Lemma sample_identity_ok : identity_ok sample_identity.
Proof. split_and!; [done|unfold word; simpl; lia|vm_compute; reflexivity]. Qed.

Lemma vault_formats_exact_witness : exists data, marshal_current sample_pointer = Ok data /\ ParseCurrent data = Ok sample_pointer.
Proof.
  eexists. split; [vm_compute; reflexivity|]. apply (proj1 vault_formats_exact). split; [|vm_compute; reflexivity].
  split_and!; [done|unfold word; simpl; lia|unfold word; simpl; lia|done].
Defined.

Lemma vault_items_authentic_witness :
  OpenItem sample_item sample_key (mkIdentity (be 16 1) 1 "store" "other") = Err EIdentity.
Proof.
  assert (Hj : identity_ok (mkIdentity (be 16 1) 1 "store" "other")) by (split_and!; [done|unfold word; simpl; lia|vm_compute; reflexivity]).
  refine (proj1 (proj1 (proj2 (vault_items_authentic sample_item sample_key _ sample_secret)) sample_identity (be 12 9) Hj sample_identity_ok _ _ _ _)).
  - intros E. apply (f_equal it_ItemID) in E. done.
  - unfold secret_ok, instant. simpl. lia.
  - done.
  - vm_compute. reflexivity.
Defined.

Definition sample_meta : Meta := mkMeta WrapKeyFile (be 16 1) 1 3 (be 32 4) (be 12 8) "store".
Lemma vault_keys_authentic_witness : exists data,
  SealMeta sample_meta sample_key (be 32 6) = Ok data /\ OpenMeta data sample_key "store" = Ok (sample_meta, be 32 6).
Proof.
  eexists. split; [vm_compute; reflexivity|]. apply (proj1 vault_keys_authentic). split; [|split; [vm_compute; reflexivity|done]].
  split_and!; try done; try (unfold word; simpl; lia); vm_compute; reflexivity.
Defined.

Definition sample_block : ManifestBlock := mkBlock 0 [mkEntry "a" 100 (be 32 1); mkEntry "b" 100 (be 32 2)].
Definition sample_data : string := match marshal_block sample_block with Ok d => d | Err _ => EmptyString end.
Definition sample_root : string := match ManifestRoot [sha256 sample_data] with Ok r => r | Err _ => EmptyString end.
Lemma manifest_streamed_witness : verify_manifest 1 2 [sample_data] sample_root = Ok tt.
Proof.
  apply (proj1 (manifest_streamed 1 2 [sample_data] sample_root)). split_and!; [lia|lia|vm_compute; discriminate|done|].
  exists [sample_block]. split; [constructor; [vm_compute; reflexivity|constructor]|].
  split; [reflexivity|]. split; [by split|]. split; [by split_and!|]. split; vm_compute; reflexivity.
Defined.

Definition sample_endpoint (revision : Z) : Endpoint := mkEndpoint (be 16 1) "store" revision 1 (be 32 5) (be 32 6) 2.
Definition sample_transaction : Transaction := mkTransaction (be 16 2) OpRewrap Verified (sample_endpoint 1) (sample_endpoint 2) [].
Lemma transaction_sealed_witness : exists env,
  SealTransaction sample_transaction sample_key "" = Ok env /\
  OpenTransaction (Ok env) sample_key (identity_of (sample_endpoint 1)) false = Ok sample_transaction.
Proof.
  eexists. split; [vm_compute; reflexivity|]. refine (proj1 (transaction_sealed sample_transaction sample_key "" _ _ _) _).
  - split_and!; try done; unfold endpoint_ok, word; split_and!; try done; simpl; lia.
  - vm_compute. reflexivity.
  - done.
Defined.
