(* ===== verification/Cache.v ===== *)
(** Secrets kept in memory: pkg/credential cache.go, and the secrets of ref.go.

    A cache holds at most [capacity] secrets in a doubly linked list, the last used first, and
    forgets the last ones and those whose time has passed.  What it drops is overwritten.  Reads of
    the store below run without its lock, so an invalidation must fence off those
    that are on their way.  The theorems show that the linked list is the list it
    stands for, that no secret stays in the memory of a dropped entry, and that however reads and
    writes interleave, a cached secret is what the store holds once no write is
    between its effect and its return. *)
From S2P Require Export Prelude GoStrings.
From S2P Require Import GoNumbers Models Config Vault.
#[local] Open Scope Z_scope.

(** * Secrets and their memory *)

(** The entry of a secret: the bytes of its own copy, and whether its slice still refers to them. *)
Record Entry := mkEntry {
  e_key : string; e_bytes : string; e_held : bool; e_secretExpires : option Z;
  e_expiresAt : Z; e_prev : option nat; e_next : option nat
}.
Definition entry_secret (e : Entry) : Secret := mkSecret (if e_held e then e_bytes e else "") (e_secretExpires e).
(** ref.go [Zero] and [IsExpired]. *)
Fixpoint zeros (s : string) : string := match s with EmptyString => "" | String _ s => String nul (zeros s) end.
Definition Zero (e : Entry) : Entry :=
  mkEntry (e_key e) (if e_held e then zeros (e_bytes e) else e_bytes e) false None (e_expiresAt e) (e_prev e) (e_next e).
Definition set_links (e : Entry) (prev next : option nat) : Entry :=
  mkEntry (e_key e) (e_bytes e) (e_held e) (e_secretExpires e) (e_expiresAt e) prev next.
Definition IsExpired (s : Secret) (now : Z) : bool := match ExpiresAt s with None => false | Some t => t <? now end.

(** * The cache *)

(** The entries that were ever made are the heap; [made] is the address of the next one. *)
Record Cache := mkCache {
  capacity : Z; defaultTTL : Z;
  heap : gmap nat Entry; made : nat; entries : gmap string nat; head : option nat; tail : option nat;
  generations : gmap string Z; generationKeys : list string; globalClearEpoch : Z; nextFetchToken : Z
}.
Record FetchToken := mkFetch { token : Z; clearEpoch : Z }.
#[export] Instance FetchToken_eq_dec : EqDecision FetchToken.
Proof. solve_decision. Defined.
Definition no_token : FetchToken := mkFetch 0 0.
Definition next_uint64 (n : Z) : Z := (n + 1) mod 2 ^ 64.

Definition NewCache (capVal ttlVal : Z) : Cache :=
  mkCache (if capVal <? 0 then 0 else capVal) (if ttlVal <? 0 then 0 else ttlVal) ∅ O ∅ None None ∅ [] 0 0.
Definition disabled (c : Cache) : bool := (capacity c <=? 0) || (defaultTTL c <=? 0).

Definition set_heap (c : Cache) (h : gmap nat Entry) : Cache :=
  mkCache (capacity c) (defaultTTL c) h (made c) (entries c) (head c) (tail c) (generations c) (generationKeys c) (globalClearEpoch c) (nextFetchToken c).
Definition set_ends (c : Cache) (hd tl : option nat) : Cache :=
  mkCache (capacity c) (defaultTTL c) (heap c) (made c) (entries c) hd tl (generations c) (generationKeys c) (globalClearEpoch c) (nextFetchToken c).
Definition set_entries (c : Cache) (m : gmap string nat) : Cache :=
  mkCache (capacity c) (defaultTTL c) (heap c) (made c) m (head c) (tail c) (generations c) (generationKeys c) (globalClearEpoch c) (nextFetchToken c).
Definition set_generations (c : Cache) (g : gmap string Z) (keys : list string) : Cache :=
  mkCache (capacity c) (defaultTTL c) (heap c) (made c) (entries c) (head c) (tail c) g keys (globalClearEpoch c) (nextFetchToken c).
Definition set_counters (c : Cache) (epoch fetch : Z) : Cache :=
  mkCache (capacity c) (defaultTTL c) (heap c) (made c) (entries c) (head c) (tail c) (generations c) (generationKeys c) epoch fetch.
Definition alter_entry (c : Cache) (a : nat) (f : Entry -> Entry) : Cache := set_heap c (alter f a (heap c)).

(** ** The linked list *)
Definition links (c : Cache) (a : nat) : option nat * option nat :=
  match heap c !! a with Some e => (e_prev e, e_next e) | None => (None, None) end.
Definition with_prev (prev : option nat) (e : Entry) : Entry := set_links e prev (e_next e).
Definition with_next (next : option nat) (e : Entry) : Entry := set_links e (e_prev e) next.

Definition addToHeadLocked (c : Cache) (a : nat) : Cache :=
  let c := alter_entry c a (fun e => set_links e None (head c)) in
  let c := match head c with Some h => alter_entry c h (with_prev (Some a)) | None => c end in
  set_ends c (Some a) (match tail c with None => Some a | Some t => Some t end).
Definition detachLocked (c : Cache) (a : nat) : Cache :=
  let '(prev, next) := links c a in
  let c := match prev with Some p => alter_entry c p (with_next next) | None => set_ends c next (tail c) end in
  let c := match next with Some n => alter_entry c n (with_prev prev) | None => set_ends c (head c) prev end in
  alter_entry c a (fun e => set_links e None None).
Definition moveToHeadLocked (c : Cache) (a : nat) : Cache :=
  if bool_decide (head c = Some a) then c else addToHeadLocked (detachLocked c a) a.
Definition removeEntryLocked (c : Cache) (a : nat) : Cache :=
  match heap c !! a with
  | None => c
  | Some e => alter_entry (detachLocked (set_entries c (delete (e_key e) (entries c))) a) a Zero
  end.

(** ** Lookups *)
Definition Get (c : Cache) (ref : Ref) (now : Z) : Cache * option Secret :=
  let key := ref_String ref in
  if disabled c || str_eq key "" then (c, None)
  else match (a ← entries c !! key; e ← heap c !! a; Some (a, e)) with
       | None => (c, None)
       | Some (a, e) => if e_expiresAt e <? now then (removeEntryLocked c a, None)
                        else (moveToHeadLocked c a, Some (entry_secret e))
       end.

(** ** Fetches *)
Definition removeGenerationKeyLocked (key : string) (keys : list string) : list string := List.filter (fun k => negb (str_eq k key)) keys.

Section Order.
Context `{Ord : KeyOrder}.

(** Eviction until there is room, in the order of the queue, and then of a range over the map. *)
Fixpoint drop_any (cap : Z) (g : gmap string Z) (keys : list string) : gmap string Z :=
  match keys with
  | [] => g
  | k :: keys => if Z.of_nat (size g) <? cap then g else drop_any cap (delete k g) keys
  end.
Fixpoint evict (cap : Z) (g : gmap string Z) (keys : list string) : gmap string Z * list string :=
  if Z.of_nat (size g) <? cap then (g, keys)
  else match keys with
       | [] => (drop_any cap g (keys_of g), [])
       | oldest :: keys => evict cap (delete oldest g) keys
       end.
Definition StartFetch (c : Cache) (ref : Ref) : Cache * FetchToken :=
  let key := ref_String ref in
  if disabled c || str_eq key "" then (c, no_token)
  else
    let tokenVal := next_uint64 (nextFetchToken c) in
    let keys := match generations c !! key with Some _ => removeGenerationKeyLocked key (generationKeys c) | None => generationKeys c end in
    let '(g, keys) := evict (capacity c) (generations c) keys in
    (set_generations (set_counters c (globalClearEpoch c) tokenVal) (<[key := tokenVal]> g) (keys ++ [key]),
     mkFetch tokenVal (globalClearEpoch c)).
End Order.

(** The fetch of a key is over. *)
Definition forget_fetch (c : Cache) (key : string) : Cache :=
  set_generations c (delete key (generations c)) (removeGenerationKeyLocked key (generationKeys c)).
Definition CancelFetch (c : Cache) (ref : Ref) (ft : FetchToken) : Cache :=
  let key := ref_String ref in
  if (token ft =? 0) || str_eq key "" then c
  else match generations c !! key with
       | Some cur => if cur =? token ft then forget_fetch c key else c
       | None => c
       end.

(** ** Insertion *)
Definition calculateExpiry (c : Cache) (now : Z) (backendExp : option Z) : option Z :=
  if defaultTTL c <=? 0 then None
  else let ttlExp := now + defaultTTL c in
       match backendExp with
       | None => Some ttlExp
       | Some t => if t <? ttlExp then (if t <? now then None else Some t) else Some ttlExp
       end.
(** The last entries go until there is room; every round removes one. *)
Fixpoint evict_tail (fuel : nat) (c : Cache) : Cache :=
  match fuel with
  | O => c
  | S fuel => if Z.of_nat (size (entries c)) <? capacity c then c
              else match tail c with None => c | Some t => evict_tail fuel (removeEntryLocked c t) end
  end.
Definition insert_entry (c : Cache) (key : string) (secret : Secret) (expiresAt : Z) : Cache :=
  let a := made c in
  let e := mkEntry key (Value secret) true (ExpiresAt secret) expiresAt None None in
  let c := mkCache (capacity c) (defaultTTL c) (<[a := e]> (heap c)) (S a) (entries c) (head c) (tail c) (generations c) (generationKeys c)
             (globalClearEpoch c) (nextFetchToken c) in
  let c := addToHeadLocked c a in
  set_entries c (<[key := a]> (entries c)).
Definition putLocked (c : Cache) (key : string) (secret : Secret) (now : Z) : Cache :=
  match calculateExpiry c now (ExpiresAt secret) with
  | None => c
  | Some expiresAt =>
      let c := match entries c !! key with Some a => removeEntryLocked c a | None => c end in
      let c := evict_tail (size (entries c)) c in
      insert_entry c key secret expiresAt
  end.
Definition Put (c : Cache) (ref : Ref) (secret : Secret) (now : Z) : Cache :=
  let key := ref_String ref in
  if disabled c || str_eq key "" then c else putLocked (forget_fetch c key) key secret now.
Definition PutIfMatch (c : Cache) (ref : Ref) (secret : Secret) (ft : FetchToken) (now : Z) : Cache :=
  let key := ref_String ref in
  if disabled c || (token ft =? 0) || str_eq key "" then c
  else if negb (clearEpoch ft =? globalClearEpoch c) then c
  else match generations c !! key with
       | Some cur => if cur =? token ft then putLocked (forget_fetch c key) key secret now else c
       | None => c
       end.

(** ** Invalidation *)
Definition Invalidate (c : Cache) (ref : Ref) : Cache :=
  let key := ref_String ref in
  if str_eq key "" then c
  else let c := forget_fetch c key in
       match entries c !! key with Some a => removeEntryLocked c a | None => c end.
(** The list is walked from its head; every entry is overwritten and unlinked. *)
Fixpoint zero_from (fuel : nat) (h : gmap nat Entry) (curr : option nat) : gmap nat Entry :=
  match fuel, curr with
  | S fuel, Some a =>
      match h !! a with
      | None => h
      | Some e => zero_from fuel (<[a := set_links (Zero e) None None]> h) (e_next e)
      end
  | _, _ => h
  end.
Definition Clear (c : Cache) : Cache :=
  mkCache (capacity c) (defaultTTL c) (zero_from (made c) (heap c) (head c)) (made c) ∅ None None ∅ []
    (next_uint64 (globalClearEpoch c)) (nextFetchToken c).
Definition Len (c : Cache) : Z := Z.of_nat (size (entries c)).
Definition ActiveFetchesCount (c : Cache) : Z := Z.of_nat (size (generations c)).

(** * The list a cache stands for *)
Record Item := mkItem { i_key : string; i_secret : Secret; i_expires : Z }.
Definition holds (e : Entry) (it : Item) : Prop :=
  e_key e = i_key it /\ e_bytes e = Value (i_secret it) /\ e_held e = true /\ e_secretExpires e = ExpiresAt (i_secret it) /\ e_expiresAt e = i_expires it.

(** A segment of entries from [p] to [q], between [pp] and [qn]. *)
Fixpoint segment (h : gmap nat Entry) (pp p q qn : option nat) (l : list (nat * Item)) : Prop :=
  match l with
  | [] => p = qn /\ q = pp
  | (a, it) :: l => p = Some a /\ exists e, h !! a = Some e /\ holds e it /\ e_prev e = pp /\ segment h (Some a) (e_next e) q qn l
  end.
Definition list_at (c : Cache) (l : list (nat * Item)) : Prop := segment (heap c) None (head c) (tail c) None l /\ NoDup l.*1.

(** The least recently used item is the last one. *)
Definition find_item (its : list Item) (key : string) : option Item := List.find (fun it => str_eq (i_key it) key) its.
Definition remove_item (its : list Item) (key : string) : list Item := List.filter (fun it => negb (str_eq (i_key it) key)) its.

Section Segments.
Implicit Types (h : gmap nat Entry) (l : list (nat * Item)) (p q pp qn : option nat).

Lemma segment_app h l1 l2 : forall pp p q qn, segment h pp p q qn (l1 ++ l2) <-> exists m n, segment h pp p m n l1 /\ segment h m n q qn l2.
Proof.
  induction l1 as [|[a it] l1 IH]; intros pp p q qn; simpl.
  - split; [intros H; by exists pp, p|]. by intros (m & n & [-> ->] & H).
  - setoid_rewrite IH. split.
    + intros (-> & e & He & Hh & Hp & m & n & H1 & H2). exists m, n. split; [|done]. split; [done|]. by exists e.
    + intros (m & n & (-> & e & He & Hh & Hp & H1) & H2). split; [done|]. exists e. split_and!; try done. by exists m, n.
Qed.
Lemma segment_frame h h' l : (forall a, a ∈ l.*1 -> h' !! a = h !! a) -> forall pp p q qn, segment h pp p q qn l -> segment h' pp p q qn l.
Proof.
  induction l as [|[a it] l IH]; intros Hf pp p q qn; simpl; [done|]. intros (-> & e & He & Hh & Hp & H). split; [done|]. exists e.
  split; [rewrite Hf by set_solver; done|]. split; [done|]. split; [done|]. apply IH; [|done]. intros b Hb. apply Hf. set_solver.
Qed.
Lemma segment_alter h f a l pp p q qn : a ∉ l.*1 -> segment h pp p q qn l -> segment (alter f a h) pp p q qn l.
Proof. intros Ha. apply segment_frame. intros b Hb. apply lookup_alter_ne. by intros ->. Qed.

Lemma holds_links e it pv nx : holds e it -> holds (set_links e pv nx) it.
Proof. done. Qed.
Lemma segment_elem h l : forall pp p q qn a it, segment h pp p q qn l -> (a, it) ∈ l -> exists e, h !! a = Some e /\ holds e it.
Proof.
  induction l as [|[b it'] l IH]; intros pp p q qn a it; simpl; [by intros _ ?%elem_of_nil|].
  intros (-> & e & He & Hh & _ & H) [[= -> ->]|Hin]%elem_of_cons; [by exists e|]. by eapply IH.
Qed.
(** The ends of a segment. *)
Lemma segment_first h pv l pp p q qn : NoDup l.*1 -> segment h pp p q qn l ->
  match p, l with
  | Some a, _ :: _ => a ∈ l.*1 /\ segment (alter (with_prev pv) a h) pv p q qn l
  | _, [] => p = qn /\ q = pp
  | None, _ => False
  end.
Proof.
  destruct l as [|[a it] l]; simpl; [by destruct p|]. intros [Hn _]%NoDup_cons (-> & e & He & Hh & Hp & H). split; [set_solver|].
  split; [done|]. exists (with_prev pv e). rewrite lookup_alter_eq, He. split; [done|]. split; [done|]. split; [done|]. by apply segment_alter.
Qed.
Lemma segment_last h nx l : forall pp p q qn, NoDup l.*1 -> segment h pp p q qn l ->
  match q, l with
  | Some t, _ :: _ => t ∈ l.*1 /\ segment (alter (with_next nx) t h) pp p q nx l
  | _, [] => p = qn /\ q = pp
  | None, _ => False
  end.
Proof.
  induction l as [|[a it] l IH]; intros pp p q qn; simpl; [by destruct q|]. intros [Hn Hd]%NoDup_cons (-> & e & He & Hh & Hp & H).
  specialize (IH _ _ _ _ Hd H). destruct l as [|x l].
  - destruct H as [Hx ->]. split; [set_solver|]. split; [done|]. exists (with_next nx e). by rewrite lookup_alter_eq, He.
  - destruct q as [t|]; [|done]. destruct IH as [Ht IH]. assert (t <> a) as Hta by (intros ->; done). split; [set_solver|]. split; [done|].
    exists e. by rewrite lookup_alter_ne.
Qed.
End Segments.

(** ** The operations of the list *)
Lemma addToHead_list c l a e it : list_at c l -> a ∉ l.*1 -> heap c !! a = Some e -> holds e it ->
  list_at (addToHeadLocked c a) ((a, it) :: l) /\ (forall b, b ∉ a :: l.*1 -> heap (addToHeadLocked c a) !! b = heap c !! b).
Proof.
  intros [Hs Hd] Ha He Hh. pose proof (segment_alter _ (fun e => set_links e None (head c)) a _ _ _ _ _ Ha Hs) as Hs1.
  pose proof (segment_first _ (Some a) _ _ _ _ _ Hd Hs1) as Hf. unfold addToHeadLocked, alter_entry, set_ends, list_at. cbn [set_heap heap head tail fmap list_fmap fst].
  destruct l as [|[b it'] l].
  - destruct Hs as [Hh' Ht]. rewrite Hh' in *. cbn [set_heap heap head tail]. rewrite Ht in *. split.
    + split; [|constructor; [set_solver|constructor]]. split; [done|]. exists (set_links e None None). rewrite lookup_alter_eq, He. by split_and!.
    + intros b Hb. rewrite lookup_alter_ne; [done|]. set_solver.
  - destruct (head c) as [hd|] eqn:Ehd; [|done]. destruct Hf as [Hin Hf].
    assert (hd <> a) as Hne by (intros ->; done). destruct (tail c) as [t|] eqn:Et.
    2:{ exfalso. pose proof (segment_last _ None _ _ _ _ _ Hd Hs) as Hl. exact Hl. }
    cbn [set_heap heap head tail]. rewrite Et. split.
    + split; [|by constructor]. split; [done|]. exists (set_links e None (Some hd)). rewrite lookup_alter_ne, lookup_alter_eq, He by done. by split_and!.
    + intros b' Hb. rewrite !lookup_alter_ne; [done|set_solver..].
Qed.

Lemma detach_list c l1 a it l2 : list_at c (l1 ++ (a, it) :: l2) ->
  exists e, heap c !! a = Some e /\ holds e it /\ list_at (detachLocked c a) (l1 ++ l2) /\ heap (detachLocked c a) !! a = Some (set_links e None None) /\
    (forall b, b ∉ a :: (l1 ++ l2).*1 -> heap (detachLocked c a) !! b = heap c !! b).
Proof.
  intros [Hs Hd]. rewrite fmap_app in Hd. apply NoDup_app in Hd as (Hd1 & Hd12 & [Ha2 Hd2]%NoDup_cons). cbn in Hd12.
  assert (a ∉ l1.*1) as Ha1 by (intros Ha; apply (Hd12 a Ha); set_solver).
  apply segment_app in Hs as (m & n & H1 & -> & e & He & Hh & Hp & H2). exists e. split; [done|]. split; [done|].
  unfold detachLocked, links. rewrite He, Hp.
  pose proof (segment_last _ (e_next e) _ _ _ _ _ Hd1 H1) as HL.
  set (c1 := match m with Some p => alter_entry c p (with_next (e_next e)) | None => set_ends c (e_next e) (tail c) end).
  assert (segment (heap c1) None (head c1) m (e_next e) l1 /\ segment (heap c1) (Some a) (e_next e) (tail c1) None l2 /\ heap c1 !! a = Some e /\
          (forall b, b ∉ l1.*1 -> heap c1 !! b = heap c !! b)) as (S1 & S2 & E1 & F1).
  { subst c1. destruct m as [t|], l1 as [|x l1]; try done.
    - destruct HL as [_ HL]; done.
    - destruct HL as [Ht HL]. cbn [heap head tail alter_entry set_heap]. split; [done|].
      assert (t <> a) as Hta by (intros ->; done). assert (t ∉ l2.*1) as Ht2 by (intros Hx; apply (Hd12 t Ht); set_solver).
      split; [by apply segment_alter|]. split; [by rewrite lookup_alter_ne|]. intros b Hb. apply lookup_alter_ne. by intros ->. }
  clearbody c1. clear HL. set (c2 := match e_next e with Some n => alter_entry c1 n (with_prev m) | None => set_ends c1 (head c1) m end).
  pose proof (segment_first _ m _ _ _ _ _ Hd2 S2) as HF.
  assert (segment (heap c2) None (head c2) m (e_next e) l1 /\ segment (heap c2) m (e_next e) (tail c2) None l2 /\ heap c2 !! a = Some e /\
          (forall b, b ∉ (l1 ++ l2).*1 -> heap c2 !! b = heap c !! b)) as (T1 & T2 & E2 & F2).
  { subst c2. rewrite fmap_app. destruct (e_next e) as [n|], l2 as [|x l2]; try done.
    - destruct HF as [HF _]; done.
    - destruct HF as [Hn HF]. cbn [heap head tail alter_entry set_heap].
      assert (n <> a) as Hna by (intros ->; done). assert (n ∉ l1.*1) as Hn1 by (intros Hx; apply (Hd12 n Hx); set_solver).
      split; [by apply segment_alter|]. split; [done|]. split; [by rewrite lookup_alter_ne|].
      intros b Hb. rewrite lookup_alter_ne by set_solver. apply F1. set_solver.
    - cbn. split; [done|]. split; [done|]. split; [done|]. intros b Hb. apply F1. set_solver. }
  clearbody c2. unfold list_at. cbn [alter_entry set_heap heap head tail]. rewrite lookup_alter_eq, E2. split; [split|split; [done|]].
  - apply segment_alter; [rewrite fmap_app; set_solver|]. apply segment_app. by exists m, (e_next e).
  - rewrite fmap_app. apply NoDup_app. split; [done|]. split; [|done]. intros x Hx. specialize (Hd12 x Hx). set_solver.
  - intros b Hb. rewrite lookup_alter_ne by set_solver. apply F2. set_solver.
Qed.

(** * What a cache promises *)

(** The items with the last used first, and the fetches as the code keeps them. *)
Record Lru := mkLru { l_capacity : Z; l_ttl : Z; l_items : list Item; l_generations : gmap string Z; l_keys : list string; l_epoch : Z; l_fetch : Z }.

Definition lru_items (s : Lru) (its : list Item) : Lru :=
  mkLru (l_capacity s) (l_ttl s) its (l_generations s) (l_keys s) (l_epoch s) (l_fetch s).
Definition lru_fetches (s : Lru) (g : gmap string Z) (keys : list string) : Lru :=
  mkLru (l_capacity s) (l_ttl s) (l_items s) g keys (l_epoch s) (l_fetch s).
Definition lru_forget (s : Lru) (key : string) : Lru := lru_fetches s (delete key (l_generations s)) (removeGenerationKeyLocked key (l_keys s)).
(** An item lives for the time to live and not beyond its own end; an item that is over already is not taken. *)
Definition lru_expiry (s : Lru) (secret : Secret) (now : Z) : option Z :=
  match ExpiresAt secret with
  | None => Some (now + l_ttl s)
  | Some t => if t <? now then None else Some (Z.min t (now + l_ttl s))
  end.
Definition lru_put (s : Lru) (key : string) (secret : Secret) (now : Z) : Lru :=
  match lru_expiry s secret now with
  | None => s
  | Some t => lru_items s (mkItem key secret t :: firstn (Z.to_nat (l_capacity s) - 1) (remove_item (l_items s) key))
  end.

Inductive cache_op :=
  | OpGet (ref : Ref) (now : Z) | OpStart (ref : Ref) | OpCancel (ref : Ref) (ft : FetchToken)
  | OpPut (ref : Ref) (secret : Secret) (now : Z) | OpPutIf (ref : Ref) (secret : Secret) (ft : FetchToken) (now : Z)
  | OpInvalidate (ref : Ref) | OpClear.
Inductive cache_answer := AnGet (s : option Secret) | AnToken (ft : FetchToken) | AnDone.

Section Operations.
Context `{Ord : KeyOrder}.

Definition run_op (c : Cache) (op : cache_op) : Cache * cache_answer :=
  match op with
  | OpGet ref now => let '(c, s) := Get c ref now in (c, AnGet s)
  | OpStart ref => let '(c, ft) := StartFetch c ref in (c, AnToken ft)
  | OpCancel ref ft => (CancelFetch c ref ft, AnDone)
  | OpPut ref secret now => (Put c ref secret now, AnDone)
  | OpPutIf ref secret ft now => (PutIfMatch c ref secret ft now, AnDone)
  | OpInvalidate ref => (Invalidate c ref, AnDone)
  | OpClear => (Clear c, AnDone)
  end.

Definition lru_disabled (s : Lru) : bool := (l_capacity s <=? 0) || (l_ttl s <=? 0).
Definition lru_op (s : Lru) (op : cache_op) : Lru * cache_answer :=
  match op with
  | OpGet ref now =>
      let key := ref_String ref in
      if lru_disabled s || str_eq key "" then (s, AnGet None)
      else match find_item (l_items s) key with
           | None => (s, AnGet None)
           | Some it => if i_expires it <? now then (lru_items s (remove_item (l_items s) key), AnGet None)
                        else (lru_items s (it :: remove_item (l_items s) key), AnGet (Some (i_secret it)))
           end
  | OpStart ref =>
      let key := ref_String ref in
      if lru_disabled s || str_eq key "" then (s, AnToken no_token)
      else
        let keys := match l_generations s !! key with Some _ => removeGenerationKeyLocked key (l_keys s) | None => l_keys s end in
        let '(g, keys) := evict (l_capacity s) (l_generations s) keys in
        let t := next_uint64 (l_fetch s) in
        (mkLru (l_capacity s) (l_ttl s) (l_items s) (<[key := t]> g) (keys ++ [key]) (l_epoch s) t, AnToken (mkFetch t (l_epoch s)))
  | OpCancel ref ft =>
      let key := ref_String ref in
      (if negb (token ft =? 0) && negb (str_eq key "") && bool_decide (l_generations s !! key = Some (token ft)) then lru_forget s key else s, AnDone)
  | OpPut ref secret now =>
      let key := ref_String ref in
      (if lru_disabled s || str_eq key "" then s else lru_put (lru_forget s key) key secret now, AnDone)
  | OpPutIf ref secret ft now =>
      let key := ref_String ref in
      (if negb (lru_disabled s) && negb (token ft =? 0) && negb (str_eq key "") && (clearEpoch ft =? l_epoch s)
          && bool_decide (l_generations s !! key = Some (token ft))
       then lru_put (lru_forget s key) key secret now else s, AnDone)
  | OpInvalidate ref =>
      let key := ref_String ref in
      (if str_eq key "" then s else lru_items (lru_forget s key) (remove_item (l_items s) key), AnDone)
  | OpClear => (mkLru (l_capacity s) (l_ttl s) [] ∅ [] (next_uint64 (l_epoch s)) (l_fetch s), AnDone)
  end.

(** A run of operations, with the answers. *)
Fixpoint run_ops {S} (step : S -> cache_op -> S * cache_answer) (s : S) (ops : list cache_op) : S * list cache_answer :=
  match ops with
  | [] => (s, [])
  | op :: ops => let '(s, a) := step s op in let '(s, l) := run_ops step s ops in (s, a :: l)
  end.
End Operations.

(** * Representation *)
Definition addresses (l : list (nat * Item)) : list (string * nat) := map (fun x => (i_key x.2, x.1)) l.
Definition keys_at (l : list (nat * Item)) : list string := map (fun x => i_key x.2) l.
(** No byte of a secret is left. *)
Definition wiped (e : Entry) : Prop := e_held e = false /\ exists n, e_bytes e = zeros n.

Record represents (c : Cache) (l : list (nat * Item)) : Prop := {
  re_list : list_at c l;
  re_keys : NoDup (keys_at l);
  re_entries : entries c = list_to_map (addresses l);
  re_made : forall a, is_Some (heap c !! a) <-> (a < made c)%nat;
  re_wiped : forall a e, heap c !! a = Some e -> a ∉ l.*1 -> wiped e
}.
Definition view (c : Cache) (l : list (nat * Item)) : Lru :=
  mkLru (capacity c) (defaultTTL c) (map snd l) (generations c) (generationKeys c) (globalClearEpoch c) (nextFetchToken c).

Section Lookups.
Implicit Types (l : list (nat * Item)) (c : Cache).

Lemma addresses_keys l : (addresses l).*1 = keys_at l.
Proof. unfold addresses, keys_at. induction l as [|x l IH]; [done|]. cbn. by rewrite <- IH. Qed.
Lemma represented_entry c l k a : represents c l -> entries c !! k = Some a <-> exists it, (a, it) ∈ l /\ i_key it = k.
Proof.
  intros R. rewrite (re_entries _ _ R). rewrite <- elem_of_list_to_map by (rewrite addresses_keys; apply (re_keys _ _ R)).
  unfold addresses. rewrite list_elem_of_fmap. split; [intros ([b it] & [= -> ->] & Hin); by exists it|intros (it & Hin & <-); by exists (a, it)].
Qed.
Lemma list_to_map_size {A} (l : list (string * A)) : NoDup l.*1 -> size (list_to_map l : gmap string A) = List.length l.
Proof.
  induction l as [|[k a] l IH]; [done|]. cbn [list_to_map fmap list_fmap fst foldr uncurry]. intros [Hn Hd]%NoDup_cons.
  rewrite map_size_insert_None by (by apply not_elem_of_list_to_map_1). by rewrite IH.
Qed.
Lemma entries_size c l : represents c l -> size (entries c) = List.length l.
Proof.
  intros R. rewrite (re_entries _ _ R), list_to_map_size by (rewrite addresses_keys; apply (re_keys _ _ R)). unfold addresses. by rewrite length_map.
Qed.

Lemma find_item_none l key : find_item (map snd l) key = None <-> key ∉ keys_at l.
Proof.
  unfold find_item, keys_at. induction l as [|[a it] l IH]; cbn; [split; [intros _; apply not_elem_of_nil|done]|].
  rewrite not_elem_of_cons. destruct (str_eq (i_key it) key) eqn:E; str_facts; [split; [done|by intros [? _]]|]. rewrite IH. naive_solver.
Qed.
Lemma find_item_some l key it : find_item (map snd l) key = Some it -> i_key it = key /\ exists a l1 l2, l = l1 ++ (a, it) :: l2.
Proof.
  unfold find_item. induction l as [|[a it'] l IH]; cbn; [done|]. destruct (str_eq (i_key it') key) eqn:E; str_facts.
  - intros [= ->]. split; [done|]. by exists a, [], l.
  - intros (? & b & l1 & l2 & ->)%IH. split; [done|]. by exists b, ((a, it') :: l1), l2.
Qed.
Lemma remove_item_absent its key : (forall it, it ∈ its -> i_key it <> key) -> remove_item its key = its.
Proof.
  unfold remove_item. induction its as [|it its IH]; intros H; cbn; [done|]. rewrite (proj2 (str_eq_false (i_key it) key)) by (apply H; set_solver). cbn.
  rewrite IH; [done|]. set_solver.
Qed.
Lemma remove_item_app its1 its2 key : remove_item (its1 ++ its2) key = remove_item its1 key ++ remove_item its2 key.
Proof. apply List.filter_app. Qed.

(** An item that is represented, and what is around it. *)
Lemma around c l1 a it l2 : represents c (l1 ++ (a, it) :: l2) ->
  remove_item (map snd (l1 ++ (a, it) :: l2)) (i_key it) = map snd (l1 ++ l2) /\ NoDup (keys_at (l1 ++ l2)) /\ i_key it ∉ keys_at (l1 ++ l2) /\
  delete (i_key it) (entries c) = list_to_map (addresses (l1 ++ l2)) /\ a ∉ (l1 ++ l2).*1 /\ NoDup (l1 ++ l2).*1 /\ entries c !! i_key it = Some a.
Proof.
  intros R. pose proof (re_keys _ _ R) as Hk. unfold keys_at in Hk. rewrite map_app in Hk. cbn in Hk.
  pose proof (Permutation_middle (map (fun x => i_key x.2) l1) (map (fun x => i_key x.2) l2) (i_key it)) as P.
  rewrite <- P in Hk. apply NoDup_cons in Hk as [Hn Hk]. rewrite <- map_app in Hn, Hk.
  pose proof (proj2 (re_list _ _ R)) as Ha. rewrite fmap_app in Ha. cbn in Ha. rewrite <- (Permutation_middle l1.*1 l2.*1 a) in Ha.
  apply NoDup_cons in Ha as [Ha Hd]. rewrite <- fmap_app in Ha, Hd.
  assert (forall it', it' ∈ map snd (l1 ++ l2) -> i_key it' <> i_key it) as Hne.
  { intros it' Hin E. apply Hn. rewrite <- E. apply list_elem_of_fmap in Hin as (x & -> & Hx). apply list_elem_of_fmap. by exists x. }
  split_and!; try done.
  - rewrite !map_app in *. cbn [map snd]. rewrite remove_item_app. cbn. rewrite str_eq_refl. cbn. fold (remove_item (map snd l2) (i_key it)).
    rewrite <- remove_item_app. by apply remove_item_absent.
  - rewrite (re_entries _ _ R). unfold addresses. rewrite !map_app. cbn [map fst snd].
    assert (NoDup ((map (fun x => (i_key x.2, x.1)) l1 ++ (i_key it, a) :: map (fun x => (i_key x.2, x.1)) l2).*1)) as Hdup.
    { pose proof (re_keys _ _ R) as Hk'. rewrite <- addresses_keys in Hk'. unfold addresses in Hk'. by rewrite map_app in Hk'. }
    rewrite (list_to_map_proper _ _ Hdup (symmetry (Permutation_middle _ _ _))). rewrite list_to_map_cons. apply delete_insert_id.
    apply not_elem_of_list_to_map_1. rewrite <- map_app. fold (addresses (l1 ++ l2)). by rewrite addresses_keys.
  - apply (represented_entry _ _ _ _ R). exists it. split; [set_solver|done].
Qed.

Lemma wiped_links e pv nx : wiped e -> wiped (set_links e pv nx).
Proof. done. Qed.
Lemma wiped_Zero e : e_held e = true -> wiped (Zero e).
Proof.
  intros H. split; [done|]. unfold Zero. rewrite H. cbn. exists (e_bytes e). done.
Qed.

(** The other entries of the heap. *)
Lemma represents_made c l a : represents c l -> a ∈ l.*1 -> (a < made c)%nat.
Proof.
  intros R Ha. apply (re_made _ _ R). apply list_elem_of_fmap in Ha as ([b it] & -> & Hin).
  destruct (segment_elem _ _ _ _ _ _ _ _ (proj1 (re_list _ _ R)) Hin) as (e & He & _). by exists e.
Qed.
End Lookups.

(** ** Operations on what is represented *)
Section Represented.
Implicit Types (l : list (nat * Item)) (c : Cache).

Lemma alter_is_some {A} (f : A -> A) i (m : gmap nat A) a : is_Some (alter f i m !! a) <-> is_Some (m !! a).
Proof. destruct (decide (i = a)) as [->|H]; [rewrite lookup_alter_eq, fmap_is_Some; done|by rewrite lookup_alter_ne]. Qed.
Lemma addToHead_same c a : made (addToHeadLocked c a) = made c /\ entries (addToHeadLocked c a) = entries c /\
  (forall b, is_Some (heap (addToHeadLocked c a) !! b) <-> is_Some (heap c !! b)) /\
  capacity (addToHeadLocked c a) = capacity c /\ defaultTTL (addToHeadLocked c a) = defaultTTL c /\ generations (addToHeadLocked c a) = generations c /\
  generationKeys (addToHeadLocked c a) = generationKeys c /\ globalClearEpoch (addToHeadLocked c a) = globalClearEpoch c /\ nextFetchToken (addToHeadLocked c a) = nextFetchToken c.
Proof. unfold addToHeadLocked, alter_entry. destruct (head c) eqn:E; cbn; rewrite E; cbn; split_and!; try done; intros b; by rewrite ?alter_is_some. Qed.
Lemma detach_same c a : made (detachLocked c a) = made c /\ entries (detachLocked c a) = entries c /\
  (forall b, is_Some (heap (detachLocked c a) !! b) <-> is_Some (heap c !! b)) /\
  capacity (detachLocked c a) = capacity c /\ defaultTTL (detachLocked c a) = defaultTTL c /\ generations (detachLocked c a) = generations c /\
  generationKeys (detachLocked c a) = generationKeys c /\ globalClearEpoch (detachLocked c a) = globalClearEpoch c /\ nextFetchToken (detachLocked c a) = nextFetchToken c.
Proof.
  unfold detachLocked. destruct (links c a) as [[p|] [n|]]; cbn; split_and!; try done; intros b; by rewrite ?alter_is_some.
Qed.

Lemma removeEntry_spec c l1 a it l2 : represents c (l1 ++ (a, it) :: l2) ->
  represents (removeEntryLocked c a) (l1 ++ l2) /\ view (removeEntryLocked c a) (l1 ++ l2) = lru_items (view c (l1 ++ (a, it) :: l2)) (map snd (l1 ++ l2)).
Proof.
  intros R. destruct (around _ _ _ _ _ R) as (_ & Hk & _ & Hdel & Ha & Hd & _). destruct (detach_list _ _ _ _ _ (re_list _ _ R)) as (e & He & Hh & _).
  unfold removeEntryLocked. rewrite He. destruct Hh as (Ek & _ & Hheld & _). rewrite Ek. set (c0 := set_entries c (delete (i_key it) (entries c))).
  assert (list_at c0 (l1 ++ (a, it) :: l2)) as Hl by apply (re_list _ _ R).
  destruct (detach_list _ _ _ _ _ Hl) as (e' & He' & _ & Hl' & Hea & Hf). cbn [heap c0 set_entries] in He'. rewrite He in He'. injection He' as <-.
  destruct (detach_same c0 a) as (Em & Ee & Eh & Ec & Et & Eg & Egk & Eep & Efe). split.
  - constructor; cbn [alter_entry set_heap heap made entries head tail].
    + destruct Hl' as [Hs Hd']. split; [|done]. by apply segment_alter.
    + done.
    + rewrite Ee. exact Hdel.
    + intros b. rewrite alter_is_some, Em, Eh. apply (re_made _ _ R).
    + intros b x Hx Hb. destruct (decide (a = b)) as [<-|Hab].
      * rewrite lookup_alter_eq, Hea in Hx. injection Hx as <-. by apply wiped_Zero.
      * rewrite lookup_alter_ne in Hx by done. rewrite Hf in Hx by set_solver. apply (re_wiped _ _ R b x Hx). rewrite fmap_app in *. cbn. set_solver.
  - unfold view, lru_items. cbn [alter_entry set_heap capacity defaultTTL generations generationKeys globalClearEpoch nextFetchToken l_capacity l_ttl l_generations l_keys l_epoch l_fetch].
    by rewrite Ec, Et, Eg, Egk, Eep, Efe.
Qed.

Lemma moveToHead_spec c l1 a it l2 : represents c (l1 ++ (a, it) :: l2) ->
  represents (moveToHeadLocked c a) ((a, it) :: l1 ++ l2) /\ view (moveToHeadLocked c a) ((a, it) :: l1 ++ l2) = lru_items (view c (l1 ++ (a, it) :: l2)) (it :: map snd (l1 ++ l2)).
Proof.
  intros R. destruct (around _ _ _ _ _ R) as (_ & Hk & Hnk & Hdel & Ha & Hd & Hent). unfold moveToHeadLocked. case_bool_decide as Hhd.
  - assert (l1 = []) as ->; [|by split].
    destruct l1 as [|[b it'] l1]; [done|]. exfalso. destruct (re_list _ _ R) as [[Hs _] _]. rewrite Hhd in Hs. injection Hs as ->. apply Ha. cbn. set_solver.
  - destruct (detach_list _ _ _ _ _ (re_list _ _ R)) as (e & He & Hh & Hl & Hea & Hf). destruct (detach_same c a) as (Em & Ee & Eh & Ec & Et & Eg & Egk & Eep & Efe).
    destruct (addToHead_list _ _ _ _ _ Hl Ha Hea (holds_links _ _ None None Hh)) as [Hl' Hf'].
    destruct (addToHead_same (detachLocked c a) a) as (Em' & Ee' & Eh' & Ec' & Et' & Eg' & Egk' & Eep' & Efe'). split.
    + constructor; [done|by constructor| | |].
      * rewrite Ee', Ee. unfold addresses. cbn [map fst snd]. rewrite list_to_map_cons. fold (addresses (l1 ++ l2)). rewrite <- Hdel. by rewrite insert_delete_id.
      * intros b. rewrite Em', Em, Eh', Eh. apply (re_made _ _ R).
      * intros b x Hx Hb. cbn in Hb. rewrite Hf', Hf in Hx by set_solver. apply (re_wiped _ _ R b x Hx). rewrite fmap_app in *. cbn. set_solver.
    + unfold view, lru_items. cbn [l_capacity l_ttl l_generations l_keys l_epoch l_fetch map snd]. by rewrite Ec', Et', Eg', Egk', Eep', Efe', Ec, Et, Eg, Egk, Eep, Efe.
Qed.

Lemma represents_tail c l x : represents c (l ++ [x]) -> tail c = Some x.1.
Proof.
  intros R. destruct (re_list _ _ R) as [Hs _]. apply segment_app in Hs as (m & n & _ & Hs). destruct x as [a it]. cbn in Hs.
  destruct Hs as (_ & e & _ & _ & _ & _ & ->). done.
Qed.
Lemma evict_tail_spec n : forall c l, represents c l -> 0 < capacity c -> (List.length l <= n)%nat ->
  represents (evict_tail n c) (firstn (Z.to_nat (capacity c) - 1) l) /\
  view (evict_tail n c) (firstn (Z.to_nat (capacity c) - 1) l) = lru_items (view c l) (map snd (firstn (Z.to_nat (capacity c) - 1) l)).
Proof.
  induction n as [|n IH]; intros c l R Hc Hn; cbn [evict_tail].
  { destruct l; [|cbn in Hn; lia]. rewrite firstn_nil. by split. }
  rewrite (entries_size _ _ R). destruct (Z.ltb_spec (Z.of_nat (List.length l)) (capacity c)) as [Hlt|Hge].
  { rewrite firstn_all2 by lia. by split. }
  destruct (exists_last (l := l)) as (l' & x & ->); [by intros ->; cbn in Hge; lia|]. rewrite (represents_tail _ _ _ R). destruct x as [a it]. cbn [fst].
  destruct (removeEntry_spec _ _ _ _ _ R) as [R' V]. rewrite app_nil_r in R', V. rewrite length_app in Hn, Hge. cbn in Hn, Hge.
  assert (capacity (removeEntryLocked c a) = capacity c) as Ec by exact (f_equal l_capacity V).
  destruct (IH _ _ R') as [R2 V2]; [by rewrite Ec|lia|]. rewrite Ec in R2, V2.
  rewrite (firstn_app (Z.to_nat (capacity c) - 1) l'). replace (Z.to_nat (capacity c) - 1 - List.length l')%nat with 0%nat by lia. rewrite firstn_O, app_nil_r.
  split; [done|]. rewrite V2, V. done.
Qed.

Lemma represents_fresh c l a : represents c l -> (made c <= a)%nat -> a ∉ l.*1.
Proof. intros R Ha Hin. pose proof (represents_made _ _ _ R Hin). lia. Qed.
Lemma insert_entry_spec c l key secret t : represents c l -> key ∉ keys_at l ->
  represents (insert_entry c key secret t) ((made c, mkItem key secret t) :: l) /\
  view (insert_entry c key secret t) ((made c, mkItem key secret t) :: l) = lru_items (view c l) (mkItem key secret t :: map snd l).
Proof.
  intros R Hk. unfold insert_entry. set (e := mkEntry key (Value secret) true (ExpiresAt secret) t None None).
  set (c1 := mkCache _ _ (<[made c := e]> (heap c)) _ _ _ _ _ _ _ _). pose proof (represents_fresh c l (made c) R (Nat.le_refl _)) as Hf.
  assert (list_at c1 l) as Hl.
  { destruct (re_list _ _ R) as [Hs Hd]. split; [|done]. eapply segment_frame; [|exact Hs]. intros b Hb. cbn. apply lookup_insert_ne. by intros <-. }
  assert (heap c1 !! made c = Some e) as He by (cbn; apply lookup_insert_eq).
  assert (holds e (mkItem key secret t)) as Hh by done.
  destruct (addToHead_list _ _ _ _ _ Hl Hf He Hh) as [Hl' Hfr]. destruct (addToHead_same c1 (made c)) as (Em & Ee & Eh & Ec & Et & Eg & Egk & Eep & Efe). split.
  - constructor; cbn [set_entries heap made entries].
    + exact Hl'.
    + constructor; [done|apply (re_keys _ _ R)].
    + rewrite Ee. unfold addresses. cbn [map fst snd i_key]. rewrite list_to_map_cons. change (entries c1) with (entries c). by rewrite (re_entries _ _ R).
    + intros b. rewrite Em, Eh. change (made c1) with (S (made c)). change (heap c1) with (<[made c := e]> (heap c)). destruct (decide (made c = b)) as [<-|Hb]; [rewrite lookup_insert_eq; split; [lia|eauto]|].
      rewrite lookup_insert_ne by done. rewrite (re_made _ _ R). lia.
    + intros b x Hx Hb. cbn in Hb. rewrite Hfr in Hx by set_solver. change (heap c1) with (<[made c := e]> (heap c)) in Hx. rewrite lookup_insert_ne in Hx by set_solver.
      apply (re_wiped _ _ R b x Hx). set_solver.
  - unfold view, lru_items. cbn [set_entries capacity defaultTTL generations generationKeys globalClearEpoch nextFetchToken l_capacity l_ttl l_generations l_keys l_epoch l_fetch map snd].
    by rewrite Ec, Et, Eg, Egk, Eep, Efe.
Qed.

(** Clearing overwrites every entry of the list. *)
Lemma zero_from_spec l : forall n h p pp q, segment h pp p q None l -> NoDup l.*1 -> (List.length l <= n)%nat ->
  (forall b, b ∉ l.*1 -> zero_from n h p !! b = h !! b) /\ (forall b, b ∈ l.*1 -> exists e, zero_from n h p !! b = Some e /\ wiped e) /\
  (forall b, is_Some (zero_from n h p !! b) <-> is_Some (h !! b)).
Proof.
  induction l as [|[a it] l IH]; intros n h p pp q Hs Hd Hn; cbn in Hs, Hd.
  - destruct Hs as [-> _]. destruct n; cbn; (split; [done|]; split; [intros b Hb; by apply elem_of_nil in Hb|done]).
  - destruct Hs as (-> & e & He & Hh & Hp & Hs). apply NoDup_cons in Hd as [Ha Hd]. destruct n as [|n]; [cbn in Hn; lia|]. cbn [zero_from]. rewrite He.
    assert (segment (<[a := set_links (Zero e) None None]> h) (Some a) (e_next e) q None l) as Hs'.
    { eapply segment_frame; [|exact Hs]. intros b Hb. apply lookup_insert_ne. by intros ->. }
    destruct (IH n _ _ _ _ Hs' Hd) as (I1 & I2 & I3); [cbn in Hn; lia|]. split_and!.
    + intros b Hb. cbn in Hb. rewrite I1 by set_solver. rewrite lookup_insert_ne; [done|]. set_solver.
    + intros b [->|Hb]%elem_of_cons; [|by apply I2]. rewrite I1 by done. exists (set_links (Zero e) None None). rewrite lookup_insert_eq. split; [done|].
      apply wiped_links, wiped_Zero. apply Hh.
    + intros b. rewrite I3. destruct (decide (a = b)) as [<-|Hb]; [rewrite lookup_insert_eq, He; split; eauto|by rewrite lookup_insert_ne].
Qed.
Lemma bounded_nodup (l : list nat) n : NoDup l -> (forall a, a ∈ l -> (a < n)%nat) -> (List.length l <= n)%nat.
Proof.
  intros Hd Hb. assert (List.length (seq 0 n) = n) as E by apply length_seq. rewrite <- E. apply submseteq_length, NoDup_submseteq; [done|]. intros a Ha. apply elem_of_seq. specialize (Hb a Ha). lia.
Qed.
Lemma Clear_spec c l : represents c l -> represents (Clear c) [] /\ heap (Clear c) = zero_from (made c) (heap c) (head c).
Proof.
  intros R. destruct (re_list _ _ R) as [Hs Hd].
  assert (List.length l <= made c)%nat as Hn.
  { rewrite <- (length_fmap fst l). apply bounded_nodup; [done|]. intros a Ha. by apply (represents_made _ _ _ R). }
  destruct (zero_from_spec l (made c) _ _ _ _ Hs Hd Hn) as (Z1 & Z2 & Z3). split; [|done]. constructor; cbn [Clear heap made entries].
  - split; [done|constructor].
  - constructor.
  - done.
  - intros a. rewrite Z3. apply (re_made _ _ R).
  - intros a e He _. destruct (decide (a ∈ l.*1)) as [Ha|Ha].
    + destruct (Z2 a Ha) as (e' & He' & Hw). rewrite He in He'. by injection He' as <-.
    + rewrite Z1 in He by done. by apply (re_wiped _ _ R a e He).
Qed.
End Represented.

(** * The theorems *)
Section Refinement.
Context `{Ord : KeyOrder}.
Implicit Types (l : list (nat * Item)) (c : Cache).

Lemma find_entry c l key : represents c l ->
  match find_item (map snd l) key with
  | None => entries c !! key = None
  | Some it => i_key it = key /\ exists a l1 l2, l = l1 ++ (a, it) :: l2 /\ entries c !! key = Some a
  end.
Proof.
  intros R. destruct (find_item (map snd l) key) as [it|] eqn:E.
  - apply find_item_some in E as (Hk & a & l1 & l2 & ->). split; [done|]. exists a, l1, l2. split; [done|]. rewrite <- Hk. eapply around. exact R.
  - apply find_item_none in E. destruct (entries c !! key) as [a|] eqn:Ea; [|done]. apply (represented_entry _ _ _ _ R) in Ea as (it & Hin & Hk).
    exfalso. apply E. unfold keys_at. apply list_elem_of_fmap. by exists (a, it).
Qed.
Lemma removed_spec c l key : represents c l ->
  let c' := match entries c !! key with Some a => removeEntryLocked c a | None => c end in
  exists l', represents c' l' /\ view c' l' = lru_items (view c l) (remove_item (map snd l) key) /\ map snd l' = remove_item (map snd l) key /\ key ∉ keys_at l'.
Proof.
  intros R. pose proof (find_entry c l key R) as F. destruct (find_item (map snd l) key) as [it|] eqn:E.
  - destruct F as (<- & a & l1 & l2 & -> & ->). destruct (around _ _ _ _ _ R) as (-> & _ & Hn & _). exists (l1 ++ l2).
    destruct (removeEntry_spec _ _ _ _ _ R). by split_and!.
  - rewrite F. apply find_item_none in E. exists l. assert (remove_item (map snd l) key = map snd l) as ->.
    { apply remove_item_absent. intros it Hin Hk. apply E. unfold keys_at. apply list_elem_of_fmap in Hin as (x & -> & Hx). apply list_elem_of_fmap. by exists x. }
    by split_and!.
Qed.

Lemma forget_represents c l key : represents c l -> represents (forget_fetch c key) l /\ view (forget_fetch c key) l = lru_forget (view c l) key.
Proof. intros R. split; [|done]. by destruct R. Qed.

Lemma expiry_spec' c l s now : 0 < defaultTTL c -> calculateExpiry c now (ExpiresAt s) = lru_expiry (view c l) s now.
Proof.
  intros H. unfold calculateExpiry, lru_expiry. rewrite (proj2 (Z.leb_gt (defaultTTL c) 0)) by done. cbn [l_ttl view]. destruct (ExpiresAt s) as [t|]; [|done].
  destruct (Z.ltb_spec t now), (Z.ltb_spec t (now + defaultTTL c)); try lia; f_equal; lia.
Qed.
Lemma put_spec c l key s now : represents c l -> 0 < capacity c -> 0 < defaultTTL c ->
  exists l', represents (putLocked c key s now) l' /\ view (putLocked c key s now) l' = lru_put (view c l) key s now.
Proof.
  intros R Hc Ht. unfold putLocked, lru_put. rewrite (expiry_spec' c l) by done. destruct (lru_expiry (view c l) s now) as [t|]; [|by exists l].
  destruct (removed_spec c l key R) as (l0 & R0 & V0 & S0 & K0). set (c0 := match entries c !! key with Some a => _ | None => _ end) in *.
  assert (capacity c0 = capacity c) as Ec by exact (f_equal l_capacity V0). rewrite (entries_size _ _ R0).
  destruct (evict_tail_spec (List.length l0) c0 l0 R0) as [R1 V1]; [by rewrite Ec|done|]. rewrite Ec in R1, V1.
  destruct (insert_entry_spec _ _ key s t R1) as [R2 V2].
  { intros Hin. apply K0. unfold keys_at in *. rewrite <- firstn_map in Hin. rewrite <- (firstn_skipn (Z.to_nat (capacity c) - 1) (map _ l0)). set_solver. }
  eexists. split; [exact R2|]. rewrite V2, V1, V0. unfold lru_items, view. cbn. by rewrite <- firstn_map, S0.
Qed.

Lemma enabled_spec c l : disabled c = lru_disabled (view c l).
Proof. done. Qed.
Lemma enabled_pos c : disabled c = false -> 0 < capacity c /\ 0 < defaultTTL c.
Proof. unfold disabled. intros [? ?]%orb_false_iff. bool_facts. done. Qed.

(** Every operation does to the list it stands for what it promises, and answers the same. *)
Lemma op_spec c l op : represents c l ->
  exists l', represents (fst (run_op c op)) l' /\ (view (fst (run_op c op)) l', snd (run_op c op)) = lru_op (view c l) op.
Proof.
  intros R. destruct op as [ref now|ref|ref ft|ref s now|ref s ft now|ref|]; cbn [run_op lru_op]; try set (key := ref_String ref); rewrite <- ?(enabled_spec c l).
  - unfold Get. fold key. destruct (disabled c || str_eq key "") eqn:Ed; [by exists l|]. pose proof (find_entry c l key R) as F. cbn [l_items view].
    destruct (find_item (map snd l) key) as [it|]; [|rewrite F; by exists l].
    destruct F as (Hk & a & l1 & l2 & -> & Ha). rewrite Ha. destruct (detach_list _ _ _ _ _ (re_list _ _ R)) as (e & He & Hh & _).
    cbn [mbind option_bind]. rewrite He. cbn. destruct Hh as (Ek & Eb & Eh & Es & Ee). rewrite Ee. destruct (around _ _ _ _ _ R) as (Hrm & _). rewrite <- Hk, Hrm.
    destruct (i_expires it <? now); cbn [fst snd].
    + destruct (removeEntry_spec _ _ _ _ _ R) as [R' V]. exists (l1 ++ l2). split; [done|]. by rewrite V.
    + destruct (moveToHead_spec _ _ _ _ _ R) as [R' V]. exists ((a, it) :: l1 ++ l2). split; [done|]. rewrite V. f_equal. unfold entry_secret. rewrite Eh, Eb, Es.
      by destruct (i_secret it).
  - unfold StartFetch. fold key. destruct (disabled c || str_eq key "") eqn:Ed; [by exists l|]. cbn [view l_generations l_keys l_capacity].
    destruct (evict _ _ _) as [g keys]. exists l. split; [by destruct R|done].
  - unfold CancelFetch. fold key. exists l. cbn [fst snd]. cbn [view l_generations]. destruct (token ft =? 0), (str_eq key ""); cbn [orb negb andb]; try by split.
    destruct (generations c !! key) as [cur|]; [|by split]. destruct (Z.eqb_spec cur (token ft)) as [->|Hne].
    + rewrite bool_decide_eq_true_2 by done. cbn [andb]. destruct (forget_represents c l key R). by split.
    + rewrite bool_decide_eq_false_2 by congruence. by split.
  - unfold Put. fold key. destruct (disabled c || str_eq key "") eqn:Ed; [by exists l|]. apply orb_false_iff in Ed as [Ed _]. apply enabled_pos in Ed as [Hc Ht].
    destruct (forget_represents c l key R) as [R1 V1]. destruct (put_spec (forget_fetch c key) l key s now R1 Hc Ht) as (l' & R' & V'). exists l'. split; [done|]. cbn [fst snd]. by rewrite V', V1.
  - unfold PutIfMatch. fold key. cbn [view l_epoch l_generations]. destruct (disabled c) eqn:Ed; cbn [orb negb andb]; [by exists l|]. apply enabled_pos in Ed as [Hc Ht].
    destruct (token ft =? 0); cbn [orb negb andb]; [by exists l|]. destruct (str_eq key ""); cbn [orb negb andb]; [by exists l|].
    destruct (clearEpoch ft =? globalClearEpoch c); cbn [negb andb]; [|by exists l]. destruct (generations c !! key) as [cur|]; [|by exists l].
    destruct (Z.eqb_spec cur (token ft)) as [->|Hne]; [|rewrite bool_decide_eq_false_2 by congruence; by exists l]. rewrite bool_decide_eq_true_2 by done. cbn [andb].
    destruct (forget_represents c l key R) as [R1 V1]. destruct (put_spec (forget_fetch c key) l key s now R1 Hc Ht) as (l' & R' & V'). exists l'. split; [done|]. cbn [fst snd]. by rewrite V', V1.
  - unfold Invalidate. fold key. destruct (str_eq key ""); [by exists l|]. destruct (forget_represents c l key R) as [R1 V1].
    destruct (removed_spec (forget_fetch c key) l key R1) as (l' & R' & V' & _). exists l'. split; [done|]. cbn [fst snd]. by rewrite V', V1.
  - exists []. destruct (Clear_spec c l R) as [R' _]. by split.
Qed.

Lemma run_spec ops : forall c l, represents c l ->
  exists l', represents (fst (run_ops run_op c ops)) l' /\ (view (fst (run_ops run_op c ops)) l', snd (run_ops run_op c ops)) = run_ops lru_op (view c l) ops.
Proof.
  induction ops as [|op ops IH]; intros c l R; cbn [run_ops]; [by exists l|]. destruct (op_spec c l op R) as (l' & R' & E). rewrite <- E.
  destruct (run_op c op) as [c' an]. cbn [fst snd] in *. destruct (IH c' l' R') as (l2 & R2 & E2). rewrite <- E2.
  destruct (run_ops run_op c' ops) as [c2 ans]. cbn [fst snd] in *. by exists l2.
Qed.
Lemma represents_new cap ttl : represents (NewCache cap ttl) [].
Proof.
  constructor; cbn; [split; [done|constructor]|constructor|done| |].
  - intros a. rewrite lookup_empty. split; [by intros [? ?]|lia].
  - intros a e. by rewrite lookup_empty.
Qed.

Definition new_lru (cap ttl : Z) : Lru := mkLru (if cap <? 0 then 0 else cap) (if ttl <? 0 then 0 else ttl) [] ∅ [] 0 0.

(** C19: A cache does what a list of items, the last used first, would do: whatever operations are run, every
    answer is that of the list, which forgets its last items for want of room, drops an item when its time
    has passed and takes what a fetch brings only under the token of that fetch; the doubly linked entries
    and the map stand for that list throughout. *)
Theorem cache_refines_lru cap ttl ops :
  let c := fst (run_ops run_op (NewCache cap ttl) ops) in
  exists l, represents c l /\ (view c l, snd (run_ops run_op (NewCache cap ttl) ops)) = run_ops lru_op (new_lru cap ttl) ops.
Proof. destruct (run_spec ops _ _ (represents_new cap ttl)) as (l & R & E). by exists l. Qed.

(** ** Bounds *)
Lemma drop_any_size cap keys : 0 < cap -> forall g, (forall k, is_Some (g !! k) -> k ∈ keys) -> Z.of_nat (size (drop_any cap g keys)) < cap.
Proof.
  intros Hc. induction keys as [|k keys IH]; intros g Hk; cbn [drop_any].
  - assert (g = ∅) as ->; [|by rewrite map_size_empty]. apply map_empty. intros k. destruct (g !! k) eqn:E; [|done]. exfalso. eapply not_elem_of_nil, Hk. eauto.
  - destruct (Z.ltb_spec (Z.of_nat (size g)) cap); [done|]. apply IH. intros k' Hk'. destruct (decide (k = k')) as [<-|Hne]; [by rewrite lookup_delete_eq in Hk'; destruct Hk'|].
    rewrite lookup_delete_ne in Hk' by done. specialize (Hk _ Hk'). set_solver.
Qed.
Lemma evict_size cap keys : 0 < cap -> forall g, Z.of_nat (size (fst (evict cap g keys))) < cap.
Proof.
  intros Hc. induction keys as [|k keys IH]; intros g; cbn [evict]; destruct (Z.ltb_spec (Z.of_nat (size g)) cap); try done.
  apply drop_any_size; [done|]. intros k Hk. by apply keys_elem.
Qed.
Lemma drop_any_subset cap keys : forall g k t, drop_any cap g keys !! k = Some t -> g !! k = Some t.
Proof.
  induction keys as [|k0 keys IH]; intros g k t; cbn [drop_any]; [done|]. destruct (_ <? cap); [done|]. intros H%IH. by apply lookup_delete_Some in H as [_ H].
Qed.
Lemma evict_subset cap keys : forall g k t, fst (evict cap g keys) !! k = Some t -> g !! k = Some t.
Proof.
  induction keys as [|k0 keys IH]; intros g k t; cbn [evict]; destruct (_ <? cap); try done; [apply drop_any_subset|].
  intros H%IH. by apply lookup_delete_Some in H as [_ H].
Qed.

Record lru_bounded (s : Lru) : Prop := {
  lb_items : Z.of_nat (List.length (l_items s)) <= Z.max 0 (l_capacity s);
  lb_fetches : Z.of_nat (size (l_generations s)) <= Z.max 0 (l_capacity s)
}.
Lemma remove_item_length its key : (List.length (remove_item its key) <= List.length its)%nat.
Proof. apply List.filter_length_le. Qed.
Lemma delete_size_le {A} (m : gmap string A) k : (size (delete k m) <= size m)%nat.
Proof. apply map_subseteq_size, delete_subseteq. Qed.
Lemma lru_put_bounded s key secret now : 0 < l_capacity s -> lru_bounded s -> lru_bounded (lru_put s key secret now).
Proof.
  intros Hc [B1 B2]. unfold lru_put. destruct (lru_expiry _ _ _); [|done]. constructor; cbn; [|done]. rewrite length_firstn. lia.
Qed.
Lemma lru_forget_bounded s key : lru_bounded s -> lru_bounded (lru_forget s key).
Proof. intros [B1 B2]. constructor; cbn; [done|]. pose proof (delete_size_le (l_generations s) key). lia. Qed.
Lemma lru_items_bounded s its : (List.length its <= List.length (l_items s))%nat -> lru_bounded s -> lru_bounded (lru_items s its).
Proof. intros H [B1 B2]. constructor; cbn; [lia|done]. Qed.
Lemma find_remove_length its key it : find_item its key = Some it -> (S (List.length (remove_item its key)) <= List.length its)%nat.
Proof.
  unfold find_item, remove_item. induction its as [|x its IH]; cbn; [done|]. destruct (str_eq (i_key x) key) eqn:E; cbn.
  - intros _. pose proof (remove_item_length its key). unfold remove_item in *. lia.
  - intros H%IH. lia.
Qed.
Lemma lru_op_bounded s op : lru_bounded s -> lru_bounded (fst (lru_op s op)).
Proof.
  intros B. assert (lru_disabled s = false -> 0 < l_capacity s) as Hpos by (unfold lru_disabled; intros [? ?]%orb_false_iff; bool_facts; done).
  destruct op as [ref now|ref|ref ft|ref x now|ref x ft now|ref|]; cbn [lru_op]; try set (key := ref_String ref).
  - destruct (lru_disabled s || _); [done|]. destruct (find_item (l_items s) key) as [it|] eqn:E; [|done]. pose proof (find_remove_length _ _ _ E).
    destruct (i_expires it <? now); cbn; (apply lru_items_bounded; [cbn; lia|done]).
  - destruct (lru_disabled s) eqn:Ed; [done|]. specialize (Hpos eq_refl). destruct (str_eq key ""); [done|]. cbn [orb].
    pose proof (evict_size (l_capacity s) (match l_generations s !! key with Some _ => removeGenerationKeyLocked key (l_keys s) | None => l_keys s end) Hpos (l_generations s)) as Hs.
    destruct (evict _ _ _) as [g keys]. cbn in *. constructor; cbn; [apply B|]. rewrite map_size_insert. destruct (g !! key); cbn; lia.
  - cbn. destruct (_ && _ && _); [by apply lru_forget_bounded|done].
  - cbn. destruct (lru_disabled s); [done|]. destruct (str_eq key ""); [done|]. apply lru_put_bounded; [by apply Hpos|]. by apply lru_forget_bounded.
  - cbn. destruct (lru_disabled s); [done|]. cbn. destruct (_ && _ && _ && _); [|done]. apply lru_put_bounded; [by apply Hpos|]. by apply lru_forget_bounded.
  - cbn. destruct (str_eq key ""); [done|]. apply lru_items_bounded; [apply remove_item_length|]. by apply lru_forget_bounded.
  - constructor; cbn; rewrite ?map_size_empty; lia.
Qed.
Lemma run_bounded ops : forall s, lru_bounded s -> lru_bounded (fst (run_ops lru_op s ops)).
Proof.
  induction ops as [|op ops IH]; intros s B; cbn [run_ops]; [done|]. pose proof (lru_op_bounded s op B) as B'. destruct (lru_op s op) as [s' an].
  specialize (IH s' B'). by destruct (run_ops lru_op s' ops).
Qed.
Lemma op_capacity s op : l_capacity (fst (lru_op s op)) = l_capacity s.
Proof.
  destruct op as [ref now|ref|ref ft|ref x now|ref x ft now|ref|]; cbn [lru_op]; try done; repeat case_match; cbn; unfold lru_put; repeat case_match; done.
Qed.
Lemma run_capacity ops : forall s, l_capacity (fst (run_ops lru_op s ops)) = l_capacity s.
Proof.
  induction ops as [|op ops IH]; intros s; cbn [run_ops]; [done|]. pose proof (op_capacity s op) as E. destruct (lru_op s op) as [s' an].
  specialize (IH s'). destruct (run_ops lru_op s' ops). cbn in *. congruence.
Qed.

(** C25: A cache keeps no more secrets, and tracks no more fetches, than its capacity, and none without one; an entry that
    the map no longer names holds no byte of its secret. *)
Theorem cache_bounded cap ttl ops : let c := fst (run_ops run_op (NewCache cap ttl) ops) in
  Len c <= Z.max 0 cap /\ ActiveFetchesCount c <= Z.max 0 cap /\
  forall a e, heap c !! a = Some e -> (forall key, entries c !! key <> Some a) -> wiped e.
Proof.
  intros c. destruct (run_spec ops _ _ (represents_new cap ttl)) as (l & R & E). fold c in R, E.
  change (view (NewCache cap ttl) []) with (new_lru cap ttl) in E. pose proof (f_equal fst E) as V. cbn [fst] in V.
  assert (lru_bounded (new_lru cap ttl)) as B0 by (constructor; cbn; rewrite ?map_size_empty; lia). pose proof (run_bounded ops _ B0) as [B1 B2]. rewrite <- V in B1, B2.
  pose proof (run_capacity ops (new_lru cap ttl)) as Hc. rewrite <- V in Hc. cbn [view l_items l_generations l_capacity new_lru] in *. rewrite Hc in B1, B2. rewrite length_map in B1.
  unfold Len, ActiveFetchesCount. rewrite (entries_size _ _ R). assert (Z.max 0 (if cap <? 0 then 0 else cap) = Z.max 0 cap) as Em by (destruct (Z.ltb_spec cap 0); lia).
  rewrite Em in B1, B2. split; [done|]. split; [done|]. intros a e He Hn. apply (re_wiped _ _ R a e He). intros Ha.
  apply list_elem_of_fmap in Ha as ([b it] & -> & Hin). apply (Hn (i_key it)). apply (represented_entry _ _ _ _ R). by exists it.
Qed.
End Refinement.

(** * A store behind a cache *)

(** Calls in progress: [CachedSource.Get] and the writes of [CachedStore], outside the lock of the cache. *)
Inductive call :=
  | Missed (ref : Ref)                              (* the cache had nothing *)
  | Fetching (ref : Ref) (ft : FetchToken)          (* before the store is read *)
  | Fetched (ref : Ref) (ft : FetchToken) (secret : Secret)
  | FetchFailed (ref : Ref) (ft : FetchToken)
  | Writing (ref : Ref) (new : option Secret)       (* invalidated, before the store is written; [None] deletes *)
  | Written (ref : Ref).                            (* before the invalidation on return *)
Record World := mkWorld { w_cache : Cache; w_store : gmap Ref Secret; w_calls : gmap nat call; w_begun : Z }.

Section CachedStore.
Context `{Ord : KeyOrder}.

Definition move (w : World) (i : nat) (cl : option call) (c : Cache) : World :=
  mkWorld c (w_store w) (match cl with Some cl => <[i := cl]> (w_calls w) | None => delete i (w_calls w) end) (w_begun w).
Inductive cached_step : World -> World -> Prop :=
  | get_hit w ref now c s : Get (w_cache w) ref now = (c, Some s) -> cached_step w (mkWorld c (w_store w) (w_calls w) (w_begun w))
  | get_miss w ref now c i : ref_Validate ref = Ok tt -> Get (w_cache w) ref now = (c, None) -> w_calls w !! i = None ->
      cached_step w (move w i (Some (Missed ref)) c)
  | get_start w i ref c ft : w_calls w !! i = Some (Missed ref) -> StartFetch (w_cache w) ref = (c, ft) ->
      cached_step w (mkWorld c (w_store w) (<[i := Fetching ref ft]> (w_calls w)) (w_begun w + 1))
  | get_read w i ref ft s : w_calls w !! i = Some (Fetching ref ft) -> w_store w !! ref = Some s ->
      cached_step w (move w i (Some (Fetched ref ft s)) (w_cache w))
  | get_fails w i ref ft : w_calls w !! i = Some (Fetching ref ft) -> cached_step w (move w i (Some (FetchFailed ref ft)) (w_cache w))
  | get_cancel w i ref ft : w_calls w !! i = Some (FetchFailed ref ft) -> cached_step w (move w i None (CancelFetch (w_cache w) ref ft))
  | get_fill w i ref ft s now : w_calls w !! i = Some (Fetched ref ft s) -> cached_step w (move w i None (PutIfMatch (w_cache w) ref s ft now))
  | put_begin w i ref new : ref_Validate ref = Ok tt -> w_calls w !! i = None -> cached_step w (move w i (Some (Writing ref new)) (Invalidate (w_cache w) ref))
  | put_store w i ref new : w_calls w !! i = Some (Writing ref new) ->
      cached_step w (mkWorld (w_cache w) (match new with Some s => <[ref := s]> (w_store w) | None => delete ref (w_store w) end)
                       (<[i := Written ref]> (w_calls w)) (w_begun w))
  | put_fails w i ref new : w_calls w !! i = Some (Writing ref new) -> cached_step w (move w i (Some (Written ref)) (w_cache w))
  | put_end w i ref : w_calls w !! i = Some (Written ref) -> cached_step w (move w i None (Invalidate (w_cache w) ref))
  | other_invalidate w ref : cached_step w (mkWorld (Invalidate (w_cache w) ref) (w_store w) (w_calls w) (w_begun w))
  | cache_clear w : cached_step w (mkWorld (Clear (w_cache w)) (w_store w) (w_calls w) (w_begun w)).
Definition cached_init (w : World) : Prop := exists cap ttl store, w = mkWorld (NewCache cap ttl) store ∅ 0.

(** What a cache has under a key. *)
Definition cached (c : Cache) (key : string) : option Secret := a ← entries c !! key; e ← heap c !! a; Some (entry_secret e).
(** A write of the reference has had its effect, and has not returned. *)
Definition being_written (w : World) (ref : Ref) : Prop := exists i, w_calls w !! i = Some (Written ref).

(** ** What an operation adds *)
Lemma cached_view c l key : represents c l -> cached c key = i_secret <$> find_item (map snd l) key.
Proof.
  intros R. unfold cached. pose proof (find_entry c l key R) as F. destruct (find_item (map snd l) key) as [it|]; [|by rewrite F].
  destruct F as (_ & a & l1 & l2 & -> & Ha). rewrite Ha. destruct (detach_list _ _ _ _ _ (re_list _ _ R)) as (e & He & (_ & Eb & Eh & Es & _) & _).
  cbn. rewrite He. cbn. unfold entry_secret. rewrite Eh, Eb, Es. by destruct (i_secret it).
Qed.
Lemma find_remove_same its key : find_item (remove_item its key) key = None.
Proof.
  unfold find_item, remove_item. induction its as [|it its IH]; [done|]. cbn. destruct (str_eq (i_key it) key) eqn:E; cbn; [done|by rewrite E].
Qed.
Lemma find_remove_other its key k : k <> key -> find_item (remove_item its key) k = find_item its k.
Proof.
  intros Hk. unfold find_item, remove_item. induction its as [|it its IH]; [done|]. cbn. destruct (str_eq (i_key it) key) eqn:E; cbn; str_facts.
  - rewrite IH. by rewrite (proj2 (str_eq_false (i_key it) k)) by congruence.
  - by rewrite IH.
Qed.
Lemma find_remove_some its key k it : find_item (remove_item its key) k = Some it -> find_item its k = Some it.
Proof. destruct (decide (k = key)) as [->|Hk]; [by rewrite find_remove_same|by rewrite find_remove_other]. Qed.
Lemma find_firstn n its k it : find_item (firstn n its) k = Some it -> find_item its k = Some it.
Proof.
  unfold find_item. revert n. induction its as [|x its IH]; intros n; [by rewrite firstn_nil|]. destruct n; [done|]. cbn. destruct (str_eq _ k); [done|apply IH].
Qed.

(** What an operation stores under a key, if it does. *)
Definition op_stores (op : cache_op) (key : string) (s : Secret) (g : gmap string Z) : Prop :=
  key <> "" /\ match op with
  | OpPut ref x _ => ref_String ref = key /\ x = s
  | OpPutIf ref x ft _ => ref_String ref = key /\ x = s /\ g !! key = Some (token ft)
  | _ => False
  end.
Lemma lru_put_found s key secret now k it : find_item (l_items (lru_put s key secret now)) k = Some it ->
  (k = key /\ i_secret it = secret) \/ find_item (l_items s) k = Some it.
Proof.
  unfold lru_put. destruct (lru_expiry _ _ _); [|by right]. cbn [l_items lru_items]. unfold find_item at 1. cbn [List.find i_key]. destruct (str_eq key k) eqn:E; str_facts.
  - intros [= <-]. by left.
  - intros H%find_firstn%find_remove_some. by right.
Qed.
Lemma lru_found s op k it : find_item (l_items (fst (lru_op s op))) k = Some it ->
  op_stores op k (i_secret it) (l_generations s) \/ exists it', find_item (l_items s) k = Some it' /\ i_secret it' = i_secret it.
Proof.
  destruct op as [ref now|ref|ref ft|ref x now|ref x ft now|ref|]; cbn [lru_op op_stores]; try set (key := ref_String ref).
  - destruct (_ || _); [cbn; eauto|]. destruct (find_item (l_items s) key) as [it'|] eqn:E; [|cbn; eauto]. destruct (i_expires it' <? now); cbn [fst l_items lru_items].
    + intros H%find_remove_some. eauto.
    + unfold find_item at 1. cbn [List.find]. apply find_some in E as E'. destruct E' as [_ E']. str_facts. destruct (str_eq (i_key it') k) eqn:Ek; str_facts.
      * intros [= <-]. right. exists it'. split; [congruence|done].
      * intros H%find_remove_some. eauto.
  - destruct (_ || _); [cbn; eauto|]. destruct (evict _ _ _). cbn. eauto.
  - cbn. destruct (_ && _ && _); cbn; eauto.
  - cbn. destruct (lru_disabled s || str_eq key "") eqn:Ec; [eauto|]. apply orb_false_iff in Ec as [_ Ec]. str_facts. intros [[-> <-]|H]%lru_put_found; [by left|]. cbn in H. eauto.
  - cbn. destruct (_ && _ && _ && _ && _) eqn:Ec; [|eauto]. intros [[-> <-]|H]%lru_put_found; [|cbn in H; eauto]. left. bool_facts. str_facts. done.
  - cbn. destruct (str_eq key ""); [eauto|]. cbn. intros H%find_remove_some. eauto.
  - done.
Qed.
Lemma op_cached c l op k s : represents c l -> cached (fst (run_op c op)) k = Some s -> op_stores op k s (generations c) \/ cached c k = Some s.
Proof.
  intros R H. destruct (op_spec c l op R) as (l' & R' & E). rewrite (cached_view _ _ _ R') in H. rewrite (cached_view _ _ _ R).
  assert (map snd l' = l_items (fst (lru_op (view c l) op))) as El by (by rewrite <- E). rewrite El in H. apply fmap_Some in H as (it & Hit & ->).
  apply lru_found in Hit as [Hs|(it' & Hit & <-)]; [by left|]. right. cbn [l_items view] in Hit. by rewrite Hit.
Qed.
(** What an operation tracks under a key. *)
Lemma op_generation c l op k t : represents c l -> generations (fst (run_op c op)) !! k = Some t ->
  generations c !! k = Some t \/ (exists ref, op = OpStart ref /\ ref_String ref = k /\ k <> "" /\ t = next_uint64 (nextFetchToken c)).
Proof.
  intros R H. destruct (op_spec c l op R) as (l' & R' & E). assert (generations (fst (run_op c op)) = l_generations (fst (lru_op (view c l) op))) as Eg by (by rewrite <- E).
  rewrite Eg in H. clear Eg E. assert (forall s key, l_generations (lru_forget s key) !! k = Some t -> l_generations s !! k = Some t) as Hf.
  { intros s key. cbn. by intros [_ ?]%lookup_delete_Some. }
  assert (forall s key x now, l_generations (lru_put s key x now) = l_generations s) as Hp by (intros; unfold lru_put; by destruct (lru_expiry _ _ _)).
  destruct op as [ref now|ref|ref ft|ref x now|ref x ft now|ref|]; cbn [lru_op] in H; try set (key := ref_String ref) in *.
  - left. repeat case_match; done.
  - destruct (lru_disabled (view c l) || str_eq key "") eqn:Ec; [by left|]. apply orb_false_iff in Ec as [_ Ec]. str_facts. cbn [l_capacity l_generations view l_keys l_fetch] in H.
    pose proof (evict_subset (capacity c) (match generations c !! key with Some _ => removeGenerationKeyLocked key (generationKeys c) | None => generationKeys c end) (generations c) k t) as He.
    destruct (evict _ _ _) as [g keys]. cbn in H, He. apply lookup_insert_Some in H as [[<- <-]|[_ H]]; [right; by exists ref|left; by apply He].
  - left. cbn in H. destruct (_ && _ && _); [by apply Hf in H|done].
  - left. cbn in H. destruct (_ || _); [done|]. rewrite Hp in H. by apply Hf in H.
  - left. cbn in H. destruct (_ && _ && _ && _ && _); [|done]. rewrite Hp in H. by apply Hf in H.
  - left. cbn in H. destruct (str_eq key ""); [done|]. by apply Hf in H.
  - done.
Qed.
Lemma op_token c l op : represents c l -> nextFetchToken (fst (run_op c op)) = nextFetchToken c \/
  (exists ref, op = OpStart ref /\ nextFetchToken (fst (run_op c op)) = next_uint64 (nextFetchToken c)).
Proof.
  intros R. destruct (op_spec c l op R) as (l' & R' & E). assert (nextFetchToken (fst (run_op c op)) = l_fetch (fst (lru_op (view c l) op))) as Eg by (by rewrite <- E).
  rewrite Eg. destruct op as [ref now|ref|ref ft|ref x now|ref x ft now|ref|]; cbn [lru_op]; try (left; unfold lru_put; repeat case_match; done).
  destruct (_ || _); [by left|]. destruct (evict _ _ _). right. by exists ref.
Qed.
Lemma invalidated c l ref : represents c l -> ref_String ref <> "" ->
  cached (Invalidate c ref) (ref_String ref) = None /\ generations (Invalidate c ref) !! ref_String ref = None.
Proof.
  intros R Hk. destruct (op_spec c l (OpInvalidate ref) R) as (l' & R' & E). cbn [run_op fst snd lru_op] in R', E. rewrite (proj2 (str_eq_false _ _) Hk) in E.
  pose proof (f_equal fst E) as V. cbn [fst] in V. rewrite (cached_view _ _ _ R'). split.
  - assert (map snd l' = remove_item (map snd l) (ref_String ref)) as -> by exact (f_equal l_items V). by rewrite find_remove_same.
  - assert (generations (Invalidate c ref) = delete (ref_String ref) (generations c)) as -> by exact (f_equal l_generations V). apply lookup_delete_eq.
Qed.

(** ** Coherence *)
Lemma valid_refs r r' : ref_Validate r = Ok tt -> ref_Validate r' = Ok tt -> ref_String r = ref_String r' -> ref_String r <> "" -> r = r'.
Proof.
  assert (forall x, ref_Validate x = Ok tt -> ref_String x <> "" -> ref_String x = StoreID x +:+ String "/" (ItemID x) /\ exists_byte (Ascii.eqb "/") (StoreID x) = false) as Hv.
  { intros x. unfold ref_Validate, ref_String. destruct (ref_IsEmpty x); [done|]. intros H _. split; [done|]. apply bind_reject_ok in H as [_ H].
    apply result_bind_ok in H as ([] & H & _). by eapply identifier_no_slash. }
  intros V V' E Hne. destruct (Hv r V Hne) as [E1 H1]. rewrite E in Hne. destruct (Hv r' V' Hne) as [E2 H2].
  pose proof (cut_byte_app "/" _ (ItemID r) H1) as C1. rewrite <- E1, E, E2, (cut_byte_app "/" _ (ItemID r') H2) in C1. injection C1 as Es Ei. destruct r, r'. cbn in *. congruence.
Qed.

Definition call_ref (cl : call) : Ref :=
  match cl with Missed r => r | Fetching r _ => r | Fetched r _ _ => r | FetchFailed r _ => r | Writing r _ => r | Written r => r end.
Definition call_token (cl : call) : option FetchToken :=
  match cl with Fetching _ ft => Some ft | Fetched _ ft _ => Some ft | FetchFailed _ ft => Some ft | _ => None end.

Record coherent (w : World) : Prop := {
  co_list : exists l, represents (w_cache w) l;
  co_blank : cached (w_cache w) "" = None /\ generations (w_cache w) !! "" = None;
  co_valid : forall i cl, w_calls w !! i = Some cl -> ref_Validate (call_ref cl) = Ok tt;
  co_fetch : 0 <= nextFetchToken (w_cache w) <= w_begun w;
  co_tracked : forall k t, generations (w_cache w) !! k = Some t -> t <= nextFetchToken (w_cache w);
  co_tokens : forall i cl ft, w_calls w !! i = Some cl -> call_token cl = Some ft -> token ft <= nextFetchToken (w_cache w);
  co_current : forall ref s, ref_Validate ref = Ok tt -> cached (w_cache w) (ref_String ref) = Some s -> being_written w ref \/ w_store w !! ref = Some s;
  co_coming : forall i ref ft s, w_calls w !! i = Some (Fetched ref ft s) -> generations (w_cache w) !! ref_String ref = Some (token ft) ->
    being_written w ref \/ w_store w !! ref = Some s
}.

Lemma coherent_op w op calls' : coherent w -> (forall ref, op <> OpStart ref) ->
  (forall i cl, calls' !! i = Some cl -> ref_Validate (call_ref cl) = Ok tt /\ (forall ft, call_token cl = Some ft -> token ft <= nextFetchToken (w_cache w))) ->
  (forall i ref ft s, calls' !! i = Some (Fetched ref ft s) -> w_calls w !! i = Some (Fetched ref ft s) \/ w_store w !! ref = Some s) ->
  (forall ref s, ref_Validate ref = Ok tt -> op_stores op (ref_String ref) s (generations (w_cache w)) -> being_written w ref \/ w_store w !! ref = Some s) ->
  (forall ref, being_written w ref -> (exists i, calls' !! i = Some (Written ref)) \/
     (ref_String ref <> "" -> cached (fst (run_op (w_cache w) op)) (ref_String ref) = None /\ generations (fst (run_op (w_cache w) op)) !! ref_String ref = None)) ->
  coherent (mkWorld (fst (run_op (w_cache w) op)) (w_store w) calls' (w_begun w)).
Proof.
  intros C Hop Hcalls Hfetched Hst Hwr. destruct (co_list _ C) as [l R]. set (c' := fst (run_op (w_cache w) op)) in *.
  assert (nextFetchToken c' = nextFetchToken (w_cache w)) as Etok.
  { destruct (op_token _ _ op R) as [E|(ref & -> & _)]; [done|]. by destruct (Hop ref). }
  assert (forall k s, cached c' k = Some s -> op_stores op k s (generations (w_cache w)) \/ cached (w_cache w) k = Some s) as Hc by (intros; by eapply op_cached).
  assert (forall k t, generations c' !! k = Some t -> generations (w_cache w) !! k = Some t) as Hg.
  { intros k t H. destruct (op_generation _ _ op k t R H) as [?|(ref & -> & _)]; [done|]. by destruct (Hop ref). }
  assert (cached c' "" = None /\ generations c' !! "" = None) as [Hb1 Hb2].
  { destruct (co_blank _ C) as [B1 B2]. split; apply eq_None_not_Some; intros [x Hx]; [apply Hc in Hx as [[? _]|Hx]; congruence|apply Hg in Hx; congruence]. }
  assert (forall ref, being_written w ref -> is_Some (cached c' (ref_String ref)) \/ is_Some (generations c' !! ref_String ref) -> exists i, calls' !! i = Some (Written ref)) as Hkeep.
  { intros ref Hw Hx. destruct (Hwr ref Hw) as [?|Hn]; [done|]. destruct (decide (ref_String ref = "")) as [E|E].
    - rewrite E, Hb1, Hb2 in Hx. by destruct Hx as [[? ?]|[? ?]].
    - destruct (Hn E) as [E1 E2]. rewrite E1, E2 in Hx. by destruct Hx as [[? ?]|[? ?]]. }
  constructor; cbn [w_cache w_store w_calls w_begun].
  - destruct (op_spec _ _ op R) as (l' & R' & _). by exists l'.
  - done.
  - intros i cl Hi. by apply Hcalls in Hi as [? _].
  - rewrite Etok. apply (co_fetch _ C).
  - intros k t Ht. rewrite Etok. by apply (co_tracked _ C k), Hg.
  - intros i cl ft Hi Hf. rewrite Etok. by apply (proj2 (Hcalls i cl Hi)).
  - intros ref s Hv Hs. pose proof Hs as Hs'. apply Hc in Hs' as [Hs'|Hs'].
    + destruct (Hst ref s Hv Hs') as [Hw|?]; [left; apply (Hkeep ref Hw); left; eauto|by right].
    + destruct (co_current _ C ref s Hv Hs') as [Hw|?]; [left; apply (Hkeep ref Hw); left; eauto|by right].
  - intros i ref ft s Hi Ht. destruct (Hfetched _ _ _ _ Hi) as [Hi'|?]; [|by right].
    destruct (co_coming _ C i ref ft s Hi' (Hg _ _ Ht)) as [Hw|?]; [left; apply (Hkeep ref Hw); right; eauto|by right].
Qed.

(** The calls after one of them has moved. *)
Lemma moved_calls w i (cl : option call) : coherent w -> (forall cl', cl = Some cl' -> ref_Validate (call_ref cl') = Ok tt /\ (forall ft, call_token cl' = Some ft -> token ft <= nextFetchToken (w_cache w))) ->
  forall j cl', (match cl with Some cl => <[i := cl]> (w_calls w) | None => delete i (w_calls w) end) !! j = Some cl' ->
  ref_Validate (call_ref cl') = Ok tt /\ (forall ft, call_token cl' = Some ft -> token ft <= nextFetchToken (w_cache w)).
Proof.
  intros C Hn j cl' Hj. assert (w_calls w !! j = Some cl' \/ cl = Some cl') as [H|H].
  { destruct cl as [cl|]; [apply lookup_insert_Some in Hj as [[_ ->]|[_ Hj]]|apply lookup_delete_Some in Hj as [_ Hj]]; auto. }
  - split; [by apply (co_valid _ C j)|]. intros ft. by apply (co_tokens _ C j).
  - by apply Hn.
Qed.
Lemma moved_fetched w i (cl : option call) : (forall ref ft s, cl = Some (Fetched ref ft s) -> w_store w !! ref = Some s) ->
  forall j ref ft s, (match cl with Some cl => <[i := cl]> (w_calls w) | None => delete i (w_calls w) end) !! j = Some (Fetched ref ft s) ->
  w_calls w !! j = Some (Fetched ref ft s) \/ w_store w !! ref = Some s.
Proof.
  intros Hn j ref ft s Hj. destruct cl as [cl|]; [apply lookup_insert_Some in Hj as [[_ ->]|[_ Hj]]; [right; by eapply Hn|by left]|].
  apply lookup_delete_Some in Hj as [_ Hj]. by left.
Qed.

(** A call moves, and the cache by an operation that stores nothing new. *)
Lemma coherent_move w op i cl : coherent w -> (forall ref, op <> OpStart ref) ->
  (forall ref, w_calls w !! i = Some (Written ref) -> op = OpInvalidate ref) ->
  (forall cl', cl = Some cl' -> ref_Validate (call_ref cl') = Ok tt /\ (forall ft, call_token cl' = Some ft -> token ft <= nextFetchToken (w_cache w))) ->
  (forall ref ft s, cl = Some (Fetched ref ft s) -> w_store w !! ref = Some s) ->
  (forall ref s, ref_Validate ref = Ok tt -> op_stores op (ref_String ref) s (generations (w_cache w)) -> being_written w ref \/ w_store w !! ref = Some s) ->
  coherent (move w i cl (fst (run_op (w_cache w) op))).
Proof.
  intros C Hop Hi Hn Hf Hst. apply coherent_op; [done|done|by apply moved_calls|by apply moved_fetched|done|].
  intros ref [j Hj]. destruct (decide (i = j)) as [<-|Hne].
  - right. intros Hk. rewrite (Hi ref Hj). destruct (co_list _ C) as [l R]. by apply (invalidated _ l).
  - left. exists j. destruct cl; [by rewrite lookup_insert_ne|by rewrite lookup_delete_ne].
Qed.

Lemma next_uint64_small n : 0 <= n -> n + 1 < 2 ^ 64 -> next_uint64 n = n + 1.
Proof. intros. unfold next_uint64. apply Z.mod_small. lia. Qed.
Lemma start_spec c ref c' ft : StartFetch c ref = (c', ft) ->
  (c' = c /\ ft = no_token) \/ (token ft = next_uint64 (nextFetchToken c) /\ nextFetchToken c' = token ft).
Proof.
  unfold StartFetch. destruct (_ || _); [intros [= <- <-]; by left|]. destruct (evict _ _ _). intros [= <- <-]. by right.
Qed.
Lemma coherent_start w i ref c ft : coherent w -> w_begun w + 1 < 2 ^ 64 -> w_calls w !! i = Some (Missed ref) -> StartFetch (w_cache w) ref = (c, ft) ->
  coherent (mkWorld c (w_store w) (<[i := Fetching ref ft]> (w_calls w)) (w_begun w + 1)).
Proof.
  intros C Hb Hi Hs. destruct (co_list _ C) as [l R]. pose proof (co_fetch _ C) as Hf. assert (c = fst (run_op (w_cache w) (OpStart ref))) as Ec by (cbn; by rewrite Hs).
  pose proof (next_uint64_small (nextFetchToken (w_cache w))) as Hnext.
  assert (nextFetchToken (w_cache w) <= nextFetchToken c <= nextFetchToken (w_cache w) + 1 /\ token ft <= nextFetchToken c) as [Ht Hft].
  { apply start_spec in Hs as [[-> ->]|[E1 E2]]; [cbn; lia|]. rewrite E2, E1, Hnext by lia. lia. }
  assert (forall k s, cached c k = Some s -> cached (w_cache w) k = Some s) as Hc.
  { intros k s H. rewrite Ec in H. destruct (op_cached _ _ _ k s R H) as [[_ ?]|?]; done. }
  assert (forall k t, generations c !! k = Some t -> generations (w_cache w) !! k = Some t \/ (k <> "" /\ t = nextFetchToken (w_cache w) + 1 /\ t <= nextFetchToken c)) as Hg.
  { intros k t H. pose proof H as H'. rewrite Ec in H. destruct (op_generation _ _ _ k t R H) as [?|(ref' & [= <-] & _ & Hk & ->)]; [by left|]. right.
    rewrite Hnext by lia. split; [done|]. split; [done|].
    apply start_spec in Hs as [[-> ->]|[E1 E2]]; [|rewrite E2, E1, Hnext by lia; lia]. pose proof (co_tracked _ C k _ H'). rewrite Hnext in H0 by lia. lia. }
  assert (forall j cl, <[i := Fetching ref ft]> (w_calls w) !! j = Some cl -> w_calls w !! j = Some cl \/ cl = Fetching ref ft) as Hcl.
  { intros j cl Hj. apply lookup_insert_Some in Hj as [[_ <-]|[_ Hj]]; auto. }
  assert (forall r, being_written w r -> exists j, <[i := Fetching ref ft]> (w_calls w) !! j = Some (Written r)) as Hw.
  { intros r [j Hj]. exists j. rewrite lookup_insert_ne; [done|]. intros ->. congruence. }
  constructor; cbn [w_cache w_store w_calls w_begun].
  - destruct (op_spec _ _ (OpStart ref) R) as (l' & R' & _). rewrite <- Ec in R'. by exists l'.
  - destruct (co_blank _ C) as [B1 B2]. split; apply eq_None_not_Some; intros [x Hx]; [apply Hc in Hx; congruence|]. apply Hg in Hx as [Hx|[? _]]; [congruence|done].
  - intros j cl [Hj| ->]%Hcl; [by apply (co_valid _ C j)|]. apply (co_valid _ C i _ Hi).
  - lia.
  - intros k t [Hk|(_ & _ & ?)]%Hg; [|done]. pose proof (co_tracked _ C k t Hk). lia.
  - intros j cl ft' [Hj| ->]%Hcl Hft'; [pose proof (co_tokens _ C j cl ft' Hj Hft'); lia|]. by injection Hft' as <-.
  - intros r s Hv Hs'. destruct (co_current _ C r s Hv (Hc _ _ Hs')) as [?|?]; [left; by apply Hw|by right].
  - intros j r ft' s Hj Ht'. destruct (Hcl _ _ Hj) as [Hj'|]; [|done]. destruct (Hg _ _ Ht') as [Ht''|(_ & E & _)].
    + destruct (co_coming _ C j r ft' s Hj' Ht'') as [?|?]; [left; by apply Hw|by right].
    + pose proof (co_tokens _ C j _ ft' Hj' eq_refl). lia.
Qed.
Lemma coherent_store w i ref new : coherent w -> w_calls w !! i = Some (Writing ref new) ->
  coherent (mkWorld (w_cache w) (match new with Some s => <[ref := s]> (w_store w) | None => delete ref (w_store w) end) (<[i := Written ref]> (w_calls w)) (w_begun w)).
Proof.
  intros C Hi. assert (forall r, r <> ref -> (match new with Some s => <[ref := s]> (w_store w) | None => delete ref (w_store w) end) !! r = w_store w !! r) as Hst.
  { intros r Hr. destruct new; [by rewrite lookup_insert_ne|by rewrite lookup_delete_ne]. }
  assert (forall j cl, <[i := Written ref]> (w_calls w) !! j = Some cl -> w_calls w !! j = Some cl \/ cl = Written ref) as Hcl.
  { intros j cl Hj. apply lookup_insert_Some in Hj as [[_ <-]|[_ Hj]]; auto. }
  assert (forall r s, being_written w r \/ w_store w !! r = Some s -> (exists j, <[i := Written ref]> (w_calls w) !! j = Some (Written r)) \/
     (match new with Some s => <[ref := s]> (w_store w) | None => delete ref (w_store w) end) !! r = Some s) as Hok.
  { intros r s [[j Hj]|Hs]; [left; exists j; rewrite lookup_insert_ne; [done|intros ->; congruence]|].
    destruct (decide (r = ref)) as [->|Hr]; [left; exists i; by rewrite lookup_insert_eq|right; by rewrite Hst]. }
  destruct C as [C1 C2 C3 C4 C5 C6 C7 C8]. constructor; cbn [w_cache w_store w_calls w_begun]; try done.
  - intros j cl [Hj| ->]%Hcl; [by apply (C3 j)|apply (C3 i _ Hi)].
  - intros j cl ft [Hj| ->]%Hcl Hft; [by apply (C6 j cl ft)|done].
  - intros r s Hv Hs. apply Hok. by apply C7.
  - intros j r ft s [Hj|]%Hcl Ht; [|done]. apply Hok. by apply (C8 j r ft).
Qed.

Lemma coherent_step w w' : cached_step w w' -> coherent w -> w_begun w' < 2 ^ 64 -> coherent w'.
Proof.
  intros Hs C Hb. destruct Hs as [w ref now c s H|w ref now c i Hv H Hi|w i ref c ft Hi H|w i ref ft s Hi H|w i ref ft Hi|w i ref ft Hi|w i ref ft s now Hi|w i ref new Hv Hi|w i ref new Hi|w i ref new Hi|w i ref Hi|w ref|w].
  - assert (c = fst (run_op (w_cache w) (OpGet ref now))) as -> by (cbn; by rewrite H).
    apply coherent_op; try done; [intros i cl Hi; split; [by apply (co_valid _ C i)|intros ft; by apply (co_tokens _ C i)]|by left|by intros ? ? _ [_ ?]|by left].
  - assert (c = fst (run_op (w_cache w) (OpGet ref now))) as -> by (cbn; by rewrite H).
    apply coherent_move; try done; [intros r; congruence|by intros cl' [= <-]|by intros ? ? _ [_ ?]].
  - by apply coherent_start.
  - change (w_cache w) with (fst (run_op (w_cache w) (OpCancel ref no_token))) at 1. apply coherent_move; try done; [intros r; congruence| | |by intros ? ? _ [_ ?]].
    + intros cl' [= <-]. split; [apply (co_valid _ C i _ Hi)|]. intros ft' Hft. by apply (co_tokens _ C i _ ft' Hi).
    + by intros r ft' s' [= <- <- <-].
  - change (w_cache w) with (fst (run_op (w_cache w) (OpCancel ref no_token))) at 1. apply coherent_move; try done; [intros r; congruence| |by intros ? ? _ [_ ?]].
    intros cl' [= <-]. split; [apply (co_valid _ C i _ Hi)|]. intros ft' Hft. by apply (co_tokens _ C i _ ft' Hi).
  - apply (coherent_move w (OpCancel ref ft) i None); try done; [intros r; congruence|by intros ? ? _ [_ ?]].
  - apply (coherent_move w (OpPutIf ref s ft now) i None); try done; [intros r; congruence|].
    intros r s' Hvr (Hk & Ek & -> & Ht). assert (r = ref) as -> by exact (valid_refs r ref Hvr (co_valid _ C i _ Hi) (eq_sym Ek) Hk).
    by apply (co_coming _ C i ref ft).
  - apply (coherent_move w (OpInvalidate ref) i (Some (Writing ref new))); try done; [intros r; congruence|by intros cl' [= <-]|by intros ? ? _ [_ ?]].
  - by apply coherent_store.
  - change (w_cache w) with (fst (run_op (w_cache w) (OpCancel ref no_token))) at 1. apply coherent_move; try done; [intros r; congruence| |by intros ? ? _ [_ ?]].
    intros cl' [= <-]. split; [apply (co_valid _ C i _ Hi)|done].
  - apply (coherent_move w (OpInvalidate ref) i None); try done; [intros r; congruence|by intros ? ? _ [_ ?]].
  - apply (coherent_op w (OpInvalidate ref)); try done; [intros i cl Hi; split; [by apply (co_valid _ C i)|intros ft; by apply (co_tokens _ C i)]|by left|by intros ? ? _ [_ ?]|by left].
  - apply (coherent_op w OpClear); try done; [intros i cl Hi; split; [by apply (co_valid _ C i)|intros ft; by apply (co_tokens _ C i)]|by left|by intros ? ? _ [_ ?]|by left].
Qed.
Lemma begun_monotone w w' : cached_step w w' -> w_begun w <= w_begun w'.
Proof. by intros []; cbn; lia. Qed.
Lemma reachable_coherent w : reachable cached_init cached_step w -> w_begun w < 2 ^ 64 -> coherent w.
Proof.
  apply (reachable_invariant cached_init cached_step (fun w => w_begun w < 2 ^ 64 -> coherent w)).
  - intros w0 (cap & ttl & store & ->) _. constructor; cbn; try done.
    + exists []. apply represents_new.
  - intros w0 w1 I Hs Hb. eapply coherent_step; [done| |done]. apply I. pose proof (begun_monotone _ _ Hs). lia.
Qed.

(** C7: However reads and writes of a cached store interleave, what the cache answers is what the store holds, unless a
    write of that reference has had its effect and is about to invalidate the cache on its way out; so
    once a write or a deletion has returned, no earlier value is ever answered, not even one that was read
    before and arrives late.  (At most 2^64 fetches, whose tokens then differ.) *)
Theorem cached_secret_current w ref now c s (H : reachable cached_init cached_step w) (Hb : w_begun w < 2 ^ 64)
    (Hv : ref_Validate ref = Ok tt) (Hg : Get (w_cache w) ref now = (c, Some s)) (Hw : ~ being_written w ref) :
  w_store w !! ref = Some s.
Proof.
  pose proof (reachable_coherent w H Hb) as C. destruct (co_current _ C ref s Hv) as [?|?]; [|done|done].
  unfold cached. unfold Get in Hg. destruct (_ || _); [done|]. destruct (entries (w_cache w) !! ref_String ref) as [a|]; [|done]. cbn in *.
  destruct (heap (w_cache w) !! a) as [e|]; [|done]. cbn in *. destruct (_ <? _); [done|]. by injection Hg as _ <-.
Qed.
End CachedStore.

(** * Witnesses *)
Definition sample_ref : Ref := mkRef "file" "a1".
Definition sample_secret : Secret := mkSecret "hunter2" None.
Definition world_0 : World := mkWorld (NewCache 2 100) {[sample_ref := sample_secret]} ∅ 0.
Definition world_1 : World := move world_0 0 (Some (Missed sample_ref)) (w_cache world_0).
Definition sample_start : Cache * FetchToken := StartFetch (w_cache world_1) sample_ref.
Definition world_2 : World := mkWorld (fst sample_start) (w_store world_1) (<[0%nat := Fetching sample_ref (snd sample_start)]> (w_calls world_1)) 1.
Definition world_3 : World := move world_2 0 (Some (Fetched sample_ref (snd sample_start) sample_secret)) (w_cache world_2).
Definition world_4 : World := move world_3 0 None (PutIfMatch (w_cache world_3) sample_ref sample_secret (snd sample_start) 10).
Lemma world_4_reachable : reachable cached_init cached_step world_4.
Proof.
  assert (cached_init world_0) as H0 by (by exists 2, 100, {[sample_ref := sample_secret]}).
  assert (cached_step world_0 world_1) as S1 by (apply (get_miss world_0 sample_ref 5 (w_cache world_0) 0); reflexivity).
  assert (cached_step world_1 world_2) as S2.
  { apply (get_start world_1 0 sample_ref (fst sample_start) (snd sample_start)); [reflexivity|]. unfold sample_start. by destruct (StartFetch _ _). }
  assert (cached_step world_2 world_3) as S3 by (apply (get_read world_2 0 sample_ref (snd sample_start) sample_secret); reflexivity).
  assert (cached_step world_3 world_4) as S4 by (apply (get_fill world_3 0 sample_ref (snd sample_start) sample_secret 10); reflexivity).
  exists world_0. split; [exact H0|]. eapply rtc_l; [exact S1|]. eapply rtc_l; [exact S2|]. eapply rtc_l; [exact S3|]. by apply rtc_once.
Qed.
Lemma cached_secret_current_witness :
  snd (Get (w_cache world_4) sample_ref 110) = Some sample_secret /\ w_store world_4 !! sample_ref = Some sample_secret.
Proof.
  assert (snd (Get (w_cache world_4) sample_ref 110) = Some sample_secret) as E by (vm_compute; reflexivity). split; [exact E|].
  apply (cached_secret_current world_4 sample_ref 110 (fst (Get (w_cache world_4) sample_ref 110)) sample_secret world_4_reachable).
  - reflexivity.
  - reflexivity.
  - rewrite <- E. by destruct (Get _ _ _).
  - intros [i Hi]. assert (w_calls world_4 = ∅) as Ee by (vm_compute; reflexivity). rewrite Ee in Hi. discriminate Hi.
Defined.
