(* ===== verification/Sftp.v ===== *)
(** Transfers of single files over SFTP: core/sftp transfer.go, replace_local.go and types.go.

    A transfer writes a temporary file beside its destination, which it may take over from a
    transfer that was interrupted, and then puts it in the place of the destination.
    The model has the files of both sides, and an environment decides which
    calls fail, when the context is cancelled, how much a read returns and in which
    order the chunks of a parallel transfer are done.  The theorems show what a transfer leaves,
    however it ends: that one that fails loses nothing, that one that succeeds has put the
    source in place, and when an upload has not.  Directories, links, copies between
    remote paths, the texts of errors with the inquiry of free space behind them, and the file-wise progress are
    left out; a write past the check of the context by another process is too. *)
From S2P Require Export Prelude GoStrings.
#[local] Open Scope Z_scope.

(** * Files *)

(** Times are in seconds, as they are compared. *)
Notation bytes := (list ascii).
Inductive Node :=
  | File (ident : nat) (content : bytes) (mtime mode : Z)
  | Dir (dsize dmtime : Z)
  | Link (target : string).
Notation Files := (gmap string Node).

Inductive io_error := NotExist | AlreadyExists | Unsupported | Failed.
#[export] Instance io_error_eq_dec : EqDecision io_error.
Proof. solve_decision. Defined.
Inductive xfer_error :=
  | Canceled | Io (op : string) (e : io_error) | SizeChanged | NotRegular (path : string) | Disappeared (path : string)
  | BackupExists (path : string) | DestinationChanged | ShortWrite | UnexpectedEOF | NoProgress | NegativeSize (n : Z)
  | PrefixMismatch | TempReplaced | CloseFailed (resource : string) | Joined (e e' : xfer_error).

(** [WriteAt]: what is beyond the end is filled with zeros. *)
Definition write_at (content : bytes) (offset : nat) (data : bytes) : bytes :=
  firstn offset content ++ replicate (offset - List.length content) nul ++ data ++ skipn (offset + List.length data) content.
(** [ReadAt]: what there is of [n] bytes. *)
Definition read_at (content : bytes) (offset n : nat) : bytes := firstn n (skipn offset content).
Definition size_of (content : bytes) : Z := Z.of_nat (List.length content).

(** types.go *)
Record TransferConfig := mkConfig { ThreadsPerFile : Z; ChunkSize : Z; EnableResume : bool; ResumeMinSize : Z; TempSuffix : string; Force : bool }.
Definition DefaultConfig : TransferConfig := mkConfig 64 (32 * 1024) true (1024 * 1024) ".xops-tmp" false.

(** What the systems, the network and the context do; every external call has a number. *)
Class Environment := {
  fault : nat -> bool;                          (* the call fails and has no effect *)
  cancelled : nat -> bool;                      (* the context is over when it is looked at *)
  cancelled_stays : forall n m, (n <= m)%nat -> cancelled n = true -> cancelled m = true;
  returned : nat -> nat;                        (* how much a read or a failing write does, at most *)
  early_eof : nat -> bool;                      (* the last bytes come with the end of the file *)
  under_way : nat -> bool;                      (* a chunk passed its check before another one failed *)
  schedule : nat -> list Z -> list Z;           (* the order in which chunks are done *)
  schedule_all : forall n l, schedule n l ≡ₚ l;
  follow : Files -> string -> option string;    (* the path behind symbolic links *)
  follow_file : forall fs p i c t m, fs !! p = Some (File i c t m) -> follow fs p = Some p;
  posix_rename : bool;                          (* the server has the extension *)
  rename_replaces : bool;                       (* the local system renames over files *)
  random_name : string
}.

(** * Programs over both sides *)
Record Sys := mkSys { local : Files; remote : Files; tick : nat; reported : Z }.
Inductive side := Local | Remote.
Definition files (sd : side) (s : Sys) : Files := match sd with Local => local s | Remote => remote s end.
Definition set_files (sd : side) (fs : Files) (s : Sys) : Sys :=
  match sd with Local => mkSys fs (remote s) (tick s) (reported s) | Remote => mkSys (local s) fs (tick s) (reported s) end.
Definition next (s : Sys) : Sys := mkSys (local s) (remote s) (S (tick s)) (reported s).

Definition M (A : Type) : Type := Sys -> Sys * result xfer_error A.
Definition ret {A} (a : A) : M A := fun s => (s, Ok a).
Definition fail {A} (e : xfer_error) : M A := fun s => (s, Err e).
Definition bind {A B} (m : M A) (k : A -> M B) : M B := fun s => let '(s, r) := m s in match r with Ok a => k a s | Err e => (s, Err e) end.
Definition attempt {A} (m : M A) : M (result xfer_error A) := fun s => let '(s, r) := m s in (s, Ok r).
Declare Scope sftp_scope.
Notation "'let!' x := m 'in' k" := (bind m (fun x => k)) (at level 200, x pattern, m at level 100, k at level 200) : sftp_scope.
Notation "m ;;; k" := (bind m (fun _ => k)) (at level 100, right associativity) : sftp_scope.
#[local] Open Scope sftp_scope.

Definition progress (n : Z) : M unit := fun s => (mkSys (local s) (remote s) (tick s) (reported s + n), Ok tt).

Section Programs.
Context `{Env : Environment}.

Definition check_ctx : M unit := fun s => (next s, if cancelled (tick s) then Err Canceled else Ok tt).
(** An external call, with its outcome. *)
Definition call {A} (sd : side) (f : Files -> result io_error (Files * A)) : M (result io_error A) := fun s =>
  if fault (tick s) then (next s, Ok (Err Failed))
  else match f (files sd s) with
       | Ok (fs, a) => (set_files sd fs (next s), Ok (Ok a))
       | Err e => (next s, Ok (Err e))
       end.
Definition must {A} (op : string) (m : M (result io_error A)) : M A := let! r := m in match r with Ok a => ret a | Err e => fail (Io op e) end.
(** [closeTransferResource] of a deferred call: its error joins that of the function. *)
Definition finally_close {A} (resource : string) (m : M A) : M A := fun s =>
  let '(s, r) := m s in
  (next s, if fault (tick s) then Err (match r with Ok _ => CloseFailed resource | Err e => Joined e (CloseFailed resource) end) else r).

(** ** Calls *)
Definition fs_lstat (p : string) (fs : Files) : result io_error (Files * Node) :=
  match fs !! p with Some n => Ok (fs, n) | None => Err NotExist end.
Definition fs_stat (p : string) (fs : Files) : result io_error (Files * Node) :=
  match follow fs p with Some q => fs_lstat q fs | None => Err NotExist end.
(** Opening for reading gives the path of the file that is read. *)
Definition fs_open_read (p : string) (fs : Files) : result io_error (Files * string) :=
  match follow fs p with
  | None => Err NotExist
  | Some q => match fs !! q with Some (File _ _ _ _) => Ok (fs, q) | Some _ => Err Failed | None => Err NotExist end
  end.
Inductive open_flags := CreateExclusive (ident : nat) (perm : Z) | Truncate | Keep.
Definition fs_open (p : string) (flags : open_flags) (fs : Files) : result io_error (Files * unit) :=
  match flags, fs !! p with
  | CreateExclusive i perm, None => Ok (<[p := File i [] 0 perm]> fs, tt)
  | CreateExclusive _ _, Some _ => Err AlreadyExists
  | Truncate, Some (File i _ t m) => Ok (<[p := File i [] t m]> fs, tt)
  | Keep, Some (File _ _ _ _) => Ok (fs, tt)
  | _, Some _ => Err Failed
  | _, None => Err NotExist
  end.
Definition on_file {A} (p : string) (f : nat -> bytes -> Z -> Z -> Node * A) (fs : Files) : result io_error (Files * A) :=
  match fs !! p with
  | Some (File i c t m) => let '(n, a) := f i c t m in Ok (<[p := n]> fs, a)
  | Some _ => Err Failed
  | None => Err NotExist
  end.
Definition fs_chmod (p : string) (mode : Z) : Files -> result io_error (Files * unit) := on_file p (fun i c t _ => (File i c t mode, tt)).
Definition fs_chtimes (p : string) (mtime : Z) : Files -> result io_error (Files * unit) := on_file p (fun i c _ m => (File i c mtime m, tt)).
Definition fs_truncate (p : string) : Files -> result io_error (Files * unit) := on_file p (fun i _ t m => (File i [] t m, tt)).
Definition fs_remove (p : string) (fs : Files) : result io_error (Files * unit) :=
  match fs !! p with Some (Dir _ _) => Err Failed | Some _ => Ok (delete p fs, tt) | None => Err NotExist end.
Definition fs_move (p q : string) (n : Node) (fs : Files) : Files := <[q := n]> (delete p fs).
(** A rename that takes the place of what is there, and one that does not. *)
Definition fs_rename_over (p q : string) (fs : Files) : result io_error (Files * unit) :=
  match fs !! p, fs !! q with
  | None, _ => Err NotExist
  | Some _, Some (Dir _ _) => Err Failed
  | Some n, _ => Ok (fs_move p q n fs, tt)
  end.
Definition fs_rename_new (conflict : io_error) (p q : string) (fs : Files) : result io_error (Files * unit) :=
  match fs !! p, fs !! q with
  | None, _ => Err NotExist
  | Some _, Some _ => Err conflict
  | Some n, None => Ok (fs_move p q n fs, tt)
  end.
Definition PosixRename (p q : string) : M (result io_error unit) :=
  call Remote (if posix_rename then fs_rename_over p q else fun _ => Err Unsupported).
Definition Rename (p q : string) : M (result io_error unit) := call Remote (fs_rename_new Failed p q).
Definition os_Rename (p q : string) : M (result io_error unit) := call Local (if rename_replaces then fs_rename_over p q else fs_rename_new AlreadyExists p q).

Definition content_at (fs : Files) (p : string) : bytes := match fs !! p with Some (File _ c _ _) => c | _ => [] end.
(** [ReadAt] of an open file: all there is of [n] bytes, unless it fails. *)
Definition ReadAt (sd : side) (p : string) (offset n : nat) : M (result io_error bytes) := call sd (fun fs => Ok (fs, read_at (content_at fs p) offset n)).
(** A write that fails may have written a part. *)
Definition WriteAt (sd : side) (p : string) (offset : nat) (data : bytes) : M (result io_error unit) := fun s =>
  let put data fs := match fs !! p with Some (File i c t m) => <[p := File i (write_at c offset data) t m]> fs | _ => fs end in
  if fault (tick s) then (set_files sd (put (firstn (returned (tick s)) data) (files sd s)) (next s), Ok (Err Failed))
  else (set_files sd (put data (files sd s)) (next s), Ok (Ok tt)).

(** * Content *)

(** The reads and writes of [copyExactContext] move the positions of both files. *)
Inductive read_end := More | AtEnd | Broken.
Definition Read (sd : side) (p : string) (offset n : nat) : M (bytes * read_end) := fun s =>
  let avail := read_at (content_at (files sd s) p) offset n in
  let data := firstn (returned (tick s)) avail in
  (next s, Ok (if fault (tick s) then (data, Broken)
               else match avail with
                    | [] => ([], AtEnd)
                    | _ => (data, if (List.length avail <? n)%nat && (List.length data =? List.length avail)%nat && early_eof (tick s) then AtEnd else More)
                    end)).
Definition copyBuffer : nat := Z.to_nat (32 * 1024).

Section Copy.
Context (from : side) (src : string) (to : side) (dst : string).

Fixpoint copy_loop (fuel remaining soff doff : nat) : M unit :=
  match remaining, fuel with
  | O, _ => ret tt
  | _, O => fail NoProgress
  | _, S fuel =>
      check_ctx ;;;
      let! (data, stop) := Read from src soff (Nat.min remaining copyBuffer) in
      let n := List.length data in
      (match data with
       | [] => ret tt
       | _ => let! w := WriteAt to dst doff data in
              match w with Ok _ => progress (Z.of_nat n) | Err e => check_ctx ;;; fail (Io "write" e) end
       end) ;;;
      match stop with
      | AtEnd => if (remaining - n =? 0)%nat then ret tt else fail UnexpectedEOF
      | Broken => check_ctx ;;; fail (Io "read" Failed)
      | More => match data with [] => fail NoProgress | _ => copy_loop fuel (remaining - n) (soff + n) (doff + n) end
      end
  end.
Definition copyExactContext (soff doff : Z) (size : Z) : M unit :=
  if size <? 0 then fail (NegativeSize size) else copy_loop (Z.to_nat size) (Z.to_nat size) (Z.to_nat soff) (Z.to_nat doff).

(** ** Chunks *)
Fixpoint chunk_offsets (fuel : nat) (chunk offset total : Z) : list Z :=
  match fuel with
  | O => []
  | S fuel => if offset <? total then offset :: chunk_offsets fuel chunk (offset + chunk) total else []
  end.
Definition chunk_job (chunk total offset : Z) : M unit :=
  let currSize := if total <? offset + chunk then total - offset else chunk in
  let! data := must "read" (ReadAt from src (Z.to_nat offset) (Z.to_nat currSize)) in
  if negb (size_of data =? currSize) then fail UnexpectedEOF
  else
    must "write" (WriteAt to dst (Z.to_nat offset) data) ;;;
    progress (size_of data).
Definition is_cancelled : M bool := fun s => (next s, Ok (cancelled (tick s))).
Definition goes_on : M bool := fun s => (next s, Ok (under_way (tick s))).
(** No chunk begins once the context is over, which is no error; one that has begun fails if it
    sees the context over, and after a failure only those that were under way go on. *)
Fixpoint run_chunks (chunk total : Z) (failed : option xfer_error) (offsets : list Z) : M unit :=
  match offsets with
  | [] => match failed with None => ret tt | Some e => fail e end
  | offset :: offsets =>
      match failed with
      | None =>
          let! stop := is_cancelled in
          if stop then ret tt
          else
            let! r := attempt (check_ctx ;;; chunk_job chunk total offset) in
            run_chunks chunk total (match r with Ok _ => None | Err e => Some e end) offsets
      | Some e =>
          let! on := goes_on in
          (if on then let! _ := attempt (chunk_job chunk total offset) in ret tt else ret tt) ;;;
          run_chunks chunk total failed offsets
      end
  end.
Definition parallelTransfer (chunk start total : Z) : M unit := fun s =>
  run_chunks chunk total None (schedule (tick s) (chunk_offsets (Z.to_nat (total - start)) chunk start total)) (next s).

(** ** What is left of an earlier transfer *)
Fixpoint validate_loop (fuel offset start : nat) : M unit :=
  if (start <=? offset)%nat then ret tt
  else match fuel with
       | O => fail PrefixMismatch
       | S fuel =>
           let n := Nat.min copyBuffer (start - offset) in
           let! d1 := must "read destination" (ReadAt to dst offset n) in
           let! d2 := must "read source" (ReadAt from src offset n) in
           if negb (bool_decide (d1 = d2)) then fail PrefixMismatch
           else match d1 with [] => fail PrefixMismatch | _ => validate_loop fuel (offset + List.length d1) start end
       end.
Definition validatePrefix (start : Z) : M unit := validate_loop (Z.to_nat start) 0 (Z.to_nat start).
End Copy.

(** * Temporary files *)
Definition inspectTemporaryFile (sd : side) (tempPath : string) : M (option Node) :=
  let! r := call sd (fs_lstat tempPath) in
  match r with
  | Err NotExist => ret None
  | Err e => fail (Io "lstat" e)
  | Ok (File i c t m) => ret (Some (File i c t m))
  | Ok _ => fail (NotRegular tempPath)
  end.
Definition verifyTemporaryFile (sd : side) (tempPath : string) : M unit :=
  let! x := inspectTemporaryFile sd tempPath in match x with None => fail (Disappeared tempPath) | Some _ => ret tt end.

Definition node_size (n : Node) : Z := match n with File _ c _ _ => size_of c | Dir s _ => s | Link _ => 0 end.
Definition node_mtime (n : Node) : Z := match n with File _ _ t _ => t | Dir _ t => t | Link _ => 0 end.
Definition ident_of (n : Node) : nat := match n with File i _ _ _ => i | _ => O end.
Definition resumable (cfg : TransferConfig) (size : Z) (n : Node) : bool := EnableResume cfg && (node_size n <=? size) && (ResumeMinSize cfg <=? node_size n).
(** An error closes what was opened. *)
Definition or_close {A} (resource : string) (m : M A) : M A := fun s =>
  match m s with
  | (s, Ok a) => (s, Ok a)
  | (s, Err e) => (next s, Err (if fault (tick s) then Joined e (CloseFailed resource) else e))
  end.
(** The prefix is compared, and the file is emptied when it is another one. *)
Definition resume_or_restart (from : side) (src : string) (to : side) (dst : string) (start : Z) : M Z :=
  let! r := attempt (validatePrefix from src to dst start) in
  match r with
  | Ok _ => ret start
  | Err PrefixMismatch =>
      must "seek" (call to (fun fs => Ok (fs, tt))) ;;;
      must "truncate" (call to (fs_truncate dst)) ;;; ret 0
  | Err e => fail e
  end.
Definition fresh_ident : M nat := fun s => (s, Ok (tick s)).

Definition prepareUploadFile (cfg : TransferConfig) (src tempPath : string) (size : Z) : M Z :=
  let! x := inspectTemporaryFile Remote tempPath in
  let! i := fresh_ident in
  let '(start, flags) := match x with
                         | None => (0, CreateExclusive i 420)
                         | Some n => if resumable cfg size n then (node_size n, Keep) else (0, Truncate)
                         end in
  must "open" (call Remote (fs_open tempPath flags)) ;;;
  or_close "remote temporary file"
    (verifyTemporaryFile Remote tempPath ;;;
     match x with
     | Some _ => if 0 <? start then resume_or_restart Local src Remote tempPath start else ret start
     | None => ret start
     end).
Definition prepareDownloadFile (cfg : TransferConfig) (src tempPath : string) (size mode : Z) : M Z :=
  let! x := inspectTemporaryFile Local tempPath in
  let! i := fresh_ident in
  let '(start, flags) := match x with
                         | None => (0, CreateExclusive i 384)
                         | Some n => if resumable cfg size n then (node_size n, Keep) else (0, Truncate)
                         end in
  must "open" (call Local (fs_open tempPath flags)) ;;;
  or_close "local temporary file"
    (let! opened := must "stat" (call Local (fs_lstat tempPath)) in
     match opened, x with
     | File j _ _ _, Some n => if bool_decide (ident_of n = j) then ret tt else fail (NotRegular tempPath)
     | File _ _ _ _, None => ret tt
     | _, _ => fail (NotRegular tempPath)
     end ;;;
     match x with
     | Some _ => if 0 <? start then resume_or_restart Remote src Local tempPath start else ret start
     | None => ret start
     end).

(** * Uploads *)
Definition writable (mode : Z) : Z := Z.lor mode 384.
(** With one thread, or little left, the bytes are copied one after the other; otherwise by chunks.
    An upload moves the source to where it goes on, a download both files. *)
Definition doUpload (cfg : TransferConfig) (src tempPath : string) (start size : Z) : M unit :=
  check_ctx ;;;
  if size - start <=? 0 then ret tt
  else if (size - start <? ChunkSize cfg) || (ThreadsPerFile cfg <=? 1) then
    (if 0 <? start then must "seek" (call Local (fun fs => Ok (fs, tt))) else ret tt) ;;;
    copyExactContext Local src Remote tempPath start 0 (size - start)
  else parallelTransfer Local src Remote tempPath (ChunkSize cfg) start size.
Definition doDownload (cfg : TransferConfig) (src tempPath : string) (start size : Z) : M unit :=
  check_ctx ;;;
  if size - start <=? 0 then ret tt
  else if (size - start <? ChunkSize cfg) || (ThreadsPerFile cfg <=? 1) then
    (if 0 <? start then must "seek" (call Local (fun fs => Ok (fs, tt))) ;;; must "seek" (call Remote (fun fs => Ok (fs, tt))) else ret tt) ;;;
    copyExactContext Remote src Local tempPath start start (size - start)
  else parallelTransfer Remote src Local tempPath (ChunkSize cfg) start size.

(** Something is there already, by its size and its time. *)
Definition shouldSkip (sd : side) (path : string) (size mtime : Z) : M bool :=
  let! r := call sd (fs_stat path) in
  match r with
  | Ok n => ret ((node_size n =? size) && (node_mtime n =? mtime))
  | Err NotExist => ret false
  | Err e => fail (Io "stat destination" e)
  end.

Definition replaceRemoteDestinationFallback (cfg : TransferConfig) (tempPath remotePath : string) : M unit :=
  let! r := call Remote (fs_lstat remotePath) in
  match r with
  | Err NotExist => must "rename temporary" (Rename tempPath remotePath)
  | Err e => fail (Io "lstat destination" e)
  | Ok _ =>
      let backupPath := remotePath +:+ TempSuffix cfg +:+ ".backup" in
      let! b := call Remote (fs_lstat backupPath) in
      match b with
      | Ok _ => fail (BackupExists backupPath)
      | Err NotExist =>
          must "backup" (Rename remotePath backupPath) ;;;
          let! p := Rename tempPath remotePath in
          match p with
          | Err e =>
              let! rb := Rename backupPath remotePath in
              fail (match rb with Ok _ => Io "rename temporary" e | Err e' => Joined (Io "rename temporary" e) (Io "restore" e') end)
          | Ok _ =>
              let! d := call Remote (fs_remove backupPath) in
              match d with
              | Ok _ => ret tt
              | Err e =>
                  let! _ := call Remote (fs_chmod backupPath 384) in
                  let! d2 := call Remote (fs_remove backupPath) in
                  match d2 with Ok _ => ret tt | Err _ => fail (Io "remove backup" e) end
              end
          end
      | Err e => fail (Io "lstat backup" e)
      end
  end.
Definition replaceRemoteFile (cfg : TransferConfig) (tempPath remotePath : string) : M unit :=
  let! r := PosixRename tempPath remotePath in
  match r with
  | Ok _ => ret tt
  | Err Unsupported => replaceRemoteDestinationFallback cfg tempPath remotePath
  | Err e => fail (Io "replace" e)
  end.
Definition set_mode (sd : side) (path : string) (mode : Z) : M unit :=
  if negb (mode =? 0) && negb (mode =? writable mode) then must "chmod" (call sd (fs_chmod path mode)) else ret tt.
Definition finalizeUpload (cfg : TransferConfig) (tempPath remotePath : string) (mtime mode : Z) : M unit :=
  check_ctx ;;;
  verifyTemporaryFile Remote tempPath ;;;
  must "chtimes" (call Remote (fs_chtimes tempPath mtime)) ;;;
  set_mode Remote tempPath mode ;;;
  check_ctx ;;;
  replaceRemoteFile cfg tempPath remotePath.

Definition report_all (size : Z) : M unit := if 0 <? size then progress size else ret tt.
Definition uploadFile (cfg : TransferConfig) (localPath remotePath : string) (size mode : Z) : M unit :=
  check_ctx ;;;
  let! src := must "open source" (call Local (fs_open_read localPath)) in
  finally_close "local source file" (
    let! info := must "stat source" (call Local (fs_lstat src)) in
    match info with
    | File _ content mtime _ =>
        if negb (size_of content =? size) then fail SizeChanged
        else
          let! skip := (if Force cfg then ret false else check_ctx ;;; shouldSkip Remote remotePath size mtime) in
          if skip then report_all size
          else
            check_ctx ;;;
            let tempPath := remotePath +:+ TempSuffix cfg in
            let! start := prepareUploadFile cfg src tempPath size in
            finally_close "remote temporary file" (
              check_ctx ;;;
              must "chmod" (call Remote (fs_chmod tempPath (writable mode))) ;;;
              report_all start ;;;
              doUpload cfg src tempPath start size) ;;;
            check_ctx ;;;
            finalizeUpload cfg tempPath remotePath mtime mode
    | _ => fail SizeChanged
    end).

(** * Downloads *)

(** replace_local.go *)
Definition replaceLocalEntry (tempPath localPath : string) (allowSymlinkDestination : bool) : M unit :=
  let! r := os_Rename tempPath localPath in
  match r with
  | Ok _ => ret tt
  | Err AlreadyExists =>
      let! info := must "lstat destination" (call Local (fs_lstat localPath)) in
      let canReplace := match info with File _ _ _ _ => true | Link _ => allowSymlinkDestination | Dir _ _ => false end in
      if negb canReplace then fail (NotRegular localPath)
      else
        let backupPath := tempPath +:+ ".backup" in
        let! b := call Local (fs_lstat backupPath) in
        match b with
        | Ok _ => fail (BackupExists backupPath)
        | Err NotExist =>
            must "backup" (os_Rename localPath backupPath) ;;;
            let! p := os_Rename tempPath localPath in
            match p with
            | Err e =>
                let! st := call Local (fs_lstat localPath) in
                match st with
                | Err NotExist =>
                    let! rb := os_Rename backupPath localPath in
                    fail (match rb with Ok _ => Io "rename temporary" e | Err e' => Joined (Io "rename temporary" e) (Io "restore" e') end)
                | _ => fail (Joined (Io "rename temporary" e) DestinationChanged)
                end
            | Ok _ =>
                let! d := call Local (fs_remove backupPath) in
                match d with
                | Ok _ => ret tt
                | Err e =>
                    let! _ := call Local (fs_chmod backupPath 384) in
                    let! d2 := call Local (fs_remove backupPath) in
                    match d2 with Ok _ => ret tt | Err _ => fail (Io "remove backup" e) end
                end
            end
        | Err e => fail (Io "lstat backup" e)
        end
  | Err e => fail (Io "rename temporary" e)
  end.
Definition replaceLocalFile (tempPath localPath : string) : M unit := replaceLocalEntry tempPath localPath false.

(** The deferred removal of what was not promoted. *)
Definition finally_remove (path : string) (m : M unit) : M unit :=
  let! r := attempt m in
  let! d := call Local (fs_remove path) in
  let! failed := match d with
                 | Ok _ | Err NotExist => ret false
                 | Err _ =>
                     let! _ := call Local (fs_chmod path 384) in
                     let! d2 := call Local (fs_remove path) in
                     ret (match d2 with Ok _ | Err NotExist => false | Err _ => true end)
                 end in
  match r, failed with
  | Ok _, false => ret tt
  | Ok _, true => fail (Io "remove" Failed)
  | Err e, false => fail e
  | Err e, true => fail (Joined e (Io "remove" Failed))
  end.
Definition writeDownloadTemporaryFile (cfg : TransferConfig) (src tempPath : string) (start size mode : Z) : M unit :=
  finally_close "local temporary file" (
    check_ctx ;;;
    must "chmod" (call Local (fs_chmod tempPath (writable mode))) ;;;
    report_all start ;;;
    doDownload cfg src tempPath start size).
Definition downloadFile (cfg : TransferConfig) (remotePath localPath : string) (size mode : Z) : M unit :=
  check_ctx ;;;
  let! src := must "open source" (call Remote (fs_open_read remotePath)) in
  finally_close "remote source file" (
    let! info := must "stat source" (call Remote (fs_lstat src)) in
    match info with
    | File _ content mtime _ =>
        if negb (size_of content =? size) then fail SizeChanged
        else
          let! skip := (if Force cfg then ret false else check_ctx ;;; shouldSkip Local localPath size mtime) in
          if skip then report_all size
          else
            check_ctx ;;;
            let tempPath := localPath +:+ TempSuffix cfg in
            let! start := prepareDownloadFile cfg src tempPath size mode in
            let! opened := must "stat temporary" (call Local (fs_lstat tempPath)) in
            writeDownloadTemporaryFile cfg src tempPath start size mode ;;;
            check_ctx ;;;
            let finalTempPath := tempPath +:+ "." +:+ random_name in
            must "rename to final temporary" (os_Rename tempPath finalTempPath) ;;;
            finally_remove finalTempPath (
              let! final := call Local (fs_stat finalTempPath) in
              match final with
              | Ok n => if bool_decide (ident_of n = ident_of opened) then ret tt else fail TempReplaced
              | Err _ => fail TempReplaced
              end ;;;
              must "chtimes" (call Local (fs_chtimes finalTempPath mtime)) ;;;
              set_mode Local finalTempPath mode ;;;
              check_ctx ;;;
              replaceLocalFile finalTempPath localPath)
    | _ => fail SizeChanged
    end).

(** [runInterruptibleOperation]: a context that is over in the end is an error. *)
Definition runInterruptibleOperation (m : M unit) : M unit :=
  check_ctx ;;;
  let! r := attempt m in
  let! stop := is_cancelled in
  match r, stop with
  | Ok _, false => ret tt
  | Ok _, true => fail Canceled
  | Err e, false => fail e
  | Err e, true => fail (Joined Canceled e)
  end.
Definition UploadFile (cfg : TransferConfig) (localPath remotePath : string) (size mode : Z) : M unit := runInterruptibleOperation (uploadFile cfg localPath remotePath size mode).
Definition DownloadFile (cfg : TransferConfig) (remotePath localPath : string) (size mode : Z) : M unit := runInterruptibleOperation (downloadFile cfg remotePath localPath size mode).
End Programs.

(** * Reasoning about programs *)
Definition ends {A} (m : M A) (s : Sys) (Q : Sys -> result xfer_error A -> Prop) : Prop := Q (m s).1 (m s).2.

Section Rules.
Context {A B : Type}.
Implicit Types (Q : Sys -> result xfer_error A -> Prop).

Lemma ends_mono (m : M A) s Q Q' : ends m s Q -> (forall s' r, Q s' r -> Q' s' r) -> ends m s Q'.
Proof. intros H HQ. by apply HQ. Qed.
Lemma ends_ret (a : A) s Q : Q s (Ok a) -> ends (ret a) s Q.
Proof. done. Qed.
Lemma ends_fail e s Q : Q s (Err e) -> ends (fail e) s Q.
Proof. done. Qed.
Lemma ends_bind (m : M B) (k : B -> M A) s Q :
  ends m s (fun s' r => match r with Ok b => ends (k b) s' Q | Err e => Q s' (Err e) end) -> ends (bind m k) s Q.
Proof. unfold ends, bind. destruct (m s) as [s' [b|e]]; by cbn. Qed.
Lemma ends_attempt (m : M A) s (Q : Sys -> result xfer_error (result xfer_error A) -> Prop) : ends m s (fun s' r => Q s' (Ok r)) -> ends (attempt m) s Q.
Proof. unfold ends, attempt. by destruct (m s). Qed.
End Rules.

Section Calls.
Context `{Env : Environment}.

Lemma ends_check L R t d Q : Q (mkSys L R (S t) d) (Err Canceled) -> (cancelled t = false -> Q (mkSys L R (S t) d) (Ok tt)) -> ends check_ctx (mkSys L R t d) Q.
Proof. intros H1 H2. unfold ends, check_ctx. cbn. destruct (cancelled t); auto. Qed.
Lemma ends_call {A} sd (f : Files -> result io_error (Files * A)) s Q :
  Q (next s) (Ok (Err Failed)) ->
  match f (files sd s) with Ok (fs, a) => Q (set_files sd fs (next s)) (Ok (Ok a)) | Err e => Q (next s) (Ok (Err e)) end -> ends (call sd f) s Q.
Proof. intros H1 H2. unfold ends, call. destruct (fault (tick s)); [done|]. destruct (f (files sd s)) as [[fs a]|e]; done. Qed.
Lemma ends_must {A} op (m : M (result io_error A)) s Q :
  ends m s (fun s' r => match r with Ok (Ok a) => Q s' (Ok a) | Ok (Err e) => Q s' (Err (Io op e)) | Err e => Q s' (Err e) end) -> ends (must op m) s Q.
Proof. intros H. apply ends_bind. eapply ends_mono; [exact H|]. by intros s' [[a|e]|e]. Qed.
Lemma ends_close {A} res (m : M A) s Q :
  ends m s (fun s' r => Q (next s') r /\ forall e, Q (next s') (Err e)) -> ends (finally_close res m) s Q.
Proof. unfold ends, finally_close. destruct (m s) as [s' r]. cbn. intros [H1 H2]. by destruct (fault (tick s')). Qed.
Lemma ends_or_close {A} res (m : M A) s Q :
  ends m s (fun s' r => match r with Ok a => Q s' (Ok a) | Err _ => forall e, Q (next s') (Err e) end) -> ends (or_close res m) s Q.
Proof. unfold ends, or_close. destruct (m s) as [s' [a|e]]; by cbn. Qed.
End Calls.

(** One step of a program. *)
Ltac prog :=
  match goal with
  | |- ends (bind _ _) _ _ => apply ends_bind
  | |- ends (ret _) _ _ => apply ends_ret
  | |- ends (fail _) _ _ => apply ends_fail
  | |- ends (must _ _) _ _ => apply ends_must
  | |- ends (attempt _) _ _ => apply ends_attempt
  | |- ends check_ctx (mkSys _ _ _ _) _ => apply ends_check; [|intros ?Hgo]
  | |- ends (call _ _) _ _ => apply ends_call; cbn [files set_files next local remote tick reported]
  | |- ends (PosixRename _ _) _ _ => unfold PosixRename
  | |- ends (os_Rename _ _) _ _ => unfold os_Rename
  | |- ends (Rename _ _) _ _ => unfold Rename
  | |- ends (if ?b then _ else _) _ _ => destruct b eqn:?
  | |- ends (match ?x with _ => _ end) _ _ => destruct x eqn:?
  end.

(** The outcome of a call, by what is at its paths. *)
Ltac lookups :=
  match goal with
  | |- context [match (if ?b then _ else _) _ with _ => _ end] => destruct b eqn:?
  | |- context [match ?f ?fs with Ok _ => _ | Err _ => _ end] =>
      progress unfold fs_lstat, fs_stat, fs_rename_over, fs_rename_new, fs_remove, fs_chmod, fs_chtimes, fs_truncate, fs_open, fs_open_read, on_file, fs_move; simplify_map_eq
  | |- context [match ?x with _ => _ end] => match type of x with option _ => destruct x eqn:? | Node => destruct x eqn:? end; simplify_map_eq
  end.

(** What a replacement may change. *)
Section Replacing.
Context `{Env : Environment}.

Definition same_but (ps : list string) (fs fs' : Files) : Prop := forall p, p ∉ ps -> fs' !! p = fs !! p.
Lemma same_but_trans ps a b c : same_but ps a b -> same_but ps b c -> same_but ps a c.
Proof. intros H1 H2 p Hp. by rewrite H2, H1. Qed.
Lemma same_but_weaken ps ps' a b : ps ⊆ ps' -> same_but ps a b -> same_but ps' a b.
Proof. intros Hs H p Hp. apply H. set_solver. Qed.
Lemma same_but_insert ps p n fs : p ∈ ps -> same_but ps fs (<[p := n]> fs).
Proof. intros Hp q Hq. apply lookup_insert_ne. by intros ->. Qed.
Lemma same_but_delete ps p fs : p ∈ ps -> same_but ps fs (delete p fs).
Proof. intros Hp q Hq. apply lookup_delete_ne. by intros ->. Qed.

(** The destination is replaced, or it is as it was, at its place or at that of the backup. *)
Record replaced (new : Node) (temp dest backup : string) (fs fs' : Files) (ok : bool) : Prop := {
  rp_frame : same_but [temp; dest; backup] fs fs';
  rp_dest : fs' !! dest = Some new \/ (ok = false /\ fs' !! dest = fs !! dest) \/ (ok = false /\ fs' !! dest = None /\ fs' !! backup = fs !! dest);
  rp_done : ok = true -> fs' !! dest = Some new /\ fs' !! temp = None /\ fs' !! backup = fs !! backup
}.

(** A state that is written out is compared place by place. *)
Ltac lookup_simpl := repeat first [rewrite lookup_insert_eq | rewrite lookup_insert_ne by congruence | rewrite lookup_delete_eq | rewrite lookup_delete_ne by congruence].
Ltac places :=
  split; [reflexivity|]; cbn; constructor; cbn;
  [ intros ?p Hp; rewrite !not_elem_of_cons in Hp; destruct Hp as (?&?&?&_); lookup_simpl; congruence
  | lookup_simpl; intuition congruence
  | intros ?; lookup_simpl; intuition congruence ].

Lemma replaceRemote_spec cfg temp dest L R t d new : temp <> dest -> (dest +:+ TempSuffix cfg +:+ ".backup") <> temp -> (dest +:+ TempSuffix cfg +:+ ".backup") <> dest ->
  R !! temp = Some new ->
  ends (replaceRemoteFile cfg temp dest) (mkSys L R t d) (fun s' r => local s' = L /\ replaced new temp dest (dest +:+ TempSuffix cfg +:+ ".backup") R (remote s') (is_ok r)).
Proof.
  intros N1 N2 N3 Ht. set (backup := dest +:+ TempSuffix cfg +:+ ".backup") in *. unfold replaceRemoteFile, replaceRemoteDestinationFallback. fold backup.
  repeat first [progress (cbn beta iota) | prog | lookups].
  all: places.
Qed.

Lemma replaceLocal_spec temp dest L R t d new : temp <> dest -> (temp +:+ ".backup") <> temp -> (temp +:+ ".backup") <> dest ->
  L !! temp = Some new ->
  ends (replaceLocalFile temp dest) (mkSys L R t d) (fun s' r => remote s' = R /\ replaced new temp dest (temp +:+ ".backup") L (local s') (is_ok r)).
Proof.
  intros N1 N2 N3 Ht. set (backup := temp +:+ ".backup") in *. unfold replaceLocalFile, replaceLocalEntry. fold backup.
  repeat first [progress (cbn beta iota) | prog | lookups].
  all: places.
Qed.
End Replacing.

(** * What the copies write *)

(** Lists of bytes, by position. *)
Lemma write_at_lookup (D : bytes) off data i : write_at D off data !! i =
  if decide (i < off)%nat then (if decide (i < List.length D)%nat then D !! i else Some nul) else if decide (i < off + List.length data)%nat then data !! (i - off)%nat else D !! i.
Proof.
  unfold write_at. rewrite !lookup_app, lookup_take.
  destruct (decide (i < off)%nat) as [H|H].
  - destruct (decide (i < List.length D)%nat) as [H'|H'].
    + destruct (lookup_lt_is_Some_2 D i H') as [x Hx]. by rewrite Hx.
    + rewrite (lookup_ge_None_2 D i) by lia. rewrite lookup_replicate_2; [done|]. rewrite length_firstn. lia.
  - rewrite (lookup_ge_None_2 (replicate _ _)) by (rewrite length_replicate, length_firstn; lia).
    rewrite length_replicate, length_firstn.
    destruct (decide (i < off + List.length data)%nat) as [H'|H'].
    + replace (i - off `min` List.length D - (off - List.length D))%nat with (i - off)%nat by lia.
      destruct (lookup_lt_is_Some_2 data (i - off)) as [x Hx]; [lia|]. by rewrite Hx.
    + rewrite (lookup_ge_None_2 data) by lia. rewrite lookup_drop. f_equal. lia.
Qed.
Lemma write_at_length (D : bytes) off data : List.length (write_at D off data) = Nat.max (off + List.length data) (Nat.max off (List.length D)).
Proof. unfold write_at. rewrite !length_app, length_firstn, length_replicate, length_skipn. lia. Qed.
Lemma read_at_lookup (c : bytes) off n i : read_at c off n !! i = if decide (i < n)%nat then c !! (off + i)%nat else None.
Proof. unfold read_at. rewrite lookup_take. destruct (decide _); [|done]. by rewrite lookup_drop. Qed.
Lemma read_at_length (c : bytes) off n : List.length (read_at c off n) = Nat.min n (List.length c - off).
Proof. unfold read_at. by rewrite length_firstn, length_skipn. Qed.

Lemma write_at_nil (D : bytes) off : (off <= List.length D)%nat -> write_at D off [] = D.
Proof.
  intros H. apply list_eq. intros i. rewrite write_at_lookup. cbn. rewrite Nat.add_0_r.
  destruct (decide (i < off)%nat); [|done]. rewrite decide_True by lia. done.
Qed.
Lemma write_at_app (D : bytes) off d1 d2 : (off <= List.length D)%nat -> write_at (write_at D off d1) (off + List.length d1) d2 = write_at D off (d1 ++ d2).
Proof.
  intros H. apply list_eq. intros i. rewrite !write_at_lookup, write_at_length, length_app.
  destruct (decide (i < off)%nat).
  - rewrite !(decide_True (P := (i < List.length D)%nat)), !decide_True by lia. done.
  - destruct (decide (i < off + List.length d1)%nat).
    + rewrite decide_True, decide_True by lia. rewrite lookup_app_l by lia. done.
    + destruct (decide (i < off + List.length d1 + List.length d2)%nat).
      * rewrite decide_True by lia. rewrite lookup_app_r by lia. f_equal. lia.
      * rewrite decide_False by lia. done.
Qed.
Lemma read_at_split (c : bytes) off n d : d `prefix_of` read_at c off n -> read_at c off n = d ++ read_at c (off + List.length d) (n - List.length d).
Proof.
  intros [k Hk]. rewrite Hk. f_equal. assert (skipn (List.length d) (read_at c off n) = k) as <- by (rewrite Hk; apply drop_app_length).
  unfold read_at. rewrite skipn_firstn_comm, drop_drop. done.
Qed.
Lemma read_at_weaken (c : bytes) off n n' : (n <= n')%nat -> read_at c off n `prefix_of` read_at c off n'.
Proof. intros H. unfold read_at. exists (firstn (n' - n) (skipn n (skipn off c))). rewrite <- (firstn_skipn n (firstn n' (skipn off c))). rewrite firstn_firstn, skipn_firstn_comm. by rewrite Nat.min_l by lia. Qed.
Lemma firstn_prefix (l : bytes) k : firstn k l `prefix_of` l.
Proof. exists (skipn k l). by rewrite firstn_skipn. Qed.

(** ** States *)
Lemma files_set_same sd fs s : files sd (set_files sd fs s) = fs.
Proof. by destruct sd. Qed.
Lemma files_set_other sd sd' fs s : sd' <> sd -> files sd' (set_files sd fs s) = files sd' s.
Proof. by destruct sd, sd'. Qed.
Lemma files_next sd s : files sd (next s) = files sd s.
Proof. by destruct sd. Qed.
Lemma tick_set sd fs s : tick (set_files sd fs s) = tick s.
Proof. by destruct sd. Qed.

(** A program that touches one file of one side. *)
Record only (to : side) (ps : list string) (s s' : Sys) : Prop := {
  on_from : forall sd, sd <> to -> files sd s' = files sd s;
  on_to : same_but ps (files to s) (files to s');
  on_tick : (tick s <= tick s')%nat
}.
#[export] Instance only_preorder to ps : PreOrder (only to ps).
Proof.
  split.
  - intros s. by constructor.
  - intros a b c [A1 A2 A3] [B1 B2 B3]. constructor.
    + intros sd Hsd. by rewrite B1, A1.
    + by eapply same_but_trans.
    + lia.
Qed.
Lemma only_next to ps s : only to ps s (next s).
Proof. constructor; [intros; apply files_next | intros p _; by rewrite files_next | cbn; lia]. Qed.
Lemma only_put to ps p n s : p ∈ ps -> only to ps s (set_files to (<[p := n]> (files to s)) (next s)).
Proof.
  intros Hp. constructor.
  - intros sd Hsd. by rewrite files_set_other, files_next.
  - rewrite files_set_same. by apply same_but_insert.
  - rewrite tick_set. cbn. lia.
Qed.
Lemma only_weaken to ps ps' s s' : ps ⊆ ps' -> only to ps s s' -> only to ps' s s'.
Proof. intros H [A1 A2 A3]. constructor; [done | by eapply same_but_weaken | done]. Qed.
Create HintDb sftp.
#[export] Hint Resolve only_next only_put list_elem_of_here : sftp.
Lemma only_next_r to ps s s' : only to ps s s' -> only to ps s (next s').
Proof. intros H. etrans; [exact H | apply only_next]. Qed.
#[export] Hint Resolve only_next_r : sftp.
#[export] Hint Extern 0 (only _ _ ?s ?s) => reflexivity : sftp.

Section Content.
Context `{Env : Environment} (from to : side) (Hft : from <> to) (src dst : string) (i si : nat) (t m st sm : Z) (c : bytes).

(** Where the two files are, with what has been written. *)
Record holds (s : Sys) (D : bytes) : Prop := {
  ho_src : files from s !! src = Some (File si c st sm);
  ho_dst : files to s !! dst = Some (File i D t m)
}.
Record moved (s s' : Sys) (D' : bytes) : Prop := { mv_only : only to [dst] s s'; mv_dst : files to s' !! dst = Some (File i D' t m) }.
Lemma moved_holds s s' D D' : holds s D -> moved s s' D' -> holds s' D'.
Proof. intros [H1 H2] [M1 M2]. constructor; [|done]. by rewrite (on_from _ _ _ _ M1). Qed.
Lemma moved_trans a b e D1 D2 : moved a b D1 -> moved b e D2 -> moved a e D2.
Proof. intros [A1 A2] [B1 B2]. constructor; [by etrans | done]. Qed.
Lemma holds_moved s D : holds s D -> moved s s D.
Proof. intros [H1 H2]. by constructor. Qed.
Lemma holds_next s D : holds s D -> holds (next s) D.
Proof. intros [H1 H2]. constructor; by rewrite files_next. Qed.
Lemma next_moved s D : holds s D -> moved s (next s) D.
Proof. intros [H1 H2]. constructor; [auto with sftp | by rewrite files_next]. Qed.
Lemma moved_tick s s' D : moved s s' D -> moved s (next s') D.
Proof. intros [H1 H2]. constructor; [auto with sftp | by rewrite files_next]. Qed.
Lemma moved_progress s s' D n : moved s s' D -> moved s (progress n s').1 D.
Proof.
  assert (E : forall sd, files sd (progress n s').1 = files sd s') by (by intros []).
  intros [[A1 A2 A3] H2]. constructor; [constructor|].
  - intros sd Hsd. by rewrite E, A1.
  - intros p Hp. by rewrite E, A2.
  - done.
  - by rewrite E.
Qed.

Lemma ends_check_at {A} (k : M A) s Q : Q (next s) (Err Canceled) -> (cancelled (tick s) = false -> ends k (next s) Q) -> ends (check_ctx ;;; k) s Q.
Proof. intros H1 H2. apply ends_bind. unfold ends, check_ctx. cbn. destruct (cancelled (tick s)); [done | by apply H2]. Qed.
Lemma ends_same {A} sd (f : Files -> A) s Q :
  Q (next s) (Ok (Err Failed)) -> Q (next s) (Ok (Ok (f (files sd s)))) -> ends (call sd (fun fs => Ok (fs, f fs))) s Q.
Proof. intros H1 H2. apply ends_call; [done|]. replace (set_files sd (files sd s) (next s)) with (next s); [done|]. by destruct sd. Qed.
Lemma ends_write s D off data (Q : Sys -> result xfer_error (result io_error unit) -> Prop) : holds s D ->
  (forall s' D', moved s s' D' -> Q s' (Ok (Err Failed))) -> (forall s', moved s s' (write_at D off data) -> Q s' (Ok (Ok tt))) ->
  ends (WriteAt to dst off data) s Q.
Proof.
  intros [H1 H2] Hf Hok. unfold ends, WriteAt. rewrite H2.
  assert (Hm : forall d, moved s (set_files to (<[dst := File i d t m]> (files to s)) (next s)) d).
  { intros d. constructor; [apply only_put; left | by rewrite files_set_same, lookup_insert_eq]. }
  destruct (fault (tick s)); cbn; [eapply Hf, Hm | apply Hok, Hm].
Qed.

Lemma source_content s D : holds s D -> content_at (files from s) src = c.
Proof. intros [H _]. unfold content_at. by rewrite H. Qed.
Lemma written_content s D : holds s D -> content_at (files to s) dst = D.
Proof. intros [_ H]. unfold content_at. by rewrite H. Qed.
Lemma ends_Read s D off n Q : holds s D -> (forall data stop, data `prefix_of` read_at c off n -> Q (next s) (Ok (data, stop))) -> ends (Read from src off n) s Q.
Proof.
  intros H HQ. unfold ends, Read. rewrite (source_content _ _ H). cbn. set (avail := read_at c off n) in *.
  destruct (fault (tick s)); [apply HQ, firstn_prefix|]. destruct avail eqn:Ea; [apply HQ, prefix_nil|]. apply HQ, firstn_prefix.
Qed.
Lemma ends_progress n s (Q : Sys -> result xfer_error unit -> Prop) : Q (progress n s).1 (Ok tt) -> ends (progress n) s Q.
Proof. done. Qed.
(** What comes after bytes that were written at their place, or were none. *)
Lemma ends_put s D off data (k : M unit) Q : holds s D -> (off <= List.length D)%nat ->
  (forall s' D' e, moved s s' D' -> Q s' (Err e)) -> (forall s', moved s s' (write_at D off data) -> ends k s' Q) ->
  ends ((match data with
         | [] => ret tt
         | _ => let! w := WriteAt to dst off data in
                match w with Ok _ => progress (Z.of_nat (List.length data)) | Err e => check_ctx ;;; fail (Io "write" e) end
         end) ;;; k) s Q.
Proof.
  intros H Hoff Herr Hk. apply ends_bind. destruct data as [|x data'] eqn:Ed.
  - apply ends_ret. apply Hk. rewrite write_at_nil by done. by apply holds_moved.
  - rewrite <- Ed in *. apply ends_bind. eapply ends_write; [exact H | |].
    + intros s' D' Hm. apply ends_check_at; [|intros _; apply ends_fail]; by eapply Herr, moved_tick.
    + intros s' Hm. apply ends_progress. by apply Hk, moved_progress.
Qed.

Lemma copy_loop_spec fuel : forall n soff doff s D, holds s D -> (doff <= List.length D)%nat -> (n <= fuel)%nat ->
  ends (copy_loop from src to dst fuel n soff doff) s (fun s' r => exists D', moved s s' D' /\ (r = Ok tt -> D' = write_at D doff (read_at c soff n))).
Proof using Hft.
  induction fuel as [|fuel IH]; intros n soff doff s D H Hd Hn.
  - assert (n = O) as -> by lia. exists D. split; [by apply holds_moved|]. intros _. unfold read_at. cbn. by rewrite write_at_nil.
  - destruct n as [|n']; [exists D; split; [by apply holds_moved | intros _; unfold read_at; cbn; by rewrite write_at_nil]|].
    set (n := S n') in *. cbn [copy_loop]. apply ends_check_at; [exists D; split; [by apply next_moved | done]|]. intros _.
    apply ends_bind. eapply ends_Read; [by apply holds_next|]. intros data stop Hp. cbn beta iota.
    assert (M0 : moved s (next (next s)) D) by (by apply moved_tick, next_moved). assert (H0 : holds (next (next s)) D) by (by do 2 apply holds_next).
    assert (Hlen : (List.length data <= n)%nat) by (apply prefix_length in Hp; rewrite read_at_length in Hp; lia).
    assert (Hp' : data `prefix_of` read_at c soff n) by (etrans; [exact Hp | apply read_at_weaken; lia]).
    apply (ends_put _ D); [done | done | |].
    { intros s' D' e Hm. exists D'. split; [|done]. by eapply moved_trans. }
    intros s' Hm. assert (Hm' : moved s s' (write_at D doff data)) by (by eapply moved_trans).
    pose proof (moved_holds _ _ _ _ H Hm') as H'.
    destruct stop.
    + destruct data as [|x data'] eqn:Ed; [apply ends_fail; eexists; split; [exact Hm' | done]|]. rewrite <- Ed in *.
      eapply ends_mono; [apply (IH (n - List.length data)%nat _ _ s' _ H')|].
      * rewrite write_at_length. lia.
      * subst data. cbn. lia.
      * intros s2 r (D2 & M2 & E2). exists D2. split; [by eapply moved_trans|]. intros Hr. rewrite (E2 Hr), write_at_app by done. by rewrite <- read_at_split.
    + destruct (Nat.eqb_spec (n - List.length data) 0) as [E|E]; [|apply ends_fail; eexists; split; [exact Hm' | done]].
      apply ends_ret. eexists. split; [exact Hm'|]. intros _. rewrite (read_at_split c soff n data Hp').
      replace (n - List.length data)%nat with O by lia. unfold read_at. cbn. by rewrite app_nil_r.
    + apply ends_check_at; [|intros _; apply ends_fail]; (eexists; split; [by apply moved_tick | done]).
Qed.

(** ** Chunks, in any order *)
Definition agrees (D : bytes) (j : nat) : Prop := D !! j = c !! j.
Definition in_chunk (chunk offset : Z) (j : nat) : Prop := offset <= Z.of_nat j < offset + chunk.
Lemma write_agrees D off n j : (off + n <= List.length c)%nat -> (j < List.length c)%nat -> agrees D j \/ (off <= j < off + n)%nat -> agrees (write_at D off (read_at c off n)) j.
Proof.
  intros Hl Hj H. unfold agrees in *. rewrite write_at_lookup, read_at_length, read_at_lookup.
  replace (Nat.min n (List.length c - off)) with n by lia.
  destruct (decide (j < off)%nat) as [H1|H1].
  - destruct H as [H|H]; [|lia]. rewrite decide_True; [done|]. apply lookup_lt_is_Some_1. rewrite H. by apply lookup_lt_is_Some_2.
  - destruct (decide (j < off + n)%nat) as [H2|H2]; [|destruct H; [done|lia]].
    rewrite decide_True by lia. f_equal. lia.
Qed.
Lemma write_fits D off n : (off + n <= List.length c)%nat -> (List.length D <= List.length c)%nat -> (List.length (write_at D off (read_at c off n)) <= List.length c)%nat.
Proof. intros H1 H2. rewrite write_at_length, read_at_length. lia. Qed.

Lemma ends_read_at s D off n Q : holds s D -> Q (next s) (Ok (Err Failed)) -> Q (next s) (Ok (Ok (read_at c off n))) -> ends (ReadAt from src off n) s Q.
Proof. intros H H1 H2. apply (ends_same from); [done|]. by rewrite (source_content _ _ H). Qed.

Lemma chunk_job_spec chunk total offset s D : holds s D -> 0 <= offset < total -> 0 < chunk -> total = size_of c ->
  ends (chunk_job from src to dst chunk total offset) s (fun s' r => exists D', moved s s' D' /\
    (r = Ok tt -> (List.length D <= List.length c)%nat -> (List.length D' <= List.length c)%nat /\ forall j, (j < List.length c)%nat -> agrees D j \/ in_chunk chunk offset j -> agrees D' j)).
Proof using Hft.
  intros H Ho Hc Ht. unfold chunk_job. set (cur := if total <? offset + chunk then total - offset else chunk).
  assert (Hcur : 0 < cur /\ offset + cur <= total) by (unfold cur; destruct (Z.ltb_spec total (offset + chunk)); lia).
  assert (Hin : forall j, (j < List.length c)%nat -> in_chunk chunk offset j -> (Z.to_nat offset <= j < Z.to_nat offset + Z.to_nat cur)%nat).
  { unfold in_chunk, cur, size_of in *. intros j Hj Hi. destruct (Z.ltb_spec total (offset + chunk)); lia. }
  apply ends_bind, ends_must. eapply ends_read_at; [exact H | exists D; split; [by apply next_moved | done] |]. cbn beta iota.
  destruct (negb _); [apply ends_fail; exists D; split; [by apply next_moved | done]|].
  apply ends_bind, ends_must. eapply ends_write; [by apply holds_next | |].
  - intros s' D' Hm. exists D'. split; [eapply moved_trans; [by apply next_moved | exact Hm] | done].
  - intros s' Hm. apply ends_progress. eexists. split.
    + apply moved_progress. eapply moved_trans; [by apply next_moved | exact Hm].
    + intros _ HD. unfold size_of in *. split; [apply write_fits; [lia | done]|]. intros j Hj Hor. apply write_agrees; [lia | done |]. destruct Hor as [?|Hi]; [by left | right; by apply Hin].
Qed.

(** The context was over at an earlier look. *)
Definition over (s : Sys) : Prop := exists n, (n < tick s)%nat /\ cancelled n = true.
Definition covered (chunk : Z) (offsets : list Z) (j : nat) : Prop := Exists (fun o => in_chunk chunk o j) offsets.
Definition filled (chunk : Z) (offsets : list Z) (D D' : bytes) : Prop :=
  (List.length D <= List.length c)%nat -> (List.length D' <= List.length c)%nat /\ forall j, (j < List.length c)%nat -> agrees D j \/ covered chunk offsets j -> agrees D' j.
Lemma filled_nil chunk D : filled chunk [] D D.
Proof. intros H. split; [done|]. intros j _ [?|Hc]; [done|]. by apply Exists_nil in Hc. Qed.
Lemma filled_cons chunk o l D D1 D2 :
  ((List.length D <= List.length c)%nat -> (List.length D1 <= List.length c)%nat /\ forall j, (j < List.length c)%nat -> agrees D j \/ in_chunk chunk o j -> agrees D1 j) ->
  filled chunk l D1 D2 -> filled chunk (o :: l) D D2.
Proof.
  intros H1 H2 HD. destruct (H1 HD) as [L1 A1]. destruct (H2 L1) as [L2 A2]. split; [done|].
  intros j Hj [Ha|Hc]; apply A2; [done | left; apply A1; [done | by left] | done |].
  apply Exists_cons in Hc as [Hi|Hc]; [left; apply A1; [done | by right] | by right].
Qed.

Lemma run_chunks_spec chunk total offsets : 0 < chunk -> total = size_of c -> forall failed s D, holds s D -> Forall (fun o => 0 <= o < total) offsets ->
  ends (run_chunks from src to dst chunk total failed offsets) s (fun s' r => exists D', moved s s' D' /\ (r = Ok tt -> failed = None /\ (over s' \/ filled chunk offsets D D'))).
Proof using Hft.
  intros Hc Ht. induction offsets as [|o l IH]; intros failed s D H Hl.
  - cbn. destruct failed as [e|]; [apply ends_fail | apply ends_ret]; (exists D; split; [by apply holds_moved|]); [done|].
    intros _. split; [done|]. right. apply filled_nil.
  - apply Forall_cons in Hl as [Ho Hl]. cbn [run_chunks]. destruct failed as [e|].
    + apply ends_bind. apply (ends_mono goes_on s (fun s' r => exists b, s' = next s /\ r = Ok b)); [by eexists|].
      intros s1 r1 (b & -> & ->). apply ends_bind.
      assert (Hrest : forall s2 D2, moved s s2 D2 -> ends (run_chunks from src to dst chunk total (Some e) l) s2
        (fun s' r => exists D', moved s s' D' /\ (r = Ok tt -> Some e = None /\ (over s' \/ filled chunk (o :: l) D D')))).
      { intros s2 D2 M2. eapply ends_mono; [apply (IH _ _ D2); [by eapply moved_holds | done]|].
        intros s3 r3 (D3 & M3 & E3). exists D3. split; [by eapply moved_trans|]. intros Hr. by destruct (E3 Hr). }
      destruct b; [|apply ends_ret; by apply (Hrest _ D), next_moved].
      apply ends_bind, ends_attempt. eapply ends_mono; [apply (chunk_job_spec _ _ _ _ D); [by apply holds_next | done..]|].
      intros s2 r2 (D2 & M2 & _). apply ends_ret. apply (Hrest _ D2). eapply moved_trans; [by apply next_moved | done].
    + apply ends_bind. apply (ends_mono is_cancelled s (fun s' r => s' = next s /\ r = Ok (cancelled (tick s)))); [done|].
      intros s1 r1 [-> ->]. destruct (cancelled (tick s)) eqn:Es.
      { apply ends_ret. exists D. split; [by apply next_moved|]. intros _. split; [done|]. left. exists (tick s). split; [cbn; lia | done]. }
      apply ends_bind, ends_attempt. apply ends_check_at; [|intros _].
      * eapply ends_mono; [apply (IH _ _ D); [by do 2 apply holds_next | done]|]. intros s3 r3 (D3 & M3 & E3).
        exists D3. split; [eapply moved_trans; [by apply moved_tick, next_moved | done]|]. intros Hr. by destruct (E3 Hr).
      * eapply ends_mono; [apply (chunk_job_spec _ _ _ _ D); [by do 2 apply holds_next | done..]|].
        intros s2 r2 (D2 & M2 & E2). assert (M2' : moved s s2 D2) by (eapply moved_trans; [by apply moved_tick, next_moved | done]).
        eapply ends_mono; [apply (IH _ _ D2); [by eapply moved_holds | done]|]. intros s3 r3 (D3 & M3 & E3).
        exists D3. split; [by eapply moved_trans|]. intros Hr. destruct (E3 Hr) as [Hf Ho3]. split; [done|].
        destruct r2 as [[]|?]; [|done]. destruct Ho3 as [?|F3]; [by left | right]. eapply filled_cons; [by apply E2 | done].
Qed.

Lemma chunk_offsets_within fuel chunk : forall offset total, 0 <= offset -> 0 < chunk -> Forall (fun o => 0 <= o < total) (chunk_offsets fuel chunk offset total).
Proof.
  induction fuel as [|fuel IH]; intros offset total Ho Hc; cbn; [constructor|].
  destruct (Z.ltb_spec offset total); [|constructor]. constructor; [lia | apply IH; lia].
Qed.
Lemma chunk_offsets_cover fuel chunk : forall offset total j, 0 < chunk -> total - offset <= Z.of_nat fuel -> offset <= Z.of_nat j < total -> covered chunk (chunk_offsets fuel chunk offset total) j.
Proof.
  induction fuel as [|fuel IH]; intros offset total j Hc Hf Hj; [lia|]. cbn. destruct (Z.ltb_spec offset total); [|lia].
  destruct (decide (Z.of_nat j < offset + chunk)); [left; split; lia | right; apply IH; lia].
Qed.

Lemma parallelTransfer_spec chunk s D : 0 < chunk -> holds s D -> D `prefix_of` c ->
  ends (parallelTransfer from src to dst chunk (size_of D) (size_of c)) s (fun s' r => exists D', moved s s' D' /\ (r = Ok tt -> over s' \/ D' = c)).
Proof using Hft.
  intros Hc H Hp. unfold parallelTransfer, ends. set (l := chunk_offsets _ _ _ _).
  assert (Hl : Forall (fun o => 0 <= o < size_of c) (schedule (tick s) l)).
  { rewrite schedule_all. apply chunk_offsets_within; [unfold size_of; lia | done]. }
  pose proof (run_chunks_spec chunk (size_of c) _ Hc eq_refl None (next s) D (holds_next _ _ H) Hl) as (D' & M & E).
  exists D'. split; [eapply moved_trans; [by apply next_moved | exact M]|]. intros Hr. destruct (E Hr) as [_ [?|F]]; [by left | right].
  pose proof (prefix_length _ _ Hp) as HD. destruct (F HD) as [L A]. apply list_eq. intros j.
  destruct (decide (j < List.length c)%nat) as [Hj|Hj]; [|rewrite !lookup_ge_None_2 by lia; done].
  apply A; [done|]. destruct (decide (j < List.length D)%nat) as [Hj'|Hj'].
  - left. unfold agrees. destruct Hp as [k ->]. by rewrite lookup_app_l.
  - right. unfold covered. rewrite schedule_all. apply chunk_offsets_cover; unfold size_of in *; lia.
Qed.

(** ** What is taken over *)
Lemma firstn_more (D E : bytes) k n : firstn k D = firstn k E -> read_at D k n = read_at E k n -> firstn (k + n) D = firstn (k + n) E.
Proof.
  intros H1 H2. rewrite <- (firstn_skipn k (firstn (k + n) D)), <- (firstn_skipn k (firstn (k + n) E)), !firstn_firstn, !skipn_firstn_comm.
  rewrite !Nat.min_l by lia. replace (k + n - k)%nat with n by lia. unfold read_at in H2. by rewrite H1, H2.
Qed.
Lemma firstn_less (D E : bytes) k n : firstn n D = firstn n E -> (k <= n)%nat -> read_at D k (n - k) = read_at E k (n - k).
Proof. intros H Hk. unfold read_at. by rewrite <- !skipn_firstn_comm, H. Qed.
Lemma read_at_le (D E : bytes) k n n' : read_at D k n = read_at E k n -> (n' <= n)%nat -> read_at D k n' = read_at E k n'.
Proof. unfold read_at. intros H Hn. rewrite <- (Nat.min_l n' n Hn), <- !firstn_firstn. by rewrite H. Qed.

Lemma validate_spec fuel n : forall off s D, holds s D -> (n <= List.length D)%nat -> (off <= n)%nat -> (n - off <= fuel)%nat -> firstn off D = firstn off c ->
  ends (validate_loop from src to dst fuel off n) s (fun s' r => moved s s' D /\ (r = Ok tt -> firstn n D = firstn n c) /\ (r = Err PrefixMismatch -> firstn n D <> firstn n c)).
Proof using Hft.
  induction fuel as [|fuel IH]; intros off s D H Hn Ho Hf He; cbn [validate_loop]; destruct (Nat.leb_spec n off).
  1, 3: assert (off = n) as -> by lia; apply ends_ret; split_and!; [by apply holds_moved | done | done].
  - lia.
  - set (k := Nat.min copyBuffer (n - off)).
    assert (Hk : (0 < k <= n - off)%nat) by (unfold k; assert (0 < copyBuffer)%nat by (unfold copyBuffer; lia); lia).
    apply ends_bind, ends_must. apply (ends_same to); [split_and!; [by apply next_moved | done | done]|]. cbn beta iota.
    apply ends_bind, ends_must. apply (ends_same from); [split_and!; [by apply moved_tick, next_moved | done | done]|]. cbn beta iota.
    rewrite (written_content _ _ H), files_next, (source_content _ _ H).
    assert (M2 : moved s (next (next s)) D) by (by apply moved_tick, next_moved).
    destruct (bool_decide_reflect (read_at D off k = read_at c off k)) as [E|E]; cbn [negb].
    + destruct (read_at D off k) as [|x d] eqn:Er.
      { apply (f_equal List.length) in Er. rewrite read_at_length in Er. cbn in Er. lia. }
      rewrite <- Er in *. assert (El : List.length (read_at D off k) = k) by (rewrite read_at_length; lia). rewrite El.
      eapply ends_mono; [apply (IH _ _ D); [by do 2 apply holds_next | done | lia | lia | by apply firstn_more]|].
      intros s' r (M3 & H1 & H2). split_and!; [by eapply moved_trans | done | done].
    + apply ends_fail. split_and!; [done | done|]. intros _ Hall. apply E. apply (read_at_le _ _ _ (n - off)); [by apply firstn_less | lia].
Qed.

Lemma prefix_firstn (D E : bytes) : D `prefix_of` E <-> firstn (List.length D) D = firstn (List.length D) E.
Proof.
  rewrite firstn_all. split; [intros [k ->]; by rewrite take_app_length|]. intros ->. apply firstn_prefix.
Qed.
Lemma resume_spec s D : holds s D ->
  ends (resume_or_restart from src to dst (size_of D)) s (fun s' r => exists D', moved s s' D' /\
    forall n, r = Ok n -> n = size_of D' /\ D' = if bool_decide (D `prefix_of` c) then D else []).
Proof using Hft.
  intros H. unfold resume_or_restart, validatePrefix, size_of. rewrite Nat2Z.id. apply ends_bind, ends_attempt.
  eapply ends_mono; [apply (validate_spec (List.length D) (List.length D) 0 s D H); [done | lia | lia | done]|].
  intros s1 r (M & Hok & Hbad). destruct r as [[]|e].
  - apply ends_ret. exists D. split; [done|]. intros n [= <-]. split; [done|]. rewrite bool_decide_true; [done|]. apply prefix_firstn. by apply Hok.
  - destruct e; try (apply ends_fail; by exists D).
    apply ends_bind, ends_must. apply (ends_same to); [exists D; split; [by apply moved_tick | done]|]. cbn beta iota.
    apply ends_bind, ends_must. apply ends_call; [exists D; split; [by do 2 apply moved_tick | done]|].
    unfold fs_truncate, on_file. rewrite files_next, (mv_dst _ _ _ M). apply ends_ret. exists []. split.
    + eapply moved_trans; [apply moved_tick; exact M|]. rewrite <- (files_next to s1). constructor; [apply only_put; left | by rewrite files_set_same, lookup_insert_eq].
    + intros n [= <-]. split; [done|]. rewrite bool_decide_false; [done|]. rewrite prefix_firstn. by apply Hbad.
Qed.
End Content.

(** * Transfers *)
Section Transfers.
Context `{Env : Environment}.
Implicit Types (c D : bytes).

Definition sequential (cfg : TransferConfig) (start size : Z) : bool := (size - start <? ChunkSize cfg) || (ThreadsPerFile cfg <=? 1).
(** What is in the temporary file of an upload that took [D] over: a sequential copy goes to its beginning. *)
Definition uploaded (cfg : TransferConfig) D c : bytes :=
  if (0 <? size_of D) && (size_of D <? size_of c) && sequential cfg (size_of D) (size_of c) then write_at D 0 (skipn (List.length D) c) else c.
(** What is kept of a temporary file. *)
Definition taken_over (cfg : TransferConfig) (temporary : option Node) c : bytes :=
  match temporary with
  | Some (File i D t m) => if resumable cfg (size_of c) (File i D t m) && bool_decide (D `prefix_of` c) then D else []
  | _ => []
  end.
Lemma taken_over_prefix cfg x c : taken_over cfg x c `prefix_of` c.
Proof. destruct x as [[i D t m| |]|]; cbn; try apply prefix_nil. destruct (_ && _) eqn:E; [|apply prefix_nil]. apply andb_true_iff in E as [_ E]. by apply bool_decide_eq_true in E. Qed.

Lemma prefix_full D c : D `prefix_of` c -> size_of c - size_of D <= 0 -> D = c.
Proof. intros [k ->] H. unfold size_of in H. rewrite length_app in H. destruct k; [by rewrite app_nil_r | cbn in H; lia]. Qed.
Lemma read_rest D c : D `prefix_of` c -> read_at c (List.length D) (List.length c - List.length D) = skipn (List.length D) c.
Proof. intros _. unfold read_at. rewrite firstn_all2; [done|]. rewrite length_skipn. lia. Qed.
Lemma write_rest D c : D `prefix_of` c -> write_at D (List.length D) (skipn (List.length D) c) = c.
Proof.
  intros [k ->]. rewrite drop_app_length. unfold write_at. rewrite firstn_all, Nat.sub_diag. cbn.
  rewrite (drop_ge D) by lia. by rewrite app_nil_r.
Qed.

Lemma copyExact_spec from to src dst i si t m st sm c s D off : from <> to -> holds from to src dst i si t m st sm c s D -> D `prefix_of` c -> (off <= List.length D)%nat -> 0 < size_of c - size_of D ->
  ends (copyExactContext from src to dst (size_of D) (Z.of_nat off) (size_of c - size_of D)) s (fun s' r => exists D', moved to dst i t m s s' D' /\ (r = Ok tt -> D' = write_at D off (skipn (List.length D) c))).
Proof.
  intros Hft H Hp Ho Hs. unfold copyExactContext. rewrite (proj2 (Z.ltb_ge _ _)) by lia.
  eapply ends_mono; [eapply (copy_loop_spec from to Hft); [exact H | lia | done]|].
  intros s' r (D' & M & E). exists D'. split; [done|]. intros Hr. rewrite (E Hr), !Nat2Z.id. unfold size_of. rewrite Nat2Z.id.
  replace (Z.to_nat (Z.of_nat (List.length c) - Z.of_nat (List.length D))) with (List.length c - List.length D)%nat by lia. by rewrite read_rest.
Qed.

Lemma doUpload_spec cfg src dst i si t m st sm c s D : 0 < ChunkSize cfg -> holds Local Remote src dst i si t m st sm c s D -> D `prefix_of` c ->
  ends (doUpload cfg src dst (size_of D) (size_of c)) s (fun s' r => exists D', moved Remote dst i t m s s' D' /\ (r = Ok tt -> over s' \/ D' = uploaded cfg D c)).
Proof.
  intros Hc H Hp. unfold doUpload, uploaded. apply ends_check_at; [exists D; split; [by eapply next_moved | done]|]. intros _.
  pose proof (holds_next _ _ _ _ _ _ _ _ _ _ _ _ _ H) as H1. pose proof (next_moved _ _ _ _ _ _ _ _ _ _ _ _ _ H) as M1.
  destruct (Z.leb_spec (size_of c - size_of D) 0) as [Hz|Hz].
  { apply ends_ret. exists D. split; [done|]. intros _. right. rewrite (proj2 (Z.ltb_ge (size_of D) _)), andb_false_r by lia. by apply prefix_full. }
  fold (sequential cfg (size_of D) (size_of c)). rewrite (proj2 (Z.ltb_lt (size_of D) _)), andb_true_r by lia.
  destruct (sequential cfg _ _) eqn:Es; cbn [andb].
  - apply ends_bind. apply (ends_mono _ _ (fun s' r => moved Remote dst i t m s s' D)).
    { destruct (0 <? size_of D); [|by apply ends_ret]. apply ends_must, (ends_same Local); by apply moved_tick. }
    intros s2 r2 M2. destruct r2 as [_|e]; [|by exists D].
    eapply ends_mono; [apply (copyExact_spec Local Remote src dst i si t m st sm c s2 D 0); [done | eapply moved_holds; [done | exact H | exact M2] | done | lia | lia]|].
    intros s3 r3 (D3 & M3 & E3). exists D3. split; [by eapply moved_trans|]. intros Hr. right. rewrite (E3 Hr).
    destruct (Z.ltb_spec 0 (size_of D)) as [|Hd]; cbn [andb]; [done|].
    assert (D = []) as -> by (destruct D; [done | unfold size_of in Hd; cbn in Hd; lia]). by apply (write_rest []).
  - rewrite andb_false_r. eapply ends_mono; [eapply (parallelTransfer_spec Local Remote); [done | exact Hc | exact H1 | done]|].
    intros s2 r2 (D2 & M2 & E2). exists D2. split; [by eapply moved_trans | done].
Qed.

Lemma doDownload_spec cfg src dst i si t m st sm c s D : 0 < ChunkSize cfg -> holds Remote Local src dst i si t m st sm c s D -> D `prefix_of` c ->
  ends (doDownload cfg src dst (size_of D) (size_of c)) s (fun s' r => exists D', moved Local dst i t m s s' D' /\ (r = Ok tt -> over s' \/ D' = c)).
Proof.
  intros Hc H Hp. unfold doDownload. apply ends_check_at; [exists D; split; [by eapply next_moved | done]|]. intros _.
  pose proof (holds_next _ _ _ _ _ _ _ _ _ _ _ _ _ H) as H1. pose proof (next_moved _ _ _ _ _ _ _ _ _ _ _ _ _ H) as M1.
  destruct (Z.leb_spec (size_of c - size_of D) 0) as [Hz|Hz].
  { apply ends_ret. exists D. split; [done|]. intros _. right. by apply prefix_full. }
  destruct (_ || _).
  - apply ends_bind. apply (ends_mono _ _ (fun s' r => moved Local dst i t m s s' D)).
    { destruct (0 <? size_of D); [|by apply ends_ret]. apply ends_bind, ends_must, (ends_same Local); [by apply moved_tick|].
      apply ends_must, (ends_same Remote); by do 2 apply moved_tick. }
    intros s2 r2 M2. destruct r2 as [_|e]; [|by exists D].
    eapply ends_mono; [apply (copyExact_spec Remote Local src dst i si t m st sm c s2 D (List.length D)); [done | eapply moved_holds; [done | exact H | exact M2] | done | lia | lia]|].
    intros s3 r3 (D3 & M3 & E3). exists D3. split; [by eapply moved_trans|]. intros Hr. right. rewrite (E3 Hr). by apply write_rest.
  - eapply ends_mono; [eapply (parallelTransfer_spec Remote Local); [done | exact Hc | exact H1 | done]|].
    intros s2 r2 (D2 & M2 & E2). exists D2. split; [by eapply moved_trans | done].
Qed.

(** ** Temporary files *)
Lemma ends_inspect sd temp s (Q : Sys -> result xfer_error (option Node) -> Prop) :
  (forall e, Q (next s) (Err e)) -> match files sd s !! temp with None => Q (next s) (Ok None) | Some (File i c t m) => Q (next s) (Ok (Some (File i c t m))) | _ => True end ->
  ends (inspectTemporaryFile sd temp) s Q.
Proof.
  intros He Hx. unfold inspectTemporaryFile. apply ends_bind. apply ends_call; [apply ends_fail, He|]. unfold fs_lstat.
  destruct (files sd s !! temp) as [[]|]; replace (set_files sd (files sd s) (next s)) with (next s) by (by destruct sd); cbn; first [exact Hx | apply He].
Qed.
Lemma ends_verify sd temp s i D t m (Q : Sys -> result xfer_error unit -> Prop) : files sd s !! temp = Some (File i D t m) ->
  (forall e, Q (next s) (Err e)) -> Q (next s) (Ok tt) -> ends (verifyTemporaryFile sd temp) s Q.
Proof. intros H He Hx. unfold verifyTemporaryFile. apply ends_bind, ends_inspect; [done|]. by rewrite H. Qed.
Lemma on_open to temp s n : only to [temp] s (set_files to (<[temp := n]> (files to s)) (next s)).
Proof. apply only_put. left. Qed.
(** The file that is taken over, behind any calls that leave it. *)
Lemma resume_or_not from to src temp i si t m st sm c s D : from <> to -> holds from to src temp i si t m st sm c s D ->
  ends (if 0 <? size_of D then resume_or_restart from src to temp (size_of D) else ret (size_of D)) s (fun s' r => exists D', moved to temp i t m s s' D' /\
    forall n, r = Ok n -> n = size_of D' /\ D' = if bool_decide (D `prefix_of` c) then D else []).
Proof.
  intros Hft H. destruct (Z.ltb_spec 0 (size_of D)) as [_|Hd]; [by eapply resume_spec|].
  apply ends_ret. exists D. split; [by eapply holds_moved|]. intros n [= <-]. split; [done|].
  destruct D; [by destruct (bool_decide _) | unfold size_of in Hd; cbn in Hd; lia].
Qed.

Definition prepares (to : side) (cfg : TransferConfig) (temp : string) c (s s' : Sys) (r : result xfer_error Z) : Prop :=
  only to [temp] s s' /\ forall n, r = Ok n -> exists i t m D, files to s' !! temp = Some (File i D t m) /\ n = size_of D /\ D = taken_over cfg (files to s !! temp) c.
Lemma prepares_err to cfg temp c s s' e : only to [temp] s s' -> prepares to cfg temp c s s' (Err e).
Proof. by split. Qed.
#[local] Hint Resolve prepares_err only_next_r : sftp.

Lemma ends_fresh s (Q : Sys -> result xfer_error nat -> Prop) : Q s (Ok (tick s)) -> ends fresh_ident s Q.
Proof. done. Qed.
Lemma ends_open sd temp flags s fs (Q : Sys -> result xfer_error unit -> Prop) :
  (forall e, Q (next s) (Err e)) -> fs_open temp flags (files sd s) = Ok (fs, tt) -> Q (set_files sd fs (next s)) (Ok tt) -> ends (must "open" (call sd (fs_open temp flags))) s Q.
Proof. intros He Hf Hx. apply ends_must, ends_call; [apply He|]. by rewrite Hf. Qed.
Lemma set_same sd s : set_files sd (files sd s) (next s) = next s.
Proof. by destruct sd. Qed.
Lemma only_fail to cfg temp c s s' : only to [temp] s s' -> forall e, prepares to cfg temp c s (next s') (Err e).
Proof. intros. auto with sftp. Qed.

(** What both sides do with a temporary file once it is open. *)
Definition closable (P : Sys -> result xfer_error Z -> Prop) (s : Sys) (r : result xfer_error Z) : Prop := match r with Ok a => P s (Ok a) | Err _ => forall e, P (next s) (Err e) end.
Lemma take_prepares from to cfg src temp i si t m st sm c s s0 D : from <> to -> only to [temp] s s0 -> holds from to src temp i si t m st sm c s0 D ->
  (if bool_decide (D `prefix_of` c) then D else []) = taken_over cfg (files to s !! temp) c ->
  ends (if 0 <? size_of D then resume_or_restart from src to temp (size_of D) else ret (size_of D)) s0 (closable (prepares to cfg temp c s)).
Proof.
  intros Hft Ho H HD. eapply ends_mono; [by eapply resume_or_not|].
  intros s' r (D' & [M1 M2] & E). assert (only to [temp] s s') by (by etrans). destruct r as [n|e]; [|intros e'; by apply only_fail].
  split; [done|]. intros n' [= <-]. destruct (E n eq_refl) as [-> ED]. exists i, t, m, D'. by rewrite <- HD.
Qed.
(** The three ways to open it. *)
Lemma opened_holds from to src temp i si t m st sm c s D : from <> to -> files from s !! src = Some (File si c st sm) ->
  holds from to src temp i si t m st sm c (set_files to (<[temp := File i D t m]> (files to s)) (next s)) D.
Proof. intros Hft Hs. constructor; [by rewrite files_set_other, files_next | by rewrite files_set_same, lookup_insert_eq]. Qed.

Lemma prepareUploadFile_spec cfg src temp s si c st sm : files Local s !! src = Some (File si c st sm) ->
  ends (prepareUploadFile cfg src temp (size_of c)) s (prepares Remote cfg temp c s).
Proof.
  intros Hs. unfold prepareUploadFile. apply ends_bind, ends_inspect; [auto with sftp|].
  assert (Hv : forall s1 i D t m (k : M Z), only Remote [temp] s s1 -> holds Local Remote src temp i si t m st sm c s1 D ->
    ends k (next s1) (closable (prepares Remote cfg temp c s)) -> ends (or_close "remote temporary file" (verifyTemporaryFile Remote temp ;;; k)) s1 (prepares Remote cfg temp c s)).
  { intros s1 i D t m k Ho [_ Ht] Hk. apply ends_or_close, ends_bind. eapply ends_verify; [exact Ht | | exact Hk].
    intros e e'. by apply only_fail, only_next_r. }
  destruct (files Remote s !! temp) as [[j D t m| |]|] eqn:Ef; try done; apply ends_bind, ends_fresh.
  - assert (Hh : holds Local Remote src temp j si t m st sm c (next s) D) by (constructor; by rewrite files_next).
    destruct (resumable cfg _ _) eqn:Er; apply ends_bind.
    + eapply ends_open; [auto with sftp | unfold fs_open; by rewrite files_next, Ef |]. rewrite <- (files_next Remote s), set_same. cbn [node_size].
      assert (Hh3 := holds_next _ _ _ _ _ _ _ _ _ _ _ _ _ Hh).
      apply (Hv _ j D t m); [auto with sftp | done |]. eapply take_prepares; [done | auto with sftp | by apply holds_next |]. rewrite Ef. cbn [taken_over]. by rewrite Er.
    + assert (Ho : only Remote [temp] s (set_files Remote (<[temp := File j [] t m]> (files Remote (next s))) (next (next s)))) by (etrans; [apply only_next | apply on_open]).
      eapply ends_open; [auto with sftp | unfold fs_open; by rewrite files_next, Ef | rewrite <- (files_next Remote s)].
      apply (Hv _ j [] t m); [done | apply opened_holds; [done | by rewrite files_next] |].
      apply (take_prepares Local Remote cfg src temp j si t m st sm c s _ []); [done | auto with sftp | apply holds_next, opened_holds; [done | by rewrite files_next] |].
      rewrite Ef. cbn [taken_over]. rewrite Er. cbn. by destruct (bool_decide _).
  - assert (Ho : only Remote [temp] s (set_files Remote (<[temp := File (tick (next s)) [] 0 420]> (files Remote (next s))) (next (next s)))) by (etrans; [apply only_next | apply on_open]).
    apply ends_bind. eapply ends_open; [auto with sftp | unfold fs_open; by rewrite files_next, Ef | rewrite <- (files_next Remote s)].
    apply (Hv _ (tick (next s)) [] 0 420); [done | apply opened_holds; [done | by rewrite files_next] |].
    apply (take_prepares Local Remote cfg src temp (tick (next s)) si 0 420 st sm c s _ []); [done | auto with sftp | apply holds_next, opened_holds; [done | by rewrite files_next] |].
    rewrite Ef. cbn. by destruct (bool_decide _).
Qed.

Lemma ends_stat sd p s n op (Q : Sys -> result xfer_error Node -> Prop) : files sd s !! p = Some n -> (forall e, Q (next s) (Err e)) -> Q (next s) (Ok n) -> ends (must op (call sd (fs_lstat p))) s Q.
Proof. intros H He Hx. apply ends_must, ends_call; [apply He|]. unfold fs_lstat. by rewrite H, set_same. Qed.
Lemma prepareDownloadFile_spec cfg src temp mode s si c st sm : files Remote s !! src = Some (File si c st sm) ->
  ends (prepareDownloadFile cfg src temp (size_of c) mode) s (prepares Local cfg temp c s).
Proof.
  intros Hs. unfold prepareDownloadFile. apply ends_bind, ends_inspect; [auto with sftp|].
  assert (Hv : forall s1 i D t m (k : Node -> M Z), only Local [temp] s s1 -> holds Remote Local src temp i si t m st sm c s1 D ->
    ends (k (File i D t m)) (next s1) (closable (prepares Local cfg temp c s)) ->
    ends (or_close "local temporary file" (let! opened := must "stat" (call Local (fs_lstat temp)) in k opened)) s1 (prepares Local cfg temp c s)).
  { intros s1 i D t m k Ho [_ Ht] Hk. apply ends_or_close, ends_bind. eapply ends_stat; [exact Ht | | exact Hk].
    intros e e'. by apply only_fail, only_next_r. }
  destruct (files Local s !! temp) as [[j D t m| |]|] eqn:Ef; try done; apply ends_bind, ends_fresh.
  - assert (Hh : holds Remote Local src temp j si t m st sm c (next s) D) by (constructor; by rewrite files_next).
    destruct (resumable cfg _ _) eqn:Er; apply ends_bind.
    + eapply ends_open; [auto with sftp | unfold fs_open; by rewrite files_next, Ef |]. rewrite <- (files_next Local s), set_same. cbn [node_size].
      assert (Hh3 := holds_next _ _ _ _ _ _ _ _ _ _ _ _ _ Hh).
      apply (Hv _ j D t m); [auto with sftp | done |]. cbn [ident_of]. rewrite bool_decide_true by done. apply ends_bind, ends_ret.
      eapply take_prepares; [done | auto with sftp | by apply holds_next |]. rewrite Ef. cbn [taken_over]. by rewrite Er.
    + assert (Ho : only Local [temp] s (set_files Local (<[temp := File j [] t m]> (files Local (next s))) (next (next s)))) by (etrans; [apply only_next | apply on_open]).
      eapply ends_open; [auto with sftp | unfold fs_open; by rewrite files_next, Ef | rewrite <- (files_next Local s)].
      apply (Hv _ j [] t m); [done | apply opened_holds; [done | by rewrite files_next] |]. cbn [ident_of]. rewrite bool_decide_true by done. apply ends_bind, ends_ret.
      apply (take_prepares Remote Local cfg src temp j si t m st sm c s _ []); [done | auto with sftp | apply holds_next, opened_holds; [done | by rewrite files_next] |].
      rewrite Ef. cbn [taken_over]. rewrite Er. cbn. by destruct (bool_decide _).
  - assert (Ho : only Local [temp] s (set_files Local (<[temp := File (tick (next s)) [] 0 384]> (files Local (next s))) (next (next s)))) by (etrans; [apply only_next | apply on_open]).
    apply ends_bind. eapply ends_open; [auto with sftp | unfold fs_open; by rewrite files_next, Ef | rewrite <- (files_next Local s)].
    apply (Hv _ (tick (next s)) [] 0 384); [done | apply opened_holds; [done | by rewrite files_next] |]. apply ends_bind, ends_ret.
    apply (take_prepares Remote Local cfg src temp (tick (next s)) si 0 384 st sm c s _ []); [done | auto with sftp | apply holds_next, opened_holds; [done | by rewrite files_next] |].
    rewrite Ef. cbn. by destruct (bool_decide _).
Qed.

(** ** The end of a transfer *)

(** The mode that a file is left with. *)
Definition final_mode (mode : Z) : Z := if mode =? 0 then writable 0 else mode.
Lemma ends_on_file to p (f : nat -> bytes -> Z -> Z -> Node * unit) s i D t m op (Q : Sys -> result xfer_error unit -> Prop) : files to s !! p = Some (File i D t m) ->
  (forall e, Q (next s) (Err e)) -> Q (set_files to (<[p := (f i D t m).1]> (files to s)) (next s)) (Ok tt) -> ends (must op (call to (on_file p f))) s Q.
Proof. intros H He Hx. apply ends_must, ends_call; [apply He|]. unfold on_file. rewrite H. revert Hx.
 destruct (f i D t m) as [n []].
 done. Qed.
Lemma final_mode_set mode : (if negb (mode =? 0) && negb (mode =? writable mode) then mode else writable mode) = final_mode mode.
Proof.
  unfold final_mode. destruct (Z.eqb_spec mode 0) as [->|]; [done|]. cbn. by destruct (Z.eqb_spec mode (writable mode)).
Qed.
Lemma set_mode_spec to temp mode s i D t (Q : Sys -> result xfer_error unit -> Prop) : files to s !! temp = Some (File i D t (writable mode)) ->
  (forall e, Q (next s) (Err e)) -> (forall s', only to [temp] s s' -> files to s' !! temp = Some (File i D t (final_mode mode)) -> Q s' (Ok tt)) -> ends (set_mode to temp mode) s Q.
Proof.
  intros H He Hx. unfold set_mode. pose proof (final_mode_set mode) as Hm. destruct (negb _ && negb _).
  - eapply ends_on_file; [exact H | done |]. apply Hx; [apply on_open|]. rewrite files_set_same, lookup_insert_eq. cbn. by rewrite <- Hm.
  - apply ends_ret, Hx; [reflexivity|]. by rewrite <- Hm.
Qed.

(** What a transfer to [dest] leaves: the new file, or what was there, which may be at the place of the backup. *)
Record outcome (to : side) (temps : list string) (dest backup : string) (new : Node) (s s' : Sys) (ok : bool) : Prop := {
  oc_other : forall sd, sd <> to -> files sd s' = files sd s;
  oc_frame : same_but (dest :: backup :: temps) (files to s) (files to s');
  oc_dest : files to s' !! dest = Some new \/
            (ok = false /\ (files to s' !! dest = files to s !! dest \/ (files to s' !! dest = None /\ files to s' !! backup = files to s !! dest)));
  oc_done : ok = true -> files to s' !! backup = files to s !! backup /\ forall p, p ∈ temps -> files to s' !! p = None
}.
Lemma outcome_next to temps dest backup new s s' ok : outcome to temps dest backup new s s' ok -> outcome to temps dest backup new s (next s') ok.
Proof. intros [A B C D]. constructor; by rewrite ?files_next. Qed.
Lemma outcome_fails to temps dest backup new s s' ok : outcome to temps dest backup new s s' ok -> outcome to temps dest backup new s s' false.
Proof. intros [A B C D]. constructor; [done | done | | done]. destruct C as [C|[_ C]]; [by left | by right]. Qed.
Lemma only_outcome to temps dest backup new s s' : only to temps s s' -> dest ∉ temps -> outcome to temps dest backup new s s' false.
Proof.
  intros [A B _] Hd. constructor; [done | | right; split; [done | left; by apply B] | done].
  eapply same_but_weaken; [|exact B]. set_solver.
Qed.
Lemma replaced_outcome to temps temp dest backup new s s1 s' ok : only to temps s s1 -> temp ∈ temps -> dest ∉ temps -> backup ∉ temps ->
  (forall sd, sd <> to -> files sd s' = files sd s1) -> replaced new temp dest backup (files to s1) (files to s') ok ->
  (ok = true -> forall p, p ∈ temps -> p <> temp -> files to s1 !! p = None) -> dest <> backup -> outcome to temps dest backup new s s' ok.
Proof.
  intros [A B _] Ht Hd Hb Ho [F G I] Htemps Hdb. constructor.
  - intros sd Hsd. by rewrite Ho, A.
  - intros p Hp. rewrite F by set_solver. apply B. set_solver.
  - rewrite <- (B dest Hd). destruct G as [G|[[-> G]|(-> & G & G')]]; auto.
  - intros Hok. destruct (I Hok) as (_ & I1 & I2). split; [by rewrite I2, B|].
    intros p Hp. destruct (decide (p = temp)) as [->|Hpt]; [done|]. rewrite F by set_solver. by apply Htemps.
Qed.

Lemma over_next s : over s -> over (next s).
Proof. intros (n & H & Hn). exists n. cbn. split; [lia | done]. Qed.
Lemma over_check s : over s -> cancelled (tick s) = true.
Proof. intros (n & H & Hn). apply (cancelled_stays n); [lia | done]. Qed.

(** Names that end in different ways. *)
Lemma append_ne (a b : string) : b <> "" -> a +:+ b <> a.
Proof. intros Hb E. apply Hb. assert (String.length (a +:+ b) = String.length a) as El by by rewrite E. rewrite length_app_str in El. destruct b; [done | cbn in El; lia]. Qed.
Lemma append_ne_same (a b c : string) : b <> c -> a +:+ b <> a +:+ c.
Proof. intros Hb E. apply Hb. by apply (inj (String.append a)). Qed.

Lemma ends_source from path src s n op (Q : Sys -> result xfer_error string -> Prop) : follow (files from s) path = Some src -> (exists i c t m, n = File i c t m) -> files from s !! src = Some n ->
  (forall e, Q (next s) (Err e)) -> Q (next s) (Ok src) -> ends (must op (call from (fs_open_read path))) s Q.
Proof. intros Hf (i & c & t & m & ->) H He Hx. apply ends_must, ends_call; [apply He|]. unfold fs_open_read. by rewrite Hf, H, set_same. Qed.
(** A file is there already with the size and the time of the source. *)
Definition same_already (to : side) (path : string) (size mtime : Z) (s : Sys) : Prop := exists n, fs_stat path (files to s) = Ok (files to s, n) /\ node_size n = size /\ node_mtime n = mtime.
Lemma fs_stat_same path fs : (exists n, fs_stat path fs = Ok (fs, n)) \/ fs_stat path fs = Err NotExist.
Proof. unfold fs_stat, fs_lstat. destruct (follow fs path) as [q|]; [|by right]. destruct (fs !! q) as [n|]; [left; by exists n | by right]. Qed.
Lemma ends_skip to path size mtime s (Q : Sys -> result xfer_error bool -> Prop) : (forall e, Q (next s) (Err e)) -> Q (next s) (Ok false) -> (same_already to path size mtime s -> Q (next s) (Ok true)) ->
  ends (shouldSkip to path size mtime) s Q.
Proof.
  intros He Hf Ht. unfold shouldSkip. apply ends_bind, ends_call; [apply He|].
  destruct (fs_stat_same path (files to s)) as [[n E]|E]; rewrite E; cbn; [|apply Hf]. rewrite set_same.
  apply ends_ret. destruct (Z.eqb_spec (node_size n) size), (Z.eqb_spec (node_mtime n) mtime); cbn; [apply Ht; by exists n | apply Hf..].
Qed.
Lemma report_all_spec size to ps s0 s (Q : Sys -> result xfer_error unit -> Prop) : only to ps s0 s -> (forall s', files Local s' = files Local s -> files Remote s' = files Remote s -> only to ps s0 s' -> Q s' (Ok tt)) -> ends (report_all size) s Q.
Proof.
  intros H HQ. unfold report_all. destruct (0 <? size); [|by apply ends_ret, HQ]. apply ends_progress, HQ; [done | done |].
  etrans; [exact H|]. constructor; [by intros [] | by destruct to | cbn; lia].
Qed.

Section Upload.
Context (cfg : TransferConfig) (localPath remotePath src : string) (si : nat) (c : bytes) (st sm mode : Z) (s0 : Sys).
Context (Hfollow : follow (files Local s0) localPath = Some src) (Hsrc : files Local s0 !! src = Some (File si c st sm)) (Hsuffix : TempSuffix cfg <> "").
Notation temp := (remotePath +:+ TempSuffix cfg).
Notation backup := (remotePath +:+ TempSuffix cfg +:+ ".backup").
Notation result_of i D := (File i D st (final_mode mode)).

Lemma upload_names : temp <> remotePath /\ backup <> temp /\ backup <> remotePath.
Proof using Hsuffix.
  clear Hfollow Hsrc. split_and!; [by apply append_ne | |].
  - apply append_ne_same. by apply append_ne.
  - apply append_ne. by destruct (TempSuffix cfg).
Qed.

Lemma finalizeUpload_spec s i D t : only Remote [temp] s0 s -> files Remote s !! temp = Some (File i D t (writable mode)) ->
  ends (finalizeUpload cfg temp remotePath st mode) s (fun s' r => outcome Remote [temp] remotePath backup (result_of i D) s0 s' (is_ok r)).
Proof using Hsuffix.
  clear Hfollow Hsrc. intros Ho Ht. destruct upload_names as (N1 & N2 & N3).
  assert (Herr : forall s1 e, only Remote [temp] s0 s1 -> outcome Remote [temp] remotePath backup (result_of i D) s0 (next s1) (is_ok (@Err xfer_error unit e))).
  { intros s1 e H1. apply outcome_next, only_outcome; [done | set_solver]. }
  unfold finalizeUpload. apply ends_check_at; [by apply Herr|]. intros _. apply only_next_r in Ho.
  apply ends_bind. eapply ends_verify; [by rewrite files_next, Ht | intros e; by apply Herr |]. apply only_next_r in Ho.
  apply ends_bind. unfold fs_chtimes. eapply ends_on_file; [by rewrite !files_next, Ht | intros e; by apply Herr |].
  match goal with |- ends _ ?s2 _ => assert (Ho2 : only Remote [temp] s0 s2) by (etrans; [exact Ho | apply on_open]); assert (Ht2 : files Remote s2 !! temp = Some (File i D st (writable mode))) by (rewrite files_set_same; apply lookup_insert_eq); generalize dependent s2 end.
  intros s2 Ho2 Ht2. apply ends_bind. eapply set_mode_spec; [exact Ht2 | intros e; by apply Herr |].
  intros s3 Ho3 Ht3. apply ends_check_at; [apply Herr; by etrans|]. intros _.
  assert (Ho4 : only Remote [temp] s0 (next s3)) by (apply only_next_r; by etrans).
  destruct (next s3) as [L R t4 d4] eqn:E4. assert (HR : R = files Remote s3) by (by rewrite <- (files_next Remote), E4).
  eapply ends_mono; [apply (replaceRemote_spec cfg temp remotePath L R t4 d4 (result_of i D)); [done | done | done | by rewrite HR]|].
  intros s' r [HL Hr]. eapply replaced_outcome; [exact Ho4 | left | set_solver | set_solver | by intros [] | exact Hr | set_solver | done].
Qed.

(** What an upload leaves in the end. *)
Definition settled (s' : Sys) (r : result xfer_error unit) : Prop :=
  (exists i, outcome Remote [temp] remotePath backup (result_of i (uploaded cfg (taken_over cfg (files Remote s0 !! temp) c) c)) s0 s' (is_ok r)) \/
  (r = Ok tt /\ Force cfg = false /\ same_already Remote remotePath (size_of c) st s0 /\ only Remote [] s0 s').
Lemma settled_only s e : only Remote [temp] s0 s -> settled (next s) (Err e).
Proof using Hsuffix. clear Hfollow Hsrc. intros H. left. exists O. destruct upload_names as (N1 & _). apply outcome_next, only_outcome; [done | set_solver]. Qed.
Lemma settled_nothing s e : only Remote [] s0 s -> settled (next s) (Err e).
Proof using Hsuffix. clear Hfollow Hsrc. intros H. apply settled_only. eapply only_weaken; [|exact H]. set_solver. Qed.
Lemma settled_closed s r : settled s r -> settled (next s) r /\ forall e, settled (next s) (Err e).
Proof using Hsuffix.
  clear Hfollow Hsrc. intros [[i H]|(-> & Hf & Hs & Ho)].
  - split; [|intros e]; left; exists i; apply outcome_next; [done | by eapply outcome_fails].
  - split; [right; split_and!; [done | done | done | by apply only_next_r] | intros e; by apply settled_nothing].
Qed.

(** The write of the temporary file, and what follows. *)
Lemma write_and_finalize s i t m D : 0 < ChunkSize cfg -> only Remote [temp] s0 s -> files Remote s !! temp = Some (File i D t m) -> D = taken_over cfg (files Remote s0 !! temp) c ->
  ends (finally_close "remote temporary file" (
          check_ctx ;;;
          must "chmod" (call Remote (fs_chmod temp (writable mode))) ;;;
          report_all (size_of D) ;;;
          doUpload cfg src temp (size_of D) (size_of c)) ;;;
        check_ctx ;;;
        finalizeUpload cfg temp remotePath st mode) s settled.
Proof using Hfollow Hsrc Hsuffix.
  intros Hc Ho Ht HD. pose proof (taken_over_prefix cfg (files Remote s0 !! temp) c) as Hp. rewrite <- HD in Hp.
  apply ends_bind, ends_close.
  assert (Herr : forall s1 e, only Remote [temp] s0 s1 -> settled (next s1) (Err e) /\ forall e, settled (next s1) (Err e)).
  { intros s1 e H1. split; intros; by apply settled_only. }
  apply ends_check_at; [by apply Herr, only_next_r|]. intros _. apply only_next_r in Ho.
  apply ends_bind. unfold fs_chmod. eapply ends_on_file; [by rewrite files_next, Ht | intros e; by apply Herr, only_next_r |].
  match goal with |- ends _ ?s2 _ => assert (Ho2 : only Remote [temp] s0 s2) by (etrans; [exact Ho | apply on_open]); assert (Ht2 : files Remote s2 !! temp = Some (File i D t (writable mode))) by (rewrite files_set_same; apply lookup_insert_eq); generalize dependent s2 end.
  intros s2 Ho2 Ht2. apply ends_bind. eapply report_all_spec; [exact Ho2|]. intros s3 EL ER Ho3.
  eapply ends_mono; [apply (doUpload_spec cfg src temp i si t (writable mode) st sm c s3 D); [done | constructor; [by rewrite (on_from _ _ _ _ Ho3) | by rewrite ER] | done]|].
  intros s4 r (D4 & [M1 M2] & E4). assert (Ho4 : only Remote [temp] s0 s4) by (by etrans).
  destruct r as [[]|e]; [|by apply Herr]. split; [|intros e; by apply settled_only].
  apply ends_check_at; [by apply settled_only, only_next_r|]. intros Hgo.
  destruct (E4 eq_refl) as [Hover|ED4]; [apply over_next, over_check in Hover; congruence|]. rewrite ED4 in M2.
  eapply ends_mono; [eapply (finalizeUpload_spec (next (next s4)) i); [by do 2 apply only_next_r | by rewrite !files_next]|].
  intros s5 r5 H5. left. exists i. by rewrite <- HD.
Qed.

Lemma uploadFile_spec size s : 0 < ChunkSize cfg -> only Remote [] s0 s -> files Remote s = files Remote s0 -> size = size_of c ->
  ends (uploadFile cfg localPath remotePath size mode) s settled.
Proof using Hfollow Hsrc Hsuffix.
  intros Hc Ho ER ->. unfold uploadFile.
  assert (EL : forall s1, only Remote [] s0 s1 -> files Local s1 = files Local s0) by (intros s1 H1; by apply (on_from _ _ _ _ H1)).
  assert (Hk : forall s1 e, only Remote [] s0 s1 -> settled (next s1) (Err e)) by (intros; by apply settled_nothing).
  apply ends_check_at; [by apply Hk|]. intros _. apply only_next_r in Ho.
  apply ends_bind. eapply ends_source; [by rewrite EL | by repeat eexists | by rewrite EL | intros e; by apply Hk |]. apply only_next_r in Ho.
  apply ends_close. apply (ends_mono _ _ settled); [|apply settled_closed].
  apply ends_bind. eapply ends_stat; [by rewrite EL | intros e; by apply Hk |]. apply only_next_r in Ho.
  cbn beta iota. rewrite Z.eqb_refl. cbn [negb]. apply ends_bind.
  assert (Hgo : forall s1, only Remote [] s0 s1 -> files Remote s1 = files Remote s0 ->
    ends (check_ctx ;;; let! start := prepareUploadFile cfg src temp (size_of c) in
          finally_close "remote temporary file" (check_ctx ;;; must "chmod" (call Remote (fs_chmod temp (writable mode))) ;;; report_all start ;;; doUpload cfg src temp start (size_of c)) ;;;
          check_ctx ;;; finalizeUpload cfg temp remotePath st mode) s1 settled).
  { intros s1 Ho1 ER1. apply ends_check_at; [by apply Hk|]. intros _. apply only_next_r in Ho1. apply ends_bind.
    eapply ends_mono; [eapply prepareUploadFile_spec; by rewrite EL|]. intros s2 r [P1 P2]. rewrite files_next, ER1 in P2.
    assert (Ho2 : only Remote [temp] s0 s2) by (etrans; [eapply only_weaken; [|exact Ho1]; set_solver | exact P1]).
    destruct r as [n|e].
    - destruct (P2 n eq_refl) as (i & t & m & D & Ht & -> & HD). by eapply write_and_finalize.
    - left. exists O. apply only_outcome; [done|]. destruct upload_names as (N1 & _). set_solver. }
  destruct (Force cfg) eqn:Ef; [by apply ends_ret, Hgo|].
  apply ends_check_at; [by apply Hk|]. intros _. apply only_next_r in Ho.
  apply ends_skip; [intros e; by apply Hk | by apply Hgo; [apply only_next_r|] |].
  intros Hs. eapply report_all_spec; [apply only_next_r; exact Ho|]. intros s1 _ _ Ho1. right. split_and!; [done | done | | done].
  unfold same_already in *. rewrite !files_next, ER in Hs. done.
Qed.
End Upload.

Lemma ends_interruptible (m : M unit) s (P : Sys -> result xfer_error unit -> Prop) :
  (forall e, P (next s) (Err e)) -> (forall s' r, P s' r -> P (next s') r /\ forall e, P (next s') (Err e)) -> ends m (next s) P -> ends (runInterruptibleOperation m) s P.
Proof.
  intros H0 Hc Hm. unfold runInterruptibleOperation. apply ends_check_at; [apply H0|]. intros _. apply ends_bind, ends_attempt. eapply ends_mono; [exact Hm|].
  intros s' r Hr. apply ends_bind. unfold ends, is_cancelled. cbn. destruct (Hc _ _ Hr) as [H1 H2]. destruct r as [[]|e], (cancelled (tick s')); cbn; auto.
Qed.
Lemma UploadFile_settled cfg localPath remotePath src si c st sm mode s : follow (files Local s) localPath = Some src -> files Local s !! src = Some (File si c st sm) -> TempSuffix cfg <> "" -> 0 < ChunkSize cfg ->
  ends (UploadFile cfg localPath remotePath (size_of c) mode) s (settled cfg remotePath c st mode s).
Proof.
  intros Hf Hs Hx Hc. apply ends_interruptible.
  - intros e. by apply settled_nothing.
  - by apply settled_closed.
  - eapply uploadFile_spec; try done. apply only_next.
Qed.

Lemma outcome_touch to temps dest backup new s s1 s2 ok p : outcome to temps dest backup new s s1 ok -> p ∈ temps -> dest ∉ temps -> backup ∉ temps -> only to [p] s1 s2 ->
  (ok = true -> files to s2 !! p = None) -> outcome to temps dest backup new s s2 ok.
Proof.
  intros [A B C D] Hp Hd Hb [E F _] Hn. constructor.
  - intros sd Hsd. by rewrite E, A.
  - intros q Hq. rewrite F by set_solver. by apply B.
  - rewrite (F dest), (F backup) by set_solver. done.
  - intros Hok. destruct (D Hok) as [D1 D2]. split; [by rewrite F by set_solver|]. intros q Hq. destruct (decide (q = p)) as [->|Hqp]; [by apply Hn|]. rewrite F by set_solver. by apply D2.
Qed.
Lemma only_delete to p s : only to [p] s (set_files to (delete p (files to s)) (next s)).
Proof.
  constructor.
  - intros sd Hsd. by rewrite files_set_other, files_next.
  - rewrite files_set_same. apply same_but_delete. left.
  - rewrite tick_set. cbn. lia.
Qed.
Lemma ends_remove p s (Q : Sys -> result xfer_error (result io_error unit) -> Prop) :
  (forall e s', only Local [p] s s' -> (files Local s !! p = None -> files Local s' !! p = None) -> Q s' (Ok (Err e))) ->
  (forall s', only Local [p] s s' -> files Local s' !! p = None -> Q s' (Ok (Ok tt))) -> ends (call Local (fs_remove p)) s Q.
Proof.
  intros He Hx. apply ends_call; [by apply He; [apply only_next|]|]. unfold fs_remove.
  destruct (files Local s !! p) as [[]|] eqn:Ep; try (apply He; [apply only_next | done]);
    (apply Hx; [apply (only_delete Local) | rewrite files_set_same; apply lookup_delete_eq]).
Qed.
Lemma ends_chmod_any p mode s (Q : Sys -> result xfer_error (result io_error unit) -> Prop) :
  (forall r s', only Local [p] s s' -> (files Local s !! p = None -> files Local s' !! p = None) -> Q s' (Ok r)) -> ends (call Local (fs_chmod p mode)) s Q.
Proof.
  intros HQ. apply ends_call; [by apply HQ; [apply only_next|]|]. unfold fs_chmod, on_file.
  destruct (files Local s !! p) as [[]|] eqn:Ep; (apply HQ; [|by try discriminate]); [apply (on_open Local) | apply only_next..].
Qed.
(** Whatever a transfer leaves, it leaves after the removal of the file it had under its own name. *)
Lemma ends_finally_remove temps dest backup p (m : M unit) s0 s new : p ∈ temps -> dest ∉ temps -> backup ∉ temps ->
  ends m s (fun s' r => outcome Local temps dest backup new s0 s' (is_ok r)) ->
  ends (finally_remove p m) s (fun s' r => outcome Local temps dest backup new s0 s' (is_ok r)).
Proof.
  intros Hp Hd Hb Hm. unfold finally_remove. apply ends_bind, ends_attempt. eapply ends_mono; [exact Hm|]. intros s1 r H1.
  assert (Hn : forall s2, only Local [p] s1 s2 -> (files Local s1 !! p = None -> files Local s2 !! p = None) -> outcome Local temps dest backup new s0 s2 (is_ok r)).
  { intros s2 Ho Hsame. eapply outcome_touch; [exact H1 | done.. |]. intros Hok. apply Hsame, (oc_done _ _ _ _ _ _ _ _ H1 Hok), Hp. }
  assert (Hfail : forall s2 e, only Local [p] s1 s2 -> outcome Local temps dest backup new s0 s2 (is_ok (@Err xfer_error unit e))).
  { intros s2 e Ho. cbn [is_ok]. eapply outcome_touch; [eapply outcome_fails; exact H1 | done.. |]. done. }
  assert (Hend : forall s2 (b : bool), only Local [p] s1 s2 -> (files Local s1 !! p = None -> files Local s2 !! p = None) ->
    ends (match r, b with Ok _, false => ret tt | Ok _, true => fail (Io "remove" Failed) | Err e, false => fail e | Err e, true => fail (Joined e (Io "remove" Failed)) end) s2
      (fun s' r => outcome Local temps dest backup new s0 s' (is_ok r))).
  { intros s2 b Ho Hsame. destruct r as [[]|e], b; (apply ends_fail || apply ends_ret); auto. }
  apply ends_bind, ends_remove.
  - intros e s2 Ho2 Hs2. apply ends_bind. destruct e; [|apply ends_bind..]; cbn beta iota.
    { apply ends_ret. exact (Hend s2 false Ho2 Hs2). }
    all: apply ends_chmod_any; intros r3 s3 Ho3 Hs3; cbn beta iota; assert (only Local [p] s1 s3) as Ho by (by etrans);
      apply ends_bind, ends_remove;
      [intros e4 s4 Ho4 Hs4; destruct e4 | intros s4 Ho4 Hs4]; cbn beta iota; apply ends_ret; cbn beta iota;
      assert (only Local [p] s1 s4) as Ho' by (by etrans); assert (files Local s1 !! p = None -> files Local s4 !! p = None) as Hs' by auto;
      first [exact (Hend s4 false Ho' Hs') | exact (Hend s4 true Ho' Hs')].
  - intros s2 Ho2 Hs2. apply ends_bind. cbn beta iota. apply ends_ret. exact (Hend s2 false Ho2 (fun _ => Hs2)).
Qed.
Lemma ends_move p q n s op (Q : Sys -> result xfer_error unit -> Prop) : files Local s !! p = Some n -> (forall e, Q (next s) (Err e)) -> Q (set_files Local (fs_move p q n (files Local s)) (next s)) (Ok tt) ->
  ends (must op (os_Rename p q)) s Q.
Proof.
  intros Hn He Hx. apply ends_must. unfold os_Rename. apply ends_call; [apply He|].
  destruct rename_replaces; unfold fs_rename_over, fs_rename_new; rewrite Hn; destruct (files Local s !! q) as [[]|]; first [apply Hx | apply He].
Qed.

Section Download.
Context (cfg : TransferConfig) (remotePath localPath src : string) (si : nat) (c : bytes) (st sm mode : Z) (s0 : Sys).
Context (Hfollow : follow (files Remote s0) remotePath = Some src) (Hsrc : files Remote s0 !! src = Some (File si c st sm)) (Hsuffix : TempSuffix cfg <> "").
Notation temp := (localPath +:+ TempSuffix cfg).
Notation final := (temp +:+ "." +:+ random_name).
Notation backup := (final +:+ ".backup").
Notation result_of i := (File i c st (final_mode mode)).
Notation ends_well := (fun i s' r => outcome Local [final; temp] localPath backup (result_of i) s0 s' (is_ok r)).

Lemma download_names : localPath ∉ [final; temp] /\ backup ∉ [final; temp] /\ final <> temp /\ final <> localPath /\ backup <> final /\ backup <> localPath.
Proof using Hsuffix.
  clear Hfollow Hsrc. assert (temp <> localPath) as N1 by (by apply append_ne).
  assert (forall x, temp +:+ x <> localPath) as N2 by (intros x; rewrite <- app_assoc_str; apply append_ne; by destruct (TempSuffix cfg)).
  assert (forall x, final +:+ x <> localPath) as N3 by (intros x; rewrite <- app_assoc_str; apply N2).
  assert (final <> temp) as N4 by (by apply append_ne). assert (backup <> final) as N5 by (by apply append_ne).
  assert (backup <> temp) as N6 by (rewrite <- (app_assoc_str temp); by apply append_ne).
  split_and!; try done; try apply N2; try apply N3; intros Hin; repeat (apply elem_of_cons in Hin as [Hin|Hin]); try (by apply elem_of_nil in Hin);
    first [by apply N4 | by apply N5 | by apply N6 | by apply N1 | by apply (N2 ("." +:+ random_name)) | congruence].
Qed.

Lemma download_error s e i : only Local [final; temp] s0 s -> ends_well i (next s) (@Err xfer_error unit e).
Proof using Hsuffix. clear Hfollow Hsrc. intros H. apply outcome_next, only_outcome; [done|]. apply download_names. Qed.

(** From the renamed temporary file on. *)
Lemma promote_spec s i t opened : only Local [final; temp] s0 s -> files Local s !! final = Some (File i c t (writable mode)) -> files Local s !! temp = None ->
  ends (finally_remove final (
          let! f := call Local (fs_stat final) in
          match f with
          | Ok n => if bool_decide (ident_of n = ident_of opened) then ret tt else fail TempReplaced
          | Err _ => fail TempReplaced
          end ;;;
          must "chtimes" (call Local (fs_chtimes final st)) ;;;
          set_mode Local final mode ;;;
          check_ctx ;;;
          replaceLocalFile final localPath)) s (ends_well i).
Proof using Hsuffix.
  clear Hfollow Hsrc. intros Ho Hf Ht. pose proof download_names as (Nd & Nb & Nt & Nl & Nbf & Nbl).
  apply ends_finally_remove; [by left | done | done|]. apply ends_bind, ends_call; [apply ends_bind, ends_fail; by apply download_error|].
  unfold fs_stat, fs_lstat. rewrite (follow_file _ _ _ _ _ _ Hf), Hf, set_same. apply ends_bind.
  destruct (bool_decide _); [apply ends_ret | apply ends_fail; by apply download_error]. apply only_next_r in Ho.
  apply ends_bind. unfold fs_chtimes. eapply ends_on_file; [by rewrite files_next, Hf | intros e; by apply download_error |].
  match goal with |- ends _ ?s2 _ => assert (Ho2 : only Local [final; temp] s0 s2) by (etrans; [exact Ho | apply only_put; left]);
    assert (Hf2 : files Local s2 !! final = Some (File i c st (writable mode))) by (rewrite files_set_same; apply lookup_insert_eq);
    assert (Ht2 : files Local s2 !! temp = None) by (rewrite files_set_same, lookup_insert_ne, files_next by done; done); generalize dependent s2 end.
  intros s2 Ho2 Hf2 Ht2. apply ends_bind. eapply set_mode_spec; [exact Hf2 | intros e; by apply download_error |].
  intros s3 Ho3 Hf3. assert (Ho4 : only Local [final; temp] s0 s3) by (etrans; [exact Ho2 | eapply only_weaken; [|exact Ho3]; set_solver]).
  assert (Ht3 : files Local s3 !! temp = None) by (rewrite (on_to _ _ _ _ Ho3) by set_solver; done).
  apply ends_check_at; [by apply download_error|]. intros _. apply only_next_r in Ho4. rewrite <- (files_next Local) in Hf3, Ht3.
  destruct (next s3) as [L R t4 d4].
  eapply ends_mono; [apply (replaceLocal_spec final localPath L R t4 d4 (result_of i)); done|].
  intros s' r [HR Hr]. eapply replaced_outcome; [exact Ho4 | by left | done | done | by intros [] | exact Hr | | done].
  intros _ p Hp Hpf. assert (p = temp) as -> by set_solver. done.
Qed.

(** What a download leaves in the end. *)
Definition downloaded (s' : Sys) (r : result xfer_error unit) : Prop :=
  (exists i, outcome Local [final; temp] localPath backup (result_of i) s0 s' (is_ok r)) \/
  (r = Ok tt /\ Force cfg = false /\ same_already Local localPath (size_of c) st s0 /\ only Local [] s0 s').
Lemma downloaded_only s e : only Local [final; temp] s0 s -> downloaded (next s) (Err e).
Proof using Hsuffix. clear Hfollow Hsrc. intros H. left. exists O. by apply download_error. Qed.
Lemma downloaded_nothing s e : only Local [] s0 s -> downloaded (next s) (Err e).
Proof using Hsuffix. clear Hfollow Hsrc. intros H. apply downloaded_only. eapply only_weaken; [|exact H]. set_solver. Qed.
Lemma downloaded_closed s r : downloaded s r -> downloaded (next s) r /\ forall e, downloaded (next s) (Err e).
Proof using Hsuffix.
  clear Hfollow Hsrc. intros [[i H]|(-> & Hf & Hs & Ho)].
  - split; [|intros e]; left; exists i; apply outcome_next; [done | by eapply outcome_fails].
  - split; [right; split_and!; [done | done | done | by apply only_next_r] | intros e; by apply downloaded_nothing].
Qed.

(** The write of the temporary file, and what follows. *)
Lemma write_and_promote s i t m D opened : 0 < ChunkSize cfg -> only Local [temp] s0 s -> files Local s !! temp = Some (File i D t m) -> D `prefix_of` c ->
  ends (writeDownloadTemporaryFile cfg src temp (size_of D) (size_of c) mode ;;;
        check_ctx ;;;
        must "rename to final temporary" (os_Rename temp final) ;;;
        finally_remove final (
          let! f := call Local (fs_stat final) in
          match f with
          | Ok n => if bool_decide (ident_of n = ident_of opened) then ret tt else fail TempReplaced
          | Err _ => fail TempReplaced
          end ;;;
          must "chtimes" (call Local (fs_chtimes final st)) ;;;
          set_mode Local final mode ;;;
          check_ctx ;;;
          replaceLocalFile final localPath)) s downloaded.
Proof using Hfollow Hsrc Hsuffix.
  intros Hc Ho Ht Hp. unfold writeDownloadTemporaryFile. apply ends_bind, ends_close.
  assert (Hw : forall s1, only Local [temp] s0 s1 -> only Local [final; temp] s0 s1) by (intros s1 H1; eapply only_weaken; [|exact H1]; set_solver).
  assert (Herr : forall s1 e, only Local [temp] s0 s1 -> downloaded (next s1) (Err e) /\ forall e, downloaded (next s1) (Err e)).
  { intros s1 e H1. split; intros; apply downloaded_only; auto. }
  apply ends_check_at; [by apply Herr, only_next_r|]. intros _. apply only_next_r in Ho.
  apply ends_bind. unfold fs_chmod. eapply ends_on_file; [by rewrite files_next, Ht | intros e; by apply Herr, only_next_r |].
  match goal with |- ends _ ?s2 _ => assert (Ho2 : only Local [temp] s0 s2) by (etrans; [exact Ho | apply on_open]); assert (Ht2 : files Local s2 !! temp = Some (File i D t (writable mode))) by (rewrite files_set_same; apply lookup_insert_eq); generalize dependent s2 end.
  intros s2 Ho2 Ht2. apply ends_bind. eapply report_all_spec; [exact Ho2|]. intros s3 EL ER Ho3.
  eapply ends_mono; [apply (doDownload_spec cfg src temp i si t (writable mode) st sm c s3 D); [done | constructor; [by rewrite (on_from _ _ _ _ Ho3) | by rewrite EL] | done]|].
  intros s4 r (D4 & [M1 M2] & E4). assert (Ho4 : only Local [temp] s0 s4) by (by etrans).
  destruct r as [[]|e]; [|by apply Herr]. split; [|intros e; by apply Herr].
  apply ends_check_at; [by apply downloaded_only, Hw, only_next_r|]. intros Hgo.
  destruct (E4 eq_refl) as [Hover| ->]; [apply over_next, over_check in Hover; congruence|].
  pose proof (download_names) as (_ & _ & Nt & _).
  apply ends_bind. eapply ends_move; [by rewrite !files_next, M2 | intros e; by apply downloaded_only, Hw; do 2 apply only_next_r |].
  apply only_next_r, only_next_r, Hw in Ho4.
  match goal with |- ends _ ?s5 _ => assert (Ho5 : only Local [final; temp] s0 s5) end.
  { etrans; [exact Ho4|]. constructor; [by intros []| |cbn; lia]. cbn. unfold fs_move.
    apply (same_but_trans _ _ (delete temp (local s4))); [apply same_but_delete; set_solver | apply same_but_insert; set_solver]. }
  eapply ends_mono; [eapply (promote_spec _ i t); [exact Ho5 | rewrite files_set_same; unfold fs_move; apply lookup_insert_eq |
    rewrite files_set_same; unfold fs_move; rewrite lookup_insert_ne by done; apply lookup_delete_eq]|].
  intros s6 r6 H6. left. by exists i.
Qed.

Lemma downloadFile_spec size s : 0 < ChunkSize cfg -> only Local [] s0 s -> files Local s = files Local s0 -> size = size_of c ->
  ends (downloadFile cfg remotePath localPath size mode) s downloaded.
Proof using Hfollow Hsrc Hsuffix.
  intros Hc Ho EL ->. unfold downloadFile.
  assert (ER : forall s1, only Local [] s0 s1 -> files Remote s1 = files Remote s0) by (intros s1 H1; by apply (on_from _ _ _ _ H1)).
  assert (Hk : forall s1 e, only Local [] s0 s1 -> downloaded (next s1) (Err e)) by (intros; by apply downloaded_nothing).
  apply ends_check_at; [by apply Hk|]. intros _. apply only_next_r in Ho.
  apply ends_bind. eapply ends_source; [by rewrite ER | by repeat eexists | by rewrite ER | intros e; by apply Hk |]. apply only_next_r in Ho.
  apply ends_close. apply (ends_mono _ _ downloaded); [|apply downloaded_closed].
  apply ends_bind. eapply ends_stat; [by rewrite ER | intros e; by apply Hk |]. apply only_next_r in Ho.
  cbn beta iota. rewrite Z.eqb_refl. cbn [negb]. apply ends_bind.
  match goal with |- ends _ _ (fun s' r => match r with Ok skip => ends (if skip then _ else ?rest) s' _ | Err _ => _ end) =>
    assert (Hgo : forall s1, only Local [] s0 s1 -> files Local s1 = files Local s0 -> ends rest s1 downloaded) end.
  { intros s1 Ho1 EL1. apply ends_check_at; [by apply Hk|]. intros _. apply only_next_r in Ho1. cbv zeta. apply ends_bind.
    eapply ends_mono; [eapply prepareDownloadFile_spec; by rewrite ER|]. intros s2 r [P1 P2]. rewrite files_next, EL1 in P2.
    assert (Ho2 : only Local [temp] s0 s2) by (etrans; [eapply only_weaken; [|exact Ho1]; set_solver | exact P1]).
    destruct r as [n|e].
    - destruct (P2 n eq_refl) as (i & t & m & D & Ht & -> & HD). apply ends_bind. eapply ends_stat; [exact Ht | |].
      + intros e. apply downloaded_only. eapply only_weaken; [|exact Ho2]. set_solver.
      + apply only_next_r in Ho2. eapply write_and_promote; [done | exact Ho2 | by rewrite files_next, Ht |]. subst D. apply taken_over_prefix.
    - left. exists O. apply only_outcome; [eapply only_weaken; [|exact Ho2]; set_solver|]. apply download_names. }
  destruct (Force cfg) eqn:Ef; [by apply ends_ret, Hgo|].
  apply ends_check_at; [by apply Hk|]. intros _. apply only_next_r in Ho.
  apply ends_skip; [intros e; by apply Hk | by apply Hgo; [apply only_next_r|] |].
  intros Hs. eapply report_all_spec; [apply only_next_r; exact Ho|]. intros s1 _ _ Ho1. right. split_and!; [done | done | | done].
  unfold same_already in *. rewrite !files_next, EL in Hs. done.
Qed.
End Download.

Lemma DownloadFile_settled cfg remotePath localPath src si c st sm mode s : follow (files Remote s) remotePath = Some src -> files Remote s !! src = Some (File si c st sm) -> TempSuffix cfg <> "" -> 0 < ChunkSize cfg ->
  ends (DownloadFile cfg remotePath localPath (size_of c) mode) s (downloaded cfg localPath c st mode s).
Proof.
  intros Hf Hs Hx Hc. apply ends_interruptible.
  - intros e. by apply downloaded_nothing.
  - by apply downloaded_closed.
  - eapply downloadFile_spec; try done. apply only_next.
Qed.

(** * What a transfer leaves *)
Lemma uploaded_exact cfg D c : uploaded cfg D c = c <-> ~ (0 < size_of D < size_of c /\ sequential cfg (size_of D) (size_of c) = true).
Proof.
  unfold uploaded. destruct (Z.ltb_spec 0 (size_of D)), (Z.ltb_spec (size_of D) (size_of c)); cbn [andb]; try (split; [intros _ ?; lia | done]).
  destruct (sequential _ _ _); [|split; [by intros _ [_ ?] | done]]. split; [|intros Hn; by destruct Hn].
  intros E. exfalso. apply (f_equal (@List.length ascii)) in E. rewrite write_at_length, length_skipn in E. unfold size_of in *. lia.
Qed.

(** An upload of a file, however its calls fail and whenever its context ends, leaves the local side as it was, and
    on the remote side touches nothing but the destination, the temporary file and the backup.  The destination is the new
    file or what it was, which may stand at the place of the backup.  An upload that succeeds has put the file there, with the time
    and the mode of the source, and has left no temporary file; or it found a file of that size and time there, and did
    nothing.  The content is that of the source, except that a sequential copy which continues an earlier transfer
    writes the rest over the beginning ([uploaded]): then, and only then, the file is another one. *)
Theorem upload_exact cfg localPath remotePath src si c st sm mode s (Hf : follow (files Local s) localPath = Some src)
  (Hs : files Local s !! src = Some (File si c st sm)) (Hx : TempSuffix cfg <> "") (Hc : 0 < ChunkSize cfg) :
  settled cfg remotePath c st mode s (UploadFile cfg localPath remotePath (size_of c) mode s).1 (UploadFile cfg localPath remotePath (size_of c) mode s).2 /\
  let D := taken_over cfg (files Remote s !! (remotePath +:+ TempSuffix cfg)) c in
  (uploaded cfg D c = c <-> ~ (0 < size_of D < size_of c /\ sequential cfg (size_of D) (size_of c) = true)).
Proof. split; [by eapply UploadFile_settled | apply uploaded_exact]. Qed.

(** A download of a file, however its calls fail and whenever its context ends, leaves the remote side as it was, and
    on the local side touches nothing but the destination, its two temporary files and the backup.  The destination is
    the new file or what it was, which may stand at the place of the backup.  A download that succeeds has put
    exactly the content of the source there, with its time and the mode, whether or not it took over a part, and has left no
    temporary file; or it found a file of that size and time there, and did nothing. *)
Theorem download_exact cfg remotePath localPath src si c st sm mode s (Hf : follow (files Remote s) remotePath = Some src)
  (Hs : files Remote s !! src = Some (File si c st sm)) (Hx : TempSuffix cfg <> "") (Hc : 0 < ChunkSize cfg) :
  downloaded cfg localPath c st mode s (DownloadFile cfg remotePath localPath (size_of c) mode s).1 (DownloadFile cfg remotePath localPath (size_of c) mode s).2.
Proof. by eapply DownloadFile_settled. Qed.
End Transfers.

(** * Runs *)

(** Nothing fails, nothing is cancelled, reads return all there is, and no path is a link. *)
Definition calm : Environment.
Proof.
  refine {| fault := fun _ => false; cancelled := fun _ => false; returned := fun _ => 65536%nat; early_eof := fun _ => false; under_way := fun _ => false;
            schedule := fun _ l => l; follow := fun fs p => match fs !! p with Some (Link _) | None => None | _ => Some p end;
            posix_rename := true; rename_replaces := true; random_name := "5f" |}; try done.
  intros fs p i c t m H. by rewrite H.
Defined.
Definition text (s : string) : bytes := String.list_ascii_of_string s.
(** A transfer that was interrupted after six bytes, continued over one connection at a time. *)
Definition one_thread : TransferConfig := mkConfig 1 32768 true 4 ".xops-tmp" false.
Definition interrupted (temp content : string) (there : Files) : Files := <[temp := File 7 (text content) 0 384]> there.
Definition report : Node := File 1 (text "0123456789") 100 420.

Definition upload_start (remote : Files) : Sys := mkSys {["a" := report]} remote 0 0.
Definition download_start (local : Files) : Sys := mkSys local {["a" := report]} 0 0.

(** An upload that goes on where an interrupted one stopped reports success and leaves a file that is not the source: the
    copy of the rest moves to its place in the source only, and begins at the front of the temporary file.  The same
    continuation of a download is right. *)
Theorem resumed_upload_corrupts :
  let up := @UploadFile calm one_thread "a" "b" 10 420 (upload_start (interrupted "b.xops-tmp" "012345" ∅)) in
  let down := @DownloadFile calm one_thread "a" "b" 10 420 (download_start (interrupted "b.xops-tmp" "012345" ∅)) in
  up.2 = Ok tt /\ content_at (remote up.1) "b" = text "678945" /\ down.2 = Ok tt /\ content_at (local down.1) "b" = text "0123456789".
Proof. vm_compute. done. Qed.

Lemma upload_exact_witness : content_at (remote (@UploadFile calm DefaultConfig "a" "b" 10 420 (upload_start ∅)).1) "b" = text "0123456789".
Proof.
  assert (@follow calm (files Local (upload_start ∅)) "a" = Some "a") as Hf by (vm_compute; reflexivity).
  assert (files Local (upload_start ∅) !! "a" = Some (File 1 (text "0123456789") 100 420)) as Hs by (vm_compute; reflexivity).
  destruct (@upload_exact calm DefaultConfig "a" "b" "a" 1 (text "0123456789") 100 420 420 (upload_start ∅) Hf Hs) as [[[i H]|(_ & _ & (n & Hn & _) & _)] _];
    [discriminate | reflexivity | | vm_compute in Hn; discriminate Hn].
  destruct (oc_dest _ _ _ _ _ _ _ _ H) as [E|[E _]]; [|vm_compute in E; discriminate E].
  unfold content_at. cbn [files] in E. change (size_of (text "0123456789")) with 10 in E. rewrite E. reflexivity.
Defined.
Lemma download_exact_witness :
  content_at (local (@DownloadFile calm one_thread "a" "b" 10 420 (download_start (interrupted "b.xops-tmp" "012345" ∅))).1) "b" = text "0123456789".
Proof.
  set (s := download_start _). assert (@follow calm (files Remote s) "a" = Some "a") as Hf by (vm_compute; reflexivity).
  assert (files Remote s !! "a" = Some (File 1 (text "0123456789") 100 420)) as Hs by (vm_compute; reflexivity).
  destruct (@download_exact calm one_thread "a" "b" "a" 1 (text "0123456789") 100 420 420 s Hf Hs) as [[i H]|(_ & _ & (n & Hn & _) & _)];
    [discriminate | reflexivity | | vm_compute in Hn; discriminate Hn].
  destruct (oc_dest _ _ _ _ _ _ _ _ H) as [E|[E _]]; [|vm_compute in E; discriminate E].
  unfold content_at. cbn [files] in E. change (size_of (text "0123456789")) with 10 in E. rewrite E. reflexivity.
Defined.
