(* ===== verification/StepErrors.v ===== *)
(** Go error values as the playbook runner inspects them (pkg/playbook/runner.go):
    wrapping, joining, [errors.Is] and [errors.As], and the classification of the
    error of a remote session into exit, cancellation, cleanup, I/O and other
    failures, on which retries and the idempotency checks depend. *)
From S2P Require Import Prelude GoStrings.
Open Scope Z_scope.

(** * Error trees *)

(** The concrete types and sentinels the code asks about; every other error is
    [KPlain].  [KExit] is the exit error of the SSH library, with what its
    [ExitStatus] and [Signal] return. *)
Inductive kind :=
  | KPlain
  | KCanceled
  | KDeadlineExceeded
  | KClosedPipe
  | KUnexpectedEOF
  | KExecutionValidation
  | KExit (status : Z) (signal : string)
  | KCommandExit (code : option Z) (signal : string).
#[export] Instance kind_eq_dec : EqDecision kind.
Proof. solve_decision. Defined.

(** A leaf with the text of its [Error] method; [fmt.Errorf] with one [%w], whose
    text is put around that of the wrapped error; [errors.Join] of errors that are
    not nil, and [fmt.Errorf] with several [%w] likewise. *)
Inductive go_error :=
  | Leaf (k : kind) (text : string)
  | Wrap (before after : string) (e : go_error)
  | Join (l : list go_error).

Section ErrorInd.
Variable P : go_error -> Prop.
Hypothesis leaf_case : forall k t, P (Leaf k t).
Hypothesis wrap_case : forall b a e, P e -> P (Wrap b a e).
Hypothesis join_case : forall l, Forall P l -> P (Join l).
Fixpoint go_error_induction (e : go_error) : P e :=
  match e with
  | Leaf k t => leaf_case k t
  | Wrap b a e => wrap_case b a e (go_error_induction e)
  | Join l => join_case l ((fix go l := match l return Forall P l with
                                        | [] => Forall_nil_2 P
                                        | x :: l => Forall_cons_2 P x l (go_error_induction x) (go l)
                                        end) l)
  end.
End ErrorInd.

(** [err.Error()]; the texts of a join are separated by newlines. *)
Fixpoint error_text (e : go_error) : string :=
  match e with
  | Leaf _ text => text
  | Wrap before after e => before +:+ error_text e +:+ after
  | Join l => join (str1 newline) (map error_text l)
  end.

Fixpoint kinds (e : go_error) : list kind :=
  match e with
  | Leaf k _ => [k]
  | Wrap _ _ e => kinds e
  | Join l => concat (map kinds l)
  end.
(** [errors.Is(err, sentinel)]. *)
Definition errors_is (k : kind) (e : go_error) : bool := slice_contains (kinds e) k.
Definition as_exit (k : kind) : option (Z * string) := match k with KExit s g => Some (s, g) | _ => None end.
Definition as_command_exit (k : kind) : option (option Z * string) := match k with KCommandExit c g => Some (c, g) | _ => None end.
(** [errors.As(err, &exitErr)]: the first of its type in depth-first order. *)
Definition errors_as_exit (e : go_error) : option (Z * string) := head (omap as_exit (kinds e)).
Definition errors_as_command_exit (e : go_error) : option (option Z * string) := head (omap as_command_exit (kinds e)).

(** [errors.Join] of an error that may be nil and a next one. *)
Definition join_next (acc : option go_error) (e : go_error) : option go_error :=
  Some (Join (option_list acc ++ [e])).
Definition errors_join (l : list (option go_error)) : option go_error :=
  match omap id l with [] => None | es => Some (Join es) end.

(** * Unwrapping *)
Fixpoint hasJoinedDescendants (e : go_error) : bool :=
  match e with
  | Join _ => true
  | Wrap _ _ e => hasJoinedDescendants e
  | Leaf _ _ => false
  end.

Fixpoint unwrapJoinedErrors (e : go_error) : list go_error :=
  match e with
  | Join l => concat (map unwrapJoinedErrors l)
  | Wrap _ _ child => if hasJoinedDescendants child then unwrapJoinedErrors child else [e]
  | Leaf _ _ => [e]
  end.

Definition extractExecutionLayerError (e : option go_error) : option go_error :=
  match e with
  | None => None
  | Some e =>
      match filter (fun leaf => errors_as_command_exit leaf = None /\ errors_as_exit leaf = None) (unwrapJoinedErrors e) with
      | [] => None
      | l => Some (Join l)
      end
  end.

(** * Classification *)
Definition cleanup_words : list string := ["close "; "closed"; "close ssh"; "shutdown"; "interrupt"; "cleanup"].
Definition io_words : list string :=
  ["stdin"; "stdout"; "stderr"; "output copy"; "output write"; "output failed"; "flush"; "broken pipe"; "duplicate ssh command"].
Definition mentions (words : list string) (e : go_error) : bool :=
  existsb (contains (to_lower (error_text e))) words.
Definition isCleanupError (e : go_error) : bool := mentions cleanup_words e.
Definition isIOError (e : go_error) : bool :=
  errors_is KClosedPipe e || errors_is KUnexpectedEOF e || mentions io_words e.
Definition is_canceled (e : go_error) : bool := errors_is KCanceled e || errors_is KDeadlineExceeded e.

(** The named results of [classifySessionError]. *)
Record classified := mkClass {
  c_exitCode : option Z;
  c_signal : string;
  c_hasExit : bool;
  c_cleanup : option go_error;
  c_io : option go_error;
  c_other : option go_error;
  c_canceled : bool
}.
Definition unclassified : classified := mkClass None "" false None None None false.

(** The body of the loop of [classifySessionError]. *)
Definition classify_leaf (c : classified) (leaf : go_error) : classified :=
  match errors_as_exit leaf with
  | Some (status, s) =>
      if negb (str_eq s "") then mkClass None s true (c_cleanup c) (c_io c) (c_other c) (c_canceled c)
      else mkClass (Some (status mod 2^32)) (c_signal c) true (c_cleanup c) (c_io c) (c_other c) (c_canceled c)
  | None =>
      if is_canceled leaf
      then mkClass (c_exitCode c) (c_signal c) (c_hasExit c) (c_cleanup c) (c_io c) (join_next (c_other c) leaf) true
      else if isCleanupError leaf
      then mkClass (c_exitCode c) (c_signal c) (c_hasExit c) (join_next (c_cleanup c) leaf) (c_io c) (c_other c) (c_canceled c)
      else if isIOError leaf
      then mkClass (c_exitCode c) (c_signal c) (c_hasExit c) (c_cleanup c) (join_next (c_io c) leaf) (c_other c) (c_canceled c)
      else mkClass (c_exitCode c) (c_signal c) (c_hasExit c) (c_cleanup c) (c_io c) (join_next (c_other c) leaf) (c_canceled c)
  end.

Definition classifySessionError (e : option go_error) : classified :=
  match e with
  | None => unclassified
  | Some e => foldl classify_leaf unclassified (unwrapJoinedErrors e)
  end.

Definition parseExitError (e : option go_error) : option Z * string * bool :=
  let c := classifySessionError e in (c_exitCode c, c_signal c, c_hasExit c).

(** * Results of steps (report.go) *)
Definition StatusOK : string := "ok".
Definition StatusChanged : string := "changed".
Definition StatusSkipped : string := "skipped".
Definition StatusFailed : string := "failed".

Definition ExecutionNotStarted : string := "not_started".
Definition ExecutionCompleted : string := "completed".
Definition ExecutionUnknown : string := "unknown".

(** [Duration], the measured time, is left out. *)
Record StepResult := mkStep {
  r_name : string;
  r_status : string;
  r_outcome : string;
  r_exit : option Z;
  r_signal : string;
  r_digest : string;
  r_output : string;
  r_truncated : bool;
  r_err : option go_error;
  r_cleanup : option go_error;
  r_io : option go_error;
  r_retryable : bool
}.
(** The zero value of Go. *)
Definition zero_result : StepResult := mkStep "" "" "" None "" "" "" false None None None false.
Definition failed_with (outcome output : string) (e : go_error) : StepResult :=
  mkStep "" StatusFailed outcome None "" "" output false (Some e) None None false.
Definition not_started (e : go_error) : StepResult := failed_with ExecutionNotStarted "" e.
Definition completed (status output : string) (code : option Z) : StepResult :=
  mkStep "" status ExecutionCompleted code "" "" output false None None None false.
Definition with_name (name : string) (r : StepResult) : StepResult :=
  mkStep name (r_status r) (r_outcome r) (r_exit r) (r_signal r) (r_digest r) (r_output r) (r_truncated r)
    (r_err r) (r_cleanup r) (r_io r) (r_retryable r).
Definition with_err (e : option go_error) (r : StepResult) : StepResult :=
  mkStep (r_name r) (r_status r) (r_outcome r) (r_exit r) (r_signal r) (r_digest r) (r_output r) (r_truncated r)
    e (r_cleanup r) (r_io r) (r_retryable r).
Definition is_failed (r : StepResult) : bool := str_eq (r_status r) StatusFailed.

(** The condition under which [classifySessionResult] allows a retry. *)
Definition class_retryable (outcome : string) (c : classified) : bool :=
  str_eq outcome ExecutionCompleted && negb (c_canceled c) && bool_decide (c_cleanup c = None) &&
  bool_decide (c_io c = None) && bool_decide (c_other c = None) && str_eq (c_signal c) "" &&
  match c_exitCode c with Some code => negb (code =? 0) | None => false end.
Definition class_outcome (c : classified) : string :=
  if c_canceled c then ExecutionUnknown
  else if c_hasExit c && bool_decide (c_other c = None) then ExecutionCompleted else ExecutionUnknown.
Definition classifySessionResult (e : go_error) (out : string) : StepResult :=
  let c := classifySessionError (Some e) in
  mkStep "" StatusFailed (class_outcome c) (c_exitCode c) (c_signal c) "" out false (Some e) (c_cleanup c) (c_io c)
    (class_retryable (class_outcome c) c).

Definition failStepResult (r : StepResult) (e : go_error) : StepResult :=
  mkStep (r_name r) StatusFailed (r_outcome r) (r_exit r) (r_signal r) (r_digest r) (r_output r) (r_truncated r)
    (join_next (r_err r) e) (join_next (r_cleanup r) e) (r_io r) false.

(** * Unwrapping loses nothing *)
Lemma kinds_Join l : kinds (Join l) = concat (map kinds l).
Proof. done. Qed.
Lemma unwrap_Join l : unwrapJoinedErrors (Join l) = concat (map unwrapJoinedErrors l).
Proof. done. Qed.

Lemma unwrap_joinfree e : hasJoinedDescendants e = false -> unwrapJoinedErrors e = [e].
Proof. destruct e; simpl; [done | | done]. by intros ->. Qed.

Lemma unwrap_leaves e : Forall (fun leaf => hasJoinedDescendants leaf = false) (unwrapJoinedErrors e).
Proof.
  induction e as [k t | b a e IH | l IH] using go_error_induction; simpl.
  - by repeat constructor.
  - destruct (hasJoinedDescendants e) eqn:E; [done|]. by repeat constructor.
  - induction IH; simpl; [constructor | by apply Forall_app].
Qed.

Lemma unwrap_kinds e : concat (map kinds (unwrapJoinedErrors e)) = kinds e.
Proof.
  induction e as [k t | b a e IH | l IH] using go_error_induction; simpl; [done | |].
  - destruct (hasJoinedDescendants e); simpl; [done | by rewrite app_nil_r].
  - induction IH as [|x l Hx _ IHl]; simpl; [done|].
    by rewrite map_app, concat_app, Hx, IHl.
Qed.

(** The joins the classification builds. *)
Definition parts (o : option go_error) : list go_error := default [] (unwrapJoinedErrors <$> o).
Lemma parts_join_next acc e : hasJoinedDescendants e = false -> parts (join_next acc e) = parts acc ++ [e].
Proof.
  intros H. change (parts (join_next acc e)) with (unwrapJoinedErrors (Join (option_list acc ++ [e]))).
  rewrite unwrap_Join, map_app, concat_app. f_equal.
  - destruct acc; [apply app_nil_r | done].
  - etrans; [apply app_nil_r | by apply unwrap_joinfree].
Qed.

(** What the loop of [classifySessionError] takes a leaf for. *)
Inductive verdict := VExit (status : Z) (signal : string) | VCanceled | VCleanup | VIO | VOther.
#[export] Instance verdict_eq_dec : EqDecision verdict.
Proof. solve_decision. Defined.
Definition verdict_of (leaf : go_error) : verdict :=
  match errors_as_exit leaf with
  | Some (status, s) => VExit status s
  | None => if is_canceled leaf then VCanceled else if isCleanupError leaf then VCleanup
            else if isIOError leaf then VIO else VOther
  end.

Lemma classify_leaf_verdict c leaf :
  classify_leaf c leaf =
  match verdict_of leaf with
  | VExit status s =>
      if negb (str_eq s "") then mkClass None s true (c_cleanup c) (c_io c) (c_other c) (c_canceled c)
      else mkClass (Some (status mod 2^32)) (c_signal c) true (c_cleanup c) (c_io c) (c_other c) (c_canceled c)
  | VCanceled => mkClass (c_exitCode c) (c_signal c) (c_hasExit c) (c_cleanup c) (c_io c) (join_next (c_other c) leaf) true
  | VCleanup => mkClass (c_exitCode c) (c_signal c) (c_hasExit c) (join_next (c_cleanup c) leaf) (c_io c) (c_other c) (c_canceled c)
  | VIO => mkClass (c_exitCode c) (c_signal c) (c_hasExit c) (c_cleanup c) (join_next (c_io c) leaf) (c_other c) (c_canceled c)
  | VOther => mkClass (c_exitCode c) (c_signal c) (c_hasExit c) (c_cleanup c) (c_io c) (join_next (c_other c) leaf) (c_canceled c)
  end.
Proof. unfold classify_leaf, verdict_of. by repeat case_match; simplify_eq. Qed.

Definition is_exit (leaf : go_error) : bool := match verdict_of leaf with VExit _ _ => true | _ => false end.
Definition in_other (leaf : go_error) : bool := match verdict_of leaf with VCanceled | VOther => true | _ => false end.

Lemma classify_all l : Forall (fun leaf => hasJoinedDescendants leaf = false) l ->
  let c := foldl classify_leaf unclassified l in
  c_hasExit c = existsb is_exit l /\ c_canceled c = existsb (fun x => bool_decide (verdict_of x = VCanceled)) l /\
  parts (c_cleanup c) = filter (fun x => verdict_of x = VCleanup) l /\ parts (c_io c) = filter (fun x => verdict_of x = VIO) l /\
  parts (c_other c) = filter in_other l.
Proof.
  induction l as [|x l IH] using rev_ind; [done|].
  intros [Hl Hx]%Forall_app. apply Forall_inv in Hx. specialize (IH Hl). simpl in IH.
  destruct IH as (H1 & H2 & H3 & H4 & H5). rewrite foldl_app. simpl foldl. rewrite classify_leaf_verdict.
  rewrite !existsb_app, !filter_app, <- H1, <- H2, <- H3, <- H4, <- H5.
  rewrite !filter_cons, !filter_nil. simpl existsb. unfold is_exit, in_other.
  destruct (verdict_of x) eqn:E; [destruct (negb (str_eq signal ""))|..];
    cbn [c_hasExit c_canceled c_cleanup c_io c_other orb];
    rewrite ?orb_false_r, ?orb_true_r; try rewrite (parts_join_next _ x Hx);
    repeat (rewrite decide_False by done || rewrite decide_True by done);
    rewrite ?(bool_decide_eq_false_2 (_ = VCanceled)), ?(bool_decide_eq_true_2 (_ = VCanceled)) by done;
    rewrite ?app_nil_r, ?orb_false_r, ?orb_true_r; done.
Qed.

(** the error of a session is sorted without losing any part of it: every part that
    is not a join is taken for an exit, or kept, in order, among the cleanup errors, the
    I/O errors or the others, where the cancellations are; and no part has a join
    below it that would hide one from the classification. *)
Theorem classification_partitions e :
  let leaves := unwrapJoinedErrors e in
  let c := classifySessionError (Some e) in
  Forall (fun leaf => hasJoinedDescendants leaf = false) leaves /\ concat (map kinds leaves) = kinds e /\
  parts (c_cleanup c) = filter (fun x => verdict_of x = VCleanup) leaves /\
  parts (c_io c) = filter (fun x => verdict_of x = VIO) leaves /\
  parts (c_other c) = filter (fun x => verdict_of x = VCanceled \/ verdict_of x = VOther) leaves /\
  c_hasExit c = existsb is_exit leaves.
Proof.
  pose proof (unwrap_leaves e) as Hl. destruct (classify_all _ Hl) as (H1 & _ & H3 & H4 & H5).
  split; [done|]. split; [apply unwrap_kinds|]. repeat (split; [done|]). split; [|done].
  etrans; [exact H5|]. apply list_filter_iff. intros x. unfold in_other.
  destruct (verdict_of x); simpl; naive_solver.
Qed.

(** ** Retries *)
Definition clean_class (c : classified) : bool :=
  negb (c_canceled c) && bool_decide (c_cleanup c = None) && bool_decide (c_io c = None) &&
  bool_decide (c_other c = None) && str_eq (c_signal c) "".

Definition exits (l : list go_error) (statuses : list Z) : Prop :=
  map verdict_of l = map (fun s => VExit s "") statuses.

Lemma exits_snoc l x statuses : exits (l ++ [x]) statuses ->
  exists statuses' s, statuses = statuses' ++ [s] /\ exits l statuses' /\ verdict_of x = VExit s "".
Proof.
  unfold exits. destruct statuses as [|s ss _] using rev_ind; rewrite map_app; intros H.
  - by destruct (map verdict_of l).
  - rewrite map_app in H. apply app_inj_tail in H as [? ?]. eauto.
Qed.

Lemma classify_clean l :
  clean_class (foldl classify_leaf unclassified l) = true <-> exists statuses, exits l statuses.
Proof.
  induction l as [|x l IH] using rev_ind.
  { split; [intros _; by exists [] | done]. }
  rewrite foldl_app. simpl foldl. rewrite classify_leaf_verdict. set (c := foldl _ _ _) in *. split.
  - intros H. assert (exists s, verdict_of x = VExit s "" /\ clean_class c = true) as (s & E & [ss Hss]%IH).
    { destruct (verdict_of x) as [status s| | | |]; [destruct (str_eq s "") eqn:Es; simpl in H|..];
        [apply str_eq_spec in Es as ->; by exists status|..];
        unfold clean_class in H; simpl in H; rewrite ?Es, ?andb_false_r in H; done. }
    exists (ss ++ [s]). unfold exits. rewrite !map_app, Hss. simpl. by rewrite E.
  - intros (ss & (ss' & s & -> & H' & E)%exits_snoc). rewrite E. simpl.
    change (clean_class c = true). apply IH. eauto.
Qed.

Lemma classify_exits l statuses : exits l statuses ->
  c_exitCode (foldl classify_leaf unclassified l) = (fun s => s mod 2^32) <$> last statuses /\
  c_hasExit (foldl classify_leaf unclassified l) = bool_decide (statuses <> []).
Proof.
  revert statuses. induction l as [|x l IH] using rev_ind; intros ss H.
  { by destruct ss. }
  apply exits_snoc in H as (ss' & s & -> & H' & E).
  rewrite foldl_app. simpl foldl. rewrite classify_leaf_verdict, E, last_snoc. simpl. split; [done|].
  symmetry. apply bool_decide_eq_true_2. by destruct ss'.
Qed.

(** a failed session may be retried exactly when every part of its error is
    the confirmation of an exit without a signal, there is one, and the last one's
    status, as the 32-bit value the report holds, is not zero.  So a cancellation, a lost
    connection, a local I/O or cleanup error, or a signal anywhere in the error forbids
    running the command a second time. *)
Theorem retry_only_confirmed_exit e out :
  r_retryable (classifySessionResult e out) = true <->
  exists statuses status, exits (unwrapJoinedErrors e) statuses /\ last statuses = Some status /\ status mod 2^32 <> 0.
Proof.
  unfold classifySessionResult. simpl. unfold classifySessionError. set (l := unwrapJoinedErrors e).
  assert (Hr : forall c, class_retryable (class_outcome c) c =
    clean_class c && c_hasExit c && match c_exitCode c with Some code => negb (code =? 0) | None => false end).
  { intros c. unfold class_retryable, class_outcome, clean_class.
    destruct (c_canceled c), (c_hasExit c), (bool_decide (c_other c = None)); simpl;
      by rewrite ?andb_false_r, ?andb_true_r. }
  rewrite Hr, !andb_true_iff, classify_clean. split.
  - intros [[(ss & Hss) Hh] Hc]. pose proof (classify_exits _ _ Hss) as [Hce _].
    rewrite Hce in Hc. destruct (last ss) as [s|] eqn:E; [|done]. simpl in Hc.
    exists ss, s. split; [done|]. split; [done|]. by apply negb_true_iff, Z.eqb_neq in Hc.
  - intros (ss & s & Hss & Hl & Hs). pose proof (classify_exits _ _ Hss) as [Hce ->].
    rewrite Hce, Hl. simpl. split; [split; [eauto|] | by apply negb_true_iff, Z.eqb_neq].
    apply bool_decide_eq_true_2. by intros ->.
Qed.
