(* ===== verification/Playbook.v ===== *)
(** Playbooks (pkg/playbook: types.go, loader.go and the target resolution,
    script loading and configuration snapshot of engine.go): the data of a playbook,
    where its file is found, the rendering of its variables, its validation, and
    the choice of its target nodes through the interface of the configuration. *)
From S2P Require Import Prelude GoStrings GoPath Exec StepErrors.
Open Scope Z_scope.

(** * Data (types.go) *)
Record Targets := mkTargets { Tags : list string; Nodes : list string; Hosts : list string }.
Definition OnErrorContinue : string := "continue".
Definition OnErrorStop : string := "stop".
Definition OnErrorAbortAll : string := "abort_all".

(** [Timeout] in nanoseconds. *)
Record Settings := mkSettings {
  Concurrency : Z;
  sSudo : bool;
  OnError : string;
  sTimeout : Z;
  sExecution : option ExecutionConfig
}.
Record CopySpec := mkCopy { cSrc : string; cDest : string; cMode : string }.
Record EnsureSpec := mkEnsure { eCheck : string; eAction : string }.
Record Step := mkStepSpec {
  stName : string;
  Shell : string;
  Script : string;
  Copy : option CopySpec;
  Ensure : option EnsureSpec;
  Template : option CopySpec;
  stSudo : option bool;
  stExecution : option ExecutionConfig;
  Retries : Z;
  RetryDelay : Z;
  IgnoreError : bool
}.
Record Playbook := mkPlaybook {
  pbName : string;
  pbTargets : Targets;
  pbSettings : Settings;
  Vars : gmap string string;
  Steps : list Step
}.

(** * Finding the file ([resolvePath]) *)
Definition first_existing (exists_file : string -> bool) (candidates : list string) : option string :=
  find exists_file candidates.
(** [home] is the user's home directory, [None] when it is unknown. *)
Definition resolvePath (exists_file : string -> bool) (home : option string) (path : string) : option string :=
  match first_existing exists_file [path; path +:+ ".yaml"; path +:+ ".yml"] with
  | Some found => Some found
  | None =>
      match home with
      | None => None
      | Some home =>
          let base := path_join (path_join (path_join home ".xops") "playbooks") path in
          first_existing exists_file [base; base +:+ ".yaml"; base +:+ ".yml"]
      end
  end.

(** * Validation (loader.go) *)
Inductive step_error :=
  | EStepName | ENoType | EManyTypes | ECopyFields | EEnsureFields | ETemplateFields | ERetries
  | EStepExecution (e : exec_error) | EEffectiveExecution (e : exec_error).
Inductive playbook_error :=
  | EStepsEmpty | ETargetsEmpty | ESettingsExecution (e : exec_error)
  | EStep (i : nat) (name : string) (e : step_error) | EOnError.

Definition map_err {E E' A} (f : E -> E') (m : result E A) : result E' A :=
  match m with Ok a => Ok a | Err e => Err (f e) end.

Definition hasAny (t : Targets) : bool :=
  (0 <? length (Tags t))%nat || (0 <? length (Nodes t))%nat || (0 <? length (Hosts t))%nat.

Definition is_set {A} (o : option A) : bool := match o with Some _ => true | None => false end.
Definition countStepTypes (s : Step) : nat :=
  Nat.b2n (negb (str_eq (Shell s) "")) + Nat.b2n (negb (str_eq (Script s) "")) + Nat.b2n (is_set (Copy s)) +
  Nat.b2n (is_set (Ensure s)) + Nat.b2n (is_set (Template s)).

Definition copy_lacks (c : option CopySpec) : bool :=
  match c with Some c => str_eq (cSrc c) "" || str_eq (cDest c) "" | None => false end.
Definition validateStepSpec (s : Step) : result step_error unit :=
  reject copy_lacks (Copy s) with ECopyFields;;
  reject match Ensure s with Some e => str_eq (eCheck e) "" || str_eq (eAction e) "" | None => false end with EEnsureFields;;
  reject_if (copy_lacks (Template s)) ETemplateFields.

Definition step_validate (parentExec : option ExecutionConfig) (s : Step) : result step_error unit :=
  reject str_eq (stName s) "" with EStepName;;
  reject (countStepTypes s =? 0)%nat with ENoType;;
  reject (1 <? countStepTypes s)%nat with EManyTypes;;
  try _ := validateStepSpec s;;
  reject Retries s <? 0 with ERetries;;
  try _ := map_err EStepExecution (validate (stExecution s));;
  try _ := map_err EEffectiveExecution (ResolveExecution (stExecution s) parentExec);;
  Ok tt.

Fixpoint validate_steps (parentExec : option ExecutionConfig) (i : nat) (l : list Step) : result playbook_error unit :=
  match l with
  | [] => Ok tt
  | s :: l => try _ := map_err (EStep i (stName s)) (step_validate parentExec s);; validate_steps parentExec (S i) l
  end.

Definition Validate (p : Playbook) : result playbook_error unit :=
  reject (length (Steps p) =? 0)%nat with EStepsEmpty;;
  reject negb (hasAny (pbTargets p)) with ETargetsEmpty;;
  try _ := map_err ESettingsExecution (validate (sExecution (pbSettings p)));;
  try _ := validate_steps (sExecution (pbSettings p)) 0 (Steps p);;
  reject_if (negb (one_of (OnError (pbSettings p)) [""; OnErrorStop; OnErrorContinue; OnErrorAbortAll])) EOnError.

(** * Variables ([renderVars]) *)
Section Render.
(** Parsing and executing a text as a template of the standard library, with
    [missingkey=error], on a map of variables. *)
Variable template : gmap string string -> string -> result go_error string.

Definition render (vars : gmap string string) (s : string) : result go_error string :=
  if negb (contains s "{{") then Ok s else template vars s.

Definition wrap_err (field : string) (m : result go_error string) : result go_error string :=
  map_err (Wrap (field +:+ ": ") "") m.
Definition render_copy (vars : gmap string string) (field : string) (c : option CopySpec) : result go_error (option CopySpec) :=
  match c with
  | None => Ok None
  | Some c =>
      try src := wrap_err (field +:+ ".src") (render vars (cSrc c));;
      try dest := wrap_err (field +:+ ".dest") (render vars (cDest c));;
      Ok (Some (mkCopy src dest (cMode c)))
  end.
Definition render_ensure (vars : gmap string string) (e : option EnsureSpec) : result go_error (option EnsureSpec) :=
  match e with
  | None => Ok None
  | Some e =>
      try check := wrap_err "ensure.check" (render vars (eCheck e));;
      try action := wrap_err "ensure.action" (render vars (eAction e));;
      Ok (Some (mkEnsure check action))
  end.

Definition renderStep (vars : gmap string string) (s : Step) : result go_error Step :=
  try shell := wrap_err "shell" (render vars (Shell s));;
  try script := wrap_err "script" (render vars (Script s));;
  try copy := render_copy vars "copy" (Copy s);;
  try ensure := render_ensure vars (Ensure s);;
  try template := render_copy vars "template" (Template s);;
  Ok (mkStepSpec (stName s) shell script copy ensure template (stSudo s) (stExecution s) (Retries s) (RetryDelay s) (IgnoreError s)).

Fixpoint render_steps (vars : gmap string string) (l : list Step) : result go_error (list Step) :=
  match l with
  | [] => Ok []
  | s :: l => try s' := renderStep vars s;; try l' := render_steps vars l;; Ok (s' :: l')
  end.

Definition renderVars (extraVars : gmap string string) (p : Playbook) : result go_error Playbook :=
  let vars := extraVars ∪ Vars p in
  try steps := render_steps vars (Steps p);;
  Ok (mkPlaybook (pbName p) (pbTargets p) (pbSettings p) vars steps).

(** [Load] behind the parser of the file; [parsed] is what the YAML library made of it. *)
Inductive load_error := ERender (e : go_error) | EInvalid (e : playbook_error).
Definition load_parsed (extraVars : gmap string string) (parsed : Playbook) : result load_error Playbook :=
  try pb := map_err ERender (renderVars extraVars parsed);;
  try _ := map_err EInvalid (Validate pb);;
  Ok pb.
End Render.

(** * The configuration as the engine uses it (config.ConfigProvider) *)
(** Of a node the engine uses the execution settings, of a host its address.
    [nodes_by_tag] are the keys of the map of [GetNodesByTag] in the order in which
    Go happens to enumerate it. *)
Class Provider := {
  nodes_by_tag : string -> list string;
  resolve_selector : string -> result go_error string;
  resolve_node : string -> result go_error (option ExecutionConfig * string);
  get_node : string -> option (option ExecutionConfig);
  snapshot_execution : option (option ExecutionConfig * list (string * option ExecutionConfig))
}.

(** Events of [resolveTargets]. *)
Inductive target_error := EResolveTarget (name : string) (e : go_error) | ETargetNotFound (name : string).

Section Engine.
Context {provider : Provider}.

(** [addNode]; the set of the seen is the set of the chosen. *)
Definition addNode (id : string) (nodeIDs : list string) : list string :=
  if bool_decide (id ∈ nodeIDs) then nodeIDs else nodeIDs ++ [id].
Definition add_tag (nodeIDs : list string) (tag : string) : list string :=
  foldl (fun acc id => addNode id acc) nodeIDs (nodes_by_tag tag).
Fixpoint add_selectors (names : list string) (nodeIDs : list string) : result target_error (list string) :=
  match names with
  | [] => Ok nodeIDs
  | name :: names =>
      match resolve_selector name with
      | Err e => Err (EResolveTarget name e)
      | Ok id => reject str_eq id "" with ETargetNotFound name;; add_selectors names (addNode id nodeIDs)
      end
  end.
Definition resolveTargets (t : Targets) : result target_error (list string) :=
  let byTag := foldl add_tag [] (Tags t) in
  try byName := add_selectors (Nodes t) byTag;;
  add_selectors (Hosts t) byName.
(** The tags [OnTagEmpty] is called with. *)
Definition empty_tags (t : Targets) : list string := filter (fun tag => nodes_by_tag tag = []) (Tags t).

(** [preloadScripts]: the size and the contents of a file, when they can be read. *)
Inductive script_error := EStat (path : string) (e : go_error) | EScriptSize (path : string) | ERead (path : string) (e : go_error).
Section Scripts.
Variable stat : string -> result go_error Z.
Variable read : string -> result go_error string.
Fixpoint preload (steps : list Step) (fresh : gmap string string) : result script_error (gmap string string) :=
  match steps with
  | [] => Ok fresh
  | s :: steps =>
      if negb (str_eq (Script s) "") && negb (is_set (fresh !! Script s)) then
        match stat (Script s) with
        | Err e => Err (EStat (Script s) e)
        | Ok size =>
            reject MaxCommandInputBytes <? size with EScriptSize (Script s);;
            match read (Script s) with
            | Err e => Err (ERead (Script s) e)
            | Ok data => preload steps (<[Script s := data]> fresh)
            end
        end
      else preload steps fresh
  end.
Definition preloadScripts (p : Playbook) : result script_error (gmap string string) := preload (Steps p) ∅.
End Scripts.

(** [snapshotExecution]: [globalExecCaptured], [frozenGlobalExec], [frozenNodeExec]. *)
Record frozen := mkFrozen { f_global : option ExecutionConfig; f_nodes : option (gmap string (option ExecutionConfig)) }.
Definition snapshotExecution : frozen :=
  match snapshot_execution with
  | None => mkFrozen None None
  | Some (global, nodes) => mkFrozen global (Some (list_to_map ((fun p => (p.1, exec_clone p.2)) <$> nodes)))
  end.
(** The loop of [Run] that adds the targets missing in the snapshot. *)
Definition freeze_target (f : gmap string (option ExecutionConfig)) (id : string) : gmap string (option ExecutionConfig) :=
  match f !! id with
  | Some _ => f
  | None => match get_node id with Some e => <[id := exec_clone e]> f | None => f end
  end.
Definition freeze_targets (nodeIDs : list string) (f : frozen) : frozen :=
  mkFrozen (f_global f) ((fun m => foldl freeze_target m nodeIDs) <$> f_nodes f).
Definition nodeExecution (f : frozen) (nodeID : string) (node : option ExecutionConfig) : option ExecutionConfig :=
  match f_nodes f with
  | Some m => match m !! nodeID with Some e => exec_clone e | None => exec_clone node end
  | None => exec_clone node
  end.
End Engine.

(** * Lemmas *)
Lemma map_err_ok {E E' A} (f : E -> E') (m : result E A) a : map_err f m = Ok a <-> m = Ok a.
Proof. destruct m; simpl; split; congruence. Qed.

(** ** What is accepted *)
Inductive action := AShell (cmd : string) | AScript (path : string) | ACopy (c : CopySpec) | AEnsure (e : EnsureSpec) | ATemplate (c : CopySpec).
(** The actions a step asks for, in the order in which they are tried. *)
Definition actions (s : Step) : list action :=
  (if str_eq (Shell s) "" then [] else [AShell (Shell s)]) ++
  (if str_eq (Script s) "" then [] else [AScript (Script s)]) ++
  option_list (ACopy <$> Copy s) ++ option_list (AEnsure <$> Ensure s) ++ option_list (ATemplate <$> Template s).
Definition complete (a : action) : Prop :=
  match a with
  | AShell c | AScript c => c <> ""
  | ACopy c | ATemplate c => cSrc c <> "" /\ cDest c <> ""
  | AEnsure e => eCheck e <> "" /\ eAction e <> ""
  end.
Record valid_step (parent : option ExecutionConfig) (s : Step) : Prop := {
  vs_name : stName s <> "";
  vs_action : exists a, actions s = [a] /\ complete a;
  vs_retries : 0 <= Retries s;
  vs_execution : validate (stExecution s) = Ok tt;
  vs_effective : is_ok (ResolveExecution (stExecution s) parent) = true
}.

Lemma count_actions s : countStepTypes s = length (actions s).
Proof.
  unfold countStepTypes, actions. rewrite !length_app.
  destruct (str_eq (Shell s) ""), (str_eq (Script s) ""), (Copy s), (Ensure s), (Template s); done.
Qed.

Lemma copy_lacks_false c : copy_lacks c = false <-> forall x, c = Some x -> cSrc x <> "" /\ cDest x <> "".
Proof.
  destruct c as [c|]; simpl; [|done]. rewrite orb_false_iff, !str_eq_false.
  split; [by intros ? ? [= <-] | by intros H; apply H].
Qed.

Lemma validateStepSpec_ok s : validateStepSpec s = Ok tt <-> Forall complete (actions s).
Proof.
  unfold validateStepSpec. rewrite !bind_reject_ok, reject_if_ok, !copy_lacks_false.
  assert (He : match Ensure s with Some e => str_eq (eCheck e) "" || str_eq (eAction e) "" | None => false end = false <->
    forall e, Ensure s = Some e -> eCheck e <> "" /\ eAction e <> "").
  { destruct (Ensure s) as [e|]; [|done]. rewrite orb_false_iff, !str_eq_false.
    split; [by intros ? ? [= <-] | by intros H; apply H]. }
  rewrite He. unfold actions. rewrite !Forall_app.
  assert (Hs : forall x (f : string -> action), (forall y, complete (f y) <-> y <> "") ->
    Forall complete (if str_eq x "" then [] else [f x])).
  { intros x f Hf. destruct (str_eq x "") eqn:E; constructor; [|done]. by apply Hf, str_eq_false. }
  assert (Ho : forall A (o : option A) (f : A -> action) (P : A -> Prop), (forall y, complete (f y) <-> P y) ->
    Forall complete (option_list (f <$> o)) <-> forall x, o = Some x -> P x).
  { intros A o f P Hf. destruct o as [x|]; simpl; [rewrite Forall_singleton, Hf|]; naive_solver. }
  rewrite (Ho _ (Copy s) ACopy (fun c => cSrc c <> "" /\ cDest c <> "")) by done.
  rewrite (Ho _ (Ensure s) AEnsure (fun e => eCheck e <> "" /\ eAction e <> "")) by done.
  rewrite (Ho _ (Template s) ATemplate (fun c => cSrc c <> "" /\ cDest c <> "")) by done.
  pose proof (Hs (Shell s) AShell ltac:(done)). pose proof (Hs (Script s) AScript ltac:(done)). naive_solver.
Qed.

Lemma step_validate_ok parent s : step_validate parent s = Ok tt <-> valid_step parent s.
Proof.
  unfold step_validate. split.
  - intros H. apply bind_reject_ok in H as [Hn H]. apply bind_reject_ok in H as [H0 H]. apply bind_reject_ok in H as [H1 H].
    apply result_bind_ok in H as ([] & Hs & H). apply bind_reject_ok in H as [Hr H].
    apply result_bind_ok in H as ([] & He & H). apply result_bind_ok in H as (r & Heff & _).
    apply map_err_ok in He, Heff. apply validateStepSpec_ok in Hs. rewrite count_actions in H0, H1.
    apply Nat.eqb_neq in H0. apply Nat.ltb_ge in H1.
    constructor; [by apply str_eq_false | | lia | done | by rewrite Heff].
    destruct (actions s) as [|a [|]]; simpl in *; [lia | | lia]. exists a. split; [done|]. by apply Forall_inv in Hs.
  - intros [Hn (a & Ha & Hc) Hr He Heff]. apply str_eq_false in Hn. rewrite Hn, count_actions, Ha. simpl.
    assert (Hs : validateStepSpec s = Ok tt) by (apply validateStepSpec_ok; rewrite Ha; by constructor).
    rewrite Hs. simpl. replace (Retries s <? 0) with false by lia. simpl. rewrite He. simpl.
    by destruct (ResolveExecution _ _).
Qed.

Lemma validate_steps_ok parent l : forall i, validate_steps parent i l = Ok tt <-> Forall (valid_step parent) l.
Proof.
  induction l as [|s l IH]; intros i; simpl; [by split; [constructor|]|].
  rewrite result_bind_ok, Forall_cons. setoid_rewrite map_err_ok. setoid_rewrite IH. split.
  - intros ([] & H & ?). by rewrite <- step_validate_ok.
  - intros [H ?]. exists tt. by rewrite step_validate_ok.
Qed.

Lemma validate_steps_err parent l : forall i j name e, validate_steps parent i l = Err (EStep j name e) ->
  exists k s, j = (i + k)%nat /\ l !! k = Some s /\ name = stName s /\ step_validate parent s = Err e /\
    Forall (valid_step parent) (take k l).
Proof.
  induction l as [|s l IH]; intros i j name e H; simpl in H; [done|].
  destruct (step_validate parent s) as [[]|e'] eqn:E; simpl in H.
  - apply IH in H as (k & s' & -> & Hk & -> & He & Hf). exists (S k), s'. simpl.
    split; [lia|]. repeat (split; [done|]). constructor; [by apply step_validate_ok | done].
  - injection H as <- <- <-. exists 0%nat, s. split; [lia|]. by repeat (split; [done|]).
Qed.

(** a playbook is accepted exactly when it has steps and targets, valid execution
    settings, a known error policy, and each of its steps has a name, exactly one action with all
    its fields, no negative retries, and an execution that is valid also over the
    playbook's; a step is reported only when all before it are fine. *)
Theorem Validate_exact p :
  (Validate p = Ok tt <->
     Steps p <> [] /\ (Tags (pbTargets p) <> [] \/ Nodes (pbTargets p) <> [] \/ Hosts (pbTargets p) <> []) /\
     validate (sExecution (pbSettings p)) = Ok tt /\ Forall (valid_step (sExecution (pbSettings p))) (Steps p) /\
     OnError (pbSettings p) ∈ [""; OnErrorStop; OnErrorContinue; OnErrorAbortAll]) /\
  (forall i name e, Validate p = Err (EStep i name e) ->
     exists s, Steps p !! i = Some s /\ name = stName s /\ step_validate (sExecution (pbSettings p)) s = Err e /\
       Forall (valid_step (sExecution (pbSettings p))) (take i (Steps p))).
Proof.
  split.
  - unfold Validate. rewrite !bind_reject_ok, Nat.eqb_neq, negb_false_iff. rewrite result_bind_ok. setoid_rewrite map_err_ok.
    setoid_rewrite result_bind_ok. setoid_rewrite reject_if_ok. setoid_rewrite negb_false_iff. setoid_rewrite one_of_spec.
    assert (Hany : hasAny (pbTargets p) = true <-> Tags (pbTargets p) <> [] \/ Nodes (pbTargets p) <> [] \/ Hosts (pbTargets p) <> []).
    { unfold hasAny. rewrite !orb_true_iff, !Nat.ltb_lt.
      destruct (Tags _), (Nodes _), (Hosts _); simpl; split; intros; destruct_or?; try lia; naive_solver. }
    rewrite Hany. assert (Hlen : length (Steps p) <> 0%nat <-> Steps p <> []) by (destruct (Steps p); naive_solver).
    rewrite Hlen. split.
    + intros (? & ? & [] & ? & [] & H & ?). apply validate_steps_ok in H. done.
    + intros (? & ? & ? & H & ?). split; [done|]. split; [done|]. exists tt. split; [done|]. exists tt. by rewrite validate_steps_ok.
  - intros i name e H. unfold Validate in H.
    apply result_bind_err in H as [H|(? & _ & H)]; [by apply reject_if_err in H as [_ ?]|].
    apply result_bind_err in H as [H|(? & _ & H)]; [by apply reject_if_err in H as [_ ?]|].
    apply result_bind_err in H as [H|(? & _ & H)]; [by destruct (validate _)|].
    apply result_bind_err in H as [H|(? & _ & H)]; [|by apply reject_if_err in H as [_ ?]].
    apply validate_steps_err in H as (k & s & -> & Hk & -> & He & Hf). by exists s.
Qed.

(** ** What is loaded *)
Section Loading.
Variable template : gmap string string -> string -> result go_error string.

(** A text without an action of a template stays as it is. *)
Definition rendered (vars : gmap string string) (old new : string) : Prop :=
  if contains old "{{" then template vars old = Ok new else new = old.
Definition rendered_copy (vars : gmap string string) (old new : CopySpec) : Prop :=
  rendered vars (cSrc old) (cSrc new) /\ rendered vars (cDest old) (cDest new) /\ cMode new = cMode old.
Definition rendered_ensure (vars : gmap string string) (old new : EnsureSpec) : Prop :=
  rendered vars (eCheck old) (eCheck new) /\ rendered vars (eAction old) (eAction new).
Record rendered_step (vars : gmap string string) (old new : Step) : Prop := {
  rs_shell : rendered vars (Shell old) (Shell new);
  rs_script : rendered vars (Script old) (Script new);
  rs_copy : option_Forall2 (rendered_copy vars) (Copy old) (Copy new);
  rs_ensure : option_Forall2 (rendered_ensure vars) (Ensure old) (Ensure new);
  rs_template : option_Forall2 (rendered_copy vars) (Template old) (Template new);
  rs_rest : stName new = stName old /\ stSudo new = stSudo old /\ stExecution new = stExecution old /\
    Retries new = Retries old /\ RetryDelay new = RetryDelay old /\ IgnoreError new = IgnoreError old
}.

Lemma render_rendered vars field s s' : wrap_err field (render template vars s) = Ok s' -> rendered vars s s'.
Proof. unfold wrap_err. rewrite map_err_ok. unfold render, rendered. by destruct (contains s "{{"); intros; simplify_eq/=. Qed.

Lemma render_copy_rendered vars field c c' : render_copy template vars field c = Ok c' ->
  option_Forall2 (rendered_copy vars) c c'.
Proof.
  destruct c as [c|]; simpl; [|by intros [= <-]; constructor]. intros H. result_inv.
  constructor. split; [|split; [|done]]; by eapply render_rendered.
Qed.

Lemma renderStep_rendered vars s s' : renderStep template vars s = Ok s' -> rendered_step vars s s'.
Proof.
  unfold renderStep. intros H.
  apply result_bind_ok in H as (shell & H1 & H). apply result_bind_ok in H as (script & H2 & H).
  apply result_bind_ok in H as (c & H3 & H). apply result_bind_ok in H as (e & H4 & H).
  apply result_bind_ok in H as (t & H5 & H). injection H as <-.
  constructor; simpl; try (by eapply render_rendered); try (by eapply render_copy_rendered); [|by repeat split].
  unfold render_ensure in H4. destruct (Ensure s) as [e0|]; [|injection H4 as <-; constructor]. result_inv.
  constructor. split; by eapply render_rendered.
Qed.

Lemma render_steps_rendered vars l : forall l', render_steps template vars l = Ok l' -> Forall2 (rendered_step vars) l l'.
Proof.
  induction l as [|s l IH]; simpl; intros l' H; [by injection H as <-; constructor|].
  apply result_bind_ok in H as (s' & Hs & H). apply result_bind_ok in H as (l0 & Hl & H). injection H as <-.
  constructor; [by apply renderStep_rendered | by apply IH].
Qed.

(** what is loaded was validated after its variables were put in, so no rendered
    field is empty; the variables of the call win over the playbook's and stay with it
    for the templates; and rendering changes nothing but the texts of commands, paths and
    files that have a template in them. *)
Theorem loaded_playbook extra parsed pb :
  load_parsed template extra parsed = Ok pb ->
  Validate pb = Ok tt /\ Forall2 (rendered_step (Vars pb)) (Steps parsed) (Steps pb) /\
  (forall k, Vars pb !! k = match extra !! k with Some v => Some v | None => Vars parsed !! k end) /\
  pbTargets pb = pbTargets parsed /\ pbSettings pb = pbSettings parsed.
Proof.
  unfold load_parsed. intros H. apply result_bind_ok in H as (p & Hp & H). apply result_bind_ok in H as ([] & Hv & H).
  injection H as <-. apply map_err_ok in Hp, Hv. split; [done|].
  unfold renderVars in Hp. apply result_bind_ok in Hp as (steps & Hs & Hp). injection Hp as <-. simpl.
  split; [by apply render_steps_rendered|]. split; [|done]. intros k.
  rewrite lookup_union. by destruct (extra !! k), (Vars parsed !! k).
Qed.
End Loading.

Definition sample_step : Step :=
  mkStepSpec "greet" "echo {{ .who }}" "" None None None None None 2 0 false.
Definition sample_playbook : Playbook :=
  mkPlaybook "demo" (mkTargets ["web"] ["db"] []) (mkSettings 0 false "" 0 None) {["who" := "you"]} [sample_step].
(** A template engine that knows one text. *)
Definition sample_template (vars : gmap string string) (s : string) : result go_error string :=
  match strip_prefix "echo {{ .who }}" s, vars !! "who" with
  | Some rest, Some v => Ok ("echo " +:+ v +:+ rest)
  | _, _ => Err (Leaf KPlain "no entry for key")
  end.
Definition sample_loaded : Playbook :=
  mkPlaybook "demo" (mkTargets ["web"] ["db"] []) (mkSettings 0 false "" 0 None) {["who" := "me"]}
    [mkStepSpec "greet" "echo me" "" None None None None None 2 0 false].
Lemma loaded_playbook_witness :
  load_parsed sample_template {["who" := "me"]} sample_playbook = Ok sample_loaded /\ Vars sample_loaded !! "who" = Some "me".
Proof.
  assert (H : load_parsed sample_template {["who" := "me"]} sample_playbook = Ok sample_loaded) by (vm_compute; reflexivity).
  split; [exact H|]. destruct (loaded_playbook _ _ _ _ H) as (_ & _ & Hv & _). by rewrite Hv.
Defined.

(** ** Targets *)
Section Resolution.
Context {provider : Provider}.

Lemma addNode_spec id l : NoDup l -> NoDup (addNode id l) /\ forall x, x ∈ addNode id l <-> x ∈ l \/ x = id.
Proof.
  intros H. unfold addNode. case_bool_decide as E; [split; [done|]; set_solver|].
  split; [|set_solver]. apply NoDup_app. split; [done|]. split; [set_solver|]. apply NoDup_singleton.
Qed.

Lemma add_ids_spec ids : forall l, NoDup l ->
  NoDup (foldl (fun acc id => addNode id acc) l ids) /\ forall x, x ∈ foldl (fun acc id => addNode id acc) l ids <-> x ∈ l \/ x ∈ ids.
Proof.
  induction ids as [|id ids IH]; intros l H; simpl; [split; [done|]; set_solver|].
  destruct (addNode_spec id l H) as [Hn Hx]. destruct (IH _ Hn) as [Hn' Hx']. split; [done|].
  intros x. rewrite Hx', Hx. set_solver.
Qed.

Lemma add_tags_spec tags : forall l, NoDup l ->
  NoDup (foldl add_tag l tags) /\ forall x, x ∈ foldl add_tag l tags <-> x ∈ l \/ exists tag, tag ∈ tags /\ x ∈ nodes_by_tag tag.
Proof.
  induction tags as [|tag tags IH]; intros l H; simpl; [split; [done|]; set_solver|].
  destruct (add_ids_spec (nodes_by_tag tag) l H) as [Hn Hx]. destruct (IH _ Hn) as [Hn' Hx']. split; [done|].
  intros x. unfold add_tag at 2. rewrite Hx', Hx. setoid_rewrite elem_of_cons. naive_solver.
Qed.

Definition selects (name id : string) : Prop := resolve_selector name = Ok id /\ id <> "".

Lemma add_selectors_ok names : forall l l', NoDup l -> add_selectors names l = Ok l' ->
  NoDup l' /\ (forall name, name ∈ names -> exists id, selects name id) /\
  forall x, x ∈ l' <-> x ∈ l \/ exists name, name ∈ names /\ selects name x.
Proof.
  unfold selects. induction names as [|name names IH]; intros l l' H; simpl; intros Hs.
  { injection Hs as <-. split; [done|]. split; set_solver. }
  destruct (resolve_selector name) as [id|] eqn:E; [|done]. apply bind_reject_ok in Hs as [Hid Hs].
  apply str_eq_false in Hid. destruct (addNode_spec id l H) as [Hn Hx].
  destruct (IH _ _ Hn Hs) as (Hn' & Hall & Hx'). split; [done|]. split.
  - intros n [->|Hin]%elem_of_cons; [eauto | by apply Hall].
  - intros x. rewrite Hx', Hx. setoid_rewrite elem_of_cons. split.
    + intros [[?| ->]|(n & ? & ?)]; eauto 6.
    + intros [?|(n & [->|?] & [Hr ?])]; [auto | left; right; congruence | eauto].
Qed.

Lemma add_selectors_err names e : forall l, add_selectors names l = Err e ->
  exists before name after, names = before ++ name :: after /\ (forall n, n ∈ before -> exists id, selects n id) /\
    (resolve_selector name = Ok "" /\ e = ETargetNotFound name \/ exists e', resolve_selector name = Err e' /\ e = EResolveTarget name e').
Proof.
  induction names as [|name names IH]; intros l; simpl; [done|]. intros H.
  destruct (resolve_selector name) as [id|e'] eqn:E.
  - apply bind_reject_err in H as [[Hid <-]|[Hid H]].
    + apply str_eq_spec in Hid as ->. exists [], name, names. split; [done|]. split; [set_solver|]. by left.
    + apply IH in H as (b & n & a & -> & Hb & He). exists (name :: b), n, a. split; [done|]. split; [|done].
      intros x [->|Hx]%elem_of_cons; [|by apply Hb]. exists id. by apply str_eq_false in Hid.
  - injection H as <-. exists [], name, names. split; [done|]. split; [set_solver|]. eauto.
Qed.

(** the targets of a run are the nodes of its tags and what its node and host
    selectors name, each once; a selector that fails or names nothing ends the run
    before any host is touched, and it is the first such. *)
Theorem resolveTargets_exact t :
  (forall ids, resolveTargets t = Ok ids ->
     NoDup ids /\ (forall name, name ∈ Nodes t ++ Hosts t -> exists id, selects name id) /\
     forall id, id ∈ ids <-> (exists tag, tag ∈ Tags t /\ id ∈ nodes_by_tag tag) \/
                             exists name, name ∈ Nodes t ++ Hosts t /\ selects name id) /\
  (forall e, resolveTargets t = Err e ->
     exists before name after, Nodes t ++ Hosts t = before ++ name :: after /\ (forall n, n ∈ before -> exists id, selects n id) /\
       (resolve_selector name = Ok "" /\ e = ETargetNotFound name \/
        exists e', resolve_selector name = Err e' /\ e = EResolveTarget name e')).
Proof.
  unfold resolveTargets. destruct (add_tags_spec (Tags t) [] (NoDup_nil_2)) as [Hn Hx]. split.
  - intros ids H. apply result_bind_ok in H as (l & Hl & H).
    destruct (add_selectors_ok _ _ _ Hn Hl) as (Hn1 & Ha1 & Hx1).
    destruct (add_selectors_ok _ _ _ Hn1 H) as (Hn2 & Ha2 & Hx2). split; [done|]. split.
    + intros name [?|?]%elem_of_app; auto.
    + intros id. rewrite Hx2, Hx1, Hx. setoid_rewrite elem_of_app. rewrite elem_of_nil. naive_solver.
  - intros e H. apply result_bind_err in H as [H|(l & Hl & H)].
    + apply add_selectors_err in H as (b & n & a & -> & Hb & He). exists b, n, (a ++ Hosts t).
      by rewrite <- app_assoc.
    + destruct (add_selectors_ok _ _ _ Hn Hl) as (_ & Ha1 & _).
      apply add_selectors_err in H as (b & n & a & -> & Hb & He). exists (Nodes t ++ b), n, a.
      split; [by rewrite app_assoc|]. split; [|done]. intros x [?|?]%elem_of_app; auto.
Qed.

(** ** What a run fixes before it starts *)
Lemma preload_spec stat read steps : forall fresh fresh', preload stat read steps fresh = Ok fresh' ->
  fresh ⊆ fresh' /\
  forall s, s ∈ steps -> Script s <> "" -> exists data, fresh' !! Script s = Some data /\
    (fresh !! Script s = Some data \/ read (Script s) = Ok data /\ exists n, stat (Script s) = Ok n /\ n <= MaxCommandInputBytes).
Proof.
  induction steps as [|s steps IH]; simpl; intros fresh fresh' H.
  { injection H as <-. split; [done|]. set_solver. }
  assert (Hskip : forall m, preload stat read steps m = Ok fresh' -> fresh ⊆ m ->
    (forall k, k <> Script s -> m !! k = fresh !! k) ->
    (Script s <> "" -> exists data, m !! Script s = Some data /\ (fresh !! Script s = Some data \/
       read (Script s) = Ok data /\ exists n, stat (Script s) = Ok n /\ n <= MaxCommandInputBytes)) ->
    fresh ⊆ fresh' /\ forall s', s' ∈ s :: steps -> Script s' <> "" -> exists data, fresh' !! Script s' = Some data /\
      (fresh !! Script s' = Some data \/ read (Script s') = Ok data /\ exists n, stat (Script s') = Ok n /\ n <= MaxCommandInputBytes)).
  { intros m Hm Hsub Hk Hs. apply IH in Hm as [Hsub' Hall]. split; [by etrans|].
    assert (Hhead : Script s <> "" -> exists data, fresh' !! Script s = Some data /\ (fresh !! Script s = Some data \/
       read (Script s) = Ok data /\ exists n, stat (Script s) = Ok n /\ n <= MaxCommandInputBytes)).
    { intros Hne. destruct (Hs Hne) as (data & Hd & ?). exists data. split; [|done]. by eapply lookup_weaken. }
    intros s' [->|Hin]%elem_of_cons Hne; [by apply Hhead|].
    destruct (decide (Script s' = Script s)) as [E|E]; [rewrite E in *; by apply Hhead|].
    destruct (Hall s' Hin Hne) as (data & Hd & Hor). rewrite Hk in Hor by done. eauto. }
  destruct (str_eq (Script s) "") eqn:Es; simpl in H.
  { apply str_eq_spec in Es. by apply (Hskip fresh). }
  destruct (fresh !! Script s) as [data|] eqn:Ef; simpl in H.
  { apply (Hskip fresh); try done. intros _. eauto. }
  destruct (stat (Script s)) as [n|] eqn:En; [|done]. apply bind_reject_ok in H as [Hn H].
  destruct (read (Script s)) as [data|] eqn:Er; [|done]. apply (Hskip _ H).
  - by apply insert_subseteq.
  - intros k Hk. by apply lookup_insert_ne.
  - intros _. exists data. rewrite lookup_insert_eq. split; [done|]. right. split; [done|]. exists n. split; [done|]. lia.
Qed.

Lemma freeze_targets_spec ids : forall m,
  m ⊆ foldl freeze_target m ids /\
  forall id, id ∈ ids -> get_node id <> None -> is_Some (foldl freeze_target m ids !! id).
Proof.
  induction ids as [|i ids IH]; intros m; simpl; [split; [done|]; set_solver|].
  destruct (IH (freeze_target m i)) as [Hsub Hall].
  assert (Hm : m ⊆ freeze_target m i).
  { unfold freeze_target. destruct (m !! i) eqn:E; [done|]. destruct (get_node i); [by apply insert_subseteq | done]. }
  split; [by etrans|]. intros id [->|Hin]%elem_of_cons Hg; [|by apply Hall].
  destruct (m !! i) as [e|] eqn:E; [exists e; eapply lookup_weaken; [|exact Hsub]; unfold freeze_target; by rewrite E|].
  destruct (get_node i) as [e|] eqn:G; [|done]. exists (exec_clone e).
  eapply lookup_weaken; [|exact Hsub]. unfold freeze_target. rewrite E, G. apply lookup_insert_eq.
Qed.

(** what a run executes is fixed before its first step: the contents of every
    script, each at most 16 MiB when it was looked at, and the execution settings of
    every target that the configuration has, which are those of the snapshot taken at
    the start whatever the node says when its turn comes. *)
Theorem run_inputs_fixed stat read p sources ids global nodes :
  preloadScripts stat read p = Ok sources -> snapshot_execution = Some (global, nodes) ->
  (forall s, s ∈ Steps p -> Script s <> "" -> exists data, sources !! Script s = Some data /\ read (Script s) = Ok data /\
     exists n, stat (Script s) = Ok n /\ n <= MaxCommandInputBytes) /\
  let f := freeze_targets ids snapshotExecution in
  f_global f = global /\
  (forall id e, NoDup nodes.*1 -> (id, e) ∈ nodes -> forall node, nodeExecution f id node = e) /\
  (forall id, id ∈ ids -> get_node id <> None -> forall node node', nodeExecution f id node = nodeExecution f id node').
Proof.
  intros Hp Hs. split.
  { intros s Hin Hne. apply preload_spec in Hp as [_ H]. destruct (H s Hin Hne) as (data & Hd & [He|He]); [|eauto].
    by rewrite lookup_empty in He. }
  simpl. unfold snapshotExecution. rewrite Hs. split; [done|]. unfold nodeExecution. simpl.
  match goal with |- context [foldl freeze_target ?m0 ids] => destruct (freeze_targets_spec ids m0) as [Hsub Hall] end.
  assert (Hclone : forall e, exec_clone e = e) by (by intros [[]|]). split.
  - intros id e Hnd Hin node.
    erewrite (lookup_weaken _ _ id); [apply Hclone | | exact Hsub].
    apply elem_of_list_to_map; [by rewrite <- list_fmap_compose | ].
    apply list_elem_of_fmap. exists (id, e). simpl. by rewrite Hclone.
  - intros id Hin Hg node node'. destruct (Hall id Hin Hg) as [e He]. by rewrite He.
Qed.
End Resolution.

(** A small configuration: two nodes tagged [web], of which the snapshot has one. *)
Definition sample_provider : Provider := {|
  nodes_by_tag tag := if str_eq tag "web" then ["b"; "a"] else [];
  resolve_selector name := Ok (if one_of name ["a"; "b"; "db"] then name else "");
  resolve_node id := Ok (None, id +:+ ".example");
  get_node id := if one_of id ["a"; "b"] then Some None else None;
  snapshot_execution := Some (None, [("a", Some (mkExec InterpreterBash LaunchPOSIX None))])
|}.
Example sample_targets : resolveTargets (provider := sample_provider) (mkTargets ["web"; "none"] ["db"; "a"] []) = Ok ["b"; "a"; "db"].
Proof. reflexivity. Qed.

Lemma run_inputs_fixed_witness :
  nodeExecution (freeze_targets (provider := sample_provider) ["b"; "a"] (snapshotExecution (provider := sample_provider))) "a" None
    = Some (mkExec InterpreterBash LaunchPOSIX None).
Proof.
  destruct (run_inputs_fixed (provider := sample_provider) (fun _ => Ok 1) (fun p => Ok p) sample_playbook ∅ ["b"; "a"] None
    [("a", Some (mkExec InterpreterBash LaunchPOSIX None))] eq_refl eq_refl) as (_ & _ & H & _).
  apply (H "a"); [apply NoDup_singleton | by apply list_elem_of_singleton].
Defined.
