(* ===== verification/Runner.v ===== *)
(** The execution of one step on one host (pkg/playbook: runner.go and probe.go,
    core/ssh/probe_controlled.go): retries, the choice of the adapter by probing, shell,
    script, copy, template and ensure steps, and the frames by which an ensure step
    knows that its check really ran.  The remote host, the file transfer and local
    files are an interface; what each operation answers is not constrained.  The texts
    of the errors the runner makes itself are abbreviated: nothing inspects them. *)
From S2P Require Import Prelude GoStrings Exec StepErrors Playbook.
Open Scope Z_scope.

(** * The interface of the connection *)

(** core/ssh: [CommandResult] without its [Phase]. *)
Record CommandResult := mkResult {
  cr_digest : string;
  cr_outcome : string;
  cr_exit : option Z;
  cr_signal : string;
  cr_output : string;
  cr_truncated : bool;
  cr_execErr : option go_error;
  cr_ioErr : option go_error;
  cr_cleanupErr : option go_error
}.
Definition cr_err (r : CommandResult) : option go_error := errors_join [cr_execErr r; cr_ioErr r; cr_cleanupErr r].

Record ProbeResult := mkProbe { AvailableInterpreters : list string; SuggestedConfig : ExecutionConfig }.

(** [W] is the state of the world; every operation may change it.  [nonce] is
    [generateEnsureNonce]; [retry_wait] is the [select] of [runStep], with the error of
    the context when that is what ended it. *)
Class Client (W : Type) := {
  ExecuteCommand : CommandPlan -> W -> CommandResult * W;
  RunWithSudoExecution : string -> option ExecutionConfig -> W -> (string * option go_error) * W;
  RunScriptWithExecution : string -> option ExecutionConfig -> W -> (string * option go_error) * W;
  RunScriptWithSudoExecution : string -> option ExecutionConfig -> W -> (string * option go_error) * W;
  ProbeExecutionConfig : W -> result go_error ProbeResult * W;
  CachedExecutionProbe : W -> option ProbeResult;
  sftp_NewClient : W -> option go_error * W;
  sftp_Upload : string -> string -> W -> option go_error * W;
  sftp_Chmod : string -> Z -> W -> option go_error * W;
  sftp_Close : W -> option go_error * W;
  ReadFile : string -> W -> result go_error string * W;
  CreateTemp : W -> result go_error string * W;
  WriteTemp : string -> string -> W -> option go_error * W;
  CloseTemp : string -> W -> option go_error * W;
  Remove : string -> W -> option go_error * W;
  nonce : W -> string * W;
  retry_wait : Z -> W -> option go_error * W
}.

(** * Frames ([extractEnsureFrame], [wrapEnsureCheck]) *)

(** [strings.LastIndex]: the text before the last [sub], and the text behind it. *)
Fixpoint cut_last (sub s : string) : option (string * string) :=
  match s with
  | EmptyString => match strip_prefix sub EmptyString with Some after => Some (EmptyString, after) | None => None end
  | String c s' =>
      match cut_last sub s' with
      | Some (pre, after) => Some (String c pre, after)
      | None => match strip_prefix sub s with Some after => Some (EmptyString, after) | None => None end
      end
  end.
(** The first line, and the text behind its newline. *)
Fixpoint cut_line (s : string) : string * option string :=
  match s with
  | EmptyString => (EmptyString, None)
  | String c r => if Ascii.eqb c newline then (EmptyString, Some r)
                  else let '(line, rest) := cut_line r in (String c line, rest)
  end.
Definition digit_value (c : ascii) : Z := Z.of_N (byte_code c) - 48.
(** [strconv.ParseUint(s, base, 32)] for a base up to ten. *)
Definition base_digit (base : Z) (c : ascii) : bool := is_digit c && (digit_value c <? base).
Fixpoint number_from (base : Z) (s : string) (acc : Z) : Z :=
  match s with EmptyString => acc | String c r => number_from base r (acc * base + digit_value c) end.
Definition parse_uint (base : Z) (s : string) : option Z :=
  if str_eq s "" || negb (all_bytes (base_digit base) s) then None
  else let v := number_from base s 0 in if v <? 2^32 then Some v else None.

Definition is_eol (c : ascii) : bool := Ascii.eqb c creturn || Ascii.eqb c newline.
Definition join_clean (before after : string) : string :=
  if str_eq after "" then before else if str_eq before "" then after else before +:+ str1 newline +:+ after.

Definition extractEnsureFrame (output marker : string) : string * Z * bool :=
  match cut_last (marker +:+ ":") output with
  | None => (output, 0, false)
  | Some (before, rest) =>
      let '(line, behind) := cut_line rest in
      match parse_uint 10 (trim_space line) with
      | None => (output, 0, false)
      | Some code => (join_clean (trim_right is_eol before) (trim_left is_eol (default "" behind)), code, true)
      end
  end.

Definition bs_n : string := "\n".
Definition wrapEnsureCheck (command marker interpreter : string) : string :=
  if str_eq interpreter InterpreterFish then
    "function " +:+ marker +:+ " --on-event fish_exit" +:+ str1 newline +:+
    "  builtin printf '" +:+ bs_n +:+ marker +:+ ":%d" +:+ bs_n +:+ "' $status" +:+ str1 newline +:+
    "end" +:+ str1 newline +:+ command +:+ str1 newline
  else
    "{" +:+ str1 newline +:+ "  trap 'printf " +:+ str1 dquote +:+ bs_n +:+ marker +:+ ":%d" +:+ bs_n +:+ str1 dquote +:+
    " " +:+ str1 dquote +:+ "$?" +:+ str1 dquote +:+ "' EXIT" +:+ str1 newline +:+ "  " +:+ command +:+ str1 newline +:+ "}".
Definition ensure_marker (nonce : string) : string := "__XOPS_ENSURE_" +:+ nonce +:+ "__".

Definition ensureCheckExecutionError (interpreter : string) (code : Z) : option go_error :=
  if (code =? 126) || (code =? 127)
  then Some (Leaf KPlain "ensure check exited with reserved execution-error status")
  else if str_eq interpreter InterpreterFish && ((code =? 121) || (code =? 123) || (code =? 124) || (code =? 125))
  then Some (Leaf KPlain "fish ensure check exited with reserved execution-error status") else None.

(** * Probing (probe_controlled.go, probe.go) *)
Definition NeedsExecutionProbe (e : option ExecutionConfig) : bool :=
  match e with
  | None => true
  | Some c => str_eq (Interpreter c) "" && (str_eq (LaunchDialect c) "" || str_eq (LaunchDialect c) LaunchUnknown) &&
              bool_decide (Login c = None)
  end.
Definition hasExplicitInterpreter (layers : list (option ExecutionConfig)) : bool :=
  existsb (fun l => match l with Some c => negb (str_eq (Interpreter c) "") | None => false end) layers.
Definition isEnsureCompatible (c : ExecutionConfig) : bool :=
  one_of (LaunchDialect c) [LaunchPOSIX; LaunchFish; LaunchCsh] &&
  one_of (Interpreter c) [InterpreterBash; InterpreterSh; InterpreterZsh; InterpreterFish].
(** A [CMD] host gets the first installed of these. *)
Definition prefer_powershell (available : list string) (c : ExecutionConfig) : ExecutionConfig :=
  if str_eq (Interpreter c) InterpreterServer && str_eq (LaunchDialect c) LaunchCmd then
    match find (fun i => one_of i available) [InterpreterPowerShell; InterpreterPwsh; InterpreterCmd] with
    | Some i => mkExec i (LaunchDialect c) (Login c)
    | None => c
    end
  else c.

Definition DeriveWorkingDirectoryExecution (e : option ExecutionConfig) : option ExecutionConfig :=
  match e with
  | Some c => if str_eq (EffectiveInterpreter e) InterpreterServer && str_eq (LaunchDialect c) LaunchCmd
              then Some (mkExec InterpreterCmd (LaunchDialect c) (Login c)) else None
  | None => None
  end.

Section Runner.
Context {W : Type} {client : Client W}.
(** The digest of a plan, and the text of an execution error. *)
Variable plan_digest : CommandPlan -> string.
Variable exec_text : exec_error -> string.
(** The template engine of the standard library. *)
Variable template : gmap string string -> string -> result go_error string.
(** [e.globalExecution()], [e.pb.Settings.Execution], [e.pb.Vars], [e.scriptSources]. *)
Variable globalExec settingsExec : option ExecutionConfig.
Variable vars : gmap string string.
Variable scriptSources : gmap string string.

Definition io (A : Type) : Type := W -> A * W.
Definition io_ret {A} (a : A) : io A := fun w => (a, w).
Definition io_bind {A B} (m : io A) (k : A -> io B) : io B := fun w => let '(a, w) := m w in k a w.
Local Notation "x <~ m ;; k" := (io_bind m (fun x => k)) (at level 100, m at level 99, k at level 200, right associativity).

Definition exec_err (e : exec_error) : go_error :=
  Leaf (match e with EValidation _ => KExecutionValidation | _ => KPlain end) (exec_text e).
Definition lift {A} (m : result exec_error A) : result go_error A := map_err exec_err m.

Definition ProbeControlledExecution (e : option ExecutionConfig) : io (result go_error (option ExecutionConfig)) :=
  match validate e with
  | Err err => io_ret (Err (exec_err err))
  | Ok _ =>
      if negb (NeedsExecutionProbe e) then io_ret (Ok (exec_clone e))
      else probed <~ ProbeExecutionConfig;;
           io_ret match probed with
                  | Err err => Err (Wrap "probe controlled execution: " "" err)
                  | Ok p => let c := Some (prefer_powershell (AvailableInterpreters p) (SuggestedConfig p)) in
                            try _ := lift (validate c);; Ok c
                  end
  end.

Definition ResolveWorkingDirectoryExecution (e : option ExecutionConfig) : io (result go_error (option ExecutionConfig)) :=
  match DeriveWorkingDirectoryExecution e with
  | Some c => io_ret (try _ := lift (validate (Some c));; Ok (Some c))
  | None => ProbeControlledExecution e
  end.

Definition resolveRuntimeScriptExecution (step node : option ExecutionConfig) (content : string)
    : io (result go_error (option ExecutionConfig)) :=
  let direct := io_ret (lift (ResolveScriptExecution plan_digest step settingsExec node globalExec content)) in
  let shebang := ParseShebang content in
  if negb (HasBOM shebang) && negb (HasShebang shebang) then
    match EffectiveExecution [step; settingsExec; node; globalExec] with
    | Err e => io_ret (Err (exec_err e))
    | Ok effective =>
        if NeedsExecutionProbe effective then
          probed <~ ProbeControlledExecution effective;;
          io_ret (try p := probed;; lift (ResolveScriptExecution plan_digest p None None None content))
        else direct
    end
  else direct.

Definition fallbackEnsureInterpreter (effective : ExecutionConfig) (w : W) : ExecutionConfig :=
  match CachedExecutionProbe w with
  | None => effective
  | Some cached =>
      match find (fun i => one_of i (AvailableInterpreters cached)) [InterpreterBash; InterpreterSh; InterpreterZsh; InterpreterFish] with
      | Some candidate => mkExec candidate (LaunchDialect effective) (Some false)
      | None => effective
      end
  end.

Definition server_refused : go_error := Leaf KPlain "ensure check unsupported with server interpreter".
Definition adapter_refused : go_error :=
  Wrap "" ": ensure requires a bash, sh, zsh or fish adapter" (Leaf KExecutionValidation "execution validation error").

Definition resolveEnsureExecution (step node : option ExecutionConfig) : io (result go_error ExecutionConfig) :=
  match EffectiveExecution [step; settingsExec; node; globalExec] with
  | Err e => io_ret (Err (exec_err e))
  | Ok effective =>
      probed <~ ProbeControlledExecution effective;;
      fun w =>
        (match probed with
         | Err e => Err e
         | Ok None => Err server_refused
         | Ok (Some c) =>
             reject str_eq (EffectiveInterpreter (Some c)) InterpreterServer with server_refused;;
             let c := if negb (hasExplicitInterpreter [step; settingsExec; node; globalExec]) &&
                         one_of (Interpreter c) [InterpreterCsh; InterpreterTcsh]
                      then fallbackEnsureInterpreter c w else c in
             reject negb (isEnsureCompatible c) with adapter_refused;;
             Ok c
         end, w)
  end.

(** * Shell and script steps *)
Definition runShellEffective (cmd : string) (effective : option ExecutionConfig) (sudo : bool) : io StepResult :=
  if sudo then
    res <~ RunWithSudoExecution cmd effective;;
    io_ret match res with
           | (out, Some e) => if errors_is KExecutionValidation e then not_started e else classifySessionResult e out
           | (out, None) => completed StatusChanged out (Some 0)
           end
  else
    match PlanCommand plan_digest cmd (command_options effective) with
    | Err e => io_ret (not_started (exec_err e))
    | Ok plan =>
        res <~ ExecuteCommand plan;;
        let execErr := extractExecutionLayerError (cr_execErr res) in
        let outcome := match execErr with
                       | Some e => if is_canceled e then ExecutionUnknown else cr_outcome res
                       | None => cr_outcome res
                       end in
        let nonzero := match cr_exit res with Some c => negb (c =? 0) | None => false end in
        let retryable := str_eq outcome ExecutionCompleted && bool_decide (execErr = None) &&
          bool_decide (cr_cleanupErr res = None) && bool_decide (cr_ioErr res = None) && str_eq (cr_signal res) "" && nonzero in
        let status := if bool_decide (cr_err res <> None) || nonzero then StatusFailed else StatusChanged in
        io_ret (mkStep "" status outcome (cr_exit res) (cr_signal res) (cr_digest res) (cr_output res) (cr_truncated res)
                  (cr_err res) (cr_cleanupErr res) (cr_ioErr res) retryable)
    end.

Definition runShell (cmd : string) (stepExec : option ExecutionConfig) (sudo : bool) (node : option ExecutionConfig) : io StepResult :=
  match EffectiveExecution [stepExec; settingsExec; node; globalExec] with
  | Err e => io_ret (not_started (exec_err e))
  | Ok effective =>
      let effective := if negb (is_set effective) && negb sudo
                       then Some (mkExec InterpreterServer LaunchUnknown None) else effective in
      runShellEffective cmd effective sudo
  end.

Definition runScript (path : string) (stepExec : option ExecutionConfig) (sudo : bool) (node : option ExecutionConfig) : io StepResult :=
  content <~ (match scriptSources !! path with Some data => io_ret (Ok data) | None => ReadFile path end);;
  match content with
  | Err e => io_ret (not_started (Wrap "read script: " "" e))
  | Ok content =>
      resolved <~ resolveRuntimeScriptExecution stepExec node content;;
      match resolved with
      | Err e => io_ret (not_started (Wrap "resolve script execution: " "" e))
      | Ok resolved =>
          res <~ (if sudo then RunScriptWithSudoExecution content resolved else RunScriptWithExecution content resolved);;
          io_ret match res with
                 | (out, Some e) => if errors_is KExecutionValidation e then not_started e else classifySessionResult e out
                 | (out, None) => completed StatusChanged out (Some 0)
                 end
      end
  end.

(** * Copy and template steps *)
Definition applyRemoteMode (path mode : string) : io (option go_error) :=
  match parse_uint 8 mode with
  | None => io_ret (Some (Leaf KPlain "invalid mode"))
  | Some perm => sftp_Chmod path perm
  end.

(** The deferred closing of the SFTP client. *)
Definition closing (r : StepResult) : io StepResult :=
  err <~ sftp_Close;;
  io_ret match err with Some e => failStepResult r (Wrap "close sftp client: " "" e) | None => r end.
Definition runCopy (spec : CopySpec) : io StepResult :=
  err <~ sftp_NewClient;;
  match err with
  | Some e => io_ret (not_started (Wrap "create sftp client: " "" e))
  | None =>
      up <~ sftp_Upload (cSrc spec) (cDest spec);;
      match up with
      | Some e => closing (failed_with ExecutionUnknown "" (Wrap "upload: " "" e))
      | None =>
          if str_eq (cMode spec) "" then closing (completed StatusChanged "" None)
          else
            mode <~ applyRemoteMode (cDest spec) (cMode spec);;
            match mode with
            | Some e => closing (failed_with ExecutionUnknown "" (Wrap "chmod: " "" e))
            | None => closing (completed StatusChanged "" None)
            end
      end
  end.

(** The deferred removal of the temporary file, closed first where that has not
    been tried. *)
Definition removing (file : string) (r : StepResult) : io StepResult :=
  err <~ Remove file;;
  io_ret match err with Some e => failStepResult r (Wrap "remove temp file: " "" e) | None => r end.
Definition runTemplate (spec : CopySpec) : io StepResult :=
  src <~ ReadFile (cSrc spec);;
  match (try data := map_err (Wrap "read template: " "") src;; map_err (Wrap "render template: " "") (template vars data)) with
  | Err e => io_ret (not_started e)
  | Ok text =>
      tmp <~ CreateTemp;;
      match tmp with
      | Err e => io_ret (not_started (Wrap "create temp file: " "" e))
      | Ok file =>
          wrote <~ WriteTemp file text;;
          match wrote with
          | Some e =>
              let r := not_started (Wrap "write temp file: " "" e) in
              closed <~ CloseTemp file;;
              removing file (match closed with Some e => failStepResult r (Wrap "close temp file: " "" e) | None => r end)
          | None =>
              closed <~ CloseTemp file;;
              match closed with
              | Some e => removing file (not_started (Wrap "close temp file: " "" e))
              | None => r <~ runCopy (mkCopy file (cDest spec) (cMode spec));; removing file r
              end
          end
      end
  end.

(** * Ensure steps *)
Definition check_ok (out : string) : StepResult := completed StatusOK out None.
Definition frame_missing (code : option Z) (signal out : string) : StepResult :=
  mkStep "" StatusFailed ExecutionCompleted code signal "" out false
    (Some (Leaf KPlain "ensure check result frame missing, action not executed")) None None false.
Definition signaled (signal out : string) : StepResult :=
  mkStep "" StatusFailed ExecutionCompleted None signal "" out false
    (Some (Leaf KPlain ("ensure check terminated by signal " +:+ signal))) None None false.
Definition io_failed (outcome : string) (code : option Z) (signal out : string) (cleanup ioErr : option go_error) (e : go_error) : StepResult :=
  mkStep "" StatusFailed outcome code signal "" out false
    (Some (Wrap "ensure check had I/O or cleanup error: " "" e)) cleanup ioErr false.

(** The text, code and result of a framed check. *)
Definition framed (out marker : string) (code : option Z) (signal : string) : string * Z * StepResult :=
  let '(clean, n, found) := extractEnsureFrame out marker in
  if found then (clean, n, check_ok clean) else (clean, 0, frame_missing code signal clean).
Definition clean_of (out marker : string) : string := (extractEnsureFrame out marker).1.1.

Definition executeEnsureCheckSudo (wrapped marker : string) (effective : ExecutionConfig) : io (string * Z * StepResult) :=
  res <~ RunWithSudoExecution wrapped (Some effective);;
  io_ret (let '(out, err) := res in
    match err with
    | None => framed out marker None ""
    | Some e =>
        if errors_is KExecutionValidation e then ("", 0, not_started e)
        else
          let c := classifySessionError (Some e) in
          let clean := clean_of out marker in
          if c_canceled c || is_set (c_other c) || negb (c_hasExit c)
          then ("", 0, failed_with ExecutionUnknown out (Wrap "ensure check execution failed: " "" e))
          else if is_set (c_cleanup c) || is_set (c_io c)
          then (clean, 0, io_failed ExecutionCompleted (c_exitCode c) (c_signal c) clean (c_cleanup c) (c_io c) e)
          else if negb (str_eq (c_signal c) "") then (clean, 0, signaled (c_signal c) clean)
          else framed out marker (c_exitCode c) (c_signal c)
    end).

(** An error that wraps [cmdRes.Err()], which may be nil. *)
Definition wrap_nil (before : string) (e : option go_error) : go_error :=
  match e with Some e => Wrap before "" e | None => Leaf KPlain (before +:+ "%!w(<nil>)") end.
Definition executeEnsureCheckPlanned (wrapped marker : string) (effective : ExecutionConfig) : io (string * Z * StepResult) :=
  match PlanCommand plan_digest wrapped (command_options (Some effective)) with
  | Err e => io_ret ("", 0, not_started (exec_err e))
  | Ok plan =>
      res <~ ExecuteCommand plan;;
      io_ret (
        let clean := clean_of (cr_output res) marker in
        if negb (str_eq (cr_outcome res) ExecutionCompleted)
        then (clean, 0, failed_with (cr_outcome res) clean (wrap_nil "ensure check failed or timed out: " (cr_err res)))
        else match extractExecutionLayerError (cr_execErr res) with
             | Some e =>
                 (clean, 0, failed_with (if is_canceled e then ExecutionUnknown else cr_outcome res) clean
                              (Wrap "ensure check failed or timed out: " "" e))
             | None =>
                 if is_set (cr_cleanupErr res) || is_set (cr_ioErr res)
                 then (clean, 0, mkStep "" StatusFailed (cr_outcome res) None "" "" clean false
                         (Some (wrap_nil "ensure check had I/O or cleanup error: " (cr_err res)))
                         (cr_cleanupErr res) (cr_ioErr res) false)
                 else if negb (str_eq (cr_signal res) "") then (clean, 0, signaled (cr_signal res) clean)
                 else framed (cr_output res) marker (cr_exit res) (cr_signal res)
             end)
  end.

Definition executeEnsureCheck (check : string) (stepExec : option ExecutionConfig) (sudo : bool) (node : option ExecutionConfig)
    : io (string * Z * StepResult) :=
  resolved <~ resolveEnsureExecution stepExec node;;
  match resolved with
  | Err e => io_ret ("", 0, not_started e)
  | Ok effective =>
      n <~ nonce;;
      let marker := ensure_marker n in
      let wrapped := wrapEnsureCheck check marker (Interpreter effective) in
      if sudo then executeEnsureCheckSudo wrapped marker effective else executeEnsureCheckPlanned wrapped marker effective
  end.

Definition verify_failed (action verify : StepResult) : StepResult :=
  mkStep "" StatusFailed (r_outcome verify) (r_exit verify) (r_signal verify) "" (r_output action) false
    (Some (wrap_nil "post-action verify check failed: " (r_err verify))) None None false.
Definition runEnsure (spec : EnsureSpec) (stepExec : option ExecutionConfig) (sudo : bool) (node : option ExecutionConfig) : io StepResult :=
  resolved <~ resolveEnsureExecution stepExec node;;
  match resolved with
  | Err e => io_ret (not_started e)
  | Ok adapter =>
      check <~ executeEnsureCheck (eCheck spec) (Some adapter) sudo node;;
      let '(cleanOut, checkCode, checkRes) := check in
      if is_failed checkRes then io_ret checkRes
      else if checkCode =? 0 then io_ret (completed StatusSkipped "check passed, no action needed" None)
      else match ensureCheckExecutionError (Interpreter adapter) checkCode with
           | Some e => io_ret (failed_with ExecutionCompleted cleanOut e)
           | None =>
               actionRes <~ runShell (eAction spec) (Some adapter) sudo node;;
               if is_failed actionRes then io_ret (with_err (Some (wrap_nil "action failed: " (r_err actionRes))) actionRes)
               else
                 verify <~ executeEnsureCheck (eCheck spec) (Some adapter) sudo node;;
                 let '(verifyOut, verifyCode, verifyRes) := verify in
                 if is_failed verifyRes then io_ret (verify_failed actionRes verifyRes)
                 else if verifyCode =? 0 then io_ret (completed StatusChanged (r_output actionRes) None)
                 else io_ret (failed_with ExecutionCompleted (r_output actionRes)
                                (Leaf KPlain ("post-action verify check still not satisfied: " +:+ verifyOut)))
           end
  end.

(** * Dispatch and retries *)
Definition dispatchStep (s : Step) (useSudo : bool) (node : option ExecutionConfig) : io StepResult :=
  if negb (str_eq (Shell s) "") then runShell (Shell s) (stExecution s) useSudo node
  else if negb (str_eq (Script s) "") then runScript (Script s) (stExecution s) useSudo node
  else match Copy s, Ensure s, Template s with
       | Some spec, _, _ => runCopy spec
       | None, Some spec, _ => runEnsure spec (stExecution s) useSudo node
       | None, None, Some spec => runTemplate spec
       | None, None, None => io_ret (not_started (Leaf KPlain "unknown step type"))
       end.

Definition may_retry (r : StepResult) : bool :=
  is_failed r && r_retryable r && str_eq (r_outcome r) ExecutionCompleted &&
  bool_decide (r_cleanup r = None) && bool_decide (r_io r = None).
Definition interrupted (e : go_error) (r : StepResult) : StepResult :=
  mkStep (r_name r) (r_status r) ExecutionUnknown (r_exit r) (r_signal r) (r_digest r) (r_output r) (r_truncated r)
    (Some e) (r_cleanup r) (r_io r) false.

Section Retry.
Variable dispatch : io StepResult.
Variable s : Step.
Definition delay : Z := if RetryDelay s <=? 0 then 1000000000 else RetryDelay s.
(** The loop of [runStep]: [n] attempts are left. *)
Fixpoint retry_loop (n : nat) (attempt : Z) (result : StepResult) : io StepResult :=
  match n with
  | O => io_ret result
  | S n =>
      r <~ dispatch;;
      let r := with_name (stName s) r in
      if negb (may_retry r) then io_ret r
      else if attempt <? Retries s then
        ctx <~ retry_wait delay;;
        match ctx with
        | Some e => io_ret (interrupted e r)
        | None => retry_loop n (attempt + 1) r
        end
      else retry_loop n (attempt + 1) r
  end.
(** [step.Retries + 1] as a 64-bit [int]. *)
Definition maxAttempts : Z := (Retries s + 1 + 2^63) mod 2^64 - 2^63.
Definition retrying : io StepResult := retry_loop (Z.to_nat maxAttempts) 0 zero_result.
End Retry.

Definition runStep (s : Step) (globalSudo : bool) (node : option ExecutionConfig) : io StepResult :=
  retrying (dispatchStep s (default globalSudo (stSudo s)) node) s.
End Runner.

(** * Frames *)
Lemma cut_last_spec sub s pre after : cut_last sub s = Some (pre, after) -> s = pre +:+ sub +:+ after.
Proof.
  revert pre after. induction s as [|c s IH]; intros pre after; simpl.
  - destruct (strip_prefix sub "") eqn:E; [|done]. intros [= <- <-]. by apply strip_prefix_spec in E.
  - destruct (cut_last sub s) as [[p a]|].
    + intros [= <- <-]. simpl. f_equal. by apply IH.
    + destruct (strip_prefix sub (String c s)) eqn:E; [|done]. intros [= <- <-]. by apply strip_prefix_spec in E.
Qed.

Lemma cut_last_none sub s : cut_last sub s = None <-> contains s sub = false.
Proof.
  induction s as [|c s IH]; simpl; unfold has_prefix.
  - destruct (strip_prefix sub ""); done.
  - destruct (cut_last sub s) as [[]|].
    + destruct IH as [_ IH]. destruct (contains s sub); [rewrite orb_true_r; done|]. by specialize (IH eq_refl).
    + destruct IH as [IH _]. rewrite IH by done. by destruct (strip_prefix sub (String c s)).
Qed.

(** No later occurrence. *)
Lemma cut_last_here c sub a b : contains (sub +:+ b) (String c sub) = false ->
  cut_last (String c sub) (a +:+ String c sub +:+ b) = Some (a, b).
Proof.
  intros H. induction a as [|x a IH].
  - change (cut_last (String c sub) (String c (sub +:+ b)) = Some (EmptyString, b)). cbn [cut_last].
    apply cut_last_none in H. rewrite H.
    assert (E : strip_prefix (String c sub) (String c (sub +:+ b)) = Some b) by by apply strip_prefix_spec. by rewrite E.
  - change (String x a +:+ String c sub +:+ b) with (String x (a +:+ String c sub +:+ b)). cbn [cut_last]. by rewrite IH.
Qed.

Definition colon : ascii := ":"%char.
Lemma split_colon x y u v : exists_byte (Ascii.eqb colon) x = false -> exists_byte (Ascii.eqb colon) u = false ->
  x +:+ String colon y = u +:+ String colon v -> x = u /\ y = v.
Proof.
  revert u. induction x as [|c x IH]; intros [|d u]; cbn [exists_byte]; intros Hx Hu H.
  - by injection H as ->.
  - injection H as <- _. by rewrite Ascii.eqb_refl in Hu.
  - injection H as -> _. by rewrite Ascii.eqb_refl in Hx.
  - change (String c (x +:+ String colon y) = String d (u +:+ String colon v)) in H. injection H as -> H. apply orb_false_iff in Hx as [_ Hx], Hu as [_ Hu]. by destruct (IH u Hx Hu H) as [-> ->].
Qed.
Lemma colon_cases x : exists_byte (Ascii.eqb colon) x = false \/
  exists x1 x2, x = x1 +:+ String colon x2 /\ exists_byte (Ascii.eqb colon) x1 = false.
Proof.
  induction x as [|c x IH]; [by left|]. cbn [exists_byte]. destruct (Ascii.eqb colon c) eqn:E.
  - right. apply Ascii.eqb_eq in E as <-. by exists EmptyString, x.
  - destruct IH as [IH|(x1 & x2 & -> & H1)]; [by left|]. right. exists (String c x1), x2. split; [done|].
    cbn [exists_byte]. by rewrite E, H1.
Qed.

Lemma tag_behind c m b : exists_byte (Ascii.eqb colon) (String c m) = false ->
  contains b (String c m +:+ ":") = false -> contains ((m +:+ ":") +:+ b) (String c m +:+ ":") = false.
Proof.
  intros Hm Hb. destruct (contains ((m +:+ ":") +:+ b) _) eqn:E; [|done].
  apply contains_spec in E as (x & y & E). rewrite <- !app_assoc_str in E.
  assert (Hm' : exists_byte (Ascii.eqb colon) m = false) by (simpl in Hm; by apply orb_false_iff in Hm as [_ ?]).
  destruct (colon_cases x) as [Hx|(x1 & x2 & -> & Hx1)].
  - assert (Hxm : exists_byte (Ascii.eqb colon) (x +:+ String c m) = false) by by rewrite exists_byte_app, Hx.
    rewrite (app_assoc_str x (String c m)) in E. destruct (split_colon _ _ _ _ Hm' Hxm E) as [Hl _].
    apply (f_equal String.length) in Hl. rewrite length_app_str in Hl. simpl in Hl. lia.
  - change ((x1 +:+ String colon x2) +:+ _) with ((x1 +:+ String colon x2) +:+ (String c m +:+ ":" +:+ y)) in E.
    rewrite <- app_assoc_str in E. change (String colon x2 +:+ ?z) with (String colon (x2 +:+ z)) in E.
    destruct (split_colon _ _ _ _ Hm' Hx1 E) as [_ ->].
    assert (contains (x2 +:+ String c m +:+ ":" +:+ y) (String c m +:+ ":") = true).
    { apply contains_spec. exists x2, y. by rewrite <- !app_assoc_str. }
    congruence.
Qed.

Lemma cut_line_app d rest : all_bytes (base_digit 10) d = true -> cut_line (d +:+ str1 newline +:+ rest) = (d, Some rest).
Proof.
  induction d as [|c d IH]; [done|]. rewrite all_bytes_cons. intros [Hc Hd]%andb_true_iff.
  change (String c d +:+ str1 newline +:+ rest) with (String c (d +:+ str1 newline +:+ rest)). cbn [cut_line].
  rewrite IH by done. destruct (Ascii.eqb_spec c newline) as [->|]; [done|]. done.
Qed.

Lemma digits_trim d : all_bytes (base_digit 10) d = true -> trim_space d = d.
Proof.
  intros H. assert (Hc : forall c r, base_digit 10 c = true -> space_width (String c r) = 0%nat).
  { intros c r. unfold base_digit. intros [Hc _]%andb_true_iff. unfold is_digit, byte_in in Hc.
    apply andb_true_iff in Hc as [H1 H2]. apply N.leb_le in H1, H2. unfold space_width, decode_rune.
    replace (byte_in 0 127 c) with true by (symmetry; apply andb_true_iff; split; apply N.leb_le; lia). unfold rune_is_space.
    repeat match goal with |- context [(?a =? ?b)%N] => replace (a =? b)%N with false by (symmetry; apply N.eqb_neq; lia) end.
    repeat match goal with |- context [(?a <=? ?b)%N] => let E := fresh in destruct (a <=? b)%N eqn:E end; try done;
      repeat match goal with E : (_ <=? _)%N = true |- _ => apply N.leb_le in E end; lia. }
  assert (Hs : forall s, all_bytes (base_digit 10) s = true -> trim_space_right s = s).
  { induction s as [|c s IH]; [done|]. rewrite all_bytes_cons. intros [H1 H2]%andb_true_iff.
    cbn [trim_space_right all_space]. rewrite (Hc c s H1). by rewrite IH. }
  unfold trim_space. destruct d as [|c d]; [done|]. rewrite trim_space_left_fixed; [by apply Hs|].
  rewrite all_bytes_cons in H. apply andb_true_iff in H as [H _]. by apply Hc.
Qed.

Lemma contains_skip c sub x s : Ascii.eqb c x = false -> contains (String x s) (String c sub) = contains s (String c sub).
Proof.
  intros H. cbn [contains]. unfold has_prefix. cbn [strip_prefix].
  destruct (Ascii.eqb c x) eqn:E; [done|]. by rewrite ?E.
Qed.
Lemma contains_digits d rest sub : all_bytes (base_digit 10) d = true ->
  contains (d +:+ rest) (String "_" sub) = contains rest (String "_" sub).
Proof.
  induction d as [|x d IH]; [done|]. rewrite all_bytes_cons. intros [Hx Hd]%andb_true_iff.
  change (String x d +:+ rest) with (String x (d +:+ rest)). rewrite contains_skip; [by apply IH|].
  destruct (Ascii.eqb_spec "_" x) as [<-|]; [by vm_compute in Hx | done].
Qed.

Lemma parse_uint_some base s v : 0 <= base -> parse_uint base s = Some v -> all_bytes (base_digit base) s = true /\ 0 <= v < 2^32.
Proof.
  intros Hb. unfold parse_uint. destruct (str_eq s ""); [done|]. destruct (all_bytes (base_digit base) s) eqn:E; [|done].
  cbv zeta. cbn [negb orb]. destruct (number_from base s 0 <? 2^32) eqn:Hlt; [|done]. intros [= <-]. split; [done|].
  assert (Hpos : forall s acc, 0 <= acc -> all_bytes (base_digit base) s = true -> 0 <= number_from base s acc).
  { clear -Hb. induction s as [|c s IH]; cbn [number_from]; intros acc Ha; [done|]. rewrite all_bytes_cons.
    intros [H1 H2]%andb_true_iff. apply IH; [|done].
    assert (0 <= digit_value c); [|nia].
    unfold base_digit in H1. apply andb_true_iff in H1 as [H1 _]. apply andb_true_iff in H1 as [H1 _].
    apply N.leb_le in H1. unfold digit_value. lia. }
  specialize (Hpos s 0 ltac:(lia) E). lia.
Qed.

Lemma ensure_marker_head n : exists m, ensure_marker n = String "_" m.
Proof. by eexists. Qed.

(** the frame of an ensure check is read back whatever the check printed: behind
    any output, other frames of the same marker among it, the last frame gives its code, and
    the text around it, without line ends next to it, is what is left of the
    output.  Conversely, a code comes only from an output in which this call's marker,
    a colon and the code are found. *)
Theorem ensure_frame_exact n :
  exists_byte (Ascii.eqb colon) n = false ->
  (forall before d code after, parse_uint 10 d = Some code ->
     contains after (ensure_marker n +:+ ":") = false ->
     extractEnsureFrame (before +:+ ensure_marker n +:+ ":" +:+ d +:+ str1 newline +:+ after) (ensure_marker n) =
       (join_clean (trim_right is_eol before) (trim_left is_eol after), code, true)) /\
  (forall output clean code, extractEnsureFrame output (ensure_marker n) = (clean, code, true) ->
     exists before line rest, output = before +:+ ensure_marker n +:+ ":" +:+ line +:+ rest /\
       parse_uint 10 (trim_space line) = Some code /\ 0 <= code < 2^32).
Proof.
  intros Hn. destruct (ensure_marker_head n) as [m Hm].
  assert (Hc : exists_byte (Ascii.eqb colon) (ensure_marker n) = false).
  { unfold ensure_marker. rewrite !exists_byte_app, Hn. done. }
  rewrite Hm in Hc |- *. split.
  - intros before d code after Hd Hafter.
    assert (Hdig : all_bytes (base_digit 10) d = true).
    { by destruct (parse_uint_some 10 d code ltac:(done) Hd). }
    unfold extractEnsureFrame.
    replace (before +:+ String "_" m +:+ ":" +:+ d +:+ str1 newline +:+ after)
      with (before +:+ String "_" (m +:+ ":") +:+ d +:+ str1 newline +:+ after)
      by (rewrite (app_assoc_str (String "_" m)); done).
    change (String "_" m +:+ ":") with (String "_" (m +:+ ":")). rewrite cut_last_here.
    + rewrite cut_line_app by done. rewrite digits_trim, Hd by done. done.
    + apply (tag_behind "_" m); [done|].
      change (String "_" m +:+ ":") with (String "_" (m +:+ ":")). rewrite contains_digits by done.
      change (str1 newline +:+ after) with (String newline after). by rewrite contains_skip.
  - intros output clean code. unfold extractEnsureFrame.
    destruct (cut_last _ output) as [[before rest]|] eqn:E; [|done]. apply cut_last_spec in E as ->.
    destruct (cut_line rest) as [line behind] eqn:El. destruct (parse_uint 10 (trim_space line)) as [v|] eqn:Ep; [|done].
    intros [= _ ->]. assert (Hr : exists r, rest = line +:+ r).
    { clear -El. revert line behind El. induction rest as [|c rest IH]; cbn [cut_line]; intros line behind.
      - intros [= <- _]. by exists EmptyString.
      - destruct (Ascii.eqb c newline); [intros [= <- _]; eexists; done|].
        destruct (cut_line rest) as [l b] eqn:E. intros [= <- _]. destruct (IH _ _ eq_refl) as [r ->]. by exists r. }
    destruct Hr as [r ->]. exists before, line, r. split; [by rewrite !app_assoc_str|]. split; [done|].
    by destruct (parse_uint_some 10 _ _ ltac:(done) Ep).
Qed.

(** A check that prints a frame of its own before the real one. *)
Lemma ensure_frame_exact_witness :
  extractEnsureFrame ("up" +:+ str1 newline +:+ ensure_marker "00ff" +:+ ":0" +:+ str1 newline +:+
    ensure_marker "00ff" +:+ ":" +:+ "3" +:+ str1 newline +:+ "") (ensure_marker "00ff") =
  ("up" +:+ str1 newline +:+ ensure_marker "00ff" +:+ ":0", 3, true).
Proof.
  refine (eq_trans _ (proj1 (ensure_frame_exact "00ff" eq_refl) ("up" +:+ str1 newline +:+ ensure_marker "00ff" +:+ ":0" +:+ str1 newline)
    "3" 3 "" eq_refl eq_refl)).
  vm_compute; reflexivity.
Defined.

(** * One adapter for an ensure step *)
Lemma merge_again c p : merge_execution (merge_execution c p) p = merge_execution c p.
Proof.
  destruct c as [ci cd cl], p as [pi pd pl]. unfold merge_execution, EffectiveInterpreter. simpl.
  destruct (str_eq ci "") eqn:E1, (str_eq pi "") eqn:E2, (str_eq cd "") eqn:E3, (str_eq pd "") eqn:E4,
    (str_eq ci InterpreterServer) eqn:E5, (str_eq pi InterpreterServer) eqn:E6, cl as [[]|], pl as [[]|]; simpl;
    rewrite ?E1, ?E2, ?E3, ?E4, ?E5, ?E6; simpl; rewrite ?E1, ?E2, ?E3, ?E4, ?E5, ?E6; simpl; try done;
    destruct (str_eq ci pi) eqn:E7; simpl; rewrite ?str_eq_refl, ?E1, ?E2, ?E3, ?E4, ?E5, ?E6, ?E7; simpl;
    rewrite ?str_eq_refl; try done; apply str_eq_spec in E7 as ->; congruence.
Qed.

(** A complete adapter is not changed by layers without an interpreter and a login mode. *)
Lemma merge_adapter a p : isEnsureCompatible a = true -> Interpreter p = "" -> Login p = None -> merge_execution a p = a.
Proof.
  destruct a as [i d l], p as [pi pd pl]. unfold isEnsureCompatible, merge_execution. cbn [Interpreter LaunchDialect Login]. intros [Hd Hi]%andb_true_iff -> ->.
  apply one_of_spec in Hd, Hi. assert (Hd' : str_eq d "" = false) by (apply str_eq_false; set_solver).
  assert (Hi' : str_eq i "" = false) by (apply str_eq_false; set_solver).
  assert (Hs : str_eq i InterpreterServer = false) by (apply str_eq_false; set_solver).
  rewrite Hd', Hi', Hs. simpl. by destruct l.
Qed.

Lemma compatible_controlled a : isEnsureCompatible a = true ->
  NeedsExecutionProbe (Some a) = false /\ str_eq (EffectiveInterpreter (Some a)) InterpreterServer = false /\
  one_of (Interpreter a) [InterpreterCsh; InterpreterTcsh] = false /\ str_eq (Interpreter a) "" = false.
Proof.
  destruct a as [i d l]. unfold isEnsureCompatible, NeedsExecutionProbe, EffectiveInterpreter. cbn [Interpreter LaunchDialect Login].
  intros [_ Hi]%andb_true_iff. apply one_of_spec in Hi.
  assert (Hi' : str_eq i "" = false) by (apply str_eq_false; set_solver). rewrite Hi'.
  split; [done|]. split; [|split; [|done]]; [apply str_eq_false | apply one_of_false]; set_solver.
Qed.

Lemma validate_login_false a i : isEnsureCompatible (mkExec i (LaunchDialect a) (Some false)) = true ->
  validate (Some (mkExec i (LaunchDialect a) (Some false))) = Ok tt.
Proof.
  unfold isEnsureCompatible. cbn [Interpreter LaunchDialect Login]. intros [Hd Hi]%andb_true_iff. apply one_of_spec in Hd, Hi.
  set_unfold. destruct_or! Hd; destruct_or! Hi; try done; rewrite Hd, Hi; reflexivity.
Qed.

(** The layers below the step's. *)
Lemma effective_layers step lower e : EffectiveExecution (step :: lower) = Ok e ->
  exists L, resolve_layers lower = Ok L /\ ResolveExecution step L = Ok e /\
    (forall a, isEnsureCompatible a = true -> validate (Some a) = Ok tt ->
       (match L with Some p => merge_execution a p = a | None => True end) ->
       EffectiveExecution (Some a :: lower) = Ok (Some a)).
Proof.
  unfold EffectiveExecution. intros H. apply result_bind_ok in H as (e' & H & Hs).
  apply bind_reject_ok in Hs as [_ [= ->]]. simpl in H. apply result_bind_ok in H as (L & HL & H).
  exists L. split; [done|]. split; [done|]. intros a Ha Hv Hm. cbn [resolve_layers]. rewrite HL. cbn [result_bind].
  destruct (compatible_controlled a Ha) as (_ & Hserver & _).
  assert (Hr : ResolveExecution (Some a) L = Ok (Some a)).
  { unfold ResolveExecution. destruct L as [p|]; [|rewrite Hv; cbn [result_bind]; by rewrite exec_clone_id].
    assert (Hp : validate (Some p) = Ok tt).
    { unfold ResolveExecution in H. destruct step; result_inv; match goal with H : validate (Some p) = Ok ?u |- _ => by destruct u end. }
    rewrite Hv, Hp. cbn [result_bind]. rewrite Hm. by rewrite Hv. }
  rewrite Hr. cbn [result_bind]. by rewrite Hserver.
Qed.

Lemma merge_self p : merge_execution p p = p.
Proof.
  destruct p as [i d l]. unfold merge_execution. cbn [Interpreter LaunchDialect Login]. rewrite str_eq_refl.
  destruct (str_eq i ""), (str_eq d ""), (str_eq i InterpreterServer), l as [[]|]; cbn [negb andb orb];
    rewrite ?andb_false_r; done.
Qed.

Lemma effective_interpreter layers : forall e, resolve_layers layers = Ok e ->
  hasExplicitInterpreter layers = match e with Some c => negb (str_eq (Interpreter c) "") | None => false end.
Proof.
  induction layers as [|l layers IH]; cbn [resolve_layers]; intros e H; [by injection H as <-|].
  apply result_bind_ok in H as (L & HL & H). specialize (IH _ HL).
  unfold hasExplicitInterpreter in *. cbn [existsb]. rewrite IH. clear IH HL. unfold ResolveExecution in H.
  destruct l as [c|], L as [p|]; result_inv; rewrite ?exec_clone_id, ?orb_false_r; try done.
  cbn [Interpreter]. unfold merge_execution.
  destruct (str_eq (Interpreter c) "") eqn:E; cbn [negb orb]; [done|].
  destruct (_ || _); cbn [Interpreter]; by rewrite E.
Qed.

Section AdapterLemmas.
Context {W : Type} {client : Client W}.
Variable plan_digest : CommandPlan -> string.
Variable exec_text : exec_error -> string.
Variable globalExec settingsExec : option ExecutionConfig.
Local Notation resolve := (resolveEnsureExecution exec_text globalExec settingsExec).
Local Notation shell := (runShell plan_digest exec_text globalExec settingsExec).
Local Notation shell_effective := (runShellEffective plan_digest exec_text).

(** What the layers below let through unchanged. *)
Lemma frozen_layers step lower e a : EffectiveExecution (step :: lower) = Ok e ->
  isEnsureCompatible a = true -> validate (Some a) = Ok tt -> (e = Some a \/ NeedsExecutionProbe e = true) ->
  EffectiveExecution (Some a :: lower) = Ok (Some a).
Proof.
  intros H Ha Hv Hcase. destruct (effective_layers _ _ _ H) as (L & HL & He & Hkeep). apply Hkeep; [done..|].
  destruct L as [p|]; [|done]. unfold ResolveExecution in He. destruct step as [c|].
  - assert (e = Some (merge_execution c p)) as -> by (by result_inv).
    destruct Hcase as [[= <-]|Hprobe]; [apply merge_again|].
    unfold NeedsExecutionProbe in Hprobe. bool_facts. apply merge_adapter; [done|..];
      unfold merge_execution in *; destruct (str_eq (Interpreter c) "") eqn:E; cbn [negb Interpreter Login] in *;
      try (by apply str_eq_spec); try (by destruct (Login c)); exfalso;
      match goal with H : str_eq (Interpreter (if ?b then _ else _)) "" = true |- _ => destruct b; cbn [Interpreter] in H; congruence end.
  - assert (e = Some p) as -> by (by result_inv; rewrite exec_clone_id).
    destruct Hcase as [[= <-]|Hprobe]; [apply merge_self|].
    unfold NeedsExecutionProbe in Hprobe. bool_facts. apply merge_adapter; [done| |done]. by apply str_eq_spec.
Qed.

Lemma adapter_frozen step node w c w1 :
  resolve step node w = (Ok c, w1) ->
  isEnsureCompatible c = true /\ validate (Some c) = Ok tt /\
  (forall w', resolve (Some c) node w' = (Ok c, w')) /\
  (forall cmd sudo w', shell cmd (Some c) sudo node w' = shell_effective cmd (Some c) sudo w') /\
  (hasExplicitInterpreter [step; settingsExec; node; globalExec] = true ->
     w1 = w /\ EffectiveExecution [step; settingsExec; node; globalExec] = Ok (Some c)).
Proof.
  intros H. unfold resolveEnsureExecution in H.
  destruct (EffectiveExecution [step; settingsExec; node; globalExec]) as [e|] eqn:E; [|done].
  set (lower := [settingsExec; node; globalExec]) in *.
  assert (Hexp : hasExplicitInterpreter (step :: lower) = match e with Some c => negb (str_eq (Interpreter c) "") | None => false end).
  { apply effective_interpreter. unfold EffectiveExecution in E. apply result_bind_ok in E as (e' & E & E').
    apply bind_reject_ok in E' as [_ [= <-]]. done. }
  unfold io_bind in H. destruct (ProbeControlledExecution exec_text e w) as [probed w2] eqn:Ep.
  destruct probed as [[c0|]|]; [|done..]. apply pair_equal_spec in H as [Hc ->].
  apply bind_reject_ok in Hc as [Hserver Hc]. apply bind_reject_ok in Hc as [Hcompat Hc]. apply Ok_inj in Hc.
  apply negb_false_iff in Hcompat. rewrite Hc in Hcompat.
  assert (Hv0 : validate (Some c0) = Ok tt /\ (e = Some c0 /\ w1 = w \/ NeedsExecutionProbe e = true)).
  { unfold ProbeControlledExecution in Ep. destruct (validate e) as [[]|] eqn:Ev; [|done].
    destruct (NeedsExecutionProbe e) eqn:En; simpl in Ep.
    - unfold io_bind in Ep. destruct (ProbeExecutionConfig w) as [[pr|] w3]; [|done]. injection Ep as Ep <-.
      apply result_bind_ok in Ep as ([] & Hv & [= Hp]). unfold lift in Hv. apply map_err_ok in Hv. rewrite Hp in Hv. auto.
    - injection Ep as Ep <-. rewrite exec_clone_id in Ep. subst e. auto. }
  destruct Hv0 as [Hv0 Hcase].
  assert (Hfin : validate (Some c) = Ok tt /\ (e = Some c /\ w1 = w \/ NeedsExecutionProbe e = true)).
  { destruct (negb (hasExplicitInterpreter (step :: lower)) && one_of (Interpreter c0) [InterpreterCsh; InterpreterTcsh]) eqn:Ef;
      [|by subst c0].
    apply andb_true_iff in Ef as [Hne Hcsh]. destruct Hcase as [[-> ->]|Hprobe].
    { apply negb_true_iff in Hne. rewrite Hexp in Hne. apply negb_false_iff, str_eq_spec in Hne. by rewrite Hne in Hcsh. }
    split; [|by right]. unfold fallbackEnsureInterpreter in Hc.
    destruct (CachedExecutionProbe w1) as [cached|]; [|by subst c0].
    destruct (find _ _) as [i|]; [|by subst c0]. subst c. by apply validate_login_false. }
  destruct Hfin as [Hv Hcase']. clear Hcase Hv0 Hserver.
  assert (Hagain : EffectiveExecution (Some c :: lower) = Ok (Some c)).
  { eapply frozen_layers; [exact E|done..|]. destruct Hcase' as [[? _]|?]; auto. }
  destruct (compatible_controlled c Hcompat) as (Hnp & Hns & Hncsh & _).
  split; [done|]. split; [done|]. split; [|split].
  - intros w'. unfold resolveEnsureExecution. fold lower. rewrite Hagain. unfold io_bind, ProbeControlledExecution.
    rewrite Hv, Hnp. cbn [negb]. unfold io_ret. rewrite exec_clone_id. cbv iota beta. rewrite Hns, Hncsh, andb_false_r, Hcompat. done.
  - intros cmd sudo w'. unfold runShell. fold lower. by rewrite Hagain.
  - intros Hex. destruct Hcase' as [[-> ->]|Hprobe]; [done|]. rewrite Hexp in Hex. exfalso.
    destruct e as [c'|]; [|done]. unfold NeedsExecutionProbe in Hprobe. bool_facts. congruence.
Qed.

(** the adapter an ensure step settles on is a valid one of the four shells over
    a quoting dialect, and it is settled for the whole step: resolved a second time, for the check
    and for its verification, it is itself, without another probe of the host, and the
    action runs under exactly it.  An interpreter that any layer of the configuration
    names is never replaced. *)
Theorem ensure_adapter_frozen step node w c w1 :
  resolve step node w = (Ok c, w1) ->
  isEnsureCompatible c = true /\ validate (Some c) = Ok tt /\
  (forall w', resolve (Some c) node w' = (Ok c, w')) /\
  (forall cmd sudo w', shell cmd (Some c) sudo node w' = shell_effective cmd (Some c) sudo w') /\
  (hasExplicitInterpreter [step; settingsExec; node; globalExec] = true ->
     w1 = w /\ EffectiveExecution [step; settingsExec; node; globalExec] = Ok (Some c)).
Proof. apply adapter_frozen. Qed.
End AdapterLemmas.

(** * What an ensure step does *)
Section EnsureLemmas.
Context {W : Type} {client : Client W}.
Variable plan_digest : CommandPlan -> string.
Variable exec_text : exec_error -> string.
Variable globalExec settingsExec : option ExecutionConfig.
Local Notation resolve := (resolveEnsureExecution exec_text globalExec settingsExec).
Local Notation shell_effective := (runShellEffective plan_digest exec_text).
Local Notation check := (executeEnsureCheck plan_digest exec_text globalExec settingsExec).
Local Notation ensure := (runEnsure plan_digest exec_text globalExec settingsExec).

(** The remote evidence that a check ran to its end with [code]: the host was sent the
    check in the frame of a new marker, the session ended with exits only, without a signal
    or a local error, and the frame was in its output. *)
Inductive confirmed (command : string) (a : ExecutionConfig) (w : W) (clean : string) (code : Z) (w' : W) : bool -> Prop :=
  | confirmed_plain n w1 plan r :
      nonce w = (n, w1) ->
      PlanCommand plan_digest (wrapEnsureCheck command (ensure_marker n) (Interpreter a)) (command_options (Some a)) = Ok plan ->
      ExecuteCommand plan w1 = (r, w') ->
      cr_outcome r = ExecutionCompleted -> extractExecutionLayerError (cr_execErr r) = None ->
      cr_cleanupErr r = None -> cr_ioErr r = None -> cr_signal r = "" ->
      extractEnsureFrame (cr_output r) (ensure_marker n) = (clean, code, true) ->
      confirmed command a w clean code w' false
  | confirmed_sudo n w1 out err :
      nonce w = (n, w1) ->
      RunWithSudoExecution (wrapEnsureCheck command (ensure_marker n) (Interpreter a)) (Some a) w1 = ((out, err), w') ->
      (forall e, err = Some e -> exists statuses, statuses <> [] /\ exits (unwrapJoinedErrors e) statuses) ->
      extractEnsureFrame out (ensure_marker n) = (clean, code, true) ->
      confirmed command a w clean code w' true.

Lemma framed_ok out marker code signal clean n r : framed out marker code signal = (clean, n, r) ->
  is_failed r = false -> extractEnsureFrame out marker = (clean, n, true).
Proof. unfold framed. destruct (extractEnsureFrame out marker) as [[c v] []]; intros [= <- <- <-]; done. Qed.

Lemma is_set_false {A} (o : option A) : is_set o = false <-> o = None.
Proof. destruct o; split; done. Qed.

Lemma check_confirmed command a sudo node w clean code r w' :
  (forall w, resolve (Some a) node w = (Ok a, w)) ->
  check command (Some a) sudo node w = ((clean, code, r), w') -> is_failed r = false ->
  confirmed command a w clean code w' sudo.
Proof.
  intros Ha H Hr. unfold executeEnsureCheck, io_bind in H. rewrite Ha in H.
  destruct (nonce w) as [n w1] eqn:En. destruct sudo.
  - unfold executeEnsureCheckSudo, io_bind, io_ret in H.
    destruct (RunWithSudoExecution _ _ w1) as [[out err] w2] eqn:Er. apply pair_equal_spec in H as [H <-].
    assert (Hf : (forall e, err = Some e -> exists statuses, statuses <> [] /\ exits (unwrapJoinedErrors e) statuses) /\
      extractEnsureFrame out (ensure_marker n) = (clean, code, true)); [|destruct Hf; by econstructor].
    destruct err as [e|]; [|split; [done | by eapply framed_ok]].
    destruct (errors_is KExecutionValidation e); [by injection H as <- <- <-|].
    set (c := classifySessionError (Some e)) in *. cbv zeta in H.
    destruct (c_canceled c || is_set (c_other c) || negb (c_hasExit c)) eqn:E1; [by injection H as <- <- <-|].
    destruct (is_set (c_cleanup c) || is_set (c_io c)) eqn:E2; [by injection H as <- <- <-|].
    destruct (negb (str_eq (c_signal c) "")) eqn:E3; [by injection H as <- <- <-|].
    split; [|by eapply framed_ok]. intros ? [= <-]. bool_facts.
    assert (Hclean : clean_class c = true).
    { unfold clean_class. repeat match goal with H : is_set _ = false |- _ => apply is_set_false in H as -> end.
      match goal with H : c_canceled c = false |- _ => rewrite H end. by rewrite E3. }
    apply classify_clean in Hclean as [ss Hss]. exists ss. split; [|done].
    destruct (classify_exits _ _ Hss) as [_ He]. unfold c, classifySessionError in *. intros ->.
    match goal with H : c_hasExit _ = true |- _ => rewrite He in H end. done.
  - unfold executeEnsureCheckPlanned, io_bind, io_ret in H.
    destruct (PlanCommand _ _ _) as [plan|] eqn:Ep; [|by injection H as <- <- <- <-].
    destruct (ExecuteCommand plan w1) as [res w2] eqn:Er. apply pair_equal_spec in H as [H <-]. cbv zeta in H.
    destruct (negb (str_eq (cr_outcome res) ExecutionCompleted)) eqn:E1; [by injection H as <- <- <-|].
    destruct (extractExecutionLayerError (cr_execErr res)) eqn:E2; [by injection H as <- <- <-|].
    destruct (is_set (cr_cleanupErr res) || is_set (cr_ioErr res)) eqn:E3; [by injection H as <- <- <-|].
    destruct (negb (str_eq (cr_signal res) "")) eqn:E4; [by injection H as <- <- <-|].
    apply negb_false_iff, str_eq_spec in E1, E4. apply orb_false_iff in E3 as [E3 E5].
    apply is_set_false in E3, E5. eapply confirmed_plain; try done. by eapply framed_ok.
Qed.

(** How an ensure step ends: without an adapter, after the first check, or after the
    action and the second check. *)
Definition ensure_outcome spec step sudo node (w : W) (r : StepResult) (w' : W) : Prop :=
  (exists e, resolve step node w = (Err e, w') /\ r = not_started e) \/
  exists a w1, resolve step node w = (Ok a, w1) /\
    ((exists clean code res, check (eCheck spec) (Some a) sudo node w1 = ((clean, code, res), w') /\
        r_status r ∈ [StatusFailed; StatusSkipped] /\
        (r_status r = StatusSkipped -> confirmed (eCheck spec) a w1 clean 0 w' sudo)) \/
     exists clean code w2 act w3, confirmed (eCheck spec) a w1 clean code w2 sudo /\ code <> 0 /\
        ensureCheckExecutionError (Interpreter a) code = None /\ shell_effective (eAction spec) (Some a) sudo w2 = (act, w3) /\
        (is_failed act = true /\ r_status r = StatusFailed /\ w' = w3 \/
         is_failed act = false /\ r_status r ∈ [StatusFailed; StatusChanged] /\ r_retryable r = false /\
           (r_status r = StatusChanged -> exists clean', confirmed (eCheck spec) a w3 clean' 0 w' sudo))).

(** C30: an ensure step runs its action only after the host proved, by the frame of a
    marker made for this one check, that the check ran to its end under the adapter
    of the step and is not satisfied, with a status that no shell reserves for failures to
    execute; the action runs under the same adapter.  The step is reported skipped only
    when that first check was satisfied, and changed only when a second one, after an action
    that did not fail, was. *)
Theorem ensure_converges spec step sudo node w r w' :
  ensure spec step sudo node w = (r, w') -> ensure_outcome spec step sudo node w r w'.
Proof.
  intros H. unfold runEnsure, io_bind, io_ret in H.
  unfold ensure_outcome.
  destruct (resolve step node w) as [[a|e] w1] eqn:Ea; [|injection H as <- <-; left; by exists e]. right. exists a, w1. split; [done|].
  destruct (adapter_frozen plan_digest _ _ _ _ _ _ _ _ Ea) as (_ & _ & Hagain & Hshell & _).
  destruct (check (eCheck spec) (Some a) sudo node w1) as [[[clean code] res] w2] eqn:Ec.
  destruct (is_failed res) eqn:Ef.
  { injection H as <- <-. left. exists clean, code, res. split; [done|]. apply str_eq_spec in Ef. rewrite Ef.
    split; [set_solver | done]. }
  pose proof (check_confirmed _ _ _ _ _ _ _ _ _ Hagain Ec Ef) as Hconf.
  destruct (Z.eqb_spec code 0) as [->|Hne].
  { injection H as <- <-. left. exists clean, 0, res. split; [done|]. split; [set_solver | done]. }
  destruct (ensureCheckExecutionError (Interpreter a) code) eqn:Er.
  { injection H as <- <-. left. exists clean, code, res. split; [done|]. split; [set_solver | done]. }
  rewrite Hshell in H. destruct (shell_effective (eAction spec) (Some a) sudo w2) as [act w3] eqn:Es.
  right. exists clean, code, w2, act, w3. repeat (split; [done|]).
  destruct (is_failed act) eqn:Efa.
  { injection H as <- <-. left. apply str_eq_spec in Efa. by rewrite <- Efa. }
  right. split; [done|]. destruct (check (eCheck spec) (Some a) sudo node w3) as [[[vout vcode] vres] w4] eqn:Ev.
  destruct (is_failed vres) eqn:Efv; [injection H as <- <-; split; [set_solver | done]|].
  pose proof (check_confirmed _ _ _ _ _ _ _ _ _ Hagain Ev Efv) as Hv.
  destruct (Z.eqb_spec vcode 0) as [->|Hne']; injection H as <- <-; (split; [set_solver|]); [|done].
  split; [done|]. eauto.
Qed.
End EnsureLemmas.

(** * Attempts *)
Section RetryLemmas.
Context {W : Type} {client : Client W}.

Lemma max_attempts_small s : 0 <= Retries s < 2^63 - 1 -> maxAttempts s = Retries s + 1.
Proof. intros H. unfold maxAttempts. rewrite Z.mod_small; lia. Qed.

(** Attempts in a row, each but the last repeatable and followed by a whole delay. *)
Inductive tries (d : @io W StepResult) (s : Step) : W -> list StepResult -> W -> Prop :=
  | tries_one w r w1 : d w = (r, w1) -> tries d s w [with_name (stName s) r] w1
  | tries_more w r w1 w2 rs w3 :
      d w = (r, w1) -> may_retry (with_name (stName s) r) = true -> retry_wait (delay s) w1 = (None, w2) ->
      tries d s w2 rs w3 -> tries d s w (with_name (stName s) r :: rs) w3.

Lemma retry_loop_tries (d : @io W StepResult) s n : forall attempt r0 w r w',
  (0 < n)%nat -> Z.of_nat n + attempt = Retries s + 1 -> retry_loop d s n attempt r0 w = (r, w') ->
  exists rs w1 final, tries d s w rs w1 /\ last rs = Some final /\ (length rs <= n)%nat /\
    ((may_retry final = false \/ length rs = n) /\ r = final /\ w' = w1 \/
     may_retry final = true /\ (length rs < n)%nat /\ exists e, retry_wait (delay s) w1 = (Some e, w') /\ r = interrupted e final).
Proof.
  induction n as [|n IH]; intros attempt r0 w r w' Hn Ha H; [lia|]. cbn [retry_loop] in H. unfold io_bind, io_ret in H.
  destruct (d w) as [r1 w1] eqn:Ed. cbv zeta in H. set (r1' := with_name (stName s) r1) in *.
  assert (Hone : (may_retry r1' = false \/ n = 0%nat) -> r = r1' -> w' = w1 ->
    exists rs w2 final, tries d s w rs w2 /\ last rs = Some final /\ (length rs <= S n)%nat /\
    ((may_retry final = false \/ length rs = S n) /\ r = final /\ w' = w2 \/
     may_retry final = true /\ (length rs < S n)%nat /\ exists e, retry_wait (delay s) w2 = (Some e, w') /\ r = interrupted e final)).
  { intros Hor -> ->. exists [r1'], w1, r1'. split; [by apply tries_one|]. split; [done|]. split; [simpl; lia|].
    left. split; [|done]. destruct Hor as [?| ->]; [by left | by right]. }
  destruct (may_retry r1') eqn:Em; simpl in H; [|injection H as <- <-; apply Hone; auto].
  destruct (attempt <? Retries s) eqn:Et; [|].
  - destruct (retry_wait (delay s) w1) as [[e|] w2] eqn:Ew.
    + injection H as <- <-. exists [r1'], w1, r1'. split; [by apply tries_one|]. split; [done|]. split; [simpl; lia|].
      right. split; [done|]. split; [simpl; lia|]. by exists e.
    + apply IH in H as (rs & w3 & final & Ht & Hl & Hlen & Hcase); [|lia..].
      exists (r1' :: rs), w3, final. split; [by eapply tries_more|]. split; [destruct rs; done|]. simpl. split; [lia|].
      destruct Hcase as [(Hor & ? & ?)|(? & ? & ?)]; [left|right].
      * split; [|done]. destruct Hor as [?|Hn']; [by left | right; lia].
      * split; [done|]. split; [lia | done].
  - assert (n = 0%nat) as -> by lia. simpl in H. unfold io_ret in H. injection H as <- <-. apply Hone; auto.
Qed.

Variable plan_digest : CommandPlan -> string.
Variable exec_text : exec_error -> string.
Variable template : gmap string string -> string -> result go_error string.
Variable globalExec settingsExec : option ExecutionConfig.
Variable vars sources : gmap string string.
Local Notation dispatch := (dispatchStep plan_digest exec_text template globalExec settingsExec vars sources).
Local Notation run_step := (runStep plan_digest exec_text template globalExec settingsExec vars sources).

(** a step is attempted at least once and at most once more than its retries, and an
    attempt is followed by another only when it failed with the confirmed exit of a completed
    command, without cleanup or I/O error, and a whole delay passed; the result is the
    last attempt's, or that the wait for the next was interrupted, with an unknown
    outcome and no further retry. *)
Theorem step_attempts s globalSudo node w r w' :
  0 <= Retries s < 2^63 - 1 -> run_step s globalSudo node w = (r, w') ->
  exists rs w1 final, tries (dispatch s (default globalSudo (stSudo s)) node) s w rs w1 /\ last rs = Some final /\
    1 <= Z.of_nat (length rs) <= Retries s + 1 /\
    ((may_retry final = false \/ Z.of_nat (length rs) = Retries s + 1) /\ r = final /\ w' = w1 \/
     may_retry final = true /\ Z.of_nat (length rs) <= Retries s /\
       exists e, retry_wait (delay s) w1 = (Some e, w') /\ r = interrupted e final).
Proof.
  intros Hs H. unfold runStep, retrying in H. rewrite max_attempts_small in H by done.
  apply retry_loop_tries in H as (rs & w1 & final & Ht & Hl & Hlen & Hcase); [|lia..].
  exists rs, w1, final. split; [done|]. split; [done|]. split; [destruct rs; [done | simpl in *; lia]|].
  destruct Hcase as [(Hor & ? & ?)|(? & ? & ?)]; [left | right]; (split; [|split; [lia || done|done]]); [|done].
  destruct Hor; [by left | right; lia].
Qed.

(** the attempts are counted in a 64-bit integer: a step with the largest number
    of retries is accepted, and is never attempted; its result is empty and not a failure. *)
Theorem retries_overflow s parent globalSudo node w :
  valid_step parent s -> Retries s = 2^63 - 1 ->
  step_validate parent s = Ok tt /\ run_step s globalSudo node w = (zero_result, w) /\ is_failed zero_result = false.
Proof.
  intros Hv Hr. split; [by apply step_validate_ok|]. split; [|done].
  unfold runStep, retrying, maxAttempts. rewrite Hr. reflexivity.
Qed.
End RetryLemmas.

(** * A host that answers from a list *)
Definition nothing : CommandResult := mkResult "" ExecutionNotStarted None "" "" false None None None.
Definition scripted : Client (list CommandResult) := {|
  ExecuteCommand _ w := match w with r :: w => (r, w) | [] => (nothing, []) end;
  RunWithSudoExecution _ _ w := (("", None), w);
  RunScriptWithExecution _ _ w := (("", None), w);
  RunScriptWithSudoExecution _ _ w := (("", None), w);
  ProbeExecutionConfig w := (Ok (mkProbe [InterpreterBash; InterpreterTcsh] (mkExec InterpreterTcsh LaunchCsh None)), w);
  CachedExecutionProbe _ := Some (mkProbe [InterpreterBash; InterpreterTcsh] (mkExec InterpreterTcsh LaunchCsh None));
  sftp_NewClient w := (None, w); sftp_Upload _ _ w := (None, w); sftp_Chmod _ _ w := (None, w); sftp_Close w := (None, w);
  ReadFile path w := (Ok path, w); CreateTemp w := (Ok "/tmp/xops-tmpl-1", w); WriteTemp _ _ w := (None, w);
  CloseTemp _ w := (None, w); Remove _ w := (None, w);
  nonce w := ("00ff", w); retry_wait _ w := (None, w)
|}.
Definition answers (output : string) (code : Z) : CommandResult :=
  mkResult "" ExecutionCompleted (Some code) "" output false None None None.
Definition frame_of (code : string) : string := str1 newline +:+ ensure_marker "00ff" +:+ ":" +:+ code +:+ str1 newline.
Definition sample_digest (p : CommandPlan) : string := "d".
Definition sample_text (e : exec_error) : string := "invalid".
Definition bash_posix : ExecutionConfig := mkExec InterpreterBash LaunchPOSIX None.

(** Nothing names an interpreter: the probe finds tcsh, the step falls back to bash. *)
Lemma ensure_adapter_frozen_witness :
  isEnsureCompatible (mkExec InterpreterBash LaunchCsh (Some false)) = true /\
  resolveEnsureExecution (client := scripted) sample_text None None (Some (mkExec InterpreterBash LaunchCsh (Some false))) None [nothing] =
    (Ok (mkExec InterpreterBash LaunchCsh (Some false)), [nothing]).
Proof.
  destruct (ensure_adapter_frozen (client := scripted) sample_digest sample_text None None None None []
    (mkExec InterpreterBash LaunchCsh (Some false)) [] ltac:(vm_compute; reflexivity)) as (H1 & _ & H2 & _).
  split; [exact H1 | exact (H2 [nothing])].
Defined.

Definition sample_ensure : EnsureSpec := mkEnsure "test -f /etc/motd" "touch /etc/motd".
Definition sample_world : list CommandResult := [answers (frame_of "1") 1; answers "" 0; answers (frame_of "0") 0].
Lemma ensure_converges_witness :
  ensure_outcome (client := scripted) sample_digest sample_text None None sample_ensure None false (Some bash_posix) sample_world
    (completed StatusChanged "" None) [].
Proof. apply ensure_converges. vm_compute; reflexivity. Defined.
(** A status kept for commands that cannot be executed stops the step before its action. *)
Example ensure_reserved :
  runEnsure (client := scripted) sample_digest sample_text None None sample_ensure None false (Some bash_posix) [answers (frame_of "127") 127] =
    (failed_with ExecutionCompleted "" (Leaf KPlain "ensure check exited with reserved execution-error status"), []).
Proof. vm_compute; reflexivity. Qed.

Definition retried_step : Step := mkStepSpec "run" "make" "" None None None None None 2 0 false.
Definition run_sample (s : Step) : list CommandResult -> StepResult * list CommandResult :=
  runStep (client := scripted) sample_digest sample_text (fun _ t => Ok t) None None ∅ ∅ s false (Some bash_posix).
Lemma step_attempts_witness :
  exists rs w1, tries (client := scripted) (dispatchStep (client := scripted) sample_digest sample_text (fun _ t => Ok t) None None ∅ ∅
      retried_step false (Some bash_posix)) retried_step [answers "" 1; answers "ok" 0; nothing] rs w1 /\
    1 <= Z.of_nat (length rs) <= 3.
Proof.
  destruct (step_attempts (client := scripted) sample_digest sample_text (fun _ t => Ok t) None None ∅ ∅ retried_step false (Some bash_posix)
    [answers "" 1; answers "ok" 0; nothing] (with_name "run" (mkStep "" StatusChanged ExecutionCompleted (Some 0) "" "" "ok" false None None None false))
    [nothing] ltac:(split; vm_compute; congruence) ltac:(vm_compute; reflexivity)) as (rs & w1 & final & Ht & _ & Hlen & _).
  exists rs, w1. split; [exact Ht | exact Hlen].
Defined.

Definition endless_step : Step := mkStepSpec "run" "make" "" None None None None None (2^63 - 1) 0 false.
Lemma retries_overflow_witness : run_sample endless_step [nothing] = (zero_result, [nothing]).
Proof.
  apply (retries_overflow (client := scripted) sample_digest sample_text (fun _ t => Ok t) None None ∅ ∅ endless_step None false (Some bash_posix) [nothing]).
  - constructor; [discriminate | | vm_compute; discriminate | reflexivity | reflexivity].
    exists (AShell "make"). split; [reflexivity | discriminate].
  - reflexivity.
Defined.
