(* ===== verification/Engine.v ===== *)
(** The playbook engine (pkg/playbook: engine.go and report.go, pkg/utils/worker_pool.go):
    a run over many hosts as a machine whose steps are the critical points of the worker
    pool and of [runOnHost] on each host, in any interleaving, with whatever the
    hosts answer and with the cancellation of the run at any moment. *)
From S2P Require Import Prelude GoStrings Exec StepErrors Playbook.
Open Scope Z_scope.

(** * Reports (report.go) *)
Definition HostStatusSuccess : string := "success".
Definition HostStatusFailed : string := "failed".
Definition HostStatusAborted : string := "aborted".
(** [hr_timed]: whether [Duration] has been set. *)
Record HostReport := mkHost {
  hr_node : string;
  hr_host : string;
  hr_steps : list StepResult;
  hr_status : string;
  hr_timed : bool
}.
Definition set_status (status : string) (r : HostReport) : HostReport :=
  mkHost (hr_node r) (hr_host r) (hr_steps r) status (hr_timed r).
Definition set_timed (r : HostReport) : HostReport := mkHost (hr_node r) (hr_host r) (hr_steps r) (hr_status r) true.
Definition set_host (address : string) (r : HostReport) : HostReport :=
  mkHost (hr_node r) address (hr_steps r) (hr_status r) (hr_timed r).
Definition add_step (s : StepResult) (r : HostReport) : HostReport :=
  mkHost (hr_node r) (hr_host r) (hr_steps r ++ [s]) (hr_status r) (hr_timed r).

(** [Summary]: ok, changed, skipped and failed. *)
Definition summary_step (acc : nat * nat * nat * nat) (s : StepResult) : nat * nat * nat * nat :=
  let '(ok, changed, skipped, failed) := acc in
  if str_eq (r_status s) StatusOK then (S ok, changed, skipped, failed)
  else if str_eq (r_status s) StatusChanged then (ok, S changed, skipped, failed)
  else if str_eq (r_status s) StatusSkipped then (ok, changed, S skipped, failed)
  else if str_eq (r_status s) StatusFailed then (ok, changed, skipped, S failed) else acc.
Definition Summary (r : HostReport) : nat * nat * nat * nat := foldl summary_step (0, 0, 0, 0)%nat (hr_steps r).
(** The totals of [RenderTo]: successful and failed hosts. *)
Definition host_totals (l : list HostReport) : nat * nat :=
  foldl (fun '(ok, failed) h => if str_eq (hr_status h) HostStatusSuccess then (S ok, failed) else (ok, S failed)) (0, 0)%nat l.

(** * One host ([runOnHost]) *)

(** Where the task of a host is: without a permit of the pool, before [Resolve],
    before [connect], at the head of the loop, behind its check of the context with a
    step to run, with its report made, with the report in the list, without its permit. *)
Inductive pc := PWait | PResolve | PConnect | PLoop (rest : list Step) | PStep (s : Step) (rest : list Step) | PDone | PAppended | PEnd.
Record host := mkTask { h_id : string; h_pc : pc; h_report : HostReport }.
Definition new_host (id : string) : host := mkTask id PWait (mkHost id "" [] "" false).

(** What comes from outside: the configuration, the connection, a finished step. *)
Inductive answer :=
  | AResolve (r : result go_error string)
  | AConnect (e : option go_error)
  | ANone
  | AResult (r : StepResult).

Definition resolve_step (e : go_error) : StepResult := with_name "<resolve>" (mkStep "" StatusFailed "" None "" "" "" false (Some e) None None false).
Definition connect_step (e : go_error) : StepResult := with_name "<connect>" (mkStep "" StatusFailed "" None "" "" "" false (Some e) None None false).

Section Engine.
(** The error policy, the permits of the pool and the steps of the playbook. *)
Variable onError : string.
Variable concurrency : nat.
Variable steps : list Step.

Definition abort_all : bool := str_eq onError OnErrorAbortAll.

(** The policy after a failure that is not ignored: the next place, the report, and whether
    [cancel] is called. *)
Definition on_failure (rest : list Step) (r : HostReport) : pc * HostReport * bool :=
  let r := set_status HostStatusFailed r in
  if str_eq onError OnErrorContinue then (PLoop rest, r, false)
  else if abort_all then (PDone, r, true)
  else (PDone, set_timed r, false).

(** One critical step of a host whose task runs. *)
Definition host_step (cancelled : bool) (a : answer) (h : host) : option (host * bool) :=
  let r := h_report h in
  let next p r cancel := Some (mkTask (h_id h) p r, cancel) in
  match h_pc h, a with
  | PResolve, AResolve (Err e) => next PDone (set_timed (add_step (resolve_step e) (set_status HostStatusFailed r))) abort_all
  | PResolve, AResolve (Ok address) => next PConnect (set_host address r) false
  | PConnect, AConnect (Some e) =>
      let status := if cancelled then HostStatusAborted else HostStatusFailed in
      next PDone (set_timed (add_step (connect_step e) (set_status status r))) (negb cancelled && abort_all)
  | PConnect, AConnect None => next (PLoop steps) (set_status HostStatusSuccess r) false
  | PLoop [], ANone => next PDone (set_timed r) false
  | PLoop (s :: rest), ANone =>
      if cancelled then next PDone (set_timed (set_status HostStatusAborted r)) false
      else next (PStep s rest) r false
  | PStep s rest, AResult result =>
      let r := add_step result r in
      if is_failed result && negb (IgnoreError s)
      then let '(p, r, cancel) := on_failure rest r in next p r cancel
      else next (PLoop rest) r false
  | _, _ => None
  end.

(** * The run *)
Record run := mkRun { hosts : list host; run_cancelled : bool; reports : list HostReport }.

Definition holds_permit (h : host) : bool := match h_pc h with PWait | PEnd => false | _ => true end.
Definition active (s : run) : nat := length (filter holds_permit (hosts s)).
Definition set_host_at (i : nat) (h : host) (s : run) : run := mkRun (<[i := h]> (hosts s)) (run_cancelled s) (reports s).
Definition move (h : host) (p : pc) : host := mkTask (h_id h) p (h_report h).

Inductive event := Permit (i : nat) | Host (i : nat) (a : answer) | Append (i : nat) | Release (i : nat) | CancelRun.

Definition engine_step (ev : event) (s : run) : option run :=
  match ev with
  | CancelRun => if run_cancelled s then None else Some (mkRun (hosts s) true (reports s))
  | Permit i =>
      match hosts s !! i with
      | Some (mkTask id PWait r) => if (active s <? concurrency)%nat then Some (set_host_at i (mkTask id PResolve r) s) else None
      | _ => None
      end
  | Host i a =>
      match hosts s !! i with
      | Some h =>
          match host_step (run_cancelled s) a h with
          | Some (h', cancel) => let s := set_host_at i h' s in Some (mkRun (hosts s) (run_cancelled s || cancel) (reports s))
          | None => None
          end
      | None => None
      end
  | Append i =>
      match hosts s !! i with
      | Some (mkTask id PDone r) =>
          let s := set_host_at i (mkTask id PAppended r) s in Some (mkRun (hosts s) (run_cancelled s) (reports s ++ [r]))
      | _ => None
      end
  | Release i =>
      match hosts s !! i with
      | Some (mkTask id PAppended r) => Some (set_host_at i (mkTask id PEnd r) s)
      | _ => None
      end
  end.

Definition step (s s' : run) : Prop := exists ev, engine_step ev s = Some s'.
Definition start (nodeIDs : list string) : run := mkRun (map new_host nodeIDs) false [].
Definition finished (s : run) : Prop := Forall (fun h => h_pc h = PEnd) (hosts s).
End Engine.

(** * [Run] *)
Definition defaultConcurrency : Z := 1.
Definition effective_concurrency (s : Settings) : Z := if Concurrency s =? 0 then defaultConcurrency else Concurrency s.
Definition effective_onError (s : Settings) : string := if str_eq (OnError s) "" then OnErrorStop else OnError s.

Inductive run_error := EPreload (e : script_error) | ETargets (e : target_error) | ENoTargets | ECanceled | ETimedOut.
(** What [Run] fixes before the pool starts: the scripts, the execution settings, and
    the hosts. *)
Definition prepare_run {provider : Provider} (stat : string -> result go_error Z) (read : string -> result go_error string) (p : Playbook)
    : result run_error (gmap string string * frozen * run) :=
  try sources := map_err EPreload (preloadScripts stat read p);;
  let f := snapshotExecution in
  try ids := map_err ETargets (resolveTargets (pbTargets p));;
  reject (length ids =? 0)%nat with ENoTargets;;
  Ok (sources, freeze_targets ids f, start ids).
(** The error next to the report: of the caller's context, or of the timeout of the
    settings. *)
Definition run_result (ctx_err timed_out : bool) : option run_error :=
  if ctx_err then Some ECanceled else if timed_out then Some ETimedOut else None.

Definition run_step_of (p : Playbook) : run -> run -> Prop :=
  step (effective_onError (pbSettings p)) (Z.to_nat (effective_concurrency (pbSettings p))) (Steps p).
Definition run_reachable (p : Playbook) (ids : list string) (s : run) : Prop :=
  reachable (fun s => s = start ids) (run_step_of p) s.

(** * Reports are faithful *)
Section EngineProofs.
Variable onError : string.
Variable concurrency : nat.
Variable steps : list Step.
Local Notation step := (step onError concurrency steps).
Local Notation engine_step := (engine_step onError concurrency steps).
Local Notation host_step := (host_step onError steps).
Local Notation abort_all := (abort_all onError).

(** A failure of a step that does not ignore errors. *)
Definition fatal (s : Step) (r : StepResult) : Prop := is_failed r = true /\ IgnoreError s = false.
Definition fine (done : list Step) (rs : list StepResult) : Prop := Forall2 (fun s r => ~ fatal s r) done rs.

(** What a report may say, when [c] tells whether the run has been cancelled: the node
    could not be resolved; it could not be reached; every step ran and none failed but those
    that ignore errors; the first other failure was the last step to run; every step ran
    though some failed; the cancellation came before the steps that are left. *)
Inductive report_of (c : bool) (r : HostReport) : Prop :=
  | unresolved e : hr_status r = HostStatusFailed -> hr_steps r = [resolve_step e] -> hr_timed r = true -> (abort_all = true -> c = true) ->
      report_of c r
  | unreachable e : (hr_status r = HostStatusFailed /\ (abort_all = true -> c = true) \/ hr_status r = HostStatusAborted /\ c = true) ->
      hr_steps r = [connect_step e] -> hr_timed r = true -> report_of c r
  | succeeded : hr_status r = HostStatusSuccess -> fine steps (hr_steps r) -> hr_timed r = true -> report_of c r
  | stopped done s rest rs res : hr_status r = HostStatusFailed -> onError <> OnErrorContinue ->
      steps = done ++ s :: rest -> hr_steps r = rs ++ [res] -> fine done rs -> fatal s res ->
      (abort_all = true -> c = true) -> hr_timed r = negb abort_all -> report_of c r
  | continued : hr_status r = HostStatusFailed -> onError = OnErrorContinue -> length (hr_steps r) = length steps ->
      ~ fine steps (hr_steps r) -> hr_timed r = true -> report_of c r
  | aborted done rest : hr_status r = HostStatusAborted -> c = true -> steps = done ++ rest -> rest <> [] ->
      length (hr_steps r) = length done -> (fine done (hr_steps r) \/ onError = OnErrorContinue) -> hr_timed r = true -> report_of c r.

Definition in_loop (rest : list Step) (r : HostReport) : Prop :=
  hr_timed r = false /\ exists done, steps = done ++ rest /\ length (hr_steps r) = length done /\
    (hr_status r = HostStatusSuccess /\ fine done (hr_steps r) \/
     onError = OnErrorContinue /\ hr_status r = HostStatusFailed /\ ~ fine done (hr_steps r)).
Definition host_ok (c : bool) (h : host) : Prop :=
  hr_node (h_report h) = h_id h /\
  match h_pc h with
  | PWait | PResolve | PConnect => hr_steps (h_report h) = [] /\ hr_timed (h_report h) = false
  | PLoop rest => in_loop rest (h_report h)
  | PStep s rest => in_loop (s :: rest) (h_report h)
  | PDone | PAppended | PEnd => report_of c (h_report h)
  end.

Lemma report_of_cancelled c c' r : (c = true -> c' = true) -> report_of c r -> report_of c' r.
Proof.
  intros Hc [e|e|?|done s rest rs res|?|done rest].
  - by apply (unresolved _ _ e); auto.
  - apply (unreachable _ _ e); [|done..]. destruct_or!; naive_solver.
  - by apply succeeded.
  - apply (stopped _ _ done s rest rs res); auto.
  - by apply continued.
  - apply (aborted _ _ done rest); auto.
Qed.
Lemma host_ok_cancelled c c' h : (c = true -> c' = true) -> host_ok c h -> host_ok c' h.
Proof. intros Hc [Hn H]. split; [done|]. destruct (h_pc h); try done; by apply (report_of_cancelled c). Qed.

Lemma fine_snoc done rs s r : length rs = length done -> fine (done ++ [s]) (rs ++ [r]) <-> fine done rs /\ ~ fatal s r.
Proof.
  intros H. unfold fine. split.
  - intros Hf. apply Forall2_app_inv in Hf as [? Hf]; [|done]. by inversion Hf.
  - intros [? ?]. apply Forall2_app; [done | by repeat constructor].
Qed.

Lemma host_step_ok c a h h' cancel : host_ok c h -> host_step c a h = Some (h', cancel) -> host_ok (c || cancel) h' /\ h_id h' = h_id h.
Proof.
  intros [Hn Hok] H. destruct h as [id p r]. cbn [h_pc h_report h_id] in *. unfold Engine.host_step in H. cbn [h_pc h_report h_id] in H.
  destruct p as [| | |rest|s rest| | |], a as [[addr|e]|[e|]| |res]; try done; try (by destruct rest).
  - injection H as <- <-. done.
  - injection H as <- <-. split; [|done]. split; [done|]. cbn [h_pc h_report]. apply (unresolved _ _ e); try done; simpl.
    + by destruct Hok as [-> _].
    + intros ->. apply orb_true_r.
  - injection H as <- <-. split; [|done]. split; [done|]. cbn [h_pc h_report]. apply (unreachable _ _ e); try done; simpl.
    + destruct c; [by right | left]. split; [done|]. by intros ->.
    + by destruct Hok as [-> _].
  - injection H as <- <-. split; [|done]. split; [done|]. cbn [h_pc h_report]. destruct Hok as [Hok Ht].
    split; [done|]. exists []. simpl. rewrite Hok. split; [done|]. split; [done|]. left. split; [done | constructor].
  - destruct rest as [|s rest].
    + injection H as <- <-. split; [|done]. split; [done|]. cbn [h_pc h_report].
      destruct Hok as (Ht & done & Hs & Hl & Hcase). rewrite app_nil_r in Hs. subst done.
      destruct Hcase as [[? ?]|(? & ? & ?)]; [by apply succeeded | by apply continued].
    + destruct c; injection H as <- <-; (split; [|done]); (split; [done|]); cbn [h_pc h_report]; [|done].
      destruct Hok as (Ht & done & Hs & Hl & Hcase). apply (aborted _ _ done (s :: rest)); try done.
      destruct Hcase as [[? ?]|(? & ? & ?)]; [by left | by right].
  - destruct Hok as (Ht & done & Hs & Hl & Hcase). destruct (is_failed res && negb (IgnoreError s)) eqn:Ef.
    + assert (Hfatal : fatal s res) by (bool_facts; done). unfold on_failure in H.
      assert (Hnot : ~ fine (done ++ [s]) (hr_steps r ++ [res])) by (rewrite fine_snoc by done; tauto).
      destruct (str_eq onError OnErrorContinue) eqn:Ec.
      * apply str_eq_spec in Ec. injection H as <- <-. split; [|done]. split; [done|]. cbn [h_pc h_report].
        split; [done|]. exists (done ++ [s]). simpl. rewrite <- app_assoc, !length_app, Hl. auto 10.
      * apply str_eq_false in Ec. destruct Hcase as [[Hst Hfine]|(? & _)]; [|done].
        destruct abort_all eqn:Ea; injection H as <- <-; (split; [|done]); (split; [done|]); cbn [h_pc h_report];
          apply (stopped _ _ done s rest (hr_steps r) res); try done; simpl; rewrite ?Ea; try done.
        intros _. apply orb_true_r.
    + assert (Hnf : ~ fatal s res) by (unfold fatal; destruct (is_failed res), (IgnoreError s); simpl in Ef; naive_solver).
      injection H as <- <-. split; [|done]. split; [done|]. cbn [h_pc h_report].
      split; [done|]. exists (done ++ [s]). simpl. rewrite <- app_assoc, !length_app, Hl. split; [done|]. split; [done|].
      rewrite fine_snoc by done. naive_solver.
Qed.

(** ** The whole run *)
Definition appended (h : host) : bool := match h_pc h with PAppended | PEnd => true | _ => false end.
Record run_ok (ids : list string) (s : run) : Prop := {
  ok_ids : map h_id (hosts s) = ids;
  ok_active : (active s <= concurrency)%nat;
  ok_hosts : Forall (host_ok (run_cancelled s)) (hosts s);
  ok_reports : reports s ≡ₚ map h_report (filter appended (hosts s))
}.

Lemma at_index {A} (l : list A) i x : l !! i = Some x ->
  exists l1 l2, l = l1 ++ x :: l2 /\ forall y, <[i := y]> l = l1 ++ y :: l2.
Proof.
  intros H. exists (take i l), (drop (S i) l). split; [by rewrite take_drop_middle|].
  intros y. apply insert_take_drop. by apply lookup_lt_Some in H.
Qed.

Lemma count_middle (f : host -> bool) (l1 l2 : list host) h :
  length (filter f (l1 ++ h :: l2)) = (length (filter f (l1 ++ l2)) + Nat.b2n (f h))%nat.
Proof. rewrite !filter_app, filter_cons. destruct (f h); simpl; rewrite ?length_app; simpl; lia. Qed.

Lemma host_step_places c a h h' cancel : host_step c a h = Some (h', cancel) ->
  holds_permit h = true /\ holds_permit h' = true /\ appended h = false /\ appended h' = false.
Proof.
  destruct h as [id p r]. unfold Engine.host_step. cbn [h_pc h_report h_id]. intros H.
  destruct p as [| | |rest|s rest| | |], a as [[addr|e]|[e|]| |res]; try done;
    unfold on_failure in H; repeat (case_match; simplify_eq/=); simplify_eq/=; done.
Qed.

Lemma run_ok_step ids s s' : run_ok ids s -> step s s' -> run_ok ids s'.
Proof.
  intros [Hi Ha Hh Hr] [ev H]. destruct s as [hs c rs]. cbn [hosts run_cancelled reports] in *. unfold active in *. cbn [hosts] in Ha.
  assert (Hput : forall i h h' c', hs !! i = Some h -> h_id h' = h_id h -> (c = true -> c' = true) -> host_ok c' h' ->
    map h_id (<[i := h']> hs) = ids /\ Forall (host_ok c') (<[i := h']> hs) /\
    exists l1 l2, hs = l1 ++ h :: l2 /\ <[i := h']> hs = l1 ++ h' :: l2).
  { intros i h h' c' Hl Hid Hc Hok. destruct (at_index _ _ _ Hl) as (l1 & l2 & -> & He). rewrite (He h').
    split; [by rewrite <- Hi, !map_app; simpl; rewrite Hid|]. split; [|by exists l1, l2].
    apply Forall_app in Hh as [H1 H2]. apply Forall_cons in H2 as [_ H2].
    apply Forall_app. split; [|apply Forall_cons; split; [done|]]; (eapply Forall_impl; [eassumption|]; intros; by eapply host_ok_cancelled). }
  destruct ev as [i|i a|i|i|]; cbn [Engine.engine_step hosts run_cancelled reports] in H.
  - destruct (hs !! i) as [[id [] r]|] eqn:El; try done. destruct (active _ <? concurrency)%nat eqn:Elt; [|done]. injection H as <-.
    assert (Hok := Forall_lookup_1 _ _ _ _ Hh El).
    destruct (Hput i _ (mkTask id PResolve r) c El eq_refl (fun H => H) Hok) as (H1 & H2 & l1 & l2 & -> & He).
    constructor; cbn [hosts run_cancelled reports set_host_at]; try done; unfold active, set_host_at; cbn [hosts]; rewrite He.
    + apply Nat.ltb_lt in Elt. unfold active in Elt. cbn [hosts] in Elt. rewrite count_middle in *. simpl in *. lia.
    + by rewrite Hr, !filter_app, !filter_cons.
  - destruct (hs !! i) as [h|] eqn:El; [|done]. destruct (host_step c a h) as [[h' cancel]|] eqn:Es; [|done]. injection H as <-.
    assert (Hok := Forall_lookup_1 _ _ _ _ Hh El). destruct (host_step_ok _ _ _ _ _ Hok Es) as [Hok' Hid].
    destruct (host_step_places _ _ _ _ _ Es) as (P1 & P2 & P3 & P4).
    destruct (Hput i _ h' (c || cancel) El Hid ltac:(by intros ->) Hok') as (H1 & H2 & l1 & l2 & -> & He).
    constructor; cbn [hosts run_cancelled reports set_host_at]; try done; unfold active, set_host_at; cbn [hosts]; rewrite He.
    + rewrite count_middle in *. rewrite P1 in Ha. by rewrite P2.
    + rewrite Hr, !filter_app, !filter_cons, P3, P4. done.
  - destruct (hs !! i) as [[id [] r]|] eqn:El; try done. injection H as <-.
    assert (Hok := Forall_lookup_1 _ _ _ _ Hh El).
    destruct (Hput i _ (mkTask id PAppended r) c El eq_refl (fun H => H) Hok) as (H1 & H2 & l1 & l2 & -> & He).
    constructor; cbn [hosts run_cancelled reports set_host_at]; try done; unfold active, set_host_at; cbn [hosts]; rewrite He.
    + rewrite count_middle in *. done.
    + rewrite Hr, !filter_app, !filter_cons. simpl. rewrite !map_app. simpl.
      by rewrite <- (Permutation_middle (map h_report (filter appended l1))), Permutation_app_comm.
  - destruct (hs !! i) as [[id [] r]|] eqn:El; try done. injection H as <-.
    assert (Hok := Forall_lookup_1 _ _ _ _ Hh El).
    destruct (Hput i _ (mkTask id PEnd r) c El eq_refl (fun H => H) Hok) as (H1 & H2 & l1 & l2 & -> & He).
    constructor; cbn [hosts run_cancelled reports set_host_at]; try done; unfold active, set_host_at; cbn [hosts]; rewrite He.
    + rewrite count_middle in *. simpl in *. lia.
    + rewrite Hr, !filter_app, !filter_cons. simpl. by rewrite !map_app.
  - destruct c; [done|]. injection H as <-. constructor; try done. cbn [run_cancelled hosts].
    eapply Forall_impl; [exact Hh|]. intros h. by apply host_ok_cancelled.
Qed.

Lemma run_ok_start ids : run_ok ids (start ids).
Proof.
  assert (Hnone : forall f : host -> bool, (forall id, f (new_host id) = false) -> filter f (map new_host ids) = []).
  { intros f Hf. induction ids as [|id l IH]; [done|]. cbn [map]. rewrite filter_cons, Hf. by rewrite IH. }
  constructor; unfold start; cbn [hosts run_cancelled reports].
  - rewrite map_map. apply map_id.
  - unfold active. cbn [hosts]. rewrite Hnone by done. simpl. lia.
  - apply Forall_map, Forall_forall. done.
  - by rewrite Hnone.
Qed.

Lemma reachable_ok ids s : reachable (fun s => s = start ids) step s -> run_ok ids s.
Proof.
  apply reachable_invariant; [intros ? ->; apply run_ok_start | intros; by eapply run_ok_step].
Qed.

(** ** After a cancellation *)
Definition pre_loop (h : host) : bool := match h_pc h with PWait | PResolve | PConnect => true | _ => false end.
Definition in_flight (h : host) : bool := match h_pc h with PStep _ _ => true | _ => false end.
Definition pseudo (r : StepResult) : Prop := exists e, r = resolve_step e \/ r = connect_step e.
(** What a host has become of [h] since then. *)
Definition grown (h h' : host) : Prop :=
  hr_steps (h_report h') = hr_steps (h_report h) \/
  exists r, hr_steps (h_report h') = hr_steps (h_report h) ++ [r] /\ (in_flight h = true \/ pre_loop h = true /\ pseudo r).
Definition settling (h h' : host) : Prop :=
  match h_pc h' with
  | PStep _ _ => h' = h
  | PWait | PResolve | PConnect => pre_loop h = true /\ hr_steps (h_report h') = hr_steps (h_report h)
  | _ => grown h h'
  end.

Lemma settling_refl h : settling h h.
Proof. unfold settling, pre_loop, grown. destruct (h_pc h); auto. Qed.
Lemma settling_grown h h' : settling h h' -> grown h h'.
Proof. unfold settling, grown. destruct (h_pc h'); try tauto. intros ->. by left. Qed.

Lemma settling_move h id p p' r : settling h (mkTask id p r) ->
  match p' with PResolve => p = PWait | PAppended | PEnd => True | _ => False end -> settling h (mkTask id p' r).
Proof.
  intros H Hp. destruct p'; try done; [by subst p|..]; apply settling_grown in H; exact H.
Qed.

Lemma host_step_settling a h h' h'' cancel : settling h h' -> host_step true a h' = Some (h'', cancel) -> settling h h''.
Proof.
  intros Hs H. pose proof (settling_grown _ _ Hs) as Hg. destruct h' as [id p r]. unfold Engine.host_step in H. cbn [h_pc h_report h_id] in H.
  destruct p as [| | |rest|s rest| | |], a as [[addr|e]|[e|]| |res]; try done; try (by destruct rest).
  - by injection H as <- <-.
  - injection H as <- <-. destruct Hs as [Hp Hs]. right. exists (resolve_step e). simpl in *. rewrite Hs.
    split; [done|]. right. split; [done|]. exists e. by left.
  - injection H as <- <-. destruct Hs as [Hp Hs]. right. exists (connect_step e). simpl in *. rewrite Hs.
    split; [done|]. right. split; [done|]. exists e. by right.
  - injection H as <- <-. destruct Hs as [Hp Hs]. by left.
  - destruct rest; injection H as <- <-; exact Hg.
  - assert (Hh : settling h h'' <-> grown h h'').
    { unfold settling, grown. destruct (_ && _); [|injection H as <- <-; done].
      unfold on_failure in H. by destruct (str_eq onError OnErrorContinue), abort_all; injection H as <- <-. }
    apply Hh. unfold settling in Hs. cbn [h_pc] in Hs. right. exists res. rewrite <- Hs. cbn [h_report h_pc in_flight]. split; [|by left].
    destruct (_ && _); [|by injection H as <- <-].
    unfold on_failure in H. by destruct (str_eq onError OnErrorContinue), abort_all; injection H as <- <-.
Qed.

Lemma settling_step s s' (before : list host) : run_cancelled s = true -> step s s' ->
  Forall2 settling before (hosts s) -> run_cancelled s' = true /\ Forall2 settling before (hosts s').
Proof.
  intros Hc [ev H] Hall. destruct s as [hs c rs]. cbn [hosts run_cancelled reports] in *. subst c.
  assert (Hput : forall i h h', hs !! i = Some h -> (forall h0, settling h0 h -> settling h0 h') -> Forall2 settling before (<[i := h']> hs)).
  { intros i h h' Hl Himp. apply Forall2_lookup. intros j. rewrite Forall2_lookup in Hall. specialize (Hall j).
    destruct (decide (i = j)) as [<-|Hne]; [|by rewrite list_lookup_insert_ne].
    rewrite list_lookup_insert_eq by (by eapply lookup_lt_Some). rewrite Hl in Hall.
    inversion Hall as [h0 ? Hs|]; subst. constructor. by apply Himp. }
  destruct ev as [i|i a|i|i|]; cbn [Engine.engine_step hosts run_cancelled reports] in H; [| | | |done].
  - destruct (hs !! i) as [[id [] r]|] eqn:El; try done. destruct (_ <? _)%nat; [|done]. injection H as <-. split; [done|].
    apply (Hput _ _ _ El). intros h0 Hs. by eapply settling_move.
  - destruct (hs !! i) as [h|] eqn:El; [|done]. destruct (host_step true a h) as [[h' cancel]|] eqn:Es; [|done]. injection H as <-.
    split; [done|]. apply (Hput _ _ _ El). intros h0 Hs. by eapply host_step_settling.
  - destruct (hs !! i) as [[id [] r]|] eqn:El; try done. injection H as <-. split; [done|].
    apply (Hput _ _ _ El). intros h0 Hs. by eapply settling_move.
  - destruct (hs !! i) as [[id [] r]|] eqn:El; try done. injection H as <-. split; [done|].
    apply (Hput _ _ _ El). intros h0 Hs. by eapply settling_move.
Qed.

Lemma settling_run s s' : run_cancelled s = true -> rtc step s s' -> Forall2 settling (hosts s) (hosts s').
Proof.
  intros Hc Hr. cut (run_cancelled s' = true /\ Forall2 settling (hosts s) (hosts s')); [tauto|].
  revert s' Hr. apply (rtc_ind_r (fun s' => run_cancelled s' = true /\ Forall2 settling (hosts s) (hosts s'))).
  - split; [done|]. apply Forall2_same_length_lookup_2; [done|]. intros i x y Hx Hy.
    rewrite Hx in Hy. injection Hy as <-. apply settling_refl.
  - intros s1 s2 _ Hs [Hc' IH]. by eapply settling_step.
Qed.

(** ** The end *)
Definition rank_pc (p : pc) : nat :=
  match p with
  | PWait => 2 * length steps + 6
  | PResolve => 2 * length steps + 5
  | PConnect => 2 * length steps + 4
  | PLoop rest => 2 * length rest + 3
  | PStep _ rest => 2 * length rest + 4
  | PDone => 2
  | PAppended => 1
  | PEnd => 0
  end.
Definition rank (s : run) : nat := sum_list_with (fun h => rank_pc (h_pc h)) (hosts s) + Nat.b2n (negb (run_cancelled s)).

Lemma host_step_rank c a h h' cancel : host_step c a h = Some (h', cancel) -> (rank_pc (h_pc h') < rank_pc (h_pc h))%nat.
Proof.
  destruct h as [id p r]. unfold Engine.host_step. cbn [h_pc h_report h_id]. intros H.
  destruct p as [| | |rest|s rest| | |], a as [[addr|e]|[e|]| |res]; try done;
    unfold on_failure in H; repeat (case_match; simplify_eq/=); simplify_eq/=; lia.
Qed.

Lemma step_rank s s' : step s s' -> (rank s' < rank s)%nat.
Proof.
  intros [ev H]. destruct s as [hs c rs].
  assert (Hput : forall i h h', hs !! i = Some h -> (rank_pc (h_pc h') < rank_pc (h_pc h))%nat ->
    (sum_list_with (fun h => rank_pc (h_pc h)) (<[i := h']> hs) < sum_list_with (fun h => rank_pc (h_pc h)) hs)%nat).
  { intros i h h' Hl Hlt. destruct (at_index _ _ _ Hl) as (l1 & l2 & -> & He). rewrite (He h').
    rewrite !sum_list_with_app. simpl. lia. }
  destruct ev as [i|i a|i|i|]; cbn [Engine.engine_step hosts run_cancelled reports] in H; unfold rank.
  - destruct (hs !! i) as [[id [] r]|] eqn:El; try done. destruct (_ <? _)%nat; [|done]. injection H as <-.
    cbn [hosts run_cancelled reports set_host_at]. pose proof (Hput _ _ (mkTask id PResolve r) El ltac:(simpl; lia)). lia.
  - destruct (hs !! i) as [h|] eqn:El; [|done]. destruct (host_step c a h) as [[h' cancel]|] eqn:Es; [|done]. injection H as <-.
    cbn [hosts run_cancelled reports set_host_at]. pose proof (Hput _ _ h' El (host_step_rank _ _ _ _ _ Es)).
    destruct c, cancel; simpl; lia.
  - destruct (hs !! i) as [[id [] r]|] eqn:El; try done. injection H as <-.
    cbn [hosts run_cancelled reports set_host_at]. pose proof (Hput _ _ (mkTask id PAppended r) El ltac:(simpl; lia)). lia.
  - destruct (hs !! i) as [[id [] r]|] eqn:El; try done. injection H as <-.
    cbn [hosts run_cancelled reports set_host_at]. pose proof (Hput _ _ (mkTask id PEnd r) El ltac:(simpl; lia)). lia.
  - destruct c; [done|]. injection H as <-. simpl. lia.
Qed.

Lemma steps_bounded n s s' : nsteps step n s s' -> (n + rank s' <= rank s)%nat.
Proof. induction 1 as [|n s1 s2 s3 Hs _ IH]; [lia|]. apply step_rank in Hs. lia. Qed.

Lemma rank_start ids : rank (start ids) = (length ids * (2 * length steps + 6) + 1)%nat.
Proof. unfold rank, start. cbn [hosts run_cancelled]. induction ids as [|id ids IH]; [done|]. simpl in *. lia. Qed.

(** A task that has its permit and is not at its end can move. *)
Lemma host_moves c h : pre_loop h = true \/ (exists rest, h_pc h = PLoop rest) \/ in_flight h = true ->
  h_pc h <> PWait -> exists a x, host_step c a h = Some x.
Proof.
  destruct h as [id p r]. unfold pre_loop, in_flight. cbn [h_pc]. intros H Hw.
  destruct p as [| | |rest|s rest| | |]; try done; try (by destruct H as [|[[? ?]|]]).
  - by exists (AResolve (Ok "")), (mkTask id PConnect (set_host "" r), false).
  - by exists (AConnect None), (mkTask id (PLoop steps) (set_status HostStatusSuccess r), false).
  - exists ANone. destruct rest; [by eexists|]. destruct c; by eexists.
  - exists (AResult zero_result). by eexists.
Qed.

Lemma engine_progress s : (0 < concurrency)%nat -> ~ finished s -> exists ev s', ev <> CancelRun /\ engine_step ev s = Some s'.
Proof.
  intros Hc Hn. destruct s as [hs c rs]. unfold finished in Hn. cbn [hosts] in Hn.
  destruct (decide (Exists (fun h => holds_permit h = true) hs)) as [Hex|Hno].
  - apply Exists_exists in Hex as (h & Hin & Hp). apply list_elem_of_lookup in Hin as [i Hl].
    destruct h as [id p r]. unfold holds_permit in Hp. cbn [h_pc] in Hp.
    assert (Hcase : p = PDone \/ p = PAppended \/ exists a x, host_step c a (mkTask id p r) = Some x).
    { destruct p; try done; auto; right; right; apply host_moves; cbn; eauto. }
    destruct Hcase as [->|[->|(a & [h' cancel] & Hm)]].
    + exists (Append i). cbn [Engine.engine_step hosts]. rewrite Hl. by eexists.
    + exists (Release i). cbn [Engine.engine_step hosts]. rewrite Hl. by eexists.
    + exists (Host i a). cbn [Engine.engine_step hosts run_cancelled]. rewrite Hl, Hm. by eexists.
  - apply not_Exists_Forall in Hno; [|apply _].
    apply not_Forall_Exists in Hn; [|intros x; destruct (h_pc x); (by left) || by right].
    apply Exists_exists in Hn as (h & Hin & Hp). apply list_elem_of_lookup in Hin as [i Hl].
    pose proof (Forall_lookup_1 _ _ _ _ Hno Hl) as Hperm. destruct h as [id p r].
    destruct p; try (by exfalso; apply Hperm); [|by exfalso; apply Hp].
    exists (Permit i). cbn [Engine.engine_step hosts]. rewrite Hl. unfold active. cbn [hosts].
    assert (filter holds_permit hs = []) as ->.
    { clear -Hno. induction hs as [|h hs IH]; [done|]. apply Forall_cons in Hno as [Hh Hno]. rewrite filter_cons.
      change (holds_permit h <> true) in Hh. apply not_true_is_false in Hh. rewrite Hh. simpl. auto. }
    simpl. destruct (0 <? concurrency)%nat eqn:E; [by eexists|]. apply Nat.ltb_ge in E. lia.
Qed.

(** C35: every execution of a run is finite, at most a bound in the hosts and steps, and
    none is stuck: while a host is not done, some task can move without a
    cancellation. So whatever the hosts answer, every host gets its report. *)
Theorem engine_terminates ids :
  (forall n s, nsteps step n (start ids) s -> (n <= length ids * (2 * length steps + 6) + 1)%nat) /\
  (forall s, (0 < concurrency)%nat -> ~ finished s -> exists ev s', ev <> CancelRun /\ engine_step ev s = Some s').
Proof.
  split; [|intros s; apply engine_progress].
  intros n s H. apply steps_bounded in H. rewrite rank_start in H. lia.
Qed.

(** once a run is cancelled, by its caller, its timeout or a failure under
    [abort_all], no host begins another step: a host in a step afterwards was in it before,
    and the results of a host grow by at most the one of the step it was in, or the
    failure to resolve or reach it. *)
Theorem cancelled_begins_nothing s s' : run_cancelled s = true -> rtc step s s' ->
  length (hosts s') = length (hosts s) /\
  forall i h h', hosts s !! i = Some h -> hosts s' !! i = Some h' ->
    (in_flight h' = true -> h' = h) /\
    (hr_steps (h_report h') = hr_steps (h_report h) \/
     exists r, hr_steps (h_report h') = hr_steps (h_report h) ++ [r] /\ (in_flight h = true \/ pre_loop h = true /\ pseudo r)).
Proof.
  intros Hc Hr. pose proof (settling_run _ _ Hc Hr) as H. split; [by apply Forall2_length in H|].
  intros i h h' Hh Hh'. pose proof (Forall2_lookup_lr _ _ _ _ _ _ H Hh Hh') as Hs. split; [|by apply settling_grown].
  unfold in_flight, settling in *. by destruct (h_pc h').
Qed.
End EngineProofs.

(** * The whole of [Run] *)
(** C32: a run has at least one host, each target once; at any moment at most as many
    hosts as the settings allow are being worked on, with one where they say nothing; every
    report says truly what happened on its host, and when all tasks are done there is
    exactly one report for each target. *)
Theorem engine_reports {provider : Provider} stat read p sources f s0 s :
  prepare_run stat read p = Ok (sources, f, s0) -> rtc (run_step_of p) s0 s ->
  exists ids, resolveTargets (pbTargets p) = Ok ids /\ ids <> [] /\ map h_id (hosts s) = ids /\
    (active s <= Z.to_nat (effective_concurrency (pbSettings p)))%nat /\
    (forall r, r ∈ reports s -> hr_node r ∈ ids /\ report_of (effective_onError (pbSettings p)) (Steps p) (run_cancelled s) r) /\
    (finished s -> map hr_node (reports s) ≡ₚ ids).
Proof.
  intros Hp Hr. unfold prepare_run in Hp. apply result_bind_ok in Hp as (src & _ & Hp).
  apply result_bind_ok in Hp as (ids & Hids & Hp). apply map_err_ok in Hids. apply bind_reject_ok in Hp as [Hlen [= <- <- <-]].
  exists ids. split; [done|]. split; [by intros ->|].
  assert (Hok : run_ok (effective_onError (pbSettings p)) (Z.to_nat (effective_concurrency (pbSettings p))) (Steps p) ids s).
  { apply reachable_ok. by exists (start ids). }
  destruct Hok as [H1 H2 H3 H4]. split; [done|]. split; [done|]. split.
  - intros r Hin. rewrite H4 in Hin. apply list_elem_of_fmap in Hin as (h & -> & Hin). apply list_elem_of_filter in Hin as [Ha Hin].
    destruct (proj1 (Forall_forall _ _) H3 h Hin) as [Hn Hrep]. rewrite Hn. split.
    + rewrite <- H1. by apply list_elem_of_fmap_2.
    + unfold appended in Ha. by destruct (h_pc h).
  - intros Hfin. rewrite H4, <- H1. unfold finished in Hfin.
    assert (filter appended (hosts s) = hosts s) as ->.
    { clear -Hfin. induction (hosts s) as [|h l IH]; [done|]. apply Forall_cons in Hfin as [Hh Hl].
      assert (Ha : appended h = true) by (unfold appended; by rewrite Hh).
      rewrite filter_cons, Ha. simpl. by rewrite IH. }
    rewrite map_map. erewrite map_ext_in; [reflexivity|]. intros h Hin.
    apply list_elem_of_In in Hin. by destruct (proj1 (Forall_forall _ _) H3 h Hin) as [Hn _].
Qed.

(** Two hosts under [abort_all] with one permit: the first fails, the second is never
    connected to its steps. *)
Definition two_hosts : Playbook :=
  mkPlaybook "demo" (mkTargets ["web"] [] []) (mkSettings 0 false OnErrorAbortAll 0 None) ∅ [sample_step].
Definition failing : StepResult := with_name "greet" (completed StatusFailed "no" (Some 2)).
Definition play (evs : list event) (s : run) : option run :=
  foldl (fun acc ev => acc ≫= engine_step OnErrorAbortAll 1 [sample_step] ev) (Some s) evs.
Definition sample_events : list event :=
  [Permit 0; Host 0 (AResolve (Ok "b.example")); Host 0 (AConnect None); Host 0 ANone; Host 0 (AResult failing); Append 0; Release 0;
   Permit 1; Host 1 (AResolve (Ok "a.example")); Host 1 (AConnect None); Host 1 ANone; Append 1; Release 1].
Definition report_b : HostReport := mkHost "b" "b.example" [failing] HostStatusFailed false.
Definition report_a : HostReport := mkHost "a" "a.example" [] HostStatusAborted true.
Definition sample_end : run := mkRun [mkTask "b" PEnd report_b; mkTask "a" PEnd report_a] true [report_b; report_a].
Example sample_play : play sample_events (start ["b"; "a"]) = Some sample_end.
Proof. vm_compute; reflexivity. Qed.

Lemma play_steps evs : forall s s', play evs s = Some s' -> rtc (step OnErrorAbortAll 1 [sample_step]) s s'.
Proof.
  unfold play. induction evs as [|ev evs IH]; intros s s' H; [by injection H as ->|]. simpl in H.
  destruct (engine_step OnErrorAbortAll 1 [sample_step] ev s) as [s1|] eqn:E.
  - eapply rtc_l; [by exists ev | by apply IH].
  - exfalso. clear -H. by induction evs.
Qed.

Lemma engine_reports_witness :
  map hr_node (reports sample_end) ≡ₚ ["b"; "a"] /\ report_of OnErrorAbortAll [sample_step] true report_b.
Proof.
  destruct (engine_reports (provider := sample_provider) (fun _ => Ok 1) (fun p => Ok p) two_hosts ∅
    (freeze_targets (provider := sample_provider) ["b"; "a"] (snapshotExecution (provider := sample_provider))) (start ["b"; "a"]) sample_end
    ltac:(reflexivity) (play_steps _ _ _ sample_play)) as (ids & Hids & _ & _ & _ & Hrep & Hend).
  assert (ids = ["b"; "a"]) as -> by (vm_compute in Hids; congruence).
  split.
  - apply Hend. repeat constructor.
  - apply (Hrep report_b). left.
Defined.

Lemma cancelled_begins_nothing_witness :
  length (hosts sample_end) = length (hosts (mkRun [mkTask "b" PEnd report_b; new_host "a"] true [report_b])).
Proof.
  apply (cancelled_begins_nothing OnErrorAbortAll 1 [sample_step] (mkRun [mkTask "b" PEnd report_b; new_host "a"] true [report_b])).
  - reflexivity.
  - apply (play_steps (drop 7 sample_events)). vm_compute; reflexivity.
Defined.
